(* ===== verification/_CoqProject ===== *)
-Q . S2P
Prelude.v
RustStr.v
Order.v
Control.v
LocalBearer.v
BrokerAccess.v
AccessIssuer.v
Sql.v
OidcTables.v
InstanceRegistry.v
ResourceGrants.v
Session.v
Identity.v
ResourcePolicy.v
StorageAdmission.v
Credentials.v
LocalMfa.v
Device.v
Tickets.v
DeviceHistory.v
OidcPolicy.v
OidcRefresh.v
OidcRevocation.v
OidcRequests.v
OidcEndSession.v
OidcAccess.v
OidcRegistration.v
OidcExchange.v
OidcLife.v
OidcScenario.v
CodeHistory.v
StoragePolicy.v
HubAccess.v
InferenceAdmission.v
PasswordAdmission.v
LocalAuth.v
LocalPassword.v
LocalLogin.v
LocalLoginSteps.v
LocalPasswordChange.v
LocalScenario.v
NowWire.v
ProjectAuthorization.v
Instances.v
NowChannel.v
RealtimeHub.v
FilesystemSession.v
FileTree.v
FilesystemStore.v
FilesystemObjects.v
FilesystemListing.v
FilesystemMultipart.v
