(* ===== verification/Prelude.v ===== *)
(** * Graphit Broker: a verification development

    The broker authenticates callers, issues and manages OAuth and OpenID Connect
    tokens, reads the grants stored for a caller, decides what it may do on
    projects, models, object storage and the Hub, and relays ephemeral "Now"
    snapshots between installations; it can also serve objects from a directory
    to the sessions it issues.  This library models its decision and
    state-keeping code (crates/broker-control, broker-security, broker-now-wire,
    the realtime Hub of broker-presence and the filesystem store of
    broker-storage, under src/) and proves what each part promises.

    ** The program and the files

    Foundations
    - [Prelude]: Rust's [Result] and [?], computations over an explicit state
      ([M S E A], with errors that keep the state reached), the two clocks and
      machine integers, tactics that invert a run, and the [only] calculus of
      the errors a computation can report.
    - [RustStr]: strings as their UTF-8 bytes, with the operations the code calls.
    - [Order]: [Ord], [sort], [dedup], [BTreeSet] as sorted lists.
    - [Control]: error.rs, time.rs, service.rs [bounded_deadline], and the
      interfaces of the third-party crates.
    - [Sql]: transactions of service/*.rs: statements, locks, interference,
      faults and COMMIT, with what a run of them can do to the database.

    Authentication
    - [LocalBearer]: local_bearer*.rs, the verification of opaque credentials.
    - [BrokerAccess]: broker_access.rs, the verification of signed tokens;
      [AccessIssuer]: broker_access_issuer.rs, their signing.
    - [Credentials]: broker-security, digests of credentials, challenges.
    - [Identity]: the proofs the resource components retain (upstream_oidc.rs,
      admin_broker_session.rs) and the policy's view of a caller.
    - [Session]: session.rs, the stored administrative session.
    - [PasswordAdmission]: local_password_admission.rs, the lockout and the bound
      on concurrent password work, a state machine under one mutex.

    Local accounts (crates/broker-security and crates/broker-control)
    - [LocalMfa]: local_mfa.rs, the encrypted secret of a factor, its one-time
      codes, recovery codes.
    - [LocalAuth]: local_auth.rs, policies and stages of a login, and the limiter
      of attempts, a state machine under one mutex.
    - [LocalPassword]: password.rs, local_password.rs and service/local_password.rs,
      stored hashes, the engine that computes them, the check of a password.
    - [LocalLogin]: service/local_auth.rs, the transactions of a login: its
      beginning, the mandatory change of a password, the second factor, and the
      invalidation of what a person was given.
    - [LocalLoginSteps]: what those transactions do, statement by statement, up to
      the attempt with the second factor; [LocalPasswordChange]: the change of a
      password, and every way to complete a login.
    - [LocalScenario]: one login from its first password to its second factor.

    OAuth and OpenID Connect (crates/broker-control, oidc_*.rs and device.rs,
    each with its transactions in service/)
    - [OidcTables]: the rows of the tables, stored principals and tokens, the
      current principal of a person, and [atomically], the form of the
      refinement theorems below.
    - [OidcPolicy]: oidc_authorization.rs, the admission of requests.
    - [OidcRequests]: creating, loading and completing authorization requests;
      [OidcExchange]: the exchange of their codes; [CodeHistory]: how often a code
      is drawn and exchanged over sequences of calls.
    - [Device]: device.rs, the device flow; [DeviceHistory]: how often a device
      code is issued, approved and redeemed over sequences of calls.
    - [Tickets]: sequences of calls with interference, and the ledger (class
      [Ledger]) that counts their events against what the database holds.
    - [OidcRefresh]: rotation of refresh tokens; [OidcRevocation]: revocation;
      [OidcLife]: families of tokens over sequences of both.
    - [OidcEndSession]: the end of a session by a signed hint.
    - [OidcAccess]: introspection and user information, and what they say after
      the end of a session.
    - [OidcRegistration]: registration of clients.
    - [OidcScenario]: concrete runs of the last three.

    Authorization
    - [ResourceGrants]: resource_grants.rs, the codec of the stored rules.
    - [ResourcePolicy]: resource_policy.rs, compiled policies and their decisions.
    - [StorageAdmission], [StoragePolicy]: storage_admission.rs and
      storage_policy.rs, the paths a caller may touch in object storage.
    - [HubAccess]: hub_access.rs, project selectors and catalog routes.
    - [InferenceAdmission]: embedding_admission.rs and rerank_admission.rs.
    - [ProjectAuthorization]: the project and presence authorizers.

    Installations and the Now channel
    - [InstanceRegistry]: instance_registry.rs, validated inventories.
    - [Instances]: instance_read.rs and service/instances.rs, the stored
      inventories and the transaction that replaces one.
    - [NowWire]: broker-now-wire, validated snapshots and their masking.
    - [NowChannel]: now_channel.rs, the authorization of a channel operation.
    - [RealtimeHub]: realtime_hub.rs, the publications of channels, their
      handles, subscriptions and replays.

    Object storage on a filesystem (crates/broker-storage)
    - [FilesystemSession]: filesystem_session.rs, the tokens of storage sessions
      and what a session allows.
    - [FileTree]: the environment of the store: trees of files, the calls on them
      and what each may change, bodies read in chunks.
    - [FilesystemStore]: filesystem_store.rs, every operation on objects, with
      the effects of each step; [FilesystemObjects]: what whole operations do.
    - [FilesystemListing]: filesystem_listing.rs, listing, copying and deleting
      in batches.
    - [FilesystemMultipart]: filesystem_multipart.rs, multipart uploads.

    An authorizer composes them: it shortens the deadline, authenticates, reads
    the grants, compiles a policy, decides, and checks its proof once more.  The
    Hub takes the proofs of [NowChannel]; its theorems use of a proof only what
    [NowChannel] proves of every proof it issues ([RealtimeHub.issued]).  The
    token flows share the rows of [OidcTables] and the locks on them.  A local
    login ends in the [CompletedLocalLogin] that [Device] and [OidcRequests] take.

    ** How the code is represented

    Time.  [SystemTime] and [Instant] are nanoseconds in [Z].  A [clock] gives
    the samples successive calls of [now] return, one per call and without any
    assumption on them, so a theorem holds for every clock, also one that goes
    back (only those on polls, device codes and pages of listings ask for one that
    does not); each deadline and
    expiry is checked against the sample the code takes, and the theorems about
    an expiry name that sample, or say that the time was read from the clock of
    the call ([read_at], [clock_run]).
    Additions are checked at the width of the standard library's times.

    Errors are values of the source's enums.  A function of the model is total;
    loops are structural recursions on the data the code iterates over.  The
    exceptions are the recursive walk of a listing, whose fuel is the depth of the
    tree (walk_never_starves shows that it is enough), the loop over the requests
    of a person, which uses up a turn of the others or passes one more request in
    each round (clear_quiet_fuel and clear_busy_fuel show that more fuel changes
    nothing), and functions on strings, whose fuel is the length of the string.

    Shared state.  Operations under a mutex are atomic; a concurrent execution
    is any sequence of them ([PasswordAdmission] has a list of events, [LocalAuth]
    the relation [moves], in which any number of attempts, each under a number of
    its own, are in flight, [RealtimeHub] the relation [hub_step], which also lets the clock jump and the mutex be
    poisoned between two critical sections).  Objects the code shares by
    reference (publication identities, broadcast channels) live in heaps and are
    referred to by address.

    SQL.  The database is a finite map from table and primary key to rows; unique
    columns are checked.  A transaction at READ COMMITTED keeps its writes apart
    until COMMIT.  At every suspension point the schedule of a run says what other
    transactions commit meanwhile (never a change of a row locked here), whether
    the statement fails or the timeout cuts the operation off, and whether a
    COMMIT that fails took effect.  What others may do, given the locks held here,
    is a relation [R] with the laws [Rely]; the theorems hold for every such [R],
    where needed with the rules the code itself follows: [TokenRely] (tokens of a
    person are stored under the row of the person, those of a federated family
    under the lock of the family), [PairRely] (tokens of a subject with a
    client are stored under the lock of the pair) and [PersonRely] (whatever a
    person can act with is given under the row of the person).  A refinement theorem then has
    one form: the whole operation is one step of its specification at one moment
    of its run, or nothing with an error; after the step the answer may be an
    error that comes too late.  The transaction of [Instances] has its own, older
    form of the same, without interference.  The reads of the resource services
    are parameters of the operations that use them.

    Files.  The store keeps three trees (objects, metadata, uploads), finite maps
    from paths to files and directories.  Each system call consults a schedule of
    faults and may fail without effect; a recursive removal that fails leaves any
    part of the directory.  A file being staged is a value until it is renamed
    into place, which is atomic; staging directories hold nothing else.  A lock is
    taken after any number of failed attempts, and the session is checked against
    the clock at every step where the code checks it.  The order of directory
    entries is arbitrary.  File names are UTF-8.  An operation runs without
    writes of other requests to the files it holds locks for; a listing, which
    takes none while it walks, is modelled without writes in between.

    Third-party code is a parameter: the classes [UlidLib], [GlobLib], [JwtLib],
    [HintLib], [SignLib], [CredentialLib], [AuthLib], [RefreshLib], [RequestLib],
    [ExchangeLib], [RegistrationLib], [OidcLib], [MfaLib], [PasswordLib],
    [InvalidationLib], [SessionLib] and [StoreLib], the
    JSON decoders, digests and the bearer verifier of an upstream provider; random
    bytes are arguments.  Where a theorem needs documented behaviour of one it is
    a named hypothesis or a class of laws, and the theorems named below come with
    an instance that satisfies it.

    ** What the theorems show

    - Authentication: a proof exists only for a credential that was valid when
      checked, with its audience and scopes, and its lifetime is never extended
      (verify_bound_sound, verify_local_bearer_sound, vl_finish_never_renews); a
      token that was signed is accepted (access_round_trip); a digest names one
      credential (digest_determines_credential).
    - Password work: lockout, accounting and availability over all interleavings
      (lockout_enforced, admission_accounting, admit_available).
    - Local logins: an attempt with the second factor and the change of a password
      are atomic under every interference and fault, and take back what was given
      under the old password or without the factor (mfa_refines, change_refines;
      begin_atomic, load_login_atomic and verify_local_atomic for the rest); where
      a factor is required no login completes without one (factor_required); over
      all interleavings guesses of a code are rationed (guesses_rationed), and the
      limiter lets one attempt of a person be in flight at a time
      (limiter_well_formed).
    - Token flows, each operation one atomic step under every interference and
      fault: browser_refines, complete_refines, exchange_refines, poll_refines,
      rotate_refines, revoke_refines, end_session_refines, introspect_refines,
      profile_refines.
    - Token flows over sequences of calls: counting what is stored at either end,
      an authorization code is exchanged no more often than it was drawn and a
      device code gives no more tokens than it was issued and approved
      (code_single_use, device_single_use), a family has one usable refresh token
      (family_single), and nothing of an ended session is active (ended_inactive).
    - Requests and clients are read back as they were stored (admit_round_trip,
      registration_round_trip); every request that leaves no room for the default
      response mode under the parameter limit is admitted, and its stored form is
      refused (tight_request_malformed, a defect of the code).
    - Policies: compiled decisions equal the decisions read off the stored rules
      (policy_decision, policy_decision_any, inference_decision), storage grants
      are exactly what the rules give (authorize_exact, intersect_meet,
      storage_denied_exact), and so are Hub resolutions, routes, admissions and
      project, presence and channel authorizations (the _exact theorems).
    - Codecs: stored rows are accepted exactly in canonical form and read back
      what was written (decode_snapshot_canonical, session_round_trip,
      AdminSession_stored_sound, decode_inventory_canonical, decimal_canonical,
      ordered_exact), and hashed identities are unambiguous (the _preimage_inj
      theorems).
    - The registry transaction refines an atomic replacement of an inventory
      under every schedule of faults (replace_instance_inventory_refines).
    - The realtime Hub keeps its invariant over all histories (hub_history); an
      ended handle is inert (ended_handle_inert), opening and checking a
      publication do exactly what they say (open_publisher_exact,
      check_active_exact), a replay shows exactly what both proofs allow
      (replay_exact, filter_snapshot_masks, mask_sections_monotone), and the
      maintenance task wakes in time (maintenance_wakes).
    - Storage sessions: a token is accepted only as it was issued (fs_verify_sound,
      fs_token_round_trip), and lets nobody do more than the grant it was issued
      for (fs_issue_confined).
    - The object store: writes, deletions, copies and completed uploads are atomic
      under every schedule of faults, certain errors change nothing and the rest
      say that the commit is uncertain (put_refines, delete_refines, copy_refines,
      delete_batch_reports, complete_upload_refines, create_upload_opens,
      abort_upload_exact); what is written is what is read (put_then_read,
      upload_then_complete, open_range_bounds); listings are exact and complete
      (list_page_exact, list_pages_complete, directory_listing_complete,
      list_parts_exact, walk_never_starves); only abandoned uploads are removed
      (prune_exact).

    ** What is not modelled

    Network and process code (HTTP handlers, server configuration, the AWS and
    model-provider clients, discovery and login at upstream providers), database
    drivers, migrations and cryptography, which are I/O or third-party.  Of the
    code that could be modelled in the same way: the verification of a password
    under admission and the start and end of the password engine, the first
    administrator, captchas and the issue of local bearers, the administrative
    console, the
    read-only snapshots of stored grants, the embedding cache, the HTTP gateway of
    the filesystem store and the opening of its directories at startup, the socket
    session of realtime.rs, the services that compose the instance registry with
    the authorizers, and the SQLite and MySQL variants of the transactions.  In
    the Hub, the awaits of [wait_inactive] and [recv] are left out: they only
    suspend. *)

From stdpp Require Export base tactics option list numbers strings.
From stdpp Require Import gmap.

(** ** Results: Rust's [Result<A, E>] *)

Inductive result (E A : Type) : Type :=
| Ok (a : A)
| Err (e : E).
Arguments Ok {E A} _.
Arguments Err {E A} _.

#[global] Instance result_eq_dec {E A} `{EqDecision E, EqDecision A} :
  EqDecision (result E A).
Proof. solve_decision. Defined.

(** [Result::and_then], which is also the [?] operator. *)
Definition rbind {E A B} (r : result E A) (k : A → result E B) : result E B :=
  match r with
  | Ok a => k a
  | Err e => Err e
  end.

(** [Result::map] *)
Definition rmap {E A B} (f : A → B) (r : result E A) : result E B :=
  match r with
  | Ok a => Ok (f a)
  | Err e => Err e
  end.

(** [Option::is_none_or] and [is_some_and]. *)
Definition is_none_or {A} (o : option A) (f : A → bool) : bool :=
  match o with None => true | Some a => f a end.
Definition is_some_and {A} (o : option A) (f : A → bool) : bool :=
  match o with None => false | Some a => f a end.
(** [Result::map_err], and the [From] conversion that [?] inserts. *)
Definition rmap_err {E F A} (f : E → F) (r : result E A) : result F A :=
  match r with
  | Ok a => Ok a
  | Err e => Err (f e)
  end.

(** [Option::ok_or] *)
Definition ok_or {E A} (o : option A) (e : E) : result E A :=
  match o with
  | Some a => Ok a
  | None => Err e
  end.

Definition is_ok {E A} (r : result E A) : bool :=
  match r with Ok _ => true | Err _ => false end.

(** [iter.map(f).collect::<Result<Vec<_>, _>>()]: the first error wins. *)
Fixpoint rcollect {E A B} (f : A → result E B) (l : list A) : result E (list B) :=
  match l with
  | [] => Ok []
  | x :: l => rbind (f x) (λ y, rmap (cons y) (rcollect f l))
  end.

(** ** Computations over an explicit state: a function that takes [&mut S]
    (or reads the clock) and returns a [Result].  The state reached so far is
    kept when an error is returned. *)

Definition M (S E A : Type) : Type := S → result E A * S.

Definition ret {S E A} (a : A) : M S E A := λ s, (Ok a, s).
Definition fail {S E A} (e : E) : M S E A := λ s, (Err e, s).
Definition bind {S E A B} (m : M S E A) (k : A → M S E B) : M S E B := λ s,
  match m s with
  | (Ok a, s') => k a s'
  | (Err e, s') => (Err e, s')
  end.
Definition get {S E} : M S E S := λ s, (Ok s, s).
Definition put {S E} (s' : S) : M S E unit := λ _, (Ok tt, s').
Definition lift_result {S E A} (r : result E A) : M S E A := λ s, (r, s).
Definition map_err {S E F A} (f : E → F) (m : M S E A) : M S F A := λ s,
  match m s with
  | (Ok a, s') => (Ok a, s')
  | (Err e, s') => (Err (f e), s')
  end.
(** Run [m] to its result without propagating its error: the value of a
    [Result] that the caller keeps and inspects later. *)
Definition outcome {S E F A} (m : M S E A) : M S F (result E A) := λ s,
  match m s with (r, s') => (Ok r, s') end.

Declare Scope broker_scope.
Delimit Scope broker_scope with broker.
Notation "'let?' x ':=' m 'in' k" := (bind m (λ x, k))
  (at level 200, x pattern, m at level 100, k at level 200, right associativity) : broker_scope.
Notation "'do?' m 'in' k" := (bind m (λ _, k))
  (at level 200, m at level 100, k at level 200, right associativity) : broker_scope.
Notation "'let!' x ':=' m 'in' k" := (rbind m (λ x, k))
  (at level 200, x pattern, m at level 100, k at level 200, right associativity) : broker_scope.
Notation "'do!' m 'in' k" := (rbind m (λ _, k))
  (at level 200, m at level 100, k at level 200, right associativity) : broker_scope.
Open Scope broker_scope.

(** A [for] loop whose body may return early with [?]. *)
Fixpoint mfor {S E A B} (f : B → A → M S E B) (acc : B) (l : list A) : M S E B :=
  match l with
  | [] => ret acc
  | x :: l => let? acc' := f acc x in mfor f acc' l
  end.

(** [iter.map(f).collect::<Result<Vec<_>, _>>()?] with an effectful [f]. *)
Fixpoint mcollect {S E A B} (f : A → M S E B) (l : list A) : M S E (list B) :=
  match l with
  | [] => ret []
  | x :: l => let? y := f x in let? ys := mcollect f l in ret (y :: ys)
  end.

(** ** Clocks.  [Instant::now()] and [SystemTime::now()] read the next sample
    of the environment's two clocks, in nanoseconds.  Each read advances the
    sample index, so two reads of one function can differ. *)

Record clock := Clock {
  mono_at : nat → Z;
  utc_at : nat → Z;
  tick : nat;
}.

Definition advance (c : clock) : clock :=
  {| mono_at := mono_at c; utc_at := utc_at c; tick := S (tick c) |}.
Definition instant_now {E} : M clock E Z := λ c, (Ok (mono_at c (tick c)), advance c).
Definition system_now {E} : M clock E Z := λ c, (Ok (utc_at c (tick c)), advance c).

(** [Instant] and [SystemTime] are an [i64] of seconds and a nanosecond part;
    [checked_add] is [None] when the seconds overflow. *)
Definition NANOS : Z := 1000000000.
Definition TIME_MAX : Z := (2 ^ 63 - 1) * NANOS + 999999999.
Definition checked_add_time (t d : Z) : option Z :=
  if (t + d <=? TIME_MAX)%Z then Some (t + d)%Z else None.
(** [duration_since] of a [SystemTime]: an error when the argument is later. *)
Definition duration_since (t earlier : Z) : option Z :=
  if (earlier <=? t)%Z then Some (t - earlier)%Z else None.
(** [saturating_duration_since] of an [Instant]. *)
Definition saturating_duration_since (t earlier : Z) : Z := Z.max 0 (t - earlier).
Definition UNIX_EPOCH : Z := 0.

(** Machine integers. *)
Definition U64_MAX : Z := 2 ^ 64 - 1.
Definition I64_MAX : Z := 2 ^ 63 - 1.
Definition USIZE_MAX : Z := 2 ^ 64 - 1.
Definition ISIZE_MAX : Z := 2 ^ 63 - 1.
Definition checked_add_usize (a b : Z) : option Z :=
  if (a + b <=? USIZE_MAX)%Z then Some (a + b)%Z else None.
Definition checked_mul_usize (a b : Z) : option Z :=
  if (a * b <=? USIZE_MAX)%Z then Some (a * b)%Z else None.
Definition saturating_add_usize (a b : Z) : Z := Z.min USIZE_MAX (a + b).

(** A run of the clock from [c] to [c']: same environment, later sample. *)
Record clock_run (c c' : clock) : Prop := {
  run_mono : mono_at c' = mono_at c;
  run_utc : utc_at c' = utc_at c;
  run_tick : tick c ≤ tick c';
}.

(** Every [Instant] read in the run is before [stop]. *)
Definition mono_before (stop : Z) (c c' : clock) : Prop :=
  ∀ n, tick c ≤ n < tick c' → (mono_at c n < stop)%Z.
(** Some [Instant] read in the run is at or after [stop]. *)
Definition mono_reached (stop : Z) (c c' : clock) : Prop :=
  ∃ n, tick c ≤ n < tick c' ∧ (stop ≤ mono_at c n)%Z.

(** [guarded stop D m r]: [m] is the pure computation [r] interleaved with
    checks of the deadline [stop].  Either no read reached the deadline and the
    outcome is [r], or some read reached it and the outcome is the deadline
    error [D]: there is no third outcome. *)
Definition guarded {E A} (stop : Z) (D : E) (m : M clock E A) (r : result E A) : Prop :=
  ∀ c x c', m c = (x, c') →
    clock_run c c' ∧
    ((mono_before stop c c' ∧ x = r) ∨ (mono_reached stop c c' ∧ x = Err D)).

(** ** Tactics *)

(** Case analysis on the scrutinee of the innermost [match]/[if] in the goal. *)
Ltac case_goal :=
  match goal with
  | |- context [match ?x with _ => _ end] =>
      lazymatch x with
      | context [match _ with _ => _ end] => fail
      | _ => let E := fresh "E" in destruct x eqn:E
      end
  end.
(** The same in a hypothesis. *)
Ltac case_hyp H :=
  match type of H with
  | context [match ?x with _ => _ end] =>
      lazymatch x with
      | context [match _ with _ => _ end] => fail
      | _ => let E := fresh "E" in destruct x eqn:E
      end
  end.
(** Turn boolean comparisons and connectives into propositions. *)
Ltac bool_to_prop :=
  repeat match goal with
  | H : (_ && _)%bool = true |- _ => apply andb_true_iff in H as [??]
  | H : (_ || _)%bool = false |- _ => apply orb_false_iff in H as [??]
  | H : negb _ = true |- _ => apply negb_true_iff in H
  | H : negb _ = false |- _ => apply negb_false_iff in H
  | H : (_ <=? _)%Z = true |- _ => apply Z.leb_le in H
  | H : (_ <=? _)%Z = false |- _ => apply Z.leb_gt in H
  | H : (_ <? _)%Z = true |- _ => apply Z.ltb_lt in H
  | H : (_ <? _)%Z = false |- _ => apply Z.ltb_ge in H
  | H : (_ =? _)%Z = true |- _ => apply Z.eqb_eq in H
  | H : (_ =? _)%Z = false |- _ => apply Z.eqb_neq in H
  | H : bool_decide _ = true |- _ => apply bool_decide_eq_true in H
  | H : bool_decide _ = false |- _ => apply bool_decide_eq_false in H
  end.

Create HintDb broker discriminated.

(** ** Lemmas on results *)

Lemma rbind_ok {E A B} (r : result E A) (k : A → result E B) b :
  rbind r k = Ok b ↔ ∃ a, r = Ok a ∧ k a = Ok b.
Proof. destruct r; simpl; naive_solver. Qed.

Lemma rcollect_ok {E A B} (f : A → result E B) l l' :
  rcollect f l = Ok l' ↔ Forall2 (λ x y, f x = Ok y) l l'.
Proof.
  revert l'. induction l as [|x l IH]; intros l'; simpl.
  { split; [intros [= <-]; constructor | intros H; by inv H]. }
  split.
  - destruct (f x) eqn:Ef; simpl; [|done].
    destruct (rcollect f l) eqn:El; simpl; [|done].
    intros [= <-]. constructor; [done|]. by apply IH.
  - intros H. inv H. rewrite H2. simpl. by rewrite (proj2 (IH _) H4).
Qed.

Lemma rcollect_is_ok {E A B} (f : A → result E B) l :
  is_ok (rcollect f l) = forallb (λ x, is_ok (f x)) l.
Proof.
  induction l as [|x l IH]; simpl; [done|].
  destruct (f x); simpl; [|done]. rewrite <- IH. by destruct (rcollect f l).
Qed.

(** ** Successful runs *)

Lemma bind_ok {S E A B} (m : M S E A) (k : A → M S E B) s b s' :
  bind m k s = (Ok b, s') → ∃ a s1, m s = (Ok a, s1) ∧ k a s1 = (Ok b, s').
Proof. unfold bind. destruct (m s) as [[a|e] s1] eqn:Em; [eauto|done]. Qed.
Lemma ret_ok {S E A} (a b : A) (s s' : S) : ret (E:=E) a s = (Ok b, s') → b = a ∧ s' = s.
Proof. by intros [= -> ->]. Qed.
Lemma map_err_ok {S E F A} (f : E → F) (m : M S E A) s a s' :
  map_err f m s = (Ok a, s') → m s = (Ok a, s').
Proof. unfold map_err. destruct (m s) as [[]]; naive_solver. Qed.
Lemma rmap_err_ok {E F A} (f : E → F) (r : result E A) a : rmap_err f r = Ok a → r = Ok a.
Proof. by destruct r; intros [= ->]. Qed.
Lemma ok_or_ok {E A} (o : option A) (e : E) a : ok_or o e = Ok a → o = Some a.
Proof. by destruct o; intros [= ->]. Qed.
Lemma lift_ok {S E A} (r : result E A) (s : S) a s' :
  lift_result r s = (Ok a, s') → r = Ok a ∧ s' = s.
Proof. by intros [= -> ->]. Qed.

Lemma instant_now_ok {E} c a c' :
  instant_now (E:=E) c = (Ok a, c') → a = mono_at c (tick c) ∧ c' = advance c.
Proof. unfold instant_now. intros H. by simplify_eq. Qed.
Lemma system_now_ok {E} c a c' :
  system_now (E:=E) c = (Ok a, c') → a = utc_at c (tick c) ∧ c' = advance c.
Proof. unfold system_now. intros H. by simplify_eq. Qed.

(** Inversion of a successful run, one [?] at a time. *)
Ltac norm_run E :=
  repeat lazymatch type of E with
  | map_err _ _ _ = (Ok _, _) => apply map_err_ok in E
  | lift_result _ _ = (Ok _, _) => apply lift_ok in E as [E ->]
  | ok_or _ _ = Ok _ => apply ok_or_ok in E
  | instant_now _ = _ => apply instant_now_ok in E as [-> ->]
  | system_now _ = _ => apply system_now_ok in E as [-> ->]
  end.
Ltac invert_run H :=
  repeat match type of H with
  | bind _ _ _ = (Ok _, _) =>
      let a := fresh "a" in let s := fresh "s" in let R := fresh "R" in
      apply bind_ok in H as (a & s & R & H); try norm_run R
  | (if ?b then fail _ else _) _ = (Ok _, _) =>
      let C := fresh "C" in destruct b eqn:C; [discriminate H|]
  | (if ?b then _ else fail _) _ = (Ok _, _) =>
      let C := fresh "C" in destruct b eqn:C; [|discriminate H]
  | (match ?o with Some _ => _ | None => fail _ end) _ = (Ok _, _) =>
      let C := fresh "C" in destruct o eqn:C; [|discriminate H]
  | ret _ _ = (Ok _, _) => apply ret_ok in H as [H ?]; subst
  end.

(** Case analysis of any run, one [?] at a time: the step succeeded and the
    run continues, or its error is the outcome. *)
Lemma bind_run {S E A B} (m : M S E A) (k : A → M S E B) s a s' :
  m s = (Ok a, s') → bind m k s = k a s'.
Proof. unfold bind. by intros ->. Qed.
Lemma bind_cases {S E A B} (m : M S E A) (k : A → M S E B) s x s' :
  bind m k s = (x, s') →
  (∃ a s1, m s = (Ok a, s1) ∧ k a s1 = (x, s')) ∨ (∃ e, m s = (Err e, s') ∧ x = Err e).
Proof. unfold bind. destruct (m s) as [[a|e] s1]; [by eauto|]. intros [= <- <-]. eauto. Qed.
Lemma map_err_err {S E F A} (f : E → F) (m : M S E A) s e s' :
  map_err f m s = (Err e, s') → ∃ e0, m s = (Err e0, s') ∧ e = f e0.
Proof. unfold map_err. destruct (m s) as [[a|e0] s1]; [done|]. intros [= <- <-]. eauto. Qed.
Ltac run_cases H :=
  let a := fresh "a" in let s := fresh "s" in let R := fresh "R" in let e := fresh "e" in
  apply bind_cases in H as [(a & s & R & H)|(e & R & ->)];
  [try norm_run R | try (let err := fresh "err" in apply map_err_err in R as (err & R & ->))].

(** [only P m]: every error that [m] can report satisfies [P]. *)
Definition only {S E A} (P : E → Prop) (m : M S E A) : Prop :=
  ∀ s e s', m s = (Err e, s') → P e.
Lemma only_bind {S E A B} P (m : M S E A) (k : A → M S E B) :
  only P m → (∀ a, only P (k a)) → only P (bind m k).
Proof. intros Hm Hk s e s' [(a & s1 & _ & Hr)|(e' & Hr & [= ->])]%bind_cases; [by eapply Hk|by eapply Hm]. Qed.
Lemma only_ret {S E A} P (a : A) : only P (ret (S:=S) (E:=E) a).
Proof. intros s e s' [=]. Qed.
Lemma only_fail {S E A} (P : E → Prop) e : P e → only P (fail (S:=S) (A:=A) e).
Proof. by intros He s e' s' [= <- _]. Qed.
Lemma only_lift {S E A} (P : E → Prop) (r : result E A) :
  (∀ e, r = Err e → P e) → only P (lift_result (S:=S) r).
Proof. intros He s e s' [= Hr ->]. auto. Qed.
Lemma only_ok_or {S E A} (P : E → Prop) (o : option A) e : P e → only P (lift_result (S:=S) (ok_or o e)).
Proof. intros He. apply only_lift. intros e'. destruct o; by intros [= <-]. Qed.
Lemma only_map_err {S E F A} (P : F → Prop) (f : E → F) (m : M S E A) :
  (∀ e, P (f e)) → only P (map_err f m).
Proof. intros Hf s e s' (e0 & _ & ->)%map_err_err. auto. Qed.
Lemma only_mfor {S E A B} P (f : B → A → M S E B) b l : (∀ b x, only P (f b x)) → only P (mfor f b l).
Proof.
  intros Hf. revert b. induction l as [|x l IH]; intros b; simpl; [apply only_ret|].
  apply only_bind; auto.
Qed.
Lemma only_instant {E} P : only P (instant_now (E:=E)).
Proof. intros s e s' [=]. Qed.
Lemma only_system {E} P : only P (system_now (E:=E)).
Proof. intros s e s' [=]. Qed.
Lemma only_impl {S E A} (P Q : E → Prop) (m : M S E A) : (∀ e, P e → Q e) → only P m → only Q m.
Proof. intros HPQ Hm s e s' Hr. by eapply HPQ, Hm. Qed.
(** Case analysis of what only reports known errors. *)
#[export] Hint Resolve only_ret only_fail only_ok_or only_map_err only_mfor only_instant only_system : broker.
#[export] Hint Extern 2 (only _ (match ?x with _ => _ end)) => destruct x : broker.
#[export] Hint Extern 2 (only _ (bind _ _)) => apply only_bind; [|intros] : broker.

(** A successful loop: an invariant of the items processed so far and the
    accumulator holds of all the items at the end. *)
Lemma mfor_ok_ind {S E A B} (P : list A → B → Prop) (f : B → A → M S E B) acc l s r s' :
  mfor f acc l s = (Ok r, s') → P [] acc →
  (∀ prior x acc s acc' s', P prior acc → f acc x s = (Ok acc', s') → P (prior ++ [x]) acc') →
  P l r.
Proof.
  intros Hrun H0 Hstep. change l with ([] ++ l). revert acc s Hrun H0. generalize ([] : list A) as prior.
  induction l as [|x l IH]; intros prior acc s Hrun HP; simpl in Hrun.
  - apply ret_ok in Hrun as [-> _]. by rewrite app_nil_r.
  - apply bind_ok in Hrun as (acc' & s1 & Hf & Hrun).
    replace (prior ++ x :: l) with ((prior ++ [x]) ++ l) by (by rewrite <- app_assoc).
    eauto.
Qed.
Lemma mcollect_ok {S E A B} (f : A → M S E B) l s ys s' :
  mcollect f l s = (Ok ys, s') → Forall2 (λ x y, ∃ s s', f x s = (Ok y, s')) l ys.
Proof.
  revert s ys. induction l as [|x l IH]; intros s ys Hrun; simpl in Hrun.
  - apply ret_ok in Hrun as [-> _]. constructor.
  - invert_run Hrun. constructor; eauto.
Qed.

(** The same for a pure [Result]. *)
Ltac invert_ok H :=
  repeat match type of H with
  | rbind _ _ = Ok _ =>
      let a := fresh "a" in let R := fresh "R" in
      apply rbind_ok in H as (a & R & H); try norm_run R
  | (if ?b then Err _ else _) = Ok _ =>
      let C := fresh "C" in destruct b eqn:C; [discriminate H|]
  | (if ?b then _ else Err _) = Ok _ =>
      let C := fresh "C" in destruct b eqn:C; [|discriminate H]
  end.

Lemma outcome_run {S A E F} (m : M S E A) w r w' : outcome (F:=F) m w = (Ok r, w') → m w = (r, w').
Proof. unfold outcome. destruct (m w). by intros [= -> ->]. Qed.

(** ** A calculus of effects

    [keeps R m]: every run of [m], whatever its outcome, relates the states before
    and after it by [R]. *)

Definition keeps {S E A} (R : S → S → Prop) (m : M S E A) : Prop :=
  ∀ w x w', m w = (x, w') → R w w'.
Lemma keeps_ret {S E A} (R : S → S → Prop) `{!PreOrder R} (a : A) : keeps (E:=E) R (ret a).
Proof. intros w x w' [= _ <-]. done. Qed.
Lemma keeps_fail {S E A} (R : S → S → Prop) `{!PreOrder R} (e : E) : keeps (A:=A) R (fail e).
Proof. intros w x w' [= _ <-]. done. Qed.
Lemma keeps_lift {S E A} (R : S → S → Prop) `{!PreOrder R} (r : result E A) : keeps R (lift_result r).
Proof. intros w x w' [= _ <-]. done. Qed.
Lemma keeps_bind {S E A B} (R : S → S → Prop) `{!PreOrder R} (m : M S E A) (k : A → M S E B) :
  keeps R m → (∀ a, keeps R (k a)) → keeps R (bind m k).
Proof.
  intros Hm Hk w x w' [(a & w1 & H1 & H2)|(e & H1 & ->)]%bind_cases; [|by eapply Hm].
  etrans; [by eapply Hm|by eapply Hk].
Qed.
Lemma keeps_map_err {S E F A} (R : S → S → Prop) (f : E → F) (m : M S E A) : keeps R m → keeps R (map_err f m).
Proof. intros Hm w x w'. unfold map_err. destruct (m w) as [[a|e] w1] eqn:E1; intros [= _ <-]; by eapply Hm. Qed.
Lemma keeps_outcome {S E F A} (R : S → S → Prop) (m : M S E A) : keeps R m → keeps (E:=F) R (outcome m).
Proof. intros Hm w x w'. unfold outcome. destruct (m w) as [r w1] eqn:E1. intros [= _ <-]. by eapply Hm. Qed.
Lemma keeps_mfor {S E A B} (R : S → S → Prop) `{!PreOrder R} (f : B → A → M S E B) b l :
  (∀ b x, keeps R (f b x)) → keeps R (mfor f b l).
Proof.
  intros Hf. revert b. induction l as [|x l IH]; intros b; simpl; [by apply keeps_ret|].
  apply keeps_bind; [done|apply Hf|]. intros a. apply IH.
Qed.
(** A successful loop: an invariant of the items done, the accumulator and the
    state; each turn knows what is still to happen to the state. *)
Lemma mfor_run_ind {S E A B} (R : S → S → Prop) `{!PreOrder R} (P : list A → B → S → Prop) (f : B → A → M S E B) acc l w r w' :
  (∀ b x, keeps R (f b x)) → mfor f acc l w = (Ok r, w') → P [] acc w →
  (∀ prior x acc w1 acc' w2, x ∈ l → P prior acc w1 → f acc x w1 = (Ok acc', w2) → R w2 w' → P (prior ++ [x]) acc' w2) →
  P l r w'.
Proof.
  intros Hk Hrun H0 Hstep.
  assert (∀ rest prior acc w, rest ⊆ l → mfor f acc rest w = (Ok r, w') → P prior acc w → P (prior ++ rest) r w') as Hgen;
    [|by eapply (Hgen l [])].
  clear acc w Hrun H0. intros rest. induction rest as [|x rest IH]; intros prior acc w Hsub Hrun HP; simpl in Hrun.
  - apply ret_ok in Hrun as [-> ->]. by rewrite app_nil_r.
  - apply bind_ok in Hrun as (acc' & w1 & Hf & Hrun).
    replace (prior ++ x :: rest) with ((prior ++ [x]) ++ rest) by (by rewrite <- app_assoc).
    eapply IH; [set_solver|done|]. eapply Hstep; [set_solver|done|done|].
    by eapply keeps_mfor, Hrun.
Qed.
(** A loop that fails: the turn that failed. *)
Lemma mfor_err {S E A B} (R : S → S → Prop) `{!PreOrder R} (f : B → A → M S E B) acc l w e w' :
  (∀ b x, keeps R (f b x)) → mfor f acc l w = (Err e, w') →
  ∃ acc1 x w1, x ∈ l ∧ R w w1 ∧ f acc1 x w1 = (Err e, w').
Proof.
  intros Hk. revert acc w. induction l as [|x l IH]; intros acc w Hrun; [done|]. simpl in Hrun.
  apply bind_cases in Hrun as [(acc1 & w1 & Hf & Hrun)|(e' & Hf & [= ->])].
  - apply IH in Hrun as (acc2 & y & w2 & Hy & Hw & Hfy). exists acc2, y, w2. split; [by right|].
    split; [etrans; [by eapply Hk|done]|done].
  - exists acc, x, w. split; [by left|done].
Qed.
Lemma keeps_mono {S E A} (R R' : S → S → Prop) (m : M S E A) :
  (∀ w w', R w w' → R' w w') → keeps R m → keeps R' m.
Proof. intros HRS Hm w x w' Hr. eapply HRS, Hm, Hr. Qed.

#[export] Hint Resolve keeps_map_err keeps_outcome : broker.
#[export] Hint Extern 1 (keeps _ (ret _)) => apply keeps_ret; apply _ : broker.
#[export] Hint Extern 1 (keeps _ (fail _)) => apply keeps_fail; apply _ : broker.
#[export] Hint Extern 1 (keeps _ (lift_result _)) => apply keeps_lift; apply _ : broker.
#[export] Hint Extern 2 (keeps _ (bind _ _)) => apply keeps_bind; [apply _| |intros] : broker.
#[export] Hint Extern 2 (keeps _ (match ?x with _ => _ end)) => destruct x : broker.

(** ** Lemmas on clock runs *)

Lemma clock_run_refl c : clock_run c c.
Proof. by split. Qed.
Lemma clock_run_trans c1 c2 c3 : clock_run c1 c2 → clock_run c2 c3 → clock_run c1 c3.
Proof. intros [] []. split; [congruence.. | lia]. Qed.
Lemma clock_run_advance c : clock_run c (advance c).
Proof. split; simpl; [done..|lia]. Qed.
#[export] Hint Resolve clock_run_refl clock_run_trans clock_run_advance : broker.
#[export] Instance clock_run_preorder : PreOrder clock_run.
Proof. split; [intros c; apply clock_run_refl|intros c1 c2 c3; apply clock_run_trans]. Qed.
Lemma keeps_instant_now {E} : keeps clock_run (instant_now (E:=E)).
Proof. intros c x c' [= _ <-]. auto with broker. Qed.
Lemma keeps_system_now {E} : keeps clock_run (system_now (E:=E)).
Proof. intros c x c' [= _ <-]. auto with broker. Qed.
#[export] Hint Resolve keeps_instant_now keeps_system_now : broker.

Lemma mono_before_refl stop c : mono_before stop c c.
Proof. intros n ?. lia. Qed.
Lemma mono_before_trans stop c1 c2 c3 :
  clock_run c1 c2 → mono_before stop c1 c2 → mono_before stop c2 c3 → mono_before stop c1 c3.
Proof.
  intros [Hm _ Ht] H1 H2 n Hn. destruct (decide (n < tick c2)) as [|].
  - apply H1. lia.
  - rewrite <- Hm. apply H2. lia.
Qed.
Lemma mono_reached_l stop c1 c2 c3 :
  clock_run c2 c3 → mono_reached stop c1 c2 → mono_reached stop c1 c3.
Proof. intros [] (n & ? & ?). exists n. split; [lia|done]. Qed.
Lemma mono_reached_r stop c1 c2 c3 :
  clock_run c1 c2 → mono_reached stop c2 c3 → mono_reached stop c1 c3.
Proof. intros [Hm ? ?] (n & ? & ?). exists n. rewrite <- Hm. split; [lia|done]. Qed.
#[export] Hint Resolve mono_before_refl mono_before_trans mono_reached_l mono_reached_r : broker.

(** ** The guarded calculus *)

Lemma guarded_ret {E A} stop (D : E) (a : A) : guarded stop D (ret a) (Ok a).
Proof. intros c x c' [= <- <-]. eauto with broker. Qed.

Lemma guarded_fail {E A} stop (D e : E) : guarded stop D (fail (A:=A) e) (Err e).
Proof. intros c x c' [= <- <-]. eauto with broker. Qed.

Lemma guarded_lift {E A} stop (D : E) (r : result E A) : guarded stop D (lift_result r) r.
Proof. intros c x c' [= <- <-]. eauto with broker. Qed.

Lemma guarded_bind {E A B} stop (D : E) (m : M clock E A) (k : A → M clock E B) r f :
  guarded stop D m r → (∀ a, r = Ok a → guarded stop D (k a) (f a)) →
  guarded stop D (bind m k) (rbind r f).
Proof.
  intros Hm Hk c x c' Hb. unfold bind in Hb.
  destruct (m c) as [y c1] eqn:Em. destruct (Hm _ _ _ Em) as [Hrun [[Hb1 ->]|[Hd ->]]].
  - destruct r as [a|e]; simpl in *.
    + destruct (Hk a eq_refl _ _ _ Hb) as [Hrun' [[Hb2 ->]|[Hd ->]]];
        split; eauto with broker.
    + inv Hb. eauto with broker.
  - inv Hb. eauto with broker.
Qed.

Lemma guarded_map_err {E F A} stop (D : E) (g : E → F) (m : M clock E A) r :
  guarded stop D m r → guarded stop (g D) (map_err g m) (rmap_err g r).
Proof.
  intros Hm c x c' H. unfold map_err in H. destruct (m c) as [y c1] eqn:Em.
  destruct (Hm _ _ _ Em) as [Hrun [[Hb1 ->]|[Hd ->]]].
  - destruct r; simpl in *; inv H; eauto.
  - inv H. eauto.
Qed.

Lemma guarded_mcollect {E A B} stop (D : E) (f : A → M clock E B) g l :
  (∀ x, x ∈ l → guarded stop D (f x) (g x)) →
  guarded stop D (mcollect f l) (rcollect g l).
Proof.
  induction l as [|x l IH]; intros H; simpl; [apply guarded_ret|].
  apply guarded_bind; [apply H; left|]. intros y _.
  assert (rmap (cons y) (rcollect g l) = rbind (rcollect g l) (λ ys, Ok (y :: ys))) as ->
    by (by destruct (rcollect g l)).
  apply guarded_bind; [apply IH; intros; apply H; by right|].
  intros; apply guarded_ret.
Qed.

(** The guarded computation returns the pure result when the deadline lies
    beyond every sample of the clock. *)
Lemma guarded_total {E A} stop (D : E) (m : M clock E A) r c :
  guarded stop D m r → (∀ n, (mono_at c n < stop)%Z) → fst (m c) = r.
Proof.
  intros H Hc. destruct (m c) as [x c'] eqn:Em.
  destruct (H _ _ _ Em) as [? [[? ->]|[(n & _ & ?) _]]]; [done|].
  specialize (Hc n). lia.
Qed.

(** A success of the guarded computation is a success of the pure one. *)
Lemma guarded_ok {E A} stop (D : E) (m : M clock E A) r c a c' :
  guarded stop D m r → m c = (Ok a, c') → r = Ok a.
Proof. intros H Em. destruct (H _ _ _ Em) as [_ [[_ ?]|[_ ?]]]; congruence. Qed.

#[export] Hint Resolve guarded_ret guarded_fail guarded_lift guarded_bind
  guarded_map_err guarded_mcollect : broker.

(** ** Lists *)

Lemma existsb_elem {A} (f : A → bool) l : existsb f l = true ↔ ∃ x, x ∈ l ∧ f x = true.
Proof. rewrite existsb_exists. by setoid_rewrite list_elem_of_In. Qed.
Lemma forallb_elem {A} (f : A → bool) l : forallb f l = true ↔ ∀ x, x ∈ l → f x = true.
Proof. rewrite forallb_forall. by setoid_rewrite list_elem_of_In. Qed.
Lemma existsb_ext {A} (f g : A → bool) l : (∀ x, f x = g x) → existsb f l = existsb g l.
Proof. intros H. induction l as [|x l IH]; simpl; [done|]. by rewrite H, IH. Qed.
Lemma forallb_ext {A} (f g : A → bool) l : (∀ x, f x = g x) → forallb f l = forallb g l.
Proof. intros H. induction l as [|x l IH]; simpl; [done|]. by rewrite H, IH. Qed.
Lemma existsb_negb_forallb {A} (f : A → bool) l : existsb (λ x, negb (f x)) l = negb (forallb f l).
Proof. induction l as [|x l IH]; simpl; [done|]. rewrite IH. by destruct (f x). Qed.
Lemma forallb_false_elem {A} (f : A → bool) l : forallb f l = false → ∃ x, x ∈ l ∧ f x = false.
Proof.
  intros Hf. assert (existsb (λ x, negb (f x)) l = true) as (x & Hx & Hn)%existsb_elem.
  { by rewrite existsb_negb_forallb, Hf. }
  exists x. split; [done|]. by apply negb_true_iff.
Qed.
