(* ===== verification/RustStr.v ===== *)
(** * Rust strings

    A [&str] or [String] is the [string] of its UTF-8 bytes, so [len] counts
    bytes and the order of [str] is the byte order.  The operations below are
    the ones the broker calls; the ones that work on characters ([trim],
    [chars().count()], [is_control]) are written over the UTF-8 encodings of
    the characters concerned. *)

From Stdlib Require Export Ascii.
From Stdlib Require Import OrdersEx.

From S2P Require Import Prelude.


(** ** Bytes *)

Definition code (b : ascii) : Z := Z.of_N (N_of_ascii b).
Definition in_range (lo hi : Z) (b : ascii) : bool := (lo <=? code b)%Z && (code b <=? hi)%Z.

Definition is_ascii_digit (b : ascii) : bool := in_range 48 57 b.
Definition is_ascii_lowercase (b : ascii) : bool := in_range 97 122 b.
Definition is_ascii_uppercase (b : ascii) : bool := in_range 65 90 b.
Definition is_ascii_alphanumeric (b : ascii) : bool :=
  is_ascii_digit b || is_ascii_lowercase b || is_ascii_uppercase b.
Definition is_ascii_hexdigit (b : ascii) : bool :=
  is_ascii_digit b || in_range 97 102 b || in_range 65 70 b.
Definition to_ascii_lower (b : ascii) : ascii :=
  if is_ascii_uppercase b then ascii_of_N (N_of_ascii b + 32) else b.

(** ** Bytes of a string *)

Definition bytes (s : string) : list ascii := String.list_ascii_of_string s.
Definition of_bytes (l : list ascii) : string := String.string_of_list_ascii l.
Definition len (s : string) : Z := Z.of_nat (String.length s).
Definition is_empty (s : string) : bool := match s with EmptyString => true | _ => false end.
Definition str_eqb (a b : string) : bool := String.eqb a b.
Definition all_bytes (f : ascii → bool) (s : string) : bool := forallb f (bytes s).
(** [s.as_bytes()[0]] and the last byte, for a non-empty [s]. *)
Definition first_byte (f : ascii → bool) (s : string) : bool :=
  match bytes s with [] => false | b :: _ => f b end.
Definition last_byte (f : ascii → bool) (s : string) : bool :=
  match rev (bytes s) with [] => false | b :: _ => f b end.
Definition contains_byte (b : ascii) (s : string) : bool := existsb (Ascii.eqb b) (bytes s).
Definition to_ascii_upper (b : ascii) : ascii :=
  if is_ascii_lowercase b then ascii_of_N (N_of_ascii b - 32) else b.
Definition to_ascii_lowercase (s : string) : string := of_bytes (map to_ascii_lower (bytes s)).
Definition eq_ignore_ascii_case (a b : string) : bool :=
  str_eqb (to_ascii_lowercase a) (to_ascii_lowercase b).

(** ** Prefixes, suffixes, infixes *)

Fixpoint strip_list (p l : list ascii) : option (list ascii) :=
  match p, l with
  | [], _ => Some l
  | a :: p, b :: l => if Ascii.eqb a b then strip_list p l else None
  | _ :: _, [] => None
  end.
Definition strip_prefix (s p : string) : option string := of_bytes <$> strip_list (bytes p) (bytes s).
Definition strip_suffix (s p : string) : option string :=
  (λ l, of_bytes (rev l)) <$> strip_list (rev (bytes p)) (rev (bytes s)).
Definition starts_with (s p : string) : bool :=
  match strip_prefix s p with Some _ => true | None => false end.
Definition ends_with (s p : string) : bool :=
  match strip_suffix s p with Some _ => true | None => false end.

Fixpoint contains_list (p l : list ascii) : bool :=
  match strip_list p l with
  | Some _ => true
  | None => match l with [] => false | _ :: l => contains_list p l end
  end.
Definition contains (s p : string) : bool := contains_list (bytes p) (bytes s).

(** [str::replace] for a non-empty pattern: left to right, without overlaps.
    Each step removes a byte, so the length is enough fuel. *)
Fixpoint replace_list (fuel : nat) (p q l : list ascii) : list ascii :=
  match fuel, l with
  | O, _ => l
  | S _, [] => []
  | S fuel, b :: l' =>
      match strip_list p l with
      | Some rest => q ++ replace_list fuel p q rest
      | None => b :: replace_list fuel p q l'
      end
  end.
Definition replace (s p q : string) : string :=
  of_bytes (replace_list (String.length s) (bytes p) (bytes q) (bytes s)).

(** [s.split(c)]: the pieces between the occurrences of [c]. *)
Fixpoint split_list (c : ascii) (l : list ascii) : list (list ascii) :=
  match l with
  | [] => [[]]
  | b :: l =>
      if Ascii.eqb b c then [] :: split_list c l
      else match split_list c l with
           | [] => [[b]]
           | w :: ws => (b :: w) :: ws
           end
  end.
Definition split (s : string) (c : ascii) : list string := of_bytes <$> split_list c (bytes s).

Fixpoint join_list (c : ascii) (ls : list (list ascii)) : list ascii :=
  match ls with
  | [] => []
  | [l] => l
  | l :: ls => l ++ c :: join_list c ls
  end.
Definition join (c : ascii) (ss : list string) : string := of_bytes (join_list c (bytes <$> ss)).

(** ** Characters *)

Definition enc (ns : list N) : list ascii := ascii_of_N <$> ns.

(** The UTF-8 encodings of the characters with the White_Space property. *)
Definition whitespace : list (list ascii) := enc <$>
  [[9]; [10]; [11]; [12]; [13]; [32]; [194; 133]; [194; 160]; [225; 154; 128];
   [226; 128; 128]; [226; 128; 129]; [226; 128; 130]; [226; 128; 131]; [226; 128; 132];
   [226; 128; 133]; [226; 128; 134]; [226; 128; 135]; [226; 128; 136]; [226; 128; 137];
   [226; 128; 138]; [226; 128; 168]; [226; 128; 169]; [226; 128; 175]; [226; 129; 159];
   [227; 128; 128]]%N.

Fixpoint strip_any (encs : list (list ascii)) (l : list ascii) : option (list ascii) :=
  match encs with
  | [] => None
  | e :: encs => match strip_list e l with Some l' => Some l' | None => strip_any encs l end
  end.
Fixpoint trim_start_list (fuel : nat) (encs : list (list ascii)) (l : list ascii) : list ascii :=
  match fuel with
  | O => l
  | S fuel => match strip_any encs l with Some l' => trim_start_list fuel encs l' | None => l end
  end.
Definition trim_list (encs : list (list ascii)) (l : list ascii) : list ascii :=
  let l := trim_start_list (length l) encs l in
  rev (trim_start_list (length l) (rev (A:=ascii) <$> encs) (rev l)).
(** [str::trim] *)
Definition trim (s : string) : string := of_bytes (trim_list whitespace (bytes s)).
(** [s.trim_matches(c)] for an ASCII character. *)
Definition trim_matches (c : ascii) (s : string) : string := of_bytes (trim_list [[c]] (bytes s)).

(** [s.chars().count()]: the bytes that do not continue a character. *)
Definition char_count (s : string) : Z :=
  Z.of_nat (length (List.filter (λ b, negb (in_range 128 191 b)) (bytes s))).

(** [s.chars().any(char::is_control)]: U+0000..U+001F and U+007F..U+009F. *)
Fixpoint has_control_list (l : list ascii) : bool :=
  match l with
  | [] => false
  | a :: l' =>
      (in_range 0 31 a || in_range 127 127 a ||
       ((code a =? 194)%Z && match l' with b :: _ => in_range 128 159 b | [] => false end))
      || has_control_list l'
  end.
Definition has_control (s : string) : bool := has_control_list (bytes s).

(** ** Decimal numbers: [i128]'s [parse] and [to_string]. *)

Definition digit_value (b : ascii) : option Z :=
  if is_ascii_digit b then Some (code b - 48)%Z else None.
Fixpoint parse_digits (acc : Z) (l : list ascii) : option Z :=
  match l with
  | [] => Some acc
  | b :: l => match digit_value b with
              | Some d => parse_digits (acc * 10 + d) l
              | None => None
              end
  end.
Definition digit_char (d : Z) : ascii := ascii_of_N (Z.to_N (d + 48)).
Fixpoint print_digits (fuel : nat) (n : Z) (acc : list ascii) : list ascii :=
  match fuel with
  | O => acc
  | S fuel =>
      let acc := digit_char (n mod 10) :: acc in
      if (n <? 10)%Z then acc else print_digits fuel (n / 10) acc
  end.
(** The decimal digits of a non-negative number: the binary size bounds their count. *)
Definition print_nonneg (n : Z) : list ascii := print_digits (S (Z.to_nat (Z.log2 n))) n [].
Definition print_int (n : Z) : string :=
  of_bytes (if (n <? 0)%Z then "-"%char :: print_nonneg (- n) else print_nonneg n).
(** [s.parse::<iN>()] for the signed type with the bounds [lo] and [hi]. *)
Definition parse_int (lo hi : Z) (s : string) : option Z :=
  let check n := if (lo <=? n)%Z && (n <=? hi)%Z then Some n else None in
  match bytes s with
  | [] => None
  | "-"%char :: l => if bool_decide (l = []) then None else parse_digits 0 l ≫= λ n, check (- n)%Z
  | "+"%char :: l => if bool_decide (l = []) then None else parse_digits 0 l ≫= check
  | l => parse_digits 0 l ≫= check
  end.

(** ** The order of [str] *)

(** [str::cmp]: lexicographic on bytes. *)
Definition str_cmp (a b : string) : comparison := String_as_OT.compare a b.
Definition str_ltb (a b : string) : bool := match str_cmp a b with Lt => true | _ => false end.
(** [a >= b] *)
Definition str_geb (a b : string) : bool := negb (str_ltb a b).
Definition str_lt (a b : string) : Prop := str_ltb a b = true.
#[global] Instance str_lt_dec : RelDecision str_lt.
Proof. intros a b. unfold str_lt. apply _. Defined.

(** ** Lemmas: bytes *)

Lemma of_bytes_bytes s : of_bytes (bytes s) = s.
Proof. apply String.string_of_list_ascii_of_string. Qed.
Lemma bytes_of_bytes l : bytes (of_bytes l) = l.
Proof. apply String.list_ascii_of_string_of_list_ascii. Qed.
Lemma bytes_inj a b : bytes a = bytes b → a = b.
Proof. intros H. by rewrite <- (of_bytes_bytes a), H, of_bytes_bytes. Qed.
Lemma bytes_app a b : bytes (a +:+ b) = bytes a ++ bytes b.
Proof. induction a; simpl; [done|]. by f_equal. Qed.
Lemma of_bytes_app a b : of_bytes (a ++ b) = of_bytes a +:+ of_bytes b.
Proof. apply bytes_inj. by rewrite bytes_app, !bytes_of_bytes. Qed.
Lemma length_bytes s : length (bytes s) = String.length s.
Proof. induction s; simpl; [done|]. by f_equal. Qed.
Lemma str_eqb_eq a b : str_eqb a b = true ↔ a = b.
Proof. apply String.eqb_eq. Qed.
Lemma str_eqb_refl a : str_eqb a a = true.
Proof. by apply str_eqb_eq. Qed.
Lemma str_eqb_neq a b : str_eqb a b = false ↔ a ≠ b.
Proof. apply String.eqb_neq. Qed.
Lemma is_empty_eq s : is_empty s = true ↔ s = "".
Proof. by destruct s. Qed.
Lemma str_app_assoc a b c : (a +:+ b) +:+ c = a +:+ (b +:+ c).
Proof. apply bytes_inj. by rewrite !bytes_app, (assoc_L (++)). Qed.
Lemma str_app_nil_r a : a +:+ "" = a.
Proof. apply bytes_inj. by rewrite bytes_app, app_nil_r. Qed.
Lemma str_app_inj_l a b c : a +:+ b = a +:+ c → b = c.
Proof. intros H%(f_equal bytes). rewrite !bytes_app in H. by apply bytes_inj, (inj (bytes a ++.)). Qed.
Lemma len_app a b : len (a +:+ b) = (len a + len b)%Z.
Proof. unfold len. rewrite <- !length_bytes, bytes_app, length_app. lia. Qed.

(** ** Lemmas: prefixes *)

Lemma strip_list_Some p l r : strip_list p l = Some r ↔ l = p ++ r.
Proof.
  revert l. induction p as [|a p IH]; intros l; simpl; [naive_solver|].
  destruct l as [|b l]; [naive_solver|].
  destruct (Ascii.eqb_spec a b) as [->|]; [rewrite IH; naive_solver | naive_solver].
Qed.
Lemma strip_prefix_Some s p r : strip_prefix s p = Some r ↔ s = p +:+ r.
Proof.
  unfold strip_prefix. rewrite fmap_Some. setoid_rewrite strip_list_Some. split.
  - intros (l & H & ->). apply bytes_inj. by rewrite bytes_app, bytes_of_bytes.
  - intros ->. exists (bytes r). by rewrite bytes_app, of_bytes_bytes.
Qed.
Lemma strip_prefix_app p r : strip_prefix (p +:+ r) p = Some r.
Proof. by apply strip_prefix_Some. Qed.
Lemma starts_with_spec s p : starts_with s p = true ↔ ∃ r, s = p +:+ r.
Proof.
  unfold starts_with. destruct (strip_prefix s p) as [r|] eqn:E.
  - apply strip_prefix_Some in E as ->. naive_solver.
  - split; [done|]. intros [r ->]. by rewrite strip_prefix_app in E.
Qed.
Lemma strip_suffix_Some s p r : strip_suffix s p = Some r ↔ s = r +:+ p.
Proof.
  unfold strip_suffix. rewrite fmap_Some. setoid_rewrite strip_list_Some. split.
  - intros (l & H & ->). apply bytes_inj. rewrite bytes_app, bytes_of_bytes.
    rewrite <- (rev_involutive (bytes s)), H, rev_app_distr, rev_involutive. done.
  - intros ->. exists (rev (bytes r)).
    by rewrite bytes_app, rev_app_distr, rev_involutive, of_bytes_bytes.
Qed.

(** ** Lemmas: splitting *)

Lemma split_list_not_nil c l : split_list c l ≠ [].
Proof. induction l as [|b l IH]; simpl; [done|]. case_match; [done|]. by destruct (split_list c l). Qed.

Lemma join_split_list c l : join_list c (split_list c l) = l.
Proof.
  induction l as [|b l IH]; simpl; [done|].
  pose proof (split_list_not_nil c l) as Hn.
  destruct (Ascii.eqb_spec b c) as [->|].
  - simpl. destruct (split_list c l) eqn:E; [done|]. by rewrite IH.
  - destruct (split_list c l) as [|w ws] eqn:E; [done|].
    destruct ws; simpl in *; by rewrite <- IH.
Qed.

Lemma split_list_app_sep c l1 l2 :
  split_list c (l1 ++ c :: l2) = split_list c l1 ++ split_list c l2.
Proof.
  induction l1 as [|b l1 IH]; simpl.
  - by rewrite Ascii.eqb_refl.
  - destruct (Ascii.eqb_spec b c) as [->|]; [by rewrite IH|].
    rewrite IH. pose proof (split_list_not_nil c l1).
    by destruct (split_list c l1).
Qed.

Lemma join_split s c : join c (split s c) = s.
Proof.
  unfold join, split. rewrite <- list_fmap_compose.
  rewrite (list_fmap_ext _ id) by (intros; apply bytes_of_bytes).
  by rewrite list_fmap_id, join_split_list, of_bytes_bytes.
Qed.

Lemma split_app_sep a b c :
  split (a +:+ String c b) c = split a c ++ split b c.
Proof.
  unfold split. rewrite bytes_app. simpl. by rewrite split_list_app_sep, fmap_app.
Qed.

Lemma split_inj a b c : split a c = split b c → a = b.
Proof. intros H. by rewrite <- (join_split a c), H, join_split. Qed.

Lemma join_list_cons c l ls : ls ≠ [] → join_list c (l :: ls) = l ++ c :: join_list c ls.
Proof. by destruct ls. Qed.
Lemma join_list_app c ls1 ls2 :
  ls1 ≠ [] → ls2 ≠ [] → join_list c (ls1 ++ ls2) = join_list c ls1 ++ c :: join_list c ls2.
Proof.
  intros H1 H2. induction ls1 as [|l [|l' ls1] IH]; [done| |].
  - simpl app. by rewrite join_list_cons.
  - simpl app in *. rewrite !(join_list_cons _ l) by done. rewrite IH by done. by rewrite <- (assoc_L (++)).
Qed.
Lemma join_app c l1 l2 :
  l1 ≠ [] → l2 ≠ [] → join c (l1 ++ l2) = join c l1 +:+ String c (join c l2).
Proof.
  intros H1 H2. unfold join. rewrite fmap_app. apply bytes_inj. rewrite bytes_app. simpl.
  rewrite !bytes_of_bytes. apply join_list_app; [by destruct l1|by destruct l2].
Qed.
Lemma split_no_sep s c : contains_byte c s = false → split s c = [s].
Proof.
  unfold contains_byte, split. intros Hc.
  enough (split_list c (bytes s) = [bytes s]) as -> by (simpl; by rewrite of_bytes_bytes).
  induction (bytes s) as [|b l IH]; simpl in *; [done|]. apply orb_false_iff in Hc as [Hb Hl].
  rewrite Ascii.eqb_sym, Hb. by rewrite IH.
Qed.
(** Joining pieces without the separator and splitting again. *)
Lemma split_join c x l :
  Forall (λ s, contains_byte c s = false) (x :: l) → split (join c (x :: l)) c = x :: l.
Proof.
  revert x. induction l as [|y l IH]; intros x [Hx Hl]%Forall_cons.
  - change (join c [x]) with (of_bytes (bytes x)). by rewrite of_bytes_bytes, split_no_sep.
  - change (x :: y :: l) with ([x] ++ y :: l). rewrite join_app by done.
    change (join c [x]) with (of_bytes (bytes x)). rewrite of_bytes_bytes, split_app_sep, split_no_sep by done.
    by rewrite IH.
Qed.
Lemma split_part_no_sep s c x : x ∈ split s c → contains_byte c x = false.
Proof.
  unfold split, contains_byte. rewrite list_elem_of_fmap. intros (l & -> & Hl). rewrite bytes_of_bytes.
  revert l Hl. induction (bytes s) as [|b m IH]; simpl; intros l Hl.
  - apply list_elem_of_singleton in Hl as ->. done.
  - destruct (Ascii.eqb_spec b c) as [->|Hne].
    + apply elem_of_cons in Hl as [->|Hl]; [done|auto].
    + destruct (split_list c m) as [|w ws] eqn:E; [by apply split_list_not_nil in E|].
      apply elem_of_cons in Hl as [->|Hl]; [|apply IH; by right].
      simpl. rewrite (IH w) by left. rewrite orb_false_r. by apply Ascii.eqb_neq.
Qed.

(** ** Lemmas: trimming *)

Lemma strip_any_Some encs l l' :
  strip_any encs l = Some l' → ∃ e, e ∈ encs ∧ l = e ++ l'.
Proof.
  induction encs as [|e encs IH]; simpl; [done|].
  destruct (strip_list e l) eqn:E.
  - intros [= ->]. apply strip_list_Some in E. exists e. split; [left|done].
  - intros (e' & ? & ?)%IH. exists e'. split; [by right|done].
Qed.
Lemma strip_any_None encs l :
  strip_any encs l = None ↔ ∀ e l', e ∈ encs → l ≠ e ++ l'.
Proof.
  induction encs as [|e encs IH]; simpl; [by split; [intros _ ? ? ?%elem_of_nil|]|].
  destruct (strip_list e l) as [r|] eqn:E.
  - apply strip_list_Some in E as ->. split; [done|]. intros H. exfalso.
    apply (H e r); [left|done].
  - rewrite IH. setoid_rewrite elem_of_cons. split; [|naive_solver].
    intros H e' l' [->|?] ->; [|naive_solver].
    by rewrite (proj2 (strip_list_Some e (e ++ l') l') eq_refl) in E.
Qed.

Lemma trim_start_list_done encs l n :
  Forall (.≠ []) encs → length l ≤ n → strip_any encs (trim_start_list n encs l) = None.
Proof.
  intros He. revert l. induction n as [|n IH]; intros l Hl; simpl.
  - destruct l; [|simpl in *; lia]. apply strip_any_None. intros e l' Hin Heq.
    rewrite Forall_forall in He. apply (He e Hin). by destruct e.
  - destruct (strip_any encs l) as [l'|] eqn:E; [|done]. apply IH.
    apply strip_any_Some in E as (e & Hin & ->). rewrite Forall_forall in He.
    specialize (He e Hin). rewrite length_app in Hl. destruct e; simpl in *; [done|lia].
Qed.
Lemma trim_start_list_suffix encs l n : ∃ p, l = p ++ trim_start_list n encs l.
Proof.
  revert l. induction n as [|n IH]; intros l; simpl; [by exists []|].
  destruct (strip_any encs l) as [l'|] eqn:E; [|by exists []].
  apply strip_any_Some in E as (e & _ & ->). destruct (IH l') as [p Hp].
  exists (e ++ p). rewrite <- (assoc_L (++)). by rewrite <- Hp.
Qed.
Lemma trim_start_list_fix encs l n : strip_any encs l = None → trim_start_list n encs l = l.
Proof. intros H. destruct n; simpl; [done|]. by rewrite H. Qed.

(** A trimmed list starts and ends with no encoding of the set, and is a fixed
    point of trimming. *)
Lemma trim_list_spec encs l :
  Forall (.≠ []) encs →
  strip_any encs (trim_list encs l) = None ∧
  strip_any (rev (A:=ascii) <$> encs) (rev (trim_list encs l)) = None.
Proof.
  intros He. unfold trim_list.
  set (l1 := trim_start_list (length l) encs l).
  assert (strip_any encs l1 = None) as H1 by (by apply trim_start_list_done).
  destruct (trim_start_list_suffix (rev (A:=ascii) <$> encs) (rev l1) (length l1)) as [p Hp].
  split.
  - apply strip_any_None. intros e l' Hin Heq. rewrite strip_any_None in H1.
    apply (H1 e (l' ++ rev p) Hin). rewrite (assoc_L (++)), <- Heq, <- rev_app_distr, <- Hp.
    by rewrite rev_involutive.
  - rewrite rev_involutive. apply trim_start_list_done; [|by rewrite length_rev].
    apply Forall_fmap. eapply Forall_impl; [exact He|]. simpl. intros e Hn Hr. apply Hn.
    apply (f_equal (rev (A:=ascii))) in Hr. by rewrite rev_involutive in Hr.
Qed.
Lemma trim_list_fix encs l :
  strip_any encs l = None → strip_any (rev (A:=ascii) <$> encs) (rev l) = None →
  trim_list encs l = l.
Proof.
  intros H1 H2. unfold trim_list. rewrite (trim_start_list_fix _ _ _ H1).
  rewrite (trim_start_list_fix _ _ _ H2). apply rev_involutive.
Qed.
Lemma whitespace_nonempty : Forall (.≠ []) whitespace.
Proof. repeat constructor; done. Qed.

Lemma trim_idemp s : trim (trim s) = trim s.
Proof.
  unfold trim at 1. unfold trim at 1. rewrite bytes_of_bytes.
  destruct (trim_list_spec whitespace (bytes s) whitespace_nonempty) as [H1 H2].
  by rewrite (trim_list_fix _ _ H1 H2).
Qed.
Lemma trim_empty : trim "" = "".
Proof. reflexivity. Qed.
(** Visible ASCII text is not trimmed. *)
Lemma trim_visible s : all_bytes (in_range 33 127) s = true → trim s = s.
Proof.
  unfold trim, all_bytes. intros Ha. rewrite forallb_elem in Ha.
  assert (∀ encs l, forallb (λ e, match e with b :: _ => negb (in_range 33 127 b) | [] => false end) encs = true →
    (∀ b, b ∈ l → in_range 33 127 b = true) → strip_any encs l = None) as Hno.
  { intros encs l He Hl. apply strip_any_None. intros [|b e] l' Hin ->; rewrite forallb_elem in He; specialize (He _ Hin); simpl in He; [done|].
    rewrite Hl in He by (apply elem_of_cons; by left). done. }
  rewrite trim_list_fix; [apply of_bytes_bytes|by apply Hno|]. apply Hno; [by vm_compute|]. intros b Hb.
  apply Ha. apply list_elem_of_In, in_rev. by apply list_elem_of_In.
Qed.

(** ** Lemmas: the order *)

Lemma str_lt_iff a b : str_lt a b ↔ String_as_OT.lt a b.
Proof.
  unfold str_lt, str_ltb, str_cmp, String_as_OT.lt. by destruct (String_as_OT.compare a b).
Qed.
#[global] Instance str_lt_strict : StrictOrder str_lt.
Proof.
  split.
  - intros a H%str_lt_iff. by eapply (StrictOrder_Irreflexive (R:=String_as_OT.lt)).
  - intros a b c H1%str_lt_iff H2%str_lt_iff. apply str_lt_iff. by etrans.
Qed.
Lemma str_lt_trichotomy a b : str_lt a b ∨ a = b ∨ str_lt b a.
Proof.
  rewrite !str_lt_iff. destruct (String_as_OT.compare_spec a b); auto.
Qed.
Lemma str_lt_irrefl a : ¬ str_lt a a.
Proof. apply StrictOrder_Irreflexive. Qed.
Lemma str_lt_ne a b : str_lt a b → a ≠ b.
Proof. intros H ->. by apply str_lt_irrefl in H. Qed.
#[export] Hint Resolve str_lt_irrefl str_lt_ne : broker.

(** ** Lemmas: decimal numbers *)

Lemma code_ascii n : (n < 256)%N → code (ascii_of_N n) = Z.of_N n.
Proof. intros Hn. unfold code. by rewrite N_ascii_embedding. Qed.
Lemma digit_value_char d : (0 ≤ d < 10)%Z → digit_value (digit_char d) = Some d.
Proof.
  intros Hd. unfold digit_value, digit_char, is_ascii_digit, in_range.
  rewrite code_ascii by lia.
  replace (48 <=? Z.of_N (Z.to_N (d + 48)))%Z with true by (symmetry; apply Z.leb_le; lia).
  replace (Z.of_N (Z.to_N (d + 48)) <=? 57)%Z with true by (symmetry; apply Z.leb_le; lia).
  simpl. f_equal. lia.
Qed.
(** Printing prepends digits that parse back to the number. *)
Lemma print_digits_spec fuel n acc :
  (0 ≤ n < 10 ^ Z.of_nat fuel)%Z →
  ∃ ds, print_digits fuel n acc = ds ++ acc ∧ (fuel ≠ 0 → ds ≠ []) ∧
    Forall (λ b, digit_value b ≠ None) ds ∧
    ∀ a rest, parse_digits a (ds ++ rest) = parse_digits (a * 10 ^ Z.of_nat (length ds) + n) rest.
Proof.
  revert n acc. induction fuel as [|fuel IH]; intros n acc Hn.
  { exists []. split; [done|]. split; [done|]. split; [constructor|].
    intros a rest. simpl in *. f_equal. lia. }
  rewrite Nat2Z.inj_succ, Z.pow_succ_r in Hn by lia. cbn [print_digits].
  pose proof (Z.mod_pos_bound n 10 ltac:(lia)) as Hm.
  assert (digit_value (digit_char (n mod 10)) = Some (n mod 10)%Z) as Hd by (by apply digit_value_char).
  destruct (Z.ltb_spec n 10).
  - exists [digit_char (n mod 10)]. split; [done|]. split; [done|].
    split; [constructor; [congruence|constructor]|].
    intros a rest. cbn [parse_digits app]. rewrite Hd. f_equal. simpl. rewrite Z.mod_small by lia. lia.
  - destruct (IH (n / 10)%Z (digit_char (n mod 10) :: acc)) as (ds & Hp & _ & Hf & Hr).
    { split; [apply Z.div_pos; lia|apply Z.div_lt_upper_bound; lia]. }
    exists (ds ++ [digit_char (n mod 10)]). rewrite <- (assoc_L (++)). split; [done|].
    split; [by destruct ds|]. split; [apply Forall_app; split; [done|constructor; [congruence|constructor]]|].
    intros a rest. rewrite <- (assoc_L (++)), Hr. cbn [parse_digits app]. rewrite Hd. f_equal.
    rewrite length_app, Nat2Z.inj_add. simpl. rewrite Z.pow_add_r, Z.pow_1_r by lia.
    pose proof (Z.div_mod n 10 ltac:(lia)). lia.
Qed.
Lemma print_nonneg_spec n :
  (0 ≤ n)%Z → print_nonneg n ≠ [] ∧ Forall (λ b, digit_value b ≠ None) (print_nonneg n) ∧
  parse_digits 0%Z (print_nonneg n) = Some n.
Proof.
  intros Hn. unfold print_nonneg.
  destruct (print_digits_spec (S (Z.to_nat (Z.log2 n))) n []) as (ds & Hp & Hne & Hf & Hr).
  { split; [done|]. rewrite Nat2Z.inj_succ, Z2Nat.id by apply Z.log2_nonneg.
    destruct (Z.eq_dec n 0%Z) as [->|]; [done|].
    pose proof (Z.log2_spec n ltac:(lia)) as [_ Hl].
    pose proof (Z.log2_nonneg n).
    pose proof (Z.pow_le_mono_l 2%Z 10%Z (Z.succ (Z.log2 n)) ltac:(lia)) as Hmono. lia. }
  rewrite Hp, app_nil_r. split; [by apply Hne|]. split; [done|].
  specialize (Hr 0%Z []). rewrite app_nil_r in Hr. rewrite Hr. simpl. done.
Qed.
Lemma parse_int_digits lo hi b l :
  digit_value b ≠ None →
  parse_int lo hi (of_bytes (b :: l)) =
  parse_digits 0%Z (b :: l) ≫= λ n, if (lo <=? n)%Z && (n <=? hi)%Z then Some n else None.
Proof.
  intros Hb. unfold parse_int. rewrite bytes_of_bytes.
  destruct b as [[] [] [] [] [] [] [] []]; done || (exfalso; by apply Hb).
Qed.
(** Parsing a printed number gives the number back. *)
Lemma parse_print_int lo hi n :
  (lo ≤ n ≤ hi)%Z → parse_int lo hi (print_int n) = Some n.
Proof.
  intros Hn. unfold print_int.
  assert ((lo <=? n)%Z && (n <=? hi)%Z = true) as Hin by (apply andb_true_iff; split; apply Z.leb_le; lia).
  destruct (Z.ltb_spec n 0).
  - destruct (print_nonneg_spec (- n)%Z ltac:(lia)) as (Hne & _ & Hp).
    unfold parse_int. rewrite bytes_of_bytes. rewrite bool_decide_false by done. rewrite Hp. simpl.
    rewrite Z.opp_involutive. by rewrite Hin.
  - destruct (print_nonneg_spec n ltac:(lia)) as (Hne & Hf & Hp).
    destruct (print_nonneg n) as [|b l]; [done|]. apply Forall_cons in Hf as [Hb _].
    rewrite parse_int_digits by done. rewrite Hp. simpl. by rewrite Hin.
Qed.
Lemma parse_int_bounds lo hi s n : parse_int lo hi s = Some n → (lo ≤ n ≤ hi)%Z.
Proof.
  unfold parse_int. intros Hp.
  assert (∀ m, (if (lo <=? m)%Z && (m <=? hi)%Z then Some m else None) = Some n → (lo ≤ n ≤ hi)%Z) as Hc.
  { intros m Hm. destruct (_ && _) eqn:E; [|done]. injection Hm as ->. bool_to_prop. lia. }
  repeat case_match; try done; apply bind_Some in Hp as (m & _ & Hm); by eapply Hc.
Qed.
