(* ===== verification/Order.v ===== *)
(** * Ordered data: Rust's [Ord], sorted vectors and [BTreeSet]

    A [BTreeSet] is its strictly increasing list of elements, which is also
    its iteration order.  [sort] and [dedup] are the [Vec] methods. *)

From Stdlib Require Import OrdersEx.
From Stdlib Require Export Sorted.
From S2P Require Import Prelude RustStr.

(** ** The interface of [Ord] *)

Class RustOrd (A : Type) := {
  cmp : A → A → comparison;
  cmp_eq x y : cmp x y = Eq ↔ x = y;
  cmp_opp x y : cmp y x = CompOpp (cmp x y);
  cmp_trans x y z : cmp x y = Lt → cmp y z = Lt → cmp x z = Lt;
}.
#[global] Hint Mode RustOrd ! : typeclass_instances.

Definition lt_ord {A} `{RustOrd A} (x y : A) : Prop := cmp x y = Lt.
Definition ltb_ord {A} `{RustOrd A} (x y : A) : bool :=
  match cmp x y with Lt => true | _ => false end.

(** ** Instances *)

Lemma str_cmp_eq x y : str_cmp x y = Eq ↔ x = y.
Proof.
  unfold str_cmp. destruct (String_as_OT.compare_spec x y) as [?|H|H]; split; try done; intros ->;
    by apply (StrictOrder_Irreflexive (R:=String_as_OT.lt)) in H.
Qed.
Lemma str_cmp_opp x y : str_cmp y x = CompOpp (str_cmp x y).
Proof.
  unfold str_cmp.
  pose proof (StrictOrder_Irreflexive (R:=String_as_OT.lt)) as Hi.
  destruct (String_as_OT.compare_spec x y) as [H1|H1|H1], (String_as_OT.compare_spec y x) as [H2|H2|H2];
    try done; exfalso; unfold String_as_OT.eq in *; subst; try (eapply Hi; eassumption).
  all: apply (Hi x); by etrans.
Qed.
Lemma str_cmp_trans x y z : str_cmp x y = Lt → str_cmp y z = Lt → str_cmp x z = Lt.
Proof. apply (StrictOrder_Transitive (R:=String_as_OT.lt)). Qed.
Lemma str_lt_trans x y z : str_lt x y → str_lt y z → str_lt x z.
Proof.
  unfold str_lt, str_ltb. destruct (str_cmp x y) eqn:E1; try done. destruct (str_cmp y z) eqn:E2; try done.
  by rewrite (str_cmp_trans _ _ _ E1 E2).
Qed.
#[global] Instance string_ord : RustOrd string :=
  {| cmp := str_cmp; cmp_eq := str_cmp_eq; cmp_opp := str_cmp_opp; cmp_trans := str_cmp_trans |}.

#[global] Instance Z_ord : RustOrd Z.
Proof.
  refine {| cmp := Z.compare |}.
  - apply Z.compare_eq_iff.
  - intros. apply Z.compare_antisym.
  - intros x y z. rewrite !Z.compare_lt_iff. lia.
Defined.

Definition bool_cmp (x y : bool) : comparison :=
  match x, y with false, true => Lt | true, false => Gt | _, _ => Eq end.
#[global] Instance bool_ord : RustOrd bool.
Proof. refine {| cmp := bool_cmp |}; [intros [] []|intros [] []|intros [] [] []]; naive_solver. Defined.

(** Derived [Ord] of a pair or of a struct with two fields. *)
Definition pair_cmp {A B} `{RustOrd A, RustOrd B} (x y : A * B) : comparison :=
  match cmp x.1 y.1 with Eq => cmp x.2 y.2 | c => c end.
#[global] Instance pair_ord {A B} `{RustOrd A, RustOrd B} : RustOrd (A * B).
Proof.
  refine {| cmp := pair_cmp |}; unfold pair_cmp.
  - intros [x1 x2] [y1 y2]; simpl. destruct (cmp x1 y1) eqn:E.
    + apply cmp_eq in E as ->. rewrite cmp_eq. naive_solver.
    + split; [done|]. intros [= -> ->]. by rewrite (proj2 (cmp_eq y1 y1) eq_refl) in E.
    + split; [done|]. intros [= -> ->]. by rewrite (proj2 (cmp_eq y1 y1) eq_refl) in E.
  - intros [x1 x2] [y1 y2]; simpl. rewrite (cmp_opp x1 y1). destruct (cmp x1 y1); simpl; [|done..].
    apply cmp_opp.
  - intros [x1 x2] [y1 y2] [z1 z2]; simpl.
    destruct (cmp x1 y1) eqn:E1, (cmp y1 z1) eqn:E2; try done.
    + apply cmp_eq in E1 as ->, E2 as ->. rewrite (proj2 (cmp_eq z1 z1) eq_refl).
      apply cmp_trans.
    + apply cmp_eq in E1 as ->. by rewrite E2.
    + apply cmp_eq in E2 as ->. by rewrite E1.
    + by rewrite (cmp_trans _ _ _ E1 E2).
Defined.

(** Derived [Ord] of [Option]: [None] first. *)
Definition option_cmp {A} `{RustOrd A} (x y : option A) : comparison :=
  match x, y with
  | None, None => Eq
  | None, Some _ => Lt
  | Some _, None => Gt
  | Some a, Some b => cmp a b
  end.
#[global] Instance option_ord {A} `{RustOrd A} : RustOrd (option A).
Proof.
  refine {| cmp := option_cmp |}.
  - intros [x|] [y|]; simpl; try naive_solver. rewrite cmp_eq. naive_solver.
  - intros [x|] [y|]; simpl; try done. apply cmp_opp.
  - intros [x|] [y|] [z|]; simpl; try done. apply cmp_trans.
Defined.

(** ** Operations *)

Section ops.
Context {A : Type} `{RustOrd A}.

(** [BTreeSet::insert] (the set part of its result). *)
Fixpoint bset_insert (x : A) (l : list A) : list A :=
  match l with
  | [] => [x]
  | y :: l' =>
      match cmp x y with
      | Lt => x :: l
      | Eq => l
      | Gt => y :: bset_insert x l'
      end
  end.
(** [BTreeSet::from_iter] / [extend]. *)
Definition bset_extend (acc xs : list A) : list A := foldl (λ s x, bset_insert x s) acc xs.
Definition bset_of (xs : list A) : list A := bset_extend [] xs.
Definition bset_contains (x : A) (l : list A) : bool :=
  existsb (λ y, match cmp x y with Eq => true | _ => false end) l.

(** [Vec::sort]: stable insertion sort. *)
Fixpoint sort_insert (x : A) (l : list A) : list A :=
  match l with
  | [] => [x]
  | y :: l' => match cmp x y with Gt => y :: sort_insert x l' | _ => x :: l end
  end.
Definition sort (l : list A) : list A := foldr sort_insert [] l.
(** [Vec::dedup]: one element of each run of equal elements. *)
Fixpoint dedup (l : list A) : list A :=
  match l with
  | [] => []
  | x :: l' =>
      match dedup l' with
      | (y :: _) as d => match cmp x y with Eq => d | _ => x :: d end
      | [] => [x]
      end
  end.
(** [v.windows(2).all(|w| w[0] < w[1])] *)
Fixpoint strictly_increasing (l : list A) : bool :=
  match l with
  | x :: ((y :: _) as l') => ltb_ord x y && strictly_increasing l'
  | _ => true
  end.
(** [v.windows(2).any(|w| w[0] == w[1])] *)
Fixpoint adjacent_equal (l : list A) : bool :=
  match l with
  | x :: ((y :: _) as l') => match cmp x y with Eq => true | _ => adjacent_equal l' end
  | _ => false
  end.
End ops.

(** [Vec::sort_by] with a key comparison, and the windows over keys. *)
Section by_key.
Context {A K : Type} `{RustOrd K} (key : A → K).
Fixpoint sort_by_insert (x : A) (l : list A) : list A :=
  match l with
  | [] => [x]
  | y :: l' => match cmp (key x) (key y) with Gt => y :: sort_by_insert x l' | _ => x :: l end
  end.
Definition sort_by (l : list A) : list A := foldr sort_by_insert [] l.
End by_key.

(** ** Lemmas *)

Section lemmas.
Context {A : Type} `{RustOrd A}.
Implicit Types (x y : A) (l : list A).

Lemma cmp_refl x : cmp x x = Eq.
Proof. by apply cmp_eq. Qed.
#[global] Instance lt_ord_trans : Transitive (lt_ord (A:=A)).
Proof. intros x y z. apply cmp_trans. Qed.
#[global] Instance lt_ord_irrefl : Irreflexive (lt_ord (A:=A)).
Proof. intros x Hx. unfold lt_ord in Hx. by rewrite cmp_refl in Hx. Qed.
Lemma lt_ord_gt x y : cmp x y = Gt ↔ lt_ord y x.
Proof. unfold lt_ord. rewrite (cmp_opp x y). by destruct (cmp x y). Qed.
Lemma lt_ord_total x y : lt_ord x y ∨ x = y ∨ lt_ord y x.
Proof.
  destruct (cmp x y) eqn:E; [right; left; by apply cmp_eq|by left|right; right; by apply lt_ord_gt].
Qed.
Lemma lt_ord_asym x y : lt_ord x y → lt_ord y x → False.
Proof. intros H1 H2. exact (lt_ord_irrefl x (transitivity H1 H2)). Qed.
Lemma ltb_ord_spec x y : ltb_ord x y = true ↔ lt_ord x y.
Proof. unfold ltb_ord, lt_ord. by destruct (cmp x y). Qed.

Abbreviation SSorted := (StronglySorted (lt_ord (A:=A))).

Lemma SSorted_NoDup l : SSorted l → NoDup l.
Proof.
  induction 1 as [|x l _ IH Hf]; constructor; [|done]. intros Hx.
  rewrite Forall_forall in Hf. by apply lt_ord_irrefl in Hf.
Qed.

Lemma elem_of_bset_insert x y l : y ∈ bset_insert x l ↔ y = x ∨ y ∈ l.
Proof.
  induction l as [|z l IH]; simpl.
  { rewrite list_elem_of_singleton, elem_of_nil. naive_solver. }
  destruct (cmp x z) eqn:E; rewrite ?elem_of_cons.
  - apply cmp_eq in E as ->. naive_solver.
  - done.
  - rewrite IH. naive_solver.
Qed.
Lemma bset_insert_sorted x l : SSorted l → SSorted (bset_insert x l).
Proof.
  induction 1 as [|z l Hl IH Hf]; simpl; [repeat constructor|].
  destruct (cmp x z) eqn:E; [by constructor| |].
  - constructor; [by constructor|]. constructor; [done|].
    eapply Forall_impl; [exact Hf|]. intros y Hy. by etrans.
  - constructor; [done|]. apply Forall_forall. intros y [->|Hy]%elem_of_bset_insert.
    + by apply lt_ord_gt.
    + rewrite Forall_forall in Hf. auto.
Qed.
Lemma elem_of_bset_extend y acc xs : y ∈ bset_extend acc xs ↔ y ∈ acc ∨ y ∈ xs.
Proof.
  unfold bset_extend. revert acc. induction xs as [|x xs IH]; intros acc; simpl.
  - rewrite elem_of_nil. naive_solver.
  - rewrite IH, elem_of_bset_insert, elem_of_cons. naive_solver.
Qed.
Lemma bset_extend_sorted acc xs : SSorted acc → SSorted (bset_extend acc xs).
Proof.
  unfold bset_extend. revert acc.
  induction xs as [|x xs IH]; intros acc Ha; simpl; [done|]. by apply IH, bset_insert_sorted.
Qed.
Lemma elem_of_bset_of y xs : y ∈ bset_of xs ↔ y ∈ xs.
Proof. unfold bset_of. rewrite elem_of_bset_extend, elem_of_nil. naive_solver. Qed.
Lemma bset_of_sorted xs : SSorted (bset_of xs).
Proof. apply bset_extend_sorted. constructor. Qed.
Lemma bset_contains_spec x l : bset_contains x l = true ↔ x ∈ l.
Proof.
  unfold bset_contains. rewrite existsb_elem. split.
  - intros (y & Hy & E). destruct (cmp x y) eqn:Ec; try done. by apply cmp_eq in Ec as ->.
  - intros Hx. exists x. split; [done|]. by rewrite cmp_refl.
Qed.

(** Two strictly increasing lists with the same elements are equal. *)
Lemma SSorted_ext l1 l2 : SSorted l1 → SSorted l2 → (∀ x, x ∈ l1 ↔ x ∈ l2) → l1 = l2.
Proof.
  intros H1. revert l2. induction H1 as [|x l1 Hl1 IH Hx]; intros l2 H2 Hext.
  { destruct l2 as [|y l2]; [done|]. exfalso. apply (not_elem_of_nil y), Hext. left. }
  destruct H2 as [|y l2 Hl2 Hy]; [exfalso; apply (not_elem_of_nil x), Hext; left|].
  rewrite Forall_forall in Hx, Hy.
  assert (x = y) as <-.
  { destruct (lt_ord_total x y) as [Hlt|[?|Hlt]]; [|done|]; exfalso.
    - assert (x ∈ y :: l2) as [->|Hin]%elem_of_cons by (apply Hext; left).
      + by apply lt_ord_irrefl in Hlt.
      + eapply lt_ord_asym; eauto.
    - assert (y ∈ x :: l1) as [->|Hin]%elem_of_cons by (apply Hext; left).
      + by apply lt_ord_irrefl in Hlt.
      + eapply lt_ord_asym; eauto. }
  f_equal. apply IH; [done|]. intros z. specialize (Hext z). rewrite !elem_of_cons in Hext.
  split; intros Hz.
  - destruct (proj1 Hext (or_intror Hz)) as [->|]; [|done]. by apply Hx, lt_ord_irrefl in Hz.
  - destruct (proj2 Hext (or_intror Hz)) as [->|]; [|done]. by apply Hy, lt_ord_irrefl in Hz.
Qed.

(** [sort] then [dedup] builds the [BTreeSet] of the elements. *)
Lemma elem_of_sort_insert x y l : y ∈ sort_insert x l ↔ y = x ∨ y ∈ l.
Proof.
  induction l as [|z l IH]; simpl; [by rewrite list_elem_of_singleton, elem_of_nil; naive_solver|].
  destruct (cmp x z); rewrite ?elem_of_cons, ?IH; naive_solver.
Qed.
Lemma elem_of_sort y l : y ∈ sort l ↔ y ∈ l.
Proof.
  induction l as [|x l IH]; simpl; [done|]. by rewrite elem_of_sort_insert, elem_of_cons, IH.
Qed.
Definition le_ord x y : Prop := lt_ord x y ∨ x = y.
Lemma sort_insert_sorted x l :
  StronglySorted le_ord l → StronglySorted le_ord (sort_insert x l).
Proof.
  unfold le_ord. induction 1 as [|z l Hl IH Hf]; simpl; [repeat constructor|].
  assert (StronglySorted le_ord (z :: l)) as Hzl by (by constructor).
  assert (lt_ord x z ∨ x = z → StronglySorted le_ord (x :: z :: l)) as Hcase.
  { intros Hxz. constructor; [done|]. constructor; [done|].
    eapply Forall_impl; [exact Hf|]. simpl. intros y [Hy| <-]; [|done].
    destruct Hxz as [Hxz| ->]; [left; by etrans|by left]. }
  destruct (cmp x z) eqn:E.
  - apply Hcase. right. by apply cmp_eq.
  - apply Hcase. by left.
  - constructor; [done|]. apply Forall_forall. intros y [->|Hy]%elem_of_sort_insert.
    + left. by apply lt_ord_gt.
    + rewrite Forall_forall in Hf. auto.
Qed.
Lemma sort_sorted l : StronglySorted le_ord (sort l).
Proof. induction l; simpl; [constructor|]. by apply sort_insert_sorted. Qed.
Lemma sort_insert_perm x l : Permutation (sort_insert x l) (x :: l).
Proof.
  induction l as [|z l IH]; simpl; [done|]. destruct (cmp x z); [done|done|].
  rewrite IH. apply Permutation_swap.
Qed.
Lemma sort_perm l : Permutation (sort l) l.
Proof. induction l as [|x l IH]; simpl; [done|]. by rewrite sort_insert_perm, IH. Qed.
Lemma elem_of_dedup y l : y ∈ dedup l ↔ y ∈ l.
Proof.
  induction l as [|x l IH]; [done|]. simpl. rewrite elem_of_cons, <- IH.
  destruct (dedup l) as [|z d] eqn:Ed; [rewrite elem_of_cons; done|].
  destruct (cmp x z) eqn:E; rewrite !elem_of_cons; [|clear; tauto..].
  apply cmp_eq in E as ->. clear. tauto.
Qed.
Lemma dedup_sorted l : StronglySorted le_ord l → SSorted (dedup l).
Proof.
  induction 1 as [|x l Hl IH Hf]; [constructor|]. simpl.
  destruct (dedup l) as [|y d] eqn:Ed; [repeat constructor|].
  rewrite Forall_forall in Hf.
  assert (Hxy : le_ord x y) by (apply Hf, elem_of_dedup; rewrite Ed; left).
  destruct (cmp x y) eqn:E; [done| |].
  - constructor; [done|]. inv IH. constructor; [done|].
    eapply Forall_impl; [eassumption|]. intros z Hz. by etrans.
  - exfalso. apply lt_ord_gt in E. destruct Hxy as [?| ->]; [by eapply lt_ord_asym|].
    by apply lt_ord_irrefl in E.
Qed.
Lemma dedup_sort_bset l : dedup (sort l) = bset_of l.
Proof.
  apply SSorted_ext; [apply dedup_sorted, sort_sorted|apply bset_of_sorted|].
  intros x. by rewrite elem_of_dedup, elem_of_sort, elem_of_bset_of.
Qed.
Lemma bset_of_fixed l : SSorted l → bset_of l = l.
Proof. intros Hl. apply SSorted_ext; [apply bset_of_sorted|done|]. intros x. apply elem_of_bset_of. Qed.

Lemma strictly_increasing_spec l : strictly_increasing l = true ↔ SSorted l.
Proof.
  split.
  - intros Hl. apply Sorted_StronglySorted; [intros x y z; apply cmp_trans|].
    induction l as [|x [|y l] IH]; [repeat constructor..|].
    apply andb_true_iff in Hl as [Hxy Hl]. constructor; [by apply IH|].
    constructor. by apply ltb_ord_spec.
  - induction 1 as [|x l Hl IH Hf]; [done|]. destruct l as [|y l]; [done|].
    simpl. apply andb_true_iff. split; [|done]. apply ltb_ord_spec. by inversion Hf.
Qed.
Lemma SSorted_nodup_le l : StronglySorted le_ord l → NoDup l → SSorted l.
Proof.
  induction 1 as [|x l Hl IH Hf]; [constructor|]. intros [Hx Hnd]%NoDup_cons.
  constructor; [auto|]. rewrite Forall_forall in Hf |- *. intros y Hy.
  destruct (Hf y Hy) as [?| ->]; done.
Qed.
Lemma SSorted_app_l l k : SSorted (l ++ k) → SSorted l.
Proof.
  induction l as [|x l IH]; simpl; [constructor|]. intros Hs. inversion Hs as [|?? Hs' Hf]; subst.
  apply Forall_app in Hf as [Hf _]. constructor; auto.
Qed.
Lemma SSorted_app l k :
  SSorted (l ++ k) ↔ SSorted l ∧ SSorted k ∧ ∀ x y, x ∈ l → y ∈ k → lt_ord x y.
Proof.
  induction l as [|x l IH]; simpl.
  { split; [|by intros (_ & ? & _)]. intros Hk. split; [constructor|]. split; [done|].
    intros x y []%elem_of_nil. }
  split.
  - intros Hs. inversion Hs as [|?? Hs' Hf]; subst. apply IH in Hs' as (Hl & Hk & Hlk).
    apply Forall_app in Hf as [Hfl Hfk]. rewrite Forall_forall in Hfk.
    split; [by constructor|]. split; [done|]. intros a b [->|Ha]%elem_of_cons Hb; auto.
  - intros (Hs & Hk & Hlk). inversion Hs as [|?? Hs' Hf]; subst. constructor.
    + apply IH. split; [done|]. split; [done|]. intros a b Ha. apply Hlk. by right.
    + apply Forall_app. split; [done|]. apply Forall_forall. intros b. apply Hlk. left.
Qed.
Lemma SSorted_le l : SSorted l → StronglySorted le_ord l.
Proof.
  induction 1 as [|x l Hs IH Hf]; constructor; [done|].
  eapply Forall_impl; [exact Hf|]. by left.
Qed.
Lemma sort_nodup l : SSorted (sort l) ↔ NoDup l.
Proof.
  rewrite <- (NoDup_Permutation_proper _ _ (sort_perm l)).
  split; [apply SSorted_NoDup|apply SSorted_nodup_le, sort_sorted].
Qed.
(** A sorted list with no equal neighbours has no duplicates. *)
Lemma adjacent_equal_sorted l :
  StronglySorted le_ord l → adjacent_equal l = false ↔ SSorted l.
Proof.
  induction 1 as [|x l Hl IH Hf]; [split; [constructor|done]|].
  destruct l as [|y l]; [split; [repeat constructor|done]|].
  cbn [adjacent_equal]. inversion Hf as [|?? Hxy Hf']; subst. split.
  - destruct (cmp x y) eqn:E; [done| |].
    + intros Ha. apply IH in Ha. constructor; [done|]. constructor; [done|].
      inv Ha. eapply Forall_impl; [eassumption|]. intros z ?. by etrans.
    + intros _. exfalso. apply lt_ord_gt in E. destruct Hxy as [?| ->]; [by eapply lt_ord_asym|].
      by apply lt_ord_irrefl in E.
  - intros Hs. inversion Hs as [|?? Hs' Hfx]; subst. inversion Hfx as [|?? Hlt _]; subst.
    unfold lt_ord in Hlt. rewrite Hlt. by apply IH.
Qed.
(** A set that keeps its first [n] elements as it grows has the first [n] of
    all of them. *)
Lemma take_bset_insert n x l : take n (bset_insert x (take n l)) = take n (bset_insert x l).
Proof.
  revert n. induction l as [|y l IH]; intros [|n]; [done..|]. cbn [take bset_insert].
  destruct (cmp x y); cbn [take].
  - by rewrite take_take, Nat.min_id.
  - f_equal. destruct n as [|n]; [done|]. cbn [take]. f_equal. rewrite take_take. f_equal. lia.
  - f_equal. apply IH.
Qed.
Lemma length_bset_insert x l : length (bset_insert x l) ≤ S (length l).
Proof. induction l as [|y l IH]; simpl; [done|]. destruct (cmp x y); simpl; lia. Qed.
Lemma bset_insert_pop n x l : length l ≤ n →
  (if n <? length (bset_insert x l) then removelast (bset_insert x l) else bset_insert x l) = take n (bset_insert x l).
Proof.
  intros Hl. pose proof (length_bset_insert x l). destruct (Nat.ltb_spec n (length (bset_insert x l))).
  - rewrite removelast_firstn_len. f_equal. lia.
  - by rewrite take_ge.
Qed.
Lemma bset_extend_app (acc xs ys : list A) : bset_extend acc (xs ++ ys) = bset_extend (bset_extend acc xs) ys.
Proof. unfold bset_extend. apply foldl_app. Qed.
(** One more element in a bounded set. *)
Lemma bset_bounded_step n x (xs l : list A) :
  l = take n (bset_of xs) →
  (if n <? length (bset_insert x l) then removelast (bset_insert x l) else bset_insert x l) = take n (bset_of (xs ++ [x])).
Proof.
  intros ->. unfold bset_of. rewrite bset_extend_app, bset_insert_pop by (rewrite length_take; lia).
  apply take_bset_insert.
Qed.
End lemmas.

Section by_key_lemmas.
Context {A K : Type} `{RustOrd K} (key : A → K).
Lemma sort_by_cons_keys (x : A) (m : list A) :
  key <$> sort_by_insert key x m = sort_insert (key x) (key <$> m).
Proof.
  induction m as [|y m IHm]; [done|].
  rewrite fmap_cons. cbn [sort_by_insert sort_insert].
  destruct (cmp (key x) (key y)); [done..|]. by rewrite fmap_cons, IHm.
Qed.
Lemma sort_by_keys (l : list A) : key <$> sort_by key l = sort (key <$> l).
Proof.
  induction l as [|x l IH]; [done|]. rewrite fmap_cons.
  unfold sort_by, sort in *. cbn [foldr]. by rewrite sort_by_cons_keys, IH.
Qed.
Lemma sort_by_insert_perm (x : A) (m : list A) : Permutation (sort_by_insert key x m) (x :: m).
Proof.
  induction m as [|y m IHm]; [done|]. cbn [sort_by_insert].
  destruct (cmp (key x) (key y)); [done..|]. rewrite IHm. apply Permutation_swap.
Qed.
(** Sorting a sorted list. *)
Lemma sort_by_fixed (l : list A) : StronglySorted lt_ord (key <$> l) → sort_by key l = l.
Proof.
  induction l as [|x l IH]; [done|]. rewrite fmap_cons. intros Hs. inversion Hs as [|?? Hs' Hf]; subst.
  unfold sort_by in *. cbn [foldr]. rewrite IH by done. destruct l as [|y l]; [done|].
  rewrite fmap_cons in Hf. apply Forall_cons in Hf as [Hxy _]. cbn [sort_by_insert].
  unfold lt_ord in Hxy. by rewrite Hxy.
Qed.
Lemma sort_by_perm (l : list A) : Permutation (sort_by key l) l.
Proof.
  induction l as [|x l IH]; [done|]. unfold sort_by in *. cbn [foldr]. by rewrite sort_by_insert_perm, IH.
Qed.
End by_key_lemmas.
(** A map that respects the order keeps a list sorted. *)
Lemma SSorted_fmap_mono {A B C} `{RustOrd B, RustOrd C} (f : A → B) (g : A → C) (l : list A) :
  (∀ x y, lt_ord (f x) (f y) → lt_ord (g x) (g y)) →
  StronglySorted lt_ord (f <$> l) → StronglySorted lt_ord (g <$> l).
Proof.
  intros Hfg. induction l as [|x l IH]; [constructor|]. rewrite !fmap_cons.
  intros [Hs Hf]%StronglySorted_inv. constructor; [by apply IH|].
  eapply Forall_fmap, Forall_impl; [exact (proj1 (Forall_fmap f _ l) Hf)|]. intros y. apply Hfg.
Qed.
