(* ===== verification/Control.v ===== *)
(** * Shared control types

    Errors, timestamps and deadlines used by every component, and the
    interfaces of the third-party libraries the broker calls (the [ulid],
    [globset] and [regex] crates). *)

From S2P Require Import Prelude RustStr Order.

(** ** Interfaces of the libraries *)

(** The [ulid] crate: [Ulid::from_string], [is_nil] and the canonical text. *)
Class UlidLib := {
  ulid : Type;
  ulid_from_string : string → option ulid;
  ulid_is_nil : ulid → bool;
  ulid_to_string : ulid → string;
}.

(** The options the broker sets on [globset::GlobBuilder]. *)
Record glob_options := {
  case_insensitive : bool;
  literal_separator : bool;
  backslash_escape : bool;
  allow_unclosed_class : bool;
  empty_alternates : bool;
}.
(** The [globset] and [regex] crates: a glob is built into the text of an
    anchored byte regex, which is compiled and matched. *)
Class GlobLib := {
  regex : Type;
  glob_regex : glob_options → string → option string;
  regex_new : string → option regex;
  is_match : regex → string → bool;
}.

(** ** Errors *)

Inductive ControlError :=
| CE_InvalidRole | CE_InvalidIdentity | CE_CorruptIdentity | CE_CorruptRbac
| CE_IdentityLimitExceeded | CE_SessionUnavailable | CE_SessionExpired | CE_InvalidSession
| CE_CorruptSession | CE_SessionExists | CE_Configuration | CE_AmbientConfiguration
| CE_Connection | CE_SchemaRejected | CE_Storage | CE_FlowExists | CE_Unavailable | CE_Expired
| CE_CorruptFlow | CE_InvalidFlow | CE_Clock | CE_Deadline | CE_Closed | CE_OutcomeUncertain
| CE_PrivateFile.
#[global] Instance ControlError_eq_dec : EqDecision ControlError.
Proof. solve_decision. Defined.

(** ** Timestamps: checked UTC microseconds *)

Definition TimestampMicros_new (value : Z) : option Z :=
  if (value <? 0)%Z then None else Some value.
Definition TimestampMicros_try_from (utc : Z) : option Z :=
  duration_since utc UNIX_EPOCH ≫= λ d,
  let micros := (d / 1000)%Z in
  if (micros <=? I64_MAX)%Z then TimestampMicros_new micros else None.
Definition now_micros : M clock ControlError Z :=
  let? utc := system_now in
  lift_result (ok_or (TimestampMicros_try_from utc) CE_Clock).

Lemma now_micros_ok c now c' : now_micros c = (Ok now, c') → now = (utc_at c (tick c) / 1000)%Z ∧ c' = advance c.
Proof.
  unfold now_micros, bind, system_now, lift_result, TimestampMicros_try_from, TimestampMicros_new, duration_since, UNIX_EPOCH.
  destruct (0 <=? _)%Z; simpl; [|done]. destruct (_ <=? _)%Z; simpl; [|done]. rewrite Z.sub_0_r.
  destruct (_ <? _)%Z; simpl; [done|]. by intros [= <- <-].
Qed.

(** The caller's deadline, shortened to the operation budget. *)
Definition bounded_deadline (caller budget : Z) : M clock ControlError Z :=
  let? now := instant_now in
  if (caller <=? now)%Z then fail CE_Deadline else
  match checked_add_time now budget with
  | Some t => ret (Z.min caller t)
  | None => fail CE_Configuration
  end.

(** ** Lists of names: trimmed, non-empty, sorted and without duplicates *)

Definition normalize (values : list string) : list string :=
  let values := (λ v, if str_eqb (trim v) v then v else trim v) <$> values in
  let values := List.filter (λ v, negb (is_empty v)) values in
  dedup (sort values).

(** ** Lemmas *)

Lemma TimestampMicros_new_Some t u : TimestampMicros_new t = Some u ↔ u = t ∧ (0 ≤ t)%Z.
Proof. unfold TimestampMicros_new. destruct (Z.ltb_spec t 0); naive_solver lia. Qed.

Lemma TimestampMicros_nonneg utc t : TimestampMicros_try_from utc = Some t → (0 ≤ t ≤ I64_MAX)%Z.
Proof.
  unfold TimestampMicros_try_from, TimestampMicros_new. intros H.
  destruct (duration_since utc UNIX_EPOCH) as [d|] eqn:E; simpl in H; [|done].
  repeat case_hyp H; simplify_eq. bool_to_prop. lia.
Qed.

Lemma trim_if v : (if str_eqb (trim v) v then v else trim v) = trim v.
Proof. destruct (str_eqb (trim v) v) eqn:E; [|done]. by apply str_eqb_eq in E. Qed.

Lemma elem_of_normalize v values :
  v ∈ normalize values ↔ v ≠ "" ∧ ∃ w, w ∈ values ∧ v = trim w.
Proof.
  unfold normalize. rewrite elem_of_dedup, elem_of_sort, list_elem_of_In, filter_In, <- list_elem_of_In.
  rewrite list_elem_of_fmap, negb_true_iff, <- not_true_iff_false, is_empty_eq.
  setoid_rewrite trim_if. naive_solver.
Qed.
Lemma normalize_sorted values : StronglySorted lt_ord (normalize values).
Proof. apply dedup_sorted, sort_sorted. Qed.
