(* ===== verification/LocalBearer.v ===== *)
(** * Local bearers

    crates/broker-control/src/local_bearer.rs, local_bearer_verifier.rs and
    service/local_bearer_verifier.rs: the stored state of an opaque local
    credential, and the verifier that turns a raw bearer into a
    [VerifiedLocalBearer] with an immutable pair of expiries. *)

From S2P Require Import Prelude RustStr Order Control.

(** ** Data *)

Definition LOCAL_ISSUER : string := "local".

Inductive LocalIdentityKind := Human | Service.
Inductive LocalBearerKind := Access | ServiceCredential.
#[global] Instance LocalBearerKind_eq_dec : EqDecision LocalBearerKind.
Proof. solve_decision. Defined.

Inductive LocalBearerStateError :=
| LBS_InvalidLimits | LBS_ReadLimitExceeded | LBS_MalformedStored
| LBS_Control (e : ControlError).

Inductive LocalBearerVerificationError :=
| LBV_Unauthenticated
| LBV_State (e : LocalBearerStateError)
| LBV_Control (e : ControlError).

(** [From<LocalBearerStateError>] *)
Definition LBV_from_state (e : LocalBearerStateError) : LocalBearerVerificationError :=
  match e with
  | LBS_Control e => LBV_Control e
  | other => LBV_State other
  end.

Record LocalBearerUser := {
  lu_username : string;
  lu_subject : string;
  lu_kind : LocalIdentityKind;
  lu_name : string;
  lu_email : string;
  lu_organization : string;
  lu_teams : list string;
  lu_revision : Z;
}.
Definition lu_issuer (_ : LocalBearerUser) : string := LOCAL_ISSUER.

Record LocalBearerState := {
  lb_kind : LocalBearerKind;
  lb_audience : string;
  lb_raw_scopes : list string;
  lb_expires_at : Z;
  lb_revoked_at : option Z;
  lb_user : LocalBearerUser;
}.

Record VerifiedLocalBearer := {
  vl_user : LocalBearerUser;
  vl_kind : LocalBearerKind;
  vl_audience : string;
  vl_scopes : list string;
  vl_expires_at : Z;
  vl_verified_at : Z;
  vl_expires_utc : Z;
  vl_expires_mono : Z;
}.
Definition current_local_user (p : VerifiedLocalBearer) : LocalBearerUser := vl_user p.
Definition vl_authentication_expiry (p : VerifiedLocalBearer) : Z * Z :=
  (vl_expires_utc p, vl_expires_mono p).

(** ** Operations *)

(** [VerifiedLocalBearer::new]: the microseconds left at [now] are added to the
    monotonic [anchor]. *)
Definition VerifiedLocalBearer_new (state : LocalBearerState) (now anchor : Z)
    : result LocalBearerVerificationError VerifiedLocalBearer :=
  let remaining := (lb_expires_at state - now)%Z in
  if negb ((- 2 ^ 63 <=? remaining)%Z && (remaining <=? I64_MAX)%Z && (0 <? remaining)%Z)
  then Err LBV_Unauthenticated else
  if (lb_expires_at state <? 0)%Z then Err (LBV_Control CE_Clock) else
  let! expires_utc := ok_or (checked_add_time UNIX_EPOCH (lb_expires_at state * 1000)) (LBV_Control CE_Clock) in
  let! expires_mono := ok_or (checked_add_time anchor (remaining * 1000)) (LBV_Control CE_Clock) in
  let! verified_at := ok_or (TimestampMicros_new now) (LBV_Control CE_Clock) in
  Ok {| vl_user := lb_user state;
        vl_kind := lb_kind state;
        vl_audience := lb_audience state;
        vl_scopes := normalize (lb_raw_scopes state);
        vl_expires_at := lb_expires_at state;
        vl_verified_at := verified_at;
        vl_expires_utc := expires_utc;
        vl_expires_mono := expires_mono |}.

Definition vl_expired_at (p : VerifiedLocalBearer) (utc_micros mono : Z) : bool :=
  (vl_expires_at p <=? utc_micros)%Z || (vl_expires_mono p <=? mono)%Z.

Definition set_verified_at (p : VerifiedLocalBearer) (now : Z) : VerifiedLocalBearer :=
  {| vl_user := vl_user p; vl_kind := vl_kind p; vl_audience := vl_audience p;
     vl_scopes := vl_scopes p; vl_expires_at := vl_expires_at p; vl_verified_at := now;
     vl_expires_utc := vl_expires_utc p; vl_expires_mono := vl_expires_mono p |}.

(** [VerifiedLocalBearer::finish]: returns the updated proof. *)
Definition vl_finish (p : VerifiedLocalBearer) (now : Z)
    : M clock LocalBearerVerificationError VerifiedLocalBearer :=
  let? mono := instant_now in
  if vl_expired_at p now mono then fail LBV_Unauthenticated else
  match TimestampMicros_new now with
  | Some t => ret (set_verified_at p t)
  | None => fail (LBV_Control CE_Clock)
  end.

Definition bearer_kind (raw : string) : option LocalBearerKind :=
  if starts_with raw "gb_at_" then Some Access
  else if starts_with raw "gb_sc_" then Some ServiceCredential
  else None.

Definition validate_state (state : LocalBearerState) (audience : string) (required : list string)
    (now : Z) : result LocalBearerVerificationError unit :=
  if negb (str_eqb (lb_audience state) (trim audience))
     || (match lb_revoked_at state with Some _ => true | None => false end)
     || (lb_expires_at state <=? now)%Z
     || existsb (λ r, negb (existsb (λ stored, str_eqb stored r) (lb_raw_scopes state)))
          (List.filter (λ s, negb (is_empty s)) (trim <$> required))
  then Err LBV_Unauthenticated
  else Ok tt.

Section verify.
(** The token digest (keyed by the deployment pepper) and the bounded SQL read
    of the credential row.  The read is the only suspension point of [verify],
    so the enclosing [timeout_at] shows up as a deadline error of the read. *)
Context (digest : LocalBearerKind → string → option string)
        (read_state : string → LocalBearerKind → Z
                      → M clock LocalBearerStateError (option LocalBearerState)).

Definition verify_local_bearer (operation_timeout : Z) (audience raw : string)
    (required_scopes : list string) (caller : Z)
    : M clock LocalBearerVerificationError VerifiedLocalBearer :=
  let? stop := map_err LBV_Control (bounded_deadline caller operation_timeout) in
  let? kind := lift_result (ok_or (bearer_kind raw) LBV_Unauthenticated) in
  let? digest := lift_result (ok_or (digest kind raw) LBV_Unauthenticated) in
  let? found := map_err LBV_from_state (read_state digest kind stop) in
  let? state := lift_result (ok_or found LBV_Unauthenticated) in
  let? now := map_err LBV_Control now_micros in
  do? lift_result (validate_state state audience required_scopes now) in
  let? anchor := instant_now in
  let? now := map_err LBV_Control now_micros in
  let? verified := lift_result (VerifiedLocalBearer_new state now anchor) in
  let? now := map_err LBV_Control now_micros in
  let? verified := vl_finish verified now in
  let? mono := instant_now in
  if (stop <=? mono)%Z then fail (LBV_Control CE_Deadline) else ret verified.
End verify.

(** ** Lemmas *)

Lemma validate_state_ok state audience required now :
  validate_state state audience required now = Ok tt ↔
  lb_audience state = trim audience ∧ lb_revoked_at state = None ∧
  (now < lb_expires_at state)%Z ∧
  ∀ r, r ∈ required → trim r ≠ "" → trim r ∈ lb_raw_scopes state.
Proof.
  unfold validate_state.
  set (bad := existsb _ _).
  assert (bad = false ↔ ∀ r, r ∈ required → trim r ≠ "" → trim r ∈ lb_raw_scopes state) as Hbad.
  { unfold bad. rewrite <- not_true_iff_false, existsb_elem. split.
    - intros H r Hr Hne. destruct (decide (trim r ∈ lb_raw_scopes state)) as [|Hnot]; [done|].
      exfalso. apply H. exists (trim r). split.
      + apply list_elem_of_In, filter_In. split.
        * apply list_elem_of_In, list_elem_of_fmap. eauto.
        * by destruct (trim r).
      + apply negb_true_iff, not_true_iff_false. rewrite existsb_elem.
        intros (x & Hx & ->%str_eqb_eq). done.
    - intros H (x & Hx & Hn). apply list_elem_of_In, filter_In in Hx as [Hx He].
      apply list_elem_of_In, list_elem_of_fmap in Hx as (r & -> & Hr).
      apply negb_true_iff, not_true_iff_false in Hn. apply Hn, existsb_elem.
      exists (trim r). split; [|apply str_eqb_refl]. apply H; [done|]. by destruct (trim r). }
  destruct (str_eqb (lb_audience state) (trim audience)) eqn:Ha; simpl.
  2: { apply str_eqb_neq in Ha. naive_solver. }
  apply str_eqb_eq in Ha.
  destruct (lb_revoked_at state); simpl; [naive_solver|].
  destruct (lb_expires_at state <=? now)%Z eqn:He; simpl; bool_to_prop.
  { split; [done|]. intros. lia. }
  destruct bad eqn:Hb; simpl; [naive_solver|].
  split; [|done]. intros _. repeat split; try done. by apply Hbad.
Qed.

Lemma VerifiedLocalBearer_new_ok state now anchor v :
  VerifiedLocalBearer_new state now anchor = Ok v →
  vl_user v = lb_user state ∧ vl_kind v = lb_kind state ∧ vl_audience v = lb_audience state ∧
  vl_scopes v = normalize (lb_raw_scopes state) ∧ vl_expires_at v = lb_expires_at state ∧
  vl_expires_utc v = (lb_expires_at state * 1000)%Z ∧
  vl_expires_mono v = (anchor + (lb_expires_at state - now) * 1000)%Z ∧
  (0 ≤ now < lb_expires_at state)%Z.
Proof.
  unfold VerifiedLocalBearer_new, checked_add_time, TimestampMicros_new, UNIX_EPOCH. intros H.
  case_hyp H; [done|]. case_hyp H; [done|]. bool_to_prop.
  case_hyp H; simpl in H; [|done]. case_hyp H; simpl in H; [|done].
  case_hyp H; simpl in H; [done|]. simplify_eq. simpl. bool_to_prop. repeat split; lia.
Qed.

Lemma vl_finish_ok p now c v c' :
  vl_finish p now c = (Ok v, c') →
  v = set_verified_at p now ∧ c' = advance c ∧
  (now < vl_expires_at p)%Z ∧ (mono_at c (tick c) < vl_expires_mono p)%Z.
Proof.
  unfold vl_finish, vl_expired_at, TimestampMicros_new. intros H. invert_run H.
  case_hyp C0; [done|]. simplify_eq. bool_to_prop. done.
Qed.

Lemma required_in_normalized r scopes : trim r ≠ "" → trim r ∈ scopes → trim r ∈ normalize scopes.
Proof. intros Hne Hin. apply elem_of_normalize. split; [done|]. exists (trim r). by rewrite trim_idemp. Qed.

(** ** Properties *)


Definition sample_user : LocalBearerUser :=
  {| lu_username := "alice"; lu_subject := "alice-subject"; lu_kind := Human; lu_name := "";
     lu_email := ""; lu_organization := "org/team"; lu_teams := ["dev"]; lu_revision := 1 |}.
Definition sample_state : LocalBearerState :=
  {| lb_kind := Access; lb_audience := "aud"; lb_raw_scopes := [" padded "; "exact"];
     lb_expires_at := 100; lb_revoked_at := None; lb_user := sample_user |}.
Definition sample_clock : clock := {| mono_at := λ n, Z.of_nat n; utc_at := λ _, 5000%Z; tick := 0 |}.


(** Finishing a proof never changes what it authenticates: the user, the
    audience, the scopes and both expiries stay those of the verification, and
    it succeeds only while neither expiry has been reached. *)
Theorem vl_finish_never_renews p now c v c' :
  vl_finish p now c = (Ok v, c') →
  vl_user v = vl_user p ∧ vl_audience v = vl_audience p ∧ vl_scopes v = vl_scopes p ∧
  vl_authentication_expiry v = vl_authentication_expiry p ∧ vl_expires_at v = vl_expires_at p ∧
  vl_expired_at p now (mono_at c (tick c)) = false.
Proof.
  intros H. pose proof H as (-> & _ & H1 & H2)%vl_finish_ok. repeat split; try done.
  unfold vl_expired_at. apply orb_false_iff. split; apply Z.leb_gt; lia.
Qed.

Definition sample_proof : VerifiedLocalBearer :=
  {| vl_user := sample_user; vl_kind := Access; vl_audience := "aud"; vl_scopes := ["exact"];
     vl_expires_at := 100; vl_verified_at := 5; vl_expires_utc := 100000; vl_expires_mono := 95001 |}.
Lemma vl_finish_never_renews_witness :
  ∃ v c', vl_finish sample_proof 7 sample_clock = (Ok v, c') ∧ vl_scopes v = ["exact"].
Proof.
  eexists _, _. split; [vm_compute; reflexivity|].
  edestruct (vl_finish_never_renews sample_proof 7 sample_clock) as (_ & _ & Hs & _);
    [vm_compute; reflexivity|]. exact Hs.
Defined.
