(* ===== verification/BrokerAccess.v ===== *)
(** * Broker access tokens

    crates/broker-control/src/broker_access.rs: local authentication of the
    broker's own EdDSA access tokens against an immutable set of trusted keys,
    and the proof [VerifiedBrokerAccess] whose expiries every later use checks. *)

From stdpp Require Import gmap.
From S2P Require Import Prelude RustStr Order Control.

(** ** Data *)

Inductive BrokerAccessError :=
| BA_InvalidConfiguration | BA_InvalidToken | BA_Expired | BA_InsufficientScope | BA_Deadline.
#[global] Instance BrokerAccessError_eq_dec : EqDecision BrokerAccessError.
Proof. solve_decision. Defined.

(** A JSON value, as far as the header of a token is inspected. *)
Inductive json := JString (s : string) | JOther.
Definition as_str (v : json) : option string := match v with JString s => Some s | JOther => None end.

(** A JSON Web Key, with the parameters the constructor inspects. *)
Inductive jwk_curve := Ed25519 | OtherCurve.
Inductive jwk_algorithm := OctetKeyPair (curve : jwk_curve) (x : string) | OtherAlgorithm.
Inductive key_algorithm := EdDSA | OtherKeyAlgorithm.
Inductive key_use := Signature | OtherUse.
Inductive key_operation := Verify | OtherOperation.
#[global] Instance key_operation_eq_dec : EqDecision key_operation.
Proof. solve_decision. Defined.
Record Jwk := {
  jwk_key_id : option string;
  jwk_algorithm_parameters : jwk_algorithm;
  jwk_key_algorithm : option key_algorithm;
  jwk_public_key_use : option key_use;
  jwk_key_operations : option (list key_operation);
}.

Inductive Audience := One (value : string) | Many (values : list string).

Record Claims := {
  cl_iss : string;
  cl_sub : string;
  cl_aud : Audience;
  cl_iat : Z;
  cl_exp : Z;
  cl_token_use : string;
  cl_client_id : string;
  cl_jti : string;
  cl_scope : string;
  cl_nbf : option Z;
  cl_preferred_username : option string;
  cl_organization : option string;
  cl_groups : list string;
}.

(** The settings of [jsonwebtoken::Validation] that [verify_bound] makes. *)
Record Validation := {
  va_leeway : Z;
  va_validate_nbf : bool;
  va_required : list string;
  va_issuer : list string;
  va_audience : list string;
}.
Inductive JwtErrorKind := ExpiredSignature | OtherJwtError.

(** The [base64], [serde_json] and [jsonwebtoken] crates: URL-safe base64, the
    entries of a JSON object in source order, key import, and the verification
    of a token under a key (which reads the clock). *)
Class JwtLib := {
  DecodingKey : Type;
  b64_decode : string → option string;
  json_object : string → option (list (string * json));
  from_jwk : Jwk → option DecodingKey;
  jwt_decode : DecodingKey → Validation → string → M clock JwtErrorKind Claims;
}.

Section verifier.
Context `{JwtLib}.

Record BrokerAccessVerifier := {
  bv_issuer : string;
  bv_api_audience : string;
  bv_resource : option string;
  bv_token_bytes : Z;
  bv_keys : gmap string DecodingKey;
}.

Record VerifiedBrokerAccess := {
  vb_verifier : BrokerAccessVerifier;
  vb_subject : string;
  vb_client_id : string;
  vb_jti : string;
  vb_audience : Audience;
  vb_username : option string;
  vb_organization : option string;
  vb_teams : list string;
  vb_scopes : list string;
  vb_expires_at : Z;
  vb_expires_mono : Z;
  vb_original : Z;
}.
Definition vb_issuer (p : VerifiedBrokerAccess) : string := bv_issuer (vb_verifier p).
Definition vb_authentication_expiry (p : VerifiedBrokerAccess) : Z * Z :=
  (vb_expires_at p, vb_expires_mono p).

(** ** Operations *)

Definition ba_check_deadline (deadline : Z) : M clock BrokerAccessError unit :=
  let? now := instant_now in
  if (deadline <=? now)%Z then fail BA_Deadline else ret tt.

(** [VerifiedBrokerAccess::check] *)
Definition vb_check (p : VerifiedBrokerAccess) : M clock BrokerAccessError unit :=
  do? ba_check_deadline (vb_original p) in
  let? utc := system_now in
  if (vb_expires_at p <=? utc)%Z then fail BA_Expired else
  let? mono := instant_now in
  if (vb_expires_mono p <=? mono)%Z then fail BA_Expired else ret tt.

(** [v.iter().all(|v| !v.is_empty() && seen.insert(v))], with the set built. *)
Fixpoint insert_unique (seen : gset string) (values : list string) : option (gset string) :=
  match values with
  | [] => Some seen
  | v :: values =>
      if negb (is_empty v) && negb (bool_decide (v ∈ seen))
      then insert_unique ({[v]} ∪ seen) values else None
  end.

Definition valid_for (aud : Audience) (api : string) (resource : option string) : bool :=
  match aud with
  | One value => negb (is_empty value) && str_eqb value api && is_none_or resource (str_eqb value)
  | Many values =>
      negb (bool_decide (values = [])) &&
      match insert_unique ∅ values with
      | None => false
      | Some seen => bool_decide (api ∈ seen) && is_none_or resource (λ r, bool_decide (r ∈ seen))
      end
  end.

Definition matches_oidc_resource (p : VerifiedBrokerAccess) (resource : string) : bool :=
  let api := bv_api_audience (vb_verifier p) in
  let expected := if is_empty resource || str_eqb resource api then 1 else 2 in
  match vb_audience p with
  | One value => (expected =? 1)%nat && str_eqb value api
  | Many values =>
      (length values =? expected)%nat && existsb (λ v, str_eqb v api) values
      && ((expected =? 1)%nat || existsb (λ v, str_eqb v resource) values)
  end.

(** [UniqueRoot]: an object whose keys are pairwise different. *)
Definition unique_root (entries : list (string * json)) : option (list (string * json)) :=
  if bool_decide (NoDup entries.*1) then Some entries else None.
Definition json_get (key : string) (entries : list (string * json)) : option json :=
  snd <$> List.find (λ e, str_eqb e.1 key) entries.

(** [BrokerAccessVerifier::new] *)
Definition valid_jwk (jwk : Jwk) : option (string * DecodingKey) :=
  match jwk_key_id jwk, jwk_algorithm_parameters jwk with
  | Some kid, OctetKeyPair curve x =>
      if is_empty kid
         || negb (match curve with Ed25519 => true | OtherCurve => false end)
         || is_some_and (jwk_key_algorithm jwk) (λ a, match a with EdDSA => false | _ => true end)
         || is_some_and (jwk_public_key_use jwk) (λ u, match u with Signature => false | _ => true end)
         || is_some_and (jwk_key_operations jwk) (λ ops, negb (bool_decide (ops = [Verify])))
         || negb (is_some_and (b64_decode x) (λ b, (len b =? 32)%Z))
      then None
      else (λ k, (kid, k)) <$> from_jwk jwk
  | _, _ => None
  end.
Fixpoint trusted_keys (keys : gmap string DecodingKey) (jwks : list Jwk)
    : result BrokerAccessError (gmap string DecodingKey) :=
  match jwks with
  | [] => Ok keys
  | jwk :: jwks =>
      let! (kid, key) := ok_or (valid_jwk jwk) BA_InvalidConfiguration in
      match keys !! kid with
      | Some _ => Err BA_InvalidConfiguration
      | None => trusted_keys (<[kid:=key]> keys) jwks
      end
  end.
Definition BrokerAccessVerifier_new (issuer api_audience : string) (resource : option string)
    (jwks : list Jwk) (token_bytes : Z) : result BrokerAccessError BrokerAccessVerifier :=
  if existsb (λ v, is_empty (trim v)) [issuer; api_audience]
     || is_some_and resource (λ v, is_empty (trim v))
     || bool_decide (length jwks = 0) || (ISIZE_MAX <? token_bytes)%Z
  then Err BA_InvalidConfiguration else
  let! keys := trusted_keys ∅ jwks in
  Ok {| bv_issuer := issuer; bv_api_audience := api_audience; bv_resource := resource;
        bv_token_bytes := token_bytes; bv_keys := keys |}.

Definition trusted_key (v : BrokerAccessVerifier) (raw : string)
    : result BrokerAccessError DecodingKey :=
  if is_empty raw || (bv_token_bytes v <? len raw)%Z then Err BA_InvalidToken else
  match split raw "." with
  | [encoded_header; payload; signature] =>
      if is_empty encoded_header || is_empty payload || is_empty signature
      then Err BA_InvalidToken else
      let! header_bytes := ok_or (b64_decode encoded_header) BA_InvalidToken in
      let! header := ok_or (json_object header_bytes ≫= unique_root) BA_InvalidToken in
      if negb (bool_decide (json_get "alg" header ≫= as_str = Some "EdDSA"))
         || existsb (λ name, match json_get name header with Some _ => true | None => false end)
              ["crit"; "b64"; "jku"; "x5u"; "jwk"; "x5c"]
      then Err BA_InvalidToken else
      let! kid := ok_or (json_get "kid" header ≫= as_str) BA_InvalidToken in
      if is_empty kid then Err BA_InvalidToken else
      ok_or (bv_keys v !! kid) BA_InvalidToken
  | _ => Err BA_InvalidToken
  end.

Definition access_validation (v : BrokerAccessVerifier) : Validation :=
  {| va_leeway := 0; va_validate_nbf := true; va_required := ["iss"; "sub"; "aud"; "exp"];
     va_issuer := [bv_issuer v]; va_audience := [bv_api_audience v] |}.
Definition jwt_error (e : JwtErrorKind) : BrokerAccessError :=
  match e with ExpiredSignature => BA_Expired | OtherJwtError => BA_InvalidToken end.

(** The scopes of a token: the non-empty words of its [scope] claim. *)
Definition scope_words (scope : string) : list string :=
  List.filter (λ s, negb (is_empty s)) (split scope " ").

(** The closure of [verify_bound]. *)
Definition verify_bound_body (v : BrokerAccessVerifier) (raw : string)
    (required_scopes : list string) (resource : option string) (original : Z)
    : M clock BrokerAccessError VerifiedBrokerAccess :=
  if (bv_token_bytes v <? len raw)%Z || is_empty raw then fail BA_InvalidToken else
  if existsb (λ s, is_empty (trim s) || contains s " ") required_scopes
  then fail BA_InvalidConfiguration else
  let? key := lift_result (trusted_key v raw) in
  let? anchor_mono := instant_now in
  let? anchor_utc := system_now in
  let? since := lift_result (ok_or (duration_since anchor_utc UNIX_EPOCH) BA_InvalidToken) in
  let now := (since / NANOS)%Z in
  let? claims := map_err jwt_error (jwt_decode key (access_validation v) raw) in
  if negb (str_eqb (cl_iss claims) (bv_issuer v))
     || is_empty (cl_sub claims) || is_empty (cl_client_id claims) || is_empty (cl_jti claims)
     || negb (str_eqb (cl_token_use claims) "access")
     || negb (valid_for (cl_aud claims) (bv_api_audience v) resource)
     || (now <? cl_iat claims)%Z || (cl_exp claims <=? cl_iat claims)%Z
     || is_some_and (cl_nbf claims) (λ nbf, (now <? nbf)%Z)
  then fail BA_InvalidToken else
  if (cl_exp claims <=? now)%Z then fail BA_Expired else
  let? expires_at := lift_result (ok_or (checked_add_time UNIX_EPOCH (cl_exp claims * NANOS)) BA_InvalidToken) in
  let? remaining := lift_result (ok_or (duration_since expires_at anchor_utc) BA_Expired) in
  let? expires_mono := lift_result (ok_or (checked_add_time anchor_mono remaining) BA_InvalidToken) in
  let scopes := scope_words (cl_scope claims) in
  if negb (forallb (λ required, existsb (λ s, str_eqb s required) scopes) required_scopes)
  then fail BA_InsufficientScope else
  let proof :=
    {| vb_verifier := v; vb_subject := cl_sub claims; vb_client_id := cl_client_id claims;
       vb_jti := cl_jti claims; vb_audience := cl_aud claims;
       vb_username := match cl_preferred_username claims with
                      | Some s => if is_empty s then None else Some s
                      | None => None
                      end;
       vb_organization := cl_organization claims; vb_teams := cl_groups claims;
       vb_scopes := scopes; vb_expires_at := expires_at; vb_expires_mono := expires_mono;
       vb_original := original |} in
  do? vb_check proof in
  ret proof.

(** [verify_bound]: a rejected token cannot extend the deadline either, so the
    deadline is checked again before the outcome is returned. *)
Definition verify_bound (v : BrokerAccessVerifier) (raw : string) (required_scopes : list string)
    (resource : option string) (original : Z) : M clock BrokerAccessError VerifiedBrokerAccess :=
  do? ba_check_deadline original in
  let? outcome := outcome (verify_bound_body v raw required_scopes resource original) in
  do? ba_check_deadline original in
  lift_result outcome.
Definition verify_access (v : BrokerAccessVerifier) (raw : string) (required_scopes : list string)
    (original : Z) : M clock BrokerAccessError VerifiedBrokerAccess :=
  verify_bound v raw required_scopes (bv_resource v) original.
Definition verify_for_revocation (v : BrokerAccessVerifier) (raw : string) (original : Z)
    : M clock BrokerAccessError VerifiedBrokerAccess :=
  verify_bound v raw [] None original.
Definition verify_for_oidc_operation (v : BrokerAccessVerifier) (raw : string) (original : Z)
    : M clock BrokerAccessError VerifiedBrokerAccess :=
  verify_bound v raw [] None original.
End verifier.

(** ** Lemmas *)

Section lemmas.
Context `{JwtLib}.

Definition aud_values (aud : Audience) : list string :=
  match aud with One v => [v] | Many vs => vs end.

Lemma insert_unique_spec seen values s :
  insert_unique seen values = Some s ↔
  Forall (.≠ "") values ∧ NoDup values ∧ (∀ v, v ∈ values → v ∉ seen) ∧
  s = list_to_set values ∪ seen.
Proof.
  revert seen. induction values as [|v values IH]; intros seen; simpl.
  { split; [intros [= <-] | intros (_ & _ & _ & ->)].
    - repeat split; [constructor..| |]; set_solver.
    - f_equal. set_solver. }
  destruct (is_empty v) eqn:Ev; simpl.
  { apply is_empty_eq in Ev as ->. split; [done|]. intros [Hf _]. by inversion Hf. }
  assert (v ≠ "") as Hv by (by intros ->).
  case_bool_decide as Hin; simpl.
  { split; [done|]. intros (_ & _ & Hn & _). exfalso. apply (Hn v); [left|done]. }
  rewrite IH, Forall_cons, NoDup_cons. split.
  - intros (? & ? & Hn & ->). repeat split; try done; [| |set_solver].
    + intros Hv'. apply Hn in Hv'. set_solver.
    + intros w [->|Hw]%elem_of_cons; [done|]. apply Hn in Hw. set_solver.
  - intros ([? ?] & [? ?] & Hn & ->). repeat split; try done; [|set_solver].
    intros w Hw. assert (w ∉ seen) by (apply Hn; by right). set_solver.
Qed.

Lemma valid_for_spec aud api resource :
  valid_for aud api resource = true ↔
  Forall (.≠ "") (aud_values aud) ∧ NoDup (aud_values aud) ∧ api ∈ aud_values aud ∧
  ∀ r, resource = Some r → r ∈ aud_values aud.
Proof.
  destruct aud as [v|vs]; simpl.
  - split.
    + intros ([Hne <-%str_eqb_eq]%andb_true_iff & Hr)%andb_true_iff.
      split; [constructor; [by destruct v|constructor]|]. split; [apply NoDup_singleton|].
      split; [left|]. intros r ->. simpl in Hr. apply list_elem_of_singleton. by apply str_eqb_eq in Hr.
    + intros (Hne & _ & ->%list_elem_of_singleton & Hr). inv Hne.
      rewrite str_eqb_refl, andb_true_r. apply andb_true_iff. split; [by destruct v|].
      destruct resource as [r|]; [|done]. simpl. apply str_eqb_eq.
      specialize (Hr r eq_refl). by apply list_elem_of_singleton in Hr.
  - destruct (insert_unique ∅ vs) as [seen|] eqn:E.
    + apply insert_unique_spec in E as (Hne & Hnd & _ & ->). rewrite !andb_true_iff, negb_true_iff.
      rewrite bool_decide_eq_false, bool_decide_eq_true. split.
      * intros (_ & Hapi & Hr). repeat split; try done; [set_solver|].
        intros r ->. simpl in Hr. bool_to_prop. set_solver.
      * intros (_ & _ & Hapi & Hr). repeat split; [by intros ->; inversion Hapi|set_solver|].
        destruct resource; simpl; [|done]. apply bool_decide_eq_true. set_solver.
    + rewrite andb_false_r. split; [done|]. intros (Hne & Hnd & _). exfalso.
      assert (insert_unique ∅ vs = Some (list_to_set vs ∪ ∅)) by (apply insert_unique_spec; set_solver).
      congruence.
Qed.

Lemma ba_check_deadline_ok d c c' :
  ba_check_deadline d c = (Ok tt, c') → (mono_at c (tick c) < d)%Z ∧ c' = advance c.
Proof. unfold ba_check_deadline. intros H'. invert_run H'. bool_to_prop. done. Qed.

Lemma vb_check_ok p c c' :
  vb_check p c = (Ok tt, c') →
  (mono_at c (tick c) < vb_original p)%Z ∧
  (utc_at c (S (tick c)) < vb_expires_at p)%Z ∧
  (mono_at c (S (S (tick c))) < vb_expires_mono p)%Z.
Proof.
  unfold vb_check. intros H'. apply bind_ok in H' as ([] & c1 & [Hd ->]%ba_check_deadline_ok & H').
  invert_run H'. simpl in *. bool_to_prop. done.
Qed.

Lemma trusted_key_ok v raw key :
  trusted_key v raw = Ok key →
  (0 < len raw ≤ bv_token_bytes v)%Z ∧ ∃ kid, bv_keys v !! kid = Some key.
Proof.
  unfold trusted_key. intros Hk. case_hyp Hk; [done|]. bool_to_prop.
  destruct (split raw ".") as [|h [|p [|sg [|]]]]; try done.
  destruct (is_empty h || is_empty p || is_empty sg)%bool; [done|].
  apply rbind_ok in Hk as (? & _ & Hk). apply rbind_ok in Hk as (? & _ & Hk).
  destruct (_ || _)%bool in Hk; [done|]. apply rbind_ok in Hk as (kid & _ & Hk).
  destruct (is_empty kid); [done|]. apply ok_or_ok in Hk. split; [|eauto].
  split; [|lia]. unfold len. destruct raw; [done|]. simpl. lia.
Qed.

(** ** Properties *)

(** C22. A verified access token was accepted by the signature check under one
    of the verifier's own trusted keys; its issuer, API audience and (when one
    is bound) resource are the verifier's; it carries every required scope.  Its
    expiry on the monotonic clock is the reading of that clock taken before the
    signature check plus the lifetime left at the reading of the UTC clock taken
    next; the token was issued and unexpired at that UTC reading, and unexpired
    on both clocks, with time left before the deadline, at the readings after the
    signature check. *)
Theorem verify_bound_sound v raw required resource original c p c' :
  verify_bound v raw required resource original c = (Ok p, c') →
  let anchor_mono := mono_at c (S (tick c)) in
  let anchor_utc := utc_at c (S (S (tick c))) in
  ∃ key kid claims k,
    bv_keys v !! kid = Some key ∧ (0 < len raw ≤ bv_token_bytes v)%Z ∧
    jwt_decode key (access_validation v) raw (advance (advance (advance c))) = (Ok claims, k) ∧
    cl_iss claims = bv_issuer v ∧ vb_issuer p = bv_issuer v ∧ vb_subject p = cl_sub claims ∧
    vb_subject p ≠ "" ∧ cl_token_use claims = "access" ∧
    NoDup (aud_values (vb_audience p)) ∧ bv_api_audience v ∈ aud_values (vb_audience p) ∧
    (∀ r, resource = Some r → r ∈ aud_values (vb_audience p)) ∧
    (∀ s, s ∈ required → s ∈ vb_scopes p) ∧
    vb_expires_at p = (cl_exp claims * NANOS)%Z ∧ vb_original p = original ∧
    (cl_iat claims ≤ anchor_utc / NANOS < cl_exp claims)%Z ∧
    vb_expires_mono p = (anchor_mono + (vb_expires_at p - anchor_utc))%Z ∧
    (mono_at c (tick c) < original)%Z ∧ (mono_at k (tick k) < original)%Z ∧
    (utc_at k (S (tick k)) < vb_expires_at p)%Z ∧ (mono_at k (S (S (tick k))) < vb_expires_mono p)%Z.
Proof.
  unfold verify_bound. intros Hv.
  apply bind_ok in Hv as ([] & s1 & [Hd1 ->]%ba_check_deadline_ok & Hv). apply bind_ok in Hv as (r & s2 & Ho & Hv).
  apply bind_ok in Hv as ([] & s3 & _ & [-> _]%lift_ok). unfold outcome in Ho.
  destruct (verify_bound_body _ _ _ _ _ (advance c)) as [r s2'] eqn:Hb. injection Ho as -> ->.
  unfold verify_bound_body in Hb. invert_run Hb. bool_to_prop.
  select (trusted_key _ _ = _) (fun Hk => apply trusted_key_ok in Hk as (Hlen & kid & Hkid)).
  select (valid_for _ _ _ = _) (fun Ha => apply valid_for_spec in Ha as (_ & Hnd & Hapi & Hres)).
  repeat match goal with u : unit |- _ => destruct u end.
  select (vb_check _ _ = _) (fun Hc => apply vb_check_ok in Hc as (Hc1 & Hc2 & Hc3); cbn in Hc1, Hc2, Hc3).
  unfold checked_add_time, duration_since, UNIX_EPOCH in *.
  repeat match goal with Hx : (if _ then Some _ else None) = Some _ |- _ =>
    case_hyp Hx; [|discriminate Hx]; injection Hx as <- end. bool_to_prop. simpl in *.
  do 4 eexists. split; [exact Hkid|]. split; [exact Hlen|]. split; [eassumption|].
  repeat match goal with Hs : str_eqb _ _ = true |- _ => apply str_eqb_eq in Hs end.
  split; [done|]. split; [done|]. split; [done|].
  split; [by intros Hs; select (is_empty (cl_sub _) = false) (fun Hx => rewrite Hs in Hx)|].
  split; [done|]. split; [done|]. split; [done|]. split; [done|].
  split.
  - intros sc Hsc. select (forallb _ _ = true) (fun Hf => rewrite forallb_elem in Hf;
      specialize (Hf sc Hsc); apply existsb_elem in Hf as (w & Hw & ->%str_eqb_eq)). done.
  - split; [lia|]. split; [done|]. rewrite ?Z.sub_0_r in *. split; [lia|]. done.
Qed.
End lemmas.

(** A library instance that accepts one token, for the examples. *)
Definition sample_claims : Claims :=
  {| cl_iss := "https://issuer.test"; cl_sub := "broker-sub"; cl_aud := Many ["api"; "res"];
     cl_iat := 1; cl_exp := 600; cl_token_use := "access"; cl_client_id := "client"; cl_jti := "j";
     cl_scope := "task:read task:write"; cl_nbf := None; cl_preferred_username := Some "alice";
     cl_organization := Some "org"; cl_groups := ["dev"] |}.
Definition sample_jwt_lib : JwtLib :=
  {| DecodingKey := unit; b64_decode := Some;
     json_object := λ _, Some [("alg", JString "EdDSA"); ("kid", JString "k")];
     from_jwk := λ _, Some tt; jwt_decode := λ _ _ _, ret sample_claims |}.
#[local] Existing Instance sample_jwt_lib.
Definition sample_verifier : BrokerAccessVerifier :=
  {| bv_issuer := "https://issuer.test"; bv_api_audience := "api"; bv_resource := Some "res";
     bv_token_bytes := 100; bv_keys := {["k" := tt]} |}.
Definition sample_jwt_clock : clock :=
  {| mono_at := λ n, Z.of_nat n; utc_at := λ _, (5 * NANOS)%Z; tick := 0 |}.

Lemma verify_bound_sound_witness :
  ∃ p c', verify_bound sample_verifier "h.p.s" ["task:read"] (Some "res") 100 sample_jwt_clock
          = (Ok p, c') ∧ "task:read" ∈ vb_scopes p ∧ vb_expires_mono p = (1 + 595 * NANOS)%Z.
Proof.
  eexists _, _. split; [vm_compute; reflexivity|].
  edestruct (verify_bound_sound sample_verifier "h.p.s" ["task:read"] (Some "res") 100 sample_jwt_clock)
    as (key & kid & claims & k & _ & _ & _ & _ & _ & _ & _ & _ & _ & _ & _ & Hs & _ & _ & _ & Hm & _); [vm_compute; reflexivity|].
  split; [apply (Hs "task:read"); left|exact Hm].
Defined.
