(* ===== verification/AccessIssuer.v ===== *)
(** * The issuer of access tokens

    crates/broker-control/src/broker_access_issuer.rs: signing of access and ID
    tokens with the broker's own key.  The [jsonwebtoken] crate and SHA-512 are
    parameters; what the verification of [BrokerAccess] relies on of them is
    [SignLaws]. *)

From stdpp Require Import gmap.
From S2P Require Import Prelude RustStr Order Control BrokerAccess.

Inductive BrokerAccessIssueError := AI_InvalidConfiguration | AI_InvalidClaims | AI_Signing | AI_Deadline.
Record BrokerAccessTokenInput := {
  at_subject : string;
  at_client_id : string;
  at_resource : option string;
  at_scope : string;
  at_jti : string;
  at_issued_at : Z;
  at_expires_at : Z;
  at_preferred_username : option string;
  at_name : option string;
  at_email : option string;
  at_organization : option string;
  at_groups : list string;
  at_roles : list string;
}.
Record BrokerIdTokenInput := {
  it_subject : string;
  it_client_id : string;
  it_resource : option string;
  it_issued_at : Z;
  it_expires_at : Z;
  it_auth_time : Z;
  it_amr : list string;
  it_nonce : option string;
  it_access_token : string;
  it_code : option string;
  it_preferred_username : option string;
  it_name : option string;
  it_email : option string;
  it_organization : option string;
  it_groups : list string;
  it_roles : list string;
}.
Record AccessClaims := {
  ac_iss : string;
  ac_sub : string;
  ac_aud : list string;
  ac_iat : Z;
  ac_exp : Z;
  ac_token_use : string;
  ac_client_id : string;
  ac_jti : string;
  ac_scope : string;
  ac_preferred_username : option string;
  ac_name : option string;
  ac_email : option string;
  ac_organization : option string;
  ac_groups : list string;
  ac_roles : list string;
}.
Record IdClaims := {
  ic_iss : string;
  ic_sub : string;
  ic_aud : list string;
  ic_iat : Z;
  ic_exp : Z;
  ic_auth_time : Z;
  ic_amr : list string;
  ic_azp : string;
  ic_client_id : string;
  ic_nonce : option string;
  ic_at_hash : string;
  ic_c_hash : option string;
  ic_preferred_username : option string;
  ic_name : option string;
  ic_email : option string;
  ic_organization : option string;
  ic_groups : list string;
  ic_roles : list string;
}.

(** The signing side of [jsonwebtoken]: the public key of a private one, its
    JWK, and the encoding of claims under a key identifier. *)
Class SignLib := {
  EncodingKey : Type;
  ed_public : string → option string;
  jwk_of_public : string → option Jwk;
  from_ed_der : string → EncodingKey;
  encode_access : string → AccessClaims → EncodingKey → option string;
  encode_id : string → IdClaims → EncodingKey → option string;
  claim_hash : string → string;   (* the first half of SHA-512, in base64 *)
}.

Section issuer.
Context `{SignLib}.

(** The header is [EdDSA] with the key identifier. *)
Record BrokerAccessIssuer := {
  bi_issuer : string;
  bi_api_audience : string;
  bi_kid : string;
  bi_key : EncodingKey;
  bi_jwks : list Jwk;
}.
Definition BrokerAccessIssuer_new (issuer api_audience kid pkcs8 : string)
    : result BrokerAccessIssueError BrokerAccessIssuer :=
  if existsb (λ s, is_empty (trim s)) [issuer; api_audience; kid] then Err AI_InvalidConfiguration else
  let! public := ok_or (ed_public pkcs8) AI_InvalidConfiguration in
  if negb (len public =? 32)%Z then Err AI_InvalidConfiguration else
  let! jwk := ok_or (jwk_of_public public) AI_InvalidConfiguration in
  let jwk := {| jwk_key_id := Some kid; jwk_algorithm_parameters := jwk_algorithm_parameters jwk;
                jwk_key_algorithm := jwk_key_algorithm jwk; jwk_public_key_use := Some Signature;
                jwk_key_operations := Some [Verify] |} in
  Ok {| bi_issuer := issuer; bi_api_audience := api_audience; bi_kid := kid; bi_key := from_ed_der pkcs8;
        bi_jwks := [jwk] |}.

Definition ai_check_deadline (original : Z) : M clock BrokerAccessIssueError unit :=
  let? now := instant_now in
  if (original <=? now)%Z then fail AI_Deadline else ret tt.
(** The two expiries of a token, measured from one pair of clock readings. *)
Definition expiries (expires_at utc mono : Z) : result BrokerAccessIssueError (Z * Z) :=
  let! expiry := ok_or (checked_add_time UNIX_EPOCH (expires_at * NANOS)) AI_InvalidClaims in
  let! remaining := ok_or (duration_since expiry utc) AI_InvalidClaims in
  let! expiry_mono := ok_or (checked_add_time mono remaining) AI_InvalidClaims in
  Ok (expiry, expiry_mono).
Definition still_valid {A} (expiry expiry_mono : Z) (a : A) : M clock BrokerAccessIssueError A :=
  let? utc := system_now in
  if (expiry <=? utc)%Z then fail AI_InvalidClaims else
  let? mono := instant_now in
  if (expiry_mono <=? mono)%Z then fail AI_InvalidClaims else ret a.
(** The deadline is checked before and after. *)
Definition deadline_around {A} (original : Z) (m : M clock BrokerAccessIssueError A) : M clock BrokerAccessIssueError A :=
  do? ai_check_deadline original in
  let? result := outcome m in
  do? ai_check_deadline original in
  lift_result result.
Definition audiences (api_audience : string) (resource : option string) : list string :=
  api_audience :: match resource with
                  | Some r => if str_eqb r api_audience then [] else [r]
                  | None => []
                  end.
Definition access_claims (i : BrokerAccessIssuer) (input : BrokerAccessTokenInput) : AccessClaims :=
  {| ac_iss := bi_issuer i; ac_sub := at_subject input; ac_aud := audiences (bi_api_audience i) (at_resource input);
     ac_iat := at_issued_at input; ac_exp := at_expires_at input; ac_token_use := "access";
     ac_client_id := at_client_id input; ac_jti := at_jti input; ac_scope := at_scope input;
     ac_preferred_username := at_preferred_username input; ac_name := at_name input; ac_email := at_email input;
     ac_organization := at_organization input; ac_groups := at_groups input; ac_roles := at_roles input |}.
Definition access_invalid (input : BrokerAccessTokenInput) (now : Z) : bool :=
  is_empty (at_subject input) || is_empty (at_client_id input) || is_empty (at_jti input)
  || is_some_and (at_resource input) (λ v, is_empty (trim v))
  || (now <? at_issued_at input)%Z || (at_expires_at input <=? at_issued_at input)%Z || (at_expires_at input <=? now)%Z.
Definition sign_access (i : BrokerAccessIssuer) (input : BrokerAccessTokenInput) (original : Z)
    : M clock BrokerAccessIssueError string :=
  deadline_around original (
    let? mono := instant_now in
    let? utc := system_now in
    let? since := lift_result (ok_or (duration_since utc UNIX_EPOCH) AI_InvalidClaims) in
    if access_invalid input (since / NANOS) then fail AI_InvalidClaims else
    let? (expiry, expiry_mono) := lift_result (expiries (at_expires_at input) utc mono) in
    let? token := lift_result (ok_or (encode_access (bi_kid i) (access_claims i input) (bi_key i)) AI_Signing) in
    still_valid expiry expiry_mono token).
Definition id_claims (i : BrokerAccessIssuer) (input : BrokerIdTokenInput) : IdClaims :=
  let aud := audiences (bi_api_audience i) (it_resource input) in
  {| ic_iss := bi_issuer i; ic_sub := it_subject input;
     ic_aud := if existsb (str_eqb (it_client_id input)) aud then aud else aud ++ [it_client_id input];
     ic_iat := it_issued_at input; ic_exp := it_expires_at input; ic_auth_time := it_auth_time input; ic_amr := it_amr input;
     ic_azp := it_client_id input; ic_client_id := it_client_id input;
     ic_nonce := match it_nonce input with Some v => if is_empty v then None else Some v | None => None end;
     ic_at_hash := claim_hash (it_access_token input); ic_c_hash := claim_hash <$> it_code input;
     ic_preferred_username := it_preferred_username input; ic_name := it_name input; ic_email := it_email input;
     ic_organization := it_organization input; ic_groups := it_groups input; ic_roles := it_roles input |}.
Definition id_invalid (input : BrokerIdTokenInput) (now : Z) : bool :=
  is_empty (it_subject input) || is_empty (it_client_id input)
  || is_some_and (it_resource input) (λ v, is_empty (trim v))
  || (now <? it_issued_at input)%Z || (it_expires_at input <=? it_issued_at input)%Z || (it_expires_at input <=? now)%Z
  || (it_auth_time input =? 0)%Z || (now <? it_auth_time input)%Z || bool_decide (it_amr input = [])
  || existsb (λ v, is_empty (trim v)) (it_amr input) || is_empty (it_access_token input)
  || is_some_and (it_code input) is_empty.
Definition sign_id (i : BrokerAccessIssuer) (input : BrokerIdTokenInput) (original : Z)
    : M clock BrokerAccessIssueError string :=
  deadline_around original (
    let? mono := instant_now in
    let? utc := system_now in
    let? since := lift_result (ok_or (duration_since utc UNIX_EPOCH) AI_InvalidClaims) in
    if id_invalid input (since / NANOS) then fail AI_InvalidClaims else
    let? (expiry, expiry_mono) := lift_result (expiries (it_expires_at input) utc mono) in
    let? token := lift_result (ok_or (encode_id (bi_kid i) (id_claims i input) (bi_key i)) AI_Signing) in
    still_valid expiry expiry_mono token).
End issuer.

(** ** What is issued is what is verified *)

(** The claims as the verifier reads them. *)
Definition verified_claims (a : AccessClaims) : Claims :=
  {| cl_iss := ac_iss a; cl_sub := ac_sub a; cl_aud := Many (ac_aud a); cl_iat := ac_iat a; cl_exp := ac_exp a;
     cl_token_use := ac_token_use a; cl_client_id := ac_client_id a; cl_jti := ac_jti a; cl_scope := ac_scope a;
     cl_nbf := None; cl_preferred_username := ac_preferred_username a; cl_organization := ac_organization a;
     cl_groups := ac_groups a |}.
(** A token has three parts, the first its header; the public key of the JWK of
    a private key verifies what that private key has signed, until it expires. *)
Class SignLaws `{JwtLib, SignLib} : Prop := {
  law_header kid claims key token :
    encode_access kid claims key = Some token →
    ∃ header payload signature data, split token "." = [header; payload; signature] ∧
      header ≠ "" ∧ payload ≠ "" ∧ signature ≠ "" ∧ b64_decode header = Some data ∧
      json_object data = Some [("typ", JString "JWT"); ("alg", JString "EdDSA"); ("kid", JString kid)];
  law_decode pkcs8 public jwk kid claims token key validation c :
    ed_public pkcs8 = Some public → jwk_of_public public = Some jwk →
    from_jwk {| jwk_key_id := Some kid; jwk_algorithm_parameters := jwk_algorithm_parameters jwk;
                jwk_key_algorithm := jwk_key_algorithm jwk; jwk_public_key_use := Some Signature;
                jwk_key_operations := Some [Verify] |} = Some key →
    encode_access kid claims (from_ed_der pkcs8) = Some token →
    va_leeway validation = 0%Z → va_required validation = ["iss"; "sub"; "aud"; "exp"] →
    ac_iss claims ∈ va_issuer validation → (∃ a, a ∈ va_audience validation ∧ a ∈ ac_aud claims) →
    (utc_at c (tick c) < ac_exp claims * NANOS)%Z →
    jwt_decode key validation token c = (Ok (verified_claims claims), advance c);
}.

Section round_trip.
Context `{SignLaws}.

(** From here on the deadline is not reached, the token is within its lifetime,
    and less time passes than it has left. *)
Record lives (c : clock) (deadline iat exp : Z) : Prop := {
  li_mono n : tick c ≤ n → (mono_at c n < deadline)%Z;
  li_utc n : tick c ≤ n → (iat * NANOS ≤ utc_at c n < exp * NANOS)%Z;
  li_left n m k : tick c ≤ n → tick c ≤ m → tick c ≤ k → (mono_at c n - mono_at c m < exp * NANOS - utc_at c k)%Z;
  li_range n k : tick c ≤ n → tick c ≤ k → (mono_at c n + (exp * NANOS - utc_at c k) ≤ TIME_MAX)%Z;
}.
Lemma lives_advance c deadline iat exp : lives c deadline iat exp → lives (advance c) deadline iat exp.
Proof.
  intros [A B C D]. split; simpl; intros; [apply A|apply B|apply C|apply D]; lia.
Qed.
Lemma ba_check_lives c deadline iat exp :
  lives c deadline iat exp → ba_check_deadline deadline c = (Ok tt, advance c).
Proof.
  intros [A _ _ _]. unfold ba_check_deadline, bind, instant_now. specialize (A (tick c) ltac:(lia)).
  by rewrite (proj2 (Z.leb_gt _ _) A).
Qed.
Lemma audiences_ok api resource :
  api ≠ "" → (∀ r, resource = Some r → r ≠ "") →
  Forall (.≠ "") (audiences api resource) ∧ NoDup (audiences api resource) ∧ api ∈ audiences api resource ∧
  ∀ r, resource = Some r → r ∈ audiences api resource.
Proof.
  intros Ha Hr. unfold audiences. destruct resource as [r|].
  - destruct (str_eqb r api) eqn:E.
    + apply str_eqb_eq in E as ->. split; [by repeat constructor|]. split; [apply NoDup_singleton|].
      split; [by left|]. intros r [= <-]. by left.
    + apply str_eqb_neq in E. split; [repeat constructor; by auto|]. split.
      * apply NoDup_cons. split; [|apply NoDup_singleton]. by intros ->%list_elem_of_singleton.
      * split; [by left|]. intros ? [= <-]. right. by left.
  - split; [by repeat constructor|]. split; [apply NoDup_singleton|]. split; [by left|done].
Qed.
Lemma is_empty_neq s : s ≠ "" → is_empty s = false.
Proof. by destruct s. Qed.
Lemma neq_is_empty s : is_empty s = false → s ≠ "".
Proof. by destruct s. Qed.
Lemma is_empty_trim s : is_empty (trim s) = false → s ≠ "".
Proof. by intros Ht ->. Qed.
(** What signing an access token establishes. *)
Lemma sign_access_ok i input original c tok c' :
  sign_access i input original c = (Ok tok, c') →
  encode_access (bi_kid i) (access_claims i input) (bi_key i) = Some tok ∧
  at_subject input ≠ "" ∧ at_client_id input ≠ "" ∧ at_jti input ≠ "" ∧
  (∀ r, at_resource input = Some r → r ≠ "") ∧ (at_issued_at input < at_expires_at input)%Z ∧
  (at_expires_at input * NANOS ≤ TIME_MAX)%Z.
Proof.
  unfold sign_access, deadline_around. intros Hs. invert_run Hs. apply outcome_run in R0.
  apply lift_ok in Hs as [-> _]. invert_run R0. unfold access_invalid, expiries, still_valid in *.
  destruct a2 as [expiry expiry_mono]. invert_run R0. invert_ok R3. bool_to_prop.
  unfold checked_add_time, UNIX_EPOCH in *.
  match goal with Hx : (if (0 + ?e <=? TIME_MAX)%Z then _ else _) = Some _ |- _ => case_hyp Hx; [|done] end.
  bool_to_prop. split; [done|]. split; [by apply neq_is_empty|]. split; [by apply neq_is_empty|].
  split; [by apply neq_is_empty|]. split; [|lia]. intros r Hr. rewrite Hr in *. by apply is_empty_trim.
Qed.
Lemma BrokerAccessIssuer_new_ok issuer api kid pkcs8 i :
  BrokerAccessIssuer_new issuer api kid pkcs8 = Ok i →
  ∃ public jwk, ed_public pkcs8 = Some public ∧ jwk_of_public public = Some jwk ∧ kid ≠ "" ∧ api ≠ "" ∧
    i = {| bi_issuer := issuer; bi_api_audience := api; bi_kid := kid; bi_key := from_ed_der pkcs8;
           bi_jwks := [{| jwk_key_id := Some kid; jwk_algorithm_parameters := jwk_algorithm_parameters jwk;
                jwk_key_algorithm := jwk_key_algorithm jwk; jwk_public_key_use := Some Signature;
                jwk_key_operations := Some [Verify] |}] |}.
Proof.
  unfold BrokerAccessIssuer_new. intros Hn. invert_ok Hn. injection Hn as <-. simpl in *. bool_to_prop.
  do 2 eexists. split; [done|]. split; [done|]. split; [by apply is_empty_trim|]. by split; [apply is_empty_trim|].
Qed.
Lemma BrokerAccessVerifier_new_one issuer api resource jwk kid bytes v :
  BrokerAccessVerifier_new issuer api resource [jwk] bytes = Ok v → jwk_key_id jwk = Some kid →
  ∃ key, from_jwk jwk = Some key ∧ bv_keys v !! kid = Some key ∧
    bv_issuer v = issuer ∧ bv_api_audience v = api ∧ bv_token_bytes v = bytes.
Proof.
  unfold BrokerAccessVerifier_new. intros Hv Hk. invert_ok Hv. injection Hv as <-. cbn [trusted_keys] in *.
  match goal with Hr : rbind _ _ = Ok _ |- _ => invert_ok Hr end.
  destruct a0 as [kid' key]. unfold valid_jwk in R0. rewrite Hk in R0.
  destruct (jwk_algorithm_parameters jwk); [|done].
  match type of R0 with (if ?b then _ else _) = _ => destruct b; [done|] end.
  destruct (from_jwk jwk) as [key'|]; [|done]. injection R0 as <- <-. rewrite lookup_empty in R. injection R as <-.
  exists key'. split; [done|]. split; [apply lookup_insert_eq|done].
Qed.
Lemma trusted_key_signed v kid claims key tok dk :
  encode_access kid claims key = Some tok → kid ≠ "" → (len tok ≤ bv_token_bytes v)%Z → bv_keys v !! kid = Some dk →
  trusted_key v tok = Ok dk ∧ tok ≠ "".
Proof.
  intros Henc Hkid Hlen Hdk. destruct (law_header _ _ _ _ Henc) as (h & p & sg & data & Hsplit & Hh & Hp & Hs & Hb & Hj).
  assert (tok ≠ "") as Hne by (intros ->; discriminate Hsplit). split; [|done]. unfold trusted_key.
  rewrite (is_empty_neq _ Hne), (proj2 (Z.ltb_ge _ _) Hlen), Hsplit, !is_empty_neq by done. simpl. rewrite Hb. simpl.
  rewrite Hj. simpl. rewrite is_empty_neq, Hdk by done. done.
Qed.
(** The body of the verification, once the key is found and the claims decoded. *)
Lemma verify_claims v tok required bound deadline c claims key :
  lives c deadline (ac_iat claims) (ac_exp claims) → trusted_key v tok = Ok key → tok ≠ "" → (len tok ≤ bv_token_bytes v)%Z →
  (∀ c, (utc_at c (tick c) < ac_exp claims * NANOS)%Z →
     jwt_decode key (access_validation v) tok c = (Ok (verified_claims claims), advance c)) →
  ac_iss claims = bv_issuer v → ac_token_use claims = "access" → ac_sub claims ≠ "" → ac_client_id claims ≠ "" → ac_jti claims ≠ "" →
  valid_for (Many (ac_aud claims)) (bv_api_audience v) bound = true → (ac_iat claims < ac_exp claims)%Z →
  (0 ≤ ac_iat claims)%Z → (ac_exp claims * NANOS ≤ TIME_MAX)%Z →
  (∀ s, s ∈ required → s ∈ scope_words (ac_scope claims) ∧ trim s ≠ "" ∧ contains s " " = false) →
  ∃ p c', verify_bound_body v tok required bound deadline c = (Ok p, c') ∧ lives c' deadline (ac_iat claims) (ac_exp claims) ∧
    vb_subject p = ac_sub claims ∧ vb_client_id p = ac_client_id claims ∧ vb_jti p = ac_jti claims ∧
    vb_audience p = Many (ac_aud claims) ∧ vb_scopes p = scope_words (ac_scope claims) ∧
    vb_teams p = ac_groups claims ∧ vb_expires_at p = (ac_exp claims * NANOS)%Z.
Proof.
  intros L Htrust Hne Hlen Hdec Hiss Huse Hsub Hclient Hjti Haud Hlt Hiat Hmax Hreq. unfold verify_bound_body.
  rewrite (proj2 (Z.ltb_ge _ _) Hlen), (is_empty_neq _ Hne). cbn [orb].
  assert (existsb (λ s, is_empty (trim s) || contains s " ") required = false) as ->.
  { apply not_true_iff_false. rewrite existsb_elem. intros (s & Hs & Hb). destruct (Hreq _ Hs) as (_ & Ht & Hc).
    by rewrite (is_empty_neq _ Ht), Hc in Hb. }
  rewrite Htrust. pose proof (lives_advance _ _ _ _ L) as L1. pose proof (lives_advance _ _ _ _ L1) as L2.
  pose proof (lives_advance _ _ _ _ L2) as L3. pose proof (lives_advance _ _ _ _ L3) as L4.
  pose proof (lives_advance _ _ _ _ L4) as L5. pose proof (lives_advance _ _ _ _ L5) as L6.
  destruct (li_utc _ _ _ _ L1 (tick (advance c)) ltac:(lia)) as [U1 U2].
  pose proof (li_range _ _ _ _ L (tick c) (tick (advance c)) ltac:(lia) ltac:(simpl; lia)) as Hrange. simpl in Hrange.
  change (utc_at c (S (tick c))) with (utc_at (advance c) (tick (advance c))) in Hrange.
  unfold bind at 1. cbn [lift_result]. unfold bind at 1. cbn [instant_now]. unfold bind at 1. cbn [system_now].
  assert (0 ≤ utc_at (advance c) (tick (advance c)))%Z as U0 by (unfold NANOS in *; lia).
  unfold duration_since at 1, UNIX_EPOCH at 1. rewrite (proj2 (Z.leb_le _ _) U0). unfold bind at 1. cbn [lift_result ok_or].
  unfold bind at 1, map_err. rewrite Hdec by (by apply (li_utc _ _ _ _ L2 (tick (advance (advance c))))).
  set (utc := utc_at (advance c) (tick (advance c))) in *. unfold UNIX_EPOCH. rewrite Z.sub_0_r.
  assert (ac_iat claims ≤ utc / NANOS < ac_exp claims)%Z as [N1 N2].
  { split; [apply Z.div_le_lower_bound; unfold NANOS in *; lia|apply Z.div_lt_upper_bound; unfold NANOS in *; lia]. }
  cbn [verified_claims cl_iss cl_sub cl_client_id cl_jti cl_token_use cl_aud cl_iat cl_exp cl_nbf cl_scope is_some_and
    cl_preferred_username cl_organization cl_groups].
  rewrite Hiss, Huse, Haud, !is_empty_neq, (proj2 (Z.ltb_ge _ _) N1), (proj2 (Z.leb_gt _ _) Hlt), (proj2 (Z.leb_gt _ _) N2) by done.
  rewrite (proj2 (str_eqb_eq (bv_issuer v) _) eq_refl).
  change (str_eqb "access" "access") with true. cbn [negb orb].
  unfold checked_add_time at 1. rewrite Z.add_0_l, (proj2 (Z.leb_le _ _) Hmax). unfold bind at 1. cbn [lift_result ok_or].
  unfold duration_since. rewrite (proj2 (Z.leb_le utc _)) by lia. unfold bind at 1. cbn [lift_result ok_or].
  unfold checked_add_time. rewrite (proj2 (Z.leb_le _ _) Hrange). unfold bind at 1. cbn [lift_result ok_or].
  assert (forallb (λ required, existsb (λ s, str_eqb s required) (scope_words (ac_scope claims))) required = true) as ->.
  { apply forallb_elem. intros s Hs. apply existsb_elem. exists s. split; [by apply Hreq|by apply str_eqb_eq]. }
  cbn [negb]. unfold bind at 1, vb_check. unfold bind at 1. cbn [vb_original].
  rewrite (ba_check_lives _ _ _ _ L3). unfold bind at 1. cbn [system_now vb_expires_at].
  rewrite (proj2 (Z.leb_gt (ac_exp claims * NANOS) _)) by (by apply (li_utc _ _ _ _ L4)).
  unfold bind at 1. cbn [instant_now vb_expires_mono].
  pose proof (li_left _ _ _ _ L (tick (advance (advance (advance (advance (advance c)))))) (tick c) (tick (advance c))
    ltac:(simpl; lia) ltac:(lia) ltac:(simpl; lia)) as Hleft.
  change (mono_at c (tick (advance (advance (advance (advance (advance c)))))))
    with (mono_at (advance (advance (advance (advance (advance c))))) (tick (advance (advance (advance (advance (advance c)))))))
    in Hleft. change (utc_at c (tick (advance c))) with utc in Hleft.
  rewrite (proj2 (Z.leb_gt _ _)) by lia. do 2 eexists. split; [reflexivity|]. split; [exact L6|done].
Qed.
(** C29. A signed access token authenticates what was signed.  A token the broker
    signs is accepted by a verifier configured with its issuer, audience and
    public key, while it is within its lifetime and the deadline, for any
    resource it was issued for and any of its scopes; and the proof has the
    subject, client, identifier, audiences, scopes, groups and expiry that were
    signed. *)
Theorem access_round_trip issuer api kid pkcs8 i resource bytes v input original c tok c' required bound deadline c1 :
  BrokerAccessIssuer_new issuer api kid pkcs8 = Ok i →
  BrokerAccessVerifier_new issuer api resource (bi_jwks i) bytes = Ok v →
  sign_access i input original c = (Ok tok, c') → (len tok ≤ bytes)%Z →
  lives c1 deadline (at_issued_at input) (at_expires_at input) →
  (0 ≤ at_issued_at input)%Z → (∀ r, bound = Some r → at_resource input = Some r) →
  (∀ s, s ∈ required → s ∈ scope_words (at_scope input) ∧ trim s ≠ "" ∧ contains s " " = false) →
  ∃ p c2, verify_bound v tok required bound deadline c1 = (Ok p, c2) ∧
    vb_subject p = at_subject input ∧ vb_client_id p = at_client_id input ∧ vb_jti p = at_jti input ∧
    aud_values (vb_audience p) = audiences api (at_resource input) ∧ vb_scopes p = scope_words (at_scope input) ∧
    vb_teams p = at_groups input ∧ vb_expires_at p = (at_expires_at input * NANOS)%Z.
Proof.
  intros (public & jwk & Hpub & Hjwk & Hkid & Hapi & ->)%BrokerAccessIssuer_new_ok Hv Hsign Hlen Hlive Hiat Hbound Hreq.
  destruct (BrokerAccessVerifier_new_one _ _ _ _ kid _ _ Hv eq_refl) as (dk & Hdk & Hkey & Hviss & Hvapi & Hvb).
  apply sign_access_ok in Hsign as (Henc & Hsub & Hclient & Hjti & Hres & Hlt & Hmax). cbn [bi_kid bi_key] in Henc.
  destruct (trusted_key_signed v kid _ _ tok dk Henc Hkid) as [Htrust Hne]; [by rewrite Hvb|done|].
  destruct (audiences_ok api (at_resource input) Hapi Hres) as (Aall & Anodup & Aapi & Ares).
  unfold verify_bound. unfold bind at 1. rewrite (ba_check_lives _ _ _ _ Hlive). apply lives_advance in Hlive.
  destruct (verify_claims v tok required bound deadline (advance c1)
    (access_claims {| bi_issuer := issuer; bi_api_audience := api; bi_kid := kid; bi_key := from_ed_der pkcs8; bi_jwks := [] |} input)
    dk) as (p & c2 & Hrun & Hlive2 & Hp); try done; [by rewrite Hvb|..].
  - intros c0 Hc0. apply (law_decode pkcs8 public jwk kid _ tok); try done.
    + cbn. rewrite Hviss. by left.
    + exists api. cbn. rewrite Hvapi. split; [by left|done].
  - apply valid_for_spec. rewrite Hvapi. cbn. split_and!; auto.
  - unfold bind at 1, outcome. rewrite Hrun. unfold bind. rewrite (ba_check_lives _ _ _ _ Hlive2).
    destruct Hp as (? & ? & ? & Ha & ? & ? & ?). exists p. eexists. rewrite Ha.
    by split_and!.
Qed.
End round_trip.

(** A library for which the laws hold: a token is the key identifier, the claims
    and the key, in digits. *)
Fixpoint digits (p : positive) : string :=
  match p with
  | xH => "e"
  | xO p => String "0" (digits p)
  | xI p => String "1" (digits p)
  end.
Fixpoint undigits (s : string) : option positive :=
  match s with
  | String "e" _ => Some xH
  | String "0" s => xO <$> undigits s
  | String "1" s => xI <$> undigits s
  | _ => None
  end.
Lemma undigits_digits p : undigits (digits p) = Some p.
Proof. induction p as [p IH|p IH|]; simpl; by rewrite ?IH. Qed.
Lemma digits_no_dot p : contains_byte "." (digits p) = false.
Proof. induction p as [p IH|p IH|]; done. Qed.
Lemma digits_nonempty p : digits p ≠ "".
Proof. by destruct p. Qed.
#[local] Instance AccessClaims_eq_dec : EqDecision AccessClaims.
Proof. solve_decision. Defined.
(** The claims as a list of lists of strings. *)
Definition field (o : option string) : list string := match o with Some s => [s] | None => [] end.
Definition unfield (l : list string) : option string := match l with s :: _ => Some s | [] => None end.
Definition claim_fields (a : AccessClaims) : list (list string) :=
  [[ac_iss a; ac_sub a; digits (encode (ac_iat a)); digits (encode (ac_exp a)); ac_token_use a; ac_client_id a; ac_jti a; ac_scope a];
   ac_aud a; field (ac_preferred_username a); field (ac_name a); field (ac_email a); field (ac_organization a);
   ac_groups a; ac_roles a].
Definition unclaim_fields (l : list (list string)) : option AccessClaims :=
  match l with
  | [[iss; sub; iat; exp; token_use; client_id; jti; scope]; aud; username; name; email; organization; groups; roles] =>
      iat ← undigits iat ≫= decode; exp ← undigits exp ≫= decode;
      Some {| ac_iss := iss; ac_sub := sub; ac_aud := aud; ac_iat := iat; ac_exp := exp; ac_token_use := token_use;
              ac_client_id := client_id; ac_jti := jti; ac_scope := scope; ac_preferred_username := unfield username;
              ac_name := unfield name; ac_email := unfield email; ac_organization := unfield organization;
              ac_groups := groups; ac_roles := roles |}
  | _ => None
  end.
#[local] Instance AccessClaims_countable : Countable AccessClaims.
Proof.
  refine (inj_countable claim_fields unclaim_fields _). intros [? ? ? ? ? ? ? ? ? [] [] [] [] ? ?];
    cbn -[encode decode digits undigits]; rewrite !undigits_digits; cbn -[encode decode];
    rewrite decode_encode; cbn -[encode decode]; by rewrite decode_encode.
Defined.
#[local] Instance sample_sign_lib : SignLib :=
  {| EncodingKey := string; ed_public := Some;
     jwk_of_public := λ x, Some {| jwk_key_id := None; jwk_algorithm_parameters := OctetKeyPair Ed25519 (digits (encode x));
       jwk_key_algorithm := Some EdDSA; jwk_public_key_use := None; jwk_key_operations := None |};
     from_ed_der := λ key, key;
     encode_access := λ kid claims key, Some (join "." [digits (encode kid); digits (encode claims); digits (encode key)]);
     encode_id := λ _ _ _, None; claim_hash := λ s, s |}.
#[local] Instance sample_verify_lib : JwtLib :=
  {| DecodingKey := string;
     b64_decode := λ s, undigits s ≫= decode;
     json_object := λ kid, Some [("typ", JString "JWT"); ("alg", JString "EdDSA"); ("kid", JString kid)];
     from_jwk := λ jwk, match jwk_algorithm_parameters jwk with OctetKeyPair _ x => undigits x ≫= decode | OtherAlgorithm => None end;
     jwt_decode := λ key validation token c,
       match split token "." with
       | [_; payload; signature] =>
           match undigits payload ≫= decode with
           | Some claims =>
               if str_eqb signature (digits (encode key)) && bool_decide (ac_iss claims ∈ va_issuer validation)
                  && existsb (λ a, bool_decide (a ∈ ac_aud claims)) (va_audience validation)
               then if (utc_at c (tick c) <? ac_exp claims * NANOS)%Z then (Ok (verified_claims claims), advance c)
                    else (Err ExpiredSignature, advance c)
               else (Err OtherJwtError, c)
           | None => (Err OtherJwtError, c)
           end
       | _ => (Err OtherJwtError, c)
       end |}.
Lemma sample_token_split (kid : string) (claims : AccessClaims) (key : string) :
  split (join "." [digits (encode kid); digits (encode claims); digits (encode key)]) "." =
  [digits (encode kid); digits (encode claims); digits (encode key)].
Proof. apply split_join. repeat constructor; apply digits_no_dot. Qed.
#[local] Instance sample_sign_laws : SignLaws.
Proof.
  split.
  - intros kid claims key token [= <-]. do 4 eexists. split; [apply sample_token_split|].
    split_and!; [apply digits_nonempty..| |reflexivity]. simpl. rewrite undigits_digits. simpl. apply decode_encode.
  - intros pkcs8 public jwk kid claims token key validation c [= <-] [= <-] Hkey [= <-] _ _ Hiss (a & Ha & Haud) Hexp.
    simpl in Hkey. rewrite undigits_digits in Hkey. simpl in Hkey. rewrite decode_encode in Hkey. injection Hkey as <-.
    unfold jwt_decode, sample_verify_lib. rewrite sample_token_split, undigits_digits. simpl. rewrite decode_encode.
    rewrite (proj2 (str_eqb_eq _ _) eq_refl), (bool_decide_eq_true_2 _ Hiss), (proj2 (Z.ltb_lt _ _) Hexp). simpl.
    assert (existsb (λ a, bool_decide (a ∈ ac_aud claims)) (va_audience validation) = true) as ->; [|done].
    apply existsb_elem. exists a. split; [done|by apply bool_decide_eq_true].
Qed.
Definition sample_access_input : BrokerAccessTokenInput :=
  {| at_subject := "alice"; at_client_id := "client"; at_resource := Some "res"; at_scope := "task:read task:write";
     at_jti := "j"; at_issued_at := 1; at_expires_at := 600; at_preferred_username := Some "alice"; at_name := None;
     at_email := None; at_organization := Some "org"; at_groups := ["dev"]; at_roles := [] |}.
Definition sample_signing_key : string := "0123456789abcdef0123456789abcdef".
Definition sample_access_clock : clock := {| mono_at := λ _, 7%Z; utc_at := λ _, (5 * NANOS)%Z; tick := 0 |}.
Definition sample_access_clock_after : clock := advance (advance (advance (advance (advance (advance sample_access_clock))))).
Definition sample_access_issuer : BrokerAccessIssuer :=
  {| bi_issuer := "https://issuer.test"; bi_api_audience := "api"; bi_kid := "k"; bi_key := sample_signing_key;
     bi_jwks := [{| jwk_key_id := Some "k"; jwk_algorithm_parameters := OctetKeyPair Ed25519 (digits (encode sample_signing_key));
                    jwk_key_algorithm := Some EdDSA; jwk_public_key_use := Some Signature;
                    jwk_key_operations := Some [Verify] |}] |}.
Definition sample_access_verifier : BrokerAccessVerifier :=
  {| bv_issuer := "https://issuer.test"; bv_api_audience := "api"; bv_resource := Some "res"; bv_token_bytes := 100000;
     bv_keys := {["k" := sample_signing_key]} |}.
Definition sample_access_token : string :=
  default "" (encode_access "k" (access_claims sample_access_issuer sample_access_input) sample_signing_key).
Lemma access_round_trip_witness :
  sign_access sample_access_issuer sample_access_input 100 sample_access_clock =
    (Ok sample_access_token, sample_access_clock_after) ∧
  ∃ p c2, verify_bound sample_access_verifier sample_access_token ["task:read"] (Some "res") 100 sample_access_clock
          = (Ok p, c2) ∧ vb_subject p = "alice" ∧ vb_teams p = ["dev"].
Proof.
  assert (sign_access sample_access_issuer sample_access_input 100 sample_access_clock =
    (Ok sample_access_token, sample_access_clock_after)) as Hs
    by (vm_compute; reflexivity).
  split; [exact Hs|].
  destruct (access_round_trip "https://issuer.test" "api" "k" sample_signing_key sample_access_issuer (Some "res") 100000
    sample_access_verifier sample_access_input 100 sample_access_clock sample_access_token sample_access_clock_after ["task:read"] (Some "res") 100
    sample_access_clock) as (p & c2 & Hrun & Hsub & _ & _ & _ & _ & Ht & _); [| |exact Hs|..].
  - vm_compute. reflexivity.
  - vm_compute. reflexivity.
  - vm_compute. discriminate.
  - split; intros; vm_compute; repeat split; discriminate.
  - vm_compute. discriminate.
  - by intros r [= <-].
  - intros s ->%list_elem_of_singleton. split_and!; [vm_compute; left|done|done].
  - exists p, c2. split; [exact Hrun|]. split; [exact Hsub|exact Ht].
Defined.
