(* ===== verification/Sql.v ===== *)
(** * Transactions

    The SQL statements of crates/broker-control/src/service/*.rs act on a
    database of rows under their primary keys.  A transaction runs at READ
    COMMITTED: every statement sees what other transactions have committed so
    far and what this one has written.  At each suspension point another
    transaction may commit, except on rows this one has locked, and the statement
    may fail or the enclosing [timeout_at] cut the operation off, as an explicit
    schedule decides; a COMMIT that fails may or may not have taken effect. *)

From stdpp Require Import gmap.
From S2P Require Import Prelude RustStr Control.

Inductive sqlx_error := PoolClosed | PoolTimedOut | OtherSqlxError.
Definition storage_error (e : sqlx_error) : ControlError :=
  match e with PoolClosed => CE_Closed | PoolTimedOut => CE_Deadline | OtherSqlxError => CE_Storage end.
(** At a suspension point a statement fails, or the enclosing [timeout_at]
    cuts the operation off. *)
Inductive fault := StatementFails (e : sqlx_error) | CutOff.
(** [From<ControlError>] of an error type. *)
Class FromControl (E : Type) := from_control : ControlError → E.
#[global] Instance ControlError_from_control : FromControl ControlError := id.

(** ** The database and a connection in a transaction *)

(** A row is named by its table and primary key. *)
Notation Key := (string * string)%type.
Section sql.
Context {V : Type} `{EqDecision V}.
Notation Db := (gmap Key V).

(** What happens at a suspension point: what others commit, who wait for the
    locks held here, whether the statement fails and, should it be the COMMIT,
    whether it landed. *)
Record turn := { tn_env : gset Key → Db → Db; tn_fault : option fault; tn_lands : bool }.
Record Conn := {
  cn_db : Db;                            (* committed *)
  cn_writes : gmap Key (option V);       (* written here, not committed *)
  cn_locks : gset Key;
  cn_clock : clock;
  cn_turns : list turn;
}.
Definition view (c : Conn) : Db :=
  merge (λ w d, match w with Some o => o | None => d end) (cn_writes c) (cn_db c).
Definition with_db (c : Conn) (db : Db) : Conn :=
  {| cn_db := db; cn_writes := cn_writes c; cn_locks := cn_locks c; cn_clock := cn_clock c; cn_turns := cn_turns c |}.
Definition with_clock (c : Conn) (k : clock) : Conn :=
  {| cn_db := cn_db c; cn_writes := cn_writes c; cn_locks := cn_locks c; cn_clock := k; cn_turns := cn_turns c |}.
Definition with_turns (c : Conn) (ts : list turn) : Conn :=
  {| cn_db := cn_db c; cn_writes := cn_writes c; cn_locks := cn_locks c; cn_clock := cn_clock c; cn_turns := ts |}.
Definition with_writes (c : Conn) (ws : gmap Key (option V)) : Conn :=
  {| cn_db := cn_db c; cn_writes := ws ∪ cn_writes c; cn_locks := dom ws ∪ cn_locks c; cn_clock := cn_clock c;
     cn_turns := cn_turns c |}.
Definition with_locks (c : Conn) (ks : gset Key) : Conn :=
  {| cn_db := cn_db c; cn_writes := cn_writes c; cn_locks := ks ∪ cn_locks c; cn_clock := cn_clock c; cn_turns := cn_turns c |}.
Definition committed (c : Conn) : Conn :=
  {| cn_db := view c; cn_writes := ∅; cn_locks := ∅; cn_clock := cn_clock c; cn_turns := cn_turns c |}.
(** A transaction that changes a row locked here waits. *)
Definition interfere (f : gset Key → Db → Db) (c : Conn) : Conn :=
  let db := f (cn_locks c) (cn_db c) in
  if bool_decide (set_Forall (λ k, db !! k = cn_db c !! k) (cn_locks c)) then with_db c db else c.

(** ** Statements *)

Section statements.
Context {E : Type} `{!FromControl E}.
(** An [await] with [map_err(storage_error)] under [timeout_at]. *)
Definition sql_await : M Conn E unit := λ c,
  match cn_turns c with
  | [] => (Ok tt, c)
  | t :: ts =>
      let c := interfere (tn_env t) (with_turns c ts) in
      match tn_fault t with
      | None => (Ok tt, c)
      | Some (StatementFails e) => (Err (from_control (storage_error e)), c)
      | Some CutOff => (Err (from_control CE_Deadline), c)
      end
  end.
Definition sql_commit : M Conn E unit := λ c,
  match cn_turns c with
  | [] => (Ok tt, committed c)
  | t :: ts =>
      let c := interfere (tn_env t) (with_turns c ts) in
      match tn_fault t with
      | None => (Ok tt, committed c)
      | Some _ => (Err (from_control CE_OutcomeUncertain), if tn_lands t then committed c else c)
      end
  end.
(** The rows a condition selects. *)
Definition rows (p : Key → V → bool) (db : Db) : Db := filter (λ kv, p kv.1 kv.2 = true) db.
Definition select (k : Key) : M Conn E (option V) := do? sql_await in λ c, (Ok (view c !! k), c).
(** FOR UPDATE and FOR SHARE: the row, if there is one, stays as it is. *)
Definition select_locked (k : Key) : M Conn E (option V) :=
  do? sql_await in λ c,
    (Ok (view c !! k), match view c !! k with Some _ => with_locks c {[k]} | None => c end).
Definition select_where (p : Key → V → bool) : M Conn E (option (Key * V)) :=
  do? sql_await in λ c, (Ok (head (map_to_list (rows p (view c)))), c).
Definition select_where_locked (p : Key → V → bool) : M Conn E (option (Key * V)) :=
  do? sql_await in λ c,
    let r := head (map_to_list (rows p (view c))) in
    (Ok r, match r with Some (k, _) => with_locks c {[k]} | None => c end).
Definition update_where (p : Key → V → bool) (f : V → V) : M Conn E nat :=
  do? sql_await in λ c,
    let rs := rows p (view c) in (Ok (size rs), with_writes c ((λ v, Some (f v)) <$> rs)).
(** An update that sets a unique column: [clash] selects the other rows it
    collides with. *)
Definition update_unique (p : Key → V → bool) (f : V → V) (clash : Key → V → bool) : M Conn E nat :=
  do? sql_await in λ c,
    let rs := rows p (view c) in
    if bool_decide (rs = ∅ ∨ rows clash (view c) = ∅) then (Ok (size rs), with_writes c ((λ v, Some (f v)) <$> rs))
    else (Err (from_control CE_Storage), c).
Definition delete_where (p : Key → V → bool) : M Conn E nat :=
  do? sql_await in λ c,
    let rs := rows p (view c) in (Ok (size rs), with_writes c ((λ _, None) <$> rs)).
(** [clash] selects the rows a unique column of the new one collides with. *)
Definition insert_row (k : Key) (v : V) (clash : Key → V → bool) : M Conn E unit :=
  do? sql_await in λ c,
    match view c !! k with
    | Some _ => (Err (from_control CE_Storage), c)
    | None => if bool_decide (rows clash (view c) = ∅) then (Ok tt, with_writes c {[k := Some v]})
              else (Err (from_control CE_Storage), c)
    end.
Definition txn_with {F A} (f : F → E) (m : M clock F A) : M Conn E A := λ c,
  match m (cn_clock c) with
  | (r, k) => (rmap_err f r, with_clock c k)
  end.
Definition txn_clock {A} (m : M clock ControlError A) : M Conn E A := txn_with from_control m.
End statements.

(** ** What a transaction does to the database *)

Definition apply_writes (ws : gmap Key (option V)) (db : Db) : Db :=
  merge (λ w d, match w with Some o => o | None => d end) ws db.
Lemma lookup_apply ws db k : apply_writes ws db !! k = match ws !! k with Some o => o | None => db !! k end.
Proof. unfold apply_writes. rewrite lookup_merge. by destruct (ws !! k) as [[]|], (db !! k). Qed.
Lemma apply_empty db : apply_writes ∅ db = db.
Proof. apply map_eq. intros k. by rewrite lookup_apply, lookup_empty. Qed.
Lemma apply_insert k v ws db : apply_writes (<[k := Some v]> ws) db = <[k := v]> (apply_writes ws db).
Proof.
  apply map_eq. intros k'. rewrite lookup_apply. destruct (decide (k' = k)) as [->|Hne].
  - by rewrite !lookup_insert_eq.
  - by rewrite !lookup_insert_ne, lookup_apply.
Qed.
Lemma apply_delete k ws db : apply_writes (<[k := None]> ws) db = delete k (apply_writes ws db).
Proof.
  apply map_eq. intros k'. rewrite lookup_apply. destruct (decide (k' = k)) as [->|Hne].
  - by rewrite lookup_insert_eq, lookup_delete_eq.
  - by rewrite lookup_insert_ne, lookup_delete_ne, lookup_apply.
Qed.
(** A condition on one row. *)
Definition at_key (k : Key) (q : V → bool) : Key → V → bool := λ k' v, bool_decide (k' = k) && q v.
Lemma rows_at_key k q db :
  rows (at_key k q) db = match db !! k with Some v => if q v then {[k := v]} else ∅ | None => ∅ end.
Proof.
  apply map_eq. intros k'. unfold rows, at_key. apply option_eq. intros v. rewrite map_lookup_filter_Some. simpl.
  destruct (decide (k' = k)) as [->|Hne].
  - rewrite bool_decide_true by done. simpl. destruct (db !! k) as [v'|]; [|split; [by intros [? _]|done]].
    destruct (q v') eqn:Eq.
    + rewrite lookup_singleton_Some. split; [intros [[= ->] _]; done|]. intros [_ ->]. done.
    + rewrite lookup_empty. split; [|done]. intros [[= ->] ?]. congruence.
  - rewrite bool_decide_false by done. split; [by intros [_ ?]|]. destruct (db !! k) as [v'|]; [|done].
    destruct (q v'); [|done]. intros Hs. by apply lookup_singleton_Some in Hs as [? _].
Qed.

(** Nothing read or written yet. *)
Definition idle (c : Conn) : Prop := cn_writes c = ∅ ∧ cn_locks c = ∅.
(** A row, or its absence, that stays until the end. *)
Definition held (c : Conn) (k : Key) (o : option V) : Prop := k ∈ cn_locks c ∧ cn_db c !! k = o.
Lemma view_clean c : cn_writes c = ∅ → view c = cn_db c.
Proof. unfold view. intros ->. apply apply_empty. Qed.
Lemma writes_one c k o : cn_writes (with_writes c {[k := o]}) = <[k := o]> (cn_writes c).
Proof. simpl. by rewrite insert_union_singleton_l. Qed.
Lemma held_write c k o o' : cn_db c !! k = o → held (with_writes c {[k := o']}) k o.
Proof. intros Hk. split; [|done]. simpl. rewrite dom_singleton_L. set_solver. Qed.
Class Rely (R : gset Key → Db → Db → Prop) : Prop := {
  rely_preorder :: ∀ ks, PreOrder (R ks);
  rely_anti ks ks' db db' : ks ⊆ ks' → R ks' db db' → R ks db db';
}.
Section rely.
(** What the other transactions may do to the database, all together, while
    this one holds some locks. *)
Context (R : gset Key → Db → Db → Prop) `{!Rely R}.
Definition fair (c : Conn) : Prop := Forall (λ t, ∀ ks db, R ks db (tn_env t ks db)) (cn_turns c).
(** Nothing was committed here: the database is changed by others only, and
    not on the rows locked. *)
Record inside (c c' : Conn) : Prop := {
  in_locks : cn_locks c ⊆ cn_locks c';
  in_held k : k ∈ cn_locks c → cn_db c' !! k = cn_db c !! k;
  in_turns : cn_turns c' `suffix_of` cn_turns c;
  in_env : fair c → R (cn_locks c) (cn_db c) (cn_db c');
  in_clock : clock_run (cn_clock c) (cn_clock c');
}.
(** And nothing was written either. *)
Record rests (c c' : Conn) : Prop := { re_inside : inside c c'; re_writes : cn_writes c' = cn_writes c }.
Lemma fair_suffix c c' : cn_turns c' `suffix_of` cn_turns c → fair c → fair c'.
Proof. unfold fair. intros [ts ->]. rewrite Forall_app. by intros [_ ?]. Qed.
#[global] Instance inside_preorder : PreOrder inside.
Proof.
  split.
  - intros c. split; [done|done|done|done|auto with broker].
  - intros c1 c2 c3 [L1 H1 T1 E1 K1] [L2 H2 T2 E2 K2]. split.
    + set_solver.
    + intros k Hk. rewrite H2, H1 by set_solver. done.
    + by etrans.
    + intros Hf. etrans; [by apply E1|]. apply (rely_anti _ (cn_locks c2)); [done|]. by apply E2, (fair_suffix c1).
    + eauto with broker.
Qed.
#[global] Instance rests_preorder : PreOrder rests.
Proof.
  split; [intros c; split; [done|done]|]. intros c1 c2 c3 [I1 W1] [I2 W2]. split; [by etrans|congruence].
Qed.
Lemma rests_inside {E A} (m : M Conn E A) : keeps rests m → keeps inside m.
Proof. apply keeps_mono. by intros c c' [? _]. Qed.
Lemma next_turn c t ts : cn_turns c = t :: ts → rests c (interfere (tn_env t) (with_turns c ts)).
Proof.
  intros Ht. assert (∀ db, (fair c → R (cn_locks c) (cn_db c) db) → (∀ k, k ∈ cn_locks c → db !! k = cn_db c !! k) →
    rests c (with_db (with_turns c ts) db)) as Hto.
  { intros db HR Hk. split; [|done]. split; simpl; [done|done|rewrite Ht; by exists [t]|done|auto with broker]. }
  unfold interfere. case_bool_decide as Hl; [apply Hto; [|done]|by apply (Hto (cn_db c))].
  unfold fair. rewrite Ht. intros Hf. by inversion Hf.
Qed.
Lemma locks_rests c ks : rests c (with_locks c ks).
Proof. split; [|done]. split; simpl; [set_solver|done|done|done|auto with broker]. Qed.
Lemma writes_inside c ws : inside c (with_writes c ws).
Proof. split; simpl; [set_solver|done|done|done|auto with broker]. Qed.
Section statements.
Context {E : Type} `{!FromControl E}.
Lemma rests_await : keeps rests (sql_await (E:=E)).
Proof.
  intros c x c'. unfold sql_await. destruct (cn_turns c) as [|t ts] eqn:Ht; [by intros [= _ <-]|].
  pose proof (next_turn c t ts Ht) as Hn. by destruct (tn_fault t) as [[]|]; intros [= _ <-].
Qed.
Lemma rests_here {A} (f : Conn → result E A * Conn) : (∀ c, rests c (f c).2) → keeps rests f.
Proof. intros Hf c x c' Hr. specialize (Hf c). by rewrite Hr in Hf. Qed.
Lemma rests_select k : keeps rests (select (E:=E) k).
Proof. apply keeps_bind; [apply _|apply rests_await|]. intros _. by apply rests_here. Qed.
Lemma rests_select_locked k : keeps rests (select_locked (E:=E) k).
Proof.
  apply keeps_bind; [apply _|apply rests_await|]. intros _. apply rests_here. intros c. simpl.
  destruct (view c !! k); [apply locks_rests|done].
Qed.
Lemma rests_select_where p : keeps rests (select_where (E:=E) p).
Proof. apply keeps_bind; [apply _|apply rests_await|]. intros _. by apply rests_here. Qed.
Lemma rests_select_where_locked p : keeps rests (select_where_locked (E:=E) p).
Proof.
  apply keeps_bind; [apply _|apply rests_await|]. intros _. apply rests_here. intros c. simpl.
  destruct (head _) as [[k v]|]; [apply locks_rests|done].
Qed.
Lemma rests_txn_with {F A} (f : F → E) (m : M clock F A) :
  keeps clock_run m → keeps rests (txn_with f m).
Proof.
  intros Hm c x c'. unfold txn_with. destruct (m (cn_clock c)) as [r k] eqn:Er. intros [= _ <-].
  split; [|done]. split; simpl; [done|done|done|done|by eapply Hm].
Qed.
Lemma inside_update_where p f : keeps inside (update_where (E:=E) p f).
Proof.
  apply keeps_bind; [apply _|apply rests_inside, rests_await|]. intros _ c x c' [= _ <-]. apply writes_inside.
Qed.
Lemma inside_update_unique p f clash : keeps inside (update_unique (E:=E) p f clash).
Proof.
  apply keeps_bind; [apply _|apply rests_inside, rests_await|]. intros _ c x c'. cbv zeta.
  case_bool_decide; intros [= _ <-]; [apply writes_inside|done].
Qed.
Lemma inside_delete_where p : keeps inside (delete_where (E:=E) p).
Proof.
  apply keeps_bind; [apply _|apply rests_inside, rests_await|]. intros _ c x c' [= _ <-]. apply writes_inside.
Qed.
Lemma inside_insert_row k v clash : keeps inside (insert_row (E:=E) k v clash).
Proof.
  apply keeps_bind; [apply _|apply rests_inside, rests_await|]. intros _ c x c'.
  destruct (view c !! k); [by intros [= _ <-]|]. case_bool_decide; intros [= _ <-]; [apply writes_inside|done].
Qed.

(** What a statement that succeeds has done, at the moment it did. *)
Lemma select_ok k c o c' : select (E:=E) k c = (Ok o, c') → rests c c' ∧ o = view c' !! k.
Proof.
  intros Hr. split; [by eapply rests_select|]. apply bind_ok in Hr as (u & c1 & _ & [= <- <-]). done.
Qed.
Lemma view_locks c ks : view (with_locks c ks) = view c.
Proof. done. Qed.
Lemma select_locked_ok k c o c' :
  select_locked (E:=E) k c = (Ok o, c') → rests c c' ∧ o = view c' !! k ∧ (is_Some o → k ∈ cn_locks c').
Proof.
  intros Hr. split; [by eapply rests_select_locked|]. apply bind_ok in Hr as (u & c1 & _ & [= <- <-]).
  destruct (view c1 !! k) as [v|] eqn:Ev; [|by split; [|intros [? ?]]]. split; [done|]. intros _. simpl. set_solver.
Qed.
Lemma select_where_locked_ok p c k v c' :
  select_where_locked (E:=E) p c = (Ok (Some (k, v)), c') →
  rests c c' ∧ view c' !! k = Some v ∧ p k v = true ∧ k ∈ cn_locks c'.
Proof.
  intros Hr. split; [by eapply rests_select_where_locked|]. apply bind_ok in Hr as (u & c1 & _ & [= Hh <-]).
  rewrite Hh. apply head_Some_elem_of, elem_of_map_to_list, map_lookup_filter_Some in Hh as [Hv Hp].
  split; [done|]. split; [done|]. simpl. set_solver.
Qed.
Lemma update_where_ok p f c n c' :
  update_where (E:=E) p f c = (Ok n, c') →
  ∃ c1, rests c c1 ∧ n = size (rows p (view c1)) ∧ c' = with_writes c1 ((λ v, Some (f v)) <$> rows p (view c1)).
Proof.
  intros Hr. apply bind_ok in Hr as (u & c1 & Ha & [= <- <-]). exists c1. split; [by eapply rests_await|done].
Qed.
Lemma update_unique_ok p f clash c n c' :
  update_unique (E:=E) p f clash c = (Ok n, c') →
  ∃ c1, rests c c1 ∧ n = size (rows p (view c1)) ∧ (n = 0 ∨ rows clash (view c1) = ∅) ∧
    c' = with_writes c1 ((λ v, Some (f v)) <$> rows p (view c1)).
Proof.
  intros Hr. apply bind_ok in Hr as (u & c1 & Ha & Hr). exists c1. split; [by eapply rests_await|]. revert Hr.
  cbv zeta. case_bool_decide as Hb; [|done]. intros [= <- <-]. split; [done|]. split; [|done].
  destruct Hb as [->| ->]; [left; by rewrite map_size_empty|by right].
Qed.
Lemma delete_where_ok p c n c' :
  delete_where (E:=E) p c = (Ok n, c') →
  ∃ c1, rests c c1 ∧ n = size (rows p (view c1)) ∧ c' = with_writes c1 ((λ _, None) <$> rows p (view c1)).
Proof.
  intros Hr. apply bind_ok in Hr as (u & c1 & Ha & [= <- <-]). exists c1. split; [by eapply rests_await|done].
Qed.
Lemma insert_row_ok k v clash c c' :
  insert_row (E:=E) k v clash c = (Ok tt, c') →
  ∃ c1, rests c c1 ∧ view c1 !! k = None ∧ rows clash (view c1) = ∅ ∧ c' = with_writes c1 {[k := Some v]}.
Proof.
  intros Hr. apply bind_ok in Hr as (u & c1 & Ha & Hr). exists c1. split; [by eapply rests_await|].
  destruct (view c1 !! k); [done|]. case_bool_decide; [|done]. by injection Hr as <-.
Qed.
(** A COMMIT: nothing, or all that was written, at once. *)
Lemma commit_run c x c' :
  sql_commit (E:=E) c = (x, c') →
  ∃ c1, rests c c1 ∧
    (x = Ok tt ∧ c' = committed c1 ∨ x = Err (from_control CE_OutcomeUncertain) ∧ (c' = committed c1 ∨ c' = c1)).
Proof.
  unfold sql_commit. destruct (cn_turns c) as [|t ts] eqn:Ht; [intros [= <- <-]; exists c; by split; [|left]|].
  pose proof (next_turn c t ts Ht) as Hn.
  destruct (tn_fault t) as [f|]; intros [= <- <-]; eexists; (split; [exact Hn|]); [right|by left].
  split; [done|]. destruct (tn_lands t); auto.
Qed.
End statements.

(** Statements on one row that must be there. *)
Section one_row.
Context {E : Type} `{!FromControl E}.
Lemma update_at_one k q f c n c' :
  update_where (E:=E) (at_key k q) f c = (Ok n, c') → n = 1 →
  ∃ c1 v, rests c c1 ∧ view c1 !! k = Some v ∧ q v = true ∧ c' = with_writes c1 {[k := Some (f v)]}.
Proof.
  intros (c1 & I & -> & ->)%update_where_ok Hn. rewrite rows_at_key in Hn |- *. exists c1.
  destruct (view c1 !! k) as [v|]; [|by rewrite map_size_empty in Hn]. destruct (q v) eqn:Eq; [|by rewrite map_size_empty in Hn].
  exists v. by rewrite map_fmap_singleton.
Qed.
Lemma delete_at k q c n c' :
  delete_where (E:=E) (at_key k q) c = (Ok n, c') →
  ∃ c1, rests c c1 ∧
    ((n = 1 ∧ ∃ v, view c1 !! k = Some v ∧ q v = true ∧ c' = with_writes c1 {[k := None]}) ∨
     (n = 0 ∧ (∀ v, view c1 !! k = Some v → q v = false) ∧ c' = with_writes c1 ∅)).
Proof.
  intros (c1 & I & -> & ->)%delete_where_ok. rewrite rows_at_key. exists c1. split; [done|].
  destruct (view c1 !! k) as [v|]; [destruct (q v) eqn:Eq|]; rewrite ?map_size_empty, ?map_size_singleton, ?fmap_empty, ?map_fmap_singleton.
  - left. eauto.
  - right. split; [done|]. split; [|done]. by intros ? [= <-].
  - right. done.
Qed.
End one_row.

(** ** A transaction as a whole *)

Lemma held_inside c c' k o : inside c c' → held c k o → held c' k o.
Proof. intros Hi [Hk <-]. split; [by apply (in_locks _ _ Hi)|by apply (in_held _ _ Hi)]. Qed.
Lemma clean_rests c c' : rests c c' → cn_writes c = ∅ → cn_writes c' = ∅.
Proof. by intros [_ ->]. Qed.
(** One step of a transaction that only reads so far. *)
Lemma bind_rests {E A B} (m : M Conn E A) (k : A → M Conn E B) c x c' :
  bind m k c = (x, c') → keeps rests m →
  (∃ a c1, m c = (Ok a, c1) ∧ rests c c1 ∧ k a c1 = (x, c')) ∨ (∃ e, x = Err e ∧ inside c c').
Proof.
  intros [(a & c1 & Hm & Hr)|(e & Hm & ->)]%bind_cases Hk; [left|right].
  - exists a, c1. split; [done|]. split; [by eapply Hk|done].
  - exists e. split; [done|]. by apply Hk in Hm as [? _].
Qed.
(** The next step of one that has only read since [c]. *)
Lemma bind_more {E A B} (m : M Conn E A) (k : A → M Conn E B) c c1 x c' :
  rests c c1 → bind m k c1 = (x, c') → keeps rests m →
  (∃ a c2, m c1 = (Ok a, c2) ∧ rests c1 c2 ∧ rests c c2 ∧ k a c2 = (x, c')) ∨ (∃ e, x = Err e ∧ inside c c').
Proof.
  intros I Hr Hk. apply bind_rests in Hr as [(a & c2 & Hm & I2 & Hr)|(e & -> & Hi)]; [| |done].
  - left. exists a, c2. split; [done|]. split; [done|]. split; [by etrans|done].
  - right. exists e. split; [done|]. etrans; [exact (re_inside _ _ I)|done].
Qed.
(** One that writes. *)
Lemma bind_inside {E A B} (m : M Conn E A) (k : A → M Conn E B) c x c' :
  bind m k c = (x, c') → keeps inside m →
  (∃ a c1, m c = (Ok a, c1) ∧ inside c c1 ∧ k a c1 = (x, c')) ∨ (∃ e, x = Err e ∧ inside c c').
Proof.
  intros [(a & c1 & Hm & Hr)|(e & Hm & ->)]%bind_cases Hk; [left|right].
  - exists a, c1. split; [done|]. split; [by eapply Hk|done].
  - exists e. split; [done|]. by eapply Hk.
Qed.
End rely.
End sql.
Arguments Conn : clear implicits.
Arguments turn : clear implicits.

(** ** Transactions that write much *)

Section acts.
Context {V : Type} `{EqDecision V} (R : gset Key → gmap Key V → gmap Key V → Prop) `{!Rely R}.
Implicit Types (A P : Key → option V → option V → Prop) (q : Key → V → bool) (c : Conn V).
(** Statements that change rows only as [A] says. *)
Definition act A c c' : Prop :=
  rests R c c' ∨ ∃ ws, c' = with_writes c ws ∧ ∀ k o, ws !! k = Some o → A k (view c !! k) o.
Definition acts A : Conn V → Conn V → Prop := rtc (act A).
Lemma rests_acts A c c' : rests R c c' → acts A c c'.
Proof. intros Hr. apply rtc_once. by left. Qed.
Lemma acts_inside A c c' : acts A c c' → inside R c c'.
Proof.
  induction 1 as [|c1 c2 c3 [[Hi _]|(ws & -> & _)] _ IH]; [done|by etrans|]. etrans; [apply (writes_inside R)|done].
Qed.
Lemma acts_weaken A A' c c' : (∀ k o o', A k o o' → A' k o o') → acts A c c' → acts A' c c'.
Proof.
  intros HA. apply rtc_subrel. intros c1 c2 [Hr|(ws & -> & Hw)]; [by left|]. right. exists ws. eauto.
Qed.
Section programs.
Context {E : Type} `{!FromControl E}.
Lemma keeps_rests_acts {B} A (m : M (Conn V) E B) : keeps (rests R) m → keeps (acts A) m.
Proof. apply keeps_mono. intros c c'. apply rests_acts. Qed.
Lemma acts_update_where A p f : (∀ k v, p k v = true → A k (Some v) (Some (f v))) → keeps (acts A) (update_where (E:=E) p f).
Proof.
  intros HA. apply keeps_bind; [apply _|apply keeps_rests_acts, (rests_await R)|]. intros _ c x c' [= _ <-]. apply rtc_once. right.
  eexists. split; [done|]. intros k o. rewrite lookup_fmap, fmap_Some. intros (v & [Hv Hp]%map_lookup_filter_Some & ->).
  rewrite Hv. by apply HA.
Qed.
Lemma acts_delete_where A p : (∀ k v, p k v = true → A k (Some v) None) → keeps (acts A) (delete_where (E:=E) p).
Proof.
  intros HA. apply keeps_bind; [apply _|apply keeps_rests_acts, (rests_await R)|]. intros _ c x c' [= _ <-]. apply rtc_once. right.
  eexists. split; [done|]. intros k o. rewrite lookup_fmap, fmap_Some. intros (v & [Hv Hp]%map_lookup_filter_Some & ->).
  rewrite Hv. by apply HA.
Qed.
Lemma acts_insert_row A k v clash : A k None (Some v) → keeps (acts A) (insert_row (E:=E) k v clash).
Proof.
  intros HA. apply keeps_bind; [apply _|apply keeps_rests_acts, (rests_await R)|]. intros _ c x c'.
  destruct (view c !! k) eqn:Ek; [by intros [= _ <-]|]. case_bool_decide; intros [= _ <-]; [|done]. apply rtc_once. right.
  eexists. split; [done|]. intros k' o [<- <-]%lookup_singleton_Some. by rewrite Ek.
Qed.
End programs.

(** All that is written is explained by the row that is committed. *)
Definition explained P c : Prop := ∀ k o, cn_writes c !! k = Some o → k ∈ cn_locks c ∧ P k (cn_db c !! k) o.
Lemma explained_clean P c : cn_writes c = ∅ → explained P c.
Proof. intros Hw k o. by rewrite Hw, lookup_empty. Qed.
Lemma explained_acts P c c' :
  (∀ k x y z, P k x y → P k y z → P k x z) → acts P c c' → explained P c → explained P c'.
Proof.
  intros Ht. induction 1 as [|c1 c2 c3 Ha _ IH]; [done|]. intros He. apply IH. intros k o. destruct Ha as [[Hi Hw]|(ws & -> & Hws)].
  - rewrite Hw. intros Hk. destruct (He k o Hk) as [Hl HP]. split; [by apply (in_locks _ _ _ Hi)|]. by rewrite (in_held _ _ _ Hi).
  - simpl. rewrite lookup_union. destruct (ws !! k) as [o'|] eqn:Ews.
    + rewrite union_Some_l. intros [= <-]. split; [apply elem_of_union; left; by apply elem_of_dom|]. specialize (Hws k o' Ews).
      revert Hws. change (view c1) with (apply_writes (cn_writes c1) (cn_db c1)). rewrite lookup_apply.
      destruct (cn_writes c1 !! k) as [o1|] eqn:E1; [|done]. destruct (He k o1 E1) as [_ HP]. eauto.
    + rewrite (left_id_L None (∪)). intros Hk. destruct (He k o Hk). split; [set_solver|done].
Qed.
Lemma explained_view P c k : explained P c → view c !! k = cn_db c !! k ∨ P k (cn_db c !! k) (view c !! k).
Proof.
  intros He. change (view c) with (apply_writes (cn_writes c) (cn_db c)). rewrite lookup_apply.
  destruct (cn_writes c !! k) as [o|] eqn:E; [|by left]. right. by apply He.
Qed.

(** A row written here that [A] does not change. *)
Lemma written_acts A c c' k v :
  acts A c c' → cn_writes c !! k = Some (Some v) → (∀ o, ¬ A k (Some v) o) → cn_writes c' !! k = Some (Some v).
Proof.
  induction 1 as [|c1 c2 c3 [[_ Hw]|(ws & -> & Hws)] _ IH]; [done| |]; intros Hk HA; apply IH; try done; [by rewrite Hw|].
  simpl. rewrite lookup_union. destruct (ws !! k) as [o|] eqn:E; [|by rewrite (left_id_L None (∪))]. destruct (HA o).
  specialize (Hws k o E). revert Hws. change (view c1) with (apply_writes (cn_writes c1) (cn_db c1)). by rewrite lookup_apply, Hk.
Qed.
Lemma written_view c k o : cn_writes c !! k = Some o → view c !! k = o.
Proof. intros Hk. change (view c) with (apply_writes (cn_writes c) (cn_db c)). by rewrite lookup_apply, Hk. Qed.

(** No row is seen that [q] selects. *)
Definition settled q c : Prop := ∀ k v, view c !! k = Some v → q k v = false.
(** Others do not add such rows. *)
Definition undisturbed q c c' : Prop :=
  ∀ k v, cn_db c' !! k = Some v → q k v = true → ∃ v', cn_db c !! k = Some v' ∧ q k v' = true.
Lemma settled_rests q c c' : rests R c c' → undisturbed q c c' → settled q c → settled q c'.
Proof.
  intros [_ Hw] Hu Hs k v. change (view c') with (apply_writes (cn_writes c') (cn_db c')). rewrite lookup_apply, Hw. intros Hv.
  specialize (Hs k). revert Hs. change (view c) with (apply_writes (cn_writes c) (cn_db c)). rewrite lookup_apply.
  destruct (cn_writes c !! k) as [o|]; [auto|]. intros Hs. destruct (q k v) eqn:Eq; [|done]. destruct (Hu k v Hv Eq) as (v' & Hv' & Hq').
  rewrite (Hs v' Hv') in Hq'. done.
Qed.
Lemma view_writes c ws k : view (with_writes c ws) !! k = match ws !! k with Some o => o | None => view c !! k end.
Proof.
  change (view (with_writes c ws)) with (apply_writes (ws ∪ cn_writes c) (cn_db c)).
  change (view c) with (apply_writes (cn_writes c) (cn_db c)). rewrite !lookup_apply, lookup_union.
  destruct (ws !! k); [by rewrite union_Some_l|by rewrite (left_id_L None (∪))].
Qed.
Lemma settled_acts A q c c' (I : Conn V → Prop) :
  (∀ c1 c2, I c1 → inside R c1 c2 → I c2) → (∀ c1 c2, I c1 → inside R c1 c2 → undisturbed q c1 c2) →
  (∀ k o v, A k o (Some v) → q k v = false) → acts A c c' → I c → settled q c → settled q c'.
Proof.
  intros HI Hu HA. induction 1 as [|c1 c2 c3 Ha _ IH]; [done|]. intros Hc Hs. apply IH.
  - eapply HI; [done|]. by eapply acts_inside, rtc_once.
  - destruct Ha as [Hr|(ws & -> & Hws)]; [eapply settled_rests; [done|eapply Hu; [done|by destruct Hr]|done]|].
    intros k v. rewrite view_writes. destruct (ws !! k) as [o|] eqn:E; [intros ->; by eapply HA, Hws|apply Hs].
Qed.
(** A statement that changes or deletes every row of the kind. *)
Lemma settled_delete {E} `{!FromControl E} p q c n c' :
  delete_where (E:=E) p c = (Ok n, c') → (∀ k v, q k v = true → p k v = true) → settled q c'.
Proof.
  intros (c1 & _ & _ & ->)%(delete_where_ok R) Hq k v. rewrite view_writes, lookup_fmap. destruct (rows p (view c1) !! k) eqn:Er; [done|].
  simpl. intros Hv. destruct (q k v) eqn:Eq; [|done]. apply Hq in Eq.
  enough (rows p (view c1) !! k = Some v) by congruence. by apply map_lookup_filter_Some.
Qed.
Lemma settled_update {E} `{!FromControl E} p f q c n c' :
  update_where (E:=E) p f c = (Ok n, c') → (∀ k v, q k v = true → p k v = true) → (∀ k v, p k v = true → q k (f v) = false) → settled q c'.
Proof.
  intros (c1 & _ & _ & ->)%(update_where_ok R) Hq Hf k v. rewrite view_writes, lookup_fmap.
  destruct (rows p (view c1) !! k) as [v0|] eqn:Er; simpl.
  - apply map_lookup_filter_Some in Er as [_ Hp]. intros [= <-]. by apply Hf.
  - intros Hv. destruct (q k v) eqn:Eq; [|done]. apply Hq in Eq.
    enough (rows p (view c1) !! k = Some v) by congruence. by apply map_lookup_filter_Some.
Qed.
End acts.

Lemma keeps_now_micros : keeps clock_run now_micros.
Proof. unfold now_micros. auto with broker. Qed.
Lemma keeps_bounded_deadline caller budget : keeps clock_run (bounded_deadline caller budget).
Proof. unfold bounded_deadline. auto with broker. Qed.
#[export] Hint Resolve keeps_now_micros keeps_bounded_deadline : broker.
#[export] Hint Extern 1 (keeps (rests _) sql_await) => apply rests_await : broker.
#[export] Hint Extern 1 (keeps (rests _) (select _)) => apply rests_select : broker.
#[export] Hint Extern 1 (keeps (rests _) (select_locked _)) => apply rests_select_locked : broker.
#[export] Hint Extern 1 (keeps (rests _) (select_where _)) => apply rests_select_where : broker.
#[export] Hint Extern 1 (keeps (rests _) (select_where_locked _)) => apply rests_select_where_locked : broker.
#[export] Hint Extern 1 (keeps (rests _) (txn_with _ _)) => apply rests_txn_with : broker.
#[export] Hint Extern 1 (keeps (rests _) (txn_clock _)) => apply rests_txn_with : broker.
#[export] Hint Extern 1 (keeps (inside _) (update_where _ _)) => apply inside_update_where : broker.
#[export] Hint Extern 1 (keeps (inside _) (update_unique _ _ _)) => apply inside_update_unique : broker.
#[export] Hint Extern 1 (keeps (inside _) (delete_where _)) => apply inside_delete_where : broker.
#[export] Hint Extern 1 (keeps (inside _) (insert_row _ _ _)) => apply inside_insert_row : broker.

(** One step of a run [Hr] that has only read since the start, which [I] records;
    the context closes the case of its error, and the rows held are carried on. *)
Ltac carry J :=
  repeat match goal with Hh : held _ _ _ |- _ => apply (held_inside _ _ _ _ _ (re_inside _ _ _ J)) in Hh end.
Ltac read_step Hr I a c Hm :=
  let J := fresh "J" in let e := fresh "e" in let He := fresh "He" in let Hi := fresh "Hi" in
  apply (bind_more _ _ _ _ _ _ _ I) in Hr; [|by auto with broker];
  clear I; destruct Hr as [(a & c & Hm & J & I & Hr)|(e & He & Hi)]; [carry J|by eauto].
(** An early return. *)
Ltac guard_step Hr I C :=
  match type of Hr with
  | (if ?b then fail _ else _) _ = _ =>
      destruct b eqn:C; [injection Hr as <- <-; by eauto using re_inside|]
  end.
