(* ===== verification/OidcTables.v ===== *)
(** * Principals and tokens in the database

    crates/broker-control/src/service/oidc_principal.rs (the stored principal),
    oidc_tokens.rs (stored tokens and the locks of a subject with a client),
    [current_principal] of oidc_authorization/completion.rs, and the rows of the
    tables they and the flows that use them touch.  [serde_json], ORDER BY and
    the trust in an upstream issuer are parameters. *)

From stdpp Require Import gmap.
From S2P Require Import Prelude RustStr Order Control Sql.

(** ** Errors *)

Inductive OidcAuthorizationError :=
| OA_InvalidConfiguration | OA_InvalidLimits | OA_InvalidRequest | OA_InvalidClient | OA_InvalidRedirect | OA_InvalidScope
| OA_LoginRequired | OA_InvalidTarget | OA_InvalidLogin | OA_MalformedStored | OA_ReadLimitExceeded | OA_Credential
| OA_Random | OA_Control (e : ControlError).
#[global] Instance OidcAuthorizationError_from_control : FromControl OidcAuthorizationError := OA_Control.
Inductive OidcTokenExchangeError :=
| TX_InvalidConfiguration | TX_InvalidRequest | TX_InvalidClient | TX_InvalidGrant | TX_InvalidTarget | TX_InvalidScope
| TX_UnsupportedGrantType | TX_MalformedStored | TX_ReadLimitExceeded | TX_Credential | TX_Random | TX_Signing
| TX_Control (e : ControlError).
#[global] Instance OidcTokenExchangeError_from_control : FromControl OidcTokenExchangeError := TX_Control.
Definition exchange_error (e : OidcAuthorizationError) : OidcTokenExchangeError :=
  match e with
  | OA_Control e => TX_Control e
  | OA_InvalidClient => TX_InvalidClient
  | OA_InvalidLogin => TX_InvalidGrant
  | OA_ReadLimitExceeded => TX_ReadLimitExceeded
  | OA_Credential => TX_Credential
  | _ => TX_MalformedStored
  end.

(** ** Rows (schema.rs): the columns besides the primary key *)

Record UserRow := {
  us_subject : string;
  us_identity_kind : string;
  us_password_hash : string;
  us_name : string;
  us_email : string;
  us_organization : string;
  us_teams_json : string;
  us_enabled : Z;
  us_password_change_required : Z;
  us_revision : Z;
  us_created_at : Z;
  us_updated_at : Z;
}.
Record RoleRow := { ro_subject : string; ro_role : string }.
Record DeviceCodeRow := {
  dc_user_hash : string;
  dc_client_id : string;
  dc_scopes_json : string;
  dc_subject : string;
  dc_local_user_revision : Z;
  dc_status : string;
  dc_interval_seconds : Z;
  dc_last_poll_at : option Z;
  dc_expires_at : Z;
  dc_created_at : Z;
}.
Record ChallengeRow := {
  ch_subject : string;
  ch_local_user_revision : Z;
  ch_purpose : string;
  ch_binding_hash : string;
  ch_stage : string;
  ch_secret_ciphertext : string;
  ch_expires_at : Z;
  ch_created_at : Z;
}.
Record TokenRow := {
  tk_token_id : string;
  tk_token_kind : string;
  tk_subject : string;
  tk_oidc_subject : string;
  tk_principal_json : string;
  tk_client_id : string;
  tk_audience : string;
  tk_resource : string;
  tk_scopes_json : string;
  tk_local_user_revision : Z;
  tk_family_id : string;
  tk_auth_time : Z;
  tk_expires_at : Z;
  tk_revoked_at : option Z;
  tk_consumed_at : option Z;
  tk_last_used_at : option Z;
  tk_created_at : Z;
}.
Record RequestRow := {
  rq_identity_subject : string;
  rq_request_json : string;
  rq_code_hash : option string;
  rq_expires_at : Z;
  rq_created_at : Z;
}.
Record ClientRow := {
  cl_client_name : string;
  cl_redirect_uris_json : string;
  cl_scopes_json : string;
  cl_application_type : string;
  cl_created_at : Z;
}.
Record FactorRow := { mf_secret_ciphertext : string; mf_last_totp_step : Z; mf_confirmed_at : Z }.
(** The primary key of a recovery code is the person and the digest. *)
Record RecoveryRow := { rv_subject : string; rv_code_hash : string; rv_created_at : Z }.
Inductive Row :=
| RUser (u : UserRow) | RRole (r : RoleRow) | RDevice (d : DeviceCodeRow) | RChallenge (c : ChallengeRow)
| RToken (t : TokenRow) | RClient (c : ClientRow) | RRequest (q : RequestRow) | RFactor (f : FactorRow) | RRecovery (v : RecoveryRow).
#[global] Instance Row_eq_dec : EqDecision Row.
Proof. unfold EqDecision, Decision. repeat decide equality. Defined.
Notation Db := (gmap Key Row).
Notation Tx := (Conn Row).

Definition users (username : string) : Key := ("local_users", username).
Definition devices (device_hash : string) : Key := ("oauth_device_codes", device_hash).
Definition challenges (challenge_hash : string) : Key := ("local_auth_challenges", challenge_hash).
Definition tokens (token_hash : string) : Key := ("local_tokens", token_hash).
Definition requests (request_hash : string) : Key := ("oidc_auth_requests", request_hash).
Definition clients (client_id : string) : Key := ("oauth_dynamic_clients", client_id).
(** CASE WHEN OCTET_LENGTH(v)<=n THEN v END *)
Definition capped (n : Z) (v : string) : option string := if (len v <=? n)%Z then Some v else None.

(** ** Checks on stored text (identity.rs, oidc_access_grant.rs) *)

Definition NUL : ascii := "000".
Definition safe_identity_segment (value : string) (cap : Z) : bool :=
  negb (is_empty value) && (len value <=? cap)%Z && (len value <=? 128)%Z
  && match value with String b _ => is_ascii_alphanumeric b | EmptyString => false end
  && all_bytes (λ b, is_ascii_alphanumeric b || existsb (Ascii.eqb b) ["."; "_"; "-"]%char) value.
Definition valid_identity_subject (value : string) (cap : Z) : bool :=
  negb (is_empty value) && (len value <=? cap)%Z && (len value <=? 512)%Z
  && str_eqb (trim value) value && negb (contains_byte NUL value).
Definition canonical_text (value : string) : bool :=
  negb (is_empty value) && str_eqb (trim value) value && negb (contains_byte NUL value).
Definition literal_identity (value : string) : bool :=
  negb (is_empty (trim value)) && negb (contains_byte NUL value).

(** ** Principals *)

Record LocalPrincipal := {
  lp_issuer : string;
  lp_subject : string;
  lp_username : string;
  lp_local_user_revision : Z;
  lp_name : string;
  lp_email : string;
  lp_organization : string;
  lp_teams : list string;
  lp_roles : list string;
}.
Record FederatedPrincipal := {
  fp_issuer : string;
  fp_subject : string;
  fp_username : string;
  fp_local_user_revision : Z;
  fp_name : string;
  fp_email : string;
  fp_organization : string;
  fp_teams : list string;
  fp_roles : list string;
  fp_roles_from_claim : bool;
  fp_role_claim_selector : option string;
}.
Inductive OidcPrincipal := Local (p : LocalPrincipal) | Federated (p : FederatedPrincipal).
Definition pr_issuer (p : OidcPrincipal) := match p with Local p => lp_issuer p | Federated p => fp_issuer p end.
Definition pr_subject (p : OidcPrincipal) := match p with Local p => lp_subject p | Federated p => fp_subject p end.
Definition pr_username (p : OidcPrincipal) := match p with Local p => lp_username p | Federated p => fp_username p end.
Definition pr_revision (p : OidcPrincipal) :=
  match p with Local p => lp_local_user_revision p | Federated p => fp_local_user_revision p end.
Definition pr_auth_method (p : OidcPrincipal) := match p with Local _ => "local-token" | Federated _ => "oidc" end.
Definition pr_name (p : OidcPrincipal) := match p with Local p => lp_name p | Federated p => fp_name p end.
Definition pr_email (p : OidcPrincipal) := match p with Local p => lp_email p | Federated p => fp_email p end.
Definition pr_organization (p : OidcPrincipal) :=
  match p with Local p => lp_organization p | Federated p => fp_organization p end.
Definition pr_teams (p : OidcPrincipal) := match p with Local p => lp_teams p | Federated p => fp_teams p end.
Definition pr_roles (p : OidcPrincipal) := match p with Local p => lp_roles p | Federated p => fp_roles p end.
Definition as_local (p : OidcPrincipal) : option LocalPrincipal :=
  match p with Local p => Some p | Federated _ => None end.
(** [values[..i].contains(v)] for no [i]. *)
Fixpoint distinct_names (seen values : list string) : bool :=
  match values with
  | [] => true
  | v :: values =>
      negb (is_empty v) && str_eqb (trim v) v && negb (existsb (str_eqb v) seen) && distinct_names (seen ++ [v]) values
  end.
Definition local_valid (p : LocalPrincipal) : bool :=
  str_eqb (lp_issuer p) "local" && valid_identity_subject (lp_subject p) 512 && (1 <=? lp_local_user_revision p)%Z
  && safe_identity_segment (lp_username p) 128
  && forallb (λ s, char_count s <=? 512)%Z [lp_name p; lp_email p; lp_organization p].
Definition federated_valid (p : FederatedPrincipal) : bool :=
  negb (str_eqb (fp_issuer p) "local") && canonical_text (fp_issuer p) && (fp_local_user_revision p =? 0)%Z
  && literal_identity (fp_subject p) && literal_identity (fp_username p)
  && forallb (λ s, negb (contains_byte NUL s)) [fp_name p; fp_email p; fp_organization p]
  && Bool.eqb (fp_roles_from_claim p) (match fp_role_claim_selector p with Some _ => true | None => false end)
  && is_none_or (fp_role_claim_selector p) (λ s, negb (is_empty s) && negb (contains_byte NUL s))
  && existsb (λ r, str_eqb r "user") (fp_roles p)
  && (fp_roles_from_claim p || bool_decide (fp_roles p = ["user"]))
  && forallb (λ r, safe_identity_segment r 128) (fp_roles p).
Definition pr_valid (p : OidcPrincipal) : bool :=
  match p with Local p => local_valid p | Federated p => federated_valid p end
  && distinct_names [] (pr_teams p) && distinct_names [] (pr_roles p)
  && forallb (λ r, negb (contains_byte NUL r) && (char_count r <=? 128)%Z) (pr_roles p).
(** [oauth_role_selector] of the upstream verifier: the claim that holds the
    roles of an issuer that may still log in. *)
Definition upstream_trust : Type := string → option (option string).
Definition current_trust (p : OidcPrincipal) (verifier : option upstream_trust) : bool :=
  match p with
  | Local _ => true
  | Federated p => is_some_and verifier (λ v, bool_decide (v (fp_issuer p) = Some (fp_role_claim_selector p)))
  end.
Definition initial_amr (p : OidcPrincipal) (amr : list string) : bool :=
  match p with
  | Local _ => bool_decide (amr = ["pwd"]) || bool_decide (amr = ["pwd"; "otp"])
  | Federated _ => bool_decide (amr = ["federated"])
  end.

(** ** The authorization policy (oidc_authorization.rs) *)

Record OidcAuthorizationLimits := { ol_json_bytes : Z; ol_parameter_bytes : Z }.
Record OidcAuthorizationPolicy := {
  op_cli_client_id : string;
  op_cli_redirect : string;
  op_api_audience : string;
  op_accepted_resources : list string;
  op_dynamic_registration : bool;
  op_ttl_micros : Z;
  op_limits : OidcAuthorizationLimits;
}.

(** [serde_json] on the values the flows store, and ORDER BY on text. *)
Class OidcLib := {
  json_string : string → option string;
  json_pair : string → string → option string;
  json_strings : list string → option string;
  strings_json : string → option (list string);
  json_principal : OidcPrincipal → option string;
  principal_json : string → option OidcPrincipal;   (* one whole object, every field once *)
  order_by : list string → list string;
}.

Section oidc.
Context `{OidcLib}.

Definition principal_parse (raw : string) : result OidcTokenExchangeError OidcPrincipal :=
  let! p := ok_or (principal_json raw) TX_MalformedStored in
  if negb (pr_valid p) then Err TX_MalformedStored else Ok p.

(** ** The current principal *)

Definition guard_original {E} `{!FromControl E} (original : Z) : M Tx E unit :=
  txn_clock (let? now := instant_now in if (original <=? now)%Z then fail CE_Deadline else ret tt).
Definition user_where (subject : string) : Key → Row → bool := λ k r,
  match r with RUser u => str_eqb k.1 "local_users" && str_eqb (us_subject u) subject | _ => false end.
(** The first occurrences of the trimmed names that are not empty. *)
Fixpoint trimmed_teams (seen : gset string) (values : list string) : list string :=
  match values with
  | [] => []
  | v :: values =>
      let v := trim v in
      if negb (is_empty v) && bool_decide (v ∉ seen) then v :: trimmed_teams ({[v]} ∪ seen) values
      else trimmed_teams seen values
  end.
Definition profile (value : string) : result OidcAuthorizationError string :=
  let! value := ok_or (capped 2048 value) OA_MalformedStored in
  if (512 <? char_count value)%Z then Err OA_MalformedStored else Ok value.
Definition bounded_json (cap : Z) (value : string) : result OidcAuthorizationError string :=
  if (cap <? len value)%Z then Err OA_ReadLimitExceeded else Ok value.
Definition user_principal (expected_subject expected_username : string) (expected_revision cap : Z) (username : string) (u : UserRow)
    : result OidcAuthorizationError LocalPrincipal :=
  let! username := ok_or (capped 128 username) OA_InvalidLogin in
  let! subject := ok_or (capped 512 (us_subject u)) OA_InvalidLogin in
  if negb (safe_identity_segment username 128) || negb (valid_identity_subject subject 512)
     || negb (str_eqb username expected_username) || negb (str_eqb subject expected_subject)
     || negb (us_revision u =? expected_revision)%Z || (us_revision u <? 1)%Z
     || negb (is_some_and (capped 16 (us_identity_kind u)) (str_eqb "human"))
     || negb (us_enabled u =? 1)%Z || negb (us_password_change_required u =? 0)%Z
  then Err OA_InvalidLogin else
  let! teams_json := bounded_json cap (us_teams_json u) in
  let! teams := ok_or (strings_json teams_json) OA_MalformedStored in
  let! name := profile (us_name u) in
  let! email := profile (us_email u) in
  let! organization := profile (us_organization u) in
  Ok {| lp_issuer := "local"; lp_subject := subject; lp_username := username; lp_local_user_revision := us_revision u;
        lp_name := name; lp_email := email; lp_organization := organization; lp_teams := trimmed_teams ∅ teams;
        lp_roles := [] |}.
(** The rows of ROLES. *)
Definition select_roles (subject : string) (limit : Z) : M Tx OidcAuthorizationError (list string) :=
  do? sql_await in λ c,
    (Ok (take (Z.to_nat limit) (order_by (elements (list_to_set ("user" :: omap (λ kv,
       match kv.2 with RRole r => if str_eqb (ro_subject r) subject then Some (ro_role r) else None | _ => None end)
       (map_to_list (view c))) : gset string)))), c).
Definition checked_add_i64 (a b : Z) : option Z := if (a + b <=? I64_MAX)%Z then Some (a + b)%Z else None.
Definition role_of_row (cap : Z) (acc : Z * list string) (role : string) : result OidcAuthorizationError (Z * list string) :=
  let '(encoded_bytes, roles) := acc in
  let! role := ok_or (capped 512 role) OA_MalformedStored in
  if is_empty role || negb (str_eqb (trim role) role) || (128 <? char_count role)%Z || contains_byte NUL role
  then Err OA_MalformedStored else
  let! encoded := ok_or (json_string role) OA_MalformedStored in
  let! encoded_bytes := ok_or (checked_add_i64 encoded_bytes (len encoded) ≫= λ n,
    checked_add_i64 n (if bool_decide (roles = []) then 0 else 1)) OA_ReadLimitExceeded in
  if (cap <? encoded_bytes)%Z then Err OA_ReadLimitExceeded else Ok (encoded_bytes, roles ++ [role]).
Definition current_principal (expected_subject expected_username : string) (expected_revision cap original : Z)
    : M Tx OidcAuthorizationError OidcPrincipal :=
  do? guard_original original in
  let? row := select_where_locked (user_where expected_subject) in
  let? (k, u) := lift_result (ok_or (row ≫= λ kv, match kv.2 with RUser u => Some (kv.1, u) | _ => None end) OA_InvalidLogin) in
  let? principal := lift_result (user_principal expected_subject expected_username expected_revision cap k.2 u) in
  let? rows := lift_result (ok_or (checked_add_i64 cap 1) OA_ReadLimitExceeded) in
  let? roles := select_roles ("local|" +:+ lp_subject principal) rows in
  let? (_, roles) := mfor (λ acc role,
    do? guard_original original in
    let? acc := lift_result (role_of_row cap acc role) in
    do? sql_await in ret acc) (2%Z, []) roles in
  ret (Local {| lp_issuer := lp_issuer principal; lp_subject := lp_subject principal; lp_username := lp_username principal;
                lp_local_user_revision := lp_local_user_revision principal; lp_name := lp_name principal;
                lp_email := lp_email principal; lp_organization := lp_organization principal; lp_teams := lp_teams principal;
                lp_roles := roles |}).

(** ** Stored tokens *)

Record TokenData := {
  td_principal : OidcPrincipal;
  td_oidc_subject : string;
  td_client_id : string;
  td_audience : string;
  td_resource : option string;
  td_principal_json : string;
  td_scopes_json : string;
  td_family : string;
  td_auth_time : Z;
  td_created_at : Z;
}.
Definition token_row (d : TokenData) (id kind : string) (expiry : Z) : TokenRow :=
  {| tk_token_id := id; tk_token_kind := kind; tk_subject := pr_subject (td_principal d); tk_oidc_subject := td_oidc_subject d;
     tk_principal_json := td_principal_json d; tk_client_id := td_client_id d; tk_audience := td_audience d;
     tk_resource := default "" (td_resource d); tk_scopes_json := td_scopes_json d;
     tk_local_user_revision := pr_revision (td_principal d); tk_family_id := td_family d; tk_auth_time := td_auth_time d;
     tk_expires_at := expiry; tk_revoked_at := None; tk_consumed_at := None; tk_last_used_at := None;
     tk_created_at := td_created_at d |}.
(** [token_id] is unique. *)
Definition token_id_is (id : string) : Key → Row → bool := λ _ r,
  match r with RToken t => str_eqb (tk_token_id t) id | _ => false end.
Definition insert_token (d : TokenData) (hash id kind : string) (expiry : Z) : M Tx OidcTokenExchangeError unit :=
  insert_row (tokens hash) (RToken (token_row d id kind expiry)) (token_id_is id).
(** pg_advisory_xact_lock: held until the transaction ends. *)
Definition advisory_lock {E} `{!FromControl E} (k : Key) : M Tx E unit :=
  do? sql_await in λ c, (Ok tt, with_locks c {[k]}).
Definition lock_pair_shared (subject client : string) (stop : Z) : M Tx ControlError unit :=
  do? guard_original stop in
  let? key := lift_result (ok_or (json_pair subject client) CE_Storage) in
  do? advisory_lock ("pg_advisory_xact_lock 4750302", key) in
  guard_original stop.
End oidc.

(** ** What reading does *)

Section effects.
Context `{OidcLib} (R : gset Key → Db → Db → Prop) `{!Rely R}.

Lemma rests_guard {E} `{!FromControl E} original : keeps (rests R) (guard_original (E:=E) original).
Proof. unfold guard_original. auto with broker. Qed.
#[local] Hint Extern 1 (keeps (rests _) (guard_original _)) => apply rests_guard : broker.
Lemma rests_select_roles subject limit : keeps (rests R) (select_roles subject limit).
Proof. apply keeps_bind; [apply _|auto with broker|]. intros _. by apply rests_here. Qed.
Lemma rests_current_principal subject username revision cap original :
  keeps (rests R) (current_principal subject username revision cap original).
Proof.
  unfold current_principal. apply keeps_bind; [apply _|auto with broker|]. intros _.
  apply keeps_bind; [apply _|auto with broker|]. intros row. apply keeps_bind; [apply _|auto with broker|].
  intros [k u]. apply keeps_bind; [apply _|auto with broker|]. intros p. apply keeps_bind; [apply _|auto with broker|].
  intros n. apply keeps_bind; [apply _|apply rests_select_roles|]. intros roles.
  apply keeps_bind; [apply _| |intros []; auto with broker]. apply keeps_mfor; [apply _|]. intros acc role. auto with broker.
Qed.
Lemma rests_advisory_lock {E} `{!FromControl E} k : keeps (rests R) (advisory_lock (E:=E) k).
Proof. apply keeps_bind; [apply _|auto with broker|]. intros _. apply rests_here. intros c. apply locks_rests, _. Qed.
#[local] Hint Extern 1 (keeps (rests _) (advisory_lock _)) => apply rests_advisory_lock : broker.
Lemma rests_lock_pair_shared subject client stop : keeps (rests R) (lock_pair_shared subject client stop).
Proof. unfold lock_pair_shared. auto 10 with broker. Qed.
Lemma inside_insert_token d hash id kind expiry : keeps (inside R) (insert_token d hash id kind expiry).
Proof. apply inside_insert_row, _. Qed.

Lemma capped_ok n v w : capped n v = Some w → w = v ∧ (len v ≤ n)%Z.
Proof. unfold capped. destruct (Z.leb_spec (len v) n); naive_solver. Qed.
(** A person who may act, with the name, the subject and the revision expected. *)
Lemma user_principal_ok subject username revision cap name u lp :
  user_principal subject username revision cap name u = Ok lp →
  name = username ∧ us_subject u = subject ∧ us_revision u = revision ∧ (1 ≤ revision)%Z ∧
  us_identity_kind u = "human" ∧ us_enabled u = 1%Z ∧ us_password_change_required u = 0%Z ∧
  lp_issuer lp = "local" ∧ lp_subject lp = subject ∧ lp_username lp = username ∧ lp_local_user_revision lp = revision ∧
  valid_identity_subject subject 512 = true.
Proof.
  unfold user_principal. intros Hu. invert_ok Hu. bool_to_prop.
  repeat match goal with Hc : capped _ _ = Some _ |- _ => apply capped_ok in Hc as [-> _] end.
  destruct (capped 16 (us_identity_kind u)) as [kind|] eqn:Ek; [|done]. apply capped_ok in Ek as [-> _]. cbn [is_some_and] in *.
  injection Hu as <-. simpl. repeat match goal with Hs : str_eqb _ _ = true |- _ => apply str_eqb_eq in Hs end.
  subst. naive_solver lia.
Qed.
(** Clock readings leave the database alone. *)
Definition same_db (c c' : Tx) : Prop := cn_db c' = cn_db c.
#[global] Instance same_db_preorder : PreOrder same_db.
Proof. split; [done|]. intros a b c. unfold same_db. congruence. Qed.
Lemma same_db_clock {E F A} (f : F → E) (m : M clock F A) : keeps same_db (txn_with f m).
Proof. intros c x c'. unfold txn_with. destruct (m (cn_clock c)). by intros [= _ <-]. Qed.
(** COMMIT and what follows it: nothing was done, or all that was written at
    once, and then only the rest can still fail. *)
Lemma commit_tail_clock {E A} `{!FromControl E} (k : M Tx E A) c x c' :
  (do? sql_commit in k) c = (x, c') → keeps same_db k →
  (∃ e, x = Err e) ∧ inside R c c' ∨
  ∃ c1, rests R c c1 ∧ cn_db c' = view c1 ∧
    ((∃ c2 c3, cn_clock c2 = cn_clock c1 ∧ k c2 = (x, c3)) ∨ x = Err (from_control CE_OutcomeUncertain)).
Proof.
  intros Hr Hk. apply bind_cases in Hr as [([] & c2 & Hc & Hr)|(e & Hc & ->)];
    apply (commit_run R) in Hc as (c3 & I3 & [[Hx ->]|[[= ->] [->| ->]]]); try done.
  - right. exists c3. split; [done|]. split; [by apply Hk in Hr|]. left. eexists _, _. by split; [|exact Hr].
  - right. exists c3. split; [done|]. split; [done|]. by right.
  - left. split; [by eexists|]. exact (re_inside _ _ _ I3).
Qed.
Lemma commit_tail {E A} `{!FromControl E} (k : M Tx E A) c x c' :
  (do? sql_commit in k) c = (x, c') → keeps same_db k →
  (∃ e, x = Err e) ∧ inside R c c' ∨
  ∃ c1, rests R c c1 ∧ cn_db c' = view c1 ∧ ((∃ c2 c3, k c2 = (x, c3)) ∨ x = Err (from_control CE_OutcomeUncertain)).
Proof.
  intros Hr Hk. apply commit_tail_clock in Hr as [?|(c1 & I & Hdb & Hx)]; [by left| |done]. right. exists c1.
  split; [done|]. split; [done|]. destruct Hx as [(c2 & c3 & _ & Hx)|?]; [left; by eauto|by right].
Qed.

(** A time the operation reads: what [now_micros] gives at some moment of its clock. *)
Definition read_at (c : Tx) (now : Z) : Prop := ∃ k k', clock_run (cn_clock c) k ∧ now_micros k = (Ok now, k').
Lemma read_at_inside (c c' : Tx) now : inside R c c' → read_at c' now → read_at c now.
Proof. intros Hi (k & k' & Hk & Hn). exists k, k'. split; [|done]. etrans; [exact (in_clock _ _ _ Hi)|done]. Qed.
Lemma read_at_now {E} `{!FromControl E} (c c1 c2 : Tx) now :
  txn_clock (E:=E) now_micros c1 = (Ok now, c2) → inside R c c1 → read_at c now.
Proof.
  unfold txn_clock, txn_with. intros Hn Hi. destruct (now_micros (cn_clock c1)) as [r k'] eqn:Ek. exists (cn_clock c1), k'.
  split; [exact (in_clock _ _ _ Hi)|]. destruct r; [|done]. simpl in Hn. by injection Hn as -> _.
Qed.
(** The outcome of an operation: an error with nothing changed, or the step [P]
    at one moment, and then its answer or an error that comes too late. *)
Definition atomically {E A} (late : E → Prop) (c : Tx) (x : result E A) (c' : Tx) (P : Db → result E A → Db → Prop) : Prop :=
  ∃ db, R ∅ (cn_db c) db ∧
    ((∃ e, x = Err e) ∧ cn_db c' = db ∨ ∃ r, P db r (cn_db c') ∧ (x = r ∨ ∃ e, x = Err e ∧ late e)).
Lemma atomically_nothing {E A} (late : E → Prop) (c c' : Tx) (x : result E A) e P :
  idle c → fair R c → x = Err e → inside R c c' → atomically late c x c' P.
Proof.
  intros [_ Hl] Hf -> Hi. exists (cn_db c'). split; [|by left; eauto]. rewrite <- Hl. by apply (in_env _ _ _ Hi).
Qed.
Lemma atomically_step {E A} (late : E → Prop) (c c1 c' : Tx) (x r : result E A) (P : Db → result E A → Db → Prop) :
  idle c → fair R c → inside R c c1 → cn_db c' = view c1 → P (cn_db c1) r (view c1) → (x = r ∨ ∃ e, x = Err e ∧ late e) →
  atomically late c x c' P.
Proof.
  intros [_ Hl] Hf Hi Hdb HP Hx. exists (cn_db c1). split; [rewrite <- Hl; by apply (in_env _ _ _ Hi)|]. right.
  exists r. by rewrite Hdb.
Qed.
(** The user whose principal it is: it stays as it is, and it is a person who may
    act, with the name and the revision expected. *)
Lemma current_principal_ok subject username revision cap original c p c' :
  current_principal subject username revision cap original c = (Ok p, c') → cn_writes c = ∅ →
  ∃ u lp, held c' (users username) (Some (RUser u)) ∧
    user_principal subject username revision cap username u = Ok lp ∧
    p = Local {| lp_issuer := lp_issuer lp; lp_subject := lp_subject lp; lp_username := lp_username lp;
                 lp_local_user_revision := lp_local_user_revision lp; lp_name := lp_name lp; lp_email := lp_email lp;
                 lp_organization := lp_organization lp; lp_teams := lp_teams lp; lp_roles := pr_roles p |}.
Proof.
  unfold current_principal. intros Hr Hw. apply (bind_rests R) in Hr; [|auto with broker].
  destruct Hr as [(? & c1 & _ & I1 & Hr)|(? & [=] & _)]. apply bind_ok in Hr as (row & c2 & Hs & Hr).
  apply bind_ok in Hr as ([k u] & c3 & Hl & Hr). apply lift_ok in Hl as [Hl ->]. apply ok_or_ok in Hl.
  destruct row as [[k' r]|]; [|done]. simpl in Hl. destruct r as [u'| | | | | | | |]; try done. injection Hl as -> ->.
  apply (select_where_locked_ok R) in Hs as (I2 & Hv & Hp & Hk).
  rewrite view_clean in Hv by (eapply clean_rests; [exact I2|]; by eapply clean_rests).
  apply bind_ok in Hr as (lp & c4 & Hl & Hr). apply lift_ok in Hl as [Hl ->].
  assert (k = users username ∧ user_principal subject username revision cap username u = Ok lp) as [-> Hu].
  { unfold user_where in Hp. apply andb_true_iff in Hp as [Hk1%str_eqb_eq _]. destruct k as [t n]. simpl in *. subst t.
    pose proof (user_principal_ok _ _ _ _ _ _ _ Hl) as (-> & _). done. }
  assert (held c2 (users username) (Some (RUser u))) as Hheld by (by split).
  apply bind_ok in Hr as (n & c5 & Hn & Hr). apply lift_ok in Hn as [_ ->].
  apply bind_ok in Hr as (roles & c6 & Hsel & Hr). apply rests_select_roles in Hsel as [Hsel _].
  apply bind_ok in Hr as ([n' roles'] & c7 & Hf & Hr). apply keeps_mfor with (R := rests R) in Hf as [Hf _];
    [|apply _|intros; auto with broker].
  apply ret_ok in Hr as [-> ->]. exists u, lp. split; [|done]. eapply held_inside; [exact Hf|]. by eapply held_inside.
Qed.
(** The principal a token is for may act: a person unchanged, or an issuer that
    is trusted as it was. *)
Definition acts_now (cap : Z) (upstream : option upstream_trust) (db : Db) (p : OidcPrincipal) : Prop :=
  match p with
  | Local lp => ∃ u lp', db !! users (lp_username lp) = Some (RUser u) ∧
      user_principal (lp_subject lp) (lp_username lp) (lp_local_user_revision lp) cap (lp_username lp) u = Ok lp'
  | Federated _ => current_trust p upstream = true
  end.
(** And it stays so until the transaction ends. *)
Definition holds_principal (cap : Z) (upstream : option upstream_trust) (c : Tx) (p : OidcPrincipal) : Prop :=
  match p with
  | Local lp => ∃ u lp', held c (users (lp_username lp)) (Some (RUser u)) ∧
      user_principal (lp_subject lp) (lp_username lp) (lp_local_user_revision lp) cap (lp_username lp) u = Ok lp'
  | Federated _ => current_trust p upstream = true
  end.
Lemma holds_principal_inside cap upstream c c' p :
  inside R c c' → holds_principal cap upstream c p → holds_principal cap upstream c' p.
Proof. intros Hi. destruct p as [lp|]; [|done]. intros (u & lp' & Hh & Hu). exists u, lp'. split; [by eapply held_inside|done]. Qed.
Lemma holds_principal_now cap upstream c c' p : inside R c c' → holds_principal cap upstream c p → acts_now cap upstream (cn_db c') p.
Proof. intros Hi. destruct p as [lp|]; [|done]. intros (u & lp' & Hh & Hu). exists u, lp'. by apply (held_inside R _ _ _ _ Hi) in Hh as [_ ?]. Qed.
Lemma holds_current lp cap upstream stop c p c' :
  current_principal (lp_subject lp) (lp_username lp) (lp_local_user_revision lp) cap stop c = (Ok p, c') → cn_writes c = ∅ →
  pr_subject p = lp_subject lp ∧ pr_revision p = lp_local_user_revision lp ∧ (1 ≤ lp_local_user_revision lp)%Z ∧ holds_principal cap upstream c' p.
Proof.
  intros Hr Hw. apply current_principal_ok in Hr as (u & lp' & Hh & Hup & ->); [|done].
  pose proof (user_principal_ok _ _ _ _ _ _ _ Hup) as (_ & _ & _ & Hge & _ & _ & _ & _ & Hs' & Hn' & Hr' & _).
  cbn. rewrite Hs', Hn', Hr'. eauto 10.
Qed.
End effects.
#[export] Hint Extern 1 (keeps (rests _) (guard_original _)) => apply rests_guard : broker.
#[export] Hint Extern 1 (keeps (rests _) (current_principal _ _ _ _ _)) => apply rests_current_principal : broker.
#[export] Hint Extern 1 (keeps (rests _) (lock_pair_shared _ _ _)) => apply rests_lock_pair_shared : broker.
#[export] Hint Extern 1 (keeps (rests _) (advisory_lock _)) => apply rests_advisory_lock : broker.
#[export] Hint Extern 1 (keeps (inside _) (insert_token _ _ _ _ _)) => apply inside_insert_token : broker.
#[export] Hint Extern 8 (keeps (inside _) _) => apply rests_inside : broker.
#[export] Hint Extern 1 (keeps same_db (txn_with _ _)) => apply same_db_clock : broker.
#[export] Hint Extern 1 (keeps same_db (txn_clock _)) => apply same_db_clock : broker.
#[export] Hint Extern 1 (keeps same_db (guard_original _)) => apply same_db_clock : broker.
