(* ===== verification/InstanceRegistry.v ===== *)
(** * The installation registry

    crates/broker-control/src/instance_registry.rs: canonical identifiers and
    the validated inventory an installation registers. *)

From S2P Require Import Prelude RustStr Order Control.

Inductive InstanceRegistryError :=
| IR_InvalidOwner | IR_InvalidInventory | IR_OwnerConflict | IR_MalformedStored
| IR_Control (e : ControlError).

Record InstanceOwner := { owner_issuer : string; owner_subject : string }.
#[global] Instance InstanceOwner_eq_dec : EqDecision InstanceOwner.
Proof. solve_decision. Defined.

Definition valid_owner_value (value : string) (characters : Z) : bool :=
  negb (is_empty value) && negb (contains_byte "000" value)
  && (Z.min (char_count value) (characters + 1) <=? characters)%Z.
Definition InstanceOwner_new (issuer subject : string) : result InstanceRegistryError InstanceOwner :=
  if negb (valid_owner_value issuer 1024) || negb (valid_owner_value subject 512)
  then Err IR_InvalidOwner
  else Ok {| owner_issuer := issuer; owner_subject := subject |}.

Section registry.
Context `{UlidLib}.

Definition canonical_project_id (value : string) : bool :=
  match ulid_from_string value with
  | None => false
  | Some id => negb (ulid_is_nil id) && str_eqb (ulid_to_string id) value
  end.
Definition canonical_version (value : string) : bool :=
  negb (is_empty value) && str_eqb (trim value) value && negb (has_control value).
Definition id_byte (b : ascii) : bool :=
  is_ascii_alphanumeric b || existsb (Ascii.eqb b) (bytes "._-").
Definition canonical_instance_id (value : string) : bool :=
  (1 <=? len value)%Z && (len value <=? 128)%Z
  && first_byte is_ascii_alphanumeric value && last_byte is_ascii_alphanumeric value
  && all_bytes id_byte value.

(** Available versions of one project, sorted. *)
Record InstanceProjectVersions := { ipv_project_id : string; ipv_versions : list string }.
Definition InstanceProjectVersions_new (project_id : string) (versions : list string)
    : result InstanceRegistryError InstanceProjectVersions :=
  if negb (canonical_project_id project_id) || bool_decide (length versions = 0)
     || (I64_MAX <? Z.of_nat (length versions))%Z
     || existsb (λ v, negb (canonical_version v)) versions
  then Err IR_InvalidInventory else
  let versions := sort versions in
  if adjacent_equal versions then Err IR_InvalidInventory
  else Ok {| ipv_project_id := project_id; ipv_versions := versions |}.

(** Complete replacement data for one installation; it may be empty. *)
Record InstanceInventory := { ii_instance_id : string; ii_projects : list InstanceProjectVersions }.
Definition InstanceInventory_new (instance_id : string) (projects : list InstanceProjectVersions)
    : result InstanceRegistryError InstanceInventory :=
  if negb (canonical_instance_id instance_id) then Err IR_InvalidInventory else
  let projects := sort_by ipv_project_id projects in
  if adjacent_equal (ipv_project_id <$> projects) then Err IR_InvalidInventory
  else Ok {| ii_instance_id := instance_id; ii_projects := projects |}.

(** ** Lemmas *)

Lemma InstanceProjectVersions_new_iff project_id versions r :
  InstanceProjectVersions_new project_id versions = Ok r ↔
  canonical_project_id project_id = true ∧ versions ≠ [] ∧
  (Z.of_nat (length versions) ≤ I64_MAX)%Z ∧
  (∀ v, v ∈ versions → canonical_version v = true) ∧ NoDup versions ∧
  ipv_project_id r = project_id ∧ StronglySorted lt_ord (ipv_versions r) ∧
  ∀ v, v ∈ ipv_versions r ↔ v ∈ versions.
Proof.
  unfold InstanceProjectVersions_new.
  destruct (_ || _)%bool eqn:Eb.
  { split; [done|]. intros (Hp & Hn & Hl & Hv & _). exfalso.
    rewrite Hp in Eb. simpl in Eb. apply orb_true_iff in Eb as [Eb|Eb].
    - apply orb_true_iff in Eb as [Eb|Eb]; bool_to_prop; [|lia]. by destruct versions.
    - apply existsb_elem in Eb as (v & Hin & Hb). by rewrite (Hv v Hin) in Hb. }
  bool_to_prop. destruct (adjacent_equal (sort versions)) eqn:Ea.
  { split; [done|]. intros (_ & _ & _ & _ & Hnd & _). exfalso.
    apply sort_nodup, adjacent_equal_sorted in Hnd; [congruence|apply sort_sorted]. }
  apply adjacent_equal_sorted in Ea; [|apply sort_sorted].
  split.
  - intros [= <-]. simpl. split; [done|]. split; [by intros ->|]. split; [lia|]. split.
    { intros v Hv. apply negb_false_iff, not_true_iff_false. intros Hb.
      select (existsb _ _ = false) (fun Hx => apply not_true_iff_false in Hx; apply Hx).
      apply existsb_elem. eauto. }
    split; [by apply sort_nodup|]. split; [done|]. split; [done|]. intros v. apply elem_of_sort.
  - intros (_ & _ & _ & _ & _ & <- & Hs & Hv). destruct r as [pid vs]. simpl in *. do 2 f_equal.
    apply SSorted_ext; [done..|]. intros v. by rewrite Hv, elem_of_sort.
Qed.
Lemma InstanceInventory_new_iff instance_id projects :
  (is_ok (InstanceInventory_new instance_id projects) = true ↔
     canonical_instance_id instance_id = true ∧ NoDup (ipv_project_id <$> projects)) ∧
  ∀ r, InstanceInventory_new instance_id projects = Ok r →
    ii_instance_id r = instance_id ∧ Permutation (ii_projects r) projects ∧
    StronglySorted lt_ord (ipv_project_id <$> ii_projects r).
Proof.
  unfold InstanceInventory_new. rewrite sort_by_keys.
  pose proof (adjacent_equal_sorted _ (sort_sorted (ipv_project_id <$> projects))) as Ha.
  rewrite sort_nodup in Ha.
  destruct (canonical_instance_id instance_id); simpl; [|naive_solver].
  destruct (adjacent_equal _) eqn:Ea; simpl; [naive_solver|].
  split; [naive_solver|]. intros r [= <-]. simpl. split; [done|]. split; [apply sort_by_perm|].
  rewrite sort_by_keys. apply sort_nodup. by apply Ha.
Qed.

(** The canonical form of a project's versions and of an inventory. *)
Definition project_wf (p : InstanceProjectVersions) : Prop :=
  canonical_project_id (ipv_project_id p) = true ∧ ipv_versions p ≠ [] ∧
  (Z.of_nat (length (ipv_versions p)) ≤ I64_MAX)%Z ∧
  (∀ v, v ∈ ipv_versions p → canonical_version v = true) ∧ StronglySorted lt_ord (ipv_versions p).
Definition inventory_wf (i : InstanceInventory) : Prop :=
  canonical_instance_id (ii_instance_id i) = true ∧ Forall project_wf (ii_projects i) ∧
  StronglySorted lt_ord (ipv_project_id <$> ii_projects i).
(** The constructors give canonical data, and leave canonical data as it is. *)
Lemma project_new_wf project_id versions p :
  InstanceProjectVersions_new project_id versions = Ok p → project_wf p.
Proof.
  intros (Hc & Hne & Hl & Hv & Hnd & <- & Hs & Hin)%InstanceProjectVersions_new_iff.
  assert (Permutation (ipv_versions p) versions) as Hp.
  { apply NoDup_Permutation; [by apply SSorted_NoDup|done..]. }
  split; [done|]. split; [intros He; rewrite He in Hp; by apply Permutation_nil_l in Hp|].
  split; [by rewrite Hp|]. split; [|done]. intros v. rewrite Hin. apply Hv.
Qed.
Lemma project_new_fixed p :
  project_wf p → InstanceProjectVersions_new (ipv_project_id p) (ipv_versions p) = Ok p.
Proof.
  intros (Hc & Hne & Hl & Hv & Hs). apply InstanceProjectVersions_new_iff.
  do 5 (split; [try done; by apply SSorted_NoDup|]). done.
Qed.
Lemma inventory_new_wf instance_id projects i :
  InstanceInventory_new instance_id projects = Ok i → Forall project_wf projects →
  inventory_wf i ∧ ii_instance_id i = instance_id ∧ Permutation (ii_projects i) projects.
Proof.
  intros Hi Hf. destruct (InstanceInventory_new_iff instance_id projects) as [Hok Hr].
  destruct (Hr i Hi) as (<- & Hp & Hs). rewrite Hi in Hok. destruct (proj1 Hok eq_refl) as [Hc _].
  split; [|done]. split; [done|]. split; [by rewrite Hp|done].
Qed.
Lemma inventory_new_fixed i :
  inventory_wf i → InstanceInventory_new (ii_instance_id i) (ii_projects i) = Ok i.
Proof.
  intros (Hc & Hf & Hs). unfold InstanceInventory_new. rewrite Hc. simpl.
  rewrite sort_by_fixed by done.
  destruct (adjacent_equal_sorted (ipv_project_id <$> ii_projects i)) as [_ Ha].
  { by apply SSorted_le. }
  rewrite (Ha Hs). by destruct i.
Qed.

End registry.

(** The [ulid] crate on one identifier, for the examples. *)
Definition sample_project : string := "01ARZ3NDEKTSV4RRFFQ69G5FAV".
Definition sample_ulid_lib : UlidLib :=
  {| ulid := string; ulid_from_string := λ s, if (len s =? 26)%Z then Some s else None;
     ulid_is_nil := λ s, str_eqb s "00000000000000000000000000"; ulid_to_string := λ s, s |}.
Example canonical_examples :
  @canonical_project_id sample_ulid_lib sample_project = true ∧
  @canonical_project_id sample_ulid_lib "friendly" = false ∧
  canonical_instance_id "Station._-1" = true ∧ canonical_instance_id "_x" = false ∧
  canonical_version "feature/topic" = true ∧ canonical_version " main" = false.
Proof. repeat split. Qed.
