(* ===== verification/ResourceGrants.v ===== *)
(** * Resource grants

    crates/broker-control/src/resource_grants.rs: the codec of the stored grant
    rules.  A snapshot is accepted only in its canonical order. *)

From S2P Require Import Prelude RustStr Order Control.

Inductive ResourceGrantReadError :=
| RG_InvalidLimits | RG_ReadLimitExceeded | RG_MalformedStored | RG_Control (e : ControlError).
#[global] Instance ResourceGrantReadError_eq_dec : EqDecision ResourceGrantReadError.
Proof. solve_decision. Defined.

Record ResourceGrantRule := {
  gr_id : string;
  gr_name : string;
  gr_access_kind : string;
  gr_principal : string;
  gr_s3_route : string;
  gr_capabilities : list string;
  gr_projects : list string;
  gr_s3_operations : list string;
  gr_s3_prefixes : list string;
  gr_created_at : Z;
  gr_updated_at : Z;
}.
Record ResourceGrantSnapshot := {
  gs_revision : Z;
  gs_updated_at : Z;
  gs_rules : list ResourceGrantRule;
}.
(** The JSON form of a rule: the times are still unchecked [i64]s. *)
Record StoredRule := {
  sr_id : string;
  sr_name : string;
  sr_access_kind : string;
  sr_principal : string;
  sr_s3_route : string;
  sr_capabilities : list string;
  sr_projects : list string;
  sr_s3_operations : list string;
  sr_s3_prefixes : list string;
  sr_created_at : Z;
  sr_updated_at : Z;
}.

Fixpoint ordered_from (previous : option string) (values : list string)
    : result ResourceGrantReadError unit :=
  match values with
  | [] => Ok tt
  | value :: values =>
      if match previous with Some p => str_geb p value | None => false end
      then Err RG_MalformedStored
      else ordered_from (Some value) values
  end.
Definition ordered (values : list string) : result ResourceGrantReadError unit :=
  ordered_from None values.

Definition decode_rule (r : StoredRule) : result ResourceGrantReadError ResourceGrantRule :=
  do! ordered (sr_capabilities r) in
  do! ordered (sr_projects r) in
  do! ordered (sr_s3_operations r) in
  do! ordered (sr_s3_prefixes r) in
  let! created_at := ok_or (TimestampMicros_new (sr_created_at r)) RG_MalformedStored in
  let! updated_at := ok_or (TimestampMicros_new (sr_updated_at r)) RG_MalformedStored in
  Ok {| gr_id := sr_id r; gr_name := sr_name r; gr_access_kind := sr_access_kind r;
        gr_principal := sr_principal r; gr_s3_route := sr_s3_route r;
        gr_capabilities := sr_capabilities r; gr_projects := sr_projects r;
        gr_s3_operations := sr_s3_operations r; gr_s3_prefixes := sr_s3_prefixes r;
        gr_created_at := created_at; gr_updated_at := updated_at |}.

Section decode.
(** [serde_json::from_str::<Vec<StoredRule>>]. *)
Context (from_str : string → option (list StoredRule)).

Definition decode_snapshot (revision updated_at : Z) (json : string)
    : result ResourceGrantReadError ResourceGrantSnapshot :=
  if (revision <? 1)%Z then Err RG_MalformedStored else
  let! updated_at := ok_or (TimestampMicros_new updated_at) RG_MalformedStored in
  let! stored := ok_or (from_str json) RG_MalformedStored in
  do! ordered (sr_id <$> stored) in
  let! rules := rcollect decode_rule stored in
  Ok {| gs_revision := revision; gs_updated_at := updated_at; gs_rules := rules |}.

(** ** Lemmas *)

Lemma ordered_from_ok p values :
  ordered_from p values = Ok tt ↔
  StronglySorted lt_ord values ∧
  match p with Some p => Forall (lt_ord p) values | None => True end.
Proof.
  revert p. induction values as [|v values IH]; intros p; simpl.
  { split; [|done]. intros _. split; [constructor|by destruct p]. }
  assert (∀ a b, str_geb a b = false ↔ lt_ord a b) as Hge.
  { intros a b. unfold str_geb, str_ltb, lt_ord. simpl. by destruct (str_cmp a b). }
  destruct p as [p|].
  - destruct (str_geb p v) eqn:E.
    + split; [done|]. intros [_ Hf]. apply Forall_cons in Hf as [Hf _].
      apply Hge in Hf. congruence.
    + apply Hge in E. rewrite IH. split.
      * intros [Hs Hf]. split; [by constructor|]. constructor; [done|].
        eapply Forall_impl; [exact Hf|]. intros x ?. by etrans.
      * intros [Hs _]. by inversion Hs.
  - rewrite IH. split.
    + intros [Hs Hf]. split; [by constructor|done].
    + intros [Hs _]. by inversion Hs.
Qed.
Lemma ordered_ok values : ordered values = Ok tt ↔ StronglySorted lt_ord values.
Proof. unfold ordered. rewrite ordered_from_ok. naive_solver. Qed.

(** The canonical form of a rule: each of its lists strictly increasing. *)
Definition rule_canonical (r : ResourceGrantRule) : Prop :=
  StronglySorted lt_ord (gr_capabilities r) ∧ StronglySorted lt_ord (gr_projects r) ∧
  StronglySorted lt_ord (gr_s3_operations r) ∧ StronglySorted lt_ord (gr_s3_prefixes r) ∧
  (0 ≤ gr_created_at r)%Z ∧ (0 ≤ gr_updated_at r)%Z.
(** The JSON form of a rule. *)
Definition encode_rule (r : ResourceGrantRule) : StoredRule :=
  {| sr_id := gr_id r; sr_name := gr_name r; sr_access_kind := gr_access_kind r;
     sr_principal := gr_principal r; sr_s3_route := gr_s3_route r;
     sr_capabilities := gr_capabilities r; sr_projects := gr_projects r;
     sr_s3_operations := gr_s3_operations r; sr_s3_prefixes := gr_s3_prefixes r;
     sr_created_at := gr_created_at r; sr_updated_at := gr_updated_at r |}.

Lemma decode_rule_ok r g : decode_rule r = Ok g ↔ r = encode_rule g ∧ rule_canonical g.
Proof.
  unfold decode_rule, rule_canonical. split.
  - rewrite !rbind_ok. intros ([] & H1%ordered_ok & H).
    rewrite rbind_ok in H. destruct H as ([] & H2%ordered_ok & H).
    rewrite rbind_ok in H. destruct H as ([] & H3%ordered_ok & H).
    rewrite rbind_ok in H. destruct H as ([] & H4%ordered_ok & H).
    rewrite rbind_ok in H. destruct H as (c & Hc%ok_or_ok & H).
    rewrite rbind_ok in H. destruct H as (u & Hu%ok_or_ok & [= <-]).
    apply TimestampMicros_new_Some in Hc as [-> ?], Hu as [-> ?]. by destruct r.
  - intros [-> (H1%ordered_ok & H2%ordered_ok & H3%ordered_ok & H4%ordered_ok & Hc & Hu)].
    simpl. rewrite H1, H2, H3, H4. simpl.
    rewrite (proj2 (TimestampMicros_new_Some _ (gr_created_at g))) by done. simpl.
    rewrite (proj2 (TimestampMicros_new_Some _ (gr_updated_at g))) by done. simpl. by destruct g.
Qed.

(** ** Properties *)

(** Decoding inverts encoding on exactly the canonical snapshots: the codec
    accepts a stored snapshot iff its revision is positive, its times are not
    negative and its rules and their lists are strictly increasing, and then
    every field of every rule is preserved. *)
Theorem decode_snapshot_canonical revision updated_at json s :
  decode_snapshot revision updated_at json = Ok s ↔
  (1 ≤ revision)%Z ∧ (0 ≤ updated_at)%Z ∧
  gs_revision s = revision ∧ gs_updated_at s = updated_at ∧
  from_str json = Some (encode_rule <$> gs_rules s) ∧
  StronglySorted lt_ord (gr_id <$> gs_rules s) ∧ Forall rule_canonical (gs_rules s).
Proof.
  assert (∀ rs : list ResourceGrantRule, sr_id <$> (encode_rule <$> rs) = gr_id <$> rs) as Hid.
  { intros rs. by rewrite <- list_fmap_compose. }
  assert (∀ stored rs, rcollect decode_rule stored = Ok rs ↔
            stored = encode_rule <$> rs ∧ Forall rule_canonical rs) as Hrc.
  { intros stored rs. rewrite rcollect_ok. split.
    - induction 1 as [|x y l l' [-> Hy]%decode_rule_ok _ [-> IH]]; [done|].
      split; [done|by constructor].
    - intros [-> Hf]. induction Hf; simpl; constructor; [by apply decode_rule_ok|done]. }
  unfold decode_snapshot. split.
  - destruct (Z.ltb_spec revision 1) as [|Hrev]; [done|]. rewrite rbind_ok.
    intros (t & [-> Ht]%ok_or_ok%TimestampMicros_new_Some & H).
    rewrite rbind_ok in H. destruct H as (stored & Hs%ok_or_ok & H).
    rewrite rbind_ok in H. destruct H as ([] & Ho%ordered_ok & H).
    rewrite rbind_ok in H. destruct H as (rs & [-> Hf]%Hrc & [= <-]).
    rewrite Hid in Ho. simpl. done.
  - intros (Hr & Hu & <- & <- & Hj & Ho & Hf).
    destruct (Z.ltb_spec (gs_revision s) 1); [lia|].
    rewrite (proj2 (TimestampMicros_new_Some _ (gs_updated_at s))) by done. simpl. rewrite Hj. simpl.
    rewrite Hid, (proj2 (ordered_ok _) Ho). simpl.
    rewrite (proj2 (Hrc _ (gs_rules s))) by done. simpl. by destruct s.
Qed.
End decode.
