(* ===== verification/Session.v ===== *)
(** * Administrative sessions

    crates/broker-control/src/session.rs: the limits, the validation and the
    canonical form of session metadata, and the codec of the stored row. *)

From S2P Require Import Prelude RustStr Order Control.

(** ** Data *)

Record SessionLimits := {
  sl_text_bytes : Z;
  sl_csrf_bytes : Z;
  sl_team_bytes : Z;
  sl_role_bytes : Z;
  sl_max_teams : Z;
  sl_max_roles : Z;
  sl_teams_json_bytes : Z;
  sl_roles_json_bytes : Z;
  sl_max_lifetime : Z; (* a Duration, in nanoseconds *)
}.
Record SessionProfile := { sp_subject : string; sp_name : string; sp_email : string }.
Record SessionPrincipal := {
  spr_issuer : string;
  spr_username : string;
  spr_organization : string;
  spr_teams : list string;
  spr_local_user_revision : Z;
}.
Record SessionClaimRoles := { cr_selector : string; cr_roles : list string }.
Record NewAdminSession := {
  ns_profile : SessionProfile;
  ns_principal : SessionPrincipal;
  ns_csrf_token : string;
  ns_claimed_roles : option SessionClaimRoles;
  ns_expires_at : Z; (* a SystemTime *)
}.
Record SessionJson := { sj_teams : string; sj_roles : option string }.
Record AdminSession := {
  as_profile : SessionProfile;
  as_principal : SessionPrincipal;
  as_csrf_token : string;
  as_claimed_roles : option SessionClaimRoles;
  as_created_at : Z;
  as_expires_at : Z;
}.
Definition set_teams (p : SessionPrincipal) (teams : list string) : SessionPrincipal :=
  {| spr_issuer := spr_issuer p; spr_username := spr_username p;
     spr_organization := spr_organization p; spr_teams := teams;
     spr_local_user_revision := spr_local_user_revision p |}.

(** The [serde_json] crate on arrays of strings: the buffers the serializer
    writes, and the parser. *)
Class JsonArrayLib := {
  json_chunks : list string → list string;
  json_parse : string → option (list string);
}.
(** Parsing the serialized text of an array gives the array back. *)
Class JsonArrayLaws (J : JsonArrayLib) : Prop := {
  json_round_trip : ∀ l, json_parse (foldr String.append "" (json_chunks l)) = Some l;
}.

(** ** Limits *)

Definition SIZE_OF_STRING : Z := 24.
Definition lifetime_micros (l : SessionLimits) : result ControlError Z :=
  let micros := (sl_max_lifetime l / 1000)%Z in
  if (I64_MAX <? micros)%Z then Err CE_Configuration else
  if (micros =? 0)%Z then Err CE_Configuration else Ok micros.

Definition upper_bound (count bytes : Z) : option Z :=
  checked_mul_usize bytes 6 ≫= λ v, checked_add_usize v 3 ≫= λ v,
  checked_mul_usize v count ≫= λ v, checked_add_usize v 2.

Definition SessionLimits_validate (l : SessionLimits) : result ControlError unit :=
  let caps := [sl_text_bytes l; sl_csrf_bytes l; sl_team_bytes l; sl_role_bytes l;
               sl_max_teams l; sl_max_roles l; sl_teams_json_bytes l; sl_roles_json_bytes l] in
  if existsb (λ cap, (ISIZE_MAX <? cap)%Z || (I64_MAX <? cap)%Z) caps
  then Err CE_Configuration else
  do! rcollect (λ count,
        let! allocation := ok_or (checked_mul_usize count SIZE_OF_STRING) CE_Configuration in
        if (ISIZE_MAX <? allocation)%Z then Err CE_Configuration else Ok tt)
      [sl_max_teams l; sl_max_roles l] in
  do! rcollect (λ '(count, bytes),
        let! upper := ok_or (upper_bound count bytes) CE_Configuration in
        if (ISIZE_MAX <? upper)%Z then Err CE_Configuration else Ok tt)
      [(sl_max_teams l, sl_team_bytes l); (sl_max_roles l, sl_role_bytes l)] in
  do! lifetime_micros l in
  Ok tt.

(** ** Validation *)

Definition positive_expiry (time : Z) : result ControlError Z :=
  let! micros := ok_or (TimestampMicros_try_from time) CE_InvalidSession in
  if (micros =? 0)%Z then Err CE_InvalidSession else Ok micros.

Definition text (value : string) (max_bytes chars : Z) (required : bool) : result ControlError unit :=
  if (required && is_empty value) || (max_bytes <? len value)%Z
     || contains_byte "000" value || (chars <? char_count value)%Z
  then Err CE_InvalidSession else Ok tt.

Fixpoint text_all (values : list string) (max_bytes chars : Z) : result ControlError unit :=
  match values with
  | [] => Ok tt
  | value :: values => do! text value max_bytes chars false in text_all values max_bytes chars
  end.
Definition text_list (values : list string) (count max_bytes : Z) (chars : option Z)
    : result ControlError unit :=
  if (count <? Z.of_nat (length values))%Z then Err CE_InvalidSession else
  text_all values max_bytes (default USIZE_MAX chars).

Definition validate_raw (profile : SessionProfile) (principal : SessionPrincipal) (csrf : string)
    (claims : option SessionClaimRoles) (l : SessionLimits) : result ControlError unit :=
  do! text (sp_subject profile) (sl_text_bytes l) 512 true in
  do! text_all [sp_name profile; sp_email profile; spr_username principal; spr_organization principal]
        (sl_text_bytes l) 512 in
  do! text (spr_issuer principal) (sl_text_bytes l) 1024 true in
  do! text csrf (sl_csrf_bytes l) 128 true in
  if (spr_local_user_revision principal <? 0)%Z then Err CE_InvalidSession else
  do! text_list (spr_teams principal) (sl_max_teams l) (sl_team_bytes l) None in
  match claims with
  | Some claims =>
      do! text (cr_selector claims) (sl_text_bytes l) 4096 true in
      do! text_list (cr_roles claims) (sl_max_roles l) (sl_role_bytes l) None in
      Ok tt
  | None => Ok tt
  end.

Definition canonicalize (values : list string) : list string :=
  let values := (λ value, if negb (str_eqb (trim value) value) then trim value else value) <$> values in
  let values := List.filter (λ v, negb (is_empty v)) values in
  dedup (sort values).
Definition canonical (values : list string) : bool :=
  forallb (λ v, negb (is_empty v) && str_eqb (trim v) v) values && strictly_increasing values.
Definition validate_canonical (principal : SessionPrincipal) (claims : option SessionClaimRoles)
    : result ControlError unit :=
  if negb (canonical (spr_teams principal)) then Err CE_InvalidSession else
  match claims with
  | Some claims =>
      if is_empty (cr_selector claims) || negb (canonical (cr_roles claims))
         || existsb (λ v, (128 <? char_count v)%Z) (cr_roles claims)
      then Err CE_InvalidSession else Ok tt
  | None => Ok tt
  end.

Section codec.
Context `{JsonArrayLib}.

(** [JsonWriter::write]: a buffer that does not fit in the remaining room is
    refused; memory is taken to be available. *)
Definition json_write (cap : Z) (written buf : string) : option string :=
  if (Z.max 0 (cap - len written) <? len buf)%Z then None else Some (written +:+ buf).
Fixpoint json_write_all (cap : Z) (written : string) (chunks : list string) : option string :=
  match chunks with
  | [] => Some written
  | buf :: chunks => json_write cap written buf ≫= λ written, json_write_all cap written chunks
  end.
Definition bounded_json (values : list string) (cap : Z) : result ControlError string :=
  ok_or (json_write_all cap "" (json_chunks values)) CE_InvalidSession.
Definition parse_array (json : string) (cap : Z) : result ControlError (list string) :=
  if (cap <? len json)%Z then Err CE_InvalidSession else ok_or (json_parse json) CE_InvalidSession.

(** [Option::map(f).transpose()] *)
Definition traverse {A B} (f : A → result ControlError B) (o : option A)
    : result ControlError (option B) :=
  match o with None => Ok None | Some a => rmap Some (f a) end.

Definition NewAdminSession_validate (s : NewAdminSession) (l : SessionLimits)
    : result ControlError SessionJson :=
  do! SessionLimits_validate l in
  do! validate_raw (ns_profile s) (ns_principal s) (ns_csrf_token s) (ns_claimed_roles s) l in
  do! positive_expiry (ns_expires_at s) in
  do! validate_canonical (ns_principal s) (ns_claimed_roles s) in
  let! teams := bounded_json (spr_teams (ns_principal s)) (sl_teams_json_bytes l) in
  let! roles := traverse (λ v, bounded_json (cr_roles v) (sl_roles_json_bytes l)) (ns_claimed_roles s) in
  Ok {| sj_teams := teams; sj_roles := roles |}.

Definition NewAdminSession_new (profile : SessionProfile) (principal : SessionPrincipal)
    (csrf_token : string) (claimed_roles : option SessionClaimRoles) (expires_at : Z)
    (l : SessionLimits) : result ControlError NewAdminSession :=
  do! SessionLimits_validate l in
  do! validate_raw profile principal csrf_token claimed_roles l in
  do! positive_expiry expires_at in
  let principal := set_teams principal (canonicalize (spr_teams principal)) in
  let claimed_roles := (λ claims, {| cr_selector := cr_selector claims;
                                     cr_roles := canonicalize (cr_roles claims) |}) <$> claimed_roles in
  let result :=
    {| ns_profile := profile; ns_principal := principal; ns_csrf_token := csrf_token;
       ns_claimed_roles := claimed_roles; ns_expires_at := expires_at |} in
  do! NewAdminSession_validate result l in
  Ok result.

Definition stored_decode (profile : SessionProfile) (principal : SessionPrincipal) (csrf : string)
    (claims : option (string * string)) (teams : string) (created expiry : Z) (l : SessionLimits)
    : result ControlError AdminSession :=
  if (created <? 0)%Z || (expiry <=? created)%Z then Err CE_InvalidSession else
  let! lifetime := lifetime_micros l in
  if (lifetime <? expiry - created)%Z then Err CE_InvalidSession else
  let! teams := parse_array teams (sl_teams_json_bytes l) in
  let principal := set_teams principal teams in
  let! claimed_roles :=
    traverse (λ '(selector, roles),
      let! roles := parse_array roles (sl_roles_json_bytes l) in
      Ok {| cr_selector := selector; cr_roles := roles |}) claims in
  do! validate_raw profile principal csrf claimed_roles l in
  do! validate_canonical principal claimed_roles in
  let! created_at := ok_or (TimestampMicros_new created) CE_InvalidSession in
  let! expires_at := ok_or (TimestampMicros_new expiry) CE_InvalidSession in
  Ok {| as_profile := profile; as_principal := principal; as_csrf_token := csrf;
        as_claimed_roles := claimed_roles; as_created_at := created_at; as_expires_at := expires_at |}.
Definition AdminSession_stored (profile : SessionProfile) (principal : SessionPrincipal)
    (csrf : string) (claims : option (string * string)) (teams : string) (times : Z * Z)
    (l : SessionLimits) : result ControlError AdminSession :=
  let (created, expiry) := times in
  rmap_err (λ _, CE_CorruptSession) (stored_decode profile principal csrf claims teams created expiry l).
End codec.

(** ** Lemmas *)

Lemma canonicalize_normalize values : canonicalize values = normalize values.
Proof.
  unfold canonicalize, normalize. do 3 f_equal. apply list_fmap_ext. intros _ v _.
  by destruct (str_eqb (trim v) v).
Qed.
Lemma canonical_spec values :
  canonical values = true ↔
  StronglySorted lt_ord values ∧ ∀ v, v ∈ values → v ≠ "" ∧ trim v = v.
Proof.
  unfold canonical. rewrite andb_true_iff, strictly_increasing_spec, forallb_elem.
  setoid_rewrite andb_true_iff. setoid_rewrite negb_true_iff.
  setoid_rewrite <- not_true_iff_false. setoid_rewrite is_empty_eq. setoid_rewrite str_eqb_eq. tauto.
Qed.
Lemma canonicalize_canonical values : canonical (canonicalize values) = true.
Proof.
  rewrite canonicalize_normalize. apply canonical_spec. split; [apply normalize_sorted|].
  intros v (Hne & w & _ & ->)%elem_of_normalize. split; [done|apply trim_idemp].
Qed.
Lemma elem_of_canonicalize v values :
  v ∈ canonicalize values ↔ v ≠ "" ∧ ∃ w, w ∈ values ∧ v = trim w.
Proof. rewrite canonicalize_normalize. apply elem_of_normalize. Qed.
(** Canonicalizing a canonical list changes nothing. *)
Lemma canonicalize_fix values : canonical values = true → canonicalize values = values.
Proof.
  intros [Hs Hv]%canonical_spec. apply SSorted_ext; [|done|].
  - rewrite canonicalize_normalize. apply normalize_sorted.
  - intros v. rewrite elem_of_canonicalize. split.
    + intros (_ & w & Hw & ->). by destruct (Hv w Hw) as [_ ->].
    + intros Hin. destruct (Hv v Hin). split; [done|]. by exists v.
Qed.

Lemma json_write_all_Some cap written chunks out :
  json_write_all cap written chunks = Some out →
  out = written +:+ foldr String.append "" chunks ∧
  (len written ≤ cap → len out ≤ cap)%Z.
Proof.
  revert written. induction chunks as [|buf chunks IH]; intros written; simpl.
  { intros [= <-]. split; [|done]. apply bytes_inj. by rewrite bytes_app, app_nil_r. }
  unfold json_write. destruct (Z.ltb_spec (Z.max 0 (cap - len written)) (len buf)) as [|Hle]; [done|].
  simpl. intros [-> Hlen]%IH. rewrite str_app_assoc. split; [done|].
  intros Hw. rewrite str_app_assoc in Hlen. apply Hlen. rewrite len_app. lia.
Qed.

Section codec_lemmas.
Context `{JsonArrayLib, !JsonArrayLaws _}.

Lemma parse_bounded values cap json :
  (0 ≤ cap)%Z → bounded_json values cap = Ok json → parse_array json cap = Ok values.
Proof.
  unfold bounded_json, parse_array. intros Hcap H1%ok_or_ok.
  apply json_write_all_Some in H1 as [-> Hlen].
  assert (∀ s, "" +:+ s = s) as He by done. rewrite He in *.
  destruct (Z.ltb_spec cap (len (foldr String.append "" (json_chunks values)))) as [Hgt|].
  - specialize (Hlen ltac:(done)). lia.
  - by rewrite json_round_trip.
Qed.
Lemma traverse_ok {A B} (f : A → result ControlError B) o r :
  traverse f o = Ok r ↔
  match o with None => r = None | Some a => ∃ b, f a = Ok b ∧ r = Some b end.
Proof. destruct o as [a|]; simpl; [|naive_solver]. destruct (f a); simpl; naive_solver. Qed.

(** The caps are [NonZeroUsize]s. *)
Definition caps_nonzero (l : SessionLimits) : Prop :=
  (0 < sl_teams_json_bytes l)%Z ∧ (0 < sl_roles_json_bytes l)%Z.
(** The columns a validated session is stored in. *)
Definition stored_claims (s : NewAdminSession) (json : SessionJson) : option (string * string) :=
  match ns_claimed_roles s, sj_roles json with
  | Some claims, Some roles => Some (cr_selector claims, roles)
  | _, _ => None
  end.

Lemma parse_stored_claims (s : NewAdminSession) l roles json_teams :
  caps_nonzero l →
  traverse (λ v, bounded_json (cr_roles v) (sl_roles_json_bytes l)) (ns_claimed_roles s) = Ok roles →
  traverse (λ '(selector, roles),
    let! roles := parse_array roles (sl_roles_json_bytes l) in
    Ok {| cr_selector := selector; cr_roles := roles |})
    (stored_claims s {| sj_teams := json_teams; sj_roles := roles |}) = Ok (ns_claimed_roles s).
Proof.
  intros [_ Hcap] Hr. apply traverse_ok in Hr. unfold stored_claims.
  destruct (ns_claimed_roles s) as [[selector rs]|]; [|by subst].
  destruct Hr as (j & Hj & ->). simpl in *. rewrite (parse_bounded rs _ j); [done|lia|done].
Qed.

Lemma NewAdminSession_new_ok profile principal csrf claims expires_at l s :
  NewAdminSession_new profile principal csrf claims expires_at l = Ok s →
  ns_profile s = profile ∧ ns_csrf_token s = csrf ∧ ns_expires_at s = expires_at ∧
  ns_principal s = set_teams principal (canonicalize (spr_teams principal)) ∧
  ns_claimed_roles s = (λ c, {| cr_selector := cr_selector c;
                                cr_roles := canonicalize (cr_roles c) |}) <$> claims ∧
  ∃ json, NewAdminSession_validate s l = Ok json.
Proof.
  unfold NewAdminSession_new. intros Hn. invert_ok Hn. injection Hn as <-. simpl. by eauto 10.
Qed.

(** The stored row of a validated session decodes to that session. *)
Lemma stored_validated s l json created expiry lifetime :
  caps_nonzero l → NewAdminSession_validate s l = Ok json →
  (0 ≤ created < expiry)%Z → lifetime_micros l = Ok lifetime → (expiry - created ≤ lifetime)%Z →
  AdminSession_stored (ns_profile s) (set_teams (ns_principal s) []) (ns_csrf_token s)
    (stored_claims s json) (sj_teams json) (created, expiry) l =
  Ok {| as_profile := ns_profile s; as_principal := ns_principal s;
        as_csrf_token := ns_csrf_token s; as_claimed_roles := ns_claimed_roles s;
        as_created_at := created; as_expires_at := expiry |}.
Proof.
  intros Hcaps Hv Ht Hl Hd. unfold NewAdminSession_validate in Hv. invert_ok Hv.
  injection Hv as <-. unfold AdminSession_stored, stored_decode. simpl.
  destruct (Z.ltb_spec created 0); [lia|]. destruct (Z.leb_spec expiry created); [lia|]. simpl.
  rewrite Hl. simpl. destruct (Z.ltb_spec lifetime (expiry - created)); [lia|].
  rewrite (parse_bounded (spr_teams (ns_principal s)) _ a3); [|by destruct Hcaps; lia|done]. simpl.
  rewrite (parse_stored_claims s l a4 a3); [|done..]. simpl.
  assert (set_teams (set_teams (ns_principal s) []) (spr_teams (ns_principal s)) = ns_principal s)
    as -> by (by destruct (ns_principal s)).
  rewrite R0. simpl. rewrite R2. simpl.
  unfold TimestampMicros_new. destruct (Z.ltb_spec created 0); [lia|].
  destruct (Z.ltb_spec expiry 0); [lia|]. done.
Qed.

(** A session that is accepted for storage is read back unchanged: the row
    written for it decodes, within the configured lifetime, to the profile, the
    token and the expiry given, with the teams and the claimed roles trimmed,
    sorted and without duplicates. *)
Theorem session_round_trip profile principal csrf claims expires_at l s :
  caps_nonzero l →
  NewAdminSession_new profile principal csrf claims expires_at l = Ok s →
  ∃ json lifetime,
    NewAdminSession_validate s l = Ok json ∧ lifetime_micros l = Ok lifetime ∧
    ∀ created expiry,
      (0 ≤ created < expiry)%Z → (expiry - created ≤ lifetime)%Z →
      AdminSession_stored profile (set_teams principal []) csrf (stored_claims s json)
        (sj_teams json) (created, expiry) l =
      Ok {| as_profile := profile;
            as_principal := set_teams principal (canonicalize (spr_teams principal));
            as_csrf_token := csrf;
            as_claimed_roles := (λ c, {| cr_selector := cr_selector c;
                                         cr_roles := canonicalize (cr_roles c) |}) <$> claims;
            as_created_at := created; as_expires_at := expiry |}.
Proof.
  intros Hcaps Hn. pose proof Hn as (<- & <- & <- & Hp & Hc & json & Hv)%NewAdminSession_new_ok.
  pose proof Hv as Hv'. unfold NewAdminSession_validate, SessionLimits_validate in Hv'.
  invert_ok Hv'. invert_ok R. exists json, a7. split; [done|]. split; [done|].
  intros created expiry Ht Hd. rewrite <- Hp, <- Hc.
  rewrite <- (stored_validated s l json created expiry a7) by done.
  by rewrite Hp.
Qed.

(** The invariant of a session read from storage. *)
Record session_wf (l : SessionLimits) (s : AdminSession) : Prop := {
  wf_subject : sp_subject (as_profile s) ≠ "" ∧ spr_issuer (as_principal s) ≠ ""
    ∧ as_csrf_token s ≠ "";
  wf_teams : canonical (spr_teams (as_principal s)) = true
    ∧ (Z.of_nat (length (spr_teams (as_principal s))) ≤ sl_max_teams l)%Z;
  wf_roles : ∀ c, as_claimed_roles s = Some c →
    cr_selector c ≠ "" ∧ canonical (cr_roles c) = true
    ∧ (Z.of_nat (length (cr_roles c)) ≤ sl_max_roles l)%Z
    ∧ ∀ r, r ∈ cr_roles c → (char_count r ≤ 128)%Z;
  wf_revision : (0 ≤ spr_local_user_revision (as_principal s))%Z;
  wf_times : ∃ lifetime, lifetime_micros l = Ok lifetime ∧
    (0 ≤ as_created_at s < as_expires_at s)%Z ∧ (as_expires_at s ≤ as_created_at s + lifetime)%Z;
}.
Lemma text_required value b c : text value b c true = Ok tt → value ≠ "".
Proof. unfold text. intros Ht ->. discriminate Ht. Qed.
Lemma text_list_length values n b c :
  text_list values n b c = Ok tt → (Z.of_nat (length values) ≤ n)%Z.
Proof. unfold text_list. intros Ht. invert_ok Ht. bool_to_prop. lia. Qed.

(** Whatever the stored columns hold, reading a session gives either the
    single error [CorruptSession] or a session that satisfies the invariant. *)
Theorem AdminSession_stored_sound profile principal csrf claims teams times l :
  match AdminSession_stored profile principal csrf claims teams times l with
  | Ok s => session_wf l s ∧ as_profile s = profile ∧ as_csrf_token s = csrf
            ∧ (as_created_at s, as_expires_at s) = times
  | Err e => e = CE_CorruptSession
  end.
Proof.
  unfold AdminSession_stored. destruct times as [created expiry].
  destruct (stored_decode _ _ _ _ _ _ _ _) as [s|e] eqn:E; [|done]. simpl.
  unfold stored_decode in E. invert_ok E.
  apply TimestampMicros_new_Some in R4 as [-> ?], R5 as [-> ?]. injection E as <-. simpl.
  unfold validate_raw in R2. invert_ok R2. bool_to_prop.
  assert (∀ r : result ControlError unit, ∀ u, r = Ok u → r = Ok tt) as Hu by (by intros ? []).
  split; [|done]. split; simpl.
  - split_and!; eapply text_required, Hu; eassumption.
  - unfold validate_canonical in R3. invert_ok R3. bool_to_prop.
    split; [done|]. eapply text_list_length, Hu. eassumption.
  - intros c ->. unfold validate_canonical in R3. invert_ok R3. invert_ok R2. bool_to_prop.
    split; [eapply text_required, Hu; eassumption|]. split; [done|].
    split; [eapply text_list_length, Hu; eassumption|].
    intros r Hr. apply Z.nlt_ge. intros Hlt. apply Z.ltb_lt in Hlt.
    select (existsb _ _ = false) (fun Hx => apply not_true_iff_false in Hx; apply Hx).
    apply existsb_elem. eauto.
  - simpl in *. lia.
  - exists a. split; [done|]. lia.
Qed.
End codec_lemmas.

(** ** A concrete codec and session, for the witness *)

(** Every byte is preceded by a 1 and every string is closed by a 0. *)
Fixpoint sample_quote (s : string) : string :=
  match s with
  | EmptyString => "0"
  | String b s => String "1" (String b (sample_quote s))
  end.
Fixpoint sample_unquote (s acc : list ascii) (fuel : nat) : option (list string) :=
  match fuel, s with
  | _, [] => Some []
  | S fuel, "0"%char :: s => cons (of_bytes (rev acc)) <$> sample_unquote s [] fuel
  | S fuel, "1"%char :: b :: s => sample_unquote s (b :: acc) fuel
  | _, _ => None
  end.
Definition sample_json_lib : JsonArrayLib :=
  {| json_chunks := fmap sample_quote;
     json_parse := λ s, sample_unquote (bytes s) [] (S (String.length s)) |}.
Lemma sample_unquote_quote s l acc fuel :
  length (bytes (sample_quote s) ++ l) ≤ fuel →
  sample_unquote (bytes (sample_quote s) ++ l) acc fuel =
  cons (of_bytes (rev acc ++ bytes s)) <$>
    sample_unquote l [] (fuel - S (String.length s)).
Proof.
  revert acc fuel. induction s as [|b s IH]; intros acc [|fuel] Hl; simpl in Hl |- *; try lia.
  - by rewrite app_nil_r, Nat.sub_0_r.
  - rewrite IH by lia. simpl. rewrite <- (assoc_L (++)). done.
Qed.
Lemma sample_json_round_trip l fuel :
  length (bytes (foldr String.append "" (sample_quote <$> l))) ≤ fuel →
  sample_unquote (bytes (foldr String.append "" (sample_quote <$> l))) [] fuel = Some l.
Proof.
  revert fuel. induction l as [|s l IH]; intros fuel Hl; simpl in Hl |- *; [by destruct fuel|].
  rewrite bytes_app in Hl |- *. rewrite sample_unquote_quote by done.
  rewrite IH; [simpl; by rewrite of_bytes_bytes|]. rewrite length_app in Hl.
  assert (S (String.length s) ≤ length (bytes (sample_quote s))) by (clear; induction s; simpl; lia).
  change (list_fmap string string sample_quote l) with (sample_quote <$> l) in Hl. lia.
Qed.
#[global] Instance sample_json_laws : JsonArrayLaws sample_json_lib.
Proof. split. intros l. apply sample_json_round_trip. rewrite length_bytes. unfold json_chunks, sample_json_lib. lia. Qed.

Definition sample_limits : SessionLimits :=
  {| sl_text_bytes := 64; sl_csrf_bytes := 64; sl_team_bytes := 64; sl_role_bytes := 64;
     sl_max_teams := 4; sl_max_roles := 4; sl_teams_json_bytes := 128; sl_roles_json_bytes := 128;
     sl_max_lifetime := 60000000000 |}.
Definition sample_profile : SessionProfile :=
  {| sp_subject := "subject"; sp_name := "Alice"; sp_email := "" |}.
Definition sample_principal : SessionPrincipal :=
  {| spr_issuer := "local"; spr_username := "alice"; spr_organization := "org";
     spr_teams := [" dev "; "ops"; "dev"; ""]; spr_local_user_revision := 1 |}.

Lemma session_round_trip_witness :
  ∃ s json,
    @NewAdminSession_new sample_json_lib sample_profile sample_principal "csrf"
      (Some {| cr_selector := "roles"; cr_roles := ["b"; "a"] |}) 1000000 sample_limits = Ok s ∧
    @AdminSession_stored sample_json_lib sample_profile (set_teams sample_principal []) "csrf"
      (stored_claims s json) (sj_teams json) (5, 1000)%Z sample_limits =
    Ok {| as_profile := sample_profile;
          as_principal := set_teams sample_principal ["dev"; "ops"];
          as_csrf_token := "csrf";
          as_claimed_roles := Some {| cr_selector := "roles"; cr_roles := ["a"; "b"] |};
          as_created_at := 5; as_expires_at := 1000 |}.
Proof.
  destruct (@NewAdminSession_new sample_json_lib sample_profile sample_principal "csrf"
    (Some {| cr_selector := "roles"; cr_roles := ["b"; "a"] |}) 1000000 sample_limits) as [s|] eqn:E;
    [|vm_compute in E; discriminate E].
  destruct (session_round_trip (H:=sample_json_lib) _ _ _ _ _ sample_limits s ltac:(split; simpl; lia) E)
    as (json & lifetime & _ & Hl & Hs).
  exists s, json. split; [done|]. apply Hs; [lia|].
  vm_compute in Hl. injection Hl as <-. lia.
Defined.
