(* ===== verification/Identity.v ===== *)
(** * Authenticated identities

    The proofs of authentication the resource components retain
    (upstream_oidc.rs [VerifiedUpstreamBearer], and the identity enums of
    hub_access.rs, embedding_admission.rs and storage_admission.rs), their
    checks, and the private [Principal] view of resource_policy.rs. *)

From S2P Require Import Prelude RustStr Order Control LocalBearer BrokerAccess.
From S2P Require Import Session.

Inductive AdminBrokerSessionError :=
| AB_Authentication (e : BrokerAccessError) | AB_Control (e : ControlError)
| AB_Forbidden | AB_Entropy.

Inductive ResourcePolicyError := RP_InvalidPolicy | RP_Deadline.
#[global] Instance ResourcePolicyError_eq_dec : EqDecision ResourcePolicyError.
Proof. solve_decision. Defined.

Definition check_deadline (stop : Z) : M clock ResourcePolicyError unit :=
  let? now := instant_now in
  if (stop <=? now)%Z then fail RP_Deadline else ret tt.

(** ** An upstream bearer *)

Record VerifiedUpstreamBearer := {
  vu_profile : SessionProfile;
  vu_issuer : string;
  vu_username : string;
  vu_organization : string;
  vu_teams : list string;
  vu_claim_roles : option (list string);
  vu_expires_at : Z;
  vu_expires_mono : Z;
  vu_original : Z;
}.
Definition vu_deadline (stop : Z) : M clock AdminBrokerSessionError unit :=
  let? now := instant_now in
  if (stop <=? now)%Z then fail (AB_Control CE_Deadline) else ret tt.
Definition vu_check (p : VerifiedUpstreamBearer) : M clock AdminBrokerSessionError unit :=
  do? vu_deadline (vu_original p) in
  let? mono := instant_now in
  if (vu_expires_mono p <=? mono)%Z then fail (AB_Authentication BA_Expired) else
  let? utc := system_now in
  if (vu_expires_at p <=? utc)%Z then fail (AB_Authentication BA_Expired) else ret tt.

(** ** Identities *)

Section identities.
Context `{JwtLib}.

Inductive HubIdentity :=
| HI_Anonymous | HI_Broker (proof : VerifiedBrokerAccess) | HI_Local (proof : VerifiedLocalBearer).
Inductive EmbeddingIdentity :=
| EI_Anonymous | EI_Broker (proof : VerifiedBrokerAccess) | EI_Local (proof : VerifiedLocalBearer)
| EI_Upstream (proof : VerifiedUpstreamBearer).
Inductive StorageIdentity :=
| SI_Native (proof : VerifiedBrokerAccess) | SI_Local (proof : VerifiedLocalBearer).

Record Principal := {
  pr_issuer : string;
  pr_subject : string;
  pr_username : option string;
  pr_organization : option string;
  pr_teams : list string;
}.
Definition principal_local (user : LocalBearerUser) : Principal :=
  {| pr_issuer := lu_issuer user; pr_subject := lu_subject user;
     pr_username := Some (lu_username user); pr_organization := Some (lu_organization user);
     pr_teams := lu_teams user |}.
Definition principal_broker (user : VerifiedBrokerAccess) : Principal :=
  {| pr_issuer := vb_issuer user; pr_subject := vb_subject user;
     pr_username := vb_username user; pr_organization := vb_organization user;
     pr_teams := vb_teams user |}.
Definition principal_inference (identity : EmbeddingIdentity) : option Principal :=
  match identity with
  | EI_Anonymous => None
  | EI_Broker proof => Some (principal_broker proof)
  | EI_Local proof => Some (principal_local (current_local_user proof))
  | EI_Upstream proof =>
      Some {| pr_issuer := vu_issuer proof; pr_subject := sp_subject (vu_profile proof);
              pr_username := Some (vu_username proof);
              pr_organization := Some (vu_organization proof); pr_teams := vu_teams proof |}
  end.
Definition principal_hub (identity : HubIdentity) : option Principal :=
  match identity with
  | HI_Anonymous => None
  | HI_Broker proof => Some (principal_broker proof)
  | HI_Local proof => Some (principal_local (current_local_user proof))
  end.
Definition principal_storage (identity : StorageIdentity) : Principal :=
  match identity with
  | SI_Native p => principal_broker p
  | SI_Local p => principal_local (current_local_user p)
  end.
(** The view [admin_catalog_rules] makes of an administrative session. *)
Definition principal_admin (profile : SessionProfile) (principal : SessionPrincipal) : Principal :=
  {| pr_issuer := spr_issuer principal; pr_subject := sp_subject profile;
     pr_username := Some (spr_username principal);
     pr_organization := Some (spr_organization principal); pr_teams := spr_teams principal |}.
End identities.

(** ** Lemmas *)

Lemma guarded_check_deadline stop : guarded stop RP_Deadline (check_deadline stop) (Ok tt).
Proof.
  intros c x c'. unfold check_deadline, bind, instant_now. simpl.
  destruct (Z.leb_spec stop (mono_at c (tick c))) as [Hs|Hs]; intros [= <- <-].
  - split; [apply clock_run_advance|]. right. split; [|done]. exists (tick c). simpl. lia.
  - split; [apply clock_run_advance|]. left. split; [|done]. intros n Hn. simpl in Hn.
    replace n with (tick c) by lia. done.
Qed.
Lemma check_deadline_ok stop c c' :
  check_deadline stop c = (Ok tt, c') → (mono_at c (tick c) < stop)%Z ∧ c' = advance c.
Proof. unfold check_deadline. intros H. invert_run H. bool_to_prop. split; [lia|done]. Qed.

Lemma check_deadline_err stop c e c' : check_deadline stop c = (Err e, c') → e = RP_Deadline.
Proof.
  intros H. by destruct (guarded_check_deadline stop _ _ _ H) as [_ [[_ ?]|[_ [= ->]]]].
Qed.

(** The deadline check followed by a guarded computation. *)
Lemma guarded_check {A} stop (m : M clock ResourcePolicyError A) r :
  guarded stop RP_Deadline m r →
  guarded stop RP_Deadline (do? check_deadline stop in m) r.
Proof.
  intros Hm. change r with (rbind (Ok (E:=ResourcePolicyError) tt) (λ _, r)).
  apply guarded_bind; [apply guarded_check_deadline|done].
Qed.
#[export] Hint Resolve guarded_check_deadline guarded_check : broker.
