(* ===== verification/ResourcePolicy.v ===== *)
(** * Resource policy

    crates/broker-control/src/resource_policy.rs: the glob policy of PROJECT
    and presence resources, and the literal policy of the Hub.  A policy is
    compiled from a grant snapshot as a whole, under a deadline, and then asked
    for decisions. *)

From stdpp Require Import gmap.
From S2P Require Import Prelude RustStr Order Control LocalBearer BrokerAccess.
From S2P Require Import Session Identity InstanceRegistry ResourceGrants.

(** A project selector of a Hub response. *)
Record HubProjectSelector := { hs_id : option string; hs_all : option bool }.
Definition HubProjectSelector_project (id : string) : HubProjectSelector :=
  {| hs_id := Some id; hs_all := None |}.
Definition HubProjectSelector_all : HubProjectSelector := {| hs_id := None; hs_all := Some true |}.
Record HubCatalogRoute := { cr_route : string; cr_projects : list string }.

Inductive StorageOperation := OpRead | OpWrite | OpPublish | OpDelete.
Definition StorageOperation_ALL : list StorageOperation := [OpRead; OpWrite; OpPublish; OpDelete].
Definition StorageOperation_index (op : StorageOperation) : nat :=
  match op with OpRead => 0 | OpWrite => 1 | OpPublish => 2 | OpDelete => 3 end.
Definition StorageOperation_name (op : StorageOperation) : string :=
  match op with OpRead => "read" | OpWrite => "write" | OpPublish => "publish" | OpDelete => "delete" end.

Section policy.
Context `{UlidLib, GlobLib, JwtLib}.

(** ** Patterns *)

Definition pattern_options : glob_options :=
  {| case_insensitive := false; literal_separator := true; backslash_escape := true;
     allow_unclosed_class := false; empty_alternates := false |}.
Definition pattern (value : string) (stop : Z) : M clock ResourcePolicyError regex :=
  do? check_deadline stop in
  let value := trim value in
  if is_empty value then fail RP_InvalidPolicy else
  let? glob := lift_result (ok_or (glob_regex pattern_options value) RP_InvalidPolicy) in
  let? compiled := lift_result (ok_or (regex_new glob) RP_InvalidPolicy) in
  do? check_deadline stop in
  ret compiled.

Definition any_match (patterns : list regex) (value : string) : bool :=
  existsb (λ p, is_match p value) patterns.

(** ** The PROJECT policy *)

Inductive Selector :=
| SelGlobal | SelAnonymous | SelAuthenticated
| SelUser (p : regex) | SelTeam (p : regex) | SelOrganization (p : regex) | SelSubject (p : regex).
Definition Selector_matches (s : Selector) (user : Principal) : bool :=
  match s with
  | SelGlobal | SelAuthenticated => true
  | SelAnonymous => false
  | SelUser p => is_some_and (pr_username user) (is_match p)
  | SelTeam p => existsb (is_match p) (pr_teams user)
  | SelOrganization p => is_some_and (pr_organization user) (is_match p)
  | SelSubject p =>
      is_match p (pr_subject user) || is_match p (pr_issuer user +:+ "|" +:+ pr_subject user)
  end.
Record CompiledRule := {
  ru_selector : Selector;
  ru_capabilities : list regex;
  ru_projects : list string;
}.

Definition compile_selector (rule : ResourceGrantRule) (stop : Z)
    : M clock ResourcePolicyError Selector :=
  let kind := to_ascii_lowercase (trim (gr_access_kind rule)) in
  let glob make := let? p := pattern (gr_principal rule) stop in ret (make p) in
  if str_eqb kind "global" then ret SelGlobal
  else if str_eqb kind "anonymous" then ret SelAnonymous
  else if str_eqb kind "authenticated" then ret SelAuthenticated
  else if str_eqb kind "user" then glob SelUser
  else if str_eqb kind "team" then glob SelTeam
  else if str_eqb kind "organization" then glob SelOrganization
  else if str_eqb kind "subject" then glob SelSubject
  else fail RP_InvalidPolicy.
Definition compile_rule (stop : Z) (rule : ResourceGrantRule)
    : M clock ResourcePolicyError CompiledRule :=
  do? check_deadline stop in
  let? selector := compile_selector rule stop in
  if bool_decide (gr_capabilities rule = [])
     || existsb (λ p, negb (str_eqb p "*") && negb (canonical_project_id p)) (gr_projects rule)
  then fail RP_InvalidPolicy else
  let? capabilities := mcollect (λ p, pattern p stop) (gr_capabilities rule) in
  ret {| ru_selector := selector; ru_capabilities := capabilities; ru_projects := gr_projects rule |}.
Definition compile (snapshot : ResourceGrantSnapshot) (stop : Z)
    : M clock ResourcePolicyError (list CompiledRule) :=
  let? rules := mcollect (compile_rule stop) (gs_rules snapshot) in
  do? check_deadline stop in
  ret rules.

(** The loop of a decision: the first matching rule allows. *)
Fixpoint any_rule {R} (stop : Z) (f : R → bool) (rules : list R)
    : M clock ResourcePolicyError bool :=
  match rules with
  | [] => do? check_deadline stop in ret false
  | rule :: rules =>
      do? check_deadline stop in
      if f rule then ret true else any_rule stop f rules
  end.
Definition allows_any_principal (policy : list CompiledRule) (user : Principal)
    (capability : string) (stop : Z) : M clock ResourcePolicyError bool :=
  any_rule stop (λ rule,
    Selector_matches (ru_selector rule) user && any_match (ru_capabilities rule) capability
    && (bool_decide (ru_projects rule = []) || existsb (λ p, str_eqb p "*") (ru_projects rule)))
    policy.
Definition allows_principal (policy : list CompiledRule) (user : Principal)
    (capability project : string) (stop : Z) : M clock ResourcePolicyError bool :=
  any_rule stop (λ rule,
    Selector_matches (ru_selector rule) user && any_match (ru_capabilities rule) capability
    && (bool_decide (ru_projects rule = [])
        || existsb (λ p, str_eqb p "*" || str_eqb p project) (ru_projects rule)))
    policy.
Definition allows_any_project policy (user : LocalBearerUser) capability stop :=
  allows_any_principal policy (principal_local user) capability stop.
Definition allows_any_broker policy (user : VerifiedBrokerAccess) capability stop :=
  allows_any_principal policy (principal_broker user) capability stop.
Definition allows policy (user : LocalBearerUser) capability project stop :=
  allows_principal policy (principal_local user) capability project stop.
Definition allows_broker policy (user : VerifiedBrokerAccess) capability project stop :=
  allows_principal policy (principal_broker user) capability project stop.

(** ** The Hub policy *)

Inductive HubSelector :=
| HubGlobal | HubAnonymous | HubAuthenticated
| HubUser (v : string) | HubTeam (v : string) | HubOrganization (v : string) | HubSubject (v : string).
Definition HubSelector_matches (s : HubSelector) (user : option Principal) : bool :=
  match s with
  | HubGlobal => true
  | HubAnonymous => bool_decide (user = None)
  | HubAuthenticated => is_some_and user (λ _, true)
  | HubUser v => bool_decide ((user ≫= pr_username) = Some v)
  | HubTeam v => is_some_and user (λ u, existsb (λ t, str_eqb t v) (pr_teams u))
  | HubOrganization v => bool_decide ((user ≫= pr_organization) = Some v)
  | HubSubject v =>
      is_some_and user (λ u,
        str_eqb (pr_subject u) v
        || bool_decide ((strip_prefix v (pr_issuer u) ≫= λ v, strip_prefix v "|")
                        = Some (pr_subject u)))
  end.
Record HubRule := {
  hr_selector : HubSelector;
  hr_capabilities : list regex;
  hr_projects : list string;
}.
Definition hub_selector (rule : ResourceGrantRule) : option HubSelector :=
  let principal := trim (gr_principal rule) in
  let kind := to_ascii_lowercase (trim (gr_access_kind rule)) in
  if str_eqb kind "global" then Some HubGlobal
  else if str_eqb kind "anonymous" then Some HubAnonymous
  else if str_eqb kind "authenticated" then Some HubAuthenticated
  else if str_eqb kind "user" then Some (HubUser principal)
  else if str_eqb kind "team" then Some (HubTeam principal)
  else if str_eqb kind "organization" then Some (HubOrganization principal)
  else if str_eqb kind "subject" then Some (HubSubject principal)
  else None.
Definition hub_compile_rule (stop : Z) (rule : ResourceGrantRule)
    : M clock ResourcePolicyError HubRule :=
  do? check_deadline stop in
  let? selector := lift_result (ok_or (hub_selector rule) RP_InvalidPolicy) in
  if bool_decide (gr_capabilities rule = [])
     || existsb (λ p, let p := trim p in negb (str_eqb p "*") && negb (canonical_project_id p))
          (gr_projects rule)
  then fail RP_InvalidPolicy else
  let? capabilities := mcollect (λ p, pattern p stop) (gr_capabilities rule) in
  ret {| hr_selector := selector; hr_capabilities := capabilities; hr_projects := gr_projects rule |}.
Definition hub_compile (snapshot : ResourceGrantSnapshot) (stop : Z)
    : M clock ResourcePolicyError (list HubRule) :=
  let? rules := mcollect (hub_compile_rule stop) (gs_rules snapshot) in
  do? check_deadline stop in
  ret rules.

Definition allows_inference (policy : list HubRule) (identity : EmbeddingIdentity)
    (capability : string) (stop : Z) : M clock ResourcePolicyError bool :=
  let user := principal_inference identity in
  any_rule stop (λ rule,
    HubSelector_matches (hr_selector rule) user && any_match (hr_capabilities rule) capability)
    policy.

(** The state of the loops of [selectors]: the keys seen and the selectors
    pushed.  The key [None] stands for every project. *)
Definition push_selector (key : option string) (acc : gset (option string) * list HubProjectSelector)
    : gset (option string) * list HubProjectSelector :=
  let (seen, selectors) := acc in
  if bool_decide (key ∈ seen) then acc else
  ({[key]} ∪ seen,
   selectors ++ [match key with
                 | None => HubProjectSelector_all
                 | Some id => HubProjectSelector_project id
                 end]).
Definition selector_key (project : string) : option string :=
  let project := trim project in
  if str_eqb project "*" then None else Some project.
Definition selectors (policy : list HubRule) (identity : HubIdentity) (stop : Z)
    : M clock ResourcePolicyError (list HubProjectSelector) :=
  let user := principal_hub identity in
  let? (_, selectors) :=
    mfor (λ acc rule,
      do? check_deadline stop in
      if negb (HubSelector_matches (hr_selector rule) user)
         || negb (any_match (hr_capabilities rule) "hub")
      then ret acc else
      let acc := if bool_decide (hr_projects rule = []) then push_selector None acc else acc in
      mfor (λ acc project,
        do? check_deadline stop in
        ret (push_selector (selector_key project) acc)) acc (hr_projects rule))
    (∅, []) policy in
  do? check_deadline stop in
  ret selectors.

(** [iter().enumerate()] with a deadline check per rule, keeping what [f]
    selects. *)
Fixpoint select_rules {R B} (stop : Z) (f : nat → R → option B) (index : nat) (rules : list R)
    : M clock ResourcePolicyError (list B) :=
  match rules with
  | [] => ret []
  | rule :: rules =>
      do? check_deadline stop in
      let? rest := select_rules stop f (S index) rules in
      ret (match f index rule with Some b => b :: rest | None => rest end)
  end.
(** [snapshot.rules()[index]] *)
Definition route_of (snapshot : ResourceGrantSnapshot) (index : nat) : string :=
  match gs_rules snapshot !! index with Some r => trim (gr_s3_route r) | None => "" end.
Definition catalog_routes (policy : list HubRule) (identity : HubIdentity)
    (snapshot : ResourceGrantSnapshot) (stop : Z)
    : M clock ResourcePolicyError (list HubCatalogRoute) :=
  let user := principal_hub identity in
  select_rules stop (λ index rule,
    if HubSelector_matches (hr_selector rule) user && any_match (hr_capabilities rule) "hub"
    then Some {| cr_route := route_of snapshot index; cr_projects := trim <$> hr_projects rule |}
    else None) 0 policy.
Definition admin_catalog_rules (policy : list HubRule) (profile : SessionProfile)
    (principal : SessionPrincipal) (stop : Z) : M clock ResourcePolicyError (list nat) :=
  let user := principal_admin profile principal in
  let? indices := select_rules stop (λ index rule,
    if HubSelector_matches (hr_selector rule) (Some user) && any_match (hr_capabilities rule) "hub"
    then Some index else None) 0 policy in
  do? check_deadline stop in
  ret indices.

Definition storage_rules (policy : list HubRule) (identity : StorageIdentity)
    (project : option string) (stop : Z)
    : M clock ResourcePolicyError (list (nat * list bool * bool)) :=
  let user := principal_storage identity in
  let? matching := select_rules stop (λ index rule,
    if negb (HubSelector_matches (hr_selector rule) (Some user))
       || negb (bool_decide (hr_projects rule = [])
                || existsb (λ p, let p := trim p in
                     str_eqb p "*" || is_some_and project (λ project, str_eqb p project))
                   (hr_projects rule))
    then None else
    let masks := (λ op,
      let capability := "s3:" +:+ StorageOperation_name op in
      existsb (λ p, is_match p "s3" || is_match p capability) (hr_capabilities rule))
      <$> StorageOperation_ALL in
    let hub := any_match (hr_capabilities rule) "hub" in
    Some (index, masks, hub)) 0 policy in
  do? check_deadline stop in
  ret matching.

(** ** The meaning of a rule

    The decision read off the stored rules, without compilation and without
    the clock. *)

Definition compiled (p : string) : option regex :=
  let p := trim p in
  if is_empty p then None else glob_regex pattern_options p ≫= regex_new.
Definition glob_matches (p value : string) : bool := is_some_and (compiled p) (λ r, is_match r value).
Definition compiles (p : string) : bool := is_some_and (compiled p) (λ _, true).
Definition rule_kind (rule : ResourceGrantRule) : string :=
  to_ascii_lowercase (trim (gr_access_kind rule)).
Definition any_glob (patterns : list string) (value : string) : bool :=
  existsb (λ p, glob_matches p value) patterns.

(** Who a PROJECT rule selects. *)
Definition rule_selects (rule : ResourceGrantRule) (user : Principal) : bool :=
  let glob := glob_matches (gr_principal rule) in
  let kind := rule_kind rule in
  if str_eqb kind "global" then true
  else if str_eqb kind "anonymous" then false
  else if str_eqb kind "authenticated" then true
  else if str_eqb kind "user" then is_some_and (pr_username user) glob
  else if str_eqb kind "team" then existsb glob (pr_teams user)
  else if str_eqb kind "organization" then is_some_and (pr_organization user) glob
  else str_eqb kind "subject"
       && (glob (pr_subject user) || glob (pr_issuer user +:+ "|" +:+ pr_subject user)).
Definition rule_allows (user : Principal) (capability project : string) (rule : ResourceGrantRule) : bool :=
  rule_selects rule user && any_glob (gr_capabilities rule) capability
  && (bool_decide (gr_projects rule = [])
      || existsb (λ p, str_eqb p "*" || str_eqb p project) (gr_projects rule)).
Definition rule_allows_any (user : Principal) (capability : string) (rule : ResourceGrantRule) : bool :=
  rule_selects rule user && any_glob (gr_capabilities rule) capability
  && (bool_decide (gr_projects rule = []) || existsb (λ p, str_eqb p "*") (gr_projects rule)).

(** The rules a PROJECT policy may contain. *)
Definition known_kind (kind : string) : bool :=
  existsb (str_eqb kind) ["global"; "anonymous"; "authenticated"; "user"; "team"; "organization"; "subject"].
Definition glob_kind (kind : string) : bool :=
  existsb (str_eqb kind) ["user"; "team"; "organization"; "subject"].
Definition rule_valid (rule : ResourceGrantRule) : bool :=
  known_kind (rule_kind rule) && (negb (glob_kind (rule_kind rule)) || compiles (gr_principal rule))
  && negb (bool_decide (gr_capabilities rule = [])) && forallb compiles (gr_capabilities rule)
  && forallb (λ p, str_eqb p "*" || canonical_project_id p) (gr_projects rule).

(** Who a Hub rule selects, and the rules a Hub policy may contain. *)
Definition hub_rule_selects (rule : ResourceGrantRule) (user : option Principal) : bool :=
  is_some_and (hub_selector rule) (λ s, HubSelector_matches s user).
Definition hub_rule_valid (rule : ResourceGrantRule) : bool :=
  known_kind (rule_kind rule)
  && negb (bool_decide (gr_capabilities rule = [])) && forallb compiles (gr_capabilities rule)
  && forallb (λ p, str_eqb (trim p) "*" || canonical_project_id (trim p)) (gr_projects rule).

(** ** Lemmas: compilation *)

Lemma guarded_bind_opt {A B} stop (m : M clock ResourcePolicyError A) (k : A → M clock ResourcePolicyError B) o f :
  guarded stop RP_Deadline m (ok_or o RP_InvalidPolicy) →
  (∀ a, o = Some a → guarded stop RP_Deadline (k a) (ok_or (f a) RP_InvalidPolicy)) →
  guarded stop RP_Deadline (bind m k) (ok_or (o ≫= f) RP_InvalidPolicy).
Proof.
  intros Hm Hk.
  assert (ok_or (o ≫= f) RP_InvalidPolicy =
          rbind (ok_or o RP_InvalidPolicy) (λ a, ok_or (f a) RP_InvalidPolicy)) as -> by (by destruct o).
  apply guarded_bind; [done|]. intros a Ha%ok_or_ok. eauto.
Qed.
Lemma guarded_bind_same {A B} stop (m : M clock ResourcePolicyError A)
    (k : A → M clock ResourcePolicyError B) (g : A → B) o :
  guarded stop RP_Deadline m (ok_or o RP_InvalidPolicy) →
  (∀ a, guarded stop RP_Deadline (k a) (Ok (g a))) →
  guarded stop RP_Deadline (bind m k) (ok_or (g <$> o) RP_InvalidPolicy).
Proof.
  intros Hm Hk. assert (g <$> o = o ≫= λ a, Some (g a)) as -> by (by destruct o).
  apply guarded_bind_opt; [done|]. intros a _. apply Hk.
Qed.
Lemma guarded_bind_id {A} stop (m : M clock ResourcePolicyError A)
    (k : A → M clock ResourcePolicyError A) o :
  guarded stop RP_Deadline m (ok_or o RP_InvalidPolicy) →
  (∀ a, guarded stop RP_Deadline (k a) (Ok a)) →
  guarded stop RP_Deadline (bind m k) (ok_or o RP_InvalidPolicy).
Proof.
  intros Hm Hk. rewrite <- (option_fmap_id o). by apply guarded_bind_same.
Qed.
Lemma guarded_pattern p stop :
  guarded stop RP_Deadline (pattern p stop) (ok_or (compiled p) RP_InvalidPolicy).
Proof.
  unfold pattern, compiled. apply guarded_check. destruct (is_empty (trim p)); [apply guarded_fail|].
  apply guarded_bind_opt; [apply guarded_lift|]. intros g _.
  apply guarded_bind_id; [apply guarded_lift|]. intros r. apply guarded_check, guarded_ret.
Qed.

Definition compile_selector_pure (rule : ResourceGrantRule) : option Selector :=
  let kind := rule_kind rule in
  if str_eqb kind "global" then Some SelGlobal
  else if str_eqb kind "anonymous" then Some SelAnonymous
  else if str_eqb kind "authenticated" then Some SelAuthenticated
  else if str_eqb kind "user" then SelUser <$> compiled (gr_principal rule)
  else if str_eqb kind "team" then SelTeam <$> compiled (gr_principal rule)
  else if str_eqb kind "organization" then SelOrganization <$> compiled (gr_principal rule)
  else if str_eqb kind "subject" then SelSubject <$> compiled (gr_principal rule)
  else None.
Definition compile_rule_pure (rule : ResourceGrantRule) : option CompiledRule :=
  compile_selector_pure rule ≫= λ selector,
  if bool_decide (gr_capabilities rule = [])
     || existsb (λ p, negb (str_eqb p "*") && negb (canonical_project_id p)) (gr_projects rule)
  then None else
  mapM compiled (gr_capabilities rule) ≫= λ capabilities,
  Some {| ru_selector := selector; ru_capabilities := capabilities; ru_projects := gr_projects rule |}.
Definition hub_compile_rule_pure (rule : ResourceGrantRule) : option HubRule :=
  hub_selector rule ≫= λ selector,
  if bool_decide (gr_capabilities rule = [])
     || existsb (λ p, let p := trim p in negb (str_eqb p "*") && negb (canonical_project_id p))
          (gr_projects rule)
  then None else
  mapM compiled (gr_capabilities rule) ≫= λ capabilities,
  Some {| hr_selector := selector; hr_capabilities := capabilities; hr_projects := gr_projects rule |}.

Lemma rcollect_ok_or {E A B} (f : A → option B) (e : E) l :
  rcollect (λ x, ok_or (f x) e) l = ok_or (mapM f l) e.
Proof.
  induction l as [|x l IH]; simpl; [done|]. destruct (f x); simpl; [|done].
  rewrite IH. by destruct (mapM f l).
Qed.
Lemma guarded_patterns ps stop :
  guarded stop RP_Deadline (mcollect (λ p, pattern p stop) ps)
    (ok_or (mapM compiled ps) RP_InvalidPolicy).
Proof. rewrite <- rcollect_ok_or. apply guarded_mcollect. intros p _. apply guarded_pattern. Qed.

Lemma guarded_compile_selector rule stop :
  guarded stop RP_Deadline (compile_selector rule stop)
    (ok_or (compile_selector_pure rule) RP_InvalidPolicy).
Proof.
  unfold compile_selector, compile_selector_pure, rule_kind.
  assert (∀ make : regex → Selector, guarded stop RP_Deadline
    (let? p := pattern (gr_principal rule) stop in ret (make p))
    (ok_or (make <$> compiled (gr_principal rule)) RP_InvalidPolicy)) as Hg.
  { intros make. apply guarded_bind_same; [apply guarded_pattern|]. intros r. apply guarded_ret. }
  repeat case_goal; eauto with broker; apply guarded_fail.
Qed.
Lemma guarded_compile snapshot stop :
  guarded stop RP_Deadline (compile snapshot stop)
    (ok_or (mapM compile_rule_pure (gs_rules snapshot)) RP_InvalidPolicy).
Proof.
  unfold compile. 
  apply guarded_bind_id; [|intros; apply guarded_check, guarded_ret].
  rewrite <- rcollect_ok_or. apply guarded_mcollect. intros rule _.
  unfold compile_rule, compile_rule_pure. apply guarded_check.
  apply guarded_bind_opt; [apply guarded_compile_selector|]. intros selector _.
  destruct (_ || _)%bool; [apply guarded_fail|].
  apply guarded_bind_opt; [apply guarded_patterns|]. intros; apply guarded_ret.
Qed.
Lemma guarded_hub_compile snapshot stop :
  guarded stop RP_Deadline (hub_compile snapshot stop)
    (ok_or (mapM hub_compile_rule_pure (gs_rules snapshot)) RP_InvalidPolicy).
Proof.
  unfold hub_compile. apply guarded_bind_id; [|intros; apply guarded_check, guarded_ret].
  rewrite <- rcollect_ok_or. apply guarded_mcollect. intros rule _.
  unfold hub_compile_rule, hub_compile_rule_pure. apply guarded_check.
  apply guarded_bind_opt; [apply guarded_lift|]. intros selector _.
  destruct (_ || _)%bool; [apply guarded_fail|].
  apply guarded_bind_opt; [apply guarded_patterns|]. intros; apply guarded_ret.
Qed.

(** ** Lemmas: what compilation preserves *)

Lemma mapM_is_some {A B} (f : A → option B) l :
  is_some_and (mapM f l) (λ _, true) = forallb (λ x, is_some_and (f x) (λ _, true)) l.
Proof.
  induction l as [|x l IH]; simpl; [done|]. destruct (f x); simpl; [|done].
  rewrite <- IH. by destruct (mapM f l).
Qed.
Lemma mapM_existsb {A B} (f : A → option B) (g : B → bool) (h : A → bool) l l' :
  mapM f l = Some l' → (∀ x y, f x = Some y → g y = h x) → existsb g l' = existsb h l.
Proof.
  intros Hm%mapM_Some Hgh. induction Hm as [|x y l l' Hxy _ IH]; simpl; [done|].
  by rewrite (Hgh _ _ Hxy), IH.
Qed.
Lemma any_match_glob ps rs value :
  mapM compiled ps = Some rs → any_match rs value = any_glob ps value.
Proof.
  intros Hm. unfold any_match, any_glob. eapply mapM_existsb; [exact Hm|].
  intros p r Hp. unfold glob_matches. by rewrite Hp.
Qed.
Lemma compile_rule_valid rule :
  is_some_and (compile_rule_pure rule) (λ _, true) = rule_valid rule.
Proof.
  unfold compile_rule_pure, rule_valid.
  assert (existsb (λ p, negb (str_eqb p "*") && negb (canonical_project_id p)) (gr_projects rule) =
          negb (forallb (λ p, str_eqb p "*" || canonical_project_id p) (gr_projects rule))) as ->.
  { rewrite <- existsb_negb_forallb. apply existsb_ext. intros p. by rewrite negb_orb. }
  assert (is_some_and (compile_selector_pure rule) (λ _, true) =
          known_kind (rule_kind rule) && (negb (glob_kind (rule_kind rule)) || compiles (gr_principal rule)))
    as <-.
  { unfold compile_selector_pure, known_kind, glob_kind, compiles. simpl.
    destruct (compiled (gr_principal rule)); repeat case_goal; bool_to_prop;
      rewrite ?str_eqb_eq in *; simplify_eq; try done;
      repeat match goal with Hk : rule_kind rule = _ |- _ => rewrite Hk end; try done. }
  destruct (compile_selector_pure rule); simpl; [|done].
  destruct (bool_decide _); simpl; [done|].
  pose proof (mapM_is_some compiled (gr_capabilities rule)) as Hm. unfold compiles at 1.
  destruct (forallb (λ p, str_eqb p "*" || _) _); simpl; [|by rewrite andb_false_r].
  rewrite andb_true_r. rewrite <- Hm. by destruct (mapM compiled _).
Qed.
Lemma compile_rule_allows user capability rule c :
  compile_rule_pure rule = Some c →
  ru_projects c = gr_projects rule ∧
  Selector_matches (ru_selector c) user = rule_selects rule user ∧
  any_match (ru_capabilities c) capability = any_glob (gr_capabilities rule) capability.
Proof.
  unfold compile_rule_pure. intros (sel & Hs & Hc)%bind_Some.
  destruct (_ || _)%bool; [done|]. apply bind_Some in Hc as (caps & Hm & [= <-]). simpl.
  split; [done|]. split; [|by apply any_match_glob].
  unfold compile_selector_pure, rule_selects, glob_matches in *.
  revert Hs. destruct (compiled (gr_principal rule)); simpl;
    repeat (case_goal; simpl; try (intros; by simplify_eq)).
Qed.

Lemma guarded_any_rule {R} stop (f : R → bool) rules :
  guarded stop RP_Deadline (any_rule stop f rules) (Ok (existsb f rules)).
Proof.
  induction rules as [|r rules IH]; simpl; apply guarded_check; [apply guarded_ret|].
  destruct (f r); [apply guarded_ret|done].
Qed.
Lemma compiled_or_invalid {A} (f : ResourceGrantRule → option A) valid rules :
  (∀ r, is_some_and (f r) (λ _, true) = valid r) →
  match mapM f rules with
  | Some _ => forallb valid rules = true
  | None => forallb valid rules = false
  end.
Proof.
  intros Hv. pose proof (mapM_is_some f rules) as Hm.
  rewrite (forallb_ext _ valid) in Hm by done. by destruct (mapM f rules).
Qed.
(** A decision over a whole compiled policy. *)
Lemma guarded_decision {A} stop (m : M clock ResourcePolicyError (list A)) (f : ResourceGrantRule → option A)
    valid rules (g : A → bool) (h : ResourceGrantRule → bool) :
  guarded stop RP_Deadline m (ok_or (mapM f rules) RP_InvalidPolicy) →
  (∀ r, is_some_and (f r) (λ _, true) = valid r) →
  (∀ r c, f r = Some c → g c = h r) →
  guarded stop RP_Deadline (let? policy := m in any_rule stop g policy)
    (if forallb valid rules then Ok (existsb h rules) else Err RP_InvalidPolicy).
Proof.
  intros Hm Hv Hgh. pose proof (compiled_or_invalid f valid rules Hv) as Hc.
  assert ((if forallb valid rules then Ok (existsb h rules) else Err RP_InvalidPolicy) =
          rbind (ok_or (mapM f rules) RP_InvalidPolicy) (λ cs, Ok (existsb g cs))) as ->.
  { destruct (mapM f rules) as [cs|] eqn:Em; rewrite Hc; simpl; [|done].
    by rewrite (mapM_existsb f g h rules cs). }
  apply guarded_bind; [done|]. intros cs _. apply guarded_any_rule.
Qed.

Lemma hub_compile_rule_valid rule :
  is_some_and (hub_compile_rule_pure rule) (λ _, true) = hub_rule_valid rule.
Proof.
  unfold hub_compile_rule_pure, hub_rule_valid. cbv zeta.
  assert (existsb (λ p, negb (str_eqb (trim p) "*") && negb (canonical_project_id (trim p))) (gr_projects rule) =
          negb (forallb (λ p, str_eqb (trim p) "*" || canonical_project_id (trim p)) (gr_projects rule))) as ->.
  { rewrite <- existsb_negb_forallb. apply existsb_ext. intros p. by rewrite negb_orb. }
  assert (is_some_and (hub_selector rule) (λ _, true) = known_kind (rule_kind rule)) as <-.
  { unfold hub_selector, known_kind, rule_kind. simpl. repeat (case_goal; simpl; try done). }
  destruct (hub_selector rule); simpl; [|done].
  destruct (bool_decide _); simpl; [done|].
  pose proof (mapM_is_some compiled (gr_capabilities rule)) as Hm. unfold compiles at 1.
  destruct (forallb (λ p, str_eqb (trim p) "*" || _) _); simpl; [|by rewrite andb_false_r].
  rewrite andb_true_r. rewrite <- Hm. by destruct (mapM compiled _).
Qed.
Lemma hub_compile_rule_grants rule c :
  hub_compile_rule_pure rule = Some c →
  hr_projects c = gr_projects rule ∧
  (∀ user, HubSelector_matches (hr_selector c) user = hub_rule_selects rule user) ∧
  mapM compiled (gr_capabilities rule) = Some (hr_capabilities c).
Proof.
  unfold hub_compile_rule_pure, hub_rule_selects. intros (sel & Hs & Hc)%bind_Some.
  destruct (_ || _)%bool; [done|]. apply bind_Some in Hc as (caps & Hm & [= <-]). simpl.
  by rewrite Hs.
Qed.

(** ** Lemmas: loops *)

Lemma guarded_mfor {A B} stop (f : B → A → M clock ResourcePolicyError B) (g : B → A → B) l acc :
  (∀ acc x, guarded stop RP_Deadline (f acc x) (Ok (g acc x))) →
  guarded stop RP_Deadline (mfor f acc l) (Ok (foldl g acc l)).
Proof.
  intros Hf. revert acc. induction l as [|x l IH]; intros acc; simpl; [apply guarded_ret|].
  apply (guarded_bind _ _ _ _ (Ok (g acc x)) (λ acc, Ok (foldl g acc l))); [apply Hf|].
  intros a _. apply IH.
Qed.
Fixpoint select_pure {R B} (f : nat → R → option B) (index : nat) (rules : list R) : list B :=
  match rules with
  | [] => []
  | rule :: rules =>
      let rest := select_pure f (S index) rules in
      match f index rule with Some b => b :: rest | None => rest end
  end.
Lemma guarded_select_rules {R B} stop (f : nat → R → option B) index rules :
  guarded stop RP_Deadline (select_rules stop f index rules) (Ok (select_pure f index rules)).
Proof.
  revert index. induction rules as [|r rules IH]; intros index; simpl; [apply guarded_ret|].
  apply guarded_check.
  apply (guarded_bind _ _ _ _ (Ok (select_pure f (S index) rules)) (λ rest, Ok _)); [apply IH|].
  intros ? [= <-]. apply guarded_ret.
Qed.
Lemma elem_of_select_pure {R B} (f : nat → R → option B) rules b index :
  b ∈ select_pure f index rules ↔ ∃ i r, rules !! i = Some r ∧ f (index + i) r = Some b.
Proof.
  revert index. induction rules as [|r rules IH]; intros index; simpl.
  { rewrite elem_of_nil. split; [done|]. intros (i & r & Hi & _). done. }
  assert (b ∈ (match f index r with
               | Some b => b :: select_pure f (S index) rules
               | None => select_pure f (S index) rules end) ↔
          f index r = Some b ∨ b ∈ select_pure f (S index) rules) as ->.
  { destruct (f index r); [rewrite elem_of_cons|]; naive_solver. }
  rewrite IH. split.
  - intros [?|(i & r' & ? & ?)]; [exists 0, r; by rewrite Nat.add_0_r|].
    exists (S i), r'. by rewrite Nat.add_succ_r.
  - intros ([|i] & r' & Hi & Hf); simpl in Hi.
    + left. rewrite Nat.add_0_r in Hf. by simplify_eq.
    + right. exists i, r'. by rewrite Nat.add_succ_r in Hf.
Qed.

(** ** Lemmas: the selectors of a Hub response *)

Definition selector_of (key : option string) : HubProjectSelector :=
  match key with None => HubProjectSelector_all | Some id => HubProjectSelector_project id end.
Definition rule_keys (rule : ResourceGrantRule) : list (option string) :=
  if bool_decide (gr_projects rule = []) then [None] else selector_key <$> gr_projects rule.
(** The keys of the rules that give the caller the Hub. *)
Definition hub_keys (user : option Principal) (rules : list ResourceGrantRule) : list (option string) :=
  rules ≫= λ rule,
    if hub_rule_selects rule user && any_glob (gr_capabilities rule) "hub" then rule_keys rule else [].
Fixpoint first_occurrences (seen : list (option string)) (keys : list (option string))
    : list (option string) :=
  match keys with
  | [] => seen
  | key :: keys => first_occurrences (if bool_decide (key ∈ seen) then seen else seen ++ [key]) keys
  end.
Lemma first_occurrences_spec seen keys :
  NoDup seen → NoDup (first_occurrences seen keys) ∧
  ∀ key, key ∈ first_occurrences seen keys ↔ key ∈ seen ∨ key ∈ keys.
Proof.
  revert seen. induction keys as [|k keys IH]; intros seen Hnd; simpl.
  { split; [done|]. intros key. rewrite elem_of_nil. tauto. }
  case_bool_decide as Hin.
  - destruct (IH seen Hnd) as [Hn Hm]. split; [done|]. intros key. rewrite Hm, elem_of_cons. naive_solver.
  - destruct (IH (seen ++ [k])) as [Hn Hm].
    { apply NoDup_app. split; [done|]. split; [|apply NoDup_singleton]. intros x Hx.
      rewrite list_elem_of_singleton. by intros ->. }
    split; [done|]. intros key. rewrite Hm, elem_of_app, list_elem_of_singleton, elem_of_cons. tauto.
Qed.
Lemma foldl_push ks keys :
  foldl (λ acc key, push_selector key acc) (list_to_set ks, selector_of <$> ks) keys =
  (list_to_set (first_occurrences ks keys), selector_of <$> first_occurrences ks keys).
Proof.
  revert ks. induction keys as [|k keys IH]; intros ks; simpl; [done|].
  assert (bool_decide (k ∈ (list_to_set ks : gset (option string))) = bool_decide (k ∈ ks)) as ->.
  { apply bool_decide_ext, elem_of_list_to_set. }
  case_bool_decide; [apply IH|]. rewrite <- IH. f_equal. rewrite fmap_app, list_to_set_app_L. simpl.
  f_equal. set_solver.
Qed.
Definition push_rule (user : option Principal) (acc : gset (option string) * list HubProjectSelector)
    (rule : HubRule) :=
  if negb (HubSelector_matches (hr_selector rule) user) || negb (any_match (hr_capabilities rule) "hub")
  then acc else
  foldl (λ acc project, push_selector (selector_key project) acc)
    (if bool_decide (hr_projects rule = []) then push_selector None acc else acc) (hr_projects rule).
Lemma push_rule_keys user acc rule c :
  hub_compile_rule_pure rule = Some c →
  push_rule user acc c =
  foldl (λ acc key, push_selector key acc) acc
    (if hub_rule_selects rule user && any_glob (gr_capabilities rule) "hub" then rule_keys rule else []).
Proof.
  intros (Hp & Hs & Hm)%hub_compile_rule_grants. unfold push_rule.
  rewrite Hs, (any_match_glob _ _ "hub" Hm), Hp, <- negb_andb.
  destruct (_ && _); simpl; [|done]. unfold rule_keys.
  destruct (gr_projects rule) as [|p ps]; [done|]. rewrite bool_decide_false by done.
  generalize (p :: ps) as l. intros l. revert acc. induction l as [|x l IH]; intros acc; simpl; [done|].
  apply IH.
Qed.
Lemma foldl_push_rules user rules cs acc :
  mapM hub_compile_rule_pure rules = Some cs →
  foldl (push_rule user) acc cs =
  foldl (λ acc key, push_selector key acc) acc (hub_keys user rules).
Proof.
  intros Hm%mapM_Some. revert acc. induction Hm as [|r c rules cs Hr _ IH]; intros acc; [done|].
  cbn [foldl]. rewrite (push_rule_keys _ _ _ _ Hr), IH. unfold hub_keys.
  by rewrite bind_cons, foldl_app.
Qed.
Lemma guarded_selectors policy identity stop :
  guarded stop RP_Deadline (selectors policy identity stop)
    (Ok (foldl (push_rule (principal_hub identity)) (∅, []) policy).2).
Proof.
  unfold selectors.
  apply (guarded_bind _ _ _ _ (Ok (foldl (push_rule (principal_hub identity)) (∅, []) policy))
           (λ acc, Ok acc.2)).
  - apply guarded_mfor. intros acc rule. apply guarded_check. unfold push_rule.
    destruct (_ || _)%bool; [apply guarded_ret|]. apply guarded_mfor.
    intros; apply guarded_check, guarded_ret.
  - intros [seen sels] _. apply guarded_check, guarded_ret.
Qed.

(** The project selectors of a Hub response: the projects of the rules that
    select the caller and grant [hub], each once. *)
Lemma hub_selectors_exact snapshot identity stop :
  ∃ keys,
    NoDup keys ∧
    (∀ key, key ∈ keys ↔ ∃ rule, rule ∈ gs_rules snapshot ∧
       hub_rule_selects rule (principal_hub identity) = true ∧
       any_glob (gr_capabilities rule) "hub" = true ∧ key ∈ rule_keys rule) ∧
    guarded stop RP_Deadline
      (let? policy := hub_compile snapshot stop in selectors policy identity stop)
      (if forallb hub_rule_valid (gs_rules snapshot)
       then Ok (selector_of <$> keys) else Err RP_InvalidPolicy).
Proof.
  set (user := principal_hub identity). set (rules := gs_rules snapshot).
  destruct (first_occurrences_spec [] (hub_keys user rules) ltac:(constructor)) as [Hnd Hin].
  exists (first_occurrences [] (hub_keys user rules)). split; [done|]. split.
  { intros key. rewrite Hin, elem_of_nil. unfold hub_keys. rewrite list_elem_of_bind. split.
    - intros [[]|(rule & Hk & Hr)]. exists rule.
      destruct (_ && _) eqn:Ea; [|by apply elem_of_nil in Hk]. by bool_to_prop.
    - intros (rule & Hr & Hs & Hc & Hk). right. exists rule. by rewrite Hs, Hc. }
  pose proof (compiled_or_invalid _ _ rules hub_compile_rule_valid) as Hv.
  assert ((if forallb hub_rule_valid rules
           then Ok (selector_of <$> first_occurrences [] (hub_keys user rules))
           else Err RP_InvalidPolicy) =
          rbind (ok_or (mapM hub_compile_rule_pure rules) RP_InvalidPolicy)
            (λ cs, Ok (foldl (push_rule user) (∅, []) cs).2)) as ->.
  { destruct (mapM hub_compile_rule_pure rules) as [cs|] eqn:Em; rewrite Hv; simpl; [|done].
    rewrite (foldl_push_rules user rules cs _ Em).
    change (∅, []) with (list_to_set [] : gset (option string), selector_of <$> []).
    by rewrite foldl_push. }
  apply guarded_bind; [apply guarded_hub_compile|]. intros policy _. apply guarded_selectors.
Qed.

(** The catalog routes of a caller, read off the rules. *)
Definition hub_route (user : option Principal) (rule : ResourceGrantRule) : option HubCatalogRoute :=
  if hub_rule_selects rule user && any_glob (gr_capabilities rule) "hub"
  then Some {| cr_route := trim (gr_s3_route rule); cr_projects := trim <$> gr_projects rule |}
  else None.
Lemma select_pure_omap {A B C} (f : nat → B → option C) (g : A → option C) (comp : A → option B) l l' :
  mapM comp l = Some l' →
  (∀ i x y, l !! i = Some x → comp x = Some y → f i y = g x) →
  select_pure f 0 l' = omap g l.
Proof.
  intros Hm%mapM_Some Hf. change (select_pure f 0 l') with (select_pure f (0 + 0) l').
  assert (∀ k, (∀ i x y, l !! i = Some x → comp x = Some y → f (k + i) y = g x) →
    select_pure f k l' = omap g l) as Hgen; [|by apply Hgen].
  clear Hf. induction Hm as [|x y l l' Hxy _ IH]; intros k Hf; [done|]. simpl.
  rewrite (IH (S k)).
  - rewrite <- (Hf 0 x y eq_refl Hxy), Nat.add_0_r. by destruct (f k y).
  - intros i a b Hi. specialize (Hf (S i) a b Hi). by rewrite Nat.add_succ_r in Hf.
Qed.
Lemma catalog_routes_exact snapshot policy identity stop c routes c' :
  mapM hub_compile_rule_pure (gs_rules snapshot) = Some policy →
  catalog_routes policy identity snapshot stop c = (Ok routes, c') →
  routes = omap (hub_route (principal_hub identity)) (gs_rules snapshot).
Proof.
  unfold catalog_routes. intros Hm Hrun.
  eapply guarded_ok in Hrun; [|apply guarded_select_rules]. injection Hrun as <-.
  eapply select_pure_omap; [exact Hm|]. intros i rule cr Hi (Hp & Hs & Hc)%hub_compile_rule_grants.
  unfold hub_route, route_of. by rewrite Hs, (any_match_glob _ _ _ Hc), Hp, Hi.
Qed.

(** ** Properties *)

(** C13. The decision on a PROJECT capability is: [InvalidPolicy] when any rule
    of the snapshot is invalid (whoever it selects), otherwise allowed exactly
    when one single rule selects the caller and grants the capability and
    covers the project; a missing rule denies.  The deadline can replace the
    decision by the deadline error, and by nothing else. *)
Theorem policy_decision snapshot user capability project stop :
  guarded stop RP_Deadline
    (let? policy := compile snapshot stop in allows_principal policy user capability project stop)
    (if forallb rule_valid (gs_rules snapshot)
     then Ok (existsb (rule_allows user capability project) (gs_rules snapshot))
     else Err RP_InvalidPolicy).
Proof.
  eapply guarded_decision; [apply guarded_compile|apply compile_rule_valid|].
  intros rule c (Hp & Hs & Hc)%(compile_rule_allows user capability). simpl.
  unfold rule_allows. by rewrite Hp, Hs, Hc.
Qed.

(** The decision over every project: only a rule without projects or with
    the project [*] grants it, and a valid policy that grants it grants the
    capability on each project. *)
Theorem policy_decision_any snapshot user capability stop :
  guarded stop RP_Deadline
    (let? policy := compile snapshot stop in allows_any_principal policy user capability stop)
    (if forallb rule_valid (gs_rules snapshot)
     then Ok (existsb (rule_allows_any user capability) (gs_rules snapshot))
     else Err RP_InvalidPolicy) ∧
  (existsb (rule_allows_any user capability) (gs_rules snapshot) = true →
   ∀ project, existsb (rule_allows user capability project) (gs_rules snapshot) = true).
Proof.
  split.
  - eapply guarded_decision; [apply guarded_compile|apply compile_rule_valid|].
    intros rule c (Hp & Hs & Hc)%(compile_rule_allows user capability). simpl.
    unfold rule_allows_any. by rewrite Hp, Hs, Hc.
  - intros (rule & Hin & Ha)%existsb_elem project. apply existsb_elem. exists rule. split; [done|].
    unfold rule_allows_any, rule_allows in *. bool_to_prop.
    apply andb_true_iff. split; [by apply andb_true_iff|].
    select (_ || _ = true)%bool (fun Hx => apply orb_true_iff in Hx as [Hx|Hx]; [by rewrite Hx|]).
    apply orb_true_iff. right. select (existsb _ _ = true) (fun Hx => apply existsb_elem in Hx as (p & Hpin & Hp)).
    apply existsb_elem. exists p. by rewrite Hp.
Qed.

(** A Hub selector on a caller: [anonymous] selects exactly the callers
    without credentials, [subject] exactly the subject itself or the text
    issuer|subject, and the other selectors are equalities on the
    authenticated attributes. *)
Theorem HubSelector_matches_spec s user :
  HubSelector_matches s user = true ↔
  match s, user with
  | HubGlobal, _ => True
  | HubAnonymous, None => True
  | HubAuthenticated, Some _ => True
  | HubUser v, Some u => pr_username u = Some v
  | HubTeam v, Some u => v ∈ pr_teams u
  | HubOrganization v, Some u => pr_organization u = Some v
  | HubSubject v, Some u => v = pr_subject u ∨ v = pr_issuer u +:+ "|" +:+ pr_subject u
  | _, _ => False
  end.
Proof.
  destruct s, user as [u|]; simpl; rewrite ?bool_decide_eq_true; try naive_solver.
  - rewrite existsb_elem. setoid_rewrite str_eqb_eq. naive_solver.
  - rewrite orb_true_iff, str_eqb_eq, bool_decide_eq_true, bind_Some.
    setoid_rewrite strip_prefix_Some. naive_solver.
Qed.

(** The decision on an inference capability: like the PROJECT decision, it
    needs a valid policy and one rule that both selects the caller and grants
    the capability, and an anonymous caller is a caller like any other. *)
Theorem inference_decision snapshot identity capability stop :
  guarded stop RP_Deadline
    (let? policy := hub_compile snapshot stop in allows_inference policy identity capability stop)
    (if forallb hub_rule_valid (gs_rules snapshot)
     then Ok (existsb (λ rule, hub_rule_selects rule (principal_inference identity)
                               && any_glob (gr_capabilities rule) capability) (gs_rules snapshot))
     else Err RP_InvalidPolicy).
Proof.
  eapply guarded_decision; [apply guarded_hub_compile|apply hub_compile_rule_valid|].
  intros rule c (Hp & Hs & Hm)%hub_compile_rule_grants. simpl.
  by rewrite Hs, (any_match_glob _ _ _ Hm).
Qed.
End policy.
