(* ===== verification/StorageAdmission.v ===== *)
(** * Storage admission

    crates/broker-control/src/storage_admission.rs: the requested scope and
    its roots, the retained authentication of a storage caller, and the error
    type of the component. *)

From S2P Require Import Prelude RustStr Order Control LocalBearer BrokerAccess.
From S2P Require Import Session Identity InstanceRegistry ResourceGrants.
From S2P Require Import ResourcePolicy.

(** ** Data *)

Inductive StorageAdmissionError :=
| SA_Native (e : BrokerAccessError) | SA_Local (e : LocalBearerVerificationError)
| SA_Grants (e : ResourceGrantReadError) | SA_Control (e : ControlError)
| SA_InvalidConfiguration | SA_InvalidScope | SA_InvalidPolicy | SA_ConflictingRoutes
| SA_Forbidden | SA_Deadline.
(** [From<ResourcePolicyError>] *)
Definition SA_from_policy (e : ResourcePolicyError) : StorageAdmissionError :=
  match e with RP_InvalidPolicy => SA_InvalidPolicy | RP_Deadline => SA_Deadline end.

Inductive StorageModule := ModHub | ModTask | ModMemory | ModKnowledge | ModAst.
Definition StorageModule_as_str (m : StorageModule) : string :=
  match m with
  | ModHub => "hub" | ModTask => "task" | ModMemory => "memory" | ModKnowledge => "knowledge"
  | ModAst => "ast"
  end.
Inductive StorageScope :=
| ScProject (project_id : string) (module : StorageModule)
| ScUserMemory (installation_id : string)
| ScGlobalHub.
Definition is_global_hub (s : StorageScope) : bool :=
  match s with ScGlobalHub => true | _ => false end.
Definition scope_project_id (s : StorageScope) : option string :=
  match s with ScProject id _ => Some id | _ => None end.
Definition scope_installation_id (s : StorageScope) : option string :=
  match s with ScUserMemory id => Some id | _ => None end.
Definition scope_module (s : StorageScope) : StorageModule :=
  match s with ScProject _ m => m | ScUserMemory _ => ModMemory | ScGlobalHub => ModHub end.

(** ** The namespace of a user *)

(** [u64::to_be_bytes] and the lower-case hexadecimal digits. *)
Fixpoint be_bytes (n : nat) (v : Z) : list ascii :=
  match n with
  | O => []
  | S n => be_bytes n (v / 256) ++ [ascii_of_N (Z.to_N (v mod 256))]
  end.
Definition hex_digit (d : Z) : ascii :=
  if (d <? 10)%Z then ascii_of_N (Z.to_N (48 + d)) else ascii_of_N (Z.to_N (87 + d)).
Definition hex_byte (b : ascii) : list ascii :=
  [hex_digit (Z.shiftr (code b) 4); hex_digit (Z.land (code b) 15)].
(** [hex::decode], of lower-case digits. *)
Definition unhex_digit (b : ascii) : option Z :=
  if is_ascii_digit b then Some (code b - 48)%Z
  else if in_range 97 102 b then Some (code b - 87)%Z else None.
Fixpoint unhex (l : list ascii) : option (list ascii) :=
  match l with
  | [] => Some []
  | a :: b :: l =>
      x ← unhex_digit a; y ← unhex_digit b; rest ← unhex l;
      Some (ascii_of_N (Z.to_N (16 * x + y)) :: rest)
  | _ => None
  end.
(** The text that is hashed: a domain, then each part with its length. *)
Definition frame (part : string) : list ascii := be_bytes 8 (len part) ++ bytes part.
Definition namespace_preimage (issuer subject : string) : string :=
  "graphit-user-namespace-v1" +:+ of_bytes ("000"%char :: frame issuer ++ frame subject).

Section storage.
Context `{UlidLib, JwtLib}.

Definition StorageScope_project (project_id : string) (module : StorageModule)
    : result StorageAdmissionError StorageScope :=
  if negb (canonical_project_id project_id) then Err SA_InvalidScope
  else Ok (ScProject project_id module).
Definition StorageScope_user_memory (installation_id : string)
    : result StorageAdmissionError StorageScope :=
  if negb ((1 <=? len installation_id)%Z && (len installation_id <=? 128)%Z)
     || negb (first_byte is_ascii_alphanumeric installation_id)
     || negb (last_byte is_ascii_alphanumeric installation_id)
     || negb (all_bytes (λ b, is_ascii_alphanumeric b || existsb (Ascii.eqb b) (bytes "._-")) installation_id)
  then Err SA_InvalidScope
  else Ok (ScUserMemory installation_id).

Section roots.
(** SHA-256, from a message to its 32 bytes. *)
Context (sha256 : string → string).

Definition user_namespace (issuer subject : string) : string :=
  of_bytes (bytes (sha256 (namespace_preimage issuer subject)) ≫= hex_byte).
Definition storage_owner (identity : StorageIdentity) : string * string :=
  match identity with
  | SI_Native p => (vb_issuer p, vb_subject p)
  | SI_Local p => (lu_issuer (current_local_user p), lu_subject (current_local_user p))
  end.
Definition roots (scope : StorageScope) (identity : StorageIdentity) : list string :=
  match scope with
  | ScGlobalHub => ["v1/hub/global/registry"; "v1/hub/global/rules"]
  | ScProject id ModHub =>
      ["v1/projects/" +:+ id +:+ "/registry"; "v1/projects/" +:+ id +:+ "/artifacts";
       "v1/projects/" +:+ id +:+ "/hub/metadata"; "v1/projects/" +:+ id +:+ "/hub/events"]
  | ScProject id module => ["v1/projects/" +:+ id +:+ "/corpora/" +:+ StorageModule_as_str module]
  | ScUserMemory installation_id =>
      let (issuer, subject) := storage_owner identity in
      ["v1/installations/" +:+ installation_id +:+ "/users/" +:+ user_namespace issuer subject
       +:+ "/corpora/memory"]
  end.
End roots.

(** ** The retained authentication *)

Record StorageAuthentication := {
  sa_identity : StorageIdentity;
  sa_end : Z;
  sa_expires_at : Z;
  sa_expires_mono : Z;
}.
Definition sa_check (a : StorageAuthentication) : M clock StorageAdmissionError unit :=
  let? now := instant_now in
  if (sa_end a <=? now)%Z then fail SA_Deadline else
  let expired := match sa_identity a with
                 | SI_Native _ => SA_Native BA_Expired
                 | SI_Local _ => SA_Local LBV_Unauthenticated
                 end in
  let? utc := system_now in
  if (sa_expires_at a <=? utc)%Z then fail expired else
  let? mono := instant_now in
  if (sa_expires_mono a <=? mono)%Z then fail expired else
  match sa_identity a with
  | SI_Native p => map_err SA_Native (vb_check p)
  | SI_Local _ => ret tt
  end.
Definition StorageAuthentication_new (identity : StorageIdentity) (stop : Z)
    : M clock StorageAdmissionError StorageAuthentication :=
  let? (identity, (expires_at, expires_mono)) :=
    match identity with
    | SI_Native p =>
        do? map_err SA_Native (vb_check p) in
        ret (SI_Native p, vb_authentication_expiry p)
    | SI_Local p =>
        let? now := map_err (λ e, SA_Local (LBV_Control e)) now_micros in
        let? p := map_err SA_Local (vl_finish p now) in
        ret (SI_Local p, vl_authentication_expiry p)
    end in
  let auth := {| sa_identity := identity; sa_end := stop; sa_expires_at := expires_at;
                 sa_expires_mono := expires_mono |} in
  do? sa_check auth in
  ret auth.
Definition sa_subject (a : StorageAuthentication) : string :=
  match sa_identity a with
  | SI_Native p => vb_issuer p +:+ "|" +:+ vb_subject p
  | SI_Local p => lu_issuer (current_local_user p) +:+ "|" +:+ lu_subject (current_local_user p)
  end.

(** A current decision with its authenticated caller; [ag_access] has one
    sorted list of prefixes per operation. *)
Record AuthorizedStorageGrant := {
  ag_auth : StorageAuthentication;
  ag_scope : StorageScope;
  ag_route : string;
  ag_revision : Z;
  ag_access : list (list string);
}.
Definition ag_prefixes (g : AuthorizedStorageGrant) (op : StorageOperation) : list string :=
  default [] (ag_access g !! StorageOperation_index op).
Definition ag_check (g : AuthorizedStorageGrant) : M clock StorageAdmissionError unit :=
  sa_check (ag_auth g).
End storage.

(** ** Lemmas *)

Lemma unhex_byte b l : unhex (hex_byte b ++ l) = (λ l, b :: l) <$> unhex l.
Proof.
  assert (∃ x y, hex_byte b = [x; y] ∧ (unhex_digit x ≫= λ x, unhex_digit y ≫= λ y,
    Some (ascii_of_N (Z.to_N (16 * x + y)))) = Some b) as (x & y & -> & Hb).
  { do 2 eexists. split; [done|]. by destruct b as [[] [] [] [] [] [] [] []]. }
  simpl. destruct (unhex_digit x) as [i|]; simpl in *; [|done]. destruct (unhex_digit y) as [j|]; simpl in *; [|done].
  injection Hb as ->. by destruct (unhex l).
Qed.
Lemma unhex_hex l : unhex (l ≫= hex_byte) = Some l.
Proof. induction l as [|b l IH]; [done|]. cbn [mbind list_bind]. by rewrite unhex_byte, IH. Qed.
Lemma length_be_bytes n v : length (be_bytes n v) = n.
Proof. revert v. induction n as [|n IH]; intros v; simpl; [done|]. rewrite length_app, IH. simpl. lia. Qed.
Lemma be_bytes_inj n v w :
  (0 ≤ v < 256 ^ Z.of_nat n)%Z → (0 ≤ w < 256 ^ Z.of_nat n)%Z → be_bytes n v = be_bytes n w → v = w.
Proof.
  revert v w. induction n as [|n IH]; intros v w Hv Hw Heq; [simpl in *; lia|].
  rewrite Nat2Z.inj_succ, Z.pow_succ_r in Hv, Hw by lia.
  cbn [be_bytes] in Heq. apply app_inj_2 in Heq as [Hq Hr]; [|done].
  assert (v / 256 = w / 256)%Z as Hd.
  { apply IH; [| |done].
    - split; [apply Z.div_pos; lia|apply Z.div_lt_upper_bound; lia].
    - split; [apply Z.div_pos; lia|apply Z.div_lt_upper_bound; lia]. }
  injection Hr as Hr%(f_equal N_of_ascii).
  pose proof (Z.mod_pos_bound v 256 ltac:(lia)). pose proof (Z.mod_pos_bound w 256 ltac:(lia)).
  rewrite !N_ascii_embedding in Hr by lia.
  rewrite (Z.div_mod v 256), (Z.div_mod w 256) by lia. lia.
Qed.
Lemma frame_inj a b x y :
  (len a ≤ U64_MAX)%Z → (len b ≤ U64_MAX)%Z →
  frame a ++ x = frame b ++ y → a = b ∧ x = y.
Proof.
  intros Ha Hb Heq. unfold frame in Heq. rewrite <- !(assoc_L (++)) in Heq.
  apply app_inj_1 in Heq as [Hl Heq]; [|by rewrite !length_be_bytes].
  assert (U64_MAX < 256 ^ Z.of_nat 8)%Z by done.
  assert (0 ≤ len a ∧ 0 ≤ len b)%Z by (unfold len; lia).
  apply be_bytes_inj in Hl; [|lia..]. unfold len in Hl.
  apply app_inj_1 in Heq as [Heq ->]; [|rewrite !length_bytes; lia].
  apply bytes_inj in Heq. done.
Qed.

(** The text hashed into a user's namespace determines the user: no two
    different pairs of issuer and subject share a preimage, so two users share
    a storage namespace only through a collision of SHA-256 itself. *)
Theorem namespace_preimage_inj issuer subject issuer' subject' :
  (len issuer ≤ U64_MAX)%Z → (len issuer' ≤ U64_MAX)%Z →
  (len subject ≤ U64_MAX)%Z → (len subject' ≤ U64_MAX)%Z →
  namespace_preimage issuer subject = namespace_preimage issuer' subject' →
  issuer = issuer' ∧ subject = subject'.
Proof.
  intros Hi Hi' Hs Hs' Heq. unfold namespace_preimage in Heq.
  apply str_app_inj_l, (f_equal bytes) in Heq. rewrite !bytes_of_bytes in Heq.
  apply (f_equal tail) in Heq. cbn [tail] in Heq.
  apply frame_inj in Heq as [-> Heq]; [|done..].
  rewrite <- (app_nil_r (frame subject)), <- (app_nil_r (frame subject')) in Heq.
  by apply frame_inj in Heq as [-> _].
Qed.
Lemma namespace_preimage_inj_witness :
  (len "local" ≤ U64_MAX)%Z ∧ (namespace_preimage "a" "bc" = namespace_preimage "ab" "c" → False).
Proof.
  split; [done|]. intros Heq.
  by destruct (namespace_preimage_inj "a" "bc" "ab" "c" ltac:(done) ltac:(done) ltac:(done) ltac:(done) Heq).
Defined.
