(* ===== verification/Credentials.v ===== *)
(** * Credential digests

    crates/broker-security/src/credentials.rs: the keyed digests under which
    tokens, browser bindings, recovery codes and subjects are stored, and the
    random challenges of local_mfa.rs.  HMAC-SHA256 and base64 are parameters. *)

From stdpp Require Import gmap.
From S2P Require Import Prelude RustStr Order Control LocalBearer BrokerAccess.
From S2P Require Import Session Identity InstanceRegistry ResourceGrants ResourcePolicy StorageAdmission.

Definition FRAME : string := "graphit-broker/rust-credential-digest/v1".
Definition BINDING_DOMAIN : Z := 13.
Definition RECOVERY_DOMAIN : Z := 14.
Definition OIDC_SUBJECT_DOMAIN : Z := 15.
Definition MIN_PEPPER_BYTES : Z := 32.
Inductive CredentialError :=
| CDE_InvalidLimits | CDE_InvalidPepper | CDE_EmptyInput | CDE_InputTooLong | CDE_InvalidSqlDigest | CDE_VerificationFailed.
Record DigestLimits := { dl_pepper : Z; dl_token : Z; dl_binding : Z; dl_subject : Z; dl_recovery : Z }.
Definition DigestLimits_new (pepper token binding subject recovery : Z) : result CredentialError DigestLimits :=
  if (pepper <? MIN_PEPPER_BYTES)%Z then Err CDE_InvalidLimits else
  Ok {| dl_pepper := pepper; dl_token := token; dl_binding := binding; dl_subject := subject; dl_recovery := recovery |}.
Inductive TokenKind :=
| AdminSession | OidcFlowState | OidcBrowserBinding | LocalAccess | LocalRefresh | ServiceCredential | DeviceCode
| DeviceUserCode | OidcAuthRequest | OidcAuthorizationCode | OidcStoredAccess | LocalAuthChallenge.
Definition TokenKind_u8 (k : TokenKind) : Z :=
  match k with
  | AdminSession => 1 | OidcFlowState => 2 | OidcBrowserBinding => 3 | LocalAccess => 4 | LocalRefresh => 5
  | ServiceCredential => 6 | DeviceCode => 7 | DeviceUserCode => 8 | OidcAuthRequest => 9 | OidcAuthorizationCode => 10
  | OidcStoredAccess => 11 | LocalAuthChallenge => 12
  end.
Inductive LocalAuthPurpose := PurposeAdminLogin | PurposeOauthAuthorize | PurposeDeviceApprove.
Definition LocalAuthPurpose_u8 (p : LocalAuthPurpose) : Z :=
  match p with PurposeAdminLogin => 1 | PurposeOauthAuthorize => 2 | PurposeDeviceApprove => 3 end.
Inductive LocalAuthBinding :=
| BindAdminLogin | BindOauthAuthorize (value : string) | BindDeviceApprove (value : string).
Definition u8 (n : Z) : string := of_bytes [ascii_of_N (Z.to_N n)].

(** ** Digests *)

(** 32 bytes. *)
Definition CredentialDigest : Type := string.
Definition parse_sql_hex (value : string) : result CredentialError CredentialDigest :=
  if negb (len value =? 64)%Z || negb (all_bytes (λ b, is_ascii_digit b || in_range 97 102 b) value)
  then Err CDE_InvalidSqlDigest else
  ok_or (of_bytes <$> unhex (bytes value)) CDE_InvalidSqlDigest.
Definition to_sql_hex (d : CredentialDigest) : string := of_bytes (bytes d ≫= hex_byte).

Class CredentialLib := {
  hmac : string → string → option string;
  url_b64_encode : string → string;
  url_b64_decode : string → option string;
}.
Record CredentialDigester := { cd_pepper : string; cd_limits : DigestLimits }.
Definition CredentialDigester_new (pepper : string) (limits : DigestLimits) : result CredentialError CredentialDigester :=
  if (len pepper <? MIN_PEPPER_BYTES)%Z || (dl_pepper limits <? len pepper)%Z then Err CDE_InvalidPepper else
  Ok {| cd_pepper := pepper; cd_limits := limits |}.
Definition validate_input (value : string) (cap : Z) : result CredentialError unit :=
  if is_empty value then Err CDE_EmptyInput else
  if (cap <? len value)%Z then Err CDE_InputTooLong else Ok tt.

Section digester.
Context `{CredentialLib} (d : CredentialDigester).

(** What is authenticated: the frame, the domain, the number of fields and each
    field with its length. *)
Definition frame_message (domain : Z) (fields : list string) : string :=
  FRAME +:+ u8 domain +:+ u8 (Z.of_nat (length fields)) +:+ of_bytes (fields ≫= frame).
Definition framed_mac (domain : Z) (fields : list string) : result CredentialError string :=
  if (255 <? Z.of_nat (length fields))%Z then Err CDE_InputTooLong else
  if existsb (λ f, U64_MAX <? len f)%Z fields then Err CDE_InputTooLong else
  ok_or (hmac (cd_pepper d) (frame_message domain fields)) CDE_InvalidPepper.
(** [Mac::verify_slice] *)
Definition verify_mac (mac expected : string) : result CredentialError unit :=
  if str_eqb mac expected then Ok tt else Err CDE_VerificationFailed.
Definition oidc_subject (issuer subject : string) : result CredentialError string :=
  let! _ := validate_input issuer (dl_subject (cd_limits d)) in
  let! _ := validate_input subject (dl_subject (cd_limits d)) in
  rmap url_b64_encode (framed_mac OIDC_SUBJECT_DOMAIN [issuer; subject]).
Definition token (kind : TokenKind) (value : string) : result CredentialError CredentialDigest :=
  let! _ := validate_input value (dl_token (cd_limits d)) in
  framed_mac (TokenKind_u8 kind) [value].
Definition verify_token (kind : TokenKind) (value : string) (expected : CredentialDigest) : result CredentialError unit :=
  let! _ := validate_input value (dl_token (cd_limits d)) in
  let! mac := framed_mac (TokenKind_u8 kind) [value] in
  verify_mac mac expected.
Definition binding (purpose : LocalAuthPurpose) (value : string) : result CredentialError CredentialDigest :=
  let! _ := validate_input value (dl_binding (cd_limits d)) in
  framed_mac BINDING_DOMAIN [u8 (LocalAuthPurpose_u8 purpose); value].
Definition verify_binding (purpose : LocalAuthPurpose) (value : string) (expected : CredentialDigest)
    : result CredentialError unit :=
  let! _ := validate_input value (dl_binding (cd_limits d)) in
  let! mac := framed_mac BINDING_DOMAIN [u8 (LocalAuthPurpose_u8 purpose); value] in
  verify_mac mac expected.
Definition local_auth_binding (context : LocalAuthBinding) : result CredentialError CredentialDigest :=
  match context with
  | BindAdminLogin => framed_mac BINDING_DOMAIN [u8 (LocalAuthPurpose_u8 PurposeAdminLogin); ""]
  | BindOauthAuthorize value => binding PurposeOauthAuthorize value
  | BindDeviceApprove value => binding PurposeDeviceApprove value
  end.
Definition verify_local_auth_binding (context : LocalAuthBinding) (expected : CredentialDigest)
    : result CredentialError unit :=
  match context with
  | BindAdminLogin =>
      let! mac := framed_mac BINDING_DOMAIN [u8 (LocalAuthPurpose_u8 PurposeAdminLogin); ""] in
      verify_mac mac expected
  | BindOauthAuthorize value => verify_binding PurposeOauthAuthorize value expected
  | BindDeviceApprove value => verify_binding PurposeDeviceApprove value expected
  end.
Definition validate_recovery (subject code : string) : result CredentialError unit :=
  let! _ := validate_input subject (dl_subject (cd_limits d)) in
  validate_input code (dl_recovery (cd_limits d)).
Definition recovery (subject normalized_code : string) : result CredentialError CredentialDigest :=
  let! _ := validate_recovery subject normalized_code in
  framed_mac RECOVERY_DOMAIN [subject; normalized_code].
Definition verify_recovery (subject normalized_code : string) (expected : CredentialDigest) : result CredentialError unit :=
  let! _ := validate_recovery subject normalized_code in
  let! mac := framed_mac RECOVERY_DOMAIN [subject; normalized_code] in
  verify_mac mac expected.
End digester.

(** ** Random challenges (local_mfa.rs) *)

Section challenges.
Context `{CredentialLib}.
(** The 32 random bytes, or the failure of the generator. *)
Definition new_local_auth_challenge (random : option string) : option string := url_b64_encode <$> random.
Definition validate_local_auth_challenge (raw : string) : bool :=
  (len raw =? 43)%Z
  && is_some_and (url_b64_decode raw) (λ data, (len data =? 32)%Z && str_eqb (url_b64_encode data) raw).
End challenges.

(** ** What a digest is of *)

Section separation.
Context `{CredentialLib} (d : CredentialDigester).

(** Everything that is digested, and the message it is digested as. *)
Inductive Credential :=
| CToken (kind : TokenKind) (value : string)
| CBinding (context : LocalAuthBinding)
| CRecovery (subject code : string)
| CSubject (issuer subject : string).
Definition credential_digest (c : Credential) : result CredentialError string :=
  match c with
  | CToken kind value => token d kind value
  | CBinding context => local_auth_binding d context
  | CRecovery subject code => recovery d subject code
  | CSubject issuer subject => oidc_subject d issuer subject
  end.
Definition credential_fields (c : Credential) : Z * list string :=
  match c with
  | CToken kind value => (TokenKind_u8 kind, [value])
  | CBinding BindAdminLogin => (BINDING_DOMAIN, [u8 1; ""])
  | CBinding (BindOauthAuthorize value) => (BINDING_DOMAIN, [u8 2; value])
  | CBinding (BindDeviceApprove value) => (BINDING_DOMAIN, [u8 3; value])
  | CRecovery subject code => (RECOVERY_DOMAIN, [subject; code])
  | CSubject issuer subject => (OIDC_SUBJECT_DOMAIN, [issuer; subject])
  end.
Definition credential_message (c : Credential) : string := frame_message (credential_fields c).1 (credential_fields c).2.
Lemma credential_fields_inj a b : credential_fields a = credential_fields b → a = b.
Proof.
  destruct a as [[] v|[]|s c|i s], b as [[] v'|[]|s' c'|i' s']; simpl; intros Heq;
    first [done|discriminate Heq|injection Heq; intros; by subst].
Qed.
Lemma u8_inj m n : (0 ≤ m < 256)%Z → (0 ≤ n < 256)%Z → u8 m = u8 n → m = n.
Proof.
  unfold u8. intros Hm Hn Heq. injection Heq as Heq. apply (f_equal N_of_ascii) in Heq.
  rewrite !N_ascii_embedding in Heq by lia. lia.
Qed.
Lemma frames_inj l k :
  length l = length k → Forall (λ f, len f ≤ U64_MAX)%Z l → Forall (λ f, len f ≤ U64_MAX)%Z k →
  l ≫= frame = k ≫= frame → l = k.
Proof.
  revert k. induction l as [|x l IH]; intros [|y k] Hlen Hl Hk Heq; try done.
  apply Forall_cons in Hl as [Hx Hl]. apply Forall_cons in Hk as [Hy Hk]. cbn [mbind list_bind] in Heq.
  apply frame_inj in Heq as [-> Heq]; [|done..]. f_equal. apply IH; auto.
Qed.
(** The message determines the domain and the fields. *)
Lemma frame_message_inj m l n k :
  (0 ≤ m < 256)%Z → (0 ≤ n < 256)%Z → (Z.of_nat (length l) ≤ 255)%Z → (Z.of_nat (length k) ≤ 255)%Z →
  Forall (λ f, len f ≤ U64_MAX)%Z l → Forall (λ f, len f ≤ U64_MAX)%Z k →
  frame_message m l = frame_message n k → m = n ∧ l = k.
Proof.
  unfold frame_message. intros Hm Hn Hl Hk Fl Fk Heq. apply str_app_inj_l in Heq.
  apply (f_equal bytes) in Heq. rewrite !bytes_app in Heq.
  apply app_inj_1 in Heq as [Hd Heq]; [|done]. apply app_inj_1 in Heq as [Ha Heq]; [|done].
  apply bytes_inj, u8_inj in Hd; [|lia..]. apply bytes_inj, u8_inj in Ha; [|lia..].
  rewrite !bytes_of_bytes in Heq. apply frames_inj in Heq; [done|lia|done|done].
Qed.
Lemma framed_mac_ok domain fields mac :
  framed_mac d domain fields = Ok mac →
  (Z.of_nat (length fields) ≤ 255)%Z ∧ Forall (λ f, len f ≤ U64_MAX)%Z fields ∧
  hmac (cd_pepper d) (frame_message domain fields) = Some mac.
Proof.
  unfold framed_mac. destruct (255 <? _)%Z eqn:El; [done|]. destruct (existsb _ _) eqn:Ef; [done|].
  intros Hh%ok_or_ok. bool_to_prop. split; [lia|]. split; [|done]. apply Forall_forall. intros f Hf.
  apply Z.nlt_ge. intros Hlt. enough (existsb (λ f, U64_MAX <? len f)%Z fields = true) by congruence.
  apply existsb_elem. exists f. split; [done|]. by apply Z.ltb_lt.
Qed.
Lemma credential_digest_ok c x :
  credential_digest c = Ok x →
  ∃ mac, framed_mac d (credential_fields c).1 (credential_fields c).2 = Ok mac ∧
    x = match c with CSubject _ _ => url_b64_encode mac | _ => mac end.
Proof.
  destruct c as [kind v|[|v|v]|s v|i s]; simpl; unfold token, binding, recovery, oidc_subject, validate_recovery;
    intros Hr; try (eexists; split; [exact Hr|done]);
    repeat (apply rbind_ok in Hr as (? & ? & Hr)); try (eexists; split; [exact Hr|done]).
  injection Hr as <-. eauto.
Qed.
(** HMAC-SHA256 gives 32 bytes, and base64 is injective and longer. *)
Class CredentialLaws : Prop := {
  hmac_length key m s : hmac key m = Some s → String.length s = 32;
  b64_length s : String.length s = 32 → String.length (url_b64_encode s) = 43;
  b64_inj s t : url_b64_encode s = url_b64_encode t → s = t;
}.
(** C38. A digest names one credential.  Tokens of different kinds, bindings of
    different purposes, recovery codes and subjects never share the message that
    is authenticated, nor do different values of one kind: when two credentials
    have one digest, it is of both their messages that HMAC-SHA256 under the
    broker's own key gives the same, and either they are the same credential or
    these two messages differ, and so are a collision. *)
Theorem digest_determines_credential a b x `{!CredentialLaws} :
  credential_digest a = Ok x → credential_digest b = Ok x →
  ∃ mac, hmac (cd_pepper d) (credential_message a) = Some mac ∧ hmac (cd_pepper d) (credential_message b) = Some mac ∧
    (a = b ∨ credential_message a ≠ credential_message b).
Proof.
  intros (s & Hs & Hx)%credential_digest_ok (t & Ht & Hy)%credential_digest_ok.
  apply framed_mac_ok in Hs as (L1 & F1 & M1). apply framed_mac_ok in Ht as (L2 & F2 & M2).
  assert (s = t) as <-.
  { pose proof (hmac_length _ _ _ M1) as Ls. pose proof (hmac_length _ _ _ M2) as Lt.
    pose proof (b64_length _ Ls) as Es. pose proof (b64_length _ Lt) as Et.
    destruct a, b; subst x; first [exact Hy|by apply b64_inj|apply (f_equal String.length) in Hy; lia]. }
  exists s. split; [done|]. split; [done|].
  destruct (decide (credential_message a = credential_message b)) as [Heq|Hne]; [left|by right].
  apply credential_fields_inj. apply frame_message_inj in Heq as [H1 H2]; [|..|done|done|done|done].
  - destruct (credential_fields a), (credential_fields b); simpl in *; congruence.
  - by destruct a as [[]|[]| |]; simpl; unfold BINDING_DOMAIN, RECOVERY_DOMAIN, OIDC_SUBJECT_DOMAIN.
  - by destruct b as [[]|[]| |]; simpl; unfold BINDING_DOMAIN, RECOVERY_DOMAIN, OIDC_SUBJECT_DOMAIN.
Qed.
End separation.
(** A keyed function of the message's length. *)
Definition sample_mac_lib : CredentialLib :=
  {| hmac := λ _ m, Some (of_bytes (replicate 31 "0"%char ++ [ascii_of_nat (String.length m)])); url_b64_encode := λ d, d +:+ "AAAAAAAAAAA";
     url_b64_decode := λ _, None |}.
Definition sample_digester : CredentialDigester :=
  {| cd_pepper := "0123456789abcdef0123456789abcdef";
     cd_limits := {| dl_pepper := 64; dl_token := 64; dl_binding := 64; dl_subject := 64; dl_recovery := 64 |} |}.
Lemma digest_determines_credential_witness :
  ∃ x, @credential_digest sample_mac_lib sample_digester (CToken DeviceCode "code") = Ok x ∧
    @credential_digest sample_mac_lib sample_digester (CToken LocalRefresh "code") = Ok x ∧
    (CToken DeviceCode "code" = CToken LocalRefresh "code" ∨
     credential_message (CToken DeviceCode "code") ≠ credential_message (CToken LocalRefresh "code")).
Proof.
  eexists. split; [vm_compute; reflexivity|]. split; [vm_compute; reflexivity|].
  edestruct (@digest_determines_credential sample_mac_lib sample_digester (CToken DeviceCode "code") (CToken LocalRefresh "code"))
    as (mac & _ & _ & Hab); [|vm_compute; reflexivity|vm_compute; reflexivity|exact Hab].
  split.
  - intros key m s Hs. assert (s = of_bytes (replicate 31 "0"%char ++ [ascii_of_nat (String.length m)])) as -> by (by injection Hs as <-).
    by rewrite <- length_bytes, bytes_of_bytes, length_app, length_replicate.
  - intros s Hs. unfold url_b64_encode, sample_mac_lib. rewrite <- length_bytes, bytes_app, length_app, length_bytes, Hs. done.
  - intros s t Heq. unfold url_b64_encode, sample_mac_lib in Heq. apply (f_equal bytes) in Heq. rewrite !bytes_app in Heq.
    by apply app_inv_tail, bytes_inj in Heq.
Defined.

(** The stored form of a digest reads back. *)
Lemma parse_to_sql_hex d : String.length d = 32 → parse_sql_hex (to_sql_hex d) = Ok d.
Proof.
  intros Hd. unfold parse_sql_hex, to_sql_hex, all_bytes. rewrite !bytes_of_bytes, unhex_hex.
  assert (forallb (λ b, is_ascii_digit b || in_range 97 102 b) (bytes d ≫= hex_byte) = true ∧
    length (bytes d ≫= hex_byte) = 2 * length (bytes d)) as [Hall Hl].
  { clear Hd. induction (bytes d) as [|b l [IH1 IH2]]; [done|]. cbn [mbind list_bind]. rewrite forallb_app, length_app. split.
    - apply andb_true_iff. split; [|done]. by destruct b as [[] [] [] [] [] [] [] []].
    - assert (length (hex_byte b) = 2) as -> by done. rewrite IH2. simpl. lia. }
  rewrite Hall. unfold len. rewrite <- length_bytes, bytes_of_bytes, Hl, length_bytes, Hd. simpl. by rewrite of_bytes_bytes.
Qed.
