(* ===== verification/LocalMfa.v ===== *)
(** * Second factors

    crates/broker-security/src/local_mfa.rs: the encrypted secret of a person's
    authenticator, the check of its one-time codes and the recovery codes.
    HMAC-SHA256 and base64 are those of the credential digests; AES-256-GCM, the
    one-time codes and base32 of [totp_rs] are parameters, and so are random
    bytes. *)

From stdpp Require Import gmap.
From S2P Require Import Prelude RustStr Order Control Sql OidcTables StorageAdmission Credentials.

Definition KEY_DOMAIN : string := "graphit-broker/rust-local-mfa-key/v1" +:+ String NUL "".
Definition MFA_SECRET_DOMAIN : string := "graphit-broker/rust-local-mfa-secret/v1" +:+ String NUL "".
Definition PREFIX : string := "rust-mfa1.".
Inductive LocalMfaError :=
| MF_InvalidPepper | MF_InvalidSubject | MF_InvalidCiphertext | MF_Random | MF_Crypto | MF_Presentation.
#[global] Instance LocalMfaError_eq_dec : EqDecision LocalMfaError.
Proof. solve_decision. Defined.

Class MfaLib := {
  Cipher : Type;
  cipher_new : string → option Cipher;
  cipher_encrypt (c : Cipher) (nonce aad msg : string) : option string;
  cipher_decrypt (c : Cipher) (nonce aad msg : string) : option string;
  Totp : Type;
  (* SHA-1, six digits, thirty seconds, no skew *)
  totp_build (secret : string) : option Totp;
  totp_build_for (secret issuer account : string) : option Totp;
  totp_check : Totp → string → Z → bool;
  totp_secret : Totp → string;
  totp_url : Totp → option string;
  totp_qr_png : Totp → option string;
  to_base32 : string → string;
  try_from_base32 : string → option string;
  standard_b64 : string → string;
}.
Record LocalMfaEnrollment := { en_secret : string; en_uri : string; en_png : string; en_data_url : string }.
Definition LocalRecoveryCodes : Type := list string.

Section mfa.
Context `{CredentialLib, MfaLib}.

(** ** The stored secret *)

Definition LocalMfaProtector : Type := Cipher.
Definition LocalMfaProtector_new (pepper : string) : result LocalMfaError LocalMfaProtector :=
  if (len pepper <? 32)%Z then Err MF_InvalidPepper else
  let! key := ok_or (hmac pepper KEY_DOMAIN) MF_InvalidPepper in
  ok_or (cipher_new key) MF_Crypto.
Definition aad (subject : string) : result LocalMfaError string :=
  if is_empty subject || (512 <? len subject)%Z || negb (str_eqb (trim subject) subject) || contains_byte NUL subject
  then Err MF_InvalidSubject else Ok (MFA_SECRET_DOMAIN +:+ of_bytes (frame subject)).
Definition presentation (secret issuer account : string) : result LocalMfaError LocalMfaEnrollment :=
  let! totp := ok_or (totp_build_for secret issuer account) MF_Presentation in
  let! uri := ok_or (totp_url totp) MF_Presentation in
  let! png := ok_or (totp_qr_png totp) MF_Presentation in
  Ok {| en_secret := totp_secret totp; en_uri := uri; en_png := png;
        en_data_url := "data:image/png;base64," +:+ standard_b64 png |}.
(** The 12 random bytes of the nonce, or the failure of the generator. *)
Definition encrypt_secret (p : LocalMfaProtector) (subject secret : string) (nonce : option string) : result LocalMfaError string :=
  let! aad := aad subject in
  if negb (len secret =? 32)%Z then Err MF_InvalidCiphertext else
  let! nonce := ok_or nonce MF_Random in
  let! encrypted := ok_or (cipher_encrypt p nonce aad secret) MF_Crypto in
  Ok (PREFIX +:+ url_b64_encode (nonce +:+ encrypted)).
Definition decrypt (p : LocalMfaProtector) (subject ciphertext : string) : result LocalMfaError string :=
  let! aad := aad subject in
  if negb (len ciphertext =? 90)%Z then Err MF_InvalidCiphertext else
  let! encoded := ok_or (strip_prefix ciphertext PREFIX) MF_InvalidCiphertext in
  let! data := ok_or (url_b64_decode encoded) MF_InvalidCiphertext in
  if negb (len data =? 60)%Z || negb (str_eqb (url_b64_encode data) encoded) then Err MF_InvalidCiphertext else
  let! secret := ok_or (cipher_decrypt p (of_bytes (take 12 (bytes data))) aad (of_bytes (drop 12 (bytes data)))) MF_InvalidCiphertext in
  if negb (len secret =? 32)%Z then Err MF_InvalidCiphertext else Ok secret.
(** The ciphertext and what is shown to the person. *)
Definition mfa_prepare (p : LocalMfaProtector) (subject issuer account : string) (secret nonce : option string)
    : result LocalMfaError (string * LocalMfaEnrollment) :=
  let! secret := ok_or secret MF_Random in
  let! ciphertext := encrypt_secret p subject secret nonce in
  let! enrollment := presentation secret issuer account in
  Ok (ciphertext, enrollment).
Definition mfa_load (p : LocalMfaProtector) (subject ciphertext issuer account : string) : result LocalMfaError LocalMfaEnrollment :=
  let! secret := decrypt p subject ciphertext in
  presentation secret issuer account.
Definition reencrypt (p : LocalMfaProtector) (subject ciphertext : string) (nonce : option string) : result LocalMfaError string :=
  let! secret := decrypt p subject ciphertext in
  encrypt_secret p subject secret nonce.

(** ** One-time codes *)

Definition STEP : Z := 30.
(** The current step, the one before and the one after, as far as they exist. *)
Definition totp_steps (current : Z) : list Z :=
  current :: (if (current =? 0)%Z then [] else [current - 1]%Z) ++ (if (current + 1 <=? U64_MAX)%Z then [current + 1]%Z else []).
Fixpoint totp_find (totp : Totp) (code : string) (last_step : Z) (steps : list Z) : option Z :=
  match steps with
  | [] => None
  | step :: steps =>
      if (U64_MAX <? step * STEP)%Z || (I64_MAX <? step)%Z then totp_find totp code last_step steps
      else if (last_step <? step)%Z && totp_check totp code (step * STEP)%Z then Some step
      else totp_find totp code last_step steps
  end.
Definition mfa_verify (p : LocalMfaProtector) (subject ciphertext code : string) (seconds last_step : Z)
    : result LocalMfaError (option Z) :=
  let! secret := decrypt p subject ciphertext in
  let code := trim code in
  if negb (len code =? 6)%Z || negb (all_bytes is_ascii_digit code) then Ok None else
  let! totp := ok_or (totp_build secret) MF_Crypto in
  Ok (totp_find totp code last_step (totp_steps (seconds / STEP))).

(** ** Recovery codes *)

Definition slice (from to : nat) (s : string) : string := of_bytes (take (to - from) (drop from (bytes s))).
(** 20 bytes are 32 characters in base32. *)
Definition recovery_code (encoded : string) : string :=
  slice 0 8 encoded +:+ "-" +:+ slice 8 16 encoded +:+ "-" +:+ slice 16 24 encoded +:+ "-" +:+ of_bytes (drop 24 (bytes encoded)).
(** Each drawn from 20 random bytes, and refused when it came before. *)
Fixpoint generate_codes (codes : list string) (random : list (option string)) : result LocalMfaError LocalRecoveryCodes :=
  match random with
  | [] => Ok codes
  | data :: random =>
      let! data := ok_or data MF_Random in
      let code := recovery_code (to_base32 data) in
      if existsb (str_eqb code) codes then Err MF_Random else generate_codes (codes ++ [code]) random
  end.
(** [0..10]: the draws of the generator, all of them at hand. *)
Definition LocalRecoveryCodes_generate (random : nat → option string) : result LocalMfaError LocalRecoveryCodes :=
  generate_codes [] (random <$> seq 0 10).
(** [char::from(u8)] in UTF-8. *)
Definition char_from (b : ascii) : list ascii :=
  if (code b <? 128)%Z then [b] else ascii_of_N <$> [Z.to_N (192 + code b / 64); Z.to_N (128 + code b mod 64)].
Definition normalize_local_recovery_code (raw : string) : option string :=
  if (64 <? len raw)%Z then None else
  let normalized := of_bytes (List.filter (λ b, negb (existsb (Ascii.eqb b) [" "; "-"]%char)) (bytes (trim raw))
                              ≫= λ b, char_from (to_ascii_upper b)) in
  if negb (len normalized =? 32)%Z || negb (all_bytes (λ b, is_ascii_uppercase b || in_range 50 55 b) normalized) then None else
  secret ← try_from_base32 normalized;
  if negb (len secret =? 20)%Z || negb (str_eqb (to_base32 secret) normalized) then None else Some normalized.
End mfa.

(** ** What they guarantee *)

(** AES-GCM undoes itself and appends a tag of 16 bytes; base64 without padding
    and base32 are injective and of known length. *)
Class MfaLaws `{CredentialLib, MfaLib} : Prop := {
  cipher_decrypt_encrypt c nonce a m e : cipher_encrypt c nonce a m = Some e → cipher_decrypt c nonce a e = Some m;
  cipher_encrypt_len c nonce a m e : cipher_encrypt c nonce a m = Some e → len e = (len m + 16)%Z;
  url_b64_decode_encode s : url_b64_decode (url_b64_encode s) = Some s;
  url_b64_encode_len s : len (url_b64_encode s) = ((4 * len s + 2) / 3)%Z;
  base32_decode_encode s : try_from_base32 (to_base32 s) = Some s;
  base32_len s : len s = 20%Z → len (to_base32 s) = 32%Z;
  base32_alphabet s : all_bytes (λ b, is_ascii_uppercase b || in_range 50 55 b) (to_base32 s) = true;
}.

Section laws.
Context `{CredentialLib, MfaLib, !MfaLaws}.
Lemma take_bytes_app a b n : len a = Z.of_nat n → of_bytes (take n (bytes (a +:+ b))) = a ∧ of_bytes (drop n (bytes (a +:+ b))) = b.
Proof.
  unfold len. rewrite <- length_bytes, bytes_app. intros Hn. rewrite take_app_length', drop_app_length' by lia.
  by rewrite !of_bytes_bytes.
Qed.
(** The secret of one person is not accepted as that of another. *)
Lemma aad_inj a b x : aad a = Ok x → aad b = Ok x → a = b.
Proof.
  unfold aad. intros Ha Hb. invert_ok Ha. invert_ok Hb. bool_to_prop.
  assert (MFA_SECRET_DOMAIN +:+ of_bytes (frame a) = MFA_SECRET_DOMAIN +:+ of_bytes (frame b)) as Heq%str_app_inj_l by congruence.
  apply (f_equal bytes) in Heq. rewrite !bytes_of_bytes in Heq.
  apply (frame_inj a b [] []); [unfold U64_MAX; lia..|]. by rewrite !app_nil_r.
Qed.
Lemma decrypt_encrypt p subject secret nonce ct :
  (∀ n, nonce = Some n → len n = 12%Z) → encrypt_secret p subject secret nonce = Ok ct → decrypt p subject ct = Ok secret ∧ len ct = 90%Z.
Proof.
  unfold encrypt_secret, decrypt. intros Hn He. destruct (aad subject) as [a|]; [|done]. simpl in *. invert_ok He. bool_to_prop.
  injection He as <-. match goal with Hc : cipher_encrypt _ _ _ _ = Some _ |- _ => rename Hc into Henc end.
  match goal with Hs : nonce = Some ?n |- _ => specialize (Hn _ Hs); set (m := n) in * end.
  match goal with Hs : len secret = 32%Z |- _ => rename Hs into H32 end.
  pose proof (cipher_encrypt_len _ _ _ _ _ Henc) as Hl. rewrite len_app, url_b64_encode_len, len_app, Hn, Hl, H32.
  change (len PREFIX) with 10%Z. rewrite strip_prefix_app. simpl. rewrite url_b64_decode_encode. simpl.
  rewrite len_app, Hn, Hl, H32, str_eqb_refl. simpl. match goal with |- context [m +:+ ?e] => destruct (take_bytes_app m e 12 Hn) as [-> ->] end.
  rewrite (cipher_decrypt_encrypt _ _ _ _ _ Henc). simpl. by rewrite H32.
Qed.
(** An accepted code is that of a step near the current one, later than the last
    step accepted; a refused one matches no such step. *)
Lemma totp_find_spec totp code last steps :
  match totp_find totp code last steps with
  | Some step => step ∈ steps ∧ (last < step)%Z ∧ (step ≤ I64_MAX)%Z ∧ totp_check totp code (step * STEP) = true
  | None => ∀ step, step ∈ steps → (last < step ≤ I64_MAX)%Z → (step * STEP ≤ U64_MAX)%Z → totp_check totp code (step * STEP) = false
  end.
Proof.
  induction steps as [|step steps IH]; simpl; [set_solver|].
  destruct (_ || _)%bool eqn:Eo; [|destruct (_ && _)%bool eqn:Ec].
  - destruct (totp_find _ _ _ steps); [set_solver|]. intros s [->|Hs]%elem_of_cons; [bool_to_prop; lia|auto].
  - bool_to_prop. split; [set_solver|]. naive_solver lia.
  - destruct (totp_find _ _ _ steps); [set_solver|]. intros s [->|Hs]%elem_of_cons; [|auto]. intros Hl _.
    apply andb_false_iff in Ec as [Ec|Ec]; bool_to_prop; [lia|done].
Qed.
Lemma elem_of_totp_steps current step :
  (0 ≤ current < U64_MAX)%Z → step ∈ totp_steps current ↔ (0 ≤ step)%Z ∧ (Z.abs (step - current) ≤ 1)%Z.
Proof.
  intros Hc. unfold totp_steps. rewrite elem_of_cons, elem_of_app.
  destruct (Z.eqb_spec current 0), (Z.leb_spec (current + 1) U64_MAX); try lia;
    rewrite ?list_elem_of_singleton, ?elem_of_nil; lia.
Qed.
Lemma alphabet_byte b : is_ascii_uppercase b || in_range 50 55 b = true →
  char_from (to_ascii_upper b) = [b] ∧ negb (existsb (Ascii.eqb b) [" "; "-"]%char) = true ∧ in_range 33 127 b = true.
Proof. destruct b as [[] [] [] [] [] [] [] []]; vm_compute; by intros. Qed.
Lemma alphabet_normal l : Forall (λ b, is_ascii_uppercase b || in_range 50 55 b = true) l →
  List.filter (λ b, negb (existsb (Ascii.eqb b) [" "; "-"]%char)) l = l ∧ (l ≫= λ b, char_from (to_ascii_upper b)) = l.
Proof.
  induction 1 as [|b l Hb _ [IH1 IH2]]; [done|]. destruct (alphabet_byte b Hb) as (Hc & Hn & _).
  rewrite bind_cons, Hc, IH2. cbn [List.filter]. by rewrite Hn, IH1.
Qed.
(** The characters of a code, without what separates its groups. *)
Lemma recovery_code_bytes e : bytes (recovery_code e) =
  take 8 (bytes e) ++ "-"%char :: take 8 (drop 8 (bytes e)) ++ "-"%char :: take 8 (drop 16 (bytes e)) ++ "-"%char :: drop 24 (bytes e).
Proof. unfold recovery_code, slice. rewrite !bytes_app, !bytes_of_bytes. by rewrite drop_0. Qed.
Lemma groups_join {A} (l : list A) : take 8 l ++ take 8 (drop 8 l) ++ take 8 (drop 16 l) ++ drop 24 l = l.
Proof.
  rewrite <- (take_drop 8 l) at 5. f_equal. rewrite <- (take_drop 8 (drop 8 l)) at 2. f_equal. rewrite drop_drop.
  rewrite <- (take_drop 8 (drop (8 + 8) l)). f_equal. by rewrite drop_drop.
Qed.
Lemma recovery_code_normal data :
  len data = 20%Z → normalize_local_recovery_code (recovery_code (to_base32 data)) = Some (to_base32 data).
Proof.
  intros Hd. set (e := to_base32 data). pose proof (base32_len _ Hd) as Hl. fold e in Hl.
  pose proof (base32_alphabet data) as Ha. fold e in Ha. unfold all_bytes in Ha. rewrite forallb_elem in Ha.
  assert (len (recovery_code e) = 35%Z) as Hlen.
  { unfold len in Hl |- *. rewrite <- length_bytes in Hl |- *. rewrite recovery_code_bytes. repeat (rewrite length_app || cbn [length]).
    rewrite !length_take, !length_drop. lia. }
  assert (Forall (λ b, is_ascii_uppercase b || in_range 50 55 b = true) (bytes e)) as Hf by (by apply Forall_forall).
  assert (trim (recovery_code e) = recovery_code e) as Ht.
  { apply trim_visible. unfold all_bytes. apply forallb_elem. intros b Hb. rewrite recovery_code_bytes in Hb.
    rewrite !elem_of_app, !elem_of_cons, !elem_of_app, !elem_of_cons, !elem_of_app, !elem_of_cons in Hb.
    destruct (decide (b = "-"%char)) as [->|Hne]; [done|]. apply (alphabet_byte b), Ha.
    rewrite <- (groups_join (bytes e)), !elem_of_app. naive_solver. }
  unfold normalize_local_recovery_code. rewrite Hlen, Ht, recovery_code_bytes. cbn [Z.ltb Z.compare Pos.compare Pos.compare_cont].
  destruct (alphabet_normal (bytes e) Hf) as [Hfilter Hbind].
  set (f := λ b, negb (existsb (Ascii.eqb b) [" "; "-"]%char)) in *.
  assert (∀ l, List.filter f ("-"%char :: l) = List.filter f l) as Hdash by done.
  repeat (rewrite List.filter_app || rewrite Hdash). rewrite <- !List.filter_app, groups_join, Hfilter, Hbind, of_bytes_bytes, Hl. unfold all_bytes.
  rewrite (proj2 (forallb_elem _ _) Ha). cbn. unfold e. rewrite base32_decode_encode. cbn. by rewrite Hd, str_eqb_refl.
Qed.
Lemma generate_codes_ok codes random codes' :
  generate_codes codes random = Ok codes' → NoDup codes → ∃ drawn, random = Some <$> drawn ∧ codes' = codes ++ (recovery_code ∘ to_base32 <$> drawn) ∧ NoDup codes'.
Proof.
  revert codes. induction random as [|o random IH]; intros codes; simpl.
  - intros [= <-] Hn. exists []. simpl. by rewrite app_nil_r.
  - destruct o as [data|]; [|done]. simpl. destruct (existsb _ _) eqn:Ee; [done|]. intros Hg Hn.
    apply IH in Hg as (drawn & -> & -> & Hn').
    + exists (data :: drawn). split; [done|]. split; [|done]. by rewrite <- (assoc_L (++)).
    + apply NoDup_app. split; [done|]. split; [|apply NoDup_singleton]. intros c Hc ->%list_elem_of_singleton.
      enough (existsb (str_eqb (recovery_code (to_base32 data))) codes = true) by congruence.
      apply existsb_elem. eexists. split; [exact Hc|]. apply str_eqb_refl.
Qed.
(** A second factor is set up so that it can be used. *)
Lemma recovery_codes_ok random codes :
  LocalRecoveryCodes_generate random = Ok codes → (∀ i data, random i = Some data → len data = 20%Z) →
  length codes = 10 ∧ NoDup (normalize_local_recovery_code <$> codes) ∧ Forall (λ c, is_Some (normalize_local_recovery_code c)) codes.
Proof.
  unfold LocalRecoveryCodes_generate. intros Hg Hlen. apply generate_codes_ok in Hg as (drawn & Hr & -> & Hn); [|by constructor].
  simpl in Hn |- *. assert (length drawn = 10) as Hten by (apply (f_equal length) in Hr; by rewrite !length_fmap, length_seq in Hr).
  assert (∀ data, data ∈ drawn → len data = 20%Z) as Hdrawn.
  { intros data Hd. assert (Some data ∈ random <$> seq 0 10) as (i & Hi & _)%list_elem_of_fmap by (rewrite Hr; by apply list_elem_of_fmap_2).
    by eapply Hlen. }
  split; [by rewrite length_fmap|].
  assert (normalize_local_recovery_code <$> (recovery_code ∘ to_base32 <$> drawn) = Some ∘ to_base32 <$> drawn) as ->.
  { rewrite <- list_fmap_compose. apply list_fmap_ext. intros i data Hi%list_elem_of_lookup_2. simpl. by apply recovery_code_normal, Hdrawn. }
  split.
  - rewrite list_fmap_compose in Hn |- *. apply NoDup_fmap_1 in Hn. apply NoDup_fmap_2; [apply _|done].
  - apply Forall_fmap, Forall_forall. intros data Hd. simpl. rewrite recovery_code_normal by auto. by eexists.
Qed.
End laws.
