(* ===== verification/Device.v ===== *)
(** * Device authorization

    crates/broker-control/src/device.rs and service/device.rs: a device is issued
    a pair of codes, a person who has logged in is asked for consent and decides,
    and the device polls until it receives an access token. *)

From stdpp Require Import gmap.
From S2P Require Import Prelude RustStr Order Control LocalBearer BrokerAccess AccessIssuer Sql OidcTables.
From S2P Require Import StorageAdmission Credentials.

Inductive DeviceError :=
| DV_AuthorizationPending | DV_SlowDown | DV_AccessDenied | DV_ExpiredToken | DV_Protocol (e : OidcTokenExchangeError).
#[global] Instance DeviceError_from_control : FromControl DeviceError := λ e, DV_Protocol (TX_Control e).

Record DeviceAuthorizationPolicy := { dp_ttl_micros : Z; dp_interval_seconds : Z; dp_access_micros : Z }.
Definition SECS (n : Z) : Z := (n * NANOS)%Z.
(** Durations are in nanoseconds. *)
Definition DeviceAuthorizationPolicy_new (code_ttl poll_interval access_ttl : Z)
    : result DeviceError DeviceAuthorizationPolicy :=
  if negb ((SECS 300 <=? code_ttl) && (code_ttl <=? SECS 1800))%Z
     || negb ((SECS 1 <=? poll_interval) && (poll_interval <=? SECS 30))%Z
     || negb ((SECS 60 <=? access_ttl) && (access_ttl <=? SECS 3600))%Z
     || negb (code_ttl mod NANOS =? 0)%Z || negb (poll_interval mod NANOS =? 0)%Z
  then Err (DV_Protocol TX_InvalidConfiguration) else
  Ok {| dp_ttl_micros := code_ttl / 1000; dp_interval_seconds := poll_interval / NANOS; dp_access_micros := access_ttl / 1000 |}.

(** ** User codes *)

Definition USER_CODE : string := "ABCDEFGHJKLMNPQRSTUVWXYZ23456789".
Fixpoint normalize_bytes (value : list ascii) (raw : list ascii) : option (list ascii) :=
  match raw with
  | [] => Some value
  | b :: raw =>
      let b := to_ascii_upper b in
      if (Z.of_nat (length value) =? 8)%Z || negb (contains_byte b USER_CODE) then None
      else normalize_bytes (value ++ [b]) raw
  end.
Definition normalize_device_user_code (raw : string) : option string :=
  match normalize_bytes [] (List.filter (λ b, negb (Ascii.eqb b "-")) (bytes (trim raw))) with
  | Some value => if (Z.of_nat (length value) =? 8)%Z then Some (of_bytes value) else None
  | None => None
  end.
(** The character for each of 8 random bytes, and the code as it is shown. *)
Definition user_code_of (random : string) : string :=
  of_bytes ((λ b, nth (Z.to_nat (Z.land (Z.of_N (N_of_ascii b)) 31)) (bytes USER_CODE) "A"%char) <$> bytes random).
Definition display_code (user : string) : string :=
  of_bytes (take 4 (bytes user)) +:+ "-" +:+ of_bytes (drop 4 (bytes user)).

(** ** Values handed out *)

Record DeviceAuthorizationCodes := { ac_device : string; ac_user : string; ac_expires_at : Z; ac_interval : Z }.
Record DeviceConsent := {
  co_secret : string;
  co_recovery : option (list string);
  co_user_code : string;
  co_client : string;
  co_scope : string;
  co_expires_at : Z;
}.
Record DeviceAccessToken := { da_access : string; da_scope : string; da_expires_at : Z }.

Definition check (original expiry : Z) : M Tx DeviceError unit :=
  do? guard_original original in
  let? now := txn_clock now_micros in
  if (expiry <=? now)%Z then fail DV_ExpiredToken else ret tt.
Definition remaining (original expiry : Z) : M Tx DeviceError Z :=
  do? check original expiry in
  let? now := txn_clock now_micros in
  let left := Z.quot (expiry - now) 1000000 in
  if (left <? 0)%Z then fail (from_control CE_Clock) else ret left.
Definition consent_secret (v : DeviceConsent) (original : Z) : M Tx DeviceError string :=
  do? check original (co_expires_at v) in
  match co_recovery v with
  | Some _ => fail (DV_Protocol TX_InvalidGrant)
  | None => ret (co_secret v)
  end.
(** The codes and the value without them. *)
Definition take_recovery_codes (v : DeviceConsent) : option (list string) * DeviceConsent :=
  (co_recovery v,
   {| co_secret := co_secret v; co_recovery := None; co_user_code := co_user_code v; co_client := co_client v;
      co_scope := co_scope v; co_expires_at := co_expires_at v |}).

(** ** Stored rows *)

Record DeviceRow := {
  dr_hash : string;
  dr_user_hash : string;
  dr_client : string;
  dr_scopes : list string;
  dr_subject : string;
  dr_revision : Z;
  dr_status : string;
  dr_interval : Z;
  dr_last_poll : option Z;
  dr_expires : Z;
  dr_created : Z;
}.
Record ConsentRow := {
  cr_subject : string;
  cr_revision : Z;
  cr_purpose : string;
  cr_binding : string;
  cr_stage : string;
  cr_cipher : string;
  cr_expires : Z;
  cr_created : Z;
}.
#[global] Instance ConsentRow_eq_dec : EqDecision ConsentRow.
Proof. solve_decision. Defined.
Record CompletedLocalLogin := {
  cll_username : string;
  cll_subject : string;
  cll_revision : Z;
  cll_observed_at : Z;
  cll_purpose : LocalAuthPurpose;
  cll_binding : CredentialDigest;
  cll_factor_verified : bool;
  cll_recovery_codes : option (list string);
}.
Definition binding_purpose (b : LocalAuthBinding) : LocalAuthPurpose :=
  match b with
  | BindAdminLogin => PurposeAdminLogin
  | BindOauthAuthorize _ => PurposeOauthAuthorize
  | BindDeviceApprove _ => PurposeDeviceApprove
  end.
Definition malformed : DeviceError := DV_Protocol TX_MalformedStored.

Section device.
Context `{OidcLib, CredentialLib, SignLib}.

Definition login_verify_binding (l : CompletedLocalLogin) (digester : CredentialDigester) (context : LocalAuthBinding) : option unit :=
  if negb (LocalAuthPurpose_u8 (cll_purpose l) =? LocalAuthPurpose_u8 (binding_purpose context))%Z then None else
  match verify_local_auth_binding digester context (cll_binding l) with Ok _ => Some tt | Err _ => None end.

Definition device_decode (cap : Z) (k : Key) (d : DeviceCodeRow) : result DeviceError DeviceRow :=
  if (cap <? len (dc_scopes_json d))%Z then Err (DV_Protocol TX_ReadLimitExceeded) else
  let! scopes := ok_or (strings_json (dc_scopes_json d)) malformed in
  if negb (bool_decide (scopes = [])) then Err malformed else
  let! hash := ok_or (capped 64 k.2) malformed in
  let! user_hash := ok_or (capped 64 (dc_user_hash d)) malformed in
  let! client := ok_or (capped 128 (dc_client_id d)) malformed in
  let! subject := ok_or (capped 512 (dc_subject d)) malformed in
  let! status := ok_or (capped 16 (dc_status d)) malformed in
  Ok {| dr_hash := hash; dr_user_hash := user_hash; dr_client := client; dr_scopes := scopes; dr_subject := subject;
        dr_revision := dc_local_user_revision d; dr_status := status; dr_interval := dc_interval_seconds d;
        dr_last_poll := dc_last_poll_at d; dr_expires := dc_expires_at d; dr_created := dc_created_at d |}.
Definition is_digest (s : string) : bool := match parse_sql_hex s with Ok _ => true | Err _ => false end.
Definition device_invalid (d : DeviceRow) (p : DeviceAuthorizationPolicy) (now : Z) : bool :=
  negb (is_digest (dr_hash d)) || negb (is_digest (dr_user_hash d)) || (dr_created d <=? 0)%Z || (now <? dr_created d)%Z
  || negb (dr_expires d - dr_created d =? dp_ttl_micros p)%Z || (dr_interval d <? dp_interval_seconds p)%Z
  || negb (Z.rem (dr_interval d - dp_interval_seconds p) 5 =? 0)%Z || (I64_MAX / 1000000 <? dr_interval d)%Z
  || is_some_and (dr_last_poll d) (λ v, (v <? dr_created d) || (now <? v))%Z
  || (if str_eqb (dr_status d) "pending" then negb (is_empty (dr_subject d)) || negb (dr_revision d =? 0)%Z
      else if str_eqb (dr_status d) "approved" || str_eqb (dr_status d) "denied"
      then negb (valid_identity_subject (dr_subject d) 512) || (dr_revision d <? 1)%Z
      else true).
Definition device_valid (d : DeviceRow) (p : DeviceAuthorizationPolicy) : M Tx DeviceError unit :=
  let? now := txn_clock now_micros in
  if device_invalid d p now then fail malformed else ret tt.
Definition consent_valid (c : ConsentRow) (binding : string) (stop : Z) : M Tx DeviceError unit :=
  do? check stop (cr_expires c) in
  let bad := DV_Protocol TX_InvalidGrant in
  if negb (str_eqb (cr_purpose c) "device-approve") || negb (str_eqb (cr_binding c) binding)
     || negb (str_eqb (cr_stage c) "device_consent") || negb (is_empty (cr_cipher c)) || (cr_revision c <? 1)%Z
     || negb (valid_identity_subject (cr_subject c) 512) || (cr_created c <=? 0)%Z
  then fail bad else
  let? now := txn_clock now_micros in
  if (now <? cr_created c)%Z || (cr_expires c <=? cr_created c)%Z then fail bad else ret tt.
Definition consent_row (hash : string) (lock : bool) : M Tx DeviceError ConsentRow :=
  let? row := (if lock then select_locked else select) (challenges hash) in
  let? c := lift_result (ok_or (row ≫= λ r, match r with RChallenge c => Some c | _ => None end) (DV_Protocol TX_InvalidGrant)) in
  lift_result (
    let! subject := ok_or (capped 512 (ch_subject c)) malformed in
    let! purpose := ok_or (capped 32 (ch_purpose c)) malformed in
    let! binding := ok_or (capped 64 (ch_binding_hash c)) malformed in
    let! stage := ok_or (capped 32 (ch_stage c)) malformed in
    let! cipher := ok_or (capped 90 (ch_secret_ciphertext c)) malformed in
    Ok {| cr_subject := subject; cr_revision := ch_local_user_revision c; cr_purpose := purpose; cr_binding := binding;
          cr_stage := stage; cr_cipher := cipher; cr_expires := ch_expires_at c; cr_created := ch_created_at c |}).
Definition username (subject : string) : M Tx DeviceError string :=
  let? row := select_where (user_where subject) in
  lift_result (ok_or (row ≫= λ kv, capped 128 kv.1.2) (DV_Protocol TX_InvalidGrant)).
(** One row of a table by its primary key. *)
Definition device_at (hash : string) (q : DeviceCodeRow → bool) : Key → Row → bool :=
  at_key (devices hash) (λ r, match r with RDevice d => q d | _ => false end).
Definition set_device (f : DeviceCodeRow → DeviceCodeRow) (r : Row) : Row :=
  match r with RDevice d => RDevice (f d) | _ => r end.
Definition delete_device (hash : string) : M Tx DeviceError unit :=
  let? n := delete_where (device_at hash (λ _, true)) in
  if negb (n =? 1) then fail (from_control CE_Storage) else ret tt.
Definition seconds (now : Z) : result DeviceError Z :=
  if (Z.quot now 1000000 <? 0)%Z then Err (from_control CE_Clock) else Ok (Z.quot now 1000000).
Definition nonempty (raw : string) : option string := if is_empty (trim raw) then None else Some raw.

(** ** The service *)

Record PostgresDeviceAuthorizations := {
  pd_digester : CredentialDigester;
  pd_operation_timeout : Z;
  pd_authorization : OidcAuthorizationPolicy;
  pd_policy : DeviceAuthorizationPolicy;
  pd_issuer : BrokerAccessIssuer;
}.
Definition device_authorizations (digester : CredentialDigester) (operation_timeout : Z)
    (authorization : OidcAuthorizationPolicy) (policy : DeviceAuthorizationPolicy) (issuer : BrokerAccessIssuer)
    : result DeviceError PostgresDeviceAuthorizations :=
  if negb (str_eqb (op_api_audience authorization) (bi_api_audience issuer)) then Err (DV_Protocol TX_InvalidConfiguration) else
  Ok {| pd_digester := digester; pd_operation_timeout := operation_timeout; pd_authorization := authorization;
        pd_policy := policy; pd_issuer := issuer |}.

Section service.
Context (s : PostgresDeviceAuthorizations).
Notation cap := (ol_json_bytes (op_limits (pd_authorization s))).
Notation protocol e := (DV_Protocol e).
Definition parameters (values : list string) : result DeviceError unit :=
  let! size := ok_or (foldl (λ n v, n ← n; if (n + len v <=? U64_MAX)%Z then Some (n + len v)%Z else None) (Some 0%Z) values)
                 (protocol TX_InvalidRequest) in
  if (ol_parameter_bytes (op_limits (pd_authorization s)) <? size)%Z then Err (protocol TX_InvalidRequest) else Ok tt.
Definition client_check (client : string) : result DeviceError unit :=
  if is_empty client then Err (protocol TX_InvalidRequest) else
  if negb (str_eqb client (op_cli_client_id (pd_authorization s))) then Err (protocol TX_InvalidClient) else Ok tt.
Definition digest (kind : TokenKind) (raw : string) : result DeviceError string :=
  rmap_err (λ _, protocol TX_Credential) (rmap to_sql_hex (token (pd_digester s) kind raw)).
Definition approve_binding (user : string) : result DeviceError string :=
  rmap_err (λ _, protocol TX_Credential) (rmap to_sql_hex (local_auth_binding (pd_digester s) (BindDeviceApprove user))).
Definition device_where (by_user : bool) (hash : string) : Key → Row → bool := λ k r,
  match r with
  | RDevice d => str_eqb k.1 "oauth_device_codes" && str_eqb (if by_user then dc_user_hash d else k.2) hash
  | _ => false
  end.
Definition read (hash : string) (by_user lock : bool) : M Tx DeviceError DeviceRow :=
  let? row := (if lock then select_where_locked else select_where) (device_where by_user hash) in
  let? (k, r) := lift_result (ok_or (row ≫= λ kv, match kv.2 with RDevice d => Some (kv.1, d) | _ => None end)
    (protocol TX_InvalidGrant)) in
  let? d := lift_result (device_decode cap k r) in
  do? device_valid d (pd_policy s) in
  if negb (str_eqb (if by_user then dr_user_hash d else dr_hash d) hash)
     || negb (str_eqb (dr_client d) (op_cli_client_id (pd_authorization s)))
  then fail malformed else ret d.
(** The pool's connection and BEGIN. *)
Definition begin : M Tx DeviceError unit := do? sql_await in sql_await.
Definition principal_of (subject username : string) (revision stop : Z) : M Tx DeviceError OidcPrincipal :=
  map_err (λ e, protocol (exchange_error e)) (current_principal subject username revision cap stop).

Definition pending_row (client user_hash json : string) (now expires : Z) : DeviceCodeRow :=
  {| dc_user_hash := user_hash; dc_client_id := client; dc_scopes_json := json; dc_subject := "";
     dc_local_user_revision := 0; dc_status := "pending"; dc_interval_seconds := dp_interval_seconds (pd_policy s);
     dc_last_poll_at := None; dc_expires_at := expires; dc_created_at := now |}.
(** The random bytes are arguments; [None] is a failure of the generator. *)
Definition issue (client scope : string) (original : Z) (device_random user_random : option string)
    : M Tx DeviceError DeviceAuthorizationCodes :=
  let? stop := txn_clock (bounded_deadline original (pd_operation_timeout s)) in
  if negb (is_empty scope) then fail (protocol TX_InvalidScope) else
  do? lift_result (parameters [client]) in
  do? lift_result (client_check client) in
  let? json := lift_result (ok_or (json_strings []) (protocol TX_InvalidScope)) in
  if (cap <? len json)%Z then fail (protocol TX_ReadLimitExceeded) else
  let? suffix := lift_result (ok_or (new_local_auth_challenge device_random) (protocol TX_Random)) in
  let device := "gb_dc_" +:+ suffix in
  let? user := lift_result (ok_or (user_code_of <$> user_random) (protocol TX_Random)) in
  let? hash := lift_result (digest DeviceCode device) in
  let? user_hash := lift_result (digest DeviceUserCode user) in
  do? begin in
  let? now := txn_clock now_micros in
  let? expires := lift_result (ok_or (checked_add_i64 now (dp_ttl_micros (pd_policy s))) (from_control CE_Clock)) in
  do? check stop expires in
  do? insert_row (devices hash)
        (RDevice (pending_row client user_hash json now expires))
        (λ _ r, match r with RDevice d => str_eqb (dc_user_hash d) user_hash | _ => false end) in
  do? check stop expires in
  do? sql_commit in
  do? check stop expires in
  ret {| ac_device := device; ac_user := display_code user; ac_expires_at := expires;
         ac_interval := dp_interval_seconds (pd_policy s) |}.

Definition prepare (user_code : string) (login : CompletedLocalLogin) (original : Z) (random : option string)
    : M Tx DeviceError DeviceConsent :=
  let? stop := txn_clock (bounded_deadline original (pd_operation_timeout s)) in
  do? lift_result (parameters [user_code]) in
  let? user := lift_result (ok_or (normalize_device_user_code user_code) (protocol TX_InvalidRequest)) in
  do? lift_result (ok_or (login_verify_binding login (pd_digester s) (BindDeviceApprove user)) (protocol TX_InvalidGrant)) in
  let? user_hash := lift_result (digest DeviceUserCode user) in
  let? binding := lift_result (approve_binding user) in
  let? secret := lift_result (ok_or (new_local_auth_challenge random) (protocol TX_Random)) in
  let? hash := lift_result (digest LocalAuthChallenge secret) in
  do? begin in
  let? _ := principal_of (cll_subject login) (cll_username login) (cll_revision login) stop in
  let? d := read user_hash true true in
  do? check stop (dr_expires d) in
  if negb (str_eqb (dr_status d) "pending") || (cll_observed_at login <? dr_created d)%Z then fail (protocol TX_InvalidGrant) else
  let? now := txn_clock now_micros in
  if (now <? cll_observed_at login)%Z then fail (protocol TX_InvalidGrant) else
  let? now := txn_clock now_micros in
  do? insert_row (challenges hash)
        (RChallenge {| ch_subject := cll_subject login; ch_local_user_revision := cll_revision login;
                       ch_purpose := "device-approve"; ch_binding_hash := binding; ch_stage := "device_consent";
                       ch_secret_ciphertext := ""; ch_expires_at := dr_expires d; ch_created_at := now |})
        (λ _ _, false) in
  do? check stop (dr_expires d) in
  do? sql_commit in
  do? check stop (dr_expires d) in
  ret {| co_secret := secret; co_recovery := cll_recovery_codes login; co_user_code := display_code user;
         co_client := dr_client d; co_scope := join " " (dr_scopes d); co_expires_at := dr_expires d |}.

Definition decided (allow : bool) (subject : string) (revision : Z) (r : DeviceCodeRow) : DeviceCodeRow :=
  {| dc_user_hash := dc_user_hash r; dc_client_id := dc_client_id r; dc_scopes_json := dc_scopes_json r;
     dc_subject := subject; dc_local_user_revision := revision; dc_status := if allow then "approved" else "denied";
     dc_interval_seconds := dc_interval_seconds r; dc_last_poll_at := dc_last_poll_at r; dc_expires_at := dc_expires_at r;
     dc_created_at := dc_created_at r |}.
Definition decide_device (user_code client secret : string) (allow : bool) (original : Z) : M Tx DeviceError unit :=
  let? stop := txn_clock (bounded_deadline original (pd_operation_timeout s)) in
  do? lift_result (parameters [user_code; client; secret]) in
  do? lift_result (client_check client) in
  let? user := lift_result (ok_or (normalize_device_user_code user_code) (protocol TX_InvalidRequest)) in
  if negb (validate_local_auth_challenge secret) then fail (protocol TX_InvalidGrant) else
  let? hash := lift_result (digest LocalAuthChallenge secret) in
  let? user_hash := lift_result (digest DeviceUserCode user) in
  let? binding := lift_result (approve_binding user) in
  do? begin in
  let? initial := consent_row hash false in
  do? consent_valid initial binding stop in
  let? name := username (cr_subject initial) in
  let? _ := principal_of (cr_subject initial) name (cr_revision initial) stop in
  let? d := read user_hash true true in
  let? current := consent_row hash true in
  do? consent_valid current binding stop in
  do? check stop (dr_expires d) in
  if bool_decide (initial ≠ current) || negb (str_eqb (dr_status d) "pending") || negb (str_eqb (dr_client d) client)
     || (cr_created current <? dr_created d)%Z || negb (cr_expires current =? dr_expires d)%Z
  then fail (protocol TX_InvalidGrant) else
  let? now := txn_clock now_micros in
  let? n := update_where (device_at (dr_hash d) (λ r, str_eqb (dc_status r) "pending" && (now <? dc_expires_at r)%Z))
    (set_device (decided allow (cr_subject current) (cr_revision current))) in
  if negb (n =? 1) then fail (protocol TX_InvalidGrant) else
  let? n := delete_where (at_key (challenges hash) (λ r, match r with RChallenge _ => true | _ => false end)) in
  if negb (n =? 1) then fail (from_control CE_Storage) else
  do? check stop (dr_expires d) in
  do? sql_commit in
  do? check stop (dr_expires d) in
  ret tt.

Definition polled (interval : Z → Z) (now : Z) (r : DeviceCodeRow) : DeviceCodeRow :=
  {| dc_user_hash := dc_user_hash r; dc_client_id := dc_client_id r; dc_scopes_json := dc_scopes_json r;
     dc_subject := dc_subject r; dc_local_user_revision := dc_local_user_revision r; dc_status := dc_status r;
     dc_interval_seconds := interval (dc_interval_seconds r); dc_last_poll_at := Some now; dc_expires_at := dc_expires_at r;
     dc_created_at := dc_created_at r |}.
Definition sign_failure (e : BrokerAccessIssueError) : DeviceError :=
  match e with AI_Deadline => from_control CE_Deadline | _ => protocol TX_Signing end.
(** The approved branch: the token is signed and stored and the codes deleted. *)
Definition redeem (client : string) (d : DeviceRow) (principal : option OidcPrincipal) (now stop : Z) (random : option string)
    : M Tx DeviceError DeviceAccessToken :=
  let? principal := lift_result (ok_or principal (protocol TX_InvalidGrant)) in
  let? subject := lift_result (rmap_err (λ _, protocol TX_Credential)
    (oidc_subject (pd_digester s) (pr_issuer principal) (pr_subject principal))) in
  let? sum := lift_result (ok_or (checked_add_i64 now (dp_access_micros (pd_policy s))) (from_control CE_Clock)) in
  let expires := (Z.quot sum 1000000 * 1000000)%Z in
  let? jti := lift_result (ok_or (new_local_auth_challenge random) (protocol TX_Random)) in
  let scope := join " " (dr_scopes d) in
  let? issued_at := lift_result (seconds now) in
  let? expires_at := lift_result (seconds expires) in
  let? access := txn_with sign_failure (sign_access (pd_issuer s)
    {| at_subject := subject; at_client_id := client; at_resource := None; at_scope := scope; at_jti := jti;
       at_issued_at := issued_at; at_expires_at := expires_at; at_preferred_username := Some (pr_username principal);
       at_name := nonempty (pr_name principal); at_email := nonempty (pr_email principal);
       at_organization := nonempty (pr_organization principal); at_groups := pr_teams principal;
       at_roles := pr_roles principal |} stop) in
  let? json := lift_result (ok_or (json_principal principal) (protocol TX_MalformedStored)) in
  let? scopes_json := lift_result (ok_or (json_strings (dr_scopes d)) (protocol TX_MalformedStored)) in
  if (cap <? len json)%Z || (cap <? len scopes_json)%Z then fail (protocol TX_ReadLimitExceeded) else
  let? token_hash := lift_result (digest OidcStoredAccess jti) in
  do? map_err DV_Protocol (insert_token
    {| td_principal := principal; td_oidc_subject := subject; td_client_id := client;
       td_audience := op_api_audience (pd_authorization s); td_resource := None; td_principal_json := json;
       td_scopes_json := scopes_json; td_family := ""; td_auth_time := now; td_created_at := now |}
    token_hash jti "oidc_access" expires) in
  do? delete_device (dr_hash d) in
  do? check stop (dr_expires d) in
  do? check stop expires in
  ret {| da_access := access; da_scope := scope; da_expires_at := expires |}.
(** What a poll answers, with its effect in the transaction. *)
Definition answer (client : string) (d : DeviceRow) (principal : option OidcPrincipal) (now stop : Z) (random : option string)
    : M Tx DeviceError (result DeviceError DeviceAccessToken) :=
  if (dr_expires d <=? now)%Z then do? delete_device (dr_hash d) in ret (Err DV_ExpiredToken) else
  if str_eqb (dr_status d) "denied" then do? delete_device (dr_hash d) in ret (Err DV_AccessDenied) else
  if is_some_and (dr_last_poll d) (λ last, now - last <? Z.min (dr_interval d * 1000000) I64_MAX)%Z then
    let? next := lift_result (ok_or (checked_add_i64 (dr_interval d) 5) malformed) in
    let? _ := update_where (device_at (dr_hash d) (λ _, true)) (set_device (polled (λ _, next) now)) in
    ret (Err DV_SlowDown)
  else if str_eqb (dr_status d) "pending" then
    let? _ := update_where (device_at (dr_hash d) (λ _, true)) (set_device (polled id now)) in
    ret (Err DV_AuthorizationPending)
  else let? token := redeem client d principal now stop random in ret (Ok token).
(** The principal of an approved device, its user locked before the device. *)
Definition approver (initial : DeviceRow) (client : string) (stop : Z) : M Tx DeviceError (option OidcPrincipal) :=
  if negb (str_eqb (dr_status initial) "approved") then ret None else
  let? now := txn_clock now_micros in
  if (dr_expires initial <=? now)%Z then ret None else
  let? subject := lift_result (rmap_err (λ _, protocol TX_Credential) (oidc_subject (pd_digester s) "local" (dr_subject initial))) in
  do? map_err from_control (lock_pair_shared subject client stop) in
  let? name := username (dr_subject initial) in
  let? p := principal_of (dr_subject initial) name (dr_revision initial) stop in
  ret (Some p).
(** A device approved only after it was first read: the client polls again. *)
Definition approved_since (initial d : DeviceRow) (principal : option OidcPrincipal) : M Tx DeviceError unit :=
  let? now := txn_clock now_micros in
  if (now <? dr_expires d)%Z && str_eqb (dr_status d) "approved"
     && (negb (str_eqb (dr_subject initial) (dr_subject d)) || negb (dr_revision initial =? dr_revision d)%Z
         || bool_decide (principal = None))
  then fail DV_AuthorizationPending else ret tt.
Definition poll (client device : string) (original : Z) (random : option string) : M Tx DeviceError DeviceAccessToken :=
  let? stop := txn_clock (bounded_deadline original (pd_operation_timeout s)) in
  do? lift_result (parameters [client; device]) in
  do? lift_result (client_check client) in
  let? suffix := lift_result (ok_or (strip_prefix device "gb_dc_") (protocol TX_InvalidGrant)) in
  if negb (validate_local_auth_challenge suffix) then fail (protocol TX_InvalidGrant) else
  let? hash := lift_result (digest DeviceCode device) in
  do? begin in
  let? initial := read hash false false in
  let? principal := approver initial client stop in
  let? d := read hash false true in
  if negb (str_eqb (dr_client d) client) then fail (protocol TX_InvalidGrant) else
  do? approved_since initial d principal in
  let? now := txn_clock now_micros in
  let? response := answer client d principal now stop random in
  do? guard_original stop in
  do? sql_commit in
  do? guard_original stop in
  match response with
  | Ok token =>
      do? check stop (dr_expires d) in
      let? _ := remaining stop (da_expires_at token) in
      ret token
  | Err e => fail e
  end.
End service.
End device.

(** ** What each operation does to the database *)

Section effects.
Context `{OidcLib, CredentialLib, SignLib} (R : gset Key → Db → Db → Prop) `{!Rely R}.

Lemma rests_check original expiry : keeps (rests R) (check original expiry).
Proof. unfold check. auto 10 with broker. Qed.
#[local] Hint Extern 1 (keeps (rests _) (check _ _)) => apply rests_check : broker.
Lemma rests_remaining original expiry : keeps (rests R) (remaining original expiry).
Proof. unfold remaining. auto 10 with broker. Qed.
Lemma rests_device_valid d p : keeps (rests R) (device_valid d p).
Proof. unfold device_valid. auto 10 with broker. Qed.
#[local] Hint Extern 1 (keeps (rests _) (device_valid _ _)) => apply rests_device_valid : broker.
Lemma rests_consent_valid r binding stop : keeps (rests R) (consent_valid r binding stop).
Proof. unfold consent_valid. auto 10 with broker. Qed.
Lemma rests_consent_row hash lock : keeps (rests R) (consent_row hash lock).
Proof. unfold consent_row. destruct lock; auto 10 with broker. Qed.
Lemma rests_username subject : keeps (rests R) (username subject).
Proof. unfold username. auto 10 with broker. Qed.
#[local] Hint Extern 1 (keeps (rests _) (username _)) => apply rests_username : broker.
Lemma rests_read s hash by_user lock : keeps (rests R) (read s hash by_user lock).
Proof. unfold read. destruct lock; auto 20 with broker. Qed.
Lemma rests_begin : keeps (rests R) begin.
Proof. unfold begin. auto with broker. Qed.
Lemma rests_principal_of s subject name revision stop : keeps (rests R) (principal_of s subject name revision stop).
Proof. unfold principal_of. auto with broker. Qed.
#[local] Hint Extern 1 (keeps (rests _) (principal_of _ _ _ _ _)) => apply rests_principal_of : broker.
Lemma rests_approver s initial client stop : keeps (rests R) (approver s initial client stop).
Proof. unfold approver. auto 20 with broker. Qed.
Lemma rests_approved_since initial d principal : keeps (rests R) (approved_since initial d principal).
Proof. unfold approved_since. auto with broker. Qed.
Lemma keeps_sign_access i input original : keeps clock_run (sign_access i input original).
Proof. unfold sign_access, deadline_around, ai_check_deadline, still_valid. auto 20 with broker. Qed.
#[local] Hint Resolve keeps_sign_access : broker.
Lemma inside_delete_device hash : keeps (inside R) (delete_device hash).
Proof. unfold delete_device. auto with broker. Qed.
#[local] Hint Extern 1 (keeps (inside _) (delete_device _)) => apply inside_delete_device : broker.
Lemma inside_redeem s client d principal now stop random : keeps (inside R) (redeem s client d principal now stop random).
Proof. unfold redeem. auto 40 with broker. Qed.
#[local] Hint Extern 1 (keeps (inside _) (redeem _ _ _ _ _ _ _)) => apply inside_redeem : broker.
Lemma inside_answer s client d principal now stop random : keeps (inside R) (answer s client d principal now stop random).
Proof. unfold answer. auto 20 with broker. Qed.
End effects.
#[export] Hint Extern 1 (keeps (rests _) (check _ _)) => apply rests_check : broker.
#[export] Hint Extern 1 (keeps (rests _) (remaining _ _)) => apply rests_remaining : broker.
#[export] Hint Extern 1 (keeps (rests _) (device_valid _ _)) => apply rests_device_valid : broker.
#[export] Hint Extern 1 (keeps (rests _) (consent_valid _ _ _)) => apply rests_consent_valid : broker.
#[export] Hint Extern 1 (keeps (rests _) (consent_row _ _)) => apply rests_consent_row : broker.
#[export] Hint Extern 1 (keeps (rests _) (username _)) => apply rests_username : broker.
#[export] Hint Extern 1 (keeps (rests _) (read _ _ _ _)) => apply rests_read : broker.
#[export] Hint Extern 1 (keeps (rests _) begin) => apply rests_begin : broker.
#[export] Hint Extern 1 (keeps (rests _) (principal_of _ _ _ _ _)) => apply rests_principal_of : broker.
#[export] Hint Extern 1 (keeps (rests _) (approver _ _ _ _)) => apply rests_approver : broker.
#[export] Hint Extern 1 (keeps (rests _) (approved_since _ _ _)) => apply rests_approved_since : broker.
#[export] Hint Extern 1 (keeps (inside _) (answer _ _ _ _ _ _ _)) => apply inside_answer : broker.

(** ** A poll, as one atomic step *)

Section poll.
Context `{OidcLib, CredentialLib, SignLib} (s : PostgresDeviceAuthorizations).
Notation cap := (ol_json_bytes (op_limits (pd_authorization s))).

(** The codes stored under a digest. *)
Record stored_device (db : Db) (hash : string) (r : DeviceCodeRow) (d : DeviceRow) : Prop := {
  sd_row : db !! devices hash = Some (RDevice r);
  sd_decode : device_decode cap (devices hash) r = Ok d;
  sd_valid : ∃ now, device_invalid d (pd_policy s) now = false;
}.
(** The person who approved is still a person who may act, unchanged since. *)
Definition approved_by (db : Db) (d : DeviceRow) (p : OidcPrincipal) : Prop :=
  ∃ name u lp, db !! users name = Some (RUser u) ∧
    user_principal (dr_subject d) name (dr_revision d) cap name u = Ok lp ∧
    pr_issuer p = "local" ∧ pr_subject p = dr_subject d ∧ pr_revision p = dr_revision d ∧ pr_username p = name ∧
    pr_teams p = lp_teams lp.
Definition polled_early (d : DeviceRow) (now : Z) : Prop :=
  ∃ last, dr_last_poll d = Some last ∧ (now - last < Z.min (dr_interval d * 1000000) I64_MAX)%Z.
(** One poll at the time [now]: the answer and the new database. *)
Inductive polls (hash client : string) (now : Z) (db : Db) : result DeviceError DeviceAccessToken → Db → Prop :=
| PollExpired r d :
    stored_device db hash r d → (dr_expires d ≤ now)%Z →
    polls hash client now db (Err DV_ExpiredToken) (delete (devices hash) db)
| PollDenied r d :
    stored_device db hash r d → (now < dr_expires d)%Z → dr_status d = "denied" →
    polls hash client now db (Err DV_AccessDenied) (delete (devices hash) db)
| PollSlowDown r d :
    stored_device db hash r d → (now < dr_expires d)%Z → dr_status d ≠ "denied" → polled_early d now →
    polls hash client now db (Err DV_SlowDown)
      (<[devices hash := RDevice (polled (λ _, dr_interval d + 5)%Z now r)]> db)
| PollPending r d :
    stored_device db hash r d → (now < dr_expires d)%Z → dr_status d = "pending" → ¬ polled_early d now →
    polls hash client now db (Err DV_AuthorizationPending) (<[devices hash := RDevice (polled id now r)]> db)
| PollToken r d p data token_hash jti subject expires t :
    stored_device db hash r d → (now < dr_expires d)%Z → dr_status d = "approved" → ¬ polled_early d now →
    approved_by db d p →
    db !! tokens token_hash = None →
    digest s OidcStoredAccess jti = Ok token_hash →
    oidc_subject (pd_digester s) "local" (dr_subject d) = Ok subject →
    td_principal data = p → td_oidc_subject data = subject → td_client_id data = client →
    td_audience data = op_api_audience (pd_authorization s) → td_family data = "" →
    (now + dp_access_micros (pd_policy s) - 1000000 < expires ≤ now + dp_access_micros (pd_policy s))%Z → da_expires_at t = expires →
    polls hash client now db (Ok t)
      (delete (devices hash) (<[tokens token_hash := RToken (token_row data jti "oidc_access" expires)]> db)).

Context (R : gset Key → Db → Db → Prop) `{!Rely R}.
Lemma device_where_ok by_user hash k r :
  device_where by_user hash k r = true →
  ∃ h d, k = devices h ∧ r = RDevice d ∧ (if by_user then dc_user_hash d else h) = hash.
Proof.
  destruct r as [| |d| | | | | |]; try done. cbn [device_where]. intros [Hk Hh]%andb_true_iff. apply str_eqb_eq in Hk, Hh.
  destruct k as [t h]. simpl in *. subst t. exists h, d. by destruct by_user.
Qed.
Lemma device_decode_hash limit h r d : device_decode limit (devices h) r = Ok d → dr_hash d = h.
Proof.
  unfold device_decode. intros Hd. invert_ok Hd. injection Hd as <-. simpl.
  match goal with Hc : capped 64 (devices h).2 = Some _ |- _ => by apply capped_ok in Hc as [-> _] end.
Qed.
(** The row that was locked, decoded. *)
Lemma read_locked by_user hash c d c' :
  read s hash by_user true c = (Ok d, c') → cn_writes c = ∅ →
  ∃ r, held c' (devices (dr_hash d)) (Some (RDevice r)) ∧ device_decode cap (devices (dr_hash d)) r = Ok d ∧
    (if by_user then dc_user_hash r else dr_hash d) = hash ∧ ∃ now, device_invalid d (pd_policy s) now = false.
Proof.
  unfold read. intros Hr Hw. apply bind_ok in Hr as (row & c1 & Hs & Hr).
  apply bind_ok in Hr as ([k r] & c2 & Hl & Hr). apply lift_ok in Hl as [Hl ->]. apply ok_or_ok in Hl.
  destruct row as [[k' r']|]; [|done]. simpl in Hl. destruct r' as [| |r'| | | | | |]; try done. injection Hl as -> ->.
  apply (select_where_locked_ok R) in Hs as (I1 & Hv & Hp & Hk). apply device_where_ok in Hp as (h & ? & -> & [= <-] & Hh).
  rewrite view_clean in Hv by (by eapply clean_rests).
  apply bind_ok in Hr as (d' & c3 & Hl & Hr). apply lift_ok in Hl as [Hd ->].
  apply bind_ok in Hr as (u & c4 & Hval & Hr).
  assert (∃ now, device_invalid d' (pd_policy s) now = false) as Hnow.
  { unfold device_valid in Hval. invert_run Hval. eauto. }
  apply (rests_device_valid R) in Hval as [Hin _].
  match type of Hr with (if ?b then _ else _) _ = _ => destruct b; [done|] end. apply ret_ok in Hr as [-> ->].
  rewrite (device_decode_hash _ _ _ _ Hd). exists r. split; [by eapply held_inside|]. done.
Qed.
(** Deleting and updating the codes. *)
Lemma delete_device_ok hash c c' :
  delete_device hash c = (Ok tt, c') → ∃ c1, rests R c c1 ∧ c' = with_writes c1 {[devices hash := None]}.
Proof.
  unfold delete_device. intros Hr. apply bind_ok in Hr as (n & c1 & Hd & Hr).
  apply (delete_where_ok R) in Hd as (c2 & I & -> & ->). destruct (negb _) eqn:En; [done|]. apply ret_ok in Hr as [_ ->].
  exists c2. split; [done|]. unfold device_at in *. rewrite rows_at_key in *. apply negb_false_iff, Nat.eqb_eq in En.
  destruct (view c2 !! devices hash) as [[| |r| | | | | |]|]; try (by rewrite map_size_empty in En). by rewrite map_fmap_singleton.
Qed.
Lemma update_device_ok hash f r c n c' :
  update_where (E:=DeviceError) (device_at hash (λ _, true)) (set_device f) c = (Ok n, c') → cn_writes c = ∅ →
  held c (devices hash) (Some (RDevice r)) →
  ∃ c1, rests R c c1 ∧ c' = with_writes c1 {[devices hash := Some (RDevice (f r))]}.
Proof.
  intros Hr Hw Hh. apply (update_where_ok R) in Hr as (c1 & I & _ & ->). exists c1. split; [done|].
  unfold device_at. rewrite rows_at_key, view_clean by (by eapply clean_rests).
  destruct (held_inside R _ _ _ _ (re_inside _ _ _ I) Hh) as [_ ->]. by rewrite map_fmap_singleton.
Qed.
(** The system clock is not set back while the operation runs. *)
Definition steady (c : clock) : Prop := ∀ n m, n ≤ m → (utc_at c n ≤ utc_at c m)%Z.
Lemma steady_run c c' : clock_run c c' → steady c → steady c'.
Proof. intros [_ Hu _] Hs n m Hnm. rewrite !Hu. by apply Hs. Qed.
Lemma now_micros_steady (c c1 c2 c3 : Tx) n1 n2 :
  txn_clock (E:=DeviceError) now_micros c = (Ok n1, c1) → clock_run (cn_clock c1) (cn_clock c2) →
  txn_clock (E:=DeviceError) now_micros c2 = (Ok n2, c3) → steady (cn_clock c) → (n1 ≤ n2)%Z.
Proof.
  unfold txn_clock, txn_with, now_micros, bind, system_now, lift_result. intros Hn1 Hrun Hn2 Hs.
  destruct (TimestampMicros_try_from (utc_at (cn_clock c) _)) as [t1|] eqn:E1; [|done].
  destruct (TimestampMicros_try_from (utc_at (cn_clock c2) _)) as [t2|] eqn:E2; [|done].
  simpl in Hn1, Hn2. injection Hn1 as <- <-. injection Hn2 as <- <-. destruct Hrun as [_ Hu Ht]. simpl in Hu, Ht.
  unfold TimestampMicros_try_from, duration_since, UNIX_EPOCH in *.
  destruct (0 <=? utc_at (cn_clock c) _)%Z eqn:L1; [|done]. destruct (0 <=? utc_at (cn_clock c2) _)%Z eqn:L2; [|done].
  simpl in E1, E2. case_hyp E1; [|done]. case_hyp E2; [|done].
  apply TimestampMicros_new_Some in E1 as [-> _]. apply TimestampMicros_new_Some in E2 as [-> _].
  apply Z.div_le_mono; [lia|]. rewrite Hu, !Z.sub_0_r. apply Hs. lia.
Qed.
Lemma approver_ok initial client stop c p c' :
  approver s initial client stop c = (Ok (Some p), c') → cn_writes c = ∅ →
  ∃ name u lp, held c' (users name) (Some (RUser u)) ∧
    user_principal (dr_subject initial) name (dr_revision initial) cap name u = Ok lp ∧
    pr_issuer p = "local" ∧ pr_subject p = dr_subject initial ∧ pr_revision p = dr_revision initial ∧ pr_username p = name ∧
    pr_teams p = lp_teams lp.
Proof.
  unfold approver. intros Hr Hw. destruct (negb _); [done|].
  apply (bind_rests R) in Hr as [(now & c1 & _ & I1 & Hr)|(? & [=] & _)]; [|auto with broker].
  destruct (_ <=? _)%Z; [done|]. apply bind_ok in Hr as (subject & c2 & Hl & Hr). apply lift_ok in Hl as [_ ->].
  apply (bind_rests R) in Hr as [(u & c3 & _ & I2 & Hr)|(? & [=] & _)]; [|auto with broker].
  apply (bind_rests R) in Hr as [(name & c4 & _ & I3 & Hr)|(? & [=] & _)]; [|auto with broker].
  apply bind_ok in Hr as (p' & c5 & Hp & Hr). apply ret_ok in Hr as [[= ->] ->]. apply map_err_ok in Hp.
  apply (current_principal_ok R) in Hp as (ur & lp & Hh & Hu & ->); [|do 3 (eapply clean_rests; [done|]); done].
  pose proof (user_principal_ok _ _ _ _ _ _ _ Hu) as (_ & _ & _ & _ & _ & _ & _ & ? & ? & ? & ? & _).
  exists name, ur, lp. done.
Qed.
Lemma approved_since_ok initial d principal c u c1 now c2 :
  approved_since initial d principal c = (Ok u, c1) → txn_clock (E:=DeviceError) now_micros c1 = (Ok now, c2) →
  steady (cn_clock c) → (now < dr_expires d)%Z → dr_status d = "approved" →
  dr_subject initial = dr_subject d ∧ dr_revision initial = dr_revision d ∧ principal ≠ None.
Proof.
  unfold approved_since. intros Hr Hnow Hst Hlt Happ. apply bind_ok in Hr as (now1 & c3 & Hn1 & Hr).
  assert (c3 = c1) as -> by (destruct (_ && _) in Hr; [done|]; by apply ret_ok in Hr as [_ ->]).
  pose proof (now_micros_steady _ _ _ _ _ _ Hn1 (clock_run_refl _) Hnow Hst) as Hle.
  rewrite (proj2 (Z.ltb_lt _ _)), (proj2 (str_eqb_eq _ _) Happ) in Hr by lia. cbn [andb] in Hr.
  match type of Hr with (if ?b then _ else _) _ = _ => destruct b eqn:Eb; [done|] end. bool_to_prop.
  split; [by apply str_eqb_eq|]. done.
Qed.
Lemma redeem_ok client d principal now stop random c t c' :
  redeem s client d principal now stop random c = (Ok t, c') → cn_writes c = ∅ →
  ∃ p data token_hash jti,
    principal = Some p ∧ digest s OidcStoredAccess jti = Ok token_hash ∧
    oidc_subject (pd_digester s) (pr_issuer p) (pr_subject p) = Ok (td_oidc_subject data) ∧
    td_principal data = p ∧ td_client_id data = client ∧ td_audience data = op_api_audience (pd_authorization s) ∧
    td_family data = "" ∧
    (0 ≤ now + dp_access_micros (pd_policy s) →
     now + dp_access_micros (pd_policy s) - 1000000 < da_expires_at t ≤ now + dp_access_micros (pd_policy s))%Z ∧
    held c' (tokens token_hash) None ∧
    cn_writes c' = <[devices (dr_hash d) := None]>
      {[tokens token_hash := Some (RToken (token_row data jti "oidc_access" (da_expires_at t)))]}.
Proof.
  unfold redeem. intros Hr Hw. apply bind_ok in Hr as (p & c1 & Hl & Hr). apply lift_ok in Hl as [Hp ->]. apply ok_or_ok in Hp as ->.
  apply bind_ok in Hr as (subject & c2 & Hl & Hr). apply lift_ok in Hl as [Hsub ->]. apply rmap_err_ok in Hsub.
  apply bind_ok in Hr as (sum & c3 & Hl & Hr). apply lift_ok in Hl as [Hsum ->]. apply ok_or_ok in Hsum.
  apply bind_ok in Hr as (jti & c4 & Hl & Hr). apply lift_ok in Hl as [_ ->].
  apply bind_ok in Hr as (iat & c5 & Hl & Hr). apply lift_ok in Hl as [_ ->].
  apply bind_ok in Hr as (exp & c6 & Hl & Hr). apply lift_ok in Hl as [_ ->].
  apply (bind_rests R) in Hr as [(access & c7 & _ & I7 & Hr)|(? & [=] & _)]; [|pose proof keeps_sign_access; auto with broker].
  apply bind_ok in Hr as (json & c8 & Hl & Hr). apply lift_ok in Hl as [_ ->].
  apply bind_ok in Hr as (scopes & c9 & Hl & Hr). apply lift_ok in Hl as [_ ->].
  destruct (_ || _); [done|]. apply bind_ok in Hr as (th & c10 & Hl & Hr). apply lift_ok in Hl as [Hth ->].
  apply bind_ok in Hr as ([] & c11 & Hins & Hr). apply map_err_ok, (insert_row_ok R) in Hins as (c12 & I12 & Hnone & _ & ->).
  assert (cn_writes c12 = ∅) as Hw12 by (do 2 (eapply clean_rests; [done|]); done). rewrite view_clean in Hnone by done.
  apply bind_ok in Hr as ([] & c13 & Hdel & Hr). apply delete_device_ok in Hdel as (c14 & I14 & ->).
  apply (bind_rests R) in Hr as [(? & c15 & _ & I15 & Hr)|(? & [=] & _)]; [|auto with broker].
  apply (bind_rests R) in Hr as [(? & c16 & _ & I16 & Hr)|(? & [=] & _)]; [|auto with broker].
  apply ret_ok in Hr as [-> ->]. cbn [da_expires_at]. eexists p, {| td_principal := p |}, th, jti. cbn [td_oidc_subject td_principal td_client_id td_audience td_family].
  split; [done|]. split; [done|]. split; [done|]. split; [done|]. split; [reflexivity|]. split; [reflexivity|].
  split; [reflexivity|]. split; [|split].
  - intros Hpos. unfold checked_add_i64 in Hsum. case_hyp Hsum; [|done]. injection Hsum as <-.
    pose proof (Z.quot_rem' (now + dp_access_micros (pd_policy s)) 1000000).
    pose proof (Z.rem_bound_pos (now + dp_access_micros (pd_policy s)) 1000000). lia.
  - eapply held_inside; [exact (re_inside _ _ _ I16)|]. eapply held_inside; [exact (re_inside _ _ _ I15)|].
    eapply held_inside; [apply (writes_inside R)|]. eapply held_inside; [exact (re_inside _ _ _ I14)|].
    by apply held_write.
  - rewrite (re_writes _ _ _ I16), (re_writes _ _ _ I15), writes_one, (re_writes _ _ _ I14), writes_one, Hw12. done.
Qed.
Lemma polled_early_spec d now :
  is_some_and (dr_last_poll d) (λ last, now - last <? Z.min (dr_interval d * 1000000) I64_MAX)%Z = true ↔ polled_early d now.
Proof.
  unfold polled_early. destruct (dr_last_poll d) as [last|]; cbn [is_some_and].
  - rewrite Z.ltb_lt. naive_solver.
  - naive_solver.
Qed.
Lemma valid_status d p now :
  device_invalid d p now = false → dr_status d ≠ "denied" → dr_status d ≠ "pending" → dr_status d = "approved".
Proof.
  unfold device_invalid. rewrite !orb_false_iff. intros [_ Hs] Hd Hp. rewrite (proj2 (str_eqb_neq _ _) Hp) in Hs.
  destruct (str_eqb (dr_status d) "approved") eqn:Ea; [by apply str_eqb_eq|].
  by rewrite (proj2 (str_eqb_neq _ _) Hd) in Hs.
Qed.
(** The answer, and what its writes will make of the database. *)
Lemma answer_ok hash client d r principal now stop random c x c' :
  answer s client d principal now stop random c = (Ok x, c') → cn_writes c = ∅ →
  held c (devices hash) (Some (RDevice r)) → device_decode cap (devices hash) r = Ok d → dr_hash d = hash →
  (∃ t, device_invalid d (pd_policy s) t = false) → (0 ≤ now + dp_access_micros (pd_policy s))%Z →
  (∀ p, principal = Some p → (now < dr_expires d)%Z → dr_status d = "approved" →
    ∃ name u lp, held c (users name) (Some (RUser u)) ∧
      user_principal (dr_subject d) name (dr_revision d) cap name u = Ok lp ∧
      pr_issuer p = "local" ∧ pr_subject p = dr_subject d ∧ pr_revision p = dr_revision d ∧ pr_username p = name ∧
      pr_teams p = lp_teams lp) →
  ∀ c1, rests R c' c1 → polls hash client now (cn_db c1) x (view c1).
Proof.
  intros Hr Hw Hh Hdec Hhash Hval Hpos Hprin c1 Hc1. pose proof (inside_answer R _ _ _ _ _ _ _ _ _ _ Hr) as Hin.
  assert (stored_device (cn_db c1) hash r d) as Hst.
  { split; [|done|done]. apply (held_inside R c); [|done]. etrans; [exact Hin|exact (re_inside _ _ _ Hc1)]. }
  change (view c1) with (apply_writes (cn_writes c1) (cn_db c1)). rewrite (re_writes _ _ _ Hc1).
  unfold answer in Hr. destruct (dr_expires d <=? now)%Z eqn:Ee; bool_to_prop.
  { apply bind_ok in Hr as ([] & c2 & Hd & Hr). apply ret_ok in Hr as [-> ->]. apply delete_device_ok in Hd as (c3 & I3 & ->).
    rewrite writes_one, (re_writes _ _ _ I3), Hw, Hhash, apply_delete, apply_empty. by eapply PollExpired. }
  destruct (str_eqb (dr_status d) "denied") eqn:Ed.
  { apply str_eqb_eq in Ed. apply bind_ok in Hr as ([] & c2 & Hd & Hr). apply ret_ok in Hr as [-> ->].
    apply delete_device_ok in Hd as (c3 & I3 & ->).
    rewrite writes_one, (re_writes _ _ _ I3), Hw, Hhash, apply_delete, apply_empty. by eapply PollDenied. }
  apply str_eqb_neq in Ed. destruct (is_some_and _ _) eqn:Ep.
  { apply polled_early_spec in Ep. apply bind_ok in Hr as (next & c2 & Hl & Hr). apply lift_ok in Hl as [Hl ->].
    apply ok_or_ok in Hl. unfold checked_add_i64 in Hl. case_hyp Hl; [|done]. injection Hl as <-.
    apply bind_ok in Hr as (n & c3 & Hu & Hr). apply ret_ok in Hr as [-> ->]. rewrite Hhash in Hu.
    eapply update_device_ok in Hu as (c4 & I4 & ->); [|done|done].
    rewrite writes_one, (re_writes _ _ _ I4), Hw, apply_insert, apply_empty. by eapply PollSlowDown. }
  assert (¬ polled_early d now) as Hearly by (rewrite <- polled_early_spec; congruence).
  destruct (str_eqb (dr_status d) "pending") eqn:Epe.
  { apply str_eqb_eq in Epe. apply bind_ok in Hr as (n & c3 & Hu & Hr). apply ret_ok in Hr as [-> ->]. rewrite Hhash in Hu.
    eapply update_device_ok in Hu as (c4 & I4 & ->); [|done|done].
    rewrite writes_one, (re_writes _ _ _ I4), Hw, apply_insert, apply_empty. by eapply PollPending. }
  apply str_eqb_neq in Epe. destruct Hval as [tv Hval]. pose proof (valid_status _ _ _ Hval Ed Epe) as Happ.
  apply bind_ok in Hr as (t & c2 & Hred & Hr). apply ret_ok in Hr as [-> ->].
  apply redeem_ok in Hred as (p & data & th & jti & -> & Hth & Hsub & Hdp & Hdc & Hda & Hdf & Hexp & Hnone & Hws); [|done].
  destruct (Hprin p eq_refl Ee Happ) as (name & u & lp & Hu & Hup & Hiss & Hps & Hpr & Hpu & Hpt).
  rewrite Hws, Hhash, apply_delete, <- insert_empty, apply_insert, apply_empty. rewrite Hiss, Hps in Hsub.
  assert (held c1 (users name) (Some (RUser u))) as [_ Hu1].
  { eapply held_inside; [exact (re_inside _ _ _ Hc1)|]. by eapply held_inside. }
  destruct (held_inside R _ _ _ _ (re_inside _ _ _ Hc1) Hnone) as [_ Hn1].
  eapply PollToken with (p := p) (data := data); eauto. exists name, u, lp. done.
Qed.
(** The errors of the last checks, which come too late to undo the poll. *)
Definition too_late (e : DeviceError) : Prop := e = DV_ExpiredToken ∨ ∃ ce, e = DV_Protocol (TX_Control ce).
Lemma late_clock {A} (m : M clock ControlError A) : only too_late (txn_clock m : M Tx DeviceError A).
Proof.
  intros c e c'. unfold txn_clock, txn_with. destruct (m (cn_clock c)) as [[a|ce] k]; [done|].
  intros [= <- _]. right. by exists ce.
Qed.
Lemma late_check original expiry : only too_late (check original expiry).
Proof.
  unfold check, guard_original. apply only_bind; [apply late_clock|]. intros _. apply only_bind; [apply late_clock|].
  intros now. destruct (_ <=? _)%Z; [apply only_fail; by left|apply only_ret].
Qed.
Lemma late_remaining original expiry : only too_late (remaining original expiry).
Proof.
  unfold remaining. apply only_bind; [apply late_check|]. intros _. apply only_bind; [apply late_clock|].
  intros now. destruct (_ <? _)%Z; [apply only_fail; right; by eexists|apply only_ret].
Qed.
Lemma same_db_check original expiry : keeps same_db (check original expiry).
Proof. unfold check. auto with broker. Qed.
#[local] Hint Resolve same_db_check : broker.
Lemma same_db_remaining original expiry : keeps same_db (remaining original expiry).
Proof. unfold remaining. auto with broker. Qed.
#[local] Hint Resolve same_db_remaining : broker.
Lemma now_micros_nonneg (c c' : Tx) now : txn_clock (E:=DeviceError) now_micros c = (Ok now, c') → (0 ≤ now)%Z.
Proof.
  unfold txn_clock, txn_with, now_micros, bind, system_now, lift_result.
  destruct (TimestampMicros_try_from _) as [t|] eqn:Et; [|done]. simpl. intros [= <- _].
  by apply TimestampMicros_nonneg in Et as [? _].
Qed.
(** The end of a poll. *)
Lemma poll_commit stop expires r c x c' :
  (do? guard_original stop in
   do? sql_commit in
   do? guard_original stop in
   match r with
   | Ok token => do? check stop expires in let? _ := remaining stop (da_expires_at token) in ret token
   | Err e => fail e
   end) c = (x, c') →
  (∃ e, x = Err e) ∧ inside R c c' ∨
  ∃ c1, rests R c c1 ∧ cn_db c' = view c1 ∧ (x = r ∨ ∃ e, x = Err e ∧ too_late e).
Proof.
  intros Hr. apply (bind_rests R) in Hr as [(u & c1 & _ & I1 & Hr)|(e & -> & Hin)]; [|by left; eauto|auto with broker].
  apply (commit_tail R) in Hr as [[He Hin]|(c2 & I2 & Hdb & Hx)].
  - left. split; [done|]. etrans; [exact (re_inside _ _ _ I1)|done].
  - right. exists c2. split; [by etrans|]. split; [done|]. destruct Hx as [(c3 & c4 & Hr)| ->];
      [|right; eexists; split; [done|]; right; by eexists].
    apply bind_cases in Hr as [(? & c5 & _ & Hr)|(e & Hr & ->)]; [|right; exists e; split; [done|by eapply late_clock]].
    destruct r as [t|e]; [|left; by injection Hr as <-].
    apply bind_cases in Hr as [(? & c6 & _ & Hr)|(e & Hr & ->)]; [|right; exists e; split; [done|by eapply late_check]].
    apply bind_cases in Hr as [(? & c7 & _ & Hr)|(e & Hr & ->)]; [|right; exists e; split; [done|by eapply late_remaining]].
    left. by injection Hr as <-.
  - apply keeps_bind; [apply _|auto with broker|]. intros _. destruct r; auto with broker.
Qed.
Lemma steady_rests (c c' : Tx) : rests R c c' → steady (cn_clock c) → steady (cn_clock c').
Proof. intros [Hi _]. apply steady_run, (in_clock _ _ _ Hi). Qed.
(** The end of the other operations. *)
Lemma check_commit {A} stop expires (a : A) c x c' :
  (do? check stop expires in do? sql_commit in do? check stop expires in ret a) c = (x, c') →
  (∃ e, x = Err e ∧ inside R c c') ∨
  ∃ c1, rests R c c1 ∧ cn_db c' = view c1 ∧ (x = Ok a ∨ ∃ e, x = Err e ∧ too_late e).
Proof.
  intros Hr. apply (bind_rests R) in Hr as [(u & c1 & _ & I1 & Hr)|(e & -> & Hin)]; [|by left; eauto|auto with broker].
  apply (commit_tail R) in Hr as [[[e He] Hin]|(c2 & I2 & Hdb & Hx)]; [| |auto with broker].
  - left. exists e. split; [done|]. etrans; [exact (re_inside _ _ _ I1)|done].
  - right. exists c2. split; [by etrans|]. split; [done|]. destruct Hx as [(c3 & c4 & Hr)| ->];
      [|right; eexists; split; [done|]; right; by eexists].
    apply bind_cases in Hr as [(? & c5 & _ & Hr)|(e & Hr & ->)]; [|right; exists e; split; [done|by eapply late_check]].
    left. by injection Hr as <-.
Qed.
Lemma insert_commit {A} k v clash stop expires (a : A) (c c1 c' : Tx) x :
  (do? insert_row k v clash in do? check stop expires in do? sql_commit in do? check stop expires in ret a) c1 = (x, c') →
  rests R c c1 → cn_writes c = ∅ →
  (∃ e, x = Err e ∧ inside R c c') ∨
  ∃ c2, inside R c c2 ∧ inside R c1 c2 ∧ cn_db c' = view c2 ∧ cn_db c2 !! k = None ∧ view c2 = <[k := v]> (cn_db c2) ∧
    (x = Ok a ∨ ∃ e, x = Err e ∧ too_late e).
Proof.
  intros Hr I Hw. apply bind_cases in Hr as [([] & c3 & Hins & Hr)|(e & Hins & ->)];
    [|left; exists e; split; [done|]; etrans; [exact (re_inside _ _ _ I)|by eapply inside_insert_row]].
  apply (insert_row_ok R) in Hins as (c4 & I4 & Hnone & _ & ->).
  assert (cn_writes c4 = ∅) as Hw4 by (eapply clean_rests; [exact I4|]; exact (clean_rests R _ _ I Hw)).
  rewrite view_clean in Hnone by done. pose proof (writes_inside R c4 {[k := Some v]}) as Iw.
  apply check_commit in Hr as [(e & -> & Hi)|(c5 & I5 & Hdb & Hx)].
  { left. exists e. split; [done|]. etrans; [exact (re_inside _ _ _ I)|]. etrans; [exact (re_inside _ _ _ I4)|].
    by etrans. }
  assert (inside R c1 c5) as Hi by (etrans; [exact (re_inside _ _ _ I4)|]; etrans; [exact Iw|exact (re_inside _ _ _ I5)]).
  right. exists c5. split; [etrans; [exact (re_inside _ _ _ I)|done]|]. split; [done|]. split; [done|].
  split; [eapply (held_inside R); [exact (re_inside _ _ _ I5)|by apply held_write]|]. split; [|done].
  change (view c5) with (apply_writes (cn_writes c5) (cn_db c5)).
  by rewrite (re_writes _ _ _ I5), writes_one, Hw4, apply_insert, apply_empty.
Qed.
(** A poll is one atomic step.  Whatever other transactions commit meanwhile
    and wherever a statement fails or the deadline cuts the poll off, either
    nothing is changed and an error reported, or the database goes, at one
    moment, through one step of [polls] at a time the poll read from its own
    clock: codes expired by then or denied are deleted, an
    early poll is slowed down, a pending one is recorded, and a token is stored
    and the codes deleted only when they were approved by a person who, at that
    very moment, may still act and has not been changed since.  The answer is
    that of the step, or one of the errors that come too late to undo it.  The
    clock does not run backwards and the lifetime of a token is not negative. *)
Lemma poll_atomic client device original random c x c' :
  poll s client device original random c = (x, c') → idle c → fair R c → steady (cn_clock c) →
  (0 ≤ dp_access_micros (pd_policy s))%Z →
  atomically R too_late c x c' (λ db r db', ∃ hash now, digest s DeviceCode device = Ok hash ∧ read_at c now ∧
    client = op_cli_client_id (pd_authorization s) ∧ polls hash client now db r db').
Proof.
  intros Hr Hidle Hfair Hst Hacc. pose proof Hidle as [Hw _].
  match goal with |- ?G => assert (∀ e, x = Err e → inside R c c' → G) as Hnothing
    by (intros; by eapply (atomically_nothing R)) end.
  unfold poll in Hr. assert (rests R c c) as I by reflexivity.
  read_step Hr I stop c1 Hm. read_step Hr I u1 c2 Hm2. read_step Hr I u2 c3 Hcl.
  read_step Hr I sfx c4 Hm4. guard_step Hr I G1.
  read_step Hr I hash c5 Hhash. apply lift_ok in Hhash as [Hhash _].
  read_step Hr I u3 c6 Hm6. read_step Hr I initial c7 Hinit. pose proof I as I7.
  read_step Hr I principal c8 Hprin. pose proof I as I8. read_step Hr I d c9 Hread.
  assert (cn_writes c8 = ∅) as Hw8 by (by eapply clean_rests).
  destruct (read_locked _ _ _ _ _ Hread Hw8) as (row & Hrow & Hdec & Hdh & Hval). rewrite Hdh in Hrow, Hdec.
  guard_step Hr I G2.
  read_step Hr I u4 c10 Hsince. pose proof (re_inside _ _ _ I) as Hi10. read_step Hr I now c11 Hnow. apply now_micros_nonneg in Hnow as Hnn.
  apply (bind_inside R) in Hr as [(r & c12 & Hans & Hi12 & Hr)|(e & -> & Hi)];
    [|eapply Hnothing; [done|etrans; [exact (re_inside _ _ _ I)|done]]|auto with broker].
  apply poll_commit in Hr as [[[e ->] Hi]|(c13 & I13 & Hdb & Hx)].
  { eapply Hnothing; [done|]. etrans; [exact (re_inside _ _ _ I)|]. by etrans. }
  eapply (atomically_step R); [done|done| |exact Hdb| |exact Hx].
  { etrans; [exact (re_inside _ _ _ I)|]. etrans; [done|exact (re_inside _ _ _ I13)]. }
  exists hash, now. split; [done|]. split; [by eapply (read_at_now R)|]. split.
  { apply lift_ok in Hcl as [Hcl _]. unfold client_check in Hcl. invert_ok Hcl. bool_to_prop. by apply str_eqb_eq. }
  apply (answer_ok hash client d row principal now stop random c11 r c12); try done.
  { exact (clean_rests R _ _ I Hw). }
  { lia. }
  intros p -> Hlt Happ. destruct (approver_ok _ _ _ _ _ _ Hprin) as (name & u & lp & Hu & Hup & Hp); [exact (clean_rests R _ _ I7 Hw)|].
  destruct (approved_since_ok _ _ _ _ _ _ _ _ Hsince Hnow) as (<- & <- & _); [|done|done|].
  { eapply steady_rests; [|exact Hst]. etrans; [exact I8|done]. }
  carry J7. carry J8. carry J9. by exists name, u, lp.
Qed.

(** ** The other operations *)

(** New codes, pending: the device code is made of the one random draw, the user
    code of the other. *)
Definition issues (client : string) (dr ur : option string) (db : Db)
    (r : result DeviceError DeviceAuthorizationCodes) (db' : Db) : Prop :=
  ∃ suffix user hash user_hash json now expires codes,
    r = Ok codes ∧ new_local_auth_challenge dr = Some suffix ∧ ac_device codes = "gb_dc_" +:+ suffix ∧
    user_code_of <$> ur = Some user ∧ ac_user codes = display_code user ∧ ac_expires_at codes = expires ∧
    digest s DeviceCode ("gb_dc_" +:+ suffix) = Ok hash ∧ digest s DeviceUserCode user = Ok user_hash ∧
    expires = (now + dp_ttl_micros (pd_policy s))%Z ∧
    db !! devices hash = None ∧ db' = <[devices hash := RDevice (pending_row s client user_hash json now expires)]> db.
Lemma issue_atomic client scope original dr ur c x c' :
  issue s client scope original dr ur c = (x, c') → idle c → fair R c →
  atomically R too_late c x c' (λ db r db', client = op_cli_client_id (pd_authorization s) ∧ issues client dr ur db r db').
Proof.
  intros Hr Hidle Hfair. pose proof Hidle as [Hw _].
  match goal with |- ?G => assert (∀ e, x = Err e → inside R c c' → G) as Hnothing
    by (intros; by eapply (atomically_nothing R)) end.
  unfold issue in Hr. assert (rests R c c) as I by reflexivity. read_step Hr I stop c1 Hm.
  guard_step Hr I G3.
  read_step Hr I u1 c2 Hm2. read_step Hr I u2 c3 Hcl. read_step Hr I js c4 Hm4.
  guard_step Hr I G4.
  read_step Hr I sfx c5 Hsfx. read_step Hr I user c6 Huser. read_step Hr I hash c7 Hhash. 
  apply lift_ok in Hsfx as [Hsfx%ok_or_ok _], Huser as [Huser%ok_or_ok _], Hhash as [Hhash _].
  read_step Hr I user_hash c8 Huh. apply lift_ok in Huh as [Huh _]. read_step Hr I u3 c9 Hm9. read_step Hr I now c10 Hnow. read_step Hr I expires c11 Hexp.
  apply lift_ok in Hexp as [Hexp _]. apply ok_or_ok in Hexp. unfold checked_add_i64 in Hexp. case_hyp Hexp; [|done].
  injection Hexp as <-. read_step Hr I u4 c12 Hm12.
  eapply insert_commit in Hr as [(e & He & Hi)|(c13 & I13 & I13' & Hdb & Hnone & Hview & Hx)]; [by eauto| |exact I|exact Hw].
  eapply (atomically_step R); [done|done|exact I13|exact Hdb| |exact Hx]. split.
  { apply lift_ok in Hcl as [Hcl _]. unfold client_check in Hcl. invert_ok Hcl. bool_to_prop. by apply str_eqb_eq. }
  eexists sfx, user, hash, user_hash, js, now, _, _. split; [reflexivity|]. split; [done|]. split; [reflexivity|]. split; [done|].
  do 2 (split; [reflexivity|]). done.
Qed.

(** A person who has logged in for these very codes is asked for consent. *)
Definition prepares (login : CompletedLocalLogin) (db : Db) (r : result DeviceError DeviceConsent) (db' : Db) : Prop :=
  ∃ user consent_hash binding row d u lp now consent,
    r = Ok consent ∧ login_verify_binding login (pd_digester s) (BindDeviceApprove user) = Some tt ∧
    approve_binding s user = Ok binding ∧ digest s LocalAuthChallenge (co_secret consent) = Ok consent_hash ∧
    stored_device db (dr_hash d) row d ∧ digest s DeviceUserCode user = Ok (dc_user_hash row) ∧ dr_status d = "pending" ∧
    (dr_created d ≤ cll_observed_at login)%Z ∧ db !! users (cll_username login) = Some (RUser u) ∧
    user_principal (cll_subject login) (cll_username login) (cll_revision login) cap (cll_username login) u = Ok lp ∧
    db !! challenges consent_hash = None ∧
    db' = <[challenges consent_hash :=
      RChallenge {| ch_subject := cll_subject login; ch_local_user_revision := cll_revision login; ch_purpose := "device-approve";
                    ch_binding_hash := binding; ch_stage := "device_consent"; ch_secret_ciphertext := "";
                    ch_expires_at := dr_expires d; ch_created_at := now |}]> db.
Lemma prepare_atomic user_code login original random c x c' :
  prepare s user_code login original random c = (x, c') → idle c → fair R c → atomically R too_late c x c' (prepares login).
Proof.
  intros Hr Hidle Hfair. pose proof Hidle as [Hw _].
  assert (∀ e, x = Err e → inside R c c' → atomically R too_late c x c' (prepares login)) as Hnothing
    by (intros; by eapply (atomically_nothing R)).
  unfold prepare in Hr. assert (rests R c c) as I by reflexivity. read_step Hr I stop c1 Hm. read_step Hr I u1 c2 Hm2.
  read_step Hr I user c3 Hm3. read_step Hr I u3 c4 Hver. apply lift_ok in Hver as [Hver _]. apply ok_or_ok in Hver. destruct u3.
  read_step Hr I user_hash c5 Huh. apply lift_ok in Huh as [Huh _]. read_step Hr I bnd c6 Hbind. apply lift_ok in Hbind as [Hbind _].
  read_step Hr I secret c7 Hm7. read_step Hr I hash c8 Hhash. apply lift_ok in Hhash as [Hhash _]. read_step Hr I u4 c9 Hm9.
  pose proof (clean_rests R _ _ I Hw) as Hw9. read_step Hr I prin c10 Hprin. pose proof (clean_rests R _ _ I Hw) as Hw10.
  apply map_err_ok, (current_principal_ok R) in Hprin as (u & lp & Hu & Hup & _); [|done].
  read_step Hr I d c11 Hread. apply read_locked in Hread as (row & Hrow & Hdec & Hdh & Hval); [|done].
  read_step Hr I u5 c12 Hm12. guard_step Hr I Est.
  read_step Hr I n1 c13 Hm13. guard_step Hr I G6.
  read_step Hr I now c14 Hm14. bool_to_prop. pose proof I as I14.
  eapply insert_commit in Hr as [(e & He & Hi)|(c15 & I15 & I15' & Hdb & Hnone & Hview & Hx)]; [by eauto| |exact I|exact Hw].
  eapply (atomically_step R); [done|done|exact I15|exact Hdb| |exact Hx].
  apply (held_inside R _ _ _ _ I15') in Hu as [_ Hu], Hrow as [_ Hrow]. rewrite <- Hdh in Huh.
  eexists user, hash, bnd, row, d, u, lp, now, _. do 4 (split; [done|]). split; [done|]. split; [done|].
  split; [by apply str_eqb_eq|]. split; [lia|]. done.
Qed.

(** The decision, by the same person, for codes still pending. *)
Definition decides (user_code secret : string) (allow : bool) (db : Db) (r : result DeviceError unit) (db' : Db) : Prop :=
  ∃ user consent_hash row d con u name lp now,
    r = Ok tt ∧ normalize_device_user_code user_code = Some user ∧ digest s LocalAuthChallenge secret = Ok consent_hash ∧
    stored_device db (dr_hash d) row d ∧ digest s DeviceUserCode user = Ok (dc_user_hash row) ∧ dr_status d = "pending" ∧
    (now < dr_expires d)%Z ∧ db !! challenges consent_hash = Some (RChallenge con) ∧ ch_purpose con = "device-approve" ∧
    ch_stage con = "device_consent" ∧ approve_binding s user = Ok (ch_binding_hash con) ∧ ch_expires_at con = dr_expires d ∧
    db !! users name = Some (RUser u) ∧
    user_principal (ch_subject con) name (ch_local_user_revision con) cap name u = Ok lp ∧
    db' = delete (challenges consent_hash)
      (<[devices (dr_hash d) := RDevice (decided allow (ch_subject con) (ch_local_user_revision con) row)]> db).
Lemma consent_row_locked hash c cr c' :
  consent_row hash true c = (Ok cr, c') → cn_writes c = ∅ →
  ∃ con, held c' (challenges hash) (Some (RChallenge con)) ∧
    cr = {| cr_subject := ch_subject con; cr_revision := ch_local_user_revision con; cr_purpose := ch_purpose con;
            cr_binding := ch_binding_hash con; cr_stage := ch_stage con; cr_cipher := ch_secret_ciphertext con;
            cr_expires := ch_expires_at con; cr_created := ch_created_at con |}.
Proof.
  unfold consent_row. intros Hr Hw. apply bind_ok in Hr as (row & c1 & Hs & Hr).
  apply (select_locked_ok R) in Hs as (I1 & -> & Hk). rewrite view_clean in * by (by eapply clean_rests).
  apply bind_ok in Hr as (con & c2 & Hl & Hr). apply lift_ok in Hl as [Hl ->]. apply ok_or_ok in Hl.
  apply lift_ok in Hr as [Hr ->]. destruct (cn_db c1 !! challenges hash) as [[| | |con'| | | | |]|] eqn:Ev; try done.
  injection Hl as ->. exists con. split; [split; [by apply Hk|done]|]. invert_ok Hr. injection Hr as <-.
  repeat match goal with Hc : capped _ _ = Some _ |- _ => apply capped_ok in Hc as [-> _] end. done.
Qed.
Lemma consent_valid_ok cr binding stop c u c' :
  consent_valid cr binding stop c = (Ok u, c') →
  cr_purpose cr = "device-approve" ∧ cr_binding cr = binding ∧ cr_stage cr = "device_consent".
Proof.
  unfold consent_valid. intros Hr. invert_run Hr. bool_to_prop.
  repeat match goal with Hs : str_eqb _ _ = true |- _ => apply str_eqb_eq in Hs end. done.
Qed.
(** The update and the deletion of a decision. *)
Lemma decide_writes hash ch now f row con c n c1 m c2 :
  update_where (E:=DeviceError) (device_at hash (λ r, str_eqb (dc_status r) "pending" && (now <? dc_expires_at r)%Z)) (set_device f) c
    = (Ok n, c1) → n = 1 →
  delete_where (E:=DeviceError) (at_key (challenges ch) (λ r, match r with RChallenge _ => true | _ => false end)) c1 = (Ok m, c2) →
  cn_writes c = ∅ → held c (devices hash) (Some (RDevice row)) → held c (challenges ch) (Some (RChallenge con)) →
  inside R c c2 ∧ (now < dc_expires_at row)%Z ∧
  cn_writes c2 = <[challenges ch := None]> (<[devices hash := Some (RDevice (f row))]> ∅).
Proof.
  intros Hu -> Hd Hw Hrow Hcon. apply (update_where_ok R) in Hu as (c3 & I3 & Hn & ->).
  pose proof (held_inside R _ _ _ _ (re_inside _ _ _ I3) Hrow) as [_ Hrow3].
  pose proof (held_inside R _ _ _ _ (re_inside _ _ _ I3) Hcon) as Hcon3.
  unfold device_at in *. rewrite rows_at_key, view_clean, Hrow3 in * by (by eapply clean_rests).
  destruct (_ && _) eqn:Eq; [|by rewrite map_size_empty in Hn]. apply andb_true_iff in Eq as [_ Hexp]. bool_to_prop.
  rewrite map_fmap_singleton in *. apply (delete_where_ok R) in Hd as (c4 & I4 & _ & ->).
  pose proof (writes_inside R c3 {[devices hash := Some (set_device f (RDevice row))]}) as Iw.
  assert (held c4 (challenges ch) (Some (RChallenge con))) as [_ Hcon4].
  { eapply held_inside; [exact (re_inside _ _ _ I4)|]. by eapply held_inside. }
  assert (view c4 !! challenges ch = Some (RChallenge con)) as Hv.
  { change (view c4) with (apply_writes (cn_writes c4) (cn_db c4)). rewrite lookup_apply, (re_writes _ _ _ I4), writes_one.
    rewrite lookup_insert_ne, (clean_rests R _ _ I3 Hw) by done. by rewrite lookup_empty. }
  rewrite rows_at_key, Hv, map_fmap_singleton. split; [|split; [done|]].
  - etrans; [exact (re_inside _ _ _ I3)|]. etrans; [exact Iw|]. etrans; [exact (re_inside _ _ _ I4)|]. apply (writes_inside R).
  - by rewrite writes_one, (re_writes _ _ _ I4), writes_one, (clean_rests R _ _ I3 Hw).
Qed.
Lemma device_decode_fields limit k r d :
  device_decode limit k r = Ok d → dr_status d = dc_status r ∧ dr_expires d = dc_expires_at r ∧ dr_subject d = dc_subject r ∧
    dr_revision d = dc_local_user_revision r.
Proof.
  unfold device_decode. intros Hd. invert_ok Hd. injection Hd as <-. simpl.
  repeat match goal with Hc : capped _ _ = Some _ |- _ => apply capped_ok in Hc as [-> _] end. done.
Qed.
(** A decision is one atomic step. *)
Lemma decide_atomic user_code client secret allow original c x c' :
  decide_device s user_code client secret allow original c = (x, c') → idle c → fair R c →
  atomically R too_late c x c' (decides user_code secret allow).
Proof.
  intros Hr Hidle Hfair. pose proof Hidle as [Hw _].
  assert (∀ e, x = Err e → inside R c c' → atomically R too_late c x c' (decides user_code secret allow)) as Hnothing
    by (intros; by eapply (atomically_nothing R)).
  unfold decide_device in Hr. assert (rests R c c) as I by reflexivity. read_step Hr I stop c1 Hm. read_step Hr I u1 c2 Hm2.
  read_step Hr I u2 c3 Hm3. read_step Hr I user c4 Huser. apply lift_ok in Huser as [Huser _]. apply ok_or_ok in Huser.
  guard_step Hr I G1. read_step Hr I ch c5 Hch. apply lift_ok in Hch as [Hch _].
  read_step Hr I uh c6 Huh. apply lift_ok in Huh as [Huh _]. read_step Hr I bnd c7 Hbnd. apply lift_ok in Hbnd as [Hbnd _].
  read_step Hr I u3 c8 Hm8. read_step Hr I initial c9 Hinit. read_step Hr I u4 c10 Hm10. read_step Hr I name c11 Hname.
  pose proof (clean_rests R _ _ I Hw) as Hw11. read_step Hr I prin c12 Hprin. pose proof (clean_rests R _ _ I Hw) as Hw12.
  apply map_err_ok, (current_principal_ok R) in Hprin as (u & lp & Hu & Hup & _); [|done].
  read_step Hr I d c13 Hread. apply read_locked in Hread as (row & Hrow & Hdec & Hdh & Hval); [|done].
  pose proof (clean_rests R _ _ I Hw) as Hw13.
  read_step Hr I current c14 Hcur. apply consent_row_locked in Hcur as (con & Hcon & ->); [|done].
  read_step Hr I u5 c15 Hcv. apply consent_valid_ok in Hcv as (Hpur & Hbind & Hstage). read_step Hr I u6 c16 Hm16.
  guard_step Hr I G2. bool_to_prop.
  match goal with Hb : ¬ initial ≠ _ |- _ => apply dec_stable in Hb as -> end.
  cbn [cr_subject cr_revision cr_purpose cr_binding cr_stage cr_expires] in *.
  read_step Hr I now c17 Hnow. pose proof (clean_rests R _ _ I Hw) as Hw17.
  apply (bind_inside R) in Hr as [(n & c18 & Hupd & Hi18 & Hr)|(e & He & Hi)];
    [|eapply Hnothing; [exact He|]; etrans; [exact (re_inside _ _ _ I)|done]|auto with broker].
  destruct (negb (n =? 1)) eqn:En; [injection Hr as <- <-; eapply Hnothing; [done|]; etrans; [exact (re_inside _ _ _ I)|done]|].
  apply (bind_inside R) in Hr as [(m & c19 & Hdel & Hi19 & Hr)|(e & He & Hi)];
    [|eapply Hnothing; [exact He|]; etrans; [exact (re_inside _ _ _ I)|by etrans]|auto with broker].
  destruct (negb (m =? 1)); [injection Hr as <- <-; eapply Hnothing; [done|]; etrans; [exact (re_inside _ _ _ I)|by etrans]|].
  apply negb_false_iff, Nat.eqb_eq in En.
  destruct (decide_writes _ _ _ _ _ _ _ _ _ _ _ Hupd En Hdel Hw17 Hrow Hcon) as (Hi17 & Hlt & Hws).
  apply check_commit in Hr as [(e & He & Hi)|(c20 & I20 & Hdb & Hx)].
  { eapply Hnothing; [exact He|]. etrans; [exact (re_inside _ _ _ I)|]. by etrans. }
  assert (inside R c17 c20) as Hi20 by (etrans; [done|exact (re_inside _ _ _ I20)]).
  eapply (atomically_step R); [done|done|etrans; [exact (re_inside _ _ _ I)|exact Hi20]|exact Hdb| |exact Hx].
  apply (held_inside R _ _ _ _ Hi20) in Hu as [_ Hu], Hrow as [_ Hrow], Hcon as [_ Hcon]. rewrite <- Hdh in Huh. rewrite <- Hbind in Hbnd.
  pose proof (device_decode_fields _ _ _ _ Hdec) as (_ & Hexp & _).
  exists user, ch, row, d, con, u, name, lp, now. split_and!; try done; [by apply str_eqb_eq|lia|].
  change (view c20) with (apply_writes (cn_writes c20) (cn_db c20)).
  by rewrite (re_writes _ _ _ I20), Hws, apply_delete, apply_insert, apply_empty.
Qed.
End poll.

Section claim.
Context `{OidcLib, CredentialLib, SignLib} (s : PostgresDeviceAuthorizations).
(** C14. A poll is one atomic step.  Whatever other transactions commit meanwhile
    and wherever a statement fails or the deadline cuts the poll off, either
    nothing is changed and an error reported, or the database goes, at one
    moment, through one step of [polls] at a time the poll read from its own
    clock: codes expired by then or denied are deleted, an
    early poll is slowed down, a pending one is recorded, and a token is stored
    and the codes deleted only when they were approved by a person who, at that
    very moment, may still act and has not been changed since.  The answer is
    that of the step, or one of the errors that come too late to undo it.  The
    clock does not run backwards and the lifetime of a token is not negative. *)
Theorem poll_refines (R : gset Key → Db → Db → Prop) `{!Rely R} client device original random (c : Tx) x c' :
  poll s client device original random c = (x, c') → idle c → fair R c → steady (cn_clock c) →
  (0 ≤ dp_access_micros (pd_policy s))%Z →
  ∃ db, R ∅ (cn_db c) db ∧
    ((∃ e, x = Err e) ∧ cn_db c' = db ∨
     ∃ r, (∃ hash now, digest s DeviceCode device = Ok hash ∧ read_at c now ∧
             client = op_cli_client_id (pd_authorization s) ∧ polls s hash client now db r (cn_db c')) ∧
       (x = r ∨ ∃ e, x = Err e ∧ too_late e)).
Proof. apply poll_atomic, _. Qed.
End claim.
