(* ===== verification/Tickets.v ===== *)
(** * One-time tickets

    Device codes and authorization codes are one-time tickets: what was handed
    out can be redeemed once.  The claim is one of accounting: in a sequence of
    calls, what was redeemed and what is still in stock never exceeds what was
    put in stock before.  Here is how an account of each call, which acts
    atomically, makes an account of the whole sequence. *)

From stdpp Require Import gmap.
From S2P Require Import Prelude RustStr Sql OidcTables.

(** How often something happened. *)
Definition times {B} (p : B → bool) (l : list B) : nat := length (filter (λ b, p b = true) l).
Lemma times_app {B} (p : B → bool) l k : times p (l ++ k) = times p l + times p k.
Proof. unfold times. by rewrite filter_app, length_app. Qed.
Lemma times_one {B} (p : B → bool) b : times p [b] = if p b then 1 else 0.
Proof. unfold times. rewrite filter_cons. by destruct (p b). Qed.

(** Whether a call may have changed the database: not when it reports an error,
    unless the error is one that can come too late. *)
Definition took {E A} (late : E → Prop) `{!∀ e, Decision (late e)} (x : result E A) : bool :=
  match x with Ok _ => true | Err e => bool_decide (late e) end.

(** ** Calls one after the other *)

Section ledger.
Context {K Ev : Type} (R : gset Key → Db → Db → Prop) `{!Rely R} (ready : Tx → Prop) (run : K → Tx → list Ev * Tx).
(** Calls one after the other, each on a connection of its own that is ready for
    it, while other transactions run; what the calls did, and the databases before
    the first and after the last. *)
Inductive served : Db → list Ev → Db → Prop :=
| served_nil db : served db [] db
| served_call k (c c' : Tx) now log db' :
    idle c → fair R c → ready c → run k c = (now, c') → served (cn_db c') log db' → served (cn_db c) (now ++ log) db'.

(** An account of the events between two databases, which adds up. *)
Context (adds_up : list Ev → Db → Db → Prop).
Class Ledger : Prop := {
  ledger_env db db' : R ∅ db db' → adds_up [] db db';
  ledger_app l l' db1 db2 db3 : adds_up l db1 db2 → adds_up l' db2 db3 → adds_up (l ++ l') db1 db3;
}.
Context `{!Ledger}.
(** A call that acts atomically, with the events of its answer. *)
Lemma atomically_ledger {E A} (late : E → Prop) (events : result E A → list Ev) P (c c' : Tx) (x : result E A) :
  atomically R late c x c' P → (∀ db r db', P db r db' → adds_up (events r) db db') →
  (∀ e db, adds_up (events (Err e)) db db) →
  (∀ e db r db', late e → P db r db' → adds_up (events (Err e)) db db') →
  adds_up (events x) (cn_db c) (cn_db c').
Proof.
  intros (db & HR & Hcase) HP Herr Hlate. change (events x) with ([] ++ events x). eapply ledger_app; [by apply ledger_env|].
  destruct Hcase as [[[e ->] ->]|(r & Hr & [->|(e & -> & He)])]; eauto.
Qed.
Lemma served_ledger db log db' :
  (∀ k c now c', idle c → fair R c → ready c → run k c = (now, c') → adds_up now (cn_db c) (cn_db c')) →
  served db log db' → adds_up log db db'.
Proof.
  intros Hrun. induction 1 as [db|k c c' now log db' Hi Hf Hok Hr Hs IH]; [apply ledger_env, reflexivity|].
  eapply ledger_app; [by eapply Hrun|done].
Qed.
End ledger.
