(* ===== verification/DeviceHistory.v ===== *)
(** * The life of device codes

    All operations of service/device.rs together, on one database: in any
    sequence of calls, whatever runs concurrently, a device code yields a token no
    more often than it was issued, and no more often than a person approved its
    user code. *)

From stdpp Require Import gmap.
From S2P Require Import Prelude RustStr Order Control BrokerAccess AccessIssuer Sql OidcTables.
From S2P Require Import Credentials Device Tickets.

#[export] Instance too_late_dec e : Decision (too_late e).
Proof.
  refine (match e with DV_ExpiredToken => left _ | DV_Protocol (TX_Control ce) => left _ | _ => right _ end);
    unfold too_late; first [by left|by right; eexists|by intros [?|[? ?]]].
Defined.

(** ** The codes of one device *)

Section stock.
Context (h : string).
Definition device_row (db : Db) : option DeviceCodeRow := match db !! devices h with Some (RDevice r) => Some r | _ => None end.
Definition present (db : Db) : nat := if device_row db then 1 else 0.
Definition approved (db : Db) : nat :=
  match device_row db with Some r => if str_eqb (dc_status r) "approved" then 1 else 0 | None => 0 end.
(** The user code that goes with this device code. *)
Definition goes_with (u : string) (db : Db) : Prop := ∀ r, device_row db = Some r → dc_user_hash r = u.
(** What others may do to the row of this device code: delete it, or change it,
    but neither make it anew nor approve it. *)
Definition kept_by_others (ks : gset Key) (db db' : Db) : Prop :=
  ∀ r', device_row db' = Some r' →
    ∃ r, device_row db = Some r ∧ dc_user_hash r' = dc_user_hash r ∧ (dc_status r' = "approved" → dc_status r = "approved").
#[export] Instance kept_by_others_rely : Rely kept_by_others.
Proof.
  split; [|done]. intros ks. split.
  - intros db r Hr. by exists r.
  - intros db1 db2 db3 H1 H2 r3 Hr3. destruct (H2 _ Hr3) as (r2 & Hr2 & Hu2 & Hs2). destruct (H1 _ Hr2) as (r1 & Hr1 & Hu1 & Hs1).
    exists r1. split; [done|]. split; [congruence|auto].
Qed.
Lemma kept_present ks db db' : kept_by_others ks db db' → present db' ≤ present db.
Proof. intros Hk. unfold present. destruct (device_row db') as [r'|] eqn:E; [|lia]. by destruct (Hk r' E) as (r & -> & _). Qed.
Lemma kept_approved ks db db' : kept_by_others ks db db' → approved db' ≤ approved db.
Proof.
  intros Hk. unfold approved. destruct (device_row db') as [r'|] eqn:E; [|lia]. destruct (Hk r' E) as (r & -> & _ & Hs).
  destruct (str_eqb (dc_status r') "approved") eqn:Es; [|lia]. apply str_eqb_eq, Hs in Es. by rewrite Es.
Qed.
Lemma kept_goes_with u ks db db' : kept_by_others ks db db' → goes_with u db → goes_with u db'.
Proof. intros Hk Hg r' Hr'. destruct (Hk r' Hr') as (r & Hr & -> & _). by apply Hg. Qed.

Lemma device_row_delete db k : device_row (delete k db) = if decide (k = devices h) then None else device_row db.
Proof. unfold device_row. case_decide as Hk; [subst k; by rewrite lookup_delete_eq|by rewrite lookup_delete_ne]. Qed.
Lemma device_row_insert db k v :
  device_row (<[k := v]> db) = if decide (k = devices h) then match v with RDevice r => Some r | _ => None end else device_row db.
Proof. unfold device_row. case_decide as Hk; [subst k; by rewrite lookup_insert_eq|by rewrite lookup_insert_ne]. Qed.
Lemma device_row_write db g r : device_row (<[devices g := RDevice r]> db) = if decide (g = h) then Some r else device_row db.
Proof. rewrite device_row_insert. by case_decide as Hk; case_decide; simplify_eq. Qed.
Lemma kept_delete ks db k : kept_by_others ks db (delete k db).
Proof. intros r'. rewrite device_row_delete. case_decide; [done|]. intros Hr. by exists r'. Qed.
Lemma kept_insert_other ks db k v : (∀ g, k ≠ devices g) → kept_by_others ks db (<[k := v]> db).
Proof. intros Hk r'. rewrite device_row_insert. case_decide as Hd; [by apply Hk in Hd|]. intros Hr. by exists r'. Qed.
Lemma kept_update ks db g r r' :
  db !! devices g = Some (RDevice r) → dc_user_hash r' = dc_user_hash r → (dc_status r' = "approved" → dc_status r = "approved") →
  kept_by_others ks db (<[devices g := RDevice r']> db).
Proof.
  intros Hg Hu Hs r''. rewrite device_row_insert. case_decide as Hd; [|intros Hr; by exists r'']. injection Hd as ->.
  intros [= <-]. exists r. split; [unfold device_row; by rewrite Hg|done].
Qed.
Lemma kept_trans ks db1 db2 db3 : kept_by_others ks db1 db2 → kept_by_others ks db2 db3 → kept_by_others ks db1 db3.
Proof. apply (rely_preorder (R:=kept_by_others)). Qed.
End stock.

(** ** Every operation, accounted for *)

Section operations.
Context `{OidcLib, CredentialLib, SignLib} (s : PostgresDeviceAuthorizations).

(** What a call did to codes: it issued a device code with its user code, it
    approved a user code, or it gave a token for a device code. *)
Inductive device_event := Issued (h u : string) | Approved (u : string) | Token (h : string).
Definition is_issue (h : string) (e : device_event) : bool := match e with Issued h' _ => str_eqb h' h | _ => false end.
Definition is_approval (u : string) (e : device_event) : bool := match e with Approved u' => str_eqb u' u | _ => false end.
Definition is_token (h : string) (e : device_event) : bool := match e with Token h' => str_eqb h' h | _ => false end.

(** A call of the service, and what it did. *)
Inductive call :=
| CIssue (client scope : string) (original : Z) (device_random user_random : option string)
| CPrepare (user_code : string) (login : CompletedLocalLogin) (original : Z) (random : option string)
| CDecide (user_code client secret : string) (allow : bool) (original : Z)
| CPoll (client device : string) (original : Z) (random : option string).
(** The codes of two random draws. *)
Definition issued_codes (dr ur : option string) : option (string * string) :=
  match new_local_auth_challenge dr, user_code_of <$> ur with
  | Some suffix, Some user =>
      match digest s DeviceCode ("gb_dc_" +:+ suffix), digest s DeviceUserCode user with
      | Ok h, Ok u => Some (h, u)
      | _, _ => None
      end
  | _, _ => None
  end.
Definition user_digest (user_code : string) : option string :=
  match normalize_device_user_code user_code with
  | Some user => match digest s DeviceUserCode user with Ok u => Some u | Err _ => None end
  | None => None
  end.
Definition run_call (k : call) (c : Tx) : list device_event * Tx :=
  match k with
  | CIssue client scope original r1 r2 =>
      let '(x, c') := issue s client scope original r1 r2 c in
      (match issued_codes r1 r2 with Some (h, u) => if took too_late x then [Issued h u] else [] | None => [] end, c')
  | CPrepare user_code login original r => ([], (prepare s user_code login original r c).2)
  | CDecide user_code client secret allow original =>
      let '(x, c') := decide_device s user_code client secret allow original c in
      (match user_digest user_code with Some u => if allow && took too_late x then [Approved u] else [] | None => [] end, c')
  | CPoll client device original r =>
      let '(x, c') := poll s client device original r c in
      (match digest s DeviceCode device, x with Ok h, Ok _ => [Token h] | _, _ => [] end, c')
  end.
(** Calls one after the other, on clocks that do not run backwards, with others
    that may do anything but issue or approve this device code. *)
Definition serves (h : string) : Db → list device_event → Db → Prop :=
  served (kept_by_others h) (λ c, steady (cn_clock c)) run_call.

Context (h : string).
Notation R := (kept_by_others h).
(** Steps that issue nothing, approve nothing and give no token. *)
Lemma polls_kept hash client now db r db' :
  polls s hash client now db r db' →
  kept_by_others h ∅ db db' ∧ ((∃ e, r = Err e) ∨
    (hash = h → present h db = 1 ∧ approved h db = 1 ∧ device_row h db' = None)).
Proof.
  intros Hp. destruct Hp as [r d Hst Hexp|r d Hst Hlt Hden|r d Hst Hlt Hden Hearly|r d Hst Hlt Hpen Hearly
    |r d p data th jti subject expires t Hst Hlt Happ Hearly Hby Hnone].
  - split; [apply kept_delete|left; by eexists].
  - split; [apply kept_delete|left; by eexists].
  - split; [by eapply kept_update; [exact (sd_row _ _ _ _ _ Hst)|..]|left; by eexists].
  - split; [by eapply kept_update; [exact (sd_row _ _ _ _ _ Hst)|..]|left; by eexists].
  - split; [eapply kept_trans; [by apply (kept_insert_other _ _ _ (tokens th))|apply kept_delete]|]. right. intros ->.
    destruct (device_decode_fields _ _ _ _ (sd_decode _ _ _ _ _ Hst)) as (Hs & _).
    unfold present, approved, device_row. rewrite (sd_row _ _ _ _ _ Hst). split; [done|].
    split; [by replace (dc_status r) with "approved" by congruence|by rewrite lookup_delete_eq].
Qed.
Lemma prepares_kept login db r db' : prepares s login db r db' → kept_by_others h ∅ db db'.
Proof.
  intros (user & ch & bnd & row & d & u & lp & now & con & _ & _ & _ & _ & _ & _ & _ & _ & _ & _ & _ & ->).
  by apply kept_insert_other.
Qed.
(** The rows of an issue and of a decision. *)
Lemma issues_row client dr ur db r db' :
  issues s client dr ur db r db' → ∃ hash u row, issued_codes dr ur = Some (hash, u) ∧ took too_late r = true ∧
    dc_user_hash row = u ∧ dc_status row = "pending" ∧ (hash = h → device_row h db = None) ∧
    device_row h db' = if decide (hash = h) then Some row else device_row h db.
Proof.
  intros (suffix & user & hash & uh & json & now & expires & codes & -> & Hsfx & _ & Huser & _ & _ & Hhash & Huh & _ & Hnone & ->).
  exists hash, uh, (pending_row s client uh json now expires). unfold issued_codes. rewrite Hsfx, Huser, Hhash, Huh.
  do 4 (split; [reflexivity|]).
  split; [intros ->; unfold device_row; by rewrite Hnone|]. apply device_row_write.
Qed.
Lemma decides_row user_code secret allow db r db' :
  decides s user_code secret allow db r db' → ∃ hash u row, user_digest user_code = Some u ∧ took too_late r = true ∧
    dc_user_hash row = u ∧ dc_status row = (if allow then "approved" else "denied") ∧
    (hash = h → ∃ old, device_row h db = Some old ∧ dc_user_hash old = u ∧ dc_status old = "pending") ∧
    device_row h db' = if decide (hash = h) then Some row else device_row h db.
Proof.
  intros (user & ch & row & d & con & u & name & lp & now & -> & Hn & _ & Hst & Hu & Hpen & _ & _ & _ & _ & _ & _ & _ & _ & ->).
  exists (dr_hash d), (dc_user_hash row), (decided allow (ch_subject con) (ch_local_user_revision con) row).
  unfold user_digest. rewrite Hn, Hu. do 3 (split; [reflexivity|]). split; [by destruct allow|].
  destruct (device_decode_fields _ _ _ _ (sd_decode _ _ _ _ _ Hst)) as (Hs & _). split.
  - intros <-. exists row. unfold device_row. rewrite (sd_row _ _ _ _ _ Hst). split; [done|]. split; [done|congruence].
  - rewrite device_row_delete, decide_False by done. apply device_row_write.
Qed.
(** The account of this device code, and of the user code that goes with it. *)
Definition balanced (u : string) (log : list device_event) (db db' : Db) : Prop :=
  times (is_token h) log + present h db' ≤ times (is_issue h) log + present h db ∧
  (goes_with h u db → (∀ u', Issued h u' ∈ log → u' = u) →
   goes_with h u db' ∧ times (is_token h) log + approved h db' ≤ times (is_approval u) log + approved h db).
#[local] Instance balanced_ledger u : Ledger R (balanced u).
Proof.
  split.
  - intros db db' Hk. split; [by apply (kept_present h ∅)|]. intros Hg _. split; [by eapply kept_goes_with|by apply (kept_approved h ∅)].
  - intros l l' db1 db2 db3 [P1 A1] [P2 A2]. split; [rewrite !times_app; lia|]. intros Hg Hl.
    destruct A1 as [Hg2 A1]; [done|intros u' Hu; apply Hl, elem_of_app; by left|].
    destruct A2 as [Hg3 A2]; [done|intros u' Hu; apply Hl, elem_of_app; by right|]. split; [done|]. rewrite !times_app. lia.
Qed.
Lemma balanced_kept u db db' : kept_by_others h ∅ db db' → balanced u [] db db'.
Proof. apply (ledger_env R (balanced u)). Qed.
Lemma balanced_issue u h' u' db row db' :
  dc_user_hash row = u' → dc_status row = "pending" → (h' = h → device_row h db = None) →
  device_row h db' = (if decide (h' = h) then Some row else device_row h db) → balanced u [Issued h' u'] db db'.
Proof.
  intros Hu Hs Hnone Hrow. unfold balanced, goes_with, present, approved. rewrite !times_one, Hrow. simpl. case_decide as Hh.
  - subst h'. rewrite (Hnone eq_refl), (proj2 (str_eqb_eq h h) eq_refl). split; [lia|]. intros _ Hl. split; [|rewrite Hs; simpl; lia].
    intros r [= <-]. rewrite Hu. apply Hl. left.
  - rewrite (proj2 (str_eqb_neq h' h) Hh). split; [lia|]. intros Hg _. split; [done|lia].
Qed.
Lemma balanced_approval u u' h' (allow : bool) db row db' :
  dc_user_hash row = u' → dc_status row = (if allow then "approved" else "denied") →
  (h' = h → ∃ old, device_row h db = Some old ∧ dc_user_hash old = u' ∧ dc_status old = "pending") →
  device_row h db' = (if decide (h' = h) then Some row else device_row h db) →
  balanced u (if allow then [Approved u'] else []) db db'.
Proof.
  intros Hu Hs Hold Hrow. assert (times (is_token h) (if allow then [Approved u'] else []) = 0) as Ht by (by destruct allow).
  unfold balanced, goes_with, present, approved. rewrite Ht, Hrow. case_decide as Hh; [|split; [lia|intros Hg _; split; [done|lia]]].
  destruct (Hold Hh) as (old & Hr & Huo & Hso). rewrite Hr, Hso, Hs. split; [lia|]. intros Hg _.
  split; [intros r [= <-]; rewrite Hu, <- Huo; by apply Hg|]. destruct allow; simpl; [|lia]. rewrite times_one. simpl.
  replace u' with u by (rewrite <- Huo; symmetry; by apply Hg). by rewrite (proj2 (str_eqb_eq u u) eq_refl).
Qed.
Lemma balanced_token u h' db db' :
  kept_by_others h ∅ db db' → (h' = h → present h db = 1 ∧ approved h db = 1 ∧ device_row h db' = None) → balanced u [Token h'] db db'.
Proof.
  intros Hk Hh. unfold balanced. rewrite !times_one. simpl. destruct (str_eqb h' h) eqn:E.
  - apply str_eqb_eq in E. destruct (Hh E) as (Hp & Ha & Hn). rewrite Hp, Ha. unfold present, approved, goes_with. rewrite Hn.
    split; [done|]. by intros _ _.
  - destruct (balanced_kept u db db' Hk) as [Hp Ha]. split; [done|]. intros Hg _. apply Ha; [done|]. by intros u' ?%not_elem_of_nil.
Qed.
(** More issues or approvals only make the account weaker. *)
Lemma balanced_more u e db db' : balanced u [] db db' → (∀ h', e ≠ Token h') → balanced u [e] db db'.
Proof.
  intros [Hp Ha] He. assert (times (is_token h) [e] = 0) as Ht by (rewrite times_one; destruct e; try done; by destruct (He h0)).
  unfold balanced. rewrite Ht. split; [unfold times in Hp; simpl in Hp; lia|]. intros Hg _.
  destruct Ha as [Hg' Ha]; [done|by intros u' ?%not_elem_of_nil|]. split; [done|]. unfold times in Ha. simpl in Ha. lia.
Qed.
Lemma balanced_same u db : balanced u [] db db.
Proof. apply balanced_kept. intros r Hr. by exists r. Qed.
Lemma call_balanced u k (c c' : Tx) now :
  (0 ≤ dp_access_micros (pd_policy s))%Z → idle c → fair R c → steady (cn_clock c) → run_call k c = (now, c') →
  balanced u now (cn_db c) (cn_db c').
Proof.
  intros Hacc Hi Hf Hst Hr.
  destruct k as [client scope o r1 r2|user_code login o r|user_code client secret allow o|client device o r]; cbn [run_call] in Hr.
  - destruct (issue _ _ _ _ _ _ _) as [x c1] eqn:Ex. injection Hr as <- <-. apply (issue_atomic s R) in Ex; [|done..].
    eapply (atomically_ledger R (balanced u) too_late (λ x, match issued_codes r1 r2 with
      Some (h, u) => if took too_late x then [Issued h u] else [] | None => [] end)) in Ex; [done|..].
    + intros db y db' [_ (hash & uh & row & -> & -> & Hrow)%issues_row]. eapply balanced_issue; naive_solver.
    + intros e db. destruct (issued_codes r1 r2) as [[]|]; [|apply balanced_same]. destruct (took too_late _); [|apply balanced_same].
      apply balanced_more; [apply balanced_same|done].
    + intros e db y db' He [_ (hash & uh & row & -> & _ & Hrow)%issues_row]. simpl. rewrite bool_decide_true by done.
      eapply balanced_issue; naive_solver.
  - destruct (prepare s user_code login o r c) as [x c1] eqn:Ex. injection Hr as <- <-. apply (prepare_atomic s R) in Ex; [|done..].
    eapply (atomically_ledger R (balanced u) too_late (λ _, [])) in Ex; [exact Ex|..].
    + intros db y db' Hp. by eapply balanced_kept, prepares_kept.
    + intros e db. apply balanced_same.
    + intros e db y db' _ Hp. by eapply balanced_kept, prepares_kept.
  - destruct (decide_device s user_code client secret allow o c) as [x c1] eqn:Ex. injection Hr as <- <-. apply (decide_atomic s R) in Ex; [|done..].
    eapply (atomically_ledger R (balanced u) too_late (λ x, match user_digest user_code with
      Some u => if allow && took too_late x then [Approved u] else [] | None => [] end)) in Ex; [done|..].
    + intros db y db' (hash & uh & row & -> & -> & Hu & Hs & Hold & Hrow)%decides_row. rewrite andb_true_r. by eapply balanced_approval.
    + intros e db. destruct (user_digest user_code); [|apply balanced_same]. destruct (_ && _); [|apply balanced_same].
      apply balanced_more; [apply balanced_same|done].
    + intros e db y db' He (hash & uh & row & -> & _ & Hu & Hs & Hold & Hrow)%decides_row. simpl. rewrite bool_decide_true, andb_true_r by done.
      by eapply balanced_approval.
  - destruct (poll s client device o r c) as [x c1] eqn:Ex. injection Hr as <- <-. apply (poll_atomic s R) in Ex; [|done..].
    eapply (atomically_ledger R (balanced u) too_late (λ x, match digest s DeviceCode device, x with
      Ok h, Ok _ => [Token h] | _, _ => [] end)) in Ex; [done|..].
    + intros db y db' (hash & now & -> & _ & _ & [Hk Hy]%polls_kept). destruct y; [|by apply balanced_kept].
      apply balanced_token; [done|]. by destruct Hy as [[e [=]]|Hy].
    + intros e db. destruct (digest _ _ _); apply balanced_same.
    + intros e db y db' _ (hash & now & -> & _ & _ & [Hk _]%polls_kept). by apply balanced_kept.
Qed.
(** C11. A device code yields no more tokens than were issued and approved.
    Take any sequence of calls of the service, with whatever other transactions
    commit meanwhile as long as they neither issue nor approve this device code.
    The tokens answered to polls with the device code, and the code if it is
    still stored, are together no more than the times it was issued, counting the
    row that was there at the start.  And when the code goes with one user code,
    the tokens, and the approval if one is still stored, are together no more than
    the decisions that approved that user code, counting one stored at the start.
    So an issued code yields one token, and none without an approval of its own.
    The clocks of the calls do not run backwards, and the lifetime of a token is
    not negative. *)
Theorem device_single_use u db log db' :
  (0 ≤ dp_access_micros (pd_policy s))%Z → serves h db log db' →
  times (is_token h) log + present h db' ≤ times (is_issue h) log + present h db ∧
  (goes_with h u db → (∀ u', Issued h u' ∈ log → u' = u) →
   times (is_token h) log + approved h db' ≤ times (is_approval u) log + approved h db).
Proof.
  intros Hacc Hs. apply (served_ledger _ _ _ (balanced u)) in Hs as [Hp Ha]; [|intros k c now c' Hi Hf Hst Hr; by eapply call_balanced].
  split; [exact Hp|]. intros Hg Hl. by apply Ha.
Qed.
End operations.

(** ** A device from its codes to its token *)

#[local] Existing Instance sample_sign_lib.
Definition last_bytes (n : nat) (m : string) : string :=
  let l := bytes m in of_bytes (replicate (n - length l) "0"%char ++ drop (length l - n) l).
Definition sample_credential_lib : CredentialLib :=
  {| hmac := λ _ m, Some (last_bytes 32 m); url_b64_encode := λ d, d +:+ "AAAAAAAAAAA";
     url_b64_decode := λ s, Some (of_bytes (take 32 (bytes s))) |}.
Definition sample_oidc_lib : OidcLib :=
  {| json_string := Some; json_pair := λ a b, Some (a +:+ "," +:+ b); json_strings := λ l, Some (join " " l);
     strings_json := λ s, Some (if is_empty s then [] else split s " "); json_principal := λ p, Some (pr_subject p);
     principal_json := λ _, None; order_by := λ l, l |}.
#[local] Existing Instance sample_credential_lib.
#[local] Existing Instance sample_oidc_lib.
Definition sample_device_service : PostgresDeviceAuthorizations :=
  {| pd_digester := {| cd_pepper := "0123456789abcdef0123456789abcdef";
                       cd_limits := {| dl_pepper := 64; dl_token := 4096; dl_binding := 4096; dl_subject := 4096; dl_recovery := 64 |} |};
     pd_operation_timeout := SECS 30;
     pd_authorization := {| op_cli_client_id := "cli"; op_cli_redirect := "http://127.0.0.1/"; op_api_audience := "api";
                            op_accepted_resources := []; op_dynamic_registration := false; op_ttl_micros := 60000000;
                            op_limits := {| ol_json_bytes := 10000; ol_parameter_bytes := 10000 |} |};
     pd_policy := {| dp_ttl_micros := 600000000; dp_interval_seconds := 5; dp_access_micros := 600000000 |};
     pd_issuer := sample_access_issuer |}.
Definition sample_user : UserRow :=
  {| us_subject := "alice-subject"; us_identity_kind := "human"; us_password_hash := "$argon2id"; us_name := "Alice"; us_email := ""; us_organization := "org";
     us_teams_json := "dev ops"; us_enabled := 1; us_password_change_required := 0; us_revision := 3; us_created_at := 1;
     us_updated_at := 1 |}.
Definition sample_device_clock : clock := {| mono_at := λ _, 7%Z; utc_at := λ _, (1000 * NANOS)%Z; tick := 0 |}.
Definition sample_tx (db : Db) : Tx :=
  {| cn_db := db; cn_writes := ∅; cn_locks := ∅; cn_clock := sample_device_clock; cn_turns := [] |}.
Definition sample_random : string := "0123456789ABCDEF0123456789ABCDEF".
Definition sample_user_code : string := user_code_of "abcdefgh".
Definition sample_login : CompletedLocalLogin :=
  {| cll_username := "alice"; cll_subject := "alice-subject"; cll_revision := 3; cll_observed_at := 1000000000;
     cll_purpose := PurposeDeviceApprove;
     cll_binding := match local_auth_binding (pd_digester sample_device_service) (BindDeviceApprove sample_user_code) with
                    | Ok b => b | Err _ => "" end;
     cll_factor_verified := true; cll_recovery_codes := None |}.
Definition sample_calls : list call :=
  [CIssue "cli" "" 100 (Some sample_random) (Some "abcdefgh");
   CPrepare sample_user_code sample_login 100 (Some "fedcba9876543210fedcba9876543210");
   CDecide sample_user_code "cli" ("fedcba9876543210fedcba9876543210" +:+ "AAAAAAAAAAA") true 100;
   CPoll "cli" ("gb_dc_" +:+ sample_random +:+ "AAAAAAAAAAA") 100 (Some "00112233445566778899aabbccddeeff");
   CPoll "cli" ("gb_dc_" +:+ sample_random +:+ "AAAAAAAAAAA") 100 (Some "00112233445566778899aabbccddeef0")].
Fixpoint sample_run (ks : list call) (db : Db) : list device_event * Db :=
  match ks with
  | [] => ([], db)
  | k :: ks =>
      let '(now, c) := run_call sample_device_service k (sample_tx db) in
      let '(log, db) := sample_run ks (cn_db c) in (now ++ log, db)
  end.
Definition sample_start : Db := {[users "alice" := RUser sample_user]}.
Definition sample_db (n : nat) : Db := (sample_run (take n sample_calls) sample_start).2.
Definition sample_hash (kind : TokenKind) (raw : string) : string :=
  match digest sample_device_service kind raw with Ok h => h | Err _ => "" end.
Lemma sample_device_steady : steady sample_device_clock.
Proof. by intros n m _. Qed.
Lemma sample_run_serves h ks db : serves sample_device_service h db (sample_run ks db).1 (sample_run ks db).2.
Proof.
  revert db. induction ks as [|k ks IH]; intros db; [constructor|]. simpl.
  destruct (run_call sample_device_service k (sample_tx db)) as [now c] eqn:Er. specialize (IH (cn_db c)).
  destruct (sample_run ks (cn_db c)) as [log db'].
  by eapply (served_call _ _ _ k (sample_tx db)); [by split|constructor|exact sample_device_steady|exact Er|].
Qed.
Lemma poll_refines_witness :
  ∃ t, (poll sample_device_service "cli" ("gb_dc_" +:+ sample_random +:+ "AAAAAAAAAAA") 100
          (Some "00112233445566778899aabbccddeeff") (sample_tx (sample_db 3))).1 = Ok t ∧
    ∃ hash now db db', read_at (sample_tx (sample_db 3)) now ∧ polls sample_device_service hash "cli" now db (Ok t) db'.
Proof.
  eexists. split; [vm_compute; reflexivity|].
  edestruct (poll_refines sample_device_service (kept_by_others "") "cli" ("gb_dc_" +:+ sample_random +:+ "AAAAAAAAAAA") 100
    (Some "00112233445566778899aabbccddeeff") (sample_tx (sample_db 3))) as (db & _ & [[[e He] _]|(r & Hp & Hx)]);
    [apply surjective_pairing|by split|constructor|exact sample_device_steady|by vm_compute|vm_compute in He; discriminate He|].
  destruct Hp as (hash & now & _ & Hnow & _ & Hp). exists hash, now, db. eexists. split; [exact Hnow|]. destruct Hx as [Hx|(e & Hx & _)];
    vm_compute in Hx; [|discriminate Hx]. rewrite <- Hx in Hp. exact Hp.
Defined.
(** Codes are issued, approved and polled twice: the second poll gets no token,
    and nothing is left of them. *)
Lemma device_single_use_witness :
  let h := sample_hash DeviceCode ("gb_dc_" +:+ sample_random +:+ "AAAAAAAAAAA") in
  let u := sample_hash DeviceUserCode sample_user_code in
  let '(log, db') := sample_run sample_calls sample_start in
  log = [Issued h u; Approved u; Token h] ∧
  times (is_token h) log + present h db' ≤ times (is_issue h) log + present h sample_start ∧
  times (is_token h) log + approved h db' ≤ times (is_approval u) log + approved h sample_start.
Proof.
  intros h u. pose proof (sample_run_serves h sample_calls sample_start) as Hs.
  assert ((sample_run sample_calls sample_start).1 = [Issued h u; Approved u; Token h]) as Hlog by (vm_compute; reflexivity).
  destruct (sample_run sample_calls sample_start) as [log db']. simpl in Hs, Hlog. split; [exact Hlog|].
  destruct (device_single_use sample_device_service h u sample_start log db') as [H1 H2]; [by vm_compute|exact Hs|].
  split; [exact H1|]. apply H2; [by vm_compute|]. rewrite Hlog. intros u' Hu.
  rewrite !elem_of_cons, elem_of_nil in Hu. destruct Hu as [[= ->]|[[=]|[[=]|[]]]]. reflexivity.
Defined.
