(* ===== verification/OidcPolicy.v ===== *)
(** * Authorization requests

    crates/broker-control/src/oidc_authorization.rs: the policy of the
    authorization endpoint, the admission of a request and the validation of what
    was stored of it, and [client] of service/oidc_authorization.rs, which reads
    a registered client.  IRIs, URLs, IP addresses and the state machine of
    [oxide_auth] are parameters. *)

From stdpp Require Import gmap.
From S2P Require Import Prelude RustStr Order Control Sql OidcTables StorageAdmission Credentials.

(** ** Libraries *)

(** What [iri_string] says of an absolute IRI. *)
Record Iri := {
  iri_scheme : string;
  iri_authority : option (option string * string * option string);   (* user, host, port *)
  iri_path : string;
  iri_query : option string;
}.
(** The machine of [oxide_auth::code_grant::authorization]: what it asks for and
    what it is given. *)
Inductive SdkOutput :=
| SoBind (client_id : string) (redirect_uri : option string)
| SoExtend
| SoNegotiate (client_id redirect_uri : string) (scope : option string)
| SoOk (client_id redirect_uri : string)
| SoErr.
Inductive SdkInput :=
| SiNone
| SiBound (client_id redirect_uri : string)
| SiExtended (challenge : string)
| SiNegotiated (client_id redirect_uri scope state : string).
(** The parameters it reads of a request. *)
Record SdkRequest := {
  sr_client_id : string;
  sr_scope : string;
  sr_redirect_uri : string;
  sr_state : string;
  sr_response_type : string;
  sr_code_challenge : string;
  sr_code_challenge_method : string;
}.
Class AuthLib := {
  iri_absolute : string → option Iri;
  url_parses : string → bool;
  ip_loopback : string → bool;        (* an IP address, and a loopback one *)
  percent_decode : string → string;
  scope_parses : string → bool;       (* a scope of oxide_auth *)
  Machine : Type;
  machine_new : SdkRequest → Machine;
  machine_advance : Machine → SdkInput → Machine * SdkOutput;
  machine_rounds : nat;               (* after which it has finished *)
  pkce_challenge : string → string → option string;
  exact_url : string → option string;
}.

(** ** Data *)

Record OidcAuthorizationConfiguration := {
  oc_cli_client_id : string;
  oc_cli_redirect_path : string;
  oc_api_audience : string;
  oc_accepted_resources : list string;
  oc_dynamic_registration : bool;
  oc_authorization_ttl : Z;   (* nanoseconds *)
}.
Definition OidcAuthorizationLimits_new (json_bytes parameter_bytes : Z) : result OidcAuthorizationError OidcAuthorizationLimits :=
  if (ISIZE_MAX <? json_bytes)%Z || (ISIZE_MAX <? parameter_bytes)%Z then Err OA_InvalidLimits else
  let! _ := ok_or (checked_add_i64 json_bytes 1) OA_InvalidLimits in
  Ok {| ol_json_bytes := json_bytes; ol_parameter_bytes := parameter_bytes |}.
Record OidcAuthorizationInput := {
  oi_client_id : string;
  oi_redirect_uri : string;
  oi_response_type : string;
  oi_scope : string;
  oi_state : string;
  oi_nonce : string;
  oi_code_challenge : string;
  oi_code_challenge_method : string;
  oi_response_mode : option string;
  oi_resources : list string;
  oi_prompts : list string;
}.
Inductive OidcAuthorizationResponseMode := Query | Fragment | FormPost.
Definition from_parameter (v : option string) : OidcAuthorizationResponseMode :=
  match v with
  | Some v => if str_eqb v "fragment" then Fragment else if str_eqb v "form_post" then FormPost else Query
  | None => Query
  end.
Definition mode_as_str (m : OidcAuthorizationResponseMode) : string :=
  match m with Query => "query" | Fragment => "fragment" | FormPost => "form_post" end.
Record PendingFields := {
  pf_format : string;
  pf_phase : string;
  pf_client_id : string;
  pf_api_audience : string;
  pf_resource : option string;
  pf_redirect_uri : string;
  pf_state : string;
  pf_scopes : list string;
  pf_response_mode : string;
  pf_nonce : string;
  pf_code_challenge : string;
  pf_code_challenge_method : string;
}.
#[global] Instance PendingFields_eq_dec : EqDecision PendingFields.
Proof. solve_decision. Defined.
Record ClientData := { cd_id : string; cd_redirects : list string; cd_native : bool }.
Record Redirect := { rd_uri : Iri; rd_loopback : bool; rd_https : bool }.

Notation Guarded := (M clock OidcAuthorizationError).
Definition guard (original : Z) : Guarded unit :=
  let? now := instant_now in
  if (original <=? now)%Z then fail (OA_Control CE_Deadline) else ret tt.

(** The value of [u16::from_str]: decimal digits, with a sign allowed. *)
Definition digit_value (b : ascii) : option Z :=
  if is_ascii_digit b then Some (Z.of_N (N_of_ascii b) - 48)%Z else None.
Fixpoint parse_digits (acc : Z) (l : list ascii) : option Z :=
  match l with
  | [] => Some acc
  | b :: l => v ← digit_value b; if (acc * 10 + v <=? 65535)%Z then parse_digits (acc * 10 + v) l else None
  end.
Definition parse_u16 (s : string) : option Z :=
  let l := match bytes s with "+"%char :: l => l | l => l end in
  if bool_decide (l = []) then None else parse_digits 0 l.

Section policy.
Context `{AuthLib, CredentialLib}.

Definition valid_resource (raw : string) : bool :=
  (len raw <=? 512)%Z && negb (is_empty raw) && negb (contains_byte NUL raw)
  && (match iri_absolute raw with Some _ => true | None => false end) && url_parses raw.
Definition canonical_challenge (raw : string) : bool :=
  (len raw =? 43)%Z && is_some_and (url_b64_decode raw) (λ d, (len d =? 32)%Z && str_eqb (url_b64_encode d) raw).
Definition OidcClientId_parse (value : string) : option string :=
  if safe_identity_segment value 128 || validate_local_auth_challenge value then Some value else None.
Definition bare_host (host : string) : string :=
  default host (s ← strip_prefix host "["; strip_suffix s "]").
Definition redirect (raw : string) : result OidcAuthorizationError Redirect :=
  let! uri := ok_or (iri_absolute raw) OA_InvalidRedirect in
  if negb (url_parses raw) then Err OA_InvalidRedirect else
  let https := eq_ignore_ascii_case (iri_scheme uri) "https" in
  if negb https && negb (eq_ignore_ascii_case (iri_scheme uri) "http") then Err OA_InvalidRedirect else
  let! authority := ok_or (iri_authority uri) OA_InvalidRedirect in
  let '(user, host, port) := authority in
  if (match user with Some _ => true | None => false end) || is_empty host then Err OA_InvalidRedirect else
  let! _ := match port with
            | Some port =>
                let! p := ok_or (parse_u16 port) OA_InvalidRedirect in
                if (p =? 0)%Z then Err OA_InvalidRedirect else Ok tt
            | None => Ok tt
            end in
  let host := bare_host host in
  Ok {| rd_uri := uri; rd_loopback := eq_ignore_ascii_case host "localhost" || ip_loopback host; rd_https := https |}.
Definition validate_registration (c : ClientData) : result OidcAuthorizationError unit :=
  match OidcClientId_parse (cd_id c), cd_redirects c with
  | Some _, _ :: _ =>
      if forallb (λ raw, str_eqb (trim raw) raw && negb (is_empty raw)
           && match redirect raw with Ok r => xorb (rd_https r) (rd_loopback r) | Err _ => false end) (cd_redirects c)
      then if Bool.eqb (cd_native c) (existsb (λ uri, match redirect uri with Ok r => rd_https r | Err _ => false end) (cd_redirects c))
           then Err OA_MalformedStored else Ok tt
      else Err OA_MalformedStored
  | _, _ => Err OA_MalformedStored
  end.
Definition admit_redirect (c : ClientData) (raw : string) : result OidcAuthorizationError unit :=
  let! requested := redirect raw in
  let accepted :=
    if cd_native c && rd_loopback requested then
      existsb (λ s, match redirect s with
        | Ok registered =>
            rd_loopback registered
            && str_eqb (percent_decode (iri_path (rd_uri registered))) (percent_decode (iri_path (rd_uri requested)))
            && str_eqb (default "" (iri_query (rd_uri registered))) (default "" (iri_query (rd_uri requested)))
        | Err _ => false
        end) (cd_redirects c)
    else negb (cd_native c) && existsb (λ s, str_eqb s raw) (cd_redirects c) in
  if accepted then Ok tt else Err OA_InvalidRedirect.

(** ** The configured policy *)

Fixpoint accept_resources (accepted resources : list string) : option (list string) :=
  match resources with
  | [] => Some accepted
  | r :: resources =>
      let r := trim r in
      if negb (valid_resource r) then None
      else accept_resources (if existsb (str_eqb r) accepted then accepted else accepted ++ [r]) resources
  end.
Definition OidcAuthorizationPolicy_new (c : OidcAuthorizationConfiguration) (limits : OidcAuthorizationLimits)
    : result OidcAuthorizationError OidcAuthorizationPolicy :=
  if negb (safe_identity_segment (oc_cli_client_id c) 128) || negb (safe_identity_segment (oc_api_audience c) 128)
     || negb (starts_with (oc_cli_redirect_path c) "/")
     || contains_byte "?" (oc_cli_redirect_path c) || contains_byte "#" (oc_cli_redirect_path c)
     || (ol_parameter_bytes limits <? len (oc_cli_redirect_path c))%Z
     || negb ((30 * NANOS <=? oc_authorization_ttl c) && (oc_authorization_ttl c <=? 600 * NANOS))%Z
  then Err OA_InvalidConfiguration else
  let cli_redirect := "http://127.0.0.1" +:+ oc_cli_redirect_path c in
  let! _ := rmap_err (λ _, OA_InvalidConfiguration) (redirect cli_redirect) in
  let! accepted := ok_or (accept_resources [] (oc_accepted_resources c)) OA_InvalidConfiguration in
  Ok {| op_cli_client_id := oc_cli_client_id c; op_cli_redirect := cli_redirect; op_api_audience := oc_api_audience c;
        op_accepted_resources := accepted; op_dynamic_registration := oc_dynamic_registration c;
        op_ttl_micros := oc_authorization_ttl c / 1000; op_limits := limits |}.
Definition refresh_resource_allowed (p : OidcAuthorizationPolicy) (resource : option string) : bool :=
  is_none_or resource (λ r, valid_resource r && existsb (λ v, str_eqb v r) (op_accepted_resources p)).

(** ** Admission *)

Definition bound_step (limit : Z) (total : Z) (item : string * Z) : result OidcAuthorizationError Z :=
  let '(text, delimiter) := item in
  if (limit <? len text)%Z then Err OA_InvalidRequest else
  let! total := ok_or (n ← checked_add_usize total (len text); checked_add_usize n delimiter) OA_InvalidRequest in
  if (limit <? total)%Z then Err OA_InvalidRequest else Ok total.
Definition bound_items (i : OidcAuthorizationInput) : list (string * Z) :=
  ((λ s, (s, 0%Z)) <$> [oi_client_id i; oi_redirect_uri i; oi_response_type i; oi_scope i; oi_state i; oi_nonce i;
     oi_code_challenge i; oi_code_challenge_method i; default "" (oi_response_mode i)])
  ++ ((λ s, (s, 1%Z)) <$> (oi_resources i ++ oi_prompts i)).
Definition bound (p : OidcAuthorizationPolicy) (i : OidcAuthorizationInput) (original : Z) : Guarded unit :=
  let? _ := mfor (λ total item,
    do? guard original in lift_result (bound_step (ol_parameter_bytes (op_limits p)) total item)) 0%Z (bound_items i) in
  ret tt.
Definition sdk_request (i : OidcAuthorizationInput) (scope : string) : SdkRequest :=
  {| sr_client_id := oi_client_id i; sr_scope := scope; sr_redirect_uri := oi_redirect_uri i; sr_state := oi_state i;
     sr_response_type := oi_response_type i; sr_code_challenge := oi_code_challenge i;
     sr_code_challenge_method := oi_code_challenge_method i |}.
(** The answer to what the machine asks: the end, an error or its next input.
    [AdmittedRegistrar] knows the one client and its redirect. *)
Definition sdk_answer (r : SdkRequest) (out : SdkOutput) : result OidcAuthorizationError (option SdkInput) :=
  match out with
  | SoBind client_id redirect_uri =>
      let! uri := ok_or redirect_uri OA_InvalidRedirect in
      if negb (str_eqb client_id (sr_client_id r)) || negb (str_eqb uri (sr_redirect_uri r)) then Err OA_InvalidRedirect
      else Ok (Some (SiBound client_id uri))
  | SoExtend =>
      let! challenge := ok_or (pkce_challenge (sr_code_challenge_method r) (sr_code_challenge r)) OA_InvalidRequest in
      Ok (Some (SiExtended challenge))
  | SoNegotiate client_id redirect_uri scope =>
      let! scope := ok_or scope OA_InvalidScope in
      Ok (Some (SiNegotiated client_id redirect_uri scope (sr_state r)))
  | SoOk client_id redirect_uri =>
      let! exact := ok_or (exact_url (sr_redirect_uri r)) OA_InvalidRedirect in
      if negb (str_eqb client_id (sr_client_id r)) || negb (str_eqb redirect_uri exact) then Err OA_InvalidRequest else Ok None
  | SoErr => Err OA_InvalidRequest
  end.
Fixpoint sdk_loop (rounds : nat) (r : SdkRequest) (original : Z) (m : Machine) (next : SdkInput) : Guarded unit :=
  match rounds with
  | O => fail OA_InvalidRequest
  | S rounds =>
      do? guard original in
      let '(m, out) := machine_advance m next in
      let? answer := lift_result (sdk_answer r out) in
      match answer with
      | None => ret tt
      | Some next => sdk_loop rounds r original m next
      end
  end.
Definition drive_sdk (r : SdkRequest) (original : Z) : Guarded unit :=
  sdk_loop machine_rounds r original (machine_new r) SiNone.
Definition KNOWN_SCOPES : list string := ["openid"; "profile"; "email"; "phone"; "address"; "offline_access"].
Definition admit_resource (p : OidcAuthorizationPolicy) (resource : option string) (value : string)
    : result OidcAuthorizationError (option string) :=
  let value := trim value in
  if is_empty value then Ok resource else
  if (match resource with Some _ => true | None => false end) || negb (valid_resource value)
     || negb (existsb (λ r, str_eqb r value) (op_accepted_resources p))
  then Err OA_InvalidTarget else Ok (Some value).
Definition add_scope (scopes : list string) (scope : string) : list string :=
  if existsb (str_eqb scope) KNOWN_SCOPES && negb (existsb (λ s, str_eqb s scope) scopes) then scopes ++ [scope] else scopes.
Definition pending_fields (p : OidcAuthorizationPolicy) (i : OidcAuthorizationInput) (resource : option string) (scopes : list string)
    : PendingFields :=
  {| pf_format := "rust-broker-authorization-v1"; pf_phase := "pending"; pf_client_id := oi_client_id i;
     pf_api_audience := op_api_audience p; pf_resource := resource; pf_redirect_uri := oi_redirect_uri i;
     pf_state := oi_state i; pf_scopes := scopes; pf_response_mode := mode_as_str (from_parameter (oi_response_mode i));
     pf_nonce := oi_nonce i; pf_code_challenge := oi_code_challenge i;
     pf_code_challenge_method := oi_code_challenge_method i |}.
Definition admit_request (p : OidcAuthorizationPolicy) (i : OidcAuthorizationInput) (client : ClientData) (original : Z)
    : Guarded PendingFields :=
  do? bound p i original in
  if bool_decide (OidcClientId_parse (oi_client_id i) ≠ Some (cd_id client)) then fail OA_InvalidClient else
  if is_empty (trim (oi_state i)) || (512 <? len (oi_state i))%Z || is_empty (trim (oi_nonce i)) then fail OA_InvalidRequest else
  if existsb (str_eqb "none") (oi_prompts i)
  then fail (if bool_decide (length (oi_prompts i) = 1) then OA_LoginRequired else OA_InvalidRequest) else
  if negb (str_eqb (oi_code_challenge_method i) "S256") || negb (canonical_challenge (oi_code_challenge i))
  then fail OA_InvalidRequest else
  let? resource := mfor (λ resource value, do? guard original in lift_result (admit_resource p resource value)) None (oi_resources i) in
  if negb (str_eqb (oi_client_id i) (op_cli_client_id p)) && bool_decide (resource = None) then fail OA_InvalidTarget else
  do? lift_result (admit_redirect client (oi_redirect_uri i)) in
  let? scopes := mfor (λ scopes scope, do? guard original in ret (add_scope scopes scope)) []
    (List.filter (λ s, negb (is_empty s)) (split (oi_scope i) " ")) in
  if negb (existsb (λ s, str_eqb s "openid") scopes) then fail OA_InvalidScope else
  do? drive_sdk (sdk_request i (join " " scopes)) original in
  ret (pending_fields p i resource scopes).
Definition pending_input (f : PendingFields) : OidcAuthorizationInput :=
  {| oi_client_id := pf_client_id f; oi_redirect_uri := pf_redirect_uri f; oi_response_type := "code";
     oi_scope := join " " (pf_scopes f); oi_state := pf_state f; oi_nonce := pf_nonce f;
     oi_code_challenge := pf_code_challenge f; oi_code_challenge_method := pf_code_challenge_method f;
     oi_response_mode := Some (pf_response_mode f);
     oi_resources := match pf_resource f with Some r => [r] | None => [] end; oi_prompts := [] |}.
Definition with_phase (f : PendingFields) (phase : string) : PendingFields :=
  {| pf_format := pf_format f; pf_phase := phase; pf_client_id := pf_client_id f; pf_api_audience := pf_api_audience f;
     pf_resource := pf_resource f; pf_redirect_uri := pf_redirect_uri f; pf_state := pf_state f; pf_scopes := pf_scopes f;
     pf_response_mode := pf_response_mode f; pf_nonce := pf_nonce f; pf_code_challenge := pf_code_challenge f;
     pf_code_challenge_method := pf_code_challenge_method f |}.
Definition revalidate_phase (p : OidcAuthorizationPolicy) (f : PendingFields) (client : ClientData) (phase : string) (original : Z)
    : Guarded unit :=
  if negb (str_eqb (pf_format f) "rust-broker-authorization-v1") || negb (str_eqb (pf_phase f) phase)
     || negb (str_eqb (pf_api_audience f) (op_api_audience p))
  then fail OA_MalformedStored else
  let? admitted := map_err (λ e, match e with OA_Control _ => e | _ => OA_MalformedStored end)
    (admit_request p (pending_input f) client original) in
  if bool_decide (with_phase admitted phase ≠ f) then fail OA_MalformedStored else ret tt.
Definition revalidate p f client original := revalidate_phase p f client "pending" original.
Definition revalidate_authorized p f client original := revalidate_phase p f client "authorized" original.
End policy.

(** ** Admission without the clock *)

Fixpoint rfor {E A B} (f : B → A → result E B) (acc : B) (l : list A) : result E B :=
  match l with
  | [] => Ok acc
  | x :: l => let! acc := f acc x in rfor f acc l
  end.
Lemma guarded_mfor_r {E A B} stop (D : E) (f : B → A → M clock E B) g acc l :
  (∀ b x, guarded stop D (f b x) (g b x)) → guarded stop D (mfor f acc l) (rfor g acc l).
Proof.
  intros Hf. revert acc. induction l as [|x l IH]; intros acc; simpl; [apply guarded_ret|].
  apply guarded_bind; [apply Hf|]. intros b _. apply IH.
Qed.

Section pure.
Context `{AuthLib, CredentialLib}.

Fixpoint sdk_rounds (rounds : nat) (r : SdkRequest) (m : Machine) (next : SdkInput) : result OidcAuthorizationError unit :=
  match rounds with
  | O => Err OA_InvalidRequest
  | S rounds =>
      let '(m, out) := machine_advance m next in
      let! answer := sdk_answer r out in
      match answer with
      | None => Ok tt
      | Some next => sdk_rounds rounds r m next
      end
  end.
Definition sdk_admits (r : SdkRequest) : result OidcAuthorizationError unit :=
  sdk_rounds machine_rounds r (machine_new r) SiNone.
Definition fits (p : OidcAuthorizationPolicy) (i : OidcAuthorizationInput) : result OidcAuthorizationError unit :=
  let! _ := rfor (bound_step (ol_parameter_bytes (op_limits p))) 0%Z (bound_items i) in Ok tt.
Definition wanted_scopes (i : OidcAuthorizationInput) : list string :=
  foldl add_scope [] (List.filter (λ s, negb (is_empty s)) (split (oi_scope i) " ")).
Definition admitted (p : OidcAuthorizationPolicy) (i : OidcAuthorizationInput) (client : ClientData)
    : result OidcAuthorizationError PendingFields :=
  let! _ := fits p i in
  if bool_decide (OidcClientId_parse (oi_client_id i) ≠ Some (cd_id client)) then Err OA_InvalidClient else
  if is_empty (trim (oi_state i)) || (512 <? len (oi_state i))%Z || is_empty (trim (oi_nonce i)) then Err OA_InvalidRequest else
  if existsb (str_eqb "none") (oi_prompts i)
  then Err (if bool_decide (length (oi_prompts i) = 1) then OA_LoginRequired else OA_InvalidRequest) else
  if negb (str_eqb (oi_code_challenge_method i) "S256") || negb (canonical_challenge (oi_code_challenge i))
  then Err OA_InvalidRequest else
  let! resource := rfor (admit_resource p) None (oi_resources i) in
  if negb (str_eqb (oi_client_id i) (op_cli_client_id p)) && bool_decide (resource = None) then Err OA_InvalidTarget else
  let! _ := admit_redirect client (oi_redirect_uri i) in
  let scopes := wanted_scopes i in
  if negb (existsb (λ s, str_eqb s "openid") scopes) then Err OA_InvalidScope else
  let! _ := sdk_admits (sdk_request i (join " " scopes)) in
  Ok (pending_fields p i resource scopes).

Lemma guarded_guard stop : guarded stop (OA_Control CE_Deadline) (guard stop) (Ok tt).
Proof.
  intros c x c'. unfold guard, bind, instant_now. destruct (Z.leb_spec stop (mono_at c (tick c))); intros [= <- <-];
    (split; [auto with broker|]); [right|left]; (split; [|done]).
  - exists (tick c). simpl. lia.
  - intros n Hn. simpl in Hn. by replace n with (tick c) by lia.
Qed.
Lemma guarded_then {A} stop (m : Guarded A) r :
  guarded stop (OA_Control CE_Deadline) m r → guarded stop (OA_Control CE_Deadline) (do? guard stop in m) r.
Proof.
  intros Hm. change r with (rbind (Ok tt) (λ _ : unit, r) : result OidcAuthorizationError A).
  apply guarded_bind; [apply guarded_guard|]. by intros [] _.
Qed.
Lemma rfor_ok {A B} (f : B → A → B) acc l : rfor (E:=OidcAuthorizationError) (λ b x, Ok (f b x)) acc l = Ok (foldl f acc l).
Proof. revert acc. induction l as [|x l IH]; intros acc; simpl; [done|apply IH]. Qed.
Lemma guarded_sdk stop r : guarded stop (OA_Control CE_Deadline) (drive_sdk r stop) (sdk_admits r).
Proof.
  unfold drive_sdk, sdk_admits. generalize (machine_new r), SiNone. induction machine_rounds as [|n IH]; intros m next; simpl.
  { apply guarded_fail. }
  apply guarded_then. destruct (machine_advance m next) as [m' out]. apply guarded_bind; [apply guarded_lift|].
  intros [next'|] _; [apply IH|apply guarded_ret].
Qed.
(** Admission is a pure decision, interleaved with checks of the deadline. *)
Lemma guarded_admit p i client stop :
  guarded stop (OA_Control CE_Deadline) (admit_request p i client stop) (admitted p i client).
Proof.
  unfold admit_request, admitted, fits, bound. apply guarded_bind.
  { apply guarded_bind; [|intros; apply guarded_ret]. apply guarded_mfor_r. intros b item. apply guarded_then, guarded_lift. }
  intros _ _. destruct (bool_decide (_ ≠ _)); [apply guarded_fail|]. destruct (_ || _ || _); [apply guarded_fail|].
  destruct (existsb _ _); [apply guarded_fail|]. destruct (_ || _); [apply guarded_fail|].
  apply guarded_bind. { apply guarded_mfor_r. intros b v. apply guarded_then, guarded_lift. }
  intros resource _. destruct (_ && _); [apply guarded_fail|]. apply guarded_bind; [apply guarded_lift|]. intros _ _.
  cbv zeta. unfold wanted_scopes. set (words := List.filter _ _).
  assert (guarded stop (OA_Control CE_Deadline)
    (mfor (λ scopes scope, do? guard stop in ret (add_scope scopes scope)) [] words) (Ok (foldl add_scope [] words))) as Hs.
  { rewrite <- rfor_ok. apply guarded_mfor_r. intros b v. apply guarded_then, guarded_ret. }
  match goal with |- guarded _ _ (bind _ ?k) ?r => change r with (rbind (Ok (foldl add_scope [] words)) (λ scopes,
    if negb (existsb (λ s, str_eqb s "openid") scopes) then Err OA_InvalidScope else
    let! _ := sdk_admits (sdk_request i (join " " scopes)) in Ok (pending_fields p i resource scopes))) end.
  apply guarded_bind; [done|]. intros scopes _. destruct (negb _); [apply guarded_fail|].
  apply guarded_bind; [apply guarded_sdk|]. intros; apply guarded_ret.
Qed.
End pure.

(** ** What is admitted is valid when it is read back *)

Section round_trip.
Context `{AuthLib, CredentialLib}.

Definition items_bytes (items : list (string * Z)) : Z := foldr (λ it n, len it.1 + it.2 + n)%Z 0%Z items.
Definition request_bytes (i : OidcAuthorizationInput) : Z := items_bytes (bound_items i).
Lemma len_nonneg v : (0 ≤ len v)%Z.
Proof. unfold len. lia. Qed.
Lemma bound_items_spec limit acc items :
  (0 ≤ acc)%Z → (limit ≤ USIZE_MAX)%Z → Forall (λ it, 0 ≤ it.2)%Z items → (acc ≤ limit)%Z →
  rfor (bound_step limit) acc items =
  if (acc + items_bytes items <=? limit)%Z then Ok (acc + items_bytes items)%Z else Err OA_InvalidRequest.
Proof.
  intros Hacc Hlim Hall. revert acc Hacc. induction Hall as [|[text d] items Hd Hall IH]; intros acc Hacc Hle; cbn [rfor].
  - simpl. rewrite Z.add_0_r. by rewrite (proj2 (Z.leb_le _ _) Hle).
  - change (items_bytes ((text, d) :: items)) with (len text + d + items_bytes items)%Z. simpl in Hd. pose proof (len_nonneg text).
    assert (0 ≤ items_bytes items)%Z as Hpos.
    { clear -Hall. induction Hall as [|it items Hi _ IH]; simpl; [done|]. pose proof (len_nonneg it.1). lia. }
    assert (bound_step limit acc (text, d) =
      if (acc + len text + d <=? limit)%Z then Ok (acc + len text + d)%Z else Err OA_InvalidRequest) as ->.
    { unfold bound_step, checked_add_usize. destruct (Z.ltb_spec limit (len text)).
      { rewrite (proj2 (Z.leb_gt _ _)) by lia. done. }
      destruct (Z.leb_spec (acc + len text) USIZE_MAX); simpl; [|rewrite (proj2 (Z.leb_gt _ _)) by lia; done].
      destruct (Z.leb_spec (acc + len text + d) USIZE_MAX); simpl; [|rewrite (proj2 (Z.leb_gt _ _)) by lia; done].
      destruct (Z.ltb_spec limit (acc + len text + d)); [rewrite (proj2 (Z.leb_gt _ _)) by lia; done|].
      by rewrite (proj2 (Z.leb_le _ _)) by lia. }
    destruct (Z.leb_spec (acc + len text + d) limit); cbn [rbind].
    + rewrite IH by lia. by replace (acc + len text + d + items_bytes items)%Z with (acc + (len text + d + items_bytes items))%Z by lia.
    + by rewrite (proj2 (Z.leb_gt _ _)) by lia.
Qed.
Lemma fits_spec p i :
  (0 ≤ ol_parameter_bytes (op_limits p) ≤ USIZE_MAX)%Z →
  fits p i = Ok tt ↔ (request_bytes i ≤ ol_parameter_bytes (op_limits p))%Z.
Proof.
  intros Hl. unfold fits, request_bytes. rewrite bound_items_spec; [|done|lia| |lia].
  - rewrite Z.add_0_l. destruct (Z.leb_spec (items_bytes (bound_items i)) (ol_parameter_bytes (op_limits p))); simpl; naive_solver lia.
  - unfold bound_items. apply Forall_app. split; apply Forall_fmap, Forall_forall; intros; simpl; lia.
Qed.

Lemma fits_not p i :
  (0 ≤ ol_parameter_bytes (op_limits p) ≤ USIZE_MAX)%Z → (ol_parameter_bytes (op_limits p) < request_bytes i)%Z →
  fits p i = Err OA_InvalidRequest.
Proof.
  intros Hl Hlt. unfold fits, request_bytes in *. rewrite bound_items_spec; [|done|lia| |lia].
  - rewrite Z.add_0_l. by destruct (Z.leb_spec (items_bytes (bound_items i)) (ol_parameter_bytes (op_limits p))); [lia|].
  - unfold bound_items. apply Forall_app. split; apply Forall_fmap, Forall_forall; intros; simpl; lia.
Qed.

(** The scopes that are kept are distinct, known, and a part of those asked for. *)
Lemma scopes_kept acc words :
  ∃ l, foldl add_scope acc words = acc ++ l ∧ l `sublist_of` words ∧ (∀ v, v ∈ l → v ∈ KNOWN_SCOPES) ∧
    (NoDup acc → NoDup (acc ++ l)).
Proof.
  revert acc. induction words as [|w words IH]; intros acc; simpl.
  { exists []. rewrite app_nil_r. split_and!; [done|constructor|by intros ? ?%not_elem_of_nil|done]. }
  unfold add_scope at 2. destruct (existsb (str_eqb w) KNOWN_SCOPES && negb (existsb (λ s, str_eqb s w) acc)) eqn:E.
  - apply andb_true_iff in E as [Hk Hn]. destruct (IH (acc ++ [w])) as (l & -> & Hsub & Hknown & Hnd).
    exists (w :: l). rewrite <- app_assoc. simpl. split_and!; [done|by constructor| |].
    + intros v [->|Hv]%elem_of_cons; [|by apply Hknown]. apply existsb_elem in Hk as (k & Hk & ->%str_eqb_eq). done.
    + intros Ha. specialize (Hnd ltac:(apply NoDup_app; split; [done|]; split; [|apply NoDup_singleton];
        intros x Hx ->%list_elem_of_singleton; apply negb_true_iff, not_true_iff_false in Hn; apply Hn, existsb_elem;
        exists w; split; [done|by apply str_eqb_eq])). by rewrite <- app_assoc in Hnd.
  - destruct (IH acc) as (l & -> & Hsub & Hknown & Hnd). exists l. split_and!; [done|by constructor|done|done].
Qed.
Lemma add_scope_fresh acc l :
  (∀ v, v ∈ l → v ∈ KNOWN_SCOPES) → NoDup (acc ++ l) → foldl add_scope acc l = acc ++ l.
Proof.
  revert acc. induction l as [|w l IH]; intros acc Hk Hnd; simpl; [by rewrite app_nil_r|].
  unfold add_scope at 2. assert (existsb (str_eqb w) KNOWN_SCOPES = true) as ->.
  { apply existsb_elem. exists w. split; [apply Hk; left|by apply str_eqb_eq]. }
  assert (existsb (λ s, str_eqb s w) acc = false) as ->.
  { apply not_true_iff_false. rewrite existsb_elem. intros (v & Hv & ->%str_eqb_eq).
    apply NoDup_app in Hnd as (_ & Hd & _). apply (Hd w Hv). left. }
  simpl. rewrite IH; [by rewrite <- app_assoc| |by rewrite <- app_assoc]. intros v Hv. apply Hk. by right.
Qed.
Lemma len_join_cons x y l : len (join " " (x :: y :: l)) = (len x + 1 + len (join " " (y :: l)))%Z.
Proof.
  unfold join, len. rewrite <- !length_bytes, !bytes_of_bytes. cbn [fmap list_fmap join_list]. rewrite length_app. simpl. lia.
Qed.
Lemma len_join_sublist l k : l `sublist_of` k → (len (join " " l) ≤ len (join " " k))%Z.
Proof.
  assert (∀ x l, len (join " " (x :: l)) + 1 = foldr (λ v n, len v + 1 + n) 0 (x :: l))%Z as Hsum.
  { intros x m. revert x. induction m as [|y m IH]; intros x.
    - change (join " " [x]) with (of_bytes (bytes x)). rewrite of_bytes_bytes. simpl. lia.
    - rewrite len_join_cons. specialize (IH y). simpl in *. lia. }
  assert (∀ l k, l `sublist_of` k → foldr (λ v n, len v + 1 + n) 0 l ≤ foldr (λ v n, len v + 1 + n) 0 k)%Z as Hmono.
  { induction 1 as [|x l' k' _ IH|x l' k' _ IH]; simpl; [done|lia|]. pose proof (len_nonneg x). lia. }
  intros Hs. destruct l as [|x l]; [apply len_nonneg|]. destruct k as [|y k]; [by apply sublist_nil_r in Hs|].
  pose proof (Hmono _ _ Hs). pose proof (Hsum x l). pose proof (Hsum y k). lia.
Qed.
Lemma len_trim_le v : (len (trim v) ≤ len v)%Z.
Proof.
  unfold trim, len. rewrite <- !length_bytes, bytes_of_bytes. unfold trim_list. rewrite length_rev.
  set (l1 := trim_start_list _ whitespace _).
  destruct (trim_start_list_suffix (rev (A:=ascii) <$> whitespace) (rev l1) (length l1)) as [q Hq].
  destruct (trim_start_list_suffix whitespace (bytes v) (length (bytes v))) as [q' Hq']. fold l1 in Hq'.
  apply (f_equal length) in Hq, Hq'. rewrite length_app in Hq, Hq'. rewrite length_rev in Hq. lia.
Qed.
Lemma admit_resource_spec p acc l r :
  rfor (admit_resource p) acc l = Ok r →
  r = acc ∨ acc = None ∧ ∃ w, w ∈ l ∧ r = Some (trim w) ∧ admit_resource p None (trim w) = Ok (Some (trim w)).
Proof.
  revert acc. induction l as [|w l IH]; intros acc Hr; simpl in Hr; [left; congruence|].
  apply rbind_ok in Hr as (acc' & Ha & Hr). pose proof Ha as Ha'. unfold admit_resource in Ha.
  destruct (is_empty (trim w)) eqn:Ee.
  - injection Ha as <-. destruct (IH _ Hr) as [->|(-> & v & Hv & ?)]; [by left|]. right. split; [done|]. exists v. split; [by right|done].
  - match type of Ha with (if ?b then _ else _) = _ => destruct b eqn:Eb; [done|] end. injection Ha as <-.
    apply orb_false_iff in Eb as [Eb Eacc]. apply orb_false_iff in Eb as [Eb Ev]. destruct acc; [done|].
    destruct (IH _ Hr) as [->|([=] & _)]. right. split; [done|]. exists w. split; [left|]. split; [done|].
    unfold admit_resource. rewrite !trim_idemp, Ee, Ev, Eacc. done.
Qed.
Lemma items_bytes_app a b : items_bytes (a ++ b) = (items_bytes a + items_bytes b)%Z.
Proof. induction a as [|it a IH]; simpl; [done|]. rewrite IH. lia. Qed.
Lemma scalar_bytes l : items_bytes ((λ v, (v, 0%Z)) <$> l) = foldr (λ v n, len v + n)%Z 0%Z l.
Proof.
  induction l as [|v l IH]; [done|]. cbn [foldr]. rewrite <- IH.
  change (items_bytes ((λ v, (v, 0%Z)) <$> v :: l)) with (len v + 0 + items_bytes ((λ v, (v, 0%Z)) <$> l))%Z. lia.
Qed.
Lemma delimited_bytes l : (0 ≤ items_bytes ((λ v, (v, 1%Z)) <$> l))%Z ∧
  ∀ w, w ∈ l → (len w + 1 ≤ items_bytes ((λ v, (v, 1%Z)) <$> l))%Z.
Proof.
  induction l as [|v l [IH1 IH2]]; [split; [done|by intros w ?%not_elem_of_nil]|]. pose proof (len_nonneg v).
  change (items_bytes ((λ v, (v, 1%Z)) <$> v :: l)) with (len v + 1 + items_bytes ((λ v, (v, 1%Z)) <$> l))%Z.
  split; [lia|]. intros w [->|Hw]%elem_of_cons; [lia|]. specialize (IH2 w Hw). lia.
Qed.
Lemma known_scope_words l : (∀ v, v ∈ l → v ∈ KNOWN_SCOPES) → l ≠ [] →
  List.filter (λ s, negb (is_empty s)) (split (join " " l) " ") = l.
Proof.
  intros Hk Hne. destruct l as [|x l]; [done|]. rewrite split_join.
  - revert Hk. generalize (x :: l). clear. intros l Hk. induction l as [|v l IH]; simpl; [done|].
    assert (v ≠ "") as Hv. { intros ->. specialize (Hk "" ltac:(left)). unfold KNOWN_SCOPES in Hk.
      repeat (apply elem_of_cons in Hk as [[=]|Hk]). by apply not_elem_of_nil in Hk. }
    destruct v; [done|]. simpl. f_equal. apply IH. intros w Hw. apply Hk. by right.
  - apply Forall_forall. intros v Hv. apply Hk in Hv. unfold KNOWN_SCOPES in Hv.
    repeat (apply elem_of_cons in Hv as [->|Hv]; [done|]). by apply not_elem_of_nil in Hv.
Qed.
Lemma mode_round_trip m : from_parameter (Some (mode_as_str m)) = m.
Proof. by destruct m. Qed.

Lemma filter_sublist {A} (f : A → bool) l : List.filter f l `sublist_of` l.
Proof. induction l as [|x l IH]; simpl; [constructor|]. by destruct (f x); constructor. Qed.
(** What is relied on of the machine of oxide_auth: it begins by asking for the
    client of the request to be bound, unless it refuses the request; and it looks
    at the response type once the client is bound, when it refuses anything but a
    code. *)
Class AuthLaws : Prop := {
  law_begin r m out : machine_advance (machine_new r) SiNone = (m, out) → out = SoErr ∨ ∃ client_id uri, out = SoBind client_id uri;
  law_response_type r m client_id uri client_id' uri' :
    machine_advance (machine_new r) SiNone = (m, SoBind client_id uri) → sr_response_type r ≠ "code" →
    (machine_advance m (SiBound client_id' uri')).2 = SoErr;
}.
Context `{!AuthLaws}.
Lemma sdk_admits_code r : sdk_admits r = Ok tt → sr_response_type r = "code".
Proof.
  unfold sdk_admits. intros Hs. destruct (decide (sr_response_type r = "code")) as [|Hne]; [done|].
  destruct machine_rounds as [|rounds]; [done|]. simpl in Hs. destruct (machine_advance (machine_new r) SiNone) as [m out] eqn:Em.
  destruct (law_begin _ _ _ Em) as [->|(client_id & uri & ->)]; [done|]. simpl in Hs.
  destruct uri as [uri|]; [|done]. simpl in Hs. destruct (_ || _) in Hs; [done|]. simpl in Hs. destruct rounds as [|rounds]; [done|]. simpl in Hs.
  pose proof (law_response_type _ _ _ _ client_id uri Em Hne) as He. destruct (machine_advance m _) as [m' out]. simpl in He. by subst out.
Qed.
(** What is stored of an admitted request takes no more room than the request,
    but for its response mode. *)
Lemma pending_bytes p i resource scopes :
  oi_response_type i = "code" → scopes = wanted_scopes i → rfor (admit_resource p) None (oi_resources i) = Ok resource →
  (request_bytes (pending_input (pending_fields p i resource scopes)) ≤
   request_bytes i - len (default "" (oi_response_mode i)) + len (mode_as_str (from_parameter (oi_response_mode i))))%Z.
Proof.
  intros Hcode -> Hres. destruct (scopes_kept [] (List.filter (λ s, negb (is_empty s)) (split (oi_scope i) " ")))
    as (l & Hl & Hsub & _). unfold wanted_scopes. rewrite Hl. simpl (_ ++ l).
  assert (len (join " " l) ≤ len (oi_scope i))%Z as Hscope.
  { rewrite <- (join_split (oi_scope i) " ") at 1. apply len_join_sublist. etrans; [exact Hsub|]. apply filter_sublist. }
  unfold request_bytes, bound_items. cbn [pending_input pending_fields pf_client_id pf_redirect_uri pf_scopes pf_state pf_nonce
    pf_code_challenge pf_code_challenge_method pf_response_mode pf_resource oi_client_id oi_redirect_uri oi_response_type oi_scope
    oi_state oi_nonce oi_code_challenge oi_code_challenge_method oi_response_mode oi_resources oi_prompts default].
  rewrite !items_bytes_app, !fmap_app, !items_bytes_app, Hcode.
  destruct (delimited_bytes (oi_resources i)) as [Hr0 Hr]. destruct (delimited_bytes (oi_prompts i)) as [Hp0 _].
  assert (items_bytes ((λ v, (v, 1%Z)) <$> match resource with Some r => [r] | None => [] end) ≤
    items_bytes ((λ v, (v, 1%Z)) <$> oi_resources i))%Z as Hle.
  { apply admit_resource_spec in Hres as [->|(_ & w & Hw & -> & _)]; [done|]. specialize (Hr w Hw).
    pose proof (len_trim_le w). simpl. lia. }
  rewrite !scalar_bytes. change (items_bytes ((λ v, (v, 1%Z)) <$> [])) with 0%Z. cbn [foldr]. unfold id. lia.
Qed.
(** When the request is spelled as it will be stored, but for the response mode it
    leaves to the default, exactly the mode comes on top. *)
Lemma default_mode_bytes i f :
  oi_response_type i = "code" → oi_response_mode i = None → oi_prompts i = [] → oi_scope i = join " " (pf_scopes f) →
  oi_resources i = option_list (pf_resource f) → pf_client_id f = oi_client_id i → pf_redirect_uri f = oi_redirect_uri i →
  pf_state f = oi_state i → pf_nonce f = oi_nonce i → pf_code_challenge f = oi_code_challenge i →
  pf_code_challenge_method f = oi_code_challenge_method i →
  request_bytes (pending_input f) = (request_bytes i + len (pf_response_mode f))%Z.
Proof.
  intros Hcode Hmode Hpr Hsc Hres Hcl Hre Hst Hno Hch Hme. unfold request_bytes, bound_items.
  cbn [pending_input oi_client_id oi_redirect_uri oi_response_type oi_scope oi_state oi_nonce oi_code_challenge
    oi_code_challenge_method oi_response_mode oi_resources oi_prompts default].
  rewrite Hcode, Hmode, Hpr, Hsc, Hres, Hcl, Hre, Hst, Hno, Hch, Hme, !items_bytes_app, !scalar_bytes.
  replace (option_list (pf_resource f)) with (match pf_resource f with Some r => [r] | None => [] end) by (by destruct (pf_resource f)).
  cbn [foldr from_option]. unfold id. change (len "") with 0%Z. lia.
Qed.
Ltac refused H C := match type of H with (if ?b then _ else _) = _ => destruct b eqn:C; [discriminate H|] end.
Lemma admitted_again p i client f :
  (0 ≤ ol_parameter_bytes (op_limits p) ≤ USIZE_MAX)%Z → admitted p i client = Ok f →
  (request_bytes i - len (default "" (oi_response_mode i)) + len (pf_response_mode f) ≤ ol_parameter_bytes (op_limits p))%Z →
  admitted p (pending_input f) client = Ok f.
Proof.
  intros Hl Ha Hroom. unfold admitted in Ha. apply rbind_ok in Ha as ([] & Hfit & Ha).
  refused Ha Ecl. refused Ha Est. refused Ha Epr. refused Ha Ech. apply rbind_ok in Ha as (resource & Hres & Ha).
  refused Ha Etarget. apply rbind_ok in Ha as ([] & Hredir & Ha). refused Ha Eop.
  apply rbind_ok in Ha as ([] & Hsdk & Ha). injection Ha as <-. cbn [pf_response_mode pending_fields] in Hroom.
  pose proof (sdk_admits_code _ Hsdk) as Hcode. cbn [sdk_request sr_response_type] in Hcode.
  pose proof (pending_bytes p i resource _ Hcode eq_refl Hres) as Hbytes.
  destruct (scopes_kept [] (List.filter (λ s, negb (is_empty s)) (split (oi_scope i) " "))) as (l & Hscopes & _ & Hk & Hnd).
  fold (wanted_scopes i) in Hscopes. simpl in Hscopes. rewrite Hscopes in *. specialize (Hnd NoDup_nil_2). simpl in Hnd.
  unfold admitted. rewrite (proj2 (fits_spec _ _ Hl)) by lia. cbn [rbind].
  cbn [pending_input pending_fields pf_client_id pf_redirect_uri pf_scopes pf_state pf_nonce
    pf_code_challenge pf_code_challenge_method pf_response_mode pf_resource oi_client_id oi_redirect_uri oi_response_type oi_scope
    oi_state oi_nonce oi_code_challenge oi_code_challenge_method oi_response_mode oi_resources oi_prompts existsb].
  rewrite Ecl, Est, Ech.
  assert (l ≠ []) as Hne by (intros ->; done).
  assert (rfor (admit_resource p) None match resource with Some r => [r] | None => [] end = Ok resource) as ->.
  { destruct (admit_resource_spec _ _ _ _ Hres) as [->|(_ & w & _ & -> & Hw)]; [done|]. cbn [rfor]. by rewrite Hw. }
  cbn [rbind]. rewrite Etarget, Hredir. cbn [rbind]. unfold wanted_scopes.
  change (oi_scope (pending_input (pending_fields p i resource l))) with (join " " l).
  rewrite known_scope_words, (add_scope_fresh [] l) by done. simpl ([] ++ l). rewrite Eop.
  match goal with |- context [sdk_admits ?r] => replace r with (sdk_request i (join " " l)) by (by unfold sdk_request; rewrite Hcode) end.
  rewrite Hsdk. cbn [rbind]. f_equal. unfold pending_fields.
  cbn [pending_input oi_client_id oi_redirect_uri oi_state oi_nonce oi_code_challenge oi_code_challenge_method oi_response_mode
    pf_client_id pf_redirect_uri pf_state pf_nonce pf_code_challenge pf_code_challenge_method pf_response_mode].
  by rewrite mode_round_trip.
Qed.
Lemma guarded_revalidate p f client phase stop :
  guarded stop (OA_Control CE_Deadline) (revalidate_phase p f client phase stop)
    (if negb (str_eqb (pf_format f) "rust-broker-authorization-v1") || negb (str_eqb (pf_phase f) phase)
        || negb (str_eqb (pf_api_audience f) (op_api_audience p))
     then Err OA_MalformedStored else
     let! again := rmap_err (λ e, match e with OA_Control _ => e | _ => OA_MalformedStored end)
       (admitted p (pending_input f) client) in
     if bool_decide (with_phase again phase ≠ f) then Err OA_MalformedStored else Ok tt).
Proof.
  unfold revalidate_phase. destruct (_ || _ || _); [apply guarded_fail|]. apply guarded_bind.
  - apply (guarded_map_err stop (OA_Control CE_Deadline)
      (λ e, match e with OA_Control _ => e | _ => OA_MalformedStored end)), guarded_admit.
  - intros again _. destruct (bool_decide _); [apply guarded_fail|apply guarded_ret].
Qed.
(** C35. What is admitted is valid when it is read back.  The fields stored of an
    admitted authorization request pass their validation at any later time within
    the deadline, as long as the policy and the client are the same, if the
    request leaves room for its response mode to be spelled out. *)
Theorem admit_round_trip p i client original c f c1 stop c2 :
  (0 ≤ ol_parameter_bytes (op_limits p) ≤ USIZE_MAX)%Z →
  admit_request p i client original c = (Ok f, c1) →
  (request_bytes i - len (default "" (oi_response_mode i)) + len (pf_response_mode f) ≤ ol_parameter_bytes (op_limits p))%Z →
  (∀ n, (mono_at c2 n < stop)%Z) →
  fst (revalidate p f client stop c2) = Ok tt.
Proof.
  intros Hl Ha Hroom Hc. apply (guarded_ok _ _ _ _ _ _ _ (guarded_admit p i client original)) in Ha.
  unfold revalidate. rewrite (guarded_total _ _ _ _ _ (guarded_revalidate p f client "pending" stop) Hc).
  rewrite (admitted_again _ _ _ _ Hl Ha Hroom). cbn [rmap_err rbind].
  assert (pf_format f = "rust-broker-authorization-v1" ∧ pf_phase f = "pending" ∧ pf_api_audience f = op_api_audience p) as (Hf & Hp & Hau).
  { unfold admitted in Ha. invert_ok Ha. by injection Ha as <-. }
  rewrite Hf, Hp, Hau, !(proj2 (str_eqb_eq _ _) eq_refl). simpl.
  rewrite bool_decide_false; [done|]. intros Hne. apply Hne. destruct f. simpl in *. by subst.
Qed.
(** C39. Without that room a request is admitted all the same, and what is stored
    of it is refused as malformed whenever it is read.  Let an admitted request
    send no response mode, no prompts, and its scopes and resource as they are
    stored.  If the default mode, which was not sent, does not fit the limit on
    parameters beside what was sent, the validation of the stored fields fails. *)
Theorem tight_request_malformed p i client original c f c1 stop c2 :
  (0 ≤ ol_parameter_bytes (op_limits p) ≤ USIZE_MAX)%Z →
  admit_request p i client original c = (Ok f, c1) →
  oi_response_mode i = None → oi_prompts i = [] → oi_scope i = join " " (pf_scopes f) → oi_resources i = option_list (pf_resource f) →
  (ol_parameter_bytes (op_limits p) < request_bytes i + len "query")%Z →
  (∀ n, (mono_at c2 n < stop)%Z) →
  fst (revalidate p f client stop c2) = Err OA_MalformedStored.
Proof.
  intros Hl Ha Hmode Hpr Hsc Hres Htight Hc. apply (guarded_ok _ _ _ _ _ _ _ (guarded_admit p i client original)) in Ha.
  assert (request_bytes (pending_input f) = request_bytes i + len "query")%Z as Hbytes.
  { unfold admitted in Ha. invert_ok Ha. injection Ha as <-.
    repeat match goal with u : unit |- _ => destruct u end.
    select (sdk_admits _ = _) (fun Hs => apply sdk_admits_code in Hs; simpl in Hs).
    rewrite (default_mode_bytes i) by done. simpl. by rewrite Hmode. }
  unfold revalidate. rewrite (guarded_total _ _ _ _ _ (guarded_revalidate p f client "pending" stop) Hc).
  destruct (_ || _ || _); [done|]. unfold admitted. rewrite (fits_not p) by (done || lia). done.
Qed.
End round_trip.

(** ** Requests without room *)

(** A machine that asks for the client, the extensions and the grant, and admits
    any request for a code. *)
#[local] Instance sample_auth_lib : AuthLib :=
  {| iri_absolute := λ s, Some {| iri_scheme := "http"; iri_authority := Some (None, "127.0.0.1", None); iri_path := "/cb"; iri_query := None |};
     url_parses := λ _, true; ip_loopback := λ h, str_eqb h "127.0.0.1"; percent_decode := λ s, s; scope_parses := λ _, true;
     Machine := SdkRequest; machine_new := λ r, r;
     machine_advance := λ r next,
       (r, match next with
           | SiNone => SoBind (sr_client_id r) (Some (sr_redirect_uri r))
           | SiBound _ _ => if str_eqb (sr_response_type r) "code" then SoExtend else SoErr
           | SiExtended _ => SoNegotiate (sr_client_id r) (sr_redirect_uri r) (Some (sr_scope r))
           | SiNegotiated client_id uri _ _ => SoOk client_id uri
           end);
     machine_rounds := 4; pkce_challenge := λ _ c, Some c; exact_url := Some |}.
#[local] Instance sample_policy_credentials : CredentialLib :=
  {| hmac := λ _ _, None; url_b64_encode := λ d, d +:+ "AAAAAAAAAAA"; url_b64_decode := λ s, Some (of_bytes (take 32 (bytes s))) |}.
#[local] Instance sample_auth_laws : AuthLaws.
Proof.
  split; simpl; [intros r m out [= _ <-]; right; by eexists _, _|]. intros r m client_id uri client_id' uri' [= <- _ _] Hr.
  by rewrite (proj2 (str_eqb_neq _ _) Hr).
Qed.
Definition sample_policy (limit : Z) : OidcAuthorizationPolicy :=
  {| op_cli_client_id := "cli"; op_cli_redirect := "http://127.0.0.1/cb"; op_api_audience := "api"; op_accepted_resources := [];
     op_dynamic_registration := false; op_ttl_micros := 60000000; op_limits := {| ol_json_bytes := 4096; ol_parameter_bytes := limit |} |}.
Definition sample_input : OidcAuthorizationInput :=
  {| oi_client_id := "cli"; oi_redirect_uri := "http://127.0.0.1/cb"; oi_response_type := "code"; oi_scope := "openid email openid";
     oi_state := "state"; oi_nonce := "nonce"; oi_code_challenge := "0123456789abcdef0123456789abcdefAAAAAAAAAAA";
     oi_code_challenge_method := "S256"; oi_response_mode := None; oi_resources := [" "]; oi_prompts := [] |}.
Definition sample_client : ClientData := {| cd_id := "cli"; cd_redirects := ["http://127.0.0.1/cb"]; cd_native := true |}.
Definition sample_policy_clock : clock := {| mono_at := λ _, 7%Z; utc_at := λ _, (1000 * NANOS)%Z; tick := 0 |}.
Definition sample_fields : PendingFields := pending_fields (sample_policy 200) sample_input None ["openid"; "email"].
Lemma admit_round_trip_witness :
  fst (admit_request (sample_policy 200) sample_input sample_client 100 sample_policy_clock) = Ok sample_fields ∧
  fst (revalidate (sample_policy 200) sample_fields sample_client 100 sample_policy_clock) = Ok tt.
Proof.
  split; [vm_compute; reflexivity|].
  apply (admit_round_trip (sample_policy 200) sample_input sample_client 100 sample_policy_clock sample_fields
    (snd (admit_request (sample_policy 200) sample_input sample_client 100 sample_policy_clock))).
  - by vm_compute.
  - vm_compute. reflexivity.
  - by vm_compute.
  - intros n. by vm_compute.
Defined.
Definition tight_input : OidcAuthorizationInput :=
  {| oi_client_id := "cli"; oi_redirect_uri := "http://127.0.0.1/cb"; oi_response_type := "code"; oi_scope := "openid";
     oi_state := "state"; oi_nonce := "nonce"; oi_code_challenge := "0123456789abcdef0123456789abcdefAAAAAAAAAAA";
     oi_code_challenge_method := "S256"; oi_response_mode := None; oi_resources := []; oi_prompts := [] |}.
Definition tight_policy : OidcAuthorizationPolicy := sample_policy 89.
Definition tight_fields : PendingFields := pending_fields tight_policy tight_input None ["openid"].
Lemma tight_request_malformed_witness :
  fst (admit_request tight_policy tight_input sample_client 100 sample_policy_clock) = Ok tight_fields ∧
  fst (revalidate tight_policy tight_fields sample_client 100 sample_policy_clock) = Err OA_MalformedStored.
Proof.
  split; [vm_compute; reflexivity|].
  apply (tight_request_malformed tight_policy tight_input sample_client 100 sample_policy_clock tight_fields
    (snd (admit_request tight_policy tight_input sample_client 100 sample_policy_clock))); try reflexivity.
  by vm_compute.
Defined.
