(* ===== verification/OidcRefresh.v ===== *)
(** * Refresh tokens

    crates/broker-control/src/oidc_refresh.rs and service/oidc_refresh.rs: a
    refresh token is exchanged, once, for an access token, an ID token and its
    successor in the same family; using it again revokes the family.  The reader
    of registered clients is [client] of service/oidc_authorization.rs.  The
    refresh machine of [oxide_auth] and the range of [chrono] are parameters. *)

From stdpp Require Import gmap.
From S2P Require Import Prelude RustStr Order Control BrokerAccess AccessIssuer Sql OidcTables.
From S2P Require Import StorageAdmission Credentials OidcPolicy.

Record OidcRefreshInput := {
  ri_grant_type : option string;
  ri_client_id : option string;
  ri_refresh_token : option string;
  ri_scope : option string;
  ri_resource : option string;
  ri_authorization : option (string * string);
}.
Record OidcTokenExchangePolicy := { xp_access_micros : Z; xp_refresh_micros : Z }.
(** Durations are in nanoseconds. *)
Definition OidcTokenExchangePolicy_new (access_ttl refresh_ttl : Z) : result OidcTokenExchangeError OidcTokenExchangePolicy :=
  if negb ((60 * NANOS <=? access_ttl) && (access_ttl <=? 3600 * NANOS))%Z || (refresh_ttl <? access_ttl)%Z
     || (90 * 86400 * NANOS <? refresh_ttl)%Z
  then Err TX_InvalidConfiguration else
  Ok {| xp_access_micros := access_ttl / 1000; xp_refresh_micros := refresh_ttl / 1000 |}.
Record OidcTokenExchangeResult := {
  xr_access : string;
  xr_id : string;
  xr_refresh : option string;
  xr_scope : string;
  xr_issued_at : Z;
  xr_expires_at : Z;
  xr_grant_expires_at : option Z;
}.
Definition remaining_seconds (issued_at expires_at now : Z) : result OidcTokenExchangeError Z :=
  if (issued_at <=? 0)%Z || (expires_at <=? issued_at)%Z || (now <? issued_at)%Z then Err (TX_Control CE_Clock) else
  if (expires_at <=? now)%Z then Err TX_InvalidGrant else
  let seconds := Z.quot (expires_at - now) 1000000 in
  if (seconds =? 0)%Z then Err TX_InvalidGrant else Ok seconds.
Definition remaining_with_grant (issued_at expires_at : Z) (grant_expires_at : option Z) (now : Z) : result OidcTokenExchangeError Z :=
  if is_some_and grant_expires_at (λ expiry, (expiry <=? issued_at) || (expiry <=? now))%Z then Err TX_InvalidGrant else
  remaining_seconds issued_at expires_at now.
Definition expires_in (r : OidcTokenExchangeResult) (original : Z) : M Tx OidcTokenExchangeError Z :=
  do? guard_original original in
  let? now := txn_clock now_micros in
  lift_result (remaining_with_grant (xr_issued_at r) (xr_expires_at r) (xr_grant_expires_at r) now).

(** ** The refresh machine *)

Record SdkGrant (Scope : Type) := {
  sg_owner_id : string;
  sg_client_id : string;
  sg_redirect_uri : string;
  sg_scope : Scope;
  sg_until : Z;
}.
Inductive RefreshInput (Scope : Type) :=
| RiNone
| RiRecovered (scope : option string) (grant : SdkGrant Scope)
| RiAuthenticated (scope : option string)
| RiRefreshed (token refresh : string) (until : Z).
Inductive RefreshOutput (Scope : Type) :=
| RoRecoverRefresh (token : string)
| RoUnauthenticated (client : string) (pass : option string)
| RoRefresh (token : string) (scope : Scope)
| RoOk
| RoOther.
#[global] Arguments sg_scope {_} _.
#[global] Arguments RiNone {_}.
#[global] Arguments RiRecovered {_} _ _.
#[global] Arguments RiAuthenticated {_} _.
#[global] Arguments RiRefreshed {_} _ _ _.
#[global] Arguments RoRecoverRefresh {_} _.
#[global] Arguments RoUnauthenticated {_} _ _.
#[global] Arguments RoRefresh {_} _ _.
#[global] Arguments RoOk {_}.
#[global] Arguments RoOther {_}.
Class RefreshLib := {
  Scope : Type;
  scope_parse : string → option Scope;
  scope_eqb : Scope → Scope → bool;
  Refresher : Type;
  refresh_new : OidcRefreshInput → Refresher;
  refresh_advance : Refresher → RefreshInput Scope → Refresher * RefreshOutput Scope;
  url_text : string → option string;
  chrono_micros : Z → bool;          (* within the range of dates *)
}.

Section requested.
Context `{RefreshLib}.
Definition request_scope (granted : list string) (original : Z) (result : list string) (token : string)
    : M Tx OidcTokenExchangeError (list string) :=
  do? guard_original original in
  if is_empty token || negb (existsb (λ v, str_eqb v token) granted) then fail TX_InvalidScope else
  ret (if existsb (λ v, str_eqb v token) result then result else result ++ [token]).
Definition requested_scopes (raw : option string) (granted : list string) (original : Z) : M Tx OidcTokenExchangeError (list string) :=
  do? guard_original original in
  match raw with
  | None => ret granted
  | Some raw =>
      let? _ := lift_result (ok_or (scope_parse raw) TX_InvalidScope) in
      mfor (request_scope granted original) [] (split raw " ")
  end.
End requested.

(** ** Stored refresh tokens *)

Record Stored := {
  st_token_id : string;
  st_subject : string;
  st_oidc_subject : string;
  st_client_id : string;
  st_audience : string;
  st_resource : string;
  st_principal_json : string;
  st_scopes : list string;
  st_revision : Z;
  st_family : string;
  st_auth_time : Z;
  st_created_at : Z;
  st_expires_at : Z;
}.
#[global] Instance Stored_eq_dec : EqDecision Stored.
Proof. solve_decision. Defined.
Record State := { se_consumed : option Z; se_revoked : option Z }.

Section refresh.
Context `{OidcLib, CredentialLib, SignLib, AuthLib, RefreshLib}.

Definition parse_refresh_scopes (raw : string) : result OidcTokenExchangeError (list string) :=
  let! scopes := ok_or (strings_json raw) TX_MalformedStored in
  if bool_decide (scopes = []) then Err TX_MalformedStored else
  if forallb (λ v, existsb (str_eqb v) KNOWN_SCOPES) scopes && bool_decide (NoDup scopes) then Ok scopes else Err TX_MalformedStored.
Definition stored_validate (s : Stored) : M Tx OidcTokenExchangeError unit :=
  if negb (forallb validate_local_auth_challenge [st_token_id s; st_oidc_subject s; st_family s]) || (st_created_at s <=? 0)%Z
  then fail TX_MalformedStored else
  let? now := txn_clock now_micros in
  if (now <? st_created_at s)%Z || (st_expires_at s <=? st_created_at s)%Z || (st_auth_time s <=? 0)%Z
     || (st_created_at s <? st_auth_time s)%Z || (st_revision s <? 0)%Z
     || bool_decide (OidcClientId_parse (st_client_id s) = None) || negb (safe_identity_segment (st_audience s) 128)
     || (negb (is_empty (st_resource s)) && negb (str_eqb (trim (st_resource s)) (st_resource s)))
  then fail TX_MalformedStored else ret tt.
Definition state_validate (s : State) (created_at now : Z) (last_used : option Z) : result OidcTokenExchangeError unit :=
  if existsb (λ v, is_some_and v (λ v, (v <? created_at) || (now <? v))%Z) [se_consumed s; se_revoked s; last_used]
  then Err TX_MalformedStored else Ok tt.
Definition bound_column (cap : Z) (v : string) : result OidcTokenExchangeError string :=
  if (cap <? len v)%Z then Err TX_ReadLimitExceeded else Ok v.
Definition decode_columns (t : TokenRow) (cap : Z) : result OidcTokenExchangeError Stored :=
  let! principal_json := bound_column cap (tk_principal_json t) in
  let! scopes_json := bound_column cap (tk_scopes_json t) in
  let! scopes := parse_refresh_scopes scopes_json in
  let! subject := bound_column cap (tk_subject t) in
  Ok {| st_token_id := tk_token_id t; st_subject := subject; st_oidc_subject := tk_oidc_subject t; st_client_id := tk_client_id t;
        st_audience := tk_audience t; st_resource := tk_resource t; st_principal_json := principal_json; st_scopes := scopes;
        st_revision := tk_local_user_revision t; st_family := tk_family_id t; st_auth_time := tk_auth_time t;
        st_created_at := tk_created_at t; st_expires_at := tk_expires_at t |}.
Definition decode_token (t : TokenRow) (cap : Z) : M Tx OidcTokenExchangeError (Stored * State) :=
  let? stored := lift_result (decode_columns t cap) in
  do? stored_validate stored in
  let? now := txn_clock now_micros in
  let state := {| se_consumed := tk_consumed_at t; se_revoked := tk_revoked_at t |} in
  do? lift_result (state_validate state (st_created_at stored) now (tk_last_used_at t)) in
  ret (stored, state).
Definition token_at (hash : string) (q : TokenRow → bool) : Key → Row → bool :=
  at_key (tokens hash) (λ r, match r with RToken t => q t | _ => false end).
(** SELECT … WHERE token_hash=$1 AND token_kind='refresh' *)
Definition refresh_token_row (hash : string) (lock : bool) : M Tx OidcTokenExchangeError TokenRow :=
  let? row := (if lock then select_where_locked else select_where) (token_at hash (λ t, str_eqb (tk_token_kind t) "refresh")) in
  lift_result (ok_or (row ≫= λ kv, match kv.2 with RToken t => Some t | _ => None end) TX_InvalidGrant).

(** ** Registered clients *)

Definition check_client_scope (original : Z) (seen : list string) (scope : string) : M Tx OidcAuthorizationError (list string) :=
  do? guard_original original in
  if is_empty scope || contains scope " " || negb (scope_parses scope) || existsb (str_eqb scope) seen
  then fail OA_MalformedStored else ret (seen ++ [scope]).
Definition check_client_redirect (original : Z) (seen : list string) (uri : string) : M Tx OidcAuthorizationError (list string) :=
  do? guard_original original in
  if existsb (str_eqb uri) seen then fail OA_MalformedStored else ret (seen ++ [uri]).
Definition client_of (p : OidcAuthorizationPolicy) (id : string) (original : Z) : M Tx OidcAuthorizationError ClientData :=
  do? guard_original original in
  if str_eqb id (op_cli_client_id p) then ret {| cd_id := id; cd_redirects := [op_cli_redirect p]; cd_native := true |} else
  if negb (op_dynamic_registration p) then fail OA_InvalidClient else
  let? row := select_locked (clients id) in
  let? c := lift_result (ok_or (row ≫= λ r, match r with RClient c => Some c | _ => None end) OA_InvalidClient) in
  do? guard_original original in
  let? name := lift_result (ok_or (capped 1024 (cl_client_name c)) OA_MalformedStored) in
  if negb (str_eqb (trim name) name) || (256 <? char_count name)%Z || contains_byte NUL name || (cl_created_at c <=? 0)%Z
  then fail OA_MalformedStored else
  let? now := txn_clock now_micros in
  if (now <? cl_created_at c)%Z then fail OA_MalformedStored else
  let cap := ol_json_bytes (op_limits p) in
  let? redirect_json := lift_result (bounded_json cap (cl_redirect_uris_json c)) in
  let? redirects := lift_result (ok_or (strings_json redirect_json) OA_MalformedStored) in
  let? scope_json := lift_result (bounded_json cap (cl_scopes_json c)) in
  let? scopes := lift_result (ok_or (strings_json scope_json) OA_MalformedStored) in
  if bool_decide (scopes = []) then fail OA_MalformedStored else
  let? _ := mfor (check_client_scope original) [] scopes in
  let? _ := mfor (check_client_redirect original) [] redirects in
  let? native := lift_result (if str_eqb (cl_application_type c) "native" then Ok true
                              else if str_eqb (cl_application_type c) "web" then Ok false else Err OA_MalformedStored) in
  let client := {| cd_id := id; cd_redirects := redirects; cd_native := native |} in
  do? lift_result (validate_registration client) in
  ret client.

(** ** Rotation *)

Record PostgresOidcRefresh := {
  pr_digester : CredentialDigester;
  pr_operation_timeout : Z;
  pr_authorization : OidcAuthorizationPolicy;
  pr_policy : OidcTokenExchangePolicy;
  pr_signer : BrokerAccessIssuer;
  pr_upstream : option upstream_trust;
}.
Definition oidc_refresh (digester : CredentialDigester) (operation_timeout : Z) (authorization : OidcAuthorizationPolicy)
    (policy : OidcTokenExchangePolicy) (issuer : BrokerAccessIssuer) : result OidcTokenExchangeError PostgresOidcRefresh :=
  if negb (str_eqb (bi_api_audience issuer) (op_api_audience authorization)) then Err TX_InvalidConfiguration else
  Ok {| pr_digester := digester; pr_operation_timeout := operation_timeout; pr_authorization := authorization;
        pr_policy := policy; pr_signer := issuer; pr_upstream := None |}.
Definition with_upstream (s : PostgresOidcRefresh) (verifier : upstream_trust) : PostgresOidcRefresh :=
  {| pr_digester := pr_digester s; pr_operation_timeout := pr_operation_timeout s; pr_authorization := pr_authorization s;
     pr_policy := pr_policy s; pr_signer := pr_signer s; pr_upstream := Some verifier |}.
Definition nonempty (v : string) : option string := if is_empty v then None else Some v.
Definition sign_error (e : BrokerAccessIssueError) : OidcTokenExchangeError :=
  match e with AI_Deadline => TX_Control CE_Deadline | _ => TX_Signing end.
Definition seconds (v : Z) : result OidcTokenExchangeError Z :=
  if (v <=? 0)%Z then Err (TX_Control CE_Clock) else Ok (Z.quot v 1000000).
Definition utc (v : Z) : result OidcTokenExchangeError Z := if chrono_micros v then Ok v else Err (TX_Control CE_Clock).
Definition gate (stop expiry : Z) : M Tx OidcTokenExchangeError unit :=
  do? guard_original stop in
  let? now := txn_clock now_micros in
  if (expiry <=? now)%Z then fail TX_InvalidGrant else ret tt.

Section service.
Context (s : PostgresOidcRefresh).
Notation cap := (ol_json_bytes (op_limits (pr_authorization s))).
Definition exchange_digest (kind : TokenKind) (raw : string) : result OidcTokenExchangeError string :=
  rmap_err (λ _, TX_Credential) (rmap to_sql_hex (token (pr_digester s) kind raw)).
(** The size of the parameters, each counted before the deadline. *)
Definition parameter_size (i : OidcRefreshInput) (stop : Z) : M Tx OidcTokenExchangeError Z :=
  mfor (λ bytes v, do? guard_original stop in lift_result (ok_or (checked_add_usize bytes (len v)) TX_InvalidRequest))
    (match ri_authorization i with Some (_, p) => len p | None => 0%Z end)
    (omap id [ri_grant_type i; ri_client_id i; ri_refresh_token i; ri_scope i; ri_resource i]
     ++ match ri_authorization i with Some (u, _) => [u] | None => [] end).
(** The first answer of the machine. *)
Definition recovers (out : RefreshOutput Scope) (raw : string) : result OidcTokenExchangeError unit :=
  match out with
  | RoRecoverRefresh token => if str_eqb token raw then Ok tt else Err TX_InvalidRequest
  | RoUnauthenticated _ _ => Err TX_InvalidClient
  | _ => Err TX_InvalidRequest
  end.
Definition FAMILY_LOCK : string := "pg_advisory_xact_lock 4750301".
Definition USER_LOCK : string := "local_users FOR UPDATE".
(** The user's row FOR UPDATE. *)
Definition lock_user (subject : string) : M Tx OidcTokenExchangeError unit :=
  let? row := select_where_locked (user_where subject) in
  match row with
  | Some (k, _) => λ c, (Ok tt, with_locks c {[(USER_LOCK, k.2)]})
  | None => fail TX_InvalidGrant
  end.
(** The principal the token is for, as it is now, with what keeps its family. *)
Definition refresh_principal (observed : OidcPrincipal) (family : string) (stop : Z) : M Tx OidcTokenExchangeError OidcPrincipal :=
  match as_local observed with
  | Some local =>
      do? lock_user (lp_subject local) in
      map_err exchange_error (current_principal (lp_subject local) (lp_username local) (lp_local_user_revision local) cap stop)
  | None =>
      if negb (current_trust observed (pr_upstream s)) then fail TX_InvalidGrant else
      do? advisory_lock (FAMILY_LOCK, family) in
      ret observed
  end.
Definition set_token (f : TokenRow → TokenRow) (r : Row) : Row := match r with RToken t => RToken (f t) | _ => r end.
Definition revoked (now : Z) (t : TokenRow) : TokenRow :=
  {| tk_token_id := tk_token_id t; tk_token_kind := tk_token_kind t; tk_subject := tk_subject t; tk_oidc_subject := tk_oidc_subject t;
     tk_principal_json := tk_principal_json t; tk_client_id := tk_client_id t; tk_audience := tk_audience t;
     tk_resource := tk_resource t; tk_scopes_json := tk_scopes_json t; tk_local_user_revision := tk_local_user_revision t;
     tk_family_id := tk_family_id t; tk_auth_time := tk_auth_time t; tk_expires_at := tk_expires_at t;
     tk_revoked_at := Some now; tk_consumed_at := tk_consumed_at t; tk_last_used_at := tk_last_used_at t;
     tk_created_at := tk_created_at t |}.
Definition consumed (now : Z) (t : TokenRow) : TokenRow :=
  {| tk_token_id := tk_token_id t; tk_token_kind := tk_token_kind t; tk_subject := tk_subject t; tk_oidc_subject := tk_oidc_subject t;
     tk_principal_json := tk_principal_json t; tk_client_id := tk_client_id t; tk_audience := tk_audience t;
     tk_resource := tk_resource t; tk_scopes_json := tk_scopes_json t; tk_local_user_revision := tk_local_user_revision t;
     tk_family_id := tk_family_id t; tk_auth_time := tk_auth_time t; tk_expires_at := tk_expires_at t;
     tk_revoked_at := tk_revoked_at t; tk_consumed_at := Some now; tk_last_used_at := Some now;
     tk_created_at := tk_created_at t |}.
(** WHERE family_id=… AND … AND revoked_at IS NULL *)
Definition family_where (family : string) (q : TokenRow → bool) : Key → Row → bool := λ k r,
  match r with
  | RToken t => str_eqb k.1 "local_tokens" && str_eqb (tk_family_id t) family && q t && bool_decide (tk_revoked_at t = None)
  | _ => false
  end.
(** A token that was used before: its whole family is revoked. *)
Definition reuse (stored : Stored) (stop : Z) : M Tx OidcTokenExchangeError OidcTokenExchangeResult :=
  let? now := txn_clock now_micros in
  let? count := update_where (family_where (st_family stored) (λ _, true)) (set_token (revoked now)) in
  if (count =? 0) then fail (TX_Control CE_Storage) else
  do? guard_original stop in
  do? sql_commit in
  do? guard_original stop in
  fail TX_InvalidGrant.
(** The machine goes through the stored grant to the refreshed one. *)
Definition sdk_refresh (sdk : Refresher) (i : OidcRefreshInput) (raw client_id : string) (client : ClientData) (stored : Stored)
    (scopes : list string) : result OidcTokenExchangeError Refresher :=
  let! first := ok_or (head (cd_redirects client)) TX_MalformedStored in
  let! uri := ok_or (url_text first) TX_MalformedStored in
  let! scope := ok_or (scope_parse (join " " (st_scopes stored))) TX_MalformedStored in
  let! until := utc (st_expires_at stored) in
  let grant := {| sg_owner_id := st_oidc_subject stored; sg_client_id := client_id; sg_redirect_uri := uri; sg_scope := scope;
                  sg_until := until |} in
  let '(sdk, out) := refresh_advance sdk (RiRecovered (ri_scope i) grant) in
  let! _ := match out with
            | RoUnauthenticated client None => if str_eqb client client_id then Ok tt else Err TX_InvalidGrant
            | _ => Err TX_InvalidGrant
            end in
  let '(sdk, out) := refresh_advance sdk (RiAuthenticated (ri_scope i)) in
  match out with
  | RoRefresh token scope =>
      if negb (str_eqb token raw) then Err TX_InvalidScope else
      let! wanted := ok_or (scope_parse (join " " scopes)) TX_InvalidScope in
      if scope_eqb scope wanted then Ok sdk else Err TX_InvalidScope
  | _ => Err TX_InvalidScope
  end.
(** The signed tokens and the secrets of the next generation. *)
Record Minted := {
  mi_issued_at : Z;
  mi_expires_at : Z;
  mi_jti : string;
  mi_access : string;
  mi_id : string;
  mi_refresh : string;
  mi_refresh_id : string;
}.
Definition mint (stored : Stored) (principal : OidcPrincipal) (client_id : string) (resource : option string) (scopes : list string)
    (stop : Z) (jti_random suffix_random id_random : option string) : M Tx OidcTokenExchangeError Minted :=
  let? issued_at := txn_clock now_micros in
  let? sum := lift_result (ok_or (checked_add_i64 issued_at (xp_access_micros (pr_policy s))) (TX_Control CE_Clock)) in
  let expires_at := (Z.quot sum 1000000 * 1000000)%Z in
  let? jti := lift_result (ok_or (new_local_auth_challenge jti_random) TX_Random) in
  let? iat := lift_result (seconds issued_at) in
  let? exp := lift_result (seconds expires_at) in
  let? access := txn_with sign_error (sign_access (pr_signer s)
    {| at_subject := st_oidc_subject stored; at_client_id := client_id; at_resource := resource; at_scope := join " " scopes;
       at_jti := jti; at_issued_at := iat; at_expires_at := exp; at_preferred_username := Some (pr_username principal);
       at_name := nonempty (trim (pr_name principal)); at_email := nonempty (trim (pr_email principal));
       at_organization := nonempty (trim (pr_organization principal)); at_groups := pr_teams principal;
       at_roles := pr_roles principal |} stop) in
  let? auth := lift_result (seconds (st_auth_time stored)) in
  let? id := txn_with sign_error (sign_id (pr_signer s)
    {| it_subject := st_oidc_subject stored; it_client_id := client_id; it_resource := resource; it_issued_at := iat;
       it_expires_at := exp; it_auth_time := auth; it_amr := [pr_auth_method principal]; it_nonce := None; it_access_token := access;
       it_code := None; it_preferred_username := Some (pr_username principal); it_name := nonempty (pr_name principal);
       it_email := nonempty (pr_email principal); it_organization := nonempty (trim (pr_organization principal));
       it_groups := pr_teams principal; it_roles := pr_roles principal |} stop) in
  let? suffix := lift_result (ok_or (new_local_auth_challenge suffix_random) TX_Random) in
  let? refresh_id := lift_result (ok_or (new_local_auth_challenge id_random) TX_Random) in
  ret {| mi_issued_at := issued_at; mi_expires_at := expires_at; mi_jti := jti; mi_access := access; mi_id := id;
         mi_refresh := "gb_rt_" +:+ suffix; mi_refresh_id := refresh_id |}.
Definition live (subject client_id : string) (now : Z) (t : TokenRow) : bool :=
  str_eqb (tk_token_kind t) "refresh" && str_eqb (tk_subject t) subject && str_eqb (tk_client_id t) client_id
  && bool_decide (tk_consumed_at t = None) && bool_decide (tk_revoked_at t = None) && (now <? tk_expires_at t)%Z.
(** The token is consumed and its successors stored. *)
Definition exchange (hash : string) (stored : Stored) (principal : OidcPrincipal) (client_id : string) (resource : option string)
    (scopes : list string) (sdk : Refresher) (m : Minted) (stop : Z) : M Tx OidcTokenExchangeError OidcTokenExchangeResult :=
  let? access_hash := lift_result (exchange_digest OidcStoredAccess (mi_jti m)) in
  let? refresh_hash := lift_result (exchange_digest LocalRefresh (mi_refresh m)) in
  let? principal_json := lift_result (ok_or (json_principal principal) TX_MalformedStored) in
  let? scopes_json := lift_result (ok_or (json_strings scopes) TX_MalformedStored) in
  if (cap <? len principal_json)%Z || (cap <? len scopes_json)%Z then fail TX_ReadLimitExceeded else
  do? gate stop (st_expires_at stored) in
  let? changed := update_where (token_at hash (live (pr_subject principal) client_id (mi_issued_at m)))
    (set_token (consumed (mi_issued_at m))) in
  if negb (changed =? 1) then fail (TX_Control CE_Storage) else
  let data := {| td_principal := principal; td_oidc_subject := st_oidc_subject stored; td_client_id := client_id;
                 td_audience := st_audience stored; td_resource := resource; td_principal_json := principal_json;
                 td_scopes_json := scopes_json; td_family := st_family stored; td_auth_time := st_auth_time stored;
                 td_created_at := mi_issued_at m |} in
  do? insert_token data access_hash (mi_jti m) "oidc_access" (mi_expires_at m) in
  do? insert_token data refresh_hash (mi_refresh_id m) "refresh" (st_expires_at stored) in
  let? until := lift_result (utc (mi_expires_at m)) in
  match snd (refresh_advance sdk (RiRefreshed (mi_access m) (mi_refresh m) until)) with
  | RoOk =>
      do? gate stop (st_expires_at stored) in
      do? gate stop (mi_expires_at m) in
      do? sql_commit in
      do? gate stop (st_expires_at stored) in
      do? gate stop (mi_expires_at m) in
      let result := {| xr_access := mi_access m; xr_id := mi_id m; xr_refresh := Some (mi_refresh m); xr_scope := join " " scopes;
                       xr_issued_at := mi_issued_at m; xr_expires_at := mi_expires_at m;
                       xr_grant_expires_at := Some (st_expires_at stored) |} in
      let? _ := expires_in result stop in
      ret result
  | _ => fail TX_Signing
  end.
(** The resource the token is for, when the policy still accepts it and the
    request asks for no other. *)
Definition refresh_target (stored : Stored) (client_id : string) (requested : option string)
    : result OidcTokenExchangeError (option string) :=
  let resource := if is_empty (st_resource stored) then None else Some (st_resource stored) in
  if negb (refresh_resource_allowed (pr_authorization s) resource)
     || (negb (str_eqb client_id (op_cli_client_id (pr_authorization s))) && bool_decide (resource = None))
  then Err TX_InvalidTarget else
  match requested with
  | Some r => if negb (is_empty (trim r)) && negb (bool_decide (resource = Some (trim r))) then Err TX_InvalidTarget else Ok resource
  | None => Ok resource
  end.
(** What the token says of its principal agrees with its columns. *)
Definition observed_principal (initial : Stored) (client_id : string) : result OidcTokenExchangeError OidcPrincipal :=
  let! observed := principal_parse (st_principal_json initial) in
  if negb (str_eqb (st_client_id initial) client_id) then Err TX_InvalidGrant else
  if negb (str_eqb (st_subject initial) (pr_subject observed)) || negb (st_revision initial =? pr_revision observed)%Z
     || negb (str_eqb (st_audience initial) (op_api_audience (pr_authorization s)))
  then Err TX_MalformedStored else
  let! subject := rmap_err (λ _, TX_Credential) (oidc_subject (pr_digester s) (pr_issuer observed) (pr_subject observed)) in
  if negb (str_eqb (st_oidc_subject initial) subject) then Err TX_MalformedStored else Ok observed.
(** Everything is locked: the token is exchanged, or found to have been. *)
Definition settle (hash : string) (stored : Stored) (state : State) (principal : OidcPrincipal) (client : ClientData)
    (client_id : string) (sdk : Refresher) (i : OidcRefreshInput) (raw : string) (stop : Z)
    (jti_random suffix_random id_random : option string) : M Tx OidcTokenExchangeError OidcTokenExchangeResult :=
  let? resource := lift_result (refresh_target stored client_id (ri_resource i)) in
  let? scopes := requested_scopes (ri_scope i) (st_scopes stored) stop in
  do? guard_original stop in
  if bool_decide (se_revoked state ≠ None) then fail TX_InvalidGrant else
  if negb (current_trust principal (pr_upstream s)) then fail TX_InvalidGrant else
  if bool_decide (se_consumed state ≠ None) then reuse stored stop else
  do? gate stop (st_expires_at stored) in
  let? sdk := lift_result (sdk_refresh sdk i raw client_id client stored scopes) in
  do? gate stop (st_expires_at stored) in
  let? m := mint stored principal client_id resource scopes stop jti_random suffix_random id_random in
  exchange hash stored principal client_id resource scopes sdk m stop.
Definition rotate (i : OidcRefreshInput) (original : Z) (jti_random suffix_random id_random : option string)
    : M Tx OidcTokenExchangeError OidcTokenExchangeResult :=
  let? stop := txn_clock (bounded_deadline original (pr_operation_timeout s)) in
  do? lift_result (match ri_grant_type i with
                   | Some g => if str_eqb g "refresh_token" then Ok tt else Err TX_UnsupportedGrantType
                   | None => Err TX_InvalidRequest
                   end) in
  let? bytes := parameter_size i stop in
  if (ol_parameter_bytes (op_limits (pr_authorization s)) <? bytes)%Z then fail TX_InvalidRequest else
  let? raw := lift_result (ok_or (ri_refresh_token i ≫= nonempty) TX_InvalidRequest) in
  let? suffix := lift_result (ok_or (strip_prefix raw "gb_rt_") TX_InvalidGrant) in
  if negb (validate_local_auth_challenge suffix) then fail TX_InvalidGrant else
  let? client_id := lift_result (ok_or (ri_client_id i ≫= nonempty) TX_InvalidRequest) in
  let '(sdk, out) := refresh_advance (refresh_new i) RiNone in
  do? lift_result (recovers out raw) in
  if negb (str_eqb client_id (op_cli_client_id (pr_authorization s))) && bool_decide (ri_resource i = None)
  then fail TX_InvalidTarget else
  let? hash := lift_result (exchange_digest LocalRefresh raw) in
  do? sql_await in
  do? sql_await in
  let? row := refresh_token_row hash false in
  let? (initial, _) := decode_token row cap in
  let? observed := lift_result (observed_principal initial client_id) in
  do? map_err from_control (lock_pair_shared (st_oidc_subject initial) client_id stop) in
  let? principal := refresh_principal observed (st_family initial) stop in
  let? client := map_err exchange_error (client_of (pr_authorization s) client_id stop) in
  let? row := refresh_token_row hash true in
  let? (stored, state) := decode_token row cap in
  if bool_decide (stored ≠ initial) then fail TX_InvalidGrant else
  settle hash stored state principal client client_id sdk i raw stop jti_random suffix_random id_random.
End service.
End refresh.

(** ** What a rotation does to the database *)

Section effects.
Context `{OidcLib, CredentialLib, SignLib, AuthLib, RefreshLib} (R : gset Key → Db → Db → Prop) `{!Rely R}.

Lemma rests_requested raw granted original : keeps (rests R) (requested_scopes raw granted original).
Proof.
  unfold requested_scopes. apply keeps_bind; [apply _|auto with broker|]. intros _. destruct raw; [|auto with broker].
  apply keeps_bind; [apply _|auto with broker|]. intros _. apply keeps_mfor; [apply _|]. intros b x.
  unfold request_scope. auto with broker.
Qed.
Lemma rests_decode_token t cap : keeps (rests R) (decode_token t cap).
Proof. unfold decode_token, stored_validate. auto 20 with broker. Qed.
Lemma rests_refresh_row hash lock : keeps (rests R) (refresh_token_row hash lock).
Proof. unfold refresh_token_row. destruct lock; auto 10 with broker. Qed.
Lemma rests_client_of p id original : keeps (rests R) (client_of p id original).
Proof.
  unfold client_of, check_client_scope, check_client_redirect.
  repeat (apply keeps_bind; [apply _|try (apply keeps_mfor; [apply _|intros]); auto 10 with broker|intros] || case_match); auto with broker.
Qed.
Lemma rests_gate stop expiry : keeps (rests R) (gate stop expiry).
Proof. unfold gate. auto 10 with broker. Qed.
Lemma rests_parameter_size i stop : keeps (rests R) (parameter_size i stop).
Proof. unfold parameter_size. apply keeps_mfor; [apply _|]. intros. auto with broker. Qed.
Lemma rests_lock_user subject : keeps (rests R) (lock_user subject).
Proof.
  unfold lock_user. apply keeps_bind; [apply _|auto with broker|]. intros [[k r]|]; [|auto with broker].
  apply rests_here. intros c. apply locks_rests, _.
Qed.
#[local] Hint Extern 1 (keeps (rests _) (lock_user _)) => apply rests_lock_user : broker.
Lemma rests_refresh_principal s observed family stop : keeps (rests R) (refresh_principal s observed family stop).
Proof. unfold refresh_principal. destruct (as_local observed); auto 10 with broker. Qed.
Lemma keeps_sign_id i input original : keeps clock_run (sign_id i input original).
Proof. unfold sign_id, deadline_around, ai_check_deadline, still_valid. auto 20 with broker. Qed.
Lemma keeps_signs i input original : keeps clock_run (sign_access i input original).
Proof. unfold sign_access, deadline_around, ai_check_deadline, still_valid. auto 20 with broker. Qed.
Lemma rests_mint s stored principal client_id resource scopes stop r1 r2 r3 :
  keeps (rests R) (mint s stored principal client_id resource scopes stop r1 r2 r3).
Proof. unfold mint. pose proof keeps_sign_id. pose proof keeps_signs. auto 40 with broker. Qed.
Lemma same_db_gate stop expiry : keeps same_db (gate stop expiry).
Proof. unfold gate. auto 10 with broker. Qed.
Lemma same_db_expires_in r stop : keeps same_db (expires_in r stop).
Proof. unfold expires_in. auto 10 with broker. Qed.
End effects.
#[export] Hint Extern 1 (keeps (rests _) (requested_scopes _ _ _)) => apply rests_requested : broker.
#[export] Hint Extern 1 (keeps (rests _) (decode_token _ _)) => apply rests_decode_token : broker.
#[export] Hint Extern 1 (keeps (rests _) (refresh_token_row _ _)) => apply rests_refresh_row : broker.
#[export] Hint Extern 1 (keeps (rests _) (client_of _ _ _)) => apply rests_client_of : broker.
#[export] Hint Extern 1 (keeps (rests _) (gate _ _)) => apply rests_gate : broker.
#[export] Hint Extern 1 (keeps (rests _) (parameter_size _ _)) => apply rests_parameter_size : broker.
#[export] Hint Extern 1 (keeps (rests _) (refresh_principal _ _ _ _)) => apply rests_refresh_principal : broker.
#[export] Hint Extern 1 (keeps (rests _) (mint _ _ _ _ _ _ _ _ _ _)) => apply rests_mint : broker.
#[export] Hint Resolve same_db_gate same_db_expires_in : broker.

(** The errors that come too late to undo a rotation. *)
Definition late_exchange (e : OidcTokenExchangeError) : Prop := e = TX_InvalidGrant ∨ ∃ ce, e = TX_Control ce.
Lemma late_ex_clock {A} (m : M clock ControlError A) : only late_exchange (txn_clock m : M Tx OidcTokenExchangeError A).
Proof.
  intros c e c'. unfold txn_clock, txn_with. destruct (m (cn_clock c)) as [[a|ce] k]; [done|].
  intros [= <- _]. right. by exists ce.
Qed.
#[local] Hint Extern 1 (only late_exchange (txn_clock _)) => apply late_ex_clock : broker.
#[local] Hint Extern 1 (only late_exchange (guard_original _)) => apply late_ex_clock : broker.
Lemma late_gate stop expiry : only late_exchange (gate stop expiry).
Proof. unfold gate. apply only_bind; [auto with broker|]. intros _. apply only_bind; [auto with broker|]. intros now.
  destruct (_ <=? _)%Z; [apply only_fail; by left|apply only_ret]. Qed.
Lemma late_expires_in r stop : only late_exchange (expires_in r stop).
Proof.
  unfold expires_in. apply only_bind; [auto with broker|]. intros _. apply only_bind; [auto with broker|]. intros now.
  apply only_lift. intros e. unfold remaining_with_grant, remaining_seconds.
  repeat case_match; intros [= <-]; first [by left|right; by eexists].
Qed.

(** ** A rotation, as one atomic step *)

Section rotation.
Context `{OidcLib, CredentialLib, SignLib, AuthLib, RefreshLib} (s : PostgresOidcRefresh).
Notation cap := (ol_json_bytes (op_limits (pr_authorization s))).

Notation may_act := (acts_now cap (pr_upstream s)).
(** Tokens of one family for one principal. *)
Definition kin (t t' : TokenRow) : Prop :=
  tk_family_id t' = tk_family_id t ∧ tk_subject t' = tk_subject t ∧
  ((0 < tk_local_user_revision t)%Z ↔ (0 < tk_local_user_revision t')%Z).
(** Tokens of one family, client and audience. *)
Definition same_grant (t t' : TokenRow) : Prop :=
  tk_family_id t' = tk_family_id t ∧ tk_client_id t' = tk_client_id t ∧ tk_audience t' = tk_audience t.
Inductive rotates (hash : string) (db : Db) : result OidcTokenExchangeError OidcTokenExchangeResult → Db → Prop :=
| Rotated t principal granted scopes data access_hash refresh_hash jti refresh_id now expires r :
    db !! tokens hash = Some (RToken t) → tk_token_kind t = "refresh" → tk_consumed_at t = None → tk_revoked_at t = None →
    (now < tk_expires_at t)%Z → may_act db principal → pr_subject principal = tk_subject t →
    pr_revision principal = tk_local_user_revision t →
    parse_refresh_scopes (tk_scopes_json t) = Ok granted → scopes ⊆ granted → json_strings scopes = Some (td_scopes_json data) →
    td_principal data = principal → td_oidc_subject data = tk_oidc_subject t → td_client_id data = tk_client_id t →
    td_audience data = tk_audience t → default "" (td_resource data) = tk_resource t → td_family data = tk_family_id t →
    td_auth_time data = tk_auth_time t →
    db !! tokens access_hash = None → db !! tokens refresh_hash = None → access_hash ≠ refresh_hash →
    xr_scope r = join " " scopes → xr_expires_at r = expires → xr_grant_expires_at r = Some (tk_expires_at t) →
    rotates hash db (Ok r)
      (<[tokens refresh_hash := RToken (token_row data refresh_id "refresh" (tk_expires_at t))]>
       (<[tokens access_hash := RToken (token_row data jti "oidc_access" expires)]>
        (<[tokens hash := RToken (consumed now t)]> db)))
| Reused t now db' :
    db !! tokens hash = Some (RToken t) → tk_token_kind t = "refresh" → tk_consumed_at t ≠ None → tk_revoked_at t = None →
    (∀ h t', db' !! tokens h = Some (RToken t') → kin t t' → tk_revoked_at t' ≠ None) →
    (∀ k, db' !! k = db !! k ∨
      ∃ t0, db !! k = Some (RToken t0) ∧ tk_family_id t0 = tk_family_id t ∧ tk_revoked_at t0 = None ∧
        db' !! k = Some (RToken (revoked now t0))) →
    rotates hash db (Err TX_InvalidGrant) db'.

(** Whoever stores a token for a person holds that person's row; whoever stores
    one for a federated principal holds the lock of its family: so neither
    happens, and no token is made valid again, while they are held here. *)
Class TokenRely (R : gset Key → Db → Db → Prop) : Prop := {
  tr_user ks db db' name u h t :
    R ks db db' → (USER_LOCK, name) ∈ ks → db !! users name = Some (RUser u) → db' !! tokens h = Some (RToken t) →
    tk_subject t = us_subject u → (0 < tk_local_user_revision t)%Z →
    ∃ t0, db !! tokens h = Some (RToken t0) ∧ same_grant t t0 ∧ (tk_revoked_at t = None → tk_revoked_at t0 = None);
  tr_family ks db db' f h t :
    R ks db db' → (FAMILY_LOCK, f) ∈ ks → db' !! tokens h = Some (RToken t) → tk_family_id t = f →
    (tk_local_user_revision t ≤ 0)%Z →
    ∃ t0, db !! tokens h = Some (RToken t0) ∧ same_grant t t0 ∧ (tk_revoked_at t = None → tk_revoked_at t0 = None);
}.
Context (R : gset Key → Db → Db → Prop) `{!Rely R, !TokenRely R}.
(** What keeps the family of a token. *)
Definition kept_family (c : Tx) (t : TokenRow) : Prop :=
  (0 < tk_local_user_revision t)%Z ∧ (∃ name u, (USER_LOCK, name) ∈ cn_locks c ∧ held c (users name) (Some (RUser u)) ∧
    us_subject u = tk_subject t) ∨
  (tk_local_user_revision t ≤ 0)%Z ∧ (FAMILY_LOCK, tk_family_id t) ∈ cn_locks c.
Lemma kept_family_inside c c' t : inside R c c' → kept_family c t → kept_family c' t.
Proof.
  intros Hi [[Hpos (name & u & Hk & Hh & Hu)]|[Hz Hk]].
  - left. split; [done|]. exists name, u. split; [by apply (in_locks _ _ _ Hi)|]. split; [by eapply held_inside|done].
  - right. split; [done|]. by apply (in_locks _ _ _ Hi).
Qed.
Lemma kin_seen c c' t h t' :
  inside R c c' → fair R c → kept_family c t → cn_db c' !! tokens h = Some (RToken t') → kin t t' → tk_revoked_at t' = None →
  ∃ t0, cn_db c !! tokens h = Some (RToken t0) ∧ same_grant t' t0 ∧ tk_revoked_at t0 = None.
Proof.
  intros Hi Hf Hkept Ht' (Hfam & Hsub & Hrev) Hnone. pose proof (in_env _ _ _ Hi Hf) as HR.
  destruct Hkept as [[Hpos (name & u & Hk & [_ Hu] & Hus)]|[Hz Hk]].
  - destruct (tr_user _ _ _ _ _ _ _ HR Hk Hu Ht') as (t0 & Ht0 & Hf0 & Hr0); [congruence|by apply Hrev|].
    exists t0. split; [done|]. split; [done|auto].
  - destruct (tr_family _ _ _ _ _ _ HR Hk Ht') as (t0 & Ht0 & Hf0 & Hr0); [done|lia|].
    exists t0. split; [done|]. split; [done|auto].
Qed.
Lemma family_row f q k r :
  family_where f q k r = true →
  ∃ h t, k = tokens h ∧ r = RToken t ∧ tk_family_id t = f ∧ q t = true ∧ tk_revoked_at t = None.
Proof.
  destruct r as [| | | |t| | | |]; try done. cbn [family_where]. intros [[[Hk Hf]%andb_true_iff Hq]%andb_true_iff Hr]%andb_true_iff.
  apply str_eqb_eq in Hk, Hf. bool_to_prop. destruct k as [tab h]. simpl in Hk. subst. by exists h, t.
Qed.
(** What the revocation of a family has done when it is committed: the tokens
    it met are revoked, and while the family is kept it met them all. *)
Lemma family_revoked f q now c c' :
  let W := (λ v, Some (set_token (revoked now) v)) <$> rows (family_where f q) (view c) in
  inside R (with_writes c W) c' → cn_writes c' = cn_writes (with_writes c W) → cn_writes c = ∅ → fair R c →
  (∀ k, view c' !! k = cn_db c' !! k ∨
    ∃ t0, cn_db c' !! k = Some (RToken t0) ∧ tk_family_id t0 = f ∧ q t0 = true ∧ tk_revoked_at t0 = None ∧
      view c' !! k = Some (RToken (revoked now t0))) ∧
  (∀ t h t', (∀ t0 t1, same_grant t0 t1 → q t1 = q t0) → kept_family c t → tk_family_id t = f →
    view c' !! tokens h = Some (RToken t') → kin t t' → q t' = true → tk_revoked_at t' ≠ None).
Proof.
  intros W Hi Hws Hw Hfair. assert (inside R c c') as Hi' by (etrans; [apply (writes_inside R)|exact Hi]).
  assert (view c' = apply_writes W (cn_db c')) as Hview.
  { change (view c') with (apply_writes (cn_writes c') (cn_db c')). rewrite Hws. simpl. by rewrite Hw, map_union_empty. }
  assert (∀ k, W !! k = (λ v, Some (set_token (revoked now) v)) <$> rows (family_where f q) (cn_db c) !! k) as HW.
  { intros. unfold W. rewrite view_clean by done. apply lookup_fmap. }
  split.
  - intros k. rewrite Hview, lookup_apply, HW. destruct (rows _ (cn_db c) !! k) as [r0|] eqn:Er; simpl; [|by left]. right.
    assert (k ∈ dom W) as Hk. { apply elem_of_dom. rewrite HW, Er. by eexists. }
    apply map_lookup_filter_Some in Er as [Hr0 (h0 & t0 & _ & Heq & Hf0 & Hq0 & Hn0)%family_row]. simpl in Heq. subst r0.
    exists t0. split; [|split; [congruence|done]]. rewrite (in_held _ _ _ Hi); [done|]. simpl. set_solver.
  - intros t h t' Hq Hkept Hfam Ht' Hkin Hqt' Hnone. rewrite Hview, lookup_apply, HW in Ht'.
    destruct (rows (family_where f q) (cn_db c) !! tokens h) as [r0|] eqn:Er; simpl in Ht'.
    { apply map_lookup_filter_Some in Er as [_ (h0 & t0 & _ & Heq & _)%family_row]. simpl in Heq. subst r0.
      injection Ht' as <-. done. }
    destruct (kin_seen c c' t h t' Hi') as (t0 & Ht0 & Hs0 & Hr0); try done.
    assert (rows (family_where f q) (cn_db c) !! tokens h = Some (RToken t0)) as Hin; [|congruence].
    apply map_lookup_filter_Some. split; [done|]. simpl. rewrite (Hq _ _ Hs0), Hqt', Hr0.
    destruct Hs0 as [-> _], Hkin as [-> _]. by rewrite Hfam, (proj2 (str_eqb_eq _ _) eq_refl).
Qed.
(** The revocation of a family, from its update to its commit. *)
Lemma reuse_ok stored stop hash t c x c' :
  reuse stored stop c = (x, c') → cn_writes c = ∅ → fair R c →
  held c (tokens hash) (Some (RToken t)) → tk_token_kind t = "refresh" → tk_consumed_at t ≠ None → tk_revoked_at t = None →
  st_family stored = tk_family_id t → kept_family c t →
  (∃ e, x = Err e ∧ inside R c c') ∨
  ∃ c1, inside R c c1 ∧ cn_db c' = view c1 ∧ rotates hash (cn_db c1) (Err TX_InvalidGrant) (view c1) ∧
    (x = Err TX_InvalidGrant ∨ ∃ e, x = Err e ∧ late_exchange e).
Proof.
  unfold reuse. intros Hr Hw Hfair Hh Hkind Hcons Hrev Hfam Hkept.
  apply (bind_rests R) in Hr as [(now & c1 & _ & I1 & Hr)|(e & -> & Hi)]; [|by left; eauto|auto with broker].
  apply (bind_inside R) in Hr as [(n & c2 & Hu & Hi2 & Hr)|(e & -> & Hi)];
    [|left; exists e; split; [done|]; etrans; [exact (re_inside _ _ _ I1)|done]|auto with broker].
  assert (inside R c c2) as Hi02 by (etrans; [exact (re_inside _ _ _ I1)|done]).
  destruct (n =? 0); [injection Hr as <- <-; left; by eexists|].
  apply (update_where_ok R) in Hu as (c3 & I3 & _ & ->). assert (rests R c c3) as I03 by (by etrans).
  apply (bind_rests R) in Hr as [(u & c4 & _ & I4 & Hr)|(e & -> & Hi)];
    [|left; exists e; split; [done|]; by etrans|auto with broker].
  apply (commit_tail R) in Hr as [[[e ->] Hi]|(c5 & I5 & Hdb & Hx)]; [| |auto with broker].
  { left. exists e. split; [done|]. etrans; [done|]. etrans; [exact (re_inside _ _ _ I4)|done]. }
  right. assert (inside R c c5) as Hi5 by (etrans; [done|etrans; [exact (re_inside _ _ _ I4)|exact (re_inside _ _ _ I5)]]).
  exists c5. split; [done|]. split; [done|]. split.
  - assert (rests R (with_writes c3 ((λ v, Some (set_token (revoked now) v)) <$> rows (family_where (st_family stored) (λ _, true)) (view c3))) c5)
      as [Hi35 Hw35] by (by etrans).
    destruct (family_revoked _ _ _ _ _ Hi35 Hw35) as [Hall Hkin];
      [by eapply clean_rests|eapply fair_suffix; [exact (in_turns _ _ _ (re_inside _ _ _ I03))|done]|].
    apply (Reused hash (cn_db c5) t now); try done; [apply (held_inside R _ _ _ _ Hi5 Hh)| |].
    + intros h t' Ht' Hk. eapply Hkin; try done. eapply kept_family_inside; [exact (re_inside _ _ _ I03)|done].
    + intros k. destruct (Hall k) as [?|(t0 & ? & ? & _ & ? & ?)]; [by left|right]. exists t0. split; [done|]. by rewrite <- Hfam.
  - destruct Hx as [(c6 & c7 & Hr)| ->]; [|right; eexists; split; [done|]; right; by eexists].
    apply bind_cases in Hr as [(? & c8 & _ & Hr)|(e & Hr & ->)]; [injection Hr as <-; by left|].
    right. exists e. split; [done|]. by eapply late_ex_clock.
Qed.
(** The end of a rotation. *)
Lemma exchange_commit stop e1 e2 r c x c' :
  (do? gate stop e1 in do? gate stop e2 in do? sql_commit in do? gate stop e1 in do? gate stop e2 in
   let? _ := expires_in r stop in ret r) c = (x, c') →
  (∃ e, x = Err e ∧ inside R c c') ∨
  ∃ c1, rests R c c1 ∧ cn_db c' = view c1 ∧ (x = Ok r ∨ ∃ e, x = Err e ∧ late_exchange e).
Proof.
  intros Hr. apply (bind_rests R) in Hr as [(u & c1 & _ & I1 & Hr)|(e & -> & Hin)]; [|by left; eauto|auto with broker].
  apply (bind_rests R) in Hr as [(u' & c2 & _ & I2 & Hr)|(e & -> & Hin)];
    [|left; exists e; split; [done|]; etrans; [exact (re_inside _ _ _ I1)|done]|auto with broker].
  apply (commit_tail R) in Hr as [[[e ->] Hi]|(c3 & I3 & Hdb & Hx)]; [| |auto 10 with broker].
  - left. exists e. split; [done|]. etrans; [exact (re_inside _ _ _ I1)|]. etrans; [exact (re_inside _ _ _ I2)|done].
  - right. exists c3. split; [etrans; [exact I1|by etrans]|]. split; [done|].
    destruct Hx as [(c4 & c5 & Hr)| ->]; [|right; eexists; split; [done|]; right; by eexists].
    apply bind_cases in Hr as [(? & c6 & _ & Hr)|(e & Hr & ->)]; [|right; exists e; split; [done|by eapply late_gate]].
    apply bind_cases in Hr as [(? & c7 & _ & Hr)|(e & Hr & ->)]; [|right; exists e; split; [done|by eapply late_gate]].
    apply bind_cases in Hr as [(? & c8 & _ & Hr)|(e & Hr & ->)]; [|right; exists e; split; [done|by eapply late_expires_in]].
    left. by injection Hr as <-.
Qed.
Lemma consume_ok hash q f t c n c' :
  update_where (E:=OidcTokenExchangeError) (token_at hash q) (set_token f) c = (Ok n, c') → n = 1 → cn_writes c = ∅ →
  held c (tokens hash) (Some (RToken t)) →
  q t = true ∧ ∃ c1, rests R c c1 ∧ c' = with_writes c1 {[tokens hash := Some (RToken (f t))]}.
Proof.
  intros Hu -> Hw Hh. apply (update_where_ok R) in Hu as (c1 & I1 & Hn & ->).
  destruct (held_inside R _ _ _ _ (re_inside _ _ _ I1) Hh) as [_ Ht].
  unfold token_at in *. rewrite rows_at_key, view_clean, Ht in * by exact (clean_rests R _ _ I1 Hw).
  destruct (q t); [|by rewrite map_size_empty in Hn]. split; [done|]. exists c1. split; [done|]. by rewrite map_fmap_singleton.
Qed.
(** Storing one more token. *)
Lemma store_ok d h id kind expiry c c' :
  insert_token d h id kind expiry c = (Ok tt, c') →
  ∃ c1, rests R c c1 ∧ view c1 !! tokens h = None ∧ c' = with_writes c1 {[tokens h := Some (RToken (token_row d id kind expiry))]}.
Proof. intros Hi. apply (insert_row_ok R) in Hi as (c1 & I1 & Hn & _ & ->). eauto. Qed.
Lemma exchange_writes hash q f t d ah id1 k1 e1 rh id2 k2 e2 c c1 c2 c3 n :
  update_where (E:=OidcTokenExchangeError) (token_at hash q) (set_token f) c = (Ok n, c1) → n = 1 →
  insert_token d ah id1 k1 e1 c1 = (Ok tt, c2) → insert_token d rh id2 k2 e2 c2 = (Ok tt, c3) →
  cn_writes c = ∅ → held c (tokens hash) (Some (RToken t)) →
  q t = true ∧ held c3 (tokens ah) None ∧ held c3 (tokens rh) None ∧ ah ≠ rh ∧
  cn_writes c3 = <[tokens rh := Some (RToken (token_row d id2 k2 e2))]> (<[tokens ah := Some (RToken (token_row d id1 k1 e1))]>
    (<[tokens hash := Some (RToken (f t))]> ∅)).
Proof.
  intros Hu Hn Hs1 Hs2 Hw Hh. destruct (consume_ok _ _ _ _ _ _ _ Hu Hn Hw Hh) as (Hq & c4 & I4 & ->).
  pose proof (clean_rests R _ _ I4 Hw) as Hw4. apply store_ok in Hs1 as (c5 & I5 & Hn1 & ->). apply store_ok in Hs2 as (c6 & I6 & Hn2 & ->).
  assert (∀ c : Tx, view c = apply_writes (cn_writes c) (cn_db c)) as Hview by done.
  rewrite Hview, lookup_apply, (re_writes _ _ _ I5), writes_one, Hw4 in Hn1.
  rewrite Hview, lookup_apply, (re_writes _ _ _ I6), writes_one, (re_writes _ _ _ I5), writes_one, Hw4 in Hn2.
  destruct (decide (ah = hash)) as [->|Hah]; [by rewrite lookup_insert_eq in Hn1|].
  rewrite lookup_insert_ne, lookup_empty in Hn1 by (unfold tokens; congruence).
  destruct (decide (rh = ah)) as [->|Hrh]; [by rewrite lookup_insert_eq in Hn2|].
  rewrite lookup_insert_ne in Hn2 by (unfold tokens; congruence). destruct (decide (rh = hash)) as [->|Hrh']; [by rewrite lookup_insert_eq in Hn2|].
  rewrite lookup_insert_ne, lookup_empty in Hn2 by (unfold tokens; congruence).
  split; [done|]. split; [|split; [by apply held_write|split; [done|]]].
  - eapply held_inside; [apply (writes_inside R)|]. eapply held_inside; [exact (re_inside _ _ _ I6)|]. by apply held_write.
  - by rewrite writes_one, (re_writes _ _ _ I6), writes_one, (re_writes _ _ _ I5), writes_one, Hw4.
Qed.
Lemma exchange_ok hash stored principal client_id resource scopes sdk m stop t c x c' :
  exchange s hash stored principal client_id resource scopes sdk m stop c = (x, c') → cn_writes c = ∅ →
  held c (tokens hash) (Some (RToken t)) →
  (∃ e, x = Err e ∧ inside R c c') ∨
  ∃ c1 access_hash refresh_hash data,
    inside R c c1 ∧ cn_db c' = view c1 ∧ live (pr_subject principal) client_id (mi_issued_at m) t = true ∧
    json_strings scopes = Some (td_scopes_json data) ∧ td_principal data = principal ∧ td_oidc_subject data = st_oidc_subject stored ∧
    td_client_id data = client_id ∧ td_audience data = st_audience stored ∧ td_resource data = resource ∧
    td_family data = st_family stored ∧ td_auth_time data = st_auth_time stored ∧
    cn_db c1 !! tokens access_hash = None ∧ cn_db c1 !! tokens refresh_hash = None ∧ access_hash ≠ refresh_hash ∧
    view c1 = <[tokens refresh_hash := RToken (token_row data (mi_refresh_id m) "refresh" (st_expires_at stored))]>
       (<[tokens access_hash := RToken (token_row data (mi_jti m) "oidc_access" (mi_expires_at m))]>
        (<[tokens hash := RToken (consumed (mi_issued_at m) t)]> (cn_db c1))) ∧
    ∃ r, xr_scope r = join " " scopes ∧ xr_expires_at r = mi_expires_at m ∧ xr_grant_expires_at r = Some (st_expires_at stored) ∧
      (x = Ok r ∨ ∃ e, x = Err e ∧ late_exchange e).
Proof.
  intros Hr Hw Hh. unfold exchange in Hr.
  match goal with |- ?G => assert (∀ e, x = Err e → inside R c c' → G) as Hno by (intros; left; eauto) end.
  assert (rests R c c) as I by reflexivity. read_step Hr I ah c1 Hah. read_step Hr I rh c2 Hrh. read_step Hr I pj c3 Hpj.
  read_step Hr I sj c4 Hsj. apply lift_ok in Hsj as [Hsj _]. apply ok_or_ok in Hsj. guard_step Hr I G1. read_step Hr I u c5 Hg.
  pose proof (re_inside _ _ _ I) as Hi5.
  apply (bind_inside R) in Hr as [(n & c6 & Hu & Hi6 & Hr)|(e & He & Hi)]; [|eapply Hno; [exact He|by etrans]|auto with broker].
  assert (inside R c c6) as Hi06 by (by etrans). destruct (negb (n =? 1)) eqn:En; [injection Hr as <- <-; by eapply Hno|].
  apply negb_false_iff, Nat.eqb_eq in En.
  apply (bind_inside R) in Hr as [([] & c7 & Hs1 & Hi7 & Hr)|(e & He & Hi)]; [|eapply Hno; [exact He|by etrans]|auto with broker].
  apply (bind_inside R) in Hr as [([] & c8 & Hs2 & Hi8 & Hr)|(e & He & Hi)];
    [|eapply Hno; [exact He|etrans; [exact Hi06|by etrans]]|auto with broker].
  assert (inside R c c8) as Hi08 by (etrans; [exact Hi06|by etrans]).
  destruct (exchange_writes _ _ _ _ _ _ _ _ _ _ _ _ _ _ _ _ _ _ Hu En Hs1 Hs2 (clean_rests R _ _ I Hw) Hh) as (Hlive & Ha & Hb & Hne & Hws).
  apply bind_cases in Hr as [(until & c9 & Hl & Hr)|(e & Hl & He)]; [|injection Hl as _ <-; by eapply Hno].
  apply lift_ok in Hl as [_ ->].
  destruct (snd _); try (injection Hr as <- <-; by eapply Hno).
  apply exchange_commit in Hr as [(e & He & Hi)|(c10 & I10 & Hdb & Hx)]; [eapply Hno; [exact He|by etrans]|].
  right. match type of Hs1 with insert_token ?d _ _ _ _ _ = _ => exists c10, ah, rh, d end. split; [etrans; [exact Hi08|exact (re_inside _ _ _ I10)]|]. split; [exact Hdb|]. split; [exact Hlive|].
  split; [exact Hsj|]. do 7 (split; [reflexivity|]).
  split; [apply (held_inside R _ _ _ _ (re_inside _ _ _ I10) Ha)|]. split; [apply (held_inside R _ _ _ _ (re_inside _ _ _ I10) Hb)|].
  split; [exact Hne|]. split.
  - change (view c10) with (apply_writes (cn_writes c10) (cn_db c10)).
    by rewrite (re_writes _ _ _ I10), Hws, !apply_insert, apply_empty.
  - eexists. split; [|split; [|split; [|exact Hx]]]; reflexivity.
Qed.
(** The token row that was locked. *)
Lemma refresh_row_locked hash c t c' :
  refresh_token_row hash true c = (Ok t, c') → cn_writes c = ∅ →
  held c' (tokens hash) (Some (RToken t)) ∧ tk_token_kind t = "refresh".
Proof.
  unfold refresh_token_row. intros Hr Hw. apply bind_ok in Hr as (row & c1 & Hs & Hr). apply lift_ok in Hr as [Hl ->].
  apply ok_or_ok in Hl. destruct row as [[k r]|]; [|done]. simpl in Hl. destruct r as [| | | |t'| | | |]; try done. injection Hl as ->.
  apply (select_where_locked_ok R) in Hs as (I1 & Hv & Hp & Hk). unfold token_at, at_key in Hp.
  apply andb_true_iff in Hp as [->%bool_decide_eq_true Hkind%str_eqb_eq].
  rewrite view_clean in Hv by (by eapply clean_rests). done.
Qed.
Lemma decode_token_ok t limit c stored state c' :
  decode_token t limit c = (Ok (stored, state), c') →
  decode_columns t limit = Ok stored ∧ state = {| se_consumed := tk_consumed_at t; se_revoked := tk_revoked_at t |}.
Proof.
  unfold decode_token. intros Hr. apply bind_ok in Hr as (st & c1 & Hl & Hr). apply lift_ok in Hl as [Hl ->].
  apply bind_ok in Hr as (? & c2 & _ & Hr). apply bind_ok in Hr as (? & c3 & _ & Hr). apply bind_ok in Hr as (? & c4 & _ & Hr).
  by apply ret_ok in Hr as [[= -> ->] _].
Qed.
Lemma decode_columns_ok t limit stored :
  decode_columns t limit = Ok stored →
  st_subject stored = tk_subject t ∧ st_oidc_subject stored = tk_oidc_subject t ∧ st_client_id stored = tk_client_id t ∧
  st_audience stored = tk_audience t ∧ st_resource stored = tk_resource t ∧ st_principal_json stored = tk_principal_json t ∧
  parse_refresh_scopes (tk_scopes_json t) = Ok (st_scopes stored) ∧ st_revision stored = tk_local_user_revision t ∧
  st_family stored = tk_family_id t ∧ st_auth_time stored = tk_auth_time t ∧ st_expires_at stored = tk_expires_at t.
Proof.
  unfold decode_columns, bound_column. intros Hd. invert_ok Hd. injection Hd as <-. simpl.
  repeat match goal with Hb : (if _ then Err _ else Ok _) = Ok _ |- _ => destruct (_ <? _)%Z in Hb; [done|injection Hb as <-] end. done.
Qed.
Lemma requested_subset raw granted original c scopes c' :
  requested_scopes raw granted original c = (Ok scopes, c') → scopes ⊆ granted.
Proof.
  unfold requested_scopes. intros Hr. apply bind_ok in Hr as (? & c1 & _ & Hr). destruct raw as [raw|];
    [|by apply ret_ok in Hr as [-> _]]. apply bind_ok in Hr as (? & c2 & _ & Hr).
  apply (mfor_ok_ind (λ _ acc, acc ⊆ granted)) in Hr; [done|set_solver|].
  intros prior w acc s0 acc' s1 Hsub Hf. unfold request_scope in Hf. apply bind_ok in Hf as (? & c3 & _ & Hf).
  destruct (_ || _) eqn:Eb; [done|]. apply ret_ok in Hf as [-> _]. apply orb_false_iff in Eb as [_ Hin%negb_false_iff].
  apply existsb_elem in Hin as (v & Hv & ->%str_eqb_eq). destruct (existsb _ _); set_solver.
Qed.
(** The principal as it is now, and what keeps the family of its token. *)
Notation acts_for := (holds_principal cap (pr_upstream s)).
Lemma refresh_principal_ok observed family stop c p c' t :
  refresh_principal s observed family stop c = (Ok p, c') → cn_writes c = ∅ → pr_valid observed = true →
  tk_subject t = pr_subject observed → tk_local_user_revision t = pr_revision observed → tk_family_id t = family →
  kept_family c' t ∧ pr_subject p = pr_subject observed ∧ pr_revision p = pr_revision observed ∧ acts_for c' p.
Proof.
  unfold refresh_principal. intros Hr Hw Hval Hsub Hrev Hfam. destruct observed as [lp|fp]; cbn [as_local] in Hr.
  - apply bind_ok in Hr as (u & c1 & Hl & Hr). pose proof (rests_lock_user R _ _ _ _ Hl) as I1.
    unfold lock_user in Hl. apply bind_ok in Hl as (row & c2 & Hsel & Hl). destruct row as [[k r]|]; [|done].
    apply (select_where_locked_ok R) in Hsel as (I2 & Hv & Hp & Hk). rewrite view_clean in Hv by (by eapply clean_rests).
    injection Hl as <- <-. unfold user_where in Hp. destruct r as [ur| | | | | | | |]; try done. destruct k as [tab name].
    apply andb_true_iff in Hp as [Hk1%str_eqb_eq Hu%str_eqb_eq]. simpl in Hk1. subst tab.
    apply map_err_ok in Hr. pose proof (rests_current_principal R _ _ _ _ _ _ _ _ Hr) as I3.
    apply (holds_current R _ _ (pr_upstream s)) in Hr as (? & ? & Hge & ?); [|by eapply clean_rests]. split; [|done]. eapply kept_family_inside; [exact (re_inside _ _ _ I3)|]. left.
    split; [rewrite Hrev; simpl; lia|]. exists name, ur. split; [simpl; set_solver|]. split; [|by rewrite Hsub].
    split; [simpl; set_solver|exact Hv].
  - destruct (negb _) eqn:Et; [done|]. apply bind_ok in Hr as (u & c1 & Hl & Hr). apply ret_ok in Hr as [-> ->].
    unfold advisory_lock in Hl. apply bind_ok in Hl as (? & c2 & _ & [= <-]). split; [|split; [done|split; [done|by apply negb_false_iff]]].
    right. split; [|rewrite Hfam; simpl; set_solver]. rewrite Hrev. unfold pr_valid, federated_valid in Hval. bool_to_prop. simpl. lia.
Qed.
Lemma observed_ok initial client_id p :
  observed_principal s initial client_id = Ok p →
  pr_valid p = true ∧ st_client_id initial = client_id ∧ st_subject initial = pr_subject p ∧ st_revision initial = pr_revision p.
Proof.
  unfold observed_principal, principal_parse. intros Ho. invert_ok Ho. injection Ho as ->. bool_to_prop.
  repeat match goal with Hs : str_eqb _ _ = true |- _ => apply str_eqb_eq in Hs end. invert_ok R0. bool_to_prop. by injection R0 as ->.
Qed.
Lemma refresh_target_ok stored client_id requested resource :
  refresh_target s stored client_id requested = Ok resource → default "" resource = st_resource stored.
Proof.
  unfold refresh_target. intros Ht. destruct (_ || _); [done|].
  assert (resource = if is_empty (st_resource stored) then None else Some (st_resource stored)) as ->.
  { destruct requested as [r|]; [destruct (_ && _); [done|]|]; by injection Ht as <-. }
  by destruct (st_resource stored).
Qed.
(** The token as it was locked, and what was read of it. *)
Record agrees (stored : Stored) (t : TokenRow) (client_id : string) (principal : OidcPrincipal) : Prop := {
  ag_kind : tk_token_kind t = "refresh";
  ag_columns : decode_columns t cap = Ok stored;
  ag_client : st_client_id stored = client_id;
  ag_subject : pr_subject principal = st_subject stored;
  ag_revision : pr_revision principal = st_revision stored;
}.
Lemma settle_ok hash stored t principal client client_id sdk i raw stop r1 r2 r3 c x c' :
  settle s hash stored {| se_consumed := tk_consumed_at t; se_revoked := tk_revoked_at t |} principal client client_id sdk i raw stop
    r1 r2 r3 c = (x, c') →
  agrees stored t client_id principal → cn_writes c = ∅ → fair R c → held c (tokens hash) (Some (RToken t)) →
  kept_family c t → acts_for c principal →
  (∃ e, x = Err e ∧ inside R c c') ∨
  ∃ c1 r, inside R c c1 ∧ cn_db c' = view c1 ∧ rotates hash (cn_db c1) r (view c1) ∧ (x = r ∨ ∃ e, x = Err e ∧ late_exchange e).
Proof.
  intros Hr [Kkind Kcol Kclient Ksubj Krevn] Hw Hfair Hheld Hkept Hacts. unfold settle in Hr.
  apply decode_columns_ok in Kcol as (Ksub & Kosub & Kcl & Kaud & Kres & Kpj & Kscopes & Krev & Kfam & Kauth & Kexp).
  match goal with |- ?G => assert (∀ e, x = Err e → inside R c c' → G) as Hno by (intros; left; eauto) end.
  assert (rests R c c) as I by reflexivity. read_step Hr I resource c1 Htarget. apply lift_ok in Htarget as [Htarget%refresh_target_ok _].
  read_step Hr I scopes c2 Hscopes. apply requested_subset in Hscopes. read_step Hr I u3 c3 Hm3. guard_step Hr I G1. guard_step Hr I G2.
  apply bool_decide_eq_false, dec_stable in G1. cbn [se_consumed se_revoked] in Hr, G1. case_bool_decide as Hcons.
  - pose proof (re_inside _ _ _ I) as Hi. eapply reuse_ok in Hr as [(e & He & Hi')|(c4 & Hi4 & Hdb & Hrot & Hx)].
    + eapply Hno; [exact He|by etrans].
    + right. exists c4, (Err TX_InvalidGrant). split; [by etrans|]. done.
    + by eapply clean_rests.
    + eapply fair_suffix; [exact (in_turns _ _ _ Hi)|done].
    + exact Hheld.
    + done.
    + done.
    + done.
    + congruence.
    + by eapply kept_family_inside.
  - read_step Hr I u4 c4 Hm4. read_step Hr I sdk' c5 Hm5. read_step Hr I u6 c6 Hm6. read_step Hr I m c7 Hm7.
    pose proof (re_inside _ _ _ I) as Hi.
    eapply exchange_ok in Hr as [(e & He & Hi')|(c8 & ah & rh & d & Hi8 & Hdb & Hlive & Hsj & Dp & Do & Dc & Da & Dr & Df & Dt & Ha & Hrf & Hne & Hv & r & Rs & Re & Rg & Hx)];
      [eapply Hno; [exact He|by etrans]| |by eapply clean_rests|exact Hheld].
    right. exists c8, (Ok r). split; [by etrans|]. split; [done|]. split; [|done]. rewrite Hv, Kexp.
    destruct (held_inside R _ _ _ _ Hi8 Hheld) as [_ Ht]. unfold live in Hlive. bool_to_prop.
    eapply (Rotated hash (cn_db c8) t principal (st_scopes stored) scopes d ah rh); try done; try congruence.
    eapply (holds_principal_now R); [|exact Hacts]. by etrans.
Qed.
Lemma rotate_atomic i original r1 r2 r3 c x c' :
  rotate s i original r1 r2 r3 c = (x, c') → idle c → fair R c →
  atomically R late_exchange c x c' (λ db r db', ∃ raw hash,
    ri_refresh_token i = Some raw ∧ exchange_digest s LocalRefresh raw = Ok hash ∧ rotates hash db r db').
Proof.
  intros Hr Hidle Hfair. pose proof Hidle as [Hw _].
  match goal with |- ?G => assert (∀ e, x = Err e → inside R c c' → G) as Hno by (intros; by eapply (atomically_nothing R)) end.
  unfold rotate in Hr. assert (rests R c c) as I by reflexivity. read_step Hr I stop c1 Hm1. read_step Hr I u2 c2 Hm2.
  read_step Hr I bts c3 Hm3. guard_step Hr I G1. read_step Hr I raw c4 Hraw. apply lift_ok in Hraw as [Hraw _]. apply ok_or_ok in Hraw.
  read_step Hr I sfx c5 Hm5. guard_step Hr I G2. read_step Hr I cid c6 Hcid.
  destruct (refresh_advance (refresh_new i) RiNone) as [sdk out]. read_step Hr I u7 c7 Hm7. guard_step Hr I G3.
  read_step Hr I hash c8 Hhash. apply lift_ok in Hhash as [Hhash _]. read_step Hr I u9 c9 Hm9. read_step Hr I u10 c10 Hm10.
  read_step Hr I row c11 Hrow0. read_step Hr I pr0 c12 Hdec0. destruct pr0 as [initial st0].
  apply decode_token_ok in Hdec0 as [Hdec0 _]. read_step Hr I observed c13 Hobs. apply lift_ok in Hobs as [Hobs _].
  apply observed_ok in Hobs as (Hval & Hcl & Hsubj & Hrevi). read_step Hr I u14 c14 Hm14. pose proof (clean_rests R _ _ I Hw) as Hw14.
  read_step Hr I principal c15 Hprin. read_step Hr I client c16 Hm16. pose proof (clean_rests R _ _ I Hw) as Hw16.
  read_step Hr I t c17 Hrow. apply refresh_row_locked in Hrow as [Hheld Hkind]; [|done].
  read_step Hr I pr1 c18 Hdec. destruct pr1 as [stored state]. apply decode_token_ok in Hdec as [Hdec ->].
  guard_step Hr I G4. bool_to_prop. match goal with Hb : ¬ stored ≠ _ |- _ => apply dec_stable in Hb as -> end.
  pose proof (decode_columns_ok _ _ _ Hdec) as (Ksub & _ & _ & _ & _ & _ & _ & Krev & Kfam & _).
  eapply (refresh_principal_ok _ _ _ _ _ _ t) in Hprin as (Hkept & Psub & Prev & Hacts); try done; try congruence.
  assert (inside R c15 c18) as Hi15 by (eapply re_inside; do 2 (etrans; [eassumption|]); eassumption).
  pose proof (re_inside _ _ _ I) as Hi. eapply settle_ok in Hr as [(e & He & Hi')|(c19 & r & Hi19 & Hdb & Hrot & Hx)].
  - eapply Hno; [exact He|by etrans].
  - eapply (atomically_step R); [done|done|by etrans|exact Hdb| |exact Hx]. exists raw, hash. split; [|by split].
    destruct (ri_refresh_token i) as [w|]; [|done]. simpl in Hraw. unfold nonempty in Hraw. destruct (is_empty w); congruence.
  - split; try done; congruence.
  - by eapply clean_rests.
  - eapply fair_suffix; [exact (in_turns _ _ _ Hi)|done].
  - exact Hheld.
  - eapply kept_family_inside; [exact Hi15|done].
  - eapply (holds_principal_inside R); [exact Hi15|done].
Qed.
End rotation.

Section claim.
Context `{OidcLib, CredentialLib, SignLib, AuthLib, RefreshLib} (s : PostgresOidcRefresh).
(** C3. The exchange of a refresh token is one atomic step.  Whatever other
    transactions commit meanwhile, as long as whoever stores tokens for a person
    holds that person's row and for a federated principal the lock of the family,
    and wherever a statement fails or the deadline cuts the exchange off: either
    nothing is changed and an error reported, or the database goes, at one
    moment, through one step of [rotates].  That step exchanges a token that is
    unused, unrevoked and unexpired, of a principal who may act at that very
    moment, for an access token and a successor in the same family, of the same
    client, subject, audience and resource, with scopes among those granted, and
    no longer than the token itself; or it finds the token used before and
    revokes every token of the family. *)
Theorem rotate_refines (R : gset Key → Db → Db → Prop) `{!Rely R, !TokenRely R} i original r1 r2 r3 (c : Tx) x c' :
  rotate s i original r1 r2 r3 c = (x, c') → idle c → fair R c →
  ∃ db, R ∅ (cn_db c) db ∧
    ((∃ e, x = Err e) ∧ cn_db c' = db ∨
     ∃ r, (∃ raw hash, ri_refresh_token i = Some raw ∧ exchange_digest s LocalRefresh raw = Ok hash ∧ rotates s hash db r (cn_db c')) ∧
       (x = r ∨ ∃ e, x = Err e ∧ late_exchange e)).
Proof. apply rotate_atomic; apply _. Qed.
End claim.
