(* ===== verification/OidcRevocation.v ===== *)
(** * Revocation of tokens

    crates/broker-control/src/oidc_revocation.rs and service/oidc_revocation.rs:
    whoever holds a refresh token may end its family, whoever holds an access
    token may end that one; an unknown token is no error.  The principal of a
    stored token is read as oidc_access_grant.rs reads it. *)

From stdpp Require Import gmap.
From S2P Require Import Prelude RustStr Order Control BrokerAccess AccessIssuer Sql OidcTables.
From S2P Require Import StorageAdmission Credentials OidcPolicy OidcRefresh.

Record OidcRevocationInput := {
  rv_token : option string;
  rv_client_id : option string;
  rv_token_type_hint : option string;
  rv_authorization : option (string * string);
}.
Record Refresh := {
  rf_token_id : string;
  rf_subject : string;
  rf_oidc_subject : string;
  rf_client_id : string;
  rf_audience : string;
  rf_family : string;
  rf_principal_json : string;
  rf_revision : Z;
  rf_expires_at : Z;
  rf_created_at : Z;
}.
#[global] Instance Refresh_eq_dec : EqDecision Refresh.
Proof. solve_decision. Defined.

(** ** Stored principals *)

Record PrincipalFields := {
  pf_issuer : string;
  pf_subject : string;
  pf_username : string;
  pf_auth_method : string;
  pf_local_user_revision : Z;
}.
(** [serde_json] on a stored principal: one whole object, its required fields
    present, no field twice and none unknown. *)
Class StoredPrincipalLib := { principal_fields : string → option PrincipalFields }.
Definition parse_principal `{StoredPrincipalLib} (raw : string) : option PrincipalFields :=
  f ← principal_fields raw;
  let local := str_eqb (pf_issuer f) "local" in
  if negb (canonical_text (pf_issuer f))
     || (local && (negb (canonical_text (pf_username f)) || negb (valid_identity_subject (pf_subject f) 512)
                   || (pf_local_user_revision f <? 1)%Z
                   || negb (str_eqb (pf_auth_method f) "local-token" || str_eqb (pf_auth_method f) "service-credential")))
     || (negb local && (negb (literal_identity (pf_subject f)) || negb (literal_identity (pf_username f))
                        || negb (pf_local_user_revision f =? 0)%Z || negb (str_eqb (pf_auth_method f) "oidc")))
  then None else Some f.

Section revocation.
Context `{OidcLib, CredentialLib, AuthLib, JwtLib, StoredPrincipalLib}.

Record PostgresOidcRevocation := {
  rk_digester : CredentialDigester;
  rk_operation_timeout : Z;
  rk_authorization : OidcAuthorizationPolicy;
  rk_verifier : BrokerAccessVerifier;
}.
Definition oidc_revocation (digester : CredentialDigester) (operation_timeout : Z) (authorization : OidcAuthorizationPolicy)
    (verifier : BrokerAccessVerifier) : result OidcTokenExchangeError PostgresOidcRevocation :=
  if negb (str_eqb (bv_api_audience verifier) (op_api_audience authorization)) then Err TX_InvalidConfiguration else
  Ok {| rk_digester := digester; rk_operation_timeout := operation_timeout; rk_authorization := authorization;
        rk_verifier := verifier |}.

(** ** Reading a refresh token *)

Definition refresh_columns (t : TokenRow) (cap : Z) : result OidcTokenExchangeError Refresh :=
  let! subject := bound_column cap (tk_subject t) in
  let! principal_json := bound_column cap (tk_principal_json t) in
  Ok {| rf_token_id := tk_token_id t; rf_subject := subject; rf_oidc_subject := tk_oidc_subject t; rf_client_id := tk_client_id t;
        rf_audience := tk_audience t; rf_family := tk_family_id t; rf_principal_json := principal_json;
        rf_revision := tk_local_user_revision t; rf_expires_at := tk_expires_at t; rf_created_at := tk_created_at t |}.
Definition refresh (t : TokenRow) (cap : Z) : M Tx OidcTokenExchangeError (Refresh * option Z) :=
  let? stored := lift_result (refresh_columns t cap) in
  if negb (forallb validate_local_auth_challenge [rf_token_id stored; rf_oidc_subject stored; rf_family stored])
  then fail TX_MalformedStored else
  let? now := txn_clock now_micros in
  if (rf_created_at stored <=? 0)%Z || (now <? rf_created_at stored)%Z || (rf_expires_at stored <=? rf_created_at stored)%Z
     || is_some_and (tk_revoked_at t) (λ v, (v <? rf_created_at stored) || (now <? v))%Z
  then fail TX_MalformedStored else
  ret (stored, tk_revoked_at t).
Definition refresh_row (hash : string) (lock : bool) : M Tx OidcTokenExchangeError (option TokenRow) :=
  let? row := (if lock then select_where_locked else select_where) (token_at hash (λ t, str_eqb (tk_token_kind t) "refresh")) in
  ret (row ≫= λ kv, match kv.2 with RToken t => Some t | _ => None end).

(** ** The operation *)

Section service.
Context (s : PostgresOidcRevocation).
Notation cap := (ol_json_bytes (op_limits (rk_authorization s))).
Notation audience := (op_api_audience (rk_authorization s)).
Definition total_size (values : list string) : option Z :=
  foldl (λ acc v, bytes ← acc; checked_add_usize bytes (len v)) (Some 0%Z) values.
Definition refresh_hash (raw : string) : result OidcTokenExchangeError (option string) :=
  match strip_prefix raw "gb_rt_" with
  | Some suffix =>
      if validate_local_auth_challenge suffix
      then rmap Some (rmap_err (λ _, TX_Credential) (rmap to_sql_hex (token (rk_digester s) LocalRefresh raw))) else Ok None
  | None => Ok None
  end.
(** The proof of an access token, when it is one. *)
Definition access_proof (raw : string) (stop : Z) : M Tx OidcTokenExchangeError (option VerifiedBrokerAccess) :=
  let? proof := outcome (txn_with id (verify_for_revocation (rk_verifier s) raw stop)) in
  match proof with
  | Ok proof => ret (Some proof)
  | Err BA_Deadline => fail (TX_Control CE_Deadline)
  | Err _ => ret None
  end.
(** The locks of the token's principal, before that of its row. *)
Definition lock_principal (stored : Refresh) (stop : Z) : M Tx OidcTokenExchangeError unit :=
  let? principal := lift_result (ok_or (parse_principal (rf_principal_json stored)) TX_MalformedStored) in
  if negb (str_eqb (pf_subject principal) (rf_subject stored)) || negb (pf_local_user_revision principal =? rf_revision stored)%Z
  then fail TX_MalformedStored else
  let? subject := lift_result (rmap_err (λ _, TX_Credential)
    (oidc_subject (rk_digester s) (pf_issuer principal) (pf_subject principal))) in
  if negb (str_eqb (rf_oidc_subject stored) subject) then fail TX_MalformedStored else
  do? map_err from_control (lock_pair_shared (rf_oidc_subject stored) (rf_client_id stored) stop) in
  if str_eqb (pf_issuer principal) "local" then
    let? row := select_where_locked (user_where (rf_subject stored)) in
    match row with Some (k, _) => λ c, (Ok tt, with_locks c {[(USER_LOCK, k.2)]}) | None => ret tt end
  else advisory_lock (FAMILY_LOCK, rf_family stored).
(** WHERE … AND client_id=$3 AND audience=$4 *)
Definition of_client (client : string) (t : TokenRow) : bool :=
  str_eqb (tk_client_id t) client && str_eqb (tk_audience t) audience.
Definition revoke_family (hash : string) (initial : Refresh) (client : string) : M Tx OidcTokenExchangeError unit :=
  let? row := refresh_row hash true in
  match row with
  | None => ret tt
  | Some t =>
      let? (stored, revoked_at) := refresh t cap in
      let? now := txn_clock now_micros in
      if (now <? rf_created_at stored)%Z then fail (TX_Control CE_Clock) else
      if bool_decide (stored = initial) && str_eqb (rf_audience stored) audience && (now <? rf_expires_at stored)%Z
         && bool_decide (revoked_at = None) then
        let? changed := update_where (family_where (rf_family stored) (of_client client)) (set_token (revoked now)) in
        if (changed =? 0) then fail (TX_Control CE_Storage) else ret tt
      else ret tt
  end.
Definition proof_expiry (proof : VerifiedBrokerAccess) : option Z :=
  since ← duration_since (vb_expires_at proof) UNIX_EPOCH;
  let secs := (since / NANOS)%Z in
  if (secs * 1000000 <=? I64_MAX)%Z then Some (secs * 1000000)%Z else None.
Definition access_where (proof : VerifiedBrokerAccess) (expiry now : Z) (t : TokenRow) : bool :=
  str_eqb (tk_token_kind t) "oidc_access" && str_eqb (tk_token_id t) (vb_jti proof) && str_eqb (tk_client_id t) (vb_client_id proof)
  && str_eqb (tk_oidc_subject t) (vb_subject proof) && (tk_expires_at t =? expiry)%Z && str_eqb (tk_audience t) audience
  && (now <? tk_expires_at t)%Z && bool_decide (tk_revoked_at t = None).
Definition revoke_access (proof : VerifiedBrokerAccess) : M Tx OidcTokenExchangeError unit :=
  if negb (validate_local_auth_challenge (vb_jti proof)) then ret tt else
  match proof_expiry proof with
  | None => ret tt
  | Some expiry =>
      let? hash := lift_result (rmap_err (λ _, TX_Credential) (rmap to_sql_hex (token (rk_digester s) OidcStoredAccess (vb_jti proof)))) in
      let? now := txn_clock now_micros in
      let? _ := update_where (token_at hash (access_where proof expiry now)) (set_token (revoked now)) in
      ret tt
  end.
Definition revoke_proof (proof : VerifiedBrokerAccess) : M Tx OidcTokenExchangeError unit :=
  let? checked := outcome (txn_with id (vb_check proof)) in
  match checked with
  | Ok _ => revoke_access proof
  | Err BA_Deadline => fail (TX_Control CE_Deadline)
  | Err _ => ret tt
  end.
(** What is revoked, once everything is locked. *)
Definition dispose (hash : option string) (bound : option Refresh) (access : option VerifiedBrokerAccess) (client : string)
    : M Tx OidcTokenExchangeError unit :=
  match bound with
  | Some initial => let? hash := lift_result (ok_or hash TX_MalformedStored) in revoke_family hash initial client
  | None =>
      match access with
      | Some proof => if str_eqb (vb_client_id proof) client then revoke_proof proof else ret tt
      | None => ret tt
      end
  end.
(** The token as first read. *)
Definition initial_of (hash : option string) : M Tx OidcTokenExchangeError (option Refresh) :=
  match hash with
  | Some hash =>
      let? row := refresh_row hash false in
      match row with Some t => let? (stored, _) := refresh t cap in ret (Some stored) | None => ret None end
  | None => ret None
  end.
Definition revoke (i : OidcRevocationInput) (original : Z) : M Tx OidcTokenExchangeError unit :=
  let? stop := txn_clock (bounded_deadline original (rk_operation_timeout s)) in
  if bool_decide (rv_authorization i ≠ None) then fail TX_InvalidClient else
  let? bytes := lift_result (ok_or (total_size (omap id [rv_token i; rv_client_id i; rv_token_type_hint i])) TX_InvalidRequest) in
  if (ol_parameter_bytes (op_limits (rk_authorization s)) <? bytes)%Z then fail TX_InvalidRequest else
  let? raw := lift_result (ok_or (rv_token i ≫= nonempty) TX_InvalidRequest) in
  let? client := lift_result (ok_or (rv_client_id i ≫= nonempty) TX_InvalidRequest) in
  if bool_decide (OidcClientId_parse client = None) then fail TX_InvalidRequest else
  let? hash := lift_result (refresh_hash raw) in
  let? access := match hash with None => access_proof raw stop | Some _ => ret None end in
  do? sql_await in
  do? sql_await in
  let? initial := initial_of hash in
  let bound := initial ≫= λ stored, if str_eqb (rf_client_id stored) client then Some stored else None in
  do? match bound with Some stored => lock_principal stored stop | None => ret tt end in
  let? _ := map_err exchange_error (client_of (rk_authorization s) client stop) in
  do? guard_original stop in
  do? dispose hash bound access client in
  do? guard_original stop in
  do? sql_commit in
  guard_original stop.
End service.
End revocation.

(** ** What a revocation does to the database *)

Section effects.
Context `{OidcLib, CredentialLib, AuthLib, JwtLib, StoredPrincipalLib} (R : gset Key → Db → Db → Prop) `{!Rely R}.
(** The verification of a token runs on the clock. *)
Class ClockedJwt : Prop := { clocked_decode key validation raw : keeps clock_run (jwt_decode key validation raw) }.
Context `{!ClockedJwt}.
Lemma keeps_vb_check p : keeps clock_run (vb_check p).
Proof. unfold vb_check, ba_check_deadline. auto 20 with broker. Qed.
#[local] Hint Resolve keeps_vb_check : broker.
Lemma keeps_verify v raw stop : keeps clock_run (verify_for_revocation v raw stop).
Proof.
  pose proof clocked_decode. unfold verify_for_revocation, verify_bound, verify_bound_body, ba_check_deadline. auto 30 with broker.
Qed.
Lemma rests_access_proof s raw stop : keeps (rests R) (access_proof s raw stop).
Proof.
  unfold access_proof. apply keeps_bind; [apply _|apply keeps_outcome, rests_txn_with; [apply _|apply keeps_verify]|].
  intros [p|[]]; auto with broker.
Qed.
Lemma rests_refresh t cap : keeps (rests R) (refresh t cap).
Proof. unfold refresh. auto 20 with broker. Qed.
Lemma rests_refresh_row' hash lock : keeps (rests R) (refresh_row hash lock).
Proof. unfold refresh_row. destruct lock; auto 10 with broker. Qed.
#[local] Hint Extern 1 (keeps (rests _) (refresh _ _)) => apply rests_refresh : broker.
#[local] Hint Extern 1 (keeps (rests _) (refresh_row _ _)) => apply rests_refresh_row' : broker.
Lemma rests_initial_of s hash : keeps (rests R) (initial_of s hash).
Proof.
  unfold initial_of. destruct hash; [|auto with broker]. apply keeps_bind; [apply _|auto with broker|]. intros [t|]; auto 10 with broker.
Qed.
Lemma rests_lock_principal s stored stop : keeps (rests R) (lock_principal s stored stop).
Proof.
  unfold lock_principal.
  repeat (apply keeps_bind; [apply _|auto 10 with broker|intros] || case_match); auto with broker.
  all: apply rests_here; intros c; apply locks_rests, _.
Qed.
Lemma inside_dispose s hash bound access client : keeps (inside R) (dispose s hash bound access client).
Proof.
  unfold dispose, revoke_family, revoke_proof, revoke_access.
  repeat (apply keeps_bind; [apply _|auto 10 with broker|intros] || case_match || apply rests_inside, rests_refresh
    || (apply rests_inside, keeps_outcome, rests_txn_with)); auto 10 with broker.
Qed.
End effects.
#[export] Hint Extern 1 (keeps (rests _) (access_proof _ _ _)) => apply rests_access_proof : broker.
#[export] Hint Extern 1 (keeps (rests _) (refresh _ _)) => apply rests_refresh : broker.
#[export] Hint Extern 1 (keeps (rests _) (refresh_row _ _)) => apply rests_refresh_row' : broker.
#[export] Hint Extern 1 (keeps (rests _) (initial_of _ _)) => apply rests_initial_of : broker.
#[export] Hint Extern 1 (keeps (rests _) (lock_principal _ _ _)) => apply rests_lock_principal : broker.
#[export] Hint Extern 1 (keeps (inside _) (dispose _ _ _ _ _)) => apply inside_dispose : broker.

(** ** A revocation, as one atomic step *)

(** What never changes of a token. *)
Definition same_columns (t t' : TokenRow) : Prop :=
  tk_token_id t' = tk_token_id t ∧ tk_token_kind t' = tk_token_kind t ∧ tk_subject t' = tk_subject t ∧
  tk_oidc_subject t' = tk_oidc_subject t ∧ tk_principal_json t' = tk_principal_json t ∧ tk_client_id t' = tk_client_id t ∧
  tk_audience t' = tk_audience t ∧ tk_local_user_revision t' = tk_local_user_revision t ∧ tk_family_id t' = tk_family_id t ∧
  tk_expires_at t' = tk_expires_at t ∧ tk_created_at t' = tk_created_at t.
(** A token may be revoked or deleted; it is not stored again. *)
Definition token_next (o o' : option Row) : Prop :=
  ∀ t', o' = Some (RToken t') → ∃ t, o = Some (RToken t) ∧ same_columns t t' ∧ (tk_revoked_at t ≠ None → tk_revoked_at t' ≠ None).
Definition known (db : Db) (subject : string) : Prop :=
  ∃ name u, db !! users name = Some (RUser u) ∧ us_subject u = subject.

Section revoked.
Context `{OidcLib, CredentialLib, AuthLib, JwtLib, StoredPrincipalLib} (s : PostgresOidcRevocation).
Notation cap := (ol_json_bytes (op_limits (rk_authorization s))).
Notation audience := (op_api_audience (rk_authorization s)).
(** The client cannot use the token in this row any more. *)
Definition dead (client : string) (was : Z → Prop) (o : option Row) : Prop :=
  ∀ t, o = Some (RToken t) → tk_token_kind t = "refresh" → tk_client_id t = client → tk_audience t = audience →
    tk_revoked_at t ≠ None ∨ ∃ now, was now ∧ (tk_expires_at t ≤ now)%Z.
(** [kept]: the person the token is for is not being deleted. *)
Inductive revokes (kept : TokenRow → Prop) (client : string) (was : Z → Prop) (hash : string) (db : Db) : Db → Prop :=
| RevokesNothing : dead client was (db !! tokens hash) → revokes kept client was hash db db
| RevokesFamily t now db' :
    db !! tokens hash = Some (RToken t) → tk_token_kind t = "refresh" → tk_client_id t = client → tk_audience t = audience →
    tk_revoked_at t = None → was now → (now < tk_expires_at t)%Z →
    db' !! tokens hash = Some (RToken (revoked now t)) →
    (∀ k, db' !! k = db !! k ∨
      ∃ t0, db !! k = Some (RToken t0) ∧ same_grant t t0 ∧ tk_revoked_at t0 = None ∧ db' !! k = Some (RToken (revoked now t0))) →
    (kept t → ∀ h t', db' !! tokens h = Some (RToken t') → kin t t' → same_grant t t' → tk_revoked_at t' ≠ None) →
    revokes kept client was hash db db'.

Context (R : gset Key → Db → Db → Prop) `{!Rely R, !TokenRely R, !ClockedJwt}.
Definition stays (start : Db) (t : TokenRow) : Prop :=
  (tk_local_user_revision t ≤ 0)%Z ∨
  known start (tk_subject t) ∧ ∀ ks db db', R ks db db' → known db (tk_subject t) → known db' (tk_subject t).
Definition tracked (hash : string) : Prop := ∀ ks db db', R ks db db' → token_next (db !! tokens hash) (db' !! tokens hash).

Lemma same_columns_refresh t t' limit : same_columns t t' → refresh_columns t' limit = refresh_columns t limit.
Proof.
  unfold same_columns, refresh_columns. intros (-> & _ & -> & -> & -> & -> & -> & -> & -> & -> & ->). done.
Qed.
Lemma dead_next client was o o' : token_next o o' → dead client was o → dead client was o'.
Proof.
  intros Hn Hd t' Ht'. destruct (Hn _ Ht') as (t & -> & (_ & Hk & _ & _ & _ & Hc & Ha & _ & _ & He & _) & Hr).
  intros K1 K2 K3. destruct (Hd t eq_refl) as [?|(now & Hw & ?)]; [congruence..|by left; apply Hr|]. right. exists now. split; [done|lia].
Qed.
Lemma dead_inside c c' hash client was :
  inside R c c' → fair R c → tracked hash → dead client was (cn_db c !! tokens hash) → dead client was (cn_db c' !! tokens hash).
Proof. intros Hi Hf Ht. by eapply dead_next, Ht, (in_env _ _ _ Hi). Qed.
Lemma fair_inside c c' : inside R c c' → fair R c → fair R c'.
Proof. intros Hi. apply fair_suffix, (in_turns _ _ _ Hi). Qed.
(** The row read, locked or not. *)
Lemma refresh_row_ok hash lock c o c' :
  refresh_row hash lock c = (Ok o, c') → cn_writes c = ∅ →
  match o with
  | Some t => cn_db c' !! tokens hash = Some (RToken t) ∧ tk_token_kind t = "refresh" ∧ (lock = true → tokens hash ∈ cn_locks c')
  | None => ∀ t, cn_db c' !! tokens hash = Some (RToken t) → tk_token_kind t ≠ "refresh"
  end.
Proof.
  intros Hr Hw. pose proof (rests_refresh_row' R _ _ _ _ _ Hr) as I. apply (clean_rests R _ _ I) in Hw as Hw'.
  unfold refresh_row in Hr. apply bind_ok in Hr as (row & c1 & Hs & Hr). apply ret_ok in Hr as [-> ->].
  assert (row = head (map_to_list (rows (token_at hash (λ t, str_eqb (tk_token_kind t) "refresh")) (view c1))) ∧
          (lock = true → ∀ k v, row = Some (k, v) → k ∈ cn_locks c1)) as [-> Hlock].
  { destruct lock; apply bind_ok in Hs as (? & c2 & _ & [= <- <-]); [|done].
    destruct (head _) as [[k v]|] eqn:Eh; [|by rewrite Eh]. split; [done|]. intros _ k' v' [= <- <-]. simpl. set_solver. }
  rewrite view_clean in * by done.
  unfold token_at in *. rewrite rows_at_key in *.
  destruct (cn_db c1 !! tokens hash) as [[| | | |t| | | |]|] eqn:E; rewrite ?map_to_list_empty; try done.
  destruct (str_eqb (tk_token_kind t) "refresh") eqn:Ek; rewrite ?map_to_list_empty.
  - rewrite map_to_list_singleton in *. simpl. apply str_eqb_eq in Ek. split; [done|]. split; [done|]. intros Hl. by eapply Hlock.
  - intros t' [= <-]. by apply str_eqb_neq.
Qed.
Lemma refresh_ok t limit c stored o c' :
  refresh t limit c = (Ok (stored, o), c') → refresh_columns t limit = Ok stored ∧ o = tk_revoked_at t.
Proof.
  unfold refresh. intros Hr. apply bind_ok in Hr as (st & c1 & Hl & Hr). apply lift_ok in Hl as [Hl ->].
  destruct (negb _); [done|]. apply bind_ok in Hr as (now & c2 & _ & Hr). destruct (_ || _); [done|].
  by apply ret_ok in Hr as [[= -> ->] _].
Qed.
Lemma refresh_columns_ok t limit stored :
  refresh_columns t limit = Ok stored →
  rf_subject stored = tk_subject t ∧ rf_client_id stored = tk_client_id t ∧ rf_audience stored = tk_audience t ∧
  rf_family stored = tk_family_id t ∧ rf_revision stored = tk_local_user_revision t ∧ rf_expires_at stored = tk_expires_at t.
Proof.
  unfold refresh_columns, bound_column. intros Hd. invert_ok Hd. injection Hd as <-. simpl.
  repeat match goal with Hb : (if _ then Err _ else Ok _) = Ok _ |- _ => destruct (_ <? _)%Z in Hb; [done|injection Hb as <-] end. done.
Qed.
Lemma parse_principal_revision raw f :
  parse_principal raw = Some f →
  if str_eqb (pf_issuer f) "local" then (0 < pf_local_user_revision f)%Z else (pf_local_user_revision f = 0)%Z.
Proof.
  unfold parse_principal. intros Hp. apply bind_Some in Hp as (f' & _ & Hp). destruct (_ || _) eqn:E; [done|]. injection Hp as ->.
  bool_to_prop. destruct (str_eqb (pf_issuer f) "local"); simpl in *; bool_to_prop; lia.
Qed.
(** What keeps the token's family from then on, unless its person is gone. *)
Lemma lock_principal_ok stored stop c c' t :
  lock_principal s stored stop c = (Ok tt, c') → cn_writes c = ∅ → refresh_columns t cap = Ok stored →
  kept_family c' t ∨ (0 < tk_local_user_revision t)%Z ∧ ∃ c0, rests R c c0 ∧ rests R c0 c' ∧ ¬ known (cn_db c0) (tk_subject t).
Proof.
  intros Hr Hw Hcol. pose proof (rests_lock_principal R _ _ _ _ _ _ Hr) as I. unfold lock_principal in Hr.
  destruct (refresh_columns_ok _ _ _ Hcol) as (Ksub & _ & _ & Kfam & Krev & _).
  apply bind_ok in Hr as (p & c1 & Hp & Hr). apply lift_ok in Hp as [Hp ->]. apply ok_or_ok, parse_principal_revision in Hp.
  destruct (_ || _) eqn:E1; [done|]. apply bind_ok in Hr as (subj & c2 & Hs & Hr). apply lift_ok in Hs as [_ ->].
  destruct (negb (str_eqb _ subj)); [done|]. apply bind_ok in Hr as ([] & c3 & Hl & Hr). bool_to_prop.
  assert (rests R c c3) as I3 by (eapply keeps_map_err; [apply rests_lock_pair_shared, _|exact Hl]).
  destruct (str_eqb (pf_issuer p) "local").
  - apply bind_ok in Hr as (row & c4 & Hs & Hr). destruct row as [[k v]|].
    + left. apply (select_where_locked_ok R) in Hs as (I4 & Hv & Hpk & Hk). injection Hr as <-.
      rewrite view_clean in Hv by (eapply (clean_rests R _ _ I4), clean_rests; [exact I3|done]).
      unfold user_where in Hpk. destruct v as [u| | | | | | | |]; try done. apply andb_true_iff in Hpk as [Hk1%str_eqb_eq Hu%str_eqb_eq].
      destruct k as [tab name]. simpl in Hk1. subst tab. left. split; [lia|]. exists name, u. simpl. split; [set_solver|].
      split; [|congruence]. split; [simpl; set_solver|exact Hv].
    + right. split; [lia|]. apply ret_ok in Hr as [_ ->]. exists c4. split; [done|]. split; [done|].
      intros (name & u & Hu & Hsu). apply bind_ok in Hs as (? & c5 & Ha & [= Hh <-]). rewrite Hh in Hu. cbn in Hu.
      assert (rests R c c5) as I5 by (etrans; [exact I3|by eapply rests_await; [apply _|]]).
      rewrite view_clean in Hh by (eapply clean_rests; [exact I5|done]).
      assert (rows (user_where (rf_subject stored)) (cn_db c5) !! users name = Some (RUser u)) as Hin.
      { apply map_lookup_filter_Some. split; [done|]. unfold user_where. simpl.
        rewrite Ksub, Hsu. by apply str_eqb_eq. }
      apply elem_of_map_to_list in Hin. destruct (map_to_list _) as [|row l] eqn:El; [by apply elem_of_nil in Hin|done].
  - left. right. split; [lia|]. unfold advisory_lock in Hr. apply bind_ok in Hr as (? & c4 & _ & [= <-]). rewrite <- Kfam. simpl. set_solver.
Qed.
(** A family revoked, before its commit: what the token was, and what is written. *)
Definition family_writes (c c' : Tx) (hash : string) (t : TokenRow) (now : Z) : Prop :=
  rests R c c' ∧ held c' (tokens hash) (Some (RToken t)) ∧ tk_token_kind t = "refresh" ∧ tk_audience t = audience ∧
  tk_revoked_at t = None ∧ read_at c now ∧ (now < tk_expires_at t)%Z.
Lemma revoke_family_ok hash initial client t0 c0 c c' :
  revoke_family s hash initial client c = (Ok tt, c') → cn_writes c = ∅ → fair R c0 → inside R c0 c → tracked hash →
  cn_db c0 !! tokens hash = Some (RToken t0) → refresh_columns t0 cap = Ok initial →
  (rests R c c' ∧ dead client (read_at c) (cn_db c' !! tokens hash)) ∨
  ∃ c1 t now, family_writes c c1 hash t now ∧ refresh_columns t cap = Ok initial ∧
    c' = with_writes c1 ((λ v, Some (set_token (revoked now) v)) <$> rows (family_where (tk_family_id t) (of_client s client)) (view c1)).
Proof.
  intros Hr Hw Hfair Hi0 Htr Ht0 Hcol0. unfold revoke_family in Hr. apply bind_ok in Hr as (row & c1 & Hrow & Hr).
  pose proof (rests_refresh_row' R _ _ _ _ _ Hrow) as I1. apply refresh_row_ok in Hrow; [|done]. destruct row as [t|].
  2:{ apply ret_ok in Hr as [_ ->]. left. split; [done|]. intros t Ht Hk. by destruct (Hrow t Ht). }
  destruct Hrow as (Ht & Hkind & Hlk). apply bind_ok in Hr as ([stored o] & c2 & Hd & Hr).
  pose proof (rests_refresh R _ _ _ _ _ Hd) as I2. apply refresh_ok in Hd as [Hcol ->].
  apply bind_ok in Hr as (now & c3 & Hn & Hr). assert (rests R c2 c3) as I3 by (revert Hn; apply rests_txn_with; [apply _|auto with broker]).
  assert (rests R c c3) as I03 by (etrans; [exact I1|by etrans]). destruct (now <? rf_created_at stored)%Z; [done|].
  assert (read_at c now) as Hread.
  { assert (rests R c c2) as I02 by (etrans; [exact I1|exact I2]). exact (read_at_now R _ _ _ _ Hn (re_inside _ _ _ I02)). }
  assert (held c3 (tokens hash) (Some (RToken t))) as Hheld.
  { eapply held_inside; [apply re_inside; etrans; [exact I2|exact I3]|]. split; [by apply Hlk|done]. }
  assert (refresh_columns t cap = refresh_columns t0 cap) as Heq.
  { assert (inside R c0 c1) as Hi01 by (etrans; [exact Hi0|exact (re_inside _ _ _ I1)]).
    destruct (Htr _ _ _ (in_env _ _ _ Hi01 Hfair) _ Ht) as (ta & Ha & Hs & _). rewrite Ht0 in Ha.
    injection Ha as ->. by apply same_columns_refresh. }
  destruct (refresh_columns_ok _ _ _ Hcol) as (_ & Kcl & Kaud & Kfam & _ & Kexp).
  rewrite bool_decide_true in Hr by congruence. destruct (_ && _) eqn:E.
  - bool_to_prop. right. apply bind_ok in Hr as (n & c4 & Hu & Hr). destruct (n =? 0); [done|]. apply ret_ok in Hr as [_ ->].
    apply (update_where_ok R) in Hu as (c5 & I5 & _ & ->). exists c5, t, now. rewrite <- Kfam.
    split; [|split; [congruence|done]]. split; [by etrans|]. split; [by eapply held_inside; [exact (re_inside _ _ _ I5)|]|].
    repeat match goal with Hs : str_eqb _ _ = true |- _ => apply str_eqb_eq in Hs end. split; [done|]. split; [congruence|].
    split; [done|]. split; [done|lia].
  - apply ret_ok in Hr as [_ ->]. left. split; [done|]. destruct Hheld as [_ ->]. intros t' [= <-] _ _ Haud. rewrite Kaud in E.
    rewrite (proj2 (str_eqb_eq _ _) Haud) in E. simpl in E. apply andb_false_iff in E as [E|E].
    + right. exists now. split; [done|]. apply Z.ltb_ge in E. by rewrite <- Kexp.
    + left. by case_bool_decide.
Qed.
(** The token as first read, at a moment [c0]. *)
Lemma initial_of_ok hash c o c' :
  initial_of s (Some hash) c = (Ok o, c') → cn_writes c = ∅ →
  ∃ c0, rests R c c0 ∧ rests R c0 c' ∧
    match o with
    | Some stored => ∃ t, cn_db c0 !! tokens hash = Some (RToken t) ∧ refresh_columns t cap = Ok stored
    | None => ∀ t, cn_db c0 !! tokens hash = Some (RToken t) → tk_token_kind t ≠ "refresh"
    end.
Proof.
  intros Hr Hw. unfold initial_of in Hr. apply bind_ok in Hr as (row & c1 & Hrow & Hr).
  pose proof (rests_refresh_row' R _ _ _ _ _ Hrow) as I1. apply refresh_row_ok in Hrow; [|done]. exists c1. split; [done|].
  destruct row as [t|]; [|by apply ret_ok in Hr as [-> ->]].
  destruct Hrow as (Ht & Hkind & _). apply bind_ok in Hr as ([stored w] & c2 & Hd & Hr).
  pose proof (rests_refresh R _ _ _ _ _ Hd) as I2. apply refresh_ok in Hd as [Hcol _]. apply ret_ok in Hr as [-> ->]. eauto.
Qed.
(** The end of a revocation. *)
Lemma revoke_commit stop c x c' :
  (do? guard_original stop in do? sql_commit in guard_original stop) c = (x, c') →
  (∃ e, x = Err e ∧ inside R c c') ∨
  ∃ c1, rests R c c1 ∧ cn_db c' = view c1 ∧ (x = Ok tt ∨ ∃ e, x = Err e ∧ late_exchange e).
Proof.
  intros Hr. apply (bind_rests R) in Hr as [(u & c1 & _ & I1 & Hr)|(e & -> & Hin)]; [|by left; eauto|auto with broker].
  apply (commit_tail R) in Hr as [[[e ->] Hi]|(c2 & I2 & Hdb & Hx)]; [| |auto with broker].
  - left. exists e. split; [done|]. etrans; [exact (re_inside _ _ _ I1)|done].
  - right. exists c2. split; [by etrans|]. split; [done|]. destruct Hx as [(c3 & c4 & Hr)| ->]; [|right; eexists; split; [done|]; right; by eexists].
    destruct x as [[]|e]; [by left|right]. exists e. split; [done|]. by eapply late_ex_clock.
Qed.
Lemma kept_stays start c c' t :
  R ∅ start (cn_db c) → stays start t →
  (kept_family c' t ∨ (0 < tk_local_user_revision t)%Z ∧ ∃ c0, rests R c c0 ∧ rests R c0 c' ∧ ¬ known (cn_db c0) (tk_subject t)) →
  fair R c → kept_family c' t.
Proof.
  intros Hstart Hst [?|[Hpos (c0 & I0 & _ & Hno)]] Hf; [done|]. destruct Hst as [?|[Hk Hpres]]; [lia|]. destruct Hno.
  eapply Hpres; [exact (in_env _ _ _ (re_inside _ _ _ I0) Hf)|]. by eapply Hpres.
Qed.
Lemma of_client_grant client t t' : of_client s client t = true → (same_grant t t' ↔ tk_family_id t' = tk_family_id t ∧ of_client s client t' = true).
Proof.
  unfold of_client, same_grant. intros [Hc%str_eqb_eq Ha%str_eqb_eq]%andb_true_iff. rewrite andb_true_iff, !str_eqb_eq, Hc, Ha. tauto.
Qed.
Lemma family_commit client hash t now c c1 c2 start :
  family_writes c c1 hash t now → tk_client_id t = client → fair R c1 → cn_writes c1 = ∅ →
  rests R (with_writes c1 ((λ v, Some (set_token (revoked now) v)) <$> rows (family_where (tk_family_id t) (of_client s client)) (view c1))) c2 →
  (stays start t → kept_family c1 t) →
  revokes (stays start) client (read_at c) hash (cn_db c2) (view c2).
Proof.
  intros (I1 & Hheld & Hkind & Haud & Hrev & Hread & Hexp) Hcl Hfair Hw [Hi2 Hw2] Hkept.
  assert (of_client s client t = true) as Hof by (unfold of_client; rewrite Hcl, Haud; by rewrite !(proj2 (str_eqb_eq _ _) eq_refl)).
  destruct (family_revoked R _ _ _ _ _ Hi2 Hw2 Hw Hfair) as [Hall Hkin].
  assert (held c2 (tokens hash) (Some (RToken t))) as [_ Ht2].
  { eapply held_inside; [exact Hi2|]. eapply held_inside; [apply (writes_inside R)|exact Hheld]. }
  apply (RevokesFamily _ _ _ _ _ t now); try done.
  - assert (view c2 !! tokens hash = (apply_writes (cn_writes c2) (cn_db c2)) !! tokens hash) as -> by done.
    rewrite Hw2, lookup_apply. simpl. rewrite Hw, map_union_empty, lookup_fmap.
    assert (rows (family_where (tk_family_id t) (of_client s client)) (view c1) !! tokens hash = Some (RToken t)) as ->; [|done].
    destruct Hheld as [_ Ht1]. rewrite view_clean by done. apply map_lookup_filter_Some. split; [done|]. simpl.
    by rewrite Hof, Hrev, (proj2 (str_eqb_eq _ _) eq_refl).
  - intros k. destruct (Hall k) as [?|(t0 & ? & ? & ? & ? & ?)]; [by left|right]. exists t0.
    split; [done|]. split; [by apply (of_client_grant client)|done].
  - intros Hst h t' Ht' Hk Hsg. apply (of_client_grant client) in Hsg as [_ Hq]; [|done].
    eapply Hkin; try done; [|by apply Hkept]. intros t1 t2 (Hf' & Hc' & Ha'). unfold of_client. by rewrite Hc', Ha'.
Qed.
Lemma dead_was client (was was' : Z → Prop) o : (∀ now, was now → was' now) → dead client was o → dead client was' o.
Proof. intros Hw Hd t Ht K1 K2 K3. destruct (Hd t Ht K1 K2 K3) as [?|(now & ? & ?)]; [by left|right; eauto]. Qed.
Lemma revokes_was kept client (was was' : Z → Prop) hash db db' :
  (∀ now, was now → was' now) → revokes kept client was hash db db' → revokes kept client was' hash db db'.
Proof.
  intros Hw [Hd|]; [apply RevokesNothing; by eapply dead_was|]. econstructor; eauto.
Qed.
(** From the locks to the end. *)
Lemma dispose_ok hash initial client c0 c x c' stop t0 start :
  (do? dispose s (Some hash) (Some initial) None client in
   do? guard_original stop in do? sql_commit in guard_original stop) c = (x, c') →
  cn_writes c = ∅ → fair R c0 → inside R c0 c → tracked hash →
  cn_db c0 !! tokens hash = Some (RToken t0) → refresh_columns t0 cap = Ok initial → rf_client_id initial = client →
  (∀ t, refresh_columns t cap = Ok initial → stays start t → kept_family c t) →
  (∃ e, x = Err e ∧ inside R c c') ∨
  ∃ c2, inside R c c2 ∧ cn_db c' = view c2 ∧ revokes (stays start) client (read_at c) hash (cn_db c2) (view c2) ∧
    (x = Ok tt ∨ ∃ e, x = Err e ∧ late_exchange e).
Proof.
  intros Hr Hw Hf0 Hi0 Htr Ht0 Hcol0 Hcl Hkept. pose proof (fair_inside _ _ Hi0 Hf0) as Hfc.
  apply (bind_inside R) in Hr as [([] & c3 & Hd & Hi3 & Hr)|(e & -> & Hi)]; [|left; eauto|auto with broker].
  apply revoke_commit in Hr as [(e & -> & Hi)|(c4 & I4 & Hdb & Hx)]; [left; exists e; split; [done|by etrans]|].
  right. exists c4. assert (inside R c c4) as Hi4 by (etrans; [exact Hi3|exact (re_inside _ _ _ I4)]).
  split; [done|]. split; [done|]. split; [|done]. cbn [dispose] in Hd. apply bind_ok in Hd as (h & c5 & Hl & Hd).
  apply lift_ok in Hl as [[= ->] ->].
  eapply (revoke_family_ok _ _ _ t0 c0) in Hd as [[I3 Hdead]|(c6 & t & now & Hfw & Hcol & ->)]; try done.
  - rewrite view_clean by (eapply clean_rests; [exact I4|by eapply clean_rests]). apply RevokesNothing.
    eapply dead_inside; [exact (re_inside _ _ _ I4)|by eapply fair_inside|done|done].
  - destruct (refresh_columns_ok _ _ _ Hcol) as (_ & Kcl & _). pose proof Hfw as (I6 & _).
    eapply family_commit; [done|congruence|eapply fair_inside; [exact (re_inside _ _ _ I6)|done]|by eapply clean_rests|exact I4|].
    intros Hstays. eapply kept_family_inside; [exact (re_inside _ _ _ I6)|]. by apply Hkept.
Qed.
Lemma nonempty_some o raw : o ≫= nonempty = Some raw → o = Some raw.
Proof. destruct o as [v|]; [|done]. simpl. unfold nonempty. destruct (is_empty v); [done|]. by intros [= ->]. Qed.
Lemma revoke_atomic i original raw hash client c x c' :
  revoke s i original c = (x, c') → idle c → fair R c → rv_token i = Some raw → refresh_hash s raw = Ok (Some hash) →
  rv_client_id i = Some client → tracked hash →
  atomically R late_exchange c x c' (λ db r db', r = Ok tt ∧ revokes (stays (cn_db c)) client (read_at c) hash db db').
Proof.
  intros Hr Hidle Hfair Hraw Hhash Hcl Htr. pose proof Hidle as [Hw Hlocks].
  match goal with |- ?G => assert (∀ e, x = Err e → inside R c c' → G) as Hno by (intros; by eapply (atomically_nothing R)) end.
  unfold revoke in Hr. assert (rests R c c) as I by reflexivity. read_step Hr I stop c1 Hm1. guard_step Hr I G1.
  read_step Hr I bts c2 Hm2. guard_step Hr I G2. read_step Hr I rw c3 Hm3. apply lift_ok in Hm3 as [Hm3%ok_or_ok%nonempty_some _].
  read_step Hr I cid c4 Hm4. apply lift_ok in Hm4 as [Hm4%ok_or_ok%nonempty_some _].
  assert (rw = raw) as -> by congruence. assert (cid = client) as -> by congruence. guard_step Hr I G3.
  read_step Hr I oh c5 Hm5. apply lift_ok in Hm5 as [Hm5 _]. assert (oh = Some hash) as -> by congruence.
  read_step Hr I acc c6 Hm6. apply ret_ok in Hm6 as [-> ->]. read_step Hr I w7 c7 Hm7. read_step Hr I w8 c8 Hm8.
  pose proof (clean_rests R _ _ I Hw) as Hw8.
  pose proof (fair_inside _ _ (re_inside _ _ _ I) Hfair) as Hf8. read_step Hr I initial c9 Hini.
  apply initial_of_ok in Hini as (c0 & I0 & I09 & Hini); [|done]. pose proof (fair_inside _ _ (re_inside _ _ _ I0) Hf8) as Hf0.
  destruct (initial ≫= _) as [stored|] eqn:Eb.
  - assert (initial = Some stored ∧ rf_client_id stored = client) as [-> Kcl].
    { destruct initial as [st|]; [|done]. simpl in Eb. destruct (str_eqb _ _) eqn:Ec; [|done]. apply str_eqb_eq in Ec. by injection Eb as ->. }
    destruct Hini as (t0 & Ht0 & Hcol0). pose proof (clean_rests R _ _ I Hw) as Hw9. assert (fair R c9) as Hf9
      by (eapply fair_inside; [exact (re_inside _ _ _ I)|done]).
    assert (R ∅ (cn_db c) (cn_db c9)) as Henv by (rewrite <- Hlocks; exact (in_env _ _ _ (re_inside _ _ _ I) Hfair)).
    read_step Hr I w10 c10 Hlock. destruct w10.
    read_step Hr I w11 c11 Hm11. read_step Hr I w12 c12 Hm12.
    assert (inside R c10 c12) as Hi10 by (eapply re_inside; etrans; eassumption).
    pose proof (re_inside _ _ _ I) as Hi.
    eapply (dispose_ok _ _ _ c0 _ _ _ _ t0 (cn_db c)) in Hr as [(e & He & Hi')|(c13 & Hi13 & Hdb & Hrev & Hx)]; try done.
    + eapply Hno; [exact He|by etrans].
    + eapply (atomically_step R); [done|done|by etrans|exact Hdb| |exact Hx]. split; [done|].
      eapply revokes_was; [|exact Hrev]. intros now. by apply (read_at_inside R).
    + by eapply clean_rests.
    + eapply re_inside. etrans; [exact I09|]. do 2 (etrans; [eassumption|]). eassumption.
    + intros t Hcol Hst. eapply kept_family_inside; [exact Hi10|]. eapply kept_stays; [exact Henv|exact Hst| |exact Hf9].
      by eapply lock_principal_ok.
  - assert (dead client (read_at c) (cn_db c0 !! tokens hash)) as Hdead.
    { intros t Ht Hk Hc _. destruct initial as [st|]; [|by destruct (Hini t Ht)]. destruct Hini as (t0 & Ht0 & Hcol).
      rewrite Ht0 in Ht. injection Ht as ->. destruct (refresh_columns_ok _ _ _ Hcol) as (_ & Kcl & _). simpl in Eb.
      by rewrite Kcl, Hc, (proj2 (str_eqb_eq _ _) eq_refl) in Eb. }
    read_step Hr I w10 c10 Hlock. read_step Hr I w11 c11 Hm11. read_step Hr I w12 c12 Hm12.
    change ((do? guard_original stop in do? sql_commit in guard_original stop) c12 = (x, c')) in Hr.
    apply revoke_commit in Hr as [(e & He & Hi)|(c13 & I13 & Hdb & Hx)]; [eapply Hno; [exact He|]; etrans; [exact (re_inside _ _ _ I)|done]|].
    assert (rests R c c13) as I013 by (by etrans).
    eapply (atomically_step R); [done|done|exact (re_inside _ _ _ I013)|exact Hdb| |exact Hx]. split; [done|].
    rewrite view_clean by (by eapply clean_rests). apply RevokesNothing. eapply dead_inside; [|exact Hf0|done|exact Hdead].
    eapply re_inside. etrans; [exact I09|]. do 3 (etrans; [eassumption|]). exact I13.
Qed.

(** ** Any revocation only revokes *)

Definition only_revokes (db db' : Db) : Prop :=
  ∀ k, db' !! k = db !! k ∨
    ∃ t now, db !! k = Some (RToken t) ∧ tk_revoked_at t = None ∧ db' !! k = Some (RToken (revoked now t)).
Definition revoking (p : Key → Row → bool) : Prop := ∀ k r, p k r = true → ∃ t, r = RToken t ∧ tk_revoked_at t = None.
Definition revoking_writes (c c' : Tx) : Prop :=
  ∃ c1 p now, rests R c c1 ∧ revoking p ∧ c' = with_writes c1 ((λ v, Some (set_token (revoked now) v)) <$> rows p (view c1)).
Lemma revoke_family_writes hash initial client c c' :
  revoke_family s hash initial client c = (Ok tt, c') → rests R c c' ∨ revoking_writes c c'.
Proof.
  unfold revoke_family. intros Hr. assert (rests R c c) as I by reflexivity.
  apply bind_ok in Hr as (row & c1 & Hm & Hr). apply rests_refresh_row' with (R := R) in Hm as I1; [|apply _].
  destruct row as [t|]; [|apply ret_ok in Hr as [_ ->]; by left].
  apply bind_ok in Hr as ([stored o] & c2 & Hd & Hr). apply rests_refresh with (R := R) in Hd as I2; [|apply _].
  apply bind_ok in Hr as (now & c3 & Hn & Hr). apply rests_txn_with with (R := R) in Hn as I3; [|apply _|auto with broker].
  assert (rests R c c3) as I03 by (etrans; [exact I1|by etrans]). destruct (_ <? _)%Z; [done|].
  destruct (_ && _); [|apply ret_ok in Hr as [_ ->]; by left]. apply bind_ok in Hr as (n & c4 & Hu & Hr). destruct (n =? 0); [done|].
  apply ret_ok in Hr as [_ ->]. apply (update_where_ok R) in Hu as (c5 & I5 & _ & ->). right.
  exists c5, (family_where (rf_family stored) (of_client s client)), now. split; [by etrans|]. split; [|done].
  intros k r (h & t' & _ & -> & _ & _ & ?)%family_row. eauto.
Qed.
Lemma revoke_access_writes proof c c' : revoke_access s proof c = (Ok tt, c') → rests R c c' ∨ revoking_writes c c'.
Proof.
  unfold revoke_access. intros Hr. destruct (negb _); [apply ret_ok in Hr as [_ ->]; by left|].
  destruct (proof_expiry proof) as [expiry|]; [|apply ret_ok in Hr as [_ ->]; by left].
  apply bind_ok in Hr as (hash & c1 & Hl & Hr). apply lift_ok in Hl as [_ ->].
  apply bind_ok in Hr as (now & c2 & Hn & Hr). apply rests_txn_with with (R := R) in Hn as I2; [|apply _|auto with broker].
  apply bind_ok in Hr as (n & c3 & Hu & Hr). apply ret_ok in Hr as [_ ->]. apply (update_where_ok R) in Hu as (c4 & I4 & _ & ->). right.
  exists c4. eexists _, now. split; [by etrans|]. split; [|done]. intros k r Hp. unfold token_at, at_key in Hp.
  apply andb_true_iff in Hp as [_ Hq]. destruct r as [| | | |t| | | |]; try done. exists t. split; [done|]. unfold access_where in Hq. by bool_to_prop.
Qed.
Lemma dispose_writes hash bound access client c c' :
  dispose s hash bound access client c = (Ok tt, c') → rests R c c' ∨ revoking_writes c c'.
Proof.
  unfold dispose. intros Hr. destruct bound as [initial|].
  - apply bind_ok in Hr as (h & c1 & Hl & Hr). apply lift_ok in Hl as [_ ->]. by eapply revoke_family_writes.
  - destruct access as [proof|]; [|apply ret_ok in Hr as [_ ->]; by left].
    destruct (str_eqb _ _); [|apply ret_ok in Hr as [_ ->]; by left]. apply bind_ok in Hr as (v & c1 & Hv & Hr).
    assert (rests R c c1) as I1 by (revert Hv; apply keeps_outcome, rests_txn_with; [apply _|apply keeps_vb_check]).
    destruct v as [|[]]; try (apply ret_ok in Hr as [_ ->]; by left); [|done].
    apply revoke_access_writes in Hr as [?|(c2 & p & now & I2 & Hp & ->)]; [left; by etrans|right].
    exists c2, p, now. split; [by etrans|done].
Qed.
Lemma revoking_view c c1 c2 : revoking_writes c c1 → cn_writes c = ∅ → rests R c1 c2 → only_revokes (cn_db c2) (view c2).
Proof.
  intros (c3 & p & now & I3 & Hp & ->) Hw [Hi2 Hw2] k. pose proof (clean_rests R _ _ I3 Hw) as Hw3.
  assert (view c2 !! k = default (cn_db c2 !! k) ((λ v, Some (set_token (revoked now) v)) <$> rows p (cn_db c3) !! k)) as ->.
  { change (view c2) with (apply_writes (cn_writes c2) (cn_db c2)). rewrite Hw2, lookup_apply. simpl.
    rewrite Hw3, map_union_empty, lookup_fmap, view_clean by done. by destruct (_ <$> _). }
  destruct (rows p (cn_db c3) !! k) as [r|] eqn:Er; simpl; [|by left]. right. pose proof Er as Er'.
  apply map_lookup_filter_Some in Er as [Hr0 (t & Heq & Hn)%Hp]. simpl in Heq. subst r.
  exists t, now. split; [|done]. rewrite (in_held _ _ _ Hi2); [done|]. simpl. rewrite dom_fmap, view_clean by done.
  apply elem_of_union_l, elem_of_dom. eauto.
Qed.
Lemma revoke_only i original c x c' :
  revoke s i original c = (x, c') → idle c → fair R c →
  atomically R late_exchange c x c' (λ db r db', r = Ok tt ∧ only_revokes db db').
Proof.
  intros Hr Hidle Hfair. pose proof Hidle as [Hw _].
  match goal with |- ?G => assert (∀ e, x = Err e → inside R c c' → G) as Hno by (intros; by eapply (atomically_nothing R)) end.
  unfold revoke in Hr. assert (rests R c c) as I by reflexivity. read_step Hr I stop c1 Hm1. guard_step Hr I G1.
  read_step Hr I bts c2 Hm2. guard_step Hr I G2. read_step Hr I raw c3 Hm3. read_step Hr I cid c4 Hm4. guard_step Hr I G3.
  read_step Hr I oh c5 Hm5.
  assert (∀ w, keeps (rests R) (match oh with None => access_proof s w stop | Some _ => ret None end)) as Hacc
    by (intros w; destruct oh; auto with broker).
  read_step Hr I acc c6 Hm6. read_step Hr I w7 c7 Hm7. read_step Hr I w8 c8 Hm8. read_step Hr I initial c9 Hini.
  set (bound := initial ≫= _) in Hr.
  assert (keeps (rests R) (match bound with Some stored => lock_principal s stored stop | None => ret tt end)) as Hlk
    by (destruct bound; auto with broker).
  read_step Hr I w10 c10 Hlock. read_step Hr I w11 c11 Hm11. read_step Hr I w12 c12 Hm12. pose proof (re_inside _ _ _ I) as Hi12.
  apply (bind_inside R) in Hr as [([] & c13 & Hd & Hi13 & Hr)|(e & He & Hi)]; [|eapply Hno; [exact He|by etrans]|auto with broker].
  apply revoke_commit in Hr as [(e & He & Hi)|(c14 & I14 & Hdb & Hx)]; [eapply Hno; [exact He|]; etrans; [exact Hi12|by etrans]|].
  eapply (atomically_step R); [done|done| |exact Hdb| |exact Hx].
  - etrans; [exact Hi12|]. etrans; [exact Hi13|exact (re_inside _ _ _ I14)].
  - split; [done|]. apply dispose_writes in Hd as [I13|Hws].
    + intros k. left. rewrite view_clean; [done|]. eapply clean_rests; [exact I14|]. eapply clean_rests; [exact I13|by eapply clean_rests].
    + eapply revoking_view; [exact Hws|by eapply clean_rests|done].
Qed.
End revoked.

Section claim.
Context `{OidcLib, CredentialLib, AuthLib, JwtLib, StoredPrincipalLib, !ClockedJwt} (s : PostgresOidcRevocation).
(** C16. The revocation of a refresh token is one atomic step.  As long as the
    other transactions keep the rules of [TokenRely], and as long as none stores the same token
    again, either an error is reported and nothing is changed, or at one moment
    the token is found unusable by this client (gone, revoked, or expired at some
    time read on the way), or it and every unrevoked token of its family, client
    and audience that is there is revoked; and there is none left of its family,
    unless the person it was for is being deleted. *)
Theorem revoke_refines (R : gset Key → Db → Db → Prop) `{!Rely R, !TokenRely R} i original raw hash client (c : Tx) x c' :
  revoke s i original c = (x, c') → idle c → fair R c → rv_token i = Some raw → refresh_hash s raw = Ok (Some hash) →
  rv_client_id i = Some client → tracked R hash →
  ∃ db, R ∅ (cn_db c) db ∧
    ((∃ e, x = Err e) ∧ cn_db c' = db ∨
     ∃ r, (r = Ok tt ∧ revokes s (stays R (cn_db c)) client (read_at c) hash db (cn_db c')) ∧
       (x = r ∨ ∃ e, x = Err e ∧ late_exchange e)).
Proof. apply revoke_atomic; apply _. Qed.
End claim.
