(* ===== verification/OidcRequests.v ===== *)
(** * Authorization requests in the database

    crates/broker-control/src/service/oidc_authorization.rs and
    oidc_authorization/: a request is stored as pending and shown to a person,
    and a login, local or with an upstream issuer, completes it, which sets the
    hash of its authorization code.  [serde_json] and URLs are parameters. *)

From stdpp Require Import gmap.
From S2P Require Import Session.
From S2P Require Import Prelude RustStr Order Control BrokerAccess AccessIssuer Sql OidcTables.
From S2P Require Import StorageAdmission Credentials Device OidcPolicy OidcRefresh.

(** ** Values *)

Record OidcAuthorizationRequestInfo := { qi_fields : PendingFields; qi_created_at : Z; qi_expires_at : Z }.
Record PendingOidcAuthorization := { pq_request : string; pq_info : OidcAuthorizationRequestInfo }.
Inductive OidcAuthorizationRejectionCode :=
| RejectInvalidRequest | RejectInvalidScope | RejectLoginRequired | RejectInvalidTarget.
Definition rejection_as_str (c : OidcAuthorizationRejectionCode) : string :=
  match c with
  | RejectInvalidRequest => "invalid_request"
  | RejectInvalidScope => "invalid_scope"
  | RejectLoginRequired => "login_required"
  | RejectInvalidTarget => "invalid_target"
  end.
Definition rejection_from_error (e : OidcAuthorizationError) : result OidcAuthorizationError OidcAuthorizationRejectionCode :=
  match e with
  | OA_InvalidRequest => Ok RejectInvalidRequest
  | OA_InvalidScope => Ok RejectInvalidScope
  | OA_LoginRequired => Ok RejectLoginRequired
  | OA_InvalidTarget => Ok RejectInvalidTarget
  | other => Err other
  end.
(** Times are nanoseconds, of the wall clock and of the monotonic one. *)
Record PendingExpiry := { pe_utc : Z; pe_monotonic : Z }.
Record OidcAuthorizationResponseTarget := {
  rt_redirect : string;
  rt_state : string;
  rt_mode : OidcAuthorizationResponseMode;
  rt_origin : string;
  rt_original : Z;
  rt_pending_expiry : option PendingExpiry;
}.
Record RejectedOidcAuthorization := { ra_code : OidcAuthorizationRejectionCode; ra_target : OidcAuthorizationResponseTarget }.
Inductive BrowserOidcAuthorization :=
| BrowserPending (p : PendingOidcAuthorization)
| BrowserRejected (r : RejectedOidcAuthorization).
Record PreparedOidcLogin := { po_login : CompletedLocalLogin }.
Inductive OidcLoginPreparationError :=
| InvalidPurpose (login : CompletedLocalLogin)
| RecoveryCodesPending (login : CompletedLocalLogin).
Definition prepare_login (login : CompletedLocalLogin) : result OidcLoginPreparationError PreparedOidcLogin :=
  if negb (LocalAuthPurpose_u8 (cll_purpose login) =? LocalAuthPurpose_u8 PurposeOauthAuthorize)%Z then Err (InvalidPurpose login) else
  match cll_recovery_codes login with
  | Some _ => Err (RecoveryCodesPending login)
  | None => Ok {| po_login := login |}
  end.
Record AuthorizedOidcAuthorization := {
  aa_code : string;
  aa_info : OidcAuthorizationRequestInfo;
  aa_subject : string;
  aa_amr : list string;
  aa_auth_time : Z;
}.
(** What is stored of a completed request (codec.rs). *)
Record AuthorizedFields := {
  az_request : PendingFields;
  az_principal : OidcPrincipal;
  az_oidc_subject : string;
  az_amr : list string;
  az_auth_time : Z;
}.

(** ** Upstream logins (upstream_login.rs, flow.rs) *)

Inductive FlowContinuation :=
| FlowAdmin (provider_id : string)
| FlowOAuth (provider_id request_id : string).
(** The verifier: the address of its browser owner and what it trusts. *)
Record UpstreamBearerVerifier := { uv_owner : nat; uv_trust : upstream_trust }.
Record VerifiedUpstreamLogin := {
  ul_owner : nat;
  ul_continuation : FlowContinuation;
  ul_issuer : string;
  ul_profile : SessionProfile;
  ul_username : string;
  ul_organization : string;
  ul_teams : list string;
  ul_claim_roles : option (list string);
  ul_role_selector : option string;
  ul_original : Z;
  ul_expires_at : Z;
  ul_expires_mono : Z;
  ul_binding : string;
}.
Definition temporal_gate (original wall mono : Z) : M clock ControlError unit :=
  let? now := instant_now in
  if (original <=? now)%Z then fail CE_Deadline else
  let? now := instant_now in
  if (mono <=? now)%Z then fail CE_Expired else
  let? utc := system_now in
  if (wall <=? utc)%Z then fail CE_Expired else ret tt.
Definition login_check (l : VerifiedUpstreamLogin) (v : UpstreamBearerVerifier) : M clock ControlError unit :=
  if negb (ul_owner l =? uv_owner v) || negb (len (ul_binding l) =? 43)%Z then fail CE_InvalidFlow else
  temporal_gate (ul_original l) (ul_expires_at l) (ul_expires_mono l).
Definition upstream_principal (l : VerifiedUpstreamLogin) : OidcPrincipal :=
  let roles := default [] (ul_claim_roles l) in
  Federated {| fp_issuer := ul_issuer l; fp_subject := sp_subject (ul_profile l); fp_username := ul_username l;
               fp_local_user_revision := 0; fp_name := sp_name (ul_profile l); fp_email := sp_email (ul_profile l);
               fp_organization := ul_organization l; fp_teams := ul_teams l;
               fp_roles := if existsb (λ r, str_eqb r "user") roles then roles else roles ++ ["user"];
               fp_roles_from_claim := bool_decide (is_Some (ul_role_selector l)); fp_role_claim_selector := ul_role_selector l |}.
Definition from_upstream (l : VerifiedUpstreamLogin) (v : UpstreamBearerVerifier) : M clock ControlError OidcPrincipal :=
  do? login_check l v in
  if negb (Bool.eqb (bool_decide (is_Some (ul_role_selector l))) (bool_decide (is_Some (ul_claim_roles l)))) then fail CE_InvalidFlow else
  let p := upstream_principal l in
  if negb (pr_valid p) || negb (current_trust p (Some (uv_trust v))) then fail CE_InvalidFlow else ret p.
Definition proof_error (e : ControlError) : OidcAuthorizationError :=
  match e with CE_InvalidFlow | CE_Expired => OA_InvalidLogin | other => OA_Control other end.

(** [serde_json] on what is stored of a request, and what [url] says of a URL:
    its scheme, its host and the serialization of its origin. *)
Class RequestLib := {
  pending_json : PendingFields → option string;
  json_pending : string → option PendingFields;
  authorized_json : AuthorizedFields → option string;
  json_authorized : string → option AuthorizedFields;
  url_origin : string → option (string * option string * string);
}.

Section targets.
Context `{AuthLib, CredentialLib, RequestLib}.

(** ** Response targets (response.rs, browser.rs) *)

Definition target_check (t : OidcAuthorizationResponseTarget) : Guarded unit :=
  do? guard (rt_original t) in
  match rt_pending_expiry t with
  | None => ret tt
  | Some e =>
      let? utc := system_now in
      if (pe_utc e <=? utc)%Z then fail (OA_Control CE_Expired) else
      let? now := instant_now in
      if (pe_monotonic e <=? now)%Z then fail (OA_Control CE_Expired) else ret tt
  end.
Definition http_origin (redirect : string) : result OidcAuthorizationError string :=
  let! url := ok_or (url_origin redirect) OA_InvalidRedirect in
  let '(scheme, host, origin) := url in
  if negb (str_eqb scheme "http" || str_eqb scheme "https") || bool_decide (host = None) then Err OA_InvalidRedirect else Ok origin.
Definition target_initial (redirect state : string) (mode : OidcAuthorizationResponseMode) (original : Z)
    : Guarded OidcAuthorizationResponseTarget :=
  do? guard original in
  let? origin := lift_result (http_origin redirect) in
  let target := {| rt_redirect := redirect; rt_state := state; rt_mode := mode; rt_origin := origin; rt_original := original;
                   rt_pending_expiry := None |} in
  do? target_check target in ret target.
Definition response_target (i : OidcAuthorizationRequestInfo) (original : Z) : Guarded OidcAuthorizationResponseTarget :=
  do? guard original in
  let? observed := instant_now in
  if (qi_expires_at i <? 0)%Z then fail OA_MalformedStored else
  let? expires_at := lift_result (ok_or (checked_add_time 0 (qi_expires_at i * 1000)) (OA_Control CE_Clock)) in
  let? utc := system_now in
  let? remaining := lift_result (ok_or (duration_since expires_at utc) (OA_Control CE_Expired)) in
  let? expires_mono := lift_result (ok_or (checked_add_time observed remaining) (OA_Control CE_Clock)) in
  let? origin := lift_result (http_origin (pf_redirect_uri (qi_fields i))) in
  let target := {| rt_redirect := pf_redirect_uri (qi_fields i); rt_state := pf_state (qi_fields i);
                   rt_mode := from_parameter (Some (pf_response_mode (qi_fields i))); rt_origin := origin; rt_original := original;
                   rt_pending_expiry := Some {| pe_utc := expires_at; pe_monotonic := expires_mono |} |} in
  do? target_check target in ret target.
Definition rejected_confirmed (code : OidcAuthorizationRejectionCode) (i : OidcAuthorizationInput) (client : ClientData) (original : Z)
    : Guarded RejectedOidcAuthorization :=
  do? guard original in
  if negb (str_eqb (oi_client_id i) (cd_id client)) then fail OA_InvalidClient else
  do? lift_result (admit_redirect client (oi_redirect_uri i)) in
  let? target := target_initial (oi_redirect_uri i) (oi_state i) (from_parameter (oi_response_mode i)) original in
  ret {| ra_code := code; ra_target := target |}.
End targets.

(** ** Stored requests *)

Record StoredRequest := {
  sq_hash : string;
  sq_identity : string;
  sq_code : option string;
  sq_created_at : Z;
  sq_expires_at : Z;
  sq_json : option string;
}.
#[global] Instance StoredRequest_eq_dec : EqDecision StoredRequest.
Proof. solve_decision. Defined.
Definition is_completed (q : StoredRequest) : bool := negb (is_empty (sq_identity q)) || bool_decide (sq_code q ≠ None).
Definition decode_request (cap : Z) (hash : string) (q : RequestRow) : result OidcAuthorizationError StoredRequest :=
  let! identity := bounded_json cap (rq_identity_subject q) in
  let code := rq_code_hash q in
  let! json := if negb (is_empty identity) || bool_decide (code ≠ None) then Ok None
               else rmap Some (bounded_json cap (rq_request_json q)) in
  Ok {| sq_hash := hash; sq_identity := identity; sq_code := code; sq_created_at := rq_created_at q;
        sq_expires_at := rq_expires_at q; sq_json := json |}.
Definition final_gate (original expires_at : Z) : M Tx OidcAuthorizationError unit :=
  do? guard_original original in
  let? now := txn_clock now_micros in
  if (expires_at <=? now)%Z then fail OA_InvalidRequest else ret tt.
Definition live_info (info : option OidcAuthorizationRequestInfo) (original : Z)
    : M Tx OidcAuthorizationError (option OidcAuthorizationRequestInfo) :=
  do? guard_original original in
  let? now := txn_clock now_micros in
  ret (info ≫= λ i, if (now <? qi_expires_at i)%Z then Some i else None).

Section requests.
Context `{OidcLib, CredentialLib, AuthLib, RefreshLib, RequestLib}.

Record PostgresOidcAuthorizationService := {
  pa_digester : CredentialDigester;
  pa_operation_timeout : Z;
  pa_policy : OidcAuthorizationPolicy;
}.
Section service.
Context (s : PostgresOidcAuthorizationService).
Notation cap := (ol_json_bytes (op_limits (pa_policy s))).
Definition request_digest (kind : TokenKind) (raw : string) : result OidcAuthorizationError string :=
  rmap_err (λ _, OA_Credential) (rmap to_sql_hex (token (pa_digester s) kind raw)).
(** The pool's connection and BEGIN. *)
Definition begin_request : M Tx OidcAuthorizationError unit := do? sql_await in sql_await.
Definition pending_request (json : string) (expires_at created_at : Z) : RequestRow :=
  {| rq_identity_subject := ""; rq_request_json := json; rq_code_hash := None; rq_expires_at := expires_at;
     rq_created_at := created_at |}.
Definition insert_pending (fields : PendingFields) (stop : Z) (random : option string)
    : M Tx OidcAuthorizationError PendingOidcAuthorization :=
  let? request := lift_result (ok_or (new_local_auth_challenge random) OA_Random) in
  let? hash := lift_result (request_digest OidcAuthRequest request) in
  let? json := lift_result (ok_or (pending_json fields) OA_MalformedStored) in
  if (cap <? len json)%Z then fail OA_ReadLimitExceeded else
  let? created_at := txn_clock now_micros in
  if (created_at <=? 0)%Z then fail (OA_Control CE_Clock) else
  let? expires_at := lift_result (ok_or (checked_add_i64 created_at (op_ttl_micros (pa_policy s))) (OA_Control CE_Clock)) in
  do? guard_original stop in
  do? insert_row (requests hash) (RRequest (pending_request json expires_at created_at)) (λ _ _, false) in
  do? final_gate stop expires_at in
  do? sql_commit in
  ret {| pq_request := request;
         pq_info := {| qi_fields := fields; qi_created_at := created_at; qi_expires_at := expires_at |} |}.
Definition create (i : OidcAuthorizationInput) (original : Z) (random : option string)
    : M Tx OidcAuthorizationError PendingOidcAuthorization :=
  let? stop := txn_clock (bounded_deadline original (pa_operation_timeout s)) in
  do? txn_with id (bound (pa_policy s) i stop) in
  do? begin_request in
  let? client := client_of (pa_policy s) (oi_client_id i) stop in
  let? fields := txn_with id (admit_request (pa_policy s) i client stop) in
  let? pending := insert_pending fields stop random in
  do? final_gate stop (qi_expires_at (pq_info pending)) in
  ret pending.
Definition bad_state (i : OidcAuthorizationInput) : bool :=
  (512 <? len (oi_state i))%Z
  || (bool_decide (oi_response_mode i = Some "form_post")
      && (contains_byte NUL (oi_state i) || contains_byte "013" (oi_state i) || contains_byte "010" (oi_state i))).
Definition reject (e : OidcAuthorizationError) (i : OidcAuthorizationInput) (client : ClientData) (stop : Z)
    : M Tx OidcAuthorizationError RejectedOidcAuthorization :=
  let? code := lift_result (rejection_from_error e) in
  do? guard_original stop in
  do? sql_commit in
  do? guard_original stop in
  txn_with id (rejected_confirmed code i client stop).
Definition admit_browser (i : OidcAuthorizationInput) (original : Z) (random : option string)
    : M Tx OidcAuthorizationError BrowserOidcAuthorization :=
  let? stop := txn_clock (bounded_deadline original (pa_operation_timeout s)) in
  do? txn_with id (bound (pa_policy s) i stop) in
  if bad_state i then fail OA_InvalidRequest else
  do? begin_request in
  let? client := client_of (pa_policy s) (oi_client_id i) stop in
  do? lift_result (admit_redirect client (oi_redirect_uri i)) in
  let? decision := outcome (txn_with id (admit_request (pa_policy s) i client stop)) in
  match decision with
  | Ok fields =>
      let? pending := insert_pending fields stop random in
      do? final_gate stop (qi_expires_at (pq_info pending)) in
      ret (BrowserPending pending)
  | Err e => let? rejected := reject e i client stop in ret (BrowserRejected rejected)
  end.
Definition request_row (hash : string) (lock : bool) : M Tx OidcAuthorizationError (option RequestRow) :=
  let? row := (if lock then select_locked else select) (requests hash) in
  ret (row ≫= λ r, match r with RRequest q => Some q | _ => None end).
(** Neither completed nor expired. *)
Definition request_open (q : StoredRequest) : M Tx OidcAuthorizationError bool :=
  if is_completed q then ret false else
  let? now := txn_clock now_micros in ret (now <? sq_expires_at q)%Z.
Definition load_locked (hash : string) (initial : StoredRequest) (fields : PendingFields) (client : ClientData) (stop : Z)
    (row : RequestRow) : M Tx OidcAuthorizationError (option OidcAuthorizationRequestInfo) :=
  let? current := lift_result (decode_request cap hash row) in
  let? opened := request_open current in
  if negb opened then ret None else
  if bool_decide (current ≠ initial) || negb (str_eqb (sq_hash current) hash) || (sq_created_at current <=? 0)%Z
  then fail OA_MalformedStored else
  let? now := txn_clock now_micros in
  if (now <? sq_created_at current)%Z || negb (sq_expires_at current - sq_created_at current =? op_ttl_micros (pa_policy s))%Z
  then fail OA_MalformedStored else
  do? txn_with id (revalidate (pa_policy s) fields client stop) in
  ret (Some {| qi_fields := fields; qi_created_at := sq_created_at current; qi_expires_at := sq_expires_at current |}).
Definition load_initial (hash : string) (stop : Z) (row : RequestRow)
    : M Tx OidcAuthorizationError (option OidcAuthorizationRequestInfo) :=
  let? initial := lift_result (decode_request cap hash row) in
  let? opened := request_open initial in
  if negb opened then ret None else
  let? json := lift_result (ok_or (sq_json initial) OA_MalformedStored) in
  let? fields := lift_result (ok_or (json_pending json) OA_MalformedStored) in
  let? client := client_of (pa_policy s) (pf_client_id fields) stop in
  let? locked := request_row hash true in
  match locked with
  | None => ret None
  | Some row => load_locked hash initial fields client stop row
  end.
Definition load (raw : string) (original : Z) : M Tx OidcAuthorizationError (option OidcAuthorizationRequestInfo) :=
  let? stop := txn_clock (bounded_deadline original (pa_operation_timeout s)) in
  if negb (validate_local_auth_challenge raw) then fail OA_InvalidRequest else
  let? hash := lift_result (request_digest OidcAuthRequest raw) in
  do? guard_original stop in
  do? begin_request in
  let? row := request_row hash false in
  let? info := match row with Some row => load_initial hash stop row | None => ret None end in
  let? info := live_info info stop in
  do? sql_commit in
  live_info info stop.

(** ** Completion (completion.rs, federated.rs) *)

(** The pending request, read without a lock. *)
Definition pending_initial (hash : string) (stop : Z) : M Tx OidcAuthorizationError StoredRequest :=
  let? row := request_row hash false in
  let? row := lift_result (ok_or row OA_InvalidRequest) in
  let? initial := lift_result (decode_request cap hash row) in
  if is_completed initial then fail OA_InvalidRequest else
  do? final_gate stop (sq_expires_at initial) in
  if negb (str_eqb (sq_hash initial) hash) || (sq_created_at initial <=? 0)%Z then fail OA_MalformedStored else
  let? now := txn_clock now_micros in
  if (now <? sq_created_at initial)%Z || negb (sq_expires_at initial - sq_created_at initial =? op_ttl_micros (pa_policy s))%Z
  then fail OA_MalformedStored else ret initial.
Definition pending_parse (initial : StoredRequest) : result OidcAuthorizationError PendingFields :=
  let! json := ok_or (sq_json initial) OA_MalformedStored in
  ok_or (json_pending json) OA_MalformedStored.
(** The same request FOR UPDATE. *)
Definition pending_locked (hash : string) (initial : StoredRequest) (fields : PendingFields) (client : ClientData) (stop : Z)
    : M Tx OidcAuthorizationError unit :=
  let? row := request_row hash true in
  let? row := lift_result (ok_or row OA_InvalidRequest) in
  let? current := lift_result (decode_request cap hash row) in
  if is_completed current then fail OA_InvalidRequest else
  do? final_gate stop (sq_expires_at current) in
  if bool_decide (current ≠ initial) then fail OA_MalformedStored else
  txn_with id (revalidate (pa_policy s) fields client stop).
Definition open_request (initial : StoredRequest) (json : string) (now : Z) (q : RequestRow) : bool :=
  is_empty (rq_identity_subject q) && bool_decide (rq_code_hash q = None) && str_eqb (rq_request_json q) json
  && (rq_created_at q =? sq_created_at initial)%Z && (rq_expires_at q =? sq_expires_at initial)%Z && (now <? rq_expires_at q)%Z.
Definition request_at (hash : string) (p : RequestRow → bool) : Key → Row → bool :=
  at_key (requests hash) (λ r, match r with RRequest q => p q | _ => false end).
Definition set_request (f : RequestRow → RequestRow) (r : Row) : Row := match r with RRequest q => RRequest (f q) | _ => r end.
Definition authorized_row (subject json code_hash : string) (q : RequestRow) : RequestRow :=
  {| rq_identity_subject := subject; rq_request_json := json; rq_code_hash := Some code_hash; rq_expires_at := rq_expires_at q;
     rq_created_at := rq_created_at q |}.
Definition code_is (code_hash : string) : Key → Row → bool := λ _ r,
  match r with RRequest q => bool_decide (rq_code_hash q = Some code_hash) | _ => false end.
(** From the locked request to the committed code.  [proof] is repeated where an
    upstream login is checked again. *)
Definition authorize (hash : string) (initial : StoredRequest) (fields : PendingFields) (principal : OidcPrincipal)
    (amr : list string) (since stop : Z) (proof : M Tx OidcAuthorizationError unit) (random : option string)
    : M Tx OidcAuthorizationError AuthorizedOidcAuthorization :=
  let? subject := lift_result (rmap_err (λ _, OA_Credential)
    (oidc_subject (pa_digester s) (pr_issuer principal) (pr_subject principal))) in
  let? code := lift_result (ok_or (new_local_auth_challenge random) OA_Random) in
  let? code_hash := lift_result (request_digest OidcAuthorizationCode code) in
  let? auth_time := txn_clock now_micros in
  if (auth_time <=? 0)%Z || (auth_time <? since)%Z then fail (OA_Control CE_Clock) else
  let fields := with_phase fields "authorized" in
  let? json := lift_result (ok_or (authorized_json {| az_request := fields; az_principal := principal; az_oidc_subject := subject;
    az_amr := amr; az_auth_time := auth_time |}) OA_MalformedStored) in
  if (cap <? len json)%Z then fail OA_ReadLimitExceeded else
  do? final_gate stop (sq_expires_at initial) in
  do? proof in
  let? initial_json := lift_result (ok_or (sq_json initial) OA_MalformedStored) in
  let? now := txn_clock now_micros in
  let? changed := update_unique (request_at hash (open_request initial initial_json now))
    (set_request (authorized_row (pr_subject principal) json code_hash)) (code_is code_hash) in
  if negb (changed =? 1) then fail OA_InvalidRequest else
  do? final_gate stop (sq_expires_at initial) in
  do? proof in
  do? sql_commit in
  do? final_gate stop (sq_expires_at initial) in
  do? proof in
  let? auth_time := lift_result (ok_or (TimestampMicros_new auth_time) (OA_Control CE_Clock)) in
  ret {| aa_code := code;
         aa_info := {| qi_fields := fields; qi_created_at := sq_created_at initial; qi_expires_at := sq_expires_at initial |};
         aa_subject := subject; aa_amr := amr; aa_auth_time := auth_time |}.
Definition complete (raw : string) (login : PreparedOidcLogin) (original : Z) (random : option string)
    : M Tx OidcAuthorizationError AuthorizedOidcAuthorization :=
  let? stop := txn_clock (bounded_deadline original (pa_operation_timeout s)) in
  if negb (validate_local_auth_challenge raw) then fail OA_InvalidRequest else
  let login := po_login login in
  do? lift_result (ok_or (login_verify_binding login (pa_digester s) (BindOauthAuthorize raw)) OA_InvalidLogin) in
  let? hash := lift_result (request_digest OidcAuthRequest raw) in
  do? guard_original stop in
  do? begin_request in
  let? initial := pending_initial hash stop in
  if (cll_observed_at login <? sq_created_at initial)%Z then fail OA_InvalidLogin else
  let? fields := lift_result (pending_parse initial) in
  if (cll_observed_at login <=? 0)%Z then fail OA_InvalidLogin else
  let? now := txn_clock now_micros in
  if (now <? cll_observed_at login)%Z then fail OA_InvalidLogin else
  let? principal := current_principal (cll_subject login) (cll_username login) (cll_revision login) cap stop in
  let? client := client_of (pa_policy s) (pf_client_id fields) stop in
  do? pending_locked hash initial fields client stop in
  authorize hash initial fields principal (if cll_factor_verified login then ["pwd"; "otp"] else ["pwd"])
    (cll_observed_at login) stop (ret tt) random.
Definition upstream_proof (login : VerifiedUpstreamLogin) (verifier : UpstreamBearerVerifier) : M Tx OidcAuthorizationError unit :=
  txn_with proof_error (login_check login verifier).
Definition complete_upstream (login : VerifiedUpstreamLogin) (verifier : UpstreamBearerVerifier) (original : Z) (random : option string)
    : M Tx OidcAuthorizationError AuthorizedOidcAuthorization :=
  let? stop := txn_clock (bounded_deadline (Z.min original (ul_original login)) (pa_operation_timeout s)) in
  do? upstream_proof login verifier in
  let? raw := lift_result (match ul_continuation login with
                           | FlowOAuth _ request_id => Ok request_id
                           | FlowAdmin _ => Err OA_InvalidLogin
                           end) in
  if negb (validate_local_auth_challenge raw) then fail OA_InvalidRequest else
  let? principal := txn_with proof_error (from_upstream login verifier) in
  let? hash := lift_result (request_digest OidcAuthRequest raw) in
  do? guard_original stop in
  do? begin_request in
  let? initial := pending_initial hash stop in
  let? fields := lift_result (pending_parse initial) in
  let? client := client_of (pa_policy s) (pf_client_id fields) stop in
  do? pending_locked hash initial fields client stop in
  do? upstream_proof login verifier in
  if negb (current_trust principal (Some (uv_trust verifier))) then fail OA_InvalidLogin else
  authorize hash initial fields principal ["federated"] (sq_created_at initial) stop (upstream_proof login verifier) random.
End service.
End requests.

(** ** What reading does *)

Lemma keeps_guarded {E A} stop (D : E) (m : M clock E A) r : guarded stop D m r → keeps clock_run m.
Proof. intros Hg c x c' Hm. by apply Hg in Hm as [? _]. Qed.

Section effects.
Context `{OidcLib, CredentialLib, AuthLib, RefreshLib, RequestLib} (R : gset Key → Db → Db → Prop) `{!Rely R}.

Lemma keeps_bound p i stop : keeps clock_run (bound p i stop).
Proof.
  unfold bound. apply keeps_bind; [apply _| |auto with broker]. apply keeps_mfor; [apply _|]. intros n item.
  unfold guard. auto 10 with broker.
Qed.
Lemma keeps_admit_request p i client stop : keeps clock_run (admit_request p i client stop).
Proof. eapply keeps_guarded, guarded_admit. Qed.
Lemma keeps_revalidate p f client stop : keeps clock_run (revalidate p f client stop).
Proof. eapply keeps_guarded, (guarded_revalidate p f client "pending" stop). Qed.
Lemma keeps_login_check l v : keeps clock_run (login_check l v).
Proof. unfold login_check, temporal_gate. auto 20 with broker. Qed.
Lemma keeps_from_upstream l v : keeps clock_run (from_upstream l v).
Proof. unfold from_upstream. pose proof keeps_login_check. auto 20 with broker. Qed.
Lemma keeps_rejected code i client stop : keeps clock_run (rejected_confirmed code i client stop).
Proof. unfold rejected_confirmed, target_initial, target_check, guard. simpl. auto 40 with broker. Qed.
#[local] Hint Resolve keeps_bound keeps_admit_request keeps_revalidate keeps_login_check keeps_from_upstream keeps_rejected : broker.
Lemma rests_final_gate stop expires : keeps (rests R) (final_gate stop expires).
Proof. unfold final_gate. auto 20 with broker. Qed.
Lemma same_db_final_gate stop expires : keeps same_db (final_gate stop expires).
Proof. unfold final_gate. auto 20 with broker. Qed.
Lemma rests_begin_request : keeps (rests R) begin_request.
Proof. unfold begin_request. auto 20 with broker. Qed.
Lemma rests_request_row hash lock : keeps (rests R) (request_row hash lock).
Proof. unfold request_row. destruct lock; auto 10 with broker. Qed.
#[local] Hint Resolve rests_final_gate rests_begin_request rests_request_row : broker.
Lemma rests_pending_initial s hash stop : keeps (rests R) (pending_initial s hash stop).
Proof. unfold pending_initial. auto 40 with broker. Qed.
Lemma rests_pending_locked s hash initial fields client stop : keeps (rests R) (pending_locked s hash initial fields client stop).
Proof. unfold pending_locked. auto 40 with broker. Qed.
Lemma rests_live_info info stop : keeps (rests R) (live_info info stop).
Proof. unfold live_info. auto 20 with broker. Qed.
Lemma same_db_live_info info stop : keeps same_db (live_info info stop).
Proof. unfold live_info. auto 20 with broker. Qed.
Lemma rests_request_open q : keeps (rests R) (request_open q).
Proof. unfold request_open. auto 20 with broker. Qed.
#[local] Hint Resolve rests_request_open : broker.
Lemma rests_load_initial s hash stop row : keeps (rests R) (load_initial s hash stop row).
Proof. unfold load_initial, load_locked. auto 60 with broker. Qed.
Lemma rests_proof l v : keeps (rests R) (upstream_proof l v).
Proof. unfold upstream_proof. auto with broker. Qed.
Lemma same_db_proof l v : keeps same_db (upstream_proof l v).
Proof. unfold upstream_proof. auto with broker. Qed.
End effects.
#[export] Hint Resolve keeps_bound keeps_admit_request keeps_revalidate keeps_login_check keeps_from_upstream keeps_rejected : broker.
#[export] Hint Resolve rests_final_gate same_db_final_gate rests_begin_request rests_request_row rests_pending_initial rests_pending_locked
  rests_live_info same_db_live_info rests_request_open rests_load_initial rests_proof same_db_proof : broker.

(** The errors that come too late to undo a change. *)
Definition late_request (e : OidcAuthorizationError) : Prop := e = OA_InvalidRequest ∨ e = OA_InvalidLogin ∨ ∃ ce, e = OA_Control ce.
Lemma late_rq_clock {A} (m : M clock ControlError A) : only late_request (txn_clock m : M Tx OidcAuthorizationError A).
Proof.
  intros c e c'. unfold txn_clock, txn_with. destruct (m (cn_clock c)) as [[a|ce] k]; [done|].
  intros [= <- _]. right. right. by exists ce.
Qed.
#[local] Hint Extern 1 (only late_request (txn_clock _)) => apply late_rq_clock : broker.
#[local] Hint Extern 1 (only late_request (guard_original _)) => apply late_rq_clock : broker.
Lemma late_final_gate stop expires : only late_request (final_gate stop expires).
Proof.
  unfold final_gate. apply only_bind; [auto with broker|]. intros _. apply only_bind; [auto with broker|]. intros now.
  destruct (_ <=? _)%Z; [apply only_fail; by left|apply only_ret].
Qed.
Lemma late_proof l v : only late_request (upstream_proof l v).
Proof.
  intros c e c'. unfold upstream_proof, txn_with. destruct (login_check l v (cn_clock c)) as [[a|ce] k]; [done|].
  intros [= <- _]. unfold late_request, proof_error. destruct ce; eauto.
Qed.
#[local] Hint Resolve late_final_gate late_proof : broker.

(** ** Registered clients *)

(** One step of a run that succeeds and has only read since the start. *)
Ltac ok_step Hr I :=
  match type of Hr with
  | bind _ _ _ = (Ok _, _) =>
      let a := fresh "a" in let c := fresh "c" in let Hm := fresh "Hm" in let J := fresh "J" in
      apply (bind_more _ _ _ _ _ _ _ I) in Hr; [clear I; destruct Hr as [(a & c & Hm & J & I & Hr)|(? & [=] & _)]; carry J|by auto with broker]
  | (if ?b then fail _ else _) _ = (Ok _, _) => let C := fresh "C" in destruct b eqn:C; [discriminate Hr|]
  end.
Section registered.
Context `{OidcLib, CredentialLib, AuthLib, RefreshLib} (p : OidcAuthorizationPolicy).
Definition client_of_row (id : string) (client : ClientData) (row : ClientRow) : Prop :=
  strings_json (cl_redirect_uris_json row) = Some (cd_redirects client) ∧ cd_id client = id ∧
  cl_application_type row = (if cd_native client then "native" else "web") ∧ validate_registration client = Ok tt.
(** The configured client, or one that is registered. *)
Definition known_client (db : Db) (id : string) (client : ClientData) : Prop :=
  (id = op_cli_client_id p ∧ client = {| cd_id := id; cd_redirects := [op_cli_redirect p]; cd_native := true |}) ∨
  (op_dynamic_registration p = true ∧ ∃ row, db !! clients id = Some (RClient row) ∧ client_of_row id client row).
Definition holds_client (c : Tx) (id : string) (client : ClientData) : Prop :=
  (id = op_cli_client_id p ∧ client = {| cd_id := id; cd_redirects := [op_cli_redirect p]; cd_native := true |}) ∨
  (op_dynamic_registration p = true ∧ ∃ row, held c (clients id) (Some (RClient row)) ∧ client_of_row id client row).
Context (R : gset Key → Db → Db → Prop) `{!Rely R}.
Lemma rests_client_scopes stop l : keeps (rests R) (mfor (check_client_scope stop) [] l).
Proof. apply keeps_mfor; [apply _|]. intros. unfold check_client_scope. auto with broker. Qed.
Lemma rests_client_redirects stop l : keeps (rests R) (mfor (check_client_redirect stop) [] l).
Proof. apply keeps_mfor; [apply _|]. intros. unfold check_client_redirect. auto with broker. Qed.
#[local] Hint Resolve rests_client_scopes rests_client_redirects : broker.
Lemma holds_client_inside c c' id client : inside R c c' → holds_client c id client → holds_client c' id client.
Proof.
  intros Hi [?|(Hd & row & Hh & Hc)]; [by left|right]. split; [done|]. exists row. split; [by eapply held_inside|done].
Qed.
Lemma holds_client_db c id client : holds_client c id client → known_client (cn_db c) id client.
Proof. intros [?|(Hd & row & [_ Hh] & Hc)]; [by left|right]. eauto. Qed.
Lemma client_of_ok id stop c client c' :
  client_of p id stop c = (Ok client, c') → cn_writes c = ∅ → holds_client c' id client.
Proof.
  unfold client_of. intros Hr Hw. assert (rests R c c) as I by reflexivity. ok_step Hr I.
  destruct (str_eqb id (op_cli_client_id p)) eqn:Ecli.
  { apply ret_ok in Hr as [-> ->]. left. by apply str_eqb_eq in Ecli. }
  destruct (op_dynamic_registration p) eqn:Edyn; [|done]. cbn [negb] in Hr. right. split; [done|].
  read_step Hr I o c1 Hs. apply (select_locked_ok R) in Hs as (_ & Hrow & Hk). rewrite view_clean in Hrow by (by eapply clean_rests).
  read_step Hr I cl c2 Hl. apply lift_ok in Hl as [Hl ->]. apply ok_or_ok in Hl.
  destruct o as [[| | | | |row| | |]|]; try done. injection Hl as <-. exists row.
  assert (held c1 (clients id) (Some (RClient row))) as Hh by (split; [apply Hk; by eexists|by symmetry]).
  do 5 ok_step Hr I. read_step Hr I rj c11 Hrj. read_step Hr I redirects c12 Hred.
  do 5 ok_step Hr I. read_step Hr I native c15 Hnat. read_step Hr I u c16 Hval.
  apply ret_ok in Hr as [-> ->]. apply lift_ok in Hrj as [Hrj _], Hred as [Hred _], Hnat as [Hnat _], Hval as [Hval _].
  apply ok_or_ok in Hred. unfold bounded_json in Hrj. destruct (_ <? _)%Z in Hrj; [done|]. injection Hrj as <-.
  split; [done|]. split; [done|]. split; [done|]. split; [|by destruct u]. simpl.
  destruct (str_eqb (cl_application_type row) "native") eqn:E1; [injection Hnat as <-; by apply str_eqb_eq|].
  destruct (str_eqb (cl_application_type row) "web") eqn:E2; [injection Hnat as <-; by apply str_eqb_eq|done].
Qed.
End registered.

(** ** The operations, as atomic steps *)

Section atomic.
Context `{OidcLib, CredentialLib, AuthLib, RefreshLib, RequestLib} (s : PostgresOidcAuthorizationService).
Notation cap := (ol_json_bytes (op_limits (pa_policy s))).
Notation policy := (pa_policy s).

(** What is stored of a pending request is still admitted. *)
Definition still_admitted (f : PendingFields) (client : ClientData) : Prop :=
  pf_format f = "rust-broker-authorization-v1" ∧ pf_phase f = "pending" ∧ pf_api_audience f = op_api_audience policy ∧
  ∃ again, admitted policy (pending_input f) client = Ok again ∧ with_phase again "pending" = f.
Lemma revalidate_ok f client stop (c : Tx) u c' :
  txn_with id (revalidate policy f client stop) c = (Ok u, c') → still_admitted f client.
Proof.
  unfold txn_with. destruct (revalidate policy f client stop (cn_clock c)) as [r k] eqn:Er. intros Hr.
  destruct r as [v|e]; [|done]. apply (guarded_ok _ _ _ _ _ _ _ (guarded_revalidate policy f client "pending" stop)) in Er.
  invert_ok Er. bool_to_prop. apply rmap_err_ok in R. repeat match goal with Hs : str_eqb _ _ = true |- _ => apply str_eqb_eq in Hs end.
  unfold still_admitted. split; [done|]. split; [done|]. split; [done|]. eexists. split; [exact R|]. by apply dec_stable.
Qed.

(** A new pending request. *)
Definition creates (i : OidcAuthorizationInput) (db : Db) (r : result OidcAuthorizationError PendingOidcAuthorization) (db' : Db) : Prop :=
  ∃ client hash json pending,
    r = Ok pending ∧ known_client policy db (oi_client_id i) client ∧ admitted policy i client = Ok (qi_fields (pq_info pending)) ∧
    pending_json (qi_fields (pq_info pending)) = Some json ∧ request_digest s OidcAuthRequest (pq_request pending) = Ok hash ∧
    qi_expires_at (pq_info pending) = (qi_created_at (pq_info pending) + op_ttl_micros policy)%Z ∧
    db !! requests hash = None ∧
    db' = <[requests hash := RRequest (pending_request json (qi_expires_at (pq_info pending)) (qi_created_at (pq_info pending)))]> db.

Context (R : gset Key → Db → Db → Prop) `{!Rely R}.
Lemma txn_guarded {A} stop (m : Guarded A) r (c : Tx) a c' :
  guarded stop (OA_Control CE_Deadline) m r → txn_with id m c = (Ok a, c') → r = Ok a.
Proof.
  intros Hg. unfold txn_with. destruct (m (cn_clock c)) as [x k] eqn:Er. intros Hx. destruct x as [b|e]; [|done].
  injection Hx as -> _. by apply (guarded_ok _ _ _ _ _ _ _ Hg) in Er.
Qed.
Lemma gated_commit {E A} `{!FromControl E} (g : M Tx E unit) (k : M Tx E A) c x c' :
  (do? g in do? sql_commit in k) c = (x, c') → keeps (rests R) g → keeps same_db k →
  (∃ e, x = Err e ∧ inside R c c') ∨
  ∃ c1, rests R c c1 ∧ cn_db c' = view c1 ∧ ((∃ c2 c3, k c2 = (x, c3)) ∨ x = Err (from_control CE_OutcomeUncertain)).
Proof.
  intros Hr Hg Hk. apply (bind_rests R) in Hr as [(u & c1 & _ & I1 & Hr)|(e & -> & Hi)]; [|by left; eauto|done].
  apply (commit_tail R) in Hr as [[[e ->] Hi]|(c2 & I2 & Hdb & Hx)]; [| |done].
  - left. exists e. split; [done|]. etrans; [exact (re_inside _ _ _ I1)|done].
  - right. exists c2. split; [by etrans|]. done.
Qed.
Lemma insert_gated {E A} `{!FromControl E} key v clash (g : M Tx E unit) (k : M Tx E A) c x c' :
  (do? insert_row key v clash in do? g in do? sql_commit in k) c = (x, c') → cn_writes c = ∅ → keeps (rests R) g → keeps same_db k →
  (∃ e, x = Err e ∧ inside R c c') ∨
  ∃ c1, inside R c c1 ∧ cn_db c' = view c1 ∧ cn_db c1 !! key = None ∧ view c1 = <[key := v]> (cn_db c1) ∧
    ((∃ c2 c3, k c2 = (x, c3)) ∨ x = Err (from_control CE_OutcomeUncertain)).
Proof.
  intros Hr Hw Hg Hk. apply (bind_inside R) in Hr as [([] & c1 & Hins & Hi1 & Hr)|(e & -> & Hi)]; [|by left; eauto|auto with broker].
  apply (insert_row_ok R) in Hins as (c2 & I2 & Hnone & _ & ->). pose proof (clean_rests R _ _ I2 Hw) as Hw2.
  rewrite view_clean in Hnone by done. apply gated_commit in Hr as [(e & -> & Hi)|(c3 & I3 & Hdb & Hx)]; [| |done|done].
  - left. exists e. split; [done|]. by etrans.
  - right. exists c3. split; [etrans; [done|exact (re_inside _ _ _ I3)]|]. split; [done|].
    split; [eapply (held_inside R); [exact (re_inside _ _ _ I3)|by apply held_write]|]. split; [|done].
    change (view c3) with (apply_writes (cn_writes c3) (cn_db c3)).
    by rewrite (re_writes _ _ _ I3), writes_one, Hw2, apply_insert, apply_empty.
Qed.
(** A pending request that was stored, with an answer that may come too late. *)
Record stored_pending (fields : PendingFields) (c1 : Tx) (pending : PendingOidcAuthorization) (hash json : string) : Prop := {
  sn_fields : qi_fields (pq_info pending) = fields;
  sn_json : pending_json fields = Some json;
  sn_hash : request_digest s OidcAuthRequest (pq_request pending) = Ok hash;
  sn_expires : qi_expires_at (pq_info pending) = (qi_created_at (pq_info pending) + op_ttl_micros policy)%Z;
  sn_fresh : cn_db c1 !! requests hash = None;
  sn_view : view c1 = <[requests hash :=
    RRequest (pending_request json (qi_expires_at (pq_info pending)) (qi_created_at (pq_info pending)))]> (cn_db c1);
}.
Lemma insert_pending_run fields stop random c x c' :
  insert_pending s fields stop random c = (x, c') → cn_writes c = ∅ →
  (∃ e, x = Err e ∧ inside R c c') ∨
  ∃ c1 pending hash json, inside R c c1 ∧ cn_db c' = view c1 ∧ stored_pending fields c1 pending hash json ∧
    (x = Ok pending ∨ ∃ e, x = Err e ∧ late_request e).
Proof.
  intros Hr Hw. match goal with |- ?G => assert (∀ e, x = Err e → inside R c c' → G) as Hno by (intros; left; eauto) end.
  unfold insert_pending in Hr. assert (rests R c c) as I by reflexivity. read_step Hr I request c1 Hm1.
  read_step Hr I hash c2 Hhash. read_step Hr I js c3 Hjs. guard_step Hr I G1. read_step Hr I created c4 Hm4. guard_step Hr I G2.
  read_step Hr I expires c5 Hexp. read_step Hr I u c6 Hm6. pose proof (re_inside _ _ _ I) as Hi.
  apply lift_ok in Hhash as [Hhash _], Hjs as [Hjs _], Hexp as [Hexp _]. apply ok_or_ok in Hjs, Hexp.
  unfold checked_add_i64 in Hexp. case_hyp Hexp; [|done]. injection Hexp as <-.
  apply insert_gated in Hr as [(e & He & Hi')|(c7 & Hi7 & Hdb & Hnone & Hview & Hx)];
    [eapply Hno; [done|by etrans]| |by eapply clean_rests|auto with broker|auto with broker].
  right. eexists c7, {| pq_request := request; pq_info := {| qi_fields := fields; qi_created_at := created;
    qi_expires_at := created + op_ttl_micros policy |} |}, hash, js. split; [by etrans|]. split; [done|]. split; [by split|].
  destruct Hx as [(c8 & c9 & [= <- _])| ->]; [by left|right]. eexists. split; [done|]. right. right. by eexists.
Qed.
(** With the gate after the commit. *)
Lemma insert_pending_ok {A} (f : PendingOidcAuthorization → A) fields stop random c x c' :
  (let? pending := insert_pending s fields stop random in
   do? final_gate stop (qi_expires_at (pq_info pending)) in ret (f pending)) c = (x, c') → cn_writes c = ∅ →
  (∃ e, x = Err e ∧ inside R c c') ∨
  ∃ c1 pending hash json, inside R c c1 ∧ cn_db c' = view c1 ∧ stored_pending fields c1 pending hash json ∧
    (x = Ok (f pending) ∨ ∃ e, x = Err e ∧ late_request e).
Proof.
  intros Hr Hw. apply bind_cases in Hr as [(pending & c1 & Hins & Hr)|(e & Hins & ->)];
    apply insert_pending_run in Hins as [(e' & He & Hi)|(c2 & pending' & hash & js & Hi & Hdb & Hst & Hx)]; try done; [|by left; eauto|].
  - right. exists c2, pending', hash, js. split; [done|]. destruct Hx as [[= ->]|(e & [=] & _)].
    apply bind_cases in Hr as [([] & c3 & Hg & Hr)|(e & Hg & ->)].
    + injection Hr as <- <-. split; [by rewrite <- Hdb; apply same_db_final_gate in Hg|]. split; [done|by left].
    + split; [by rewrite <- Hdb; apply same_db_final_gate in Hg|]. split; [done|right]. exists e. split; [done|]. by apply late_final_gate in Hg.
  - right. exists c2, pending', hash, js. split; [done|]. split; [done|]. split; [done|]. destruct Hx as [[=]|(e' & [= ->] & He)]. right; eauto.
Qed.
Lemma stored_creates i c1 client pending hash json :
  holds_client policy c1 (oi_client_id i) client → admitted policy i client = Ok (qi_fields (pq_info pending)) →
  stored_pending (qi_fields (pq_info pending)) c1 pending hash json → creates i (cn_db c1) (Ok pending) (view c1).
Proof.
  intros Hc Ha [_ Hj Hh He Hn Hv]. exists client, hash, json, pending. split; [done|]. split; [by apply holds_client_db|]. done.
Qed.
Lemma create_atomic i original random c x c' :
  create s i original random c = (x, c') → idle c → fair R c → atomically R late_request c x c' (creates i).
Proof.
  intros Hr Hidle Hfair. pose proof Hidle as [Hw _].
  match goal with |- ?G => assert (∀ e, x = Err e → inside R c c' → G) as Hno by (intros; by eapply (atomically_nothing R)) end.
  unfold create in Hr. assert (rests R c c) as I by reflexivity. read_step Hr I stop c1 Hm1. read_step Hr I u2 c2 Hm2.
  read_step Hr I u3 c3 Hm3. pose proof (clean_rests R _ _ I Hw) as Hw3. read_step Hr I client c4 Hcl.
  apply (client_of_ok policy R) in Hcl; [|done]. read_step Hr I fields c5 Hadm. apply (txn_guarded _ _ _ _ _ _ (guarded_admit _ _ _ _)) in Hadm.
  pose proof (re_inside _ _ _ I) as Hi. apply (insert_pending_ok id) in Hr; [|by eapply clean_rests].
  destruct Hr as [(e & He & Hi')|(c6 & pending & hash & js & Hi6 & Hdb & Hst & Hx)]; [eapply Hno; [done|by etrans]|].
  eapply (atomically_step R); [done|done|by etrans|exact Hdb| |exact Hx]. pose proof (sn_fields _ _ _ _ _ Hst). subst fields.
  eapply stored_creates; [|done|done]. eapply holds_client_inside; [|done..]. etrans; [exact (re_inside _ _ _ J3)|done].
Qed.

(** A request from a browser: stored as pending, or rejected for a reason the
    client may be told, at a redirect the client has registered. *)
Definition rejects (i : OidcAuthorizationInput) (db : Db) (r : RejectedOidcAuthorization) : Prop :=
  ∃ client e, known_client policy db (oi_client_id i) client ∧ admitted policy i client = Err e ∧
    rejection_from_error e = Ok (ra_code r) ∧ admit_redirect client (oi_redirect_uri i) = Ok tt ∧
    rt_redirect (ra_target r) = oi_redirect_uri i ∧ rt_state (ra_target r) = oi_state i.
Definition browses (i : OidcAuthorizationInput) (db : Db) (r : result OidcAuthorizationError BrowserOidcAuthorization) (db' : Db) : Prop :=
  (∃ pending, r = Ok (BrowserPending pending) ∧ creates i db (Ok pending) db') ∨
  (∃ rejected, r = Ok (BrowserRejected rejected) ∧ rejects i db rejected ∧ db' = db).
Lemma txn_guarded_err {A} stop (m : Guarded A) r (c : Tx) e c' :
  guarded stop (OA_Control CE_Deadline) m r → txn_with id m c = (Err e, c') → r = Err e ∨ e = OA_Control CE_Deadline.
Proof.
  intros Hg. unfold txn_with. destruct (m (cn_clock c)) as [x k] eqn:Er. intros Hx. destruct x as [b|e']; [done|].
  injection Hx as <- _. apply Hg in Er as [_ [[_ ?]|[_ [= ->]]]]; auto.
Qed.
Lemma rejected_ok code i client stop (c : Tx) r c' :
  txn_with id (rejected_confirmed code i client stop) c = (Ok r, c') →
  ra_code r = code ∧ rt_redirect (ra_target r) = oi_redirect_uri i ∧ rt_state (ra_target r) = oi_state i.
Proof.
  unfold txn_with. destruct (rejected_confirmed code i client stop (cn_clock c)) as [x k] eqn:Er. intros Hx. destruct x as [b|e']; [|done].
  injection Hx as -> _. unfold rejected_confirmed in Er. apply bind_ok in Er as (? & k1 & _ & Er). destruct (negb _); [done|].
  apply bind_ok in Er as (? & k2 & _ & Er). apply bind_ok in Er as (t & k3 & Ht & Er). apply ret_ok in Er as [-> _].
  unfold target_initial in Ht. apply bind_ok in Ht as (? & k4 & _ & Ht). apply bind_ok in Ht as (? & k5 & _ & Ht).
  apply bind_ok in Ht as (? & k6 & _ & Ht). by apply ret_ok in Ht as [-> _].
Qed.
Lemma same_db_reject_tail code i client stop :
  keeps same_db (do? guard_original stop in txn_with id (rejected_confirmed code i client stop) : M Tx OidcAuthorizationError _).
Proof. auto with broker. Qed.
Lemma outcome_cases {A B} (m : M Tx OidcAuthorizationError A) (k : result OidcAuthorizationError A → M Tx OidcAuthorizationError B) c x c' :
  bind (outcome m) k c = (x, c') → ∃ r c1, m c = (r, c1) ∧ k r c1 = (x, c').
Proof. unfold bind, outcome. destruct (m c) as [r c1]. eauto. Qed.
(** A transaction that only reads, up to its commit. *)
Lemma read_commit {A} (g : M Tx OidcAuthorizationError unit) (k : M Tx OidcAuthorizationError A) (c c1 : Tx) (x : result OidcAuthorizationError A) (c' : Tx)
    (P : Db → result OidcAuthorizationError A → Db → Prop) :
  (do? g in do? sql_commit in k) c1 = (x, c') → idle c → fair R c → rests R c c1 → keeps (rests R) g → keeps same_db k →
  (∀ a c2 c3 c4, inside R c1 c2 → k c3 = (Ok a, c4) → x = Ok a → P (cn_db c2) (Ok a) (cn_db c2)) →
  atomically R late_request c x c' P.
Proof.
  intros Hr Hidle Hfair I Hg Hk HP. pose proof Hidle as [Hw _]. pose proof (re_inside _ _ _ I) as Hi1.
  apply gated_commit in Hr as [(e & He & Hi)|(c2 & I2 & Hdb & Hx)]; [eapply (atomically_nothing R); [done|done|exact He|by etrans]| |done|done].
  rewrite view_clean in Hdb by (eapply clean_rests; [|exact Hw]; by etrans). pose proof (re_inside _ _ _ I2) as Hi2.
  exists (cn_db c2). split.
  { destruct Hidle as [_ Hl]. rewrite <- Hl. eapply (in_env R c c2); [by etrans|done]. }
  destruct Hx as [(c3 & c4 & Hx)| ->]; [|left; by eauto]. destruct x as [a|e]; [|left; by eauto].
  right. exists (Ok a). split; [rewrite Hdb; by eapply HP|by left].
Qed.
Lemma reject_atomic e i client stop c c1 x c' :
  (let? rejected := reject e i client stop in ret (BrowserRejected rejected)) c1 = (x, c') → idle c → fair R c → rests R c c1 →
  holds_client policy c1 (oi_client_id i) client → admit_redirect client (oi_redirect_uri i) = Ok tt →
  admitted policy i client = Err e ∨ e = OA_Control CE_Deadline → atomically R late_request c x c' (browses i).
Proof.
  intros Hr Hidle Hfair I Hcl Had He. unfold reject in Hr.
  assert (∃ y, reject e i client stop c1 = (y, c') ∧ x = rmap BrowserRejected y) as (y & Hy & ->).
  { unfold reject. apply bind_cases in Hr as [(r & c2 & Hm & Hr)|(e' & Hm & ->)]; [|by eauto]. injection Hr as <- <-. eauto. }
  clear Hr. unfold reject in Hy. apply bind_cases in Hy as [(code & c2 & Hl & Hy)|(e' & Hl & ->)].
  - apply lift_ok in Hl as [Hl ->]. destruct He as [He| ->]; [|done].
    eapply (read_commit _ _ _ _ _ _ (λ db r db', browses i db (rmap BrowserRejected r) db')) in Hy; try done; [|auto with broker..|].
    + destruct Hy as (db & HR & [[[e' ->] Hdb]|(r & HP & Hx)]); exists db; (split; [done|]); [left; by eauto|right].
      exists (rmap BrowserRejected r). split; [done|]. destruct Hx as [->|(e' & -> & ?)]; [by left|right; by eauto].
    + intros r c3 c4 c5 Hi Hk _. apply bind_ok in Hk as (u & c6 & _ & Hk). apply rejected_ok in Hk as (Hc & Hrd & Hst). right.
      exists r. split; [done|]. split; [|done]. exists client, e. split; [by eapply holds_client_db, holds_client_inside|].
      by rewrite Hc.
  - injection Hl as _ <-. eapply (atomically_nothing R); [done|done|done|exact (re_inside _ _ _ I)].
Qed.
Lemma admit_browser_atomic i original random c x c' :
  admit_browser s i original random c = (x, c') → idle c → fair R c → atomically R late_request c x c' (browses i).
Proof.
  intros Hr Hidle Hfair. pose proof Hidle as [Hw _].
  match goal with |- ?G => assert (∀ e, x = Err e → inside R c c' → G) as Hno by (intros; by eapply (atomically_nothing R)) end.
  unfold admit_browser in Hr. assert (rests R c c) as I by reflexivity. read_step Hr I stop c1 Hm1. read_step Hr I u2 c2 Hm2.
  guard_step Hr I G1. read_step Hr I u3 c3 Hm3. pose proof (clean_rests R _ _ I Hw) as Hw3. read_step Hr I client c4 Hcl.
  apply (client_of_ok policy R) in Hcl; [|done]. read_step Hr I u5 c5 Hred. apply lift_ok in Hred as [Hred ->]. destruct u5.
  apply outcome_cases in Hr as (d & c6 & Hd & Hr).
  assert (rests R c4 c6) as J6 by (eapply rests_txn_with, Hd; auto with broker).
  assert (rests R c c6) as I6 by (by etrans). pose proof (re_inside _ _ _ I6) as Hi.
  apply (holds_client_inside policy R _ _ _ _ (re_inside _ _ _ J6)) in Hcl. destruct d as [fields|e].
  - apply (txn_guarded _ _ _ _ _ _ (guarded_admit _ _ _ _)) in Hd. apply (insert_pending_ok BrowserPending) in Hr; [|by eapply clean_rests].
    destruct Hr as [(e & He & Hi')|(c7 & pending & hash & js & Hi7 & Hdb & Hst & Hx)]; [eapply Hno; [done|by etrans]|].
    eapply (atomically_step R); [done|done|by etrans|exact Hdb| |exact Hx]. left. exists pending. split; [done|].
    pose proof (sn_fields _ _ _ _ _ Hst). subst fields. eapply stored_creates; [|done|done]. by eapply holds_client_inside.
  - apply (txn_guarded_err _ _ _ _ _ _ (guarded_admit _ _ _ _)) in Hd. by eapply reject_atomic.
Qed.

(** A request that waits to be completed. *)
Record pending_now (db : Db) (hash : string) (q : RequestRow) (fields : PendingFields) (client : ClientData) : Prop := {
  pn_row : db !! requests hash = Some (RRequest q);
  pn_identity : rq_identity_subject q = "";
  pn_code : rq_code_hash q = None;
  pn_fields : json_pending (rq_request_json q) = Some fields;
  pn_client : known_client policy db (pf_client_id fields) client;
  pn_admitted : still_admitted fields client;
}.
Record holds_pending (c : Tx) (hash : string) (q : RequestRow) (fields : PendingFields) (client : ClientData) : Prop := {
  hp_row : held c (requests hash) (Some (RRequest q));
  hp_identity : rq_identity_subject q = "";
  hp_code : rq_code_hash q = None;
  hp_fields : json_pending (rq_request_json q) = Some fields;
  hp_client : holds_client policy c (pf_client_id fields) client;
  hp_admitted : still_admitted fields client;
}.
Lemma holds_pending_inside c c' hash q fields client :
  inside R c c' → holds_pending c hash q fields client → holds_pending c' hash q fields client.
Proof. intros Hi [Hr Hid Hc Hf Hcl Ha]. split; [by eapply held_inside|done..|by eapply holds_client_inside|done]. Qed.
Lemma holds_pending_db c hash q fields client : holds_pending c hash q fields client → pending_now (cn_db c) hash q fields client.
Proof. intros [[_ Hr] Hid Hc Hf Hcl Ha]. split; [done..|by apply holds_client_db|done]. Qed.
Lemma request_row_locked hash c q c' :
  request_row hash true c = (Ok (Some q), c') → cn_writes c = ∅ → held c' (requests hash) (Some (RRequest q)).
Proof.
  unfold request_row. intros Hr Hw. apply bind_ok in Hr as (row & c1 & Hs & Hr). apply ret_ok in Hr as [Hq ->].
  apply (select_locked_ok R) in Hs as (I1 & Hrow & Hk). rewrite view_clean in Hrow by (by eapply clean_rests).
  destruct row as [[| | | | | |q'| |]|]; try done. injection Hq as ->. split; [apply Hk; by eexists|by symmetry].
Qed.
Lemma decode_request_ok hash q d :
  decode_request cap hash q = Ok d →
  sq_hash d = hash ∧ sq_identity d = rq_identity_subject q ∧ sq_code d = rq_code_hash q ∧ sq_created_at d = rq_created_at q ∧
  sq_expires_at d = rq_expires_at q ∧ (is_completed d = false → sq_json d = Some (rq_request_json q)).
Proof.
  unfold decode_request, bounded_json. intros Hd. apply rbind_ok in Hd as (identity & Hi & Hd). destruct (_ <? _)%Z in Hi; [done|].
  injection Hi as <-. apply rbind_ok in Hd as (js & Hj & Hd). injection Hd as <-. unfold is_completed. simpl.
  split; [done|]. split; [done|]. split; [done|]. split; [done|]. split; [done|]. intros Hn. rewrite Hn in Hj.
  destruct (_ <? _)%Z in Hj; [done|]. by injection Hj as <-.
Qed.
Lemma open_row hash q d :
  decode_request cap hash q = Ok d → is_completed d = false → rq_identity_subject q = "" ∧ rq_code_hash q = None.
Proof.
  intros (_ & Hid & Hc & _)%decode_request_ok Ho. unfold is_completed in Ho. bool_to_prop. rewrite Hid in *. rewrite Hc in *.
  split; [by destruct (rq_identity_subject q)|by apply dec_stable].
Qed.
(** A page for the pending request is shown only as long as it is open. *)
Definition loads (hash : string) (db : Db) (r : result OidcAuthorizationError (option OidcAuthorizationRequestInfo)) (db' : Db) : Prop :=
  db' = db ∧ ∀ info, r = Ok (Some info) → ∃ q client, pending_now db hash q (qi_fields info) client ∧
    qi_created_at info = rq_created_at q ∧ qi_expires_at info = rq_expires_at q.
Lemma load_initial_ok hash stop row c info c' :
  load_initial s hash stop row c = (Ok (Some info), c') → cn_writes c = ∅ →
  ∃ q client, holds_pending c' hash q (qi_fields info) client ∧ qi_created_at info = rq_created_at q ∧ qi_expires_at info = rq_expires_at q.
Proof.
  unfold load_initial. intros Hr Hw. assert (rests R c c) as I by reflexivity. read_step Hr I initial c1 Hi.
  read_step Hr I opened c2 Ho. destruct opened; [|done]. simpl in Hr. read_step Hr I js c3 Hjs. read_step Hr I fields c4 Hf.
  pose proof (clean_rests R _ _ I Hw) as Hw4. read_step Hr I client c5 Hcl. apply (client_of_ok policy R) in Hcl; [|done].
  pose proof (clean_rests R _ _ I Hw) as Hw5. read_step Hr I locked c6 Hlk. destruct locked as [q|]; [|done].
  apply request_row_locked in Hlk; [|done]. apply (holds_client_inside policy R _ _ _ _ (re_inside _ _ _ J4)) in Hcl.
  apply lift_ok in Hjs as [Hjs _], Hf as [Hf _]. apply ok_or_ok in Hjs, Hf.
  unfold load_locked in Hr. read_step Hr I current c7 Hcur. apply lift_ok in Hcur as [Hcur ->]. read_step Hr I op c8 Hop.
  assert (op = true → is_completed current = false) as Hopen.
  { intros ->. unfold request_open in Hop. by destruct (is_completed current). }
  destruct op; [|done]. specialize (Hopen eq_refl). simpl in Hr. ok_step Hr I. ok_step Hr I. ok_step Hr I. read_step Hr I u c9 Hrev.
  apply revalidate_ok in Hrev. apply ret_ok in Hr as [[= ->] ->]. bool_to_prop.
  match goal with Hb : ¬ current ≠ initial |- _ => apply dec_stable in Hb; subst initial end.
  pose proof (open_row _ _ _ Hcur Hopen) as [Hid Hcode]. apply decode_request_ok in Hcur as (_ & _ & _ & Hca & Hex & Hj).
  rewrite (Hj Hopen) in Hjs. injection Hjs as <-. exists q, client. simpl. split; [|by split]. split; try done.
  eapply holds_client_inside; [|done]. eapply re_inside. etrans; [exact J6|]. by etrans.
Qed.
Lemma live_info_some info stop c r c' : live_info info stop c = (Ok (Some r), c') → info = Some r.
Proof.
  unfold live_info. intros Hr. apply bind_ok in Hr as (? & c1 & _ & Hr). apply bind_ok in Hr as (? & c2 & _ & Hr).
  apply ret_ok in Hr as [Hr _]. destruct info as [i|]; [|done]. simpl in Hr. by destruct (_ <? _)%Z.
Qed.
Lemma load_atomic raw original c x c' :
  load s raw original c = (x, c') → idle c → fair R c →
  atomically R late_request c x c' (λ db r db', ∃ hash, request_digest s OidcAuthRequest raw = Ok hash ∧ loads hash db r db').
Proof.
  intros Hr Hidle Hfair. pose proof Hidle as [Hw _].
  match goal with |- ?G => assert (∀ e, x = Err e → inside R c c' → G) as Hno by (intros; by eapply (atomically_nothing R)) end.
  unfold load in Hr. assert (rests R c c) as I by reflexivity. read_step Hr I stop c1 Hm1. guard_step Hr I G1.
  read_step Hr I hash c2 Hhash. apply lift_ok in Hhash as [Hhash _]. read_step Hr I u3 c3 Hm3. read_step Hr I u4 c4 Hm4.
  read_step Hr I row c5 Hm5. pose proof (clean_rests R _ _ I Hw) as Hw5.
  assert (keeps (rests R) (match row with Some row => load_initial s hash stop row | None => ret None end)) as Hk.
  { destruct row; auto with broker. }
  read_step Hr I info c6 Hinfo. clear Hk.
  assert (∀ i, info = Some i → ∃ q client, holds_pending c6 hash q (qi_fields i) client ∧ qi_created_at i = rq_created_at q ∧
    qi_expires_at i = rq_expires_at q) as Hpend.
  { intros i ->. destruct row as [row|]; [|done]. by eapply load_initial_ok. }
  read_step Hr I info' c7 Hlive.
  assert ((do? (ret tt : M Tx OidcAuthorizationError unit) in do? sql_commit in live_info info' stop) c7 = (x, c')) as Hr' by exact Hr.
  eapply read_commit; [exact Hr'|done|done|exact I|auto with broker|auto with broker|].
  intros a c8 c9 c10 Hi Ha _. exists hash. split; [done|]. split; [done|]. intros i [= ->]. apply live_info_some in Ha as ->.
  apply live_info_some in Hlive as ->. destruct (Hpend i eq_refl) as (q & client & Hp & Hc & He). exists q, client. split; [|done].
  eapply holds_pending_db, holds_pending_inside; [|exact Hp]. etrans; [exact (re_inside _ _ _ J5)|done].
Qed.

(** A pending request, unexpired at one of the times that [was] holds of, is
    completed by a principal: the code [drawn] becomes its code, at another of
    these times. *)
Definition completes (was : Z → Prop) (drawn : option string) (hash : string) (who : Db → RequestRow → OidcPrincipal → list string → Prop) (db : Db)
    (r : result OidcAuthorizationError AuthorizedOidcAuthorization) (db' : Db) : Prop :=
  ∃ q fields client principal subject code_hash json now a,
    r = Ok a ∧ pending_now db hash q fields client ∧ was now ∧ (now < rq_expires_at q)%Z ∧ who db q principal (aa_amr a) ∧
    drawn = Some (aa_code a) ∧ was (aa_auth_time a) ∧
    oidc_subject (pa_digester s) (pr_issuer principal) (pr_subject principal) = Ok subject ∧
    request_digest s OidcAuthorizationCode (aa_code a) = Ok code_hash ∧
    authorized_json {| az_request := with_phase fields "authorized"; az_principal := principal; az_oidc_subject := subject;
      az_amr := aa_amr a; az_auth_time := aa_auth_time a |} = Some json ∧
    qi_fields (aa_info a) = with_phase fields "authorized" ∧
    db' = <[requests hash := RRequest (authorized_row (pr_subject principal) json code_hash q)]> db.
Lemma completes_was (was was' : Z → Prop) drawn hash who db r db' :
  (∀ now, was now → was' now) → completes was drawn hash who db r db' → completes was' drawn hash who db r db'.
Proof.
  intros Hw (q & fields & client & principal & subject & code & json & now & a & Hr & Hp & Hn & Hlt & Hwho & Hd & Ha & Hrest).
  exists q, fields, client, principal, subject, code, json, now, a. do 2 (split; [done|]). split; [by apply Hw|].
  do 3 (split; [done|]). split; [by apply Hw|exact Hrest].
Qed.
Lemma pending_initial_ok hash stop c initial c' :
  pending_initial s hash stop c = (Ok initial, c') → is_completed initial = false.
Proof.
  unfold pending_initial. intros Hr. apply bind_ok in Hr as (row & c1 & _ & Hr). apply bind_ok in Hr as (q & c2 & _ & Hr).
  apply bind_ok in Hr as (d & c3 & _ & Hr). destruct (is_completed d) eqn:Ed; [done|]. invert_run Hr. by subst.
Qed.
Lemma pending_locked_ok hash initial fields client stop c u c' :
  pending_locked s hash initial fields client stop c = (Ok u, c') → cn_writes c = ∅ → pending_parse initial = Ok fields →
  holds_client policy c (pf_client_id fields) client →
  ∃ q, holds_pending c' hash q fields client ∧ decode_request cap hash q = Ok initial ∧ is_completed initial = false.
Proof.
  unfold pending_locked. intros Hr Hw Hp Hcl. assert (rests R c c) as I by reflexivity. read_step Hr I row c1 Hrow.
  read_step Hr I q c2 Hq. apply lift_ok in Hq as [Hq ->]. apply ok_or_ok in Hq as ->. apply request_row_locked in Hrow; [|done].
  read_step Hr I current c3 Hcur. apply lift_ok in Hcur as [Hcur ->]. destruct (is_completed current) eqn:Eo; [done|].
  read_step Hr I u4 c4 Hg. ok_step Hr I. bool_to_prop. match goal with Hb : ¬ current ≠ initial |- _ => apply dec_stable in Hb; subst initial end.
  assert (rests R c4 c') as J9 by (eapply rests_txn_with, Hr; auto with broker). apply revalidate_ok in Hr.
  pose proof (open_row _ _ _ Hcur Eo) as [Hid Hcode]. pose proof (decode_request_ok _ _ _ Hcur) as (_ & _ & _ & _ & _ & Hj).
  unfold pending_parse in Hp. rewrite (Hj Eo) in Hp. simpl in Hp. apply ok_or_ok in Hp. exists q. split; [|done].
  split; try done; [by eapply held_inside; [exact (re_inside _ _ _ J9)|]|].
  eapply holds_client_inside; [|done]. eapply re_inside. by etrans.
Qed.
(** The update of the locked row. *)
Lemma authorize_update hash initial js now f clash q c n c' :
  update_unique (E:=OidcAuthorizationError) (request_at hash (open_request initial js now)) (set_request f) clash c = (Ok n, c') → n = 1 →
  cn_writes c = ∅ → held c (requests hash) (Some (RRequest q)) →
  (now < rq_expires_at q)%Z ∧ ∃ c1, rests R c c1 ∧ c' = with_writes c1 {[requests hash := Some (RRequest (f q))]}.
Proof.
  intros Hu -> Hw Hh. apply (update_unique_ok R) in Hu as (c1 & I1 & Hn & _ & ->).
  destruct (held_inside R _ _ _ _ (re_inside _ _ _ I1) Hh) as [_ Ht].
  unfold request_at in *. rewrite rows_at_key, view_clean, Ht in * by exact (clean_rests R _ _ I1 Hw).
  destruct (open_request initial js now q) eqn:Eq; [|by rewrite map_size_empty in Hn]. unfold open_request in Eq. bool_to_prop.
  split; [done|]. exists c1. split; [done|]. by rewrite map_fmap_singleton.
Qed.
Lemma authorize_request_ok hash initial fields client principal amr since stop proof random q c x c' :
  authorize s hash initial fields principal amr since stop proof random c = (x, c') → cn_writes c = ∅ →
  holds_pending c hash q fields client → keeps (rests R) proof → keeps same_db proof → only late_request proof →
  (∃ e, x = Err e ∧ inside R c c') ∨
  ∃ c1 a, inside R c c1 ∧ cn_db c' = view c1 ∧ aa_amr a = amr ∧
    (∀ who, who (cn_db c1) q principal amr → completes (read_at c) (new_local_auth_challenge random) hash who (cn_db c1) (Ok a) (view c1)) ∧
    (x = Ok a ∨ ∃ e, x = Err e ∧ late_request e).
Proof.
  intros Hr Hw Hp Kr Ks Kl. match goal with |- ?G => assert (∀ e, x = Err e → inside R c c' → G) as Hno by (intros; left; eauto) end.
  unfold authorize in Hr. assert (rests R c c) as I by reflexivity. read_step Hr I subject c1 Hsub. read_step Hr I cde c2 Hcode.
  read_step Hr I code_hash c3 Hch. pose proof (re_inside _ _ _ I) as Hi3. read_step Hr I auth_time c4 Hat. guard_step Hr I G1. read_step Hr I js c5 Hjs. guard_step Hr I G2.
  read_step Hr I u6 c6 Hm6. read_step Hr I u7 c7 Hm7. read_step Hr I ij c8 Hm8. pose proof (re_inside _ _ _ I) as Hi8. read_step Hr I now c9 Hm9.
  apply lift_ok in Hsub as [Hsub%rmap_err_ok _], Hcode as [Hcode _], Hch as [Hch _], Hjs as [Hjs _]. apply ok_or_ok in Hjs, Hcode.
  apply (read_at_now R c) in Hat, Hm9; [|done..]. bool_to_prop. pose proof (clean_rests R _ _ I Hw) as Hw9. pose proof (re_inside _ _ _ I) as Hi9.
  apply (bind_inside R) in Hr as [(n & c10 & Hu & Hi10 & Hr)|(e & He & Hi)]; [|eapply Hno; [exact He|by etrans]|auto with broker].
  assert (inside R c c10) as Hi010 by (by etrans). destruct (negb (n =? 1)) eqn:En; [injection Hr as <- <-; by eapply Hno|].
  apply negb_false_iff, Nat.eqb_eq in En. pose proof (holds_pending_inside _ _ _ _ _ _ Hi9 Hp) as Hp9.
  destruct (authorize_update _ _ _ _ _ _ _ _ _ _ Hu En Hw9 (hp_row _ _ _ _ _ Hp9)) as (Hlt & c11 & I11 & ->).
  apply (bind_rests R) in Hr as [(u12 & c12 & _ & I12 & Hr)|(e & He & Hi)]; [|eapply Hno; [exact He|by etrans]|auto with broker].
  apply gated_commit in Hr as [(e & He & Hi)|(c13 & I13 & Hdb & Hx)];
    [eapply Hno; [exact He|etrans; [exact Hi010|]; etrans; [exact (re_inside _ _ _ I12)|done]]| |done|auto with broker].
  assert (rests R (with_writes c11 {[requests hash := Some (RRequest (authorized_row (pr_subject principal) js code_hash q))]}) c13)
    as [Hi1113 Hw13] by (by etrans).
  right. eexists c13, {| aa_code := cde; aa_info := {| qi_fields := with_phase fields "authorized"; qi_created_at := sq_created_at initial;
    qi_expires_at := sq_expires_at initial |}; aa_subject := subject; aa_amr := amr; aa_auth_time := auth_time |}.
  assert (inside R c c13) as Hi by (by etrans). split; [done|]. split; [done|]. split; [done|]. split.
  - intros who Hwho. eexists q, fields, client, principal, subject, code_hash, js, now, _. split; [reflexivity|].
    split; [by eapply holds_pending_db, holds_pending_inside|]. do 9 (split; [done|]).
    change (view c13) with (apply_writes (cn_writes c13) (cn_db c13)).
    by rewrite Hw13, writes_one, (clean_rests R _ _ I11 Hw9), apply_insert, apply_empty.
  - destruct Hx as [(c14 & c15 & Hx)| ->]; [|right; eexists; split; [done|]; right; right; by eexists].
    apply bind_cases in Hx as [(? & c16 & _ & Hx)|(e & Hx & ->)]; [|right; exists e; split; [done|by eapply late_final_gate]].
    apply bind_cases in Hx as [(? & c17 & _ & Hx)|(e & Hx & ->)]; [|right; exists e; split; [done|by eapply Kl]].
    unfold TimestampMicros_new in Hx. destruct (Z.ltb_spec auth_time 0); [lia|]. injection Hx as <- _. by left.
Qed.

(** By a person who has logged in for this very request since it was made, and
    who at that moment may act and is as they were at the login. *)
Definition by_login (raw : string) (login : CompletedLocalLogin) (db : Db) (q : RequestRow) (p : OidcPrincipal) (amr : list string) : Prop :=
  login_verify_binding login (pa_digester s) (BindOauthAuthorize raw) = Some tt ∧ (rq_created_at q ≤ cll_observed_at login)%Z ∧
  amr = (if cll_factor_verified login then ["pwd"; "otp"] else ["pwd"]) ∧
  ∃ u lp, db !! users (cll_username login) = Some (RUser u) ∧
    user_principal (cll_subject login) (cll_username login) (cll_revision login) cap (cll_username login) u = Ok lp ∧
    p = Local {| lp_issuer := lp_issuer lp; lp_subject := lp_subject lp; lp_username := lp_username lp;
                 lp_local_user_revision := lp_local_user_revision lp; lp_name := lp_name lp; lp_email := lp_email lp;
                 lp_organization := lp_organization lp; lp_teams := lp_teams lp; lp_roles := pr_roles p |}.
(** By a login for this very request with an issuer that is trusted. *)
Definition by_upstream (raw : string) (login : VerifiedUpstreamLogin) (verifier : UpstreamBearerVerifier) (db : Db) (q : RequestRow)
    (p : OidcPrincipal) (amr : list string) : Prop :=
  (∃ provider, ul_continuation login = FlowOAuth provider raw) ∧ ul_owner login = uv_owner verifier ∧ amr = ["federated"] ∧
  p = upstream_principal login ∧ pr_valid p = true ∧ current_trust p (Some (uv_trust verifier)) = true.
Lemma from_upstream_ok login verifier (c : Tx) p c' :
  txn_with proof_error (from_upstream login verifier) c = (Ok p, c') →
  ul_owner login = uv_owner verifier ∧ p = upstream_principal login ∧ pr_valid p = true ∧ current_trust p (Some (uv_trust verifier)) = true.
Proof.
  unfold txn_with. destruct (from_upstream login verifier (cn_clock c)) as [x k] eqn:Er. intros Hx. destruct x as [b|e]; [|done].
  injection Hx as -> _. unfold from_upstream in Er. apply bind_ok in Er as (u & k1 & Hc & Er). unfold login_check in Hc.
  destruct (_ || _) eqn:E1 in Hc; [done|]. destruct (negb (Bool.eqb _ _)); [done|]. cbv zeta in Er.
  destruct (_ || _) eqn:E2 in Er; [done|]. apply ret_ok in Er as [-> _]. bool_to_prop. split; [by apply Nat.eqb_eq|done].
Qed.
Lemma complete_atomic raw login original random c x c' :
  complete s raw login original random c = (x, c') → idle c → fair R c →
  atomically R late_request c x c' (λ db r db', ∃ hash, request_digest s OidcAuthRequest raw = Ok hash ∧
    completes (read_at c) (new_local_auth_challenge random) hash (by_login raw (po_login login)) db r db').
Proof.
  intros Hr Hidle Hfair. pose proof Hidle as [Hw _].
  match goal with |- ?G => assert (∀ e, x = Err e → inside R c c' → G) as Hno by (intros; by eapply (atomically_nothing R)) end.
  unfold complete in Hr. assert (rests R c c) as I by reflexivity. read_step Hr I stop c1 Hm1. guard_step Hr I G1. cbv zeta in Hr.
  read_step Hr I u2 c2 Hver. read_step Hr I hash c3 Hhash. apply lift_ok in Hver as [Hver _], Hhash as [Hhash _]. apply ok_or_ok in Hver.
  destruct u2. read_step Hr I u4 c4 Hm4. read_step Hr I u5 c5 Hm5. read_step Hr I initial c6 Hinit. guard_step Hr I G2.
  read_step Hr I fields c7 Hf. apply lift_ok in Hf as [Hf _]. guard_step Hr I G3. read_step Hr I now c8 Hm8. guard_step Hr I G4.
  pose proof (clean_rests R _ _ I Hw) as Hw8. read_step Hr I principal c9 Hprin. pose proof (clean_rests R _ _ I Hw) as Hw9.
  apply (current_principal_ok R) in Hprin as (u & lp & Hu & Hup & Hp); [|done].
  read_step Hr I client c10 Hcl. pose proof (clean_rests R _ _ I Hw) as Hw10. apply (client_of_ok policy R) in Hcl; [|done].
  read_step Hr I u11 c11 Hlk. eapply pending_locked_ok in Hlk as (q & Hpend & Hdec & _); [|done..]. pose proof (re_inside _ _ _ I) as Hi.
  eapply authorize_request_ok in Hr as [(e & He & Hi')|(c12 & a & Hi12 & Hdb & Hamr & Hcomp & Hx)];
    [eapply Hno; [done|by etrans]| |by eapply clean_rests|done|auto with broker|auto with broker|apply only_ret].
  eapply (atomically_step R); [done|done|by etrans|exact Hdb| |exact Hx]. exists hash. split; [done|].
  eapply completes_was; [intros ?; by apply (read_at_inside R)|]. apply Hcomp.
  apply decode_request_ok in Hdec as (_ & _ & _ & Hca & _). bool_to_prop. split; [done|]. split; [lia|]. split; [done|].
  exists u, lp. split; [by apply (held_inside R _ _ _ _ Hi12) in Hu as [_ ?]|]. done.
Qed.
Lemma complete_upstream_atomic login verifier original random c x c' :
  complete_upstream s login verifier original random c = (x, c') → idle c → fair R c →
  atomically R late_request c x c' (λ db r db', ∃ raw hash, request_digest s OidcAuthRequest raw = Ok hash ∧
    completes (read_at c) (new_local_auth_challenge random) hash (by_upstream raw login verifier) db r db').
Proof.
  intros Hr Hidle Hfair. pose proof Hidle as [Hw _].
  match goal with |- ?G => assert (∀ e, x = Err e → inside R c c' → G) as Hno by (intros; by eapply (atomically_nothing R)) end.
  unfold complete_upstream in Hr. assert (rests R c c) as I by reflexivity. read_step Hr I stop c1 Hm1. read_step Hr I u2 c2 Hm2.
  read_step Hr I raw c3 Hraw. apply lift_ok in Hraw as [Hraw _]. guard_step Hr I G1. read_step Hr I principal c4 Hprin.
  apply from_upstream_ok in Hprin as (Hown & Hp & Hval & Htrust). read_step Hr I hash c5 Hhash. apply lift_ok in Hhash as [Hhash _].
  read_step Hr I u6 c6 Hm6. read_step Hr I u7 c7 Hm7. read_step Hr I initial c8 Hinit. read_step Hr I fields c9 Hf.
  apply lift_ok in Hf as [Hf _]. pose proof (clean_rests R _ _ I Hw) as Hw9. read_step Hr I client c10 Hcl.
  pose proof (clean_rests R _ _ I Hw) as Hw10. apply (client_of_ok policy R) in Hcl; [|done].
  read_step Hr I u11 c11 Hlk. eapply pending_locked_ok in Hlk as (q & Hpend & Hdec & _); [|done..].
  read_step Hr I u12 c12 Hm12. guard_step Hr I G2. pose proof (re_inside _ _ _ I) as Hi.
  eapply holds_pending_inside in Hpend; [|exact (re_inside _ _ _ J10)].
  eapply authorize_request_ok in Hr as [(e & He & Hi')|(c13 & a & Hi13 & Hdb & Hamr & Hcomp & Hx)];
    [eapply Hno; [done|by etrans]| |by eapply clean_rests|done|auto with broker|auto with broker|apply late_proof].
  eapply (atomically_step R); [done|done|by etrans|exact Hdb| |exact Hx]. exists raw, hash. split; [done|].
  eapply completes_was; [intros ?; by apply (read_at_inside R)|]. apply Hcomp.
  split; [|done]. destruct (ul_continuation login); [done|]. injection Hraw as ->. by eexists.
Qed.
End atomic.

Section claims.
Context `{OidcLib, CredentialLib, AuthLib, RefreshLib, RequestLib} (s : PostgresOidcAuthorizationService).
(** C19. The completion of an authorization request is one atomic step.  Whatever
    other transactions commit meanwhile, and wherever a statement fails or the
    deadline cuts the operation off: either nothing is changed and an error
    reported, or at one moment the pending request of that very secret, not
    expired at a time the operation read from its clock and
    whose stored fields its current client could still ask for, receives the hash
    of the code just drawn, for the person who logged in for this request after it
    was made and who at that moment may act and is unchanged since the login.  The
    code is what the answer holds, or an error comes too late to undo it. *)
Theorem complete_refines (R : gset Key → Db → Db → Prop) `{!Rely R} raw login original random (c : Tx) x c' :
  complete s raw login original random c = (x, c') → idle c → fair R c →
  ∃ db, R ∅ (cn_db c) db ∧
    ((∃ e, x = Err e) ∧ cn_db c' = db ∨
     ∃ r, (∃ hash, request_digest s OidcAuthRequest raw = Ok hash ∧
             completes s (read_at c) (new_local_auth_challenge random) hash (by_login s raw (po_login login)) db r (cn_db c')) ∧
       (x = r ∨ ∃ e, x = Err e ∧ late_request e)).
Proof. apply complete_atomic, _. Qed.
(** A browser is sent only to registered redirects.  A request from a browser
    either is stored as pending, when the policy admits it for the client it names, or is rejected, with nothing changed, for a reason of the protocol;
    the rejection is then addressed to the redirect of the request only when that
    client, as it is registered at that moment, may use it.  Otherwise there is an
    error that names no redirect. *)
Theorem browser_refines (R : gset Key → Db → Db → Prop) `{!Rely R} i original random (c : Tx) x c' :
  admit_browser s i original random c = (x, c') → idle c → fair R c →
  ∃ db, R ∅ (cn_db c) db ∧
    ((∃ e, x = Err e) ∧ cn_db c' = db ∨
     ∃ r, browses s i db r (cn_db c') ∧ (x = r ∨ ∃ e, x = Err e ∧ late_request e)).
Proof. apply admit_browser_atomic, _. Qed.
End claims.
