(* ===== verification/OidcEndSession.v ===== *)
(** * The end of a session

    crates/broker-control/src/oidc_end_session.rs, service/oidc_end_session.rs,
    [lock_pair_exclusive] of service/oidc_tokens.rs, and the verification of an
    ID token hint in broker_access.rs: whoever presents an ID token the broker
    signed, also an expired one, ends every stored grant of its subject with its
    client.  The decoding of the token by [jsonwebtoken] and [serde] is a
    parameter. *)

From stdpp Require Import gmap.
From S2P Require Import Prelude RustStr Order Control BrokerAccess AccessIssuer Sql OidcTables.
From S2P Require Import StorageAdmission Credentials OidcPolicy OidcRefresh OidcRevocation.

(** ** ID token hints *)

Record EndSessionClaims := {
  ec_iss : string;
  ec_sub : string;
  ec_aud : list string;
  ec_iat : Z;
  ec_exp : Z;
  ec_auth_time : Z;
  ec_amr : list string;
  ec_azp : string;
  ec_client_id : string;
  ec_at_hash : string;
  ec_c_hash : option string;
  ec_nonce : option string;
  ec_nbf : option Z;
}.
(** The settings of [jsonwebtoken::Validation], and whether the expiry counts. *)
Record HintValidation := { hv_validation : Validation; hv_validate_exp : bool }.
(** Verification of an ID token under a key: one whole object, no field twice,
    none of the claims that only access tokens carry. *)
Class HintLib `{JwtLib} := {
  hint_decode : DecodingKey → HintValidation → string → M clock JwtErrorKind EndSessionClaims;
}.
Record VerifiedEndSessionHint := {
  vh_subject : string;
  vh_client_id : string;
  vh_issued_at : Z;
  vh_auth_time : Z;
  vh_nbf : option Z;
  vh_original : Z;
}.
Definition hint_guard (original : Z) : M clock OidcTokenExchangeError unit :=
  let? now := instant_now in if (original <=? now)%Z then fail (TX_Control CE_Deadline) else ret tt.
(** [u64::try_from(now_micros()? / 1_000_000)] *)
Definition now_seconds : M clock OidcTokenExchangeError Z :=
  let? now := map_err TX_Control now_micros in
  let secs := Z.quot now 1000000 in
  if (secs <? 0)%Z then fail (TX_Control CE_Clock) else ret secs.
(** [VerifiedEndSessionHint::check] *)
Definition hint_check (p : VerifiedEndSessionHint) : M clock OidcTokenExchangeError unit :=
  do? hint_guard (vh_original p) in
  let? now := now_seconds in
  if (now <? vh_issued_at p)%Z || (now <? vh_auth_time p)%Z || is_some_and (vh_nbf p) (λ v, (now <? v)%Z)
  then fail (TX_Control CE_Clock) else ret tt.
(** [aud.iter().all(|v| !v.trim().is_empty() && audience.insert(v))], with the set built. *)
Fixpoint hint_audience (seen : gset string) (values : list string) : option (gset string) :=
  match values with
  | [] => Some seen
  | v :: values =>
      if negb (is_empty (trim v)) && negb (bool_decide (v ∈ seen)) then hint_audience ({[v]} ∪ seen) values else None
  end.

Section hints.
Context `{HintLib, CredentialLib, AuthLib}.
Definition hint_validation (v : BrokerAccessVerifier) : HintValidation :=
  {| hv_validation := access_validation v; hv_validate_exp := false |}.
Definition hash_claim (v : string) : bool :=
  is_some_and (url_b64_decode v) (λ bytes, (len bytes =? 32)%Z && str_eqb (url_b64_encode bytes) v).
Definition date_claim (value : Z) : bool :=
  is_some_and (checked_add_time UNIX_EPOCH (value * NANOS)) (λ t, match TimestampMicros_try_from t with Some _ => true | None => false end).
Definition hint_claims (v : BrokerAccessVerifier) (claims : EndSessionClaims) (now : Z) : bool :=
  str_eqb (ec_iss claims) (bv_issuer v)
  && validate_local_auth_challenge (ec_sub claims)
  && (match OidcClientId_parse (ec_client_id claims) with Some _ => true | None => false end)
  && str_eqb (ec_azp claims) (ec_client_id claims)
  && negb (bool_decide (ec_aud claims = [])) && (length (ec_aud claims) <=? 3)%nat
  && is_some_and (hint_audience ∅ (ec_aud claims)) (λ audience,
       bool_decide (bv_api_audience v ∈ audience) && bool_decide (ec_client_id claims ∈ audience))
  && (ec_iat claims <=? now)%Z && negb (ec_auth_time claims =? 0)%Z && (ec_auth_time claims <=? ec_iat claims)%Z
  && (ec_iat claims <? ec_exp claims)%Z && is_none_or (ec_nbf claims) (λ v, (v <=? now)%Z)
  && forallb date_claim [ec_iat claims; ec_exp claims; ec_auth_time claims] && is_none_or (ec_nbf claims) date_claim
  && negb (bool_decide (ec_amr claims = [])) && forallb (λ v, negb (is_empty (trim v))) (ec_amr claims)
  && hash_claim (ec_at_hash claims) && is_none_or (ec_c_hash claims) hash_claim
  && is_none_or (ec_nonce claims) (λ v, negb (is_empty v)).
(** The closure of [verify_end_session_hint]. *)
Definition hint_body (v : BrokerAccessVerifier) (raw : string) (original : Z) : M clock OidcTokenExchangeError VerifiedEndSessionHint :=
  let? key := lift_result (rmap_err (λ _, TX_InvalidRequest) (trusted_key v raw)) in
  let? claims := map_err (λ _, TX_InvalidRequest) (hint_decode key (hint_validation v) raw) in
  let? now := now_seconds in
  if negb (hint_claims v claims now) then fail TX_InvalidRequest else
  let proof := {| vh_subject := ec_sub claims; vh_client_id := ec_client_id claims; vh_issued_at := ec_iat claims;
                  vh_auth_time := ec_auth_time claims; vh_nbf := ec_nbf claims; vh_original := original |} in
  do? hint_check proof in
  ret proof.
Definition verify_end_session_hint (v : BrokerAccessVerifier) (raw : string) (original : Z)
    : M clock OidcTokenExchangeError VerifiedEndSessionHint :=
  do? hint_guard original in
  let? outcome := outcome (hint_body v raw original) in
  do? hint_guard original in
  lift_result outcome.
End hints.

(** ** The operation *)

Record OidcEndSessionInput := { ei_id_token_hint : option string; ei_client_id : option string }.
(** pg_advisory_xact_lock, which waits for the holders of the shared lock of the
    pair, and they for it. *)
Definition PAIR_LOCK : string := "pg_advisory_xact_lock 4750302 exclusive".

Section session.
Context `{OidcLib, HintLib, CredentialLib, AuthLib}.
Record PostgresOidcEndSession := {
  pe_digester : CredentialDigester;
  pe_operation_timeout : Z;
  pe_authorization : OidcAuthorizationPolicy;
  pe_verifier : BrokerAccessVerifier;
}.
Definition oidc_end_session (digester : CredentialDigester) (operation_timeout : Z) (authorization : OidcAuthorizationPolicy)
    (verifier : BrokerAccessVerifier) : result OidcTokenExchangeError PostgresOidcEndSession :=
  if negb (str_eqb (bv_api_audience verifier) (op_api_audience authorization)) then Err TX_InvalidConfiguration else
  Ok {| pe_digester := digester; pe_operation_timeout := operation_timeout; pe_authorization := authorization;
        pe_verifier := verifier |}.
Definition lock_pair_exclusive (subject client : string) (stop : Z) : M Tx ControlError unit :=
  do? guard_original stop in
  let? key := lift_result (ok_or (json_pair subject client) CE_Storage) in
  do? advisory_lock (PAIR_LOCK, key) in
  guard_original stop.

Section service.
Context (s : PostgresOidcEndSession).
Notation cap := (ol_json_bytes (op_limits (pe_authorization s))).
Notation audience := (op_api_audience (pe_authorization s)).
(** WHERE oidc_subject=… AND client_id=… AND audience=… AND token_kind IN ('oidc_access','refresh') *)
Definition of_pair (subject client : string) (t : TokenRow) : bool :=
  str_eqb (tk_oidc_subject t) subject && str_eqb (tk_client_id t) client && str_eqb (tk_audience t) audience
  && (str_eqb (tk_token_kind t) "oidc_access" || str_eqb (tk_token_kind t) "refresh").
Definition pair_where (subject client : string) (q : TokenRow → bool) : Key → Row → bool := λ k r,
  match r with RToken t => str_eqb k.1 "local_tokens" && of_pair subject client t && q t | _ => false end.
(** ORDER BY created_at DESC LIMIT 1 *)
Definition newest (ts : list TokenRow) : option TokenRow :=
  foldl (λ best t, match best with
                   | Some b => if (tk_created_at b <? tk_created_at t)%Z then Some t else Some b
                   | None => Some t
                   end) None ts.
Definition select_newest (subject client : string) : M Tx OidcTokenExchangeError (option TokenRow) :=
  do? sql_await in λ c,
    (Ok (newest (omap (λ kv, match kv.2 with RToken t => Some t | _ => None end)
       (map_to_list (rows (pair_where subject client (λ _, true)) (view c))))), c).
(** The row of a local person, when there still is one, FOR UPDATE. *)
Definition lock_person (subject : string) : M Tx OidcTokenExchangeError unit :=
  let? row := select_where_locked (user_where subject) in
  match row with Some (k, _) => λ c, (Ok tt, with_locks c {[(USER_LOCK, k.2)]}) | None => ret tt end.
(** The newest token of the pair must be in order; its time is returned. *)
Definition check_newest (p : VerifiedEndSessionHint) (t : TokenRow) : M Tx OidcTokenExchangeError Z :=
  let? subject := lift_result (bound_column cap (tk_subject t)) in
  let? json := lift_result (bound_column cap (tk_principal_json t)) in
  let? principal := lift_result (principal_parse json) in
  if (tk_created_at t <=? 0)%Z || negb (str_eqb (pr_subject principal) subject) || negb (pr_revision principal =? tk_local_user_revision t)%Z
  then fail TX_MalformedStored else
  let? now := txn_clock now_micros in
  if (now <? tk_created_at t)%Z then fail (TX_Control CE_Clock) else
  let? oidc := lift_result (rmap_err (λ _, TX_Credential) (oidc_subject (pe_digester s) (pr_issuer principal) subject)) in
  if negb (str_eqb oidc (vh_subject p)) then fail TX_MalformedStored else
  do? (if str_eqb (pr_issuer principal) "local" then lock_person subject else ret tt) in
  ret (tk_created_at t).
Definition end_session (i : OidcEndSessionInput) (original : Z) : M Tx OidcTokenExchangeError unit :=
  let? stop := txn_clock (bounded_deadline original (pe_operation_timeout s)) in
  let? size := lift_result (ok_or (checked_add_usize (len (default "" (ei_id_token_hint i))) (len (default "" (ei_client_id i))))
    TX_InvalidRequest) in
  if (ol_parameter_bytes (op_limits (pe_authorization s)) <? size)%Z then fail TX_InvalidRequest else
  let? raw := lift_result (ok_or (ei_id_token_hint i ≫= nonempty) TX_InvalidRequest) in
  let? proof := txn_with id (verify_end_session_hint (pe_verifier s) raw stop) in
  if is_some_and (ei_client_id i) (λ v, negb (str_eqb v (vh_client_id proof))) then fail TX_InvalidRequest else
  do? sql_await in
  do? sql_await in
  do? map_err from_control (lock_pair_exclusive (vh_subject proof) (vh_client_id proof) stop) in
  do? txn_with id (hint_check proof) in
  let? row := select_newest (vh_subject proof) (vh_client_id proof) in
  let? newest_created := match row with Some t => check_newest proof t | None => ret 0%Z end in
  do? txn_with id (hint_check proof) in
  let? now := txn_clock now_micros in
  if (now <? newest_created)%Z then fail (TX_Control CE_Clock) else
  let? _ := update_where (pair_where (vh_subject proof) (vh_client_id proof) (λ t, bool_decide (tk_revoked_at t = None)))
    (set_token (revoked now)) in
  do? txn_with id (hint_check proof) in
  do? guard_original stop in
  do? sql_commit in
  do? guard_original stop in
  txn_with id (hint_check proof).
End service.
End session.

(** ** What it does to the database *)

(** Whoever stores a token of a pair holds the shared lock of the pair, so this
    does not happen, and no token is made valid again, under the exclusive one. *)
Class PairRely `{OidcLib} (R : gset Key → Db → Db → Prop) : Prop :=
  pair_kept ks db db' subject client key h t :
    R ks db db' → json_pair subject client = Some key → (PAIR_LOCK, key) ∈ ks → db' !! tokens h = Some (RToken t) →
    tk_oidc_subject t = subject → tk_client_id t = client →
    ∃ t0, db !! tokens h = Some (RToken t0) ∧ tk_oidc_subject t0 = subject ∧ tk_client_id t0 = client ∧
      tk_audience t0 = tk_audience t ∧ tk_token_kind t0 = tk_token_kind t ∧ (tk_revoked_at t = None → tk_revoked_at t0 = None).

Section effects.
Context `{OidcLib, HintLib, CredentialLib, AuthLib} (R : gset Key → Db → Db → Prop) `{!Rely R}.
(** The verification of a token runs on the clock. *)
Class ClockedHint : Prop := { clocked_hint key validation raw : keeps clock_run (hint_decode key validation raw) }.
Lemma keeps_now_seconds : keeps clock_run now_seconds.
Proof. unfold now_seconds. auto 10 with broker. Qed.
#[local] Hint Resolve keeps_now_seconds : broker.
Lemma keeps_hint_check p : keeps clock_run (hint_check p).
Proof. unfold hint_check, hint_guard. auto 20 with broker. Qed.
#[local] Hint Resolve keeps_hint_check : broker.
Lemma keeps_verify_hint `{!ClockedHint} v raw stop : keeps clock_run (verify_end_session_hint v raw stop).
Proof. pose proof clocked_hint. unfold verify_end_session_hint, hint_body, hint_guard. auto 30 with broker. Qed.
Lemma rests_lock_pair_exclusive subject client stop : keeps (rests R) (lock_pair_exclusive subject client stop).
Proof. unfold lock_pair_exclusive. auto 10 with broker. Qed.
Lemma rests_select_newest s subject client : keeps (rests R) (select_newest s subject client).
Proof. apply keeps_bind; [apply _|auto with broker|]. intros _. by apply rests_here. Qed.
Lemma rests_check_newest s p t : keeps (rests R) (check_newest s p t).
Proof.
  unfold check_newest, lock_person.
  repeat (apply keeps_bind; [apply _|auto 10 with broker|intros] || case_match); auto with broker.
  all: apply rests_here; intros c; apply locks_rests, _.
Qed.
End effects.
#[export] Hint Resolve keeps_now_seconds keeps_hint_check keeps_verify_hint : broker.
#[export] Hint Extern 1 (keeps (rests _) (lock_pair_exclusive _ _ _)) => apply rests_lock_pair_exclusive : broker.
#[export] Hint Extern 1 (keeps (rests _) (select_newest _ _ _)) => apply rests_select_newest : broker.
#[export] Hint Extern 1 (keeps (rests _) (check_newest _ _ _)) => apply rests_check_newest : broker.

(** ** The end of a session, as one atomic step *)

Section ended.
Context `{OidcLib, HintLib, CredentialLib, AuthLib} (s : PostgresOidcEndSession).
(** The hint was signed under a key the verifier trusts, for its own audience,
    and names the subject and the client it was issued to. *)
Definition signed_pair (v : BrokerAccessVerifier) (raw subject client : string) : Prop :=
  ∃ key claims k k', trusted_key v raw = Ok key ∧ hint_decode key (hint_validation v) raw k = (Ok claims, k') ∧
    ec_iss claims = bv_issuer v ∧ ec_sub claims = subject ∧ ec_client_id claims = client ∧ ec_azp claims = client ∧
    bv_api_audience v ∈ ec_aud claims ∧ client ∈ ec_aud claims.
(** Every token of the pair is revoked, and nothing else changes. *)
Inductive ends (subject client : string) (db : Db) : Db → Prop :=
| Ends now db' :
    (∀ k, db' !! k = db !! k ∨
      ∃ t, db !! k = Some (RToken t) ∧ of_pair s subject client t = true ∧ tk_revoked_at t = None ∧ db' !! k = Some (RToken (revoked now t))) →
    (∀ h t, db' !! tokens h = Some (RToken t) → of_pair s subject client t = true → tk_revoked_at t ≠ None) →
    ends subject client db db'.

Context (R : gset Key → Db → Db → Prop) `{!Rely R, !PairRely R, !ClockedHint}.
Lemma hint_audience_ok seen values s' : hint_audience seen values = Some s' → s' = list_to_set values ∪ seen.
Proof.
  revert seen. induction values as [|v values IH]; intros seen; simpl; [intros [= <-]; set_solver|].
  destruct (_ && _); [|done]. intros ->%IH. set_solver.
Qed.
Lemma verify_hint_ok v raw stop k p k' :
  verify_end_session_hint v raw stop k = (Ok p, k') → signed_pair v raw (vh_subject p) (vh_client_id p).
Proof.
  unfold verify_end_session_hint. intros Hr. apply bind_ok in Hr as (_ & k1 & _ & Hr). apply bind_ok in Hr as (o & k2 & Ho & Hr).
  apply bind_ok in Hr as (_ & k3 & _ & Hr). apply lift_ok in Hr as [-> ->]. unfold outcome in Ho.
  destruct (hint_body v raw stop k1) as [r k4] eqn:Eb. injection Ho as -> ->. unfold hint_body in Eb.
  apply bind_ok in Eb as (key & k5 & Hk & Eb). apply lift_ok in Hk as [Hk ->].
  apply bind_ok in Eb as (claims & k6 & Hd & Eb). apply bind_ok in Eb as (now & k7 & _ & Eb).
  destruct (hint_claims v claims now) eqn:Ec; [|done]. apply bind_ok in Eb as (_ & k8 & _ & Eb). apply ret_ok in Eb as [-> _]. simpl.
  exists key, claims, k1, k6. split; [destruct (trusted_key v raw); [by injection Hk as ->|done]|]. split.
  { unfold map_err in Hd. destruct (hint_decode _ _ _ k1) as [[]]; naive_solver. }
  unfold hint_claims in Ec. repeat match goal with Hb : (_ && _) = true |- _ => apply andb_true_iff in Hb as [Hb ?] end.
  destruct (hint_audience ∅ (ec_aud claims)) as [audience|] eqn:Ea; [|done]. apply hint_audience_ok in Ea.
  cbn [is_some_and] in *. bool_to_prop.
  repeat match goal with Hs : str_eqb _ _ = true |- _ => apply str_eqb_eq in Hs end.
  split; [done|]. do 2 (split; [done|]). split; [done|]. set_solver.
Qed.
Lemma pair_row subject client q k r :
  pair_where s subject client q k r = true → ∃ h t, k = tokens h ∧ r = RToken t ∧ of_pair s subject client t = true ∧ q t = true.
Proof.
  destruct r as [| | | |t| | | |]; try done. cbn [pair_where]. intros [[Hk Hp]%andb_true_iff Hq]%andb_true_iff. apply str_eqb_eq in Hk.
  destruct k as [tab h]. simpl in Hk. subst. by exists h, t.
Qed.
Lemma lock_pair_exclusive_ok subject client stop c c' :
  lock_pair_exclusive subject client stop c = (Ok tt, c') → ∃ key, json_pair subject client = Some key ∧ (PAIR_LOCK, key) ∈ cn_locks c'.
Proof.
  unfold lock_pair_exclusive. intros Hr. apply bind_ok in Hr as (_ & c1 & _ & Hr). apply bind_ok in Hr as (key & c2 & Hk & Hr).
  apply lift_ok in Hk as [Hk%ok_or_ok ->]. apply bind_ok in Hr as ([] & c2 & Ha & Hr). exists key. split; [done|].
  apply (rests_guard R) in Hr as [Hi _]. apply (in_locks _ _ _ Hi). apply bind_ok in Ha as ([] & c3 & _ & [= <-]). simpl. set_solver.
Qed.
(** What the update has done when it is committed: it met every token of the
    pair, since none is stored under the lock. *)
Lemma pair_revoked subject client key now c c' :
  let p := pair_where s subject client (λ t, bool_decide (tk_revoked_at t = None)) in
  let W := (λ v, Some (set_token (revoked now) v)) <$> rows p (view c) in
  rests R (with_writes c W) c' → cn_writes c = ∅ → fair R c → json_pair subject client = Some key → (PAIR_LOCK, key) ∈ cn_locks c →
  ends subject client (cn_db c') (view c').
Proof.
  intros p W [Hi Hws] Hw Hfair Hkey Hlock. assert (inside R c c') as Hi' by (etrans; [apply (writes_inside R)|exact Hi]).
  assert (∀ k, view c' !! k = default (cn_db c' !! k) ((λ v, Some (set_token (revoked now) v)) <$> rows p (cn_db c) !! k)) as Hview.
  { intros k. change (view c') with (apply_writes (cn_writes c') (cn_db c')). rewrite Hws, lookup_apply. simpl.
    rewrite Hw, map_union_empty. unfold W. rewrite lookup_fmap, view_clean by done. by destruct (_ <$> _). }
  apply (Ends _ _ _ now).
  - intros k. rewrite Hview. destruct (rows p (cn_db c) !! k) as [r0|] eqn:Er; simpl; [|by left]. right. pose proof Er as Er'.
    apply map_lookup_filter_Some in Er as [Hr0 (h0 & t0 & _ & Heq & Hp0 & Hn0)%pair_row]. simpl in Heq. subst r0. bool_to_prop.
    exists t0. split; [|done]. rewrite (in_held _ _ _ Hi); [done|]. simpl. unfold W. rewrite dom_fmap, view_clean by done.
    apply elem_of_union_l, elem_of_dom. eauto.
  - intros h t Ht Hp Hnone. rewrite Hview in Ht. destruct (rows p (cn_db c) !! tokens h) as [r0|] eqn:Er; simpl in Ht.
    { apply map_lookup_filter_Some in Er as [_ (h0 & t0 & _ & Heq & _)%pair_row]. simpl in Heq. subst r0. injection Ht as <-. done. }
    pose proof Hp as Hp0. unfold of_pair in Hp0.
    repeat match goal with Hb : (_ && _) = true |- _ => apply andb_true_iff in Hb as [Hb ?] end.
    repeat match goal with Hs : str_eqb _ _ = true |- _ => apply str_eqb_eq in Hs end.
    destruct (pair_kept _ _ _ _ _ _ _ _ (in_env _ _ _ Hi' Hfair) Hkey Hlock Ht) as (t0 & Ht0 & E1 & E2 & E3 & E4 & Hr0); [done..|].
    assert (rows p (cn_db c) !! tokens h = Some (RToken t0)) as Hin; [|congruence].
    apply map_lookup_filter_Some. split; [done|]. simpl. rewrite (bool_decide_true (_ = None)) by auto. rewrite andb_true_r.
    revert Hp. unfold of_pair. rewrite E1, E2, E3, E4. by subst.
Qed.
Lemma late_hint_check p : only late_exchange (txn_with id (hint_check p) : M Tx OidcTokenExchangeError unit).
Proof.
  intros c e c'. unfold txn_with. destruct (hint_check p (cn_clock c)) as [[|e'] k] eqn:Eh; [done|]. intros [= <- _].
  assert (only late_exchange (hint_check p)) as Ho; [|by eapply Ho].
  unfold hint_check, hint_guard, now_seconds. repeat (apply only_bind; [|intros]); repeat case_match;
    first [apply only_instant|apply only_map_err; intros ?; right; by eexists
          |apply only_fail; right; by eexists|apply only_ret|idtac].
Qed.
Lemma end_commit p stop c x c' :
  (do? txn_with id (hint_check p) in do? guard_original stop in do? sql_commit in do? guard_original stop in txn_with id (hint_check p)) c = (x, c') →
  (∃ e, x = Err e ∧ inside R c c') ∨ ∃ c1, rests R c c1 ∧ cn_db c' = view c1 ∧ (x = Ok tt ∨ ∃ e, x = Err e ∧ late_exchange e).
Proof.
  intros Hr. assert (rests R c c) as I by reflexivity.
  match goal with |- ?G => assert (∀ e, x = Err e → inside R c c' → G) as Hno by eauto end.
  read_step Hr I w1 c1 K1. read_step Hr I w2 c2 K2.
  apply (commit_tail R) in Hr as [[[e ->] Hi]|(c3 & I3 & Hdb & Hx)]; [| |auto with broker].
  - eapply Hno; [done|]. etrans; [exact (re_inside _ _ _ I)|done].
  - right. exists c3. split; [by etrans|]. split; [done|].
    destruct Hx as [(c4 & c5 & Hr)| ->]; [|right; eexists; split; [done|]; right; by eexists].
    destruct x as [[]|e]; [by left|right]. exists e. split; [done|].
    apply bind_cases in Hr as [(w3 & c6 & _ & Hr)|(e' & Hr & [= <-])]; [by eapply late_hint_check|by eapply late_ex_clock].
Qed.
Lemma end_session_atomic i original c x c' :
  end_session s i original c = (x, c') → idle c → fair R c →
  atomically R late_exchange c x c' (λ db r db', r = Ok tt ∧ ∃ raw subject client,
    ei_id_token_hint i = Some raw ∧ signed_pair (pe_verifier s) raw subject client ∧
    (∀ v, ei_client_id i = Some v → v = client) ∧ ends subject client db db').
Proof.
  intros Hr Hidle Hfair. pose proof Hidle as [Hw _].
  match goal with |- ?G => assert (∀ e, x = Err e → inside R c c' → G) as Hno by (intros; by eapply (atomically_nothing R)) end.
  unfold end_session in Hr. assert (rests R c c) as I by reflexivity. read_step Hr I stop c1 K1. read_step Hr I w2 c2 K2.
  guard_step Hr I G1. read_step Hr I raw c3 K3. apply lift_ok in K3 as [K3%ok_or_ok%nonempty_some _]. read_step Hr I p c4 K4.
  assert (signed_pair (pe_verifier s) raw (vh_subject p) (vh_client_id p)) as Hsigned.
  { unfold txn_with in K4. destruct (verify_end_session_hint _ _ _ _) as [[p'|] k] eqn:Ev; [|done]. injection K4 as <- _. by eapply verify_hint_ok. }
  guard_step Hr I G2. read_step Hr I w5 c5 K5. read_step Hr I w6 c6 K6. read_step Hr I w7 c7 K7.
  destruct w7. assert (∃ key, json_pair (vh_subject p) (vh_client_id p) = Some key ∧ (PAIR_LOCK, key) ∈ cn_locks c7) as (key & Hkey & Hlock).
  { unfold map_err in K7. destruct (lock_pair_exclusive _ _ _ _) as [[[]|] c8] eqn:El; [|done]. injection K7 as <-. by eapply lock_pair_exclusive_ok. }
  pose proof I as I7. read_step Hr I w8 c8 K8. read_step Hr I row c9 K9.
  assert (keeps (rests R) (match row with Some t => check_newest s p t | None => ret 0%Z end)) as Hrow by (destruct row; auto with broker).
  read_step Hr I created c10 K10. read_step Hr I w11 c11 K11. read_step Hr I now c12 K12. guard_step Hr I G3.
  apply (bind_inside R) in Hr as [(n & c13 & Hu & Hi13 & Hr)|(e & He & Hi)];
    [|eapply Hno; [exact He|etrans; [exact (re_inside _ _ _ I)|done]]|auto with broker].
  apply (update_where_ok R) in Hu as (c14 & I14 & _ & ->). assert (rests R c c14) as I014 by (etrans; [exact I|exact I14]).
  apply end_commit in Hr as [(e & He & Hi)|(c15 & I15 & Hdb & Hx)];
    [eapply Hno; [exact He|]; etrans; [exact (re_inside _ _ _ I)|]; by etrans|].
  assert (inside R c7 c14) as Hi7 by (eapply re_inside; do 5 (etrans; [eassumption|]); eassumption).
  eapply (atomically_step R); [done|done| |exact Hdb| |exact Hx].
  - etrans; [exact (re_inside _ _ _ I)|]. etrans; [exact Hi13|exact (re_inside _ _ _ I15)].
  - split; [done|]. exists raw, (vh_subject p), (vh_client_id p). split; [done|]. split; [done|]. split.
    + intros v Hv. rewrite Hv in G2. simpl in G2. apply negb_false_iff in G2. by apply str_eqb_eq in G2.
    + eapply pair_revoked; [exact I15|by eapply clean_rests|eapply fair_inside; [exact (re_inside _ _ _ I014)|done]|done|].
      by apply (in_locks _ _ _ Hi7).
Qed.
End ended.

Section claim.
Context `{OidcLib, HintLib, CredentialLib, AuthLib, !ClockedHint} (s : PostgresOidcEndSession).
(** C18. Ending a session is one atomic step, whatever runs concurrently and
    wherever it fails.  As long as other transactions store tokens of a subject
    with a client only under the lock of the pair, either an error is reported
    and nothing is changed, or the hint was signed under a trusted key for a
    subject and a client, the one named if any, and at one moment every token of
    the two for the audience of the broker is revoked and nothing else changes. *)
Theorem end_session_refines (R : gset Key → Db → Db → Prop) `{!Rely R, !PairRely R} i original (c : Tx) x c' :
  end_session s i original c = (x, c') → idle c → fair R c →
  ∃ db, R ∅ (cn_db c) db ∧
    ((∃ e, x = Err e) ∧ cn_db c' = db ∨
     ∃ r, (r = Ok tt ∧ ∃ raw subject client,
             ei_id_token_hint i = Some raw ∧ signed_pair (pe_verifier s) raw subject client ∧
             (∀ v, ei_client_id i = Some v → v = client) ∧ ends s subject client db (cn_db c')) ∧
       (x = r ∨ ∃ e, x = Err e ∧ late_exchange e)).
Proof. apply end_session_atomic; apply _. Qed.
End claim.
