(* ===== verification/OidcAccess.v ===== *)
(** * Introspection and user information

    crates/broker-control/src/oidc_introspection.rs, oidc_userinfo.rs,
    service/oidc_access_snapshot.rs, service/oidc_introspection.rs and
    service/oidc_userinfo.rs: the stored grant of a signed access token, whether
    a token of the caller is active, and the profile of its principal. *)

From stdpp Require Import gmap.
From S2P Require Import Prelude RustStr Order Control BrokerAccess AccessIssuer Sql OidcTables.
From S2P Require Import StorageAdmission Credentials OidcPolicy OidcRefresh OidcRevocation OidcRequests OidcEndSession.

(** ** Errors and answers *)

Inductive AccessGrantError := AG_InvalidToken | AG_MalformedStored | AG_ReadLimitExceeded | AG_Credential | AG_Control (e : ControlError).
#[global] Instance AccessGrantError_from_control : FromControl AccessGrantError := AG_Control.
Inductive OidcIntrospectionError :=
| OI_InvalidAuthority | OI_InvalidConfiguration | OI_MalformedStored | OI_ReadLimitExceeded | OI_Credential | OI_Control (e : ControlError).
#[global] Instance OidcIntrospectionError_from_control : FromControl OidcIntrospectionError := OI_Control.
Definition introspection_error (e : AccessGrantError) : OidcIntrospectionError :=
  match e with
  | AG_InvalidToken => OI_InvalidAuthority
  | AG_MalformedStored => OI_MalformedStored
  | AG_ReadLimitExceeded => OI_ReadLimitExceeded
  | AG_Credential => OI_Credential
  | AG_Control e => OI_Control e
  end.
Inductive OidcUserInfoError :=
| OU_InvalidToken | OU_InvalidConfiguration | OU_MalformedStored | OU_ReadLimitExceeded | OU_Credential | OU_Control (e : ControlError).
#[global] Instance OidcUserInfoError_from_control : FromControl OidcUserInfoError := OU_Control.
Definition userinfo_error (e : AccessGrantError) : OidcUserInfoError :=
  match e with
  | AG_InvalidToken => OU_InvalidToken
  | AG_MalformedStored => OU_MalformedStored
  | AG_ReadLimitExceeded => OU_ReadLimitExceeded
  | AG_Credential => OU_Credential
  | AG_Control e => OU_Control e
  end.
Definition userinfo_bearer_error (e : BrokerAccessError) : OidcUserInfoError :=
  match e with BA_Deadline => OU_Control CE_Deadline | _ => OU_InvalidToken end.
Definition userinfo_principal_error (e : OidcTokenExchangeError) : OidcUserInfoError :=
  match e with
  | TX_InvalidGrant => OU_InvalidToken
  | TX_Control e => OU_Control e
  | TX_ReadLimitExceeded => OU_ReadLimitExceeded
  | _ => OU_MalformedStored
  end.
Record OidcIntrospection := {
  in_active : bool;
  in_client_id : option string;
  in_scope : option string;
  in_exp : option Z;
}.
Definition inactive : OidcIntrospection := {| in_active := false; in_client_id := None; in_scope := None; in_exp := None |}.
Definition active (client : string) (scopes : list string) (expiry_micros : Z) : OidcIntrospection :=
  {| in_active := true; in_client_id := Some client;
     in_scope := if bool_decide (scopes = []) then None else Some (join " " scopes);
     in_exp := Some (Z.quot expiry_micros 1000000) |}.
Record OidcUserInfo := {
  ui_sub : string;
  ui_preferred_username : option string;
  ui_name : option string;
  ui_email : option string;
  ui_organization : option string;
  ui_groups : list string;
  ui_roles : list string;
}.

(** ** Stored grants *)

Record AccessGrant := {
  ag_hash : string;
  ag_id : string;
  ag_subject : string;
  ag_oidc_subject : string;
  ag_client : string;
  ag_audience : string;
  ag_resource : string;
  ag_revision : Z;
  ag_expiry : Z;
  ag_created : Z;
  ag_auth_time : Z;
  ag_principal : string;
  ag_scopes : list string;
}.
#[global] Instance AccessGrant_eq_dec : EqDecision AccessGrant.
Proof. solve_decision. Defined.
Definition bearer_error (e : BrokerAccessError) : AccessGrantError :=
  match e with BA_Deadline => AG_Control CE_Deadline | _ => AG_InvalidToken end.
Definition principal_error (e : OidcTokenExchangeError) : AccessGrantError :=
  match e with
  | TX_InvalidGrant => AG_InvalidToken
  | TX_Control e => AG_Control e
  | TX_ReadLimitExceeded => AG_ReadLimitExceeded
  | _ => AG_MalformedStored
  end.
Definition bounded_text (cap : Z) (v : string) : result AccessGrantError string :=
  if (cap <? len v)%Z then Err AG_ReadLimitExceeded else Ok v.

Section access.
Context `{OidcLib, CredentialLib, JwtLib}.
Definition token_hash (digester : CredentialDigester) (proof : VerifiedBrokerAccess) : result AccessGrantError string :=
  if negb (validate_local_auth_challenge (vb_jti proof)) then Err AG_InvalidToken else
  rmap_err (λ _, AG_Credential) (rmap to_sql_hex (token digester OidcStoredAccess (vb_jti proof))).
Definition grant_decode (cap : Z) (hash : string) (t : TokenRow) : result AccessGrantError (AccessGrant * option Z) :=
  let! scopes_json := bounded_text cap (tk_scopes_json t) in
  let! scopes := ok_or (strings_json scopes_json) AG_MalformedStored in
  let! id := bounded_text cap (tk_token_id t) in
  let! subject := bounded_text cap (tk_subject t) in
  let! oidc_subject := bounded_text cap (tk_oidc_subject t) in
  let! client := bounded_text cap (tk_client_id t) in
  let! audience := bounded_text cap (tk_audience t) in
  let! resource := bounded_text cap (tk_resource t) in
  let! principal := bounded_text cap (tk_principal_json t) in
  if (tk_created_at t <=? 0)%Z || (tk_expires_at t <=? tk_created_at t)%Z || (tk_auth_time t <=? 0)%Z
     || (tk_created_at t <? tk_auth_time t)%Z || is_some_and (tk_revoked_at t) (λ v, (v <? tk_created_at t)%Z)
  then Err AG_MalformedStored else
  Ok ({| ag_hash := hash; ag_id := id; ag_subject := subject; ag_oidc_subject := oidc_subject; ag_client := client;
         ag_audience := audience; ag_resource := resource; ag_revision := tk_local_user_revision t; ag_expiry := tk_expires_at t;
         ag_created := tk_created_at t; ag_auth_time := tk_auth_time t; ag_principal := principal; ag_scopes := scopes |},
      tk_revoked_at t).
Definition grant_matches (g : AccessGrant) (proof : VerifiedBrokerAccess) (revoked_at : option Z) (policy : OidcAuthorizationPolicy)
    : M clock AccessGrantError unit :=
  do? map_err bearer_error (vb_check proof) in
  let? expiry := lift_result (ok_or (proof_expiry proof) AG_InvalidToken) in
  let? now := map_err AG_Control now_micros in
  if (now <? ag_created g)%Z then fail (AG_Control CE_Clock) else
  if bool_decide (revoked_at ≠ None) || (ag_expiry g <=? now)%Z || negb (ag_expiry g =? expiry)%Z
     || negb (str_eqb (ag_id g) (vb_jti proof)) || negb (str_eqb (ag_oidc_subject g) (vb_subject proof))
     || negb (str_eqb (ag_client g) (vb_client_id proof)) || negb (str_eqb (ag_audience g) (op_api_audience policy))
     || negb (bool_decide (ag_scopes g = vb_scopes proof)) || negb (matches_oidc_resource proof (ag_resource g))
  then fail AG_InvalidToken else ret tt.
Definition grant_principal (g : AccessGrant) (digester : CredentialDigester) : result AccessGrantError OidcPrincipal :=
  let! principal := rmap_err principal_error (principal_parse (ag_principal g)) in
  let! subject := rmap_err (λ _, AG_Credential) (oidc_subject digester (pr_issuer principal) (pr_subject principal)) in
  if negb (str_eqb (ag_subject g) (pr_subject principal)) || negb (ag_revision g =? pr_revision principal)%Z
     || negb (str_eqb (ag_oidc_subject g) subject)
  then Err AG_InvalidToken else Ok principal.
Definition used (now : Z) (t : TokenRow) : TokenRow :=
  {| tk_token_id := tk_token_id t; tk_token_kind := tk_token_kind t; tk_subject := tk_subject t; tk_oidc_subject := tk_oidc_subject t;
     tk_principal_json := tk_principal_json t; tk_client_id := tk_client_id t; tk_audience := tk_audience t;
     tk_resource := tk_resource t; tk_scopes_json := tk_scopes_json t; tk_local_user_revision := tk_local_user_revision t;
     tk_family_id := tk_family_id t; tk_auth_time := tk_auth_time t; tk_expires_at := tk_expires_at t;
     tk_revoked_at := tk_revoked_at t; tk_consumed_at := tk_consumed_at t; tk_last_used_at := Some now;
     tk_created_at := tk_created_at t |}.
Definition stored_access (t : TokenRow) : bool := str_eqb (tk_token_kind t) "oidc_access".
(** SELECT … WHERE token_hash=$1 AND token_kind='oidc_access', FOR UPDATE or not. *)
Definition access_row {E} `{!FromControl E} (hash : string) (lock : bool) : M Tx E (option TokenRow) :=
  let? row := (if lock then select_where_locked else select_where) (token_at hash stored_access) in
  ret (row ≫= λ kv, match kv.2 with RToken t => Some t | _ => None end).

(** ** Introspection *)

Record PostgresOidcIntrospection := {
  pi_digester : CredentialDigester;
  pi_operation_timeout : Z;
  pi_authorization : OidcAuthorizationPolicy;
  pi_verifier : BrokerAccessVerifier;
}.
Definition oidc_introspection (digester : CredentialDigester) (operation_timeout : Z) (authorization : OidcAuthorizationPolicy)
    (verifier : BrokerAccessVerifier) : result OidcIntrospectionError PostgresOidcIntrospection :=
  if negb (str_eqb (op_api_audience authorization) (bv_api_audience verifier)) then Err OI_InvalidConfiguration else
  Ok {| pi_digester := digester; pi_operation_timeout := operation_timeout; pi_authorization := authorization;
        pi_verifier := verifier |}.
Section introspection.
Context (s : PostgresOidcIntrospection).
Notation cap := (ol_json_bytes (op_limits (pi_authorization s))).
Definition grant_admit (stored : AccessGrant) (revoked_at : option Z) (proof : VerifiedBrokerAccess) : M clock AccessGrantError unit :=
  do? grant_matches stored proof revoked_at (pi_authorization s) in
  let? _ := lift_result (grant_principal stored (pi_digester s)) in
  ret tt.
Definition target_admitted (stored : AccessGrant) (revoked_at : option Z) (proof : VerifiedBrokerAccess) : M clock OidcIntrospectionError bool :=
  let? admitted := outcome (grant_admit stored revoked_at proof) in
  match admitted with
  | Ok _ => ret true
  | Err AG_InvalidToken => ret false
  | Err e => fail (introspection_error e)
  end.
Definition check_authority (authority : VerifiedBrokerAccess) : M Tx OidcIntrospectionError unit :=
  txn_with (λ e, introspection_error (bearer_error e)) (vb_check authority).
(** The token asked about, when it is one of the caller's own. *)
Definition target_of (authority : VerifiedBrokerAccess) (raw : option string) (stop : Z)
    : M Tx OidcIntrospectionError (option (VerifiedBrokerAccess * string)) :=
  match raw ≫= nonempty with
  | None => ret None
  | Some raw =>
      let? verified := outcome (txn_with id (verify_for_oidc_operation (pi_verifier s) raw stop)) in
      match verified with
      | Ok proof =>
          if str_eqb (vb_client_id proof) (vb_client_id authority) && str_eqb (vb_subject proof) (vb_subject authority) then
            match token_hash (pi_digester s) proof with
            | Ok hash => ret (Some (proof, hash))
            | Err AG_InvalidToken => ret None
            | Err e => fail (introspection_error e)
            end
          else ret None
      | Err e => match bearer_error e with AG_InvalidToken => ret None | e => fail (introspection_error e) end
      end
  end.
(** SELECT … WHERE token_kind='oidc_access' AND token_hash IN ($1,$3): both rows at
    one moment. *)
Definition select_grants (h1 h2 : string) : M Tx OidcIntrospectionError (list (string * TokenRow)) :=
  do? sql_await in λ c,
    (Ok (omap (λ kv, match kv.2 with RToken t => Some (kv.1.2, t) | _ => None end)
      (map_to_list (rows (λ k r, token_at h1 stored_access k r || token_at h2 stored_access k r) (view c)))), c).
Definition find_grant (hash : string) (found : list (string * TokenRow)) : option TokenRow :=
  snd <$> List.find (λ ht, str_eqb ht.1 hash) found.
Definition decoded (hash : string) (t : TokenRow) : M Tx OidcIntrospectionError (AccessGrant * option Z) :=
  lift_result (rmap_err introspection_error (grant_decode cap hash t)).
(** ROLLBACK: what was written is forgotten. *)
Definition sql_rollback : M Tx OidcIntrospectionError unit :=
  do? sql_await in λ c, (Ok tt, {| cn_db := cn_db c; cn_writes := ∅; cn_locks := ∅; cn_clock := cn_clock c; cn_turns := cn_turns c |}).
Definition refuse (authority : VerifiedBrokerAccess) : M Tx OidcIntrospectionError OidcIntrospection :=
  do? sql_rollback in
  do? check_authority authority in
  ret inactive.
(** From the update to the answer. *)
Definition record_use (authority proof : VerifiedBrokerAccess) (hash : string) (stored : AccessGrant) (revoked_at : option Z)
    : M Tx OidcIntrospectionError OidcIntrospection :=
  let? now := txn_clock now_micros in
  let? changed := update_where (token_at hash (λ t, stored_access t && bool_decide (tk_revoked_at t = None))) (set_token (used now)) in
  if negb (changed =? 1) then fail (OI_Control CE_Storage) else
  do? check_authority authority in
  let? still := txn_with id (target_admitted stored revoked_at proof) in
  if negb still then refuse authority else
  do? check_authority authority in
  do? sql_commit in
  do? check_authority authority in
  let? checked := outcome (txn_with id (vb_check proof)) in
  match checked with
  | Ok _ => ret (active (ag_client stored) (ag_scopes stored) (ag_expiry stored))
  | Err e => match bearer_error e with AG_InvalidToken => ret inactive | e => fail (introspection_error e) end
  end.
(** Without use the transaction is rolled back. *)
Definition unused (authority : VerifiedBrokerAccess) : M Tx OidcIntrospectionError OidcIntrospection :=
  do? check_authority authority in refuse authority.
(** The row of the target, admitted once, is locked and must be the same. *)
Definition inspect (authority proof : VerifiedBrokerAccess) (hash : string) (initial : AccessGrant)
    : M Tx OidcIntrospectionError OidcIntrospection :=
  let? row := access_row hash true in
  do? check_authority authority in
  match row with
  | None => unused authority
  | Some t =>
      let? (stored, revoked_at) := decoded hash t in
      if bool_decide (stored = initial) then
        let? admitted := txn_with id (target_admitted stored revoked_at proof) in
        if admitted then record_use authority proof hash stored revoked_at else unused authority
      else unused authority
  end.
Definition introspect (authority : string) (raw : option string) (original : Z) : M Tx OidcIntrospectionError OidcIntrospection :=
  let? stop := txn_clock (bounded_deadline original (pi_operation_timeout s)) in
  let? authority := txn_with (λ e, introspection_error (bearer_error e)) (verify_for_oidc_operation (pi_verifier s) authority stop) in
  let? authority_hash := lift_result (rmap_err introspection_error (token_hash (pi_digester s) authority)) in
  let? target := target_of authority raw stop in
  let target_hash := match target with Some (_, hash) => hash | None => authority_hash end in
  do? sql_await in
  do? sql_await in
  let? found := select_grants authority_hash target_hash in
  let? authority_row := lift_result (ok_or (find_grant authority_hash found) OI_InvalidAuthority) in
  let? (stored_authority, revoked_authority) := decoded authority_hash authority_row in
  do? txn_with introspection_error (grant_admit stored_authority revoked_authority authority) in
  do? check_authority authority in
  match target with
  | None => unused authority
  | Some (proof, hash) =>
      match find_grant hash found with
      | None => unused authority
      | Some t =>
          let? (initial, revoked_at) := decoded hash t in
          let? admitted := txn_with id (target_admitted initial revoked_at proof) in
          if admitted then inspect authority proof hash initial else unused authority
      end
  end.
End introspection.

(** ** User information *)

Record PostgresOidcUserInfo := {
  pu_digester : CredentialDigester;
  pu_operation_timeout : Z;
  pu_authorization : OidcAuthorizationPolicy;
  pu_verifier : BrokerAccessVerifier;
  pu_upstream : option upstream_trust;
}.
Definition oidc_userinfo (digester : CredentialDigester) (operation_timeout : Z) (authorization : OidcAuthorizationPolicy)
    (verifier : BrokerAccessVerifier) : result OidcUserInfoError PostgresOidcUserInfo :=
  if negb (str_eqb (op_api_audience authorization) (bv_api_audience verifier)) then Err OU_InvalidConfiguration else
  Ok {| pu_digester := digester; pu_operation_timeout := operation_timeout; pu_authorization := authorization;
        pu_verifier := verifier; pu_upstream := None |}.
Definition userinfo_with_upstream (s : PostgresOidcUserInfo) (verifier : upstream_trust) : PostgresOidcUserInfo :=
  {| pu_digester := pu_digester s; pu_operation_timeout := pu_operation_timeout s; pu_authorization := pu_authorization s;
     pu_verifier := pu_verifier s; pu_upstream := Some verifier |}.
Section userinfo.
Context (s : PostgresOidcUserInfo).
Notation cap := (ol_json_bytes (op_limits (pu_authorization s))).
Definition user_info (subject : string) (p : OidcPrincipal) : OidcUserInfo :=
  {| ui_sub := subject; ui_preferred_username := nonempty (pr_username p); ui_name := nonempty (pr_name p);
     ui_email := nonempty (pr_email p); ui_organization := nonempty (pr_organization p); ui_groups := pr_teams p;
     ui_roles := pr_roles p |}.
Definition check_bearer (proof : VerifiedBrokerAccess) : M Tx OidcUserInfoError unit := txn_with userinfo_bearer_error (vb_check proof).
(** The row of the token, decoded and matched with its proof. *)
Definition profile_grant (proof : VerifiedBrokerAccess) (hash : string) (lock : bool) (same : AccessGrant → bool)
    : M Tx OidcUserInfoError AccessGrant :=
  let? row := access_row hash lock in
  let? t := lift_result (ok_or row OU_InvalidToken) in
  let? (stored, revoked_at) := lift_result (rmap_err userinfo_error (grant_decode cap hash t)) in
  if negb (same stored) then fail OU_InvalidToken else
  do? txn_with userinfo_error (grant_matches stored proof revoked_at (pu_authorization s)) in
  ret stored.
Definition profile_principal (observed : OidcPrincipal) (stop : Z) : M Tx OidcUserInfoError OidcPrincipal :=
  match as_local observed with
  | Some local => map_err (λ e, userinfo_principal_error (exchange_error e))
      (current_principal (lp_subject local) (lp_username local) (lp_local_user_revision local) cap stop)
  | None => if negb (current_trust observed (pu_upstream s)) then fail OU_InvalidToken else ret observed
  end.
Definition user_profile (raw : string) (original : Z) : M Tx OidcUserInfoError OidcUserInfo :=
  let? stop := txn_clock (bounded_deadline original (pu_operation_timeout s)) in
  let? proof := txn_with userinfo_bearer_error (verify_for_oidc_operation (pu_verifier s) raw stop) in
  if negb (validate_local_auth_challenge (vb_jti proof)) then fail OU_InvalidToken else
  let? hash := lift_result (rmap_err (λ _, OU_Credential) (rmap to_sql_hex (token (pu_digester s) OidcStoredAccess (vb_jti proof)))) in
  do? sql_await in
  do? sql_await in
  let? initial := profile_grant proof hash false (λ _, true) in
  let? observed := lift_result (rmap_err userinfo_error (grant_principal initial (pu_digester s))) in
  let? principal := profile_principal observed stop in
  let? stored := profile_grant proof hash true (λ g, bool_decide (g = initial)) in
  if negb (current_trust principal (pu_upstream s)) then fail OU_InvalidToken else
  let result := user_info (ag_oidc_subject stored) principal in
  do? check_bearer proof in
  let? now := txn_clock now_micros in
  let? changed := update_where (token_at hash stored_access) (set_token (used now)) in
  if negb (changed =? 1) then fail (OU_Control CE_Storage) else
  do? check_bearer proof in
  do? sql_commit in
  do? check_bearer proof in
  ret result.
End userinfo.
End access.

(** ** What they do to the database *)

Section effects.
Context `{OidcLib, CredentialLib, JwtLib, !ClockedJwt} (R : gset Key → Db → Db → Prop) `{!Rely R}.
#[local] Hint Resolve keeps_vb_check : broker.
Lemma keeps_matches g proof rv policy : keeps clock_run (grant_matches g proof rv policy).
Proof. unfold grant_matches. auto 20 with broker. Qed.
#[local] Hint Resolve keeps_matches : broker.
Lemma keeps_grant_admit s g rv proof : keeps clock_run (grant_admit s g rv proof).
Proof. unfold grant_admit. auto 20 with broker. Qed.
#[local] Hint Resolve keeps_grant_admit : broker.
Lemma keeps_target_admitted s g rv proof : keeps clock_run (target_admitted s g rv proof).
Proof. unfold target_admitted. apply keeps_bind; [apply _|apply keeps_outcome; auto with broker|]. intros [|[]]; auto with broker. Qed.
Lemma keeps_verify_operation v raw stop : keeps clock_run (verify_for_oidc_operation v raw stop).
Proof. apply keeps_verify. Qed.
Lemma rests_check_authority p : keeps (rests R) (check_authority p).
Proof. unfold check_authority. auto with broker. Qed.
Lemma rests_check_bearer p : keeps (rests R) (check_bearer p).
Proof. unfold check_bearer. auto with broker. Qed.
Lemma rests_target_of s authority raw stop : keeps (rests R) (target_of s authority raw stop).
Proof.
  unfold target_of. destruct (raw ≫= nonempty); [|auto with broker].
  apply keeps_bind; [apply _|apply keeps_outcome, rests_txn_with; [apply _|apply keeps_verify_operation]|].
  intros [p|e]; repeat case_match; auto with broker.
Qed.
Lemma rests_select_grants h1 h2 : keeps (rests R) (select_grants h1 h2).
Proof. apply keeps_bind; [apply _|auto with broker|]. intros _. by apply rests_here. Qed.
Lemma rests_access_row {E} `{!FromControl E} hash lock : keeps (rests R) (access_row (E:=E) hash lock).
Proof. unfold access_row. destruct lock; auto 10 with broker. Qed.
#[local] Hint Extern 1 (keeps (rests _) (access_row _ _)) => apply rests_access_row : broker.
Lemma rests_profile_grant s proof hash lock same : keeps (rests R) (profile_grant s proof hash lock same).
Proof.
  unfold profile_grant. repeat (apply keeps_bind; [apply _|auto 10 with broker|intros] || case_match); auto 10 with broker.
Qed.
Lemma rests_profile_principal s observed stop : keeps (rests R) (profile_principal s observed stop).
Proof. unfold profile_principal. destruct (as_local observed); auto 10 with broker. Qed.
Lemma rests_decoded s hash t : keeps (rests R) (decoded s hash t).
Proof. unfold decoded. auto with broker. Qed.
End effects.
#[export] Hint Resolve keeps_vb_check keeps_matches keeps_grant_admit keeps_target_admitted keeps_verify_operation : broker.
#[export] Hint Extern 1 (keeps (rests _) (check_authority _)) => apply rests_check_authority : broker.
#[export] Hint Extern 1 (keeps (rests _) (check_bearer _)) => apply rests_check_bearer : broker.
#[export] Hint Extern 1 (keeps (rests _) (target_of _ _ _ _)) => apply rests_target_of : broker.
#[export] Hint Extern 1 (keeps (rests _) (select_grants _ _)) => apply rests_select_grants : broker.
#[export] Hint Extern 1 (keeps (rests _) (access_row _ _)) => apply rests_access_row : broker.
#[export] Hint Extern 1 (keeps (rests _) (profile_grant _ _ _ _ _)) => apply rests_profile_grant : broker.
#[export] Hint Extern 1 (keeps (rests _) (profile_principal _ _ _)) => apply rests_profile_principal : broker.
#[export] Hint Extern 1 (keeps (rests _) (decoded _ _ _)) => apply rests_decoded : broker.
#[export] Hint Extern 1 (keeps same_db (check_authority _)) => apply same_db_clock : broker.
#[export] Hint Extern 1 (keeps same_db (check_bearer _)) => apply same_db_clock : broker.

(** ** Grants that count *)

Section grant.
Context `{OidcLib, CredentialLib, JwtLib}.
(** A time read from one of these clocks. *)
Definition read_from (ck : clock → Prop) (now : Z) : Prop := ∃ k k', ck k ∧ now_micros k = (Ok now, k').
(** The stored token is the one that was signed, for the audience of the broker,
    unrevoked and, at a time read from one of these clocks, unexpired. *)
Record counts (policy : OidcAuthorizationPolicy) (proof : VerifiedBrokerAccess) (ck : clock → Prop) (t : TokenRow) : Prop := {
  co_kind : tk_token_kind t = "oidc_access";
  co_unrevoked : tk_revoked_at t = None;
  co_unexpired : ∃ now, read_from ck now ∧ (now < tk_expires_at t)%Z;
  co_expiry : proof_expiry proof = Some (tk_expires_at t);
  co_id : tk_token_id t = vb_jti proof;
  co_subject : tk_oidc_subject t = vb_subject proof;
  co_client : tk_client_id t = vb_client_id proof;
  co_audience : tk_audience t = op_api_audience policy;
  co_scopes : strings_json (tk_scopes_json t) = Some (vb_scopes proof);
  co_resource : matches_oidc_resource proof (tk_resource t) = true;
}.
(** The signed token has expired, at a reading of one of these clocks. *)
Definition lapsed (proof : VerifiedBrokerAccess) (ck : clock → Prop) : Prop :=
  ∃ k, ck k ∧ (vb_expires_at proof ≤ utc_at k (tick k) ∨ vb_expires_mono proof ≤ mono_at k (tick k))%Z.
(** Why a stored token does not count: it is revoked or has expired, it is not the
    one that was signed, or it is stored for another principal than its own. *)
Inductive discounted (policy : OidcAuthorizationPolicy) (digester : CredentialDigester) (proof : VerifiedBrokerAccess)
    (ck : clock → Prop) (t : TokenRow) : Prop :=
| Revoked at_ : tk_revoked_at t = Some at_ → discounted policy digester proof ck t
| Expired now : read_from ck now → (tk_expires_at t ≤ now)%Z → discounted policy digester proof ck t
| Lapsed : lapsed proof ck → discounted policy digester proof ck t
| Unlike :
    proof_expiry proof ≠ Some (tk_expires_at t) ∨ tk_token_id t ≠ vb_jti proof ∨ tk_oidc_subject t ≠ vb_subject proof ∨
    tk_client_id t ≠ vb_client_id proof ∨ tk_audience t ≠ op_api_audience policy ∨
    strings_json (tk_scopes_json t) ≠ Some (vb_scopes proof) ∨ matches_oidc_resource proof (tk_resource t) = false →
    discounted policy digester proof ck t
| NoPrincipal : principal_parse (tk_principal_json t) = Err TX_InvalidGrant → discounted policy digester proof ck t
| OtherPrincipal person subject :
    principal_parse (tk_principal_json t) = Ok person →
    oidc_subject digester (pr_issuer person) (pr_subject person) = Ok subject →
    tk_subject t ≠ pr_subject person ∨ tk_local_user_revision t ≠ pr_revision person ∨ tk_oidc_subject t ≠ subject →
    discounted policy digester proof ck t.
Lemma vb_check_lapsed (ck : clock → Prop) proof k e k' :
  (∀ k k', ck k → clock_run k k' → ck k') → ck k → vb_check proof k = (Err e, k') → e ≠ BA_Deadline → lapsed proof ck.
Proof.
  intros Hck Hk Hv He. assert (ck (advance k)) as Hk1 by (eapply Hck; [exact Hk|auto with broker]).
  unfold vb_check, ba_check_deadline, bind, instant_now, system_now in Hv. simpl in Hv.
  destruct (vb_original proof <=? mono_at k (tick k))%Z; simpl in Hv; [congruence|].
  destruct (Z.leb_spec (vb_expires_at proof) (utc_at k (S (tick k)))); [exists (advance k); auto|]. simpl in Hv.
  destruct (Z.leb_spec (vb_expires_mono proof) (mono_at k (S (S (tick k))))); [|done].
  exists (advance (advance k)). split; [eapply Hck; [exact Hk1|auto with broker]|auto].
Qed.
Lemma bounded_text_ok cap v w : bounded_text cap v = Ok w → w = v.
Proof. unfold bounded_text. destruct (_ <? _)%Z; by intros [=]. Qed.
Lemma grant_decode_ok cap hash t g rv :
  grant_decode cap hash t = Ok (g, rv) →
  rv = tk_revoked_at t ∧ ∃ scopes, strings_json (tk_scopes_json t) = Some scopes ∧
  g = {| ag_hash := hash; ag_id := tk_token_id t; ag_subject := tk_subject t; ag_oidc_subject := tk_oidc_subject t;
         ag_client := tk_client_id t; ag_audience := tk_audience t; ag_resource := tk_resource t;
         ag_revision := tk_local_user_revision t; ag_expiry := tk_expires_at t; ag_created := tk_created_at t;
         ag_auth_time := tk_auth_time t; ag_principal := tk_principal_json t; ag_scopes := scopes |}.
Proof.
  unfold grant_decode. intros Hd. invert_ok Hd.
  repeat match goal with Hb : bounded_text _ _ = Ok _ |- _ => apply bounded_text_ok in Hb as -> end.
  injection Hd as <- <-. eauto.
Qed.
Lemma grant_matches_ok (ck : clock → Prop) policy cap hash t g rv proof k k' :
  (∀ k k', ck k → clock_run k k' → ck k') → ck k → grant_matches g proof rv policy k = (Ok tt, k') → grant_decode cap hash t = Ok (g, rv) → tk_token_kind t = "oidc_access" →
  counts policy proof ck t.
Proof.
  intros Hck Hk0 Hm (-> & scopes & Hs & ->)%grant_decode_ok Hk. unfold grant_matches in Hm. cbn in Hm.
  apply bind_ok in Hm as (_ & k1 & Hvb%map_err_ok%keeps_vb_check & Hm). apply bind_ok in Hm as (ex & k2 & Hex & Hm).
  apply lift_ok in Hex as [Hex%ok_or_ok ->]. apply bind_ok in Hm as (now & k3 & Hnow%map_err_ok & Hm).
  assert (read_from ck now) as Hread by (exists k1, k3; split; [by eapply Hck|done]). destruct (_ <? _)%Z in Hm; [done|]. destruct (_ || _) eqn:Eb in Hm; [done|].
  repeat match goal with Hb : (_ || _) = false |- _ => apply orb_false_iff in Hb as [Hb ?] end. bool_to_prop.
  repeat match goal with Hs : String.eqb _ _ = true |- _ => apply String.eqb_eq in Hs end.
  split; try done.
  all: first [by apply dec_stable|congruence|exists now; split; [done|lia]].
Qed.
(** A grant that does not match, or whose principal is not its own, is discounted. *)
Lemma grant_matches_refused (ck : clock → Prop) policy digester cap hash t g rv proof k k' :
  (∀ k k', ck k → clock_run k k' → ck k') → ck k → grant_matches g proof rv policy k = (Err AG_InvalidToken, k') →
  grant_decode cap hash t = Ok (g, rv) → discounted policy digester proof ck t.
Proof.
  intros Hck Hk0 Hm (-> & scopes & Hs & ->)%grant_decode_ok. unfold grant_matches in Hm. cbn in Hm.
  apply bind_cases in Hm as [(u & k1 & Hvb & Hm)|(e & He & [= <-])].
  2: { apply map_err_err in He as (e0 & He & Ee). eapply Lapsed, vb_check_lapsed; [done|exact Hk0|exact He|by intros ->]. }
  apply map_err_ok, keeps_vb_check in Hvb. destruct (proof_expiry proof) as [expiry|] eqn:Ex; [|apply Unlike; left; by rewrite Ex].
  apply bind_cases in Hm as [(ex & k2 & Hex & Hm)|(e & Hex & _)]; [|done]. injection Hex as <- <-.
  apply bind_cases in Hm as [(now & k3 & Hnow%map_err_ok & Hm)|(e & He & [= <-])]; [|by apply map_err_err in He as (? & _ & ?)].
  assert (read_from ck now) as Hread by (exists k1, k3; split; [by eapply Hck|done]).
  destruct (now <? _)%Z in Hm; [done|]. destruct (tk_revoked_at t) eqn:Er; [by eapply Revoked|].
  destruct (Z.leb_spec (tk_expires_at t) now); [by eapply Expired|]. destruct (_ || _) eqn:Eb in Hm; [|done]. apply Unlike.
  repeat match goal with Hb : (_ || _) = true |- _ => apply orb_true_iff in Hb as [Hb|Hb] end; bool_to_prop; try done.
  all: repeat match goal with Hs : String.eqb _ _ = false |- _ => apply String.eqb_neq in Hs end.
  all: naive_solver congruence.
Qed.
Lemma grant_principal_refused policy digester cap hash t g rv proof (ck : clock → Prop) :
  grant_principal g digester = Err AG_InvalidToken → grant_decode cap hash t = Ok (g, rv) → discounted policy digester proof ck t.
Proof.
  intros Hp (-> & scopes & _ & ->)%grant_decode_ok. unfold grant_principal in Hp. cbn in Hp.
  destruct (principal_parse (tk_principal_json t)) as [person|e] eqn:Ep; [|destruct e; try done; by apply NoPrincipal].
  cbn in Hp. destruct (oidc_subject digester _ _) as [subject|e] eqn:Eo; [|done]. cbn in Hp.
  eapply OtherPrincipal; [exact Ep|exact Eo|]. destruct (_ || _) eqn:Eb in Hp; [|done].
  repeat match goal with Hb : (_ || _) = true |- _ => apply orb_true_iff in Hb as [Hb|Hb] end; bool_to_prop.
  all: repeat match goal with Hs : String.eqb _ _ = false |- _ => apply String.eqb_neq in Hs end.
  all: naive_solver.
Qed.
Lemma access_row_ok {E} `{!FromControl E} (R : gset Key → Db → Db → Prop) `{!Rely R} hash lock c t c' :
  access_row (E:=E) hash lock c = (Ok (Some t), c') → cn_writes c = ∅ →
  cn_db c' !! tokens hash = Some (RToken t) ∧ tk_token_kind t = "oidc_access" ∧ (lock = true → held c' (tokens hash) (Some (RToken t))).
Proof.
  intros Hr Hw. pose proof (rests_access_row R _ _ _ _ _ Hr) as I. unfold access_row in Hr. apply bind_ok in Hr as (row & c1 & Hs & Hr).
  apply ret_ok in Hr as [Hrow ->]. destruct row as [[k r]|]; [|done]. simpl in Hrow. destruct r as [| | | |t'| | | |]; try done. injection Hrow as <-.
  assert (view c1 !! k = Some (RToken t) ∧ token_at hash stored_access k (RToken t) = true ∧ (lock = true → k ∈ cn_locks c1)) as (Hv & Hp & Hl).
  { destruct lock; [by apply (select_where_locked_ok R) in Hs as (_ & ? & ? & ?)|]. apply bind_ok in Hs as (? & c2 & _ & [= Hh <-]).
    apply head_Some_elem_of, elem_of_map_to_list, map_lookup_filter_Some in Hh as [? ?]. done. }
  unfold token_at, at_key in Hp. apply andb_true_iff in Hp as [Hk Hp]. bool_to_prop. subst k. unfold stored_access in Hp. apply str_eqb_eq in Hp.
  rewrite view_clean in Hv by (by eapply clean_rests). split; [done|]. split; [done|]. intros ->. split; [by apply Hl|done].
Qed.
Lemma access_row_none {E} `{!FromControl E} (R : gset Key → Db → Db → Prop) `{!Rely R} hash lock c t c' :
  access_row (E:=E) hash lock c = (Ok None, c') → cn_writes c = ∅ → cn_db c' !! tokens hash = Some (RToken t) → tk_token_kind t ≠ "oidc_access".
Proof.
  intros Hr Hw Ht Hk. pose proof (rests_access_row R _ _ _ _ _ Hr) as I. apply (clean_rests R _ _ I) in Hw as Hw'.
  unfold access_row in Hr. apply bind_ok in Hr as (row & c1 & Hs & Hr). apply ret_ok in Hr as [Hrow ->].
  assert (row = head (map_to_list (rows (token_at hash stored_access) (view c1)))) as ->.
  { destruct lock; apply bind_ok in Hs as (? & c2 & _ & [= <- <-]); [|done]. destruct (head _) as [[k v]|] eqn:Eh; exact (eq_sym Eh). }
  rewrite view_clean in Hrow by done. unfold token_at in Hrow. rewrite rows_at_key, Ht in Hrow. unfold stored_access in Hrow.
  rewrite Hk in Hrow. simpl in Hrow. by rewrite map_to_list_singleton in Hrow.
Qed.
End grant.

(** ** An introspection, as one atomic step *)

Definition late_introspection (e : OidcIntrospectionError) : Prop := e = OI_InvalidAuthority ∨ ∃ ce, e = OI_Control ce.

Section introspects.
Context `{OidcLib, CredentialLib, JwtLib} (s : PostgresOidcIntrospection).
Notation cap := (ol_json_bytes (op_limits (pi_authorization s))).
Notation policy := (pi_authorization s).
(** The clocks of the call. *)
Context (ck : clock → Prop).
Definition verified (raw : string) (proof : VerifiedBrokerAccess) : Prop :=
  ∃ stop k k', ck k ∧ verify_for_oidc_operation (pi_verifier s) raw stop k = (Ok proof, k').
(** A token of the client and the subject of the caller, and where it is stored. *)
Record own (authority : VerifiedBrokerAccess) (raw : string) (proof : VerifiedBrokerAccess) (hash : string) : Prop := {
  own_verified : verified raw proof;
  own_client : vb_client_id proof = vb_client_id authority;
  own_subject : vb_subject proof = vb_subject authority;
  own_hash : token_hash (pi_digester s) proof = Ok hash;
}.
(** No such token. *)
Inductive foreign (authority : VerifiedBrokerAccess) : option string → Prop :=
| NoToken raw : raw ≫= nonempty = None → foreign authority raw
| NotVerified raw stop e k k' : ck k → verify_for_oidc_operation (pi_verifier s) raw stop k = (Err e, k') → e ≠ BA_Deadline → foreign authority (Some raw)
| NotOwn raw proof :
    verified raw proof → vb_client_id proof ≠ vb_client_id authority ∨ vb_subject proof ≠ vb_subject authority → foreign authority (Some raw)
| NotStored raw proof : verified raw proof → validate_local_auth_challenge (vb_jti proof) = false → foreign authority (Some raw).
(** It is not stored, or there is a reason why what is stored does not count. *)
Definition refused (proof : VerifiedBrokerAccess) (hash : string) (db : Db) : Prop :=
  ∀ t, db !! tokens hash = Some (RToken t) → tk_token_kind t = "oidc_access" → discounted policy (pi_digester s) proof ck t.
(** It is not what it was. *)
Definition changed (hash : string) (db db' : Db) : Prop :=
  ∃ t t' g g' rv rv', db !! tokens hash = Some (RToken t) ∧ db' !! tokens hash = Some (RToken t') ∧
    grant_decode cap hash t = Ok (g, rv) ∧ grant_decode cap hash t' = Ok (g', rv') ∧ g ≠ g'.

Context (R : gset Key → Db → Db → Prop) `{!Rely R, !ClockedJwt}.
Definition between (start stop db : Db) : Prop := R ∅ start db ∧ R ∅ db stop.
(** Why a token is said to be inactive, between two moments. *)
Definition why_inactive (authority : VerifiedBrokerAccess) (raw : option string) (start stop : Db) : Prop :=
  foreign authority raw ∨ ∃ raw' proof hash, raw = Some raw' ∧ own authority raw' proof hash ∧
    ((∃ db, between start stop db ∧ refused proof hash db) ∨
     ∃ db db', between start stop db ∧ between start stop db' ∧ changed hash db db').
(** The caller's own token was stored and counted at some moment; then the token
    asked about is said inactive, with nothing changed and a reason for it, or it
    counts, is marked as used, and that is told unless its expiry came first. *)
Inductive introspects (caller : string) (raw : option string) (start db : Db) : result OidcIntrospectionError OidcIntrospection → Db → Prop :=
| SaysInactive authority :
    verified caller authority → (∃ db0 h t, between start db db0 ∧ token_hash (pi_digester s) authority = Ok h ∧
      db0 !! tokens h = Some (RToken t) ∧ counts policy authority ck t) →
    why_inactive authority raw start db →
    introspects caller raw start db (Ok inactive) db
| SaysActive authority raw' proof hash t now' x :
    verified caller authority → (∃ db0 h t, between start db db0 ∧ token_hash (pi_digester s) authority = Ok h ∧
      db0 !! tokens h = Some (RToken t) ∧ counts policy authority ck t) →
    raw = Some raw' → own authority raw' proof hash →
    db !! tokens hash = Some (RToken t) → counts policy proof ck t → read_from ck now' →
    x = Ok (active (tk_client_id t) (vb_scopes proof) (tk_expires_at t)) ∨
      (x = Ok inactive ∧ lapsed proof ck) ∨ (∃ e, x = Err e ∧ late_introspection e) →
    introspects caller raw start db x (<[tokens hash := RToken (used now' t)]> db).

Hypothesis ck_run : ∀ k k', ck k → clock_run k k' → ck k'.
Lemma ck_inside (c c' : Tx) : ck (cn_clock c) → inside R c c' → ck (cn_clock c').
Proof. intros Hk Hi. eapply ck_run; [exact Hk|exact (in_clock _ _ _ Hi)]. Qed.
Lemma ck_rests (c c' : Tx) : ck (cn_clock c) → rests R c c' → ck (cn_clock c').
Proof. intros Hk Hi. exact (ck_inside _ _ Hk (re_inside _ _ _ Hi)). Qed.
Lemma ck_now (c c' : Tx) now : txn_clock (E:=OidcIntrospectionError) now_micros c = (Ok now, c') → ck (cn_clock c) → read_from ck now.
Proof.
  unfold txn_clock, txn_with. intros Hn Hk. destruct (now_micros (cn_clock c)) as [r k'] eqn:Ek. exists (cn_clock c), k'.
  split; [done|]. destruct r; [|done]. simpl in Hn. by injection Hn as -> _.
Qed.
Lemma between_inside c c1 c2 : inside R c c1 → inside R c1 c2 → fair R c → between (cn_db c) (cn_db c2) (cn_db c1).
Proof.
  intros I1 I2 Hf. split; (eapply rely_anti; [apply empty_subseteq|]).
  - exact (in_env _ _ _ I1 Hf).
  - apply (in_env _ _ _ I2). by apply (fair_inside R _ _ I1).
Qed.
(** The transaction ends without a commit. *)
Definition leaves (reason : Prop) (c : Tx) (x : result OidcIntrospectionError OidcIntrospection) (c' : Tx) : Prop :=
  ∃ c1, inside R c c1 ∧ cn_db c' = cn_db c1 ∧ ((∃ e, x = Err e) ∨ x = Ok inactive ∧ reason).
Lemma leaves_inside reason c c1 x c' : inside R c c1 → leaves reason c1 x c' → leaves reason c x c'.
Proof. intros Hi (c2 & Hi2 & ?). exists c2. split; [by etrans|done]. Qed.
Lemma leaves_error reason c e c' : inside R c c' → leaves reason c (Err e) c'.
Proof. intros Hi. exists c'. split; [done|]. eauto. Qed.
Lemma refuse_run authority (reason : Prop) c x c' : refuse authority c = (x, c') → reason → leaves reason c x c'.
Proof.
  unfold refuse. intros Hr Hq. assert (∃ c1, rests R c c1 ∧ same_db c1 c') as (c1 & I1 & Hdb).
  { apply bind_cases in Hr as [([] & c2 & Hm & Hr)|(e & Hm & ->)]; unfold sql_rollback in Hm.
    - apply bind_ok in Hm as (u & c1 & Ha & [= <-]). exists c1. split; [exact (rests_await R _ _ _ Ha)|].
      assert (keeps same_db (do? check_authority authority in ret inactive)) as Hk by auto with broker. by apply Hk in Hr.
    - apply bind_cases in Hm as [(u & c1 & _ & [=])|(e' & Ha & [= ->])]. exists c'. split; [exact (rests_await R _ _ _ Ha)|done]. }
  exists c1. split; [exact (re_inside _ _ _ I1)|]. split; [exact Hdb|]. destruct x as [r|e]; [right|left; eauto].
  apply bind_ok in Hr as (? & c2 & _ & Hr). apply bind_ok in Hr as (? & c3 & _ & Hr). by apply ret_ok in Hr as [-> _].
Qed.
Lemma unused_run authority (reason : Prop) c x c' : unused authority c = (x, c') → reason → leaves reason c x c'.
Proof.
  unfold unused. intros Hr Hq. apply (bind_rests R) in Hr as [(? & c1 & _ & I1 & Hr)|(e & -> & Hi)]; [|by apply leaves_error|auto with broker].
  eapply leaves_inside; [exact (re_inside _ _ _ I1)|by eapply refuse_run].
Qed.
Lemma target_admitted_ok g rv proof k b k' :
  target_admitted s g rv proof k = (Ok b, k') → ∃ k1, grant_admit s g rv proof k = (if b then Ok tt else Err AG_InvalidToken, k1).
Proof.
  unfold target_admitted. intros Hr. apply bind_ok in Hr as (o & k1 & Ho & Hr). unfold outcome in Ho.
  destruct (grant_admit s g rv proof k) as [o' k2]. injection Ho as -> ->. exists k1.
  destruct o as [[]|[]]; try done; by apply ret_ok in Hr as [-> _].
Qed.
Lemma admitted_counts hash t g rv proof k k' :
  grant_admit s g rv proof k = (Ok tt, k') → ck k → grant_decode cap hash t = Ok (g, rv) → tk_token_kind t = "oidc_access" →
  counts policy proof ck t.
Proof. intros Ha Hk. apply bind_ok in Ha as ([] & k1 & Hm & _). by eapply grant_matches_ok. Qed.
Lemma admit_refused hash t g rv proof k k' :
  grant_admit s g rv proof k = (Err AG_InvalidToken, k') → ck k → grant_decode cap hash t = Ok (g, rv) →
  discounted policy (pi_digester s) proof ck t.
Proof.
  intros Ha Hk Hd. apply bind_cases in Ha as [(u & k1 & _ & Ha)|(e & Hm & [= <-])]; [|by eapply grant_matches_refused].
  eapply grant_principal_refused; [|exact Hd]. unfold lift_result, bind in Ha. by destruct (grant_principal _ _) as [|e]; [|injection Ha as ->].
Qed.
Lemma txn_target_ok g rv proof (c : Tx) b c' :
  txn_with id (target_admitted s g rv proof) c = (Ok b, c') → ck (cn_clock c) →
  ∃ k k', ck k ∧ grant_admit s g rv proof k = (if b then Ok tt else Err AG_InvalidToken, k').
Proof.
  unfold txn_with. destruct (target_admitted _ _ _ _ _) as [[b'|] k] eqn:Et; [|done]. intros [= <- _] Hk.
  apply target_admitted_ok in Et as [k1 ?]. eauto.
Qed.
Lemma find_grant_ok h1 h2 hash c found c' :
  select_grants h1 h2 c = (Ok found, c') → cn_writes c = ∅ →
  match find_grant hash found with
  | Some t => cn_db c' !! tokens hash = Some (RToken t) ∧ tk_token_kind t = "oidc_access"
  | None => hash = h1 ∨ hash = h2 → ∀ t, cn_db c' !! tokens hash = Some (RToken t) → tk_token_kind t ≠ "oidc_access"
  end.
Proof.
  intros Hs Hw. pose proof (rests_select_grants R _ _ _ _ _ Hs) as I. unfold select_grants in Hs. apply bind_ok in Hs as (? & c1 & _ & [= <- <-]).
  rewrite view_clean by (by eapply clean_rests).
  set (p := λ k r, token_at h1 stored_access k r || token_at h2 stored_access k r). set (f := λ kv : Key * Row, _). set (l := omap _ _).
  assert (∀ h t, (h, t) ∈ l ↔ cn_db c1 !! tokens h = Some (RToken t) ∧ tk_token_kind t = "oidc_access" ∧ (h = h1 ∨ h = h2)) as Hl.
  { intros h t. unfold l. rewrite list_elem_of_omap. split.
    - intros ([k r] & Hin & Hf). apply elem_of_map_to_list, map_lookup_filter_Some in Hin as [Hk Hp]. simpl in Hf, Hp.
      destruct r as [| | | |t'| | | |]; try done. injection Hf as <- <-. unfold p, token_at, at_key, stored_access in Hp.
      apply orb_true_iff in Hp as [Hp|Hp]; apply andb_true_iff in Hp as [Hp Hk2%str_eqb_eq]; bool_to_prop; subst k; simpl; auto.
    - intros (Hk & Hkind & Hh). exists (tokens h, RToken t). split; [|done]. apply elem_of_map_to_list, map_lookup_filter_Some. split; [done|].
      unfold p, token_at, at_key, stored_access. simpl. rewrite Hkind. apply orb_true_iff.
      destruct Hh as [->| ->]; [left|right]; by rewrite bool_decide_true. }
  unfold find_grant. destruct (List.find _ l) as [[h t]|] eqn:Ef; simpl.
  - apply find_some in Ef as [Hin%list_elem_of_In He%str_eqb_eq]. simpl in He. subst h. by apply Hl in Hin as (? & ? & _).
  - intros Hh t Ht Hk. assert ((hash, t) ∈ l) as Hin%list_elem_of_In by (by apply Hl).
    eapply find_none in Ef; [|exact Hin]. simpl in Ef. by rewrite (proj2 (str_eqb_eq _ _) eq_refl) in Ef.
Qed.
Lemma target_of_ok authority raw stop c o c' :
  target_of s authority raw stop c = (Ok o, c') → ck (cn_clock c) →
  match o with Some (proof, hash) => ∃ raw', raw = Some raw' ∧ own authority raw' proof hash | None => foreign authority raw end.
Proof.
  unfold target_of. destruct (raw ≫= nonempty) as [raw'|] eqn:Eraw; [|intros [= <- _] _; by constructor].
  apply nonempty_some in Eraw as ->. intros Hr Hk. apply bind_ok in Hr as (v & c1 & Hv & Hr). unfold outcome, txn_with in Hv.
  destruct (verify_for_oidc_operation _ _ _ _) as [[proof|e] k] eqn:Ev; injection Hv as <- <-.
  - assert (verified raw' proof) as Hver by (by eexists _, _, _). destruct (_ && _) eqn:Eown.
    + apply andb_true_iff in Eown as [Ec%str_eqb_eq Es%str_eqb_eq]. destruct (token_hash _ proof) as [hash|e] eqn:Eh.
      * injection Hr as <- _. exists raw'. by split.
      * destruct e; try done. injection Hr as <- _. apply (NotStored _ _ proof); [done|]. unfold token_hash in Eh.
        destruct (validate_local_auth_challenge _); [|done]. cbn [negb] in Eh.
        by destruct (token _ _ _).
    + injection Hr as <- _. apply (NotOwn _ _ proof); [done|].
      destruct (str_eqb (vb_client_id proof) _) eqn:Ec; [right|left]; intros Heq; rewrite (proj2 (str_eqb_eq _ _) Heq) in *; done.
  - simpl in Hr. destruct (bearer_error e) eqn:Eb; try done. injection Hr as <- _. eapply NotVerified; [exact Hk|exact Ev|]. by intros ->.
Qed.
Lemma late_introspection_check {A} (f : BrokerAccessError → OidcIntrospectionError) (m : M clock BrokerAccessError A) :
  (∀ e, late_introspection (f e)) → only late_introspection (txn_with f m : M Tx OidcIntrospectionError A).
Proof. intros Hf c e c'. unfold txn_with. destruct (m (cn_clock c)) as [[|e'] k]; [done|]. by intros [= <- _]. Qed.
Lemma late_authority authority : only late_introspection (check_authority authority).
Proof. apply late_introspection_check. intros []; [by left..|]. right. by eexists. Qed.
(** The update of one row that is held. *)
Lemma used_write {E} `{!FromControl E} hash q f t c n c' :
  update_where (E:=E) (token_at hash q) f c = (Ok n, c') → cn_writes c = ∅ → held c (tokens hash) (Some (RToken t)) → q t = true →
  ∃ c1, rests R c c1 ∧ c' = with_writes c1 {[tokens hash := Some (f (RToken t))]}.
Proof.
  intros (c1 & I1 & _ & ->)%(update_where_ok R) Hw Hh Hq. exists c1. split; [done|]. f_equal. apply (held_inside R _ _ _ _ (re_inside _ _ _ I1)) in Hh as [_ Hv].
  rewrite view_clean by (by eapply clean_rests). unfold token_at. rewrite rows_at_key, Hv, Hq. by rewrite map_fmap_singleton.
Qed.
Lemma used_view c c1 k v : rests R (with_writes c {[k := Some v]}) c1 → cn_writes c = ∅ → view c1 = <[k := v]> (cn_db c1).
Proof.
  intros [_ Hws] Hw. change (view c1) with (apply_writes (cn_writes c1) (cn_db c1)).
  rewrite Hws, writes_one, Hw, apply_insert, apply_empty. done.
Qed.
Definition told (proof : VerifiedBrokerAccess) (t : TokenRow) (x : result OidcIntrospectionError OidcIntrospection) : Prop :=
  x = Ok (active (tk_client_id t) (vb_scopes proof) (tk_expires_at t)) ∨
  (x = Ok inactive ∧ lapsed proof ck) ∨ (∃ e, x = Err e ∧ late_introspection e).
Lemma tail_told authority proof client scopes expiry t (c c' : Tx) x :
  (do? check_authority authority in
   let? checked := outcome (txn_with id (vb_check proof)) in
   match checked with
   | Ok _ => ret (active client scopes expiry)
   | Err e => match bearer_error e with AG_InvalidToken => ret inactive | e => fail (introspection_error e) end
   end) c = (x, c') →
  ck (cn_clock c) → client = tk_client_id t → scopes = vb_scopes proof → expiry = tk_expires_at t → told proof t x.
Proof.
  intros Hr Hk -> -> ->. apply bind_cases in Hr as [(? & c1 & Hca & Hr)|(e & Hr & ->)]; [|right; right; exists e; split; [done|by eapply late_authority]].
  apply bind_cases in Hr as [(o & c2 & Ho & Hr)|(e & Ho & ->)]; unfold outcome, txn_with in Ho;
    destruct (vb_check proof (cn_clock c1)) as [[u|e'] k] eqn:Ev; try done; injection Ho as <- <-.
  - injection Hr as <- _. by left.
  - simpl in Hr. right. destruct (bearer_error e') eqn:Eb; try (by destruct e').
    + injection Hr as <- _. left. split; [done|]. eapply vb_check_lapsed; [exact ck_run| |exact Ev|by intros ->].
      eapply ck_rests; [exact Hk|by eapply (rests_check_authority R)].
    + injection Hr as <- _. right. eexists. split; [done|]. right. by eexists.
Qed.
Lemma record_use_run authority proof hash t g rv c x c' :
  record_use s authority proof hash g rv c = (x, c') → cn_writes c = ∅ → held c (tokens hash) (Some (RToken t)) →
  grant_decode cap hash t = Ok (g, rv) → counts policy proof ck t → ck (cn_clock c) →
  leaves (refused proof hash (cn_db c)) c x c' ∨
  ∃ c1 now', inside R c c1 ∧ read_from ck now' ∧ cn_db c' = <[tokens hash := RToken (used now' t)]> (cn_db c1) ∧ told proof t x.
Proof.
  intros Hr Hw Hh Hd Hco Hk. unfold record_use in Hr.
  apply (bind_rests R) in Hr as [(now' & c1 & Hnow & I1 & Hr)|(e & -> & Hi)]; [|left; by apply leaves_error|auto with broker].
  apply (bind_inside R) in Hr as [(n & c2 & Hu & Hi2 & Hr)|(e & -> & Hi)];
    [|left; apply leaves_error; etrans; [exact (re_inside _ _ _ I1)|done]|auto with broker].
  assert (inside R c c2) as Hi02 by (etrans; [exact (re_inside _ _ _ I1)|done]).
  destruct (n =? 1); cbn [negb] in Hr; [|injection Hr as <- <-; left; by apply leaves_error].
  assert (cn_writes c1 = ∅) as Hw1 by (by eapply clean_rests).
  pose proof (held_inside R _ _ _ _ (re_inside _ _ _ I1) Hh) as Hh1.
  apply (used_write _ _ _ t) in Hu as (c3 & I3 & ->); [|done|done|unfold stored_access; by rewrite (co_kind _ _ _ _ Hco), (co_unrevoked _ _ _ _ Hco)].
  assert (cn_writes c3 = ∅) as Hw3 by (by eapply clean_rests).
  apply (bind_rests R) in Hr as [(u4 & c4 & _ & I4 & Hr)|(e & -> & Hi)]; [|left; apply leaves_error; by etrans|auto with broker].
  apply (bind_rests R) in Hr as [(b & c5 & Hb & I5 & Hr)|(e & -> & Hi)];
    [|left; apply leaves_error; etrans; [exact Hi02|]; etrans; [exact (re_inside _ _ _ I4)|done]|auto with broker].
  assert (rests R (with_writes c3 {[tokens hash := Some (set_token (used now') (RToken t))]}) c5) as I35 by (by etrans).
  assert (inside R c c5) as Hi05 by (etrans; [exact Hi02|exact (re_inside _ _ _ I35)]).
  destruct b; cbn [negb] in Hr.
  - apply (bind_rests R) in Hr as [(u6 & c6 & _ & I6 & Hr)|(e & -> & Hi)]; [|left; apply leaves_error; by etrans|auto with broker].
    apply (commit_tail_clock R) in Hr as [[[e ->] Hi]|(c7 & I7 & Hdb & Hx)].
    + left. apply leaves_error. etrans; [exact Hi05|]. etrans; [exact (re_inside _ _ _ I6)|done].
    + right. exists c7, now'. assert (rests R c5 c7) as I57 by (by etrans). 
      assert (inside R c c7) as Hi07 by (etrans; [exact Hi05|exact (re_inside _ _ _ I57)]). split; [done|]. split; [by eapply ck_now|].
      split; [rewrite Hdb; eapply used_view; [by etrans|done]|].
      destruct Hx as [(c8 & c9 & Hk8 & Hr)| ->]; [|right; right; eexists; split; [done|]; right; by eexists].
      apply grant_decode_ok in Hd as (_ & scopes & Hs & ->).
      eapply tail_told; [exact Hr|rewrite Hk8; by eapply ck_inside|done| |done].
      rewrite (co_scopes _ _ _ _ Hco) in Hs. by injection Hs as ->.
    + apply keeps_bind; [apply _|auto with broker|]. intros _. apply keeps_bind; [apply _|apply keeps_outcome; auto with broker|].
      intros [|e]; [auto with broker|]. destruct (bearer_error e); auto with broker.
  - left. eapply leaves_inside; [exact Hi05|]. eapply refuse_run; [exact Hr|]. intros t0 Ht0 _.
    destruct Hh as [_ Ht]. rewrite Ht in Ht0. injection Ht0 as <-.
    apply txn_target_ok in Hb as (k & k' & Hkb & Hb); [by eapply admit_refused|]. eapply ck_rests; [|exact I4]. by eapply ck_inside.
Qed.
(** The locked part: what it reports and where. *)
Lemma inspect_run authority proof hash g0 c x c' :
  inspect s authority proof hash g0 c = (x, c') → cn_writes c = ∅ → ck (cn_clock c) →
  (∃ c1 reason, inside R c c1 ∧ leaves reason c1 x c' ∧
     (reason → refused proof hash (cn_db c1) ∨
       ∃ t g rv, cn_db c1 !! tokens hash = Some (RToken t) ∧ grant_decode cap hash t = Ok (g, rv) ∧ g ≠ g0)) ∨
  ∃ c1 t now', inside R c c1 ∧ cn_db c1 !! tokens hash = Some (RToken t) ∧ counts policy proof ck t ∧ read_from ck now' ∧
    cn_db c' = <[tokens hash := RToken (used now' t)]> (cn_db c1) ∧ told proof t x.
Proof.
  intros Hr Hw Hclk. unfold inspect in Hr.
  assert (∀ e, x = Err e → inside R c c' → (∃ c1 reason, inside R c c1 ∧ leaves reason c1 x c' ∧
    (reason → refused proof hash (cn_db c1) ∨
       ∃ t g rv, cn_db c1 !! tokens hash = Some (RToken t) ∧ grant_decode cap hash t = Ok (g, rv) ∧ g ≠ g0))) as Hno.
  { intros e -> Hi. exists c', False. split; [done|]. split; [by apply leaves_error|done]. }
  apply (bind_rests R) in Hr as [(row & c1 & Hrow & I1 & Hr)|(e & He & Hi)]; [|left; by eapply Hno|auto with broker].
  assert (cn_writes c1 = ∅) as Hw1 by (by eapply clean_rests).
  apply (bind_rests R) in Hr as [(u & c2 & Hck & I2 & Hr)|(e & He & Hi)];
    [|left; eapply Hno; [done|etrans; [exact (re_inside _ _ _ I1)|done]]|auto with broker].
  assert (inside R c c2) as Hi2 by (eapply re_inside; by etrans).
  assert (cn_db c2 = cn_db c1) as Hdb2 by (by apply same_db_clock in Hck).
  destruct row as [t|].
  - apply (access_row_ok R) in Hrow as (Ht & Hk & Hh); [|done].
    apply (bind_rests R) in Hr as [([g rv] & c3 & Hd & I3 & Hr)|(e & He & Hi)]; [|left; eapply Hno; [done|by etrans]|auto with broker].
    apply lift_ok in Hd as [Hd ->]. assert (grant_decode cap hash t = Ok (g, rv)) as Hd' by (by destruct (grant_decode cap hash t); [injection Hd as ->|]).
    case_bool_decide as Hg.
    + subst g. apply (bind_rests R) in Hr as [(b & c3 & Hb & I3' & Hr)|(e & He & Hi)]; [|left; eapply Hno; [done|by etrans]|auto with broker].
      assert (cn_db c3 = cn_db c2) as Hdb3 by (by apply same_db_clock in Hb). apply txn_target_ok in Hb as (k & k' & Hkb & Hb); [|by eapply ck_inside].
      assert (inside R c c3) as Hi3 by (etrans; [exact Hi2|exact (re_inside _ _ _ I3')]). destruct b.
      * apply (admitted_counts hash t) in Hb as Hco; [|done|done|done].
        assert (held c3 (tokens hash) (Some (RToken t))) as Hh3.
        { eapply (held_inside R); [exact (re_inside _ _ _ I3')|]. eapply (held_inside R); [exact (re_inside _ _ _ I2)|by apply Hh]. }
        eapply record_use_run in Hr as [Hl|(c4 & now' & Hi4 & Hrd & Hdb & Hx)]; try done.
        -- left. exists c3, (refused proof hash (cn_db c3)). auto.
        -- right. exists c4, t, now'. split; [by etrans|]. split; [by apply (held_inside R _ _ _ _ Hi4 Hh3)|done].
        -- eapply clean_rests; [exact I3'|]. eapply clean_rests; [exact I2|done].
        -- by eapply ck_inside.
      * left. exists c3, True. split; [done|]. split; [by eapply unused_run|]. intros _. left. intros t0 Ht0 _.
        rewrite Hdb3, Hdb2, Ht in Ht0. injection Ht0 as <-. by eapply admit_refused.
    + left. exists c2, True. split; [done|]. split; [by eapply unused_run|]. intros _. right. exists t, g, rv. by rewrite Hdb2.
  - left. exists c2, True. split; [done|]. split; [by eapply unused_run|]. intros _. left. intros t Ht Hk. exfalso.
    rewrite Hdb2 in Ht. exact (access_row_none R _ _ _ _ _ Hrow Hw Ht Hk).
Qed.
Lemma decoded_ok hash t c g rv c' : decoded s hash t c = (Ok (g, rv), c') → grant_decode cap hash t = Ok (g, rv) ∧ c' = c.
Proof. intros [Hd ->]%lift_ok. split; [|done]. by destruct (grant_decode cap hash t); [injection Hd as ->|]. Qed.
Lemma own_found authority raw proof hash h1 found t c c1 c2 g rv k k' b :
  select_grants h1 hash c = (Ok found, c1) → cn_writes c = ∅ → find_grant hash found = Some t → cn_db c2 = cn_db c1 →
  grant_decode cap hash t = Ok (g, rv) → grant_admit s g rv proof k = (if b : bool then Ok tt else Err AG_InvalidToken, k') → ck k →
  own authority raw proof hash → cn_db c2 !! tokens hash = Some (RToken t) ∧ (b = false → refused proof hash (cn_db c2)).
Proof.
  intros Hs Hw Hf Hdb Hd Ha Hk0 Hown. pose proof (find_grant_ok _ _ hash _ _ _ Hs Hw) as Hg. rewrite Hf in Hg. destruct Hg as [Ht Hk].
  rewrite Hdb. split; [done|]. intros ->. intros t0 Ht0 _. rewrite Ht in Ht0. injection Ht0 as <-. by eapply admit_refused.
Qed.
(** What [introspect] does once the caller is admitted at [c]. *)
Lemma target_run authority raw target h found c0 c1 c x c' :
  match target with
  | None => unused authority
  | Some (proof, hash) =>
      match find_grant hash found with
      | None => unused authority
      | Some t =>
          let? (initial, revoked_at) := decoded s hash t in
          let? admitted := txn_with id (target_admitted s initial revoked_at proof) in
          if admitted then inspect s authority proof hash initial else unused authority
      end
  end c = (x, c') →
  select_grants h (match target with Some (_, hash) => hash | None => h end) c0 = (Ok found, c1) → cn_writes c0 = ∅ →
  rests R c1 c → cn_db c = cn_db c1 → fair R c → ck (cn_clock c) →
  match target with Some (proof, hash) => ∃ raw', raw = Some raw' ∧ own authority raw' proof hash | None => foreign authority raw end →
  (∃ c2, inside R c c2 ∧ cn_db c' = cn_db c2 ∧ ((∃ e, x = Err e) ∨ x = Ok inactive ∧ why_inactive authority raw (cn_db c) (cn_db c2))) ∨
  ∃ c2 raw' proof hash t now', inside R c c2 ∧ raw = Some raw' ∧ own authority raw' proof hash ∧
    cn_db c2 !! tokens hash = Some (RToken t) ∧ counts policy proof ck t ∧ read_from ck now' ∧
    cn_db c' = <[tokens hash := RToken (used now' t)]> (cn_db c2) ∧ told proof t x.
Proof.
  intros Hr Hs Hw0 I1 Hdb Hf Hck Ht. assert (cn_writes c = ∅) as Hw.
  { eapply clean_rests; [exact I1|]. eapply clean_rests; [exact (rests_select_grants R _ _ _ _ _ Hs)|done]. }
  assert (∀ reason : Prop, (∀ c2, inside R c c2 → reason → why_inactive authority raw (cn_db c) (cn_db c2)) → leaves reason c x c' →
    ∃ c2, inside R c c2 ∧ cn_db c' = cn_db c2 ∧ ((∃ e, x = Err e) ∨ x = Ok inactive ∧ why_inactive authority raw (cn_db c) (cn_db c2))) as Hl.
  { intros reason Hq (c2 & Hi & Hd & Hx). exists c2. split; [done|]. split; [done|]. naive_solver. }
  destruct target as [[proof hash]|]; [|left; eapply (Hl True); [by left|by eapply unused_run]].
  destruct Ht as (raw' & -> & Hown). destruct (find_grant hash found) as [t|] eqn:Ef.
  - apply (bind_rests R) in Hr as [([g rv] & c2 & Hd & _ & Hr)|(e & -> & Hi)]; [|left; exists c'; eauto|auto with broker].
    apply decoded_ok in Hd as [Hd ->].
    apply (bind_rests R) in Hr as [(b & c3 & Hb & I3 & Hr)|(e & -> & Hi)]; [|left; exists c'; eauto|auto with broker].
    apply txn_target_ok in Hb as (k & k' & Hkb & Hb); [|done].
    eapply (own_found _ _ _ _ _ _ _ _ _ c) in Hb as [Hrow Href]; try done. destruct b.
    + apply inspect_run in Hr as [(c4 & reason & Hi4 & Hlv & Hq)|(c4 & t' & now' & Hi4 & Ht' & Hco & Hrd & Hd' & Hx)];
        [| |by eapply clean_rests|by eapply ck_rests].
      * assert (inside R c c4) as Hi by (etrans; [exact (re_inside _ _ _ I3)|done]). left.
        destruct Hlv as (c5 & Hi5 & Hd5 & Hx). exists c5. split; [by etrans|]. split; [done|]. destruct Hx as [?|[-> Hre]]; [by left|right].
        split; [done|]. right. exists raw', proof, hash. split; [done|]. split; [done|].
        destruct (Hq Hre) as [Hr4|(t4 & g4 & rv4 & Ht4 & Hd4 & Hne)]; [left; exists (cn_db c4); split; [by apply between_inside|done]|right].
        exists (cn_db c), (cn_db c4). split; [apply between_inside; [done|by etrans|done]|]. split; [by apply between_inside|].
        exists t, t4, g, g4, rv, rv4. auto 10.
      * right. exists c4, raw', proof, hash, t', now'. split; [etrans; [exact (re_inside _ _ _ I3)|done]|done].
    + left. eapply (Hl True); [|eapply leaves_inside; [exact (re_inside _ _ _ I3)|by eapply unused_run]]. intros c4 Hi4 _. right.
      exists raw', proof, hash. split; [done|]. split; [done|]. left. exists (cn_db c). split; [by apply between_inside|by apply Href].
  - left. eapply (Hl True); [|by eapply unused_run]. intros c2 Hi2 _. right. exists raw', proof, hash. split; [done|]. split; [done|]. left.
    exists (cn_db c). split; [by apply between_inside|]. intros t Ht Hk. exfalso. rewrite Hdb in Ht.
    pose proof (find_grant_ok _ _ hash _ _ _ Hs Hw0) as Hg. rewrite Ef in Hg. by eapply Hg; [right| |].
Qed.
Lemma why_earlier authority raw start start' stop :
  R ∅ start start' → why_inactive authority raw start' stop → why_inactive authority raw start stop.
Proof.
  intros HR [?|(raw' & proof & hash & Hraw & Hown & Hq)]; [by left|right]. exists raw', proof, hash. split; [done|]. split; [done|].
  assert (∀ db, between start' stop db → between start stop db) as Hb by (intros db [? ?]; split; [by etrans|done]).
  destruct Hq as [(db & ? & ?)|(db & db' & ? & ? & ?)]; [left; eauto|right; eauto 10].
Qed.
Lemma introspect_atomic caller raw original c x c' :
  introspect s caller raw original c = (x, c') → idle c → fair R c → ck (cn_clock c) →
  ∃ db, R ∅ (cn_db c) db ∧ ((∃ e, x = Err e) ∧ cn_db c' = db ∨ introspects caller raw (cn_db c) db x (cn_db c')).
Proof.
  intros Hr [Hw Hlocks] Hfair Hck. match goal with |- ?G => assert (∀ e, x = Err e → inside R c c' → G) as Hno end.
  { intros e -> Hi. exists (cn_db c'). split; [rewrite <- Hlocks; by apply (in_env _ _ _ Hi)|eauto]. }
  unfold introspect in Hr. assert (rests R c c) as I by reflexivity. read_step Hr I stop c1 K1. pose proof (ck_rests _ _ Hck I) as Hck1.
  read_step Hr I authority c2 K2. assert (verified caller authority) as Hver.
  { unfold txn_with in K2. destruct (verify_for_oidc_operation _ _ _ _) as [[a|] k] eqn:Ev; [|done]. injection K2 as <- _. by eexists _, _, _. }
  pose proof (ck_rests _ _ Hck I) as Hck2. read_step Hr I h c3 K3. apply lift_ok in K3 as [K3 ->].
  assert (token_hash (pi_digester s) authority = Ok h) as Hh by (by destruct (token_hash _ authority); [injection K3 as ->|]).
  read_step Hr I target c4 K4. apply target_of_ok in K4; [|done]. read_step Hr I w5 c5 K5. read_step Hr I w6 c6 K6.
  assert (cn_writes c6 = ∅) as Hw6 by (by eapply clean_rests).
  read_step Hr I found c7 K7. pose proof I as I7. pose proof (clean_rests R _ _ I7 Hw) as Hw7.
  read_step Hr I ta c8 K8. apply lift_ok in K8 as [K8%ok_or_ok ->].
  read_step Hr I ga c9 K9. destruct ga as [ga rva]. apply decoded_ok in K9 as [K9 ->].
  pose proof (ck_rests _ _ Hck I) as Hck9. read_step Hr I w10 c10 K10. destruct w10. read_step Hr I w11 c11 K11.
  assert (cn_db c11 = cn_db c7) as Hdb by (apply same_db_clock in K10, K11; unfold same_db in *; congruence).
  assert (counts policy authority ck ta) as Hco.
  { pose proof (find_grant_ok _ _ h _ _ _ K7 Hw6) as Hg. rewrite K8 in Hg. unfold txn_with in K10.
    destruct (grant_admit s ga rva authority _) as [[[]|] k] eqn:Ea; [|done]. eapply admitted_counts; [exact Ea|exact Hck9|exact K9|apply Hg]. }
  assert (cn_db c7 !! tokens h = Some (RToken ta)) as Hta by (pose proof (find_grant_ok _ _ h _ _ _ K7 Hw6) as Hg; rewrite K8 in Hg; apply Hg).
  pose proof (re_inside _ _ _ I) as Hi11. assert (rests R c7 c11) as I711
    by (match goal with J1 : rests R c7 c10, J2 : rests R c10 c11 |- _ => exact (transitivity J1 J2) end).
  assert (∀ c12, inside R c11 c12 → ∃ db0 h t, between (cn_db c) (cn_db c12) db0 ∧ token_hash (pi_digester s) authority = Ok h ∧
      db0 !! tokens h = Some (RToken t) ∧ counts policy authority ck t) as Hcaller.
  { intros c12 Hi. exists (cn_db c7), h, ta. split; [|done]. apply between_inside; [exact (re_inside _ _ _ I7)| |done].
    etrans; [exact (re_inside _ _ _ I711)|done]. }
  assert (∀ c12, inside R c11 c12 → R ∅ (cn_db c) (cn_db c12)) as Hrel
    by (intros c12 Hi; rewrite <- Hlocks; apply (in_env _ _ _ (transitivity Hi11 Hi) Hfair)).
  eapply target_run in Hr as [(c12 & Hi12 & Hd & Hx)|(c12 & raw' & proof & hash & t & now' & Hi12 & -> & Hown & Ht & Hco' & Hrd & Hd & Hx)]; try done.
  - exists (cn_db c12). split; [by apply Hrel|]. rewrite Hd. destruct Hx as [?|[-> Hwhy]]; [by left|right].
    econstructor; [exact Hver|by apply Hcaller|]. eapply why_earlier; [|exact Hwhy]. by apply Hrel.
  - exists (cn_db c12). split; [by apply Hrel|]. right. rewrite Hd. eapply SaysActive; [exact Hver|by apply Hcaller|done|exact Hown|exact Ht|exact Hco'|exact Hrd|exact Hx].
  - by apply (fair_inside R _ _ Hi11).
  - exact (ck_inside _ _ Hck Hi11).
Qed.
End introspects.

(** ** A profile, as one atomic step *)

Definition late_userinfo (e : OidcUserInfoError) : Prop := e = OU_InvalidToken ∨ ∃ ce, e = OU_Control ce.

Section profiles.
Context `{OidcLib, CredentialLib, JwtLib} (s : PostgresOidcUserInfo).
Notation cap := (ol_json_bytes (op_limits (pu_authorization s))).
Notation policy := (pu_authorization s).
(** The token counts at the clocks of the call, its principal may act, and what is
    told of it is what it is now. *)
Inductive profiles (ck : clock → Prop) (raw : string) (db : Db) : result OidcUserInfoError OidcUserInfo → Db → Prop :=
| Profile stop k k' proof hash t principal now' :
    ck k → verify_for_oidc_operation (pu_verifier s) raw stop k = (Ok proof, k') →
    token_hash (pu_digester s) proof = Ok hash → db !! tokens hash = Some (RToken t) → counts policy proof ck t → read_from ck now' →
    acts_now cap (pu_upstream s) db principal → pr_subject principal = tk_subject t → pr_revision principal = tk_local_user_revision t →
    profiles ck raw db (Ok (user_info (tk_oidc_subject t) principal)) (<[tokens hash := RToken (used now' t)]> db).

Context (R : gset Key → Db → Db → Prop) `{!Rely R, !ClockedJwt}.
Lemma profile_grant_ok c0 proof hash lock same c g c' :
  profile_grant s proof hash lock same c = (Ok g, c') → cn_writes c = ∅ → rests R c0 c →
  ∃ t, same g = true ∧ counts policy proof (clock_run (cn_clock c0)) t ∧ (∃ rv, grant_decode cap hash t = Ok (g, rv)) ∧
    (lock = true → held c' (tokens hash) (Some (RToken t))).
Proof.
  unfold profile_grant. intros Hr Hw I0. assert (rests R c c) as I by reflexivity. read_step Hr I row c1 K1. read_step Hr I t c2 K2.
  apply lift_ok in K2 as [->%ok_or_ok ->]. apply (access_row_ok R) in K1 as (_ & Hk & Hh); [|done].
  read_step Hr I gr c3 K3. destruct gr as [g' rv]. apply lift_ok in K3 as [K3 ->].
  assert (grant_decode cap hash t = Ok (g', rv)) as Hd by (by destruct (grant_decode cap hash t); [injection K3 as ->|]).
  destruct (same g') eqn:Es; [|done]. cbn [negb] in Hr. pose proof (in_clock _ _ _ (re_inside _ _ _ (transitivity I0 I))) as Hk3.
  read_step Hr I u c4 K4. apply ret_ok in Hr as [-> ->].
  assert (counts policy proof (clock_run (cn_clock c0)) t) as Hco.
  { unfold txn_with in K4. destruct (grant_matches _ _ _ _ _) as [[[]|] k] eqn:Em; [|done].
    eapply grant_matches_ok; [|exact Hk3|exact Em|exact Hd|done]. intros k1 k2. apply transitivity. }
  exists t. split; [done|]. split; [done|]. split; [eauto|]. intros Hl. by eapply (held_inside R), Hh; [exact (re_inside _ _ _ J2)|].
Qed.
Lemma profile_principal_ok observed stop c p c' :
  profile_principal s observed stop c = (Ok p, c') → cn_writes c = ∅ →
  pr_subject p = pr_subject observed ∧ pr_revision p = pr_revision observed ∧ holds_principal cap (pu_upstream s) c' p.
Proof.
  unfold profile_principal. intros Hr Hw. destruct observed as [lp|fp]; cbn [as_local] in Hr.
  - apply map_err_ok in Hr. by apply (holds_current R _ _ (pu_upstream s)) in Hr as (? & ? & _ & ?).
  - destruct (negb _) eqn:Et; [done|]. apply ret_ok in Hr as [-> ->]. split; [done|]. split; [done|]. by apply negb_false_iff.
Qed.
Lemma grant_principal_ok g digester p :
  grant_principal g digester = Ok p → ag_subject g = pr_subject p ∧ ag_revision g = pr_revision p.
Proof.
  unfold grant_principal. intros Hp. invert_ok Hp. bool_to_prop. injection Hp as ->.
  repeat match goal with Hs : str_eqb _ _ = true |- _ => apply str_eqb_eq in Hs end. done.
Qed.
Lemma late_bearer proof : only late_userinfo (check_bearer proof).
Proof.
  intros c e c'. unfold check_bearer, txn_with. destruct (vb_check proof _) as [[|e'] k]; [done|]. intros [= <- _].
  destruct e'; [by left..|]. right. by eexists.
Qed.
Lemma profile_commit proof (r : OidcUserInfo) (c : Tx) x c' :
  (do? check_bearer proof in do? sql_commit in do? check_bearer proof in ret r) c = (x, c') →
  (∃ e, x = Err e ∧ inside R c c') ∨ ∃ c1, rests R c c1 ∧ cn_db c' = view c1 ∧ (x = Ok r ∨ ∃ e, x = Err e ∧ late_userinfo e).
Proof.
  intros Hr. apply (bind_rests R) in Hr as [(u & c1 & _ & I1 & Hr)|(e & -> & Hi)]; [|by left; eauto|auto with broker].
  apply (commit_tail R) in Hr as [[[e ->] Hi]|(c2 & I2 & Hdb & Hx)]; [| |auto with broker].
  - left. exists e. split; [done|]. etrans; [exact (re_inside _ _ _ I1)|done].
  - right. exists c2. split; [by etrans|]. split; [done|]. destruct Hx as [(c3 & c4 & Hr)| ->]; [|right; eexists; split; [done|]; right; by eexists].
    apply bind_cases in Hr as [(? & c5 & _ & Hr)|(e & Hr & ->)]; [injection Hr as <- _; by left|].
    right. exists e. split; [done|]. by eapply late_bearer.
Qed.
Lemma profile_atomic raw original c x c' :
  user_profile s raw original c = (x, c') → idle c → fair R c →
  atomically R late_userinfo c x c' (profiles (clock_run (cn_clock c)) raw).
Proof.
  intros Hr Hidle Hfair. pose proof Hidle as [Hw _].
  match goal with |- ?G => assert (∀ e, x = Err e → inside R c c' → G) as Hno by (intros; by eapply (atomically_nothing R)) end.
  unfold user_profile in Hr. assert (rests R c c) as I by reflexivity. read_step Hr I stop c1 K1.
  pose proof (in_clock _ _ _ (re_inside _ _ _ I)) as Hk1. read_step Hr I proof c2 K2.
  assert (∃ k k', clock_run (cn_clock c) k ∧ verify_for_oidc_operation (pu_verifier s) raw stop k = (Ok proof, k')) as (k & k' & Hck & Hver).
  { unfold txn_with in K2. destruct (verify_for_oidc_operation _ _ _ _) as [[a|] k] eqn:Ev; [|done]. injection K2 as <- _. eauto. }
  guard_step Hr I G1. read_step Hr I hash c3 K3. apply lift_ok in K3 as [K3 ->].
  assert (token_hash (pu_digester s) proof = Ok hash) as Hhash.
  { unfold token_hash. rewrite G1. destruct (token _ _ _) as [d|]; [|done]. by injection K3 as <-. }
  read_step Hr I w4 c4 K4. read_step Hr I w5 c5 K5. pose proof (clean_rests R _ _ I Hw) as Hw5. pose proof I as I5. read_step Hr I initial c6 K6.
  apply (profile_grant_ok c) in K6 as (t0 & _ & _ & [rv0 Hd0] & _); [|done|exact I5]. read_step Hr I observed c7 K7. apply lift_ok in K7 as [K7 ->].
  assert (grant_principal initial (pu_digester s) = Ok observed) as Hob by (by destruct (grant_principal _ _); [injection K7 as ->|]).
  pose proof (clean_rests R _ _ I Hw) as Hw6. read_step Hr I principal c8 K8. apply profile_principal_ok in K8 as (Hsub & Hrev & Hpr); [|done].
  pose proof (clean_rests R _ _ I Hw) as Hw8. pose proof I as I8. read_step Hr I stored c9 K9.
  apply (holds_principal_inside R _ _ _ c9) in Hpr; [|by match goal with J : rests R c8 c9 |- _ => exact (re_inside _ _ _ J) end].
  apply (profile_grant_ok c) in K9 as (t & Hsame & Hco & [rv Hd] & Hh); [|done|exact I8]. specialize (Hh eq_refl). bool_to_prop. subst stored.
  guard_step Hr I G2. read_step Hr I w10 c10 K10.
  apply (holds_principal_inside R _ _ _ c10) in Hpr; [|by match goal with J : rests R c9 c10 |- _ => exact (re_inside _ _ _ J) end].
  pose proof (re_inside _ _ _ I) as Hi10. read_step Hr I now' c11 K11.
  assert (read_from (clock_run (cn_clock c)) now') as Hread.
  { destruct (read_at_now R c c10 c11 now' K11 Hi10) as (k1 & k2 & ? & ?). by exists k1, k2. }
  apply (holds_principal_inside R _ _ _ c11) in Hpr; [|by match goal with J : rests R c10 c11 |- _ => exact (re_inside _ _ _ J) end].
  apply (bind_inside R) in Hr as [(n & c12 & Hu & Hi12 & Hr)|(e & He & Hi)];
    [|eapply Hno; [exact He|etrans; [exact (re_inside _ _ _ I)|done]]|auto with broker].
  destruct (n =? 1); cbn [negb] in Hr; [|injection Hr as <- <-; eapply Hno; [done|etrans; [exact (re_inside _ _ _ I)|done]]].
  pose proof (clean_rests R _ _ I Hw) as Hw11. apply (used_write R _ _ _ t) in Hu as (c13 & I13 & ->);
    [|done|done|unfold stored_access; by rewrite (co_kind _ _ _ _ Hco)].
  apply profile_commit in Hr as [(e & He & Hi)|(c14 & I14 & Hdb & Hx)];
    [eapply Hno; [exact He|etrans; [exact (re_inside _ _ _ I)|by etrans]]|].
  assert (inside R c11 c14) as Hi14 by (etrans; [exact Hi12|exact (re_inside _ _ _ I14)]).
  eapply (atomically_step R); [done|done|etrans; [exact (re_inside _ _ _ I)|exact Hi14]|exact Hdb| |exact Hx].
  erewrite used_view; [|exact I14|by eapply clean_rests]. apply grant_decode_ok in Hd as (-> & scopes & _ & ->). cbn [ag_oidc_subject].
  apply grant_principal_ok in Hob as [Hs' Hr']. cbn in Hs', Hr'.
  eapply Profile; [exact Hck|exact Hver|exact Hhash|apply (held_inside R _ _ _ _ Hi14 Hh)|exact Hco|exact Hread|by eapply (holds_principal_now R)|congruence|congruence].
Qed.
End profiles.

Section claims.
Context `{OidcLib, CredentialLib, JwtLib, !ClockedJwt} (R : gset Key → Db → Db → Prop) `{!Rely R}.
(** C20. Introspection is one atomic step, whatever runs concurrently and
    wherever it fails.  Either an error is reported and nothing is changed; or
    the caller's token was stored and counted at some moment of the call, and
    then: the token asked about is said inactive, with nothing changed, because
    it is not one of the caller's own (client and subject), or at some moment it is
    not stored, or stored but revoked, expired, unlike the one signed or of another
    principal, or has changed meanwhile; or at
    one moment it is stored, unrevoked, unexpired and just as signed, its use is
    recorded and nothing else, and it is said active with its client, scopes and
    expiry, unless its expiry or an error comes first.  Every time in this, of an
    expiry, of a refusal and of the use, is read from the clock of the call. *)
Theorem introspect_refines (s : PostgresOidcIntrospection) caller raw original (c : Tx) x c' :
  introspect s caller raw original c = (x, c') → idle c → fair R c →
  ∃ db, R ∅ (cn_db c) db ∧ ((∃ e, x = Err e) ∧ cn_db c' = db ∨ introspects s (clock_run (cn_clock c)) R caller raw (cn_db c) db x (cn_db c')).
Proof.
  intros Hr Hi Hf. eapply introspect_atomic; [apply _|apply _| |done|done|done|reflexivity]. intros k k'. apply transitivity.
Qed.
(** User information is one atomic step: either an error is reported and
    nothing is changed, or at one moment the token presented is stored,
    unrevoked, unexpired and just as signed, its principal may act (a person who
    is unchanged since the token was stored, or an issuer still trusted), the
    profile told is the one it has at that moment, and only the use of the token
    is recorded. *)
Theorem profile_refines (s : PostgresOidcUserInfo) raw original (c : Tx) x c' :
  user_profile s raw original c = (x, c') → idle c → fair R c →
  ∃ db, R ∅ (cn_db c) db ∧
    ((∃ e, x = Err e) ∧ cn_db c' = db ∨
     ∃ r, profiles s (clock_run (cn_clock c)) raw db r (cn_db c') ∧ (x = r ∨ ∃ e, x = Err e ∧ late_userinfo e)).
Proof. apply profile_atomic; apply _. Qed.
End claims.

(** ** After the end of a session *)

Section ended.
Context `{OidcLib, CredentialLib, AuthLib, JwtLib, !HintLib, !ClockedJwt, !ClockedHint}.
(** A stored token keeps its columns and stays revoked as long as it is there,
    and what it is stored under is not used again. *)
Definition tokens_kept (R : gset Key → Db → Db → Prop) : Prop :=
  ∀ ks db db' h t t', R ks db db' → db !! tokens h = Some (RToken t) → db' !! tokens h = Some (RToken t') →
    same_columns t t' ∧ (tk_revoked_at t ≠ None → tk_revoked_at t' ≠ None).
(** C17. After the end of a session nothing of it is active.  Once ending a
    session has succeeded, whatever others do, every token that introspection
    later says to be active belongs to another subject or client than the one
    the hint was signed for, or was stored after the end. *)
Theorem ended_inactive (R : gset Key → Db → Db → Prop) `{!Rely R, !PairRely R}
    (e : PostgresOidcEndSession) (s : PostgresOidcIntrospection) i original (c c1 : Tx) :
  tokens_kept R → op_api_audience (pe_authorization e) = op_api_audience (pi_authorization s) →
  end_session e i original c = (Ok tt, c1) → idle c → fair R c →
  ∃ raw subject client, ei_id_token_hint i = Some raw ∧ signed_pair (pe_verifier e) raw subject client ∧
    ∀ caller asked original' c2 c3 a, R ∅ (cn_db c1) (cn_db c2) → idle c2 → fair R c2 →
      introspect s caller asked original' c2 = (Ok a, c3) → in_active a = true →
      ∃ authority raw' proof hash, asked = Some raw' ∧ own s (clock_run (cn_clock c2)) authority raw' proof hash ∧
        (vb_subject proof ≠ subject ∨ vb_client_id proof ≠ client ∨ ∀ t, cn_db c1 !! tokens hash ≠ Some (RToken t)).
Proof.
  intros Hkept Haud He Hidle Hfair. eapply (end_session_atomic e R) in He as (db & _ & Hx); [|done|done].
  destruct Hx as [[[? [=]] _]|(r & (-> & raw & subject & client & Hraw & Hsig & _ & [now db1 _ Hdead]) & _)].
  exists raw, subject, client. split; [done|]. split; [done|]. intros caller asked original' c2 c3 a HR Hidle2 Hf2 Hin Ha.
  eapply (introspect_atomic s (clock_run (cn_clock c2)) R) in Hin as (db2 & HR2 & [[[? [=]] _]|Hin]);
    [|intros k k'; apply transitivity|done|done|reflexivity].
  remember (Ok a) as x eqn:Ex. destruct Hin as [|authority raw' proof hash t now' x _ _ -> Hown Ht Hco _ Hx]; [by injection Ex as <-|].
  exists authority, raw', proof, hash. split; [done|]. split; [done|]. destruct (decide (vb_subject proof = subject)) as [Es|]; [|by left].
  destruct (decide (vb_client_id proof = client)) as [Ec|]; [|by right; left]. right; right.
  intros t1 Ht1. assert (R ∅ db1 db2) as HR12 by (etrans; [exact HR|exact HR2]).
  destruct (Hkept _ _ _ _ _ _ HR12 Ht1 Ht) as ((_ & Kk & _ & Ks & _ & Kc & Ka & _) & Krev).
  apply Krev; [|exact (co_unrevoked _ _ _ _ Hco)]. apply (Hdead hash); [done|]. unfold of_pair.
  rewrite <- Ks, <- Kc, <- Ka, <- Kk, (co_subject _ _ _ _ Hco), (co_client _ _ _ _ Hco), (co_audience _ _ _ _ Hco), (co_kind _ _ _ _ Hco).
  by rewrite Es, Ec, Haud, !(proj2 (str_eqb_eq _ _) eq_refl).
Qed.
End ended.
