(* ===== verification/OidcRegistration.v ===== *)
(** * Registration of clients

    crates/broker-control/src/oidc_registration.rs and
    service/oidc_registration.rs: the metadata of a public client is checked and
    stored under a random identifier, so that the flows that read the client
    later find it in order.  The metadata types of [openidconnect] and their
    decoding are a parameter. *)

From stdpp Require Import gmap.
From S2P Require Import Prelude RustStr Order Control BrokerAccess AccessIssuer Sql OidcTables.
From S2P Require Import StorageAdmission Credentials OidcPolicy OidcRefresh OidcRevocation OidcRequests.

Definition OIDC_REGISTRATION_BODY_BYTES : Z := 32 * 1024.
Inductive OidcRegistrationError := OR_Disabled | OR_InvalidMetadata | OR_Random | OR_Control (e : ControlError).
#[global] Instance OidcRegistrationError_from_control : FromControl OidcRegistrationError := OR_Control.

(** ** Metadata *)

Inductive CoreGrantType := AuthorizationCode | RefreshToken | OtherGrant.
Inductive CoreResponseType := Code | OtherResponse.
#[global] Instance CoreResponseType_eq_dec : EqDecision CoreResponseType.
Proof. solve_decision. Defined.
Record RegistrationInput := {
  mi_token_endpoint_auth_method : option string;
  mi_grant_types : option (list CoreGrantType);
  mi_response_types : option (list (list CoreResponseType));
  mi_redirect_uris : list string;
  mi_client_name : option string;           (* the one without a language *)
  mi_scope : option string;
}.
(** [serde_json] on the body: one whole object, no field twice. *)
Class RegistrationLib := { registration_json : string → option RegistrationInput }.
Record Registration := { rg_name : string; rg_redirects : list string; rg_scopes : list string; rg_native : bool }.
(** What is answered: the metadata as stored, and the scopes in one text. *)
Record RegisteredOidcClient := {
  rc_client_id : string;
  rc_client_id_issued_at : Z;
  rc_redirect_uris : list string;
  rc_application_type : string;
  rc_client_name : string;
  rc_scope : string;
}.
(** [str::split_whitespace] *)
Fixpoint words_list (fuel : nat) (word l : list ascii) : list (list ascii) :=
  match fuel with
  | O => []
  | S fuel =>
      match l with
      | [] => if bool_decide (word = []) then [] else [word]
      | b :: l' =>
          match strip_any whitespace l with
          | Some rest => (if bool_decide (word = []) then [] else [word]) ++ words_list fuel [] rest
          | None => words_list fuel (word ++ [b]) l'
          end
      end
  end.
Definition split_whitespace (s : string) : list string := of_bytes <$> words_list (S (String.length s)) [] (bytes s).
(** [if !seen.iter().any(|v| v == x) { seen.push(x) }] *)
Definition push_new (seen : list string) (x : string) : list string :=
  if existsb (λ v, str_eqb v x) seen then seen else seen ++ [x].

Section registration.
Context `{OidcLib, CredentialLib, AuthLib, RefreshLib, RegistrationLib}.

Definition public_metadata (m : RegistrationInput) : bool :=
  is_none_or (mi_token_endpoint_auth_method m) (λ v, str_eqb (trim v) "" || str_eqb (trim v) "none")
  && is_none_or (mi_grant_types m) (forallb (λ g, match g with AuthorizationCode | RefreshToken => true | OtherGrant => false end))
  && is_none_or (mi_response_types m) (forallb (λ v, bool_decide (v = [Code]))).
Fixpoint admit_redirects (bound : Z) (seen uris : list string) : result OidcRegistrationError (list string) :=
  match uris with
  | [] => Ok seen
  | uri :: uris => if (bound <? len uri)%Z then Err OR_InvalidMetadata else admit_redirects bound (push_new seen (trim uri)) uris
  end.
Definition has_https (r : string) : bool := eq_ignore_ascii_case (String.substring 0 6 r) "https:".
Fixpoint admit_scopes (seen words : list string) : result OidcRegistrationError (list string) :=
  match words with
  | [] => Ok seen
  | w :: words =>
      if existsb (str_eqb w) ["openid"; "profile"; "email"; "offline_access"] then admit_scopes (push_new seen w) words
      else Err OR_InvalidMetadata
  end.
Definition columns (r : Registration) (p : OidcAuthorizationPolicy) : result OidcRegistrationError (string * string) :=
  let! redirects := ok_or (json_strings (rg_redirects r)) OR_InvalidMetadata in
  let! scopes := ok_or (json_strings (rg_scopes r)) OR_InvalidMetadata in
  if existsb (λ n, (I64_MAX <? n)%Z || (ol_json_bytes (op_limits p) <? n)%Z) [len redirects; len scopes]
  then Err OR_InvalidMetadata else Ok (redirects, scopes).
Definition registration_parse (raw : string) (p : OidcAuthorizationPolicy) : result OidcRegistrationError Registration :=
  if (OIDC_REGISTRATION_BODY_BYTES <? len raw)%Z then Err OR_InvalidMetadata else
  let! m := ok_or (registration_json raw) OR_InvalidMetadata in
  if negb (public_metadata m) then Err OR_InvalidMetadata else
  let bound := ol_parameter_bytes (op_limits p) in
  let! redirects := admit_redirects bound [] (mi_redirect_uris m) in
  let native := negb (existsb has_https redirects) in
  let! _ := rmap_err (λ _, OR_InvalidMetadata)
    (validate_registration {| cd_id := "registration"; cd_redirects := redirects; cd_native := native |}) in
  let name := trim (default "" (mi_client_name m)) in
  if contains_byte NUL name || (1024 <? len name)%Z || (256 <? char_count name)%Z || (bound <? len name)%Z
  then Err OR_InvalidMetadata else
  let raw_scope := default "" (mi_scope m) in
  if (bound <? len raw_scope)%Z then Err OR_InvalidMetadata else
  let raw_scope := trim raw_scope in
  let! scopes := admit_scopes [] (split_whitespace (if is_empty raw_scope then "openid profile email offline_access" else raw_scope)) in
  let admitted := {| rg_name := name; rg_redirects := redirects; rg_scopes := scopes; rg_native := native |} in
  let! _ := columns admitted p in
  Ok admitted.
Definition response (r : Registration) (id : string) (created_at : Z) : result OidcRegistrationError RegisteredOidcClient :=
  if negb (chrono_micros created_at) then Err (OR_Control CE_Clock) else
  if negb (forallb url_parses (rg_redirects r)) then Err OR_InvalidMetadata else
  Ok {| rc_client_id := id; rc_client_id_issued_at := created_at; rc_redirect_uris := rg_redirects r;
        rc_application_type := if rg_native r then "native" else "web"; rc_client_name := rg_name r;
        rc_scope := join " " (rg_scopes r) |}.

(** ** The service *)

Record PostgresOidcRegistrationService := { ps_operation_timeout : Z; ps_policy : OidcAuthorizationPolicy }.
Section service.
Context (s : PostgresOidcRegistrationService).
Definition registration_enabled : bool := op_dynamic_registration (ps_policy s).
(** [guard_original(deadline).map_err(|_| error)] *)
Definition guard_as (e : ControlError) (stop : Z) : M Tx OidcRegistrationError unit :=
  map_err (λ _ : ControlError, OR_Control e) (guard_original stop).
Definition client_row (r : Registration) (redirects scopes : string) (created_at : Z) : ClientRow :=
  {| cl_client_name := rg_name r; cl_redirect_uris_json := redirects; cl_scopes_json := scopes;
     cl_application_type := if rg_native r then "native" else "web"; cl_created_at := created_at |}.
Definition register (raw : string) (original : Z) (random : option string) : M Tx OidcRegistrationError RegisteredOidcClient :=
  if negb registration_enabled then fail OR_Disabled else
  let? stop := txn_clock (bounded_deadline original (ps_operation_timeout s)) in
  do? guard_as CE_Deadline stop in
  let? registration := lift_result (registration_parse raw (ps_policy s)) in
  let? (redirects, scopes) := lift_result (columns registration (ps_policy s)) in
  let? id := lift_result (ok_or (new_local_auth_challenge random) OR_Random) in
  if str_eqb id (op_cli_client_id (ps_policy s)) then fail OR_Random else
  let? created_at := txn_clock now_micros in
  if (created_at <=? 0)%Z then fail (OR_Control CE_Clock) else
  let? response := lift_result (response registration id created_at) in
  do? sql_await in
  do? sql_await in
  do? guard_as CE_Deadline stop in
  do? insert_row (clients id) (RClient (client_row registration redirects scopes created_at)) (λ _ _, false) in
  do? guard_as CE_Deadline stop in
  do? sql_commit in
  do? guard_as CE_OutcomeUncertain stop in
  ret response.
End service.
End registration.

(** ** Registered metadata is in order *)

(** [serde_json] reads back what it wrote, base64 decodes what it encoded, and
    the scopes of OpenID Connect are scopes. *)
Class RegistrationLaws `{OidcLib, CredentialLib, AuthLib} : Prop := {
  law_strings l j : json_strings l = Some j → strings_json j = Some l;
  law_b64 s : url_b64_decode (url_b64_encode s) = Some s;
  law_b64_length s : String.length s = 32 → String.length (url_b64_encode s) = 43;
  law_scopes v : v ∈ ["openid"; "profile"; "email"; "offline_access"] → scope_parses v = true;
}.
Lemma words_pending fuel word l : word ≠ [] → length l < fuel → words_list fuel word l ≠ [].
Proof.
  revert word l. induction fuel as [|fuel IH]; intros word l Hw Hl; [lia|]. destruct l as [|b l]; cbn [words_list].
  - by rewrite bool_decide_false.
  - destruct (strip_any whitespace (b :: l)) as [rest|]; [by rewrite bool_decide_false|]. apply IH; [by destruct word|simpl in Hl; lia].
Qed.
Lemma split_whitespace_some s : trim s = s → s ≠ "" → split_whitespace s ≠ [].
Proof.
  intros Ht Hs. unfold split_whitespace. destruct (trim_list_spec whitespace (bytes s) whitespace_nonempty) as [Hn _].
  assert (trim_list whitespace (bytes s) = bytes s) as Hfix by (rewrite <- Ht at 2; unfold trim; by rewrite bytes_of_bytes).
  rewrite Hfix in Hn. destruct s as [|b s]; [done|]. change (bytes (String b s)) with (b :: bytes s) in *. cbn [words_list]. rewrite Hn.
  intros He. apply fmap_nil_inv in He. revert He. apply words_pending; [done|]. unfold bytes. simpl.
  rewrite <- (String.string_of_list_ascii_of_string s) at 2. clear. induction (String.list_ascii_of_string s); simpl; lia.
Qed.
Lemma push_new_ok seen x : NoDup seen → NoDup (push_new seen x) ∧ (∀ v, v ∈ push_new seen x ↔ v ∈ seen ∨ v = x).
Proof.
  intros Hn. unfold push_new. destruct (existsb _ seen) eqn:Ee.
  - apply existsb_elem in Ee as (v & Hv & ->%str_eqb_eq). naive_solver.
  - split; [|set_solver]. apply NoDup_app. split; [done|]. split; [|apply NoDup_singleton]. intros v Hv ->%list_elem_of_singleton.
    assert (existsb (λ v, str_eqb v x) seen = true); [|congruence]. apply existsb_elem. exists x. split; [done|by apply str_eqb_eq].
Qed.
Lemma admit_redirects_ok bound seen uris l : admit_redirects bound seen uris = Ok l → NoDup seen → NoDup l.
Proof.
  revert seen. induction uris as [|uri uris IH]; intros seen; simpl; [by intros [= <-]|].
  destruct (_ <? _)%Z; [done|]. intros Hr Hn. eapply IH; [exact Hr|by apply push_new_ok].
Qed.
Lemma admit_scopes_ok seen words l :
  admit_scopes seen words = Ok l → NoDup seen → (∀ v, v ∈ seen → v ∈ ["openid"; "profile"; "email"; "offline_access"]) →
  NoDup l ∧ (∀ v, v ∈ l → v ∈ ["openid"; "profile"; "email"; "offline_access"]) ∧ (words ≠ [] ∨ seen ≠ [] → l ≠ []).
Proof.
  revert seen. induction words as [|w words IH]; intros seen; cbn [admit_scopes].
  { intros [= <-] Hn Hin. split; [done|]. split; [done|]. naive_solver. }
  destruct (existsb _ _) eqn:Ew; [|done]. intros Hr Hn Hin. apply existsb_elem in Ew as (v & Hv & ->%str_eqb_eq).
  destruct (push_new_ok seen v Hn) as [Hn' Hin']. apply IH in Hr as (H1 & H2 & H3); [|done|].
  - split; [done|]. split; [done|]. intros _. apply H3. right. intros He. assert (v ∈ push_new seen v) as Hp by (apply Hin'; by right).
    rewrite He in Hp. by apply elem_of_nil in Hp.
  - intros u [?| ->]%Hin'; [by apply Hin|done].
Qed.

Section registered.
Context `{OidcLib, CredentialLib, AuthLib, RefreshLib, RegistrationLib}.
(** A row that is read back as [client], once its time has come. *)
Record readable (p : OidcAuthorizationPolicy) (client : ClientData) (row : ClientRow) : Prop := {
  rd_name : (len (cl_client_name row) ≤ 1024)%Z ∧ trim (cl_client_name row) = cl_client_name row ∧
    (char_count (cl_client_name row) ≤ 256)%Z ∧ contains_byte NUL (cl_client_name row) = false;
  rd_created : (0 < cl_created_at row)%Z;
  rd_redirects : (len (cl_redirect_uris_json row) ≤ ol_json_bytes (op_limits p))%Z ∧
    strings_json (cl_redirect_uris_json row) = Some (cd_redirects client) ∧ NoDup (cd_redirects client);
  rd_scopes : (len (cl_scopes_json row) ≤ ol_json_bytes (op_limits p))%Z ∧ ∃ scopes,
    strings_json (cl_scopes_json row) = Some scopes ∧ scopes ≠ [] ∧ NoDup scopes ∧
    Forall (λ v, v ≠ "" ∧ contains v " " = false ∧ scope_parses v = true) scopes;
  rd_kind : cl_application_type row = (if cd_native client then "native" else "web");
  rd_valid : validate_registration client = Ok tt;
}.
Lemma known_scopes v : v ∈ ["openid"; "profile"; "email"; "offline_access"] → v ≠ "" ∧ contains v " " = false.
Proof. intros Hv. repeat (apply elem_of_cons in Hv as [->|Hv]; [done|]). by apply elem_of_nil in Hv. Qed.
(** The metadata admitted, stored for an identifier of the right form. *)
Lemma registration_readable `{!RegistrationLaws} raw p r redirects scopes id bytes created :
  registration_parse raw p = Ok r → columns r p = Ok (redirects, scopes) → id = url_b64_encode bytes → String.length bytes = 32 →
  (0 < created)%Z →
  readable p {| cd_id := id; cd_redirects := rg_redirects r; cd_native := rg_native r |} (client_row r redirects scopes created).
Proof.
  intros Hp Hc -> Hlen Hcr. unfold registration_parse in Hp. destruct (_ <? _)%Z in Hp; [done|]. apply rbind_ok in Hp as (m & _ & Hp).
  destruct (negb (public_metadata m)); [done|]. cbv zeta in Hp. apply rbind_ok in Hp as (uris & Hu & Hp). apply rbind_ok in Hp as ([] & Hv & Hp).
  destruct (_ || _) eqn:En in Hp; [done|]. destruct (_ <? _)%Z in Hp; [done|]. apply rbind_ok in Hp as (words & Hw & Hp).
  apply rbind_ok in Hp as (? & _ & Hp). injection Hp as <-. unfold columns in Hc. cbn [rg_redirects rg_scopes] in Hc.
  apply rbind_ok in Hc as (rj & Hrj%ok_or_ok & Hc). apply rbind_ok in Hc as (sj & Hsj%ok_or_ok & Hc). destruct (existsb _ _) eqn:Eb in Hc; [done|].
  injection Hc as <- <-. cbn [existsb] in Eb. bool_to_prop.
  apply admit_scopes_ok in Hw as (Hnd & Hin & Hne); [|constructor|by intros ? ?%elem_of_nil].
  split; cbn [client_row cl_client_name cl_created_at cl_redirect_uris_json cl_scopes_json cl_application_type rg_name rg_native rg_redirects cd_native cd_redirects]; try done.
  - rewrite trim_idemp. split; [lia|]. split; [done|]. split; [lia|done].
  - split; [lia|]. split; [by apply law_strings|]. by eapply admit_redirects_ok, NoDup_nil_2.
  - split; [lia|]. exists words. split; [by apply law_strings|]. split.
    { apply Hne. left. destruct (is_empty _) eqn:Ee; [by vm_compute|]. apply split_whitespace_some; [apply trim_idemp|]. intros E. by rewrite E in Ee. }
    split; [done|]. apply Forall_forall. intros v Hv'%Hin. destruct (known_scopes v Hv'). split; [done|]. split; [done|]. by apply law_scopes.
  - assert (OidcClientId_parse (url_b64_encode bytes) = Some (url_b64_encode bytes)) as Hid.
    { unfold OidcClientId_parse, validate_local_auth_challenge, len. rewrite law_b64, (law_b64_length _ Hlen). simpl. unfold len. rewrite Hlen.
      rewrite (proj2 (str_eqb_eq _ _) eq_refl). by rewrite orb_true_r. }
    unfold validate_registration in Hv |- *. cbn [cd_id cd_redirects cd_native] in *. rewrite Hid. destruct uris as [|u uris]; [by destruct (OidcClientId_parse _)|].
    destruct (OidcClientId_parse "registration"); [|done]. destruct (forallb _ _); [|done]. by destruct (Bool.eqb _ _).
Qed.
End registered.

(** ** Reading a client back *)

Section reads.
Context `{OidcLib, CredentialLib, AuthLib, RefreshLib, RegistrationLib} (R : gset Key → Db → Db → Prop) `{!Rely R}.
Definition from_store (e : OidcAuthorizationError) : Prop := ∃ ce, e = OA_Control ce.
Lemma store_clock {A} (m : M clock ControlError A) : only from_store (txn_clock m : M Tx OidcAuthorizationError A).
Proof. intros c e c'. unfold txn_clock, txn_with. destruct (m (cn_clock c)) as [[|e'] k]; [done|]. intros [= <- _]. by eexists. Qed.
Lemma store_guard stop : only from_store (guard_original (E:=OidcAuthorizationError) stop).
Proof. apply store_clock. Qed.
Lemma store_select k : only from_store (select_locked (V:=Row) (E:=OidcAuthorizationError) k).
Proof.
  apply only_bind; [|intros _ c e c' [=]]. intros c e c'. unfold sql_await. destruct (cn_turns c) as [|t ts]; [done|].
  destruct (tn_fault t) as [[]|]; intros [= <- _]; by eexists.
Qed.
Lemma store_scopes stop seen l :
  NoDup (seen ++ l) → Forall (λ v, v ≠ "" ∧ contains v " " = false ∧ scope_parses v = true) l →
  only from_store (mfor (check_client_scope stop) seen l).
Proof.
  revert seen. induction l as [|v l IH]; intros seen Hn Hl; [apply only_ret|].
  apply Forall_cons in Hl as [(Hv & Hc & Hp) Hl].
  intros c e c' Hr. cbn [mfor] in Hr. apply bind_cases in Hr as [(seen' & c1 & Hm & Hr)|(e' & Hm & [= <-])].
  - unfold check_client_scope in Hm. apply bind_ok in Hm as (? & c2 & _ & Hm). destruct (_ || _) in Hm; [done|]. apply ret_ok in Hm as [-> _].
    eapply IH; [|done|exact Hr]. by rewrite <- (assoc_L (++)).
  - unfold check_client_scope in Hm. apply bind_cases in Hm as [(? & c2 & _ & Hm)|(e' & Hm & [= <-])]; [|by eapply store_guard].
    destruct (existsb (str_eqb v) seen) eqn:Ee.
    + apply existsb_elem in Ee as (w & Hw & ->%str_eqb_eq). apply NoDup_app in Hn as (_ & Hn & _). destruct (Hn w Hw). by left.
    + rewrite Hc, Hp in Hm. by destruct v.
Qed.
Lemma store_redirects stop seen l : NoDup (seen ++ l) → only from_store (mfor (check_client_redirect stop) seen l).
Proof.
  revert seen. induction l as [|v l IH]; intros seen Hn; [apply only_ret|].
  intros c e c' Hr. cbn [mfor] in Hr. apply bind_cases in Hr as [(seen' & c1 & Hm & Hr)|(e' & Hm & [= <-])].
  - unfold check_client_redirect in Hm. apply bind_ok in Hm as (? & c2 & _ & Hm). destruct (existsb _ _) in Hm; [done|]. apply ret_ok in Hm as [-> _].
    eapply IH; [|exact Hr]. by rewrite <- (assoc_L (++)).
  - unfold check_client_redirect in Hm. apply bind_cases in Hm as [(? & c2 & _ & Hm)|(e' & Hm & [= <-])]; [|by eapply store_guard].
    destruct (existsb (str_eqb v) seen) eqn:Ee; [|done].
    apply existsb_elem in Ee as (w & Hw & ->%str_eqb_eq). apply NoDup_app in Hn as (_ & Hn & _). destruct (Hn w Hw). by left.
Qed.
(** A step that fails only with errors of the store. *)
Ltac store_step Hr a c Hm :=
  let e := fresh "e" in
  apply bind_cases in Hr as [(a & c & Hm & Hr)|(e & Hm & ->)]; [|right; exists e; split; [done|]; first [by eapply store_guard|by eapply store_select|by eapply store_clock]].
Definition row_stays (id : string) (row : ClientRow) : Prop :=
  ∀ ks db db', R ks db db' → db !! clients id = Some (RClient row) → db' !! clients id = Some (RClient row).
Lemma client_of_readable p client row stop c x c' :
  client_of p (cd_id client) stop c = (x, c') → cn_writes c = ∅ → fair R c → op_dynamic_registration p = true →
  cd_id client ≠ op_cli_client_id p → cn_db c !! clients (cd_id client) = Some (RClient row) → row_stays (cd_id client) row →
  readable p client row → (∀ now, read_at c now → cl_created_at row ≤ now)%Z →
  x = Ok client ∨ ∃ e, x = Err e ∧ from_store e.
Proof.
  intros Hr Hw Hf Hdyn Hid Hrow Hst [(N1 & N2 & N3 & N4) Hcr (J1 & J2 & J3) (S1 & scopes & S2 & S3 & S4 & S5) Hkind Hval] Hclock.
  unfold client_of in Hr. store_step Hr u1 c1 K1. apply (rests_guard R) in K1 as I1.
  destruct (str_eqb (cd_id client) (op_cli_client_id p)) eqn:Ecli; [by apply str_eqb_eq in Ecli|]. rewrite Hdyn in Hr. cbn [negb] in Hr.
  store_step Hr o c2 K2. apply (select_locked_ok R) in K2 as (I2 & -> & _).
  assert (rests R c c2) as I02 by (by etrans). rewrite view_clean in Hr by (by eapply clean_rests).
  rewrite (Hst _ _ _ (in_env _ _ _ (re_inside _ _ _ I02) Hf) Hrow) in Hr. cbn [mbind option_bind ok_or] in Hr.
  apply bind_cases in Hr as [(row' & c2' & [[= <-] ->]%lift_ok & Hr)|(e & [=] & _)].
  store_step Hr u3 c3 K3. apply (rests_guard R) in K3 as I3.
  unfold capped in Hr. rewrite (proj2 (Z.leb_le _ _) N1) in Hr. cbn [ok_or] in Hr.
  apply bind_cases in Hr as [(name & c4 & [[= <-] ->]%lift_ok & Hr)|(e & [=] & _)].
  rewrite N2, (proj2 (str_eqb_eq _ _) eq_refl), N4, (proj2 (Z.ltb_ge _ _) N3), (proj2 (Z.leb_gt _ _) Hcr) in Hr. cbn [negb orb] in Hr.
  store_step Hr now c4 K4. assert (cl_created_at row ≤ now)%Z as Hnow.
  { apply Hclock. unfold txn_clock, txn_with in K4. destruct (now_micros (cn_clock c3)) as [[n|] k] eqn:En; [|done]. injection K4 as <- _.
    exists (cn_clock c3), k. split; [|done]. exact (in_clock _ _ _ (re_inside _ _ _ (transitivity I02 I3))). }
  rewrite (proj2 (Z.ltb_ge _ _) Hnow) in Hr. cbv zeta in Hr. unfold bounded_json in Hr.
  rewrite (proj2 (Z.ltb_ge _ _) J1), (proj2 (Z.ltb_ge _ _) S1) in Hr.
  apply bind_cases in Hr as [(rj & c5 & [[= <-] ->]%lift_ok & Hr)|(e & [=] & _)]. rewrite J2 in Hr. cbn [ok_or] in Hr.
  apply bind_cases in Hr as [(rs & c5 & [[= <-] ->]%lift_ok & Hr)|(e & [=] & _)].
  apply bind_cases in Hr as [(sj & c5 & [[= <-] ->]%lift_ok & Hr)|(e & [=] & _)]. rewrite S2 in Hr. cbn [ok_or] in Hr.
  apply bind_cases in Hr as [(ss & c5 & [[= <-] ->]%lift_ok & Hr)|(e & [=] & _)]. rewrite bool_decide_false in Hr by done.
  apply bind_cases in Hr as [(? & c5 & _ & Hr)|(e & Hm & ->)]; [|right; exists e; split; [done|]; by eapply (store_scopes _ []); [| |exact Hm]].
  apply bind_cases in Hr as [(? & c6 & _ & Hr)|(e & Hm & ->)]; [|right; exists e; split; [done|]; by eapply (store_redirects _ []); [|exact Hm]].
  left. destruct client as [id uris native]. cbn [cd_id cd_redirects cd_native] in *.
  assert ((if str_eqb (cl_application_type row) "native" then Ok true
           else if str_eqb (cl_application_type row) "web" then Ok false else Err OA_MalformedStored) = Ok native) as Hn
    by (rewrite Hkind; by destruct native).
  rewrite Hn in Hr. apply bind_cases in Hr as [(n & c7 & [[= <-] ->]%lift_ok & Hr)|(e & [=] & _)].
  rewrite Hval in Hr. by injection Hr as <-.
Qed.
End reads.

(** ** A registration, as one atomic step *)

Section registers.
Context `{OidcLib, CredentialLib, AuthLib, RefreshLib, RegistrationLib} (s : PostgresOidcRegistrationService).
Notation policy := (ps_policy s).
(** One client is added, under an identifier that was not taken. *)
Inductive adds_client (raw : string) (random : option string) (db : Db) : result OidcRegistrationError RegisteredOidcClient → Db → Prop :=
| AddsClient r redirects scopes id created a :
    op_dynamic_registration policy = true → id ≠ op_cli_client_id policy → new_local_auth_challenge random = Some id →
    registration_parse raw policy = Ok r → columns r policy = Ok (redirects, scopes) → (0 < created)%Z → response r id created = Ok a →
    db !! clients id = None →
    adds_client raw random db (Ok a) (<[clients id := RClient (client_row r redirects scopes created)]> db).
Definition late_registration (e : OidcRegistrationError) : Prop := ∃ ce, e = OR_Control ce.
Context (R : gset Key → Db → Db → Prop) `{!Rely R}.
Lemma rests_guard_as e stop : keeps (rests R) (guard_as e stop).
Proof. unfold guard_as. auto with broker. Qed.
#[local] Hint Resolve rests_guard_as : broker.
Lemma same_db_guard_as e stop : keeps same_db (guard_as e stop).
Proof. apply keeps_map_err, same_db_clock. Qed.
#[local] Hint Resolve same_db_guard_as : broker.
Lemma register_commit stop (a : RegisteredOidcClient) (c : Tx) x c' :
  (do? guard_as CE_Deadline stop in do? sql_commit in do? guard_as CE_OutcomeUncertain stop in ret a) c = (x, c') →
  (∃ e, x = Err e ∧ inside R c c') ∨ ∃ c1, rests R c c1 ∧ cn_db c' = view c1 ∧ (x = Ok a ∨ ∃ e, x = Err e ∧ late_registration e).
Proof.
  intros Hr. apply (bind_rests R) in Hr as [(u & c1 & _ & I1 & Hr)|(e & -> & Hi)]; [|by left; eauto|auto with broker].
  apply (commit_tail R) in Hr as [[[e ->] Hi]|(c2 & I2 & Hdb & Hx)]; [| |auto with broker].
  - left. exists e. split; [done|]. etrans; [exact (re_inside _ _ _ I1)|done].
  - right. exists c2. split; [by etrans|]. split; [done|]. destruct Hx as [(c3 & c4 & Hr)| ->]; [|right; eexists; split; [done|]; by eexists].
    apply bind_cases in Hr as [(? & c5 & _ & Hr)|(e & Hr & ->)]; [injection Hr as <- _; by left|].
    right. exists e. split; [done|]. apply map_err_err in Hr as (e0 & _ & ->). by eexists.
Qed.
Lemma register_atomic raw original random c x c' :
  register s raw original random c = (x, c') → idle c → fair R c → atomically R late_registration c x c' (adds_client raw random).
Proof.
  intros Hr Hidle Hfair. pose proof Hidle as [Hw _].
  match goal with |- ?G => assert (∀ e, x = Err e → inside R c c' → G) as Hno by (intros; by eapply (atomically_nothing R)) end.
  unfold register, registration_enabled in Hr. destruct (op_dynamic_registration policy) eqn:Edyn; cbn [negb] in Hr;
    [|injection Hr as <- <-; by eapply Hno].
  assert (rests R c c) as I by reflexivity. read_step Hr I stop c1 K1. read_step Hr I w2 c2 K2.
  read_step Hr I r c3 K3. apply lift_ok in K3 as [K3 ->]. read_step Hr I cols c4 K4. destruct cols as [redirects scopes]. apply lift_ok in K4 as [K4 ->].
  read_step Hr I cid c5 K5. apply lift_ok in K5 as [K5%ok_or_ok ->]. guard_step Hr I G1. read_step Hr I created c6 K6. guard_step Hr I G2.
  read_step Hr I a c7 K7. apply lift_ok in K7 as [K7 ->]. read_step Hr I w8 c8 K8. read_step Hr I w9 c9 K9. read_step Hr I w10 c10 K10.
  pose proof (clean_rests R _ _ I Hw) as Hw10. apply (bind_inside R) in Hr as [([] & c11 & Hins & Hi11 & Hr)|(e & He & Hi)];
    [|eapply Hno; [exact He|etrans; [exact (re_inside _ _ _ I)|done]]|auto with broker].
  apply (insert_row_ok R) in Hins as (c12 & I12 & Hnone & _ & ->). apply register_commit in Hr as [(e & He & Hi)|(c13 & I13 & Hdb & Hx)];
    [eapply Hno; [exact He|etrans; [exact (re_inside _ _ _ I)|by etrans]]|].
  pose proof (clean_rests R _ _ I12 Hw10) as Hw12. rewrite view_clean in Hnone by done.
  eapply (atomically_step R); [done|done| |exact Hdb| |exact Hx].
  - etrans; [exact (re_inside _ _ _ I)|]. etrans; [exact Hi11|exact (re_inside _ _ _ I13)].
  - destruct I13 as [Hi13 Hw13]. change (view c13) with (apply_writes (cn_writes c13) (cn_db c13)).
    rewrite Hw13, writes_one, Hw12, apply_insert, apply_empty. bool_to_prop.
    assert (cn_db c13 !! clients cid = None) as Hn13.
    { rewrite (in_held _ _ _ Hi13); [done|]. simpl. rewrite dom_singleton_L. set_solver. }
    econstructor; try done. intros ->. by rewrite (proj2 (str_eqb_eq _ _) eq_refl) in G1.
Qed.
End registers.

Section claim.
Context `{OidcLib, CredentialLib, AuthLib, RefreshLib, RegistrationLib, !RegistrationLaws} (s : PostgresOidcRegistrationService).
(** C30. What is registered can be used.  A registration that succeeds added one
    client, under a fresh identifier, and changed nothing else; and as long as
    its row stays and the clock does not go back, every later reading of that
    client under the same policy, by whatever flow, gives the redirects and the
    kind that were answered, or reports an error of the store: never that the
    client is unknown or malformed. *)
Theorem registration_round_trip (R : gset Key → Db → Db → Prop) `{!Rely R} raw original bytes (c : Tx) a c1 :
  register s raw original (Some bytes) c = (Ok a, c1) → String.length bytes = 32 → idle c → fair R c →
  ∃ db row, R ∅ (cn_db c) db ∧ db !! clients (rc_client_id a) = None ∧ cn_db c1 = <[clients (rc_client_id a) := RClient row]> db ∧
    ∀ stop c2 x c3, client_of (ps_policy s) (rc_client_id a) stop c2 = (x, c3) → cn_writes c2 = ∅ → fair R c2 →
      cn_db c2 !! clients (rc_client_id a) = Some (RClient row) → row_stays R (rc_client_id a) row →
      (∀ now, read_at c2 now → rc_client_id_issued_at a ≤ now)%Z →
      x = Ok {| cd_id := rc_client_id a; cd_redirects := rc_redirect_uris a; cd_native := str_eqb (rc_application_type a) "native" |} ∨
      ∃ e, x = Err (OA_Control e).
Proof.
  intros Hr Hlen Hidle Hfair. eapply (register_atomic s R) in Hr as (db & HR & [[[? [=]] _]|(r & Hreg & Hx)]); [|done|done].
  destruct Hx as [<-|(? & [=] & _)]. inversion Hreg as [rg redirects scopes id created a' Hdyn Hcli Hid Hp Hc Hcr Ha Hnone E1 E2]. subst a'.
  unfold response in Ha. destruct (negb _) in Ha; [done|]. destruct (negb _) in Ha; [done|]. injection Ha as <-. simpl.
  eexists db, _. split; [done|]. split; [done|]. split; [by symmetry|]. intros stop c2 x c3 Hread Hw2 Hf2 Hrow Hst Hclock. injection Hid as Hid.
  pose proof (registration_readable raw _ rg redirects scopes id bytes created Hp Hc (eq_sym Hid) Hlen Hcr) as Hgood.
  eapply (client_of_readable R _ {| cd_id := id; cd_redirects := rg_redirects rg; cd_native := rg_native rg |}) in Hread
    as [->|(e & -> & [ce ->])]; try done; [|by right; eexists].
  left. do 2 f_equal. by destruct (rg_native rg).
Qed.
End claim.
