(* ===== verification/OidcExchange.v ===== *)
(** * The exchange of authorization codes

    crates/broker-control/src/oidc_token_exchange.rs,
    service/oidc_token_exchange.rs and oidc_token_exchange/codec.rs: the code of
    a completed authorization request is exchanged, once, for an access token, an
    ID token and, with offline access, the first refresh token of a new family.
    The access token machine of [oxide_auth] and its PKCE are parameters. *)

From stdpp Require Import gmap.
From S2P Require Import Prelude RustStr Order Control BrokerAccess AccessIssuer Sql OidcTables.
From S2P Require Import StorageAdmission Credentials OidcPolicy OidcRefresh OidcRequests.

Record OidcTokenExchangeInput := {
  xi_grant_type : option string;
  xi_client_id : option string;
  xi_code : option string;
  xi_redirect_uri : option string;
  xi_code_verifier : option string;
  xi_resource : option string;
  xi_authorization : option (string * string);
}.

(** ** The machine of the exchange *)

Inductive ExchangeInput (Scope : Type) :=
| XiNone
| XiAuthenticated
| XiRecovered (grant : SdkGrant Scope) (challenge : string)
| XiExtended
| XiIssued (token : string) (refresh : option string) (until : Z).
Inductive ExchangeOutput :=
| XoAuthenticate (client : string) (passdata : option string)
| XoRecover (code : string)
| XoExtend (challenge : option string)
| XoIssue
| XoOk
| XoOther.
#[global] Arguments XiNone {_}.
#[global] Arguments XiAuthenticated {_}.
#[global] Arguments XiRecovered {_} _ _.
#[global] Arguments XiExtended {_}.
#[global] Arguments XiIssued {_} _ _ _.
Class ExchangeLib `{RefreshLib} := {
  Exchanger : Type;
  exchanger_new : OidcTokenExchangeInput → Exchanger;
  exchanger_advance : Exchanger → ExchangeInput Scope → Exchanger * ExchangeOutput;
  pkce_verify : option string → string → bool;
}.
(** The machine hands the extensions of the grant back as they were recovered. *)
Class ExchangeLaws `{ExchangeLib} : Prop :=
  law_extend : ∀ m grant challenge m' ext,
    exchanger_advance m (XiRecovered grant challenge) = (m', XoExtend ext) → ext = Some challenge.

(** ** Stored codes *)

Record CodeRequest := {
  cq_hash : string;
  cq_identity : string;
  cq_code : string;
  cq_created_at : Z;
  cq_expires_at : Z;
  cq_json : string;
}.
#[global] Instance CodeRequest_eq_dec : EqDecision CodeRequest.
Proof. solve_decision. Defined.
Definition authorized_validate (d : AuthorizedFields) (created_at now : Z) : result OidcTokenExchangeError unit :=
  if negb (str_eqb (pf_format (az_request d)) "rust-broker-authorization-v1") || negb (str_eqb (pf_phase (az_request d)) "authorized")
     || negb (pr_valid (az_principal d)) || negb (initial_amr (az_principal d) (az_amr d))
     || (az_auth_time d <? created_at)%Z || (az_auth_time d <=? 0)%Z || (now <? az_auth_time d)%Z
  then Err TX_MalformedStored else Ok tt.

Section exchange.
Context `{OidcLib, CredentialLib, SignLib, AuthLib, RefreshLib, RequestLib, !ExchangeLib}.

Definition decode_code (cap : Z) (k : Key) (q : RequestRow) : result OidcTokenExchangeError CodeRequest :=
  if (cap <? len (rq_identity_subject q))%Z then Err TX_ReadLimitExceeded else
  if (cap <? len (rq_request_json q))%Z then Err TX_ReadLimitExceeded else
  let! code := ok_or (rq_code_hash q) TX_MalformedStored in
  let! _ := rmap_err (λ _, TX_MalformedStored) (parse_sql_hex k.2) in
  let! _ := rmap_err (λ _, TX_MalformedStored) (parse_sql_hex code) in
  Ok {| cq_hash := k.2; cq_identity := rq_identity_subject q; cq_code := code; cq_created_at := rq_created_at q;
        cq_expires_at := rq_expires_at q; cq_json := rq_request_json q |}.
(** SELECT … WHERE code_hash=$1 *)
Definition code_where (hash : string) : Key → Row → bool := λ k r,
  match r with RRequest q => str_eqb k.1 "oidc_auth_requests" && bool_decide (rq_code_hash q = Some hash) | _ => false end.
Definition code_row (cap : Z) (hash : string) (lock : bool) : M Tx OidcTokenExchangeError CodeRequest :=
  let? row := (if lock then select_where_locked else select_where) (code_where hash) in
  let? (k, q) := lift_result (ok_or (row ≫= λ kv, match kv.2 with RRequest q => Some (kv.1, q) | _ => None end) TX_InvalidGrant) in
  lift_result (decode_code cap k q).

(** ** The service *)

Record PostgresOidcTokenExchange := {
  px_digester : CredentialDigester;
  px_operation_timeout : Z;
  px_authorization : OidcAuthorizationPolicy;
  px_policy : OidcTokenExchangePolicy;
  px_issuer : BrokerAccessIssuer;
  px_upstream : option upstream_trust;
}.
Definition oidc_token_exchange (digester : CredentialDigester) (operation_timeout : Z) (authorization : OidcAuthorizationPolicy)
    (policy : OidcTokenExchangePolicy) (issuer : BrokerAccessIssuer) : result OidcTokenExchangeError PostgresOidcTokenExchange :=
  if negb (str_eqb (bi_api_audience issuer) (op_api_audience authorization)) then Err TX_InvalidConfiguration else
  Ok {| px_digester := digester; px_operation_timeout := operation_timeout; px_authorization := authorization; px_policy := policy;
        px_issuer := issuer; px_upstream := None |}.
Definition exchange_with_upstream (s : PostgresOidcTokenExchange) (verifier : upstream_trust) : PostgresOidcTokenExchange :=
  {| px_digester := px_digester s; px_operation_timeout := px_operation_timeout s; px_authorization := px_authorization s;
     px_policy := px_policy s; px_issuer := px_issuer s; px_upstream := Some verifier |}.

Section service.
Context (s : PostgresOidcTokenExchange).
Notation cap := (ol_json_bytes (op_limits (px_authorization s))).
Definition code_digest (kind : TokenKind) (raw : string) : result OidcTokenExchangeError string :=
  rmap_err (λ _, TX_Credential) (rmap to_sql_hex (token (px_digester s) kind raw)).
Definition code_parameters (i : OidcTokenExchangeInput) (stop : Z) : M Tx OidcTokenExchangeError unit :=
  let? total := mfor (λ total v, do? guard_original stop in lift_result (ok_or (checked_add_usize total (len v)) TX_InvalidRequest)) 0%Z
    (omap id [xi_grant_type i; xi_client_id i; xi_code i; xi_redirect_uri i; xi_code_verifier i; xi_resource i]
     ++ match xi_authorization i with Some (u, _) => [u] | None => [] end) in
  let? total := lift_result (ok_or (checked_add_usize total (match xi_authorization i with Some (_, p) => len p | None => 0%Z end))
    TX_InvalidRequest) in
  if (ol_parameter_bytes (op_limits (px_authorization s)) <? total)%Z then fail TX_InvalidRequest else ret tt.
Definition verifier_valid (v : string) : bool :=
  ((43 <=? len v) && (len v <=? 128))%Z
  && all_bytes (λ b, is_ascii_alphanumeric b || existsb (Ascii.eqb b) ["-"; "."; "_"; "~"]%char) v.
Definition authenticates (out : ExchangeOutput) : result OidcTokenExchangeError string :=
  match out with
  | XoAuthenticate client None => Ok client
  | XoAuthenticate _ _ => Err TX_InvalidClient
  | _ => Err TX_InvalidRequest
  end.
(** The stored grant agrees with its row and with the request. *)
Definition code_agrees (initial : CodeRequest) (data : AuthorizedFields) (hash : string) : M Tx OidcTokenExchangeError unit :=
  if negb (str_eqb (cq_code initial) hash) || negb (str_eqb (cq_identity initial) (pr_subject (az_principal data)))
     || (cq_created_at initial <=? 0)%Z
  then fail TX_MalformedStored else
  let? now := txn_clock now_micros in
  if (now <? cq_created_at initial)%Z
     || negb (cq_expires_at initial - cq_created_at initial =? op_ttl_micros (px_authorization s))%Z
  then fail TX_MalformedStored else ret tt.
Definition code_request (i : OidcTokenExchangeInput) (data : AuthorizedFields) (client_id : string) : result OidcTokenExchangeError unit :=
  let fields := az_request data in
  if negb (str_eqb (pf_client_id fields) client_id) || bool_decide (xi_redirect_uri i ≠ Some (pf_redirect_uri fields))
  then Err TX_InvalidGrant else
  if is_some_and (xi_resource i) (λ r, negb (is_empty (trim r)) && bool_decide (pf_resource fields ≠ Some (trim r)))
  then Err TX_InvalidTarget else
  let! subject := rmap_err (λ _, TX_Credential) (oidc_subject (px_digester s) (pr_issuer (az_principal data)) (pr_subject (az_principal data))) in
  if negb (str_eqb (az_oidc_subject data) subject) then Err TX_MalformedStored else Ok tt.
Definition code_principal (observed : OidcPrincipal) (stop : Z) : M Tx OidcTokenExchangeError OidcPrincipal :=
  match as_local observed with
  | Some local => map_err exchange_error (current_principal (lp_subject local) (lp_username local) (lp_local_user_revision local) cap stop)
  | None => if negb (current_trust observed (px_upstream s)) then fail TX_InvalidGrant else ret observed
  end.
(** The machine goes through the stored grant; PKCE is verified. *)
Definition sdk_exchange (sdk : Exchanger) (raw verifier client_id : string) (data : AuthorizedFields) (expires_at : Z)
    : result OidcTokenExchangeError Exchanger :=
  let fields := az_request data in
  let '(sdk, out) := exchanger_advance sdk XiAuthenticated in
  let! _ := match out with
            | XoRecover code => if str_eqb code raw then Ok tt else Err TX_InvalidRequest
            | _ => Err TX_InvalidRequest
            end in
  let! challenge := ok_or (pkce_challenge (pf_code_challenge_method fields) (pf_code_challenge fields)) TX_MalformedStored in
  let! uri := ok_or (url_text (pf_redirect_uri fields)) TX_MalformedStored in
  let! scope := ok_or (scope_parse (join " " (pf_scopes fields))) TX_MalformedStored in
  let! until := utc expires_at in
  let grant := {| sg_owner_id := az_oidc_subject data; sg_client_id := client_id; sg_redirect_uri := uri; sg_scope := scope;
                  sg_until := until |} in
  let '(sdk, out) := exchanger_advance sdk (XiRecovered grant challenge) in
  let! _ := match out with
            | XoExtend ext => if pkce_verify ext verifier then Ok tt else Err TX_InvalidGrant
            | _ => Err TX_InvalidGrant
            end in
  let '(sdk, out) := exchanger_advance sdk XiExtended in
  match out with XoIssue => Ok sdk | _ => Err TX_InvalidGrant end.
(** The signed tokens and the secrets; a family and a refresh token only with
    offline access. *)
Record MintedCode := {
  mc_issued_at : Z;
  mc_expires_at : Z;
  mc_jti : string;
  mc_access : string;
  mc_id : string;
  mc_family : string;
  mc_refresh : option string;
}.
Definition offline (data : AuthorizedFields) : bool := existsb (λ v, str_eqb v "offline_access") (pf_scopes (az_request data)).
Definition mint_code (data : AuthorizedFields) (principal : OidcPrincipal) (client_id raw : string) (stop : Z)
    (jti_random family_random suffix_random : option string) : M Tx OidcTokenExchangeError MintedCode :=
  let fields := az_request data in
  let? issued_at := txn_clock now_micros in
  let? sum := lift_result (ok_or (checked_add_i64 issued_at (xp_access_micros (px_policy s))) (TX_Control CE_Clock)) in
  let expires_at := (Z.quot sum 1000000 * 1000000)%Z in
  let? jti := lift_result (ok_or (new_local_auth_challenge jti_random) TX_Random) in
  let? iat := lift_result (seconds issued_at) in
  let? exp := lift_result (seconds expires_at) in
  let? access := txn_with sign_error (sign_access (px_issuer s)
    {| at_subject := az_oidc_subject data; at_client_id := client_id; at_resource := pf_resource fields;
       at_scope := join " " (pf_scopes fields); at_jti := jti; at_issued_at := iat; at_expires_at := exp;
       at_preferred_username := Some (pr_username principal);
       at_name := nonempty (trim (pr_name principal)); at_email := nonempty (trim (pr_email principal));
       at_organization := nonempty (trim (pr_organization principal)); at_groups := pr_teams principal;
       at_roles := pr_roles principal |} stop) in
  let? auth := lift_result (seconds (az_auth_time data)) in
  let? id := txn_with sign_error (sign_id (px_issuer s)
    {| it_subject := az_oidc_subject data; it_client_id := client_id; it_resource := pf_resource fields; it_issued_at := iat;
       it_expires_at := exp; it_auth_time := auth; it_amr := az_amr data; it_nonce := nonempty (pf_nonce fields);
       it_access_token := access; it_code := Some raw; it_preferred_username := Some (pr_username principal);
       it_name := nonempty (pr_name principal); it_email := nonempty (pr_email principal);
       it_organization := nonempty (trim (pr_organization principal)); it_groups := pr_teams principal;
       it_roles := pr_roles principal |} stop) in
  let? family := lift_result (if offline data then ok_or (new_local_auth_challenge family_random) TX_Random else Ok "") in
  let? refresh := lift_result (if offline data
    then rmap (λ suffix, Some ("gb_rt_" +:+ suffix)) (ok_or (new_local_auth_challenge suffix_random) TX_Random) else Ok None) in
  ret {| mc_issued_at := issued_at; mc_expires_at := expires_at; mc_jti := jti; mc_access := access; mc_id := id;
         mc_family := family; mc_refresh := refresh |}.
Definition code_data (data : AuthorizedFields) (principal : OidcPrincipal) (m : MintedCode) (principal_json scopes_json : string) : TokenData :=
  {| td_principal := principal; td_oidc_subject := az_oidc_subject data; td_client_id := pf_client_id (az_request data);
     td_audience := pf_api_audience (az_request data); td_resource := pf_resource (az_request data);
     td_principal_json := principal_json; td_scopes_json := scopes_json; td_family := mc_family m;
     td_auth_time := az_auth_time data; td_created_at := mc_issued_at m |}.
(** The first refresh token of the family. *)
Definition store_refresh (d : TokenData) (m : MintedCode) (id_random : option string) : M Tx OidcTokenExchangeError unit :=
  match mc_refresh m with
  | None => ret tt
  | Some refresh =>
      let? refresh_hash := lift_result (code_digest LocalRefresh refresh) in
      let? refresh_id := lift_result (ok_or (new_local_auth_challenge id_random) TX_Random) in
      let? refresh_expiry := lift_result (ok_or (checked_add_i64 (mc_issued_at m) (xp_refresh_micros (px_policy s))) (TX_Control CE_Clock)) in
      insert_token d refresh_hash refresh_id "refresh" refresh_expiry
  end.
(** DELETE … WHERE: the row as it was read. *)
Definition code_still (current : CodeRequest) (hash : string) (now : Z) (q : RequestRow) : bool :=
  bool_decide (rq_code_hash q = Some hash) && str_eqb (rq_identity_subject q) (cq_identity current)
  && str_eqb (rq_request_json q) (cq_json current) && (rq_created_at q =? cq_created_at current)%Z
  && (rq_expires_at q =? cq_expires_at current)%Z && (now <? rq_expires_at q)%Z.
(** The tokens are stored and the code deleted. *)
Definition redeem (current : CodeRequest) (hash : string) (data : AuthorizedFields) (principal : OidcPrincipal) (sdk : Exchanger)
    (m : MintedCode) (stop : Z) (id_random : option string) : M Tx OidcTokenExchangeError OidcTokenExchangeResult :=
  let? principal_json := lift_result (ok_or (json_principal principal) TX_MalformedStored) in
  let? scopes_json := lift_result (ok_or (json_strings (pf_scopes (az_request data))) TX_MalformedStored) in
  if (cap <? len principal_json)%Z || (cap <? len scopes_json)%Z then fail TX_ReadLimitExceeded else
  let? access_hash := lift_result (code_digest OidcStoredAccess (mc_jti m)) in
  let d := code_data data principal m principal_json scopes_json in
  do? insert_token d access_hash (mc_jti m) "oidc_access" (mc_expires_at m) in
  do? store_refresh d m id_random in
  do? gate stop (cq_expires_at current) in
  let? now := txn_clock now_micros in
  let? count := delete_where (request_at (cq_hash current) (code_still current hash now)) in
  if negb (count =? 1) then fail TX_InvalidGrant else
  let? until := lift_result (utc (mc_expires_at m)) in
  match snd (exchanger_advance sdk (XiIssued (mc_access m) (mc_refresh m) until)) with
  | XoOk =>
      do? gate stop (cq_expires_at current) in
      do? gate stop (mc_expires_at m) in
      do? sql_commit in
      do? gate stop (cq_expires_at current) in
      do? gate stop (mc_expires_at m) in
      let result := {| xr_access := mc_access m; xr_id := mc_id m; xr_refresh := mc_refresh m;
                       xr_scope := join " " (pf_scopes (az_request data)); xr_issued_at := mc_issued_at m;
                       xr_expires_at := mc_expires_at m; xr_grant_expires_at := None |} in
      let? _ := expires_in result stop in
      ret result
  | _ => fail TX_Signing
  end.
Definition exchange_code (i : OidcTokenExchangeInput) (original : Z) (jti_random family_random suffix_random id_random : option string)
    : M Tx OidcTokenExchangeError OidcTokenExchangeResult :=
  let? stop := txn_clock (bounded_deadline original (px_operation_timeout s)) in
  do? lift_result (match xi_grant_type i with
                   | Some g => if str_eqb g "authorization_code" then Ok tt else Err TX_UnsupportedGrantType
                   | None => Err TX_InvalidRequest
                   end) in
  do? code_parameters i stop in
  let? raw := lift_result (ok_or (xi_code i) TX_InvalidRequest) in
  if negb (validate_local_auth_challenge raw) then fail TX_InvalidGrant else
  let? verifier := lift_result (ok_or (xi_code_verifier i) TX_InvalidGrant) in
  if negb (verifier_valid verifier) then fail TX_InvalidGrant else
  let? hash := lift_result (code_digest OidcAuthorizationCode raw) in
  let '(sdk, out) := exchanger_advance (exchanger_new i) XiNone in
  let? client_id := lift_result (authenticates out) in
  if negb (str_eqb client_id (op_cli_client_id (px_authorization s))) && bool_decide (xi_resource i = None)
  then fail TX_InvalidTarget else
  do? sql_await in
  do? sql_await in
  let? initial := code_row cap hash false in
  do? gate stop (cq_expires_at initial) in
  let? data := lift_result (ok_or (json_authorized (cq_json initial)) TX_MalformedStored) in
  let? now := txn_clock now_micros in
  do? lift_result (authorized_validate data (cq_created_at initial) now) in
  do? code_agrees initial data hash in
  do? lift_result (code_request i data client_id) in
  do? map_err from_control (lock_pair_shared (az_oidc_subject data) client_id stop) in
  let? principal := code_principal (az_principal data) stop in
  let? client := map_err exchange_error (client_of (px_authorization s) client_id stop) in
  let? current := code_row cap hash true in
  if bool_decide (current ≠ initial) then fail TX_InvalidGrant else
  do? gate stop (cq_expires_at current) in
  do? txn_with exchange_error (revalidate_authorized (px_authorization s) (az_request data) client stop) in
  let? sdk := lift_result (sdk_exchange sdk raw verifier client_id data (cq_expires_at current)) in
  if negb (current_trust principal (px_upstream s)) then fail TX_InvalidGrant else
  do? gate stop (cq_expires_at current) in
  let? m := mint_code data principal client_id raw stop jti_random family_random suffix_random in
  redeem current hash data principal sdk m stop id_random.
End service.
End exchange.

(** ** What an exchange does to the database *)

Section effects.
Context `{OidcLib, CredentialLib, SignLib, AuthLib, RefreshLib, RequestLib, !ExchangeLib} (R : gset Key → Db → Db → Prop) `{!Rely R}.
Lemma rests_code_row cap hash lock : keeps (rests R) (code_row cap hash lock).
Proof.
  unfold code_row. destruct lock; (apply keeps_bind; [apply _|auto with broker|]); intros row;
    (apply keeps_bind; [apply _|auto with broker|]); intros []; auto with broker.
Qed.
Lemma rests_code_parameters s i stop : keeps (rests R) (code_parameters s i stop).
Proof.
  unfold code_parameters. apply keeps_bind; [apply _| |intros; auto 10 with broker]. apply keeps_mfor; [apply _|]. intros. auto with broker.
Qed.
Lemma rests_code_agrees s initial data hash : keeps (rests R) (code_agrees s initial data hash).
Proof. unfold code_agrees. auto 20 with broker. Qed.
Lemma rests_code_principal s observed stop : keeps (rests R) (code_principal s observed stop).
Proof. unfold code_principal. destruct (as_local observed); auto 10 with broker. Qed.
Lemma keeps_revalidate_authorized p f client stop : keeps clock_run (revalidate_authorized p f client stop).
Proof. eapply keeps_guarded, (guarded_revalidate p f client "authorized" stop). Qed.
Lemma rests_mint_code s data principal client_id raw stop r1 r2 r3 :
  keeps (rests R) (mint_code s data principal client_id raw stop r1 r2 r3).
Proof. unfold mint_code. pose proof keeps_sign_id. pose proof keeps_signs. auto 60 with broker. Qed.
Lemma inside_store_refresh s d m r : keeps (inside R) (store_refresh s d m r).
Proof.
  unfold store_refresh. destruct (mc_refresh m); [|apply keeps_ret, _].
  do 3 (apply keeps_bind; [apply _|apply keeps_lift, _|intros ?]). by apply inside_insert_token.
Qed.
End effects.
#[export] Hint Resolve rests_code_row rests_code_parameters rests_code_agrees rests_code_principal keeps_revalidate_authorized
  rests_mint_code inside_store_refresh : broker.

Section atomic.
Context `{OidcLib, CredentialLib, SignLib, AuthLib, RefreshLib, RequestLib, !ExchangeLib, !ExchangeLaws} (s : PostgresOidcTokenExchange).
Notation cap := (ol_json_bytes (op_limits (px_authorization s))).

(** The client holds the key the request was made with. *)
Definition proves_key (i : OidcTokenExchangeInput) (fields : PendingFields) : Prop :=
  ∃ verifier challenge, xi_code_verifier i = Some verifier ∧ verifier_valid verifier = true ∧
    pkce_challenge (pf_code_challenge_method fields) (pf_code_challenge fields) = Some challenge ∧
    pkce_verify (Some challenge) verifier = true.
Notation principal_now := (acts_now cap (px_upstream s)).
(** The tokens of a grant: an access token and, with offline access, a refresh
    token of its family. *)
Inductive grants (d : TokenData) (with_refresh : bool) (db : Db) : Db → Prop :=
| GrantAccess ah jti expires :
    with_refresh = false → td_family d = "" → db !! tokens ah = None →
    grants d with_refresh db (<[tokens ah := RToken (token_row d jti "oidc_access" expires)]> db)
| GrantOffline ah jti expires rh id expiry :
    with_refresh = true → db !! tokens ah = None → db !! tokens rh = None → ah ≠ rh →
    expiry = (td_created_at d + xp_refresh_micros (px_policy s))%Z →
    grants d with_refresh db (<[tokens rh := RToken (token_row d id "refresh" expiry)]>
      (<[tokens ah := RToken (token_row d jti "oidc_access" expires)]> db)).
(** The exchange of the code with that hash; [was] holds of the times it happens
    at. *)
Definition exchanges (was : Z → Prop) (i : OidcTokenExchangeInput) (hash : string) (db : Db) (r : result OidcTokenExchangeError OidcTokenExchangeResult)
    (db' : Db) : Prop :=
  ∃ h q data client principal d now t db1,
    r = Ok t ∧ db !! requests h = Some (RRequest q) ∧ rq_code_hash q = Some hash ∧ was now ∧ (now < rq_expires_at q)%Z ∧
    json_authorized (rq_request_json q) = Some data ∧ rq_identity_subject q = pr_subject (az_principal data) ∧
    xi_redirect_uri i = Some (pf_redirect_uri (az_request data)) ∧
    known_client (px_authorization s) db (pf_client_id (az_request data)) client ∧ proves_key i (az_request data) ∧
    principal_now db principal ∧ pr_subject principal = pr_subject (az_principal data) ∧
    pr_revision principal = pr_revision (az_principal data) ∧
    td_principal d = principal ∧ was (td_created_at d) ∧ td_oidc_subject d = az_oidc_subject data ∧ td_client_id d = pf_client_id (az_request data) ∧
    td_audience d = op_api_audience (px_authorization s) ∧ td_resource d = pf_resource (az_request data) ∧
    td_auth_time d = az_auth_time data ∧ json_strings (pf_scopes (az_request data)) = Some (td_scopes_json d) ∧
    xr_scope t = join " " (pf_scopes (az_request data)) ∧
    grants d (offline data) db db1 ∧ db' = delete (requests h) db1.

Context (R : gset Key → Db → Db → Prop) `{!Rely R}.
Lemma code_row_locked hash c d c' :
  code_row cap hash true c = (Ok d, c') → cn_writes c = ∅ →
  ∃ q, held c' (requests (cq_hash d)) (Some (RRequest q)) ∧ rq_code_hash q = Some hash ∧ rq_identity_subject q = cq_identity d ∧
    rq_request_json q = cq_json d ∧ rq_expires_at q = cq_expires_at d.
Proof.
  unfold code_row. intros Hr Hw. apply bind_ok in Hr as (row & c1 & Hs & Hr). apply bind_ok in Hr as ([k q] & c2 & Hl & Hr).
  apply lift_ok in Hl as [Hl ->], Hr as [Hr ->]. apply ok_or_ok in Hl. destruct row as [[k' r]|]; [|done]. simpl in Hl.
  destruct r as [| | | | | |q'| |]; try done. injection Hl as -> ->.
  apply (select_where_locked_ok R) in Hs as (I1 & Hv & Hp & Hk). rewrite view_clean in Hv by (by eapply clean_rests).
  unfold code_where in Hp. apply andb_true_iff in Hp as [Hk1%str_eqb_eq Hc%bool_decide_eq_true]. destruct k as [t h]. simpl in Hk1. subst t.
  unfold decode_code in Hr. do 2 (destruct (_ <? _)%Z in Hr; [done|]). invert_ok Hr. injection Hr as <-. exists q. by simpl.
Qed.
Lemma code_principal_ok observed stop c p c' :
  code_principal s observed stop c = (Ok p, c') → cn_writes c = ∅ →
  pr_subject p = pr_subject observed ∧ pr_revision p = pr_revision observed ∧ holds_principal cap (px_upstream s) c' p.
Proof.
  unfold code_principal. intros Hr Hw. destruct observed as [lp|fp]; cbn [as_local] in Hr.
  - apply map_err_ok in Hr. by apply (holds_current R _ _ (px_upstream s)) in Hr as (? & ? & _ & ?).
  - destruct (negb _) eqn:Et; [done|]. apply ret_ok in Hr as [-> ->]. split; [done|]. split; [done|]. by apply negb_false_iff.
Qed.
Lemma sdk_exchange_ok i sdk raw verifier client_id data expires sdk' :
  sdk_exchange sdk raw verifier client_id data expires = Ok sdk' → xi_code_verifier i = Some verifier → verifier_valid verifier = true →
  proves_key i (az_request data).
Proof.
  unfold sdk_exchange. intros Hs Hv Hval. destruct (exchanger_advance sdk XiAuthenticated) as [sdk1 o1]. apply rbind_ok in Hs as (? & _ & Hs).
  apply rbind_ok in Hs as (ch & Hch & Hs). apply ok_or_ok in Hch. apply rbind_ok in Hs as (uri & _ & Hs). apply rbind_ok in Hs as (sc & _ & Hs).
  apply rbind_ok in Hs as (until & _ & Hs). destruct (exchanger_advance sdk1 _) as [sdk2 o2] eqn:E2. apply rbind_ok in Hs as (? & Hx & _).
  destruct o2 as [| |ext| | |]; try done. apply law_extend in E2 as ->. exists verifier, ch. split; [done|]. split; [done|]. split; [done|].
  by destruct (pkce_verify _ _).
Qed.
(** The deletion of the row that was locked. *)
Lemma delete_code h (p : RequestRow → bool) q c n c' :
  delete_where (E:=OidcTokenExchangeError) (request_at h p) c = (Ok n, c') → n = 1 → cn_writes c !! requests h = None →
  held c (requests h) (Some (RRequest q)) →
  p q = true ∧ ∃ c1, rests R c c1 ∧ cn_writes c' = <[requests h := None]> (cn_writes c1) ∧ c' = with_writes c1 {[requests h := None]}.
Proof.
  intros Hd -> Hw Hh. apply (delete_where_ok R) in Hd as (c1 & I1 & Hn & ->).
  destruct (held_inside R _ _ _ _ (re_inside _ _ _ I1) Hh) as [_ Hq].
  assert (view c1 !! requests h = Some (RRequest q)) as Hv.
  { change (view c1) with (apply_writes (cn_writes c1) (cn_db c1)). by rewrite lookup_apply, (re_writes _ _ _ I1), Hw. }
  unfold request_at in *. rewrite rows_at_key, Hv in *. destruct (p q); [|by rewrite map_size_empty in Hn]. split; [done|].
  exists c1. split; [done|]. rewrite map_fmap_singleton. split; [apply writes_one|done].
Qed.
(** The tokens written so far, in a transaction that has written nothing else. *)
Inductive granting (d : TokenData) (with_refresh : bool) (c : Tx) : Prop :=
| GrantingAccess ah jti expires :
    with_refresh = false → td_family d = "" → held c (tokens ah) None →
    cn_writes c = <[tokens ah := Some (RToken (token_row d jti "oidc_access" expires))]> ∅ → granting d with_refresh c
| GrantingOffline ah jti expires rh id expiry :
    with_refresh = true → held c (tokens ah) None → held c (tokens rh) None → ah ≠ rh →
    expiry = (td_created_at d + xp_refresh_micros (px_policy s))%Z →
    cn_writes c = <[tokens rh := Some (RToken (token_row d id "refresh" expiry))]>
      (<[tokens ah := Some (RToken (token_row d jti "oidc_access" expires))]> ∅) → granting d with_refresh c.
Lemma granting_grants d b h c0 c1 :
  granting d b c0 → inside R c0 c1 → cn_writes c1 = <[requests h := None]> (cn_writes c0) →
  ∃ db1, grants d b (cn_db c1) db1 ∧ view c1 = delete (requests h) db1.
Proof.
  intros Hg Hi Hw. change (view c1) with (apply_writes (cn_writes c1) (cn_db c1)). rewrite Hw, apply_delete.
  destruct Hg as [ah jti expires Hb Hfam Ha Hws|ah jti expires rh id expiry Hb Ha Hr Hne He Hws]; rewrite Hws, !apply_insert, apply_empty;
    (eexists; split; [|reflexivity]); apply (held_inside R _ _ _ _ Hi) in Ha as [_ Ha].
  - by apply GrantAccess.
  - apply (held_inside R _ _ _ _ Hi) in Hr as [_ Hr]. by apply GrantOffline.
Qed.
Lemma granting_rests d b c c' : rests R c c' → granting d b c → granting d b c'.
Proof.
  intros [Hi Hw] [ah jti expires Hb Hfam Ha Hws|ah jti expires rh id expiry Hb Ha Hr Hne He Hws]; rewrite <- Hw in Hws.
  - eapply GrantingAccess; [done|done| |done]. by eapply held_inside.
  - eapply GrantingOffline; [done| | | | |exact Hws]; try done; by eapply held_inside.
Qed.
Lemma granting_no_request d b c h : granting d b c → cn_writes c !! requests h = None.
Proof. intros [? ? ? _ _ _ ->|? ? ? ? ? ? _ _ _ _ _ ->]; by rewrite !lookup_insert_ne by done. Qed.
Lemma store_granting d m (b : bool) r h jti expires c c1 c2 u :
  insert_token d h jti "oidc_access" expires c = (Ok u, c1) → store_refresh s d m r c1 = (Ok tt, c2) → cn_writes c = ∅ →
  td_created_at d = mc_issued_at m → td_family d = mc_family m →
  (if b then is_Some (mc_refresh m) else mc_refresh m = None ∧ mc_family m = "") → granting d b c2.
Proof.
  intros Hs1 Hs2 Hw Hcr Hfam Hb. destruct u. apply (store_ok R) in Hs1 as (c3 & I3 & Hn & ->). pose proof (clean_rests R _ _ I3 Hw) as Hw3.
  rewrite view_clean in Hn by done. unfold store_refresh in Hs2. destruct (mc_refresh m) as [refresh|] eqn:Er.
  - destruct b; [|by destruct Hb]. apply bind_ok in Hs2 as (rh & c4 & Hl & Hs2). apply lift_ok in Hl as [_ ->].
    apply bind_ok in Hs2 as (id & c4 & Hl & Hs2). apply lift_ok in Hl as [_ ->]. apply bind_ok in Hs2 as (ex & c4 & Hl & Hs2).
    apply lift_ok in Hl as [Hl ->]. apply ok_or_ok in Hl. unfold checked_add_i64 in Hl. case_hyp Hl; [|done]. injection Hl as <-.
    apply (store_ok R) in Hs2 as (c5 & I5 & Hn5 & ->).
    change (view c5) with (apply_writes (cn_writes c5) (cn_db c5)) in Hn5. rewrite lookup_apply, (re_writes _ _ _ I5), writes_one, Hw3 in Hn5.
    destruct (decide (h = rh)) as [->|Hne]; [by rewrite lookup_insert_eq in Hn5|].
    rewrite lookup_insert_ne, lookup_empty in Hn5 by (unfold tokens; congruence).
    eapply GrantingOffline; [done| | |exact Hne|by rewrite Hcr|].
    + eapply held_inside; [apply (writes_inside R)|]. eapply held_inside; [exact (re_inside _ _ _ I5)|]. by apply held_write.
    + by apply held_write.
    + by rewrite writes_one, (re_writes _ _ _ I5), writes_one, Hw3.
  - destruct b; [by destruct Hb|]. destruct Hb as [_ Hb]. apply ret_ok in Hs2 as [_ ->].
    eapply GrantingAccess; [done|by rewrite Hfam|by apply held_write|by rewrite writes_one, Hw3].
Qed.
Lemma redeem_code_ok current hash data principal sdk m stop r q c x c' :
  redeem s current hash data principal sdk m stop r c = (x, c') → cn_writes c = ∅ →
  held c (requests (cq_hash current)) (Some (RRequest q)) →
  (if offline data then is_Some (mc_refresh m) else mc_refresh m = None ∧ mc_family m = "") →
  (∃ e, x = Err e ∧ inside R c c') ∨
  ∃ c1 d now db1 t, inside R c c1 ∧ cn_db c' = view c1 ∧ read_at c now ∧ (now < rq_expires_at q)%Z ∧
    (∃ pj sj, d = code_data data principal m pj sj ∧ json_strings (pf_scopes (az_request data)) = Some sj) ∧
    grants d (offline data) (cn_db c1) db1 ∧ view c1 = delete (requests (cq_hash current)) db1 ∧
    xr_scope t = join " " (pf_scopes (az_request data)) ∧ (x = Ok t ∨ ∃ e, x = Err e ∧ late_exchange e).
Proof.
  intros Hr Hw Hh Hoff. match goal with |- ?G => assert (∀ e, x = Err e → inside R c c' → G) as Hno by (intros; left; eauto) end.
  unfold redeem in Hr. assert (rests R c c) as I by reflexivity. read_step Hr I pj c1 Hpj. read_step Hr I sj c2 Hsj.
  apply lift_ok in Hsj as [Hsj _]. apply ok_or_ok in Hsj. guard_step Hr I G1. read_step Hr I ah c3 Hah. cbv zeta in Hr.
  pose proof (re_inside _ _ _ I) as Hi3. pose proof (clean_rests R _ _ I Hw) as Hw3.
  apply (bind_inside R) in Hr as [(u & c4 & Hs1 & Hi4 & Hr)|(e & He & Hi)]; [|eapply Hno; [exact He|by etrans]|auto with broker].
  assert (inside R c3 c4) as Hi34 by done.
  apply (bind_inside R) in Hr as [([] & c5 & Hs2 & Hi5 & Hr)|(e & He & Hi)];
    [|eapply Hno; [exact He|etrans; [exact Hi3|by etrans]]|auto with broker].
  assert (inside R c3 c5) as Hi35 by (by etrans). assert (inside R c c5) as Hi05 by (by etrans).
  eapply (store_granting _ _ (offline data)) in Hs1; [|exact Hs2|done..]. clear Hs2. rename Hs1 into Hg.
  apply (held_inside R _ _ _ _ Hi35) in Hh.
  assert (rests R c5 c5) as I5 by reflexivity.
  apply (bind_more R _ _ _ _ _ _ I5) in Hr as [(u6 & c6 & _ & _ & I6 & Hr)|(e & He & Hi)]; [|eapply Hno; [exact He|by etrans]|auto with broker].
  apply (bind_more R _ _ _ _ _ _ I6) in Hr as [(now & c7 & Hnow & _ & I7 & Hr)|(e & He & Hi)]; [|eapply Hno; [exact He|by etrans]|auto with broker].
  apply (read_at_now R c) in Hnow; [|etrans; [exact Hi05|exact (re_inside _ _ _ I6)]].
  assert (inside R c c7) as Hi07 by (etrans; [exact Hi05|exact (re_inside _ _ _ I7)]).
  apply (granting_rests _ _ _ _ I7) in Hg. apply (held_inside R _ _ _ _ (re_inside _ _ _ I7)) in Hh.
  apply (bind_inside R) in Hr as [(n & c8 & Hd & Hi8 & Hr)|(e & He & Hi)]; [|eapply Hno; [exact He|by etrans]|auto with broker].
  assert (inside R c c8) as Hi08 by (by etrans). destruct (negb (n =? 1)) eqn:En; [injection Hr as <- <-; by eapply Hno|].
  apply negb_false_iff, Nat.eqb_eq in En.
  destruct (delete_code _ _ _ _ _ _ Hd En (granting_no_request _ _ _ _ Hg) Hh) as (Hstill & c9 & I9 & Hw8 & Heq).
  apply (granting_rests _ _ _ _ I9) in Hg. unfold code_still in Hstill. bool_to_prop.
  apply bind_cases in Hr as [(until & c10 & Hl & Hr)|(e & Hl & He)]; [|injection Hl as _ <-; by eapply Hno]. apply lift_ok in Hl as [_ ->].
  destruct (snd _); try (injection Hr as <- <-; by eapply Hno).
  apply (exchange_commit R) in Hr as [(e & He & Hi)|(c11 & I11 & Hdb & Hx)]; [eapply Hno; [exact He|by etrans]|].
  destruct (granting_grants _ _ (cq_hash current) c9 c11 Hg) as (db1 & Hgr & Hview).
  { etrans; [|exact (re_inside _ _ _ I11)]. rewrite Heq. apply (writes_inside R). }
  { by rewrite (re_writes _ _ _ I11), Hw8. }
  right. eexists c11, _, now, db1, _. split; [etrans; [exact Hi08|exact (re_inside _ _ _ I11)]|]. split; [done|]. split; [done|]. split; [done|].
  split; [by eexists _, _|]. split; [done|]. split; [done|]. split; [|exact Hx]. done.
Qed.
Lemma mint_code_ok data principal client_id raw stop r1 r2 r3 c m c' :
  mint_code s data principal client_id raw stop r1 r2 r3 c = (Ok m, c') →
  (if offline data then is_Some (mc_refresh m) else mc_refresh m = None ∧ mc_family m = "") ∧ read_at c (mc_issued_at m).
Proof.
  unfold mint_code. intros Hr. apply bind_ok in Hr as (issued & c1 & Hnow & Hr). apply (read_at_now R c) in Hnow; [|done]. do 7 (apply bind_ok in Hr as (? & ? & _ & Hr)). apply bind_ok in Hr as (fam & ? & Hfam & Hr).
  apply bind_ok in Hr as (rf & ? & Hrf & Hr). apply ret_ok in Hr as [-> _]. apply lift_ok in Hfam as [Hfam _], Hrf as [Hrf _]. split; [simpl|done].
  destruct (offline data); [|by injection Hfam as <-; injection Hrf as <-].
  destruct (ok_or _ _) in Hrf; [|done]. injection Hrf as <-. by eexists.
Qed.
Lemma code_request_ok i data client_id :
  code_request s i data client_id = Ok tt → pf_client_id (az_request data) = client_id ∧ xi_redirect_uri i = Some (pf_redirect_uri (az_request data)).
Proof.
  unfold code_request. intros Hc. cbv zeta in Hc. destruct (_ || _) eqn:E1 in Hc; [done|]. bool_to_prop.
  split; [by apply str_eqb_eq|]. by apply dec_stable.
Qed.
Lemma revalidate_audience f client stop (c : Tx) u c' :
  txn_with exchange_error (revalidate_authorized (px_authorization s) f client stop) c = (Ok u, c') →
  pf_api_audience f = op_api_audience (px_authorization s).
Proof.
  unfold txn_with. destruct (revalidate_authorized _ f client stop (cn_clock c)) as [x k] eqn:Er. intros Hx. destruct x as [b|e]; [|done].
  apply (guarded_ok _ _ _ _ _ _ _ (guarded_revalidate _ f client "authorized" stop)) in Er. invert_ok Er. bool_to_prop. by apply str_eqb_eq.
Qed.
Lemma exchange_code_atomic i original r1 r2 r3 r4 c x c' :
  exchange_code s i original r1 r2 r3 r4 c = (x, c') → idle c → fair R c →
  atomically R late_exchange c x c' (λ db r db', ∃ raw hash,
    xi_code i = Some raw ∧ code_digest s OidcAuthorizationCode raw = Ok hash ∧ exchanges (read_at c) i hash db r db').
Proof.
  intros Hr Hidle Hfair. pose proof Hidle as [Hw _].
  match goal with |- ?G => assert (∀ e, x = Err e → inside R c c' → G) as Hno by (intros; by eapply (atomically_nothing R)) end.
  unfold exchange_code in Hr. assert (rests R c c) as I by reflexivity. read_step Hr I stop c1 Hm1. read_step Hr I u2 c2 Hm2.
  read_step Hr I u3 c3 Hm3. read_step Hr I raw c4 Hraw. guard_step Hr I G1. read_step Hr I verifier c5 Hver.
  apply lift_ok in Hraw as [Hraw _], Hver as [Hver _]. apply ok_or_ok in Hraw, Hver. destruct (verifier_valid verifier) eqn:Hval; simpl in Hr;
    [|injection Hr as <- <-; eapply Hno; [done|exact (re_inside _ _ _ I)]].
  read_step Hr I hash c6 Hhash. apply lift_ok in Hhash as [Hhash _]. destruct (exchanger_advance (exchanger_new i) XiNone) as [sdk out].
  read_step Hr I client_id c7 Hm7. guard_step Hr I G2. read_step Hr I u08 c8 Hm8. read_step Hr I u9 c9 Hm9. read_step Hr I initial c10 Hm10.
  read_step Hr I u11 c11 Hm11. read_step Hr I data c12 Hdata. apply lift_ok in Hdata as [Hdata _]. apply ok_or_ok in Hdata.
  read_step Hr I now c13 Hm13. read_step Hr I u14 c14 Hm14. read_step Hr I u15 c15 Hagree. read_step Hr I u16 c16 Hreq. destruct u16.
  apply lift_ok in Hreq as [Hreq _]. apply code_request_ok in Hreq as [Hclient Hredir]. read_step Hr I u17 c17 Hm17.
  pose proof (clean_rests R _ _ I Hw) as Hw17. read_step Hr I principal c18 Hprin. apply code_principal_ok in Hprin as (Hsub & Hrev & Hacts); [|done].
  pose proof (clean_rests R _ _ I Hw) as Hw18. read_step Hr I client c19 Hcl. apply map_err_ok, (client_of_ok _ R) in Hcl; [|done].
  pose proof (clean_rests R _ _ I Hw) as Hw19. read_step Hr I current c20 Hrow. apply code_row_locked in Hrow as (q & Hq & Hcode & Hid & Hjs & Hex); [|done].
  guard_step Hr I G3. apply bool_decide_eq_false, dec_stable in G3. subst initial. read_step Hr I u21 c21 Hm21. read_step Hr I u22 c22 Haud.
  apply revalidate_audience in Haud. read_step Hr I sdk' c23 Hsdk. apply lift_ok in Hsdk as [Hsdk _]. eapply sdk_exchange_ok in Hsdk; [|done..].
  guard_step Hr I G4. read_step Hr I u24 c24 Hm24. pose proof (re_inside _ _ _ I) as Hi24. read_step Hr I m c25 Hmint. apply mint_code_ok in Hmint as [Hmint Hissued]. pose proof (re_inside _ _ _ I) as Hi.
  assert (inside R c18 c25) as Hi18 by (eapply re_inside; do 6 (etrans; [eassumption|]); eassumption).
  assert (inside R c19 c25) as Hi19 by (eapply re_inside; do 5 (etrans; [eassumption|]); eassumption).
  assert (cq_identity current = pr_subject (az_principal data)) as Hident.
  { unfold code_agrees in Hagree. destruct (_ || _) eqn:E1 in Hagree; [done|]. bool_to_prop. by apply str_eqb_eq. }
  eapply redeem_code_ok in Hr as [(e & He & Hi')|(c26 & d & now' & db1 & t & Hi26 & Hdb & Hnow' & Hlt & (pj & sj & -> & Hsj) & Hgr & Hview & Hscope & Hx)];
    [eapply Hno; [done|by etrans]| |by eapply clean_rests|exact Hq|exact Hmint].
  eapply (atomically_step R); [done|done|by etrans|exact Hdb| |exact Hx]. exists raw, hash. split; [done|]. split; [done|].
  apply (held_inside R _ _ _ _ Hi26) in Hq as [_ Hq].
  exists (cq_hash current), q, data, client, principal, (code_data data principal m pj sj), now', t, db1.
  split_and!; try done; try congruence.
  - by eapply (read_at_inside R).
  - rewrite Hclient. eapply holds_client_db, (holds_client_inside _ R); [|exact Hcl]. by etrans.
  - eapply (holds_principal_now R); [|exact Hacts]. by etrans.
  - exact (read_at_inside R _ _ _ Hi24 Hissued).
Qed.
End atomic.

Section claim.
Context `{OidcLib, CredentialLib, SignLib, AuthLib, RefreshLib, RequestLib, !ExchangeLib, !ExchangeLaws} (s : PostgresOidcTokenExchange).
(** C5. The exchange of an authorization code is one atomic step.  Whatever
    other transactions commit meanwhile, and wherever a statement fails or the
    deadline cuts the exchange off: either nothing is changed and an error
    reported, or at one moment the request that holds this very code, not expired
    at a time the exchange read from its clock, is deleted and the tokens of its grant are stored: for the client it was made
    for, at the redirect it named and with the key of its challenge, for a
    principal who may act at that moment and is unchanged since the completion,
    with the resource, the scopes and the audience granted, and a refresh token
    exactly when offline access was. *)
Theorem exchange_refines (R : gset Key → Db → Db → Prop) `{!Rely R} i original r1 r2 r3 r4 (c : Tx) x c' :
  exchange_code s i original r1 r2 r3 r4 c = (x, c') → idle c → fair R c →
  ∃ db, R ∅ (cn_db c) db ∧
    ((∃ e, x = Err e) ∧ cn_db c' = db ∨
     ∃ r, (∃ raw hash, xi_code i = Some raw ∧ code_digest s OidcAuthorizationCode raw = Ok hash ∧
             exchanges s (read_at c) i hash db r (cn_db c')) ∧
       (x = r ∨ ∃ e, x = Err e ∧ late_exchange e)).
Proof. apply exchange_code_atomic; apply _. Qed.
End claim.
