(* ===== verification/OidcLife.v ===== *)
(** * The life of tokens

    The operations of oidc_refresh.rs and oidc_revocation.rs together, on one
    database: each of them is one atomic step, whatever runs concurrently, and
    through any sequence of them a family has one token that can be exchanged. *)

From stdpp Require Import gmap.
From S2P Require Import DeviceHistory.
From S2P Require Import Prelude RustStr Order Control BrokerAccess AccessIssuer Sql OidcTables.
From S2P Require Import StorageAdmission Credentials OidcPolicy OidcRefresh OidcRevocation.

(** ** One token of a family can be exchanged *)

Definition exchangeable (db : Db) (h : string) (t : TokenRow) : Prop :=
  db !! tokens h = Some (RToken t) ∧ tk_token_kind t = "refresh" ∧ tk_consumed_at t = None ∧ tk_revoked_at t = None.
Definition single (db : Db) : Prop :=
  ∀ h h' t t', exchangeable db h t → exchangeable db h' t' → tk_family_id t = tk_family_id t' → h = h'.
(** Every token that can be exchanged in [db'] could be in [db]. *)
Lemma single_fewer db db' :
  (∀ h t, exchangeable db' h t → exchangeable db h t) → single db → single db'.
Proof. intros Hf Hs h h' t t' H1%Hf H2%Hf. by eapply Hs. Qed.
Lemma only_revokes_fewer db db' h t : only_revokes db db' → exchangeable db' h t → exchangeable db h t.
Proof.
  intros Ho (Ht & Hk & Hc & Hr). destruct (Ho (tokens h)) as [Heq|(t0 & now & _ & _ & Heq)]; rewrite Heq in Ht; [done|].
  by injection Ht as <-.
Qed.

Section life.
Context `{OidcLib, CredentialLib, SignLib, AuthLib, RefreshLib, JwtLib, StoredPrincipalLib, !ClockedJwt}.
Context (s : PostgresOidcRefresh) (v : PostgresOidcRevocation).

Lemma exchangeable_insert db k t0 h t :
  exchangeable (<[tokens k := RToken t0]> db) h t →
  (h = k ∧ t = t0 ∧ tk_token_kind t0 = "refresh" ∧ tk_consumed_at t0 = None) ∨ (h ≠ k ∧ exchangeable db h t).
Proof.
  intros [Ht Hrest]. apply lookup_insert_Some in Ht as [[[= ->] [= ->]]|[Hne Ht]]; [left; tauto|right].
  split; [congruence|by split].
Qed.
Lemma rotates_single hash db r db' : rotates s hash db r db' → single db → single db'.
Proof.
  intros [t p granted scopes d ah rh jti id now expires x Ht Hk Hc Hr _ _ _ _ _ _ _ _ _ _ _ _ Hfam _ Ha Hrh Hne _ _ _|t now db1 Ht _ _ _ _ Hall] Hs.
  - assert (∀ h t1, exchangeable (<[tokens rh := RToken (token_row d id "refresh" (tk_expires_at t))]>
        (<[tokens ah := RToken (token_row d jti "oidc_access" expires)]> (<[tokens hash := RToken (consumed now t)]> db))) h t1 →
        h = rh ∧ tk_family_id t1 = tk_family_id t ∨ exchangeable db h t1 ∧ h ≠ hash) as Hcases.
    { intros h t1 [(-> & -> & _)|[_ [(_ & _ & ? & _)|[_ [(_ & _ & _ & ?)|[Hh Ht1]]%exchangeable_insert]]%exchangeable_insert]]%exchangeable_insert;
        [left; by rewrite <- Hfam|done|done|by right]. }
    assert (∀ h t1, exchangeable db h t1 → h ≠ hash → tk_family_id t1 ≠ tk_family_id t) as Hother.
    { intros h t1 He Hn Hf. by destruct Hn; eapply Hs; [exact He|by split|]. }
    intros h h' t1 t2 [[-> F1]|[E1 N1]]%Hcases [[-> F2]|[E2 N2]]%Hcases Hf; [done| | |by eapply Hs].
    + destruct (Hother _ _ E2 N2). congruence.
    + destruct (Hother _ _ E1 N1). congruence.
  - eapply single_fewer; [|exact Hs]. intros h t1. apply only_revokes_fewer. intros k.
    destruct (Hall k) as [?|(t0 & ? & _ & ? & ?)]; [by left|right; eauto].
Qed.

(** ** The operations *)

Inductive token_call :=
| TRotate (i : OidcRefreshInput) (original : Z) (r1 r2 r3 : option string)
| TRevoke (i : OidcRevocationInput) (original : Z).
Definition run_token (k : token_call) : M Tx OidcTokenExchangeError unit :=
  match k with
  | TRotate i original r1 r2 r3 => let? _ := rotate s i original r1 r2 r3 in ret tt
  | TRevoke i original => revoke v i original
  end.
Inductive token_serves (R : gset Key → Db → Db → Prop) : Db → Db → Prop :=
| token_serves_nil db : token_serves R db db
| token_serves_call k (c c' : Tx) x db' :
    idle c → fair R c → run_token k c = (x, c') → token_serves R (cn_db c') db' → token_serves R (cn_db c) db'.
Lemma call_single (R : gset Key → Db → Db → Prop) `{!Rely R, !TokenRely R} k (c c' : Tx) x :
  (∀ ks db db', R ks db db' → single db → single db') → idle c → fair R c → run_token k c = (x, c') →
  single (cn_db c) → single (cn_db c').
Proof.
  intros HR Hi Hf Hr Hs. destruct k; simpl in Hr.
  - apply bind_cases in Hr as [(r & c1 & Hr & He)|(e & Hr & _)]; [injection He as _ <-|];
      apply (rotate_atomic s R) in Hr as (db & Henv & [[_ ->]|(y & (raw & hash & _ & _ & Hrot) & _)]); try done;
      [by eapply HR|eapply rotates_single; [done|by eapply HR]|by eapply HR|eapply rotates_single; [done|by eapply HR]].
  - apply (revoke_only v R) in Hr as (db & Henv & [[_ ->]|(y & [_ Ho] & _)]); try done; [by eapply HR|].
    eapply single_fewer; [|by eapply HR]. intros h t. by apply only_revokes_fewer.
Qed.
(** C26. At most one token of a family can be exchanged.  If that holds of the
    stored tokens and the other transactions keep it, then after any sequence of
    exchanges and revocations, with whatever the others commit meanwhile, a
    family has at most one refresh token that is neither used nor revoked. *)
Theorem family_single (R : gset Key → Db → Db → Prop) `{!Rely R, !TokenRely R} db db' :
  (∀ ks db db', R ks db db' → single db → single db') → token_serves R db db' → single db → single db'.
Proof.
  intros HR. induction 1 as [|k c c' x db' Hi Hf Hr _ IH]; [done|]. intros Hs. by eapply IH, call_single.
Qed.
End life.

(** ** A token from its exchange to its revocation *)

(** Transactions that leave the tokens alone. *)
Definition quiet (ks : gset Key) (db db' : Db) : Prop := ∀ h, db' !! tokens h = db !! tokens h.
#[local] Instance quiet_rely : Rely quiet.
Proof.
  split; [|done]. intros ks. split; [by intros db h|]. intros db1 db2 db3 H12 H23 h. by rewrite H23.
Qed.
#[local] Instance quiet_token_rely : TokenRely quiet.
Proof. split; intros ks db db'; intros; exists t; rewrite <- H; by repeat split. Qed.
Lemma quiet_single ks db db' : quiet ks db db' → single db → single db'.
Proof. intros Hq. apply single_fewer. intros h t [Ht Hr]. split; [by rewrite <- Hq|done]. Qed.
#[local] Instance sample_token_credentials : CredentialLib := sample_credential_lib.
#[local] Instance sample_token_auth : AuthLib := sample_auth_lib.
Definition sample_principal : OidcPrincipal :=
  Local {| lp_issuer := "local"; lp_subject := "alice-subject"; lp_username := "alice"; lp_local_user_revision := 3; lp_name := "Alice";
           lp_email := ""; lp_organization := "org"; lp_teams := ["dev"; "ops"]; lp_roles := ["user"] |}.
#[local] Instance sample_token_json : OidcLib :=
  {| json_string := Some; json_pair := λ a b, Some (a +:+ "," +:+ b); json_strings := λ l, Some (join " " l);
     strings_json := λ s, Some (if is_empty s then [] else split s " "); json_principal := λ p, Some (pr_subject p);
     principal_json := λ s, if str_eqb s "alice-subject" then Some sample_principal else None; order_by := λ l, l |}.
#[local] Instance sample_token_sign : SignLib :=
  {| EncodingKey := unit; ed_public := Some; jwk_of_public := λ _, None; from_ed_der := λ _, tt;
     encode_access := λ kid claims _, Some "access"; encode_id := λ _ _ _, Some "id"; claim_hash := λ s, s |}.
(** A machine that asks for the token, for the client, and for the new grant. *)
#[local] Instance sample_refresh_lib : RefreshLib :=
  {| Scope := string; scope_parse := Some; scope_eqb := str_eqb; Refresher := OidcRefreshInput * string; refresh_new := λ i, (i, "");
     refresh_advance := λ m input,
       match input with
       | RiNone => (m, RoRecoverRefresh (default "" (ri_refresh_token m.1)))
       | RiRecovered _ grant => ((m.1, sg_scope grant), RoUnauthenticated (default "" (ri_client_id m.1)) None)
       | RiAuthenticated _ => (m, RoRefresh (default "" (ri_refresh_token m.1)) (default m.2 (ri_scope m.1)))
       | RiRefreshed _ _ _ => (m, RoOk)
       end;
     url_text := Some; chrono_micros := λ _, true |}.
#[local] Instance sample_revocation_jwt : JwtLib := sample_jwt_lib.
#[local] Instance sample_stored : StoredPrincipalLib :=
  {| principal_fields := λ s, Some {| pf_issuer := "local"; pf_subject := "alice-subject"; pf_username := "alice";
                                      pf_auth_method := "local-token"; pf_local_user_revision := 3 |} |}.
#[local] Instance sample_clocked : ClockedJwt.
Proof. split. intros key validation raw c x c' [= _ <-]. reflexivity. Qed.
Definition sample_refresh : PostgresOidcRefresh :=
  {| pr_digester := {| cd_pepper := "0123456789abcdef0123456789abcdef";
                       cd_limits := {| dl_pepper := 64; dl_token := 4096; dl_binding := 4096; dl_subject := 4096; dl_recovery := 64 |} |};
     pr_operation_timeout := (30 * NANOS)%Z; pr_authorization := sample_policy 4096;
     pr_policy := {| xp_access_micros := 600000000; xp_refresh_micros := 86400000000 |};
     pr_signer := {| bi_issuer := "https://issuer.test"; bi_api_audience := "api"; bi_kid := "k"; bi_key := tt; bi_jwks := [] |};
     pr_upstream := None |}.
Definition sample_revocation : PostgresOidcRevocation :=
  {| rk_digester := pr_digester sample_refresh; rk_operation_timeout := (30 * NANOS)%Z; rk_authorization := pr_authorization sample_refresh;
     rk_verifier := sample_verifier |}.
Definition challenge (d : string) : string := d +:+ "AAAAAAAAAAA".
Definition sample_raw : string := "gb_rt_" +:+ challenge sample_random.
Definition sample_digest (kind : TokenKind) (raw : string) : string :=
  match exchange_digest sample_refresh kind raw with Ok h => h | Err _ => "" end.
Definition sample_token : TokenRow :=
  {| tk_token_id := challenge sample_random; tk_token_kind := "refresh"; tk_subject := "alice-subject";
     tk_oidc_subject := match oidc_subject (pr_digester sample_refresh) "local" "alice-subject" with Ok v => v | Err _ => "" end;
     tk_principal_json := "alice-subject"; tk_client_id := "cli"; tk_audience := "api"; tk_resource := "";
     tk_scopes_json := "openid email"; tk_local_user_revision := 3; tk_family_id := challenge sample_random; tk_auth_time := 500000000;
     tk_expires_at := 5000000000; tk_revoked_at := None; tk_consumed_at := None; tk_last_used_at := None; tk_created_at := 600000000 |}.
Definition sample_tokens : Db :=
  {[users "alice" := RUser sample_user; tokens (sample_digest LocalRefresh sample_raw) := RToken sample_token]}.
Definition sample_exchange (raw : string) : OidcRefreshInput :=
  {| ri_grant_type := Some "refresh_token"; ri_client_id := Some "cli"; ri_refresh_token := Some raw; ri_scope := Some "openid";
     ri_resource := None; ri_authorization := None |}.
Definition sample_disposal (raw : string) : OidcRevocationInput :=
  {| rv_token := Some raw; rv_client_id := Some "cli"; rv_token_type_hint := None; rv_authorization := None |}.
Definition sample_call : token_call :=
  TRotate (sample_exchange sample_raw) 100 (Some "00112233445566778899aabbccddeeff") (Some "fedcba9876543210fedcba9876543210")
    (Some "0a1b2c3d4e5f60718293a4b5c6d7e8f9").
Definition sample_successor : string := "gb_rt_" +:+ challenge "fedcba9876543210fedcba9876543210".
Definition run_sample (k : token_call) (db : Db) : Db := cn_db (run_token sample_refresh sample_revocation k (sample_tx db)).2.
Definition sample_exchanged : Db := run_sample sample_call sample_tokens.
Lemma serves_sample k db db' :
  token_serves sample_refresh sample_revocation quiet (run_sample k db) db' →
  token_serves sample_refresh sample_revocation quiet db db'.
Proof. intros Hs. eapply (token_serves_call _ _ _ k (sample_tx db)); [by split|constructor|apply surjective_pairing|exact Hs]. Qed.
Lemma rotate_refines_witness :
  ∃ r hash db db',
    (rotate sample_refresh (sample_exchange sample_raw) 100 (Some "00112233445566778899aabbccddeeff")
       (Some "fedcba9876543210fedcba9876543210") (Some "0a1b2c3d4e5f60718293a4b5c6d7e8f9") (sample_tx sample_tokens)).1 = Ok r ∧
    xr_refresh r = Some sample_successor ∧ rotates sample_refresh hash db (Ok r) db'.
Proof.
  eexists. edestruct (rotate_refines sample_refresh quiet (sample_exchange sample_raw) 100 (Some "00112233445566778899aabbccddeeff")
    (Some "fedcba9876543210fedcba9876543210") (Some "0a1b2c3d4e5f60718293a4b5c6d7e8f9") (sample_tx sample_tokens))
    as (db & _ & [[[e He] _]|(r & Hp & Hx)]); [apply surjective_pairing|by split|constructor|vm_compute in He; discriminate He|].
  destruct Hp as (raw & hash & _ & _ & Hp). exists hash, db. eexists. split; [vm_compute; reflexivity|]. split; [reflexivity|].
  destruct Hx as [Hx|(e & Hx & _)]; vm_compute in Hx; [|discriminate Hx]. rewrite <- Hx in Hp. exact Hp.
Defined.
Lemma revoke_refines_witness :
  ∃ db db', (revoke sample_revocation (sample_disposal sample_successor) 100 (sample_tx sample_exchanged)).1 = Ok tt ∧
    revokes sample_revocation (stays quiet sample_exchanged) "cli" (read_at (sample_tx sample_exchanged))
      (sample_digest LocalRefresh sample_successor) db db'.
Proof.
  edestruct (revoke_refines sample_revocation quiet (sample_disposal sample_successor) 100 sample_successor
    (sample_digest LocalRefresh sample_successor) "cli" (sample_tx sample_exchanged)) as (db & _ & [[[e He] _]|(r & [_ Hp] & _)]);
    [apply surjective_pairing|by split|constructor|reflexivity|vm_compute; reflexivity|reflexivity| |vm_compute in He; discriminate He|].
  - intros ks db db' Hq t' Ht'. exists t'. rewrite <- Hq. by repeat split.
  - exists db. eexists. split; [vm_compute; reflexivity|exact Hp].
Defined.
Lemma family_single_witness : single sample_tokens ∧ single (run_sample sample_call sample_exchanged).
Proof.
  assert (single sample_tokens) as Hs.
  { intros h h' t t' (H1 & _) (H2 & _) _. unfold sample_tokens in H1, H2.
    apply lookup_insert_Some in H1 as [[? _]|[_ H1]]; [done|]. apply lookup_insert_Some in H2 as [[? _]|[_ H2]]; [done|].
    apply lookup_singleton_Some in H1 as [H1 _], H2 as [H2 _]. unfold tokens in H1, H2. congruence. }
  split; [exact Hs|].
  apply (family_single sample_refresh sample_revocation quiet sample_tokens (run_sample sample_call sample_exchanged));
    [exact quiet_single| |exact Hs].
  apply (serves_sample sample_call sample_tokens), (serves_sample sample_call sample_exchanged). constructor.
Defined.
