(* ===== verification/OidcScenario.v ===== *)
(** * A session from its token to its end, and a client from its registration

    Concrete runs of the end of a session, introspection, user information and
    registration, at which their properties hold. *)

From stdpp Require Import gmap.
From S2P Require Import Prelude RustStr Order Control BrokerAccess AccessIssuer Sql OidcTables StorageAdmission Credentials.
From S2P Require Import Device DeviceHistory OidcPolicy OidcRefresh OidcRevocation OidcRequests OidcEndSession OidcAccess OidcRegistration OidcLife.

(** Transactions that change nothing. *)
Definition still (ks : gset Key) (db db' : Db) : Prop := db' = db.
#[local] Instance still_rely : Rely still.
Proof. split; [|done]. intros ks. split; [done|]. intros ? ? ? -> ->. done. Qed.

Section session.
#[local] Existing Instance sample_credential_lib.
#[local] Existing Instance sample_auth_lib.
#[local] Existing Instance sample_token_json.
#[local] Existing Instance sample_refresh_lib.
#[local] Instance still_pair : PairRely still.
Proof. intros ks db db' subject client key h t -> _ _ Ht Hs Hc. exists t. auto 10. Qed.
Definition sample_oidc_subject : string := tk_oidc_subject sample_token.
Definition sample_jti : string := challenge sample_random.
Definition session_claims : Claims :=
  {| cl_iss := "https://issuer.test"; cl_sub := sample_oidc_subject; cl_aud := One "api"; cl_iat := 600; cl_exp := 5000;
     cl_token_use := "access"; cl_client_id := "cli"; cl_jti := sample_jti; cl_scope := "openid email"; cl_nbf := None;
     cl_preferred_username := Some "alice"; cl_organization := None; cl_groups := [] |}.
Definition session_hint : EndSessionClaims :=
  {| ec_iss := "https://issuer.test"; ec_sub := sample_oidc_subject; ec_aud := ["api"; "cli"]; ec_iat := 600; ec_exp := 700;
     ec_auth_time := 500; ec_amr := ["pwd"]; ec_azp := "cli"; ec_client_id := "cli"; ec_at_hash := sample_jti; ec_c_hash := None;
     ec_nonce := None; ec_nbf := None |}.
#[local] Instance session_jwt : JwtLib :=
  {| DecodingKey := unit; b64_decode := Some; json_object := λ _, Some [("alg", JString "EdDSA"); ("kid", JString "k")];
     from_jwk := λ _, Some tt; jwt_decode := λ _ _ _, ret session_claims |}.
#[local] Instance session_hints : HintLib := {| hint_decode := λ _ _ _, ret session_hint |}.
#[local] Instance session_clocked : ClockedJwt.
Proof. split. intros key validation raw c x c' [= _ <-]. reflexivity. Qed.
#[local] Instance session_clocked_hint : ClockedHint.
Proof. split. intros key validation raw c x c' [= _ <-]. reflexivity. Qed.
Definition session_verifier : BrokerAccessVerifier :=
  {| bv_issuer := "https://issuer.test"; bv_api_audience := "api"; bv_resource := None; bv_token_bytes := 100; bv_keys := {["k" := tt]} |}.
Definition session_end : PostgresOidcEndSession :=
  {| pe_digester := pr_digester sample_refresh; pe_operation_timeout := (30 * NANOS)%Z; pe_authorization := sample_policy 4096;
     pe_verifier := session_verifier |}.
Definition session_introspection : PostgresOidcIntrospection :=
  {| pi_digester := pr_digester sample_refresh; pi_operation_timeout := (30 * NANOS)%Z; pi_authorization := sample_policy 4096;
     pi_verifier := session_verifier |}.
Definition session_info : PostgresOidcUserInfo :=
  {| pu_digester := pr_digester sample_refresh; pu_operation_timeout := (30 * NANOS)%Z; pu_authorization := sample_policy 4096;
     pu_verifier := session_verifier; pu_upstream := None |}.
Definition session_token : TokenRow :=
  {| tk_token_id := sample_jti; tk_token_kind := "oidc_access"; tk_subject := "alice-subject"; tk_oidc_subject := sample_oidc_subject;
     tk_principal_json := "alice-subject"; tk_client_id := "cli"; tk_audience := "api"; tk_resource := "";
     tk_scopes_json := "openid email"; tk_local_user_revision := 3; tk_family_id := sample_jti; tk_auth_time := 500000000;
     tk_expires_at := 5000000000; tk_revoked_at := None; tk_consumed_at := None; tk_last_used_at := None; tk_created_at := 600000000 |}.
Definition session_db : Db :=
  {[users "alice" := RUser sample_user; tokens (sample_digest OidcStoredAccess sample_jti) := RToken session_token]}.
Definition session_input : OidcEndSessionInput := {| ei_id_token_hint := Some "h.p.s"; ei_client_id := Some "cli" |}.
Definition session_ended : Tx := (end_session session_end session_input 100 (sample_tx session_db)).2.

Lemma end_session_refines_witness :
  (end_session session_end session_input 100 (sample_tx session_db)).1 = Ok tt ∧
  ends session_end sample_oidc_subject "cli" session_db (cn_db session_ended).
Proof.
  split; [vm_compute; reflexivity|].
  edestruct (end_session_refines session_end still session_input 100 (sample_tx session_db))
    as (db & HR & [[[e He] _]|(r & (_ & raw & subject & client & _ & (key & claims & k & k' & _ & Hd & _ & Hs & Hc & _) & _ & Hp) & _)]);
    [apply surjective_pairing|by split|constructor|vm_compute in He; discriminate He|].
  unfold still in HR. subst db. injection Hd as <- _. rewrite <- Hs, <- Hc in Hp. exact Hp.
Defined.
Lemma introspect_refines_witness :
  ∃ a db', (introspect session_introspection "h.p.s" (Some "h.p.s") 100 (sample_tx session_db)).1 = Ok a ∧ in_active a = true ∧
    introspects session_introspection (clock_run sample_device_clock) still "h.p.s" (Some "h.p.s") session_db session_db (Ok a) db'.
Proof.
  eexists _, _. split; [vm_compute; reflexivity|]. split; [reflexivity|].
  edestruct (introspect_refines still session_introspection "h.p.s" (Some "h.p.s") 100 (sample_tx session_db))
    as (db & HR & [[[e He] _]|Hp]); [apply surjective_pairing|by split|constructor|vm_compute in He; discriminate He|].
  unfold still in HR. subst db.
  match type of Hp with introspects _ _ _ _ _ _ _ ?x _ =>
    let v := eval vm_compute in x in change x with v in Hp end. exact Hp.
Defined.
Lemma profile_refines_witness :
  ∃ u db', (user_profile session_info "h.p.s" 100 (sample_tx session_db)).1 = Ok u ∧ ui_groups u = ["dev"; "ops"] ∧
    profiles session_info (clock_run sample_device_clock) "h.p.s" session_db (Ok u) db'.
Proof.
  eexists _, _. split; [vm_compute; reflexivity|]. split; [reflexivity|].
  edestruct (profile_refines still session_info "h.p.s" 100 (sample_tx session_db)) as (db & HR & [[[e He] _]|(r & Hp & Hx)]);
    [apply surjective_pairing|by split|constructor|vm_compute in He; discriminate He|].
  unfold still in HR. subst db. destruct Hx as [Hx|(e & Hx & _)]; vm_compute in Hx; [|discriminate Hx]. rewrite <- Hx in Hp. exact Hp.
Defined.
(** The token was active, its session is ended, and it is not any more. *)
Lemma ended_inactive_witness :
  (introspect session_introspection "h.p.s" (Some "h.p.s") 100 (sample_tx (cn_db session_ended))).1 = Err OI_InvalidAuthority ∧
  ∃ raw subject client, ei_id_token_hint session_input = Some raw ∧ signed_pair session_verifier raw subject client ∧
    ∀ caller asked c3 a, introspect session_introspection caller asked 100 (sample_tx (cn_db session_ended)) = (Ok a, c3) → in_active a = true →
      ∃ authority raw' proof hash, asked = Some raw' ∧ own session_introspection (clock_run sample_device_clock) authority raw' proof hash ∧
        (vb_subject proof ≠ subject ∨ vb_client_id proof ≠ client ∨ ∀ t, cn_db session_ended !! tokens hash ≠ Some (RToken t)).
Proof.
  split; [vm_compute; reflexivity|].
  edestruct (ended_inactive still session_end session_introspection session_input 100 (sample_tx session_db) session_ended)
    as (raw & subject & client & Hraw & Hsig & Hall);
    [intros ks db db' h t t' -> Ht Ht'; rewrite Ht in Ht'; injection Ht' as <-; by repeat split
    |reflexivity|vm_compute; reflexivity|by split|constructor|].
  exists raw, subject, client. split; [exact Hraw|]. split; [exact Hsig|]. intros caller asked c3 a Hr Ha.
  apply (Hall caller asked 100%Z (sample_tx (cn_db session_ended)) c3 a); [reflexivity|by split|constructor|exact Hr|exact Ha].
Defined.
End session.

(** ** A registered client *)

Section registration.
(** Texts one after another, each character marked and each text ended. *)
Fixpoint written (s : list ascii) : list ascii :=
  match s with [] => ["e"%char] | b :: s => "c"%char :: b :: written s end.
Definition written_all (l : list string) : list ascii := concat ((λ s, written (bytes s)) <$> l).
Fixpoint read_all (word : list ascii) (l : list ascii) : option (list string) :=
  match l with
  | [] => if bool_decide (word = []) then Some [] else None
  | m :: l =>
      if Ascii.eqb m "e" then cons (of_bytes word) <$> read_all [] l
      else match l with b :: l => read_all (word ++ [b]) l | [] => None end
  end.
Lemma read_written word s rest : read_all word (written s ++ rest) = cons (of_bytes (word ++ s)) <$> read_all [] rest.
Proof.
  revert word. induction s as [|b s IH]; intros word; simpl; [by rewrite app_nil_r|]. rewrite IH. by rewrite <- (assoc_L (++)).
Qed.
Lemma read_written_all l : read_all [] (written_all l) = Some l.
Proof.
  induction l as [|s l IH]; [done|]. unfold written_all in *. cbn [fmap list_fmap concat]. rewrite read_written, IH. simpl.
  do 2 f_equal. unfold of_bytes, bytes. apply String.string_of_list_ascii_of_string.
Qed.
#[local] Existing Instance sample_auth_lib.
#[local] Existing Instance sample_refresh_lib.
#[local] Instance registered_json : OidcLib :=
  {| json_string := Some; json_pair := λ a b, Some (a +:+ "," +:+ b); json_strings := λ l, Some (of_bytes (written_all l));
     strings_json := λ s, read_all [] (bytes s); json_principal := λ p, Some (pr_subject p); principal_json := λ _, None;
     order_by := λ l, l |}.
#[local] Instance registered_credentials : CredentialLib :=
  {| hmac := λ _ _, None; url_b64_encode := λ d, d +:+ "AAAAAAAAAAA";
     url_b64_decode := λ s, Some (of_bytes (take (length (bytes s) - 11) (bytes s))) |}.
#[local] Instance registered_metadata : RegistrationLib :=
  {| registration_json := λ _, Some {| mi_token_endpoint_auth_method := Some " none "; mi_grant_types := None; mi_response_types := Some [[Code]];
       mi_redirect_uris := [" http://127.0.0.1/cb "; "http://127.0.0.1/cb"]; mi_client_name := Some " Client "; mi_scope := Some "email openid" |} |}.
#[local] Instance registered_laws : RegistrationLaws.
Proof.
  split.
  - intros l j [= <-]. simpl. rewrite bytes_of_bytes. apply read_written_all.
  - intros s. simpl. rewrite bytes_app, length_app. f_equal. replace (_ - 11) with (length (bytes s)) by (simpl; lia).
    rewrite take_app_length. unfold of_bytes, bytes. apply String.string_of_list_ascii_of_string.
  - intros s Hs. unfold url_b64_encode, registered_credentials. by rewrite <- length_bytes, bytes_app, length_app, length_bytes, Hs.
  - done.
Qed.
Definition registration_service : PostgresOidcRegistrationService :=
  {| ps_operation_timeout := (30 * NANOS)%Z;
     ps_policy := {| op_cli_client_id := "cli"; op_cli_redirect := "http://127.0.0.1/cb"; op_api_audience := "api"; op_accepted_resources := [];
       op_dynamic_registration := true; op_ttl_micros := 60000000; op_limits := {| ol_json_bytes := 4096; ol_parameter_bytes := 4096 |} |} |}.
Definition registered : Tx := (register registration_service "{}" 100 (Some sample_random) (sample_tx ∅)).2.
Lemma registration_round_trip_witness :
  ∃ a, (register registration_service "{}" 100 (Some sample_random) (sample_tx ∅)).1 = Ok a ∧ rc_redirect_uris a = ["http://127.0.0.1/cb"] ∧
    (client_of (ps_policy registration_service) (rc_client_id a) 100 (sample_tx (cn_db registered))).1 =
      Ok {| cd_id := rc_client_id a; cd_redirects := ["http://127.0.0.1/cb"]; cd_native := true |}.
Proof.
  eexists. split; [vm_compute; reflexivity|]. split; [reflexivity|].
  edestruct (registration_round_trip registration_service still "{}" 100 sample_random (sample_tx ∅)) as (db & row & HR & Hnone & Hdb & Hread);
    [rewrite (surjective_pairing (register _ _ _ _ _)); f_equal; vm_compute; reflexivity|reflexivity|by split|constructor|].
  edestruct (Hread 100%Z (sample_tx (cn_db registered))) as [Hx|[e Hx]]; [apply surjective_pairing|reflexivity|constructor| | | |exact Hx|].
  - change (cn_db (sample_tx (cn_db registered))) with (cn_db registered). unfold registered. rewrite Hdb. apply lookup_insert_eq.
  - by intros ks db1 db2 ->.
  - intros now (k & k' & [_ Hu _] & Hn). unfold now_micros, system_now, bind in Hn. rewrite Hu in Hn. injection Hn as <- _. vm_compute. congruence.
  - vm_compute in Hx. discriminate Hx.
Defined.
End registration.
