(* ===== verification/CodeHistory.v ===== *)
(** * The life of authorization codes

    The operations of service/oidc_authorization.rs and
    service/oidc_token_exchange.rs together, on one database: in any sequence of
    calls, whatever runs concurrently, a code is exchanged no more often than a
    completion has drawn it. *)

From stdpp Require Import gmap.
From S2P Require Import Session.
From S2P Require Import Prelude RustStr Order Control BrokerAccess AccessIssuer Sql OidcTables.
From S2P Require Import StorageAdmission Credentials Device Tickets DeviceHistory OidcPolicy OidcRefresh OidcRevocation OidcLife.
From S2P Require Import OidcRequests OidcExchange.

#[export] Instance late_request_dec e : Decision (late_request e).
Proof.
  refine (match e with OA_InvalidRequest | OA_InvalidLogin | OA_Control _ => left _ | _ => right _ end);
    unfold late_request; first [by left|by right; left|by right; right; eexists|by intros [?|[?|[? ?]]]].
Defined.

(** ** The requests that hold one code *)

Section stock.
Context (code : string).
Definition holds_code (kv : Key * Row) : Prop := match kv.2 with RRequest q => rq_code_hash q = Some code | _ => False end.
#[export] Instance holds_code_dec kv : Decision (holds_code kv).
Proof. destruct kv as [k [| | | | | |q| |]]; unfold holds_code; simpl; apply _. Defined.
(** How many requests hold it. *)
Definition outstanding (db : Db) : nat := size (filter holds_code db).
(** What others may do: anything but draw this code. *)
Definition drawn_by_none (ks : gset Key) (db db' : Db) : Prop := outstanding db' ≤ outstanding db.
#[export] Instance drawn_by_none_rely : Rely drawn_by_none.
Proof. split; [|done]. intros ks. split; unfold drawn_by_none; [intros ?; lia|intros ? ? ?; lia]. Qed.
Lemma outstanding_insert_other db k v : ¬ holds_code (k, v) → db !! k = None ∨ (∃ w, db !! k = Some w ∧ ¬ holds_code (k, w)) →
  outstanding (<[k := v]> db) = outstanding db.
Proof.
  intros Hv Hk. unfold outstanding. rewrite map_filter_insert_False by done. f_equal. apply map_filter_delete_not.
  destruct Hk as [Hk|(w & Hk & Hw)]; intros y Hy; congruence.
Qed.
Lemma outstanding_delete db k v : db !! k = Some v → (if decide (holds_code (k, v)) then 1 else 0) + outstanding (delete k db) = outstanding db.
Proof.
  intros Hk. unfold outstanding. rewrite map_filter_delete. case_decide as Hv.
  - rewrite map_size_delete_Some; [|exists v; by apply map_lookup_filter_Some]. 
    assert (size (filter holds_code db) ≠ 0); [|lia]. apply map_size_non_empty_iff. intros He.
    assert (filter holds_code db !! k = Some v) as Hf by (by apply map_lookup_filter_Some). by rewrite He in Hf.
  - by rewrite delete_id; [|apply map_lookup_filter_None; right; naive_solver].
Qed.
Lemma outstanding_insert_code db k v : holds_code (k, v) → outstanding (<[k := v]> db) ≤ 1 + outstanding db.
Proof.
  intros Hv. unfold outstanding. rewrite map_filter_insert_True by done. rewrite map_size_insert. destruct (_ !! k); simpl; lia.
Qed.
End stock.

(** ** Every operation, accounted for *)

Section operations.
Context `{OidcLib, CredentialLib, SignLib, AuthLib, RefreshLib, RequestLib, !ExchangeLib, !ExchangeLaws}.
Context (s : PostgresOidcAuthorizationService) (x : PostgresOidcTokenExchange).

(** What a call did to codes: a completion drew one, or an exchange was answered
    with tokens for one. *)
Inductive code_event := Drawn (code : string) | Exchanged (code : string).
Definition is_draw (code : string) (e : code_event) : bool := match e with Drawn h => str_eqb h code | _ => false end.
Definition is_exchange (code : string) (e : code_event) : bool := match e with Exchanged h => str_eqb h code | _ => false end.
(** A call of the services, and what it did. *)
Inductive flow_call :=
| FCreate (i : OidcAuthorizationInput) (original : Z) (random : option string)
| FBrowse (i : OidcAuthorizationInput) (original : Z) (random : option string)
| FLoad (raw : string) (original : Z)
| FComplete (raw : string) (login : PreparedOidcLogin) (original : Z) (random : option string)
| FUpstream (login : VerifiedUpstreamLogin) (verifier : UpstreamBearerVerifier) (original : Z) (random : option string)
| FExchange (i : OidcTokenExchangeInput) (original : Z) (r1 r2 r3 r4 : option string).
(** The code of a random draw. *)
Definition drew (random : option string) (r : result OidcAuthorizationError AuthorizedOidcAuthorization) : list code_event :=
  match new_local_auth_challenge random with
  | Some raw =>
      match request_digest s OidcAuthorizationCode raw with
      | Ok hash => if took late_request r then [Drawn hash] else []
      | Err _ => []
      end
  | None => []
  end.
Definition exchanged (i : OidcTokenExchangeInput) (r : result OidcTokenExchangeError OidcTokenExchangeResult) : list code_event :=
  match r, xi_code i with
  | Ok _, Some raw => match code_digest x OidcAuthorizationCode raw with Ok hash => [Exchanged hash] | Err _ => [] end
  | _, _ => []
  end.
Definition run_flow (k : flow_call) (c : Tx) : list code_event * Tx :=
  match k with
  | FCreate i original random => ([], (create s i original random c).2)
  | FBrowse i original random => ([], (admit_browser s i original random c).2)
  | FLoad raw original => ([], (load s raw original c).2)
  | FComplete raw login original random =>
      let '(r, c') := complete s raw login original random c in (drew random r, c')
  | FUpstream login verifier original random =>
      let '(r, c') := complete_upstream s login verifier original random c in (drew random r, c')
  | FExchange i original r1 r2 r3 r4 =>
      let '(r, c') := exchange_code x i original r1 r2 r3 r4 c in (exchanged i r, c')
  end.
(** Calls one after the other, with others that may do anything but draw this
    code. *)
Definition flow_serves (code : string) : Db → list code_event → Db → Prop :=
  served (drawn_by_none code) (λ _, True) run_flow.

Context (code : string).
Notation R := (drawn_by_none code).
Notation outstanding := (outstanding code).
Definition accounted (log : list code_event) (db db' : Db) : Prop :=
  times (is_exchange code) log + outstanding db' ≤ times (is_draw code) log + outstanding db.
#[local] Instance accounted_ledger : Ledger R accounted.
Proof. split; unfold accounted, drawn_by_none; [done|]. intros l l' db1 db2 db3 H1' H2'. rewrite !times_app. lia. Qed.
Lemma accounted_same db : accounted [] db db.
Proof. by unfold accounted. Qed.
Lemma creates_accounted i db r db' : creates s i db r db' → accounted [] db db'.
Proof.
  intros (client & hash & json & pending & _ & _ & _ & _ & _ & _ & Hnone & ->). unfold accounted.
  rewrite outstanding_insert_other; [done|done|by left].
Qed.
Lemma browses_accounted i db r db' : browses s i db r db' → accounted [] db db'.
Proof. intros [(pending & _ & Hc)|(rejected & _ & _ & ->)]; [by eapply creates_accounted|apply accounted_same]. Qed.
Lemma completes_accounted was random hash who db r db' :
  completes s was (new_local_auth_challenge random) hash who db r db' → accounted (drew random (r : result _ _)) db db' ∧
  ∀ e, late_request e → drew random (Err e) = drew random r.
Proof.
  intros (q & fields & client & principal & subject & ch & json & now & a & -> & Hp & _ & _ & _ & Hd & _ & _ & Hch & _ & _ & ->).
  unfold drew. rewrite Hd, Hch. split; [|intros e He; simpl; by rewrite bool_decide_true].
  destruct Hp as [Hrow Hid Hcode _ _ _]. unfold accounted. simpl took. cbv iota. rewrite !times_one. simpl.
  destruct (str_eqb ch code) eqn:E.
  - apply str_eqb_eq in E as ->. apply outstanding_insert_code. done.
  - apply str_eqb_neq in E. rewrite outstanding_insert_other; [done|intros [= ?]; congruence|]. right. eexists. split; [done|].
    unfold holds_code. simpl. by rewrite Hcode.
Qed.
Lemma drew_none random e db : accounted (drew random (Err e)) db db.
Proof.
  unfold drew. destruct (new_local_auth_challenge random); [|apply accounted_same]. destruct (request_digest _ _ _); [|apply accounted_same].
  destruct (took _ _); [|apply accounted_same]. unfold accounted. rewrite !times_one. simpl. lia.
Qed.
Lemma grants_outstanding d b db db' : grants x d b db db' → outstanding db' = outstanding db ∧ ∀ h, db' !! requests h = db !! requests h.
Proof.
  intros [ah jti expires _ _ Hn|ah jti expires rh id expiry _ Hn Hn' Hne _].
  - split; [apply outstanding_insert_other; [by intros []|by left]|]. intros h. by rewrite lookup_insert_ne.
  - split; [|intros h; by rewrite !lookup_insert_ne].
    rewrite outstanding_insert_other; [apply outstanding_insert_other; [by intros []|by left]|by intros []|].
    left. rewrite lookup_insert_ne; [done|]. unfold tokens. congruence.
Qed.
Lemma exchanges_accounted was i hash db r db' :
  exchanges x was i hash db r db' →
  accounted [Exchanged hash] db db' ∧ ∃ t, r = Ok t.
Proof.
  intros (h & q & data & client & principal & d & now & t & db1 & -> & Hrow & Hcode & Hrest).
  assert (grants x d (offline data) db db1 ∧ db' = delete (requests h) db1) as [Hg ->] by (by destruct_and! Hrest).
  split; [|by eexists]. apply grants_outstanding in Hg as [Ho Hl]. rewrite <- Hl in Hrow. apply (outstanding_delete code) in Hrow.
  unfold accounted. rewrite !times_one, <- Ho. simpl. destruct (str_eqb hash code) eqn:E; [|lia]. apply str_eqb_eq in E as ->.
  rewrite decide_True in Hrow by done. lia.
Qed.
Lemma accounted_less hash db db' : accounted [Exchanged hash] db db' → accounted [] db db'.
Proof. unfold accounted. rewrite !times_one. simpl. destruct (str_eqb hash code); lia. Qed.
(** A call that neither draws nor exchanges. *)
Lemma quiet_call {E A} (late : E → Prop) (m : M Tx E A) (c : Tx) P :
  (∀ y c', m c = (y, c') → atomically R late c y c' P) → (∀ db r db', P db r db' → accounted [] db db') →
  accounted [] (cn_db c) (cn_db (m c).2).
Proof.
  intros Hm HP. destruct (m c) as [y c'] eqn:Em. specialize (Hm y c' eq_refl).
  eapply (atomically_ledger R accounted late (λ _, [])) in Hm; [exact Hm|done|intros; apply accounted_same|eauto].
Qed.
Lemma flow_accounted k (c c' : Tx) now :
  idle c → fair R c → run_flow k c = (now, c') → accounted now (cn_db c) (cn_db c').
Proof.
  intros Hi Hf Hr. destruct k as [i o r|i o r|raw o|raw l o r|l v o r|i o r1 r2 r3 r4]; simpl in Hr; try injection Hr as <- <-.
  - eapply quiet_call; [intros y c'; by intros ?%(create_atomic s R)|]. intros db y db'. apply creates_accounted.
  - eapply quiet_call; [intros y c'; by intros ?%(admit_browser_atomic s R)|]. intros db y db'. apply browses_accounted.
  - eapply quiet_call; [intros y c'; by intros ?%(load_atomic s R)|]. intros db y db' (hash & _ & -> & _). apply accounted_same.
  - destruct (complete s raw l o r c) as [y c1] eqn:Ex. injection Hr as <- <-. apply (complete_atomic s R) in Ex; [|done..].
    eapply (atomically_ledger R accounted late_request (drew r)) in Ex; [exact Ex| |intros; apply drew_none|].
    + intros db y' db' (hash & _ & Hp). by apply completes_accounted in Hp as [? _].
    + intros e db y' db' He (hash & _ & Hp). apply completes_accounted in Hp as [Ha Hl]. by rewrite Hl.
  - destruct (complete_upstream s l v o r c) as [y c1] eqn:Ex. injection Hr as <- <-. apply (complete_upstream_atomic s R) in Ex; [|done..].
    eapply (atomically_ledger R accounted late_request (drew r)) in Ex; [exact Ex| |intros; apply drew_none|].
    + intros db y' db' (raw & hash & _ & Hp). by apply completes_accounted in Hp as [? _].
    + intros e db y' db' He (raw & hash & _ & Hp). apply completes_accounted in Hp as [Ha Hl]. by rewrite Hl.
  - destruct (exchange_code x i o r1 r2 r3 r4 c) as [y c1] eqn:Ex. injection Hr as <- <-.
    apply (exchange_code_atomic x R) in Ex; [|done..].
    eapply (atomically_ledger R accounted late_exchange (exchanged i)) in Ex; [exact Ex| |intros; apply accounted_same|].
    + intros db r db' (raw & hash & Hraw & Hd & Hp). apply exchanges_accounted in Hp as [Ha [t ->]]. unfold exchanged. by rewrite Hraw, Hd.
    + intros e db r db' _ (raw & hash & _ & _ & Hp). apply exchanges_accounted in Hp as [Ha _]. by eapply accounted_less.
Qed.
(** C4. An authorization code is exchanged once.  Take any sequence of calls of
    the two services, with whatever other transactions commit meanwhile as long as
    they do not draw this code.  The exchanges of the code that were answered with
    tokens, and the requests that still hold it at the end, are together no more
    than the completions that drew it, which succeeded or failed with an error that
    can come too late to undo them, and the requests that held it at the start.
    So a code that one completion has drawn is exchanged at most once, and after
    that no request holds it. *)
Theorem code_single_use db log db' :
  flow_serves code db log db' →
  times (is_exchange code) log + outstanding db' ≤ times (is_draw code) log + outstanding db.
Proof. apply (served_ledger R _ _ accounted). intros k c now c' Hi Hf _ Hr. by eapply flow_accounted. Qed.
End operations.

(** ** A code from its request to its exchange *)

#[local] Existing Instance sample_credential_lib.
#[local] Existing Instance sample_auth_lib.
#[local] Existing Instance sample_token_json.
#[local] Existing Instance sample_token_sign.
#[local] Existing Instance sample_refresh_lib.
Definition code_policy : OidcAuthorizationPolicy := sample_policy 4096.
Definition code_input : OidcAuthorizationInput :=
  {| oi_client_id := "cli"; oi_redirect_uri := "http://127.0.0.1/cb"; oi_response_type := "code"; oi_scope := "openid offline_access";
     oi_state := "state"; oi_nonce := "nonce"; oi_code_challenge := "0123456789abcdef0123456789abcdefAAAAAAAAAAA";
     oi_code_challenge_method := "S256"; oi_response_mode := None; oi_resources := []; oi_prompts := [] |}.
Definition code_fields : PendingFields := pending_fields code_policy code_input None ["openid"; "offline_access"].
Definition code_authorized : AuthorizedFields :=
  {| az_request := with_phase code_fields "authorized"; az_principal := sample_principal;
     az_oidc_subject := match oidc_subject (pr_digester sample_refresh) "local" "alice-subject" with Ok v => v | Err _ => "" end;
     az_amr := ["pwd"]; az_auth_time := 1000000000 |}.
#[local] Instance sample_request_lib : RequestLib :=
  {| pending_json := λ _, Some "pending"; json_pending := λ v, if str_eqb v "pending" then Some code_fields else None;
     authorized_json := λ _, Some "authorized"; json_authorized := λ v, if str_eqb v "authorized" then Some code_authorized else None;
     url_origin := λ v, Some ("http", Some "127.0.0.1", "http://127.0.0.1") |}.
(** A machine that asks for the client, for the code and for the extensions, with
    a verifier equal to its challenge. *)
#[local] Instance sample_exchange_lib : ExchangeLib :=
  {| Exchanger := OidcTokenExchangeInput; exchanger_new := λ i, i;
     exchanger_advance := λ m input,
       (m, match input with
           | XiNone => XoAuthenticate (default "" (xi_client_id m)) None
           | XiAuthenticated => XoRecover (default "" (xi_code m))
           | XiRecovered _ challenge => XoExtend (Some challenge)
           | XiExtended => XoIssue
           | XiIssued _ _ _ => XoOk
           end);
     pkce_verify := λ ext v, is_some_and ext (str_eqb v) |}.
#[local] Instance sample_exchange_laws : ExchangeLaws.
Proof. by intros m grant challenge m' ext [= _ <-]. Qed.
Definition code_service : PostgresOidcAuthorizationService :=
  {| pa_digester := pr_digester sample_refresh; pa_operation_timeout := (30 * NANOS)%Z; pa_policy := code_policy |}.
Definition code_exchange : PostgresOidcTokenExchange :=
  {| px_digester := pr_digester sample_refresh; px_operation_timeout := (30 * NANOS)%Z; px_authorization := code_policy;
     px_policy := pr_policy sample_refresh; px_issuer := pr_signer sample_refresh; px_upstream := None |}.
Definition code_secret : string := challenge sample_random.
Definition code_raw : string := challenge "fedcba9876543210fedcba9876543210".
Definition code_login : PreparedOidcLogin :=
  {| po_login := {| cll_username := "alice"; cll_subject := "alice-subject"; cll_revision := 3; cll_observed_at := 1000000000;
       cll_purpose := PurposeOauthAuthorize;
       cll_binding := match local_auth_binding (pr_digester sample_refresh) (BindOauthAuthorize code_secret) with Ok b => b | Err _ => "" end;
       cll_factor_verified := false; cll_recovery_codes := None |} |}.
Definition code_parameter (code : string) : OidcTokenExchangeInput :=
  {| xi_grant_type := Some "authorization_code"; xi_client_id := Some "cli"; xi_code := Some code;
     xi_redirect_uri := Some "http://127.0.0.1/cb"; xi_code_verifier := Some "0123456789abcdef0123456789abcdefAAAAAAAAAAA";
     xi_resource := None; xi_authorization := None |}.
Definition code_calls : list flow_call :=
  [FBrowse code_input 100 (Some sample_random);
   FLoad code_secret 100;
   FComplete code_secret code_login 100 (Some "fedcba9876543210fedcba9876543210");
   FExchange (code_parameter code_raw) 100 (Some "00112233445566778899aabbccddeeff") (Some "0a1b2c3d4e5f60718293a4b5c6d7e8f9")
     (Some "aabbccddeeff00112233445566778899") (Some "99887766554433221100ffeeddccbbaa");
   FExchange (code_parameter code_raw) 100 (Some "00112233445566778899aabbccddeef0") (Some "0a1b2c3d4e5f60718293a4b5c6d7e8f0")
     (Some "aabbccddeeff00112233445566778890") (Some "99887766554433221100ffeeddccbba0")].
Fixpoint flow_log (ks : list flow_call) (db : Db) : list code_event * Db :=
  match ks with
  | [] => ([], db)
  | k :: ks =>
      let '(now, c) := run_flow code_service code_exchange k (sample_tx db) in
      let '(log, db) := flow_log ks (cn_db c) in (now ++ log, db)
  end.
Definition code_db (n : nat) : Db := (flow_log (take n code_calls) sample_start).2.
Definition code_hash : string := match code_digest code_exchange OidcAuthorizationCode code_raw with Ok h => h | Err _ => "" end.
Lemma flow_log_serves code ks db : flow_serves code_service code_exchange code db (flow_log ks db).1 (flow_log ks db).2.
Proof.
  revert db. induction ks as [|k ks IH]; intros db; [constructor|]. simpl.
  destruct (run_flow code_service code_exchange k (sample_tx db)) as [now c] eqn:Er. specialize (IH (cn_db c)).
  destruct (flow_log ks (cn_db c)) as [log db']. by eapply (served_call _ _ _ k (sample_tx db)); [by split|constructor|done|exact Er|].
Qed.
(** The second exchange of the code is refused. *)
Lemma code_single_use_witness :
  let '(log, db') := flow_log code_calls sample_start in
  log = [Drawn code_hash; Exchanged code_hash] ∧
  times (is_exchange code_hash) log + outstanding code_hash db' ≤ times (is_draw code_hash) log + outstanding code_hash sample_start.
Proof.
  pose proof (flow_log_serves code_hash code_calls sample_start) as Hs.
  assert ((flow_log code_calls sample_start).1 = [Drawn code_hash; Exchanged code_hash]) as Hlog by (vm_compute; reflexivity).
  destruct (flow_log code_calls sample_start) as [log db']. split; [exact Hlog|].
  exact (code_single_use code_service code_exchange code_hash sample_start log db' Hs).
Defined.
Lemma browser_refines_witness :
  ∃ p, (admit_browser code_service code_input 100 (Some sample_random) (sample_tx sample_start)).1 = Ok (BrowserPending p) ∧
    ∃ db db', browses code_service code_input db (Ok (BrowserPending p)) db'.
Proof.
  eexists. split; [vm_compute; reflexivity|].
  edestruct (browser_refines code_service (drawn_by_none "") code_input 100 (Some sample_random) (sample_tx sample_start))
    as (db & _ & [[[e He] _]|(r & Hp & Hx)]); [apply surjective_pairing|by split|constructor|vm_compute in He; discriminate He|].
  exists db. eexists. destruct Hx as [Hx|(e & Hx & _)]; vm_compute in Hx; [|discriminate Hx]. rewrite <- Hx in Hp. exact Hp.
Defined.
Lemma complete_refines_witness :
  ∃ a, (complete code_service code_secret code_login 100 (Some "fedcba9876543210fedcba9876543210") (sample_tx (code_db 2))).1 = Ok a ∧
    aa_code a = code_raw ∧ ∃ hash db db',
      completes code_service (read_at (sample_tx (code_db 2))) (new_local_auth_challenge (Some "fedcba9876543210fedcba9876543210")) hash
        (by_login code_service code_secret (po_login code_login)) db (Ok a) db'.
Proof.
  eexists. split; [vm_compute; reflexivity|]. split; [reflexivity|].
  edestruct (complete_refines code_service (drawn_by_none "") code_secret code_login 100 (Some "fedcba9876543210fedcba9876543210") (sample_tx (code_db 2)))
    as (db & _ & [[[e He] _]|(r & (hash & _ & Hp) & Hx)]); [apply surjective_pairing|by split|constructor|vm_compute in He; discriminate He|].
  exists hash, db. eexists. destruct Hx as [Hx|(e & Hx & _)]; vm_compute in Hx; [|discriminate Hx]. rewrite <- Hx in Hp. exact Hp.
Defined.
Lemma exchange_refines_witness :
  ∃ t, (exchange_code code_exchange (code_parameter code_raw) 100 (Some "00112233445566778899aabbccddeeff")
          (Some "0a1b2c3d4e5f60718293a4b5c6d7e8f9") (Some "aabbccddeeff00112233445566778899") (Some "99887766554433221100ffeeddccbbaa")
          (sample_tx (code_db 3))).1 = Ok t ∧
    xr_scope t = "openid offline_access" ∧ ∃ hash db db',
      exchanges code_exchange (read_at (sample_tx (code_db 3))) (code_parameter code_raw) hash db (Ok t) db'.
Proof.
  eexists. split; [vm_compute; reflexivity|]. split; [reflexivity|].
  edestruct (exchange_refines code_exchange (drawn_by_none "") (code_parameter code_raw) 100 (Some "00112233445566778899aabbccddeeff")
    (Some "0a1b2c3d4e5f60718293a4b5c6d7e8f9") (Some "aabbccddeeff00112233445566778899") (Some "99887766554433221100ffeeddccbbaa")
    (sample_tx (code_db 3)))
    as (db & _ & [[[e He] _]|(r & (raw & hash & _ & _ & Hp) & Hx)]); [apply surjective_pairing|by split|constructor|vm_compute in He; discriminate He|].
  exists hash, db. eexists. destruct Hx as [Hx|(e & Hx & _)]; vm_compute in Hx; [|discriminate Hx]. rewrite <- Hx in Hp. exact Hp.
Defined.
