(* ===== verification/StoragePolicy.v ===== *)
(** * Storage policy

    crates/broker-control/src/storage_policy.rs and the authorizer of
    service/storage_admission.rs: from the grant rules that match a caller to
    the object prefixes each operation may touch, inside the roots of the
    requested scope. *)

From S2P Require Import Prelude RustStr Order Control LocalBearer BrokerAccess.
From S2P Require Import Session Identity InstanceRegistry ResourceGrants.
From S2P Require Import ResourcePolicy StorageAdmission.

(** ** Paths *)

Definition safe_segment (s : string) : bool :=
  negb (is_empty s) && (len s <=? 128)%Z && first_byte is_ascii_alphanumeric s
  && all_bytes (λ b, is_ascii_alphanumeric b || existsb (Ascii.eqb b) (bytes "._-")) s
  && negb (str_eqb s ".") && negb (str_eqb s "..").
Definition safe_path (s : string) : bool :=
  negb (is_empty s) && forallb safe_segment (split s "/").
(** The prefix common to a granted path and a root, on whole segments. *)
Definition intersect (candidate root : string) : option string :=
  if str_eqb candidate root || is_some_and (strip_prefix candidate root) (λ s, starts_with s "/")
  then Some candidate
  else if is_some_and (strip_prefix root candidate) (λ s, starts_with s "/") then Some root
  else None.

Record StorageDecision := { sd_route : string; sd_access : list (list string) }.

Section policy.
Context `{UlidLib, GlobLib, JwtLib}.
Context (sha256 : string → string).

Record StorageRule := {
  st_route : string;
  st_operations : list regex;
  st_templates : list string;
}.
Record StoragePolicy := { sp_hub : list HubRule; sp_rules : list StorageRule }.

Definition probe (template : string) : string :=
  foldl (λ probe name, replace probe name "validation") template
    ["{project}"; "{username}"; "{organization}"; "{subject}"].
Definition storage_template (stop : Z) (raw : string) : M clock StorageAdmissionError string :=
  do? map_err SA_from_policy (check_deadline stop) in
  let template := trim_matches "/" (trim raw) in
  if negb (safe_path (probe template)) then fail SA_InvalidPolicy else ret template.
Definition storage_compile_rule (stop : Z) (r : ResourceGrantRule)
    : M clock StorageAdmissionError StorageRule :=
  do? map_err SA_from_policy (check_deadline stop) in
  let? operations := map_err SA_from_policy (mcollect (λ s, pattern s stop) (gr_s3_operations r)) in
  let? templates := mcollect (storage_template stop) (gr_s3_prefixes r) in
  ret {| st_route := trim (gr_s3_route r); st_operations := operations; st_templates := templates |}.
Definition storage_compile (snapshot : ResourceGrantSnapshot) (stop : Z)
    : M clock StorageAdmissionError StoragePolicy :=
  let? hub := map_err SA_from_policy (hub_compile snapshot stop) in
  let? rules := mcollect (storage_compile_rule stop) (gs_rules snapshot) in
  do? map_err SA_from_policy (check_deadline stop) in
  ret {| sp_hub := hub; sp_rules := rules |}.

(** The attributes a template may name. *)
Definition attributes (identity : StorageIdentity) : option string * option string * string :=
  match identity with
  | SI_Native p => (vb_username p, vb_organization p, vb_subject p)
  | SI_Local p =>
      let u := current_local_user p in (Some (lu_username u), Some (lu_organization u), lu_subject u)
  end.
Definition substitute (rendered : string) (binding : string * option string)
    : result StorageAdmissionError string :=
  let (name, value) := binding in
  if contains rendered name then
    match value with
    | Some v => if safe_segment v then Ok (replace rendered name v) else Err SA_InvalidPolicy
    | None => Err SA_InvalidPolicy
    end
  else Ok rendered.
Fixpoint substitute_all (rendered : string) (bindings : list (string * option string))
    : result StorageAdmissionError string :=
  match bindings with
  | [] => Ok rendered
  | b :: bindings => let! rendered := substitute rendered b in substitute_all rendered bindings
  end.
Definition render (template : string) (identity : StorageIdentity) (project : option string)
    : result StorageAdmissionError (option string) :=
  if bool_decide (project = None) && contains template "{project}" then Ok None else
  let '(username, organization, subject) := attributes identity in
  let! rendered := substitute_all template
    [("{project}", project); ("{username}", username); ("{organization}", organization);
     ("{subject}", Some subject)] in
  if negb (safe_path rendered) then Err SA_InvalidPolicy else Ok (Some rendered).

(** The operations a matching rule allows: its capabilities, restricted by its
    operation patterns. *)
Definition rule_operations (rule : StorageRule) (caps : list bool) : list bool :=
  (λ op, default false (caps !! StorageOperation_index op)
         && (bool_decide (st_operations rule = [])
             || any_match (st_operations rule) (StorageOperation_name op)))
  <$> StorageOperation_ALL.

(** The prefixes of one rule: the roots themselves, or the meets of its
    rendered templates with the roots. *)
Definition add_template (stop : Z) (identity : StorageIdentity) (project : option string)
    (roots : list string) (prefixes : list string) (template : string)
    : M clock StorageAdmissionError (list string) :=
  do? map_err SA_from_policy (check_deadline stop) in
  let? candidate := lift_result (render template identity project) in
  match candidate with
  | None => ret prefixes
  | Some candidate => ret (bset_extend prefixes (omap (intersect candidate) roots))
  end.
Definition rule_prefixes (stop : Z) (identity : StorageIdentity) (project : option string)
    (roots : list string) (rule : StorageRule) : M clock StorageAdmissionError (list string) :=
  let prefixes := if bool_decide (st_templates rule = []) then bset_extend [] roots else [] in
  mfor (add_template stop identity project roots) prefixes (st_templates rule).

(** [access[op].extend(prefixes)] for each allowed operation. *)
Definition extend_access (access : list (list string)) (allowed : list bool) (prefixes : list string)
    : list (list string) :=
  zip_with (λ set ok, if (ok : bool) then bset_extend set prefixes else set) access allowed.

(** [&self.rules[index]] *)
Definition rule_at (policy : StoragePolicy) (index : nat) : StorageRule :=
  default {| st_route := ""; st_operations := []; st_templates := [] |} (sp_rules policy !! index).

Definition evaluate_rule (policy : StoragePolicy) (stop : Z) (identity : StorageIdentity)
    (project : option string) (roots : list string) (default_route : string)
    (acc : option string * list (list string)) (matching : nat * list bool * bool)
    : M clock StorageAdmissionError (option string * list (list string)) :=
  let '(route, access) := acc in
  let '(index, caps, _) := matching in
  do? map_err SA_from_policy (check_deadline stop) in
  let rule := rule_at policy index in
  let allowed := rule_operations rule caps in
  if negb (existsb id allowed) then ret acc else
  let? prefixes := rule_prefixes stop identity project roots rule in
  if bool_decide (prefixes = []) then ret acc else
  let selected := if is_empty (st_route rule) then default_route else st_route rule in
  if is_some_and route (λ prior, negb (str_eqb prior selected)) then fail SA_ConflictingRoutes else
  ret (Some selected, extend_access access allowed prefixes).

Definition evaluate (policy : StoragePolicy) (identity : StorageIdentity) (scope : StorageScope)
    (default_route : string) (stop : Z) : M clock StorageAdmissionError (option StorageDecision) :=
  let? matches := map_err SA_from_policy
    (storage_rules (sp_hub policy) identity (scope_project_id scope) stop) in
  if is_global_hub scope && negb (existsb snd matches) then
    do? map_err SA_from_policy (check_deadline stop) in ret None
  else
  let roots := roots sha256 scope identity in
  let? (route, access) :=
    mfor (evaluate_rule policy stop identity (scope_project_id scope) roots default_route)
      (None, [[]; []; []; []]) matches in
  do? map_err SA_from_policy (check_deadline stop) in
  ret ((λ route, {| sd_route := route; sd_access := access |}) <$> route).

(** ** The authorizer: service/storage_admission.rs *)

Section authorize.
(** The SQL read of the current grants under a deadline. *)
Context (read_grants : Z → M clock ResourceGrantReadError ResourceGrantSnapshot).

Definition configured_route (value : string) : result StorageAdmissionError string :=
  let value := trim value in
  if is_empty value then Err SA_InvalidConfiguration else Ok value.

Definition authorize (default_route : string) (auth : StorageAuthentication) (scope : StorageScope)
    : M clock StorageAdmissionError AuthorizedStorageGrant :=
  do? sa_check auth in
  let? snapshot := map_err SA_Grants (read_grants (sa_end auth)) in
  let? policy := outcome (storage_compile snapshot (sa_end auth)) in
  do? sa_check auth in
  let? policy := lift_result policy in
  let? decision := outcome (evaluate policy (sa_identity auth) scope default_route (sa_end auth)) in
  do? sa_check auth in
  let? decision := lift_result decision in
  let? decision := lift_result (ok_or decision SA_Forbidden) in
  let grant := {| ag_auth := auth; ag_scope := scope; ag_route := sd_route decision;
                  ag_revision := gs_revision snapshot; ag_access := sd_access decision |} in
  do? ag_check grant in
  ret grant.

(** The factory an authenticated caller is bound to, by address. *)
Inductive FactoryBinding :=
| FB_Broker (factory : nat) | FB_Local (factory : nat)
| FB_SqliteBroker (factory : nat) | FB_SqliteLocal (factory : nat).
Record AuthenticatedStorageCaller := {
  ac_binding : FactoryBinding;
  ac_auth : StorageAuthentication;
}.
Definition authorize_authenticated (self : nat) (default_route : string)
    (caller : AuthenticatedStorageCaller) (scope : StorageScope)
    : M clock StorageAdmissionError AuthorizedStorageGrant :=
  if negb (match ac_binding caller with FB_Broker factory => (factory =? self)%nat | _ => false end)
  then fail SA_InvalidConfiguration
  else authorize default_route (ac_auth caller) scope.
Definition authorize_authenticated_local (self : nat) (default_route : string)
    (caller : AuthenticatedStorageCaller) (scope : StorageScope)
    : M clock StorageAdmissionError AuthorizedStorageGrant :=
  if negb (match ac_binding caller with FB_Local factory => (factory =? self)%nat | _ => false end)
  then fail SA_InvalidConfiguration
  else authorize default_route (ac_auth caller) scope.

(** [PostgresBrokerStorageAuthorizer::authenticate] and [authorize] *)
Definition authenticate_broker (self : nat) (operation_timeout : Z) (verifier : BrokerAccessVerifier)
    (raw : string) (required_scopes : list string) (original : Z)
    : M clock StorageAdmissionError AuthenticatedStorageCaller :=
  let? stop := map_err SA_Control (bounded_deadline original operation_timeout) in
  let? proof := map_err SA_Native (verify_access verifier raw required_scopes stop) in
  let? auth := StorageAuthentication_new (SI_Native proof) stop in
  ret {| ac_binding := FB_Broker self; ac_auth := auth |}.
Definition authorize_broker (self : nat) (operation_timeout : Z) (default_route : string)
    (verifier : BrokerAccessVerifier) (raw : string) (required_scopes : list string)
    (scope : StorageScope) (original : Z) : M clock StorageAdmissionError AuthorizedStorageGrant :=
  let? caller := authenticate_broker self operation_timeout verifier raw required_scopes original in
  authorize_authenticated self default_route caller scope.
(** [PostgresLocalStorageAuthorizer::authenticate] and [authorize] *)
Context (digest : LocalBearerKind → string → option string)
        (read_state : string → LocalBearerKind → Z
                      → M clock LocalBearerStateError (option LocalBearerState)).
Definition authenticate_local (self : nat) (operation_timeout : Z) (audience raw : string)
    (required_scopes : list string) (original : Z)
    : M clock StorageAdmissionError AuthenticatedStorageCaller :=
  let? stop := map_err SA_Control (bounded_deadline original operation_timeout) in
  let? proof := map_err SA_Local
    (verify_local_bearer digest read_state operation_timeout audience raw required_scopes stop) in
  let? auth := StorageAuthentication_new (SI_Local proof) stop in
  ret {| ac_binding := FB_Local self; ac_auth := auth |}.
Definition authorize_local (self : nat) (operation_timeout : Z) (default_route audience raw : string)
    (required_scopes : list string) (scope : StorageScope) (original : Z)
    : M clock StorageAdmissionError AuthorizedStorageGrant :=
  let? caller := authenticate_local self operation_timeout audience raw required_scopes original in
  authorize_authenticated_local self default_route caller scope.
End authorize.

(** ** The meaning of a grant

    Which prefixes the rules of a snapshot give a caller, read off the stored
    rules. *)

(** Path [p] is [root] or lies below it, on a segment boundary. *)
Definition under (p root : string) : Prop := p = root ∨ ∃ rest, p = root +:+ "/" +:+ rest.
Definition storage_selects (identity : StorageIdentity) (project : option string)
    (rule : ResourceGrantRule) : bool :=
  hub_rule_selects rule (Some (principal_storage identity))
  && (bool_decide (gr_projects rule = [])
      || existsb (λ p, str_eqb (trim p) "*" || is_some_and project (λ project, str_eqb (trim p) project))
           (gr_projects rule)).
Definition storage_allows (rule : ResourceGrantRule) (op : StorageOperation) : bool :=
  (any_glob (gr_capabilities rule) "s3"
   || any_glob (gr_capabilities rule) ("s3:" +:+ StorageOperation_name op))
  && (bool_decide (gr_s3_operations rule = [])
      || any_glob (gr_s3_operations rule) (StorageOperation_name op)).
Definition template_of (raw : string) : string := trim_matches "/" (trim raw).
(** A prefix that a list of templates gives inside the roots. *)
Definition prefix_of (identity : StorageIdentity) (project : option string) (roots templates : list string)
    (p : string) : Prop :=
  (templates = [] ∧ p ∈ roots) ∨
  ∃ template candidate root,
    template ∈ templates ∧ render template identity project = Ok (Some candidate) ∧
    root ∈ roots ∧ intersect candidate root = Some p.
Definition rule_route (default_route : string) (rule : ResourceGrantRule) : string :=
  if is_empty (trim (gr_s3_route rule)) then default_route else trim (gr_s3_route rule).
(** A rule that gives [op] on [p]. *)
Definition contributes (identity : StorageIdentity) (scope : StorageScope) (rule : ResourceGrantRule)
    (op : StorageOperation) (p : string) : Prop :=
  storage_selects identity (scope_project_id scope) rule = true ∧ storage_allows rule op = true ∧
  prefix_of identity (scope_project_id scope) (roots sha256 scope identity)
    (template_of <$> gr_s3_prefixes rule) p.
End policy.

(** ** Lemmas: paths *)

Lemma strip_slash a b :
  is_some_and (strip_prefix a b) (λ s, starts_with s "/") = true ↔ ∃ rest, a = b +:+ "/" +:+ rest.
Proof.
  destruct (strip_prefix a b) as [s|] eqn:E; simpl.
  - apply strip_prefix_Some in E as ->. rewrite starts_with_spec. split.
    + intros [r ->]. by exists r.
    + intros [r Hr]. apply str_app_inj_l in Hr. by exists r.
  - split; [done|]. intros [r ->]. by rewrite strip_prefix_app in E.
Qed.
Lemma intersect_Some c r p :
  intersect c r = Some p ↔ (p = c ∧ under c r) ∨ (p = r ∧ under r c ∧ ¬ under c r).
Proof.
  assert (str_eqb c r || is_some_and (strip_prefix c r) (λ s, starts_with s "/") = true ↔ under c r)
    as Hcr by (unfold under; rewrite orb_true_iff, str_eqb_eq, strip_slash; tauto).
  unfold intersect. destruct (_ || _)%bool.
  { split; [intros [= ->]; left; split; [done|by apply Hcr]|]. intros [[-> _]|(_ & _ & Hn)]; [done|].
    exfalso. by apply Hn, Hcr. }
  assert (¬ under c r) as Hn by (rewrite <- Hcr; done).
  pose proof (strip_slash r c) as Hrc. destruct (is_some_and (strip_prefix r c) _).
  - split; [|by intros [[_ ?]|[-> _]]]. intros [= ->]. right. split; [done|]. split; [right; by apply Hrc|done].
  - split; [done|]. intros [[-> ?]|(-> & [->|Hu] & _)]; [done| |].
    + exfalso. apply Hn. by left.
    + apply Hrc in Hu. done.
Qed.
Lemma under_refl p : under p p.
Proof. by left. Qed.
Lemma under_trans p q r : under p q → under q r → under p r.
Proof.
  intros [->|[s ->]] [->|[t ->]]; unfold under; [by left|by right; eauto|by right; eauto|].
  right. exists (t +:+ "/" +:+ s). by rewrite !str_app_assoc.
Qed.
(** Two paths above a common one are comparable. *)
Lemma under_linear p a b : under p a → under p b → under a b ∨ under b a.
Proof.
  assert (∀ a b s t, a +:+ "/" +:+ s = b +:+ "/" +:+ t → under a b ∨ under b a) as Hlin.
  { intros a' b' s t Heq%(f_equal bytes). rewrite !bytes_app in Heq. simpl in Heq.
    assert (∀ x y k l, bytes x = bytes y ++ k → "/"%char :: l = k ++ "/"%char :: bytes s ∨
              "/"%char :: l = k ++ "/"%char :: bytes t → under x y) as Hk.
    { intros x y k l Hx Hl. destruct k as [|c k].
      - left. apply bytes_inj. by rewrite Hx, app_nil_r.
      - assert (c = "/"%char) as -> by (destruct Hl as [Hl|Hl]; by injection Hl).
        right. exists (of_bytes k). apply bytes_inj.
        rewrite !bytes_app, bytes_of_bytes, Hx. done. }
    apply app_eq_app in Heq as (k & [[Ha Hb]|[Ha Hb]]); [left|right]; eauto. }
  intros [->|[s ->]] [Hb|[t Ht]].
  - left. by left.
  - left. right. eauto.
  - right. right. eauto.
  - eauto.
Qed.

(** ** Lemmas: evaluation *)

Section lemmas.
Context `{UlidLib, GlobLib, JwtLib}.
Context (sha256 : string → string).

Lemma rule_prefixes_spec stop identity project roots rule c ps c' :
  rule_prefixes stop identity project roots rule c = (Ok ps, c') →
  ∀ p, p ∈ ps ↔ prefix_of identity project roots (st_templates rule) p.
Proof.
  unfold rule_prefixes. intros Hrun.
  assert (∀ p, p ∈ ps ↔ (st_templates rule = [] ∧ p ∈ roots) ∨
    ∃ template candidate root,
      template ∈ st_templates rule ∧ render template identity project = Ok (Some candidate) ∧
      root ∈ roots ∧ intersect candidate root = Some p) as Hps; [|exact Hps].
  refine (mfor_ok_ind (λ prior ps, ∀ p, p ∈ ps ↔ (st_templates rule = [] ∧ p ∈ roots) ∨
    ∃ template candidate root,
      template ∈ prior ∧ render template identity project = Ok (Some candidate) ∧
      root ∈ roots ∧ intersect candidate root = Some p) _ _ _ _ _ _ Hrun _ _).
  - intros p. case_bool_decide; [rewrite elem_of_bset_extend|]; rewrite elem_of_nil; split.
    + intros [[]|?]; by left.
    + intros [[_ ?]|(t & ? & ? & []%elem_of_nil & _)]. by right.
    + done.
    + intros [[? _]|(t & ? & ? & []%elem_of_nil & _)]. done.
  - intros prior t acc s acc' s' IH Hstep p. unfold add_template in Hstep. invert_run Hstep.
    setoid_rewrite elem_of_app. setoid_rewrite list_elem_of_singleton.
    destruct a0 as [candidate|]; invert_run Hstep.
    + rewrite elem_of_bset_extend, IH, list_elem_of_omap. split.
      * intros [[?|(t' & cd & r & ? & ? & ? & ?)]|(r & ? & ?)];
          [by left|right; exists t', cd, r; auto|right; exists t, candidate, r; auto].
      * intros [?|(t' & cd & r & [?| ->] & Hr & ? & ?)];
          [by left; left|left; right; exists t', cd, r; auto|right].
        rewrite R0 in Hr. simplify_eq. eauto.
    + rewrite IH. split.
      * intros [?|(t' & cd & r & ? & ? & ? & ?)]; [by left|right; exists t', cd, r; auto].
      * intros [?|(t' & cd & r & [?| ->] & Hr & ? & ?)]; [by left|right; exists t', cd, r; auto|].
        rewrite R0 in Hr. by simplify_eq.
Qed.

(** The loop over the matching rules. *)
Definition matched_contributes policy identity project roots (m : nat * list bool * bool)
    (op : StorageOperation) (p : string) : Prop :=
  rule_operations (rule_at policy m.1.1) m.1.2 !! StorageOperation_index op = Some true ∧
  prefix_of identity project roots (st_templates (rule_at policy m.1.1)) p.
Definition matched_route policy default_route (m : nat * list bool * bool) : string :=
  let rule := rule_at policy m.1.1 in
  if is_empty (st_route rule) then default_route else st_route rule.
Record loop_inv policy identity project roots default_route
    (prior : list (nat * list bool * bool)) (acc : option string * list (list string)) : Prop := {
  li_access : ∀ op, ∃ set, acc.2 !! StorageOperation_index op = Some set ∧
    StronglySorted lt_ord set ∧
    ∀ p, p ∈ set ↔ ∃ m, m ∈ prior ∧ matched_contributes policy identity project roots m op p;
  li_route : ∀ m op p, m ∈ prior → matched_contributes policy identity project roots m op p →
    acc.1 = Some (matched_route policy default_route m);
  li_some : acc.1 ≠ None → ∃ m op p, m ∈ prior ∧ matched_contributes policy identity project roots m op p;
}.

Lemma rule_operations_lookup rule caps op :
  rule_operations rule caps !! StorageOperation_index op =
  Some (default false (caps !! StorageOperation_index op)
        && (bool_decide (st_operations rule = [])
            || any_match (st_operations rule) (StorageOperation_name op))).
Proof. by destruct op. Qed.
Lemma rule_operations_exists rule caps :
  existsb id (rule_operations rule caps) = true →
  ∃ op, rule_operations rule caps !! StorageOperation_index op = Some true.
Proof.
  intros (b & Hin & Hb)%existsb_elem. simpl in Hb. destruct b; [|done].
  apply list_elem_of_fmap in Hin as (op & Hb' & _). exists op.
  by rewrite rule_operations_lookup, <- Hb'.
Qed.
Lemma evaluate_rule_inv policy stop identity project roots default_route prior m acc c acc' c' :
  loop_inv policy identity project roots default_route prior acc →
  evaluate_rule policy stop identity project roots default_route acc m c = (Ok acc', c') →
  loop_inv policy identity project roots default_route (prior ++ [m]) acc'.
Proof.
  intros Hinv Hrun. destruct acc as [route access], m as [[index caps] hub].
  unfold evaluate_rule in Hrun. invert_run Hrun.
  assert (∀ acc, (∀ op p, ¬ matched_contributes policy identity project roots (index, caps, hub) op p) →
    loop_inv policy identity project roots default_route prior acc →
    loop_inv policy identity project roots default_route (prior ++ [(index, caps, hub)]) acc) as Hskip.
  { clear. intros acc Hno [Ha Hr Hs]. split.
    - intros op. destruct (Ha op) as (set & Hl & Hsort & Hin). exists set. split; [done|]. split; [done|].
      intros p. rewrite Hin. setoid_rewrite elem_of_app. setoid_rewrite list_elem_of_singleton. naive_solver.
    - intros m op p [Hm| ->%list_elem_of_singleton]%elem_of_app; [by eauto|]. intros []%Hno.
    - intros Hne. destruct (Hs Hne) as (m & op & p & Hm & Hc). exists m, op, p.
      split; [apply elem_of_app; by left|done]. }
  destruct (negb (existsb id _)) eqn:Eop.
  { apply ret_ok in Hrun as [-> _]. apply Hskip; [|done]. intros op p [Hop _]. simpl in Hop.
    apply negb_true_iff, not_true_iff_false in Eop. apply Eop, existsb_elem. exists true.
    split; [by eapply list_elem_of_lookup_2|done]. }
  invert_run Hrun. pose proof (rule_prefixes_spec _ _ _ _ _ _ _ _ R0) as Hps.
  destruct (bool_decide (a0 = [])) eqn:Eps; bool_to_prop.
  { apply ret_ok in Hrun as [-> _]. apply Hskip; [|done]. intros op p [_ Hp]. simpl in Hp.
    apply Hps in Hp. subst. by apply elem_of_nil in Hp. }
  invert_run Hrun. destruct Hinv as [Ha Hr Hs]. simpl in *. split; simpl.
  - intros op. destruct (Ha op) as (set & Hl & Hsort & Hin).
    unfold extend_access. rewrite lookup_zip_with, Hl. simpl.
    destruct (rule_operations (rule_at policy index) caps !! StorageOperation_index op) as [b|] eqn:Hop;
      [|by rewrite rule_operations_lookup in Hop]. simpl.
    exists (if b then bset_extend set a0 else set). split; [done|].
    split; [destruct b; [by apply bset_extend_sorted|done]|].
    intros p. setoid_rewrite elem_of_app. setoid_rewrite list_elem_of_singleton.
    destruct b.
    + rewrite elem_of_bset_extend, Hin, Hps. split.
      * intros [(m & ? & ?)|?]; [by eauto|]. eexists. split; [by right|]. by split.
      * intros (m & [?| ->] & Hm); [by eauto|]. right. apply Hm.
    + rewrite Hin. split; [naive_solver|]. intros (m & [?| ->] & Hm); [by eauto|].
      destruct Hm as [Hm _]. simpl in Hm. congruence.
  - intros m op p [Hm| ->%list_elem_of_singleton]%elem_of_app Hc; [|done].
    specialize (Hr m op p Hm Hc). subst route. simpl in *. bool_to_prop.
    select (str_eqb _ _ = true) (fun Hx => apply str_eqb_eq in Hx; by rewrite <- Hx).
  - intros _. apply rule_operations_exists in Eop as [op Hop].
    destruct a0 as [|p ps]; [done|]. exists (index, caps, hub), op, p.
    split; [apply elem_of_app; right; left|]. split; [done|]. apply Hps. left.
Qed.

(** ** Lemmas: compiled rules *)

Definition storage_rule_of (r : ResourceGrantRule) (st : StorageRule) : Prop :=
  st_route st = trim (gr_s3_route r) ∧ mapM compiled (gr_s3_operations r) = Some (st_operations st) ∧
  st_templates st = template_of <$> gr_s3_prefixes r.
Lemma storage_compile_rule_ok stop r c st c' :
  storage_compile_rule stop r c = (Ok st, c') → storage_rule_of r st.
Proof.
  unfold storage_compile_rule. intros Hrun. invert_run Hrun. split; [done|]. simpl. split.
  - eapply guarded_ok, ok_or_ok in R0; [done|apply guarded_patterns].
  - apply mcollect_ok in R1. induction R1 as [|x y l l' (s2 & s3 & Hx) _ IH]; [done|].
    rewrite fmap_cons, <- IH. f_equal. unfold storage_template in Hx. by invert_run Hx.
Qed.
Lemma storage_compile_ok snapshot stop c policy c' :
  storage_compile snapshot stop c = (Ok policy, c') →
  mapM hub_compile_rule_pure (gs_rules snapshot) = Some (sp_hub policy) ∧
  Forall2 storage_rule_of (gs_rules snapshot) (sp_rules policy).
Proof.
  unfold storage_compile. intros Hrun. invert_run Hrun. simpl. split.
  - eapply guarded_ok, ok_or_ok in R; [done|apply guarded_hub_compile].
  - apply mcollect_ok in R0. eapply Forall2_impl; [exact R0|].
    intros r st (s2 & s3 & Hst). by eapply storage_compile_rule_ok.
Qed.

(** What [storage_rules] makes of one compiled rule. *)
Definition storage_match (identity : StorageIdentity) (project : option string) (index : nat)
    (rule : HubRule) : option (nat * list bool * bool) :=
  if negb (HubSelector_matches (hr_selector rule) (Some (principal_storage identity)))
     || negb (bool_decide (hr_projects rule = [])
              || existsb (λ p, let p := trim p in
                   str_eqb p "*" || is_some_and project (λ project, str_eqb p project))
                 (hr_projects rule))
  then None else
  Some (index,
        (λ op, existsb (λ p, is_match p "s3" || is_match p ("s3:" +:+ StorageOperation_name op))
                 (hr_capabilities rule)) <$> StorageOperation_ALL,
        any_match (hr_capabilities rule) "hub").
Lemma storage_rules_ok policy identity project stop c ms c' :
  storage_rules policy identity project stop c = (Ok ms, c') →
  ms = select_pure (storage_match identity project) 0 policy.
Proof.
  unfold storage_rules. intros Hrun. apply bind_ok in Hrun as (ms' & c1 & R & Hrun).
  invert_run Hrun. eapply guarded_ok in R; [|apply guarded_select_rules]. by injection R as <-.
Qed.
Lemma any_match_or rs a b :
  existsb (λ p, is_match p a || is_match p b) rs = any_match rs a || any_match rs b.
Proof.
  unfold any_match. induction rs as [|r rs IH]; simpl; [done|]. rewrite IH.
  destruct (is_match r a), (is_match r b); simpl; by rewrite ?orb_true_r.
Qed.
(** The capability mask of a stored rule, and its matching entry. *)
Definition rule_caps (rule : ResourceGrantRule) : list bool :=
  (λ op, any_glob (gr_capabilities rule) "s3"
         || any_glob (gr_capabilities rule) ("s3:" +:+ StorageOperation_name op)) <$> StorageOperation_ALL.
Definition match_of (i : nat) (rule : ResourceGrantRule) : nat * list bool * bool :=
  (i, rule_caps rule, any_glob (gr_capabilities rule) "hub").
Lemma storage_match_spec identity project index rule c m :
  hub_compile_rule_pure rule = Some c →
  storage_match identity project index c = Some m ↔
  storage_selects identity project rule = true ∧ m = match_of index rule.
Proof.
  intros (Hp & Hs & Hm)%hub_compile_rule_grants. unfold storage_match, storage_selects.
  rewrite Hp, Hs, <- negb_andb, (any_match_glob _ _ _ Hm). cbv zeta. unfold match_of, rule_caps.
  setoid_rewrite any_match_or. setoid_rewrite (any_match_glob _ _ _ Hm).
  destruct (_ && _); simpl; naive_solver.
Qed.

Section evaluation.
Context (snapshot : ResourceGrantSnapshot) (policy : StoragePolicy) (identity : StorageIdentity)
        (scope : StorageScope).
Context (Hhub : mapM hub_compile_rule_pure (gs_rules snapshot) = Some (sp_hub policy))
        (Hrules : Forall2 storage_rule_of (gs_rules snapshot) (sp_rules policy)).
Let matching := select_pure (storage_match identity (scope_project_id scope)) 0 (sp_hub policy).

Lemma elem_of_matching m :
  m ∈ matching ↔ ∃ i rule c, gs_rules snapshot !! i = Some rule ∧ sp_hub policy !! i = Some c ∧
    hub_compile_rule_pure rule = Some c ∧
    storage_match identity (scope_project_id scope) i c = Some m.
Proof.
  unfold matching. rewrite elem_of_select_pure. simpl. apply mapM_Some in Hhub. split.
  - intros (i & c & Hi & Hm). destruct (Forall2_lookup_r _ _ _ _ _ Hhub Hi) as (rule & Hr & Hc).
    by exists i, rule, c.
  - intros (i & rule & c & _ & Hi & _ & Hm). by exists i, c.
Qed.
Lemma rule_at_lookup i rule :
  gs_rules snapshot !! i = Some rule → storage_rule_of rule (rule_at policy i).
Proof.
  intros Hi. destruct (Forall2_lookup_l _ _ _ _ _ Hrules Hi) as (st & Hst & Hof).
  unfold rule_at. by rewrite Hst.
Qed.
Lemma rule_operations_allows rule st op :
  storage_rule_of rule st →
  rule_operations st (rule_caps rule) !! StorageOperation_index op = Some (storage_allows rule op).
Proof.
  intros (_ & Hop & _). rewrite rule_operations_lookup. unfold storage_allows. f_equal. f_equal.
  { by destruct op. }
  f_equal; [|by apply any_match_glob]. apply bool_decide_ext.
  apply mapM_Some in Hop. split; intros Hnil; rewrite Hnil in Hop; by inversion Hop.
Qed.
Lemma match_of_elem i rule :
  gs_rules snapshot !! i = Some rule →
  storage_selects identity (scope_project_id scope) rule = true → match_of i rule ∈ matching.
Proof.
  intros Hi Hs. pose proof Hhub as Hhub'. apply mapM_Some in Hhub'.
  destruct (Forall2_lookup_l _ _ _ _ _ Hhub' Hi) as (c & Hci & Hc).
  apply elem_of_matching. exists i, rule, c. split; [done|]. split; [done|]. split; [done|].
  by apply (storage_match_spec _ _ _ _ _ _ Hc).
Qed.
Lemma match_of_contributes i rule op p :
  gs_rules snapshot !! i = Some rule →
  storage_selects identity (scope_project_id scope) rule = true →
  matched_contributes policy identity (scope_project_id scope) (roots sha256 scope identity)
    (match_of i rule) op p ↔ contributes sha256 identity scope rule op p.
Proof.
  intros Hi Hs. pose proof (rule_at_lookup i rule Hi) as Hof.
  unfold matched_contributes, contributes, match_of. cbn [fst snd].
  rewrite (rule_operations_allows rule _ op Hof), Hs. destruct Hof as (_ & _ & ->).
  split; [intros [[= ->] ?]; done|intros (_ & -> & ?); done].
Qed.
(** Contributions of the matching compiled rules are contributions of rules. *)
Lemma contributes_matching op p :
  (∃ m, m ∈ matching ∧
     matched_contributes policy identity (scope_project_id scope) (roots sha256 scope identity) m op p) ↔
  ∃ rule, rule ∈ gs_rules snapshot ∧ contributes sha256 identity scope rule op p.
Proof.
  split.
  - intros (m & (i & rule & c & Hi & _ & Hc & Hm)%elem_of_matching & Hmc).
    apply (storage_match_spec _ _ _ _ _ _ Hc) in Hm as [Hs ->].
    exists rule. split; [by eapply list_elem_of_lookup_2|]. by eapply match_of_contributes.
  - intros (rule & [i Hi]%list_elem_of_lookup & Hcon). pose proof (proj1 Hcon) as Hs.
    exists (match_of i rule). split; [by apply match_of_elem|by apply match_of_contributes].
Qed.
End evaluation.

(** A successful evaluation and the rules that contribute to it. *)
Lemma evaluate_ok snapshot policy identity scope default_route stop c r c' :
  mapM hub_compile_rule_pure (gs_rules snapshot) = Some (sp_hub policy) →
  Forall2 storage_rule_of (gs_rules snapshot) (sp_rules policy) →
  evaluate sha256 policy identity scope default_route stop c = (Ok r, c') →
  (is_global_hub scope = true ∧ r = None ∧
   ∀ rule, rule ∈ gs_rules snapshot → storage_selects identity None rule = true →
           any_glob (gr_capabilities rule) "hub" = false) ∨
  ∃ acc, r = (λ route, {| sd_route := route; sd_access := acc.2 |}) <$> acc.1 ∧
    loop_inv policy identity (scope_project_id scope) (roots sha256 scope identity) default_route
      (select_pure (storage_match identity (scope_project_id scope)) 0 (sp_hub policy)) acc.
Proof.
  intros Hhub Hrules Hrun. unfold evaluate in Hrun.
  apply bind_ok in Hrun as (ms & c1 & R%map_err_ok & Hrun). apply storage_rules_ok in R as ->.
  destruct (is_global_hub scope && _) eqn:Eg; bool_to_prop.
  - left. invert_run Hrun. split; [done|]. split; [done|]. intros rule [i Hi]%list_elem_of_lookup Hs.
    apply not_true_iff_false. intros Hg.
    select (existsb snd _ = false) (fun Hx => apply not_true_iff_false in Hx; apply Hx).
    apply existsb_elem. exists (match_of i rule). split; [|done].
    apply (match_of_elem snapshot policy identity scope Hhub); [done|]. by destruct scope.
  - right. apply bind_ok in Hrun as (acc & c2 & R & Hrun).
    destruct acc as [route access]. invert_run Hrun. exists (route, access). split; [done|].
    refine (mfor_ok_ind (loop_inv policy identity (scope_project_id scope)
      (roots sha256 scope identity) default_route) _ _ _ _ _ _ R _ _).
    + split; simpl.
      * intros op. exists []. split; [by destruct op|]. split; [constructor|].
        intros p. rewrite elem_of_nil. split; [done|]. by intros (m & []%elem_of_nil & _).
      * by intros m op p []%elem_of_nil.
      * done.
    + intros ? ? ? ? ? ?. apply evaluate_rule_inv.
Qed.
End lemmas.

(** ** Properties *)

Section properties.
Context `{UlidLib, GlobLib, JwtLib}.
Context (sha256 : string → string).

(** The meet of a granted path and a root: the result lies under both,
    every path under both lies under the result, and when there is no result
    no path lies under both.  Segments are never split, so a sibling such as
    root2 of a root is disjoint from it. *)
Theorem intersect_meet candidate root p :
  under p candidate ∧ under p root ↔ ∃ m, intersect candidate root = Some m ∧ under p m.
Proof.
  split.
  - intros [Hc Hr]. destruct (intersect candidate root) as [m|] eqn:E.
    + exists m. split; [done|]. by apply intersect_Some in E as [[-> _]|(-> & _)].
    + exfalso. destruct (under_linear p candidate root Hc Hr) as [Hu|Hu].
      * by rewrite (proj2 (intersect_Some candidate root candidate) (or_introl (conj eq_refl Hu))) in E.
      * destruct (intersect candidate root) eqn:E2; [done|].
        assert (under candidate root → False) as Hn.
        { intros Hcr. by rewrite (proj2 (intersect_Some candidate root candidate)
            (or_introl (conj eq_refl Hcr))) in E2. }
        by rewrite (proj2 (intersect_Some candidate root root)
          (or_intror (conj eq_refl (conj Hu Hn)))) in E2.
  - intros (m & [[-> Hu]|(-> & Hu & _)]%intersect_Some & Hp).
    + split; [done|]. by eapply under_trans.
    + split; [by eapply under_trans|done].
Qed.

(** The prefixes of a decision are exactly what the stored rules give. *)
Lemma storage_decision_exact snapshot policy identity scope default_route stop c1 c1' c2 c2' d :
  storage_compile snapshot stop c1 = (Ok policy, c1') →
  evaluate sha256 policy identity scope default_route stop c2 = (Ok (Some d), c2') →
  (∀ op, ∃ set, sd_access d !! StorageOperation_index op = Some set ∧ StronglySorted lt_ord set ∧
     ∀ p, p ∈ set ↔
       ∃ rule, rule ∈ gs_rules snapshot ∧ contributes sha256 identity scope rule op p) ∧
  (∀ rule op p, rule ∈ gs_rules snapshot → contributes sha256 identity scope rule op p →
     rule_route default_route rule = sd_route d).
Proof.
  intros [Hhub Hrules]%storage_compile_ok Hev.
  destruct (evaluate_ok sha256 snapshot policy identity scope default_route stop c2 (Some d) c2' Hhub Hrules Hev)
    as [(_ & ? & _)|([route access] & Hd & Hinv)]; [done|]. simpl in Hd.
  destruct route as [route|]; [|done]. injection Hd as ->. simpl. split.
  - intros op. destruct (li_access _ _ _ _ _ _ _ Hinv op) as (set & Hl & Hs & Hin).
    exists set. split; [done|]. split; [done|]. intros p. rewrite Hin.
    by apply contributes_matching.
  - intros rule op p [i Hi]%list_elem_of_lookup Hcon.
    assert (storage_rule_of rule (rule_at policy i)) as (Hroute & _ & _) by (by eapply rule_at_lookup).
    pose proof (li_route _ _ _ _ _ _ _ Hinv (match_of i rule) op p
      (match_of_elem snapshot policy identity scope Hhub i rule Hi (proj1 Hcon))) as Hr.
    specialize (Hr (proj2 (match_of_contributes sha256 snapshot policy identity scope Hrules i rule op p
      Hi (proj1 Hcon)) Hcon)). simpl in Hr. injection Hr as ->.
    unfold matched_route, rule_route. simpl. by rewrite Hroute.
Qed.

Lemma prefix_of_under identity project roots templates p :
  prefix_of identity project roots templates p → ∃ root, root ∈ roots ∧ under p root.
Proof.
  intros [[_ Hp]|(t & cand & root & _ & _ & Hroot & Hi)]; [by exists p; split; [|left]|].
  exists root. split; [done|]. by apply intersect_Some in Hi as [[-> ?]|(-> & _)]; [|left].
Qed.
Lemma sa_check_ok a c c' :
  sa_check a c = (Ok tt, c') →
  (mono_at c (tick c) < sa_end a)%Z ∧ (utc_at c (S (tick c)) < sa_expires_at a)%Z ∧
  (mono_at c (S (S (tick c))) < sa_expires_mono a)%Z.
Proof. unfold sa_check. intros Hrun. invert_run Hrun. bool_to_prop. simpl in *. lia. Qed.

(** C1. An authorized storage grant is exactly what the grant snapshot read
    during the call gives its caller: a prefix is listed for an operation iff
    one rule selects the caller and the project, grants [s3] or [s3:op] and
    allows the operation, and yields the prefix from the scope's roots; every
    prefix lies under a root of the requested scope; all contributing rules
    share the route; and the caller's deadline and both expiries are checked
    last, on the clock the grant is returned at. *)
Theorem authorize_exact read_grants default_route auth scope c g c' :
  authorize sha256 read_grants default_route auth scope c = (Ok g, c') →
  ag_auth g = auth ∧ ag_scope g = scope ∧
  (∃ snapshot cr cr',
    read_grants (sa_end auth) cr = (Ok snapshot, cr') ∧ ag_revision g = gs_revision snapshot ∧
    forallb hub_rule_valid (gs_rules snapshot) = true ∧
    (∀ op p, p ∈ ag_prefixes g op ↔
       ∃ rule, rule ∈ gs_rules snapshot ∧ contributes sha256 (sa_identity auth) scope rule op p) ∧
    (∀ rule op p, rule ∈ gs_rules snapshot →
       contributes sha256 (sa_identity auth) scope rule op p →
       rule_route default_route rule = ag_route g)) ∧
  (∀ op p, p ∈ ag_prefixes g op →
     ∃ root, root ∈ roots sha256 scope (sa_identity auth) ∧ under p root) ∧
  ∃ cf, sa_check auth cf = (Ok tt, c') ∧ (mono_at cf (tick cf) < sa_end auth)%Z ∧
    (utc_at cf (S (tick cf)) < sa_expires_at auth)%Z.
Proof.
  intros Hrun. unfold authorize in Hrun.
  apply bind_ok in Hrun as ([] & c1 & _ & Hrun).
  apply bind_ok in Hrun as (snapshot & c2 & Hread%map_err_ok & Hrun).
  apply bind_ok in Hrun as (rpolicy & c3 & Hcomp & Hrun).
  apply bind_ok in Hrun as ([] & c4 & _ & Hrun).
  apply bind_ok in Hrun as (policy & c5 & [-> ->]%lift_ok & Hrun).
  apply bind_ok in Hrun as (rdec & c6 & Hev & Hrun).
  apply bind_ok in Hrun as ([] & c7 & _ & Hrun).
  apply bind_ok in Hrun as (odec & c8 & [-> ->]%lift_ok & Hrun).
  apply bind_ok in Hrun as (d & c9 & [Hd ->]%lift_ok & Hrun). apply ok_or_ok in Hd as ->.
  apply bind_ok in Hrun as ([] & c10 & Hcheck & [-> ->]%ret_ok). simpl in *.
  unfold outcome in Hcomp, Hev.
  destruct (storage_compile snapshot (sa_end auth) c2) as [r2 c2'] eqn:Ec. simplify_eq.
  destruct (evaluate _ _ _ _ _ _ _) as [r4 c4'] eqn:Ee. simplify_eq.
  destruct (storage_decision_exact _ _ _ _ _ _ _ _ _ _ _ Ec Ee) as [Hacc Hroute].
  assert (∀ op p, p ∈ default [] (sd_access d !! StorageOperation_index op) ↔
    ∃ rule, rule ∈ gs_rules snapshot ∧ contributes sha256 (sa_identity auth) scope rule op p) as Hp.
  { intros op p. destruct (Hacc op) as (set & -> & _ & Hin). apply Hin. }
  split; [done|]. split; [done|]. split; [|split].
  - exists snapshot, c1, c2. split; [done|]. split; [done|]. split; [|done].
    apply storage_compile_ok in Ec as [Hhub _].
    pose proof (compiled_or_invalid _ _ (gs_rules snapshot) hub_compile_rule_valid) as Hv.
    by rewrite Hhub in Hv.
  - intros op p (rule & _ & _ & _ & Hpre)%Hp. by eapply prefix_of_under.
  - eexists. split; [exact Hcheck|]. unfold ag_check in Hcheck. simpl in Hcheck.
    apply sa_check_ok in Hcheck as (? & ? & ?). done.
Qed.

(** A storage request is denied only for want of a rule: when evaluation
    returns no decision, no rule of the snapshot gives the caller any operation
    on any prefix of the scope, or the scope is the global Hub and no rule that
    selects the caller grants [hub]. *)
Theorem storage_denied_exact snapshot policy identity scope default_route stop c1 c1' c2 c2' :
  storage_compile snapshot stop c1 = (Ok policy, c1') →
  evaluate sha256 policy identity scope default_route stop c2 = (Ok None, c2') →
  (∀ rule op p, rule ∈ gs_rules snapshot → ¬ contributes sha256 identity scope rule op p) ∨
  (scope = ScGlobalHub ∧
   ∀ rule, rule ∈ gs_rules snapshot → storage_selects identity None rule = true →
           any_glob (gr_capabilities rule) "hub" = false).
Proof.
  intros [Hhub Hrules]%storage_compile_ok Hev.
  destruct (evaluate_ok sha256 snapshot policy identity scope default_route stop c2 None c2' Hhub Hrules Hev)
    as [(Hg & _ & Hall)|([route access] & Hd & Hinv)].
  - right. split; [by destruct scope|done].
  - left. destruct route as [route|]; [done|]. intros rule op p Hr Hcon.
    assert (∃ rule, rule ∈ gs_rules snapshot ∧ contributes sha256 identity scope rule op p) as He by eauto.
    apply (contributes_matching sha256 snapshot policy identity scope Hhub Hrules) in He as (m & Hm & Hmc).
    by pose proof (li_route _ _ _ _ _ _ _ Hinv m op p Hm Hmc).
Qed.
End properties.

(** ** A concrete policy, for the witnesses *)

(** Globs as literal texts, with [*] alone matching everything. *)
Definition sample_glob_lib : GlobLib :=
  {| regex := string; glob_regex := λ _ p, Some p; regex_new := Some;
     is_match := λ p v, str_eqb p "*" || str_eqb p v |}.
Definition sample_grant : ResourceGrantRule :=
  {| gr_id := "a"; gr_name := "storage"; gr_access_kind := " USER "; gr_principal := "alice";
     gr_s3_route := ""; gr_capabilities := ["hub"; "s3:read"]; gr_projects := [];
     gr_s3_operations := []; gr_s3_prefixes := ["v1/hub"]; gr_created_at := 0; gr_updated_at := 0 |}.
Definition sample_snapshot : ResourceGrantSnapshot :=
  {| gs_revision := 7; gs_updated_at := 0; gs_rules := [sample_grant] |}.
Definition sample_auth : @StorageAuthentication sample_jwt_lib :=
  {| sa_identity := SI_Local sample_proof; sa_end := 1000; sa_expires_at := 100000;
     sa_expires_mono := 95001 |}.
#[local] Existing Instance sample_ulid_lib.
#[local] Existing Instance sample_glob_lib.
#[local] Existing Instance sample_jwt_lib.

Lemma authorize_exact_witness :
  ∃ g c', authorize (λ s, s) (λ _, ret sample_snapshot) "main" sample_auth ScGlobalHub sample_clock
            = (Ok g, c') ∧
    ag_prefixes g OpRead = ["v1/hub/global/registry"; "v1/hub/global/rules"] ∧
    ag_prefixes g OpWrite = [] ∧ ag_route g = "main" ∧
    ∀ op p, p ∈ ag_prefixes g op →
      ∃ root, root ∈ roots (λ s, s) ScGlobalHub (sa_identity sample_auth) ∧ under p root.
Proof.
  eexists _, _. split; [vm_compute; reflexivity|].
  split; [vm_compute; reflexivity|]. split; [vm_compute; reflexivity|]. split; [vm_compute; reflexivity|].
  edestruct (authorize_exact (λ s, s) (λ _, ret sample_snapshot) "main" sample_auth ScGlobalHub
    sample_clock) as (_ & _ & _ & Hu & _); [vm_compute; reflexivity|]. exact Hu.
Defined.
Definition sample_policy : StoragePolicy :=
  match storage_compile sample_snapshot 1000 sample_clock with
  | (Ok policy, _) => policy
  | _ => {| sp_hub := []; sp_rules := [] |}
  end.
Lemma storage_denied_exact_witness :
  fst (storage_compile sample_snapshot 1000 sample_clock) = Ok sample_policy ∧
  ∀ rule op p, rule ∈ gs_rules sample_snapshot →
    ¬ contributes (λ s, s) (sa_identity sample_auth) (ScUserMemory "station") rule op p.
Proof.
  split; [vm_compute; reflexivity|].
  assert (storage_compile sample_snapshot 1000 sample_clock =
          (Ok sample_policy, snd (storage_compile sample_snapshot 1000 sample_clock))) as E1
    by (vm_compute; reflexivity).
  assert (evaluate (λ s, s) sample_policy (sa_identity sample_auth) (ScUserMemory "station") "main"
            1000 sample_clock =
          (Ok None, snd (evaluate (λ s, s) sample_policy (sa_identity sample_auth)
                           (ScUserMemory "station") "main" 1000 sample_clock))) as E2
    by (vm_compute; reflexivity).
  destruct (storage_denied_exact _ _ _ _ _ _ _ _ _ _ _ E1 E2) as [Hno|[Hno _]];
    [exact Hno|discriminate Hno].
Defined.
