(* ===== verification/HubAccess.v ===== *)
(** * Hub access

    crates/broker-control/src/hub_access.rs and service/hub_access.rs: the
    resolution of a caller into project selectors and server-side catalog
    routes, from one read of the grants, under one deadline. *)

From S2P Require Import Prelude RustStr Order Control LocalBearer BrokerAccess.
From S2P Require Import Session Identity InstanceRegistry ResourceGrants.
From S2P Require Import ResourcePolicy StorageAdmission.

Inductive HubAccessError :=
| HA_InvalidPolicy | HA_Authentication (e : BrokerAccessError)
| HA_LocalAuthentication (e : LocalBearerVerificationError)
| HA_Grants (e : ResourceGrantReadError) | HA_Control (e : ControlError).
(** [From<ResourcePolicyError>] *)
Definition HA_from_policy (e : ResourcePolicyError) : HubAccessError :=
  match e with RP_InvalidPolicy => HA_InvalidPolicy | RP_Deadline => HA_Control CE_Deadline end.

Section hub.
Context `{UlidLib, GlobLib, JwtLib}.

Definition HubIdentity_subject (identity : HubIdentity) : string :=
  match identity with
  | HI_Anonymous => "anonymous|anonymous"
  | HI_Broker proof => vb_issuer proof +:+ "|" +:+ vb_subject proof
  | HI_Local proof =>
      let user := current_local_user proof in lu_issuer user +:+ "|" +:+ lu_subject user
  end.
(** [HubIdentity::check] updates a local proof. *)
Definition HubIdentity_check (identity : HubIdentity) : M clock HubAccessError HubIdentity :=
  match identity with
  | HI_Anonymous => ret HI_Anonymous
  | HI_Broker proof => do? map_err HA_Authentication (vb_check proof) in ret (HI_Broker proof)
  | HI_Local proof =>
      let? now := map_err HA_Control now_micros in
      let? proof := map_err HA_LocalAuthentication (vl_finish proof now) in
      ret (HI_Local proof)
  end.

Record HubAccessResolution := {
  ha_authorization_revision : string;
  ha_subject : string;
  ha_selectors : list HubProjectSelector;
  ha_identity : HubIdentity;
  ha_original : Z;
  ha_catalog_routes : list HubCatalogRoute;
}.
Definition ha_set_identity (r : HubAccessResolution) (identity : HubIdentity) : HubAccessResolution :=
  {| ha_authorization_revision := ha_authorization_revision r; ha_subject := ha_subject r;
     ha_selectors := ha_selectors r; ha_identity := identity; ha_original := ha_original r;
     ha_catalog_routes := ha_catalog_routes r |}.
Definition ha_check (r : HubAccessResolution) : M clock HubAccessError HubAccessResolution :=
  do? map_err HA_from_policy (check_deadline (ha_original r)) in
  let? identity := HubIdentity_check (ha_identity r) in
  do? map_err HA_from_policy (check_deadline (ha_original r)) in
  ret (ha_set_identity r identity).
Definition HubAccessResolution_new (identity : HubIdentity) (revision : Z)
    (selectors : list HubProjectSelector) (original : Z) : M clock HubAccessError HubAccessResolution :=
  ha_check {| ha_authorization_revision := print_int revision;
              ha_subject := HubIdentity_subject identity; ha_selectors := selectors;
              ha_identity := identity; ha_original := original; ha_catalog_routes := [] |}.
Definition bind_catalog_routes (r : HubAccessResolution) (routes : list HubCatalogRoute)
    : HubAccessResolution :=
  {| ha_authorization_revision := ha_authorization_revision r; ha_subject := ha_subject r;
     ha_selectors := ha_selectors r; ha_identity := ha_identity r; ha_original := ha_original r;
     ha_catalog_routes := routes |}.

(** ** Catalog routes *)

Definition effective_route (default_route : string) (r : HubCatalogRoute) : string :=
  if is_empty (cr_route r) then default_route else cr_route r.
Definition route_covers (project : string) (r : HubCatalogRoute) : bool :=
  bool_decide (cr_projects r = [])
  || existsb (λ id, str_eqb id "*" || str_eqb id project) (cr_projects r).
Fixpoint select_route (selected : option string) (default_route project : string)
    (rules : list HubCatalogRoute) : result StorageAdmissionError (option string) :=
  match rules with
  | [] => Ok selected
  | rule :: rules =>
      if route_covers project rule then
        let route := effective_route default_route rule in
        if is_some_and selected (λ old, negb (str_eqb old route)) then Err SA_ConflictingRoutes
        else select_route (Some route) default_route project rules
      else select_route selected default_route project rules
  end.
Definition catalog_route (r : HubAccessResolution) (project default_route : string)
    : result StorageAdmissionError (option string) :=
  select_route None default_route project (ha_catalog_routes r).
Definition resolution_routes (r : HubAccessResolution) (default_route : string) : list string :=
  bset_of (effective_route default_route <$> ha_catalog_routes r).
Definition catalog_route_all (r : HubAccessResolution) (route default_route : string) : bool :=
  existsb (λ r, str_eqb (effective_route default_route r) route
                && (bool_decide (cr_projects r = []) || existsb (λ p, str_eqb p "*") (cr_projects r)))
    (ha_catalog_routes r).

(** ** Resolution: service/hub_access.rs *)

Section resolve.
(** The SQL reads and the token digest of the local verifier. *)
Context (read_grants : Z → M clock ResourceGrantReadError ResourceGrantSnapshot)
        (digest : LocalBearerKind → string → option string)
        (read_state : string → LocalBearerKind → Z
                      → M clock LocalBearerStateError (option LocalBearerState)).

(** What both resolvers do once the caller is known. *)
Definition resolve_identity (identity : HubIdentity) (stop : Z)
    : M clock HubAccessError HubAccessResolution :=
  let? snapshot := map_err HA_Grants (read_grants stop) in
  let? policy := map_err HA_from_policy (hub_compile snapshot stop) in
  let? selectors := map_err HA_from_policy (selectors policy identity stop) in
  let? routes := map_err HA_from_policy (catalog_routes policy identity snapshot stop) in
  let? resolution := HubAccessResolution_new identity (gs_revision snapshot) selectors stop in
  ret (bind_catalog_routes resolution routes).
Definition resolve_broker (operation_timeout : Z) (verifier : BrokerAccessVerifier)
    (raw : option string) (original : Z) : M clock HubAccessError HubAccessResolution :=
  let? stop := map_err HA_Control (bounded_deadline original operation_timeout) in
  let? identity :=
    match raw with
    | Some raw =>
        let? proof := map_err HA_Authentication (verify_access verifier raw [] stop) in
        ret (HI_Broker proof)
    | None => ret HI_Anonymous
    end in
  resolve_identity identity stop.
Definition resolve_local (operation_timeout : Z) (audience : string) (raw : option string) (original : Z)
    : M clock HubAccessError HubAccessResolution :=
  let? stop := map_err HA_Control (bounded_deadline original operation_timeout) in
  let? identity :=
    match raw with
    | Some raw =>
        let? proof := map_err HA_LocalAuthentication
          (verify_local_bearer digest read_state operation_timeout audience raw [] stop) in
        ret (HI_Local proof)
    | None => ret HI_Anonymous
    end in
  resolve_identity identity stop.
End resolve.

(** ** Lemmas *)

Lemma select_route_spec selected default_route project rules :
  match select_route selected default_route project rules with
  | Ok None => selected = None ∧ ∀ r, r ∈ rules → route_covers project r = false
  | Ok (Some route) =>
      (∀ old, selected = Some old → old = route) ∧
      (∀ r, r ∈ rules → route_covers project r = true → effective_route default_route r = route) ∧
      (selected = None → ∃ r, r ∈ rules ∧ route_covers project r = true)
  | Err e =>
      e = SA_ConflictingRoutes ∧
      ∃ r, r ∈ rules ∧ route_covers project r = true ∧
        ((∃ old, selected = Some old ∧ old ≠ effective_route default_route r) ∨
         ∃ r', r' ∈ rules ∧ route_covers project r' = true ∧
               effective_route default_route r' ≠ effective_route default_route r)
  end.
Proof.
  revert selected. induction rules as [|rule rules IH]; intros selected; simpl.
  { destruct selected as [old|]; [|split; [done|by intros r ?%elem_of_nil]].
    split; [by intros ? [= ->]|]. split; [by intros r ?%elem_of_nil|done]. }
  destruct (route_covers project rule) eqn:Ec.
  - destruct (is_some_and selected _) eqn:Es.
    + split; [done|]. exists rule. split; [left|]. split; [done|]. left.
      destruct selected as [old|]; [|done]. exists old. split; [done|].
      apply negb_true_iff, str_eqb_neq in Es. done.
    + specialize (IH (Some (effective_route default_route rule))).
      assert (∀ old, selected = Some old → old = effective_route default_route rule) as Hold.
      { intros old ->. simpl in Es. apply negb_false_iff, str_eqb_eq in Es. done. }
      destruct (select_route _ _ _ _) as [[route|]|e].
      * destruct IH as (Hs & Hall & _). specialize (Hs _ eq_refl). subst route. split; [done|].
        split; [|intros _; exists rule; split; [left|done]].
        intros r [->|Hr]%elem_of_cons; [done|by apply Hall].
      * by destruct IH as [? _].
      * destruct IH as (-> & r & Hr & Hc & Hx). split; [done|]. exists r. split; [by right|].
        split; [done|]. right. destruct Hx as [(old & [= <-] & Hne)|(r' & ? & ? & ?)].
        -- exists rule. split; [left|done].
        -- exists r'. split; [by right|done].
  - specialize (IH selected). destruct (select_route _ _ _ _) as [[route|]|e].
    + destruct IH as (Hs & Hall & Hex). split; [done|]. split.
      * intros r [->|Hr]%elem_of_cons; [congruence|by apply Hall].
      * intros Hn. destruct (Hex Hn) as (r & ? & ?). exists r. split; [by right|done].
    + destruct IH as (-> & Hall). split; [done|]. intros r [->|Hr]%elem_of_cons; [done|by apply Hall].
    + destruct IH as (-> & r & Hr & Hc & Hx). split; [done|]. exists r. split; [by right|].
      split; [done|]. destruct Hx as [?|(r' & ? & ? & ?)]; [by left|right].
      exists r'. split; [by right|done].
Qed.

(** The catalog route of a project is unambiguous: a route is returned iff
    some rule covers the project and every covering rule agrees on it, nothing
    iff no rule covers the project, and the conflict error only when two
    covering rules name different routes. *)
Theorem catalog_route_unique r project default_route :
  match catalog_route r project default_route with
  | Ok None => ∀ rule, rule ∈ ha_catalog_routes r → route_covers project rule = false
  | Ok (Some route) =>
      (∃ rule, rule ∈ ha_catalog_routes r ∧ route_covers project rule = true) ∧
      ∀ rule, rule ∈ ha_catalog_routes r → route_covers project rule = true →
              effective_route default_route rule = route
  | Err e =>
      e = SA_ConflictingRoutes ∧
      ∃ a b, a ∈ ha_catalog_routes r ∧ b ∈ ha_catalog_routes r ∧
             route_covers project a = true ∧ route_covers project b = true ∧
             effective_route default_route a ≠ effective_route default_route b
  end.
Proof.
  unfold catalog_route. pose proof (select_route_spec None default_route project (ha_catalog_routes r)) as Hs.
  destruct (select_route _ _ _ _) as [[route|]|e]; [naive_solver..|].
  destruct Hs as (-> & a & Ha & Hc & [(? & ? & _)|(b & Hb & Hcb & Hne)]); [done|].
  split; [done|]. by exists b, a.
Qed.

(** What a resolution made under [stop] for [identity] from [snapshot] holds. *)
Record resolution_of (identity : HubIdentity) (snapshot : ResourceGrantSnapshot) (stop : Z)
    (r : HubAccessResolution) : Prop := {
  ro_policy : forallb hub_rule_valid (gs_rules snapshot) = true;
  ro_revision : ha_authorization_revision r = print_int (gs_revision snapshot);
  ro_subject : ha_subject r = HubIdentity_subject identity;
  ro_deadline : ha_original r = stop;
  ro_selectors : ∃ keys, NoDup keys ∧ ha_selectors r = selector_of <$> keys ∧
    ∀ key, key ∈ keys ↔ ∃ rule, rule ∈ gs_rules snapshot ∧
      hub_rule_selects rule (principal_hub identity) = true ∧
      any_glob (gr_capabilities rule) "hub" = true ∧ key ∈ rule_keys rule;
  ro_routes : ha_catalog_routes r = omap (hub_route (principal_hub identity)) (gs_rules snapshot);
}.
Lemma resolve_identity_ok read_grants identity stop c r c' :
  resolve_identity read_grants identity stop c = (Ok r, c') →
  ∃ snapshot cr, read_grants stop c = (Ok snapshot, cr) ∧ resolution_of identity snapshot stop r.
Proof.
  unfold resolve_identity. intros Hrun.
  apply bind_ok in Hrun as (snapshot & c1 & Hread%map_err_ok & Hrun).
  apply bind_ok in Hrun as (policy & c2 & Hcomp%map_err_ok & Hrun).
  apply bind_ok in Hrun as (sels & c3 & Hsel%map_err_ok & Hrun).
  apply bind_ok in Hrun as (routes & c4 & Hroutes%map_err_ok & Hrun).
  apply bind_ok in Hrun as (res & c5 & Hres & [-> _]%ret_ok).
  exists snapshot, c1. split; [done|].
  unfold HubAccessResolution_new, ha_check in Hres. invert_run Hres. simpl in *.
  destruct (hub_selectors_exact snapshot identity stop) as (keys & Hnd & Hin & Hg).
  assert ((let? policy := hub_compile snapshot stop in selectors policy identity stop) c1 = (Ok sels, c3))
    as Hboth by (unfold bind; by rewrite Hcomp).
  pose proof (guarded_ok _ _ _ _ _ _ _ Hg Hboth) as Hok.
  destruct (forallb hub_rule_valid (gs_rules snapshot)) eqn:Ev; [|done]. injection Hok as <-.
  split; simpl; try done; [by exists keys|].
  pose proof (guarded_ok _ _ _ _ _ _ _ (guarded_hub_compile snapshot stop) Hcomp) as Hm%ok_or_ok.
  by eapply catalog_routes_exact.
Qed.

(** A Hub resolution is exactly what the grants read during the call give
    the caller: the selectors are the projects of the rules that select the
    caller and grant [hub], each once; the routes are those of the same rules
    in order; the identity is the verified token or, without a token,
    anonymous; and its deadline never exceeds the caller's.  A snapshot with
    any invalid rule resolves nothing. *)
Theorem resolve_broker_exact read_grants operation_timeout verifier raw original c r c' :
  resolve_broker read_grants operation_timeout verifier raw original c = (Ok r, c') →
  ∃ identity snapshot stop cr cr',
    (stop ≤ original)%Z ∧ read_grants stop cr = (Ok snapshot, cr') ∧
    match raw with
    | None => identity = HI_Anonymous
    | Some raw => ∃ proof cv cv', identity = HI_Broker proof ∧
                    verify_access verifier raw [] stop cv = (Ok proof, cv')
    end ∧
    resolution_of identity snapshot stop r.
Proof.
  unfold resolve_broker. intros Hrun.
  apply bind_ok in Hrun as (stop & c1 & Hstop%map_err_ok & Hrun).
  apply bind_ok in Hrun as (identity & c2 & Hid & Hrun).
  apply resolve_identity_ok in Hrun as (snapshot & cr & Hread & Hres).
  exists identity, snapshot, stop, c2, cr. split.
  { unfold bounded_deadline in Hstop. invert_run Hstop. subst. lia. }
  split; [done|]. split; [|done]. destruct raw as [raw|].
  - invert_run Hid. by eauto.
  - by apply ret_ok in Hid as [-> _].
Qed.
End hub.

#[local] Existing Instance sample_ulid_lib.
#[local] Existing Instance sample_jwt_lib.
(** One rule that gives every caller the Hub on one project. *)
Definition sample_hub_glob : GlobLib :=
  {| regex := string; glob_regex := λ _ p, Some p; regex_new := Some; is_match := str_eqb |}.
#[local] Existing Instance sample_hub_glob.
Definition sample_hub_snapshot : ResourceGrantSnapshot :=
  {| gs_revision := 3; gs_updated_at := 0;
     gs_rules := [{| gr_id := "a"; gr_name := ""; gr_access_kind := "global"; gr_principal := "";
                     gr_s3_route := " east "; gr_capabilities := ["hub"];
                     gr_projects := [sample_project]; gr_s3_operations := []; gr_s3_prefixes := [];
                     gr_created_at := 0; gr_updated_at := 0 |}] |}.
Lemma resolve_broker_exact_witness :
  ∃ r c', resolve_broker (λ _, ret sample_hub_snapshot) 1000 sample_verifier None 500 sample_clock
            = (Ok r, c') ∧
    ha_selectors r = [HubProjectSelector_project sample_project] ∧
    catalog_route r sample_project "main" = Ok (Some "east") ∧
    ∃ identity snapshot stop, (stop ≤ 500)%Z ∧ resolution_of identity snapshot stop r.
Proof.
  eexists _, _. split; [vm_compute; reflexivity|]. split; [vm_compute; reflexivity|].
  split; [vm_compute; reflexivity|].
  edestruct (resolve_broker_exact (λ _, ret sample_hub_snapshot) 1000 sample_verifier None 500
    sample_clock) as (id & sn & st & _ & _ & Hst & _ & _ & Hres); [vm_compute; reflexivity|].
  exists id, sn, st. split; [exact Hst|exact Hres].
Defined.
