(* ===== verification/InferenceAdmission.v ===== *)
(** * Inference admission

    crates/broker-control/src/embedding_admission.rs, rerank_admission.rs and
    service/embedding_admission.rs: one fresh capability observation per
    request, over a retained proof of authentication. *)

From S2P Require Import Prelude RustStr Order Control LocalBearer BrokerAccess.
From S2P Require Import Session Identity InstanceRegistry ResourceGrants.
From S2P Require Import ResourcePolicy StorageAdmission.

Record EmbeddingAdmissionLimits := { el_identity_json_bytes : Z; el_grants_json_bytes : Z }.
Definition EmbeddingAdmissionLimits_validate (l : EmbeddingAdmissionLimits) (audience : string)
    (scopes : list string) : result ControlError unit :=
  if is_empty (trim audience) || existsb (λ s, is_empty (trim s)) scopes then Err CE_Configuration else
  do! rcollect (λ cap,
        if (I64_MAX <? cap)%Z then Err CE_Configuration else
        match checked_add_usize cap 1 with
        | Some v => if (v <=? ISIZE_MAX)%Z then Ok tt else Err CE_Configuration
        | None => Err CE_Configuration
        end) [el_identity_json_bytes l; el_grants_json_bytes l] in
  Ok tt.

Inductive EmbeddingAdmissionError :=
| EA_Authentication (e : BrokerAccessError) | EA_LocalAuthentication (e : LocalBearerVerificationError)
| EA_Upstream (e : AdminBrokerSessionError) | EA_Grants (e : ResourceGrantReadError)
| EA_Control (e : ControlError) | EA_InvalidPolicy | EA_Forbidden.
Definition EA_from_policy (e : ResourcePolicyError) : EmbeddingAdmissionError :=
  match e with RP_InvalidPolicy => EA_InvalidPolicy | RP_Deadline => EA_Control CE_Deadline end.
Inductive RerankAdmissionError :=
| RA_Authentication (e : BrokerAccessError) | RA_LocalAuthentication (e : LocalBearerVerificationError)
| RA_Upstream (e : AdminBrokerSessionError) | RA_Grants (e : ResourceGrantReadError)
| RA_Control (e : ControlError) | RA_InvalidPolicy | RA_Forbidden.
Definition RA_from_embedding (e : EmbeddingAdmissionError) : RerankAdmissionError :=
  match e with
  | EA_Authentication e => RA_Authentication e
  | EA_LocalAuthentication e => RA_LocalAuthentication e
  | EA_Upstream e => RA_Upstream e
  | EA_Grants e => RA_Grants e
  | EA_Control e => RA_Control e
  | EA_InvalidPolicy => RA_InvalidPolicy
  | EA_Forbidden => RA_Forbidden
  end.
Definition RA_from_policy (e : ResourcePolicyError) : RerankAdmissionError :=
  match e with RP_InvalidPolicy => RA_InvalidPolicy | RP_Deadline => RA_Control CE_Deadline end.

Section inference.
Context `{UlidLib, GlobLib, JwtLib}.

(** ** The retained identity *)

Definition EmbeddingIdentity_deadline (identity : EmbeddingIdentity) (original : Z) : Z :=
  match identity with
  | EI_Anonymous => original
  | EI_Broker proof => Z.min original (vb_authentication_expiry proof).2
  | EI_Local proof => Z.min original (vl_authentication_expiry proof).2
  | EI_Upstream proof => Z.min original (vu_expires_mono proof)
  end.
(** The denial at the authentication cutoff.  An anonymous caller has no
    cutoff before [original], so its case is never used. *)
Definition cutoff_error (identity : EmbeddingIdentity) : EmbeddingAdmissionError :=
  match identity with
  | EI_Anonymous => EA_Control CE_Deadline
  | EI_Broker _ => EA_Authentication BA_Expired
  | EI_Local _ => EA_LocalAuthentication LBV_Unauthenticated
  | EI_Upstream _ => EA_Upstream (AB_Authentication BA_Expired)
  end.
Definition EmbeddingIdentity_check (identity : EmbeddingIdentity) (original : Z)
    : M clock EmbeddingAdmissionError EmbeddingIdentity :=
  let cutoff := EmbeddingIdentity_deadline identity original in
  do? (if (cutoff <? original)%Z then
         let? now := instant_now in
         if (cutoff <=? now)%Z then fail (cutoff_error identity) else ret tt
       else ret tt) in
  do? map_err EA_from_policy (check_deadline original) in
  match identity with
  | EI_Anonymous => ret EI_Anonymous
  | EI_Broker proof => do? map_err EA_Authentication (vb_check proof) in ret (EI_Broker proof)
  | EI_Local proof =>
      let? now := map_err EA_Control now_micros in
      let? proof := map_err EA_LocalAuthentication (vl_finish proof now) in
      ret (EI_Local proof)
  | EI_Upstream proof => do? map_err EA_Upstream (vu_check proof) in ret (EI_Upstream proof)
  end.

(** ** Admissions *)

Record EmbeddingAdmission := {
  em_identity : EmbeddingIdentity;
  em_original : Z;
  em_authorization_revision : Z;
}.
Definition em_check (a : EmbeddingAdmission) : M clock EmbeddingAdmissionError EmbeddingAdmission :=
  let? identity := EmbeddingIdentity_check (em_identity a) (em_original a) in
  do? map_err EA_from_policy (check_deadline (em_original a)) in
  ret {| em_identity := identity; em_original := em_original a;
         em_authorization_revision := em_authorization_revision a |}.
Definition admit_embeddings (identity : EmbeddingIdentity)
    (observation : result ResourceGrantReadError ResourceGrantSnapshot) (original : Z)
    : M clock EmbeddingAdmissionError EmbeddingAdmission :=
  match observation with
  | Err (RG_Control CE_Deadline) =>
      do? EmbeddingIdentity_check identity original in
      fail (EA_Grants (RG_Control CE_Deadline))
  | Err error => fail (EA_Grants error)
  | Ok snapshot =>
      let? identity := EmbeddingIdentity_check identity original in
      let? policy := map_err EA_from_policy (hub_compile snapshot original) in
      let? allowed := map_err EA_from_policy (allows_inference policy identity "embeddings" original) in
      if negb allowed then fail EA_Forbidden else
      em_check {| em_identity := identity; em_original := original;
                  em_authorization_revision := gs_revision snapshot |}
  end.

(** The message hashed into the cache scope of a caller. *)
Fixpoint le_bytes (n : nat) (v : Z) : list ascii :=
  match n with
  | O => []
  | S n => ascii_of_N (Z.to_N (v mod 256)) :: le_bytes n (v / 256)
  end.
Definition le_frame (field : string) : list ascii := le_bytes 8 (len field) ++ bytes field.
Definition cache_scope_preimage (principal : option Principal) : string :=
  "graphit-rerank-principal-v1" +:+
  of_bytes match principal with
           | None => ["000"%char]
           | Some p =>
               "001"%char :: le_frame (pr_issuer p) ++ le_frame (pr_subject p)
                 ++ le_frame (default "" (pr_organization p))
           end.
Section rerank.
Context (sha256 : string → string).
Definition inference_cache_scope (identity : EmbeddingIdentity) : string :=
  sha256 (cache_scope_preimage (principal_inference identity)).

Record RerankAdmission := {
  ra_identity : EmbeddingIdentity;
  ra_original : Z;
  ra_authorization_revision : Z;
  ra_cache_scope : string;
}.
Definition ra_check (a : RerankAdmission) : M clock RerankAdmissionError RerankAdmission :=
  let? identity := map_err RA_from_embedding (EmbeddingIdentity_check (ra_identity a) (ra_original a)) in
  do? map_err RA_from_policy (check_deadline (ra_original a)) in
  ret {| ra_identity := identity; ra_original := ra_original a;
         ra_authorization_revision := ra_authorization_revision a; ra_cache_scope := ra_cache_scope a |}.
Definition admit_rerank (identity : EmbeddingIdentity)
    (observation : result ResourceGrantReadError ResourceGrantSnapshot) (original : Z)
    : M clock RerankAdmissionError RerankAdmission :=
  match observation with
  | Err (RG_Control CE_Deadline) =>
      do? map_err RA_from_embedding (EmbeddingIdentity_check identity original) in
      fail (RA_Grants (RG_Control CE_Deadline))
  | Err error => fail (RA_Grants error)
  | Ok snapshot =>
      let? identity := map_err RA_from_embedding (EmbeddingIdentity_check identity original) in
      let? policy := map_err RA_from_policy (hub_compile snapshot original) in
      let? allowed := map_err RA_from_policy (allows_inference policy identity "rerank" original) in
      if negb allowed then fail RA_Forbidden else
      let cache_scope := inference_cache_scope identity in
      ra_check {| ra_identity := identity; ra_original := original;
                  ra_authorization_revision := gs_revision snapshot; ra_cache_scope := cache_scope |}
  end.
End rerank.

(** ** Authentication and authorization *)

(** The upstream OIDC verifier (upstream_oidc.rs): whether a bearer is the
    broker's own, and its verification with the provider's keys. *)
Record UpstreamBearerVerifier := {
  selects_native : string → Z → M clock AdminBrokerSessionError bool;
  upstream_verify : string → Z → M clock AdminBrokerSessionError VerifiedUpstreamBearer;
}.
Definition authenticate_nonlocal (native : BrokerAccessVerifier)
    (upstream : option UpstreamBearerVerifier) (raw : option string) (scopes : list string)
    (original : Z) : M clock EmbeddingAdmissionError EmbeddingIdentity :=
  do? map_err EA_from_policy (check_deadline original) in
  match raw with
  | None => ret EI_Anonymous
  | Some raw =>
      let native_verify :=
        let? proof := map_err EA_Authentication (verify_access native raw scopes original) in
        ret (EI_Broker proof) in
      match upstream with
      | Some verifier =>
          let? own := map_err EA_Upstream (selects_native verifier raw original) in
          if negb own then
            let? proof := map_err EA_Upstream (upstream_verify verifier raw original) in
            ret (EI_Upstream proof)
          else native_verify
      | None => native_verify
      end
  end.

Section authorize.
Context (read_grants : Z → M clock ResourceGrantReadError ResourceGrantSnapshot)
        (digest : LocalBearerKind → string → option string)
        (read_state : string → LocalBearerKind → Z
                      → M clock LocalBearerStateError (option LocalBearerState)).
Definition authorize_embeddings (operation_timeout : Z) (native : BrokerAccessVerifier)
    (upstream : option UpstreamBearerVerifier) (audience : string) (scopes : list string)
    (raw : option string) (original : Z) : M clock EmbeddingAdmissionError EmbeddingAdmission :=
  let? identity :=
    match raw ≫= λ raw, (λ _, raw) <$> bearer_kind raw with
    | Some raw =>
        let? proof := map_err EA_LocalAuthentication
          (verify_local_bearer digest read_state operation_timeout audience raw scopes original) in
        ret (EI_Local proof)
    | None => authenticate_nonlocal native upstream raw scopes original
    end in
  let wait := EmbeddingIdentity_deadline identity original in
  let? snapshot := outcome (read_grants wait) in
  admit_embeddings identity snapshot original.
End authorize.

(** ** Lemmas *)

(** A check keeps what the identity authenticates. *)
Lemma EmbeddingIdentity_check_ok identity original c identity' c' :
  EmbeddingIdentity_check identity original c = (Ok identity', c') →
  principal_inference identity' = principal_inference identity ∧
  EmbeddingIdentity_deadline identity' original = EmbeddingIdentity_deadline identity original.
Proof.
  unfold EmbeddingIdentity_check. intros Hrun. apply bind_ok in Hrun as (_ & c1 & _ & Hrun).
  apply bind_ok in Hrun as (_ & c2 & _ & Hrun).
  destruct identity as [|proof|proof|proof]; invert_run Hrun; try done.
  select (vl_finish _ _ _ = _) (fun Hf => apply vl_finish_ok in Hf as (-> & _)). done.
Qed.

(** The decision of a snapshot on an inference capability. *)
Definition inference_allowed (snapshot : ResourceGrantSnapshot) (user : option Principal)
    (capability : string) : bool :=
  existsb (λ rule, hub_rule_selects rule user && any_glob (gr_capabilities rule) capability)
    (gs_rules snapshot).
Lemma compile_allows_ok snapshot identity capability stop c1 policy c2 allowed c3 :
  hub_compile snapshot stop c1 = (Ok policy, c2) →
  allows_inference policy identity capability stop c2 = (Ok allowed, c3) →
  forallb hub_rule_valid (gs_rules snapshot) = true ∧
  allowed = inference_allowed snapshot (principal_inference identity) capability.
Proof.
  intros Hc Ha.
  assert ((let? policy := hub_compile snapshot stop in allows_inference policy identity capability stop) c1
          = (Ok allowed, c3)) as Hboth by (unfold bind; by rewrite Hc).
  assert (guarded stop RP_Deadline
    (let? policy := hub_compile snapshot stop in allows_inference policy identity capability stop)
    (if forallb hub_rule_valid (gs_rules snapshot)
     then Ok (inference_allowed snapshot (principal_inference identity) capability)
     else Err RP_InvalidPolicy)) as Hg.
  { eapply guarded_decision; [apply guarded_hub_compile|apply hub_compile_rule_valid|].
    intros rule cr (Hp & Hs & Hm)%hub_compile_rule_grants. simpl. by rewrite Hs, (any_match_glob _ _ _ Hm). }
  pose proof (guarded_ok _ _ _ _ _ _ _ Hg Hboth) as Hok.
  destruct (forallb _ _); [|done]. by injection Hok as <-.
Qed.
Lemma hub_compile_invalid snapshot stop c c' :
  hub_compile snapshot stop c = (Err RP_InvalidPolicy, c') →
  forallb hub_rule_valid (gs_rules snapshot) = false.
Proof.
  intros Hc. destruct (guarded_hub_compile snapshot stop _ _ _ Hc) as [_ [[_ Hx]|[_ ?]]]; [|done].
  pose proof (compiled_or_invalid _ _ (gs_rules snapshot) hub_compile_rule_valid) as Hv.
  by destruct (mapM _ _).
Qed.
Lemma em_check_ok a c a' c' :
  em_check a c = (Ok a', c') →
  principal_inference (em_identity a') = principal_inference (em_identity a) ∧
  em_original a' = em_original a ∧ em_authorization_revision a' = em_authorization_revision a ∧
  EmbeddingIdentity_deadline (em_identity a') (em_original a')
    = EmbeddingIdentity_deadline (em_identity a) (em_original a) ∧
  ∃ cf, check_deadline (em_original a) cf = (Ok tt, c').
Proof.
  unfold em_check. intros Hrun. invert_run Hrun. simpl.
  apply EmbeddingIdentity_check_ok in R as [Hp Hd]. destruct a1. by eauto 10.
Qed.
Lemma inference_no_invalid policy identity capability stop c c' :
  allows_inference policy identity capability stop c ≠ (Err RP_InvalidPolicy, c').
Proof. intros Hr. by destruct (guarded_any_rule _ _ _ _ _ _ Hr) as [_ [[_ ?]|[_ ?]]]. Qed.
(** The checks never report a policy error. *)
Lemma EmbeddingIdentity_check_no_policy identity original c e c' :
  EmbeddingIdentity_check identity original c = (Err e, c') → e ≠ EA_Forbidden ∧ e ≠ EA_InvalidPolicy.
Proof.
  unfold EmbeddingIdentity_check, check_deadline, vl_finish, vb_check, vu_check, ba_check_deadline,
    vu_deadline, now_micros, map_err, lift_result, bind, instant_now, system_now, fail, ret. simpl.
  intros Hrun. destruct identity; simpl in Hrun; repeat case_hyp Hrun; simplify_eq; done.
Qed.

(** ** Properties *)

(** An embedding admission is granted exactly on the snapshot observed:
    success implies a valid policy in which one rule selects the caller and
    grants [embeddings], keeps the authenticated principal, the deadline and
    the revision, and ends with a passed deadline check; [Forbidden] implies
    that no rule of a valid policy grants it; [InvalidPolicy] that some rule
    is invalid. *)
Theorem admit_exact identity snapshot original c x c' :
  admit_embeddings identity (Ok snapshot) original c = (x, c') →
  match x with
  | Ok a =>
      forallb hub_rule_valid (gs_rules snapshot) = true ∧
      inference_allowed snapshot (principal_inference identity) "embeddings" = true ∧
      principal_inference (em_identity a) = principal_inference identity ∧
      em_original a = original ∧ em_authorization_revision a = gs_revision snapshot ∧
      EmbeddingIdentity_deadline (em_identity a) original = EmbeddingIdentity_deadline identity original ∧
      ∃ cf, (mono_at cf (tick cf) < original)%Z ∧ c' = advance cf
  | Err EA_Forbidden =>
      forallb hub_rule_valid (gs_rules snapshot) = true ∧
      inference_allowed snapshot (principal_inference identity) "embeddings" = false
  | Err EA_InvalidPolicy => forallb hub_rule_valid (gs_rules snapshot) = false
  | Err _ => True
  end.
Proof.
  unfold admit_embeddings. intros Hrun. unfold bind in Hrun at 1.
  destruct (EmbeddingIdentity_check identity original c) as [[id'|e] c1] eqn:E1.
  2: { simplify_eq. apply EmbeddingIdentity_check_no_policy in E1 as [? ?]. destruct e; congruence || done. }
  apply EmbeddingIdentity_check_ok in E1 as [Hpr Hdl].
  unfold bind in Hrun at 1. unfold map_err in Hrun at 1.
  destruct (hub_compile snapshot original c1) as [[policy|[]] c2] eqn:E2; simplify_eq/=; [|by eapply hub_compile_invalid|done].
  unfold bind in Hrun at 1. unfold map_err in Hrun at 1.
  destruct (allows_inference policy id' "embeddings" original c2) as [[allowed|[]] c3] eqn:E3;
    simplify_eq/=; [|by apply inference_no_invalid in E3|done].
  destruct (compile_allows_ok _ _ _ _ _ _ _ _ _ E2 E3) as [Hv Hal]. rewrite Hpr in Hal.
  destruct allowed; simpl in Hrun; [|by injection Hrun as <- <-].
  destruct x as [a|e].
  - apply em_check_ok in Hrun as (Hp' & Ho & Hr & Hd & cf & Hcf). simpl in *. subst original.
    apply check_deadline_ok in Hcf as [? ->]. rewrite Hp', Hd. by eauto 10.
  - unfold em_check, bind in Hrun.
    destruct (EmbeddingIdentity_check _ _ _) as [[id2|e2] c4] eqn:E4; simpl in Hrun.
    + unfold map_err, check_deadline, bind, instant_now, fail, ret in Hrun. simpl in Hrun.
      destruct (_ <=? _)%Z; by simplify_eq/=.
    + simplify_eq. apply EmbeddingIdentity_check_no_policy in E4 as [? ?]. destruct e; congruence || done.
Qed.

(** A failed read of the grants is reported as it is: any error but the
    deadline is returned unchanged and without consulting the clock, so an
    uncertain commit is never masked by a proof that expires later, for
    embeddings and for reranking. *)
Theorem admit_keeps_read_error sha256 identity error original c :
  error ≠ RG_Control CE_Deadline →
  admit_embeddings identity (Err error) original c = (Err (EA_Grants error), c) ∧
  admit_rerank sha256 identity (Err error) original c = (Err (RA_Grants error), c).
Proof. intros Hne. unfold admit_embeddings, admit_rerank. by destruct error as [| | |[]]. Qed.

(** ** The cache scope *)

Definition scope_key (p : option Principal) : option (string * string * string) :=
  (λ p, (pr_issuer p, pr_subject p, default "" (pr_organization p))) <$> p.
Definition key_fits (k : option (string * string * string)) : Prop :=
  match k with
  | None => True
  | Some (i, s, o) => (len i ≤ U64_MAX)%Z ∧ (len s ≤ U64_MAX)%Z ∧ (len o ≤ U64_MAX)%Z
  end.
Lemma length_le_bytes n v : length (le_bytes n v) = n.
Proof. revert v. induction n as [|n IH]; intros v; simpl; [done|]. by rewrite IH. Qed.
Lemma le_bytes_inj n v w :
  (0 ≤ v < 256 ^ Z.of_nat n)%Z → (0 ≤ w < 256 ^ Z.of_nat n)%Z → le_bytes n v = le_bytes n w → v = w.
Proof.
  revert v w. induction n as [|n IH]; intros v w Hv Hw Heq; [simpl in *; lia|].
  rewrite Nat2Z.inj_succ, Z.pow_succ_r in Hv, Hw by lia. cbn [le_bytes] in Heq.
  injection Heq as Hr%(f_equal N_of_ascii) Hq.
  assert (v / 256 = w / 256)%Z.
  { apply IH; [| |done].
    - split; [apply Z.div_pos; lia|apply Z.div_lt_upper_bound; lia].
    - split; [apply Z.div_pos; lia|apply Z.div_lt_upper_bound; lia]. }
  pose proof (Z.mod_pos_bound v 256 ltac:(lia)). pose proof (Z.mod_pos_bound w 256 ltac:(lia)).
  rewrite !N_ascii_embedding in Hr by lia.
  rewrite (Z.div_mod v 256), (Z.div_mod w 256) by lia. lia.
Qed.
Lemma le_frame_inj a b x y :
  (len a ≤ U64_MAX)%Z → (len b ≤ U64_MAX)%Z →
  le_frame a ++ x = le_frame b ++ y → a = b ∧ x = y.
Proof.
  intros Ha Hb Heq. unfold le_frame in Heq. rewrite <- !(assoc_L (++)) in Heq.
  apply app_inj_1 in Heq as [Hl Heq]; [|by rewrite !length_le_bytes].
  assert (U64_MAX < 256 ^ Z.of_nat 8)%Z by done.
  assert (0 ≤ len a ∧ 0 ≤ len b)%Z by (unfold len; lia).
  apply le_bytes_inj in Hl; [|lia..]. unfold len in Hl.
  apply app_inj_1 in Heq as [Heq ->]; [|rewrite !length_bytes; lia].
  apply bytes_inj in Heq. done.
Qed.

(** The cache scope of a caller is the hash of an injective encoding of
    its issuer, subject and organization (an absent organization counts as the
    empty one), and an anonymous caller shares it with no authenticated one. *)
Theorem cache_scope_preimage_inj p q :
  key_fits (scope_key p) → key_fits (scope_key q) →
  cache_scope_preimage p = cache_scope_preimage q ↔ scope_key p = scope_key q.
Proof.
  intros Hp Hq. split.
  - intros Heq. unfold cache_scope_preimage in Heq.
    apply str_app_inj_l, (f_equal bytes) in Heq. rewrite !bytes_of_bytes in Heq.
    destruct p as [p|], q as [q|]; simpl in *; [|done..].
    apply (f_equal tail) in Heq. cbn [tail] in Heq. destruct Hp as (? & ? & ?), Hq as (? & ? & ?).
    apply le_frame_inj in Heq as [-> Heq]; [|done..].
    apply le_frame_inj in Heq as [-> Heq]; [|done..].
    rewrite <- (app_nil_r (le_frame (default "" (pr_organization p)))),
      <- (app_nil_r (le_frame (default "" (pr_organization q)))) in Heq.
    by apply le_frame_inj in Heq as [-> _].
  - unfold cache_scope_preimage, scope_key. destruct p, q; simpl; try done. by intros [= -> -> ->].
Qed.
End inference.

#[local] Existing Instance sample_ulid_lib.
#[local] Existing Instance sample_jwt_lib.
Definition sample_inference_glob : GlobLib :=
  {| regex := string; glob_regex := λ _ p, Some p; regex_new := Some; is_match := str_eqb |}.
#[local] Existing Instance sample_inference_glob.
Definition sample_inference_snapshot : ResourceGrantSnapshot :=
  {| gs_revision := 4; gs_updated_at := 0;
     gs_rules := [{| gr_id := "a"; gr_name := ""; gr_access_kind := "authenticated"; gr_principal := "";
                     gr_s3_route := ""; gr_capabilities := ["embeddings"]; gr_projects := [];
                     gr_s3_operations := []; gr_s3_prefixes := []; gr_created_at := 0;
                     gr_updated_at := 0 |}] |}.
Lemma admit_exact_witness :
  (∃ a c', admit_embeddings (EI_Local sample_proof) (Ok sample_inference_snapshot) 500 sample_clock = (Ok a, c') ∧
     em_original a = 500%Z) ∧
  inference_allowed sample_inference_snapshot None "embeddings" = false.
Proof.
  split.
  - destruct (admit_embeddings (EI_Local sample_proof) (Ok sample_inference_snapshot) 500 sample_clock)
      as [[a|e] c'] eqn:E; [|vm_compute in E; discriminate E].
    exists a, c'. split; [done|]. by destruct (admit_exact _ _ _ _ _ _ E) as (_ & _ & _ & Ho & _).
  - destruct (admit_embeddings EI_Anonymous (Ok sample_inference_snapshot) 500 sample_clock) as [x c'] eqn:E.
    pose proof (admit_exact _ _ _ _ _ _ E) as Ha.
    assert (x = Err EA_Forbidden) as -> by (apply (f_equal fst) in E; vm_compute in E; by symmetry). apply Ha.
Defined.
Lemma admit_keeps_read_error_witness :
  admit_embeddings (EI_Local sample_proof) (Err (RG_Control CE_OutcomeUncertain)) (-1) sample_clock
  = (Err (EA_Grants (RG_Control CE_OutcomeUncertain)), sample_clock).
Proof.
  by destruct (admit_keeps_read_error (λ s, s) (EI_Local sample_proof) (RG_Control CE_OutcomeUncertain)
    (-1) sample_clock ltac:(done)) as [Ha _].
Defined.
Lemma cache_scope_preimage_inj_witness :
  cache_scope_preimage (Some (principal_local sample_user)) ≠ cache_scope_preimage None.
Proof.
  intros Heq.
  apply (cache_scope_preimage_inj (Some (principal_local sample_user)) None) in Heq; [done| |done].
  by vm_compute.
Defined.
