(* ===== verification/PasswordAdmission.v ===== *)
(** * Password admission

    crates/broker-control/src/local_password_admission.rs: the shared, bounded
    admission of password work.  Every operation runs under the mutex of the
    state, so the concurrent behaviour is the interleaving of the operations
    below; a lease is live from its admission until it is dropped. *)

From stdpp Require Import gmap.
From S2P Require Import Prelude RustStr Order Control.

Definition TRACKED_USERNAMES : nat := 4096.
(** [tokio::sync::Semaphore::MAX_PERMITS] *)
Definition MAX_PERMITS : Z := 2 ^ 61 - 1.

Record LocalPasswordAdmissionPolicy := {
  pp_max_failures : Z;
  pp_window : Z;
  pp_lockout : Z;
  pp_workers : Z;
  pp_saturation_multiplier : Z;
  pp_max_tracked : Z;
}.
(** The largest [Duration], in nanoseconds. *)
Definition DURATION_MAX : Z := U64_MAX * NANOS + 999999999.
Definition checked_add_duration (a b : Z) : option Z :=
  if (a + b <=? DURATION_MAX)%Z then Some (a + b)%Z else None.
Definition LocalPasswordAdmissionPolicy_validate (p : LocalPasswordAdmissionPolicy) (now : Z)
    : result ControlError unit :=
  let! capacity := ok_or (checked_mul_usize (pp_workers p) (pp_saturation_multiplier p)) CE_Configuration in
  if (MAX_PERMITS <? capacity)%Z || (pp_window p =? 0)%Z || (pp_lockout p =? 0)%Z
     || negb (pp_max_tracked p =? Z.of_nat TRACKED_USERNAMES)%Z
     || bool_decide (checked_add_time now (pp_window p) = None)
     || bool_decide (checked_add_time now (pp_lockout p) = None)
     || bool_decide (checked_add_duration (pp_window p) (pp_lockout p) = None)
  then Err CE_Configuration else Ok tt.

Inductive LocalPasswordAdmissionError :=
| PA_RateLimited (d : Z) | PA_Capacity | PA_Control (e : ControlError).

Record Attempt := {
  at_window_start : Z;
  at_failures : Z;
  at_blocked_until : option Z;
  at_last_seen : Z;
  at_active : Z;
}.
#[global] Instance Attempt_eq_dec : EqDecision Attempt.
Proof. solve_decision. Defined.
(** [Option::filter(|until| *until > now)] *)
Definition still_blocked (blocked : option Z) (now : Z) : option Z :=
  blocked ≫= λ until, if (now <? until)%Z then Some until else None.
Definition refresh_window (e : Attempt) (now window : Z) : Attempt :=
  if (window <=? saturating_duration_since now (at_window_start e))%Z
  then {| at_window_start := now; at_failures := 0;
          at_blocked_until := still_blocked (at_blocked_until e) now;
          at_last_seen := at_last_seen e; at_active := at_active e |}
  else e.

Record State := {
  st_closed : bool;
  st_occupied : Z;
  st_attempts : gmap string Attempt;
}.
Definition State_new : State := {| st_closed := false; st_occupied := 0; st_attempts := ∅ |}.
Definition set_attempts (s : State) (m : gmap string Attempt) : State :=
  {| st_closed := st_closed s; st_occupied := st_occupied s; st_attempts := m |}.
Definition set_occupied (s : State) (n : Z) : State :=
  {| st_closed := st_closed s; st_occupied := n; st_attempts := st_attempts s |}.

(** A lease remembers the username it was admitted for. *)
Definition PasswordWorkLease : Type := option string.

Section admission.
Context (policy : LocalPasswordAdmissionPolicy).
Definition capacity : Z := pp_workers policy * pp_saturation_multiplier policy.

(** The guards every operation starts with, at the time [now] read under the
    lock. *)
Definition guard_open (now original : Z) : M State LocalPasswordAdmissionError unit :=
  if (original <=? now)%Z then fail (PA_Control CE_Deadline) else
  let? s := get in
  if st_closed s then fail (PA_Control CE_Closed) else ret tt.

(** [attempts.retain]: drop the entries nobody needs. *)
Definition keep_attempt (now stale : Z) (e : Attempt) : bool :=
  negb (at_active e =? 0)%Z
  || bool_decide (is_Some (still_blocked (at_blocked_until e) now))
  || (saturating_duration_since now (at_last_seen e) <=? stale)%Z.
Definition retain (now stale : Z) (m : gmap string Attempt) : gmap string Attempt :=
  filter (λ kv, keep_attempt now stale kv.2 = true) m.

Definition new_attempt (now : Z) : Attempt :=
  {| at_window_start := now; at_failures := 0; at_blocked_until := None; at_last_seen := now;
     at_active := 0 |}.

Definition admit_username (username : string) (now : Z) : M State LocalPasswordAdmissionError unit :=
  let? stale := lift_result (ok_or (checked_add_duration (pp_window policy) (pp_lockout policy))
                               (PA_Control CE_Configuration)) in
  let? s := get in
  let attempts := retain now stale (st_attempts s) in
  do? put (set_attempts s attempts) in
  if bool_decide (attempts !! username = None) && bool_decide (size attempts = TRACKED_USERNAMES)
  then fail PA_Capacity else
  let entry := default (new_attempt now) (attempts !! username) in
  do? put (set_attempts s (<[username := entry]> attempts)) in
  match still_blocked (at_blocked_until entry) now with
  | Some until => fail (PA_RateLimited (until - now))
  | None =>
      let entry := refresh_window entry now (pp_window policy) in
      do? put (set_attempts s (<[username := entry]> attempts)) in
      let? active := lift_result (ok_or (checked_add_usize (at_active entry) 1) (PA_Control CE_Configuration)) in
      put (set_attempts s (<[username :=
        {| at_window_start := at_window_start entry; at_failures := at_failures entry;
           at_blocked_until := at_blocked_until entry; at_last_seen := now;
           at_active := active |}]> attempts))
  end.

(** [LocalPasswordAdmission::admit_work]: [before] is the time read before the lock
    is taken. *)
Definition admit_work (username : option string) (original before now : Z)
    : M State LocalPasswordAdmissionError (PasswordWorkLease * Z) :=
  if (original <=? before)%Z then fail (PA_Control CE_Deadline) else
  do? guard_open now original in
  let? s := get in
  if (st_occupied s =? capacity)%Z then fail (PA_RateLimited NANOS) else
  do? (match username with Some username => admit_username username now | None => ret tt end) in
  let? s := get in
  let occupancy := (st_occupied s + 1)%Z in
  do? put (set_occupied s occupancy) in
  ret (username, occupancy).

Definition check_work (now original : Z) : M State LocalPasswordAdmissionError unit :=
  guard_open now original.

Definition recheck_attempt (lease : PasswordWorkLease) (now original : Z)
    : M State LocalPasswordAdmissionError unit :=
  do? guard_open now original in
  let? s := get in
  match lease ≫= λ name, st_attempts s !! name ≫= λ e, still_blocked (at_blocked_until e) now with
  | Some until => fail (PA_RateLimited (until - now))
  | None => ret tt
  end.

Definition incorrect (lease : PasswordWorkLease) (now original : Z)
    : M State LocalPasswordAdmissionError unit :=
  do? guard_open now original in
  let? name := lift_result (ok_or lease (PA_Control CE_Configuration)) in
  let? s := get in
  let? entry := lift_result (ok_or (st_attempts s !! name) (PA_Control CE_Configuration)) in
  let entry := refresh_window entry now (pp_window policy) in
  let entry := {| at_window_start := at_window_start entry;
                  at_failures := saturating_add_usize (at_failures entry) 1;
                  at_blocked_until := at_blocked_until entry; at_last_seen := now;
                  at_active := at_active entry |} in
  do? put (set_attempts s (<[name := entry]> (st_attempts s))) in
  if (pp_max_failures policy <=? at_failures entry)%Z then
    let? until := lift_result (ok_or (checked_add_time now (pp_lockout policy)) (PA_Control CE_Configuration)) in
    put (set_attempts s (<[name :=
      {| at_window_start := at_window_start entry; at_failures := at_failures entry;
         at_blocked_until := Some until; at_last_seen := at_last_seen entry;
         at_active := at_active entry |}]> (st_attempts s)))
  else ret tt.

Definition succeeded (lease : PasswordWorkLease) (proof_username : string) (now original : Z)
    : M State LocalPasswordAdmissionError unit :=
  do? guard_open now original in
  let? name := lift_result (ok_or (lease ≫= λ name, if str_eqb name proof_username then Some name else None)
                              (PA_Control CE_Configuration)) in
  let? s := get in
  let? entry := lift_result (ok_or (st_attempts s !! name) (PA_Control CE_Configuration)) in
  put (set_attempts s (<[name :=
    {| at_window_start := now; at_failures := 0; at_blocked_until := None; at_last_seen := now;
       at_active := at_active entry |}]> (st_attempts s))).

(** [PasswordWorkLease::drop]; the subtractions are those of [usize]. *)
Definition drop (lease : PasswordWorkLease) (s : State) : State :=
  let s := set_occupied s (st_occupied s - 1) in
  match lease with
  | None => s
  | Some name =>
      match st_attempts s !! name with
      | None => s
      | Some e =>
          let e := {| at_window_start := at_window_start e; at_failures := at_failures e;
                      at_blocked_until := at_blocked_until e; at_last_seen := at_last_seen e;
                      at_active := at_active e - 1 |} in
          if (at_active e =? 0)%Z && (at_failures e =? 0)%Z && bool_decide (at_blocked_until e = None)
          then set_attempts s (delete name (st_attempts s))
          else set_attempts s (<[name := e]> (st_attempts s))
      end
  end.
Definition close (s : State) : State :=
  {| st_closed := true; st_occupied := st_occupied s; st_attempts := st_attempts s |}.

(** ** The system: the state, the live leases and the time *)

Record system := { sy_state : State; sy_leases : list PasswordWorkLease; sy_time : Z }.
Definition system_new (t : Z) : system := {| sy_state := State_new; sy_leases := []; sy_time := t |}.

Inductive event :=
| EvAdmit (username : option string) (r : result LocalPasswordAdmissionError (PasswordWorkLease * Z))
| EvRecheck | EvIncorrect (lease : PasswordWorkLease) | EvSucceeded (name : string)
| EvDrop (lease : PasswordWorkLease) | EvClose.

(** One operation of one thread; [Instant] is monotonic. *)
Inductive step : system → event → system → Prop :=
| step_admit s ls t username original before now x s' :
    (t ≤ before ≤ now)%Z → admit_work username original before now s = (x, s') →
    step {| sy_state := s; sy_leases := ls; sy_time := t |} (EvAdmit username x)
         {| sy_state := s'; sy_leases := match x with Ok (l, _) => l :: ls | Err _ => ls end;
            sy_time := now |}
| step_recheck s ls t lease original now x s' :
    (t ≤ now)%Z → lease ∈ ls → recheck_attempt lease now original s = (x, s') →
    step {| sy_state := s; sy_leases := ls; sy_time := t |} EvRecheck
         {| sy_state := s'; sy_leases := ls; sy_time := now |}
| step_incorrect s ls t lease original now x s' :
    (t ≤ now)%Z → lease ∈ ls → incorrect lease now original s = (x, s') →
    step {| sy_state := s; sy_leases := ls; sy_time := t |} (EvIncorrect lease)
         {| sy_state := s'; sy_leases := ls; sy_time := now |}
| step_succeeded s ls t lease name original now x s' :
    (t ≤ now)%Z → lease ∈ ls → succeeded lease name now original s = (x, s') →
    step {| sy_state := s; sy_leases := ls; sy_time := t |} (EvSucceeded name)
         {| sy_state := s'; sy_leases := ls; sy_time := now |}
| step_drop s t ls1 ls2 lease :
    step {| sy_state := s; sy_leases := ls1 ++ lease :: ls2; sy_time := t |} (EvDrop lease)
         {| sy_state := drop lease s; sy_leases := ls1 ++ ls2; sy_time := t |}
| step_close s ls t :
    step {| sy_state := s; sy_leases := ls; sy_time := t |} EvClose
         {| sy_state := close s; sy_leases := ls; sy_time := t |}.
Inductive steps : system → list event → system → Prop :=
| steps_nil s : steps s [] s
| steps_cons s1 e s2 es s3 : step s1 e s2 → steps s2 es s3 → steps s1 (e :: es) s3.

(** ** Lemmas: counting leases *)

Definition active_of (m : gmap string Attempt) (name : string) : Z :=
  match m !! name with Some e => at_active e | None => 0 end.
Definition count (name : string) (ls : list PasswordWorkLease) : Z :=
  Z.of_nat (length (List.filter (λ l, bool_decide (l = Some name)) ls)).
Definition live (u name : string) : Z := if bool_decide (u = name) then 1 else 0.
Definition lease_live (lease : PasswordWorkLease) (name : string) : Z :=
  match lease with Some u => live u name | None => 0 end.

Lemma count_cons name l ls : count name (l :: ls) = (lease_live l name + count name ls)%Z.
Proof.
  unfold count, lease_live, live. simpl. destruct l as [u|]; simpl; [|done].
  destruct (decide (u = name)) as [->|Hne].
  - rewrite !bool_decide_true by done. simpl. lia.
  - rewrite !bool_decide_false by congruence. lia.
Qed.
Lemma count_app name ls1 ls2 : count name (ls1 ++ ls2) = (count name ls1 + count name ls2)%Z.
Proof. unfold count. rewrite List.filter_app, length_app. apply Nat2Z.inj_add. Qed.
Lemma count_elem name ls : Some name ∈ ls → (1 ≤ count name ls)%Z.
Proof.
  intros (l1 & l2 & ->)%list_elem_of_split. rewrite count_app, count_cons. simpl.
  unfold live. rewrite bool_decide_true by done. unfold count. lia.
Qed.

(** Every lease is accounted for: in the occupancy, and in the active count of
    its username; and the tables are bounded. *)
Record inv (s : State) (ls : list PasswordWorkLease) : Prop := {
  inv_occupied : st_occupied s = Z.of_nat (length ls);
  inv_capacity : (st_occupied s ≤ capacity)%Z;
  inv_active : ∀ name, active_of (st_attempts s) name = count name ls;
  inv_size : size (st_attempts s) ≤ TRACKED_USERNAMES;
}.

Lemma active_of_insert m u e name :
  active_of (<[u := e]> m) name = if bool_decide (u = name) then at_active e else active_of m name.
Proof.
  unfold active_of. case_bool_decide as Hu; [subst; by rewrite lookup_insert_eq|].
  by rewrite lookup_insert_ne.
Qed.
Lemma active_of_retain now stale m name : active_of (retain now stale m) name = active_of m name.
Proof.
  unfold active_of, retain. rewrite map_lookup_filter. destruct (m !! name) as [e|]; simpl; [|done].
  destruct (keep_attempt now stale e) eqn:Ek; [by rewrite option_guard_True|].
  rewrite option_guard_False by (simpl; congruence). unfold keep_attempt in Ek. bool_to_prop. done.
Qed.
Lemma size_retain now stale m : size (retain now stale m) ≤ size m.
Proof. apply map_size_filter. Qed.
Lemma size_insert_le (m : gmap string Attempt) u e :
  size m ≤ TRACKED_USERNAMES → (m !! u = None → size m ≠ TRACKED_USERNAMES) →
  size (<[u := e]> m) ≤ TRACKED_USERNAMES.
Proof.
  intros Hs Hn. destruct (m !! u) as [e'|] eqn:E.
  - by rewrite map_size_insert_Some by eauto.
  - rewrite map_size_insert_None by done. specialize (Hn eq_refl). lia.
Qed.
Lemma at_active_refresh e now w : at_active (refresh_window e now w) = at_active e.
Proof. unfold refresh_window. by case_match. Qed.

(** A failed computation leaves a state with the property, a successful one a
    state related to the start. *)
Lemma guard_open_run now original s x s' :
  guard_open now original s = (x, s') →
  s' = s ∧ match x with Ok _ => (now < original)%Z ∧ st_closed s = false | Err _ => True end.
Proof.
  unfold guard_open, get, bind, fail, ret. repeat case_match; intros; simplify_eq; bool_to_prop; auto.
Qed.
Lemma admit_username_run u now s x s' :
  size (st_attempts s) ≤ TRACKED_USERNAMES →
  admit_username u now s = (x, s') →
  st_closed s' = st_closed s ∧ st_occupied s' = st_occupied s ∧
  size (st_attempts s') ≤ TRACKED_USERNAMES ∧
  ∀ name, active_of (st_attempts s') name =
          (active_of (st_attempts s) name + if is_ok x then live u name else 0)%Z.
Proof.
  intros Hsize. unfold admit_username, bind, lift_result, get, put, fail.
  destruct (checked_add_duration _ _) as [stale|]; simpl.
  2: { intros [= <- <-]. split_and!; auto. intros; simpl; lia. }
  pose proof (active_of_retain now stale (st_attempts s)) as Hret.
  pose proof (size_retain now stale (st_attempts s)) as Hsz.
  set (m := retain now stale (st_attempts s)) in *.
  destruct (bool_decide (m !! u = None) && bool_decide (size m = TRACKED_USERNAMES)) eqn:Efull.
  { intros [= <- <-]. simpl. split_and!; auto; [lia|]. intros name. rewrite Hret. lia. }
  assert (∀ e, size (<[u := e]> m) ≤ TRACKED_USERNAMES) as Hins.
  { intros e. apply size_insert_le; [lia|]. intros Hn Hfull. rewrite Hn, Hfull in Efull.
    by rewrite !bool_decide_true in Efull. }
  assert (at_active (default (new_attempt now) (m !! u)) = active_of m u) as Hact.
  { unfold active_of. by destruct (m !! u). }
  set (entry := default (new_attempt now) (m !! u)) in *.
  assert (∀ e b name, at_active e = (at_active entry + b)%Z →
    active_of (<[u := e]> m) name = (active_of (st_attempts s) name + (if bool_decide (u = name) then b else 0))%Z) as Hupd.
  { intros e b name He. rewrite active_of_insert, <- Hret.
    destruct (decide (u = name)) as [<-|Hne]; [rewrite !bool_decide_true by done|rewrite !bool_decide_false by done].
    - by rewrite He, Hact.
    - by rewrite Z.add_0_r. }
  destruct (still_blocked (at_blocked_until entry) now) as [until|]; simpl.
  { intros [= <- <-]. simpl. split_and!; auto. intros name.
    rewrite (Hupd _ 0%Z) by lia. by destruct (bool_decide (u = name)). }
  destruct (checked_add_usize _ 1) as [active|] eqn:Ea; simpl; intros [= <- <-]; simpl.
  - split_and!; auto. intros name. unfold checked_add_usize in Ea. rewrite at_active_refresh in Ea.
    case_match; simplify_eq. rewrite (Hupd _ 1%Z) by done. done.
  - split_and!; auto. intros name. rewrite (Hupd _ 0%Z); [by destruct (bool_decide (u = name))|].
    rewrite at_active_refresh. lia.
Qed.
Lemma admit_run username original before now s ls x s' :
  inv s ls → admit_work username original before now s = (x, s') →
  inv s' (match x with Ok (l, _) => l :: ls | Err _ => ls end) ∧
  (∀ l n, x = Ok (l, n) → l = username ∧ n = Z.of_nat (S (length ls)) ∧ (n ≤ capacity)%Z
          ∧ st_closed s = false ∧ (now < original)%Z).
Proof.
  intros [Ho Hc Ha Hs] Hrun. unfold admit_work in Hrun.
  destruct (original <=? before)%Z; [unfold fail in Hrun; by simplify_eq|].
  unfold bind in Hrun at 1. destruct (guard_open now original s) as [y s1] eqn:Eg.
  apply guard_open_run in Eg as [-> Hy]. destruct y as [[]|e]; [|by simplify_eq].
  unfold bind in Hrun at 1. unfold get in Hrun at 1. destruct (st_occupied s =? capacity)%Z eqn:Ecap;
    [unfold fail in Hrun; by simplify_eq|]. bool_to_prop.
  unfold bind in Hrun at 1.
  assert (∀ z s1, (match username with Some u => admit_username u now | None => ret tt end) s = (z, s1) →
    st_closed s1 = st_closed s ∧ st_occupied s1 = st_occupied s ∧
    size (st_attempts s1) ≤ TRACKED_USERNAMES ∧
    ∀ name, active_of (st_attempts s1) name =
      (active_of (st_attempts s) name + if is_ok z then lease_live username name else 0)%Z) as Hu.
  { intros z s1. destruct username as [u|]; [by apply admit_username_run|].
    intros [= <- <-]. split_and!; auto. intros; simpl; lia. }
  destruct ((match username with Some u => admit_username u now | None => ret tt end) s) as [z s1] eqn:Eu.
  destruct (Hu _ _ eq_refl) as (Hcl & Hoc & Hsz & Hac).
  destruct z as [[]|e]; simplify_eq.
  - unfold bind, get, put, ret in Hrun. simplify_eq. split.
    + split; simpl; [rewrite Hoc, Ho; lia|lia| |done].
      intros name. rewrite Hac, count_cons, Ha. simpl. lia.
    + intros l n [= <- <-]. rewrite Hoc, Ho. split_and!; try done; try lia; apply Hy.
  - split; [|done]. split; [congruence|lia| |done]. intros name. rewrite Hac, Ha. simpl. lia.
Qed.

(** ** Lemmas: the other operations *)

(** [m'] is [m] with the entry of [u] replaced by one with the same active
    count. *)
Definition same_active (m m' : gmap string Attempt) : Prop :=
  (∀ name, active_of m' name = active_of m name) ∧ size m' = size m.
Lemma same_active_refl m : same_active m m.
Proof. done. Qed.
Lemma same_active_insert m u e e' :
  m !! u = Some e → at_active e' = at_active e → same_active m (<[u := e']> m).
Proof.
  intros Hu He. split; [|by rewrite map_size_insert_Some by eauto].
  intros name. rewrite active_of_insert. case_bool_decide; [|done]. subst. unfold active_of. by rewrite Hu.
Qed.
Lemma inv_same_active s ls s' :
  inv s ls → st_occupied s' = st_occupied s → same_active (st_attempts s) (st_attempts s') → inv s' ls.
Proof. intros [Ho Hc Ha Hs] Hocc [Hact Hsz]. split; [congruence|congruence|by intros; rewrite Hact|lia]. Qed.

Lemma recheck_run lease now original s x s' : recheck_attempt lease now original s = (x, s') → s' = s.
Proof.
  unfold recheck_attempt, bind, get. destruct (guard_open now original s) as [y s1] eqn:E.
  apply guard_open_run in E as [-> _]. destruct y; [|by intros [= _ ->]].
  unfold fail, ret. case_match; by intros [= _ ->].
Qed.
(** The entry [incorrect] writes before it considers a lockout. *)
Definition failed_attempt (e : Attempt) (now : Z) : Attempt :=
  let e := refresh_window e now (pp_window policy) in
  {| at_window_start := at_window_start e; at_failures := saturating_add_usize (at_failures e) 1;
     at_blocked_until := at_blocked_until e; at_last_seen := now; at_active := at_active e |}.
Definition locked_attempt (e : Attempt) (until : Z) : Attempt :=
  {| at_window_start := at_window_start e; at_failures := at_failures e;
     at_blocked_until := Some until; at_last_seen := at_last_seen e; at_active := at_active e |}.
Lemma incorrect_run lease now original s x s' :
  incorrect lease now original s = (x, s') →
  (s' = s ∧ is_ok x = false) ∨
  ∃ name e, lease = Some name ∧ st_attempts s !! name = Some e ∧
    let f := failed_attempt e now in
    s' = set_attempts s (<[name := (if (pp_max_failures policy <=? at_failures f)%Z
                                    then match checked_add_time now (pp_lockout policy) with
                                         | Some until => locked_attempt f until
                                         | None => f
                                         end
                                    else f)]> (st_attempts s)).
Proof.
  unfold incorrect, bind, get, lift_result, put. destruct (guard_open now original s) as [y s1] eqn:E.
  apply guard_open_run in E as [-> _]. destruct y as [[]|]; [|intros [= <- ->]; by left].
  destruct lease as [name|]; simpl; [|intros [= <- ->]; by left].
  destruct (st_attempts s !! name) as [e|] eqn:El; simpl; [|intros [= <- ->]; by left].
  intros Hrun. right. exists name, e. split; [done|]. split; [done|].
  unfold failed_attempt, locked_attempt in *. cbv zeta in *. simpl in *.
  destruct (pp_max_failures policy <=? _)%Z; simpl in Hrun.
  - destruct (checked_add_time now (pp_lockout policy)); simpl in Hrun; by simplify_eq.
  - unfold ret in Hrun. by simplify_eq.
Qed.
Lemma succeeded_run lease name now original s x s' :
  succeeded lease name now original s = (x, s') →
  s' = s ∨
  ∃ e, lease = Some name ∧ st_attempts s !! name = Some e ∧
    s' = set_attempts s (<[name := {| at_window_start := now; at_failures := 0;
           at_blocked_until := None; at_last_seen := now; at_active := at_active e |}]> (st_attempts s)).
Proof.
  unfold succeeded, bind, get, lift_result, put. destruct (guard_open now original s) as [y s1] eqn:E.
  apply guard_open_run in E as [-> _]. destruct y as [[]|]; [|intros [= _ <-]; by left].
  destruct lease as [u|]; simpl; [|intros [= _ <-]; by left].
  destruct (str_eqb u name) eqn:Eu; simpl; [|intros [= _ <-]; by left].
  apply str_eqb_eq in Eu as ->.
  destruct (st_attempts s !! name) as [e|] eqn:El; simpl; [|intros [= _ <-]; by left].
  intros [= _ <-]. right. by exists e.
Qed.
Lemma drop_run lease s ls1 ls2 :
  inv s (ls1 ++ lease :: ls2) → inv (drop lease s) (ls1 ++ ls2).
Proof.
  intros [Ho Hc Ha Hs].
  assert (∀ name, count name (ls1 ++ lease :: ls2) = lease_live lease name + count name (ls1 ++ ls2))%Z as Hcnt.
  { intros name. rewrite !count_app, count_cons. lia. }
  rewrite length_app in Ho. simpl in Ho.
  assert (st_occupied s - 1 = Z.of_nat (length (ls1 ++ ls2)))%Z as Hlen by (rewrite length_app; lia).
  unfold drop. destruct lease as [u|]; simpl.
  2: { split; simpl; [done|lia| |done]. intros name. rewrite Ha, Hcnt. simpl. lia. }
  assert (1 ≤ active_of (st_attempts s) u)%Z as Hu.
  { rewrite Ha. apply count_elem. apply elem_of_app. right. left. }
  unfold active_of in Hu. destruct (st_attempts s !! u) as [e|] eqn:El; [|lia].
  assert (∀ name, count name (ls1 ++ ls2) = active_of (st_attempts s) name - live u name)%Z as Hcnt'.
  { intros name. rewrite Ha, Hcnt. simpl. lia. }
  destruct (_ && _) eqn:Eb; bool_to_prop; split; simpl in *; try done; try lia.
  - intros name. rewrite Hcnt'. unfold active_of, live. destruct (decide (u = name)) as [<-|Hne].
    + rewrite lookup_delete_eq, El, bool_decide_true by done. lia.
    + rewrite lookup_delete_ne, bool_decide_false by done. lia.
  - rewrite map_size_delete_Some by eauto. lia.
  - intros name. rewrite Hcnt', active_of_insert. unfold live.
    destruct (decide (u = name)) as [<-|Hne]; [rewrite !bool_decide_true by done|rewrite !bool_decide_false by done].
    + unfold active_of. rewrite El. simpl. lia.
    + lia.
  - rewrite map_size_insert_Some by eauto. done.
Qed.

Lemma step_inv sys ev sys' :
  step sys ev sys' → inv (sy_state sys) (sy_leases sys) → inv (sy_state sys') (sy_leases sys').
Proof.
  intros Hstep Hinv. destruct Hstep; simpl in *.
  - by eapply admit_run.
  - select (recheck_attempt _ _ _ _ = _) (fun Hr => apply recheck_run in Hr as ->). done.
  - select (incorrect _ _ _ _ = _) (fun Hr => apply incorrect_run in Hr as [[-> _]|(name & e & -> & Hl & ->)]);
      [done|]. eapply inv_same_active; [done..|]. simpl. eapply same_active_insert; [done|].
    repeat case_match; simpl; apply at_active_refresh.
  - select (succeeded _ _ _ _ _ = _) (fun Hr => apply succeeded_run in Hr as [->|(e & -> & Hl & ->)]);
      [done|]. eapply inv_same_active; [done..|]. by eapply same_active_insert.
  - by apply drop_run.
  - by eapply inv_same_active.
Qed.
Lemma steps_inv sys es sys' :
  steps sys es sys' → inv (sy_state sys) (sy_leases sys) → inv (sy_state sys') (sy_leases sys').
Proof. induction 1; eauto using step_inv. Qed.
Lemma inv_new t : (0 ≤ capacity)%Z → inv (sy_state (system_new t)) (sy_leases (system_new t)).
Proof. intros Hc. split; simpl; [done|done| |vm_compute; lia]. intros name. done. Qed.

(** C25. Whatever the interleaving of admissions, results, rechecks, drops and
    the close, the accounting is exact: the occupancy is the number of live
    leases and never exceeds the capacity, the active count of each username is
    the number of its live leases, and at most 4096 usernames are tracked; so
    no decrement of a drop can wrap. *)
Theorem admission_accounting t es sys :
  (0 ≤ capacity)%Z → steps (system_new t) es sys →
  st_occupied (sy_state sys) = Z.of_nat (length (sy_leases sys)) ∧
  (st_occupied (sy_state sys) ≤ capacity)%Z ∧
  size (st_attempts (sy_state sys)) ≤ TRACKED_USERNAMES ∧
  (∀ name, active_of (st_attempts (sy_state sys)) name = count name (sy_leases sys)) ∧
  ∀ lease, lease ∈ sy_leases sys →
    (1 ≤ st_occupied (sy_state sys))%Z ∧
    ∀ name, lease = Some name → (1 ≤ active_of (st_attempts (sy_state sys)) name)%Z.
Proof.
  intros Hc Hsteps. destruct (steps_inv _ _ _ Hsteps (inv_new t Hc)) as [Ho Hcap Ha Hs].
  split_and!; auto. intros lease Hin. split.
  - rewrite Ho. destruct (sy_leases sys); [by apply elem_of_nil in Hin|simpl; lia].
  - intros name ->. rewrite Ha. by apply count_elem.
Qed.

(** ** Lockout *)

(** No lockout ends later than one lockout period from now. *)
Definition blocks_bounded (sys : system) : Prop :=
  ∀ name e until, st_attempts (sy_state sys) !! name = Some e → at_blocked_until e = Some until →
    (until ≤ sy_time sys + pp_lockout policy)%Z.
(** The username is locked out at least until [limit]. *)
Definition blocked_from (u : string) (limit : Z) (s : State) : Prop :=
  ∃ e until, st_attempts s !! u = Some e ∧ at_blocked_until e = Some until ∧ (limit ≤ until)%Z.

Lemma still_blocked_Some b now until :
  still_blocked b now = Some until ↔ b = Some until ∧ (now < until)%Z.
Proof.
  unfold still_blocked. destruct b as [v|]; simpl; [|naive_solver].
  destruct (Z.ltb_spec now v); naive_solver lia.
Qed.
Lemma refresh_blocked e now w until :
  at_blocked_until (refresh_window e now w) = Some until → at_blocked_until e = Some until.
Proof. unfold refresh_window. case_match; simpl; [|done]. by intros [? _]%still_blocked_Some. Qed.
Lemma refresh_still_blocked e now w until :
  at_blocked_until e = Some until → (now < until)%Z →
  at_blocked_until (refresh_window e now w) = Some until.
Proof. intros He Hn. unfold refresh_window. case_match; simpl; [|done]. by apply still_blocked_Some. Qed.

(** What an admission does to the table. *)
Lemma admit_username_attempts u now s x s' :
  admit_username u now s = (x, s') →
  (s' = s ∧ is_ok x = false) ∨
  ∃ stale, let m := retain now stale (st_attempts s) in
    let entry := default (new_attempt now) (m !! u) in
    (st_attempts s' = m ∧ is_ok x = false) ∨
    (∃ until, still_blocked (at_blocked_until entry) now = Some until ∧
              x = Err (PA_RateLimited (until - now)) ∧ st_attempts s' = <[u := entry]> m) ∨
    (still_blocked (at_blocked_until entry) now = None ∧
     ∃ active last, st_attempts s' = <[u := let e := refresh_window entry now (pp_window policy) in
       {| at_window_start := at_window_start e; at_failures := at_failures e;
          at_blocked_until := at_blocked_until e; at_last_seen := last; at_active := active |}]> m).
Proof.
  unfold admit_username, bind, lift_result, get, put, fail.
  destruct (checked_add_duration _ _) as [stale|]; simpl; [|intros [= <- <-]; by left].
  intros Hrun. right. exists stale. cbv zeta. set (m := retain now stale (st_attempts s)) in *.
  destruct (_ && _); [simplify_eq; by left|].
  destruct (still_blocked _ now) as [until|] eqn:Es; simpl in Hrun.
  { simplify_eq. right. left. by exists until. }
  right. right. split; [done|]. set (e := refresh_window _ now _) in *.
  destruct (checked_add_usize _ 1) as [active|]; simpl in Hrun; simplify_eq; simpl.
  - by exists active, now.
  - exists (at_active e), (at_last_seen e). by destruct e.
Qed.
Lemma admit_attempts username original before now s x s' :
  admit_work username original before now s = (x, s') →
  (st_attempts s' = st_attempts s ∧ (username = None ∨ is_ok x = false)) ∨
  ∃ u y s1, username = Some u ∧ admit_username u now s = (y, s1) ∧ is_ok y = is_ok x ∧
            st_attempts s' = st_attempts s1.
Proof.
  unfold admit_work. destruct (original <=? before)%Z; [intros [= <- <-]; left; by eauto|].
  unfold bind at 1. destruct (guard_open now original s) as [y s1] eqn:Eg.
  apply guard_open_run in Eg as [-> _]. destruct y as [[]|e]; [|intros [= <- <-]; left; by eauto].
  unfold bind, get at 1. destruct (st_occupied s =? capacity)%Z; [intros [= <- <-]; left; by eauto|].
  destruct username as [u|].
  - destruct (admit_username u now s) as [z s2] eqn:Eu. intros Hrun. right. exists u, z, s2.
    split; [done|]. split; [done|]. destruct z; unfold get, put, ret in Hrun; by simplify_eq.
  - unfold get, put, ret. intros [= <- <-]. left. by eauto.
Qed.

Lemma retain_lookup_Some now stale m name e :
  retain now stale m !! name = Some e → m !! name = Some e.
Proof. unfold retain. by intros [? _]%map_lookup_filter_Some. Qed.
Lemma retain_blocked now stale m name e until :
  m !! name = Some e → at_blocked_until e = Some until → (now < until)%Z →
  retain now stale m !! name = Some e.
Proof.
  intros Hm Hb Hn. apply map_lookup_filter_Some. split; [done|]. simpl. unfold keep_attempt.
  rewrite (bool_decide_true (is_Some _)); [by rewrite orb_true_r|].
  exists until. by apply still_blocked_Some.
Qed.

Lemma step_time sys ev sys' : step sys ev sys' → (sy_time sys ≤ sy_time sys')%Z.
Proof. destruct 1; simpl; lia. Qed.
Lemma step_blocks_bounded sys ev sys' : step sys ev sys' → blocks_bounded sys → blocks_bounded sys'.
Proof.
  intros Hstep Hb. pose proof (step_time _ _ _ Hstep) as Ht. unfold blocks_bounded in *.
  assert (∀ m name e until, m !! name = Some e → at_blocked_until e = Some until →
    m = st_attempts (sy_state sys) → (until ≤ sy_time sys' + pp_lockout policy)%Z) as Hold.
  { intros m name e until Hm He ->. specialize (Hb _ _ _ Hm He). lia. }
  destruct Hstep as [s ls t username original before now x s' Hn Hrun|s ls t lease original now x s' ? _ Hrun
    |s ls t lease original now x s' Hn _ Hrun|s ls t lease u original now x s' ? _ Hrun
    |s t ls1 ls2 lease|s ls t]; simpl in *; intros name e until Hm He.
  - apply admit_attempts in Hrun as [[Heq _]|(u & y & s1 & _ & Hu & _ & Heq)]; rewrite Heq in Hm; [by eauto|].
    apply admit_username_attempts in Hu as [[-> _]|(stale & Hu)]; [by eauto|].
    assert (∀ e', retain now stale (st_attempts s) !! name = Some e' → at_blocked_until e' = Some until →
      (until ≤ now + pp_lockout policy)%Z) as Hret by (intros e' ?%retain_lookup_Some ?; by eauto).
    assert (at_blocked_until (default (new_attempt now) (retain now stale (st_attempts s) !! u)) = Some until →
      name = u → (until ≤ now + pp_lockout policy)%Z) as Hent.
    { intros Hd ->. destruct (retain now stale (st_attempts s) !! u) as [e'|] eqn:El; simpl in Hd; [by eauto|done]. }
    destruct Hu as [[Hu _]|[(v & _ & _ & Hu)|(_ & a & l & Hu)]]; rewrite Hu in Hm; [by eauto| |].
    + apply lookup_insert_Some in Hm as [[<- <-]|[_ Hm]]; by eauto.
    + apply lookup_insert_Some in Hm as [[<- <-]|[_ Hm]]; [|by eauto]. simpl in He.
      apply refresh_blocked in He. by eauto.
  - apply recheck_run in Hrun as ->. by eauto.
  - apply incorrect_run in Hrun as [[-> _]|(u & e0 & -> & Hl & ->)]; [by eauto|]. simpl in Hm.
    apply lookup_insert_Some in Hm as [[<- <-]|[_ Hm]]; [|by eauto].
    assert (at_blocked_until (failed_attempt e0 now) = Some until → (until ≤ now + pp_lockout policy)%Z) as Hf.
    { intros Hd. simpl in Hd. apply refresh_blocked in Hd. by eauto. }
    destruct (pp_max_failures policy <=? _)%Z; [|by eauto].
    destruct (checked_add_time now (pp_lockout policy)) as [v|] eqn:Ec; [|by eauto].
    simpl in He. simplify_eq. unfold checked_add_time in Ec. case_match; simplify_eq. lia.
  - apply succeeded_run in Hrun as [->|(e0 & -> & Hl & ->)]; [by eauto|]. simpl in Hm.
    apply lookup_insert_Some in Hm as [[<- <-]|[_ Hm]]; [done|by eauto].
  - unfold drop in Hm. destruct lease as [u|]; [|by eauto]. simpl in Hm.
    destruct (st_attempts s !! u) as [e0|] eqn:El; [|by eauto].
    destruct (_ && _); simpl in Hm.
    + apply lookup_delete_Some in Hm as [_ Hm]. by eauto.
    + apply lookup_insert_Some in Hm as [[<- <-]|[_ Hm]]; by eauto.
  - by eauto.
Qed.

(** Admissions keep a lockout in force, and refuse its username. *)
Lemma admit_blocked u limit username original before now s x s' :
  admit_work username original before now s = (x, s') → blocked_from u limit s → (now < limit)%Z →
  blocked_from u limit s' ∧ (username = Some u → is_ok x = false).
Proof.
  intros Hrun (e & until & Hl & He & Hlim) Hn.
  assert (∀ stale, retain now stale (st_attempts s) !! u = Some e) as Hret.
  { intros stale. eapply retain_blocked; [done|done|lia]. }
  apply admit_attempts in Hrun as [[Heq Hx]|(v & y & s1 & -> & Hu & Hy & Heq)].
  - split; [exists e, until; by rewrite Heq|]. intros ->. by destruct Hx.
  - apply admit_username_attempts in Hu as [[-> Hx]|(stale & Hu)].
    { split; [exists e, until; by rewrite Heq|]. by rewrite <- Hy. }
    assert (v = u → default (new_attempt now) (retain now stale (st_attempts s) !! v) = e) as Hent.
    { intros ->. by rewrite Hret. }
    unfold blocked_from. rewrite Heq.
    destruct Hu as [[Hu Hx]|[(w & _ & -> & Hu)|(Hnb & a & l & Hu)]]; rewrite Hu.
    + split; [by exists e, until|]. by rewrite <- Hy.
    + split; [|by rewrite <- Hy].
      destruct (decide (v = u)) as [->|Hne].
      * exists e, until. rewrite lookup_insert_eq, Hret. done.
      * exists e, until. by rewrite lookup_insert_ne.
    + destruct (decide (v = u)) as [->|Hne].
      * exfalso. rewrite (Hent eq_refl) in Hnb.
        by rewrite (proj2 (still_blocked_Some _ now until)) in Hnb by (split; [done|lia]).
      * split; [|by intros [= ->]]. exists e, until. by rewrite lookup_insert_ne.
Qed.
Lemma incorrect_blocked u limit lease original now s x s' :
  incorrect lease now original s = (x, s') → blocked_from u limit s → (now < limit)%Z →
  (∀ e until, st_attempts s !! u = Some e → at_blocked_until e = Some until →
     (until ≤ now + pp_lockout policy)%Z) →
  blocked_from u limit s'.
Proof.
  intros Hrun (e & until & Hl & He & Hlim) Hn Hb.
  apply incorrect_run in Hrun as [[-> _]|(v & e0 & -> & Hv & ->)]; [by exists e, until|].
  unfold blocked_from. simpl. destruct (decide (v = u)) as [->|Hne].
  2: { exists e, until. by rewrite lookup_insert_ne. }
  rewrite Hl in Hv. injection Hv as <-. rewrite lookup_insert_eq.
  assert (at_blocked_until (failed_attempt e now) = Some until) as Hf.
  { simpl. apply refresh_still_blocked; [done|lia]. }
  destruct (pp_max_failures policy <=? _)%Z; [|by eexists _, until].
  destruct (checked_add_time now (pp_lockout policy)) as [v|] eqn:Ec; [|by eexists _, until].
  eexists _, v. split; [done|]. split; [done|]. unfold checked_add_time in Ec. case_match; simplify_eq.
  specialize (Hb e until Hl He). lia.
Qed.
(** The result that reaches the limit blocks the username for the lockout. *)
Lemma incorrect_locks u e now original s x s' :
  st_attempts s !! u = Some e →
  (pp_max_failures policy ≤ at_failures (failed_attempt e now))%Z →
  incorrect (Some u) now original s = (Ok x, s') → blocked_from u (now + pp_lockout policy) s'.
Proof.
  intros Hl Hmax. unfold incorrect, bind, get, lift_result, put.
  destruct (guard_open now original s) as [[[]|] s2] eqn:Eg; [|done].
  apply guard_open_run in Eg as [-> _]. simpl. rewrite Hl. simpl.
  unfold failed_attempt in Hmax. simpl in Hmax. rewrite (proj2 (Z.leb_le _ _) Hmax).
  destruct (checked_add_time now (pp_lockout policy)) as [v|] eqn:Ec; simpl; [|done].
  intros [= _ <-]. unfold blocked_from. simpl. rewrite lookup_insert_eq. eexists _, v.
  split; [done|]. split; [done|]. unfold checked_add_time in Ec. case_match; simplify_eq. lia.
Qed.
Lemma drop_blocked u limit lease s : blocked_from u limit s → blocked_from u limit (drop lease s).
Proof.
  intros (e & until & Hl & He & Hlim). unfold drop, blocked_from.
  destruct lease as [v|]; [|by exists e, until]. simpl.
  destruct (st_attempts s !! v) as [e0|] eqn:Ev; [|by exists e, until].
  destruct (decide (v = u)) as [->|Hne].
  - rewrite Hl in Ev. injection Ev as <-.
    rewrite (bool_decide_false (at_blocked_until e = None)) by congruence. rewrite andb_false_r. simpl.
    rewrite lookup_insert_eq. eexists _, until. done.
  - destruct (_ && _); simpl; exists e, until.
    + by rewrite lookup_delete_ne.
    + by rewrite lookup_insert_ne.
Qed.
Lemma step_blocked u limit sys ev sys' :
  step sys ev sys' → blocks_bounded sys → blocked_from u limit (sy_state sys) →
  ev ≠ EvSucceeded u → (sy_time sys' < limit)%Z → blocked_from u limit (sy_state sys').
Proof.
  intros Hstep Hb Hbl Hev Ht.
  destruct Hstep as [s ls t username original before now x s' Hn Hrun|s ls t lease original now x s' ? _ Hrun
    |s ls t lease original now x s' Hn _ Hrun|s ls t lease v original now x s' ? _ Hrun
    |s t ls1 ls2 lease|s ls t]; simpl in *.
  - by eapply admit_blocked.
  - by apply recheck_run in Hrun as ->.
  - eapply incorrect_blocked; [done..|]. intros e until Hl He. specialize (Hb u e until Hl He). simpl in Hb. lia.
  - apply succeeded_run in Hrun as [->|(e0 & -> & Hl & ->)]; [done|].
    destruct Hbl as (e & until & Hu & He & Hlim). exists e, until. simpl.
    by rewrite lookup_insert_ne by congruence.
  - by apply drop_blocked.
  - done.
Qed.
Lemma steps_blocked u limit sys es sys' :
  steps sys es sys' → blocks_bounded sys → blocked_from u limit (sy_state sys) →
  EvSucceeded u ∉ es → (sy_time sys' < limit)%Z →
  blocked_from u limit (sy_state sys') ∧ blocks_bounded sys' ∧ (sy_time sys ≤ sy_time sys')%Z.
Proof.
  induction 1 as [|s1 e s2 es s3 Hst Hsts IH]; intros Hb Hbl Hev Ht; [done|].
  rewrite not_elem_of_cons in Hev. destruct Hev as [Hne Hev].
  assert (∀ a es b, steps a es b → (sy_time a ≤ sy_time b)%Z) as Hmono.
  { clear. induction 1 as [|??? ?? Hs _ IH]; [done|]. apply step_time in Hs. lia. }
  pose proof (Hmono _ _ _ Hsts) as Hm. pose proof (step_time _ _ _ Hst) as Hm'.
  destruct IH as (? & ? & ?).
  - by eapply step_blocks_bounded.
  - eapply step_blocked; [done..|by intros ->|lia].
  - done.
  - done.
  - split_and!; [done|done|lia].
Qed.
Lemma blocks_bounded_steps t es sys : steps (system_new t) es sys → blocks_bounded sys.
Proof.
  intros Hs. assert (blocks_bounded (system_new t)) as H0 by (by intros name e until).
  induction Hs; eauto using step_blocks_bounded.
Qed.

(** C9. Wrong passwords lock a username out: the result that reaches the limit
    of failures within the window blocks the username for the lockout period,
    and from then on, in every interleaving of the operations in which no
    concurrent attempt of that username succeeds, no password work is admitted
    for it before the period has passed. *)
Theorem lockout_enforced t es0 s ls now0 lease u e original now x s' es sys1 y sys2 :
  steps (system_new t) es0 {| sy_state := s; sy_leases := ls; sy_time := now0 |} →
  lease ∈ ls → lease = Some u → (now0 ≤ now)%Z →
  st_attempts s !! u = Some e →
  (pp_max_failures policy ≤ at_failures (failed_attempt e now))%Z →
  incorrect lease now original s = (Ok x, s') →
  steps {| sy_state := s'; sy_leases := ls; sy_time := now |} es sys1 →
  EvSucceeded u ∉ es →
  step sys1 (EvAdmit (Some u) y) sys2 →
  (sy_time sys2 < now + pp_lockout policy)%Z →
  is_ok y = false.
Proof.
  intros H0 Hin -> Hnow Hl Hmax Hinc Hsteps Hev Hadm Hlim.
  assert (step {| sy_state := s; sy_leases := ls; sy_time := now0 |} (EvIncorrect (Some u))
            {| sy_state := s'; sy_leases := ls; sy_time := now |}) as Hst by (by econstructor).
  assert (blocks_bounded {| sy_state := s'; sy_leases := ls; sy_time := now |}) as Hb.
  { eapply step_blocks_bounded; [done|]. by eapply blocks_bounded_steps. }
  assert (blocked_from u (now + pp_lockout policy) s') as Hbl.
  { by eapply incorrect_locks. }
  pose proof (step_time _ _ _ Hadm) as Htime.
  destruct (steps_blocked u (now + pp_lockout policy) _ _ _ Hsteps Hb Hbl Hev) as (Hbl1 & _ & _); [lia|].
  inversion Hadm as [s1 ls1 t1 username orig1 before1 now1 x1 s1' Hn1 Hrun1| | | | |]; subst. simpl in *.
  by eapply admit_blocked.
Qed.

(** Admission is not refused without a cause: while the owner is open and
    has a free place, a username that is not locked out is admitted before the
    deadline, provided it is tracked already or the table has room after the
    stale entries are removed. *)
Theorem admit_available u original before now s stale :
  (before < original)%Z → (now < original)%Z → st_closed s = false →
  st_occupied s ≠ capacity →
  checked_add_duration (pp_window policy) (pp_lockout policy) = Some stale →
  (∀ e, st_attempts s !! u = Some e →
     still_blocked (at_blocked_until e) now = None ∧ (at_active e < USIZE_MAX)%Z) →
  (is_Some (retain now stale (st_attempts s) !! u) ∨
   size (retain now stale (st_attempts s)) < TRACKED_USERNAMES) →
  ∃ s', admit_work (Some u) original before now s = (Ok (Some u, (st_occupied s + 1)%Z), s') ∧
    active_of (st_attempts s') u = (active_of (st_attempts s) u + 1)%Z.
Proof.
  intros Hbef Hnow Hcl Hocc Hstale Hent Hroom.
  unfold admit_work, guard_open, admit_username, bind, get, put, lift_result, ret, fail.
  destruct (Z.leb_spec original before); [lia|]. destruct (Z.leb_spec original now); [lia|].
  rewrite Hcl. destruct (Z.eqb_spec (st_occupied s) capacity); [done|]. rewrite Hstale. simpl.
  pose proof (active_of_retain now stale (st_attempts s) u) as Hact.
  assert (∀ e, retain now stale (st_attempts s) !! u = Some e →
     still_blocked (at_blocked_until e) now = None ∧ (at_active e < USIZE_MAX)%Z) as Hent'.
  { intros e He%retain_lookup_Some. eauto. }
  set (m := retain now stale (st_attempts s)) in *.
  assert (bool_decide (m !! u = None) && bool_decide (size m = TRACKED_USERNAMES) = false) as ->.
  { destruct Hroom as [[e He]|Hlt].
    - rewrite bool_decide_false; [done|]. by rewrite He.
    - rewrite (bool_decide_false (size m = _)) by lia. by rewrite andb_false_r. }
  assert (still_blocked (at_blocked_until (default (new_attempt now) (m !! u))) now = None ∧
          (at_active (default (new_attempt now) (m !! u)) < USIZE_MAX)%Z ∧
          at_active (default (new_attempt now) (m !! u)) = active_of m u) as (Hnb & Hlt & Ha).
  { unfold active_of. destruct (m !! u) as [e|] eqn:E; simpl; [|by vm_compute]. by destruct (Hent' e eq_refl). }
  rewrite Hnb. unfold checked_add_usize. rewrite at_active_refresh.
  destruct (Z.leb_spec (at_active (default (new_attempt now) (m !! u)) + 1) USIZE_MAX); [|lia].
  simpl. eexists. split; [reflexivity|]. simpl. rewrite active_of_insert, bool_decide_true by done. simpl. lia.
Qed.
End admission.

(** ** A concrete run, for the witnesses *)

Definition sample_pp : LocalPasswordAdmissionPolicy :=
  {| pp_max_failures := 1; pp_window := 1000; pp_lockout := 500; pp_workers := 1;
     pp_saturation_multiplier := 2; pp_max_tracked := 4096 |}.
Definition sample_s1 : State := snd (admit_work sample_pp (Some "alice") 100 1 1 State_new).
Definition sample_s2 : State := snd (incorrect sample_pp (Some "alice") 2 100 sample_s1).
Definition sample_attempt : Attempt := default (new_attempt 0) (st_attempts sample_s1 !! "alice").
Lemma sample_first_step :
  steps sample_pp (system_new 0) [EvAdmit (Some "alice") (Ok (Some "alice", 1%Z))]
    {| sy_state := sample_s1; sy_leases := [Some "alice"]; sy_time := 1 |}.
Proof.
  eapply steps_cons; [|apply steps_nil].
  exact (step_admit sample_pp State_new [] 0 (Some "alice") 100 1 1 (Ok (Some "alice", 1%Z)) sample_s1
    ltac:(lia) ltac:(vm_compute; reflexivity)).
Qed.
Lemma admission_accounting_witness :
  st_occupied sample_s1 = 1%Z ∧ active_of (st_attempts sample_s1) "alice" = 1%Z.
Proof.
  pose proof (admission_accounting sample_pp 0 _ _ ltac:(vm_compute; discriminate) sample_first_step)
    as (Ho & _ & _ & Ha & _).
  split; [exact Ho|exact (Ha "alice")].
Defined.
Lemma lockout_enforced_witness :
  is_ok (fst (admit_work sample_pp (Some "alice") 100 3 3 sample_s2)) = false.
Proof.
  apply (lockout_enforced sample_pp 0 [EvAdmit (Some "alice") (Ok (Some "alice", 1%Z))]
    sample_s1 [Some "alice"] 1 (Some "alice") "alice" sample_attempt 100 2 tt sample_s2 []
    {| sy_state := sample_s2; sy_leases := [Some "alice"]; sy_time := 2 |}
    _ {| sy_state := snd (admit_work sample_pp (Some "alice") 100 3 3 sample_s2);
         sy_leases := [Some "alice"]; sy_time := 3 |}).
  - exact sample_first_step.
  - left.
  - reflexivity.
  - lia.
  - vm_compute. reflexivity.
  - vm_compute. discriminate.
  - vm_compute. reflexivity.
  - constructor.
  - apply not_elem_of_nil.
  - exact (step_admit sample_pp sample_s2 [Some "alice"] 2 (Some "alice") 100 3 3
      (fst (admit_work sample_pp (Some "alice") 100 3 3 sample_s2))
      (snd (admit_work sample_pp (Some "alice") 100 3 3 sample_s2)) ltac:(lia) ltac:(vm_compute; reflexivity)).
  - vm_compute. reflexivity.
Defined.
Lemma admit_available_witness :
  ∃ s', admit_work sample_pp (Some "bob") 100 3 3 sample_s1 = (Ok (Some "bob", 2%Z), s').
Proof.
  destruct (admit_available sample_pp "bob" 100 3 3 sample_s1 1500) as (s' & Hs & _).
  - lia.
  - lia.
  - reflexivity.
  - vm_compute. discriminate.
  - reflexivity.
  - intros e He. vm_compute in He. discriminate He.
  - right. vm_compute. lia.
  - exists s'. exact Hs.
Defined.
