(* ===== verification/LocalAuth.v ===== *)
(** * Local logins: policies, stages and the limit on guesses

    crates/broker-control/src/local_auth.rs: the errors, stages and policies of a
    local login, and the limiter that every check of a second factor passes.
    Each operation of the limiter runs under its mutex, whose holder does not
    panic; the concurrent behaviour is the interleaving of these operations. *)

From stdpp Require Import gmap.
From S2P Require Import Prelude RustStr Order Control Sql OidcTables StorageAdmission Credentials LocalMfa.
From S2P Require Import PasswordAdmission.

(** ** Errors *)

Inductive LocalPasswordError := LP_Configuration | LP_InvalidPassword | LP_InvalidHash | LP_Hashing.
Inductive LocalPasswordVerificationError :=
| PV_Unauthenticated | PV_Control (e : ControlError) | PV_Password (e : LocalPasswordError).
Inductive LocalAuthError :=
| LA_Unauthenticated | LA_InvalidChallenge | LA_InvalidPolicy | LA_PasswordUnchanged | LA_InvalidMfaCode
| LA_MfaRateLimited (d : Z) | LA_MfaBusy | LA_MfaCapacity | LA_MfaUnavailable | LA_Password (e : LocalPasswordError)
| LA_Credential (e : CredentialError) | LA_Mfa (e : LocalMfaError) | LA_Control (e : ControlError).
#[global] Instance LocalAuthError_from_control : FromControl LocalAuthError := LA_Control.
Definition verification_error (e : LocalPasswordVerificationError) : LocalAuthError :=
  match e with
  | PV_Unauthenticated => LA_Unauthenticated
  | PV_Control e => LA_Control e
  | PV_Password e => LA_Password e
  end.

(** ** Policies and stages *)

Record LocalAuthPolicy := { lo_required : bool; lo_issuer_label : string; lo_challenge_ttl : Z }.
(** Durations are in nanoseconds. *)
Definition LocalAuthPolicy_new (required : bool) (issuer_label : string) (challenge_ttl : Z) : result LocalAuthError LocalAuthPolicy :=
  let issuer_label := trim issuer_label in
  if is_empty issuer_label || negb ((120 * NANOS <=? challenge_ttl) && (challenge_ttl <=? 1800 * NANOS))%Z then Err LA_InvalidPolicy else
  Ok {| lo_required := required; lo_issuer_label := issuer_label; lo_challenge_ttl := challenge_ttl |}.
Inductive LocalAuthStage := StPasswordChange | StMfa | StEnrollment.
#[global] Instance LocalAuthStage_eq_dec : EqDecision LocalAuthStage.
Proof. solve_decision. Defined.
Definition stage_sql (s : LocalAuthStage) : string :=
  match s with StPasswordChange => "password-change" | StMfa => "mfa" | StEnrollment => "mfa-enrollment" end.
Definition stage_parse (value : string) : result LocalAuthError LocalAuthStage :=
  if str_eqb value "password-change" then Ok StPasswordChange else
  if str_eqb value "mfa" then Ok StMfa else
  if str_eqb value "mfa-enrollment" then Ok StEnrollment else Err LA_InvalidChallenge.
Definition purpose_sql (p : LocalAuthPurpose) : string :=
  match p with PurposeAdminLogin => "admin-login" | PurposeOauthAuthorize => "oauth-authorize" | PurposeDeviceApprove => "device-approve" end.
Definition ensure_time (original : Z) : M clock LocalAuthError unit :=
  let? now := instant_now in if (original <=? now)%Z then fail (LA_Control CE_Deadline) else ret tt.
Definition ensure_expiry (expires now : Z) : result LocalAuthError unit :=
  if (expires <=? now)%Z then Err LA_InvalidChallenge else Ok tt.

(** ** The limiter *)

Definition U32_MAX : Z := 2 ^ 32 - 1.
Record LocalMfaAttemptPolicy := { mp_max_failures : Z; mp_window : Z; mp_lockout : Z; mp_max_tracked : Z; mp_stale_after : Z }.
Definition LocalMfaAttemptPolicy_new (max_failures window lockout max_tracked now : Z) : result LocalAuthError LocalMfaAttemptPolicy :=
  let! stale_after := ok_or (checked_add_duration window lockout) LA_InvalidPolicy in
  if (window =? 0)%Z || (lockout =? 0)%Z || bool_decide (checked_add_time now stale_after = None) then Err LA_InvalidPolicy else
  Ok {| mp_max_failures := max_failures; mp_window := window; mp_lockout := lockout; mp_max_tracked := max_tracked;
        mp_stale_after := stale_after |}.
Record MfaRateEntry := {
  me_window_start : Z;
  me_failures : Z;
  me_block_until : option Z;
  me_last_seen : Z;
  me_in_flight : bool;
}.
Notation Entries := (gmap string MfaRateEntry).

Section limiter.
Context (p : LocalMfaAttemptPolicy).
Definition retained (now : Z) (e : MfaRateEntry) : bool :=
  me_in_flight e || is_some_and (me_block_until e) (λ until, (now <? until)%Z)
  || (saturating_duration_since now (me_last_seen e) <=? mp_stale_after p)%Z.
Definition new_entry (now : Z) : MfaRateEntry :=
  {| me_window_start := now; me_failures := 0; me_block_until := None; me_last_seen := now; me_in_flight := false |}.
(** Room for a subject that is not tracked yet. *)
Definition admit_track (subject : string) (now : Z) : M Entries LocalAuthError unit :=
  let? entries := get in
  if bool_decide (is_Some (entries !! subject)) then ret tt else
  let entries := if (mp_max_tracked p <=? Z.of_nat (size entries))%Z
                 then filter (λ kv, retained now kv.2 = true) entries else entries in
  do? put entries in
  if (mp_max_tracked p <=? Z.of_nat (size entries))%Z then fail LA_MfaCapacity else
  put (<[subject := new_entry now]> entries).
Definition admit_at (subject : string) (now : Z) : M Entries LocalAuthError unit :=
  do? admit_track subject now in
  let? entries := get in
  let? entry := lift_result (ok_or (entries !! subject) LA_MfaUnavailable) in
  if me_in_flight entry then fail LA_MfaBusy else
  match still_blocked (me_block_until entry) now with
  | Some until => fail (LA_MfaRateLimited (saturating_duration_since until now))
  | None => put (<[subject :=
      {| me_window_start := me_window_start entry; me_failures := me_failures entry; me_block_until := me_block_until entry;
         me_last_seen := now; me_in_flight := true |}]> entries)
  end.
Definition failure_at (subject : string) (now : Z) : M Entries LocalAuthError unit :=
  let? entries := get in
  let? entry := lift_result (ok_or (entries !! subject) LA_MfaUnavailable) in
  let '(start, failures) :=
    if (me_failures entry =? 0)%Z || (mp_window p <=? saturating_duration_since now (me_window_start entry))%Z
    then (now, 0%Z) else (me_window_start entry, me_failures entry) in
  let failures := Z.min U32_MAX (failures + 1) in
  let counted := {| me_window_start := start; me_failures := failures; me_block_until := me_block_until entry;
                    me_last_seen := me_last_seen entry; me_in_flight := me_in_flight entry |} in
  do? put (<[subject := counted]> entries) in
  let? block := (if (mp_max_failures p <=? failures)%Z
                 then lift_result (rmap Some (ok_or (checked_add_time now (mp_lockout p)) LA_MfaUnavailable))
                 else ret (me_block_until entry)) in
  put (<[subject := {| me_window_start := start; me_failures := failures; me_block_until := block; me_last_seen := now;
                       me_in_flight := me_in_flight entry |}]> entries).
Definition success (subject : string) : M Entries LocalAuthError unit :=
  let? entries := get in put (delete subject entries).
(** [Drop for LocalMfaAttempt], of an attempt that did not succeed. *)
Definition drop_attempt (subject : string) (entries : Entries) : Entries :=
  match entries !! subject with
  | Some e =>
      if (me_failures e =? 0)%Z then delete subject entries else
      <[subject := {| me_window_start := me_window_start e; me_failures := me_failures e; me_block_until := me_block_until e;
                      me_last_seen := me_last_seen e; me_in_flight := false |}]> entries
  | None => entries
  end.
End limiter.

(** ** The limiter at work *)

(** What the threads of a process do with the limiter.  The time of an admission
    is read before its lock is taken, at most a lockout earlier; that of a failure
    while the attempt is in flight, and an attempt fails at most once.  [w_live]
    has the attempts in flight, any number of them and of any persons, each with
    the moment of its admission and whether it has failed; [w_log] the failures of
    each subject since its last success, newest first. *)
Record LiveAttempt := { at_subject : string; at_admitted : Z; at_failed : bool }.
Record World := { w_entries : Entries; w_live : gmap nat LiveAttempt; w_log : gmap string (list Z); w_now : Z }.
Definition quiet (now : Z) : World := {| w_entries := ∅; w_live := ∅; w_log := ∅; w_now := now |}.

Section machine.
Context (p : LocalMfaAttemptPolicy).
Inductive moves (w : World) : World → Prop :=
| MTime now : (w_now w ≤ now)%Z →
    moves w {| w_entries := w_entries w; w_live := w_live w; w_log := w_log w; w_now := now |}
| MAdmit id subject t entries : w_live w !! id = None → (t ≤ w_now w ≤ t + mp_lockout p)%Z →
    admit_at p subject t (w_entries w) = (Ok tt, entries) →
    moves w {| w_entries := entries;
               w_live := <[id := {| at_subject := subject; at_admitted := w_now w; at_failed := false |}]> (w_live w);
               w_log := w_log w; w_now := w_now w |}
| MRefuse subject t e entries : (t ≤ w_now w ≤ t + mp_lockout p)%Z → admit_at p subject t (w_entries w) = (Err e, entries) →
    moves w {| w_entries := entries; w_live := w_live w; w_log := w_log w; w_now := w_now w |}
| MFail id subject a t x entries :
    w_live w !! id = Some {| at_subject := subject; at_admitted := a; at_failed := false |} → (a ≤ t ≤ w_now w)%Z →
    failure_at p subject t (w_entries w) = (x, entries) →
    moves w {| w_entries := entries;
               w_live := <[id := {| at_subject := subject; at_admitted := a; at_failed := true |}]> (w_live w);
               w_log := <[subject := t :: w_log w !!! subject]> (w_log w); w_now := w_now w |}
| MSucceed id subject a x entries :
    w_live w !! id = Some {| at_subject := subject; at_admitted := a; at_failed := false |} →
    success subject (w_entries w) = (x, entries) →
    moves w {| w_entries := entries; w_live := delete id (w_live w); w_log := delete subject (w_log w); w_now := w_now w |}
| MDrop id attempt : w_live w !! id = Some attempt →
    moves w {| w_entries := drop_attempt (at_subject attempt) (w_entries w); w_live := delete id (w_live w); w_log := w_log w;
               w_now := w_now w |}.

(** The time that passes at least between failures that many apart. *)
Definition pause : Z := Z.min (mp_window p) (mp_lockout p).
Definition max_failures : nat := Z.to_nat (mp_max_failures p).
Definition spaced (n : nat) (log : list Z) : Prop := ∀ i t t', log !! i = Some t' → log !! (i + n) = Some t → (t + pause ≤ t')%Z.
Record sane : Prop := {
  sane_max : (1 ≤ mp_max_failures p ≤ U32_MAX)%Z;
  sane_window : (0 < mp_window p)%Z;
  sane_lockout : (0 < mp_lockout p)%Z;
  sane_tracked : (1 ≤ mp_max_tracked p)%Z;
  sane_stale : mp_stale_after p = (mp_window p + mp_lockout p)%Z;
}.
Context (Hp : sane).

(** What the entry of a subject records of its failures. *)
Record recorded (log : list Z) (e : MfaRateEntry) : Prop := {
  rc_nonneg : (0 ≤ me_failures e)%Z;
  rc_window : (0 < me_failures e < mp_max_failures p)%Z →
    log !! Z.to_nat (me_failures e - 1) = Some (me_window_start e) ∧
    ∀ u, log !! (Z.to_nat (me_failures e) + max_failures - 1) = Some u → (u + pause ≤ me_window_start e)%Z;
  rc_blocked : (mp_max_failures p ≤ me_failures e)%Z → ∃ t, log !! 0 = Some t ∧ me_block_until e = Some (t + mp_lockout p)%Z;
  rc_seen : (0 < me_failures e)%Z → ∀ t, t ∈ log → (t ≤ me_last_seen e + mp_lockout p)%Z;
}.
Record tracked (now : Z) (e : option MfaRateEntry) (live : option (Z * bool)) (log : list Z) : Prop := {
  tr_log : (∀ i j t t', i ≤ j → log !! i = Some t' → log !! j = Some t → (t ≤ t')%Z) ∧ (∀ t, t ∈ log → (t ≤ now)%Z);
  tr_spaced : spaced (2 * max_failures - 1) log;
  tr_flight : is_Some live ↔ ∃ e', e = Some e' ∧ me_in_flight e' = true;
  tr_entry : ∀ e', e = Some e' → recorded log e';
  tr_clear : (∀ e', e = Some e' → me_failures e' = 0%Z) → ∀ t, t ∈ log → (t + mp_window p ≤ now)%Z;
  tr_admitted : ∀ a, live = Some (a, false) → (a ≤ now)%Z ∧ (∀ t, t ∈ log → (t ≤ a)%Z) ∧
    ∀ e', e = Some e' → (me_failures e' = 0%Z → ∀ t, t ∈ log → (t + mp_window p ≤ a)%Z) ∧
      ((mp_max_failures p ≤ me_failures e')%Z → ∀ t, t ∈ log → (t + mp_lockout p ≤ a)%Z);
}.
(** The one attempt of a person, if there is any, and there is no other. *)
Definition sole (live : gmap nat LiveAttempt) (s : string) (o : option (Z * bool)) : Prop :=
  match o with
  | None => ∀ id a, live !! id = Some a → at_subject a ≠ s
  | Some (t, f) => ∃ id, live !! id = Some {| at_subject := s; at_admitted := t; at_failed := f |} ∧
      ∀ id' a, live !! id' = Some a → at_subject a = s → id' = id
  end.
Record world_ok (w : World) : Prop := {
  wo_size : (Z.of_nat (size (w_entries w)) ≤ mp_max_tracked p)%Z;
  wo_tracked : ∀ s, ∃ o, sole (w_live w) s o ∧ tracked (w_now w) (w_entries w !! s) o (w_log w !!! s);
}.
Lemma sole_lookup live s o id a :
  sole live s o → live !! id = Some a → at_subject a = s → o = Some (at_admitted a, at_failed a).
Proof.
  destruct o as [[t f]|]; simpl; [|intros Hn Ha Hs; by apply Hn in Ha]. intros (id' & Hi & Hu) Ha Hs.
  rewrite (Hu _ _ Ha Hs), Hi in Ha. by injection Ha as <-.
Qed.
Lemma sole_unique live s o id id' a a' :
  sole live s o → live !! id = Some a → live !! id' = Some a' → at_subject a = s → at_subject a' = s → id = id'.
Proof.
  destruct o as [[t f]|]; simpl; [|intros Hn Ha _ Hs; by apply Hn in Ha]. intros (i & _ & Hu) Ha Ha' Hs Hs'.
  by rewrite (Hu _ _ Ha Hs), (Hu _ _ Ha' Hs').
Qed.
Lemma sole_admit live s id t f :
  sole live s None → live !! id = None →
  sole (<[id := {| at_subject := s; at_admitted := t; at_failed := f |}]> live) s (Some (t, f)).
Proof.
  intros Hn Hid. exists id. rewrite lookup_insert_eq. split; [done|]. intros id' a [[-> _]|[_ Ha]]%lookup_insert_Some Hs; [done|].
  by apply Hn in Ha.
Qed.
Lemma sole_update live s id t f f' :
  sole live s (Some (t, f)) → live !! id = Some {| at_subject := s; at_admitted := t; at_failed := f |} →
  sole (<[id := {| at_subject := s; at_admitted := t; at_failed := f' |}]> live) s (Some (t, f')).
Proof.
  intros (i & Hi & Hu) Hid. exists id. rewrite lookup_insert_eq. split; [done|]. intros id' a [[-> _]|[_ Ha]]%lookup_insert_Some Hs; [done|].
  by rewrite (Hu _ _ Ha Hs), (Hu _ _ Hid eq_refl).
Qed.
Lemma sole_insert_other live s o id a :
  sole live s o → at_subject a ≠ s → (∀ a', live !! id = Some a' → at_subject a' ≠ s) → sole (<[id := a]> live) s o.
Proof.
  intros Ho Hne Hold. destruct o as [[t f]|]; simpl in *.
  - destruct Ho as (i & Hi & Hu). exists i. assert (id ≠ i) by (intros ->; by apply Hold in Hi). rewrite lookup_insert_ne by done.
    split; [done|]. intros id' a' [[_ <-]|[_ Ha]]%lookup_insert_Some Hs; [done|by eapply Hu].
  - intros id' a' [[_ <-]|[_ Ha]]%lookup_insert_Some; [done|by eapply Ho].
Qed.
Lemma sole_remove live s o id a : sole live s o → live !! id = Some a → at_subject a = s → sole (delete id live) s None.
Proof.
  intros Ho Ha Hs id' a' [Hne Ha']%lookup_delete_Some Hs'. apply Hne. exact (sole_unique _ _ _ _ _ _ _ Ho Ha Ha' Hs Hs').
Qed.
Lemma sole_remove_other live s o id a : sole live s o → live !! id = Some a → at_subject a ≠ s → sole (delete id live) s o.
Proof.
  intros Ho Ha Hne. destruct o as [[t f]|]; simpl in *.
  - destruct Ho as (i & Hi & Hu). exists i. assert (id ≠ i) by (intros ->; rewrite Hi in Ha; by injection Ha as <-). rewrite lookup_delete_ne by done.
    split; [done|]. intros id' a' [_ Ha']%lookup_delete_Some Hs. by eapply Hu.
  - intros id' a' [_ Ha']%lookup_delete_Some. by eapply Ho.
Qed.

(** *** What the operations do to the table *)

(** Entries may be forgotten once they are stale. *)
Definition trimmed (t : Z) (entries entries' : Entries) (s : string) : Prop :=
  entries' !! s = entries !! s ∨ ∃ e, entries !! s = Some e ∧ retained p t e = false ∧ entries' !! s = None.
Definition taken (t : Z) (e : MfaRateEntry) : MfaRateEntry :=
  {| me_window_start := me_window_start e; me_failures := me_failures e; me_block_until := me_block_until e;
     me_last_seen := t; me_in_flight := true |}.
Lemma filter_trimmed t (entries : Entries) s : trimmed t entries (filter (λ kv, retained p t kv.2 = true) entries) s.
Proof.
  unfold trimmed. destruct (entries !! s) as [e|] eqn:Ee.
  - destruct (retained p t e) eqn:Er; [left|right; exists e]; [by apply map_lookup_filter_Some|].
    split; [done|]. split; [done|]. apply map_lookup_filter_None. right. intros e' [= <-]%(λ H, eq_trans (eq_sym Ee) H). simpl. congruence.
  - left. apply map_lookup_filter_None. by left.
Qed.
Lemma admit_track_spec subject t (entries : Entries) x entries' :
  admit_track p subject t entries = (x, entries') → (Z.of_nat (size entries) ≤ mp_max_tracked p)%Z →
  (Z.of_nat (size entries') ≤ mp_max_tracked p)%Z ∧ (∀ s, s ≠ subject → trimmed t entries entries' s) ∧
  (x = Ok tt ∧ entries' !! subject = Some (default (new_entry t) (entries !! subject)) ∨
   (∃ e, x = Err e) ∧ entries !! subject = None ∧ entries' !! subject = None).
Proof.
  unfold admit_track. cbn [bind get]. case_bool_decide as Hs.
  { intros [= <- <-] Hz. destruct Hs as [e He]. rewrite He. split; [done|]. split; [by left|]. by left. }
  assert (entries !! subject = None) as Hnone by (by apply eq_None_not_Some). rewrite Hnone.
  set (kept := if (mp_max_tracked p <=? Z.of_nat (size entries))%Z then filter (λ kv, retained p t kv.2 = true) entries else entries).
  assert (∀ s, trimmed t entries kept s) as Hk by (intros s; unfold kept; case_match; [apply filter_trimmed|by left]).
  assert (size kept ≤ size entries) as Hsz.
  { unfold kept. case_match; [|done]. apply map_subseteq_size, map_filter_subseteq. }
  assert (kept !! subject = None) as Hkn by (destruct (Hk subject) as [->|(? & ? & _)]; [done|congruence]).
  cbn [bind put]. destruct (Z.leb_spec (mp_max_tracked p) (Z.of_nat (size kept))) as [Hge|Hlt]; intros [= <- <-] Hz.
  - split; [lia|]. split; [auto|]. right. eauto.
  - rewrite map_size_insert_None by done. split; [lia|]. split; [|left; by rewrite lookup_insert_eq].
    intros s Hne. unfold trimmed. rewrite lookup_insert_ne by done. apply Hk.
Qed.
Lemma admit_spec subject t (entries : Entries) x entries' :
  admit_at p subject t entries = (x, entries') → (Z.of_nat (size entries) ≤ mp_max_tracked p)%Z →
  (Z.of_nat (size entries') ≤ mp_max_tracked p)%Z ∧ (∀ s, s ≠ subject → trimmed t entries entries' s) ∧
  (x = Ok tt ∧ (∃ e, e = default (new_entry t) (entries !! subject) ∧ me_in_flight e = false ∧
      still_blocked (me_block_until e) t = None ∧ entries' !! subject = Some (taken t e)) ∨
   (∃ e, x = Err e) ∧ entries' !! subject = entries !! subject).
Proof.
  unfold admit_at. intros Hr Hz. apply bind_cases in Hr as [([] & m & Ht & Hr)|(e & Ht & ->)];
    apply admit_track_spec in Ht as (Hm & Hk & Hc); try done.
  2: { destruct Hc as [[? _]|(_ & -> & ->)]; [done|]. split; [done|]. split; [done|]. right. eauto. }
  destruct Hc as [[_ Hm']|[[? ?] _]]; [|done]. cbn [bind get] in Hr. rewrite Hm' in Hr. cbn in Hr. set (e := default _ _) in *.
  destruct (entries !! subject) as [e0|] eqn:Ee.
  - destruct (me_in_flight e) eqn:Ef; [|destruct (still_blocked _ _) eqn:Eb]; injection Hr as <- <-.
    1, 2: split; [done|]; split; [done|]; right; eauto.
    rewrite map_size_insert_Some by (by rewrite Hm'). split; [done|]. split.
    + intros s Hne. unfold trimmed. rewrite lookup_insert_ne by done. by apply Hk.
    + left. split; [done|]. exists e. rewrite lookup_insert_eq. auto.
  - simpl in e. subst e. simpl in Hr. injection Hr as <- <-. rewrite map_size_insert_Some by (by rewrite Hm'). split; [done|]. split.
    + intros s Hne. unfold trimmed. rewrite lookup_insert_ne by done. by apply Hk.
    + left. split; [done|]. eexists. rewrite lookup_insert_eq. auto.
Qed.

(** *** The failures of one subject *)

Lemma tracked_none now : tracked now None None [].
Proof.
  split; [split; [done|set_solver]|done| |done|set_solver|done]. split; [by intros [? ?]|]. by intros (? & ? & _).
Qed.
Lemma tracked_time now now' e live log : (now ≤ now')%Z → tracked now e live log → tracked now' e live log.
Proof.
  intros Hle [[Hs Hl] Hsp Hf He Hc Ha]. split; [split; [done|]|done|done|done| |].
  - intros t Ht. specialize (Hl t Ht). lia.
  - intros H0 t Ht. specialize (Hc H0 t Ht). lia.
  - intros a Hlive. destruct (Ha a Hlive) as (? & ? & ?). split; [lia|done].
Qed.
Lemma tracked_forgotten now t e live log :
  tracked now (Some e) live log → retained p t e = false → (t ≤ now)%Z → tracked now None live log.
Proof.
  intros [Hl Hsp Hf He Hc Ha] Hr Ht. unfold retained in Hr. apply orb_false_iff in Hr as [[Hi _]%orb_false_iff Hst%Z.leb_gt].
  assert (live = None) as ->.
  { apply eq_None_not_Some. intros Hs%Hf. destruct Hs as (? & [= <-] & ?). congruence. }
  split; [done|done| |done| |done].
  - split; [by intros [? ?]|by intros (? & ? & _)].
  - intros _ u Hu. specialize (He e eq_refl). unfold saturating_duration_since in Hst. rewrite (sane_stale Hp) in Hst.
    destruct (decide (me_failures e = 0%Z)) as [H0|H0]; [apply Hc; [by intros ? [= <-]|done]|].
    pose proof (rc_nonneg _ _ He). pose proof (rc_seen _ _ He ltac:(lia) u Hu). pose proof (sane_window Hp). pose proof (sane_lockout Hp). lia.
Qed.
Lemma tracked_taken now t o live log :
  tracked now o live log → (t ≤ now ≤ t + mp_lockout p)%Z →
  me_in_flight (default (new_entry t) o) = false → still_blocked (me_block_until (default (new_entry t) o)) t = None →
  tracked now (Some (taken t (default (new_entry t) o))) (Some (now, false)) log.
Proof.
  intros [[Hs Hl] Hsp Hf He Hc Ha] Ht Hfl Hb.
  assert (recorded log (taken t (default (new_entry t) o))) as Hrec.
  { destruct o as [e|]; simpl in *.
    - destruct (He e eq_refl) as [Hn Hw Hbl Hse]. split; simpl; [done|done|done|]. intros _ u Hu. specialize (Hl u Hu). lia.
    - pose proof (sane_max Hp). split; simpl; lia. }
  split; [done|done| | | |].
  - split; [|by eexists]. intros _. eexists. split; [done|done].
  - by intros ? [= <-].
  - intros H0 u Hu. apply Hc; [|done]. intros e' ->. by apply (H0 _ eq_refl).
  - intros a [= <-]. split; [done|]. split; [done|]. intros e' [= <-]. split.
    + simpl. intros H0. apply Hc. intros e' ->. done.
    + destruct o as [e|]; simpl in *; [|pose proof (sane_max Hp); lia]. intros Hm. destruct (rc_blocked _ _ (He e eq_refl) Hm) as (u & Hu & Hbu).
      rewrite Hbu in Hb. simpl in Hb. destruct (Z.ltb_spec t (u + mp_lockout p)); [done|]. intros v Hv.
      apply list_elem_of_lookup in Hv as [i Hi]. specialize (Hs 0 i v u ltac:(lia) Hu Hi). lia.
Qed.
Lemma tracked_dropped now subject (entries : Entries) a log :
  tracked now (entries !! subject) (Some a) log → tracked now (drop_attempt subject entries !! subject) None log.
Proof.
  intros [Hl Hsp Hf He Hc Ha]. destruct (proj1 Hf ltac:(by eexists)) as (e & Hee & Hfl). unfold drop_attempt.
  rewrite Hee in *. specialize (He e eq_refl). destruct (Z.eqb_spec (me_failures e) 0) as [H0|H0].
  - rewrite lookup_delete_eq. split; [done|done| |done| |done].
    + split; [by intros [? ?]|by intros (? & ? & _)].
    + intros _. apply Hc. by intros ? [= <-].
  - rewrite lookup_insert_eq. split; [done|done| | | |done].
    + split; [by intros [? ?]|]. by intros (? & [= <-] & ?).
    + intros ? [= <-]. destruct He. by split.
    + intros Hz. by specialize (Hz _ eq_refl).
Qed.
(** The entry after one more failure. *)
Definition restarts (t : Z) (e : MfaRateEntry) : bool :=
  (me_failures e =? 0)%Z || (mp_window p <=? saturating_duration_since t (me_window_start e))%Z.
Definition failed (t : Z) (e : MfaRateEntry) : MfaRateEntry :=
  let failures := Z.min U32_MAX ((if restarts t e then 0 else me_failures e) + 1) in
  {| me_window_start := if restarts t e then t else me_window_start e; me_failures := failures;
     me_block_until := if (mp_max_failures p <=? failures)%Z then Some (t + mp_lockout p)%Z else me_block_until e;
     me_last_seen := t; me_in_flight := me_in_flight e |}.
Lemma failure_spec subject t (entries : Entries) e x entries' :
  failure_at p subject t entries = (x, entries') → entries !! subject = Some e → (t + mp_lockout p ≤ TIME_MAX)%Z →
  x = Ok tt ∧ entries' = <[subject := failed t e]> entries.
Proof.
  unfold failure_at, failed, restarts. cbn [bind get]. intros Hr He Ht. rewrite He in Hr. cbn [ok_or lift_result] in Hr. revert Hr.
  unfold bind, lift_result, put, checked_add_time. rewrite (proj2 (Z.leb_le _ _) Ht).
  destruct ((me_failures e =? 0)%Z || (mp_window p <=? _)%Z)%bool; cbv beta iota;
    destruct (mp_max_failures p <=? _)%Z; simpl; intros [= <- <-]; done.
Qed.
Section failed.
Context (now a t : Z) (e : MfaRateEntry) (log : list Z).
Context (Ht : tracked now (Some e) (Some (a, false)) log) (Ha : (a ≤ t ≤ now)%Z).
Lemma failed_after u : u ∈ log → (u ≤ t)%Z.
Proof. intros Hu. destruct (tr_admitted _ _ _ _ Ht a eq_refl) as (_ & Hle & _). specialize (Hle u Hu). lia. Qed.
(** Unless the count of the entry goes on, all that is recorded is long past. *)
Lemma failed_past u : (me_failures e = 0 ∨ mp_max_failures p ≤ me_failures e)%Z → u ∈ log → (u + pause ≤ t)%Z.
Proof.
  intros Hc Hu. destruct (tr_admitted _ _ _ _ Ht a eq_refl) as (_ & _ & Hle). destruct (Hle e eq_refl) as [H0 Hm]. unfold pause.
  destruct Hc as [Hc|Hc]; [specialize (H0 Hc u Hu)|specialize (Hm Hc u Hu)]; lia.
Qed.
(** An older failure is no later. *)
Lemma older i j u v : i ≤ j → log !! i = Some v → log !! j = Some u → (u ≤ v)%Z.
Proof. intros. by eapply (proj1 (tr_log _ _ _ _ Ht)). Qed.
Lemma failed_window u : restarts t e = true → log !! (max_failures - 1) = Some u → (u + pause ≤ t)%Z.
Proof.
  intros Hr Hu. pose proof (rc_nonneg _ _ (tr_entry _ _ _ _ Ht e eq_refl)) as H0.
  destruct (decide (me_failures e = 0 ∨ mp_max_failures p ≤ me_failures e)%Z) as [Hc|Hc].
  { apply failed_past; [done|]. by apply list_elem_of_lookup_2 in Hu. }
  destruct (rc_window _ _ (tr_entry _ _ _ _ Ht e eq_refl) ltac:(lia)) as [Hws _].
  assert (u ≤ me_window_start e)%Z by (eapply older; [|exact Hws|exact Hu]; unfold max_failures; lia).
  unfold restarts, saturating_duration_since in Hr. pose proof (sane_window Hp). unfold pause. bool_to_prop. lia.
Qed.
Lemma failed_spaced : spaced (2 * max_failures - 1) (t :: log).
Proof.
  intros [|i] u v Hv Hu; [injection Hv as <-|by eapply (tr_spaced _ _ _ _ Ht)]. pose proof (sane_max Hp) as Hmax.
  pose proof (rc_nonneg _ _ (tr_entry _ _ _ _ Ht e eq_refl)) as H0.
  destruct (decide (max_failures = 1)) as [H1|H1].
  { rewrite H1 in Hu. change (log !! 0 = Some u) in Hu. apply failed_past; [|by apply list_elem_of_lookup_2 in Hu].
    unfold max_failures in H1. lia. }
  replace (0 + (2 * max_failures - 1)) with (S (2 * max_failures - 2)) in Hu by (unfold max_failures in *; lia). simpl in Hu.
  destruct (decide (me_failures e = 0 ∨ mp_max_failures p ≤ me_failures e)%Z) as [Hc|Hc].
  { apply failed_past; [done|]. by apply list_elem_of_lookup_2 in Hu. }
  destruct (rc_window _ _ (tr_entry _ _ _ _ Ht e eq_refl) ltac:(lia)) as [Hws Hprev].
  destruct (lookup_lt_is_Some_2 log (Z.to_nat (me_failures e) + max_failures - 1)) as [w Hw].
  { apply lookup_lt_Some in Hu. unfold max_failures in *. lia. }
  specialize (Hprev w Hw). apply list_elem_of_lookup_2, failed_after in Hws.
  assert (u ≤ w)%Z by (eapply older; [|exact Hw|exact Hu]; unfold max_failures in *; lia). lia.
Qed.
Lemma failed_recorded : recorded (t :: log) (failed t e).
Proof.
  pose proof (sane_max Hp) as Hmax. pose proof (rc_nonneg _ _ (tr_entry _ _ _ _ Ht e eq_refl)) as H0.
  unfold failed. split; cbn [me_failures me_window_start me_block_until me_last_seen].
  - unfold U32_MAX. case_match; lia.
  - destruct (restarts t e) eqn:Er; intros Hc.
    + replace (Z.min U32_MAX (0 + 1)) with 1%Z in * by done. split; [done|]. intros u Hu. apply failed_window; [done|].
      replace (Z.to_nat 1 + max_failures - 1) with (S (max_failures - 1)) in Hu by (unfold max_failures; lia). done.
    + replace (Z.min U32_MAX (me_failures e + 1)) with (me_failures e + 1)%Z in * by lia.
      assert (me_failures e ≠ 0%Z) as Hne by (unfold restarts in Er; bool_to_prop; lia).
      destruct (rc_window _ _ (tr_entry _ _ _ _ Ht e eq_refl) ltac:(lia)) as [Hws Hprev]. split.
      * replace (Z.to_nat (me_failures e + 1 - 1)) with (S (Z.to_nat (me_failures e - 1))) by lia. done.
      * intros u Hu. apply Hprev.
        replace (Z.to_nat (me_failures e + 1) + max_failures - 1) with (S (Z.to_nat (me_failures e) + max_failures - 1)) in Hu
          by (unfold max_failures; lia). done.
  - intros Hc. exists t. rewrite (proj2 (Z.leb_le _ _) Hc). done.
  - intros _ u [->|Hu]%elem_of_cons; [pose proof (sane_lockout Hp); lia|]. apply failed_after in Hu. pose proof (sane_lockout Hp). lia.
Qed.
Lemma tracked_failed : tracked now (Some (failed t e)) (Some (a, true)) (t :: log).
Proof.
  destruct (tr_log _ _ _ _ Ht) as [Hs Hl]. split; [split| | | | |done].
  - intros [|i] [|j] u v Hij Hv Hu; simpl in *; [by simplify_eq| |lia|by eapply (Hs i j); [lia|..]]. injection Hv as <-.
    apply failed_after. by apply list_elem_of_lookup_2 in Hu.
  - intros u [->|Hu]%elem_of_cons; [lia|auto].
  - apply failed_spaced.
  - split; [|by eexists]. intros _. destruct (proj1 (tr_flight _ _ _ _ Ht) ltac:(by eexists)) as (? & [= <-] & Hfl). by eexists.
  - intros ? [= <-]. apply failed_recorded.
  - intros Hz. specialize (Hz _ eq_refl). pose proof (rc_nonneg _ _ (tr_entry _ _ _ _ Ht e eq_refl)) as H0. unfold failed in Hz. simpl in Hz.
    unfold U32_MAX in Hz. case_match; lia.
Qed.
End failed.

(** *** Every interleaving *)

Lemma quiet_ok now : world_ok (quiet now).
Proof.
  split; simpl; [rewrite map_size_empty; pose proof (sane_tracked Hp); lia|]. intros s. exists None.
  split; [by intros id a ?%lookup_empty_Some|]. rewrite !lookup_empty, lookup_total_empty. apply tracked_none.
Qed.
Lemma others_ok now t (entries entries' : Entries) live log s :
  tracked now (entries !! s) live log → trimmed t entries entries' s → (t ≤ now)%Z → tracked now (entries' !! s) live log.
Proof. intros Ht [->|(e & He & Hr & ->)] Hle; [done|]. rewrite He in Ht. by eapply tracked_forgotten. Qed.
(** Whoever is admitted has no attempt in flight. *)
Lemma not_in_flight now e t o log : tracked now e o log → me_in_flight (default (new_entry t) e) = false → o = None.
Proof.
  intros Ht Hf. destruct o as [a|]; [|done]. destruct (proj1 (tr_flight _ _ _ _ Ht) ltac:(by eexists)) as (e' & -> & He). simpl in Hf. congruence.
Qed.
Lemma moves_ok w w' : moves w w' → (w_now w' + mp_lockout p ≤ TIME_MAX)%Z → world_ok w → world_ok w'.
Proof.
  intros Hm Hend [Hz Hw]. destruct Hm as [now Hle|id subject t entries Hid Ht Hr|subject t e entries Ht Hr|id subject a t x entries Ha Ht Hr
                                          |id subject a x entries Ha Hr|id attempt Ha]; simpl in *.
  - split; [done|]. intros s. destruct (Hw s) as (o & Ho & Htr). exists o. split; [done|]. by eapply tracked_time.
  - apply admit_spec in Hr as (Hz' & Ho & [(_ & e & He & Hf & Hb & Hs)|[[? ?] _]]); [|done|done]. split; [done|]. simpl. intros s.
    destruct (Hw s) as (o & Hsole & Htr). destruct (decide (s = subject)) as [->|Hne].
    + subst e. pose proof (not_in_flight _ _ _ _ _ Htr Hf) as ->. exists (Some (w_now w, false)). split; [by apply sole_admit|].
      rewrite Hs. by eapply tracked_taken.
    + exists o. split; [apply sole_insert_other; [done|done|by rewrite Hid]|]. eapply others_ok; [done|by apply Ho|lia].
  - apply admit_spec in Hr as (Hz' & Ho & [(? & _)|[_ Hs]]); [done| |done]. split; [done|]. simpl. intros s.
    destruct (Hw s) as (o & Hsole & Htr). exists o. split; [done|].
    destruct (decide (s = subject)) as [->|Hne]; [by rewrite Hs|]. eapply others_ok; [done|by apply Ho|lia].
  - destruct (Hw subject) as (o & Hsole & Hs). pose proof (sole_lookup _ _ _ _ _ Hsole Ha eq_refl) as ->. simpl in Hsole, Hs.
    destruct (proj1 (tr_flight _ _ _ _ Hs) ltac:(by eexists)) as (e & He & _).
    apply (failure_spec _ _ _ e) in Hr as [-> ->]; [|done|lia]. rewrite He in Hs. split; simpl.
    { rewrite map_size_insert_Some by (by rewrite He). done. }
    intros s. destruct (decide (s = subject)) as [->|Hne].
    + exists (Some (a, true)). split; [by eapply sole_update|]. rewrite lookup_insert_eq, lookup_total_insert_eq. by eapply tracked_failed.
    + destruct (Hw s) as (o' & Hsole' & Hs'). exists o'. rewrite lookup_insert_ne, lookup_total_insert_ne by done. split; [|done].
      apply sole_insert_other; [done|done|]. rewrite Ha. by intros ? [= <-].
  - injection Hr as <- <-. split; simpl.
    { etrans; [|exact Hz]. apply inj_le, map_subseteq_size, delete_subseteq. }
    intros s. destruct (Hw s) as (o & Hsole & Hs). destruct (decide (s = subject)) as [->|Hne].
    + exists None. split; [by eapply sole_remove|]. rewrite lookup_delete_eq, lookup_total_alt, lookup_delete_eq. apply tracked_none.
    + exists o. split; [by eapply sole_remove_other|]. rewrite lookup_total_alt, !lookup_delete_ne by done. by rewrite <- lookup_total_alt.
  - split; simpl.
    { etrans; [|exact Hz]. apply inj_le. unfold drop_attempt. destruct (w_entries w !! at_subject attempt) eqn:E; [|done]. case_match.
      - apply map_subseteq_size, delete_subseteq.
      - by rewrite map_size_insert_Some by (by rewrite E). }
    intros s. destruct (Hw s) as (o & Hsole & Hs). destruct (decide (s = at_subject attempt)) as [->|Hne].
    + exists None. rewrite (sole_lookup _ _ _ _ _ Hsole Ha eq_refl) in Hs. apply tracked_dropped in Hs. split; [by eapply sole_remove|done].
    + exists o. split; [by eapply sole_remove_other|].
      replace (drop_attempt (at_subject attempt) (w_entries w) !! s) with (w_entries w !! s); [done|]. unfold drop_attempt.
      repeat case_match; by rewrite ?lookup_delete_ne, ?lookup_insert_ne.
Qed.
Lemma moves_now w w' : moves w w' → (w_now w ≤ w_now w')%Z.
Proof. destruct 1; simpl; lia. Qed.
Lemma run_now w w' : rtc moves w w' → (w_now w ≤ w_now w')%Z.
Proof. induction 1 as [|? ? ? Hm _ IH]; [done|]. apply moves_now in Hm. lia. Qed.
Lemma run_ok w w' : rtc moves w w' → (w_now w' + mp_lockout p ≤ TIME_MAX)%Z → world_ok w → world_ok w'.
Proof.
  induction 1 as [|w1 w2 w3 Hm Hr IH]; [done|]. intros Hend Hw. apply IH; [done|]. eapply moves_ok; [exact Hm| |done].
  apply run_now in Hr. lia.
Qed.
End machine.

Lemma policy_sane max window lockout tracked now p :
  LocalMfaAttemptPolicy_new max window lockout tracked now = Ok p →
  (1 ≤ max ≤ U32_MAX)%Z → (0 ≤ window)%Z → (0 ≤ lockout)%Z → (1 ≤ tracked)%Z → sane p.
Proof.
  unfold LocalMfaAttemptPolicy_new. intros Hn Hm Hw Hl Ht. invert_ok Hn. bool_to_prop.
  match goal with Hc : checked_add_duration _ _ = Some _ |- _ => unfold checked_add_duration in Hc; case_match; [|done]; injection Hc as <- end.
  injection Hn as <-. split; simpl; lia.
Qed.
(** C24. Guesses of a second factor are rationed.  Under a policy that was
    accepted, whatever the threads of a process do, and however their admissions,
    failures, successes and abandoned attempts interleave, as long as none waits
    for the lock of the limiter longer than a lockout: of one person, without a
    success in between, any 2 * max_failures failures in a row take at least the
    window or the lockout, whichever is shorter. *)
Theorem guesses_rationed max window lockout capacity start p now w subject i t t' :
  LocalMfaAttemptPolicy_new max window lockout capacity start = Ok p →
  (1 ≤ max ≤ U32_MAX)%Z → (0 ≤ window)%Z → (0 ≤ lockout)%Z → (1 ≤ capacity)%Z →
  rtc (moves p) (quiet now) w → (w_now w + lockout ≤ TIME_MAX)%Z →
  (w_log w !!! subject) !! i = Some t' → (w_log w !!! subject) !! (i + (2 * Z.to_nat max - 1)) = Some t →
  (Z.min window lockout ≤ t' - t)%Z.
Proof.
  intros Hn Hm Hwin Hl Hc Hr Hend Hi Hj. pose proof (policy_sane _ _ _ _ _ _ Hn Hm Hwin Hl Hc) as Hp.
  assert (mp_max_failures p = max ∧ mp_window p = window ∧ mp_lockout p = lockout) as (<- & <- & <-).
  { unfold LocalMfaAttemptPolicy_new in Hn. invert_ok Hn. by injection Hn as <-. }
  pose proof (run_ok p Hp _ _ Hr Hend (quiet_ok p Hp now)) as Hw.
  destruct (wo_tracked _ _ Hw subject) as (o & _ & Htr). pose proof (tr_spaced _ _ _ _ _ Htr i t t' Hi Hj). unfold pause in *. lia.
Qed.
(** C32. The table of the limiter is well formed in every interleaving: it stays
    within its capacity; two attempts in flight are never of one person, however
    many threads try to begin one; and a person is marked in flight in the table
    exactly while an attempt of theirs is. *)
Theorem limiter_well_formed max window lockout capacity start p now w :
  LocalMfaAttemptPolicy_new max window lockout capacity start = Ok p →
  (1 ≤ max ≤ U32_MAX)%Z → (0 ≤ window)%Z → (0 ≤ lockout)%Z → (1 ≤ capacity)%Z →
  rtc (moves p) (quiet now) w → (w_now w + lockout ≤ TIME_MAX)%Z →
  (Z.of_nat (size (w_entries w)) ≤ capacity)%Z ∧
  (∀ id id' a a', w_live w !! id = Some a → w_live w !! id' = Some a' → at_subject a = at_subject a' → id = id') ∧
  ∀ s, (∃ id a, w_live w !! id = Some a ∧ at_subject a = s) ↔ ∃ e, w_entries w !! s = Some e ∧ me_in_flight e = true.
Proof.
  intros Hn Hm Hwin Hl Hc Hr Hend. pose proof (policy_sane _ _ _ _ _ _ Hn Hm Hwin Hl Hc) as Hp.
  assert (mp_max_tracked p = capacity ∧ mp_lockout p = lockout) as [<- <-].
  { unfold LocalMfaAttemptPolicy_new in Hn. invert_ok Hn. by injection Hn as <-. }
  pose proof (run_ok p Hp _ _ Hr Hend (quiet_ok p Hp now)) as Hw. split; [apply Hw|]. split.
  - intros id id' a a' Ha Ha' Hs. destruct (wo_tracked _ _ Hw (at_subject a)) as (o & Hsole & _).
    exact (sole_unique _ _ _ _ _ _ _ Hsole Ha Ha' eq_refl (eq_sym Hs)).
  - intros s. destruct (wo_tracked _ _ Hw s) as (o & Hsole & Htr). rewrite <- (tr_flight _ _ _ _ _ Htr). split.
    + intros (id & a & Ha & Hs). rewrite (sole_lookup _ _ _ _ _ Hsole Ha Hs). by eexists.
    + intros [[t f] ->]. destruct Hsole as (id & Ha & _). by eexists _, _.
Qed.

(** One guess, then after the lockout another. *)
Definition sample_attempts : LocalMfaAttemptPolicy :=
  {| mp_max_failures := 1; mp_window := 5; mp_lockout := 10; mp_max_tracked := 2; mp_stale_after := 15 |}.
Definition sample_entry (start : Z) (failures : Z) (block : option Z) (seen : Z) (flight : bool) : MfaRateEntry :=
  {| me_window_start := start; me_failures := failures; me_block_until := block; me_last_seen := seen; me_in_flight := flight |}.
Definition sample_attempt (a : Z) (f : bool) : LiveAttempt := {| at_subject := "alice"; at_admitted := a; at_failed := f |}.
Definition sample_guessed : World :=
  {| w_entries := {["alice" := sample_entry 10 1 (Some 20%Z) 10 true]}; w_live := {[1 := sample_attempt 10 true]};
     w_log := {["alice" := [10; 0]%Z]}; w_now := 10 |}.
Lemma sample_guesses : rtc (moves sample_attempts) (quiet 0) sample_guessed.
Proof.
  eapply rtc_l; [eapply (MAdmit _ _ 0 "alice" 0 {["alice" := sample_entry 0 0 None 0 true]}); vm_compute; done|].
  eapply rtc_l; [eapply (MFail _ _ 0 "alice" 0 0 (Ok tt) {["alice" := sample_entry 0 1 (Some 10%Z) 0 true]}); vm_compute; done|].
  eapply rtc_l; [eapply (MDrop _ _ 0 (sample_attempt 0 true)); vm_compute; done|].
  eapply rtc_l; [eapply (MTime _ _ 10); vm_compute; done|].
  eapply rtc_l; [eapply (MAdmit _ _ 1 "alice" 10 {["alice" := sample_entry 0 1 (Some 10%Z) 10 true]}); vm_compute; done|].
  eapply rtc_l; [eapply (MFail _ _ 1 "alice" 10 10 (Ok tt) {["alice" := sample_entry 10 1 (Some 20%Z) 10 true]}); vm_compute; done|].
  apply rtc_refl.
Qed.
Lemma guesses_rationed_witness : (Z.min 5 10 ≤ 10 - 0)%Z.
Proof.
  refine (guesses_rationed 1 5 10 2 0 sample_attempts 0 sample_guessed "alice" 0 0 10 _ _ _ _ _ sample_guesses _ _ _);
    vm_compute; repeat split; done || congruence.
Defined.
Lemma limiter_well_formed_witness : ∃ id a, w_live sample_guessed !! id = Some a ∧ at_subject a = "alice".
Proof.
  refine (proj2 (proj2 (proj2 (limiter_well_formed 1 5 10 2 0 sample_attempts 0 sample_guessed _ _ _ _ _ sample_guesses _)) "alice") _);
    [vm_compute; repeat split; done || congruence..|].
  eexists. split; [vm_compute; reflexivity|done].
Defined.
