(* ===== verification/LocalPassword.v ===== *)
(** * Local passwords

    crates/broker-security/src/password.rs (the stored form of a password),
    crates/broker-control/src/local_password.rs (the engine that runs the key
    derivation on a bounded number of workers) and service/local_password.rs (a
    password checked against the current row of its person).  Argon2 and the
    syntax of stored hashes are parameters; what the scheduler does to a piece of
    work is an argument. *)

From stdpp Require Import gmap.
From S2P Require Import Prelude RustStr Order Control Sql OidcTables StorageAdmission Credentials LocalMfa PasswordAdmission.
From S2P Require Import LocalAuth.

(** ** The stored form (password.rs) *)

Definition PASSWORD_DOMAIN : string := "graphit-broker/rust-local-password/v1" +:+ String NUL "".
Definition LOCAL_PASSWORD_MAX_BYTES : Z := 4096.
Definition PHC_MAX_BYTES : Z := 512.
Record PasswordHash := {
  ph_algorithm : string;
  ph_version : option Z;
  ph_params : list (string * string);
  ph_salt : option string;
  ph_hash : option string;
}.
Class PasswordLib := {
  phc_parse : string → option PasswordHash;
  get_decimal : list (string * string) → string → option Z;
  Params : Type;
  params_new (m t p output : Z) : option Params;
  argon2_with_salt (p : Params) (prehash salt : string) : option (option string);
  (* a fresh salt from the random bytes, and the whole as text *)
  argon2 (p : Params) (prehash : string) (random : option string) : option string;
}.
Definition LocalPasswordHasher : Type := string.
Definition LocalPasswordHasher_new (pepper : string) : result LocalPasswordError LocalPasswordHasher :=
  if (len pepper <? 32)%Z then Err LP_Configuration else Ok pepper.
Definition short_password (password : string) : bool :=
  (LOCAL_PASSWORD_MAX_BYTES <? len password)%Z || (char_count password <? 15)%Z.

Section hasher.
Context `{CredentialLib, PasswordLib}.
Definition parsed (phc : string) : result LocalPasswordError (PasswordHash * Params) :=
  if (PHC_MAX_BYTES <? len phc)%Z then Err LP_InvalidHash else
  let! h := ok_or (phc_parse phc) LP_InvalidHash in
  if negb (str_eqb (ph_algorithm h) "argon2id") || negb (bool_decide (ph_version h = Some 19%Z))
     || negb (length (ph_params h) =? 3)%nat
     || existsb (λ nv, negb (existsb (str_eqb nv.1) ["m"; "t"; "p"])) (ph_params h)
  then Err LP_InvalidHash else
  let! m := ok_or (get_decimal (ph_params h) "m") LP_InvalidHash in
  let! t := ok_or (get_decimal (ph_params h) "t") LP_InvalidHash in
  let! p := ok_or (get_decimal (ph_params h) "p") LP_InvalidHash in
  let! salt := ok_or (ph_salt h) LP_InvalidHash in
  let! hash := ok_or (ph_hash h) LP_InvalidHash in
  if (1048576 <? m)%Z || (10 <? t)%Z || (16 <? p)%Z || negb ((16 <=? len salt) && (len salt <=? 48))%Z
     || negb ((32 <=? len hash) && (len hash <=? 64))%Z
  then Err LP_InvalidHash else
  let! params := ok_or (params_new m t p (len hash)) LP_InvalidHash in
  Ok (h, params).
Definition validate_hash (phc : string) : result LocalPasswordError unit := rmap (λ _, tt) (parsed phc).
Definition prehash (pepper : LocalPasswordHasher) (password : string) : result LocalPasswordError string :=
  ok_or (hmac pepper (PASSWORD_DOMAIN +:+ password)) LP_Configuration.
Definition hash_password (pepper : LocalPasswordHasher) (password : string) (random : option string) : result LocalPasswordError string :=
  if short_password password then Err LP_InvalidPassword else
  let! prehash := prehash pepper password in
  let! params := ok_or (params_new 65536 3 4 32) LP_Configuration in
  ok_or (argon2 params prehash random) LP_Hashing.
Definition verify_password (pepper : LocalPasswordHasher) (password phc : string) : result LocalPasswordError bool :=
  if (LOCAL_PASSWORD_MAX_BYTES <? len password)%Z then Err LP_InvalidPassword else
  let! (h, params) := parsed phc in
  let! prehash := prehash pepper password in
  let! salt := ok_or (ph_salt h) LP_InvalidHash in
  let! computed := ok_or (argon2_with_salt params prehash salt) LP_Hashing in
  Ok (bool_decide (computed = ph_hash h)).
End hasher.

(** ** The engine (local_password.rs) *)

Record LocalPasswordEngine := { eg_hasher : LocalPasswordHasher; eg_dummy : string }.
(** What happens to a piece of work besides its own result: no slot before the
    deadline or a closed engine, an engine closed before it starts, an outcome
    that does not arrive. *)
Record WorkFate := {
  wf_slot : option ControlError;
  wf_closed : bool;
  wf_join : option LocalPasswordVerificationError;
}.
(** The lease of admitted work: whether admission is closed at each check. *)
Definition Lease : Type := option (nat → bool).
Definition password_time (original : Z) : M clock LocalPasswordVerificationError unit :=
  let? now := instant_now in if (original <=? now)%Z then fail (PV_Control CE_Deadline) else ret tt.
Definition lease_check (lease : Lease) (i : nat) (original : Z) : M clock ControlError unit :=
  match lease with
  | None => ret tt
  | Some closed =>
      let? now := instant_now in
      if (original <=? now)%Z then fail CE_Deadline else if closed i then fail CE_Closed else ret tt
  end.
Definition work {A} (original : Z) (fate : WorkFate) (operation : M clock LocalPasswordVerificationError A)
    : M clock LocalPasswordVerificationError A :=
  do? password_time original in
  do? match wf_slot fate with Some e => fail (PV_Control e) | None => ret tt end in
  do? password_time original in
  do? password_time original in
  if wf_closed fate then fail (PV_Control CE_Closed) else
  let? result := outcome (do? password_time original in let? r := operation in do? password_time original in ret r) in
  match wf_join fate with
  | Some e => fail e
  | None => let? r := lift_result result in do? password_time original in ret r
  end.

Section engine.
Context `{CredentialLib, PasswordLib} (engine : LocalPasswordEngine).
(** [hash], and [hash_for_change] under a lease. *)
Definition engine_hash (lease : Lease) (password : string) (random : option string) (original : Z) (fate : WorkFate)
    : M clock LocalPasswordVerificationError string :=
  if short_password password then fail (PV_Password LP_InvalidPassword) else
  work original fate (
    do? map_err PV_Control (lease_check lease 1 original) in
    lift_result (rmap_err PV_Password (hash_password (eg_hasher engine) password random))).
(** [verify], and [verify_for_change] under a lease.  A hash that is missing or
    malformed costs the same work and matches nothing. *)
Definition engine_verify (lease : Lease) (password : string) (phc : option string) (original : Z) (fate : WorkFate)
    : M clock LocalPasswordVerificationError bool :=
  if (LOCAL_PASSWORD_MAX_BYTES <? len password)%Z then fail (PV_Password LP_InvalidPassword) else
  let candidate := phc ≫= λ v, if is_ok (validate_hash v) then Some v else None in
  let hash := default (eg_dummy engine) candidate in
  work original fate (
    do? map_err PV_Control (lease_check lease 0 original) in
    let? matched := lift_result (rmap_err PV_Password (verify_password (eg_hasher engine) password hash)) in
    ret (bool_decide (is_Some candidate) && matched)).
End engine.

(** ** Verification (service/local_password.rs) *)

Record CurrentPassword := { cp_username : string; cp_subject : string; cp_hash : string; cp_revision : Z; cp_change_required : bool }.
#[global] Instance CurrentPassword_eq_dec : EqDecision CurrentPassword.
Proof. solve_decision. Defined.
Record VerifiedLocalPassword := {
  vp_username : string;
  vp_subject : string;
  vp_revision : Z;
  vp_password_change_required : bool;
  vp_verified_at : Z;
}.
Definition current_password (username : string) (u : UserRow) : option CurrentPassword :=
  hash ← capped 512 (us_password_hash u);
  username ← capped 128 username;
  subject ← capped 512 (us_subject u);
  if negb (safe_identity_segment username 128) || negb (valid_identity_subject subject 512)
     || negb (is_some_and (capped 16 (us_identity_kind u)) (str_eqb "human")) || negb (us_enabled u =? 1)%Z
     || negb ((us_password_change_required u =? 0) || (us_password_change_required u =? 1))%Z || (us_revision u <? 1)%Z
  then None else
  Some {| cp_username := username; cp_subject := subject; cp_hash := hash; cp_revision := us_revision u;
          cp_change_required := (us_password_change_required u =? 1)%Z |}.
#[global] Instance VerificationError_from_control : FromControl LocalPasswordVerificationError := PV_Control.

Section verifier.
Context `{CredentialLib, PasswordLib} (engine : LocalPasswordEngine) (operation_timeout : Z).
(** By the primary key, outside of a transaction. *)
Definition load_current (username : string) : M Tx LocalPasswordVerificationError (option CurrentPassword) :=
  do? sql_await in
  let? row := select (users username) in
  ret (row ≫= λ r, match r with RUser u => current_password username u | _ => None end).
Definition finish_current (initial : CurrentPassword) (stop : Z) : M Tx LocalPasswordVerificationError VerifiedLocalPassword :=
  do? sql_await in
  do? sql_await in
  let? row := select_where_locked (user_where (cp_subject initial)) in
  let? current := lift_result (ok_or (row ≫= λ kv, match kv.2 with RUser u => current_password kv.1.2 u | _ => None end) PV_Unauthenticated) in
  if negb (bool_decide (initial = current)) then fail PV_Unauthenticated else
  do? txn_with id (password_time stop) in
  let? now := txn_clock now_micros in
  let? verified_at := lift_result (ok_or (TimestampMicros_new now) (PV_Control CE_Clock)) in
  do? sql_commit in
  do? txn_with id (password_time stop) in
  ret {| vp_username := cp_username current; vp_subject := cp_subject current; vp_revision := cp_revision current;
         vp_password_change_required := cp_change_required current; vp_verified_at := verified_at |}.
Definition verify_local (username password : string) (original : Z) (fate : WorkFate)
    : M Tx LocalPasswordVerificationError VerifiedLocalPassword :=
  let? stop := txn_clock (bounded_deadline original operation_timeout) in
  let username := trim username in
  if negb (safe_identity_segment username 128) || (LOCAL_PASSWORD_MAX_BYTES <? len password)%Z then fail PV_Unauthenticated else
  let? initial := load_current username in
  let? matched := txn_with id (engine_verify engine None password (cp_hash <$> initial) stop fate) in
  if negb matched then fail PV_Unauthenticated else
  let? initial := lift_result (ok_or initial PV_Unauthenticated) in
  finish_current initial stop.
End verifier.

(** ** What a verified password proves *)

Section verified.
Context `{CredentialLib, PasswordLib} (engine : LocalPasswordEngine) (operation_timeout : Z).
Lemma keeps_password_time original : keeps clock_run (password_time original).
Proof. unfold password_time. auto with broker. Qed.
#[local] Hint Resolve keeps_password_time : broker.
Lemma keeps_lease_check lease i original : keeps clock_run (lease_check lease i original).
Proof. unfold lease_check. destruct lease; auto with broker. Qed.
#[local] Hint Resolve keeps_lease_check : broker.
Lemma keeps_work {A} original fate (m : M clock LocalPasswordVerificationError A) :
  keeps clock_run m → keeps clock_run (work original fate m).
Proof. intros Hm. unfold work. destruct (wf_slot fate), (wf_join fate); auto 20 with broker. Qed.
#[local] Hint Resolve keeps_work : broker.
Lemma keeps_engine_hash lease password random original fate :
  keeps clock_run (engine_hash engine lease password random original fate).
Proof. unfold engine_hash. auto 20 with broker. Qed.
Lemma keeps_engine_verify lease password phc original fate :
  keeps clock_run (engine_verify engine lease password phc original fate).
Proof. unfold engine_verify. auto 20 with broker. Qed.
(** Work that returns has returned the result of the operation. *)
Lemma work_ok {A} original fate (m : M clock LocalPasswordVerificationError A) c a c' :
  work original fate m c = (Ok a, c') → ∃ c1 c2, m c1 = (Ok a, c2).
Proof.
  unfold work. intros Hr. apply bind_ok in Hr as (? & c1 & _ & Hr). apply bind_ok in Hr as (? & c2 & _ & Hr).
  apply bind_ok in Hr as (? & c3 & _ & Hr). apply bind_ok in Hr as (? & c4 & _ & Hr). destruct (wf_closed fate); [done|].
  apply bind_ok in Hr as (r & c5 & Ho & Hr). apply outcome_run in Ho. destruct (wf_join fate); [done|].
  apply bind_ok in Hr as (b & c6 & Hl & Hr). apply lift_ok in Hl as [-> ->]. apply bind_ok in Hr as (? & c7 & _ & Hr).
  apply ret_ok in Hr as [-> ->]. apply bind_ok in Ho as (? & c8 & _ & Ho). apply bind_ok in Ho as (b' & c9 & Hm & Ho).
  apply bind_ok in Ho as (? & c10 & _ & Ho). apply ret_ok in Ho as [-> ->]. eauto.
Qed.
Lemma engine_verify_ok lease password phc original fate c c' :
  engine_verify engine lease password phc original fate c = (Ok true, c') →
  ∃ v, phc = Some v ∧ verify_password (eg_hasher engine) password v = Ok true.
Proof.
  unfold engine_verify. destruct (_ <? _)%Z; [done|]. intros (c1 & c2 & Hr)%work_ok.
  apply bind_ok in Hr as (? & c3 & _ & Hr). apply bind_ok in Hr as (m & c4 & Hv & Hr). apply lift_ok in Hv as [Hv%rmap_err_ok ->].
  apply ret_ok in Hr as [Hb _]. symmetry in Hb. apply andb_true_iff in Hb as [Hs%bool_decide_eq_true ->].
  destruct phc as [v|]; [|by destruct Hs]. exists v. split; [done|]. simpl in *. destruct (is_ok (validate_hash v)); [done|by destruct Hs].
Qed.
Lemma engine_hash_ok lease password random original fate c h c' :
  engine_hash engine lease password random original fate c = (Ok h, c') →
  short_password password = false ∧ hash_password (eg_hasher engine) password random = Ok h.
Proof.
  unfold engine_hash. destruct (short_password password); [done|]. intros (c1 & c2 & Hr)%work_ok.
  apply bind_ok in Hr as (? & c3 & _ & Hr). by apply lift_ok in Hr as [Hr%rmap_err_ok _].
Qed.
(** A person who may log in with a password. *)
Lemma current_password_ok username u cp :
  current_password username u = Some cp →
  cp_username cp = username ∧ cp_subject cp = us_subject u ∧ cp_hash cp = us_password_hash u ∧ cp_revision cp = us_revision u ∧
  us_identity_kind u = "human" ∧ us_enabled u = 1%Z ∧ cp_change_required cp = (us_password_change_required u =? 1)%Z.
Proof.
  unfold current_password. intros Hc.
  destruct (capped 512 (us_password_hash u)) as [h|] eqn:E1; [|done]. destruct (capped 128 username) as [n|] eqn:E2; [|done].
  destruct (capped 512 (us_subject u)) as [s|] eqn:E3; [|done]. cbn [mbind option_bind] in Hc. destruct (capped 16 (us_identity_kind u)) as [k|] eqn:E4;
    case_match; try done; bool_to_prop; [|done].
  apply capped_ok in E1 as [-> _], E2 as [-> _], E3 as [-> _], E4 as [-> _]. cbn [is_some_and] in *. injection Hc as <-. cbn.
  match goal with Hk : str_eqb "human" _ = true |- _ => apply str_eqb_eq in Hk end. auto 10.
Qed.
End verified.
#[export] Hint Resolve keeps_password_time keeps_lease_check keeps_engine_hash keeps_engine_verify : broker.

Section proof.
Context `{CredentialLib, PasswordLib} (engine : LocalPasswordEngine) (operation_timeout : Z).
Context (R : gset Key → Db → Db → Prop) `{!Rely R}.
(** At one moment the person was there, could log in, and had this password. *)
Definition knows_password (password : string) (db : Db) (proof : VerifiedLocalPassword) : Prop :=
  ∃ u, db !! users (vp_username proof) = Some (RUser u) ∧ us_subject u = vp_subject proof ∧ us_revision u = vp_revision proof ∧
    us_identity_kind u = "human" ∧ us_enabled u = 1%Z ∧
    vp_password_change_required proof = (us_password_change_required u =? 1)%Z ∧
    verify_password (eg_hasher engine) password (us_password_hash u) = Ok true.
Lemma rests_load_current username : keeps (rests R) (load_current username).
Proof. unfold load_current. auto with broker. Qed.
Lemma same_db_password_time stop : keeps same_db (txn_with (E:=LocalPasswordVerificationError) id (password_time stop)).
Proof. apply same_db_clock. Qed.
Lemma load_current_ok name c o c' : load_current name c = (Ok o, c') → ∀ cp, o = Some cp → cp_username cp = name.
Proof.
  unfold load_current. intros Hr cp ->. apply bind_ok in Hr as (? & c1 & _ & Hr). apply bind_ok in Hr as (row & c2 & _ & Hr).
  apply ret_ok in Hr as [Hr _]. destruct row as [[u| | | | | | | |]|]; try done. symmetry in Hr.
  by apply current_password_ok in Hr as [? _].
Qed.
(** The row of a person, found by the subject. *)
Lemma user_row_ok {E A} `{!FromControl E} subject c row c' (f : string → UserRow → option A) a :
  select_where_locked (E:=E) (user_where subject) c = (Ok row, c') → cn_writes c = ∅ →
  row ≫= (λ kv, match kv.2 with RUser u => f kv.1.2 u | _ => None end) = Some a →
  ∃ name u, held c' (users name) (Some (RUser u)) ∧ us_subject u = subject ∧ f name u = Some a.
Proof.
  intros Hs Hw Hf. destruct row as [[[tab name] r]|]; [|done]. simpl in Hf. destruct r as [u| | | | | | | |]; try done.
  apply (select_where_locked_ok R) in Hs as (I & Hv & Hp & Hk). rewrite view_clean in Hv by (by eapply clean_rests).
  cbn [user_where fst] in Hp. apply andb_true_iff in Hp as [->%str_eqb_eq Hu%str_eqb_eq]. exists name, u. by split_and!.
Qed.
Theorem verify_local_atomic username password original fate (c : Tx) x c' :
  verify_local engine operation_timeout username password original fate c = (x, c') → idle c → fair R c →
  R ∅ (cn_db c) (cn_db c') ∧
  ∀ proof, x = Ok proof → vp_username proof = trim username ∧ knows_password password (cn_db c') proof.
Proof.
  intros Hr Hidle Hfair. pose proof Hidle as [Hw Hl].
  match goal with |- ?G => assert (∀ e, x = Err e → inside R c c' → G) as Hno end.
  { intros e -> Hi. split; [|done]. rewrite <- Hl. by apply (in_env _ _ _ Hi). }
  unfold verify_local in Hr. assert (rests R c c) as I by reflexivity. read_step Hr I stop c1 K1. guard_step Hr I G1.
  pose proof (rests_load_current (trim username)) as Hload. read_step Hr I initial c2 K2. read_step Hr I matched c3 K3. guard_step Hr I G2.
  read_step Hr I cp c4 K4. apply lift_ok in K4 as [K4%ok_or_ok ->]. subst initial. bool_to_prop. subst matched.
  assert (∃ v, Some (cp_hash cp) = Some v ∧ verify_password (eg_hasher engine) password v = Ok true) as (v & [= <-] & Hv).
  { unfold txn_with in K3. destruct (engine_verify _ _ _ _ _ _ _) as [[b|] k] eqn:Ev; [|done]. injection K3 as -> _. by eapply engine_verify_ok. }
  unfold finish_current in Hr. read_step Hr I w5 c5 K5. read_step Hr I w6 c6 K6.
  pose proof (clean_rests _ _ _ I Hw) as Hw6. read_step Hr I row c7 K7.
  read_step Hr I current c8 K8. apply lift_ok in K8 as [K8%ok_or_ok ->]. guard_step Hr I G3. bool_to_prop. subst current.
  apply load_current_ok with (cp := cp) in K2 as Hname; [|done].
  destruct (user_row_ok _ _ _ _ current_password cp K7 Hw6 K8) as (name & u & Hheld & Hsub & Hcp).
  pose proof (current_password_ok _ _ _ Hcp) as (Hn & Hs & Hh & Hrev & Hk & Hen & Hch).
  read_step Hr I w9 c9 K9. read_step Hr I now c10 K10. read_step Hr I at_ c11 K11.
  apply (commit_tail R) in Hr as [[[e He] Hi]|(c12 & I12 & Hdb & Hx)];
    [eapply Hno; [exact He|]; etrans; [exact (re_inside _ _ _ I)|done]| |].
  2: { apply keeps_bind; [apply _|apply same_db_password_time|]. intros _. by apply keeps_ret, _. }
  assert (rests R c c12) as I012 by (etrans; [exact I|exact I12]).
  rewrite view_clean in Hdb by (by eapply clean_rests). rewrite Hdb. split; [rewrite <- Hl; by apply (in_env _ _ _ (re_inside _ _ _ I012))|].
  intros proof ->. destruct Hx as [(c13 & c14 & Hx)|?]; [|done]. apply bind_ok in Hx as (? & c15 & _ & Hx). apply ret_ok in Hx as [-> _].
  cbn. split; [done|]. exists u. carry I12. destruct Hheld as [_ Hheld]. rewrite Hn, Hs, Hrev, Hch, <- Hh. auto 10.
Qed.
End proof.
