(* ===== verification/LocalLogin.v ===== *)
(** * Local logins

    crates/broker-control/src/service/local_auth.rs: a person whose password was
    verified goes through the stages the policy asks for (a mandatory change of
    the password, a second factor, the enrolment of one) and completes the login;
    a change of the password or a new factor revokes all that was issued under
    the old ones.  [serde_json] on the fields that decide what is kept, and the
    order of text in the database, are parameters. *)

From stdpp Require Import gmap.
From S2P Require Import Prelude RustStr Order Control LocalBearer BrokerAccess AccessIssuer Sql OidcTables.
From S2P Require Import StorageAdmission Credentials LocalMfa Device OidcPolicy OidcRefresh PasswordAdmission LocalAuth LocalPassword.

(** ** Rows *)

Definition factors (subject : string) : Key := ("local_mfa", subject).
(** The primary key is the pair: the length of the subject separates the two. *)
Definition recoveries (subject code_hash : string) : Key :=
  ("local_mfa_recovery_codes", print_int (len subject) +:+ ":" +:+ subject +:+ code_hash).
Record CurrentUser := { cu_username : string; cu_subject : string; cu_revision : Z; cu_change : bool }.
Definition current_user (username : string) (u : UserRow) : option CurrentUser :=
  username ← capped 128 username;
  subject ← capped 512 (us_subject u);
  if negb (safe_identity_segment username 128) || negb (valid_identity_subject subject 512)
     || negb (is_some_and (capped 16 (us_identity_kind u)) (str_eqb "human")) || negb (us_enabled u =? 1)%Z
     || negb ((us_password_change_required u =? 0) || (us_password_change_required u =? 1))%Z || (us_revision u <? 1)%Z
  then None else
  Some {| cu_username := username; cu_subject := subject; cu_revision := us_revision u;
          cu_change := (us_password_change_required u =? 1)%Z |}.
Record ChallengeRecord := {
  cc_hash : string;
  cc_subject : string;
  cc_revision : Z;
  cc_purpose : string;
  cc_binding : string;
  cc_stage : LocalAuthStage;
  cc_cipher : string;
  cc_expires : Z;
  cc_created : Z;
}.
#[global] Instance ChallengeRecord_eq_dec : EqDecision ChallengeRecord.
Proof. solve_decision. Defined.
Definition challenge_record (hash : string) (r : ChallengeRow) : result LocalAuthError ChallengeRecord :=
  let bad := LA_InvalidChallenge in
  let! cipher := ok_or (capped 90 (ch_secret_ciphertext r)) bad in
  let! hash := ok_or (capped 64 hash) bad in
  let! subject := ok_or (capped 512 (ch_subject r)) bad in
  let! purpose := ok_or (capped 32 (ch_purpose r)) bad in
  let! binding := ok_or (capped 64 (ch_binding_hash r)) bad in
  let! stage := rbind (ok_or (capped 32 (ch_stage r)) bad) stage_parse in
  if negb (valid_identity_subject subject 512) || (ch_local_user_revision r <? 1)%Z || (ch_created_at r <=? 0)%Z
     || (ch_expires_at r <=? ch_created_at r)%Z
     || negb (existsb (str_eqb purpose) ["admin-login"; "oauth-authorize"; "device-approve"])
     || bool_decide (stage = StEnrollment) && negb (len cipher =? 90)%Z
     || negb (bool_decide (stage = StEnrollment)) && negb (is_empty cipher)
  then Err bad else
  do! rmap_err (λ _, bad) (parse_sql_hex hash) in
  do! rmap_err (λ _, bad) (parse_sql_hex binding) in
  Ok {| cc_hash := hash; cc_subject := subject; cc_revision := ch_local_user_revision r; cc_purpose := purpose; cc_binding := binding;
        cc_stage := stage; cc_cipher := cipher; cc_expires := ch_expires_at r; cc_created := ch_created_at r |}.

(** ** What is invalidated with a password or a factor *)

Record AuthorizationInvalidation := {
  iv_format : string;
  iv_phase : string;
  iv_issuer : string;
  iv_auth_method : string;
  iv_local_user_revision : Z;
}.
Class InvalidationLib := {
  json_syntax : string → bool;                                   (* one JSON value and nothing after it *)
  json_invalidation : string → option AuthorizationInvalidation; (* the fields, each once *)
  text_ltb : string → string → bool;                             (* the order of text in the database *)
}.

Section invalidation.
Context `{InvalidationLib}.
Definition preserve_federated_request (raw : string) : result LocalAuthError bool :=
  if negb (json_syntax raw) then Err (LA_Control CE_Storage) else
  Ok (is_some_and (json_invalidation raw) (λ p,
    str_eqb (iv_format p) "rust-broker-authorization-v1" && str_eqb (iv_phase p) "authorized"
    && negb (str_eqb (iv_issuer p) "local") && canonical_text (iv_issuer p) && str_eqb (iv_auth_method p) "oidc"
    && (iv_local_user_revision p =? 0)%Z)).
Definition tx_time (stop : Z) : M Tx LocalAuthError unit := txn_with id (ensure_time stop).
Definition tx_micros : M Tx LocalAuthError Z := txn_clock now_micros.
Definition tx_expiry (expires : Z) : M Tx LocalAuthError unit :=
  let? now := tx_micros in lift_result (ensure_expiry expires now).

Definition person_token (subject : string) : Key → Row → bool := λ k r,
  match r with
  | RToken t => str_eqb k.1 "local_tokens" && str_eqb (tk_subject t) subject && (1 <=? tk_local_user_revision t)%Z
                && bool_decide (tk_revoked_at t = None)
  | _ => false
  end.
Definition person_challenge (subject : string) : Key → Row → bool := λ k r,
  match r with RChallenge c => str_eqb k.1 "local_auth_challenges" && str_eqb (ch_subject c) subject | _ => false end.
Definition person_device (subject : string) : Key → Row → bool := λ k r,
  match r with RDevice d => str_eqb k.1 "oauth_device_codes" && str_eqb (dc_subject d) subject | _ => false end.
Definition person_request (subject : string) : Key → Row → bool := λ k r,
  match r with RRequest q => str_eqb k.1 "oidc_auth_requests" && str_eqb (rq_identity_subject q) subject | _ => false end.
(** The next request of the person by its hash: ORDER BY request_hash LIMIT 1 FOR UPDATE. *)
Definition after_hash (after : option string) (k : Key) : bool := is_none_or after (λ a, text_ltb a k.2).
Definition first_request (rs : list (Key * Row)) : option (Key * Row) :=
  foldl (λ best kv, match best with Some b => if text_ltb kv.1.2 b.1.2 then Some kv else Some b | None => Some kv end) None rs.
Definition select_next_request (subject : string) (after : option string) : M Tx LocalAuthError (option (Key * Row)) :=
  do? sql_await in λ c,
    let r := first_request (map_to_list (rows (λ k v, person_request subject k v && after_hash after k) (view c))) in
    (Ok r, match r with Some (k, _) => with_locks c {[k]} | None => c end).
(** One turn of the loop over the requests of the person. *)
Definition clear_request (subject : string) (after : option string) (stop : Z) (continue : option string → M Tx LocalAuthError unit)
    : M Tx LocalAuthError unit :=
  do? tx_time stop in
  let? row := select_next_request subject after in
  match row with
  | Some (k, RRequest q) =>
      let? preserve := lift_result (preserve_federated_request (rq_request_json q)) in
      do? tx_time stop in
      do? (if preserve then ret tt else
           let? changed := delete_where (λ k' v, bool_decide (k' = k) && person_request subject k' v) in
           if negb (changed =? 1) then fail (LA_Control CE_Storage) else ret tt) in
      continue (Some k.2)
  | _ => ret tt
  end.
(** While other transactions still commit, a turn of the loop uses up one of
    their turns; afterwards each turn passes one more request. *)
Fixpoint clear_quiet (fuel : nat) (subject : string) (stop : Z) (after : option string) : M Tx LocalAuthError unit :=
  match fuel with
  | O => fail (LA_Control CE_Storage)
  | S fuel => clear_request subject after stop (clear_quiet fuel subject stop)
  end.
Definition requests_left (subject : string) (after : option string) (c : Tx) : nat :=
  size (rows (λ k v, person_request subject k v && after_hash after k) (view c)).
Fixpoint clear_busy (turns : nat) (subject : string) (stop : Z) (after : option string) : M Tx LocalAuthError unit :=
  match turns with
  | O => λ c, clear_quiet (S (requests_left subject after c)) subject stop after c
  | S turns => clear_request subject after stop (clear_busy turns subject stop)
  end.
Definition clear_requests (subject : string) (stop : Z) : M Tx LocalAuthError unit := λ c,
  clear_busy (length (cn_turns c)) subject stop None c.
Definition invalidate_local_user (subject : string) (preserve_device : bool) (now stop : Z) : M Tx LocalAuthError unit :=
  let? _ := update_where (person_token subject) (set_token (revoked now)) in
  do? clear_requests subject stop in
  let? _ := delete_where (person_challenge subject) in
  if preserve_device then ret tt else let? _ := delete_where (person_device subject) in ret tt.
End invalidation.

(** ** The service *)

Record PendingLocalAuth := { pa_stage : LocalAuthStage; pa_challenge : string; pa_enrollment : option LocalMfaEnrollment }.
Inductive LocalAuthStep := LsComplete (login : CompletedLocalLogin) | LsPending (pending : PendingLocalAuth).
(** The random bytes an operation draws, each or the failure of the generator. *)
Record Draws := {
  dw_secret : option string;
  dw_nonce : option string;
  dw_challenge : option string;
  dw_codes : nat → option string;
  dw_salt : option string;
}.
(** The limiter of a process as the operation finds it at its admission, its
    failure and its success, with the times it reads; what the operation does to
    it is among the [moves] of the limiter. *)
Record LimiterView := { lv_admit : Entries * Z; lv_failure : Entries * Z; lv_success : Entries }.
Definition user_for_update (subject : string) : M Tx LocalAuthError (option CurrentUser) :=
  let? row := select_where_locked (user_where subject) in
  match row with
  | Some (k, RUser u) => λ c, (Ok (current_user k.2 u), with_locks c {[(USER_LOCK, k.2)]})
  | _ => ret None
  end.

Section service.
Context `{CredentialLib, MfaLib, PasswordLib, InvalidationLib}.
Record PostgresLocalAuthService := {
  la_digester : CredentialDigester;
  la_mfa : LocalMfaProtector;
  la_policy : LocalAuthPolicy;
  la_operation_timeout : Z;
}.
Context (s : PostgresLocalAuthService).
Definition challenge_hash (raw : string) : result LocalAuthError string :=
  rmap_err LA_Credential (rmap to_sql_hex (token (la_digester s) LocalAuthChallenge raw)).
Definition context_binding (context : LocalAuthBinding) : result LocalAuthError CredentialDigest :=
  rmap_err LA_Credential (local_auth_binding (la_digester s) context).
Definition validate_context (row : ChallengeRecord) (raw : string) (context : LocalAuthBinding) : M Tx LocalAuthError unit :=
  let bad := LA_InvalidChallenge in
  if negb (str_eqb (cc_purpose row) (purpose_sql (binding_purpose context))) then fail bad else
  let? now := tx_micros in
  if (now <? cc_created row)%Z then fail bad else
  do? tx_expiry (cc_expires row) in
  lift_result (
    let! digest := rmap_err (λ _, bad) (parse_sql_hex (cc_hash row)) in
    do! rmap_err (λ _, bad) (verify_token (la_digester s) LocalAuthChallenge raw digest) in
    let! binding := rmap_err (λ _, bad) (parse_sql_hex (cc_binding row)) in
    rmap_err (λ _, bad) (verify_local_auth_binding (la_digester s) context binding)).
(** The pool's connection and BEGIN. *)
Definition tx_begin : M Tx LocalAuthError unit := do? sql_await in sql_await.
Definition read_challenge (hash : string) (lock : bool) : M Tx LocalAuthError ChallengeRecord :=
  let? row := (if lock then select_locked else select) (challenges hash) in
  let? r := lift_result (ok_or (row ≫= λ r, match r with RChallenge r => Some r | _ => None end) LA_InvalidChallenge) in
  lift_result (challenge_record hash r).
Definition has_factor (subject : string) : M Tx LocalAuthError bool :=
  let? row := select_locked (factors subject) in ret (bool_decide (is_Some row)).
Definition next_stage (current : CurrentUser) (factor : bool) : option LocalAuthStage :=
  if cu_change current then Some StPasswordChange
  else if negb (lo_required (la_policy s)) then None
  else if factor then Some StMfa else Some StEnrollment.
Definition completed (current : CurrentUser) (observed_at : Z) (context : LocalAuthBinding) (binding : CredentialDigest)
    (factor_verified : bool) (codes : option LocalRecoveryCodes) : CompletedLocalLogin :=
  {| cll_username := cu_username current; cll_subject := cu_subject current; cll_revision := cu_revision current;
     cll_observed_at := observed_at; cll_purpose := binding_purpose context; cll_binding := binding;
     cll_factor_verified := factor_verified; cll_recovery_codes := codes |}.
Definition as_micros (d : Z) : Z := d / 1000.
Definition of_purpose (subject : string) (purpose : LocalAuthPurpose) : Key → Row → bool := λ k r,
  match r with
  | RChallenge c => str_eqb k.1 "local_auth_challenges" && str_eqb (ch_subject c) subject && str_eqb (ch_purpose c) (purpose_sql purpose)
  | _ => false
  end.
Definition stage_secret (current : CurrentUser) (stage : LocalAuthStage) (draws : Draws)
    : result LocalAuthError (string * option LocalMfaEnrollment) :=
  match stage with
  | StEnrollment =>
      let! (cipher, enrollment) := rmap_err LA_Mfa (mfa_prepare (la_mfa s) (cu_subject current) (lo_issuer_label (la_policy s))
        (cu_username current) (dw_secret draws) (dw_nonce draws)) in
      Ok (cipher, Some enrollment)
  | _ => Ok ("", None)
  end.
Definition advance_login (current : CurrentUser) (factor : bool) (context : LocalAuthBinding) (binding : CredentialDigest) (stop : Z)
    (draws : Draws) : M Tx LocalAuthError (LocalAuthStep * option Z) :=
  let? now := tx_micros in
  let? observed_at := lift_result (ok_or (TimestampMicros_new now) (LA_Control CE_Clock)) in
  match next_stage current factor with
  | None => ret (LsComplete (completed current observed_at context binding false None), None)
  | Some stage =>
      let ttl := as_micros (lo_challenge_ttl (la_policy s)) in
      if (I64_MAX <? ttl)%Z then fail LA_InvalidPolicy else
      let? expires := lift_result (ok_or (checked_add_i64 now ttl) (LA_Control CE_Clock)) in
      let? (cipher, enrollment) := lift_result (stage_secret current stage draws) in
      do? tx_time stop in
      do? tx_expiry expires in
      let? raw := lift_result (ok_or (new_local_auth_challenge (dw_challenge draws)) (LA_Mfa MF_Random)) in
      let? hash := lift_result (challenge_hash raw) in
      let? _ := delete_where (of_purpose (cu_subject current) (binding_purpose context)) in
      do? insert_row (challenges hash)
            (RChallenge {| ch_subject := cu_subject current; ch_local_user_revision := cu_revision current;
                           ch_purpose := purpose_sql (binding_purpose context); ch_binding_hash := to_sql_hex binding;
                           ch_stage := stage_sql stage; ch_secret_ciphertext := cipher; ch_expires_at := expires;
                           ch_created_at := now |}) (λ _ _, false) in
      ret (LsPending {| pa_stage := stage; pa_challenge := raw; pa_enrollment := enrollment |}, Some expires)
  end.
Definition tx_expires (expires : option Z) : M Tx LocalAuthError unit :=
  match expires with Some expiry => tx_expiry expiry | None => ret tt end.

Definition begin_login (proof : VerifiedLocalPassword) (context : LocalAuthBinding) (original : Z) (draws : Draws)
    : M Tx LocalAuthError LocalAuthStep :=
  let? stop := txn_clock (bounded_deadline original (la_operation_timeout s)) in
  let? binding := lift_result (context_binding context) in
  do? tx_begin in
  let? user := user_for_update (vp_subject proof) in
  let? current := lift_result (ok_or user LA_Unauthenticated) in
  if negb (str_eqb (cu_username current) (vp_username proof)) || negb (cu_revision current =? vp_revision proof)%Z
     || negb (str_eqb (cu_subject current) (vp_subject proof))
  then fail LA_Unauthenticated else
  let? factor := has_factor (cu_subject current) in
  let? (result, expires) := advance_login current factor context binding stop draws in
  do? tx_time stop in
  do? tx_expires expires in
  do? sql_commit in
  do? tx_time stop in
  do? tx_expires expires in
  ret result.

Definition load (raw : string) (context : LocalAuthBinding) (original : Z) : M Tx LocalAuthError PendingLocalAuth :=
  let? stop := txn_clock (bounded_deadline original (la_operation_timeout s)) in
  if negb (validate_local_auth_challenge raw) then fail LA_InvalidChallenge else
  let? hash := lift_result (challenge_hash raw) in
  do? tx_begin in
  let? initial := read_challenge hash false in
  do? validate_context initial raw context in
  let? row := select_where_locked (user_where (cc_subject initial)) in
  let? current := lift_result (ok_or (row ≫= λ kv, match kv.2 with RUser u => current_user kv.1.2 u | _ => None end) LA_InvalidChallenge) in
  let? factor := has_factor (cu_subject current) in
  let? challenge := read_challenge hash true in
  if bool_decide (initial ≠ challenge) || negb (cu_revision current =? cc_revision challenge)%Z
     || negb (str_eqb (cu_subject current) (cc_subject challenge))
     || negb (Bool.eqb (cu_change current) (bool_decide (cc_stage challenge = StPasswordChange)))
     || bool_decide (cc_stage challenge = StMfa) && negb factor || bool_decide (cc_stage challenge = StEnrollment) && factor
  then fail LA_InvalidChallenge else
  do? validate_context challenge raw context in
  let? enrollment := lift_result (match cc_stage challenge with
    | StEnrollment => rmap_err LA_Mfa (rmap Some (mfa_load (la_mfa s) (cu_subject current) (cc_cipher challenge)
                        (lo_issuer_label (la_policy s)) (cu_username current)))
    | _ => Ok None
    end) in
  do? tx_time stop in
  do? tx_expiry (cc_expires challenge) in
  do? sql_commit in
  do? tx_time stop in
  do? tx_expiry (cc_expires challenge) in
  ret {| pa_stage := cc_stage challenge; pa_challenge := raw; pa_enrollment := enrollment |}.

(** ** A mandatory change of the password *)

Definition password_user_for_update (subject : string) : M Tx LocalAuthError (option (UserRow * Key)) :=
  let? row := select_where_locked (user_where subject) in
  match row with
  | Some (k, RUser u) => λ c, (Ok (Some (u, k)), with_locks c {[(USER_LOCK, k.2)]})
  | _ => ret None
  end.
Definition set_user (f : UserRow → UserRow) (r : Row) : Row := match r with RUser u => RUser (f u) | _ => r end.
Definition user_with (hash : string) (change revision now : Z) (u : UserRow) : UserRow :=
  {| us_subject := us_subject u; us_identity_kind := us_identity_kind u; us_password_hash := hash; us_name := us_name u;
     us_email := us_email u; us_organization := us_organization u; us_teams_json := us_teams_json u; us_enabled := us_enabled u;
     us_password_change_required := change; us_revision := revision; us_created_at := us_created_at u; us_updated_at := now |}.
Definition user_at (subject : string) (revision change : Z) : Key → Row → bool := λ k r,
  match r with
  | RUser u => str_eqb k.1 "local_users" && str_eqb (us_subject u) subject && (us_revision u =? revision)%Z
               && (us_password_change_required u =? change)%Z
  | _ => false
  end.
Definition is_device (context : LocalAuthBinding) : bool :=
  match binding_purpose context with PurposeDeviceApprove => true | _ => false end.
(** The writes of the change, and its end. *)
Definition replace_password (current : CurrentUser) (challenge : ChallengeRecord) (factor : bool) (new_hash : string) (next_revision now : Z)
    (context : LocalAuthBinding) (binding : CredentialDigest) (lease : Lease) (stop : Z) (draws : Draws) : M Tx LocalAuthError LocalAuthStep :=
  let? changed := update_where (user_at (cu_subject current) (cu_revision current) 1) (set_user (user_with new_hash 0 next_revision now)) in
  if negb (changed =? 1) then fail LA_InvalidChallenge else
  do? invalidate_local_user (cu_subject current) (is_device context) now stop in
  let current := {| cu_username := cu_username current; cu_subject := cu_subject current; cu_revision := next_revision; cu_change := false |} in
  let? (result, expires) := advance_login current factor context binding stop draws in
  do? tx_time stop in
  do? tx_expiry (cc_expires challenge) in
  do? tx_expires expires in
  do? txn_clock (lease_check lease 3 stop) in
  do? sql_commit in
  do? tx_time stop in
  do? txn_clock (lease_check lease 4 stop) in
  do? tx_expires expires in
  ret result.
Definition complete_password_change (engine : LocalPasswordEngine) (raw : string) (context : LocalAuthBinding) (new_password : string)
    (original : Z) (lease : Lease) (verify_fate hash_fate : WorkFate) (draws : Draws) : M Tx LocalAuthError LocalAuthStep :=
  let? stop := txn_clock (bounded_deadline original (la_operation_timeout s)) in
  do? txn_clock (lease_check lease 2 stop) in
  if negb (validate_local_auth_challenge raw) then fail LA_InvalidChallenge else
  let? hash := lift_result (challenge_hash raw) in
  let? binding := lift_result (context_binding context) in
  do? tx_begin in
  let? initial := read_challenge hash false in
  do? validate_context initial raw context in
  if negb (bool_decide (cc_stage initial = StPasswordChange)) then fail LA_InvalidChallenge else
  let? row := password_user_for_update (cc_subject initial) in
  let? (u, k) := lift_result (ok_or row LA_InvalidChallenge) in
  let? phc := lift_result (ok_or (capped 512 (us_password_hash u)) LA_InvalidChallenge) in
  do? lift_result (rmap_err (λ _, LA_InvalidChallenge) (validate_hash phc)) in
  let? current := lift_result (ok_or (current_user k.2 u) LA_InvalidChallenge) in
  let? factor := has_factor (cu_subject current) in
  let? challenge := read_challenge hash true in
  if bool_decide (initial ≠ challenge) || negb (cu_change current) || negb (str_eqb (cu_subject current) (cc_subject challenge))
     || negb (cu_revision current =? cc_revision challenge)%Z
  then fail LA_InvalidChallenge else
  do? validate_context challenge raw context in
  if short_password new_password then fail (LA_Password LP_InvalidPassword) else
  let? next_revision := lift_result (ok_or (checked_add_i64 (cu_revision current) 1) LA_InvalidChallenge) in
  let? unchanged := txn_with verification_error (engine_verify engine lease new_password (Some phc) stop verify_fate) in
  if unchanged then fail LA_PasswordUnchanged else
  let? new_hash := txn_with verification_error (engine_hash engine lease new_password (dw_salt draws) stop hash_fate) in
  do? tx_time stop in
  do? tx_expiry (cc_expires challenge) in
  let? now := tx_micros in
  do? lift_result (ok_or (TimestampMicros_new now) (LA_Control CE_Clock)) in
  replace_password current challenge factor new_hash next_revision now context binding lease stop draws.

(** ** The second factor *)

Definition lm_admit (p : LocalMfaAttemptPolicy) (v : LimiterView) (subject : string) : result LocalAuthError unit :=
  (admit_at p subject (lv_admit v).2 (lv_admit v).1).1.
Definition lm_failure (p : LocalMfaAttemptPolicy) (v : LimiterView) (subject : string) : result LocalAuthError unit :=
  (failure_at p subject (lv_failure v).2 (lv_failure v).1).1.
Definition lm_success (v : LimiterView) (subject : string) : result LocalAuthError unit := (success subject (lv_success v)).1.
Definition set_factor (f : FactorRow → FactorRow) (r : Row) : Row := match r with RFactor v => RFactor (f v) | _ => r end.
Definition factor_step (step : Z) (f : FactorRow) : FactorRow :=
  {| mf_secret_ciphertext := mf_secret_ciphertext f; mf_last_totp_step := step; mf_confirmed_at := mf_confirmed_at f |}.
Definition factor_at (subject : string) (last step : Z) : Key → Row → bool :=
  at_key (factors subject) (λ r, match r with RFactor f => (mf_last_totp_step f =? last)%Z && (mf_last_totp_step f <? step)%Z | _ => false end).
Definition recovery_digest (subject normalized : string) : result LocalAuthError string :=
  rmap_err LA_Credential (rmap to_sql_hex (recovery (la_digester s) subject normalized)).
(** SELECT EXISTS of the recovery codes of the person. *)
Definition has_recovery (subject : string) : M Tx LocalAuthError bool :=
  let? row := select_where (λ k r, match r with RRecovery v => str_eqb k.1 "local_mfa_recovery_codes" && str_eqb (rv_subject v) subject | _ => false end) in
  ret (bool_decide (is_Some row)).
(** The secret the code is checked against and the last step accepted. *)
Definition factor_secret (challenge : ChallengeRecord) (subject : string) (factor : option Row) : M Tx LocalAuthError (string * Z) :=
  match cc_stage challenge, factor with
  | StEnrollment, None =>
      let? orphan := has_recovery subject in
      if orphan : bool then fail LA_InvalidChallenge else ret (cc_cipher challenge, (-1)%Z)
  | StMfa, Some (RFactor f) =>
      if (0 <=? mf_last_totp_step f)%Z && (0 <? mf_confirmed_at f)%Z then
        let? cipher := lift_result (ok_or (capped 90 (mf_secret_ciphertext f)) LA_InvalidChallenge) in
        if negb (len cipher =? 90)%Z then fail LA_InvalidChallenge else ret (cipher, mf_last_totp_step f)
      else fail LA_InvalidChallenge
  | _, _ => fail LA_InvalidChallenge
  end.
Definition insert_code (subject : string) (now : Z) (_ : unit) (code : string) : M Tx LocalAuthError unit :=
  let? normalized := lift_result (ok_or (normalize_local_recovery_code code) (LA_Control CE_Storage)) in
  let? digest := lift_result (recovery_digest subject normalized) in
  insert_row (recoveries subject digest) (RRecovery {| rv_subject := subject; rv_code_hash := digest; rv_created_at := now |}) (λ _ _, false).
(** A factor that was confirmed: it and its recovery codes are stored, and what
    was issued without it is invalidated. *)
Definition enroll (current : CurrentUser) (cipher : string) (step now : Z) (context : LocalAuthBinding) (stop : Z) (draws : Draws)
    : M Tx LocalAuthError (CurrentUser * LocalRecoveryCodes) :=
  let? revision := lift_result (ok_or (checked_add_i64 (cu_revision current) 1) LA_InvalidChallenge) in
  let? cipher := lift_result (rmap_err LA_Mfa (reencrypt (la_mfa s) (cu_subject current) cipher (dw_nonce draws))) in
  let? codes := lift_result (rmap_err LA_Mfa (LocalRecoveryCodes_generate (dw_codes draws))) in
  let? changed := update_where (user_at (cu_subject current) (cu_revision current) 0)
    (set_user (λ u, user_with (us_password_hash u) (us_password_change_required u) revision now u)) in
  if negb (changed =? 1) then fail LA_InvalidChallenge else
  do? insert_row (factors (cu_subject current))
        (RFactor {| mf_secret_ciphertext := cipher; mf_last_totp_step := step; mf_confirmed_at := now |}) (λ _ _, false) in
  do? mfor (insert_code (cu_subject current) now) tt codes in
  do? invalidate_local_user (cu_subject current) (is_device context) now stop in
  ret ({| cu_username := cu_username current; cu_subject := cu_subject current; cu_revision := revision; cu_change := cu_change current |}, codes).
(** Whether the code is accepted, with what that changes: the person, and the new codes. *)
Definition accept (challenge : ChallengeRecord) (current : CurrentUser) (cipher code : string) (accepted : option Z) (last_step now : Z)
    (context : LocalAuthBinding) (stop : Z) (draws : Draws) : M Tx LocalAuthError (bool * CurrentUser * option LocalRecoveryCodes) :=
  match cc_stage challenge, accepted with
  | StEnrollment, Some step =>
      let? (current, codes) := enroll current cipher step now context stop draws in ret (true, current, Some codes)
  | StEnrollment, None => ret (false, current, None)
  | _, Some step =>
      let? changed := update_where (factor_at (cu_subject current) last_step step) (set_factor (factor_step step)) in
      if negb (changed =? 1) then fail LA_InvalidChallenge else ret (true, current, None)
  | _, None =>
      match normalize_local_recovery_code code with
      | Some normalized =>
          let? digest := lift_result (recovery_digest (cu_subject current) normalized) in
          let? deleted := delete_where (at_key (recoveries (cu_subject current) digest) (λ r, match r with RRecovery _ => true | _ => false end)) in
          ret ((deleted =? 1)%nat, current, None)
      | None => ret (false, current, None)
      end
  end.
Definition challenge_at (hash : string) (revision : Z) : Key → Row → bool :=
  at_key (challenges hash) (λ r, match r with RChallenge c => (ch_local_user_revision c =? revision)%Z | _ => false end).
(** The end of an accepted attempt, and of a rejected one. *)
Definition mfa_accepted (view : LimiterView) (challenge : ChallengeRecord) (current : CurrentUser) (codes : option LocalRecoveryCodes)
    (context : LocalAuthBinding) (binding : CredentialDigest) (stop : Z) : M Tx LocalAuthError LocalAuthStep :=
  do? match cc_stage challenge with
      | StMfa =>
          let? changed := delete_where (challenge_at (cc_hash challenge) (cu_revision current)) in
          if negb (changed =? 1) then fail LA_InvalidChallenge else ret tt
      | _ => ret tt
      end in
  do? tx_time stop in
  do? tx_expiry (cc_expires challenge) in
  do? sql_commit in
  do? tx_time stop in
  do? tx_expiry (cc_expires challenge) in
  let? now := tx_micros in
  let? observed_at := lift_result (ok_or (TimestampMicros_new now) (LA_Control CE_Clock)) in
  do? lift_result (lm_success view (cu_subject current)) in
  ret (LsComplete (completed current observed_at context binding true codes)).
Definition mfa_rejected (p : LocalMfaAttemptPolicy) (view : LimiterView) (challenge : ChallengeRecord) (current : CurrentUser)
    (cipher raw : string) (stop : Z) : M Tx LocalAuthError LocalAuthStep :=
  let enrolling := bool_decide (cc_stage challenge = StEnrollment) in
  do? (if enrolling then lift_result (lm_failure p view (cu_subject current)) else ret tt) in
  let? enrollment := lift_result (if enrolling
    then rmap_err LA_Mfa (rmap Some (mfa_load (la_mfa s) (cu_subject current) cipher (lo_issuer_label (la_policy s)) (cu_username current)))
    else Ok None) in
  do? tx_time stop in
  do? tx_expiry (cc_expires challenge) in
  do? sql_commit in
  do? tx_time stop in
  do? tx_expiry (cc_expires challenge) in
  do? (if bool_decide (cc_stage challenge = StMfa) then lift_result (lm_failure p view (cu_subject current)) else ret tt) in
  ret (LsPending {| pa_stage := cc_stage challenge; pa_challenge := raw; pa_enrollment := enrollment |}).
Definition complete_mfa (p : LocalMfaAttemptPolicy) (view : LimiterView) (raw : string) (context : LocalAuthBinding) (code : string)
    (original : Z) (draws : Draws) : M Tx LocalAuthError LocalAuthStep :=
  let? stop := txn_clock (bounded_deadline original (la_operation_timeout s)) in
  if (64 <? len code)%Z then fail LA_InvalidMfaCode else
  if negb (validate_local_auth_challenge raw) then fail LA_InvalidChallenge else
  let? hash := lift_result (challenge_hash raw) in
  let? binding := lift_result (context_binding context) in
  do? tx_begin in
  let? initial := read_challenge hash false in
  do? validate_context initial raw context in
  if bool_decide (cc_stage initial = StPasswordChange) then fail LA_InvalidChallenge else
  let? user := user_for_update (cc_subject initial) in
  let? current := lift_result (ok_or user LA_InvalidChallenge) in
  let? factor := select_locked (factors (cu_subject current)) in
  let? challenge := read_challenge hash true in
  if bool_decide (initial ≠ challenge) || cu_change current || negb (str_eqb (cu_subject current) (cc_subject challenge))
     || negb (cu_revision current =? cc_revision challenge)%Z
  then fail LA_InvalidChallenge else
  do? validate_context challenge raw context in
  let? (cipher, last_step) := factor_secret challenge (cu_subject current) factor in
  do? lift_result (lm_admit p view (cu_subject current)) in
  let? now := tx_micros in
  let seconds := Z.quot now 1000000 in
  if (seconds <? 0)%Z then fail (LA_Control CE_Clock) else
  let? accepted := lift_result (rmap_err LA_Mfa (mfa_verify (la_mfa s) (cu_subject current) cipher code seconds last_step)) in
  do? tx_time stop in
  do? tx_expiry (cc_expires challenge) in
  let? (verified, current, codes) := accept challenge current cipher code accepted last_step now context stop draws in
  if verified then mfa_accepted view challenge current codes context binding stop
  else mfa_rejected p view challenge current cipher raw stop.
End service.
