(* ===== verification/LocalLoginSteps.v ===== *)
(** * Local logins as atomic steps

    What the operations of service/local_auth.rs do to the database, whatever
    runs concurrently and wherever they fail. *)

From stdpp Require Import gmap.
From S2P Require Import Prelude RustStr Order Control LocalBearer BrokerAccess AccessIssuer Sql OidcTables.
From S2P Require Import StorageAdmission Credentials LocalMfa Device OidcPolicy OidcRefresh PasswordAdmission LocalAuth LocalPassword.
From S2P Require Import LocalLogin.

(** ** Changes that concern one person *)

(** What an operation for a person may do to a row. *)
Definition person_change (subject : string) (k : Key) (o o' : option Row) : Prop :=
  o = o' ∨
  match o, o' with
  | Some (RToken t), Some (RToken t') => tk_subject t = subject ∧ (1 ≤ tk_local_user_revision t)%Z ∧ ∃ now, t' = revoked now t
  | Some (RRequest q), None => k.1 = "oidc_auth_requests" ∧ rq_identity_subject q = subject
  | Some (RDevice d), None => k.1 = "oauth_device_codes" ∧ dc_subject d = subject
  | Some (RChallenge a), None => k.1 = "local_auth_challenges" ∧ ch_subject a = subject
  | None, Some (RChallenge b) => k.1 = "local_auth_challenges" ∧ ch_subject b = subject
  | Some (RChallenge a), Some (RChallenge b) => k.1 = "local_auth_challenges" ∧ ch_subject a = subject ∧ ch_subject b = subject
  | Some (RUser u), Some (RUser u') => us_subject u = subject ∧ ∃ hash change revision now, u' = user_with hash change revision now u
  | None, Some (RFactor _) => k = factors subject
  | None, Some (RRecovery v) => k.1 = "local_mfa_recovery_codes" ∧ rv_subject v = subject
  | _, _ => False
  end.
Lemma person_change_trans subject k x y z : person_change subject k x y → person_change subject k y z → person_change subject k x z.
Proof.
  intros [->|Hxy]; [done|]. intros [->|Hyz]; [by right|].
  destruct x as [[]|], y as [[]|]; try done; destruct z as [[]|]; try done;
    repeat match goal with Hp : _ ∧ _ |- _ => destruct Hp | Hp : ∃ _, _ |- _ => destruct Hp end; subst;
    try (by left); try (right; by eauto 10); try (exfalso; congruence).
Qed.

Section rows.
Context `{InvalidationLib}.
Definition federated (q : RequestRow) : bool := match preserve_federated_request (rq_request_json q) with Ok b => b | Err _ => false end.
Definition unkept_request (subject : string) : Key → Row → bool := λ k r,
  match r with
  | RRequest q => person_request subject k r && negb (federated q)
  | _ => false
  end.
Definition person_factor (subject : string) : Key → Row → bool := λ k _, bool_decide (k = factors subject).
Definition person_recovery (subject : string) : Key → Row → bool := λ k r,
  match r with
  | RRecovery _ => str_eqb k.1 "local_mfa_recovery_codes" && String.prefix (print_int (len subject) +:+ ":" +:+ subject) k.2
  | _ => false
  end.
(** What a person may use to act. *)
Definition given (subject : string) : list (Key → Row → bool) :=
  [person_token subject; person_challenge subject; person_device subject; unkept_request subject].
Definition owed (subject : string) : list (Key → Row → bool) :=
  given subject ++ person_factor subject :: person_recovery subject :: (of_purpose subject <$> [PurposeAdminLogin; PurposeOauthAuthorize; PurposeDeviceApprove]).
Lemma given_owed subject q : q ∈ given subject → q ∈ owed subject.
Proof. intros Hq. apply elem_of_app. by left. Qed.
Lemma factor_owed subject : person_factor subject ∈ owed subject.
Proof. apply elem_of_app. right. left. Qed.
Lemma recovery_owed subject : person_recovery subject ∈ owed subject.
Proof. apply elem_of_app. right. right. left. Qed.
Lemma purpose_owed subject p : of_purpose subject p ∈ owed subject.
Proof. apply elem_of_app. right. right. right. apply list_elem_of_fmap_2. destruct p; set_solver. Qed.
Lemma recovery_row subject d v : person_recovery subject (recoveries subject d) (RRecovery v) && true = true.
Proof.
  unfold recoveries, person_recovery. cbn [fst snd]. rewrite str_eqb_refl, andb_true_r. cbn [andb].
  rewrite <- !str_app_assoc. generalize ((print_int (len subject) +:+ ":") +:+ subject). intros t.
  induction t as [|a t IH]; [by destruct d|]. simpl. by destruct (Ascii.ascii_dec a a).
Qed.
(** Whoever gives a person something to act with holds the person's row, if only
    shared, so this does not happen while the row is locked here for an update. *)
Class PersonRely (R : gset Key → Db → Db → Prop) : Prop :=
  person_kept ks db db' name u q k v :
    R ks db db' → (USER_LOCK, name) ∈ ks → db !! users name = Some (RUser u) → q ∈ owed (us_subject u) →
    db' !! k = Some v → q k v = true → ∃ v', db !! k = Some v' ∧ q k v' = true.
Class TextOrder : Prop := {
  text_irrefl a : text_ltb a a = false;
  text_trans a b c : text_ltb a b = true → text_ltb b c = true → text_ltb a c = true;
  text_total a b : text_ltb a b = true ∨ a = b ∨ text_ltb b a = true;
}.
Context (R : gset Key → Db → Db → Prop) `{!Rely R, !PersonRely R}.
(** The person is locked here. *)
Definition keeps_person (subject : string) (c : Tx) : Prop :=
  fair R c ∧ ∃ name u, (USER_LOCK, name) ∈ cn_locks c ∧ held c (users name) (Some (RUser u)) ∧ us_subject u = subject.
Lemma keeps_person_inside subject c c' : keeps_person subject c → inside R c c' → keeps_person subject c'.
Proof.
  intros (Hf & name & u & Hk & Hh & Hu) Hi. split; [eapply fair_suffix; [exact (in_turns _ _ _ Hi)|done]|].
  exists name, u. split; [by apply (in_locks _ _ _ Hi)|]. split; [by eapply held_inside|done].
Qed.
Lemma keeps_person_undisturbed subject q (filter : Key → bool) c c' :
  q ∈ owed subject → keeps_person subject c → inside R c c' → undisturbed (λ k v, q k v && filter k) c c'.
Proof.
  intros Hq (Hf & name & u & Hk & [_ Hh] & <-) Hi k v Hv [Hqv Hb]%andb_true_iff.
  destruct (person_kept _ _ _ _ _ _ _ _ (in_env _ _ _ Hi Hf) Hk Hh Hq Hv Hqv) as (v' & Hv' & Hq'). exists v'. by rewrite Hq', Hb.
Qed.
(** What is settled for the person stays so. *)
Lemma settled_person A subject q filter c c' :
  acts R A c c' → q ∈ owed subject → (∀ k o v, A k o (Some v) → q k v && filter k = false) → keeps_person subject c →
  settled (λ k v, q k v && filter k) c → settled (λ k v, q k v && filter k) c'.
Proof.
  intros Ha Hq HA Hp Hs. eapply (settled_acts R A); [| |exact HA|exact Ha|exact Hp|exact Hs].
  - intros c1 c2. apply keeps_person_inside.
  - intros c1 c2 H1 H2. by apply (keeps_person_undisturbed subject).
Qed.
Lemma settled_kind A subject q c c' :
  acts R A c c' → q ∈ owed subject → (∀ k o v, A k o (Some v) → q k v = false) → keeps_person subject c → settled q c → settled q c'.
Proof.
  intros Ha Hq HA Hp Hs k v Hv. specialize (settled_person A subject q (λ _, true) c c' Ha Hq) as Hk.
  specialize (Hk ltac:(intros; rewrite andb_true_r; by eapply HA) Hp ltac:(intros ? ? ?; rewrite andb_true_r; by apply Hs) k v Hv).
  cbn beta in Hk. by rewrite andb_true_r in Hk.
Qed.
End rows.

(** ** The loop over the requests of a person *)

Section requests.
Context `{InvalidationLib, !TextOrder}.
Lemma first_of best rs :
  ∃ kv, foldl (λ best kv, match best with Some b => if text_ltb kv.1.2 b.1.2 then Some kv else Some b | None => Some kv end) (Some best) rs = Some kv ∧
    kv ∈ best :: rs ∧ ∀ kv' : Key * Row, kv' ∈ best :: rs → text_ltb kv'.1.2 kv.1.2 = false.
Proof.
  revert best. induction rs as [|x rs IH]; intros best; simpl.
  - exists best. split; [done|]. split; [left|]. intros kv' ->%list_elem_of_singleton. apply text_irrefl.
  - destruct (text_ltb x.1.2 best.1.2) eqn:Ex.
    + destruct (IH x) as (kv & Hf & Hin & Hmin). exists kv. split; [done|]. split; [set_solver|]. intros kv' [->|Hk]%elem_of_cons; [|auto].
      specialize (Hmin x ltac:(left)). destruct (text_ltb best.1.2 kv.1.2) eqn:Eb; [|done].
      by rewrite (text_trans _ _ _ Ex Eb) in Hmin.
    + destruct (IH best) as (kv & Hf & Hin & Hmin). exists kv. split; [done|]. split; [set_solver|]. intros kv' Hk.
      destruct (decide (kv' = x)) as [->|Hne]; [|apply Hmin; set_solver]. specialize (Hmin best ltac:(left)).
      destruct (text_ltb x.1.2 kv.1.2) eqn:Eb; [|done]. destruct (text_total best.1.2 kv.1.2) as [Hc|[Hc|Hc]]; [congruence| |].
      * rewrite Hc in Ex. congruence.
      * by rewrite (text_trans _ _ _ Eb Hc) in Ex.
Qed.
Lemma first_request_spec (rs : list (Key * Row)) :
  match first_request rs with
  | Some kv => kv ∈ rs ∧ ∀ kv', kv' ∈ rs → text_ltb kv'.1.2 kv.1.2 = false
  | None => rs = []
  end.
Proof.
  destruct rs as [|x rs]; [done|]. unfold first_request. simpl. destruct (first_of x rs) as (kv & -> & Hin & Hmin). auto.
Qed.

Context (R : gset Key → Db → Db → Prop) `{!Rely R}.
Lemma select_next_ok subject after c r c' :
  select_next_request subject after c = (Ok r, c') →
  rests R c c' ∧
  match r with
  | Some (k, v) => view c' !! k = Some v ∧ person_request subject k v = true ∧ after_hash after k = true ∧ k ∈ cn_locks c' ∧
      ∀ k' v', view c' !! k' = Some v' → person_request subject k' v' = true → after_hash after k' = true → text_ltb k'.2 k.2 = false
  | None => ∀ k v, view c' !! k = Some v → person_request subject k v = true → after_hash after k = false
  end.
Proof.
  unfold select_next_request. intros Hr. apply bind_ok in Hr as (u & c1 & Ha & [= Hf <-]). apply (rests_await R) in Ha.
  pose proof (first_request_spec (map_to_list (rows (λ k v, person_request subject k v && after_hash after k) (view c1)))) as Hs.
  rewrite Hf in Hs |- *. destruct r as [[k v]|].
  - destruct Hs as [Hin Hmin]. apply elem_of_map_to_list, map_lookup_filter_Some in Hin as [Hv [Hp Hk]%andb_true_iff].
    split; [etrans; [exact Ha|apply (locks_rests R)]|]. rewrite view_locks. simpl. split_and!; try done; [set_solver|].
    intros k' v' Hv' Hp' Hk'. apply (Hmin (k', v')). apply elem_of_map_to_list, map_lookup_filter_Some. split; [done|].
    by apply andb_true_iff.
  - split; [done|]. intros k v Hv Hp. destruct (after_hash after k) eqn:Ea; [|done].
    assert (rows (λ k v, person_request subject k v && after_hash after k) (view c1) !! k = Some v) as Hrow.
    { apply map_lookup_filter_Some. split; [done|]. by apply andb_true_iff. }
    apply elem_of_map_to_list in Hrow. rewrite Hs in Hrow. by apply elem_of_nil in Hrow.
Qed.
Lemma rests_select_next subject after : keeps (rests R) (select_next_request subject after).
Proof.
  apply keeps_bind; [apply _|auto with broker|]. intros _. apply rests_here. intros c. simpl. destruct (first_request _) as [[k v]|]; [|done].
  apply locks_rests, _.
Qed.
Lemma keeps_ensure_time stop : keeps clock_run (ensure_time stop).
Proof. unfold ensure_time. auto with broker. Qed.
Lemma rests_tx_time stop : keeps (rests R) (tx_time stop).
Proof. apply rests_txn_with; [apply _|]. apply keeps_ensure_time. Qed.
Lemma rests_tx_expiry expires : keeps (rests R) (tx_expiry expires).
Proof. unfold tx_expiry, tx_micros. auto with broker. Qed.
End requests.
#[export] Hint Extern 1 (keeps (rests _) (select_next_request _ _)) => apply rests_select_next : broker.
#[export] Hint Resolve keeps_ensure_time : broker.
#[export] Hint Extern 1 (keeps (rests _) (tx_time _)) => apply rests_tx_time : broker.
#[export] Hint Extern 1 (keeps (rests _) (tx_expiry _)) => apply rests_tx_expiry : broker.
#[export] Hint Extern 1 (keeps (rests _) tx_micros) => apply rests_txn_with : broker.
#[export] Hint Extern 9 (keeps (acts _ _) _) => apply keeps_rests_acts : broker.

(** What an invalidation takes from a person. *)
Inductive taken_away (subject : string) (k : Key) : option Row → option Row → Prop :=
| TaToken t now : tk_subject t = subject → (1 ≤ tk_local_user_revision t)%Z → taken_away subject k (Some (RToken t)) (Some (RToken (revoked now t)))
| TaRequest q : k.1 = "oidc_auth_requests" → rq_identity_subject q = subject → taken_away subject k (Some (RRequest q)) None
| TaChallenge a : k.1 = "local_auth_challenges" → ch_subject a = subject → taken_away subject k (Some (RChallenge a)) None
| TaDevice d : k.1 = "oauth_device_codes" → dc_subject d = subject → taken_away subject k (Some (RDevice d)) None.
Section clear.
Context `{InvalidationLib, !TextOrder} (R : gset Key → Db → Db → Prop) `{!Rely R, !PersonRely R} (subject : string) (stop : Z).
Notation changes := (acts R (taken_away subject)).
Lemma person_request_row k v : person_request subject k v = true → ∃ q, v = RRequest q ∧ k.1 = "oidc_auth_requests" ∧ rq_identity_subject q = subject.
Proof. destruct v as [| | | | | |q| |]; try done. intros [Hk%str_eqb_eq Hs%str_eqb_eq]%andb_true_iff. by exists q. Qed.
Lemma request_gone k v : person_request subject k v = true → taken_away subject k (Some v) None.
Proof. intros (q & -> & Hk & Hs)%person_request_row. by constructor. Qed.
Lemma acts_clear_request after continue :
  (∀ a, keeps changes (continue a)) → keeps changes (clear_request subject after stop continue).
Proof.
  intros Hc. unfold clear_request. apply keeps_bind; [apply _|auto with broker|]. intros _.
  apply keeps_bind; [apply _|auto with broker|]. intros [[k v]|]; [|auto with broker]. destruct v as [| | | | | |q| |]; try (by auto with broker).
  apply keeps_bind; [apply _|auto with broker|]. intros preserve. apply keeps_bind; [apply _|auto with broker|]. intros _.
  apply keeps_bind; [apply _| |auto]. destruct preserve; [auto with broker|].
  apply keeps_bind; [apply _|apply (acts_delete_where R)|auto with broker]. intros k' v [_ Hp]%andb_true_iff. by apply request_gone.
Qed.
Lemma acts_clear_quiet fuel after : keeps changes (clear_quiet fuel subject stop after).
Proof. revert after. induction fuel as [|fuel IH]; intros after; simpl; [auto with broker|]. by apply acts_clear_request. Qed.
Lemma acts_clear_busy turns after : keeps changes (clear_busy turns subject stop after).
Proof.
  revert after. induction turns as [|turns IH]; intros after; [|by apply acts_clear_request].
  intros c x c'. apply acts_clear_quiet.
Qed.
(** Up to some hash, the requests that are not kept are gone. *)
Definition cleared (after : option string) (c : Tx) : Prop :=
  keeps_person R subject c ∧ settled (λ k v, unkept_request subject k v && negb (after_hash after k)) c.
Lemma cleared_rests after c c' : rests R c c' → cleared after c → cleared after c'.
Proof.
  intros Hr [Hp Hs]. split; [eapply keeps_person_inside; [exact Hp|by destruct Hr]|].
  apply (settled_person R (λ _ _ _, False) subject) with (c := c); [by apply (rests_acts R)|set_solver|done|done|done].
Qed.
Lemma cleared_next after k v c :
  cleared after c → view c !! k = Some v → person_request subject k v = true →
  (∀ k' v', view c !! k' = Some v' → person_request subject k' v' = true → after_hash after k' = true → text_ltb k'.2 k.2 = false) →
  ∀ k' v', view c !! k' = Some v' → k' ≠ k → unkept_request subject k' v' = true → after_hash (Some k.2) k' = true.
Proof.
  intros [_ Hs] Hv Hp Hmin k' v' Hv' Hne Hu. specialize (Hs k' v' Hv'). cbn beta in Hs. rewrite Hu in Hs. simpl in Hs. apply negb_false_iff in Hs.
  assert (person_request subject k' v' = true) as Hp'. { destruct v'; try done. by apply andb_true_iff in Hu as [? _]. }
  specialize (Hmin k' v' Hv' Hp' Hs). simpl. destruct (text_total k.2 k'.2) as [|[Heq|?]]; [done| |congruence].
  apply person_request_row in Hp as (? & _ & Hk1 & _), Hp' as (? & _ & Hk2 & _). destruct k, k'. simpl in *. congruence.
Qed.
Lemma clear_step after continue c c' :
  clear_request subject after stop continue c = (Ok tt, c') → cleared after c →
  settled (unkept_request subject) c' ∨ ∃ a c1, cleared (Some a) c1 ∧ continue (Some a) c1 = (Ok tt, c').
Proof.
  unfold clear_request. intros Hr Hc. apply (bind_rests R) in Hr as [(? & c1 & _ & I1 & Hr)|(? & [=] & _)]; [|auto with broker].
  apply (cleared_rests _ _ _ I1) in Hc. apply bind_ok in Hr as (row & c2 & Hsel & Hr). apply (select_next_ok R) in Hsel as [I2 Hsel].
  apply (cleared_rests _ _ _ I2) in Hc. destruct row as [[k v]|].
  2: { left. apply ret_ok in Hr as [_ ->]. intros k v Hv. destruct (unkept_request subject k v) eqn:Hu; [|done].
       destruct Hc as [_ Hs]. specialize (Hs k v Hv). cbn beta in Hs. rewrite Hu in Hs. simpl in Hs. apply negb_false_iff in Hs.
       rewrite (Hsel k v Hv) in Hs; [done|]. destruct v; try done. by apply andb_true_iff in Hu as [? _]. }
  destruct Hsel as (Hv & Hp & _ & Hk & Hmin). pose proof (person_request_row _ _ Hp) as (q & -> & _).
  pose proof (cleared_next _ _ _ _ Hc Hv Hp Hmin) as Hnext. right. exists k.2.
  apply bind_ok in Hr as (preserve & c3 & Hl & Hr). apply lift_ok in Hl as [Hpre ->].
  apply (bind_rests R) in Hr as [(? & c4 & _ & I4 & Hr)|(? & [=] & _)]; [|auto with broker]. apply bind_ok in Hr as (? & c5 & Hd & Hr).
  destruct x0. exists c5. split; [|done]. destruct preserve.
  - apply ret_ok in Hd as [_ ->]. eapply cleared_rests; [exact I4|]. split; [apply Hc|]. intros k' v' Hv'.
    destruct (unkept_request subject k' v') eqn:Hu; [|done]. simpl. apply negb_false_iff. apply (Hnext k' v' Hv'); [|done].
    intros ->. rewrite Hv in Hv'. injection Hv' as <-. simpl in Hu. unfold federated in Hu. rewrite Hpre in Hu. simpl in Hu.
    by rewrite andb_false_r in Hu.
  - apply bind_ok in Hd as (n & c6 & Hd & Hn). destruct (negb (n =? 1)); [done|]. apply ret_ok in Hn as [_ ->].
    apply (delete_where_ok R) in Hd as (c7 & I7 & _ & ->). assert (rests R c2 c7) as I27 by (by etrans).
    assert (settled (λ k' v', unkept_request subject k' v' && (negb (after_hash (Some k.2) k') && negb (bool_decide (k' = k)))) c7) as Hs7.
    { apply (settled_person R (λ _ _ _, False) subject) with (c := c2); [by apply (rests_acts R)|set_solver|done|apply Hc|]. intros k' v' Hv'.
      destruct (unkept_request subject k' v') eqn:Hu; [|done]. destruct (decide (k' = k)) as [->|Hne]; [by rewrite bool_decide_true, andb_false_r|].
      by rewrite (Hnext k' v' Hv' Hne Hu). }
    split.
    { eapply keeps_person_inside; [apply Hc|]. etrans; [by destruct I27|]. apply (writes_inside R). }
    intros k' v'. rewrite view_writes, lookup_fmap. destruct (rows _ (view c7) !! k') as [v0|] eqn:Er; [done|]. simpl. intros Hv'.
    specialize (Hs7 k' v' Hv'). cbn beta in Hs7. destruct (unkept_request subject k' v') eqn:Hu; [|done].
    destruct (decide (k' = k)) as [->|Hne]; [|by rewrite bool_decide_false, andb_true_r in Hs7 by done]. exfalso.
    apply map_lookup_filter_None in Er as [Er|Er]; [congruence|]. apply (Er v' Hv'). simpl. rewrite bool_decide_true by done. destruct v'; try done.
    by apply andb_true_iff in Hu as [? _].
Qed.
Lemma clear_quiet_ok fuel after c c' :
  clear_quiet fuel subject stop after c = (Ok tt, c') → cleared after c → settled (unkept_request subject) c'.
Proof.
  revert after c. induction fuel as [|fuel IH]; intros after c; [done|]. intros Hr Hc.
  apply (clear_step _ _ _ _ Hr) in Hc as [?|(a & c1 & Hc & Hr')]; [done|by eapply IH].
Qed.
Lemma clear_busy_ok turns after c c' :
  clear_busy turns subject stop after c = (Ok tt, c') → cleared after c → settled (unkept_request subject) c'.
Proof.
  revert after c. induction turns as [|turns IH]; intros after c Hr Hc; [by eapply clear_quiet_ok|].
  apply (clear_step _ _ _ _ Hr) in Hc as [?|(a & c1 & Hc & Hr')]; [done|by eapply IH].
Qed.
Lemma clear_requests_ok c c' : clear_requests subject stop c = (Ok tt, c') → keeps_person R subject c → settled (unkept_request subject) c'.
Proof. intros Hr Hp. eapply clear_busy_ok; [exact Hr|]. split; [done|]. intros k v _. by rewrite andb_false_r. Qed.
End clear.

(** ** The loop ends *)

Lemma bind_ext {S E A B} (m : M S E A) (k k' : A → M S E B) s :
  (∀ a s', m s = (Ok a, s') → k a s' = k' a s') → bind m k s = bind m k' s.
Proof. unfold bind. destruct (m s) as [[a|e] s']; [|done]. intros Hk. by apply Hk. Qed.
Section ends.
Context `{InvalidationLib, !TextOrder} (subject : string) (stop : Z).
Notation left := (requests_left subject).
(** A turn of the loop that goes on: later requests only, and no more turns of others. *)
Lemma later_requests (after : option string) (k : Key) (v : Row) (db db' : Db) :
  db !! k = Some v → person_request subject k v = true → after_hash after k = true →
  (∀ k' v', db' !! k' = Some v' → db !! k' = Some v') →
  size (rows (λ k' v, person_request subject k' v && after_hash (Some k.2) k') db') <
  size (rows (λ k' v, person_request subject k' v && after_hash after k') db).
Proof.
  intros Hv Hp Ha Hsub. apply map_subset_size. split.
  - apply map_subseteq_spec. intros k' v' [Hv' [Hp' Hk']%andb_true_iff]%map_lookup_filter_Some. apply map_lookup_filter_Some.
    split; [by apply Hsub|]. apply andb_true_iff. split; [done|]. simpl in Hk'. destruct after as [a|]; [|done]. by eapply text_trans.
  - intros Hle. rewrite map_subseteq_spec in Hle. specialize (Hle k v).
    assert (rows (λ k' v, person_request subject k' v && after_hash after k') db !! k = Some v) as Hin.
    { apply map_lookup_filter_Some. simpl. by rewrite Hp, Ha. }
    apply Hle, map_lookup_filter_Some in Hin as [_ Hin]. simpl in Hin. by rewrite text_irrefl, andb_false_r in Hin.
Qed.
Lemma quiet_clock {F A} (f : F → LocalAuthError) (m : M clock F A) (c : Tx) r c' :
  txn_with f m c = (r, c') → cn_turns c' = cn_turns c ∧ view c' = view c.
Proof. unfold txn_with. destruct (m (cn_clock c)). by intros [= _ <-]. Qed.
Lemma quiet_await (c : Tx) (r : result LocalAuthError unit) c' : sql_await c = (r, c') → cn_turns c = [] → r = Ok tt ∧ c' = c.
Proof. unfold sql_await. intros Hr Ht. rewrite Ht in Hr. by injection Hr as <- <-. Qed.
Lemma clear_request_ext after f g c :
  cn_turns c = [] → (∀ a c', cn_turns c' = [] → left (Some a) c' < left after c → f (Some a) c' = g (Some a) c') →
  clear_request subject after stop f c = clear_request subject after stop g c.
Proof.
  intros Ht Hfg. unfold clear_request. apply bind_ext. intros [] c1 H1%quiet_clock. destruct H1 as [T1 V1]. apply bind_ext. intros row c2 H2.
  unfold select_next_request in H2. apply bind_ok in H2 as ([] & c2' & Haw & [= Hf <-]). apply quiet_await in Haw as [_ ->]; [|congruence].
  pose proof (first_request_spec (map_to_list (rows (λ k v, person_request subject k v && after_hash after k) (view c1)))) as Hs.
  rewrite Hf in Hs |- *. destruct row as [[k v]|]; [|done]. destruct Hs as [Hin _].
  apply elem_of_map_to_list, map_lookup_filter_Some in Hin as [Hv [Hp Ha]%andb_true_iff].
  destruct v as [| | | | | |q| |]; try done. apply bind_ext. intros preserve c3 [_ ->]%lift_ok. apply bind_ext. intros [] c4 H4%quiet_clock.
  destruct H4 as [T4 V4]. apply bind_ext. intros [] c5 H5. assert (cn_turns c4 = []) as T4' by (rewrite T4; simpl; congruence).
  assert (cn_turns c5 = [] ∧ ∀ k' v', view c5 !! k' = Some v' → view c1 !! k' = Some v') as [T5 V5].
  { rewrite <- (view_locks c1 {[k]}), <- V4. destruct preserve; [by apply ret_ok in H5 as [_ ->]|].
    apply bind_ok in H5 as (n & c6 & Hd & H5). destruct (negb (n =? 1)); [done|]. apply ret_ok in H5 as [_ ->].
    unfold delete_where in Hd. apply bind_ok in Hd as ([] & c7 & Haw & [= _ <-]). apply quiet_await in Haw as [_ ->]; [|done].
    split; [done|]. intros k' v'. rewrite view_writes, lookup_fmap. by destruct (rows _ _ !! k'). }
  apply Hfg; [done|]. unfold requests_left. rewrite <- V1. by eapply later_requests.
Qed.
(** Any fuel beyond the requests that are left gives the same result. *)
Lemma clear_quiet_fuel n after c : cn_turns c = [] → left after c < n → clear_quiet n subject stop after c = clear_quiet (S (left after c)) subject stop after c.
Proof.
  remember (left after c) as l eqn:El. assert (left after c ≤ l) as Hle by lia. clear El. revert n after c Hle.
  induction l as [l IH] using lt_wf_ind; intros n after c Hle Ht Hn. destruct n as [|n]; [lia|]. cbn [clear_quiet].
  apply clear_request_ext; [done|]. intros a c' Ht' Hlt.
  rewrite (IH (left (Some a) c') ltac:(lia) n), (IH (left (Some a) c') ltac:(lia) l) by (done || lia). done.
Qed.
Lemma clear_busy_quiet n after c : cn_turns c = [] → clear_busy n subject stop after c = clear_quiet (S (left after c)) subject stop after c.
Proof.
  revert after c. induction n as [|n IH]; intros after c Ht; [done|]. cbn [clear_busy clear_quiet].
  apply clear_request_ext; [done|]. intros a c' Ht' Hlt. rewrite IH by done. symmetry. by apply clear_quiet_fuel.
Qed.
#[local] Instance any_rely : Rely (λ (_ : gset Key) (_ _ : Db), True).
Proof. by repeat split. Qed.
Lemma clear_request_turns after f g c :
  cn_turns c ≠ [] → (∀ a c', length (cn_turns c') < length (cn_turns c) → f (Some a) c' = g (Some a) c') →
  clear_request subject after stop f c = clear_request subject after stop g c.
Proof.
  intros Ht Hfg. unfold clear_request. apply bind_ext. intros [] c1 [T1 _]%quiet_clock. apply bind_ext. intros row c2 H2.
  unfold select_next_request in H2. apply bind_ok in H2 as ([] & c2' & Haw & [= Hf <-]). rewrite Hf.
  assert (length (cn_turns c2') < length (cn_turns c)) as Hlt.
  { rewrite <- T1 in Ht |- *. unfold sql_await in Haw. destruct (cn_turns c1) as [|t ts]; [done|].
    destruct (tn_fault t) as [[]|]; [done..|]. injection Haw as <-. unfold interfere. case_bool_decide; simpl; lia. }
  destruct row as [[k v]|]; [|done]. destruct v as [| | | | | |q| |]; try done.
  apply bind_ext. intros preserve c3 [_ ->]%lift_ok. apply bind_ext. intros [] c4 [T4 _]%quiet_clock. apply bind_ext. intros [] c5 H5.
  apply Hfg. assert (length (cn_turns c5) ≤ length (cn_turns c4)); [|rewrite T4 in *; simpl in *; lia].
  destruct preserve; [by apply ret_ok in H5 as [_ ->]|]. apply bind_ok in H5 as (n & c6 & Hd & H5). destruct (negb (n =? 1)); [done|].
  apply ret_ok in H5 as [_ ->]. apply (inside_delete_where (λ _ _ _, True)) in Hd.
  apply suffix_length, Hd.
Qed.
(** And any count of turns beyond those of the others. *)
Lemma clear_busy_fuel n c :
  length (cn_turns c) ≤ n → ∀ after, clear_busy n subject stop after c = clear_busy (length (cn_turns c)) subject stop after c.
Proof.
  revert c. induction n as [n IH] using lt_wf_ind. intros c Hn after. destruct n as [|n]; [by replace (length (cn_turns c)) with 0 by lia|].
  destruct (cn_turns c) as [|t ts] eqn:Et; [by apply clear_busy_quiet|]. cbn [length clear_busy].
  apply clear_request_turns; [by rewrite Et|]. intros a c' Hlt. rewrite Et in Hlt. simpl in *.
  rewrite (IH n) by lia. symmetry. apply IH; lia.
Qed.
End ends.

(** ** Invalidation *)

Section invalidated.
Context `{InvalidationLib, !TextOrder} (R : gset Key → Db → Db → Prop) `{!Rely R, !PersonRely R} (subject : string).
Lemma taken_change k o o' : taken_away subject k o o' → person_change subject k o o'.
Proof. destruct 1; right; eauto 10. Qed.
Lemma token_taken now k v : person_token subject k v = true → taken_away subject k (Some v) (Some (set_token (revoked now) v)).
Proof. destruct v; try done. cbn [person_token]. intros Hp. bool_to_prop. simpl. constructor; [by apply str_eqb_eq|done]. Qed.
Lemma challenge_taken k v : person_challenge subject k v = true → taken_away subject k (Some v) None.
Proof. destruct v; try done. cbn [person_challenge]. intros [Hk%str_eqb_eq Hs%str_eqb_eq]%andb_true_iff. by constructor. Qed.
Lemma device_taken k v : person_device subject k v = true → taken_away subject k (Some v) None.
Proof. destruct v; try done. cbn [person_device]. intros [Hk%str_eqb_eq Hs%str_eqb_eq]%andb_true_iff. by constructor. Qed.
(** Nothing new is given. *)
Lemma taken_none q k o v : q ∈ given subject → taken_away subject k o (Some v) → q k v = false.
Proof.
  intros Hq Ht. inversion Ht; subst. unfold given in Hq. rewrite !elem_of_cons in Hq. destruct Hq as [->|[->|[->|[->|Hq]]]]; [|done..|].
  - cbn. by rewrite !andb_false_r.
  - by apply elem_of_nil in Hq.
Qed.
Notation takes := (acts R (taken_away subject)).
Lemma taken_settled q c c' : takes c c' → q ∈ given subject → keeps_person R subject c → settled q c → settled q c'.
Proof. intros Ht Hq. apply (settled_kind R _ subject q c c' Ht); [by apply given_owed|]. intros k o v. by apply taken_none. Qed.
Record stripped (devices_too : bool) (c : Tx) : Prop := {
  sr_tokens : settled (person_token subject) c;
  sr_requests : settled (unkept_request subject) c;
  sr_challenges : settled (person_challenge subject) c;
  sr_devices : devices_too = true → settled (person_device subject) c;
}.
Lemma acts_invalidate pd now stop : keeps takes (invalidate_local_user subject pd now stop).
Proof.
  unfold invalidate_local_user. apply keeps_bind; [apply _|apply (acts_update_where R); intros; by apply token_taken|]. intros _.
  apply keeps_bind; [apply _| |]. { intros c x c'. apply acts_clear_busy; apply _. } intros _.
  apply keeps_bind; [apply _|apply (acts_delete_where R); intros; by apply challenge_taken|]. intros _. destruct pd; [auto with broker|].
  apply keeps_bind; [apply _|apply (acts_delete_where R); intros; by apply device_taken|auto with broker].
Qed.
Lemma invalidate_ok pd now stop c c' :
  invalidate_local_user subject pd now stop c = (Ok tt, c') → keeps_person R subject c → stripped (negb pd) c'.
Proof.
  unfold invalidate_local_user. intros Hr Hp. apply bind_ok in Hr as (n1 & c1 & H1 & Hr). apply bind_ok in Hr as ([] & c2 & H2 & Hr).
  apply bind_ok in Hr as (n3 & c3 & H3 & Hr).
  assert (takes c c1) as A1 by (eapply (acts_update_where R (E:=LocalAuthError)); [|exact H1]; intros; by apply token_taken).
  assert (takes c1 c2) as A2 by (eapply acts_clear_busy; [apply _..|exact H2]).
  assert (takes c2 c3) as A3 by (eapply (acts_delete_where R (E:=LocalAuthError)); [|exact H3]; intros; by apply challenge_taken).
  assert (settled (person_token subject) c1) as S1.
  { eapply (settled_update R (E:=LocalAuthError)); [exact H1|done|]. intros k v Hv. destruct v; try done. cbn. by rewrite !andb_false_r. }
  assert (keeps_person R subject c1) as P1 by (eapply keeps_person_inside; [exact Hp|by eapply acts_inside]).
  assert (keeps_person R subject c2) as P2 by (eapply keeps_person_inside; [exact P1|by eapply acts_inside]).
  assert (keeps_person R subject c3) as P3 by (eapply keeps_person_inside; [exact P2|by eapply acts_inside]).
  assert (settled (unkept_request subject) c2) as S2 by (by eapply clear_requests_ok).
  assert (settled (person_challenge subject) c3) as S3 by (by eapply (settled_delete R (E:=LocalAuthError))).
  assert (takes c3 c' ∧ (pd = false → settled (person_device subject) c')) as [A4 S4].
  { destruct pd; [by apply ret_ok in Hr as [_ ->]|]. apply bind_ok in Hr as (n4 & c4 & H4 & Hr). apply ret_ok in Hr as [_ ->]. split.
    - eapply (acts_delete_where R (E:=LocalAuthError)); [|exact H4]. intros. by apply device_taken.
    - intros _. by eapply (settled_delete R (E:=LocalAuthError)). }
  assert (∀ q c1, q ∈ given subject → keeps_person R subject c1 → settled q c1 → takes c1 c' → settled q c') as Hkeep
    by (intros; by eapply taken_settled).
  split.
  - apply (Hkeep _ c1); [set_solver|done|done|]. etrans; [exact A2|]. by etrans.
  - apply (Hkeep _ c2); [set_solver|done|done|]. by etrans.
  - apply (Hkeep _ c3); [set_solver|done|done|done].
  - intros Hpd. apply S4. by destruct pd.
Qed.
End invalidated.

(** ** Reading *)

Section reading.
Context `{CredentialLib, MfaLib, PasswordLib, InvalidationLib} (s : PostgresLocalAuthService).
Lemma current_user_ok name u cur :
  current_user name u = Some cur →
  cu_username cur = name ∧ cu_subject cur = us_subject u ∧ cu_revision cur = us_revision u ∧ us_identity_kind u = "human" ∧
  us_enabled u = 1%Z ∧ cu_change cur = (us_password_change_required u =? 1)%Z ∧ (1 ≤ us_revision u)%Z ∧
  (us_password_change_required u = 0 ∨ us_password_change_required u = 1)%Z.
Proof.
  unfold current_user. intros Hc. destruct (capped 128 name) as [n|] eqn:E2; [|done].
  destruct (capped 512 (us_subject u)) as [sub|] eqn:E3; [|done]. cbn [mbind option_bind] in Hc.
  destruct (capped 16 (us_identity_kind u)) as [k|] eqn:E4; case_match; try done; bool_to_prop; [|done].
  apply capped_ok in E2 as [-> _], E3 as [-> _], E4 as [-> _]. cbn [is_some_and] in *. injection Hc as <-. cbn.
  match goal with Hk : str_eqb "human" _ = true |- _ => apply str_eqb_eq in Hk end.
  match goal with Hb : (_ || _)%bool = true |- _ => apply orb_true_iff in Hb as [?%Z.eqb_eq|?%Z.eqb_eq] | _ => idtac end; auto 10 with lia.
Qed.
Lemma challenge_record_ok hash r ch :
  challenge_record hash r = Ok ch →
  cc_hash ch = hash ∧ cc_subject ch = ch_subject r ∧ cc_revision ch = ch_local_user_revision r ∧ cc_purpose ch = ch_purpose r ∧
  cc_binding ch = ch_binding_hash r ∧ stage_parse (ch_stage r) = Ok (cc_stage ch) ∧ cc_cipher ch = ch_secret_ciphertext r ∧
  cc_expires ch = ch_expires_at r.
Proof.
  unfold challenge_record. intros Hr. invert_ok Hr.
  repeat match goal with Hc : capped _ _ = Some _ |- _ => apply capped_ok in Hc as [-> _] end. injection Hr as <-. cbn.
  match goal with Hs : rbind _ stage_parse = Ok _ |- _ => apply rbind_ok in Hs as (v & Hv%ok_or_ok%capped_ok & Hs) end.
  destruct Hv as [-> _]. auto 10.
Qed.
(** The challenge and the context are those the row was stored for. *)
Definition presents (ch : ChallengeRecord) (raw : string) (context : LocalAuthBinding) : Prop :=
  cc_purpose ch = purpose_sql (binding_purpose context) ∧
  (∃ d, parse_sql_hex (cc_hash ch) = Ok d ∧ verify_token (la_digester s) LocalAuthChallenge raw d = Ok tt) ∧
  ∃ b, parse_sql_hex (cc_binding ch) = Ok b ∧ verify_local_auth_binding (la_digester s) context b = Ok tt.
Lemma validate_context_ok ch raw context c c' : validate_context s ch raw context c = (Ok tt, c') → presents ch raw context.
Proof.
  unfold validate_context. intros Hr. destruct (negb (str_eqb _ _)) eqn:Ep; [done|]. apply bind_ok in Hr as (now & c1 & _ & Hr).
  destruct (_ <? _)%Z; [done|]. apply bind_ok in Hr as (? & c2 & _ & Hr). apply lift_ok in Hr as [Hr _]. invert_ok Hr. bool_to_prop.
  repeat match goal with Hm : rmap_err _ _ = Ok _ |- _ => apply rmap_err_ok in Hm | u : unit |- _ => destruct u end.
  split; [by apply str_eqb_eq|]. split; eauto.
Qed.

Context (R : gset Key → Db → Db → Prop) `{!Rely R}.
Lemma rests_user_for_update subject : keeps (rests R) (user_for_update subject).
Proof.
  unfold user_for_update. apply keeps_bind; [apply _|auto with broker|]. intros [[k []]|]; try (by auto with broker).
  apply rests_here. intros c. apply locks_rests, _.
Qed.
Lemma rests_tx_begin : keeps (rests R) tx_begin.
Proof. unfold tx_begin. auto with broker. Qed.
Lemma rests_read_challenge hash lock : keeps (rests R) (read_challenge hash lock).
Proof. unfold read_challenge. destruct lock; auto 10 with broker. Qed.
Lemma rests_validate_context ch raw context : keeps (rests R) (validate_context s ch raw context).
Proof. unfold validate_context. auto 10 with broker. Qed.
Lemma rests_has_factor subject : keeps (rests R) (has_factor subject).
Proof. unfold has_factor. auto with broker. Qed.
Lemma user_for_update_ok subject c cur c' :
  user_for_update subject c = (Ok (Some cur), c') → cn_writes c = ∅ →
  ∃ u, held c' (users (cu_username cur)) (Some (RUser u)) ∧ (USER_LOCK, cu_username cur) ∈ cn_locks c' ∧ us_subject u = subject ∧
    current_user (cu_username cur) u = Some cur.
Proof.
  unfold user_for_update. intros Hr Hw. apply bind_ok in Hr as (row & c1 & Hs & Hr). destruct row as [[k v]|]; [|done].
  destruct v as [u| | | | | | | |]; try done. injection Hr as Hc <-.
  apply (select_where_locked_ok R) in Hs as (I & Hv & Hp & Hk). rewrite view_clean in Hv by (by eapply clean_rests).
  cbn [user_where] in Hp. apply andb_true_iff in Hp as [Htab%str_eqb_eq Hu%str_eqb_eq]. destruct k as [tab name]. simpl in *. subst tab.
  pose proof (current_user_ok _ _ _ Hc) as [<- _]. exists u. split; [split; [simpl; set_solver|done]|]. split; [set_solver|done].
Qed.
Lemma read_challenge_ok hash c ch c' :
  read_challenge hash true c = (Ok ch, c') → cn_writes c = ∅ →
  ∃ r, held c' (challenges hash) (Some (RChallenge r)) ∧ challenge_record hash r = Ok ch.
Proof.
  unfold read_challenge. intros Hr Hw. apply bind_ok in Hr as (row & c1 & Hs & Hr). apply bind_ok in Hr as (r & c2 & Hl & Hr).
  apply lift_ok in Hl as [Hl%ok_or_ok ->]. apply lift_ok in Hr as [Hr ->]. destruct row as [[| | |r'| | | | |]|]; try done. injection Hl as ->.
  apply (select_locked_ok R) in Hs as (I & Hv & Hk). rewrite view_clean in Hv by (by eapply clean_rests). exists r. split; [|done].
  split; [apply Hk; by eexists|done].
Qed.
End reading.
#[export] Hint Extern 1 (keeps (rests _) (user_for_update _)) => apply rests_user_for_update : broker.
#[export] Hint Extern 1 (keeps (rests _) tx_begin) => apply rests_tx_begin : broker.
#[export] Hint Extern 1 (keeps (rests _) (read_challenge _ _)) => apply rests_read_challenge : broker.
#[export] Hint Extern 1 (keeps (rests _) (validate_context _ _ _ _)) => apply rests_validate_context : broker.
#[export] Hint Extern 1 (keeps (rests _) (has_factor _)) => apply rests_has_factor : broker.

(** ** The next stage *)

(** A row of the challenges of one person, or none. *)
Definition own_challenge (subject : string) (o : option Row) : Prop := ∀ r, o = Some r → ∃ a, r = RChallenge a ∧ ch_subject a = subject.
Definition challenge_change (subject : string) (k : Key) (o o' : option Row) : Prop :=
  o = o' ∨ k.1 = "local_auth_challenges" ∧ own_challenge subject o ∧ own_challenge subject o'.
Lemma challenge_change_trans subject k x y z : challenge_change subject k x y → challenge_change subject k y z → challenge_change subject k x z.
Proof. intros [->|(? & ? & ?)]; [done|]. intros [->|(? & ? & ?)]; by right. Qed.
Lemma challenge_change_person subject k o o' : challenge_change subject k o o' → person_change subject k o o'.
Proof.
  intros [->|(Hk & Ho & Ho')]; [by left|]. destruct o as [r|], o' as [r'|]; [| | |by left].
  - destruct (Ho r eq_refl) as (a & -> & Ha), (Ho' r' eq_refl) as (b & -> & Hb). by right.
  - destruct (Ho r eq_refl) as (a & -> & Ha). by right.
  - destruct (Ho' r' eq_refl) as (b & -> & Hb). by right.
Qed.

Section next.
Context `{CredentialLib, MfaLib, PasswordLib, InvalidationLib} (s : PostgresLocalAuthService).
Context (cur : CurrentUser) (factor : bool) (context : LocalAuthBinding) (binding : CredentialDigest) (stop : Z) (draws : Draws).
Notation subject := (cu_subject cur).
(** What one statement of it does. *)
Inductive advances (k : Key) : option Row → option Row → Prop :=
| AdGone a : k.1 = "local_auth_challenges" → ch_subject a = subject → ch_purpose a = purpose_sql (binding_purpose context) →
    advances k (Some (RChallenge a)) None
| AdNew b raw hash : new_local_auth_challenge (dw_challenge draws) = Some raw → challenge_hash s raw = Ok hash → k = challenges hash →
    ch_subject b = subject → advances k None (Some (RChallenge b)).
Lemma advances_change k o o' : advances k o o' → challenge_change subject k o o'.
Proof.
  destruct 1 as [a Hk Ha _|b raw hash _ _ -> Hb]; right.
  - split; [done|]. split; [|done]. intros r [= <-]. eauto.
  - split; [done|]. split; [done|]. intros r [= <-]. eauto.
Qed.
Lemma of_purpose_gone k v : of_purpose subject (binding_purpose context) k v = true → advances k (Some v) None.
Proof.
  destruct v; try done. cbn [of_purpose]. intros [[Hk%str_eqb_eq Hs%str_eqb_eq]%andb_true_iff Hp%str_eqb_eq]%andb_true_iff. by constructor.
Qed.
Definition pending_challenge (stage : LocalAuthStage) (cipher : string) (expires now : Z) : ChallengeRow :=
  {| ch_subject := subject; ch_local_user_revision := cu_revision cur; ch_purpose := purpose_sql (binding_purpose context);
     ch_binding_hash := to_sql_hex binding; ch_stage := stage_sql stage; ch_secret_ciphertext := cipher; ch_expires_at := expires;
     ch_created_at := now |}.
Context (R : gset Key → Db → Db → Prop) `{!Rely R}.
Notation advancing := (acts R advances).
Lemma acts_advance : keeps advancing (advance_login s cur factor context binding stop draws).
Proof.
  unfold advance_login. apply keeps_bind; [apply _|auto with broker|]. intros now. apply keeps_bind; [apply _|auto with broker|]. intros at_.
  destruct (next_stage s cur factor) as [stage|]; [|auto with broker]. case_match; [auto with broker|].
  apply keeps_bind; [apply _|auto with broker|]. intros expires. apply keeps_bind; [apply _|auto with broker|]. intros [cipher enrollment].
  do 2 (apply keeps_bind; [apply _|auto with broker|]; intros _). intros c x c' Hr. apply bind_cases in Hr as [(raw & c1 & Hl & Hr)|(e & Hl & ->)].
  2: { by injection Hl as _ <-. }
  apply lift_ok in Hl as [Hraw%ok_or_ok ->]. apply bind_cases in Hr as [(hash & c1 & Hl & Hr)|(e & Hl & ->)].
  2: { by injection Hl as _ <-. }
  apply lift_ok in Hl as [Hhash ->]. revert x c' Hr. match goal with |- ∀ x c', ?m c = _ → _ => enough (keeps advancing m) as Hk by (by apply Hk) end.
  apply keeps_bind; [apply _|apply (acts_delete_where R); intros; by apply of_purpose_gone|]. intros _.
  apply keeps_bind; [apply _|apply (acts_insert_row R); by eapply AdNew|auto with broker].
Qed.
(** The login is complete when no stage is left; otherwise its challenge is the
    only one for the person and the purpose. *)
Lemma advance_ok c result expires c' :
  advance_login s cur factor context binding stop draws c = (Ok (result, expires), c') →
  match next_stage s cur factor with
  | None => rests R c c' ∧ (∃ now, result = LsComplete (completed cur now context binding false None)) ∧ expires = None
  | Some stage => ∃ raw hash cipher enrollment now e,
      challenge_hash s raw = Ok hash ∧ stage_secret s cur stage draws = Ok (cipher, enrollment) ∧
      result = LsPending {| pa_stage := stage; pa_challenge := raw; pa_enrollment := enrollment |} ∧
      expires = Some e ∧ e = (now + as_micros (lo_challenge_ttl (la_policy s)))%Z ∧
      new_local_auth_challenge (dw_challenge draws) = Some raw ∧
      ∃ c1, cn_writes c' !! challenges hash = Some (Some (RChallenge (pending_challenge stage cipher e now))) ∧
        settled (of_purpose subject (binding_purpose context)) c1 ∧ acts R (λ k _ _, k = challenges hash) c1 c' ∧ inside R c c1
  end.
Proof.
  unfold advance_login. intros Hr. apply (bind_rests R) in Hr as [(now & c1 & _ & I1 & Hr)|(? & [=] & _)]; [|auto with broker].
  apply bind_ok in Hr as (at_ & c2 & Hl & Hr). apply lift_ok in Hl as [_ ->].
  destruct (next_stage s cur factor) as [stage|]; [|apply ret_ok in Hr as [[= -> ->] ->]; by eauto].
  destruct (I64_MAX <? _)%Z; [done|]. apply bind_ok in Hr as (e & c3 & Hl & Hr). apply lift_ok in Hl as [He%ok_or_ok ->].
  apply bind_ok in Hr as ([cipher enrollment] & c3 & Hl & Hr). apply lift_ok in Hl as [Hsec ->].
  apply (bind_rests R) in Hr as [(? & c4 & _ & I4 & Hr)|(? & [=] & _)]; [|auto with broker].
  apply (bind_rests R) in Hr as [(? & c5 & _ & I5 & Hr)|(? & [=] & _)]; [|auto with broker].
  apply bind_ok in Hr as (raw & c6 & Hl & Hr). apply lift_ok in Hl as [Hraw%ok_or_ok ->].
  apply bind_ok in Hr as (hash & c6 & Hl & Hr). apply lift_ok in Hl as [Hhash ->].
  apply bind_ok in Hr as (n & c6 & Hd & Hr). apply bind_ok in Hr as ([] & c7 & Hi & Hr). apply ret_ok in Hr as [[= -> ->] ->].
  exists raw, hash, cipher, enrollment, now, e. split_and!; try done.
  { unfold checked_add_i64 in He. case_match; [|done]. by injection He as <-. }
  exists c6. split; [|split; [|split]].
  - apply (insert_row_ok R) in Hi as (c8 & _ & _ & _ & ->). rewrite writes_one. apply lookup_insert_eq.
  - by eapply (settled_delete R (E:=LocalAuthError)).
  - by eapply (acts_insert_row R (E:=LocalAuthError)); [|exact Hi].
  - etrans; [exact (re_inside _ _ _ I1)|]. etrans; [exact (re_inside _ _ _ I4)|]. etrans; [exact (re_inside _ _ _ I5)|].
    by eapply (inside_delete_where R (E:=LocalAuthError)).
Qed.
End next.

(** ** The beginning of a login *)

(** Errors that come after the commit. *)
Definition late_login (e : LocalAuthError) : Prop :=
  e ∈ [LA_Control CE_OutcomeUncertain; LA_Control CE_Deadline; LA_Control CE_Clock; LA_Control CE_Closed; LA_InvalidChallenge; LA_MfaUnavailable].
Section tails.
Lemma late_tx_time stop : only late_login (tx_time stop).
Proof.
  intros c e c'. unfold tx_time, txn_with, ensure_time, bind, instant_now. cbn. destruct (stop <=? _)%Z; [|done]. intros [= <- _].
  unfold late_login. set_solver.
Qed.
Lemma late_tx_micros : only late_login tx_micros.
Proof.
  intros c e c'. unfold tx_micros, txn_clock, txn_with. destruct (now_micros (cn_clock c)) as [[a|e'] k] eqn:Em; [done|]. intros [= <- _].
  unfold now_micros in Em. apply bind_cases in Em as [(t & k1 & _ & Em)|(e1 & Em & ?)]; [|done].
  cbn in Em. destruct (TimestampMicros_try_from t); [done|]. injection Em as <- _. unfold late_login. set_solver.
Qed.
Lemma late_tx_expiry expires : only late_login (tx_expiry expires).
Proof.
  apply only_bind; [apply late_tx_micros|]. intros now c e c'. unfold ensure_expiry, lift_result. case_match; [|done]. intros [= <- _].
  unfold late_login. set_solver.
Qed.
Lemma late_tx_expires expires : only late_login (tx_expires expires).
Proof. destruct expires; [apply late_tx_expiry|apply only_ret]. Qed.
Lemma same_db_expires expires : keeps same_db (tx_expires expires).
Proof. destruct expires; unfold tx_expires, tx_expiry, tx_micros; auto with broker. Qed.
End tails.
#[export] Hint Resolve late_tx_time late_tx_micros late_tx_expiry late_tx_expires : broker.
#[export] Hint Resolve same_db_expires : broker.
#[export] Hint Extern 1 (keeps same_db (tx_time _)) => apply same_db_clock : broker.

Section begun.
Context `{CredentialLib, MfaLib, PasswordLib, InvalidationLib, !TextOrder} (s : PostgresLocalAuthService).
Lemma rests_tx_expires R `{!Rely R} expires : keeps (rests R) (tx_expires expires).
Proof. destruct expires; unfold tx_expires; auto with broker. Qed.
#[local] Hint Extern 1 (keeps (rests _) (tx_expires _)) => apply rests_tx_expires : broker.
(** A stage is open for the person: its challenge is stored, alone for its purpose. *)
Record opened_stage (cur : CurrentUser) (context : LocalAuthBinding) (binding : CredentialDigest) (stage : LocalAuthStage)
    (db db' : Db) (r : result LocalAuthError LocalAuthStep) : Prop := {
  op_answer : ∃ raw hash enrollment ch,
    r = Ok (LsPending {| pa_stage := stage; pa_challenge := raw; pa_enrollment := enrollment |}) ∧ challenge_hash s raw = Ok hash ∧
    db' !! challenges hash = Some (RChallenge ch) ∧ ch_subject ch = cu_subject cur ∧ ch_local_user_revision ch = cu_revision cur ∧
    ch_purpose ch = purpose_sql (binding_purpose context) ∧ ch_binding_hash ch = to_sql_hex binding ∧ ch_stage ch = stage_sql stage ∧
    ∀ h a, db' !! challenges h = Some (RChallenge a) → ch_subject a = cu_subject cur →
      ch_purpose a = purpose_sql (binding_purpose context) → h = hash;
  op_frame : ∀ k, challenge_change (cu_subject cur) k (db !! k) (db' !! k);
}.
(** The outcome of [begin]. *)
Inductive begins (proof : VerifiedLocalPassword) (context : LocalAuthBinding) (db : Db) (r : result LocalAuthError LocalAuthStep) (db' : Db) : Prop :=
| Begins u cur binding :
    db !! users (vp_username proof) = Some (RUser u) → us_subject u = vp_subject proof → us_revision u = vp_revision proof →
    current_user (vp_username proof) u = Some cur → context_binding s context = Ok binding →
    match next_stage s cur (bool_decide (is_Some (db !! factors (vp_subject proof)))) with
    | None => db' = db ∧ ∃ now, r = Ok (LsComplete (completed cur now context binding false None))
    | Some stage => opened_stage cur context binding stage db db' r
    end → begins proof context db r db'.

Context (R : gset Key → Db → Db → Prop) `{!Rely R, !PersonRely R}.
Lemma login_commit {A} (k : M Tx LocalAuthError A) c x c' (a : A) :
  (do? sql_commit in k) c = (x, c') → keeps same_db k → only late_login k → (∀ c1 b c2, k c1 = (Ok b, c2) → b = a) →
  (∃ e, x = Err e) ∧ inside R c c' ∨ ∃ c1, rests R c c1 ∧ cn_db c' = view c1 ∧ (x = Ok a ∨ ∃ e, x = Err e ∧ late_login e).
Proof.
  intros Hr Hk Ho Ha. apply (commit_tail R) in Hr as [?|(c1 & I1 & Hdb & Hx)]; [by left| |done]. right. exists c1.
  split; [done|]. split; [done|]. destruct Hx as [(c2 & c3 & Hx)| ->].
  - destruct x as [b|e]; [left; f_equal; by eapply Ha|]. right. exists e. split; [done|]. by eapply Ho.
  - right. eexists. split; [done|]. unfold late_login. set_solver.
Qed.
(** The stage opened, as it is at the commit. *)
Lemma advance_opened cur factor context binding stop draws c c1 c2 result expires stage :
  advance_login s cur factor context binding stop draws c = (Ok (result, expires), c1) → next_stage s cur factor = Some stage →
  keeps_person R (cu_subject cur) c → rests R c1 c2 →
  ∃ raw hash enrollment ch,
    result = LsPending {| pa_stage := stage; pa_challenge := raw; pa_enrollment := enrollment |} ∧ challenge_hash s raw = Ok hash ∧
    new_local_auth_challenge (dw_challenge draws) = Some raw ∧
    view c2 !! challenges hash = Some (RChallenge ch) ∧ ch_subject ch = cu_subject cur ∧ ch_local_user_revision ch = cu_revision cur ∧
    ch_purpose ch = purpose_sql (binding_purpose context) ∧ ch_binding_hash ch = to_sql_hex binding ∧ ch_stage ch = stage_sql stage ∧
    ∀ h a, view c2 !! challenges h = Some (RChallenge a) → ch_subject a = cu_subject cur →
      ch_purpose a = purpose_sql (binding_purpose context) → h = hash.
Proof.
  intros Hr Hst Hp I. apply (advance_ok s _ _ _ _ _ _ R) in Hr. rewrite Hst in Hr.
  destruct Hr as (raw & hash & cipher & enrollment & now & e & Hh & _ & -> & _ & _ & Hraw & c0 & Hw & Hs & Ha & Hi).
  exists raw, hash, enrollment, (pending_challenge cur context binding stage cipher e now). split; [done|]. split; [done|]. split; [done|].
  split. { change (view c2) with (apply_writes (cn_writes c2) (cn_db c2)). by rewrite lookup_apply, (re_writes _ _ _ I), Hw. }
  do 5 (split; [done|]). intros h a Hv Hsub Hpur. destruct (decide (h = hash)) as [->|Hne]; [done|]. exfalso.
  assert (settled (λ k v, of_purpose (cu_subject cur) (binding_purpose context) k v && negb (bool_decide (k = challenges hash))) c2) as Hs2.
  { apply (settled_person R (λ k _ _, k = challenges hash) (cu_subject cur)) with (c := c0).
    - etrans; [exact Ha|]. by apply (rests_acts R).
    - apply purpose_owed.
    - intros k o v ->. by rewrite bool_decide_true, andb_false_r.
    - by eapply keeps_person_inside.
    - intros k v Hkv. by rewrite (Hs k v Hkv). }
  specialize (Hs2 _ _ Hv). cbn in Hs2. rewrite Hsub, Hpur, !str_eqb_refl in Hs2. rewrite bool_decide_false in Hs2 by (intros [= ?]; done). done.
Qed.
(** Whether the person has a factor does not change either. *)
Lemma factor_stays subject c row c' c2 :
  select_locked (E:=LocalAuthError) (factors subject) c = (Ok row, c') → cn_writes c = ∅ → keeps_person R subject c' → inside R c' c2 →
  cn_db c2 !! factors subject = row.
Proof.
  intros Hs Hw Hp Hi. apply (select_locked_ok R) in Hs as (I & Hv & Hk). rewrite view_clean in Hv by (by eapply clean_rests). destruct row as [v|].
  - rewrite (in_held _ _ _ Hi); [done|]. apply Hk. by eexists.
  - destruct (cn_db c2 !! factors subject) as [v|] eqn:E; [|done].
    destruct (keeps_person_undisturbed R subject (person_factor subject) (λ _, true) c' c2 (factor_owed subject) Hp Hi _ _ E) as (v' & Hv' & _).
    + apply andb_true_iff. split; [by apply bool_decide_eq_true|done].
    + congruence.
Qed.
Lemma has_factor_ok subject c f c' c2 :
  has_factor subject c = (Ok f, c') → cn_writes c = ∅ → keeps_person R subject c' → inside R c' c2 →
  f = bool_decide (is_Some (cn_db c2 !! factors subject)).
Proof.
  unfold has_factor. intros Hr Hw Hp Hi. apply bind_ok in Hr as (row & c1 & Hs & Hr). apply ret_ok in Hr as [-> ->].
  by erewrite factor_stays.
Qed.
Lemma begin_atomic proof context original draws (c : Tx) x c' :
  begin_login s proof context original draws c = (x, c') → idle c → fair R c →
  atomically R late_login c x c' (λ db r db', begins proof context db r db').
Proof.
  intros Hr Hidle Hfair. pose proof Hidle as [Hw _].
  match goal with |- ?G => assert (∀ e, x = Err e → inside R c c' → G) as Hno by (intros; by eapply (atomically_nothing R)) end.
  unfold begin_login in Hr. assert (rests R c c) as I by reflexivity. read_step Hr I stop c1 K1. read_step Hr I bd c2 K2.
  apply lift_ok in K2 as [Hbind ->]. read_step Hr I w3 c3 K3. pose proof (clean_rests _ _ _ I Hw) as Hw3. read_step Hr I user c4 K4.
  read_step Hr I cur c5 K5. apply lift_ok in K5 as [K5%ok_or_ok ->]. subst user.
  apply (user_for_update_ok R) in K4 as (u & Hu & Hlock & Hsub & Hcur); [|done].
  pose proof (current_user_ok _ _ _ Hcur) as (_ & Hcs & Hcr & _). guard_step Hr I G1. bool_to_prop.
  repeat match goal with Hb : str_eqb _ _ = true |- _ => apply str_eqb_eq in Hb end.
  pose proof (clean_rests _ _ _ I Hw) as Hw4. read_step Hr I factor c6 K6.
  assert (keeps_person R (cu_subject cur) c6) as Hperson.
  { split; [eapply fair_suffix; [exact (in_turns _ _ _ (re_inside _ _ _ I))|done]|]. exists (cu_username cur), u.
    split; [by apply (in_locks _ _ _ (re_inside _ _ _ J4))|]. split; [done|congruence]. }
  apply (bind_inside R) in Hr as [([result expires] & c7 & Hadv & Hi7 & Hr)|(e & He & Hi)];
    [|eapply Hno; [exact He|]; etrans; [exact (re_inside _ _ _ I)|done]|intros c0 x0 c0' Ha; by eapply (acts_inside R), acts_advance].
  match goal with |- ?G => assert (∀ e, x = Err e → inside R c7 c' → G) as Hno7 end.
  { intros e He Hi. eapply Hno; [exact He|]. etrans; [exact (re_inside _ _ _ I)|]. by etrans. }
  assert (rests R c7 c7) as I7 by reflexivity. read_step Hr I7 w8 c8 K8. read_step Hr I7 w9 c9 K9.
  apply (login_commit _ _ _ _ result) in Hr as [[[e He] Hi]|(c10 & I10 & Hdb & Hx)];
    [eapply Hno7; [exact He|]; etrans; [exact (re_inside _ _ _ I7)|done]| |auto 10 with broker|auto 10 with broker|].
  2: { intros ? b ? Hb. apply bind_ok in Hb as (? & ? & _ & Hb). apply bind_ok in Hb as (? & ? & _ & Hb). by apply ret_ok in Hb as [-> _]. }
  assert (rests R c7 c10) as I70 by (by etrans). assert (inside R c6 c10) as Hi6 by (etrans; [exact Hi7|exact (re_inside _ _ _ I70)]).
  eapply (atomically_step R); [done|done| |exact Hdb| |exact Hx]; [etrans; [exact (re_inside _ _ _ I)|done]|].
  pose proof (held_inside R _ _ _ _ Hi6 Hu) as [_ Hu10]. rewrite H4 in *. econstructor; [exact Hu10|done|congruence|done|exact Hbind|].
  rewrite <- H5, <- (has_factor_ok _ _ _ _ c10 K6 Hw4 Hperson Hi6). destruct (next_stage s cur factor) as [stage|] eqn:Est.
  - destruct (advance_opened _ _ _ _ _ _ _ _ _ _ _ _ Hadv Est Hperson I70) as (raw & hash & enrollment & ch & -> & Hh & _ & Hrow). split.
    + exists raw, hash, enrollment, ch. split; [done|]. split; [done|exact Hrow].
    + intros k. assert (explained (challenge_change (cu_subject cur)) c10) as Hex.
      { eapply (explained_acts R); [intros ?; apply challenge_change_trans| |apply explained_clean; eapply clean_rests; [exact I|done]].
        etrans; [|by apply (rests_acts R)]. apply (acts_weaken R (advances s cur context draws)); [intros ? ? ?; apply advances_change|]. by eapply acts_advance. }
      destruct (explained_view _ _ k Hex) as [->|?]; [by left|done].
  - apply (advance_ok s _ _ _ _ _ _ R) in Hadv. rewrite Est in Hadv. destruct Hadv as (I67 & (now & ->) & ->). split; [|eauto].
    rewrite view_clean; [done|]. eapply clean_rests; [etrans; [exact I|]; etrans; [exact I67|exact I70]|done].
Qed.
End begun.

(** ** Enrolment *)

Section enrolled.
Context `{CredentialLib, MfaLib, PasswordLib, InvalidationLib, !TextOrder} (s : PostgresLocalAuthService).
Context (cur : CurrentUser) (cipher : string) (step now : Z) (context : LocalAuthBinding) (stop : Z) (draws : Draws).
Notation subject := (cu_subject cur).
Inductive enrolls (k : Key) : option Row → option Row → Prop :=
| EnUser u hash change revision : us_subject u = subject → enrolls k (Some (RUser u)) (Some (RUser (user_with hash change revision now u)))
| EnFactor f : k = factors subject → enrolls k None (Some (RFactor f))
| EnRecovery v : k.1 = "local_mfa_recovery_codes" → rv_subject v = subject → enrolls k None (Some (RRecovery v))
| EnTaken o o' : taken_away subject k o o' → enrolls k o o'.
Lemma enrolls_change k o o' : enrolls k o o' → person_change subject k o o'.
Proof. destruct 1 as [| | |o o' Ht]; [right; eauto 10..|]. by apply taken_change. Qed.
Context (R : gset Key → Db → Db → Prop) `{!Rely R, !PersonRely R}.
Notation enrolling := (acts R enrolls).
Lemma acts_insert_code u code : keeps (acts R (λ k o o', o = None ∧ enrolls k o o')) (insert_code s subject now u code).
Proof.
  unfold insert_code. apply keeps_bind; [apply _|auto with broker|]. intros n. apply keeps_bind; [apply _|auto with broker|]. intros d.
  apply (acts_insert_row R). split; [done|]. by constructor.
Qed.
Lemma insert_codes_ok codes c c' :
  mfor (insert_code s subject now) tt codes c = (Ok tt, c') →
  ∀ code, code ∈ codes → ∃ n d, normalize_local_recovery_code code = Some n ∧ recovery_digest s subject n = Ok d ∧
    cn_writes c' !! recoveries subject d = Some (Some (RRecovery {| rv_subject := subject; rv_code_hash := d; rv_created_at := now |})).
Proof.
  revert c. induction codes as [|code codes IH]; intros c Hr code' Hin; [by apply elem_of_nil in Hin|]. cbn [mfor] in Hr.
  apply bind_ok in Hr as ([] & c1 & Hi & Hr). apply elem_of_cons in Hin as [->|Hin]; [|by eapply IH].
  unfold insert_code in Hi. apply bind_ok in Hi as (n & c2 & Hl & Hi). apply lift_ok in Hl as [Hn%ok_or_ok ->].
  apply bind_ok in Hi as (d & c2 & Hl & Hi). apply lift_ok in Hl as [Hd ->]. exists n, d. split; [done|]. split; [done|].
  apply (written_acts R (λ k o o', o = None ∧ enrolls k o o') c1).
  - eapply keeps_mfor; [apply _| |exact Hr]. intros. apply acts_insert_code.
  - apply (insert_row_ok R) in Hi as (c3 & _ & _ & _ & ->). rewrite writes_one. apply lookup_insert_eq.
  - by intros o [? _].
Qed.
Lemma user_enrolls k v hash change revision n :
  user_at subject revision change k v = true → ∃ u, v = RUser u ∧ us_subject u = subject ∧
    enrolls k (Some v) (Some (set_user (λ u, user_with (hash u) (us_password_change_required u) n now u) v)).
Proof.
  destruct v; try done. cbn [user_at]. intros Hp. bool_to_prop. eexists. split; [done|]. split; [by apply str_eqb_eq|].
  simpl. constructor. by apply str_eqb_eq.
Qed.
Lemma acts_enroll : keeps enrolling (enroll s cur cipher step now context stop draws).
Proof.
  unfold enroll. do 3 (apply keeps_bind; [apply _|auto with broker|]; intros ?).
  apply keeps_bind; [apply _|apply (acts_update_where R); intros k v Hp; by destruct (user_enrolls k v us_password_hash _ _ a Hp) as (? & _ & _ & ?)|].
  intros n. case_match; [auto with broker|]. apply keeps_bind; [apply _|apply (acts_insert_row R); by constructor|]. intros _.
  apply keeps_bind; [apply _| |].
  { apply keeps_mfor; [apply _|]. intros u code. eapply keeps_mono; [|apply acts_insert_code]. intros c c'. apply (acts_weaken R). by intros k o o' [_ ?]. }
  intros _. apply keeps_bind; [apply _| |auto with broker]. eapply keeps_mono; [|apply acts_invalidate, _]. intros c c'. apply (acts_weaken R).
  intros k o o' Ht. by constructor.
Qed.
Definition enrolled_user : CurrentUser :=
  {| cu_username := cu_username cur; cu_subject := subject; cu_revision := cu_revision cur + 1; cu_change := cu_change cur |}.
Lemma enroll_ok u c cur' codes c' :
  enroll s cur cipher step now context stop draws c = (Ok (cur', codes), c') → keeps_person R subject c →
  held c (users (cu_username cur)) (Some (RUser u)) → cn_writes c = ∅ → current_user (cu_username cur) u = Some cur → cu_change cur = false →
  cur' = enrolled_user ∧ LocalRecoveryCodes_generate (dw_codes draws) = Ok codes ∧
  cn_writes c' !! users (cu_username cur) =
    Some (Some (RUser (user_with (us_password_hash u) (us_password_change_required u) (cu_revision cur + 1) now u))) ∧
  (∃ cipher', reencrypt (la_mfa s) subject cipher (dw_nonce draws) = Ok cipher' ∧
    cn_writes c' !! factors subject = Some (Some (RFactor {| mf_secret_ciphertext := cipher'; mf_last_totp_step := step; mf_confirmed_at := now |}))) ∧
  (∀ code, code ∈ codes → ∃ n d, normalize_local_recovery_code code = Some n ∧ recovery_digest s subject n = Ok d ∧
    cn_writes c' !! recoveries subject d = Some (Some (RRecovery {| rv_subject := subject; rv_code_hash := d; rv_created_at := now |}))) ∧
  stripped subject (negb (is_device context)) c'.
Proof.
  intros Hr Hp Hu Hw Hcur Hch. pose proof (current_user_ok _ _ _ Hcur) as (_ & Hcs & Hcr & _ & _ & Hcc & _ & Hbit). rewrite Hch in Hcc.
  unfold enroll in Hr. apply bind_ok in Hr as (rev & c1 & Hl & Hr). apply lift_ok in Hl as [Hrev%ok_or_ok ->].
  apply bind_ok in Hr as (cipher' & c1 & Hl & Hr). apply lift_ok in Hl as [Hci%rmap_err_ok ->].
  apply bind_ok in Hr as (codes' & c1 & Hl & Hr). apply lift_ok in Hl as [Hco%rmap_err_ok ->].
  apply bind_ok in Hr as (n & c1 & Hup & Hr). destruct (negb (n =? 1)); [done|]. apply bind_ok in Hr as ([] & c2 & Hin & Hr).
  apply bind_ok in Hr as ([] & c3 & Hcodes & Hr). apply bind_ok in Hr as ([] & c4 & Hinv & Hr). apply ret_ok in Hr as [[= -> ->] ->].
  assert (rev = cu_revision cur + 1)%Z as -> by (unfold checked_add_i64 in Hrev; case_match; [by injection Hrev as <-|done]).
  assert (enrolling c c1) as A1.
  { eapply (acts_update_where R (E:=LocalAuthError)); [|exact Hup]. intros k v Hkv.
    by destruct (user_enrolls k v us_password_hash _ _ (cu_revision cur + 1)%Z Hkv) as (? & _ & _ & ?). }
  assert (acts R (λ k o o', o = None ∧ enrolls k o o') c1 c2) as A2.
  { eapply (acts_insert_row R (E:=LocalAuthError)); [|exact Hin]. split; [done|]. by constructor. }
  assert (acts R (λ k o o', o = None ∧ enrolls k o o') c2 c3) as A3.
  { eapply keeps_mfor; [apply _| |exact Hcodes]. intros. apply acts_insert_code. }
  assert (acts R (taken_away subject) c3 c4) as A4 by (by eapply acts_invalidate).
  assert (keeps_person R subject c3) as P3.
  { eapply keeps_person_inside; [exact Hp|]. etrans; [by eapply (acts_inside R)|]. etrans; by eapply (acts_inside R). }
  assert (cn_writes c1 !! users (cu_username cur) = Some (Some (RUser (user_with (us_password_hash u) (us_password_change_required u) (cu_revision cur + 1) now u)))) as Hw1.
  { apply (update_where_ok R) in Hup as (c0 & I0 & _ & ->). simpl. rewrite lookup_union, lookup_fmap.
    assert (rows (user_at subject (cu_revision cur) 0) (view c0) !! users (cu_username cur) = Some (RUser u)) as ->; [|simpl; by rewrite union_Some_l].
    apply map_lookup_filter_Some. rewrite view_clean by (by eapply clean_rests).
    destruct (held_inside R _ _ _ _ (re_inside _ _ _ I0) Hu) as [_ ->]. split; [done|]. cbn.
    assert (us_password_change_required u = 0%Z) as -> by (bool_to_prop; lia). rewrite Hcs, Hcr, !str_eqb_refl, !Z.eqb_refl. done. }
  assert (cn_writes c2 !! factors subject = Some (Some (RFactor {| mf_secret_ciphertext := cipher'; mf_last_totp_step := step; mf_confirmed_at := now |}))) as Hw2.
  { apply (insert_row_ok R) in Hin as (c0 & _ & _ & _ & ->). rewrite writes_one. apply lookup_insert_eq. }
  split; [done|]. split; [done|]. split; [|split; [|split]].
  - eapply (written_acts R); [exact A4| |intros o Ho; by inversion Ho]. eapply (written_acts R); [exact A3| |by intros o [? _]].
    eapply (written_acts R); [exact A2|exact Hw1|by intros o [? _]].
  - exists cipher'. split; [done|]. eapply (written_acts R); [exact A4| |intros o Ho; by inversion Ho].
    eapply (written_acts R); [exact A3|exact Hw2|by intros o [? _]].
  - intros code Hcode. destruct (insert_codes_ok _ _ _ Hcodes code Hcode) as (m & d & Hm & Hd & Hwr). exists m, d. split; [done|]. split; [done|].
    eapply (written_acts R); [exact A4|exact Hwr|intros o Ho; by inversion Ho].
  - by eapply invalidate_ok.
Qed.
End enrolled.

(** ** The second factor *)

(** From one step that reads to a later one. *)
Ltac chain :=
  repeat match goal with J : rests _ ?a ?a |- _ => clear J end;
  repeat first [reflexivity|match goal with J : rests _ ?a _ |- inside _ ?a _ => etrans; [exact (re_inside _ _ _ J)|]; clear J end].
Section mfa.
Context `{CredentialLib, MfaLib, PasswordLib, InvalidationLib, !TextOrder} (s : PostgresLocalAuthService).
(** The person stands at a stage of a login: the challenge is the one stored for
    this context, and the person is as when it was stored. *)
Record at_stage (raw : string) (context : LocalAuthBinding) (cur : CurrentUser) (ch : ChallengeRecord) (u : UserRow) (db : Db) : Prop := {
  ag_hash : challenge_hash s raw = Ok (cc_hash ch);
  ag_row : ∃ r, db !! challenges (cc_hash ch) = Some (RChallenge r) ∧ challenge_record (cc_hash ch) r = Ok ch;
  ag_presents : presents s ch raw context;
  ag_user : db !! users (cu_username cur) = Some (RUser u);
  ag_current : current_user (cu_username cur) u = Some cur;
  ag_subject : cu_subject cur = cc_subject ch;
  ag_revision : cu_revision cur = cc_revision ch;
  ag_change : cu_change cur = bool_decide (cc_stage ch = StPasswordChange);
}.
(** A time the operation read. *)
Definition reads_clock (c : Tx) (now : Z) : Prop := ∃ n, TimestampMicros_try_from (utc_at (cn_clock c) n) = Some now.
Definition code_verdict (c : Tx) (subject secret code : string) (last : Z) (verdict : option Z) : Prop :=
  ∃ now, reads_clock c now ∧ mfa_verify (la_mfa s) subject secret code (Z.quot now 1000000) last = Ok verdict.
Context (R : gset Key → Db → Db → Prop) `{!Rely R, !PersonRely R}.
Lemma tx_micros_reads (c c1 c2 : Tx) now : tx_micros c1 = (Ok now, c2) → inside R c c1 → reads_clock c now.
Proof.
  unfold tx_micros, txn_clock, txn_with, now_micros, bind, system_now, lift_result. intros Hr Hi. exists (tick (cn_clock c1)).
  destruct (in_clock _ _ _ Hi) as [_ Hutc _]. rewrite <- Hutc. destruct (TimestampMicros_try_from _); [by injection Hr as <- _|done].
Qed.
(** What a transaction holds that stands at a stage. *)
Record holds_stage (raw : string) (context : LocalAuthBinding) (cur : CurrentUser) (ch : ChallengeRecord) (u : UserRow) (c : Tx) : Prop := {
  hg_person : keeps_person R (cu_subject cur) c;
  hg_hash : challenge_hash s raw = Ok (cc_hash ch);
  hg_row : ∃ r, held c (challenges (cc_hash ch)) (Some (RChallenge r)) ∧ challenge_record (cc_hash ch) r = Ok ch;
  hg_presents : presents s ch raw context;
  hg_user : held c (users (cu_username cur)) (Some (RUser u));
  hg_current : current_user (cu_username cur) u = Some cur;
  hg_subject : cu_subject cur = cc_subject ch;
  hg_revision : cu_revision cur = cc_revision ch;
  hg_change : cu_change cur = bool_decide (cc_stage ch = StPasswordChange);
}.
Lemma holds_stage_inside raw context cur ch u c c' : inside R c c' → holds_stage raw context cur ch u c → holds_stage raw context cur ch u c'.
Proof.
  intros Hi [Hp Hh (r & Hr & Hrec) Hpr Hu Hc Hs Hrev Hch]. split; try done; [by eapply keeps_person_inside| |by eapply held_inside].
  exists r. split; [by eapply held_inside|done].
Qed.
Lemma holds_at_stage raw context cur ch u c : holds_stage raw context cur ch u c → at_stage raw context cur ch u (cn_db c).
Proof. intros [Hp Hh (r & [_ Hr] & Hrec) Hpr [_ Hu] Hc Hs Hrev Hch]. split; try done. eauto. Qed.
Lemma rests_factor_secret ch subject row : keeps (rests R) (factor_secret ch subject row).
Proof. unfold factor_secret, has_recovery. destruct (cc_stage ch), row as [[]|]; auto 10 with broker. Qed.
#[local] Hint Extern 1 (keeps (rests _) (factor_secret _ _ _)) => apply rests_factor_secret : broker.
(** The secret is that of the challenge while there is no factor, and that of the
    factor afterwards. *)
Definition secret_of (ch : ChallengeRecord) (subject : string) (row : option Row) (secret : string) (last : Z) : Prop :=
  match cc_stage ch with
  | StEnrollment => row = None ∧ secret = cc_cipher ch ∧ last = (-1)%Z
  | StMfa => ∃ f, row = Some (RFactor f) ∧ secret = mf_secret_ciphertext f ∧ last = mf_last_totp_step f ∧ (0 ≤ last)%Z
  | StPasswordChange => False
  end.
Lemma factor_secret_ok ch subject row c secret last c' :
  factor_secret ch subject row c = (Ok (secret, last), c') → secret_of ch subject row secret last.
Proof.
  unfold factor_secret, secret_of. destruct (cc_stage ch), row as [[]|]; try done; intros Hr.
  - destruct (_ && _)%bool eqn:Eb; [|done]. apply bind_ok in Hr as (v & c1 & Hl & Hr). apply lift_ok in Hl as [[-> _]%ok_or_ok%capped_ok ->].
    destruct (negb _); [done|]. apply ret_ok in Hr as [[= -> ->] _]. bool_to_prop. eauto.
  - apply bind_ok in Hr as (o & c1 & _ & Hr). destruct o; [done|]. apply ret_ok in Hr as [[= -> ->] _]. done.
Qed.
(** How far the operation gets before it changes anything. *)
Lemma mfa_read p view raw context code original draws (c : Tx) x c' :
  complete_mfa s p view raw context code original draws c = (x, c') → idle c → fair R c →
  (∃ e, x = Err e ∧ inside R c c') ∨
  ∃ stop bd cur ch u row secret last now accepted c1,
    rests R c c1 ∧ context_binding s context = Ok bd ∧ holds_stage raw context cur ch u c1 ∧
    (∀ c2, inside R c1 c2 → cn_db c2 !! factors (cu_subject cur) = row) ∧ secret_of ch (cu_subject cur) row secret last ∧
    reads_clock c now ∧ mfa_verify (la_mfa s) (cu_subject cur) secret code (Z.quot now 1000000) last = Ok accepted ∧
    (let? (verified, cur', codes) := accept s ch cur secret code accepted last now context stop draws in
     if verified then mfa_accepted view ch cur' codes context bd stop else mfa_rejected s p view ch cur' secret raw stop) c1 = (x, c').
Proof.
  intros Hr [Hw _] Hfair. match goal with |- ?G => assert (∀ e, x = Err e → inside R c c' → G) as Hno by (intros; left; eauto) end.
  unfold complete_mfa in Hr. assert (rests R c c) as I by reflexivity. read_step Hr I stop c1 K1. guard_step Hr I G1. guard_step Hr I G2.
  read_step Hr I hash c2 K2. apply lift_ok in K2 as [Hhash ->]. read_step Hr I bd c2 K2. apply lift_ok in K2 as [Hbind ->].
  read_step Hr I w3 c3 K3. read_step Hr I initial c4 K4. read_step Hr I w5 c5 K5. guard_step Hr I G3.
  pose proof (clean_rests _ _ _ I Hw) as Hw5. read_step Hr I user c6 K6. read_step Hr I cur c7 K7. apply lift_ok in K7 as [K7%ok_or_ok ->]. subst user.
  apply (user_for_update_ok R) in K6 as (u & Hu & Hlock & Hsub & Hcur); [|done].
  pose proof (clean_rests _ _ _ I Hw) as Hw6. read_step Hr I row c8 K8.
  assert (inside R c6 c8) as Hi68 by (eapply (rests_inside R); [apply (rests_select_locked R (E:=LocalAuthError))|exact K8]).
  assert (keeps_person R (cu_subject cur) c8) as Hperson.
  { split; [eapply fair_suffix; [exact (in_turns _ _ _ (re_inside _ _ _ I))|done]|]. exists (cu_username cur), u.
    split; [by apply (in_locks _ _ _ Hi68)|]. split; [done|]. by apply current_user_ok in Hcur as (_ & <- & _). }
  assert (∀ c2, inside R c8 c2 → cn_db c2 !! factors (cu_subject cur) = row) as Hrow by (intros; by eapply factor_stays).
  pose proof (clean_rests _ _ _ I Hw) as Hw8. read_step Hr I ch c9 K9. apply (read_challenge_ok R) in K9 as (r & Hch & Hrec); [|done].
  guard_step Hr I G4. read_step Hr I w10 c10 K10. destruct w10. apply validate_context_ok in K10 as Hpres.
  read_step Hr I sl c11 K11. destruct sl as [secret last]. apply factor_secret_ok in K11 as Hsecret.
  read_step Hr I w12 c12 K12. read_step Hr I now c13 K13. guard_step Hr I G5. read_step Hr I accepted c14 K14.
  apply lift_ok in K14 as [Hver%rmap_err_ok ->]. read_step Hr I w15 c15 K15. read_step Hr I w16 c16 K16.
  pose proof (challenge_record_ok _ _ _ Hrec) as (Hcc & _). subst hash. right.
  bool_to_prop. assert (initial = ch) as -> by (by apply dec_stable). assert (inside R c8 c16) as Hi8 by chain.
  exists stop, bd, cur, ch, u, row, secret, last, now, accepted, c16. split; [done|]. split; [done|]. split.
  { split; try done; [by eapply keeps_person_inside|by exists r|by apply str_eqb_eq|]. transitivity false; [done|]. symmetry. by apply bool_decide_eq_false. }
  split; [intros c2 Hc2; apply Hrow; by etrans|]. split; [done|]. split; [|by split].
  eapply tx_micros_reads; [exact K13|]. clear I. chain.
Qed.
(** The end of an attempt. *)
Lemma accepted_tail view ch cur codes context bd stop c x c' :
  (do? tx_time stop in do? tx_expiry (cc_expires ch) in do? sql_commit in do? tx_time stop in do? tx_expiry (cc_expires ch) in
   let? now := tx_micros in
   let? observed_at := lift_result (ok_or (TimestampMicros_new now) (LA_Control CE_Clock)) in
   do? lift_result (lm_success view (cu_subject cur)) in
   ret (LsComplete (completed cur observed_at context bd true codes))) c = (x, c') →
  (∃ e, x = Err e ∧ inside R c c') ∨
  ∃ c1, rests R c c1 ∧ cn_db c' = Sql.view c1 ∧
    ((∃ now, x = Ok (LsComplete (completed cur now context bd true codes))) ∨ ∃ e, x = Err e ∧ late_login e).
Proof.
  intros Hr. match goal with |- ?G => assert (∀ e, x = Err e → inside R c c' → G) as Hno by (intros; left; eauto) end.
  assert (rests R c c) as I by reflexivity. read_step Hr I w1 c1 K1. read_step Hr I w2 c2 K2.
  apply (commit_tail R) in Hr as [[[e He] Hi]|(c3 & I3 & Hdb & Hx)].
  - eapply Hno; [exact He|]. etrans; [exact (re_inside _ _ _ I)|done].
  - right. exists c3. split; [by etrans|]. split; [done|]. destruct Hx as [(c4 & c5 & Hx)| ->].
    + destruct x as [a|e].
      * left. apply bind_ok in Hx as (? & ? & _ & Hx). apply bind_ok in Hx as (? & ? & _ & Hx). apply bind_ok in Hx as (? & ? & _ & Hx).
        apply bind_ok in Hx as (at_ & ? & _ & Hx). apply bind_ok in Hx as (? & ? & _ & Hx). apply ret_ok in Hx as [-> _]. eauto.
      * right. exists e. split; [done|]. assert (only late_login (do? tx_time stop in do? tx_expiry (cc_expires ch) in
          let? now := tx_micros in
          let? observed_at := lift_result (ok_or (TimestampMicros_new now) (LA_Control CE_Clock)) in
          do? lift_result (lm_success view (cu_subject cur)) in
          ret (LsComplete (completed cur observed_at context bd true codes)))) as Ho; [|by eapply Ho].
        apply only_bind; [auto with broker|]. intros _. apply only_bind; [auto with broker|]. intros _. apply only_bind; [auto with broker|].
        intros now. apply only_bind; [apply only_ok_or; unfold late_login; set_solver|]. intros at_.
        apply only_bind; [intros ? ? ? [=]|]. intros _. apply only_ret.
    + right. eexists. split; [done|]. unfold late_login. set_solver.
  - unfold tx_time, tx_expiry, tx_micros. auto 20 with broker.
Qed.
(** The accepted attempt of a later login. *)
Definition ends_login (cur : CurrentUser) (context : LocalAuthBinding) (bd : CredentialDigest) (codes : option LocalRecoveryCodes)
    (x : result LocalAuthError LocalAuthStep) : Prop :=
  (∃ now, x = Ok (LsComplete (completed cur now context bd true codes))) ∨ ∃ e, x = Err e ∧ late_login e.
Lemma accepted_mfa view ch cur codes context bd stop c x c' :
  mfa_accepted view ch cur codes context bd stop c = (x, c') → cc_stage ch = StMfa →
  (∃ e, x = Err e ∧ inside R c c') ∨
  ∃ c1, inside R c c1 ∧ cn_writes c1 = <[challenges (cc_hash ch) := None]> (cn_writes c) ∧ cn_db c' = Sql.view c1 ∧
    ends_login cur context bd codes x.
Proof.
  unfold mfa_accepted. intros Hr Hst. rewrite Hst in Hr.
  apply (bind_inside R) in Hr as [([] & c1 & Hd & Hi & Hr)|(e & He & Hi)]; [|by left; eauto|].
  - apply bind_ok in Hd as (n & c0 & Hd & Hn). destruct (negb (n =? 1)) eqn:En; [done|]. apply ret_ok in Hn as [_ ->].
    apply negb_false_iff, Nat.eqb_eq in En. apply (delete_at R) in Hd as (c2 & I2 & [(_ & v & _ & _ & ->)|[? _]]); [|lia].
    apply accepted_tail in Hr as [(e & He & Hi')|(c3 & I3 & Hdb & Hx)]; [left; exists e; split; [done|by etrans]|].
    right. exists c3. split; [etrans; [exact Hi|exact (re_inside _ _ _ I3)]|]. split; [|done].
    by rewrite (re_writes _ _ _ I3), writes_one, (re_writes _ _ _ I2).
  - intros ? ? ? Hb. apply (bind_inside R) in Hb as [(n & c2 & _ & Hi & Hb)|(e & _ & Hi)]; [|done|apply (inside_delete_where R)].
    etrans; [exact Hi|]. destruct (negb _); by injection Hb as _ <-.
Qed.
Lemma accepted_enrolment view ch cur codes context bd stop c x c' :
  mfa_accepted view ch cur codes context bd stop c = (x, c') → cc_stage ch = StEnrollment →
  (∃ e, x = Err e ∧ inside R c c') ∨ ∃ c1, rests R c c1 ∧ cn_db c' = Sql.view c1 ∧ ends_login cur context bd codes x.
Proof. unfold mfa_accepted. intros Hr Hst. rewrite Hst in Hr. by apply accepted_tail in Hr. Qed.
Lemma failure_late p subject t entries e entries' : failure_at p subject t entries = (Err e, entries') → late_login e.
Proof.
  assert (late_login LA_MfaUnavailable) as Hun by (unfold late_login; set_solver). unfold failure_at.
  intros Hr. apply bind_cases in Hr as [(m & m1 & _ & Hr)|(? & ? & _)]; [|done].
  apply bind_cases in Hr as [(en & m2 & _ & Hr)|(e' & Hl & [= <-])].
  2: { unfold lift_result in Hl. destruct (m !! subject); [done|]. by injection Hl as <- _. }
  destruct (if (me_failures en =? 0)%Z || _ then _ else _) as [start failures].
  apply bind_cases in Hr as [(? & m3 & _ & Hr)|(? & ? & _)]; [|done]. apply bind_cases in Hr as [(? & m4 & _ & Hr)|(e' & Hl & [= <-])]; [done|].
  destruct (mp_max_failures p <=? _)%Z; [|done]. destruct (checked_add_time t _); [done|]. by injection Hl as <- _.
Qed.
Lemma rejected_tail p view ch cur secret raw stop c x c' :
  mfa_rejected s p view ch cur secret raw stop c = (x, c') →
  (∃ e, x = Err e ∧ inside R c c') ∨
  ∃ c1 enrollment, rests R c c1 ∧ cn_db c' = Sql.view c1 ∧
    (x = Ok (LsPending {| pa_stage := cc_stage ch; pa_challenge := raw; pa_enrollment := enrollment |}) ∨ ∃ e, x = Err e ∧ late_login e).
Proof.
  intros Hr. match goal with |- ?G => assert (∀ e, x = Err e → inside R c c' → G) as Hno by (intros; left; eauto) end.
  unfold mfa_rejected in Hr. set (en := bool_decide (cc_stage ch = StEnrollment)) in Hr.
  assert (rests R c c) as I by reflexivity.
  assert (keeps (rests R) (if en then lift_result (lm_failure p view (cu_subject cur)) else ret tt)) as Hf by (destruct en; auto with broker).
  read_step Hr I w0 c0 K0. read_step Hr I enr c1 K1. read_step Hr I w2 c2 K2. read_step Hr I w3 c3 K3.
  apply (login_commit R _ _ _ _ (LsPending {| pa_stage := cc_stage ch; pa_challenge := raw; pa_enrollment := enr |})) in Hr
    as [[[e He] Hi]|(c4 & I4 & Hdb & Hx)].
  - eapply Hno; [exact He|]. etrans; [exact (re_inside _ _ _ I)|done].
  - right. exists c4, enr. split; [by etrans|]. done.
  - unfold tx_time, tx_expiry, tx_micros. destruct (bool_decide (cc_stage ch = StMfa)); auto 20 with broker.
  - apply only_bind; [auto with broker|]. intros _. apply only_bind; [auto with broker|]. intros _.
    apply only_bind; [|intros _; apply only_ret]. destruct (bool_decide (cc_stage ch = StMfa)); [|apply only_ret]. intros ? e ? [= He _]. unfold lm_failure in He.
    destruct (failure_at _ _ _ _) as [y en'] eqn:Ef. simpl in He. subst y. by eapply failure_late.
  - intros ? b ? Hb. do 3 apply bind_ok in Hb as (? & ? & _ & Hb). by apply ret_ok in Hb as [-> _].
Qed.
(** Nothing is left of what the person had been given, but one challenge. *)
Record invalidated (subject : string) (devices_too : bool) (but : string → Prop) (db : Db) : Prop := {
  iv_tokens h t : db !! tokens h = Some (RToken t) → tk_subject t = subject → (1 ≤ tk_local_user_revision t)%Z → tk_revoked_at t ≠ None;
  iv_requests h q : db !! requests h = Some (RRequest q) → rq_identity_subject q = subject → federated q = true;
  iv_challenges h a : db !! challenges h = Some (RChallenge a) → ch_subject a = subject → but h;
  iv_devices h d : devices_too = true → db !! devices h = Some (RDevice d) → dc_subject d ≠ subject;
}.
Lemma invalidated_weaken subject devices_too (but but' : string → Prop) db :
  (∀ h, but h → but' h) → invalidated subject devices_too but db → invalidated subject devices_too but' db.
Proof. intros Hb [Ht Hq Hc Hd]. split; eauto. Qed.
Lemma stripped_invalidated subject devices_too (but : string → bool) c :
  settled (person_token subject) c → settled (unkept_request subject) c →
  settled (λ k v, person_challenge subject k v && negb (but k.2)) c → (devices_too = true → settled (person_device subject) c) →
  invalidated subject devices_too (λ h, but h = true) (Sql.view c).
Proof.
  intros Ht Hq Hc Hd. split.
  - intros h t Hv <- Hrev Hn. specialize (Ht _ _ Hv). cbn in Ht. rewrite str_eqb_refl, (proj2 (Z.leb_le _ _) Hrev), Hn in Ht.
    by rewrite bool_decide_true in Ht.
  - intros h q Hv <-. specialize (Hq _ _ Hv). cbn in Hq. rewrite str_eqb_refl in Hq. by apply negb_false_iff in Hq.
  - intros h a Hv <-. specialize (Hc _ _ Hv). cbn in Hc. rewrite str_eqb_refl in Hc. by apply negb_false_iff in Hc.
  - intros h d Hdev Hv <-. specialize (Hd Hdev _ _ Hv). cbn in Hd. by rewrite str_eqb_refl in Hd.
Qed.
(** A factor was enrolled. *)
Record enrolled (context : LocalAuthBinding) (draws : Draws) (cur : CurrentUser) (ch : ChallengeRecord) (u : UserRow) (step : Z)
    (codes : LocalRecoveryCodes) (db db' : Db) : Prop := {
  el_user : ∃ now, db' !! users (cu_username cur) =
    Some (RUser (user_with (us_password_hash u) (us_password_change_required u) (cu_revision cur + 1) now u));
  el_factor : db !! factors (cu_subject cur) = None ∧ ∃ secret now, reencrypt (la_mfa s) (cu_subject cur) (cc_cipher ch) (dw_nonce draws) = Ok secret ∧
    db' !! factors (cu_subject cur) = Some (RFactor {| mf_secret_ciphertext := secret; mf_last_totp_step := step; mf_confirmed_at := now |});
  el_codes : LocalRecoveryCodes_generate (dw_codes draws) = Ok codes ∧ ∀ code, code ∈ codes → ∃ n d now,
    normalize_local_recovery_code code = Some n ∧ recovery_digest s (cu_subject cur) n = Ok d ∧
    db' !! recoveries (cu_subject cur) d = Some (RRecovery {| rv_subject := cu_subject cur; rv_code_hash := d; rv_created_at := now |});
  el_invalidated : invalidated (cu_subject cur) (negb (is_device context)) (λ _, False) db';
  el_frame : ∀ k, person_change (cu_subject cur) k (db !! k) (db' !! k);
}.
(** The outcome of an attempt with the second factor. *)
Inductive attempts (c : Tx) (raw : string) (context : LocalAuthBinding) (code : string) (draws : Draws) (db : Db)
    (r : result LocalAuthError LocalAuthStep) (db' : Db) : Prop :=
| AttemptTotp bd cur ch u f step at_ :
    context_binding s context = Ok bd → at_stage raw context cur ch u db → cc_stage ch = StMfa →
    db !! factors (cu_subject cur) = Some (RFactor f) → (0 ≤ mf_last_totp_step f)%Z →
    code_verdict c (cu_subject cur) (mf_secret_ciphertext f) code (mf_last_totp_step f) (Some step) → (mf_last_totp_step f < step)%Z →
    db' = delete (challenges (cc_hash ch)) (<[factors (cu_subject cur) := RFactor (factor_step step f)]> db) →
    r = Ok (LsComplete (completed cur at_ context bd true None)) → attempts c raw context code draws db r db'
| AttemptRecovery bd cur ch u f n d v at_ :
    context_binding s context = Ok bd → at_stage raw context cur ch u db → cc_stage ch = StMfa →
    db !! factors (cu_subject cur) = Some (RFactor f) →
    code_verdict c (cu_subject cur) (mf_secret_ciphertext f) code (mf_last_totp_step f) None →
    normalize_local_recovery_code code = Some n → recovery_digest s (cu_subject cur) n = Ok d →
    db !! recoveries (cu_subject cur) d = Some (RRecovery v) →
    db' = delete (challenges (cc_hash ch)) (delete (recoveries (cu_subject cur) d) db) →
    r = Ok (LsComplete (completed cur at_ context bd true None)) → attempts c raw context code draws db r db'
| AttemptEnrolled bd cur ch u step codes at_ :
    context_binding s context = Ok bd → at_stage raw context cur ch u db → cc_stage ch = StEnrollment →
    code_verdict c (cu_subject cur) (cc_cipher ch) code (-1) (Some step) → enrolled context draws cur ch u step codes db db' →
    r = Ok (LsComplete (completed (enrolled_user cur) at_ context bd true (Some codes))) → attempts c raw context code draws db r db'
| AttemptRejected cur ch u secret last enrollment :
    at_stage raw context cur ch u db → secret_of ch (cu_subject cur) (db !! factors (cu_subject cur)) secret last →
    code_verdict c (cu_subject cur) secret code last None →
    (cc_stage ch = StMfa → ∀ n d v, normalize_local_recovery_code code = Some n → recovery_digest s (cu_subject cur) n = Ok d →
       db !! recoveries (cu_subject cur) d ≠ Some (RRecovery v)) →
    db' = db → r = Ok (LsPending {| pa_stage := cc_stage ch; pa_challenge := raw; pa_enrollment := enrollment |}) →
    attempts c raw context code draws db r db'.
(** ** What an attempt comes to *)
Section outcomes.
Context (p : LocalMfaAttemptPolicy) (view : LimiterView) (raw : string) (context : LocalAuthBinding) (code : string) (draws : Draws).
Context (cur : CurrentUser) (ch : ChallengeRecord) (u : UserRow) (bd : CredentialDigest) (stop now : Z) (c0 : Tx).
Context (Hbd : context_binding s context = Ok bd) (Hnow : reads_clock c0 now).
(** An attempt ends: without an effect, or with one the outcome describes. *)
Definition concludes (c : Tx) (x : result LocalAuthError LocalAuthStep) (c' : Tx) : Prop :=
  (∃ e, x = Err e ∧ inside R c c') ∨
  ∃ c1 r, inside R c c1 ∧ cn_db c' = Sql.view c1 ∧ attempts c0 raw context code draws (cn_db c1) r (Sql.view c1) ∧
    (x = r ∨ ∃ e, x = Err e ∧ late_login e).
Lemma ends_result cur' codes x : ends_login cur' context bd codes x →
  ∃ now, x = Ok (LsComplete (completed cur' now context bd true codes)) ∨ ∃ e, x = Err e ∧ late_login e.
Proof. intros [[at_ ->]|?]; [by exists at_; left|by exists 0%Z; right]. Qed.
Lemma inside_accept secret accepted last : keeps (inside R) (accept s ch cur secret code accepted last now context stop draws).
Proof.
  assert (∀ (A : Type) (m : M Tx LocalAuthError A), keeps (rests R) m → keeps (inside R) m) as Hq by (intros ? ?; apply (rests_inside R)).
  assert (∀ last step, keeps (inside R) (let? changed := update_where (factor_at (cu_subject cur) last step) (set_factor (factor_step step)) in
    if negb (changed =? 1) then fail (E:=LocalAuthError) LA_InvalidChallenge else ret (true, cur, None (A:=LocalRecoveryCodes)))) as Hu.
  { intros ? ?. apply keeps_bind; [apply _|apply (inside_update_where R)|]. intros n. apply Hq. destruct (negb _); auto with broker. }
  assert (keeps (inside R) (match normalize_local_recovery_code code with
    | Some normalized =>
        let? digest := lift_result (recovery_digest s (cu_subject cur) normalized) in
        let? deleted := delete_where (at_key (recoveries (cu_subject cur) digest) (λ r, match r with RRecovery _ => true | _ => false end)) in
        ret ((deleted =? 1)%nat, cur, None (A:=LocalRecoveryCodes))
    | None => ret (false, cur, None)
    end)) as Hd.
  { case_match; [|apply Hq; auto with broker]. apply keeps_bind; [apply _|apply Hq; auto with broker|]. intros d.
    apply keeps_bind; [apply _|apply (inside_delete_where R)|]. intros n. apply Hq. auto with broker. }
  unfold accept. destruct (cc_stage ch), accepted as [step|]; try done; [|apply Hq; auto with broker].
  apply keeps_bind; [apply _| |intros [? ?]; apply Hq; auto with broker].
  intros ? ? ? He. by eapply (acts_inside R), acts_enroll.
Qed.
Context (f : FactorRow) (c : Tx).
Context (Hhold : holds_stage raw context cur ch u c) (Hclean : cn_writes c = ∅).
Lemma stage_later c1 : inside R c c1 → at_stage raw context cur ch u (cn_db c1).
Proof. intros Hi. apply holds_at_stage. by eapply holds_stage_inside. Qed.
Lemma totp_concludes step x c' :
  (let? (verified, cur', codes) := accept s ch cur (mf_secret_ciphertext f) code (Some step) (mf_last_totp_step f) now context stop draws in
   if verified then mfa_accepted view ch cur' codes context bd stop else mfa_rejected s p view ch cur' (mf_secret_ciphertext f) raw stop) c = (x, c') →
  cc_stage ch = StMfa → (∀ c2, inside R c c2 → cn_db c2 !! factors (cu_subject cur) = Some (RFactor f)) → (0 ≤ mf_last_totp_step f)%Z →
  mfa_verify (la_mfa s) (cu_subject cur) (mf_secret_ciphertext f) code (Z.quot now 1000000) (mf_last_totp_step f) = Ok (Some step) →
  concludes c x c'.
Proof.
  intros Hr Hst Hrow Hlast Hver. apply (bind_inside R) in Hr as [([[v cur'] codes] & c1 & Ha & Hi & Hr)|(e & He & Hi)];
    [|by left; eauto|apply inside_accept].
  unfold accept in Ha. rewrite Hst in Ha. apply bind_ok in Ha as (n & c2 & Hu & Ha). destruct (negb (n =? 1)) eqn:En; [done|].
  apply ret_ok in Ha as [[= -> -> ->] ->]. apply negb_false_iff, Nat.eqb_eq in En.
  apply (update_at_one R) in Hu as (c3 & v & I3 & Hv & Hq & ->); [|done].
  pose proof (clean_rests _ _ _ I3 Hclean) as Hw3. rewrite view_clean, Hrow in Hv by (done || exact (re_inside _ _ _ I3)). injection Hv as <-.
  apply andb_true_iff in Hq as [_ Hlt%Z.ltb_lt]. apply accepted_mfa in Hr as [(e & He & Hi')|(c4 & Hi4 & Hw4 & Hdb & Hx)]; [left; exists e; split; [done|by etrans]| |done].
  right. destruct (ends_result _ _ _ Hx) as [at_ Hx']. exists c4. eexists. split; [by etrans|]. split; [done|]. split; [|exact Hx'].
  econstructor 1; try done; [apply stage_later; by etrans|apply Hrow; by etrans|by exists now|].
  change (Sql.view c4) with (apply_writes (cn_writes c4) (cn_db c4)). by rewrite Hw4, apply_delete, writes_one, apply_insert, Hw3, apply_empty.
Qed.
Lemma rejected_concludes secret last c1 x c' :
  mfa_rejected s p view ch cur secret raw stop c1 = (x, c') → inside R c c1 → cn_writes c1 = ∅ →
  (∀ c2, inside R c1 c2 → secret_of ch (cu_subject cur) (cn_db c2 !! factors (cu_subject cur)) secret last) →
  mfa_verify (la_mfa s) (cu_subject cur) secret code (Z.quot now 1000000) last = Ok None →
  (cc_stage ch = StMfa → ∀ n d c2 v, normalize_local_recovery_code code = Some n → recovery_digest s (cu_subject cur) n = Ok d →
     inside R c1 c2 → cn_db c2 !! recoveries (cu_subject cur) d ≠ Some (RRecovery v)) →
  concludes c x c'.
Proof.
  intros Hr Hi Hw Hsec Hver Hcode. apply rejected_tail in Hr as [(e & He & Hi')|(c2 & en & I2 & Hdb & Hx)]; [left; exists e; split; [done|by etrans]|].
  right. exists c2. eexists. pose proof (re_inside _ _ _ I2) as Hi2. split; [by etrans|]. split; [done|]. split; [|exact Hx].
  econstructor 4; [apply stage_later; by etrans|by apply Hsec|by exists now| |by apply view_clean; eapply clean_rests|done].
  intros Hst n d v Hn Hd. by eapply Hcode.
Qed.
Lemma recovery_concludes x c' :
  (let? (verified, cur', codes) := accept s ch cur (mf_secret_ciphertext f) code None (mf_last_totp_step f) now context stop draws in
   if verified then mfa_accepted view ch cur' codes context bd stop else mfa_rejected s p view ch cur' (mf_secret_ciphertext f) raw stop) c = (x, c') →
  cc_stage ch = StMfa → (∀ c2, inside R c c2 → cn_db c2 !! factors (cu_subject cur) = Some (RFactor f)) → (0 ≤ mf_last_totp_step f)%Z →
  mfa_verify (la_mfa s) (cu_subject cur) (mf_secret_ciphertext f) code (Z.quot now 1000000) (mf_last_totp_step f) = Ok None →
  concludes c x c'.
Proof.
  intros Hr Hst Hrow Hlast Hver. assert (∀ c1, inside R c c1 → ∀ c2, inside R c1 c2 →
    secret_of ch (cu_subject cur) (cn_db c2 !! factors (cu_subject cur)) (mf_secret_ciphertext f) (mf_last_totp_step f)) as Hsec.
  { intros ? ? ? ?. unfold secret_of. rewrite Hst. exists f. split; [apply Hrow; by etrans|done]. }
  apply (bind_inside R) in Hr as [([[v cur'] codes] & c1 & Ha & Hi & Hr)|(e & He & Hi)]; [|by left; eauto|apply inside_accept].
  unfold accept in Ha. rewrite Hst in Ha. destruct (normalize_local_recovery_code code) as [n|] eqn:En.
  2: { apply ret_ok in Ha as [[= -> -> ->] ->]. eapply rejected_concludes; eauto. congruence. }
  apply bind_ok in Ha as (d & c2 & Hl & Ha). apply lift_ok in Hl as [Hd ->]. apply bind_ok in Ha as (m & c2 & Hdel & Ha).
  apply ret_ok in Ha as [[= -> -> ->] ->]. apply (delete_at R) in Hdel as (c3 & I3 & Hdel). pose proof (clean_rests _ _ _ I3 Hclean) as Hw3.
  pose proof (re_inside _ _ _ I3) as Hi3. destruct Hdel as [(-> & v & Hv & Hq & ->)|(-> & Hno & ->)].
  - destruct v as [| | | | | | | |v]; try done. apply accepted_mfa in Hr as [(e & He & Hi')|(c4 & Hi4 & Hw4 & Hdb & Hx)]; [left; exists e; split; [done|etrans; [exact Hi|done]]| |done].
    right. destruct (ends_result _ _ _ Hx) as [at_ Hx']. exists c4. eexists. assert (inside R c c4) by (etrans; [exact Hi|done]). split; [done|]. split; [done|]. split; [|exact Hx'].
    econstructor 2; try done; [by apply stage_later|by apply Hrow|by exists now| |].
    + rewrite view_clean in Hv by done. by apply (held_write c3 _ _ None), (held_inside R _ _ _ _ Hi4) in Hv as [_ ->].
    + change (Sql.view c4) with (apply_writes (cn_writes c4) (cn_db c4)). by rewrite Hw4, apply_delete, writes_one, apply_delete, Hw3, apply_empty.
  - eapply rejected_concludes; [exact Hr|done| |by apply Hsec|done|].
    + change (cn_writes (with_writes c3 ∅)) with ((∅ : gmap Key (option Row)) ∪ cn_writes c3). by rewrite Hw3, (left_id_L ∅ (∪)).
    + intros _ n' d' c4 v Hn' Hd' Hi4 Hv4. assert (n' = n) as -> by congruence. assert (d' = d) as -> by congruence. clear Hn' Hd'.
      destruct (keeps_person_undisturbed R (cu_subject cur) (person_recovery (cu_subject cur)) (λ _, true) c3 c4) with (k := recoveries (cu_subject cur) d) (v := RRecovery v)
        as (v' & Hv' & Hq'); [apply recovery_owed| |etrans; [apply (writes_inside R)|exact Hi4]|done| |].
      * eapply keeps_person_inside; [exact (hg_person _ _ _ _ _ _ Hhold)|done].
      * by rewrite recovery_row.
      * rewrite <- (view_clean c3 Hw3) in Hv'. specialize (Hno _ Hv'). by destruct v'.
Qed.
Lemma enrolment_concludes step x c' :
  (let? (verified, cur', codes) := accept s ch cur (cc_cipher ch) code (Some step) (-1) now context stop draws in
   if verified then mfa_accepted view ch cur' codes context bd stop else mfa_rejected s p view ch cur' (cc_cipher ch) raw stop) c = (x, c') →
  cc_stage ch = StEnrollment → (∀ c2, inside R c c2 → cn_db c2 !! factors (cu_subject cur) = None) →
  mfa_verify (la_mfa s) (cu_subject cur) (cc_cipher ch) code (Z.quot now 1000000) (-1) = Ok (Some step) →
  concludes c x c'.
Proof.
  intros Hr Hst Hrow Hver. apply (bind_inside R) in Hr as [([[v cur'] codes] & c1 & Ha & Hi & Hr)|(e & He & Hi)]; [|by left; eauto|apply inside_accept].
  unfold accept in Ha. rewrite Hst in Ha. apply bind_ok in Ha as ([cur2 codes2] & c2 & Hen & Ha). apply ret_ok in Ha as [[= -> -> ->] ->].
  pose proof (hg_person _ _ _ _ _ _ Hhold) as Hp. assert (acts R (enrolls cur now) c c2) as Hacts by (by eapply acts_enroll).
  apply (enroll_ok s cur _ step now context stop draws R u) in Hen as (-> & Hgen & Hwu & (cipher' & Hci & Hwf) & Hwc & Hstrip);
    [|done|exact (hg_user _ _ _ _ _ _ Hhold)|done|exact (hg_current _ _ _ _ _ _ Hhold)|by rewrite (hg_change _ _ _ _ _ _ Hhold), Hst].
  apply accepted_enrolment in Hr as [(e & He & Hi')|(c3 & I3 & Hdb & Hx)]; [left; exists e; split; [done|etrans; [exact Hi|done]]| |done].
  assert (inside R c c3) as Hi3 by (etrans; [exact Hi|exact (re_inside _ _ _ I3)]). destruct (ends_result _ _ _ Hx) as [at_ Hx'].
  assert (∀ k o, cn_writes c2 !! k = Some o → Sql.view c3 !! k = o) as Hwrit by (intros k o Hk; apply written_view; by rewrite (re_writes _ _ _ I3)).
  assert (∀ q, q ∈ given (cu_subject cur) → settled q c2 → settled q c3) as Hset.
  { intros q Hq Hs. eapply (settled_kind R (λ _ _ _, False)); [by apply (rests_acts R)|by apply given_owed|done| |done]. by eapply keeps_person_inside. }
  right. exists c3. eexists. split; [done|]. split; [done|]. split; [|exact Hx'].
  econstructor 3; [exact Hbd|by apply stage_later|done|by exists now| |done]. split.
  - exists now. by apply Hwrit.
  - split; [by apply Hrow|]. exists cipher', now. split; [done|by apply Hwrit].
  - split; [done|]. intros code' (n & d & Hn & Hd & Hw)%Hwc. exists n, d, now. split; [done|]. split; [done|by apply Hwrit].
  - destruct Hstrip as [S1 S2 S3 S4]. eapply invalidated_weaken; [|apply stripped_invalidated with (but := λ _, false)];
      [done|apply Hset; [set_solver|done]..| |intros Hd; apply Hset; [set_solver|by apply S4]].
    intros k v Hv. rewrite (Hset (person_challenge (cu_subject cur))); [done|set_solver|done|done].
  - intros k. assert (explained (person_change (cu_subject cur)) c3) as Hex.
    { eapply (explained_acts R); [intros ?; apply person_change_trans| |by apply explained_clean]. etrans; [|by apply (rests_acts R)].
      eapply (acts_weaken R); [|exact Hacts]. intros ? ? ?. apply enrolls_change. }
    destruct (explained_view _ _ k Hex) as [->|?]; [by left|done].
Qed.
End outcomes.
Lemma mfa_atomic p view raw context code original draws (c : Tx) x c' :
  complete_mfa s p view raw context code original draws c = (x, c') → idle c → fair R c →
  atomically R late_login c x c' (λ db r db', attempts c raw context code draws db r db').
Proof.
  intros Hr Hidle Hfair. apply mfa_read in Hr as [(e & He & Hi)|Hr]; [by eapply (atomically_nothing R)| |done..].
  destruct Hr as (stop & bd & cur & ch & u & row & secret & last & now & accepted & c1 & I & Hbd & Hhold & Hrow & Hsec & Hnow & Hver & Hr).
  pose proof (clean_rests _ _ _ I (proj1 Hidle)) as Hw. pose proof (re_inside _ _ _ I) as Hi.
  assert (concludes raw context code draws c c1 x c') as [(e & He & Hi')|(c2 & r & Hi2 & Hdb & Hat & Hx)].
  - unfold secret_of in Hsec. destruct (cc_stage ch) eqn:Hst; [done| |].
    + destruct Hsec as (f & -> & -> & -> & Hlast). destruct accepted; [by eapply totp_concludes|by eapply recovery_concludes].
    + destruct Hsec as (-> & -> & ->). destruct accepted; [by eapply enrolment_concludes|]. unfold accept in Hr. rewrite Hst in Hr.
      eapply rejected_concludes; [exact Hnow|exact Hhold|exact Hr|done|done| |exact Hver|by rewrite Hst]. intros c2 Hc2. unfold secret_of. rewrite Hst, Hrow; done.
  - eapply (atomically_nothing R); [done..|by etrans].
  - eapply (atomically_step R); [done|done| |exact Hdb|exact Hat|exact Hx]. by etrans.
Qed.
(** C6. An attempt with the second factor is one atomic step, whatever runs
    concurrently and wherever it fails.  As long as others give a person anything
    to act with only under the lock of the person's row, either an error is
    reported and nothing is changed, or at one moment the challenge presented is
    the one stored for this context and the person is as when it was stored, and
    one of four things happens.  A code of a step later than the last one
    accepted moves that step and uses up the challenge; a recovery code that is
    stored is used up with the challenge; a code for a new factor stores the
    factor with its recovery codes under the next revision of the person, and
    takes back all tokens, requests, challenges and device codes given before; or
    the code is none of these and nothing is changed.  After the commit only a
    late error can replace the answer. *)
Theorem mfa_refines p view raw context code original draws (c : Tx) x c' :
  complete_mfa s p view raw context code original draws c = (x, c') → idle c → fair R c →
  ∃ db, R ∅ (cn_db c) db ∧
    ((∃ e, x = Err e) ∧ cn_db c' = db ∨
     ∃ r, attempts c raw context code draws db r (cn_db c') ∧ (x = r ∨ ∃ e, x = Err e ∧ late_login e)).
Proof. apply mfa_atomic. Qed.
End mfa.
