(* ===== verification/LocalPasswordChange.v ===== *)
(** * The change of a password

    The mandatory change of a password as one atomic step: the new password is
    not the old one, what was issued under the old one is taken back, and the
    login goes on from the new revision of the person. *)

From stdpp Require Import gmap.
From S2P Require Import Prelude RustStr Order Control LocalBearer BrokerAccess AccessIssuer Sql OidcTables.
From S2P Require Import StorageAdmission Credentials LocalMfa Device OidcPolicy OidcRefresh PasswordAdmission LocalAuth LocalPassword.
From S2P Require Import LocalLogin LocalLoginSteps.

Section change.
Context `{CredentialLib, MfaLib, PasswordLib, InvalidationLib, !TextOrder} (s : PostgresLocalAuthService) (engine : LocalPasswordEngine).
(** A login that is loaded to go on changes nothing and is one the person has open. *)
Lemma load_login_atomic (R : gset Key → Db → Db → Prop) `{!Rely R} raw context original (c : Tx) x c' :
  load s raw context original c = (x, c') → idle c → fair R c →
  R ∅ (cn_db c) (cn_db c') ∧
  ∀ pending, x = Ok pending → pa_challenge pending = raw ∧ ∃ cur ch u, at_stage s raw context cur ch u (cn_db c') ∧ pa_stage pending = cc_stage ch.
Proof.
  intros Hr [Hw Hl] Hfair. match goal with |- ?G => assert (∀ e, x = Err e → inside R c c' → G) as Hno end.
  { intros e -> Hi. split; [|done]. rewrite <- Hl. by apply (in_env _ _ _ Hi). }
  unfold load in Hr. assert (rests R c c) as I by reflexivity. read_step Hr I stop c1 K1. guard_step Hr I G1.
  read_step Hr I hash c2 K2. apply lift_ok in K2 as [Hhash ->]. read_step Hr I w3 c3 K3. read_step Hr I initial c4 K4. read_step Hr I w5 c5 K5.
  pose proof (clean_rests _ _ _ I Hw) as Hw5. read_step Hr I row c6 K6. read_step Hr I cur c7 K7. apply lift_ok in K7 as [K7%ok_or_ok ->].
  destruct (user_row_ok R _ _ _ _ current_user cur K6 Hw5 K7) as (name & u & Hu & Hsub & Hcur).
  read_step Hr I factor c8 K8. pose proof (clean_rests _ _ _ I Hw) as Hw8. read_step Hr I ch c9 K9.
  apply (read_challenge_ok R) in K9 as (r & Hch & Hrec); [|done]. guard_step Hr I G2. read_step Hr I w10 c10 K10. destruct w10.
  apply validate_context_ok in K10 as Hpres. read_step Hr I en c11 K11. read_step Hr I w12 c12 K12. read_step Hr I w13 c13 K13.
  apply (commit_tail R) in Hr as [[[e He] Hi]|(c14 & I14 & Hdb & Hx)];
    [eapply Hno; [exact He|]; etrans; [exact (re_inside _ _ _ I)|done]| |unfold tx_time, tx_expiry, tx_micros; auto 10 with broker].
  assert (rests R c c14) as I0 by (etrans; [exact I|exact I14]).
  rewrite view_clean in Hdb by (by eapply clean_rests). rewrite Hdb. split; [rewrite <- Hl; by apply (in_env _ _ _ (re_inside _ _ _ I0))|].
  intros pending ->. destruct Hx as [(c15 & c16 & Hx)|?]; [|done]. do 2 apply bind_ok in Hx as (? & ? & _ & Hx). apply ret_ok in Hx as [-> _].
  carry I14. destruct Hu as [_ Hu], Hch as [_ Hch]. pose proof (current_user_ok _ _ _ Hcur) as (<- & _).
  pose proof (challenge_record_ok _ _ _ Hrec) as (Hcc & _). subst hash. bool_to_prop. split; [done|]. exists cur, ch, u. split; [|done].
  split; try done; [by exists r|by apply str_eqb_eq|by apply eqb_prop].
Qed.
(** The person after the change. *)
Definition changed_user (cur : CurrentUser) : CurrentUser :=
  {| cu_username := cu_username cur; cu_subject := cu_subject cur; cu_revision := cu_revision cur + 1; cu_change := false |}.
(** Nothing given before is left, and the login is complete or at its next stage. *)
Definition goes_on (cur : CurrentUser) (factor : bool) (context : LocalAuthBinding) (bd : CredentialDigest) (db' : Db)
    (r : result LocalAuthError LocalAuthStep) : Prop :=
  match next_stage s cur factor with
  | None => invalidated (cu_subject cur) (negb (is_device context)) (λ _, False) db' ∧
      ∃ at_, r = Ok (LsComplete (completed cur at_ context bd false None))
  | Some stage => ∃ raw hash enrollment ch,
      r = Ok (LsPending {| pa_stage := stage; pa_challenge := raw; pa_enrollment := enrollment |}) ∧ challenge_hash s raw = Ok hash ∧
      db' !! challenges hash = Some (RChallenge ch) ∧ ch_subject ch = cu_subject cur ∧ ch_local_user_revision ch = cu_revision cur ∧
      ch_purpose ch = purpose_sql (binding_purpose context) ∧ ch_binding_hash ch = to_sql_hex bd ∧ ch_stage ch = stage_sql stage ∧
      invalidated (cu_subject cur) (negb (is_device context)) (λ h, h = hash) db'
  end.
Inductive changes (raw : string) (context : LocalAuthBinding) (new_password : string) (draws : Draws) (db : Db)
    (r : result LocalAuthError LocalAuthStep) (db' : Db) : Prop :=
| Changes bd cur ch u hash now :
    context_binding s context = Ok bd → at_stage s raw context cur ch u db → cc_stage ch = StPasswordChange →
    short_password new_password = false → verify_password (eg_hasher engine) new_password (us_password_hash u) = Ok false →
    hash_password (eg_hasher engine) new_password (dw_salt draws) = Ok hash →
    db' !! users (cu_username cur) = Some (RUser (user_with hash 0 (cu_revision cur + 1) now u)) →
    (∀ k, person_change (cu_subject cur) k (db !! k) (db' !! k)) →
    goes_on (changed_user cur) (bool_decide (is_Some (db !! factors (cu_subject cur)))) context bd db' r →
    changes raw context new_password draws db r db'.

Context (R : gset Key → Db → Db → Prop) `{!Rely R, !PersonRely R}.
#[local] Hint Extern 1 (keeps (rests _) (tx_expires _)) => apply rests_tx_expires : broker.
Lemma rests_password_user subject : keeps (rests R) (password_user_for_update subject).
Proof.
  unfold password_user_for_update. apply keeps_bind; [apply _|auto with broker|]. intros [[k []]|]; try (by auto with broker).
  apply rests_here. intros c. apply locks_rests, _.
Qed.
Lemma password_user_ok subject c u k cur c' :
  password_user_for_update subject c = (Ok (Some (u, k)), c') → cn_writes c = ∅ → current_user k.2 u = Some cur →
  held c' (users (cu_username cur)) (Some (RUser u)) ∧ (USER_LOCK, cu_username cur) ∈ cn_locks c' ∧ us_subject u = subject ∧
    current_user (cu_username cur) u = Some cur.
Proof.
  unfold password_user_for_update. intros Hr Hw Hc. apply bind_ok in Hr as (row & c1 & Hs & Hr). destruct row as [[k' v]|]; [|done].
  destruct v as [u'| | | | | | | |]; try done. injection Hr as -> -> <-.
  apply (select_where_locked_ok R) in Hs as (I & Hv & Hp & Hk). rewrite view_clean in Hv by (by eapply clean_rests).
  cbn [user_where] in Hp. apply andb_true_iff in Hp as [Htab%str_eqb_eq Hu%str_eqb_eq]. destruct k as [tab name]. simpl in *. subst tab.
  pose proof (current_user_ok _ _ _ Hc) as [<- _]. split; [split; [simpl; set_solver|done]|]. split; [set_solver|done].
Qed.
(** A password other than that of the hash. *)
Lemma engine_verify_false lease password phc original fate c c' :
  engine_verify engine lease password (Some phc) original fate c = (Ok false, c') → is_ok (validate_hash phc) = true →
  verify_password (eg_hasher engine) password phc = Ok false.
Proof.
  unfold engine_verify. destruct (_ <? _)%Z; [done|]. intros (c1 & c2 & Hr)%work_ok Hv. simpl in Hr. rewrite Hv in Hr. simpl in Hr.
  apply bind_ok in Hr as (? & c3 & _ & Hr). apply bind_ok in Hr as (m & c4 & Hl & Hr). apply lift_ok in Hl as [Hl%rmap_err_ok ->].
  by apply ret_ok in Hr as [-> _].
Qed.
Lemma txn_with_ok {F A} (f : F → LocalAuthError) (m : M clock F A) (c : Tx) a c' :
  txn_with f m c = (Ok a, c') → ∃ k, m (cn_clock c) = (Ok a, k).
Proof. unfold txn_with. destruct (m (cn_clock c)) as [[b|] k]; [|done]. intros [= <- _]. eauto. Qed.

Lemma late_lease lease i stop : only late_login (txn_clock (E:=LocalAuthError) (V:=Row) (lease_check lease i stop)).
Proof.
  intros c e c'. unfold txn_clock, txn_with, lease_check. destruct lease as [closed|]; [|done]. cbn.
  destruct (stop <=? _)%Z; [|destruct (closed i); [|done]]; intros [= <- _]; unfold late_login; set_solver.
Qed.
(** How far the operation gets before it changes anything. *)
Lemma change_read raw context new_password original lease verify_fate hash_fate draws (c : Tx) x c' :
  complete_password_change s engine raw context new_password original lease verify_fate hash_fate draws c = (x, c') → idle c → fair R c →
  (∃ e, x = Err e ∧ inside R c c') ∨
  ∃ stop bd cur ch u hash now c1,
    rests R c c1 ∧ context_binding s context = Ok bd ∧ holds_stage s R raw context cur ch u c1 ∧ cc_stage ch = StPasswordChange ∧
    short_password new_password = false ∧ verify_password (eg_hasher engine) new_password (us_password_hash u) = Ok false ∧
    hash_password (eg_hasher engine) new_password (dw_salt draws) = Ok hash ∧
    ∃ factor, (∀ c2, inside R c1 c2 → factor = bool_decide (is_Some (cn_db c2 !! factors (cu_subject cur)))) ∧
    replace_password s cur ch factor hash (cu_revision cur + 1) now context bd lease stop draws c1 = (x, c').
Proof.
  intros Hr [Hw _] Hfair. match goal with |- ?G => assert (∀ e, x = Err e → inside R c c' → G) as Hno by (intros; left; eauto) end.
  pose proof rests_password_user as Hpu.
  unfold complete_password_change in Hr. assert (rests R c c) as I by reflexivity. read_step Hr I stop c1 K1. read_step Hr I w2 c2 K2.
  guard_step Hr I G1. read_step Hr I hash c3 K3. apply lift_ok in K3 as [Hhash ->]. read_step Hr I bd c3 K3. apply lift_ok in K3 as [Hbind ->].
  read_step Hr I w4 c4 K4. read_step Hr I initial c5 K5. read_step Hr I w6 c6 K6. guard_step Hr I G2.
  pose proof (clean_rests _ _ _ I Hw) as Hw6. read_step Hr I row c7 K7. read_step Hr I uk c8 K8. apply lift_ok in K8 as [K8%ok_or_ok ->]. subst row.
  destruct uk as [u k]. read_step Hr I phc c8 K8. apply lift_ok in K8 as [[-> _]%ok_or_ok%capped_ok ->].
  read_step Hr I w8 c8 K8. apply lift_ok in K8 as [Hphc%rmap_err_ok ->]. read_step Hr I cur c8 K8. apply lift_ok in K8 as [K8%ok_or_ok ->].
  apply (password_user_ok _ _ _ _ cur) in K7 as (Hu & Hlock & Hsub & Hcur); [|done|done].
  pose proof (clean_rests _ _ _ I Hw) as Hw8. read_step Hr I factor c9 K9.
  assert (inside R c7 c9) as Hi79 by (eapply (rests_inside R); [apply (rests_has_factor R)|exact K9]).
  assert (keeps_person R (cu_subject cur) c9) as Hperson.
  { split; [eapply fair_suffix; [exact (in_turns _ _ _ (re_inside _ _ _ I))|done]|]. exists (cu_username cur), u.
    split; [by apply (in_locks _ _ _ Hi79)|]. split; [done|]. by apply current_user_ok in Hcur as (_ & <- & _). }
  pose proof (clean_rests _ _ _ I Hw) as Hw9. read_step Hr I ch c10 K10. apply (read_challenge_ok R) in K10 as (r & Hch & Hrec); [|done].
  guard_step Hr I G3. read_step Hr I w11 c11 K11. destruct w11. apply validate_context_ok in K11 as Hpres. guard_step Hr I G4.
  read_step Hr I next c12 K12. apply lift_ok in K12 as [Hrev%ok_or_ok ->]. read_step Hr I unchanged c13 K13. guard_step Hr I G5. subst unchanged.
  apply txn_with_ok in K13 as [k13 K13]. apply engine_verify_false in K13; [|by rewrite Hphc].
  read_step Hr I new c14 K14. apply txn_with_ok in K14 as [k14 K14]. apply engine_hash_ok in K14 as [_ Hnew].
  read_step Hr I w15 c15 K15. read_step Hr I w16 c16 K16. read_step Hr I now c17 K17. read_step Hr I w18 c18 K18.
  pose proof (challenge_record_ok _ _ _ Hrec) as (Hcc & _). subst hash. right.
  assert (next = cu_revision cur + 1)%Z as -> by (unfold checked_add_i64 in Hrev; case_match; [by injection Hrev as <-|done]).
  bool_to_prop. assert (initial = ch) as -> by (by apply dec_stable). assert (inside R c9 c18) as Hi9 by chain.
  exists stop, bd, cur, ch, u, new, now, c18. split; [done|]. split; [done|]. split.
  { split; try done; [by eapply keeps_person_inside|by exists r|by apply str_eqb_eq|]. transitivity true; [done|]. symmetry. by apply bool_decide_eq_true. }
  do 4 (split; [done|]). exists factor. split; [|done]. intros cl Hcl. eapply (has_factor_ok R); [exact K9|done|done|]. etrans; [exact Hi9|done].
Qed.
(** What is left once the login goes on. *)
Lemma left_after A subject devices_too (but : string → bool) c c' :
  acts R A c c' → (∀ k o v, A k o (Some v) → ∃ b, v = RChallenge b ∧ but k.2 = true) → keeps_person R subject c →
  stripped subject devices_too c → invalidated subject devices_too (λ h, but h = true) (view c').
Proof.
  intros Ha HA Hp [S1 S2 S3 S4]. apply stripped_invalidated.
  - eapply (settled_kind R A subject); [exact Ha|apply given_owed; set_solver| |done|done]. by intros k o v (b & -> & _)%HA.
  - eapply (settled_kind R A subject); [exact Ha|apply given_owed; set_solver| |done|done]. by intros k o v (b & -> & _)%HA.
  - eapply (settled_person R A subject _ (λ k, negb (but k.2))); [exact Ha|apply given_owed; set_solver| |done|].
    + intros k o v (b & -> & Hb)%HA. by rewrite Hb, andb_false_r.
    + intros k v Hv. by rewrite (S3 k v Hv).
  - intros Hd. eapply (settled_kind R A subject); [exact Ha|apply given_owed; set_solver| |done|by apply S4]. by intros k o v (b & -> & _)%HA.
Qed.
(** The login goes on from the changed person. *)
Lemma advance_goes_on cur factor context bd stop draws c c1 c2 result expires :
  advance_login s cur factor context bd stop draws c = (Ok (result, expires), c1) → rests R c1 c2 → keeps_person R (cu_subject cur) c →
  stripped (cu_subject cur) (negb (is_device context)) c → goes_on cur factor context bd (view c2) (Ok result).
Proof.
  intros Hadv I Hp Hs. unfold goes_on. destruct (next_stage s cur factor) as [stage|] eqn:Est.
  - destruct (advance_opened s R _ _ _ _ _ _ _ _ _ _ _ _ Hadv Est Hp I) as (raw & hash & en & ch & -> & Hh & Hraw & Hv & Hsub & Hrev & Hpur & Hb & Hst & _).
    exists raw, hash, en, ch. do 8 (split; [done|]). eapply invalidated_weaken with (but := λ h, bool_decide (h = hash) = true).
    { intros h. apply bool_decide_eq_true. }
    eapply left_after; [etrans; [by eapply acts_advance|by apply (rests_acts R)]| |done|done]. intros k o v Ha. inversion Ha as [|b raw' hash' Hr' Hh' Hk]; subst.
    assert (hash' = hash) as -> by congruence. exists b. split; [done|]. by apply bool_decide_eq_true.
  - apply (advance_ok s _ _ _ _ _ _ R) in Hadv. rewrite Est in Hadv. destruct Hadv as (I1 & (at_ & ->) & _). split; [|eauto].
    eapply invalidated_weaken with (but := λ h, false = true); [done|]. eapply (left_after (λ _ _ _, False)); [|done|done|done].
    apply (rests_acts R). by etrans.
Qed.
Lemma replaced_user cur u hash now c n c1 :
  update_where (E:=LocalAuthError) (user_at (cu_subject cur) (cu_revision cur) 1) (set_user (user_with hash 0 (cu_revision cur + 1) now)) c = (Ok n, c1) →
  held c (users (cu_username cur)) (Some (RUser u)) → cn_writes c = ∅ → current_user (cu_username cur) u = Some cur → cu_change cur = true →
  cn_writes c1 !! users (cu_username cur) = Some (Some (RUser (user_with hash 0 (cu_revision cur + 1) now u))).
Proof.
  intros Hup Hu Hw Hcur Hch. pose proof (current_user_ok _ _ _ Hcur) as (_ & Hcs & Hcr & _ & _ & Hcc & _). rewrite Hch in Hcc.
  apply (update_where_ok R) in Hup as (c0 & I0 & _ & ->). simpl. rewrite lookup_union, lookup_fmap.
  assert (rows (user_at (cu_subject cur) (cu_revision cur) 1) (view c0) !! users (cu_username cur) = Some (RUser u)) as ->; [|simpl; by rewrite union_Some_l].
  apply map_lookup_filter_Some. rewrite view_clean by (by eapply clean_rests).
  destruct (held_inside R _ _ _ _ (re_inside _ _ _ I0) Hu) as [_ ->]. split; [done|]. cbn. by rewrite Hcs, Hcr, !str_eqb_refl, Z.eqb_refl, <- Hcc.
Qed.
Lemma replace_password_ok raw cur ch u factor hash now context bd lease stop draws c x c' :
  replace_password s cur ch factor hash (cu_revision cur + 1) now context bd lease stop draws c = (x, c') →
  holds_stage s R raw context cur ch u c → cn_writes c = ∅ → cu_change cur = true →
  (∃ e, x = Err e ∧ inside R c c') ∨
  ∃ c1 r, inside R c c1 ∧ cn_db c' = view c1 ∧
    view c1 !! users (cu_username cur) = Some (RUser (user_with hash 0 (cu_revision cur + 1) now u)) ∧
    (∀ k, person_change (cu_subject cur) k (cn_db c1 !! k) (view c1 !! k)) ∧ goes_on (changed_user cur) factor context bd (view c1) r ∧
    (x = r ∨ ∃ e, x = Err e ∧ late_login e).
Proof.
  intros Hr Hh Hw Hch. match goal with |- ?G => assert (∀ e, x = Err e → inside R c c' → G) as Hno by (intros; left; eauto) end.
  pose proof (hg_person _ _ _ _ _ _ _ _ Hh) as Hp. unfold replace_password in Hr.
  apply (bind_inside R) in Hr as [(n & c1 & Hup & Hi1 & Hr)|(e & He & Hi)]; [|by eauto|apply (inside_update_where R)].
  assert (acts R (person_change (cu_subject cur)) c c1) as A1.
  { eapply (acts_update_where R (E:=LocalAuthError)); [|exact Hup]. intros k v Hkv. destruct v; try done. cbn [user_at] in Hkv. bool_to_prop. simpl. right.
    split; [by apply str_eqb_eq|eauto]. }
  apply (replaced_user _ u) in Hup as Hw1; [|exact (hg_user _ _ _ _ _ _ _ _ Hh)|done|exact (hg_current _ _ _ _ _ _ _ _ Hh)|done].
  destruct (negb (n =? 1)); [injection Hr as <- <-; by eauto|].
  apply (bind_inside R) in Hr as [([] & c2 & Hinv & Hi2 & Hr)|(e & He & Hi)];
    [|eapply Hno; [exact He|by etrans]|intros ? ? ? Ha; by eapply (acts_inside R), acts_invalidate].
  assert (acts R (taken_away (cu_subject cur)) c1 c2) as A2 by (by eapply acts_invalidate).
  assert (keeps_person R (cu_subject cur) c1) as P1 by (by eapply keeps_person_inside). eapply invalidate_ok in Hinv as Hs; [|done..].
  apply (bind_inside R) in Hr as [([result expires] & c3 & Hadv & Hi3 & Hr)|(e & He & Hi)];
    [|eapply Hno; [exact He|]; etrans; [exact Hi1|by etrans]|intros ? ? ? Ha; by eapply (acts_inside R), acts_advance].
  assert (acts R (advances s (changed_user cur) context draws) c2 c3) as A3 by (by eapply acts_advance).
  assert (inside R c c3) as Hi03 by (etrans; [exact Hi1|by etrans]).
  match goal with |- ?G => assert (∀ e, x = Err e → inside R c3 c' → G) as Hno3 by (intros; eapply Hno; [done|by etrans]) end. clear Hno.
  assert (rests R c3 c3) as I by reflexivity. read_step Hr I w4 c4 K4. read_step Hr I w5 c5 K5. read_step Hr I w6 c6 K6. read_step Hr I w7 c7 K7.
  apply (login_commit R _ _ _ _ result) in Hr as [[[e He] Hi]|(c8 & I8 & Hdb & Hx)];
    [eapply Hno3; [exact He|]; etrans; [exact (re_inside _ _ _ I)|done]| |auto 10 with broker| |].
  2: { apply only_bind; [auto with broker|]. intros _. apply only_bind; [apply late_lease|]. intros _. auto with broker. }
  2: { intros ? b ? Hb. do 3 apply bind_ok in Hb as (? & ? & _ & Hb). by apply ret_ok in Hb as [-> _]. }
  assert (rests R c3 c8) as I38 by (by etrans). right. exists c8, (Ok result). split; [etrans; [exact Hi03|exact (re_inside _ _ _ I38)]|].
  split; [done|]. split; [|split; [|split; [|done]]].
  - apply written_view. rewrite (re_writes _ _ _ I38). eapply (written_acts R); [exact A3| |intros o Ho; by inversion Ho].
    eapply (written_acts R); [exact A2|exact Hw1|intros o Ho; by inversion Ho].
  - intros k. assert (explained (person_change (cu_subject cur)) c8) as Hex.
    { eapply (explained_acts R); [intros ?; apply person_change_trans| |by apply explained_clean]. etrans; [exact A1|].
      etrans; [eapply (acts_weaken R); [|exact A2]; intros ? ? ?; by apply taken_change|]. etrans; [|by apply (rests_acts R)].
      eapply (acts_weaken R); [|exact A3]. intros ? ? ? Ha. by apply challenge_change_person, (advances_change s (changed_user cur) context draws). }
    destruct (explained_view _ _ k Hex) as [->|?]; [by left|done].
  - eapply advance_goes_on; [exact Hadv|done| |done]. by eapply keeps_person_inside.
Qed.
Lemma change_atomic raw context new_password original lease verify_fate hash_fate draws (c : Tx) x c' :
  complete_password_change s engine raw context new_password original lease verify_fate hash_fate draws c = (x, c') → idle c → fair R c →
  atomically R late_login c x c' (λ db r db', changes raw context new_password draws db r db').
Proof.
  intros Hr Hidle Hfair. apply change_read in Hr as [(e & He & Hi)|Hr]; [by eapply (atomically_nothing R)| |done..].
  destruct Hr as (stop & bd & cur & ch & u & hash & now & c1 & I & Hbd & Hh & Hst & Hshort & Hver & Hhash & factor & Hf & Hr).
  pose proof (re_inside _ _ _ I) as Hi. apply (replace_password_ok raw _ _ u) in Hr as [(e & He & Hi')|(c2 & r & Hi2 & Hdb & Hu & Hframe & Hgo & Hx)].
  - eapply (atomically_nothing R); [done..|by etrans].
  - eapply (atomically_step R); [done|done| |exact Hdb| |exact Hx]; [by etrans|]. econstructor; try done.
    + eapply holds_at_stage. by eapply holds_stage_inside.
    + by rewrite <- Hf.
  - done.
  - by eapply clean_rests; [|exact (proj1 Hidle)].
  - by rewrite (hg_change _ _ _ _ _ _ _ _ Hh), Hst.
Qed.
(** C8. A mandatory change of a password is one atomic step, whatever runs
    concurrently and wherever it fails.  As long as others give a person anything
    to act with only under the lock of the person's row, either an error is
    reported and nothing is changed, or at one moment the challenge presented is
    the one stored for this context and the person is as when it was stored, the
    new password is long enough and not the one of the old hash, its hash is
    stored under the next revision, every token, unfederated request, challenge
    and device code given before is taken back but for the next challenge of this
    login, nothing of others changes, and the login is complete or at its next
    stage. *)
Theorem change_refines raw context new_password original lease verify_fate hash_fate draws (c : Tx) x c' :
  complete_password_change s engine raw context new_password original lease verify_fate hash_fate draws c = (x, c') → idle c → fair R c →
  ∃ db, R ∅ (cn_db c) db ∧
    ((∃ e, x = Err e) ∧ cn_db c' = db ∨
     ∃ r, changes raw context new_password draws db r (cn_db c') ∧ (x = r ∨ ∃ e, x = Err e ∧ late_login e)).
Proof. apply change_atomic. Qed.

(** ** Every way to complete a login *)

Inductive login_call :=
| LBegin (proof : VerifiedLocalPassword) (context : LocalAuthBinding)
| LChange (raw : string) (context : LocalAuthBinding) (new_password : string) (lease : Lease) (verify_fate hash_fate : WorkFate)
| LMfa (p : LocalMfaAttemptPolicy) (view : LimiterView) (raw : string) (context : LocalAuthBinding) (code : string).
Definition run_login (k : login_call) (original : Z) (draws : Draws) : M Tx LocalAuthError LocalAuthStep :=
  match k with
  | LBegin proof context => begin_login s proof context original draws
  | LChange raw context new_password lease vf hf => complete_password_change s engine raw context new_password original lease vf hf draws
  | LMfa p view raw context code => complete_mfa s p view raw context code original draws
  end.
(** The factor of a person takes the code. *)
Definition takes_code (subject code : string) (draws : Draws) (cipher : string) (db db' : Db) : Prop :=
  (∃ f step seconds, db !! factors subject = Some (RFactor f) ∧ (mf_last_totp_step f < step)%Z ∧
     mfa_verify (la_mfa s) subject (mf_secret_ciphertext f) code seconds (mf_last_totp_step f) = Ok (Some step) ∧
     db' !! factors subject = Some (RFactor (factor_step step f))) ∨
  (∃ n d v, normalize_local_recovery_code code = Some n ∧ recovery_digest s subject n = Ok d ∧
     db !! recoveries subject d = Some (RRecovery v) ∧ db' !! recoveries subject d = None) ∨
  (∃ step seconds secret now, db !! factors subject = None ∧
     mfa_verify (la_mfa s) subject cipher code seconds (-1) = Ok (Some step) ∧
     reencrypt (la_mfa s) subject cipher (dw_nonce draws) = Ok secret ∧
     db' !! factors subject = Some (RFactor {| mf_secret_ciphertext := secret; mf_last_totp_step := step; mf_confirmed_at := now |})).
Lemma atomically_ok (m : result LocalAuthError LocalAuthStep) a c c' P :
  m = Ok a → atomically R late_login c m c' P → ∃ db, R ∅ (cn_db c) db ∧ P db (Ok a) (cn_db c').
Proof.
  intros -> (db & HR & [[[e [=]] _]|(r & HP & [<-|(e & [=] & _)])]). eauto.
Qed.
Lemma required_stage cur factor : lo_required (la_policy s) = true → next_stage s cur factor ≠ None.
Proof. unfold next_stage. intros ->. by destruct (cu_change cur), factor. Qed.
(** C7. Where a second factor is required, no login completes without one: an
    operation that answers with a completed login is an attempt with the factor,
    the login is for the person and the purpose of the challenge, and at one
    moment the person's factor took the code as a fresh step, as an unused
    recovery code, or to become the factor. *)
Theorem factor_required k original draws (c : Tx) login c' :
  lo_required (la_policy s) = true → run_login k original draws c = (Ok (LsComplete login), c') → idle c → fair R c →
  ∃ p view raw context code db cur ch u, k = LMfa p view raw context code ∧ R ∅ (cn_db c) db ∧ at_stage s raw context cur ch u db ∧
    cll_subject login = cu_subject cur ∧ cll_username login = cu_username cur ∧ cll_purpose login = binding_purpose context ∧
    cll_factor_verified login = true ∧ takes_code (cu_subject cur) code draws (cc_cipher ch) db (cn_db c').
Proof.
  intros Hreq Hr Hidle Hfair. destruct k as [proof context|raw context new lease vf hf|p view raw context code]; cbn [run_login] in Hr.
  - apply (begin_atomic s R) in Hr; [|done..]. apply (atomically_ok _ _ _ _ _ eq_refl) in Hr as (db & _ & Hb).
    destruct Hb as [u cur bd _ _ _ _ _ Hm]. destruct (next_stage _ _ _) eqn:Est; [|by apply required_stage in Est].
    by destruct Hm as [(? & ? & ? & ? & [=] & _) _].
  - apply change_atomic in Hr; [|done..]. apply (atomically_ok _ _ _ _ _ eq_refl) in Hr as (db & _ & Hb).
    destruct Hb as [bd cur ch u hash now _ _ _ _ _ _ _ _ Hm]. unfold goes_on in Hm. destruct (next_stage _ _ _) eqn:Est; [|by apply required_stage in Est].
    by destruct Hm as (? & ? & ? & ? & [=] & _).
  - apply (mfa_atomic s R) in Hr; [|done..]. apply (atomically_ok _ _ _ _ _ eq_refl) in Hr as (db & HR & Ha).
    assert (∀ k1 k2 : Key, k1.1 ≠ k2.1 → k1 ≠ k2) as Htab by congruence.
    destruct Ha as [bd cur ch u f step at_ _ Hs _ Hf _ (n & _ & Hv) Hlt Hdb [= ->]|bd cur ch u f n d v at_ _ Hs _ _ _ Hn Hd Hrow Hdb [= ->]
      |bd cur ch u step codes at_ _ Hs _ (n & _ & Hv) He [= ->]|]; [..|done]; exists p, view, raw, context, code, db, cur, ch, u;
      do 7 (split; [done|]).
    + left. exists f, step, (Z.quot n 1000000). rewrite Hdb, lookup_delete_ne, lookup_insert_eq by (by apply Htab). done.
    + right. left. exists n, d, v. rewrite Hdb, lookup_delete_ne, lookup_delete_eq by (by apply Htab). done.
    + right. right. destruct He as [_ [Hnone (secret & now & Hre & Hrow)] _ _ _]. exists step, (Z.quot n 1000000), secret, now. done.
Qed.
End change.
