(* ===== verification/LocalScenario.v ===== *)
(** * A local login from its first password to its second factor

    One person logs in: the password must be changed, a factor is enrolled, and
    the next login asks for a code of it.  The libraries are instantiated by
    simple functions, and the theorems on the operations are applied. *)

From stdpp Require Import gmap.
From S2P Require Import Prelude RustStr Order Control LocalBearer BrokerAccess AccessIssuer Sql OidcTables.
From S2P Require Import StorageAdmission Credentials LocalMfa Device DeviceHistory OidcPolicy OidcRefresh OidcScenario.
From S2P Require Import PasswordAdmission LocalAuth LocalPassword LocalLogin LocalLoginSteps LocalPasswordChange.

(** ** Libraries *)

Definition pad (n : nat) : string := of_bytes (replicate n "A"%char).
#[local] Instance login_credentials : CredentialLib :=
  {| hmac := λ _ m, Some (last_bytes 32 m); url_b64_encode := λ d, d +:+ pad ((4 * length (bytes d) + 2) / 3 - length (bytes d));
     url_b64_decode := λ s, Some (of_bytes (take (length (bytes s) * 3 / 4) (bytes s))) |}.
(** A cipher that appends sixteen bytes, and one code for each half minute. *)
#[local] Instance login_mfa : MfaLib :=
  {| Cipher := unit; cipher_new := λ _, Some tt; cipher_encrypt := λ _ _ _ m, Some (m +:+ pad 16);
     cipher_decrypt := λ _ _ _ m, Some (of_bytes (take 32 (bytes m)));
     Totp := string; totp_build := Some; totp_build_for := λ s _ _, Some s;
     totp_check := λ _ code t, str_eqb code (last_bytes 6 (print_int t)); totp_secret := λ s, s; totp_url := Some; totp_qr_png := Some;
     to_base32 := λ s, s +:+ pad 12; try_from_base32 := λ s, Some (of_bytes (take 20 (bytes s))); standard_b64 := λ s, s |}.
#[local] Instance login_passwords : PasswordLib :=
  {| phc_parse := λ s, Some {| ph_algorithm := "argon2id"; ph_version := Some 19%Z; ph_params := [("m", "65536"); ("t", "3"); ("p", "4")];
                               ph_salt := Some "0123456789abcdef"; ph_hash := Some s |};
     get_decimal := λ _ n, if str_eqb n "m" then Some 65536%Z else if str_eqb n "t" then Some 3%Z else Some 4%Z;
     Params := unit; params_new := λ _ _ _ _, Some tt; argon2_with_salt := λ _ pre _, Some (Some pre); argon2 := λ _ pre _, Some pre |}.
#[local] Instance login_json : InvalidationLib :=
  {| json_syntax := λ _, true; json_invalidation := λ _, None; text_ltb := str_ltb |}.
#[local] Instance login_order : TextOrder.
Proof.
  split; unfold text_ltb; simpl.
  - intros a. unfold str_ltb. by rewrite (proj2 (str_cmp_eq a a) eq_refl).
  - unfold str_ltb. intros a b c. destruct (str_cmp a b) eqn:Eab, (str_cmp b c) eqn:Ebc; try done. by rewrite (str_cmp_trans a b c).
  - intros a b. unfold str_ltb. destruct (str_cmp a b) eqn:E; [|by left|]; right.
    + left. by apply str_cmp_eq.
    + right. by rewrite str_cmp_opp, E.
Qed.
#[local] Existing Instance still_rely.
#[local] Instance still_person : PersonRely still.
Proof. intros ks db db' name u q k v -> _ _ _ Hk Hq. eauto. Qed.

(** ** The login *)

Definition login_service : PostgresLocalAuthService :=
  {| la_digester := pd_digester sample_device_service; la_mfa := (tt : Cipher);
     la_policy := {| lo_required := true; lo_issuer_label := "Broker"; lo_challenge_ttl := (600 * NANOS)%Z |};
     la_operation_timeout := (30 * NANOS)%Z |}.
Definition login_engine : LocalPasswordEngine := {| eg_hasher := "0123456789abcdef0123456789abcdef"; eg_dummy := last_bytes 32 "" |}.
Definition login_draws (seed : string) : Draws :=
  {| dw_secret := Some (last_bytes 32 seed); dw_nonce := Some (last_bytes 12 seed); dw_challenge := Some (last_bytes 32 seed);
     dw_codes := λ n, Some (last_bytes 20 (String (ascii_of_nat (65 + n)) "BCDEFGHIJKLMNOPQRST")); dw_salt := Some "salt" |}.
Definition login_user : UserRow := user_with (last_bytes 32 "an old password of hers") 1 3 1 sample_user.
Definition login_token : TokenRow :=
  {| tk_token_id := "t"; tk_token_kind := "oidc_access"; tk_subject := "alice-subject"; tk_oidc_subject := "o"; tk_principal_json := "";
     tk_client_id := "cli"; tk_audience := "api"; tk_resource := ""; tk_scopes_json := ""; tk_local_user_revision := 3; tk_family_id := "f";
     tk_auth_time := 1; tk_expires_at := 5000000000; tk_revoked_at := None; tk_consumed_at := None; tk_last_used_at := None; tk_created_at := 1 |}.
Definition login_start : Db := {[users "alice" := RUser login_user; tokens "t" := RToken login_token]}.
Definition login_proof (revision : Z) (change : bool) : VerifiedLocalPassword :=
  {| vp_username := "alice"; vp_subject := "alice-subject"; vp_revision := revision; vp_password_change_required := change;
     vp_verified_at := 1000000000 |}.
Definition login_pending (x : result LocalAuthError LocalAuthStep) : string :=
  match x with Ok (LsPending p) => pa_challenge p | _ => "" end.
Definition login_fate : WorkFate := {| wf_slot := None; wf_closed := false; wf_join := None |}.
Definition login_limiter : LimiterView :=
  {| lv_admit := (∅, 0%Z); lv_failure := (∅, 0%Z); lv_success := {["alice-subject" := sample_entry 0 0 None 0 true]} |}.
Definition login_first := begin_login login_service (login_proof 3 true) BindAdminLogin 100 (login_draws "a") (sample_tx login_start).
Definition login_changed := complete_password_change login_service login_engine (login_pending login_first.1) BindAdminLogin
  "a new password of hers" 100 None login_fate login_fate (login_draws "b") (sample_tx (cn_db login_first.2)).
Definition login_enrolled := complete_mfa login_service sample_attempts login_limiter (login_pending login_changed.1) BindAdminLogin
  "000990" 100 (login_draws "c") (sample_tx (cn_db login_changed.2)).
Definition login_second := begin_login login_service (login_proof 5 false) BindAdminLogin 100 (login_draws "d") (sample_tx (cn_db login_enrolled.2)).
Definition login_done := complete_mfa login_service sample_attempts login_limiter (login_pending login_second.1) BindAdminLogin
  "001020" 100 (login_draws "e") (sample_tx (cn_db login_second.2)).
Definition completes (x : result LocalAuthError LocalAuthStep) : option CompletedLocalLogin :=
  match x with Ok (LsComplete l) => Some l | _ => None end.

(** ** The theorems at this login *)

Lemma mfa_refines_witness :
  cll_recovery_codes <$> completes login_enrolled.1 = Some (Some
    ((λ c, String c "BCDEFGH-IJKLMNOP-QRSTAAAA-AAAAAAAA") <$> ["A"; "B"; "C"; "D"; "E"; "F"; "G"; "H"; "I"; "J"]%char)) ∧
  attempts login_service (sample_tx (cn_db login_changed.2)) (login_pending login_changed.1) BindAdminLogin "000990" (login_draws "c")
    (cn_db login_changed.2) login_enrolled.1 (cn_db login_enrolled.2).
Proof.
  split; [vm_compute; reflexivity|].
  edestruct (mfa_refines login_service still sample_attempts login_limiter (login_pending login_changed.1) BindAdminLogin "000990" 100
    (login_draws "c") (sample_tx (cn_db login_changed.2)) login_enrolled.1 login_enrolled.2) as (db & HR & [[[e He] _]|(r & Hp & Hx)]);
    [exact (surjective_pairing login_enrolled)|by split|constructor|vm_compute in He; discriminate He|].
  unfold still in HR. subst db. destruct Hx as [Hx|(e & Hx & _)]; [|vm_compute in Hx; discriminate Hx]. rewrite <- Hx in Hp. exact Hp.
Defined.
Lemma change_refines_witness :
  is_Some (match login_changed.1 with Ok (LsPending p) => pa_enrollment p | _ => None end) ∧
  changes login_service login_engine (login_pending login_first.1) BindAdminLogin "a new password of hers" (login_draws "b")
    (cn_db login_first.2) login_changed.1 (cn_db login_changed.2).
Proof.
  split; [vm_compute; by eexists|].
  edestruct (change_refines login_service login_engine still (login_pending login_first.1) BindAdminLogin "a new password of hers" 100 None
    login_fate login_fate (login_draws "b") (sample_tx (cn_db login_first.2)) login_changed.1 login_changed.2) as (db & HR & [[[e He] _]|(r & Hp & Hx)]);
    [exact (surjective_pairing login_changed)|by split|constructor|vm_compute in He; discriminate He|].
  unfold still in HR. subst db. destruct Hx as [Hx|(e & Hx & _)]; [|vm_compute in Hx; discriminate Hx]. rewrite <- Hx in Hp. exact Hp.
Defined.
Lemma mfa_call_inj p view raw context code p' view' raw' context' code' :
  LMfa p view raw context code = LMfa p' view' raw' context' code' → raw = raw' ∧ context = context' ∧ code = code'.
Proof. intros [=]. auto. Qed.
(** The second login, with the code of the next half minute. *)
Lemma factor_required_witness :
  ∃ login db cur ch u, completes login_done.1 = Some login ∧ cll_subject login = cu_subject cur ∧ cll_factor_verified login = true ∧
    at_stage login_service (login_pending login_second.1) BindAdminLogin cur ch u db ∧
    takes_code login_service (cu_subject cur) "001020" (login_draws "e") (cc_cipher ch) db (cn_db login_done.2).
Proof.
  destruct (completes login_done.1) as [login|] eqn:Ec; [|vm_compute in Ec; discriminate Ec]. exists login.
  edestruct (factor_required login_service login_engine still
    (LMfa sample_attempts login_limiter (login_pending login_second.1) BindAdminLogin "001020") 100 (login_draws "e")
    (sample_tx (cn_db login_second.2)) login (login_done.2)) as (p & view & raw & context & code & db & cur & ch & u & Hk & _ & Hs & Hsub & _ & _ & Hf & Ht);
    [reflexivity| |by split|constructor|].
  - change (login_done = (Ok (LsComplete login), login_done.2)). unfold completes in Ec. destruct login_done as [[[l|]|] c']; try discriminate Ec.
    injection Ec as ->. reflexivity.
  - apply mfa_call_inj in Hk as (-> & -> & ->). exists db, cur, ch, u. auto.
Defined.
