(* ===== verification/NowWire.v ===== *)
(** * The Now wire data

    crates/broker-now-wire/src/lib.rs: the validated snapshot a publisher
    sends, the masking of its sections and the canonical decimal times.  The
    private wire rows and the public read models have the same fields, and the
    conversion between them copies each field, so one type stands for both. *)

From S2P Require Import Prelude RustStr Order Control.

Definition SAFE_COUNT_MAX : Z := 9007199254740991.
Definition MILLION : Z := 1000000.
Definition MAX_MILLISECONDS_NS : Z := U64_MAX * MILLION.
Definition I128_MIN : Z := - 2 ^ 127.
Definition I128_MAX : Z := 2 ^ 127 - 1.

Inductive NowSnapshotDataError := NS_InvalidData | NS_ReadLimitExceeded.
Inductive NowSectionAvailability := Available | NoCorpus | Failed.
Inductive NowSectionErrorCode :=
| Forbidden | Unavailable | InvalidData | LimitExceeded | CountsUnavailable.
#[global] Instance NowSectionErrorCode_eq_dec : EqDecision NowSectionErrorCode.
Proof. solve_decision. Defined.
Definition NowSectionAvailability_try_from (value : string)
    : result NowSnapshotDataError NowSectionAvailability :=
  if str_eqb value "available" then Ok Available
  else if str_eqb value "no_corpus" then Ok NoCorpus
  else if str_eqb value "failed" then Ok Failed
  else Err NS_InvalidData.
Definition NowSectionErrorCode_try_from (value : string)
    : result NowSnapshotDataError NowSectionErrorCode :=
  if str_eqb value "forbidden" then Ok Forbidden
  else if str_eqb value "unavailable" then Ok Unavailable
  else if str_eqb value "invalid_data" then Ok InvalidData
  else if str_eqb value "limit_exceeded" then Ok LimitExceeded
  else if str_eqb value "counts_unavailable" then Ok CountsUnavailable
  else Err NS_InvalidData.

Record NowTaskData := {
  nt_id : string; nt_session_id : string; nt_title : string; nt_owner : string;
  nt_lease_expires_at : string; nt_updated_at : string;
}.
Record NowSessionData := {
  nse_id : string; nse_title : string; nse_owner : string; nse_lease_expires_at : string;
  nse_updated_at : string; nse_completed_tasks : Z; nse_total_tasks : Z;
}.
Record NowMemoryData := {
  nm_id : string; nm_title : string; nm_updated_by : string; nm_updated_at : string;
}.
Record NowKnowledgeData := { nk_slug : string; nk_title : string; nk_updated_at : option string }.

Record NowSectionData (T : Type) := {
  sec_availability : NowSectionAvailability;
  sec_items : list T;
  sec_total : option Z;
  sec_has_more : option bool;
  sec_error : option NowSectionErrorCode;
}.
Arguments sec_availability {T} _.
Arguments sec_items {T} _.
Arguments sec_total {T} _.
Arguments sec_has_more {T} _.
Arguments sec_error {T} _.
Record NowSectionsData := {
  sd_tasks : NowSectionData NowTaskData;
  sd_sessions : NowSectionData NowSessionData;
  sd_memories : NowSectionData NowMemoryData;
  sd_knowledge : NowSectionData NowKnowledgeData;
}.
Record NowSnapshotData := {
  nsd_project_id : string;
  nsd_generated_at : string;
  nsd_sections : NowSectionsData;
}.

(** ** Values *)

Definition decimal (value : string) : option Z :=
  parse_int I128_MIN I128_MAX value ≫= λ n, if str_eqb (print_int n) value then Some n else None.
(** The remainder of [i128] on a non-negative number. *)
Definition milliseconds (value : string) : option Z :=
  decimal value ≫= λ n,
    if (0 <=? n)%Z && (n <=? MAX_MILLISECONDS_NS)%Z && (Z.rem n MILLION =? 0)%Z then Some n else None.
Definition exact_title (value : string) : bool := negb (is_empty value) && str_eqb (trim value) value.
Definition valid_slug (value : string) : bool :=
  negb (is_empty value) && negb (starts_with value "..")
  && negb (contains_byte "/" value || contains_byte (ascii_of_N 92) value) && negb (has_control value).

Section wire.
Context `{UlidLib}.
Definition canonical_id (value : string) : bool :=
  match ulid_from_string value with
  | Some id => negb (ulid_is_nil id) && str_eqb (ulid_to_string id) value
  | None => false
  end.
Definition actor (value : string) : bool :=
  (len value =? 26)%Z &&
  match ulid_from_string value with
  | Some id => str_eqb (ulid_to_string id) value
  | None => false
  end.

(** ** Sections *)

Definition section_validate {T} (s : NowSectionData T) : bool :=
  let count := Z.of_nat (length (sec_items s)) in
  match sec_availability s with
  | Available =>
      match sec_total s with
      | Some total =>
          (total <=? SAFE_COUNT_MAX)%Z && (count =? Z.min total 20)%Z
          && bool_decide (sec_has_more s = Some (count <? total)%Z)
          && bool_decide (sec_error s = None)
      | None => false
      end
  | NoCorpus =>
      (count =? 0)%Z && bool_decide (sec_total s = Some 0%Z)
      && bool_decide (sec_has_more s = Some false) && bool_decide (sec_error s = None)
  | Failed =>
      (count =? 0)%Z && bool_decide (sec_total s = None) && bool_decide (sec_has_more s = None)
      && negb (bool_decide (sec_error s = None))
  end.
Definition forbid {T} (s : NowSectionData T) : NowSectionData T :=
  {| sec_availability := Failed; sec_items := []; sec_total := None; sec_has_more := None;
     sec_error := Some Forbidden |}.

(** [Option<i128>]'s order: [None] is least. *)
Definition time_ltb (a b : option Z) : bool :=
  match a, b with
  | None, None => false
  | None, Some _ => true
  | Some _, None => false
  | Some a, Some b => (a <? b)%Z
  end.
Definition out_of_order (previous current : option Z * string) : bool :=
  time_ltb previous.1 current.1
  || (bool_decide (previous.1 = current.1) && str_geb previous.2 current.2).
Fixpoint ordered_from {T} (id : T → string) (timestamp : T → option (option Z)) (valid : T → bool)
    (ids : list string) (previous : option (option Z * string)) (rows : list T) : bool :=
  match rows with
  | [] => true
  | row :: rows =>
      match timestamp row with
      | None => false
      | Some time =>
          let current_id := id row in
          if negb (valid row) || bool_decide (current_id ∈ ids) then false else
          if match previous with Some p => out_of_order p (time, current_id) | None => false end
          then false
          else ordered_from id timestamp valid (current_id :: ids) (Some (time, current_id)) rows
      end
  end.
Definition ordered {T} (rows : list T) (id : T → string) (timestamp : T → option (option Z))
    (valid : T → bool) : bool :=
  ordered_from id timestamp valid [] None rows.

(** ** Snapshots *)

Definition later (generated : Z) (value : string) : bool :=
  match milliseconds value with Some n => (generated <? n)%Z | None => false end.
Definition knowledge_time (row : NowKnowledgeData) : option (option Z) :=
  match nk_updated_at row with
  | Some value =>
      decimal value ≫= λ n, if (- 2 ^ 63 <=? n)%Z && (n <=? I64_MAX)%Z then Some (Some n) else None
  | None => Some None
  end.
Definition task_valid (generated : Z) (row : NowTaskData) : bool :=
  canonical_id (nt_id row) && canonical_id (nt_session_id row) && exact_title (nt_title row)
  && actor (nt_owner row) && later generated (nt_lease_expires_at row).
Definition session_valid (generated : Z) (row : NowSessionData) : bool :=
  canonical_id (nse_id row) && exact_title (nse_title row) && actor (nse_owner row)
  && later generated (nse_lease_expires_at row) && (nse_total_tasks row <=? SAFE_COUNT_MAX)%Z
  && (nse_completed_tasks row <=? nse_total_tasks row)%Z.
Definition memory_valid (row : NowMemoryData) : bool :=
  canonical_id (nm_id row) && negb (is_empty (trim (nm_title row))) && actor (nm_updated_by row).
Definition known_time (value : string) : option (option Z) := Some <$> milliseconds value.

Definition snapshot_validate (raw : NowSnapshotData) : bool :=
  match decimal (nsd_generated_at raw) with
  | Some generated =>
      if (0 <=? generated)%Z && (generated <=? MAX_MILLISECONDS_NS + MILLION - 1)%Z then
        let s := nsd_sections raw in
        canonical_id (nsd_project_id raw)
        && section_validate (sd_tasks s) && section_validate (sd_sessions s)
        && section_validate (sd_memories s) && section_validate (sd_knowledge s)
        && ordered (sec_items (sd_tasks s)) nt_id (λ row, known_time (nt_updated_at row))
             (task_valid generated)
        && ordered (sec_items (sd_sessions s)) nse_id (λ row, known_time (nse_updated_at row))
             (session_valid generated)
        && ordered (sec_items (sd_memories s)) nm_id (λ row, known_time (nm_updated_at row)) memory_valid
        && ordered (sec_items (sd_knowledge s)) nk_slug knowledge_time (λ row, valid_slug (nk_slug row))
      else false
  | None => false
  end.

Section decode.
(** [serde_json::from_slice] into the private wire model. *)
Context (from_slice : string → option NowSnapshotData).
Definition decode (data : string) (snapshot_bytes : Z) : result NowSnapshotDataError NowSnapshotData :=
  if (snapshot_bytes <? len data)%Z then Err NS_ReadLimitExceeded else
  match from_slice data with
  | Some raw => if snapshot_validate raw then Ok raw else Err NS_InvalidData
  | None => Err NS_InvalidData
  end.
End decode.

Definition mask_sections (d : NowSnapshotData) (task_read memory_read knowledge_read : bool)
    : NowSnapshotData :=
  let s := nsd_sections d in
  {| nsd_project_id := nsd_project_id d; nsd_generated_at := nsd_generated_at d;
     nsd_sections :=
       {| sd_tasks := if negb task_read then forbid (sd_tasks s) else sd_tasks s;
          sd_sessions := if negb task_read then forbid (sd_sessions s) else sd_sessions s;
          sd_memories := if negb memory_read then forbid (sd_memories s) else sd_memories s;
          sd_knowledge := if negb knowledge_read then forbid (sd_knowledge s) else sd_knowledge s |} |}.
End wire.

(** ** Lemmas: order of rows *)

(** Newest first, unknown times last, ties by increasing identifier. *)
Definition row_before (p q : option Z * string) : Prop :=
  time_ltb q.1 p.1 = true ∨ (p.1 = q.1 ∧ str_lt p.2 q.2).
Lemma time_ltb_trans a b c : time_ltb a b = true → time_ltb b c = true → time_ltb a c = true.
Proof. destruct a, b, c; simpl; try done. rewrite !Z.ltb_lt. lia. Qed.
Lemma time_ltb_irrefl a : time_ltb a a = false.
Proof. destruct a; simpl; [apply Z.ltb_irrefl|done]. Qed.
Lemma time_ltb_total a b : time_ltb a b = true ∨ a = b ∨ time_ltb b a = true.
Proof.
  destruct a, b; simpl; auto. rewrite !Z.ltb_lt. destruct (Z.lt_total z z0) as [?|[->|?]]; auto.
Qed.
#[global] Instance row_before_trans : Transitive row_before.
Proof.
  intros p q r [Hpq|[Hpq Hs]] [Hqr|[Hqr Ht]]; unfold row_before.
  - left. by eapply time_ltb_trans.
  - left. by rewrite <- Hqr.
  - left. by rewrite Hpq.
  - right. split; [congruence|by etrans].
Qed.
Lemma out_of_order_false p q : out_of_order p q = false ↔ row_before p q.
Proof.
  unfold out_of_order, row_before. rewrite orb_false_iff, andb_false_iff.
  rewrite bool_decide_eq_false. unfold str_geb, str_lt. rewrite negb_false_iff. split.
  - intros [Hlt Hor]. destruct (time_ltb_total p.1 q.1) as [?|[Heq|?]]; [congruence| |by left].
    right. split; [done|]. by destruct Hor.
  - intros [Hlt|[Heq Hs]].
    + split.
      * apply not_true_iff_false. intros Hpq. pose proof (time_ltb_trans _ _ _ Hpq Hlt) as Hx.
        by rewrite time_ltb_irrefl in Hx.
      * left. intros Heq. rewrite Heq, time_ltb_irrefl in Hlt. done.
    + rewrite Heq, time_ltb_irrefl. auto.
Qed.

Section ordered.
Context {T : Type} (id : T → string) (timestamp : T → option (option Z)) (valid : T → bool).
Definition row_key (row : T) (k : option Z * string) : Prop :=
  timestamp row = Some k.1 ∧ id row = k.2 ∧ valid row = true.
Lemma ordered_from_spec ids previous rows :
  ordered_from id timestamp valid ids previous rows = true ↔
  ∃ keys, Forall2 row_key rows keys ∧ NoDup keys.*2 ∧ (∀ i, i ∈ keys.*2 → i ∉ ids) ∧
    StronglySorted row_before keys ∧
    match previous with Some p => Forall (row_before p) keys | None => True end.
Proof.
  revert ids previous. induction rows as [|row rows IH]; intros ids previous; simpl.
  { split; [|done]. intros _. exists []. repeat split; try constructor; [by intros i ?%elem_of_nil|].
    by destruct previous. }
  split.
  - destruct (timestamp row) as [time|] eqn:Et; [|done].
    destruct (negb (valid row) || bool_decide (id row ∈ ids)) eqn:Ev; [done|]. bool_to_prop.
    destruct (match previous with Some p => _ | None => false end) eqn:Eo; [done|].
    intros (keys & Hk & Hnd & Hni & Hs & Hf)%IH. exists ((time, id row) :: keys). simpl.
    split; [by constructor|]. split.
    { constructor; [|done]. intros Hin%Hni. apply Hin. left. }
    split.
    { intros i [->|Hi]%elem_of_cons; [done|]. intros Hids. apply (Hni i Hi). by right. }
    split; [by constructor|].
    destruct previous as [p|]; [|done]. apply out_of_order_false in Eo. constructor; [done|].
    eapply Forall_impl; [exact Hf|]. intros k ?. by etrans.
  - intros (keys & Hk & Hnd & Hni & Hs & Hf). inversion Hk as [|? [time i] ? keys' (Ht & Hi & Hv) Hk']; subst.
    simpl in *. subst i. rewrite Ht, Hv. simpl.
    apply NoDup_cons in Hnd as [Hnot Hnd]. inversion Hs as [|?? Hs' Hf']; subst.
    rewrite bool_decide_false by (apply Hni; left).
    assert ((match previous with Some p => out_of_order p (time, id row) | None => false end) = false) as ->.
    { destruct previous as [p|]; [|done]. apply out_of_order_false. by inversion Hf. }
    apply IH. exists keys'. split; [done|]. split; [done|]. split; [|done].
    intros j Hj [->|Hin]%elem_of_cons; [done|]. apply (Hni j); [by right|done].
Qed.
End ordered.

(** ** Properties *)

(** The rows of a section are accepted exactly when each row is valid, no
    identifier occurs twice, and the rows are strictly ordered: newest first,
    unknown times last, equal times by increasing identifier. *)
Theorem ordered_exact {T} (rows : list T) id timestamp valid :
  ordered rows id timestamp valid = true ↔
  ∃ keys, Forall2 (row_key id timestamp valid) rows keys ∧ NoDup keys.*2 ∧
    StronglySorted row_before keys.
Proof.
  unfold ordered. rewrite ordered_from_spec. split.
  - intros (keys & ? & ? & _ & ? & _). by eauto.
  - intros (keys & ? & ? & ?). exists keys. repeat split; try done. intros i _. apply not_elem_of_nil.
Qed.

(** A decimal time is accepted exactly in its canonical spelling: the text
    that printing the 128-bit number gives, with no sign, zero or space to
    spare; so equal times have equal texts. *)
Theorem decimal_canonical value n :
  decimal value = Some n ↔ value = print_int n ∧ (I128_MIN ≤ n ≤ I128_MAX)%Z.
Proof.
  unfold decimal. rewrite bind_Some. split.
  - intros (m & Hp & Hm). destruct (str_eqb (print_int m) value) eqn:E; [|done]. injection Hm as ->.
    apply str_eqb_eq in E as <-. split; [done|]. by eapply parse_int_bounds.
  - intros [-> Hb]. exists n. split; [by apply parse_print_int|]. by rewrite str_eqb_refl.
Qed.

Section mask.
Context `{UlidLib}.
Lemma section_validate_forbid {T} (s : NowSectionData T) : section_validate (forbid s) = true.
Proof. done. Qed.

(** Masking only removes: masking twice is masking with both masks, so a
    later mask never restores a section; a selected section is unchanged, a
    deselected one becomes the forbidden section whatever it held; and a valid
    snapshot stays valid. *)
Theorem mask_sections_monotone d t m k t' m' k' :
  mask_sections (mask_sections d t m k) t' m' k' = mask_sections d (t && t') (m && m') (k && k') ∧
  (t = false → sd_tasks (nsd_sections (mask_sections d t m k)) = forbid (sd_tasks (nsd_sections d)) ∧
               sd_sessions (nsd_sections (mask_sections d t m k)) = forbid (sd_sessions (nsd_sections d))) ∧
  mask_sections d true true true = d ∧
  (snapshot_validate d = true → snapshot_validate (mask_sections d t m k) = true).
Proof.
  split; [by destruct t, m, k, t', m', k'|]. split; [by intros ->|].
  split; [by destruct d as [? ? []]|].
  unfold snapshot_validate, mask_sections. simpl.
  destruct (decimal (nsd_generated_at d)) as [g|]; [|done]. destruct (_ && _); [|done].
  intros Hv. repeat (apply andb_true_iff in Hv as [Hv ?]).
  rewrite !andb_true_iff.
  destruct t, m, k; simpl; repeat split; auto using section_validate_forbid.
Qed.
End mask.
