(* ===== verification/ProjectAuthorization.v ===== *)
(** * Project and presence authorization

    crates/broker-control/src/project_authorization.rs,
    broker_project_authorization.rs, presence_authorization.rs and
    broker_presence_authorization.rs with the operations of the same names under
    service/: authenticate the caller, read the current grants, decide.  The
    local and the signed-token authorizers differ in the proof they hold and in
    their error type, so each is written out as the code has it. *)

From S2P Require Import Prelude RustStr Order Control LocalBearer BrokerAccess.
From S2P Require Import InstanceRegistry ResourceGrants Session Identity.
From S2P Require Import ResourcePolicy.

(** ** Capabilities *)

Inductive ProjectResourceModule := PM_Task | PM_Memory | PM_Knowledge | PM_Ast | PM_Hub.
Inductive ProjectResourceAction := PX_Read | PX_Write.
Definition module_as_str (m : ProjectResourceModule) : string :=
  match m with
  | PM_Task => "task" | PM_Memory => "memory" | PM_Knowledge => "knowledge" | PM_Ast => "ast" | PM_Hub => "hub"
  end.
Definition capability (m : ProjectResourceModule) (action : ProjectResourceAction) : option string :=
  match m, action with
  | PM_Task, PX_Read => Some "task:read"
  | PM_Task, PX_Write => Some "task:write"
  | PM_Memory, PX_Read => Some "memory:read"
  | PM_Memory, PX_Write => Some "memory:write"
  | PM_Knowledge, PX_Read => Some "knowledge:read"
  | PM_Knowledge, PX_Write => Some "knowledge:write"
  | PM_Ast, PX_Read => Some "ast:read"
  | PM_Ast, PX_Write => Some "ast:write"
  | PM_Hub, PX_Read => Some "hub"
  | PM_Hub, PX_Write => None
  end.
Definition action_as_str (a : ProjectResourceAction) : string :=
  match a with PX_Read => "read" | PX_Write => "write" end.
Inductive PresenceCapability := PresenceRead | PresencePublish.
#[global] Instance PresenceCapability_eq_dec : EqDecision PresenceCapability.
Proof. solve_decision. Defined.
Definition presence_as_str (cap : PresenceCapability) : string :=
  match cap with PresenceRead => "presence:read" | PresencePublish => "presence:publish" end.

(** ** Errors *)

Inductive ProjectAuthorizationError :=
| PA_InvalidProject | PA_InvalidOperation | PA_InvalidPolicy | PA_Forbidden
| PA_Authentication (e : LocalBearerVerificationError) | PA_Grants (e : ResourceGrantReadError)
| PA_Control (e : ControlError).
Definition PA_from_bearer (e : LocalBearerVerificationError) : ProjectAuthorizationError :=
  match e with LBV_Control e => PA_Control e | e => PA_Authentication e end.
Definition PA_from_grants (e : ResourceGrantReadError) : ProjectAuthorizationError :=
  match e with RG_Control e => PA_Control e | e => PA_Grants e end.
Definition PA_from_policy (e : ResourcePolicyError) : ProjectAuthorizationError :=
  match e with RP_InvalidPolicy => PA_InvalidPolicy | RP_Deadline => PA_Control CE_Deadline end.

Inductive BrokerProjectAuthorizationError :=
| BPA_InvalidProject | BPA_InvalidOperation | BPA_InvalidPolicy | BPA_Forbidden
| BPA_Authentication (e : BrokerAccessError) | BPA_Grants (e : ResourceGrantReadError)
| BPA_Control (e : ControlError).
Definition BPA_from_access (e : BrokerAccessError) : BrokerProjectAuthorizationError :=
  match e with BA_Deadline => BPA_Control CE_Deadline | e => BPA_Authentication e end.
Definition BPA_from_grants (e : ResourceGrantReadError) : BrokerProjectAuthorizationError :=
  match e with RG_Control e => BPA_Control e | e => BPA_Grants e end.
Definition BPA_from_policy (e : ResourcePolicyError) : BrokerProjectAuthorizationError :=
  match e with RP_InvalidPolicy => BPA_InvalidPolicy | RP_Deadline => BPA_Control CE_Deadline end.

Inductive PresenceAuthorizationError :=
| PR_InvalidProject | PR_InvalidPolicy | PR_Forbidden
| PR_Authentication (e : LocalBearerVerificationError) | PR_Grants (e : ResourceGrantReadError)
| PR_Control (e : ControlError).
Definition PR_from_bearer (e : LocalBearerVerificationError) : PresenceAuthorizationError :=
  match e with LBV_Control e => PR_Control e | e => PR_Authentication e end.
Definition PR_from_grants (e : ResourceGrantReadError) : PresenceAuthorizationError :=
  match e with RG_Control e => PR_Control e | e => PR_Grants e end.
Definition PR_from_policy (e : ResourcePolicyError) : PresenceAuthorizationError :=
  match e with RP_InvalidPolicy => PR_InvalidPolicy | RP_Deadline => PR_Control CE_Deadline end.

Inductive BrokerPresenceAuthorizationError :=
| BP_InvalidProject | BP_InvalidPolicy | BP_Forbidden
| BP_Authentication (e : BrokerAccessError) | BP_Grants (e : ResourceGrantReadError)
| BP_Control (e : ControlError).
Definition BP_from_access (e : BrokerAccessError) : BrokerPresenceAuthorizationError :=
  match e with BA_Deadline => BP_Control CE_Deadline | e => BP_Authentication e end.
Definition BP_from_grants (e : ResourceGrantReadError) : BrokerPresenceAuthorizationError :=
  match e with RG_Control e => BP_Control e | e => BP_Grants e end.
Definition BP_from_policy (e : ResourcePolicyError) : BrokerPresenceAuthorizationError :=
  match e with RP_InvalidPolicy => BP_InvalidPolicy | RP_Deadline => BP_Control CE_Deadline end.

(** ** Authorizers *)

Section authorizers.
Context `{UlidLib, GlobLib, JwtLib}.

Record AuthorizedLocalProjectAccess := {
  alp_principal : VerifiedLocalBearer;
  alp_project_id : string;
  alp_module : ProjectResourceModule;
  alp_action : ProjectResourceAction;
  alp_policy_revision : Z;
  alp_capability : string;
}.
Record AuthorizedBrokerProjectAccess := {
  abp_principal : VerifiedBrokerAccess;
  abp_project_id : string;
  abp_module : ProjectResourceModule;
  abp_action : ProjectResourceAction;
  abp_policy_revision : Z;
  abp_capability : string;
}.
Record AuthorizedLocalPresence := {
  alr_principal : VerifiedLocalBearer;
  alr_project_id : string;
  alr_capability : PresenceCapability;
  alr_policy_revision : Z;
}.
Record AuthorizedBrokerPresence := {
  abr_principal : VerifiedBrokerAccess;
  abr_project_id : string;
  abr_capability : PresenceCapability;
  abr_policy_revision : Z;
}.

(** The SQL reads of the store (the credential row and the grants), the token
    digest and the store's operation budget. *)
Context (digest : LocalBearerKind → string → option string)
        (read_state : string → LocalBearerKind → Z
                      → M clock LocalBearerStateError (option LocalBearerState))
        (read_grants : Z → M clock ResourceGrantReadError ResourceGrantSnapshot)
        (operation_timeout : Z).

Definition authorize_local_project (audience raw : string) (required_scopes : list string)
    (module : ProjectResourceModule) (action : ProjectResourceAction) (project_id : string)
    (original : Z) : M clock ProjectAuthorizationError AuthorizedLocalProjectAccess :=
  let? stop := map_err PA_Control (bounded_deadline original operation_timeout) in
  let? cap := lift_result (ok_or (capability module action) PA_InvalidOperation) in
  if negb (canonical_project_id project_id) then fail PA_InvalidProject else
  let? principal := map_err PA_from_bearer
    (verify_local_bearer digest read_state operation_timeout audience raw required_scopes stop) in
  let? snapshot := map_err PA_from_grants (read_grants stop) in
  let? policy := map_err PA_from_policy (compile snapshot stop) in
  let? allowed := map_err PA_from_policy
    (allows policy (current_local_user principal) cap project_id stop) in
  let? now := map_err PA_Control now_micros in
  let? principal := map_err PA_from_bearer (vl_finish principal now) in
  do? map_err PA_from_policy (check_deadline stop) in
  if negb allowed then fail PA_Forbidden else
  ret {| alp_principal := principal; alp_project_id := project_id; alp_module := module;
         alp_action := action; alp_policy_revision := gs_revision snapshot; alp_capability := cap |}.

Definition authorize_broker_project (verifier : BrokerAccessVerifier) (raw : string)
    (required_scopes : list string) (module : ProjectResourceModule) (action : ProjectResourceAction)
    (project_id : string) (original : Z)
    : M clock BrokerProjectAuthorizationError AuthorizedBrokerProjectAccess :=
  let? stop := map_err BPA_Control (bounded_deadline original operation_timeout) in
  let? cap := lift_result (ok_or (capability module action) BPA_InvalidOperation) in
  if negb (canonical_project_id project_id) then fail BPA_InvalidProject else
  let? principal := map_err BPA_from_access (verify_access verifier raw required_scopes stop) in
  let? snapshot := map_err BPA_from_grants (read_grants stop) in
  let? policy := map_err BPA_from_policy (compile snapshot stop) in
  let? allowed := map_err BPA_from_policy (allows_broker policy principal cap project_id stop) in
  do? map_err BPA_from_access (vb_check principal) in
  do? map_err BPA_from_policy (check_deadline stop) in
  if negb allowed then fail BPA_Forbidden else
  ret {| abp_principal := principal; abp_project_id := project_id; abp_module := module;
         abp_action := action; abp_policy_revision := gs_revision snapshot; abp_capability := cap |}.

(** The two reads are the only suspension points, so the enclosing
    [timeout_at] shows up as a deadline error of one of them. *)
Definition authorize_local_presence (audience raw : string) (required_scopes : list string)
    (cap : PresenceCapability) (project_id : string) (caller : Z)
    : M clock PresenceAuthorizationError AuthorizedLocalPresence :=
  let? stop := map_err PR_Control (bounded_deadline caller operation_timeout) in
  if negb (canonical_project_id project_id) then fail PR_InvalidProject else
  let? principal := map_err PR_from_bearer
    (verify_local_bearer digest read_state operation_timeout audience raw required_scopes stop) in
  let? snapshot := map_err PR_from_grants (read_grants stop) in
  let? policy := map_err PR_from_policy (compile snapshot stop) in
  let? allowed := map_err PR_from_policy
    (allows policy (current_local_user principal) (presence_as_str cap) project_id stop) in
  let? now := map_err PR_Control now_micros in
  let? principal := map_err PR_from_bearer (vl_finish principal now) in
  do? map_err PR_from_policy (check_deadline stop) in
  if negb allowed then fail PR_Forbidden else
  ret {| alr_principal := principal; alr_project_id := project_id; alr_capability := cap;
         alr_policy_revision := gs_revision snapshot |}.

Definition authorize_broker_presence (verifier : BrokerAccessVerifier) (raw : string)
    (required_scopes : list string) (cap : PresenceCapability) (project_id : string) (original : Z)
    : M clock BrokerPresenceAuthorizationError AuthorizedBrokerPresence :=
  let? stop := map_err BP_Control (bounded_deadline original operation_timeout) in
  if negb (canonical_project_id project_id) then fail BP_InvalidProject else
  let? principal := map_err BP_from_access (verify_access verifier raw required_scopes stop) in
  let? snapshot := map_err BP_from_grants (read_grants stop) in
  let? policy := map_err BP_from_policy (compile snapshot stop) in
  let? allowed := map_err BP_from_policy
    (allows_broker policy principal (presence_as_str cap) project_id stop) in
  do? map_err BP_from_access (vb_check principal) in
  do? map_err BP_from_policy (check_deadline stop) in
  if negb allowed then fail BP_Forbidden else
  ret {| abr_principal := principal; abr_project_id := project_id; abr_capability := cap;
         abr_policy_revision := gs_revision snapshot |}.

(** ** Lemmas *)

(** A snapshot's decision, read off its rules. *)
Definition decides (snapshot : ResourceGrantSnapshot) (user : Principal) (cap project : string)
    (allowed : bool) : Prop :=
  forallb rule_valid (gs_rules snapshot) = true ∧
  existsb (rule_allows user cap project) (gs_rules snapshot) = allowed.
(** The decision of a compiled policy, wherever it is asked for. *)
Lemma compiled_decides snapshot user cap project stop c1 policy c2 c allowed c3 :
  compile snapshot stop c1 = (Ok policy, c2) →
  allows_principal policy user cap project stop c = (Ok allowed, c3) →
  decides snapshot user cap project allowed.
Proof.
  intros Hc Ha. pose proof (guarded_ok _ _ _ _ _ _ _ (guarded_compile snapshot stop) Hc) as Hm.
  apply ok_or_ok in Hm.
  pose proof (compiled_or_invalid _ _ (gs_rules snapshot) compile_rule_valid) as Hv. rewrite Hm in Hv.
  split; [done|]. pose proof (guarded_ok _ _ _ _ _ _ _ (guarded_any_rule _ _ _) Ha) as [= <-].
  symmetry. eapply mapM_existsb; [exact Hm|].
  intros rule cr Hcr. destruct (compile_rule_allows user cap rule cr Hcr) as (Hp & Hs & Hcap).
  unfold rule_allows. by rewrite Hs, Hcap, Hp.
Qed.
Lemma compile_invalid snapshot stop c c' :
  compile snapshot stop c = (Err RP_InvalidPolicy, c') → forallb rule_valid (gs_rules snapshot) = false.
Proof.
  intros Hc. destruct (guarded_compile snapshot stop _ _ _ Hc) as [_ [[_ Hx]|[_ ?]]]; [|done].
  pose proof (compiled_or_invalid _ _ (gs_rules snapshot) compile_rule_valid) as Hv.
  by destruct (mapM _ _).
Qed.
Lemma allows_no_invalid policy user cap project stop c c' :
  allows_principal policy user cap project stop c ≠ (Err RP_InvalidPolicy, c').
Proof. intros Hr. by destruct (guarded_any_rule _ _ _ _ _ _ Hr) as [_ [[_ ?]|[_ ?]]]. Qed.
Lemma bounded_deadline_ok caller budget c stop c' :
  bounded_deadline caller budget c = (Ok stop, c') →
  (mono_at c (tick c) < caller)%Z ∧ (stop ≤ caller)%Z ∧ (stop ≤ mono_at c (tick c) + budget)%Z.
Proof.
  unfold bounded_deadline, checked_add_time. intros Hr. invert_run Hr. bool_to_prop.
  case_hyp C0; [|done]. injection C0 as <-. subst. lia.
Qed.

(** What one operation observed: the caller authenticated under the bounded
    deadline, then the grants read under it. *)
Definition observed_local (audience raw : string) (required : list string) (original : Z)
    (v : VerifiedLocalBearer) (snapshot : ResourceGrantSnapshot) (stop : Z) : Prop :=
  (stop ≤ original)%Z ∧ ∃ c1 c2 c3,
    verify_local_bearer digest read_state operation_timeout audience raw required stop c1 = (Ok v, c2) ∧
    read_grants stop c2 = (Ok snapshot, c3).
Definition observed_broker (verifier : BrokerAccessVerifier) (raw : string) (required : list string)
    (original : Z) (v : VerifiedBrokerAccess) (snapshot : ResourceGrantSnapshot) (stop : Z) : Prop :=
  (stop ≤ original)%Z ∧ ∃ c1 c2 c3,
    verify_access verifier raw required stop c1 = (Ok v, c2) ∧
    read_grants stop c2 = (Ok snapshot, c3).
Lemma capability_none module action :
  capability module action = None → module = PM_Hub ∧ action = PX_Write.
Proof. by destruct module, action. Qed.

(** ** Properties *)

(** A local caller is granted a project operation exactly on the grants
    read in that operation: success means the capability of the module and the
    action is granted for this project by a rule of a valid policy to the user
    the bearer was verified for, and the proof keeps that user, its expiries,
    the project, the capability and the revision, all before the deadline;
    [Forbidden] means no rule of a valid policy grants it, [InvalidPolicy] that
    a rule is invalid, [InvalidOperation] that the operation is a Hub write. *)
Theorem local_project_exact audience raw required module action project original c x c' :
  authorize_local_project audience raw required module action project original c = (x, c') →
  match x with
  | Ok a => ∃ v snapshot stop,
      observed_local audience raw required original v snapshot stop ∧
      canonical_project_id project = true ∧ capability module action = Some (alp_capability a) ∧
      decides snapshot (principal_local (vl_user v)) (alp_capability a) project true ∧
      vl_user (alp_principal a) = vl_user v ∧
      vl_authentication_expiry (alp_principal a) = vl_authentication_expiry v ∧
      alp_project_id a = project ∧ alp_policy_revision a = gs_revision snapshot ∧
      ∃ cf, (mono_at cf (tick cf) < stop)%Z ∧ c' = advance cf
  | Err PA_Forbidden => ∃ v snapshot stop cap,
      observed_local audience raw required original v snapshot stop ∧
      capability module action = Some cap ∧
      decides snapshot (principal_local (vl_user v)) cap project false
  | Err PA_InvalidPolicy => ∃ v snapshot stop,
      observed_local audience raw required original v snapshot stop ∧
      forallb rule_valid (gs_rules snapshot) = false
  | Err PA_InvalidOperation => module = PM_Hub ∧ action = PX_Write
  | Err PA_InvalidProject => canonical_project_id project = false
  | Err _ => True
  end.
Proof.
  unfold authorize_local_project. intros Hr.
  run_cases Hr; [|done]. apply bounded_deadline_ok in R as (_ & Hstop & _).
  run_cases Hr. 2: { unfold lift_result in R. destruct (capability module action) eqn:E; simplify_eq/=.
    by apply capability_none. }
  destruct (canonical_project_id project) eqn:Ep; simpl in Hr; [|by injection Hr as <- <-].
  run_cases Hr; [|by destruct err]. run_cases Hr; [|by destruct err].
  assert (observed_local audience raw required original a1 a2 a) as Hobs by (split; eauto).
  run_cases Hr. 2: { destruct err; [|done]. apply compile_invalid in R2. simpl. by eauto 10. }
  run_cases Hr. 2: { destruct err; [|done]. by apply allows_no_invalid in R3. }
  pose proof (compiled_decides _ _ _ _ _ _ _ _ _ _ _ R2 R3) as Hd.
  run_cases Hr; [|done]. run_cases Hr; [|by destruct err].
  apply vl_finish_ok in R5 as (-> & _). run_cases Hr; [|by apply check_deadline_err in R5 as ->].
  destruct a6, a4; simpl in Hr; injection Hr as <- <-; [|by eauto 10].
  apply check_deadline_ok in R5 as [? ->].
  exists a1, a2, a. simpl. do 8 (split; [done|]). by eauto.
Qed.

(** The same for a signed access token. *)
Theorem broker_project_exact verifier raw required module action project original c x c' :
  authorize_broker_project verifier raw required module action project original c = (x, c') →
  match x with
  | Ok a => ∃ snapshot stop,
      observed_broker verifier raw required original (abp_principal a) snapshot stop ∧
      canonical_project_id project = true ∧ capability module action = Some (abp_capability a) ∧
      decides snapshot (principal_broker (abp_principal a)) (abp_capability a) project true ∧
      abp_project_id a = project ∧ abp_policy_revision a = gs_revision snapshot ∧
      ∃ cf, (mono_at cf (tick cf) < stop)%Z ∧ c' = advance cf
  | Err BPA_Forbidden => ∃ v snapshot stop cap,
      observed_broker verifier raw required original v snapshot stop ∧
      capability module action = Some cap ∧
      decides snapshot (principal_broker v) cap project false
  | Err BPA_InvalidPolicy => ∃ v snapshot stop,
      observed_broker verifier raw required original v snapshot stop ∧
      forallb rule_valid (gs_rules snapshot) = false
  | Err BPA_InvalidOperation => module = PM_Hub ∧ action = PX_Write
  | Err BPA_InvalidProject => canonical_project_id project = false
  | Err _ => True
  end.
Proof.
  unfold authorize_broker_project. intros Hr.
  run_cases Hr; [|done]. apply bounded_deadline_ok in R as (_ & Hstop & _).
  run_cases Hr. 2: { unfold lift_result in R. destruct (capability module action) eqn:E; simplify_eq/=.
    by apply capability_none. }
  destruct (canonical_project_id project) eqn:Ep; simpl in Hr; [|by injection Hr as <- <-].
  run_cases Hr; [|by destruct err]. run_cases Hr; [|by destruct err].
  assert (observed_broker verifier raw required original a1 a2 a) as Hobs by (split; eauto).
  run_cases Hr. 2: { destruct err; [|done]. apply compile_invalid in R2. simpl. by eauto 10. }
  run_cases Hr. 2: { destruct err; [|done]. by apply allows_no_invalid in R3. }
  pose proof (compiled_decides _ _ _ _ _ _ _ _ _ _ _ R2 R3) as Hd.
  run_cases Hr; [|by destruct err]. run_cases Hr; [|by apply check_deadline_err in R5 as ->].
  destruct a6, a4; simpl in Hr; injection Hr as <- <-; [|by eauto 10].
  apply check_deadline_ok in R5 as [? ->].
  exists a2, a. simpl. do 6 (split; [done|]). by eauto.
Qed.

(** A presence decision of a local caller: success means a rule of a valid
    policy, read in the operation, grants exactly the requested presence
    capability on this project to the verified user; [Forbidden] that none
    does; [InvalidPolicy] that a rule is invalid. *)
Theorem local_presence_exact audience raw required cap project caller c x c' :
  authorize_local_presence audience raw required cap project caller c = (x, c') →
  match x with
  | Ok a => ∃ v snapshot stop,
      observed_local audience raw required caller v snapshot stop ∧
      canonical_project_id project = true ∧
      decides snapshot (principal_local (vl_user v)) (presence_as_str cap) project true ∧
      vl_user (alr_principal a) = vl_user v ∧
      vl_authentication_expiry (alr_principal a) = vl_authentication_expiry v ∧
      alr_project_id a = project ∧ alr_capability a = cap ∧
      alr_policy_revision a = gs_revision snapshot ∧
      ∃ cf, (mono_at cf (tick cf) < stop)%Z ∧ c' = advance cf
  | Err PR_Forbidden => ∃ v snapshot stop,
      observed_local audience raw required caller v snapshot stop ∧
      decides snapshot (principal_local (vl_user v)) (presence_as_str cap) project false
  | Err PR_InvalidPolicy => ∃ v snapshot stop,
      observed_local audience raw required caller v snapshot stop ∧
      forallb rule_valid (gs_rules snapshot) = false
  | Err PR_InvalidProject => canonical_project_id project = false
  | Err _ => True
  end.
Proof.
  unfold authorize_local_presence. intros Hr.
  run_cases Hr; [|done]. apply bounded_deadline_ok in R as (_ & Hstop & _).
  destruct (canonical_project_id project) eqn:Ep; simpl in Hr; [|by injection Hr as <- <-].
  run_cases Hr; [|by destruct err]. run_cases Hr; [|by destruct err].
  assert (observed_local audience raw required caller a0 a1 a) as Hobs by (split; eauto).
  run_cases Hr. 2: { destruct err; [|done]. apply compile_invalid in R1. simpl. by eauto 10. }
  run_cases Hr. 2: { destruct err; [|done]. by apply allows_no_invalid in R2. }
  pose proof (compiled_decides _ _ _ _ _ _ _ _ _ _ _ R1 R2) as Hd.
  run_cases Hr; [|done]. run_cases Hr; [|by destruct err].
  apply vl_finish_ok in R4 as (-> & _). run_cases Hr; [|by apply check_deadline_err in R4 as ->].
  destruct a5, a3; simpl in Hr; injection Hr as <- <-; [|by eauto 10].
  apply check_deadline_ok in R4 as [? ->].
  exists a0, a1, a. simpl. do 8 (split; [done|]). by eauto.
Qed.
End authorizers.

#[local] Existing Instance sample_ulid_lib.
#[local] Existing Instance sample_jwt_lib.
(** One rule that gives the members of a team the task module of one project,
    and presence reading. *)
Definition sample_project_glob : GlobLib :=
  {| regex := string; glob_regex := λ _ p, Some p; regex_new := Some; is_match := str_eqb |}.
#[local] Existing Instance sample_project_glob.
Definition sample_project_snapshot : ResourceGrantSnapshot :=
  {| gs_revision := 7; gs_updated_at := 0;
     gs_rules := [{| gr_id := "a"; gr_name := ""; gr_access_kind := "team"; gr_principal := "dev";
                     gr_s3_route := ""; gr_capabilities := ["presence:read"; "task:read"];
                     gr_projects := [sample_project]; gr_s3_operations := []; gr_s3_prefixes := [];
                     gr_created_at := 0; gr_updated_at := 0 |}] |}.
Definition local_sample module action :=
  authorize_local_project (λ _ _, Some "digest") (λ _ _ _, ret (Some sample_state))
    (λ _, ret sample_project_snapshot) 1000 "aud" "gb_at_x" [] module action sample_project 500 sample_clock.
Lemma local_project_exact_witness :
  (∃ a c', local_sample PM_Task PX_Read = (Ok a, c') ∧ alp_policy_revision a = 7%Z ∧
     ∃ v snapshot, decides snapshot (principal_local (vl_user v)) (alp_capability a) sample_project true) ∧
  (∃ c', local_sample PM_Task PX_Write = (Err PA_Forbidden, c') ∧
     ∃ v snapshot, decides snapshot (principal_local (vl_user v)) "task:write" sample_project false).
Proof.
  split.
  - destruct (local_sample PM_Task PX_Read) as [[a|e] c'] eqn:E; [|vm_compute in E; discriminate E].
    exists a, c'. split; [done|]. split; [vm_compute in E; by simplify_eq|].
    unfold local_sample in E.
    destruct (local_project_exact _ _ _ _ _ _ _ _ _ _ _ _ _ _ E) as (v & sn & _ & _ & _ & _ & Hd & _).
    by exists v, sn.
  - destruct (local_sample PM_Task PX_Write) as [x c'] eqn:E. unfold local_sample in E.
    pose proof (local_project_exact _ _ _ _ _ _ _ _ _ _ _ _ _ _ E) as Hx.
    assert (x = Err PA_Forbidden) as -> by (apply (f_equal fst) in E; vm_compute in E; by symmetry).
    exists c'. split; [done|]. destruct Hx as (v & sn & _ & cap & _ & [= <-] & Hd). by exists v, sn.
Defined.
Lemma broker_project_exact_witness :
  ∃ a c', authorize_broker_project (λ _, ret sample_project_snapshot) 1000 sample_verifier "h.p.s" []
            PM_Task PX_Read sample_project 500 sample_jwt_clock = (Ok a, c') ∧
    ∃ snapshot, decides snapshot (principal_broker (abp_principal a)) (abp_capability a) sample_project true.
Proof.
  destruct (authorize_broker_project (λ _, ret sample_project_snapshot) 1000 sample_verifier "h.p.s" []
            PM_Task PX_Read sample_project 500 sample_jwt_clock) as [[a|e] c'] eqn:E;
    [|vm_compute in E; discriminate E].
  exists a, c'. split; [done|].
  destruct (broker_project_exact _ _ _ _ _ _ _ _ _ _ _ _ E) as (sn & _ & _ & _ & _ & Hd & _). by exists sn.
Defined.
Lemma local_presence_exact_witness :
  ∃ a c', authorize_local_presence (λ _ _, Some "digest") (λ _ _ _, ret (Some sample_state))
    (λ _, ret sample_project_snapshot) 1000 "aud" "gb_at_x" [] PresenceRead sample_project 500 sample_clock
      = (Ok a, c') ∧ alr_capability a = PresenceRead.
Proof.
  destruct (authorize_local_presence (λ _ _, Some "digest") (λ _ _ _, ret (Some sample_state))
    (λ _, ret sample_project_snapshot) 1000 "aud" "gb_at_x" [] PresenceRead sample_project 500 sample_clock)
    as [[a|e] c'] eqn:E; [|vm_compute in E; discriminate E].
  exists a, c'. split; [done|].
  by destruct (local_presence_exact _ _ _ _ _ _ _ _ _ _ _ _ _ E) as (_ & _ & _ & _ & _ & _ & _ & _ & _ & Hc & _).
Defined.
