(* ===== verification/Instances.v ===== *)
(** * The stored inventories of installations

    crates/broker-control/src/instance_read.rs (the codec of a stored
    inventory) and service/instances.rs (the transaction that replaces one).
    The two tables are finite maps under their primary keys; a statement of the
    transaction may fail and the operation may be cut off at any suspension
    point, as an explicit schedule of faults decides. *)

From stdpp Require Import gmap.
From S2P Require Import Prelude RustStr Order Control Sql InstanceRegistry.

(** ** The codec *)

Inductive InstanceReadError :=
| RE_InvalidLimits | RE_InvalidInstanceId | RE_ReadLimitExceeded | RE_MalformedStored
| RE_Control (e : ControlError).
Record StoredInstanceInventory := {
  si_owner : InstanceOwner;
  si_inventory : InstanceInventory;
  si_created_at : Z;
  si_updated_at : Z;
}.
Record StoredVersion := { sv_project_id : string; sv_position : Z; sv_version : string }.
#[global] Instance StoredVersion_eq_dec : EqDecision StoredVersion.
Proof. solve_decision. Defined.
Record StoredParent := {
  sp_instance_id : string;
  sp_owner_issuer : string;
  sp_owner_subject : string;
  sp_created_at : Z;
  sp_updated_at : Z;
  sp_versions : list StoredVersion;
}.

(** [i64::try_from(n).ok().and_then(|p| p.checked_add(1))] *)
Definition next_position (n : nat) : option Z :=
  if (Z.of_nat n <? I64_MAX)%Z then Some (Z.of_nat n + 1)%Z else None.
Definition malformed {E A} (r : result E A) : result InstanceReadError A :=
  rmap_err (λ _, RE_MalformedStored) r.

Section codec.
Context `{UlidLib}.

(** The loop state: finished projects, the current project and its versions. *)
Definition decode_row (acc : list InstanceProjectVersions * string * list string) (row : StoredVersion)
    : result InstanceReadError (list InstanceProjectVersions * string * list string) :=
  let '(projects, project, versions) := acc in
  if negb (canonical_project_id (sv_project_id row)) then Err RE_MalformedStored else
  let! acc :=
    if negb (str_eqb (sv_project_id row) project) then
      if negb (is_empty project) then
        if negb (str_ltb project (sv_project_id row)) then Err RE_MalformedStored else
        let! done := malformed (InstanceProjectVersions_new project versions) in
        Ok (projects ++ [done], sv_project_id row, [])
      else Ok (projects, sv_project_id row, versions)
    else Ok (projects, project, versions) in
  let '(projects, project, versions) := acc in
  if negb (bool_decide (next_position (length versions) = Some (sv_position row)))
     || match last versions with Some v => str_geb v (sv_version row) | None => false end
  then Err RE_MalformedStored
  else Ok (projects, project, versions ++ [sv_version row]).
Fixpoint decode_rows (acc : list InstanceProjectVersions * string * list string)
    (rows : list StoredVersion)
    : result InstanceReadError (list InstanceProjectVersions * string * list string) :=
  match rows with
  | [] => Ok acc
  | row :: rows => let! acc := decode_row acc row in decode_rows acc rows
  end.

Definition decode_finish (acc : list InstanceProjectVersions * string * list string)
    : result InstanceReadError (list InstanceProjectVersions) :=
  let '(projects, project, versions) := acc in
  if negb (is_empty project) then
    let! done := malformed (InstanceProjectVersions_new project versions) in
    Ok (projects ++ [done])
  else if negb (bool_decide (versions = [])) then Err RE_MalformedStored
  else Ok projects.

Section decode.
(** [serde_json::from_str] into the stored form. *)
Context (from_str : string → option StoredParent).
Definition decode_inventory (expected json : string)
    : result InstanceReadError StoredInstanceInventory :=
  let! stored := ok_or (from_str json) RE_MalformedStored in
  if negb (str_eqb (sp_instance_id stored) expected) then Err RE_MalformedStored else
  let! _ := ok_or (TimestampMicros_new (sp_created_at stored)) RE_MalformedStored in
  let! _ := ok_or (TimestampMicros_new (sp_updated_at stored)) RE_MalformedStored in
  let! owner := malformed (InstanceOwner_new (sp_owner_issuer stored) (sp_owner_subject stored)) in
  let! acc := decode_rows ([], "", []) (sp_versions stored) in
  let! projects := decode_finish acc in
  let! inventory := malformed (InstanceInventory_new (sp_instance_id stored) projects) in
  Ok {| si_owner := owner; si_inventory := inventory; si_created_at := sp_created_at stored;
        si_updated_at := sp_updated_at stored |}.
End decode.

(** ** The rows of an inventory *)

Definition project_rows (p : InstanceProjectVersions) : list StoredVersion :=
  imap (λ i v, {| sv_project_id := ipv_project_id p; sv_position := Z.of_nat i + 1; sv_version := v |})
    (ipv_versions p).
Definition inventory_rows (projects : list InstanceProjectVersions) : list StoredVersion :=
  projects ≫= project_rows.

(** ** Lemmas: the codec *)

Lemma str_ltb_lt a b : str_ltb a b = true ↔ lt_ord a b.
Proof. unfold str_ltb, lt_ord. simpl. by destruct (str_cmp a b). Qed.
Lemma str_geb_lt a b : str_geb a b = false ↔ lt_ord a b.
Proof. unfold str_geb. rewrite negb_false_iff. apply str_ltb_lt. Qed.
Lemma snoc_sorted (l : list string) v :
  StronglySorted lt_ord (l ++ [v]) ↔ StronglySorted lt_ord l ∧ Forall (λ w, lt_ord w v) l.
Proof.
  induction l as [|x l IH]; simpl.
  { split; [|intros; repeat constructor]. intros _. split; constructor. }
  split.
  - intros Hs. inversion Hs as [|?? Hs' Hf]; subst. apply IH in Hs' as [Hs' Hl].
    rewrite Forall_app, Forall_singleton in Hf. destruct Hf as [Hf Hv].
    split; by constructor.
  - intros [Hs Hl]. inversion Hs as [|?? Hs' Hf]; subst. apply Forall_cons in Hl as [Hx Hl].
    constructor; [by apply IH|]. apply Forall_app. split; [done|by apply Forall_singleton].
Qed.
Lemma last_below (l : list string) v :
  StronglySorted lt_ord l →
  match last l with Some w => str_geb w v | None => false end = false ↔ Forall (λ w, lt_ord w v) l.
Proof.
  intros Hs. destruct (last l) as [w|] eqn:Ew.
  - rewrite str_geb_lt. apply last_Some in Ew as [l' ->]. apply snoc_sorted in Hs as [_ Hf].
    rewrite Forall_app, Forall_singleton. split; [|by intros [_ ?]].
    intros Hlt. split; [|done]. eapply Forall_impl; [exact Hf|]. intros x Hx. etrans; [exact Hx|exact Hlt].
  - apply last_None in Ew as ->. by split; [constructor|].
Qed.
Lemma next_position_spec n z :
  next_position n = Some z ↔ z = (Z.of_nat n + 1)%Z ∧ (Z.of_nat n < I64_MAX)%Z.
Proof. unfold next_position. destruct (Z.ltb_spec (Z.of_nat n) I64_MAX); naive_solver lia. Qed.
Lemma project_rows_snoc p vs v :
  project_rows {| ipv_project_id := p; ipv_versions := vs ++ [v] |} =
  project_rows {| ipv_project_id := p; ipv_versions := vs |} ++
  [{| sv_project_id := p; sv_position := Z.of_nat (length vs) + 1; sv_version := v |}].
Proof. unfold project_rows. simpl. rewrite imap_app. simpl. by rewrite Nat.add_0_r. Qed.
Lemma inventory_rows_app ps qs : inventory_rows (ps ++ qs) = inventory_rows ps ++ inventory_rows qs.
Proof. apply bind_app. Qed.
Lemma inventory_rows_one p : inventory_rows [p] = project_rows p.
Proof. unfold inventory_rows. simpl. apply app_nil_r. Qed.
Lemma project_new_sorted p vs d :
  malformed (InstanceProjectVersions_new p vs) = Ok d → StronglySorted lt_ord vs →
  d = {| ipv_project_id := p; ipv_versions := vs |} ∧ project_wf d.
Proof.
  unfold malformed. destruct (InstanceProjectVersions_new p vs) as [d'|] eqn:E; [|done].
  intros [= ->] Hs. pose proof (project_new_wf _ _ _ E) as Hwf. split; [|done].
  apply InstanceProjectVersions_new_iff in E as (_ & _ & _ & _ & _ & <- & Hd & Hin).
  destruct d as [pd vd]. simpl in *. f_equal. by apply SSorted_ext.
Qed.

(** What a loop state has consumed, and its invariant. *)
Definition acc_rows (acc : list InstanceProjectVersions * string * list string) : list StoredVersion :=
  let '(ps, p, vs) := acc in
  inventory_rows ps ++ project_rows {| ipv_project_id := p; ipv_versions := vs |}.
Definition acc_inv (acc : list InstanceProjectVersions * string * list string) : Prop :=
  let '(ps, p, vs) := acc in
  Forall project_wf ps ∧ StronglySorted lt_ord (ipv_project_id <$> ps) ∧
  StronglySorted lt_ord vs ∧ Forall (λ q, lt_ord q p) (ipv_project_id <$> ps) ∧
  (p = "" → ps = [] ∧ vs = []).

(** The [ulid] crate rejects the empty text (an identifier has 26 characters). *)
Hypothesis ulid_empty : ulid_from_string "" = None.
Lemma canonical_nonempty p : canonical_project_id p = true → p ≠ "".
Proof. intros Hc ->. unfold canonical_project_id in Hc. by rewrite ulid_empty in Hc. Qed.

Lemma decode_row_sound acc row acc' :
  decode_row acc row = Ok acc' → acc_inv acc →
  acc_inv acc' ∧ acc_rows acc' = acc_rows acc ++ [row].
Proof.
  destruct acc as [[ps p] vs]. unfold decode_row.
  destruct (canonical_project_id (sv_project_id row)) eqn:Ec; cbn [negb]; [|done].
  apply canonical_nonempty in Ec. intros Hd (Hps & Hids & Hvs & Hlt & Hempty).
  apply rbind_ok in Hd as ([[ps1 p1] vs1] & Hacc & Hd).
  assert (acc_inv (ps1, p1, vs1) ∧ p1 = sv_project_id row ∧ acc_rows (ps1, p1, vs1) = acc_rows (ps, p, vs))
    as ((Hps1 & Hids1 & Hvs1 & Hlt1 & _) & -> & <-).
  { destruct (str_eqb (sv_project_id row) p) eqn:Ep; simpl in Hacc.
    { apply str_eqb_eq in Ep. by simplify_eq. }
    destruct (is_empty p) eqn:Ee; simpl in Hacc.
    { apply is_empty_eq in Ee as ->. destruct (Hempty eq_refl) as [-> ->]. simplify_eq.
      repeat split; try done; constructor. }
    destruct (str_ltb p (sv_project_id row)) eqn:El; simpl in Hacc; [|done]. apply str_ltb_lt in El.
    apply rbind_ok in Hacc as (d & [-> Hwf]%project_new_sorted & [= <- <- <-]); [|done].
    split; [|split; [done|]].
    - split; [apply Forall_app; split; [done|by apply Forall_singleton]|]. rewrite fmap_app. simpl.
      split; [by apply snoc_sorted|]. split; [constructor|]. split; [|by intros].
      apply Forall_app. split; [|by apply Forall_singleton].
      eapply Forall_impl; [exact Hlt|]. intros q Hq. etrans; [exact Hq|exact El].
    - unfold acc_rows. rewrite inventory_rows_app, inventory_rows_one. simpl. by rewrite app_nil_r. }
  destruct (_ || _) eqn:Eb; [done|]. injection Hd as <-. bool_to_prop.
  select (next_position _ = _) (fun Hn => apply next_position_spec in Hn as [Hpos _]).
  select (_ = false) (fun Hl => apply last_below in Hl; [|done]). split.
  - split; [done|]. split; [done|]. split; [by apply snoc_sorted|]. split; [done|]. by intros.
  - unfold acc_rows. rewrite project_rows_snoc, <- Hpos, (assoc_L (++)). by destruct row.
Qed.
Lemma decode_rows_sound rows acc acc' :
  decode_rows acc rows = Ok acc' → acc_inv acc → acc_inv acc' ∧ acc_rows acc' = acc_rows acc ++ rows.
Proof.
  revert acc. induction rows as [|row rows IH]; intros acc Hd Hi; simpl in Hd.
  - injection Hd as <-. by rewrite app_nil_r.
  - apply rbind_ok in Hd as (acc1 & Hr & Hd). destruct (decode_row_sound _ _ _ Hr Hi) as [Hi1 He].
    destruct (IH _ Hd Hi1) as [? ->]. rewrite He. by rewrite <- (assoc_L (++)).
Qed.
Lemma decode_finish_sound acc ps :
  decode_finish acc = Ok ps → acc_inv acc →
  Forall project_wf ps ∧ StronglySorted lt_ord (ipv_project_id <$> ps) ∧ inventory_rows ps = acc_rows acc.
Proof.
  destruct acc as [[qs p] vs]. unfold decode_finish, acc_rows.
  intros Hd (Hqs & Hids & Hvs & Hlt & Hempty). destruct (is_empty p) eqn:Ee; simpl in Hd.
  - apply is_empty_eq in Ee as ->. destruct (Hempty eq_refl) as [-> ->]. simpl in Hd. by simplify_eq.
  - apply rbind_ok in Hd as (d & [-> Hwf]%project_new_sorted & [= <-]); [|done].
    split; [apply Forall_app; split; [done|by apply Forall_singleton]|]. rewrite fmap_app. simpl.
    split; [by apply snoc_sorted|]. by rewrite inventory_rows_app, inventory_rows_one.
Qed.

Definition version_row (p : string) (k : nat) (v : string) : StoredVersion :=
  {| sv_project_id := p; sv_position := Z.of_nat k + 1; sv_version := v |}.
Lemma is_empty_false (p : string) : p ≠ "" → is_empty p = false.
Proof. by destruct p. Qed.
Lemma project_wf_nonempty p : project_wf p → ipv_project_id p ≠ "".
Proof. intros [Hc _]. by apply canonical_nonempty. Qed.
(** The first row of a project closes the previous one. *)
Lemma decode_row_first ps prev q w :
  canonical_project_id q = true → project_wf prev → lt_ord (ipv_project_id prev) q →
  decode_row (ps, ipv_project_id prev, ipv_versions prev) (version_row q 0 w) = Ok (ps ++ [prev], q, [w]).
Proof.
  intros Hq Hwf Hlt. unfold decode_row. simpl. rewrite Hq. cbn [negb].
  assert (str_eqb q (ipv_project_id prev) = false) as ->.
  { apply str_eqb_neq. intros ->. by apply lt_ord_irrefl in Hlt. }
  rewrite is_empty_false by (by apply project_wf_nonempty). cbn [negb].
  rewrite (proj2 (str_ltb_lt _ _) Hlt). cbn [negb]. by rewrite project_new_fixed.
Qed.
Lemma decode_row_next ps p vs w :
  canonical_project_id p = true → StronglySorted lt_ord (vs ++ [w]) →
  (Z.of_nat (length vs) < I64_MAX)%Z →
  decode_row (ps, p, vs) (version_row p (length vs) w) = Ok (ps, p, vs ++ [w]).
Proof.
  intros Hp Hs Hl. unfold decode_row. simpl. rewrite Hp, str_eqb_refl. simpl.
  rewrite bool_decide_true by (by apply next_position_spec).
  apply snoc_sorted in Hs as [Hs Hf]. by rewrite (proj2 (last_below _ _ Hs) Hf).
Qed.
Lemma decode_versions ps p vs ws rest :
  canonical_project_id p = true → StronglySorted lt_ord (vs ++ ws) →
  (Z.of_nat (length (vs ++ ws)) ≤ I64_MAX)%Z →
  decode_rows (ps, p, vs) (imap (λ i v, version_row p (length vs + i) v) ws ++ rest)
  = decode_rows (ps, p, vs ++ ws) rest.
Proof.
  intros Hp. revert vs. induction ws as [|w ws IH]; intros vs Hs Hl; [by rewrite app_nil_r|].
  rewrite length_app in Hl. simpl in Hl. rewrite cons_middle, (assoc_L (++)) in Hs.
  rewrite imap_cons, Nat.add_0_r. cbn [decode_rows app].
  rewrite decode_row_next by (done || lia || by apply SSorted_app_l in Hs). cbn [rbind].
  rewrite (cons_middle w vs ws), (assoc_L (++)).
  rewrite <- (IH (vs ++ [w])) by (done || (rewrite !length_app; simpl; lia)).
  f_equal. f_equal. apply imap_ext. intros i v _. simpl. rewrite length_app. simpl. f_equal. lia.
Qed.
Lemma decode_project ps prev q rest :
  project_wf prev → project_wf q → lt_ord (ipv_project_id prev) (ipv_project_id q) →
  decode_rows (ps, ipv_project_id prev, ipv_versions prev) (project_rows q ++ rest)
  = decode_rows (ps ++ [prev], ipv_project_id q, ipv_versions q) rest.
Proof.
  intros Hprev (Hc & Hne & Hl & Hv & Hs) Hlt. destruct q as [q vs]. unfold project_rows. simpl in *.
  destruct vs as [|w ws]; [done|]. rewrite imap_cons.
  pose proof (decode_row_first ps prev q w Hc Hprev Hlt) as Hf. unfold version_row in Hf. simpl in Hf |- *.
  rewrite Hf. by apply (decode_versions (ps ++ [prev]) q [w] ws rest).
Qed.
Lemma decode_all qs ps prev :
  Forall project_wf (prev :: qs) → StronglySorted lt_ord (ipv_project_id <$> prev :: qs) →
  rbind (decode_rows (ps, ipv_project_id prev, ipv_versions prev) (inventory_rows qs)) decode_finish
  = Ok (ps ++ prev :: qs).
Proof.
  revert ps prev. induction qs as [|q qs IH]; intros ps prev Hf Hs; apply Forall_cons in Hf as [Hprev Hf].
  - simpl. rewrite is_empty_false by (by apply project_wf_nonempty). simpl. by rewrite project_new_fixed.
  - rewrite fmap_cons in Hs. inversion Hs as [|?? Hs' Hlt]; subst.
    apply Forall_cons in Hlt as [Hlt _]. apply Forall_cons in Hf as [Hq Hf].
    change (inventory_rows (q :: qs)) with (project_rows q ++ inventory_rows qs).
    rewrite decode_project by done. rewrite IH by (done || by constructor). by rewrite <- (assoc_L (++)).
Qed.
Lemma decode_complete ps :
  Forall project_wf ps → StronglySorted lt_ord (ipv_project_id <$> ps) →
  rbind (decode_rows ([], "", []) (inventory_rows ps)) decode_finish = Ok ps.
Proof.
  intros Hf Hs. destruct ps as [|[q vs] ps]; [done|].
  apply Forall_cons in Hf as [Hq Hf]. pose proof Hq as (Hc & Hne & Hl & Hv & Hvs). simpl in *.
  destruct vs as [|w ws]; [done|].
  unfold inventory_rows. simpl. unfold decode_row. simpl. rewrite Hc.
  assert (str_eqb q "" = false) as -> by (apply str_eqb_neq; by apply canonical_nonempty).
  simpl.
  etrans; [apply (f_equal (λ r, rbind r decode_finish)), (decode_versions [] q [w] ws (inventory_rows ps)); done|].
  apply (decode_all ps [] {| ipv_project_id := q; ipv_versions := w :: ws |}); [by constructor|done].
Qed.

(** The stored form of an inventory, and the stored forms that are canonical. *)
Definition encode_stored (s : StoredInstanceInventory) : StoredParent :=
  {| sp_instance_id := ii_instance_id (si_inventory s);
     sp_owner_issuer := owner_issuer (si_owner s); sp_owner_subject := owner_subject (si_owner s);
     sp_created_at := si_created_at s; sp_updated_at := si_updated_at s;
     sp_versions := inventory_rows (ii_projects (si_inventory s)) |}.
Definition owner_wf (o : InstanceOwner) : Prop :=
  valid_owner_value (owner_issuer o) 1024 = true ∧ valid_owner_value (owner_subject o) 512 = true.
Definition stored_wf (s : StoredInstanceInventory) : Prop :=
  inventory_wf (si_inventory s) ∧ owner_wf (si_owner s) ∧
  (0 ≤ si_created_at s)%Z ∧ (0 ≤ si_updated_at s)%Z.
Lemma InstanceOwner_new_iff issuer subject o :
  InstanceOwner_new issuer subject = Ok o ↔
  o = {| owner_issuer := issuer; owner_subject := subject |} ∧ owner_wf o.
Proof.
  unfold InstanceOwner_new, owner_wf.
  destruct (valid_owner_value issuer 1024) eqn:E1, (valid_owner_value subject 512) eqn:E2; simpl;
    split; try done; [intros [= <-]; done|..].
  - by intros [-> _].
  - intros [-> [_ Hs]]. simpl in *. congruence.
  - intros [-> [Hs _]]. simpl in *. congruence.
  - intros [-> [Hs _]]. simpl in *. congruence.
Qed.

(** Decoding a stored inventory inverts encoding on exactly the canonical
    ones: it succeeds iff the stored document is the encoding of a well-formed
    inventory of the expected installation, positions 1, 2, 3... and strictly
    increasing projects and versions included, and then loses nothing. *)
Theorem decode_inventory_canonical from_str expected json s :
  decode_inventory from_str expected json = Ok s ↔
  from_str json = Some (encode_stored s) ∧ ii_instance_id (si_inventory s) = expected ∧ stored_wf s.
Proof.
  unfold decode_inventory. split.
  - intros Hd. invert_ok Hd. bool_to_prop.
    select (str_eqb _ _ = true) (fun Hx => apply str_eqb_eq in Hx as <-).
    repeat select (TimestampMicros_new _ = Some _) (fun Hx => apply TimestampMicros_new_Some in Hx as [-> ?]).
    injection Hd as <-. unfold malformed in *.
    destruct (InstanceOwner_new _ _) as [o|] eqn:Eo; [|done].
    destruct (InstanceInventory_new _ _) as [i|] eqn:Ei; [|done]. simplify_eq/=.
    apply InstanceOwner_new_iff in Eo as [-> Hown].
    match goal with Hr : decode_rows _ _ = Ok ?acc |- _ =>
      destruct (decode_rows_sound _ _ _ Hr) as [Hinv Hrows]; [by repeat constructor|] end.
    match goal with Hf : decode_finish _ = Ok _ |- _ =>
      destruct (decode_finish_sound _ _ Hf Hinv) as (Hwf & Hs & Hir) end.
    pose proof Ei as Ei'. apply inventory_new_wf in Ei as (Hiwf & Hid & Hperm); [|done].
    unfold InstanceInventory_new in Ei'. destruct (canonical_instance_id _); [|done]. simpl in Ei'.
    rewrite sort_by_fixed in Ei' by done. case_hyp Ei'; [done|]. injection Ei' as <-.
    split; [|split; [done|split; [exact Hiwf|by split; [|split]]]]. unfold encode_stored. simpl. rewrite Hir, Hrows.
    match goal with st : StoredParent |- _ => by destruct st end.
  - intros (-> & <- & Hi & Hown & Hc & Hu). simpl. rewrite str_eqb_refl. cbn [negb].
    rewrite (proj2 (TimestampMicros_new_Some _ _)) by (split; [done|lia]).
    rewrite (proj2 (TimestampMicros_new_Some _ _)) by (split; [done|lia]). cbn [rbind ok_or].
    assert (InstanceOwner_new (owner_issuer (si_owner s)) (owner_subject (si_owner s)) = Ok (si_owner s)) as ->.
    { apply InstanceOwner_new_iff. split; [by destruct (si_owner s)|done]. }
    cbn [malformed rmap_err rbind]. destruct Hi as (Hci & Hf & Hs).
    pose proof (decode_complete _ Hf Hs) as Hd.
    apply rbind_ok in Hd as (acc & -> & Hfin). cbn [rbind].
    rewrite Hfin. cbn [rbind]. rewrite inventory_new_fixed by done. by destruct s.
Qed.
End codec.

(** ** The tables and the transaction *)

Record InstanceRow := {
  row_owner_issuer : string;
  row_owner_subject : string;
  row_created_at : Z;
  row_updated_at : Z;
}.
(** [broker_instances] by [instance_id], and [broker_instance_project_versions]
    by [instance_id] and then by (project_id, position). *)
Record Tables := {
  tb_instances : gmap string InstanceRow;
  tb_versions : gmap string (gmap (string * Z) string);
}.
Record Txn := { tx_tables : Tables; tx_clock : clock; tx_faults : list (option fault) }.
Definition with_tables (t : Txn) (tables : Tables) : Txn :=
  {| tx_tables := tables; tx_clock := tx_clock t; tx_faults := tx_faults t |}.
Definition with_versions (t : Tables) (id : string) (v : gmap (string * Z) string) : Tables :=
  {| tb_instances := tb_instances t; tb_versions := <[id := v]> (tb_versions t) |}.
Definition with_instance (t : Tables) (id : string) (row : InstanceRow) : Tables :=
  {| tb_instances := <[id := row]> (tb_instances t); tb_versions := tb_versions t |}.
Definition pop_fault (t : Txn) : Txn :=
  {| tx_tables := tx_tables t; tx_clock := tx_clock t; tx_faults := tail (tx_faults t) |}.

Definition await (convert : sqlx_error → ControlError) : M Txn InstanceRegistryError unit := λ t,
  match tx_faults t with
  | Some (StatementFails e) :: _ => (Err (IR_Control (convert e)), pop_fault t)
  | Some CutOff :: _ => (Err (IR_Control CE_Deadline), pop_fault t)
  | _ => (Ok tt, pop_fault t)
  end.
Definition persistence_error (_ : sqlx_error) : ControlError := CE_Storage.
(** Once COMMIT has started, a failure or a cut-off leaves the outcome open. *)
Definition commit : M Txn InstanceRegistryError unit := λ t,
  match tx_faults t with
  | Some _ :: _ => (Err (IR_Control CE_OutcomeUncertain), pop_fault t)
  | _ => (Ok tt, pop_fault t)
  end.
Definition now_in_txn : M Txn InstanceRegistryError Z := λ t,
  match now_micros (tx_clock t) with
  | (r, c) => (rmap_err IR_Control r,
               {| tx_tables := tx_tables t; tx_clock := c; tx_faults := tx_faults t |})
  end.
Definition tables_now : M Txn InstanceRegistryError Tables := λ t, (Ok (tx_tables t), t).
Definition set_tables (tables : Tables) : M Txn InstanceRegistryError unit := λ t,
  (Ok tt, with_tables t tables).

Definition versions_of (t : Tables) (id : string) : gmap (string * Z) string :=
  default ∅ (tb_versions t !! id).
Definition row_of (entry : string * Z * string) : StoredVersion :=
  {| sv_project_id := entry.1.1; sv_position := entry.1.2; sv_version := entry.2 |}.
(** [SELECT ... ORDER BY project_id COLLATE "C", position] *)
Definition select_versions (t : Tables) (id : string) : list StoredVersion :=
  row_of <$> sort (map_to_list (versions_of t id)).
Definition checked_add_i64 (a b : Z) : option Z := if (a + b <=? I64_MAX)%Z then Some (a + b)%Z else None.

Inductive RegistrationChange := Created | Updated | Unchanged.
Record RegistrationResult := {
  rr_change : RegistrationChange;
  rr_instance_id : string;
  rr_created_at : Z;
  rr_updated_at : Z;
}.

Section store.
Context `{UlidLib}.

(** The streaming comparison of the stored rows with the inventory. *)
Fixpoint scan (projects : list InstanceProjectVersions) (pidx vidx : nat) (same : bool) (count : Z)
    (previous : StoredVersion) (rows : list StoredVersion)
    : M Txn InstanceRegistryError (bool * Z) :=
  do? await persistence_error in
  match rows with
  | [] => ret (same && bool_decide (pidx = length projects), count)
  | row :: rows =>
      if (U64_MAX <? count + 1)%Z then fail IR_MalformedStored else
      if negb (canonical_project_id (sv_project_id row)) || negb (canonical_version (sv_version row))
      then fail IR_MalformedStored else
      if (if negb (str_eqb (sv_project_id row) (sv_project_id previous))
          then (negb (is_empty (sv_project_id previous))
                && negb (str_ltb (sv_project_id previous) (sv_project_id row)))
               || negb (sv_position row =? 1)%Z
          else negb (bool_decide (checked_add_i64 (sv_position previous) 1 = Some (sv_position row)))
               || negb (str_ltb (sv_version previous) (sv_version row)))
      then fail IR_MalformedStored else
      match projects !! pidx with
      | Some expected =>
          let same := same && str_eqb (ipv_project_id expected) (sv_project_id row)
                      && bool_decide (next_position vidx = Some (sv_position row))
                      && bool_decide (ipv_versions expected !! vidx = Some (sv_version row)) in
          if bool_decide (S vidx = length (ipv_versions expected))
          then scan projects (S pidx) 0 same (count + 1) row rows
          else scan projects pidx (S vidx) same (count + 1) row rows
      | None => scan projects pidx vidx false (count + 1) row rows
      end
  end.

Definition insert_version (id project : string) (index : nat) (version : string)
    : M Txn InstanceRegistryError unit :=
  let? position := lift_result (ok_or (next_position index) IR_InvalidInventory) in
  do? await persistence_error in
  let? t := tables_now in
  (* the primary key *)
  if bool_decide (is_Some (versions_of t id !! (project, position)))
  then fail (IR_Control CE_Storage)
  else set_tables (with_versions t id (<[(project, position) := version]> (versions_of t id))).
Definition insert_inventory (inventory : InstanceInventory) : M Txn InstanceRegistryError unit :=
  mfor (λ _ project,
    mfor (λ _ '(index, version), insert_version (ii_instance_id inventory) (ipv_project_id project) index version)
      tt (imap pair (ipv_versions project)))
    tt (ii_projects inventory).

(** The rewriting of the versions when they differ. *)
Definition replace_versions (inventory : InstanceInventory) (created : bool) (updated_at : Z)
    (same : bool) (stored_count : Z) : M Txn InstanceRegistryError Z :=
  let id := ii_instance_id inventory in
  if negb same then
    do? await persistence_error in
    let? t := tables_now in
    if negb (Z.of_nat (size (versions_of t id)) =? stored_count)%Z then fail (IR_Control CE_Storage) else
    do? set_tables (with_versions t id ∅) in
    do? insert_inventory inventory in
    if negb created then
      let? updated_at := now_in_txn in
      do? await persistence_error in
      let? t := tables_now in
      match tb_instances t !! id with
      | Some row =>
          do? set_tables (with_instance t id
                {| row_owner_issuer := row_owner_issuer row; row_owner_subject := row_owner_subject row;
                   row_created_at := row_created_at row; row_updated_at := updated_at |}) in
          ret updated_at
      | None => fail (IR_Control CE_Storage)
      end
    else ret updated_at
  else ret updated_at.

Definition first_row : StoredVersion := {| sv_project_id := ""; sv_position := 0; sv_version := "" |}.
Definition replace_statements (owner : InstanceOwner) (inventory : InstanceInventory)
    : M Txn InstanceRegistryError RegistrationResult :=
  let id := ii_instance_id inventory in
  do? await storage_error in
  do? await persistence_error in
  let? stamp := now_in_txn in
  do? await persistence_error in
  let? t := tables_now in
  let created := bool_decide (tb_instances t !! id = None) in
  do? (if created
       then set_tables (with_instance t id
              {| row_owner_issuer := owner_issuer owner; row_owner_subject := owner_subject owner;
                 row_created_at := stamp; row_updated_at := stamp |})
       else ret tt) in
  do? await persistence_error in
  let? t := tables_now in
  let? parent := lift_result (ok_or (tb_instances t !! id) (IR_Control CE_Storage)) in
  let? created_at := lift_result (ok_or (TimestampMicros_new (row_created_at parent)) IR_MalformedStored) in
  let? updated_at := lift_result (ok_or (TimestampMicros_new (row_updated_at parent)) IR_MalformedStored) in
  if negb (valid_owner_value (row_owner_issuer parent) 1024)
     || negb (valid_owner_value (row_owner_subject parent) 512) then fail IR_MalformedStored else
  if negb (str_eqb (row_owner_issuer parent) (owner_issuer owner))
     || negb (str_eqb (row_owner_subject parent) (owner_subject owner)) then fail IR_OwnerConflict else
  let? (same, stored_count) := scan (ii_projects inventory) 0 0 true 0 first_row (select_versions t id) in
  let? updated_at := replace_versions inventory created updated_at same stored_count in
  ret {| rr_change := if created then Created else if same then Unchanged else Updated;
         rr_instance_id := id; rr_created_at := created_at; rr_updated_at := updated_at |}.
Definition replace_body (owner : InstanceOwner) (inventory : InstanceInventory)
    : M Txn InstanceRegistryError RegistrationResult :=
  let? r := replace_statements owner inventory in
  do? commit in
  ret r.

(** The whole operation: an error rolls the transaction back; when the outcome
    is uncertain, [lands] says whether the COMMIT took effect. *)
Definition replace_instance_inventory (operation_timeout : Z) (owner : InstanceOwner)
    (inventory : InstanceInventory) (deadline : Z) (faults : list (option fault)) (lands : bool)
    (tables : Tables) (c : clock) : result InstanceRegistryError RegistrationResult * Tables * clock :=
  match bounded_deadline deadline operation_timeout c with
  | (Err e, c) => (Err (IR_Control e), tables, c)
  | (Ok _, c) =>
      match replace_body owner inventory {| tx_tables := tables; tx_clock := c; tx_faults := faults |} with
      | (Ok r, t) => (Ok r, tx_tables t, tx_clock t)
      | (Err (IR_Control CE_OutcomeUncertain), t) =>
          (Err (IR_Control CE_OutcomeUncertain), if lands then tx_tables t else tables, tx_clock t)
      | (Err e, t) => (Err e, tables, tx_clock t)
      end
  end.

(** ** Lemmas: the comparison *)

Lemma await_ok convert t t' : await convert t = (Ok tt, t') → t' = pop_fault t.
Proof. unfold await. destruct (tx_faults t) as [|[[]|]]; naive_solver. Qed.
Lemma commit_ok t t' : commit t = (Ok tt, t') → t' = pop_fault t.
Proof. unfold commit. destruct (tx_faults t) as [|[]]; naive_solver. Qed.
Lemma now_in_txn_ok t z t' : now_in_txn t = (Ok z, t') → tx_tables t' = tx_tables t.
Proof. unfold now_in_txn. destruct (now_micros _) as [[] ?]; simpl; naive_solver. Qed.

(** The rows of the inventory that a comparison at (pidx, vidx) still expects. *)
Definition remaining (ps : list InstanceProjectVersions) (pidx vidx : nat) : list StoredVersion :=
  match drop pidx ps with
  | [] => []
  | p :: ps => drop vidx (project_rows p) ++ inventory_rows ps
  end.
Lemma project_rows_lookup p i v :
  ipv_versions p !! i = Some v → project_rows p !! i = Some (version_row (ipv_project_id p) i v).
Proof. intros Hv. unfold project_rows. by rewrite list_lookup_imap, Hv. Qed.
Lemma length_project_rows p : length (project_rows p) = length (ipv_versions p).
Proof. apply length_imap. Qed.
Lemma inventory_rows_nil ps : Forall project_wf ps → inventory_rows ps = [] → ps = [].
Proof.
  intros Hf. destruct ps as [|p ps]; [done|]. apply Forall_cons in Hf as [(_ & Hne & _) _].
  intros [Hp _]%app_eq_nil. exfalso. apply Hne, length_zero_iff_nil.
  by rewrite <- length_project_rows, Hp.
Qed.
Lemma remaining_cons ps pidx vidx p v :
  ps !! pidx = Some p → ipv_versions p !! vidx = Some v →
  remaining ps pidx vidx =
  version_row (ipv_project_id p) vidx v ::
  (if bool_decide (S vidx = length (ipv_versions p))
   then remaining ps (S pidx) 0 else remaining ps pidx (S vidx)).
Proof.
  intros Hp Hv. unfold remaining. rewrite (drop_S _ _ _ Hp).
  rewrite (drop_S _ _ _ (project_rows_lookup _ _ _ Hv)). simpl. f_equal. case_bool_decide as Hl.
  - rewrite drop_ge by (rewrite length_project_rows; lia). simpl.
    by destruct (drop (S pidx) ps).
  - done.
Qed.
Definition cursor_ok (ps : list InstanceProjectVersions) (pidx vidx : nat) : Prop :=
  match ps !! pidx with
  | Some p => vidx < length (ipv_versions p)
  | None => pidx = length ps
  end.
Lemma cursor_next ps pidx p :
  Forall project_wf ps → ps !! pidx = Some p → cursor_ok ps (S pidx) 0.
Proof.
  intros Hf Hp. unfold cursor_ok. destruct (ps !! S pidx) as [q|] eqn:E.
  - rewrite Forall_lookup in Hf. destruct (Hf _ _ E) as (_ & Hne & _).
    destruct (ipv_versions q); [done|simpl; lia].
  - apply lookup_lt_Some in Hp. apply lookup_ge_None in E. lia.
Qed.
(** The test of one row is the equality with the expected row. *)
Lemma row_test pid vidx v row rows rest :
  (Z.of_nat vidx < I64_MAX)%Z →
  bool_decide (row :: rows = version_row pid vidx v :: rest) =
  str_eqb pid (sv_project_id row) && bool_decide (next_position vidx = Some (sv_position row))
  && bool_decide (Some v = Some (sv_version row)) && bool_decide (rows = rest).
Proof.
  intros Hl. apply eq_bool_prop_intro. rewrite !andb_True, !bool_decide_spec, !Is_true_true, str_eqb_eq.
  rewrite next_position_spec. destruct row as [p z w]. unfold version_row. simpl. split.
  - intros [= -> -> -> ->]. done.
  - intros [[[-> [-> _]] [= ->]] ->]. done.
Qed.
Lemma scan_spec ps rows pidx vidx same count previous t r n t' :
  Forall project_wf ps → cursor_ok ps pidx vidx →
  scan ps pidx vidx same count previous rows t = (Ok (r, n), t') →
  r = same && bool_decide (rows = remaining ps pidx vidx) ∧
  n = (count + Z.of_nat (length rows))%Z ∧ tx_tables t' = tx_tables t.
Proof.
  intros Hwf. revert pidx vidx same count previous t.
  induction rows as [|row rows IH]; intros pidx vidx same count previous t Hcur Hs;
    cbn [scan] in Hs; apply bind_ok in Hs as ([] & t1 & ->%await_ok & Hs).
  { apply ret_ok in Hs as [[= -> ->] ->]. split; [|simpl; split; [lia|done]]. f_equal.
    apply bool_decide_ext. unfold remaining, cursor_ok in *. split.
    - intros ->. by rewrite drop_ge.
    - destruct (ps !! pidx) as [p|] eqn:Ep; [|done]. rewrite (drop_S _ _ _ Ep).
      intros Hnil. symmetry in Hnil. apply app_eq_nil in Hnil as [Hnil _].
      apply (f_equal length) in Hnil. rewrite length_drop, length_project_rows in Hnil. simpl in Hnil. lia. }
  destruct (_ <? _)%Z in Hs; [done|]. destruct (_ || _) in Hs; [done|].
  match type of Hs with (if ?b then _ else _) _ = _ => destruct b; [done|] end.
  unfold cursor_ok in Hcur. destruct (ps !! pidx) as [p|] eqn:Ep.
  - destruct (lookup_lt_is_Some_2 _ _ Hcur) as [v Hv]. rewrite Hv in Hs.
    rewrite (remaining_cons ps pidx vidx p v Ep Hv).
    assert (∀ rest, bool_decide (row :: rows = version_row (ipv_project_id p) vidx v :: rest) =
      str_eqb (ipv_project_id p) (sv_project_id row)
      && bool_decide (next_position vidx = Some (sv_position row))
      && bool_decide (Some v = Some (sv_version row)) && bool_decide (rows = rest)) as Heq.
    { intros rest. apply row_test. rewrite Forall_lookup in Hwf. destruct (Hwf _ _ Ep) as (_ & _ & Hl & _).
      lia. }
    destruct (bool_decide (S vidx = _)) eqn:El; bool_to_prop;
      (eapply IH in Hs as (-> & -> & Ht);
       [|by eapply cursor_next || (unfold cursor_ok; rewrite Ep; lia)]).
    all: rewrite Heq, !andb_assoc; simpl; split; [done|]; split; [lia|done].
  - eapply IH in Hs as (-> & -> & Ht); [|unfold cursor_ok; by rewrite Ep]. simpl.
    split; [|split; [lia|done]]. unfold remaining. rewrite drop_ge by (by apply lookup_ge_None).
    by rewrite bool_decide_false, andb_false_r.
Qed.

(** ** Lemmas: the rows of an inventory in the table *)

Definition key_of (row : StoredVersion) : string * Z := (sv_project_id row, sv_position row).
Definition entry_of (row : StoredVersion) : string * Z * string := (key_of row, sv_version row).
Lemma row_of_entries (rows : list StoredVersion) : row_of <$> (entry_of <$> rows) = rows.
Proof.
  rewrite <- list_fmap_compose. induction rows as [|[p z v] rows IH]; [done|].
  rewrite fmap_cons. by rewrite IH.
Qed.
Lemma project_keys_sorted p k vs :
  StronglySorted lt_ord (key_of <$> imap (λ i v, version_row p (k + i) v) vs).
Proof.
  revert k. induction vs as [|v vs IH]; intros k; [constructor|]. rewrite imap_cons, fmap_cons.
  assert (imap ((λ i v0, version_row p (k + i) v0) ∘ S) vs = imap (λ i v0, version_row p (S k + i) v0) vs) as ->.
  { apply imap_ext. intros i w _. simpl. unfold version_row. do 2 f_equal. lia. }
  constructor; [apply IH|]. apply Forall_forall. intros x (row & -> & Hrow)%list_elem_of_fmap.
  apply elem_of_lookup_imap in Hrow as (i & w & -> & _). unfold lt_ord. simpl. unfold pair_cmp. simpl.
  rewrite (proj2 (str_cmp_eq p p) eq_refl). apply Z.compare_lt_iff. lia.
Qed.
Lemma inventory_keys_sorted ps :
  StronglySorted lt_ord (ipv_project_id <$> ps) → StronglySorted lt_ord (key_of <$> inventory_rows ps).
Proof.
  induction ps as [|p ps IH]; [constructor|]. rewrite fmap_cons. intros Hs.
  inversion Hs as [|?? Hs' Hf]; subst.
  change (inventory_rows (p :: ps)) with (project_rows p ++ inventory_rows ps). rewrite fmap_app.
  apply SSorted_app. split; [apply (project_keys_sorted _ 0)|]. split; [by apply IH|].
  intros x y (r1 & -> & H1)%list_elem_of_fmap (r2 & -> & H2)%list_elem_of_fmap.
  apply elem_of_lookup_imap in H1 as (i & v & -> & _).
  apply list_elem_of_bind in H2 as (q & H2 & Hq).
  apply elem_of_lookup_imap in H2 as (j & w & -> & _).
  rewrite Forall_fmap, Forall_forall in Hf. specialize (Hf q Hq). unfold lt_ord in *. simpl in *.
  unfold pair_cmp. simpl. by rewrite Hf.
Qed.
Definition put_row (m : gmap (string * Z) string) (row : StoredVersion) : gmap (string * Z) string :=
  <[key_of row := sv_version row]> m.
Lemma lookup_put_rows (rows : list StoredVersion) m k v :
  NoDup (key_of <$> rows) →
  foldl put_row m rows !! k = Some v ↔
  (k, v) ∈ entry_of <$> rows ∨ (k ∉ key_of <$> rows ∧ m !! k = Some v).
Proof.
  revert m. induction rows as [|row rows IH]; intros m; simpl.
  { intros _. rewrite elem_of_nil. set_solver. }
  rewrite NoDup_cons. intros [Hn Hnd]. rewrite IH by done. unfold put_row.
  rewrite !elem_of_cons. unfold entry_of at 2.
  assert ((k, v) ∈ entry_of <$> rows → k ∈ key_of <$> rows) as Hin.
  { intros (r & [= -> ->] & Hr)%list_elem_of_fmap. apply list_elem_of_fmap. eauto. }
  destruct (decide (k = key_of row)) as [->|Hne].
  - rewrite lookup_insert_eq. naive_solver.
  - rewrite lookup_insert_ne by done. naive_solver.
Qed.
(** Reading back the rows of an inventory gives them in their order. *)
Lemma select_put_rows ps :
  StronglySorted lt_ord (ipv_project_id <$> ps) →
  row_of <$> sort (map_to_list (foldl put_row ∅ (inventory_rows ps))) = inventory_rows ps.
Proof.
  intros Hs. apply inventory_keys_sorted in Hs. pose proof (SSorted_NoDup _ Hs) as Hnd.
  rewrite <- (row_of_entries (inventory_rows ps)) at 2. f_equal. apply SSorted_ext.
  - apply sort_nodup, NoDup_map_to_list.
  - eapply SSorted_fmap_mono; [|exact Hs]. intros x y Hxy. unfold lt_ord in *.
    change (match cmp (key_of x) (key_of y) with
            | Eq => cmp (sv_version x) (sv_version y) | c => c end = Lt). by rewrite Hxy.
  - intros [k v]. rewrite elem_of_sort, elem_of_map_to_list, lookup_put_rows by done. set_solver.
Qed.

(** ** Lemmas: the statements *)

Lemma insert_version_ok id p i v t t' :
  insert_version id p i v t = (Ok tt, t') →
  tx_tables t' = with_versions (tx_tables t) id (put_row (versions_of (tx_tables t) id) (version_row p i v)).
Proof.
  unfold insert_version. intros Hr. invert_run Hr.
  select (next_position _ = Some _) (fun Hn => apply next_position_spec in Hn as [-> _]).
  select (await _ _ = _) (fun Ha => destruct a0; apply await_ok in Ha as ->).
  unfold tables_now in *. simplify_eq/=. unfold set_tables in Hr. by simplify_eq/=.
Qed.
Lemma with_versions_twice t id m m' : with_versions (with_versions t id m) id m' = with_versions t id m'.
Proof. unfold with_versions. simpl. by rewrite insert_insert_eq. Qed.
Lemma versions_of_with t id m : versions_of (with_versions t id m) id = m.
Proof. unfold versions_of. simpl. by rewrite lookup_insert_eq. Qed.
Lemma insert_versions_ok id p l t r t' :
  mfor (λ _ '(i, v), insert_version id p i v) tt l t = (Ok r, t') →
  versions_of (tx_tables t') id = foldl put_row (versions_of (tx_tables t) id) ((λ '(i, v), version_row p i v) <$> l) ∧
  ∀ m, with_versions (tx_tables t') id m = with_versions (tx_tables t) id m.
Proof.
  revert t. induction l as [|[i v] l IH]; intros t Hr; simpl in Hr.
  - by apply ret_ok in Hr as [_ ->].
  - apply bind_ok in Hr as ([] & t1 & H1%insert_version_ok & Hr). destruct (IH _ Hr) as [Hv Hm].
    rewrite H1 in Hv, Hm. rewrite versions_of_with in Hv. split; [done|].
    intros m. by rewrite Hm, with_versions_twice.
Qed.
Lemma insert_inventory_ok inventory t r t' :
  insert_inventory inventory t = (Ok r, t') →
  versions_of (tx_tables t') (ii_instance_id inventory)
    = foldl put_row (versions_of (tx_tables t) (ii_instance_id inventory)) (inventory_rows (ii_projects inventory)) ∧
  ∀ m, with_versions (tx_tables t') (ii_instance_id inventory) m
       = with_versions (tx_tables t) (ii_instance_id inventory) m.
Proof.
  unfold insert_inventory. revert t. induction (ii_projects inventory) as [|p ps IH]; intros t Hr.
  - by apply ret_ok in Hr as [_ ->].
  - apply bind_ok in Hr as ([] & t1 & H1%insert_versions_ok & Hr). destruct H1 as [Hv1 Hm1].
    destruct (IH _ Hr) as [Hv Hm]. split; [|intros m; by rewrite Hm].
    change (inventory_rows (p :: ps)) with (project_rows p ++ inventory_rows ps).
    rewrite foldl_app, Hv, Hv1. f_equal. f_equal. unfold project_rows. by rewrite fmap_imap.
Qed.

(** A step that never reports one error, for the two errors that matter: the
    uncertain outcome and the conflict of owners.  The other steps report
    neither. *)
Section never.
Context (bad : InstanceRegistryError)
        (bad_control : ∀ e, e ≠ CE_OutcomeUncertain → IR_Control e ≠ bad)
        (bad_malformed : IR_MalformedStored ≠ bad) (bad_inventory : IR_InvalidInventory ≠ bad).
Notation never := (only (λ e : InstanceRegistryError, e ≠ bad)).
Lemma never_await convert : (∀ e, convert e ≠ CE_OutcomeUncertain) → never (await convert).
Proof.
  intros Hc t e t'. unfold await. destruct (tx_faults t) as [|[[e0|]|]]; intros [= <- _]; auto.
Qed.
Lemma never_now : never now_in_txn.
Proof.
  intros t e t'. unfold now_in_txn, now_micros, bind, system_now, lift_result. simpl.
  destruct (TimestampMicros_try_from _); simpl; intros [= <- _]; auto.
Qed.
Lemma never_tables : never tables_now.
Proof. intros t e t' [=]. Qed.
Lemma never_set tables : never (set_tables tables).
Proof. intros t e t' [=]. Qed.
Lemma never_await_storage : never (await storage_error).
Proof. apply never_await. by intros []. Qed.
Lemma never_await_persistence : never (await persistence_error).
Proof. by apply never_await. Qed.
#[local] Hint Resolve never_now never_tables never_set never_await_storage never_await_persistence : broker.
#[local] Hint Extern 1 (IR_Control _ ≠ bad) => apply bad_control; discriminate : broker.
Lemma never_scan ps rows pidx vidx same count previous :
  never (scan ps pidx vidx same count previous rows).
Proof.
  revert pidx vidx same count previous.
  induction rows as [|row rows IH]; intros; cbn [scan]; auto 20 with broker.
Qed.
Lemma never_insert_version id p i v : never (insert_version id p i v).
Proof. unfold insert_version. auto 20 with broker. Qed.
Lemma never_insert_inventory inventory : never (insert_inventory inventory).
Proof. apply only_mfor. intros _ p. apply only_mfor. intros _ [i v]. apply never_insert_version. Qed.
#[local] Hint Resolve never_scan never_insert_inventory : broker.
Lemma never_replace_versions inventory created updated_at same count :
  never (replace_versions inventory created updated_at same count).
Proof. unfold replace_versions. auto 60 with broker. Qed.
#[local] Hint Resolve never_replace_versions : broker.
Lemma never_statements owner inventory : IR_OwnerConflict ≠ bad → never (replace_statements owner inventory).
Proof. intros Hc. unfold replace_statements. auto 60 with broker. Qed.
End never.
Lemma certain_statements owner inventory :
  only (λ e, e ≠ IR_Control CE_OutcomeUncertain) (replace_statements owner inventory).
Proof. apply never_statements; [|done..]. by intros e He [= ->]. Qed.

(** ** The abstract replacement *)

Definition owned_by (row : InstanceRow) (owner : InstanceOwner) : Prop :=
  row_owner_issuer row = owner_issuer owner ∧ row_owner_subject row = owner_subject owner.
(** What a replacement means for the tables: the installation belongs to the
    owner and holds exactly the inventory, the times of its row are the ones
    reported, the change is classified by what was there before, and no other
    installation is touched. *)
Definition replaced (owner : InstanceOwner) (inventory : InstanceInventory) (t t' : Tables)
    (r : RegistrationResult) : Prop :=
  let id := ii_instance_id inventory in
  let rows := inventory_rows (ii_projects inventory) in
  rr_instance_id r = id ∧
  (∃ row, tb_instances t' !! id = Some row ∧ owned_by row owner ∧
     row_created_at row = rr_created_at r ∧ row_updated_at row = rr_updated_at r ∧
     match rr_change r with
     | Created => tb_instances t !! id = None
     | Updated => ∃ old, tb_instances t !! id = Some old ∧ row_created_at old = row_created_at row ∧
                    select_versions t id ≠ rows
     | Unchanged => t' = t
     end) ∧
  select_versions t' id = rows ∧
  ∀ other, other ≠ id →
    tb_instances t' !! other = tb_instances t !! other ∧ versions_of t' other = versions_of t other.

(** The parent row of the transaction, before the versions are compared. *)
Definition parent_step (owner : InstanceOwner) (id : string) (stamp : Z) (t : Tables) : Tables :=
  if bool_decide (tb_instances t !! id = None) then
    with_instance t id
      {| row_owner_issuer := owner_issuer owner; row_owner_subject := owner_subject owner;
         row_created_at := stamp; row_updated_at := stamp |}
  else t.
Lemma parent_step_run owner id stamp T t x u :
  tx_tables t = T →
  (if bool_decide (tb_instances T !! id = None)
   then set_tables (with_instance T id
          {| row_owner_issuer := owner_issuer owner; row_owner_subject := owner_subject owner;
             row_created_at := stamp; row_updated_at := stamp |})
   else ret tt) t = (Ok x, u) → tx_tables u = parent_step owner id stamp T.
Proof.
  intros <-. unfold parent_step, set_tables, ret. destruct (bool_decide _); intros Hr; by simplify_eq/=.
Qed.
Lemma versions_of_with_instance t id row other : versions_of (with_instance t id row) other = versions_of t other.
Proof. done. Qed.
Lemma versions_of_parent owner id stamp t other :
  versions_of (parent_step owner id stamp t) other = versions_of t other.
Proof. unfold parent_step. by destruct (bool_decide _). Qed.
Lemma select_parent owner id stamp t other :
  select_versions (parent_step owner id stamp t) other = select_versions t other.
Proof. unfold select_versions. by rewrite versions_of_parent. Qed.
Lemma parent_other owner id stamp t other :
  other ≠ id → tb_instances (parent_step owner id stamp t) !! other = tb_instances t !! other.
Proof.
  intros Hne. unfold parent_step. destruct (bool_decide _); [|done]. simpl. by rewrite lookup_insert_ne.
Qed.
Lemma versions_of_with_ne t id m other : other ≠ id → versions_of (with_versions t id m) other = versions_of t other.
Proof. intros Hne. unfold versions_of. simpl. by rewrite lookup_insert_ne. Qed.
(** The tables after the versions were rewritten. *)
Lemma rewritten_tables id ps t t' :
  StronglySorted lt_ord (ipv_project_id <$> ps) →
  versions_of t' id = foldl put_row ∅ (inventory_rows ps) →
  (∀ m, with_versions t' id m = with_versions t id m) →
  select_versions t' id = inventory_rows ps ∧ tb_instances t' = tb_instances t ∧
  ∀ other, other ≠ id → versions_of t' other = versions_of t other.
Proof.
  intros Hs Hv Hm. split; [|split].
  - unfold select_versions. by rewrite Hv, select_put_rows.
  - exact (f_equal tb_instances (Hm ∅)).
  - intros other Hne. rewrite <- (versions_of_with_ne t' id ∅ other Hne), Hm.
    by apply versions_of_with_ne.
Qed.
Ltac txn_steps :=
  repeat match goal with
  | R : await _ _ = (Ok ?a, _) |- _ => destruct a; apply await_ok in R as ->
  | R : tables_now _ = (Ok _, _) |- _ => unfold tables_now in R; injection R as <- <-
  | R : set_tables _ _ = (Ok ?a, _) |- _ => unfold set_tables in R; injection R as _ <-
  | R : now_in_txn _ = (Ok _, _) |- _ => apply now_in_txn_ok in R; simpl in R
  end.
Lemma replace_versions_ok inventory created updated_at same count t u t' :
  StronglySorted lt_ord (ipv_project_id <$> ii_projects inventory) →
  replace_versions inventory created updated_at same count t = (Ok u, t') →
  let id := ii_instance_id inventory in
  if same then u = updated_at ∧ t' = t else
  select_versions (tx_tables t') id = inventory_rows (ii_projects inventory) ∧
  (∀ other, other ≠ id → versions_of (tx_tables t') other = versions_of (tx_tables t) other) ∧
  if created then u = updated_at ∧ tb_instances (tx_tables t') = tb_instances (tx_tables t)
  else ∃ row, tb_instances (tx_tables t) !! id = Some row ∧
    tb_instances (tx_tables t') = <[id := {| row_owner_issuer := row_owner_issuer row;
      row_owner_subject := row_owner_subject row; row_created_at := row_created_at row;
      row_updated_at := u |}]> (tb_instances (tx_tables t)).
Proof.
  intros Hids Hr. unfold replace_versions in Hr. destruct same; simpl in Hr.
  { by apply ret_ok in Hr as [-> ->]. }
  invert_run Hr. txn_steps. simpl in *.
  select (insert_inventory _ _ = _) (fun Hi => apply insert_inventory_ok in Hi as [Hv Hm]).
  simpl in Hv, Hm. rewrite versions_of_with in Hv.
  setoid_rewrite with_versions_twice in Hm.
  destruct (rewritten_tables _ _ _ _ Hids Hv Hm) as (Hsel & Hinst & Hoth).
  destruct created; simpl in Hr.
  - apply ret_ok in Hr as [-> ->]. done.
  - invert_run Hr. txn_steps. simpl in *.
    match goal with Hn : tx_tables ?a = tx_tables ?b |- _ => rewrite Hn in * end.
    rewrite Hinst in *. split; [exact Hsel|]. split; [exact Hoth|]. eauto.
Qed.
Lemma cursor_start ps : Forall project_wf ps → cursor_ok ps 0 0.
Proof.
  intros Hf. unfold cursor_ok. destruct ps as [|p ps]; [done|]. apply Forall_cons in Hf as [(_ & Hne & _) _].
  simpl. destruct (ipv_versions p); [done|simpl; lia].
Qed.
Lemma remaining_start ps : remaining ps 0 0 = inventory_rows ps.
Proof. by destruct ps. Qed.
(** The parent row and the rewriting together are a replacement. *)
Lemma replaced_intro owner inventory stamp t parent u t' :
  let id := ii_instance_id inventory in
  let rows := inventory_rows (ii_projects inventory) in
  let t1 := parent_step owner id stamp t in
  let same := bool_decide (select_versions t id = rows) in
  let created := bool_decide (tb_instances t !! id = None) in
  tb_instances t1 !! id = Some parent → owned_by parent owner →
  (if same then u = row_updated_at parent ∧ t' = t1 else
   select_versions t' id = rows ∧
   (∀ other, other ≠ id → versions_of t' other = versions_of t1 other) ∧
   if created then u = row_updated_at parent ∧ tb_instances t' = tb_instances t1
   else ∃ row, tb_instances t1 !! id = Some row ∧
     tb_instances t' = <[id := {| row_owner_issuer := row_owner_issuer row;
       row_owner_subject := row_owner_subject row; row_created_at := row_created_at row;
       row_updated_at := u |}]> (tb_instances t1)) →
  replaced owner inventory t t'
    {| rr_change := if created then Created else if same then Unchanged else Updated;
       rr_instance_id := id; rr_created_at := row_created_at parent; rr_updated_at := u |}.
Proof.
  intros id rows t1 same created Hp Hown Hv. subst same created. unfold replaced. simpl. fold id. fold rows.
  split; [done|].
  assert (∀ other, other ≠ id → tb_instances t1 !! other = tb_instances t !! other) as Hoth
    by (intros; by apply parent_other).
  assert (tb_instances t !! id ≠ None → t1 = t) as Ht1.
  { intros Hn. unfold t1, parent_step. fold id. by rewrite bool_decide_false. }
  destruct (bool_decide (select_versions t id = rows)) eqn:Es; bool_to_prop.
  - destruct Hv as [-> ->]. split; [|split].
    + exists parent. split; [done|]. split; [done|]. do 2 (split; [done|]).
      destruct (bool_decide (tb_instances t !! id = None)) eqn:Ec; bool_to_prop; auto.
    + unfold t1. by rewrite select_parent.
    + intros other Hne. split; [by apply Hoth|]. apply versions_of_parent.
  - destruct Hv as (Hsel & Hvo & Hc).
    destruct (bool_decide (tb_instances t !! id = None)) eqn:Ec; bool_to_prop.
    + destruct Hc as [-> Hi]. split; [|split; [done|]].
      * exists parent. rewrite Hi. by do 4 (split; [done|]).
      * intros other Hne. rewrite Hi, Hvo by done. split; [by apply Hoth|apply versions_of_parent].
    + destruct Hc as (row & Hrow & Hi). rewrite Hp in Hrow. injection Hrow as <-. split; [|split; [done|]].
      * eexists. rewrite Hi, lookup_insert_eq. split; [done|]. split; [done|]. do 2 (split; [done|]).
        exists parent. rewrite <- (Ht1 Ec). by rewrite Hp, Ht1.
      * intros other Hne. rewrite Hi, lookup_insert_ne, Hvo by done.
        split; [by apply Hoth|apply versions_of_parent].
Qed.
Lemma statements_sound owner inventory t r t' :
  inventory_wf inventory →
  replace_statements owner inventory t = (Ok r, t') →
  replaced owner inventory (tx_tables t) (tx_tables t') r.
Proof.
  intros (_ & Hwf & Hids). unfold replace_statements. intros Hr. invert_run Hr.
  destruct a10 as [same count]. invert_run Hr. txn_steps. simpl in *.
  match goal with Hn : tx_tables ?a = tx_tables ?b |- _ => rewrite Hn in * end.
  apply parent_step_run in R4; [|done]. rewrite R4 in *.
  apply TimestampMicros_new_Some in R8 as [-> _], R9 as [-> _]. bool_to_prop.
  rewrite select_parent in R10. apply scan_spec in R10 as (-> & -> & Hs7); [|done|apply cursor_start; done].
  rewrite remaining_start in *. simpl in Hs7. rewrite R4 in Hs7.
  apply replace_versions_ok in R11; [|done]. rewrite Hs7 in R11. simpl in R11.
  apply (replaced_intro owner inventory a1 _ a7); [exact R7|split; by apply str_eqb_eq|].
  destruct (bool_decide (select_versions _ _ = _)); [|exact R11]. destruct R11 as [-> ->]. by rewrite Hs7.
Qed.
Lemma replace_uncertain owner inventory t t' :
  inventory_wf inventory →
  replace_body owner inventory t = (Err (IR_Control CE_OutcomeUncertain), t') →
  ∃ r, replaced owner inventory (tx_tables t) (tx_tables t') r.
Proof.
  intros Hwf Hr. unfold replace_body in Hr. apply bind_cases in Hr as [(r & s & Hs & Hr)|(e & Hs & [= <-])].
  - exists r. apply statements_sound in Hs; [|done].
    apply bind_cases in Hr as [(? & ? & _ & Hr)|(e & Hc & [= <-])]; [done|].
    unfold commit in Hc. destruct (tx_faults s) as [|[]]; [done| |done]. by injection Hc as <-.
  - exfalso. by eapply certain_statements.
Qed.
Lemma replace_ok owner inventory t r t' :
  inventory_wf inventory → replace_body owner inventory t = (Ok r, t') →
  replaced owner inventory (tx_tables t) (tx_tables t') r.
Proof.
  intros Hwf Hr. unfold replace_body in Hr. invert_run Hr.
  select (commit _ = _) (fun Hc => destruct a0; apply commit_ok in Hc as ->).
  exact (statements_sound _ _ _ _ _ Hwf R).
Qed.

Ltac skip H := apply bind_cases in H as [(?a & ?s & ?R & H)|(?e & H & [= <-])].
Lemma parent_conflict owner id stamp t row :
  tb_instances (parent_step owner id stamp t) !! id = Some row → ¬ owned_by row owner →
  tb_instances t !! id = Some row.
Proof.
  unfold parent_step. case_bool_decide; [|done]. simpl. rewrite lookup_insert_eq.
  intros [= <-] Hn. exfalso. by apply Hn.
Qed.
(** The statements report a conflict only for the row of another owner. *)
Lemma replace_conflict owner inventory t t' :
  replace_body owner inventory t = (Err IR_OwnerConflict, t') →
  ∃ row, tb_instances (tx_tables t) !! ii_instance_id inventory = Some row ∧ ¬ owned_by row owner.
Proof.
  assert (∀ e, e ≠ CE_OutcomeUncertain → IR_Control e ≠ IR_OwnerConflict) as Hc by done.
  unfold replace_body. intros Hr. apply bind_cases in Hr as [(r & s & _ & Hr)|(e & Hr & [= <-])].
  { apply bind_cases in Hr as [(? & ? & _ & Hr)|(e & Hr & [= <-])]; [done|].
    unfold commit in Hr. by destruct (tx_faults s) as [|[]]. }
  unfold replace_statements in Hr.
  skip Hr; [|by eapply never_await_storage in Hr].
  skip Hr; [|by eapply never_await_persistence in Hr].
  skip Hr; [|by eapply never_now in Hr].
  skip Hr; [|by eapply never_await_persistence in Hr].
  skip Hr; [|done].
  skip Hr; [|by unfold set_tables, ret in Hr; destruct (bool_decide _)].
  skip Hr; [|by eapply never_await_persistence in Hr]. txn_steps. simpl in *.
  skip Hr; [|done]. txn_steps. simpl in *.
  do 3 (skip Hr; [|by eapply (only_ok_or (.≠ IR_OwnerConflict)) in Hr]).
  select (lift_result (ok_or (tb_instances _ !! _) _) _ = _) (fun Hp => apply lift_ok in Hp as [Hp%ok_or_ok _]).
  apply parent_step_run in R4; [|done]. simpl in R4. rewrite R1 in R4. rewrite R4 in *.
  match goal with Hp : tb_instances (parent_step _ _ _ _) !! _ = Some ?row |- _ => rename row into parent end.
  destruct (_ || _) in Hr; [done|]. destruct (_ || _) eqn:Eo in Hr.
  - assert (¬ owned_by parent owner) as Hno.
    { intros [Hi Hs]. by rewrite Hi, Hs, !str_eqb_refl in Eo. }
    exists parent. split; [|done]. by eapply parent_conflict.
  - exfalso. skip Hr; [|by eapply never_scan in Hr]. match goal with p : (bool * Z)%type |- _ => destruct p end.
    skip Hr; [done|]. by eapply never_replace_versions in Hr.
Qed.

(** C21. Replacing the inventory of an installation is atomic and exact under
    every schedule of failures.  When it reports success, the tables hold
    exactly the new inventory under the caller's ownership, with the reported
    times and change, and nothing else moved; when the outcome is uncertain,
    they hold either that or what was there before; on any other error nothing
    changed, and a conflict is reported only when the installation belongs to
    another owner. *)
Theorem replace_instance_inventory_refines timeout owner inventory deadline faults lands t c x t' c' :
  inventory_wf inventory →
  replace_instance_inventory timeout owner inventory deadline faults lands t c = (x, t', c') →
  match x with
  | Ok r => replaced owner inventory t t' r
  | Err (IR_Control CE_OutcomeUncertain) => t' = t ∨ ∃ r, replaced owner inventory t t' r
  | Err IR_OwnerConflict =>
      t' = t ∧ ∃ row, tb_instances t !! ii_instance_id inventory = Some row ∧ ¬ owned_by row owner
  | Err _ => t' = t
  end.
Proof.
  intros Hwf. unfold replace_instance_inventory.
  destruct (bounded_deadline deadline timeout c) as [[stop|e] c1] eqn:Eb.
  2: { intros [= <- <- <-]. destruct e; auto. }
  destruct (replace_body _ _ _) as [[r|e] tx] eqn:Er.
  - intros [= <- <- <-]. by apply replace_ok in Er.
  - destruct e as [| | | |e]; try (intros [= <- <- <-]; done).
    + intros [= <- <- <-]. split; [done|]. by apply replace_conflict in Er.
    + destruct e; intros [= <- <- <-]; try done. destruct lands; [|by left]. right.
      by apply replace_uncertain in Er.
Qed.
End store.

#[local] Existing Instance sample_ulid_lib.
Definition sample_inventory : InstanceInventory :=
  {| ii_instance_id := "station";
     ii_projects := [{| ipv_project_id := sample_project; ipv_versions := ["main"; "release"] |}] |}.
Definition sample_stored : StoredInstanceInventory :=
  {| si_owner := {| owner_issuer := "local"; owner_subject := "alice" |};
     si_inventory := sample_inventory; si_created_at := 3; si_updated_at := 4 |}.
Lemma sample_inventory_wf : inventory_wf sample_inventory.
Proof.
  split; [done|]. split; [|repeat constructor]. repeat constructor; [done..|].
  intros v. simpl. rewrite !elem_of_cons, elem_of_nil. by intros [->|[->|[]]].
Qed.
Lemma decode_inventory_canonical_witness :
  decode_inventory (λ _, Some (encode_stored sample_stored)) "station" "json" = Ok sample_stored.
Proof.
  apply (@decode_inventory_canonical sample_ulid_lib eq_refl). split; [done|]. split; [done|].
  split; [exact sample_inventory_wf|]. done.
Defined.
Definition sample_clock_micros : clock :=
  {| mono_at := λ n, Z.of_nat n; utc_at := λ n, (7000 + 1000 * Z.of_nat n)%Z; tick := 0 |}.
Definition empty_tables : Tables := {| tb_instances := ∅; tb_versions := ∅ |}.
Definition sample_replace (faults : list (option fault)) :=
  replace_instance_inventory 1000 (si_owner sample_stored) sample_inventory 500 faults true empty_tables
    sample_clock_micros.
(** A first registration, and the same one cut off during COMMIT. *)
Lemma replace_instance_inventory_refines_witness :
  (∃ r t' c', sample_replace [] = (Ok r, t', c') ∧ rr_change r = Created ∧
     select_versions t' "station" = inventory_rows (ii_projects sample_inventory)) ∧
  (∃ t' c', sample_replace (replicate 8 None ++ [Some CutOff]) = (Err (IR_Control CE_OutcomeUncertain), t', c') ∧
     (t' = empty_tables ∨ ∃ r, replaced (si_owner sample_stored) sample_inventory empty_tables t' r)).
Proof.
  split.
  - destruct (sample_replace []) as [[[r|e] t'] c'] eqn:E; [|vm_compute in E; discriminate E].
    exists r, t', c'. split; [done|]. split; [vm_compute in E; by simplify_eq|].
    unfold sample_replace in E.
    by destruct (replace_instance_inventory_refines _ _ _ _ _ _ _ _ _ _ _ sample_inventory_wf E) as (_ & _ & Hs & _).
  - destruct (sample_replace (replicate 8 None ++ [Some CutOff])) as [[x t'] c'] eqn:E.
    assert (x = Err (IR_Control CE_OutcomeUncertain)) as ->.
    { apply (f_equal (fst ∘ fst)) in E. vm_compute in E. by symmetry. }
    exists t', c'. split; [done|]. unfold sample_replace in E.
    exact (replace_instance_inventory_refines _ _ _ _ _ _ _ _ _ _ _ sample_inventory_wf E).
Defined.
