(* ===== verification/NowChannel.v ===== *)
(** * Authorization of a Now channel

    crates/broker-control/src/now_channel.rs and service/now_channel.rs: the
    observation one channel operation makes of the caller, of the grants and of
    the installation registry, and the section mask that follows from it. *)

From S2P Require Import Prelude RustStr Order Control LocalBearer BrokerAccess.
From S2P Require Import InstanceRegistry ResourceGrants Session Identity ResourcePolicy.
From S2P Require Import NowWire ProjectAuthorization Instances.

Inductive NowChannelAuthorizationError :=
| NC_Native (e : BrokerPresenceAuthorizationError) | NC_Local (e : PresenceAuthorizationError)
| NC_Inventory (e : InstanceReadError) | NC_InvalidChannel | NC_InvalidProject | NC_NotRegistered
| NC_OwnerConflict | NC_SnapshotProjectMismatch.

Record PresenceChannel := { ch_instance_id : string; ch_project_id : string; ch_version : string }.
#[global] Instance PresenceChannel_eq_dec : EqDecision PresenceChannel.
Proof. solve_decision. Defined.
Record NowReadMask := { mask_task : bool; mask_memory : bool; mask_knowledge : bool }.

Section channel.
Context `{UlidLib, GlobLib, JwtLib}.

Definition PresenceChannel_new (instance_id project_id version : string)
    : result NowChannelAuthorizationError PresenceChannel :=
  if negb (canonical_instance_id instance_id) || negb (canonical_project_id project_id)
     || negb (canonical_version version) then Err NC_InvalidChannel
  else Ok {| ch_instance_id := instance_id; ch_project_id := project_id; ch_version := version |}.

(** ** The principal of a channel operation *)

Inductive ChannelPrincipal := CP_Native (p : VerifiedBrokerAccess) | CP_Local (p : VerifiedLocalBearer).
Definition policy_error (p : ChannelPrincipal) (e : ResourcePolicyError) : NowChannelAuthorizationError :=
  match p with
  | CP_Native _ => NC_Native (BP_from_policy e)
  | CP_Local _ => NC_Local (PR_from_policy e)
  end.
Definition cp_forbidden (p : ChannelPrincipal) : NowChannelAuthorizationError :=
  match p with CP_Native _ => NC_Native BP_Forbidden | CP_Local _ => NC_Local PR_Forbidden end.
Definition cp_allows (p : ChannelPrincipal) (policy : list CompiledRule) (cap project : string) (stop : Z)
    : M clock NowChannelAuthorizationError bool :=
  map_err (policy_error p)
    match p with
    | CP_Native b => allows_broker policy b cap project stop
    | CP_Local l => allows policy (current_local_user l) cap project stop
    end.
Definition cp_owns (p : ChannelPrincipal) (owner : InstanceOwner) : bool :=
  let '(issuer, subject) :=
    match p with
    | CP_Native b => (vb_issuer b, vb_subject b)
    | CP_Local l => (lu_issuer (current_local_user l), lu_subject (current_local_user l))
    end in
  str_eqb (owner_issuer owner) issuer && str_eqb (owner_subject owner) subject.
Definition cp_finish (p : ChannelPrincipal) : M clock NowChannelAuthorizationError ChannelPrincipal :=
  match p with
  | CP_Native b => do? map_err (λ e, NC_Native (BP_from_access e)) (vb_check b) in ret (CP_Native b)
  | CP_Local l =>
      let? now := map_err (λ e, NC_Local (PR_Control e)) now_micros in
      let? l := map_err (λ e, NC_Local (PR_from_bearer e)) (vl_finish l now) in
      ret (CP_Local l)
  end.
Definition cp_expired (p : ChannelPrincipal) : NowChannelAuthorizationError :=
  match p with
  | CP_Native _ => NC_Native (BP_from_access BA_Expired)
  | CP_Local _ => NC_Local (PR_from_bearer LBV_Unauthenticated)
  end.
Definition cp_authentication_expiry (p : ChannelPrincipal) : Z * Z :=
  match p with
  | CP_Native b => vb_authentication_expiry b
  | CP_Local l => vl_authentication_expiry l
  end.

(** ** The authorization of one operation *)

Record NowAuthorization := {
  na_principal : ChannelPrincipal;
  na_project_id : string;
  na_mask : NowReadMask;
  na_policy_revision : Z;
  na_end : Z;
  na_expires_at : Z;
  na_expires_mono : Z;
}.
Definition na_expired_at (a : NowAuthorization) (utc mono : Z) : bool :=
  (na_expires_at a <=? utc)%Z || (na_expires_mono a <=? mono)%Z.
Definition na_check (a : NowAuthorization) : M clock NowChannelAuthorizationError unit :=
  do? map_err (policy_error (na_principal a)) (check_deadline (na_end a)) in
  let? utc := system_now in
  let? mono := instant_now in
  if na_expired_at a utc mono then fail (cp_expired (na_principal a)) else
  match na_principal a with
  | CP_Native b => map_err (λ e, NC_Native (BP_from_access e)) (vb_check b)
  | CP_Local _ => ret tt
  end.
Definition NowAuthorization_new (principal : ChannelPrincipal) (project_id : string) (stop : Z)
    : M clock NowChannelAuthorizationError NowAuthorization :=
  let? principal := cp_finish principal in
  let '(expires_at, expires_mono) := cp_authentication_expiry principal in
  let out := {| na_principal := principal; na_project_id := project_id;
                na_mask := {| mask_task := false; mask_memory := false; mask_knowledge := false |};
                na_policy_revision := 0; na_end := stop; na_expires_at := expires_at;
                na_expires_mono := expires_mono |} in
  do? na_check out in
  ret out.
Definition filter_snapshot (a : NowAuthorization) (snapshot : NowSnapshotData)
    : M clock NowChannelAuthorizationError NowSnapshotData :=
  do? na_check a in
  if negb (str_eqb (nsd_project_id snapshot) (na_project_id a)) then fail NC_SnapshotProjectMismatch else
  let masked := mask_sections snapshot (mask_task (na_mask a)) (mask_memory (na_mask a))
                  (mask_knowledge (na_mask a)) in
  do? na_check a in
  ret masked.
Definition set_principal (a : NowAuthorization) (p : ChannelPrincipal) : NowAuthorization :=
  {| na_principal := p; na_project_id := na_project_id a; na_mask := na_mask a;
     na_policy_revision := na_policy_revision a; na_end := na_end a;
     na_expires_at := na_expires_at a; na_expires_mono := na_expires_mono a |}.
Definition set_decision (a : NowAuthorization) (mask : NowReadMask) (revision : Z) : NowAuthorization :=
  {| na_principal := na_principal a; na_project_id := na_project_id a; na_mask := mask;
     na_policy_revision := revision; na_end := na_end a;
     na_expires_at := na_expires_at a; na_expires_mono := na_expires_mono a |}.
(** [proof.principal.finish()] followed by [proof.check()]. *)
Definition na_finish (a : NowAuthorization) : M clock NowChannelAuthorizationError NowAuthorization :=
  let? p := cp_finish (na_principal a) in
  let a := set_principal a p in
  do? na_check a in
  ret a.

Record AuthorizedChannel := {
  ac_authorization : NowAuthorization;
  ac_channel : PresenceChannel;
  ac_snapshot : StoredInstanceInventory;
}.

(** ** The authorizer *)

Section authorizer.
Context (digest : LocalBearerKind → string → option string)
        (read_state : string → LocalBearerKind → Z
                      → M clock LocalBearerStateError (option LocalBearerState))
        (read_grants : Z → M clock ResourceGrantReadError ResourceGrantSnapshot)
        (read_inventory : string → Z → M clock InstanceReadError (option StoredInstanceInventory))
        (operation_timeout : Z).

(** The two factories: a verifier of signed tokens, or the local audience. *)
Inductive Authentication := AuthNative (verifier : BrokerAccessVerifier) | AuthLocal (audience : string).
Definition auth_control (a : Authentication) (e : ControlError) : NowChannelAuthorizationError :=
  match a with AuthNative _ => NC_Native (BP_Control e) | AuthLocal _ => NC_Local (PR_Control e) end.
Definition authenticate (a : Authentication) (raw : string) (scopes : list string) (stop : Z)
    : M clock NowChannelAuthorizationError ChannelPrincipal :=
  match a with
  | AuthNative verifier =>
      let? p := map_err (λ e, NC_Native (BP_from_access e)) (verify_access verifier raw scopes stop) in
      ret (CP_Native p)
  | AuthLocal audience =>
      let? p := map_err (λ e, NC_Local (PR_from_bearer e))
        (verify_local_bearer digest read_state operation_timeout audience raw scopes stop) in
      ret (CP_Local p)
  end.
Definition grants_error (p : ChannelPrincipal) (e : ResourceGrantReadError) : NowChannelAuthorizationError :=
  match p with CP_Native _ => NC_Native (BP_from_grants e) | CP_Local _ => NC_Local (PR_from_grants e) end.
(** The closure [read]: whether the caller reads one module. *)
Definition reads (a : NowAuthorization) (policy : list CompiledRule) (module : ProjectResourceModule)
    (project_id : string) (stop : Z) : M clock NowChannelAuthorizationError bool :=
  let? cap := lift_result (ok_or (capability module PX_Read) (cp_forbidden (na_principal a))) in
  cp_allows (na_principal a) policy cap project_id stop.

Definition authorize_project (auth : Authentication) (raw : string) (scopes : list string)
    (project_id : string) (cap : PresenceCapability) (original : Z)
    : M clock NowChannelAuthorizationError NowAuthorization :=
  let? stop := map_err (auth_control auth) (bounded_deadline original operation_timeout) in
  if negb (canonical_project_id project_id) then fail NC_InvalidProject else
  let? principal := authenticate auth raw scopes stop in
  let? proof := NowAuthorization_new principal project_id stop in
  let? grants := map_err (grants_error (na_principal proof)) (read_grants stop) in
  let? policy := map_err (policy_error (na_principal proof)) (compile grants stop) in
  let? allowed := cp_allows (na_principal proof) policy (presence_as_str cap) project_id stop in
  let? proof := na_finish proof in
  if negb allowed then fail (cp_forbidden (na_principal proof)) else
  let? task := reads proof policy PM_Task project_id stop in
  let? memory := reads proof policy PM_Memory project_id stop in
  let? knowledge := reads proof policy PM_Knowledge project_id stop in
  na_finish (set_decision proof {| mask_task := task; mask_memory := memory; mask_knowledge := knowledge |}
               (gs_revision grants)).

(** Whether the inventory registers the project and version of a channel. *)
Definition registers (snapshot : StoredInstanceInventory) (channel : PresenceChannel) : bool :=
  existsb (λ p, str_eqb (ipv_project_id p) (ch_project_id channel)
                && existsb (λ v, str_eqb v (ch_version channel)) (ipv_versions p))
    (ii_projects (si_inventory snapshot)).
Definition channel_decision (cap : PresenceCapability) (p : ChannelPrincipal) (channel : PresenceChannel)
    (snapshot : option StoredInstanceInventory) : result NowChannelAuthorizationError unit :=
  match snapshot with
  | Some s =>
      if bool_decide (cap = PresencePublish) && negb (cp_owns p (si_owner s)) then Err NC_OwnerConflict
      else if registers s channel then Ok tt
      else Err NC_NotRegistered
  | None => Err NC_NotRegistered
  end.
Definition authorize_channel (auth : Authentication) (raw : string) (scopes : list string)
    (channel : PresenceChannel) (cap : PresenceCapability) (original : Z)
    : M clock NowChannelAuthorizationError AuthorizedChannel :=
  let? a := authorize_project auth raw scopes (ch_project_id channel) cap original in
  let? snapshot := map_err NC_Inventory (read_inventory (ch_instance_id channel) (na_end a)) in
  let decision := channel_decision cap (na_principal a) channel snapshot in
  let? a := na_finish a in
  do? lift_result decision in
  let? snapshot := lift_result (ok_or snapshot NC_NotRegistered) in
  ret {| ac_authorization := a; ac_channel := channel; ac_snapshot := snapshot |}.
Definition authorize_publish auth raw scopes channel original :=
  authorize_channel auth raw scopes channel PresencePublish original.
Definition authorize_read auth raw scopes channel original :=
  authorize_channel auth raw scopes channel PresenceRead original.
Definition authorize_subscriber_project auth raw scopes project_id original :=
  authorize_project auth raw scopes project_id PresenceRead original.

(** ** Lemmas *)

Lemma filter_snapshot_project a snapshot c m c' :
  filter_snapshot a snapshot c = (Ok m, c') → nsd_project_id m = na_project_id a.
Proof. unfold filter_snapshot. intros Hr. invert_run Hr. bool_to_prop. by apply str_eqb_eq. Qed.

(** The policy's view of a principal. *)
Definition cp_user (p : ChannelPrincipal) : Principal :=
  match p with CP_Native b => principal_broker b | CP_Local l => principal_local (vl_user l) end.
Lemma cp_finish_ok p c p' c' :
  cp_finish p c = (Ok p', c') →
  cp_user p' = cp_user p ∧ cp_authentication_expiry p' = cp_authentication_expiry p.
Proof.
  destruct p as [b|l]; simpl; intros Hr; invert_run Hr; [done|].
  select (vl_finish _ _ _ = _) (fun Hf => apply vl_finish_ok in Hf as (-> & _)). done.
Qed.
Lemma na_check_ok a c c' :
  na_check a c = (Ok tt, c') →
  (mono_at c (tick c) < na_end a)%Z ∧ (utc_at c (S (tick c)) < na_expires_at a)%Z ∧
  (mono_at c (S (S (tick c))) < na_expires_mono a)%Z.
Proof.
  unfold na_check, na_expired_at. intros Hr. apply bind_ok in Hr as ([] & c1 & Hd%map_err_ok & Hr).
  apply check_deadline_ok in Hd as [Hd ->]. invert_run Hr. simpl in *. bool_to_prop. done.
Qed.
(** The same authorization, with its principal finished again. *)
Definition same_authorization (a a' : NowAuthorization) : Prop :=
  cp_user (na_principal a') = cp_user (na_principal a) ∧ na_project_id a' = na_project_id a ∧
  na_mask a' = na_mask a ∧ na_policy_revision a' = na_policy_revision a ∧ na_end a' = na_end a ∧
  na_expires_at a' = na_expires_at a ∧ na_expires_mono a' = na_expires_mono a.
Lemma na_finish_ok a c a' c' :
  na_finish a c = (Ok a', c') →
  same_authorization a a' ∧ ∃ c1, na_check a' c1 = (Ok tt, c').
Proof.
  unfold na_finish. intros Hr. invert_run Hr.
  select (cp_finish _ _ = _) (fun Hf => apply cp_finish_ok in Hf as [Hu _]).
  split; [by repeat split|]. select (na_check _ _ = _) (fun Hc => destruct a1; eauto).
Qed.
Lemma NowAuthorization_new_ok p project stop c a c' :
  NowAuthorization_new p project stop c = (Ok a, c') →
  cp_user (na_principal a) = cp_user p ∧ na_project_id a = project ∧ na_end a = stop ∧
  (na_expires_at a, na_expires_mono a) = cp_authentication_expiry p.
Proof.
  unfold NowAuthorization_new. intros Hr. invert_run Hr.
  select (cp_finish _ _ = _) (fun Hf => apply cp_finish_ok in Hf as [Hu He]).
  rewrite <- He. destruct (cp_authentication_expiry a0) as [ea em]. invert_run Hr. done.
Qed.
Lemma cp_allows_decides p policy snapshot cap project stop c1 c2 allowed c3 :
  compile snapshot stop c1 = (Ok policy, c2) →
  ∀ c, cp_allows p policy cap project stop c = (Ok allowed, c3) →
  decides snapshot (cp_user p) cap project allowed.
Proof.
  intros Hc c Ha%map_err_ok. eapply compiled_decides; [exact Hc|].
  by destruct p; [exact Ha|exact Ha].
Qed.
Lemma reads_decides a policy snapshot module cap project stop c1 c2 c allowed c3 :
  compile snapshot stop c1 = (Ok policy, c2) → capability module PX_Read = Some cap →
  reads a policy module project stop c = (Ok allowed, c3) →
  decides snapshot (cp_user (na_principal a)) cap project allowed.
Proof.
  intros Hc Hcap. unfold reads. rewrite Hcap. intros Hr. apply bind_ok in Hr as (cap' & c4 & Hl & Hr).
  apply lift_ok in Hl as [[= <-] ->].
  by eapply cp_allows_decides.
Qed.

(** What a project authorization observed and decided. *)
Record now_authorized (auth : Authentication) (raw : string) (scopes : list string) (project : string)
    (cap : PresenceCapability) (original : Z) (a : NowAuthorization) : Prop := {
  nw_project : canonical_project_id project = true ∧ na_project_id a = project;
  nw_end : (na_end a ≤ original)%Z;
  nw_decision : ∃ p snapshot c1 c2 c3 c4,
    authenticate auth raw scopes (na_end a) c1 = (Ok p, c2) ∧
    read_grants (na_end a) c3 = (Ok snapshot, c4) ∧
    cp_user (na_principal a) = cp_user p ∧
    (na_expires_at a, na_expires_mono a) = cp_authentication_expiry p ∧
    na_policy_revision a = gs_revision snapshot ∧
    decides snapshot (cp_user p) (presence_as_str cap) project true ∧
    decides snapshot (cp_user p) "task:read" project (mask_task (na_mask a)) ∧
    decides snapshot (cp_user p) "memory:read" project (mask_memory (na_mask a)) ∧
    decides snapshot (cp_user p) "knowledge:read" project (mask_knowledge (na_mask a));
}.
Lemma same_now_authorized auth raw scopes project cap original a a' :
  same_authorization a a' → now_authorized auth raw scopes project cap original a →
  now_authorized auth raw scopes project cap original a'.
Proof.
  intros (Hu & Hp & Hm & Hr & He & Hx & Hy) [Hpr Hend Hd].
  split; rewrite ?Hu, ?Hp, ?Hm, ?Hr, ?He, ?Hx, ?Hy; done.
Qed.
Lemma authorize_project_ok auth raw scopes project cap original c a c' :
  authorize_project auth raw scopes project cap original c = (Ok a, c') →
  now_authorized auth raw scopes project cap original a ∧ ∃ c1, na_check a c1 = (Ok tt, c').
Proof.
  unfold authorize_project. intros Hr. invert_run Hr. bool_to_prop.
  select (bounded_deadline _ _ _ = _) (fun Hb => apply bounded_deadline_ok in Hb as (_ & Hstop & _)).
  apply na_finish_ok in Hr as [Hsame Hcheck]. split; [|done].
  eapply same_now_authorized; [exact Hsame|].
  select (NowAuthorization_new _ _ _ _ = _) (fun Hn => apply NowAuthorization_new_ok in Hn as (Hu & Hp & He & Hx)).
  select (na_finish _ _ = _) (fun Hf => apply na_finish_ok in Hf as [(Hu' & Hp' & Hm' & Hr' & He' & Hx' & Hy') _]).
  match goal with Hc : compile _ _ _ = _ |- _ => pose proof Hc as Hcomp end.
  split; simpl; rewrite ?Hp', ?He', ?Hx', ?Hy', ?Hu', ?Hp, ?He, ?Hu; [done|done|].
  do 6 eexists. split; [eassumption|]. split; [eassumption|]. split; [done|]. split; [done|]. split; [done|].
  rewrite <- Hu. subst. split; [by eapply cp_allows_decides|]. rewrite <- Hu'.
  split; [|split]; (eapply reads_decides; [exact Hcomp| |eassumption]; done).
Qed.

(** The errors of everything but the registry decision. *)
Definition not_registry (e : NowChannelAuthorizationError) : Prop :=
  match e with NC_OwnerConflict | NC_NotRegistered => False | _ => True end.
Lemma policy_error_not_registry p e : not_registry (policy_error p e).
Proof. by destruct p. Qed.
Lemma cp_expired_not_registry p : not_registry (cp_expired p).
Proof. by destruct p. Qed.
Lemma cp_forbidden_not_registry p : not_registry (cp_forbidden p).
Proof. by destruct p. Qed.
Lemma grants_error_not_registry p e : not_registry (grants_error p e).
Proof. by destruct p. Qed.
Lemma auth_control_not_registry a e : not_registry (auth_control a e).
Proof. by destruct a. Qed.
#[local] Hint Resolve policy_error_not_registry cp_expired_not_registry cp_forbidden_not_registry
  grants_error_not_registry auth_control_not_registry : broker.
#[local] Hint Extern 1 (not_registry _) => exact I : broker.
Lemma na_check_only a : only not_registry (na_check a).
Proof. unfold na_check. auto 20 with broker. Qed.
Lemma cp_finish_only p : only not_registry (cp_finish p).
Proof. unfold cp_finish. auto 20 with broker. Qed.
#[local] Hint Resolve na_check_only cp_finish_only : broker.
Lemma na_finish_only a : only not_registry (na_finish a).
Proof. unfold na_finish. auto 20 with broker. Qed.
#[local] Hint Resolve na_finish_only : broker.
Lemma authorize_project_only auth raw scopes project cap original :
  only not_registry (authorize_project auth raw scopes project cap original).
Proof.
  unfold authorize_project, authenticate, NowAuthorization_new, reads, cp_allows. auto 60 with broker.
Qed.
Lemma authorize_channel_project auth raw scopes channel cap original c r c' :
  authorize_channel auth raw scopes channel cap original c = (Ok r, c') →
  na_project_id (ac_authorization r) = ch_project_id (ac_channel r).
Proof.
  unfold authorize_channel. intros Hr. invert_run Hr.
  select (authorize_project _ _ _ _ _ _ _ = _) (fun Ha => apply authorize_project_ok in Ha as [[[_ Hp] _ _] _]).
  select (na_finish _ _ = _) (fun Hf => apply na_finish_ok in Hf as [(_ & Hp' & _) _]).
  simpl. by rewrite Hp'.
Qed.
Lemma registers_spec s channel :
  registers s channel = true ↔
  ∃ p, p ∈ ii_projects (si_inventory s) ∧ ipv_project_id p = ch_project_id channel ∧
       ch_version channel ∈ ipv_versions p.
Proof.
  unfold registers. rewrite existsb_elem. split.
  - intros (p & Hp & [He%str_eqb_eq (v & Hv & ->%str_eqb_eq)%existsb_elem]%andb_true_iff). eauto.
  - intros (p & Hp & He & Hv). exists p. split; [done|]. apply andb_true_iff.
    split; [by apply str_eqb_eq|]. apply existsb_elem. exists (ch_version channel).
    split; [done|apply str_eqb_refl].
Qed.

(** The project authorization and the inventory one channel operation observed. *)
Definition observed (auth : Authentication) (raw : string) (scopes : list string)
    (channel : PresenceChannel) (cap : PresenceCapability) (original : Z) (a : NowAuthorization)
    (snapshot : option StoredInstanceInventory) : Prop :=
  now_authorized auth raw scopes (ch_project_id channel) cap original a ∧
  ∃ c1 c2, read_inventory (ch_instance_id channel) (na_end a) c1 = (Ok snapshot, c2).

(** ** Properties *)

(** An authorization of a Now project holds what the operation observed:
    the authenticated principal with its expiries, a deadline within the
    caller's, and grants that give it the presence capability on this project;
    each bit of the mask is exactly the grant's decision on reading that
    module, and the deadline and both expiries were checked last. *)
Theorem now_project_exact auth raw scopes project cap original c a c' :
  authorize_project auth raw scopes project cap original c = (Ok a, c') →
  now_authorized auth raw scopes project cap original a ∧
  ∃ cf, (mono_at cf (tick cf) < na_end a)%Z ∧ (utc_at cf (S (tick cf)) < na_expires_at a)%Z ∧
        (mono_at cf (S (S (tick cf))) < na_expires_mono a)%Z.
Proof.
  intros [Ha (cf & Hc%na_check_ok)]%authorize_project_ok. eauto.
Qed.

(** A channel is authorized only when the project is, the inventory read
    for its installation registers the project and the version of the channel,
    and, to publish, the installation belongs to the caller; a conflict is
    reported only for publishing on an installation of another owner, a
    missing registration only when the inventory lacks the channel. *)
Theorem now_channel_exact auth raw scopes channel cap original c x c' :
  authorize_channel auth raw scopes channel cap original c = (x, c') →
  match x with
  | Ok r => ∃ a,
      observed auth raw scopes channel cap original a (Some (ac_snapshot r)) ∧ same_authorization a (ac_authorization r) ∧
      ac_channel r = channel ∧
      (cap = PresencePublish → cp_owns (na_principal a) (si_owner (ac_snapshot r)) = true) ∧
      ∃ p, p ∈ ii_projects (si_inventory (ac_snapshot r)) ∧ ipv_project_id p = ch_project_id channel ∧
           ch_version channel ∈ ipv_versions p
  | Err NC_OwnerConflict => ∃ a s,
      observed auth raw scopes channel cap original a (Some s) ∧ cap = PresencePublish ∧ cp_owns (na_principal a) (si_owner s) = false
  | Err NC_NotRegistered => ∃ a snapshot,
      observed auth raw scopes channel cap original a snapshot ∧ ∀ s, snapshot = Some s → registers s channel = false
  | Err _ => True
  end.
Proof.
  unfold authorize_channel. intros Hr.
  run_cases Hr. 2: { apply authorize_project_only in R. by destruct e. }
  apply authorize_project_ok in R as [Ha _]. run_cases Hr; [|done].
  assert (observed auth raw scopes channel cap original a a0) as Hobs by (unfold observed; eauto).
  run_cases Hr. 2: { apply na_finish_only in R0. by destruct e. }
  apply na_finish_ok in R0 as [Hsame _]. unfold channel_decision in Hr.
  destruct a0 as [snapshot|]; simpl in Hr; [|injection Hr as <- <-; exists a, None; by split].
  destruct (bool_decide (cap = PresencePublish)) eqn:Ecap, (cp_owns (na_principal a) (si_owner snapshot)) eqn:Eown,
    (registers snapshot channel) eqn:Ereg; simpl in Hr; injection Hr as <- <-; bool_to_prop.
  all: try (by exists a, snapshot). 
  all: try (exists a, (Some snapshot); split; [done|]; by intros ? [= <-]).
  all: exists a; simpl; do 3 (split; [done|]); split; [done|]; by apply registers_spec.
Qed.

(** What leaves through an authorization is masked by it: the snapshot is
    of the authorized project, its sections are masked by exactly the bits of
    the authorization, and the deadline and both expiries were checked after
    the masking. *)
Theorem filter_snapshot_masks a snapshot c m c' :
  filter_snapshot a snapshot c = (Ok m, c') →
  nsd_project_id snapshot = na_project_id a ∧
  m = mask_sections snapshot (mask_task (na_mask a)) (mask_memory (na_mask a)) (mask_knowledge (na_mask a)) ∧
  ∃ cf, (mono_at cf (tick cf) < na_end a)%Z ∧ (utc_at cf (S (tick cf)) < na_expires_at a)%Z ∧
        (mono_at cf (S (S (tick cf))) < na_expires_mono a)%Z.
Proof.
  unfold filter_snapshot. intros Hr. invert_run Hr. bool_to_prop.
  split; [by apply str_eqb_eq|]. split; [done|].
  match goal with Hc : na_check _ _ = (Ok ?u, _) |- _ => destruct u; apply na_check_ok in Hc; by eauto end.
Qed.
End authorizer.
End channel.

#[local] Existing Instance sample_ulid_lib.
#[local] Existing Instance sample_jwt_lib.
#[local] Existing Instance sample_project_glob.
Definition sample_channel : PresenceChannel :=
  {| ch_instance_id := "station"; ch_project_id := sample_project; ch_version := "main" |}.
Definition sample_now_project (cap : PresenceCapability) :=
  authorize_project (λ _ _, Some "digest") (λ _ _ _, ret (Some sample_state))
    (λ _, ret sample_project_snapshot) 1000 (AuthLocal "aud") "gb_at_x" [] sample_project cap 500 sample_clock.
Lemma now_project_exact_witness :
  ∃ a c', sample_now_project PresenceRead = (Ok a, c') ∧
    na_mask a = {| mask_task := true; mask_memory := false; mask_knowledge := false |} ∧ (na_end a ≤ 500)%Z.
Proof.
  destruct (sample_now_project PresenceRead) as [[a|e] c'] eqn:E; [|vm_compute in E; discriminate E].
  exists a, c'. split; [done|]. split; [vm_compute in E; by simplify_eq|].
  unfold sample_now_project in E.
  by destruct (now_project_exact _ _ _ _ _ _ _ _ _ _ _ _ _ E) as [[_ ? _] _].
Defined.
Lemma now_channel_exact_witness :
  ∃ r c', authorize_channel (λ _ _, Some "digest") (λ _ _ _, ret (Some sample_state))
    (λ _, ret sample_project_snapshot) (λ _ _, ret (Some sample_stored)) 1000 (AuthLocal "aud") "gb_at_x" []
    sample_channel PresenceRead 500 sample_clock = (Ok r, c') ∧
    ∃ p, p ∈ ii_projects (si_inventory (ac_snapshot r)) ∧ ipv_project_id p = sample_project ∧ "main" ∈ ipv_versions p.
Proof.
  destruct (authorize_channel (λ _ _, Some "digest") (λ _ _ _, ret (Some sample_state))
    (λ _, ret sample_project_snapshot) (λ _ _, ret (Some sample_stored)) 1000 (AuthLocal "aud") "gb_at_x" []
    sample_channel PresenceRead 500 sample_clock) as [[r|e] c'] eqn:E; [|vm_compute in E; discriminate E].
  exists r, c'. split; [done|].
  by destruct (now_channel_exact _ _ _ _ _ _ _ _ _ _ _ _ _ _ E) as (a & _ & _ & _ & _ & Hp).
Defined.
Definition sample_section {T} : NowSectionData T :=
  {| sec_availability := Available; sec_items := []; sec_total := Some 0%Z; sec_has_more := Some false;
     sec_error := None |}.
Definition sample_now_snapshot : NowSnapshotData :=
  {| nsd_project_id := sample_project; nsd_generated_at := "7";
     nsd_sections := {| sd_tasks := sample_section; sd_sessions := sample_section;
                        sd_memories := sample_section; sd_knowledge := sample_section |} |}.
Definition sample_authorization : NowAuthorization :=
  {| na_principal := CP_Local sample_proof; na_project_id := sample_project;
     na_mask := {| mask_task := true; mask_memory := false; mask_knowledge := false |};
     na_policy_revision := 7; na_end := 500; na_expires_at := 100000; na_expires_mono := 95001 |}.
Lemma filter_snapshot_masks_witness :
  ∃ m c', filter_snapshot sample_authorization sample_now_snapshot sample_clock = (Ok m, c') ∧
    sd_memories (nsd_sections m) = forbid sample_section.
Proof.
  destruct (filter_snapshot sample_authorization sample_now_snapshot sample_clock) as [[m|e] c'] eqn:E;
    [|vm_compute in E; discriminate E].
  exists m, c'. split; [done|]. by destruct (filter_snapshot_masks _ _ _ _ _ E) as (_ & -> & _).
Defined.
