(* ===== verification/RealtimeHub.v ===== *)
(** * The realtime Hub

    crates/broker-presence/src/realtime_hub.rs: the ephemeral publications of
    Now snapshots, one slot per channel, with their project invalidations and
    replays.  Publication identities and broadcast channels are shared objects
    (handles keep them after a slot or a group is gone), so they live in heaps
    of their own; the state under the mutex refers to them by address. *)

From stdpp Require Import gmap.
From S2P Require Import Prelude RustStr Order Control LocalBearer BrokerAccess.
From S2P Require Import InstanceRegistry ResourceGrants Session Identity ResourcePolicy.
From S2P Require Import NowWire ProjectAuthorization Instances NowChannel.

Definition Key : Type := string * string * string.
Definition key (c : PresenceChannel) : Key := (ch_project_id c, ch_instance_id c, ch_version c).
Definition project_of (k : Key) : string := k.1.1.

Inductive RealtimeHubError :=
| RH_Authorization (e : NowChannelAuthorizationError) | RH_InvalidConfiguration | RH_InvalidContext
| RH_OwnerConflict | RH_AuthenticationExpired | RH_Superseded | RH_Closed | RH_Unavailable.
Inductive Phase := Dormant | Running | Closed.
#[global] Instance Phase_eq_dec : EqDecision Phase.
Proof. solve_decision. Defined.

Record Window := { w_utc : Z; w_mono : Z; w_heartbeat : Z }.
Definition window_active (w : Window) (utc mono : Z) : bool :=
  (utc <? w_utc w)%Z && (mono <? w_mono w)%Z && (mono <? w_heartbeat w)%Z.
Definition window_next (w : Window) (utc mono : Z) : Z :=
  let utc_end := default mono (duration_since (w_utc w) utc ≫= λ d, checked_add_time mono d) in
  Z.min (Z.min utc_end (w_mono w)) (w_heartbeat w).

Record Slot := {
  slot_channel : PresenceChannel;
  slot_issuer : string;
  slot_subject : string;
  slot_identity : nat;
  slot_snapshot : NowSnapshotData;
  slot_window : Window;
}.
(** A [broadcast] channel: its live receivers and the signals sent on it. *)
Record Broadcast := { bc_receivers : nat; bc_sent : nat }.
Record Hub := {
  h_phase : Phase;
  h_slots : gmap Key Slot;
  h_groups : gmap string nat;
  h_identities : gmap nat (option RealtimeHubError);
  h_broadcasts : gmap nat Broadcast;
  h_next : nat;
  h_poisoned : bool;
  h_notified : nat;
}.
Record Config := { hc_heartbeat : Z; hc_capacity : Z }.

(** ** The state under the mutex *)

Definition set_phase (h : Hub) (p : Phase) : Hub :=
  {| h_phase := p; h_slots := h_slots h; h_groups := h_groups h; h_identities := h_identities h;
     h_broadcasts := h_broadcasts h; h_next := h_next h; h_poisoned := h_poisoned h;
     h_notified := h_notified h |}.
Definition set_slots (h : Hub) (s : gmap Key Slot) : Hub :=
  {| h_phase := h_phase h; h_slots := s; h_groups := h_groups h; h_identities := h_identities h;
     h_broadcasts := h_broadcasts h; h_next := h_next h; h_poisoned := h_poisoned h;
     h_notified := h_notified h |}.
Definition set_groups (h : Hub) (g : gmap string nat) : Hub :=
  {| h_phase := h_phase h; h_slots := h_slots h; h_groups := g; h_identities := h_identities h;
     h_broadcasts := h_broadcasts h; h_next := h_next h; h_poisoned := h_poisoned h;
     h_notified := h_notified h |}.
Definition set_identities (h : Hub) (i : gmap nat (option RealtimeHubError)) : Hub :=
  {| h_phase := h_phase h; h_slots := h_slots h; h_groups := h_groups h; h_identities := i;
     h_broadcasts := h_broadcasts h; h_next := h_next h; h_poisoned := h_poisoned h;
     h_notified := h_notified h |}.
Definition set_broadcasts (h : Hub) (b : gmap nat Broadcast) : Hub :=
  {| h_phase := h_phase h; h_slots := h_slots h; h_groups := h_groups h; h_identities := h_identities h;
     h_broadcasts := b; h_next := h_next h; h_poisoned := h_poisoned h; h_notified := h_notified h |}.
(** A fresh address. *)
Definition bump (h : Hub) : Hub :=
  {| h_phase := h_phase h; h_slots := h_slots h; h_groups := h_groups h; h_identities := h_identities h;
     h_broadcasts := h_broadcasts h; h_next := S (h_next h); h_poisoned := h_poisoned h;
     h_notified := h_notified h |}.
Definition notify_one (h : Hub) : Hub :=
  {| h_phase := h_phase h; h_slots := h_slots h; h_groups := h_groups h; h_identities := h_identities h;
     h_broadcasts := h_broadcasts h; h_next := h_next h; h_poisoned := h_poisoned h;
     h_notified := S (h_notified h) |}.

(** A new [PublicationIdentity], alive, at the next address. *)
Definition fresh_identity (h : Hub) : Hub := bump (set_identities h (<[h_next h := None]> (h_identities h))).
(** [PublicationIdentity::end] and [end_reason]. *)
Definition end_identity (h : Hub) (i : nat) (reason : RealtimeHubError) : Hub :=
  set_identities h (<[i := Some reason]> (h_identities h)).
Definition end_reason (h : Hub) (i : nat) : option RealtimeHubError := default None (h_identities h !! i).
(** [sender.send(())]: without receivers the signal is dropped. *)
Definition send (h : Hub) (b : nat) : Hub :=
  match h_broadcasts h !! b with
  | Some bc => if bool_decide (bc_receivers bc = 0) then h else
      set_broadcasts h (<[b := {| bc_receivers := bc_receivers bc; bc_sent := S (bc_sent bc) |}]> (h_broadcasts h))
  | None => h
  end.
Definition receiver_count (h : Hub) (b : nat) : nat :=
  match h_broadcasts h !! b with Some bc => bc_receivers bc | None => 0 end.

Definition running (h : Hub) : result RealtimeHubError unit :=
  match h_phase h with
  | Running => Ok tt
  | Closed => Err RH_Closed
  | Dormant => Err RH_Unavailable
  end.
Definition signal (h : Hub) (project : string) : Hub :=
  match h_groups h !! project with Some b => send h b | None => h end.
Definition has_slot (h : Hub) (project : string) : bool :=
  existsb (λ k, str_eqb (project_of k) project) (map_to_list (h_slots h)).*1.
Definition prune_groups (h : Hub) : Hub :=
  set_groups h (filter (λ '(project, b), negb (bool_decide (receiver_count h b = 0)) || has_slot h project)
                 (h_groups h)).
(** Slots in the order of the [BTreeMap]. *)
Definition ordered_slots (h : Hub) : list (Key * Slot) := sort_by fst (map_to_list (h_slots h)).
Definition prune_slot (utc mono : Z) (h : Hub) (k : Key) : Hub :=
  match h_slots h !! k with
  | Some slot =>
      let h := set_slots h (delete k (h_slots h)) in
      let reason := if (w_utc (slot_window slot) <=? utc)%Z || (w_mono (slot_window slot) <=? mono)%Z
                    then RH_AuthenticationExpired else RH_Closed in
      signal (end_identity h (slot_identity slot) reason) (ch_project_id (slot_channel slot))
  | None => h
  end.
Definition prune (h : Hub) (utc mono : Z) : Hub :=
  let expired := (List.filter (λ '(_, s), negb (window_active (slot_window s) utc mono)) (ordered_slots h)).*1 in
  prune_groups (foldl (prune_slot utc mono) h expired).
Definition close (h : Hub) : Hub :=
  let h := set_phase h Closed in
  let h := foldl (λ h '(_, s), end_identity h (slot_identity s) RH_Closed) h (ordered_slots h) in
  notify_one (set_groups (set_slots h ∅) ∅).
Definition remove (h : Hub) (channel : PresenceChannel) (identity : nat) : Hub :=
  if h_poisoned h then close h else
  match h_slots h !! key channel with
  | Some s =>
      if bool_decide (slot_identity s = identity) then
        let h := set_slots h (delete (key channel) (h_slots h)) in
        let h := end_identity h identity RH_Closed in
        notify_one (prune_groups (signal h (ch_project_id channel)))
      else h
  | None => h
  end.

(** ** Computations over the Hub and the clock *)

Record World := { wo_hub : Hub; wo_clock : clock }.
Definition hub_now {E} : M World E Hub := λ w, (Ok (wo_hub w), w).
Definition set_hub {E} (h : Hub) : M World E unit := λ w, (Ok tt, {| wo_hub := h; wo_clock := wo_clock w |}).
Definition with_clock {E A} (m : M clock E A) : M World E A := λ w,
  match m (wo_clock w) with (r, c) => (r, {| wo_hub := wo_hub w; wo_clock := c |}) end.
Definition lock : M World RealtimeHubError unit := λ w,
  (if h_poisoned (wo_hub w) then Err RH_Unavailable else Ok tt, w).

(** [State::prune(&mut d, SystemTime::now(), Instant::now())] *)
Definition prune_now : M World RealtimeHubError unit :=
  let? utc := with_clock system_now in
  let? mono := with_clock instant_now in
  let? h := hub_now in
  set_hub (prune h utc mono).

Section hub.
Context `{UlidLib, GlobLib, JwtLib}.

Definition proof_check (a : NowAuthorization) : M World RealtimeHubError unit :=
  with_clock (map_err RH_Authorization (na_check a)).

(** ** Operations *)

(** [checked_next_power_of_two] of a [usize]. *)
Definition next_power_fits (capacity : Z) : bool := (capacity <=? 2 ^ 63)%Z.
Definition RealtimeHub_new (heartbeat_timeout broadcast_capacity : Z)
    : M clock RealtimeHubError (Hub * Config) :=
  if (heartbeat_timeout =? 0)%Z then fail RH_InvalidConfiguration else
  let? mono := instant_now in
  if bool_decide (checked_add_time mono heartbeat_timeout = None) then fail RH_InvalidConfiguration else
  let? utc := system_now in
  if bool_decide (checked_add_time utc heartbeat_timeout = None)
     || (USIZE_MAX / 2 <? broadcast_capacity)%Z || negb (next_power_fits broadcast_capacity)
  then fail RH_InvalidConfiguration else
  ret ({| h_phase := Dormant; h_slots := ∅; h_groups := ∅; h_identities := ∅; h_broadcasts := ∅;
          h_next := 0; h_poisoned := false; h_notified := 0 |},
       {| hc_heartbeat := heartbeat_timeout; hc_capacity := broadcast_capacity |}).
(** Starting the maintenance task; [has_runtime] is [Handle::try_current]. *)
Definition run_maintenance (has_runtime : bool) : M World RealtimeHubError unit :=
  if negb has_runtime then fail RH_InvalidConfiguration else
  do? lock in
  let? h := hub_now in
  match h_phase h with
  | Dormant => set_hub (set_phase h Running)
  | Running => fail RH_InvalidConfiguration
  | Closed => fail RH_Closed
  end.
(** One turn of the maintenance loop: the time to wait for, or the end of the
    loop, which closes the Hub ([MaintenanceExit]). *)
Definition min_time (l : list Z) : option Z :=
  match l with [] => None | t :: l => Some (foldl Z.min t l) end.
Definition maintenance_turn : M World RealtimeHubError (option (option Z)) :=
  let? h := hub_now in
  if h_poisoned h || negb (bool_decide (h_phase h = Running)) then
    do? set_hub (close h) in ret None
  else
    let? utc := with_clock system_now in
    let? mono := with_clock instant_now in
    let h := prune h utc mono in
    do? set_hub h in
    ret (Some (min_time ((λ '(_, s), window_next (slot_window s) utc mono) <$> ordered_slots h))).

(** A publisher's handle. *)
Record Handle := { hd_channel : PresenceChannel; hd_identity : nat }.
Definition owned_by_other (slot : Slot) (owner : InstanceOwner) : bool :=
  negb (str_eqb (slot_issuer slot) (owner_issuer owner)) || negb (str_eqb (slot_subject slot) (owner_subject owner)).
Definition open_publisher (cfg : Config) (proof : AuthorizedChannel) (snapshot : NowSnapshotData)
    : M World RealtimeHubError Handle :=
  let a := ac_authorization proof in
  let owner := si_owner (ac_snapshot proof) in
  do? proof_check a in
  let channel := ac_channel proof in
  let? snapshot := with_clock (map_err RH_Authorization (filter_snapshot a snapshot)) in
  let? h := hub_now in
  let identity := h_next h in
  do? set_hub (fresh_identity h) in
  do? lock in
  let? h := hub_now in
  do? lift_result (running h) in
  do? prune_now in
  let? h := hub_now in
  let k := key channel in
  if match h_slots h !! k with Some old => owned_by_other old owner | None => false end
  then fail RH_OwnerConflict else
  let? now := with_clock instant_now in
  let? heartbeat := lift_result (ok_or (checked_add_time now (hc_heartbeat cfg)) RH_InvalidConfiguration) in
  do? proof_check a in
  let slot := {| slot_channel := channel; slot_issuer := owner_issuer owner; slot_subject := owner_subject owner;
                 slot_identity := identity; slot_snapshot := snapshot;
                 slot_window := {| w_utc := na_expires_at a; w_mono := na_expires_mono a;
                                   w_heartbeat := heartbeat |} |} in
  do? proof_check a in
  let? h := hub_now in
  let old := h_slots h !! k in
  let h := set_slots h (<[k := slot]> (h_slots h)) in
  let h := match old with Some old => end_identity h (slot_identity old) RH_Superseded | None => h end in
  do? set_hub (notify_one (signal h (ch_project_id channel))) in
  ret {| hd_channel := channel; hd_identity := identity |}.

(** A project subscription: its project and its receiver's broadcast channel. *)
Record Subscription := { sub_project : string; sub_broadcast : nat }.
Definition subscribe (proof : NowAuthorization) : M World RealtimeHubError Subscription :=
  do? proof_check proof in
  do? lock in
  let? h := hub_now in
  do? lift_result (running h) in
  do? prune_now in
  do? proof_check proof in
  let? h := hub_now in
  let project := na_project_id proof in
  match h_groups h !! project with
  | Some b =>
      do? set_hub (set_broadcasts h (alter (λ bc, {| bc_receivers := S (bc_receivers bc); bc_sent := bc_sent bc |})
                     b (h_broadcasts h))) in
      ret {| sub_project := project; sub_broadcast := b |}
  | None =>
      let b := h_next h in
      let h := bump (set_broadcasts h (<[b := {| bc_receivers := 1; bc_sent := 0 |}]> (h_broadcasts h))) in
      do? set_hub (set_groups h (<[project := b]> (h_groups h))) in
      ret {| sub_project := project; sub_broadcast := b |}
  end.
Definition drop_subscription (sub : Subscription) : M World RealtimeHubError unit :=
  let? h := hub_now in
  let h := set_broadcasts h (alter (λ bc, {| bc_receivers := pred (bc_receivers bc); bc_sent := bc_sent bc |})
             (sub_broadcast sub) (h_broadcasts h)) in
  if h_poisoned h then set_hub (close h) else
  if match h_groups h !! sub_project sub with
     | Some b => bool_decide (receiver_count h b = 0) && negb (has_slot h (sub_project sub))
     | None => false
     end
  then set_hub (set_groups h (delete (sub_project sub) (h_groups h)))
  else set_hub h.

Definition candidates (proof : NowAuthorization) : M World RealtimeHubError (list PresenceChannel) :=
  do? proof_check proof in
  do? lock in
  let? h := hub_now in
  do? lift_result (running h) in
  do? prune_now in
  let? h := hub_now in
  let channels := (λ '(_, s), slot_channel s) <$>
    List.filter (λ '(_, s), str_eqb (ch_project_id (slot_channel s)) (na_project_id proof)) (ordered_slots h) in
  do? proof_check proof in
  ret channels.

Record RealtimeHubInstance := { in_channel : PresenceChannel; in_snapshot : NowSnapshotData; in_proof_index : nat }.
Record RealtimeHubReplay := {
  rp_project : NowAuthorization;
  rp_channels : list AuthorizedChannel;
  rp_instances : list RealtimeHubInstance;
}.
Definition check_all (project : NowAuthorization) (channels : list AuthorizedChannel)
    : M World RealtimeHubError unit :=
  do? proof_check project in
  mfor (λ _ c, proof_check (ac_authorization c)) tt channels.
Definition replay_check (r : RealtimeHubReplay) : M World RealtimeHubError unit :=
  check_all (rp_project r) (rp_channels r).
(** The proofs of a replay: of one project, each channel once. *)
Fixpoint check_proofs (project : NowAuthorization) (unique : gset Key) (channels : list AuthorizedChannel)
    : M World RealtimeHubError unit :=
  match channels with
  | [] => ret tt
  | c :: channels =>
      do? proof_check (ac_authorization c) in
      if negb (str_eqb (na_project_id (ac_authorization c)) (na_project_id project))
         || bool_decide (key (ac_channel c) ∈ unique) then fail RH_InvalidContext
      else check_proofs project ({[key (ac_channel c)]} ∪ unique) channels
  end.
Fixpoint collect_instances (h : Hub) (known : gset Key) (index : nat) (channels : list AuthorizedChannel)
    : result RealtimeHubError (list RealtimeHubInstance) :=
  match channels with
  | [] => Ok []
  | c :: channels =>
      let k := key (ac_channel c) in
      if negb (bool_decide (k ∈ known)) then collect_instances h known (S index) channels else
      match h_slots h !! k with
      | Some slot =>
          if owned_by_other slot (si_owner (ac_snapshot c)) then Err RH_OwnerConflict else
          let! rest := collect_instances h known (S index) channels in
          Ok ({| in_channel := slot_channel slot; in_snapshot := slot_snapshot slot;
                 in_proof_index := index |} :: rest)
      | None => collect_instances h known (S index) channels
      end
  end.
Definition instance_key (i : RealtimeHubInstance) : string * string :=
  (ch_instance_id (in_channel i), ch_version (in_channel i)).
(** The second critical section of a replay, for the candidates of the first. *)
Definition replay_known (known : gset Key) (project : NowAuthorization) (channels : list AuthorizedChannel)
    : M World RealtimeHubError RealtimeHubReplay :=
  do? check_proofs project ∅ channels in
  do? lock in
  let? h := hub_now in
  do? lift_result (running h) in
  do? prune_now in
  let? h := hub_now in
  let? instances := lift_result (collect_instances h known 0 channels) in
  do? check_all project channels in
  let replay := {| rp_project := project; rp_channels := channels;
                   rp_instances := sort_by instance_key instances |} in
  do? replay_check replay in
  ret replay.
Definition replay (project : NowAuthorization) (channels : list AuthorizedChannel)
    : M World RealtimeHubError RealtimeHubReplay :=
  let? found := candidates project in
  replay_known (list_to_set (key <$> found)) project channels.

(** What a replay serializes: per instance its identifiers and the snapshot
    with the sections both proofs may read. *)
Definition instance_view (r : RealtimeHubReplay) (i : RealtimeHubInstance)
    : option (string * string * NowSnapshotData) :=
  c ← rp_channels r !! in_proof_index i;
  let p := na_mask (rp_project r) in
  let m := na_mask (ac_authorization c) in
  Some (ch_instance_id (in_channel i), ch_version (in_channel i),
        mask_sections (in_snapshot i) (mask_task p && mask_task m) (mask_memory p && mask_memory m)
          (mask_knowledge p && mask_knowledge m)).
Definition serialize (r : RealtimeHubReplay)
    : M World RealtimeHubError (string * list (option (string * string * NowSnapshotData))) :=
  do? replay_check r in
  let view := (na_project_id (rp_project r), instance_view r <$> rp_instances r) in
  do? replay_check r in
  ret view.

Definition alive (identity : nat) : M World RealtimeHubError unit :=
  let? h := hub_now in
  match end_reason h identity with Some reason => fail reason | None => ret tt end.
Definition publish (cfg : Config) (hd : Handle) (proof : AuthorizedChannel) (snapshot : NowSnapshotData)
    : M World RealtimeHubError unit :=
  let a := ac_authorization proof in
  let owner := si_owner (ac_snapshot proof) in
  do? proof_check a in
  if negb (bool_decide (ac_channel proof = hd_channel hd)) then fail RH_InvalidContext else
  let? snapshot := with_clock (map_err RH_Authorization (filter_snapshot a snapshot)) in
  do? alive (hd_identity hd) in
  do? lock in
  do? alive (hd_identity hd) in
  let? h := hub_now in
  do? lift_result (running h) in
  do? prune_now in
  do? alive (hd_identity hd) in
  let? h := hub_now in
  let k := key (hd_channel hd) in
  let? slot := lift_result (ok_or (h_slots h !! k) RH_Superseded) in
  if negb (bool_decide (slot_identity slot = hd_identity hd)) then fail RH_Superseded else
  if owned_by_other slot owner then fail RH_OwnerConflict else
  let? now := with_clock instant_now in
  let? heartbeat := lift_result (ok_or (checked_add_time now (hc_heartbeat cfg)) RH_InvalidConfiguration) in
  do? proof_check a in
  let slot := {| slot_channel := slot_channel slot; slot_issuer := slot_issuer slot;
                 slot_subject := slot_subject slot; slot_identity := slot_identity slot;
                 slot_snapshot := snapshot;
                 slot_window := {| w_utc := na_expires_at a; w_mono := na_expires_mono a;
                                   w_heartbeat := heartbeat |} |} in
  let h := set_slots h (<[k := slot]> (h_slots h)) in
  set_hub (notify_one (signal h (ch_project_id (hd_channel hd)))).
Definition check_active (hd : Handle) : M World RealtimeHubError unit :=
  do? alive (hd_identity hd) in
  do? lock in
  do? alive (hd_identity hd) in
  let? h := hub_now in
  do? lift_result (running h) in
  do? prune_now in
  do? alive (hd_identity hd) in
  let? h := hub_now in
  match h_slots h !! key (hd_channel hd) with
  | Some s => if bool_decide (slot_identity s = hd_identity hd) then ret tt else fail RH_Superseded
  | None => fail RH_Superseded
  end.
Definition drop_handle (hd : Handle) : M World RealtimeHubError unit :=
  let? h := hub_now in
  set_hub (remove h (hd_channel hd) (hd_identity hd)).
(** [RealtimeHubMaintenance::shutdown], and the drop of its owner. *)
Definition shutdown : M World RealtimeHubError unit :=
  let? h := hub_now in
  set_hub (close h).
End hub.

(** ** The invariant *)

(** Every slot sits under the key of its channel and holds a snapshot of that
    project; its identity is alive and belongs to no other slot; only a running
    Hub has slots, and a closed one has no group. *)
Record hub_inv (h : Hub) : Prop := {
  hi_slot k s : h_slots h !! k = Some s →
    key (slot_channel s) = k ∧ nsd_project_id (slot_snapshot s) = project_of k;
  hi_alive k s : h_slots h !! k = Some s → h_identities h !! slot_identity s = Some None;
  hi_inj k1 k2 s1 s2 : h_slots h !! k1 = Some s1 → h_slots h !! k2 = Some s2 →
    slot_identity s1 = slot_identity s2 → k1 = k2;
  hi_fresh i : is_Some (h_identities h !! i) → i < h_next h;
  hi_phase : h_phase h ≠ Running → h_slots h = ∅;
  hi_closed : h_phase h = Closed → h_groups h = ∅;
}.
(** How a state may evolve: an identity that ended keeps its reason, an identity
    never disappears, and a closed Hub stays closed. *)
Record later (h h' : Hub) : Prop := {
  lt_ended i r : h_identities h !! i = Some (Some r) → h_identities h' !! i = Some (Some r);
  lt_known i : is_Some (h_identities h !! i) → is_Some (h_identities h' !! i);
  lt_closed : h_phase h = Closed → h_phase h' = Closed;
  lt_next : h_next h ≤ h_next h';
}.
#[global] Instance later_preorder : PreOrder later.
Proof.
  split.
  - intros h. by split.
  - intros h1 h2 h3 [A1 A2 A3 A4] [B1 B2 B3 B4]. split; eauto with lia.
Qed.
(** The states differ at most in the broadcasts and the wake-ups. *)
Definition same_core (h h' : Hub) : Prop :=
  h_phase h' = h_phase h ∧ h_slots h' = h_slots h ∧ h_groups h' = h_groups h ∧
  h_identities h' = h_identities h ∧ h_next h' = h_next h.
Lemma same_core_inv h h' : same_core h h' → hub_inv h → hub_inv h'.
Proof.
  intros (Hp & Hs & Hg & Hi & Hn) [A1 A2 A3 A4 A5 A6].
  split; rewrite ?Hp, ?Hs, ?Hg, ?Hi, ?Hn; eauto.
Qed.
Lemma same_core_later h h' : same_core h h' → later h h'.
Proof. intros (Hp & Hs & Hg & Hi & Hn). split; rewrite ?Hp, ?Hi, ?Hn; eauto. Qed.
Definition steps_to (h h' : Hub) : Prop := hub_inv h' ∧ later h h'.
Lemma steps_to_refl h : hub_inv h → steps_to h h.
Proof. by split. Qed.
Lemma steps_to_trans h1 h2 h3 : steps_to h1 h2 → steps_to h2 h3 → steps_to h1 h3.
Proof. intros [_ H12] [H3 H23]. split; [done|]. by etrans. Qed.
Lemma same_core_steps h h' : hub_inv h → same_core h h' → steps_to h h'.
Proof. intros Hi Hs. split; [by eapply same_core_inv|by apply same_core_later]. Qed.

(** ** Lemmas: the state operations *)

Lemma same_core_signal h project : same_core h (signal h project).
Proof.
  unfold signal, send. destruct (h_groups h !! project) as [b|]; [|done].
  destruct (h_broadcasts h !! b) as [bc|]; [|done]. by destruct (bool_decide _).
Qed.
Lemma same_core_notify h : same_core h (notify_one h).
Proof. done. Qed.
Lemma prune_groups_steps h : hub_inv h → steps_to h (prune_groups h).
Proof.
  intros [A1 A2 A3 A4 A5 A6]. split; [|by split]. split; simpl; eauto.
  intros Hc. by rewrite (A6 Hc), map_filter_empty.
Qed.
(** Ending the identity of a slot that leaves. *)
Lemma leave_steps h k s reason :
  hub_inv h → h_slots h !! k = Some s →
  steps_to h (end_identity (set_slots h (delete k (h_slots h))) (slot_identity s) reason).
Proof.
  intros [A1 A2 A3 A4 A5 A6] Hk. split; split; simpl.
  - intros k' s' [_ ?]%lookup_delete_Some. eauto.
  - intros k' s' [Hne Hk']%lookup_delete_Some. rewrite lookup_insert_ne; [eauto|].
    intros Heq. apply Hne. eapply A3; eauto.
  - intros k1 k2 s1 s2 [_ ?]%lookup_delete_Some [_ ?]%lookup_delete_Some. eauto.
  - intros i [x [[<- _]|[_ ?]]%lookup_insert_Some]; eauto.
  - intros Hp. by rewrite (A5 Hp), delete_empty.
  - done.
  - intros i r Hi. rewrite lookup_insert_ne; [done|]. intros <-. rewrite (A2 _ _ Hk) in Hi. done.
  - intros i Hi. destruct (decide (i = slot_identity s)) as [->|]; [by rewrite lookup_insert_eq|].
    by rewrite lookup_insert_ne.
  - done.
  - done.
Qed.
Lemma prune_slot_steps utc mono h k : hub_inv h → steps_to h (prune_slot utc mono h k).
Proof.
  intros Hi. unfold prune_slot. destruct (h_slots h !! k) as [s|] eqn:Ek; [|by apply steps_to_refl].
  eapply steps_to_trans; [by eapply leave_steps|]. eapply same_core_steps; [|apply same_core_signal].
  by eapply leave_steps.
Qed.
Lemma prune_slots_steps utc mono ks h : hub_inv h → steps_to h (foldl (prune_slot utc mono) h ks).
Proof.
  revert h. induction ks as [|k ks IH]; intros h Hi; simpl; [by apply steps_to_refl|].
  destruct (prune_slot_steps utc mono h k Hi) as [Hi' Hl]. eapply steps_to_trans; [by split|]. by apply IH.
Qed.
Lemma prune_steps h utc mono : hub_inv h → steps_to h (prune h utc mono).
Proof.
  intros Hi. unfold prune. destruct (prune_slots_steps utc mono
    (List.filter (λ '(_, s), negb (window_active (slot_window s) utc mono)) (ordered_slots h)).*1 h Hi) as [Hi' Hl].
  eapply steps_to_trans; [by split|]. by apply prune_groups_steps.
Qed.
Lemma prune_slot_slots utc mono h k : h_slots (prune_slot utc mono h k) = delete k (h_slots h).
Proof.
  unfold prune_slot. destruct (h_slots h !! k) as [s|] eqn:Ek; [|by rewrite delete_id].
  by destruct (same_core_signal (end_identity (set_slots h (delete k (h_slots h))) (slot_identity s)
    (if (w_utc (slot_window s) <=? utc)%Z || (w_mono (slot_window s) <=? mono)%Z
     then RH_AuthenticationExpired else RH_Closed)) (ch_project_id (slot_channel s))) as (_ & -> & _).
Qed.
Lemma prune_slots_lookup utc mono ks h k :
  h_slots (foldl (prune_slot utc mono) h ks) !! k = if bool_decide (k ∈ ks) then None else h_slots h !! k.
Proof.
  revert h. induction ks as [|k' ks IH]; intros h; cbn [foldl].
  - by rewrite bool_decide_false by apply not_elem_of_nil.
  - rewrite IH, prune_slot_slots. destruct (decide (k ∈ ks)).
    + rewrite !bool_decide_true by (done || by right). done.
    + rewrite bool_decide_false by done. destruct (decide (k = k')) as [->|Hne].
      * rewrite lookup_delete_eq, bool_decide_true by left. done.
      * rewrite lookup_delete_ne by done. rewrite bool_decide_false; [done|].
        by intros [?|?]%elem_of_cons.
Qed.
Lemma elem_of_ordered_slots h k s : (k, s) ∈ ordered_slots h ↔ h_slots h !! k = Some s.
Proof. unfold ordered_slots. by rewrite sort_by_perm, elem_of_map_to_list. Qed.
Lemma elem_of_expired h utc mono k :
  k ∈ (List.filter (λ '(_, s), negb (window_active (slot_window s) utc mono)) (ordered_slots h)).*1 ↔
  ∃ s, h_slots h !! k = Some s ∧ window_active (slot_window s) utc mono = false.
Proof.
  rewrite list_elem_of_fmap. split.
  - intros ([k' s] & -> & [Hs Ha]%list_elem_of_In%filter_In). exists s.
    split; [by apply elem_of_ordered_slots, list_elem_of_In|by apply negb_true_iff].
  - intros (s & Hs & Ha). exists (k, s). split; [done|]. apply list_elem_of_In, filter_In.
    split; [by apply list_elem_of_In, elem_of_ordered_slots|by rewrite Ha].
Qed.
(** Pruning keeps exactly the slots whose window is active. *)
Lemma prune_lookup h utc mono k :
  h_slots (prune h utc mono) !! k =
  (h_slots h !! k) ≫= λ s, if window_active (slot_window s) utc mono then Some s else None.
Proof.
  unfold prune. simpl. rewrite prune_slots_lookup. destruct (h_slots h !! k) as [s|] eqn:Ek; simpl.
  - destruct (window_active (slot_window s) utc mono) eqn:Ea.
    + rewrite bool_decide_false; [done|]. rewrite elem_of_expired. intros (s' & Hs & Ha). congruence.
    + rewrite bool_decide_true; [done|]. apply elem_of_expired. eauto.
  - by destruct (bool_decide _).
Qed.
Lemma end_all_identities l h i :
  h_identities (foldl (λ h '(_, s), end_identity h (slot_identity s) RH_Closed) h l) !! i =
  if bool_decide (i ∈ (slot_identity ∘ snd) <$> (l : list (Key * Slot))) then Some (Some RH_Closed)
  else h_identities h !! i.
Proof.
  revert h. induction l as [|[k s] l IH]; intros h; [by rewrite bool_decide_false by apply not_elem_of_nil|].
  cbn [foldl]. rewrite IH, fmap_cons. destruct (decide (i ∈ (slot_identity ∘ snd) <$> l)).
  - rewrite !bool_decide_true by (done || by right). done.
  - rewrite bool_decide_false by done. simpl. destruct (decide (i = slot_identity s)) as [->|Hne].
    + rewrite lookup_insert_eq, bool_decide_true by left. done.
    + rewrite lookup_insert_ne by done. rewrite bool_decide_false; [done|]. by intros [?|?]%elem_of_cons.
Qed.
Lemma end_all_core (l : list (Key * Slot)) h :
  h_next (foldl (λ h '(_, s), end_identity h (slot_identity s) RH_Closed) h l) = h_next h ∧
  h_phase (foldl (λ h '(_, s), end_identity h (slot_identity s) RH_Closed) h l) = h_phase h.
Proof. revert h. induction l as [|[k s] l IH]; intros h; [done|]. simpl. by destruct (IH (end_identity h (slot_identity s) RH_Closed)) as [-> ->]. Qed.
Lemma close_identities h i :
  h_identities (close h) !! i =
  if bool_decide (i ∈ (slot_identity ∘ snd) <$> ordered_slots h) then Some (Some RH_Closed)
  else h_identities h !! i.
Proof. unfold close. cbn [notify_one set_groups set_slots h_identities]. by rewrite end_all_identities. Qed.
Lemma slot_identity_elem h i :
  i ∈ (slot_identity ∘ snd) <$> ordered_slots h ↔ ∃ k s, h_slots h !! k = Some s ∧ i = slot_identity s.
Proof.
  rewrite list_elem_of_fmap. split.
  - intros ([k s] & -> & Hs%elem_of_ordered_slots). eauto.
  - intros (k & s & Hs & ->). exists (k, s). split; [done|]. by apply elem_of_ordered_slots.
Qed.
Lemma close_steps h : hub_inv h → steps_to h (close h).
Proof.
  intros [A1 A2 A3 A4 A5 A6].
  destruct (end_all_core (ordered_slots (set_phase h Closed)) (set_phase h Closed)) as [Hn Hp].
  assert (∀ i, is_Some (h_identities (close h) !! i) → is_Some (h_identities h !! i)) as Hback.
  { intros i. rewrite close_identities. destruct (bool_decide _) eqn:E; [|done]. bool_to_prop.
    apply slot_identity_elem in E as (k & s & Hs & ->). intros _. rewrite (A2 _ _ Hs). done. }
  split.
  - assert (h_slots (close h) = ∅) as Hemp by done. split.
    + intros k s. rewrite Hemp. by intros ?%lookup_empty_Some.
    + intros k s. rewrite Hemp. by intros ?%lookup_empty_Some.
    + intros k1 k2 s1 s2. rewrite Hemp. by intros ?%lookup_empty_Some.
    + intros i Hi%Hback%A4. unfold close. simpl. by rewrite Hn.
    + done.
    + done.
  - split.
    + intros i r Hi. rewrite close_identities, bool_decide_false; [done|].
      intros (k & s & Hs & ->)%slot_identity_elem. rewrite (A2 _ _ Hs) in Hi. done.
    + intros i Hi. rewrite close_identities. by destruct (bool_decide _).
    + intros _. unfold close. simpl. by rewrite Hp.
    + unfold close. simpl. by rewrite Hn.
Qed.
Lemma remove_steps h channel i : hub_inv h → steps_to h (remove h channel i).
Proof.
  intros Hi. unfold remove. destruct (h_poisoned h); [by apply close_steps|].
  destruct (h_slots h !! key channel) as [s|] eqn:Ek; [|by apply steps_to_refl].
  destruct (bool_decide _) eqn:E; [|by apply steps_to_refl]. bool_to_prop. subst i.
  destruct (leave_steps h _ s RH_Closed Hi Ek) as [Hi1 Hl1]. eapply steps_to_trans; [by split|].
  destruct (same_core_steps _ _ Hi1 (same_core_signal _ (ch_project_id channel))) as [Hi2 Hl2].
  eapply steps_to_trans; [by split|]. destruct (prune_groups_steps _ Hi2) as [Hi3 Hl3].
  eapply steps_to_trans; [by split|]. by apply same_core_steps.
Qed.
(** The identity a publisher holds before its slot exists: alive, in no slot. *)
Definition private (i : nat) (h : Hub) : Prop :=
  h_identities h !! i = Some None ∧ ∀ k s, h_slots h !! k = Some s → slot_identity s ≠ i.
Lemma prune_slot_private utc mono h k i : private i h → private i (prune_slot utc mono h k).
Proof.
  intros [Hi Hs]. split.
  - unfold prune_slot. destruct (h_slots h !! k) as [s|] eqn:Ek; [|done].
    match goal with |- h_identities (signal ?h0 ?p) !! _ = _ =>
      destruct (same_core_signal h0 p) as (_ & _ & _ & -> & _) end.
    simpl. rewrite lookup_insert_ne; [done|by eapply Hs].
  - intros k' s. rewrite prune_slot_slots. intros [_ Hk]%lookup_delete_Some. by eapply Hs.
Qed.
Lemma prune_private utc mono h i : private i h → private i (prune h utc mono).
Proof.
  unfold prune. intros Hp. change (private i (foldl (prune_slot utc mono) h
    (List.filter (λ '(_, s), negb (window_active (slot_window s) utc mono)) (ordered_slots h)).*1)).
  revert h Hp. generalize (@fst Key Slot). intros f h. generalize (List.filter
    (λ '(_, s), negb (window_active (slot_window s) utc mono)) (ordered_slots h)). intros l.
  revert h. induction (f <$> l) as [|k ks IH]; intros h Hp; simpl; [done|].
  by apply IH, prune_slot_private.
Qed.
Lemma prune_phase h utc mono : h_phase (prune h utc mono) = h_phase h.
Proof.
  unfold prune. simpl. generalize (List.filter
    (λ '(_, s), negb (window_active (slot_window s) utc mono)) (ordered_slots h)).*1. intros ks.
  revert h. induction ks as [|k ks IH]; intros h; simpl; [done|]. rewrite IH. unfold prune_slot.
  destruct (h_slots h !! k) as [s|]; [|done].
  match goal with |- h_phase (signal ?h0 ?p) = _ => by destruct (same_core_signal h0 p) as (-> & _) end.
Qed.
Lemma running_ok h u : running h = Ok u → h_phase h = Running.
Proof. unfold running. by destruct (h_phase h). Qed.
Lemma update_slot_steps h k s s' :
  hub_inv h → h_slots h !! k = Some s → slot_identity s' = slot_identity s →
  key (slot_channel s') = k → nsd_project_id (slot_snapshot s') = project_of k →
  steps_to h (set_slots h (<[k := s']> (h_slots h))).
Proof.
  intros [A1 A2 A3 A4 A5 A6] Hk Hid Hkey Hproj. split; [|by split]. split; simpl.
  - intros k' t [[<- <-]|[_ ?]]%lookup_insert_Some; eauto.
  - intros k' t [[<- <-]|[_ ?]]%lookup_insert_Some; [rewrite Hid|]; eauto.
  - intros k1 k2 s1 s2 [[<- <-]|[? H1]]%lookup_insert_Some [[<- <-]|[? H2]]%lookup_insert_Some; try done;
      rewrite ?Hid; eauto.
  - done.
  - intros Hp. rewrite (A5 Hp) in Hk. by apply lookup_empty_Some in Hk.
  - done.
Qed.
Lemma open_slot_steps h k s' :
  hub_inv h → h_phase h = Running → private (slot_identity s') h →
  key (slot_channel s') = k → nsd_project_id (slot_snapshot s') = project_of k →
  let h' := set_slots h (<[k := s']> (h_slots h)) in
  steps_to h (match h_slots h !! k with
              | Some old => end_identity h' (slot_identity old) RH_Superseded
              | None => h'
              end).
Proof.
  intros Hinv Hrun [Hal Hpriv] Hkey Hproj. cbv zeta. pose proof Hinv as [A1 A2 A3 A4 A5 A6].
  assert (∀ k' t, <[k := s']> (h_slots h) !! k' = Some t →
    (k' = k ∧ t = s') ∨ (k' ≠ k ∧ h_slots h !! k' = Some t)) as Hin.
  { intros k' t [[<- <-]|[? ?]]%lookup_insert_Some; eauto. }
  assert (∀ k1 k2 s1 s2, <[k := s']> (h_slots h) !! k1 = Some s1 → <[k := s']> (h_slots h) !! k2 = Some s2 →
    slot_identity s1 = slot_identity s2 → k1 = k2) as Hinj.
  { intros k1 k2 s1 s2 [[-> ->]|[? H1]]%Hin [[-> ->]|[? H2]]%Hin; try done; [| |by eauto].
    - intros Heq. by apply Hpriv in H2.
    - intros Heq. by apply Hpriv in H1. }
  destruct (h_slots h !! k) as [old|] eqn:Ek.
  - split; split; simpl; try done.
    + intros k' t [[-> ->]|[_ ?]]%Hin; eauto.
    + intros k' t Ht. rewrite lookup_insert_ne.
      * apply Hin in Ht as [[-> ->]|[_ ?]]; eauto.
      * apply Hin in Ht as [[-> ->]|[Hne Ht]]; [by eapply Hpriv|]. intros Heq. apply Hne. by eapply A3.
    + intros i [x [[<- _]|[_ ?]]%lookup_insert_Some]; eauto.
    + intros i r Hi. rewrite lookup_insert_ne; [done|]. intros <-. rewrite (A2 _ _ Ek) in Hi. done.
    + intros i Hi. destruct (decide (i = slot_identity old)) as [->|]; [by rewrite lookup_insert_eq|].
      by rewrite lookup_insert_ne.
  - split; [|by split]. split; simpl; try done.
    + intros k' t [[-> ->]|[_ ?]]%Hin; eauto.
    + intros k' t [[-> ->]|[_ ?]]%Hin; eauto.
Qed.

(** ** A calculus of Hub computations

    [safe_from h m]: run on the Hub [h], [m] leads, whatever its outcome, to a
    state that satisfies the invariant and evolved from [h]. *)
Definition safe_from {A} (h : Hub) (m : M World RealtimeHubError A) : Prop :=
  hub_inv h → ∀ w x w', wo_hub w = h → m w = (x, w') → steps_to h (wo_hub w').
Definition safe {A} (m : M World RealtimeHubError A) : Prop := ∀ h, safe_from h m.
Lemma safe_ret {A} h (a : A) : safe_from h (ret a).
Proof. intros Hi w x w' <- [= _ <-]. by apply steps_to_refl. Qed.
Lemma safe_fail {A} h e : safe_from h (fail (A:=A) e).
Proof. intros Hi w x w' <- [= _ <-]. by apply steps_to_refl. Qed.
Lemma safe_set h h' : (hub_inv h → steps_to h h') → safe_from h (set_hub h').
Proof. intros Hs Hi w x w' <- [= _ <-]. by apply Hs. Qed.
Lemma safe_bind {A B} h (m : M World RealtimeHubError A) (k : A → M World RealtimeHubError B) :
  safe_from h m → (∀ a, safe (k a)) → safe_from h (bind m k).
Proof.
  intros Hm Hk Hi w x w' Hw [(a & w1 & H1 & H2)|(e & H1 & ->)]%bind_cases; [|by eapply (Hm Hi)].
  destruct (Hm Hi _ _ _ Hw H1) as [Hi1 Hl1]. eapply steps_to_trans; [by split|]. by eapply (Hk a _ Hi1).
Qed.
Lemma safe_hub {B} h (k : Hub → M World RealtimeHubError B) :
  safe_from h (k h) → safe_from h (bind hub_now k).
Proof. intros Hk Hi w x w' Hw Hr. unfold bind, hub_now in Hr. rewrite Hw in Hr. by eapply (Hk Hi). Qed.
Lemma safe_bind_set {B} h h' (k : unit → M World RealtimeHubError B) :
  (hub_inv h → steps_to h h') → safe_from h' (k tt) → safe_from h (bind (set_hub h') k).
Proof.
  intros Hs Hk Hi w x w' Hw Hr. unfold bind, set_hub in Hr. destruct (Hs Hi) as [Hi' Hl].
  eapply steps_to_trans; [by split|]. by eapply (Hk Hi' {| wo_hub := h'; wo_clock := wo_clock w |}).
Qed.
Lemma safe_bind_clock {A B} h (m : M clock RealtimeHubError A) (k : A → M World RealtimeHubError B) :
  (∀ a c c', m c = (Ok a, c') → safe_from h (k a)) → safe_from h (bind (with_clock m) k).
Proof.
  intros Hk Hi w x w' Hw. unfold bind, with_clock.
  destruct (m (wo_clock w)) as [[a|e] c'] eqn:E; simpl.
  - intros Hr. eapply Hk; [exact E|done| |exact Hr]. done.
  - intros [= _ <-]. rewrite Hw. by apply steps_to_refl.
Qed.
Lemma safe_clock {A} h (m : M clock RealtimeHubError A) : safe_from h (with_clock m).
Proof.
  intros Hi w x w' Hw. unfold with_clock. destruct (m (wo_clock w)) as [r c']. intros [= _ <-]. simpl.
  rewrite Hw. by apply steps_to_refl.
Qed.
Lemma safe_bind_lock {B} h (k : unit → M World RealtimeHubError B) :
  safe_from h (k tt) → safe_from h (bind lock k).
Proof.
  intros Hk Hi w x w' Hw. unfold bind, lock. rewrite Hw. destruct (h_poisoned h); simpl.
  - intros [= _ <-]. rewrite Hw. by apply steps_to_refl.
  - by apply Hk.
Qed.
Lemma safe_bind_lift {A B} h (r : result RealtimeHubError A) (k : A → M World RealtimeHubError B) :
  (∀ a, r = Ok a → safe_from h (k a)) → safe_from h (bind (lift_result r) k).
Proof.
  intros Hk Hi w x w' Hw. unfold bind, lift_result. destruct r as [a|e]; [by apply Hk|].
  intros [= _ <-]. rewrite Hw. by apply steps_to_refl.
Qed.
Lemma safe_bind_prune {B} h (k : unit → M World RealtimeHubError B) :
  (∀ utc mono, safe_from (prune h utc mono) (k tt)) → safe_from h (bind prune_now k).
Proof.
  intros Hk Hi w x w' Hw Hr. unfold prune_now, with_clock, hub_now, set_hub, bind in Hr. simpl in Hr.
  rewrite Hw in Hr. match type of Hr with context [prune h ?u ?m] => destruct (prune_steps h u m Hi) as [Hi' Hl] end.
  eapply steps_to_trans; [by split|]. eapply Hk; [done| |exact Hr]. done.
Qed.
Lemma safe_alive h i : safe_from h (alive i).
Proof. unfold alive. apply safe_hub. destruct (end_reason h i); [apply safe_fail|apply safe_ret]. Qed.
Lemma safe_bind_alive {B} h i (k : unit → M World RealtimeHubError B) :
  safe_from h (k tt) → safe_from h (bind (alive i) k).
Proof.
  intros Hk Hi w x w' Hw. unfold bind, alive, hub_now. simpl. unfold bind. rewrite Hw.
  destruct (end_reason h i); [|by apply Hk]. intros [= _ <-]. rewrite Hw. by apply steps_to_refl.
Qed.
Lemma safe_mfor {A B} (f : B → A → M World RealtimeHubError B) b l :
  (∀ b x, safe (f b x)) → safe (mfor f b l).
Proof.
  intros Hf. revert b. induction l as [|x l IH]; intros b h; simpl; [apply safe_ret|].
  apply safe_bind; [apply Hf|]. intros a. apply IH.
Qed.

Lemma safe_with_inv {A} h (m : M World RealtimeHubError A) : (hub_inv h → safe_from h m) → safe_from h m.
Proof. intros Hm Hi. by apply Hm. Qed.
(** A fresh identity is alive and private. *)
Lemma fresh_identity_steps h :
  hub_inv h → steps_to h (fresh_identity h).
Proof.
  intros [A1 A2 A3 A4 A5 A6].
  assert (h_identities h !! h_next h = None) as Hn.
  { apply eq_None_not_Some. intros Hs%A4. lia. }
  split; split; simpl; eauto.
  - intros k s Hk%A2. rewrite lookup_insert_ne; [done|]. intros Heq. by rewrite <- Heq, Hn in Hk.
  - intros i [x [[<- _]|[_ Hi]]%lookup_insert_Some]; [lia|]. apply mk_is_Some, A4 in Hi. lia.
  - intros i r Hi. rewrite lookup_insert_ne; [done|]. intros <-. by rewrite Hn in Hi.
  - intros i [x Hi]. rewrite lookup_insert_ne; [done|]. intros <-. by rewrite Hn in Hi.
Qed.
Lemma fresh_identity_private h :
  hub_inv h → private (h_next h) (fresh_identity h).
Proof.
  intros [A1 A2 A3 A4 A5 A6]. split; simpl; [by rewrite lookup_insert_eq|].
  intros k s Hk%A2%mk_is_Some%A4. lia.
Qed.

Section safety.
Context `{UlidLib, GlobLib, JwtLib}.
(** The proof of a channel is a proof of its project. *)
Definition proof_wf (p : AuthorizedChannel) : Prop :=
  na_project_id (ac_authorization p) = ch_project_id (ac_channel p).
#[local] Hint Resolve safe_ret safe_fail safe_clock safe_alive : broker.
#[local] Hint Extern 1 (safe_from _ (bind (with_clock _) _)) => apply safe_bind_clock; intros : broker.
#[local] Hint Extern 1 (safe_from _ (bind (proof_check _) _)) => apply safe_bind_clock; intros : broker.
#[local] Hint Extern 1 (safe_from _ (proof_check _)) => apply safe_clock : broker.
#[local] Hint Extern 1 (safe_from _ (bind lock _)) => apply safe_bind_lock : broker.
#[local] Hint Extern 1 (safe_from _ (bind hub_now _)) => apply safe_hub : broker.
#[local] Hint Extern 1 (safe_from _ (bind (lift_result _) _)) => apply safe_bind_lift; intros : broker.
#[local] Hint Extern 1 (safe_from _ (bind prune_now _)) => apply safe_bind_prune; intros : broker.
#[local] Hint Extern 1 (safe_from _ (bind (alive _) _)) => apply safe_bind_alive : broker.
#[local] Hint Extern 1 (safe_from _ (match ?x with _ => _ end)) => destruct x eqn:? : broker.

Lemma run_maintenance_safe has_runtime : safe (run_maintenance has_runtime).
Proof.
  intros h. unfold run_maintenance. destruct (negb has_runtime); [apply safe_fail|].
  apply safe_bind_lock, safe_hub. destruct (h_phase h) eqn:Ep; [|apply safe_fail..].
  apply safe_set. intros [A1 A2 A3 A4 A5 A6]. split; split; simpl; eauto; rewrite ?Ep; done.
Qed.
Lemma maintenance_turn_safe : safe maintenance_turn.
Proof.
  intros h. unfold maintenance_turn. apply safe_hub. destruct (_ || _).
  - apply safe_bind_set; [apply close_steps|apply safe_ret].
  - apply safe_bind_clock. intros utc _ _ _. apply safe_bind_clock. intros mono _ _ _.
    apply safe_bind_set; [apply prune_steps|apply safe_ret].
Qed.
Lemma shutdown_safe : safe shutdown.
Proof. intros h. apply safe_hub, safe_set, close_steps. Qed.
Lemma drop_handle_safe hd : safe (drop_handle hd).
Proof. intros h. apply safe_hub, safe_set. intros. by apply remove_steps. Qed.
Lemma check_active_safe hd : safe (check_active hd).
Proof. intros h. unfold check_active. auto 20 with broker. Qed.
Lemma candidates_safe proof : safe (candidates proof).
Proof. intros h. unfold candidates. auto 20 with broker. Qed.
Lemma broadcast_steps h f b : hub_inv h → steps_to h (set_broadcasts h (alter f b (h_broadcasts h))).
Proof. intros Hi. by apply same_core_steps. Qed.
Lemma drop_subscription_safe sub : safe (drop_subscription sub).
Proof.
  intros h. unfold drop_subscription. apply safe_hub. cbv zeta.
  set (h1 := set_broadcasts h _). 
  assert (hub_inv h → steps_to h h1) as Hh1 by apply broadcast_steps.
  destruct (h_poisoned h1).
  { apply safe_set. intros Hi. destruct (Hh1 Hi) as [Hi1 Hl1]. eapply steps_to_trans; [by split|].
    by apply close_steps. }
  match goal with |- safe_from _ (if ?b then _ else _) => destruct b end; apply safe_set; [|done].
  intros Hi. destruct (Hh1 Hi) as [Hi1 Hl1]. eapply steps_to_trans; [by split|].
  destruct Hi1 as [A1 A2 A3 A4 A5 A6]. split; [|by split]. split; simpl; eauto.
  intros Hc%A6. unfold h1 in Hc. simpl in Hc. by rewrite Hc, delete_empty.
Qed.
Lemma subscribe_safe proof : safe (subscribe proof).
Proof.
  intros h. unfold subscribe. apply safe_bind_clock. intros _ _ _ _. apply safe_bind_lock, safe_hub.
  apply safe_bind_lift. intros u Hrun. apply safe_bind_prune. intros utc mono.
  apply safe_bind_clock. intros _ _ _ _. apply safe_hub. set (h1 := prune h utc mono).
  destruct (h_groups h1 !! na_project_id proof) as [b|].
  - apply safe_bind_set; [apply broadcast_steps|apply safe_ret].
  - apply safe_bind_set; [|apply safe_ret]. intros [A1 A2 A3 A4 A5 A6].
    assert (h_phase h1 = Running) as Hp by (unfold h1; rewrite prune_phase; by eapply running_ok).
    clearbody h1. split; split; simpl; eauto; [intros i Hi; apply Nat.lt_lt_succ_r, A4, Hi|congruence].
Qed.
Lemma filtered_project proof snapshot c m c' :
  proof_wf proof →
  map_err RH_Authorization (filter_snapshot (ac_authorization proof) snapshot) c = (Ok m, c') →
  nsd_project_id m = project_of (key (ac_channel proof)).
Proof. intros Hwf Hf%map_err_ok%filter_snapshot_project. by rewrite Hf, Hwf. Qed.
Lemma announce_steps h project : hub_inv h → steps_to h (notify_one (signal h project)).
Proof. intros Hi. apply same_core_steps; [done|]. apply (same_core_signal h project). Qed.
Lemma open_publisher_safe cfg proof snapshot : proof_wf proof → safe (open_publisher cfg proof snapshot).
Proof.
  intros Hwf h. apply safe_with_inv. intros Hinv. unfold open_publisher. apply safe_bind_clock. intros _ _ _ _.
  apply safe_bind_clock. intros m c c' Hm%filtered_project; [|done]. apply safe_hub.
  apply safe_bind_set; [apply fresh_identity_steps|]. pose proof (fresh_identity_private h Hinv) as Hpriv.
  set (h1 := fresh_identity h) in *. apply safe_bind_lock, safe_hub, safe_bind_lift. intros u Hrun%running_ok.
  apply safe_bind_prune. intros utc mono. apply (prune_private utc mono) in Hpriv.
  rewrite <- (prune_phase h1 utc mono) in Hrun. set (h2 := prune h1 utc mono) in *. apply safe_hub.
  match goal with |- safe_from _ (if ?b then _ else _) => destruct b end; [apply safe_fail|].
  apply safe_bind_clock. intros now _ _ _. apply safe_bind_lift. intros hb _.
  do 2 (apply safe_bind_clock; intros _ _ _ _). apply safe_hub. cbv zeta.
  apply safe_bind_set; [|apply safe_ret]. intros Hi2.
  eapply steps_to_trans; [|apply announce_steps]; by apply open_slot_steps.
Qed.
Lemma publish_safe cfg hd proof snapshot : proof_wf proof → safe (publish cfg hd proof snapshot).
Proof.
  intros Hwf h. unfold publish. apply safe_bind_clock. intros _ _ _ _.
  destruct (negb _) eqn:Ec; [apply safe_fail|]. bool_to_prop. rewrite <- Ec.
  apply safe_bind_clock. intros m c c' Hm%filtered_project; [|done].
  apply safe_bind_alive, safe_bind_lock, safe_bind_alive, safe_hub, safe_bind_lift. intros _ _.
  apply safe_bind_prune. intros utc mono. apply safe_bind_alive, safe_hub. set (h1 := prune h utc mono).
  apply safe_bind_lift. intros slot Hslot%ok_or_ok.
  destruct (negb _) eqn:Eid; [apply safe_fail|]. destruct (owned_by_other _ _); [apply safe_fail|].
  apply safe_bind_clock. intros now _ _ _. apply safe_bind_lift. intros hb _.
  apply safe_bind_clock; intros _ _ _ _. apply safe_set. intros Hi1.
  destruct (hi_slot _ Hi1 _ _ Hslot) as [Hkey _].
  eapply steps_to_trans; [|apply announce_steps]; by eapply (update_slot_steps _ _ _ _ Hi1 Hslot).
Qed.
Lemma check_all_safe project channels : safe (check_all project channels).
Proof.
  intros h. unfold check_all. apply safe_bind_clock. intros _ _ _ _. apply safe_mfor. intros b x h'. apply safe_clock.
Qed.
Lemma check_proofs_safe project unique channels : safe (check_proofs project unique channels).
Proof.
  revert unique. induction channels as [|c channels IH]; intros unique h; simpl; [apply safe_ret|].
  apply safe_bind_clock. intros _ _ _ _. destruct (_ || _); [apply safe_fail|apply IH].
Qed.
Lemma replay_known_safe known project channels : safe (replay_known known project channels).
Proof.
  intros h. unfold replay_known.
  apply safe_bind; [apply check_proofs_safe|]. intros _ h2. apply safe_bind_lock, safe_hub, safe_bind_lift.
  intros _ _. apply safe_bind_prune. intros utc mono. apply safe_hub, safe_bind_lift. intros instances _.
  apply safe_bind; [apply check_all_safe|]. intros _ h3. apply safe_bind; [apply check_all_safe|].
  intros _ h4. apply safe_ret.
Qed.
Lemma serialize_safe r : safe (serialize r).
Proof.
  intros h. apply safe_bind; [apply check_all_safe|]. intros _ h1.
  apply safe_bind; [apply check_all_safe|]. intros _ h2. apply safe_ret.
Qed.

(** ** The steps of a Hub *)

(** A proof the authorizer issued, whatever it read. *)
Definition issued (p : AuthorizedChannel) : Prop :=
  ∃ digest read_state read_grants read_inventory timeout auth raw scopes channel cap original c c',
    authorize_channel digest read_state read_grants read_inventory timeout auth raw scopes channel cap original c
    = (Ok p, c').
Lemma issued_wf p : issued p → proof_wf p.
Proof. intros (? & ? & ? & ? & ? & ? & ? & ? & ? & ? & ? & ? & ? & Hp). by eapply authorize_channel_project. Qed.
Definition poison (h : Hub) : Hub :=
  {| h_phase := h_phase h; h_slots := h_slots h; h_groups := h_groups h; h_identities := h_identities h;
     h_broadcasts := h_broadcasts h; h_next := h_next h; h_poisoned := true; h_notified := h_notified h |}.
(** One critical section of any operation, whatever its outcome; between them
    the clock moves at will, and a panic may poison the mutex.  The two critical
    sections of a replay are two steps, so that others come in between. *)
Inductive hub_step (cfg : Config) : World → World → Prop :=
| step_run rt w x w' : run_maintenance rt w = (x, w') → hub_step cfg w w'
| step_turn w x w' : maintenance_turn w = (x, w') → hub_step cfg w w'
| step_shutdown w x w' : shutdown w = (x, w') → hub_step cfg w w'
| step_open p s w x w' : issued p → open_publisher cfg p s w = (x, w') → hub_step cfg w w'
| step_publish hd p s w x w' : issued p → publish cfg hd p s w = (x, w') → hub_step cfg w w'
| step_check_active hd w x w' : check_active hd w = (x, w') → hub_step cfg w w'
| step_drop_handle hd w x w' : drop_handle hd w = (x, w') → hub_step cfg w w'
| step_subscribe a w x w' : subscribe a w = (x, w') → hub_step cfg w w'
| step_drop_subscription sub w x w' : drop_subscription sub w = (x, w') → hub_step cfg w w'
| step_candidates a w x w' : candidates a w = (x, w') → hub_step cfg w w'
| step_replay known a cs w x w' : replay_known known a cs w = (x, w') → hub_step cfg w w'
| step_serialize r w x w' : serialize r w = (x, w') → hub_step cfg w w'
| step_clock c w : hub_step cfg w {| wo_hub := wo_hub w; wo_clock := c |}
| step_poison w : hub_step cfg w {| wo_hub := poison (wo_hub w); wo_clock := wo_clock w |}.
Lemma safe_step {A} (m : M World RealtimeHubError A) w x w' :
  safe m → m w = (x, w') → hub_inv (wo_hub w) → steps_to (wo_hub w) (wo_hub w').
Proof. intros Hm Hr Hi. by eapply Hm. Qed.
Lemma hub_step_steps cfg w w' : hub_step cfg w w' → hub_inv (wo_hub w) → steps_to (wo_hub w) (wo_hub w').
Proof.
  destruct 1 as [rt w x w' Hr|w x w' Hr|w x w' Hr|p s w x w' Hp%issued_wf Hr|hd p s w x w' Hp%issued_wf Hr
    |hd w x w' Hr|hd w x w' Hr|a w x w' Hr|sub w x w' Hr|a w x w' Hr|known a cs w x w' Hr|r w x w' Hr| |].
  1-12: eapply safe_step; [|exact Hr].
  - apply run_maintenance_safe.
  - apply maintenance_turn_safe.
  - apply shutdown_safe.
  - by apply open_publisher_safe.
  - by apply publish_safe.
  - apply check_active_safe.
  - apply drop_handle_safe.
  - apply subscribe_safe.
  - apply drop_subscription_safe.
  - apply candidates_safe.
  - apply replay_known_safe.
  - apply serialize_safe.
  - apply steps_to_refl.
  - intros Hi. by apply same_core_steps.
Qed.
Lemma hub_steps_steps cfg w w' : rtc (hub_step cfg) w w' → hub_inv (wo_hub w) → steps_to (wo_hub w) (wo_hub w').
Proof.
  induction 1 as [w|w1 w2 w3 H12 _ IH]; [apply steps_to_refl|]. intros Hi.
  destruct (hub_step_steps _ _ _ H12 Hi) as [Hi2 Hl]. eapply steps_to_trans; [by split|]. by apply IH.
Qed.
Lemma RealtimeHub_new_inv timeout capacity c h cfg c' :
  RealtimeHub_new timeout capacity c = (Ok (h, cfg), c') → hub_inv h.
Proof.
  unfold RealtimeHub_new. intros Hr. invert_run Hr. split; simpl; try done; try (by intros; simplify_map_eq).
Qed.

(** ** Lemmas: single operations *)

Lemma with_clock_hub {E A} (m : M clock E A) w x w' : with_clock m w = (x, w') → wo_hub w' = wo_hub w.
Proof. unfold with_clock. destruct (m (wo_clock w)). by intros [= _ <-]. Qed.
Lemma alive_ended i w r : end_reason (wo_hub w) i = Some r → alive i w = (Err r, w).
Proof. intros Hr. unfold alive, bind, hub_now. by rewrite Hr. Qed.
Lemma alive_run i w : end_reason (wo_hub w) i = None → alive i w = (Ok tt, w).
Proof. intros Hr. unfold alive, bind, hub_now. by rewrite Hr. Qed.
Lemma lock_run w : h_poisoned (wo_hub w) = false → lock w = (Ok tt, w).
Proof. unfold lock. by intros ->. Qed.
Lemma alive_ok i w u w' : alive i w = (Ok u, w') → end_reason (wo_hub w) i = None ∧ w' = w.
Proof.
  unfold alive, bind, hub_now. destruct (end_reason (wo_hub w) i); [done|]. by intros [= _ <-].
Qed.
Lemma lock_ok w u w' : lock w = (Ok u, w') → h_poisoned (wo_hub w) = false ∧ w' = w.
Proof. unfold lock. destruct (h_poisoned (wo_hub w)); [done|]. by intros [= _ <-]. Qed.
Lemma hub_now_ok {E} w h w' : hub_now (E:=E) w = (Ok h, w') → h = wo_hub w ∧ w' = w.
Proof. by intros [= <- <-]. Qed.
Lemma prune_now_ok w u w' :
  prune_now w = (Ok u, w') → ∃ utc mono, wo_hub w' = prune (wo_hub w) utc mono.
Proof. intros [= _ <-]. by do 2 eexists. Qed.
Lemma set_hub_ok {E} h w u w' : set_hub (E:=E) h w = (Ok u, w') → wo_hub w' = h.
Proof. by intros [= _ <-]. Qed.
Lemma with_clock_ok {E A} (m : M clock E A) w a w' :
  with_clock m w = (Ok a, w') → wo_hub w' = wo_hub w ∧ m (wo_clock w) = (Ok a, wo_clock w').
Proof. unfold with_clock. destruct (m (wo_clock w)). by intros [= -> <-]. Qed.
(** What the runs among the hypotheses did to the Hub. *)
Ltac hub_facts :=
  unfold proof_check in *;
  repeat match goal with
  | Hr : alive _ _ = (Ok _, _) |- _ => apply alive_ok in Hr as [? ->]
  | Hr : lock _ = (Ok _, _) |- _ => apply lock_ok in Hr as [? ->]
  | Hr : hub_now _ = (Ok _, _) |- _ => apply hub_now_ok in Hr as [-> ->]
  | Hr : set_hub _ _ = (Ok _, _) |- _ => apply set_hub_ok in Hr
  | Hr : with_clock _ _ = (Ok _, _) |- _ => apply with_clock_ok in Hr as [? Hr]
  | Hr : prune_now _ = (Ok _, _) |- _ =>
      let u := fresh "utc" in let m := fresh "mono" in apply prune_now_ok in Hr as (u & m & Hr)
  | Hr : running _ = Ok _ |- _ => apply running_ok in Hr
  end.
Lemma open_slot_outcome h h' k s' project :
  h' = notify_one (signal (match h_slots h !! k with
    | Some old => end_identity (set_slots h (<[k := s']> (h_slots h))) (slot_identity old) RH_Superseded
    | None => set_slots h (<[k := s']> (h_slots h))
    end) project) →
  h_slots h' = <[k := s']> (h_slots h) ∧
  h_identities h' = match h_slots h !! k with
                    | Some old => <[slot_identity old := Some RH_Superseded]> (h_identities h)
                    | None => h_identities h
                    end.
Proof.
  intros ->. match goal with |- context [signal ?h0 ?p] =>
    destruct (same_core_signal h0 p) as (_ & Hs & _ & Hi & _) end.
  cbn [notify_one h_slots h_identities]. rewrite Hs, Hi. by destruct (h_slots h !! k).
Qed.
(** Why an inactive slot ended. *)
Definition expiry_reason (w : Window) (utc mono : Z) : RealtimeHubError :=
  if (w_utc w <=? utc)%Z || (w_mono w <=? mono)%Z then RH_AuthenticationExpired else RH_Closed.
Lemma prune_expired h utc mono k s :
  hub_inv h → h_slots h !! k = Some s → window_active (slot_window s) utc mono = false →
  h_identities (prune h utc mono) !! slot_identity s = Some (Some (expiry_reason (slot_window s) utc mono)).
Proof.
  intros Hi Hk Ha. unfold prune.
  assert (k ∈ (List.filter (λ '(_, s), negb (window_active (slot_window s) utc mono)) (ordered_slots h)).*1)
    as Hin by (apply elem_of_expired; eauto).
  apply list_elem_of_split_l in Hin as (l1 & l2 & -> & Hnot). cbn [prune_groups set_groups h_identities].
  rewrite foldl_app. cbn [foldl]. destruct (prune_slots_steps utc mono l1 h Hi) as [Hi1 _].
  pose proof (prune_slots_lookup utc mono l1 h k) as Hk1. rewrite bool_decide_false, Hk in Hk1 by done.
  set (h1 := foldl (prune_slot utc mono) h l1) in *. destruct (prune_slot_steps utc mono h1 k Hi1) as [Hi2 _].
  apply (lt_ended _ _ (proj2 (prune_slots_steps utc mono l2 _ Hi2))). unfold prune_slot. rewrite Hk1.
  match goal with |- h_identities (signal ?h0 ?p) !! _ = _ =>
    destruct (same_core_signal h0 p) as (_ & _ & _ & -> & _) end.
  cbn [end_identity set_identities set_slots h_identities]. by rewrite lookup_insert_eq.
Qed.
(** The handle holds the active slot of its channel. *)
Definition holds (h : Hub) (hd : Handle) (utc mono : Z) : Prop :=
  ∃ s, h_slots h !! key (hd_channel hd) = Some s ∧ slot_identity s = hd_identity hd ∧
       window_active (slot_window s) utc mono = true.
Lemma holds_prune h hd utc mono :
  holds h hd utc mono ↔
  ∃ s, h_slots (prune h utc mono) !! key (hd_channel hd) = Some s ∧ slot_identity s = hd_identity hd.
Proof.
  unfold holds. rewrite prune_lookup. split.
  - intros (s & -> & Hid & Ha). exists s. simpl. by rewrite Ha.
  - intros (s & Hs & Hid). destruct (h_slots h !! key (hd_channel hd)) as [s'|]; simpl in Hs; [|done].
    destruct (window_active (slot_window s') utc mono) eqn:Ea; [|done]. injection Hs as ->. eauto.
Qed.
Lemma end_reason_alive h i : h_identities h !! i = Some None → end_reason h i = None.
Proof. unfold end_reason. by intros ->. Qed.

(** The time to wait for: the first one of a list, and the end of a window. *)
Lemma fold_min_spec l t :
  let m := foldl Z.min t l in (m = t ∨ m ∈ l) ∧ (m ≤ t)%Z ∧ ∀ x, x ∈ l → (m ≤ x)%Z.
Proof.
  revert t. induction l as [|y l IH]; intros t; simpl; [split; [by left|]; split; [lia|by intros x ?%elem_of_nil]|].
  destruct (IH (Z.min t y)) as (Hin & Hle & Hall). split; [|split].
  - rewrite elem_of_cons. destruct Hin as [->|]; [|tauto]. destruct (Z.min_dec t y) as [->| ->]; tauto.
  - lia.
  - intros x [->|Hx]%elem_of_cons; [lia|auto].
Qed.
Lemma min_time_Some l t : min_time l = Some t → t ∈ l ∧ ∀ x, x ∈ l → (t ≤ x)%Z.
Proof.
  destruct l as [|y l]; [done|]. simpl. intros [= <-]. destruct (fold_min_spec l y) as (Hin & Hle & Hall).
  rewrite elem_of_cons. split; [tauto|]. intros x [->|Hx]%elem_of_cons; auto.
Qed.
Lemma window_active_spec w utc mono :
  window_active w utc mono = true ↔ (utc < w_utc w ∧ mono < w_mono w ∧ mono < w_heartbeat w)%Z.
Proof. unfold window_active. rewrite !andb_true_iff, !Z.ltb_lt. tauto. Qed.
Lemma window_next_active w utc mono d :
  window_active w utc mono = true → (mono + d < window_next w utc mono)%Z → (0 ≤ d)%Z →
  window_active w (utc + d) (mono + d) = true.
Proof.
  rewrite !window_active_spec. unfold window_next, duration_since, checked_add_time. intros (Hu & Hm & Hh).
  destruct (Z.leb_spec utc (w_utc w)); [|lia]. cbn. destruct (Z.leb_spec (mono + (w_utc w - utc)) TIME_MAX); cbn; lia.
Qed.
Lemma window_next_due w utc mono d :
  window_active w utc mono = true → (mono + (w_utc w - utc) ≤ TIME_MAX)%Z →
  (window_next w utc mono ≤ mono + d)%Z → window_active w (utc + d) (mono + d) = false.
Proof.
  rewrite <- not_true_iff_false, !window_active_spec. unfold window_next, duration_since, checked_add_time.
  intros (Hu & Hm & Hh) Hfit. destruct (Z.leb_spec utc (w_utc w)); [|lia]. cbn.
  destruct (Z.leb_spec (mono + (w_utc w - utc)) TIME_MAX); cbn; lia.
Qed.
Lemma prune_active h utc mono k s :
  h_slots (prune h utc mono) !! k = Some s → window_active (slot_window s) utc mono = true.
Proof.
  rewrite prune_lookup. destruct (h_slots h !! k) as [s'|]; simpl; [|done].
  destruct (window_active (slot_window s') utc mono) eqn:E; [|done]. by intros [= <-].
Qed.

(** *** Replays *)

Lemma check_proofs_ok project unique channels w u w' :
  check_proofs project unique channels w = (Ok u, w') →
  wo_hub w' = wo_hub w ∧
  Forall (λ c, na_project_id (ac_authorization c) = na_project_id project) channels ∧
  NoDup (key ∘ ac_channel <$> channels) ∧ Forall (λ c, key (ac_channel c) ∉ unique) channels.
Proof.
  revert unique w. induction channels as [|c channels IH]; intros unique w; simpl.
  { intros [= _ <-]. by repeat constructor. }
  intros Hr. invert_run Hr. hub_facts. apply IH in Hr as (Hh & Hp & Hnd & Hu). bool_to_prop.
  split; [congruence|]. split; [constructor; [by apply str_eqb_eq|done]|].
  rewrite Forall_forall in Hu. split.
  - constructor; [|done]. intros (c' & Hk & Hc')%list_elem_of_fmap. apply Hu, not_elem_of_union in Hc' as [Hc' _].
    by apply Hc', elem_of_singleton.
  - constructor; [done|]. apply Forall_forall. by intros c' [_ Hc']%Hu%not_elem_of_union.
Qed.
Lemma check_all_hub project channels w u w' :
  check_all project channels w = (Ok u, w') → wo_hub w' = wo_hub w.
Proof.
  unfold check_all. intros Hr. invert_run Hr. hub_facts. rewrite <- H2. clear H2 R. revert s Hr. generalize tt.
  induction channels as [|c channels IH]; intros b s; simpl; [by intros [= _ <-]|].
  intros Hr. invert_run Hr. hub_facts. apply IH in Hr. congruence.
Qed.
(** The clock of the world runs on. *)
Definition world_ticks (w w' : World) : Prop := clock_run (wo_clock w) (wo_clock w').
#[export] Instance world_ticks_preorder : PreOrder world_ticks.
Proof. split; unfold world_ticks; [intros w; reflexivity|intros w1 w2 w3; apply transitivity]. Qed.
Lemma ticks_proof_check a : keeps world_ticks (proof_check a).
Proof.
  intros w x w'. unfold proof_check, with_clock, world_ticks. destruct (map_err _ _ (wo_clock w)) as [r k] eqn:Er. intros [= _ <-]. simpl.
  revert Er. generalize (wo_clock w) r k. change (keeps clock_run (map_err RH_Authorization (na_check a))).
  apply keeps_map_err. unfold na_check, vb_check, ba_check_deadline, check_deadline. auto 20 with broker.
Qed.
Lemma ticks_check_proofs project unique channels : keeps world_ticks (check_proofs project unique channels).
Proof.
  revert unique. induction channels as [|c channels IH]; intros unique; simpl; [apply keeps_ret, _|].
  apply keeps_bind; [apply _|apply ticks_proof_check|]. intros _. destruct (_ || _); [apply keeps_fail, _|apply IH].
Qed.
Lemma ticks_check_all project channels : keeps world_ticks (check_all project channels).
Proof.
  apply keeps_bind; [apply _|apply ticks_proof_check|]. intros _. apply keeps_mfor; [apply _|]. intros _ c. apply ticks_proof_check.
Qed.
Lemma prune_now_clock w u w' :
  prune_now w = (Ok u, w') →
  wo_hub w' = prune (wo_hub w) (utc_at (wo_clock w) (tick (wo_clock w))) (mono_at (wo_clock w) (S (tick (wo_clock w)))) ∧
  wo_clock w' = advance (advance (wo_clock w)).
Proof. by intros [= _ <-]. Qed.
(** A slot that is there and whose three deadlines are all ahead. *)
Definition live (h : Hub) (utc mono : Z) (k : Key) (s : Slot) : Prop :=
  h_slots h !! k = Some s ∧
  (utc < w_utc (slot_window s))%Z ∧ (mono < w_mono (slot_window s))%Z ∧ (mono < w_heartbeat (slot_window s))%Z.
Lemma prune_live h utc mono k s : h_slots (prune h utc mono) !! k = Some s ↔ live h utc mono k s.
Proof.
  rewrite prune_lookup. unfold live. rewrite <- window_active_spec. destruct (h_slots h !! k) as [s'|]; simpl; [|naive_solver].
  destruct (window_active (slot_window s') utc mono) eqn:E; naive_solver congruence.
Qed.
(** A section as it was, when it may be read; otherwise nothing of it but that it
    is forbidden. *)
Definition shown_section {T} (may : Prop) (section shown : NowSectionData T) : Prop :=
  (may → shown = section) ∧
  (¬ may → sec_items shown = [] ∧ sec_total shown = None ∧ sec_has_more shown = None ∧ sec_error shown = Some Forbidden).
Definition shown_snapshot (p m : NowReadMask) (d shown : NowSnapshotData) : Prop :=
  let was := nsd_sections d in let now := nsd_sections shown in
  nsd_project_id shown = nsd_project_id d ∧ nsd_generated_at shown = nsd_generated_at d ∧
  shown_section (mask_task p = true ∧ mask_task m = true) (sd_tasks was) (sd_tasks now) ∧
  shown_section (mask_task p = true ∧ mask_task m = true) (sd_sessions was) (sd_sessions now) ∧
  shown_section (mask_memory p = true ∧ mask_memory m = true) (sd_memories was) (sd_memories now) ∧
  shown_section (mask_knowledge p = true ∧ mask_knowledge m = true) (sd_knowledge was) (sd_knowledge now).
Lemma masked_section {T} (a b : bool) (section : NowSectionData T) :
  shown_section (a = true ∧ b = true) section (if negb (a && b) then forbid section else section).
Proof. destruct a, b; split; naive_solver. Qed.
Lemma masked_snapshot p m d :
  shown_snapshot p m d (mask_sections d (mask_task p && mask_task m) (mask_memory p && mask_memory m)
    (mask_knowledge p && mask_knowledge m)).
Proof. unfold shown_snapshot, mask_sections. simpl. do 2 (split; [done|]). auto using masked_section. Qed.
(** An instance of the replay, of the channel proof at index [j]. *)
Definition shows (h : Hub) (known : gset Key) (c : AuthorizedChannel) (i : RealtimeHubInstance) : Prop :=
  key (ac_channel c) ∈ known ∧
  ∃ s, h_slots h !! key (ac_channel c) = Some s ∧ in_channel i = slot_channel s ∧ in_snapshot i = slot_snapshot s.
Lemma collect_instances_elem h known n channels l i :
  collect_instances h known n channels = Ok l →
  i ∈ l ↔ ∃ j c, in_proof_index i = n + j ∧ channels !! j = Some c ∧ shows h known c i.
Proof.
  revert n l. induction channels as [|c channels IH]; intros n l; cbn [collect_instances].
  { intros [= <-]. split; [by intros ?%elem_of_nil|]. by intros (j & c & _ & Hc & _). }
  assert (∀ j c', (c :: channels) !! S j = Some c' ↔ channels !! j = Some c') as Hcons by done.
  assert (∀ l', collect_instances h known (S n) channels = Ok l' →
    i ∈ l' ↔ ∃ j c', in_proof_index i = n + S j ∧ (c :: channels) !! S j = Some c' ∧ shows h known c' i) as Htail.
  { intros l' Hl. rewrite (IH _ _ Hl). by setoid_rewrite Nat.add_succ_comm. }
  assert ((∃ j c', in_proof_index i = n + j ∧ (c :: channels) !! j = Some c' ∧ shows h known c' i) ↔
    (in_proof_index i = n ∧ shows h known c i) ∨
    ∃ j c', in_proof_index i = n + S j ∧ (c :: channels) !! S j = Some c' ∧ shows h known c' i) as ->.
  { split.
    - intros ([|j] & c' & Hn & Hc & Hs); [left|right; eauto]. injection Hc as <-. split; [lia|done].
    - intros [[Hn Hs]|(j & c' & ?)]; [exists 0, c; split; [lia|done]|eauto]. }
  destruct (bool_decide (key (ac_channel c) ∈ known)) eqn:Ek; bool_to_prop; simpl.
  2: { intros Hl. rewrite (Htail _ Hl). unfold shows at 2. naive_solver. }
  destruct (h_slots h !! key (ac_channel c)) as [s|] eqn:Es.
  2: { intros Hl. rewrite (Htail _ Hl). unfold shows at 2. naive_solver. }
  intros Hl. invert_ok Hl. injection Hl as <-. rewrite elem_of_cons. erewrite Htail by eassumption.
  enough (i = {| in_channel := slot_channel s; in_snapshot := slot_snapshot s; in_proof_index := n |} ↔
    in_proof_index i = n ∧ shows h known c i) as -> by done.
  unfold shows. rewrite Es. destruct i. simpl. split; [intros [= -> -> ->]|]; naive_solver.
Qed.
Lemma collect_instances_owned h known n channels l c s :
  collect_instances h known n channels = Ok l → c ∈ channels → key (ac_channel c) ∈ known →
  h_slots h !! key (ac_channel c) = Some s → owned_by_other s (si_owner (ac_snapshot c)) = false.
Proof.
  revert n l. induction channels as [|c' channels IH]; intros n l; cbn [collect_instances].
  { by intros _ ?%elem_of_nil. }
  destruct (bool_decide (key (ac_channel c') ∈ known)) eqn:Ek; bool_to_prop; simpl.
  2: { intros Hl [->|Hc]%elem_of_cons; [done|]. by eapply IH. }
  destruct (h_slots h !! key (ac_channel c')) as [s'|] eqn:Es.
  2: { intros Hl [->|Hc]%elem_of_cons; [congruence|]. by eapply IH. }
  intros Hl. invert_ok Hl. intros [->|Hc]%elem_of_cons; [|by eapply IH]. intros _ Hs. congruence.
Qed.
Lemma collect_instances_nodup h known n channels l project :
  hub_inv h → collect_instances h known n channels = Ok l → NoDup (key ∘ ac_channel <$> channels) →
  Forall (λ c, ch_project_id (ac_channel c) = project) channels → NoDup (instance_key <$> l).
Proof.
  intros Hi. assert (∀ c i, shows h known c i → key (in_channel i) = key (ac_channel c)) as Hkey.
  { intros c i (_ & s & Hs & -> & _). by apply (hi_slot _ Hi) in Hs as [? _]. }
  revert n l. induction channels as [|c channels IH]; intros n l; cbn [collect_instances].
  { intros [= <-] _ _. constructor. }
  intros Hl [Hnew Hnd]%NoDup_cons [Hp Hps]%Forall_cons.
  destruct (bool_decide (key (ac_channel c) ∈ known)) eqn:Ek; bool_to_prop; simpl in Hl; [|by eapply IH].
  destruct (h_slots h !! key (ac_channel c)) as [s|] eqn:Es; [|by eapply IH].
  invert_ok Hl. injection Hl as <-. rewrite fmap_cons. constructor; [|by eapply IH].
  intros (i & Heq & Hin)%list_elem_of_fmap. eapply collect_instances_elem in Hin as (j & c' & _ & Hc' & Hs'); [|eassumption].
  apply Hkey in Hs'. apply list_elem_of_lookup_2 in Hc'. apply Hnew, list_elem_of_fmap. exists c'. split; [|done].
  simpl. rewrite <- Hs'. rewrite Forall_forall in Hps. pose proof (Hps _ Hc') as Hp'.
  destruct (hi_slot _ Hi _ _ Es) as [Hks _]. unfold instance_key, key in *. simpl in *. congruence.
Qed.

(** ** Properties *)

(** C10. Whatever operations publishers, subscribers, readers and the
    maintenance task run on a new Hub, in any order and with any outcome, each
    slot stays under the key of its channel with a snapshot of that project
    and with a live identity of its own, slots exist only while the Hub runs,
    and between any two moments an ended publication keeps its first reason
    and a closed Hub stays closed. *)
Theorem hub_history timeout capacity c h0 cfg c1 w1 w2 :
  RealtimeHub_new timeout capacity c = (Ok (h0, cfg), c1) →
  rtc (hub_step cfg) {| wo_hub := h0; wo_clock := c1 |} w1 → rtc (hub_step cfg) w1 w2 →
  hub_inv (wo_hub w1) ∧ hub_inv (wo_hub w2) ∧ later (wo_hub w1) (wo_hub w2).
Proof.
  intros Hi0%RealtimeHub_new_inv Hw1 Hw2. destruct (hub_steps_steps _ _ _ Hw1 Hi0) as [Hi1 _].
  destruct (hub_steps_steps _ _ _ Hw2 Hi1). done.
Qed.

(** C34. An ended publication is inert at every later moment: [check_active]
    reports the reason it ended with, [publish] fails and leaves the Hub as it
    is, and dropping the handle of a usable Hub removes nothing, in particular
    not the slot of the publisher that superseded it. *)
Theorem ended_handle_inert cfg w1 w2 hd r :
  hub_inv (wo_hub w1) → end_reason (wo_hub w1) (hd_identity hd) = Some r → rtc (hub_step cfg) w1 w2 →
  check_active hd w2 = (Err r, w2) ∧
  (∀ proof snapshot x w', publish cfg hd proof snapshot w2 = (x, w') →
     is_ok x = false ∧ wo_hub w' = wo_hub w2) ∧
  (h_poisoned (wo_hub w2) = false → drop_handle hd w2 = (Ok tt, w2)).
Proof.
  intros Hi1 Hr1 Hsteps. destruct (hub_steps_steps _ _ _ Hsteps Hi1) as [Hi2 Hl].
  assert (h_identities (wo_hub w2) !! hd_identity hd = Some (Some r)) as Hid.
  { apply (lt_ended _ _ Hl). unfold end_reason in Hr1. destruct (h_identities (wo_hub w1) !! _); naive_solver. }
  assert (end_reason (wo_hub w2) (hd_identity hd) = Some r) as Hr2 by (unfold end_reason; by rewrite Hid).
  split; [|split].
  - unfold check_active, bind. by rewrite (alive_ended _ _ _ Hr2).
  - intros proof snapshot x w' Hp. unfold publish in Hp.
    run_cases Hp; apply with_clock_hub in R; [|done]. case_hyp Hp; [by injection Hp as <- <-|].
    run_cases Hp; apply with_clock_hub in R0; rewrite R in R0; [|done].
    unfold bind in Hp. rewrite (alive_ended _ s0 r) in Hp by (by rewrite R0). by injection Hp as <- <-.
  - intros Hpoison. unfold drop_handle, bind, hub_now, set_hub, remove. rewrite Hpoison.
    destruct (h_slots (wo_hub w2) !! key (hd_channel hd)) as [s|] eqn:Ek; [|by destruct w2].
    rewrite bool_decide_false; [by destruct w2|]. intros Heq.
    rewrite <- Heq, (hi_alive _ Hi2 _ _ Ek) in Hid. done.
Qed.

(** [check_active] succeeds exactly for the handle whose identity holds the
    slot of its channel, as long as the window of that slot is active at the
    two clock samples taken. *)
Theorem check_active_exact hd w :
  hub_inv (wo_hub w) → h_poisoned (wo_hub w) = false →
  (∃ w', check_active hd w = (Ok tt, w')) ↔
  holds (wo_hub w) hd (utc_at (wo_clock w) (tick (wo_clock w))) (mono_at (wo_clock w) (S (tick (wo_clock w)))).
Proof.
  intros Hi Hpoison. rewrite holds_prune. set (u := utc_at _ _). set (m := mono_at _ _).
  destruct (prune_steps _ u m Hi) as [Hi' Hl]. split.
  - intros [w' Hr]. unfold check_active in Hr. invert_run Hr.
    select (prune_now _ = _) (fun Hp => injection Hp as _ <-). hub_facts. bool_to_prop. eauto.
  - intros (s & Hs & Hid). pose proof (hi_alive _ Hi' _ _ Hs) as Hal. rewrite Hid in Hal.
    assert (h_phase (wo_hub w) = Running) as Hrun.
    { destruct (decide (h_phase (wo_hub w) = Running)) as [|Hne]; [done|]. exfalso.
      rewrite <- (prune_phase _ u m) in Hne. rewrite (hi_phase _ Hi' Hne) in Hs. by simplify_map_eq. }
    assert (end_reason (wo_hub w) (hd_identity hd) = None) as Hr0.
    { destruct (end_reason (wo_hub w) (hd_identity hd)) as [r|] eqn:E; [|done].
      unfold end_reason in E. destruct (h_identities (wo_hub w) !! hd_identity hd) as [[r'|]|] eqn:E'; try done.
      rewrite (lt_ended _ _ Hl _ _ E') in Hal. done. }
    eexists. unfold check_active. rewrite (bind_run _ _ _ _ _ (alive_run _ _ Hr0)).
    rewrite (bind_run _ _ _ _ _ (lock_run _ Hpoison)), (bind_run _ _ _ _ _ (alive_run _ _ Hr0)).
    unfold running. rewrite (bind_run hub_now _ w (wo_hub w) w), Hrun by done.
    rewrite (bind_run _ _ w tt w) by done. rewrite (bind_run prune_now _ _ _ _ eq_refl). fold u m.
    rewrite (bind_run _ _ _ _ _ (alive_run _ {| wo_hub := _ |} (end_reason_alive _ _ Hal))).
    rewrite (bind_run hub_now _ _ _ _ eq_refl). cbn [wo_hub]. by rewrite Hs, bool_decide_true.
Qed.

(** A publisher that opens takes the slot of its channel with the snapshot
    masked by its proof and the window of its authentication; every other slot
    is kept as long as its window is active.  An active slot it replaces was of
    the same owner and ends as superseded, an inactive one ends with the reason
    of its expiry. *)
Theorem open_publisher_exact cfg proof snapshot w hd w' :
  hub_inv (wo_hub w) → proof_wf proof → open_publisher cfg proof snapshot w = (Ok hd, w') →
  ∃ utc mono c1 c2 now s,
    filter_snapshot (ac_authorization proof) snapshot c1 = (Ok (slot_snapshot s), c2) ∧
    hd_channel hd = ac_channel proof ∧ slot_channel s = ac_channel proof ∧ slot_identity s = hd_identity hd ∧
    owned_by_other s (si_owner (ac_snapshot proof)) = false ∧
    slot_window s = {| w_utc := na_expires_at (ac_authorization proof);
                       w_mono := na_expires_mono (ac_authorization proof);
                       w_heartbeat := now + hc_heartbeat cfg |} ∧
    (∀ k, h_slots (wo_hub w') !! k =
       if decide (k = key (ac_channel proof)) then Some s else h_slots (prune (wo_hub w) utc mono) !! k) ∧
    ∀ old, h_slots (wo_hub w) !! key (ac_channel proof) = Some old →
      if window_active (slot_window old) utc mono
      then owned_by_other old (si_owner (ac_snapshot proof)) = false ∧
           end_reason (wo_hub w') (slot_identity old) = Some RH_Superseded
      else end_reason (wo_hub w') (slot_identity old) = Some (expiry_reason (slot_window old) utc mono).
Proof.
  intros Hinv Hwf Hr. unfold open_publisher in Hr. invert_run Hr. hub_facts. simplify_eq.
  assert (wo_hub s0 = wo_hub w) as Hh0 by congruence.
  assert (wo_hub s9 = prune (fresh_identity (wo_hub w)) utc mono) as Hh9 by congruence.
  rewrite R6, R2, Hh0 in C. rewrite Hh9 in R13. rewrite Hh0 in *.
  destruct (fresh_identity_steps _ Hinv) as [Hi1 _]. set (h1 := fresh_identity (wo_hub w)) in *.
  destruct (open_slot_outcome _ _ _ _ _ R13) as [Hslots Hids].
  set (s' := {| slot_channel := _ |}) in *. unfold checked_add_time in R9. case_hyp R9; [|done]. injection R9 as R9.
  exists utc, mono, (wo_clock s), (wo_clock s0), a8, s'.
  split; [by apply map_err_ok in R0|]. do 3 (split; [done|]). split; [by unfold owned_by_other; rewrite !str_eqb_refl|].
  split; [by rewrite R9|]. split.
  - intros k. rewrite Hslots. destruct (decide (k = key (ac_channel proof))) as [->|Hne]; [by rewrite lookup_insert_eq|].
    by rewrite lookup_insert_ne, !prune_lookup.
  - intros old Hold. rewrite prune_lookup in C, Hids. change (h_slots h1) with (h_slots (wo_hub w)) in C, Hids.
    rewrite Hold in C, Hids. cbn [mbind option_bind] in C, Hids. unfold end_reason. rewrite Hids.
    destruct (window_active (slot_window old) utc mono) eqn:Ea; [by rewrite lookup_insert_eq|].
    by rewrite (prune_expired _ _ _ _ _ Hi1 Hold Ea).
Qed.


(** C40. The maintenance task wakes when it must: as long as both clocks advance
    alike and stay short of the time it waits for, every slot it kept remains
    active; at that time one of them is due, unless the wait overflowed the
    clock; without a slot it waits for a notification. *)
Theorem maintenance_wakes w wake w' :
  maintenance_turn w = (Ok (Some wake), w') →
  let utc := utc_at (wo_clock w) (tick (wo_clock w)) in
  let mono := mono_at (wo_clock w) (S (tick (wo_clock w))) in
  match wake with
  | None => h_slots (wo_hub w') = ∅
  | Some t => ∀ d, (0 ≤ d)%Z →
      ((mono + d < t)%Z → ∀ k s, h_slots (wo_hub w') !! k = Some s →
         window_active (slot_window s) (utc + d) (mono + d) = true) ∧
      ((t ≤ mono + d)%Z → (∀ k s, h_slots (wo_hub w') !! k = Some s → (mono + (w_utc (slot_window s) - utc) ≤ TIME_MAX)%Z) →
         ∃ k s, h_slots (wo_hub w') !! k = Some s ∧ window_active (slot_window s) (utc + d) (mono + d) = false)
  end.
Proof.
  intros Hr. cbv zeta. set (u := utc_at _ _). set (m := mono_at _ _).
  assert (wake = min_time ((λ '(_, s), window_next (slot_window s) u m) <$> ordered_slots (wo_hub w')) ∧
    wo_hub w' = prune (wo_hub w) u m) as [-> Hh].
  { unfold maintenance_turn, bind, hub_now in Hr. destruct (_ || _); [done|]. by injection Hr as <- <-. }
  assert (∀ k s, h_slots (wo_hub w') !! k = Some s → window_active (slot_window s) u m = true) as Hact.
  { intros k s. rewrite Hh. apply prune_active. }
  destruct (min_time _) as [t|] eqn:Et.
  - intros d Hd. apply min_time_Some in Et as [Hin Hall]. split.
    + intros Hlt k s Hs. apply window_next_active; [by eapply Hact| |done].
      eapply Z.lt_le_trans; [exact Hlt|]. apply Hall, list_elem_of_fmap. exists (k, s).
      split; [done|]. by apply elem_of_ordered_slots.
    + intros Hle Hfit. apply list_elem_of_fmap in Hin as ([k s] & -> & Hs%elem_of_ordered_slots).
      exists k, s. split; [done|]. apply window_next_due; eauto.
  - apply map_eq. intros k. rewrite lookup_empty. destruct (h_slots (wo_hub w') !! k) as [s|] eqn:Ek; [|done].
    apply elem_of_ordered_slots in Ek. destruct (ordered_slots (wo_hub w')); [by apply elem_of_nil in Ek|done].
Qed.

(** C33. A replay shows the live slots its reader may see.  At a reading of the
    UTC clock and the next one of the monotonic clock during the call, the slots
    with a deadline that has passed are gone and the others stay.  The proofs are
    of the reader's project, each of a channel of its own.  The instances of the
    replay, in strict order of installation and version, are exactly the live
    slots of the proofs' channels that were candidates, with their channels and
    snapshots, and each such slot has the owner of its proof.  What is serialized
    of an instance holds a section as it was when both the project's proof and the
    channel's let it be read, and otherwise nothing of it. *)
Theorem replay_exact known project channels w r w' :
  hub_inv (wo_hub w) → Forall proof_wf channels → replay_known known project channels w = (Ok r, w') →
  ∃ n, tick (wo_clock w) ≤ n ∧ S (S n) ≤ tick (wo_clock w') ∧
    let is_live := live (wo_hub w) (utc_at (wo_clock w) n) (mono_at (wo_clock w) (S n)) in
    (∀ k s, h_slots (wo_hub w') !! k = Some s ↔ is_live k s) ∧
    Forall (λ c, na_project_id (ac_authorization c) = na_project_id project) channels ∧
    NoDup (key ∘ ac_channel <$> channels) ∧
    StronglySorted lt_ord (instance_key <$> rp_instances r) ∧
    (∀ i, i ∈ rp_instances r ↔ ∃ c s, channels !! in_proof_index i = Some c ∧ key (ac_channel c) ∈ known ∧
       is_live (key (ac_channel c)) s ∧ in_channel i = slot_channel s ∧ in_snapshot i = slot_snapshot s) ∧
    (∀ c s, c ∈ channels → key (ac_channel c) ∈ known → is_live (key (ac_channel c)) s →
       slot_issuer s = owner_issuer (si_owner (ac_snapshot c)) ∧ slot_subject s = owner_subject (si_owner (ac_snapshot c))) ∧
    (∀ i, i ∈ rp_instances r → ∃ c shown, channels !! in_proof_index i = Some c ∧
       instance_view r i = Some (ch_instance_id (in_channel i), ch_version (in_channel i), shown) ∧
       shown_snapshot (na_mask project) (na_mask (ac_authorization c)) (in_snapshot i) shown).
Proof.
  intros Hinv Hwf Hr. unfold replay_known in Hr. invert_run Hr.
  select (check_proofs _ _ _ _ = _) (fun Hc => pose proof (ticks_check_proofs _ _ _ _ _ _ Hc) as Hk1;
    apply check_proofs_ok in Hc as (Hh & Hproj & Hnd & _)).
  select (prune_now _ = _) (fun Hp => apply prune_now_clock in Hp as [Hprune Hk2]).
  unfold replay_check in *.
  repeat match goal with Hc : check_all _ _ _ = _ |- _ =>
    pose proof (ticks_check_all _ _ _ _ _ Hc); apply check_all_hub in Hc end.
  hub_facts. rename R5 into Hcol. assert (wo_hub s2 = wo_hub s5) as Hs by congruence. rewrite Hs in *.
  set (utc := utc_at (wo_clock s) _) in *. set (mono := mono_at (wo_clock s) _) in *.
  assert (world_ticks s2 s5) as Hk3 by (by etrans). destruct Hk1 as [Hm1 Hu1 Ht1], Hk3 as [_ _ Ht3]. rewrite Hk2 in Ht3. simpl in Ht3.
  assert (∀ k s', h_slots (wo_hub s5) !! k = Some s' ↔ live (wo_hub w) utc mono k s') as Hlive.
  { intros k s'. rewrite Hprune, Hh. apply prune_live. }
  exists (tick (wo_clock s)). rewrite <- Hu1, <- Hm1. fold utc mono. split; [done|]. split; [lia|]. split; [done|]. split; [done|]. split; [done|].
  assert (hub_inv (wo_hub s5)) as Hi' by (rewrite Hprune, Hh; by apply prune_steps).
  assert (Forall (λ c, ch_project_id (ac_channel c) = na_project_id project) channels) as Hch.
  { rewrite Forall_forall in *. intros c Hc. by rewrite <- Hwf, Hproj. }
  cbn [rp_instances]. split; [rewrite sort_by_keys; by eapply sort_nodup, collect_instances_nodup|].
  assert (∀ i, i ∈ sort_by instance_key a5 ↔ ∃ c, channels !! in_proof_index i = Some c ∧ shows (wo_hub s5) known c i) as Hin.
  { intros i. rewrite sort_by_perm, (collect_instances_elem _ _ _ _ _ _ Hcol). split.
    - intros (j & c & -> & ?). by exists c.
    - intros (c & ?). by exists (in_proof_index i), c. }
  split; [|split].
  - intros i. rewrite Hin. unfold shows. setoid_rewrite Hlive. naive_solver.
  - intros c s' Hc Hk Hs'%Hlive. eapply collect_instances_owned in Hcol; [|done..]. unfold owned_by_other in Hcol. bool_to_prop.
    by repeat match goal with He : str_eqb _ _ = true |- _ => apply str_eqb_eq in He end.
  - intros i (c & Hc & _)%Hin. exists c. eexists. split; [done|]. unfold instance_view. simpl. rewrite Hc.
    split; [reflexivity|apply masked_snapshot].
Qed.
End safety.

#[local] Existing Instance sample_ulid_lib.
#[local] Existing Instance sample_jwt_lib.
#[local] Existing Instance sample_project_glob.
Definition sample_config : Config := {| hc_heartbeat := 1000; hc_capacity := 16 |}.
Definition sample_hub : Hub :=
  {| h_phase := Running; h_slots := ∅; h_groups := ∅; h_identities := ∅; h_broadcasts := ∅;
     h_next := 0; h_poisoned := false; h_notified := 0 |}.
Definition sample_world : World := {| wo_hub := sample_hub; wo_clock := sample_clock |}.
Definition sample_channel_proof : AuthorizedChannel :=
  {| ac_authorization := sample_authorization; ac_channel := sample_channel; ac_snapshot := sample_stored |}.
Definition sample_open (w : World) := open_publisher sample_config sample_channel_proof sample_now_snapshot w.
Lemma sample_world_inv : hub_inv (wo_hub sample_world).
Proof. split; simpl; try done; by intros; simplify_map_eq. Qed.
Lemma sample_proof_wf : proof_wf sample_channel_proof.
Proof. done. Qed.
Lemma sample_open_inv w : hub_inv (wo_hub w) → hub_inv (wo_hub (sample_open w).2).
Proof.
  intros Hi. destruct (sample_open w) as [x w'] eqn:E. simpl.
  by eapply (safe_step _ _ _ _ (open_publisher_safe _ _ _ sample_proof_wf) E).
Qed.
(** The first publisher's handle, and the world after a second one superseded it. *)
Definition sample_handle : Handle := {| hd_channel := sample_channel; hd_identity := 0 |}.
Definition sample_superseded : World := (sample_open (sample_open sample_world).2).2.

Lemma hub_history_witness :
  ∃ h0 c1 w1 w2, RealtimeHub_new 1000 16 sample_clock = (Ok (h0, sample_config), c1) ∧
    run_maintenance true {| wo_hub := h0; wo_clock := c1 |} = (Ok tt, w1) ∧ shutdown w1 = (Ok tt, w2) ∧
    hub_inv (wo_hub w1) ∧ hub_inv (wo_hub w2) ∧ later (wo_hub w1) (wo_hub w2).
Proof.
  do 4 eexists. split; [reflexivity|]. split; [reflexivity|]. split; [reflexivity|].
  eapply (hub_history 1000 16 sample_clock _ sample_config); [reflexivity| |].
  - eapply rtc_once, (step_run _ true). reflexivity.
  - eapply rtc_once, step_shutdown. reflexivity.
Defined.
Lemma ended_handle_inert_witness :
  end_reason (wo_hub sample_superseded) 0 = Some RH_Superseded ∧
  check_active sample_handle sample_superseded = (Err RH_Superseded, sample_superseded).
Proof.
  assert (end_reason (wo_hub sample_superseded) 0 = Some RH_Superseded) as Hr by (vm_compute; done).
  split; [done|].
  assert (hub_inv (wo_hub sample_superseded)) as Hi by (apply sample_open_inv, sample_open_inv, sample_world_inv).
  by destruct (ended_handle_inert sample_config _ _ sample_handle _ Hi Hr (rtc_refl _ _)) as [? _].
Defined.
Lemma check_active_exact_witness :
  (∃ w', check_active sample_handle (sample_open sample_world).2 = (Ok tt, w')) ∧
  holds (wo_hub (sample_open sample_world).2) sample_handle
    (utc_at (wo_clock (sample_open sample_world).2) (tick (wo_clock (sample_open sample_world).2)))
    (mono_at (wo_clock (sample_open sample_world).2) (S (tick (wo_clock (sample_open sample_world).2)))).
Proof.
  assert (∃ w', check_active sample_handle (sample_open sample_world).2 = (Ok tt, w')) as Hc.
  { destruct (check_active sample_handle (sample_open sample_world).2) as [[[]|e] w'] eqn:E;
      [by eauto|vm_compute in E; discriminate E]. }
  split; [done|].
  apply (check_active_exact sample_handle (sample_open sample_world).2); [| |done].
  - apply sample_open_inv, sample_world_inv.
  - vm_compute. done.
Defined.
Lemma open_publisher_exact_witness :
  ∃ hd w', sample_open (sample_open sample_world).2 = (Ok hd, w') ∧ hd_channel hd = sample_channel.
Proof.
  destruct (sample_open (sample_open sample_world).2) as [[hd|e] w'] eqn:E; [|vm_compute in E; discriminate E].
  exists hd, w'. split; [done|].
  by destruct (open_publisher_exact _ _ _ _ _ _ (sample_open_inv _ sample_world_inv) sample_proof_wf E)
    as (? & ? & ? & ? & ? & ? & _ & ? & _).
Defined.
Lemma maintenance_wakes_witness :
  ∃ t w', maintenance_turn (sample_open sample_world).2 = (Ok (Some (Some t)), w') ∧
    ∀ k s, h_slots (wo_hub w') !! k = Some s → window_active (slot_window s)
      (utc_at (wo_clock (sample_open sample_world).2) (tick (wo_clock (sample_open sample_world).2)) + 3)
      (mono_at (wo_clock (sample_open sample_world).2) (S (tick (wo_clock (sample_open sample_world).2))) + 3) = true.
Proof.
  destruct (maintenance_turn (sample_open sample_world).2) as [[[[t|]|]|e] w'] eqn:E;
    [|vm_compute in E; discriminate E..].
  exists t, w'. split; [done|].
  destruct (maintenance_wakes _ _ _ E 3%Z) as [Hm _]; [done|]. apply Hm.
  vm_compute in E. by injection E as <- _.
Defined.
Lemma replay_exact_witness :
  ∃ r w', replay_known {[key sample_channel]} sample_authorization [sample_channel_proof]
            (sample_open sample_world).2 = (Ok r, w') ∧
    length (rp_instances r) = 1 ∧ StronglySorted lt_ord (instance_key <$> rp_instances r).
Proof.
  destruct (replay_known {[key sample_channel]} sample_authorization [sample_channel_proof]
    (sample_open sample_world).2) as [[r|e] w'] eqn:E; [|vm_compute in E; discriminate E].
  exists r, w'. split; [done|]. split; [vm_compute in E; by injection E as <- _|].
  by destruct (replay_exact _ _ _ _ _ _ (sample_open_inv _ sample_world_inv)
    (proj2 (Forall_singleton _ _) sample_proof_wf) E) as (? & _ & _ & _ & _ & _ & ? & _).
Defined.
