(* ===== verification/FilesystemSession.v ===== *)
(** * Sessions of the filesystem storage

    crates/broker-storage/src/filesystem_session.rs: the signed tokens a caller
    of the filesystem storage presents, their issue from an authorized storage
    grant, their verification, and what a verified session allows on a key.
    Base64, HMAC, JSON, URLs and calendar times are third-party. *)

From stdpp Require Import gmap.
From S2P Require Import Prelude RustStr Order Control LocalBearer BrokerAccess.
From S2P Require Import Session Identity InstanceRegistry ResourceGrants.
From S2P Require Import ResourcePolicy StorageAdmission StoragePolicy.

(** ** Data *)

Definition TOKEN_PREFIX : string := "rust-fs1".
Definition TOKEN_DOMAIN : string :=
  "graphit-broker/rust-filesystem-session/v1" +:+ of_bytes ["000"%char].
Definition SECRET_DOMAIN : string :=
  "graphit-broker/rust-filesystem-secret/v1" +:+ of_bytes ["000"%char].

Record FilesystemStorageRouteConfig := {
  fc_name : string;
  fc_bucket : string;
  fc_region : string;
  fc_base_prefix : string;
  fc_endpoint : string;
  fc_session_duration : Z;
  fc_token_bytes : Z;
}.
Inductive FilesystemSessionError := FSE_InvalidToken | FSE_RouteUnavailable | FSE_Expired | FSE_Deadline | FSE_Crypto.
#[global] Instance FilesystemSessionError_eq_dec : EqDecision FilesystemSessionError.
Proof. solve_decision. Defined.
Inductive StorageIssueError :=
| SIE_Admission (e : StorageAdmissionError) | SIE_InvalidConfiguration | SIE_RouteUnavailable
| SIE_PolicyTooLarge | SIE_Forbidden | SIE_Deadline | SIE_Provider | SIE_Sdk | SIE_InvalidResponse.
Inductive StorageCopyIfNotExists := CopyMultipart | CopyIfNoneMatch.
Inductive SessionScope := SS_Project (project_id : string) | SS_User (installation_id : string) | SS_Hub.
Record Payload := {
  pl_access_key : string;
  pl_route : string;
  pl_bucket : string;
  pl_region : string;
  pl_subject : string;
  pl_scope : SessionScope;
  pl_module : string;
  pl_revision : Z;
  pl_issued_at : Z;
  pl_expires_at : Z;
  pl_access : list (list string);
}.

(** The host and the parts of a parsed URL the code looks at. *)
Inductive Host := Domain (name : string) | Ipv4 (address : Z) | Ipv6 (address : Z).
Record Url := {
  url_scheme : string;
  url_username : string;
  url_password : option string;
  url_host : option Host;
  url_path : string;
  url_query : option string;
  url_fragment : option string;
}.
(** The [base64], [hmac], [serde_json], [url] and AWS time crates. *)
Class SessionLib := {
  b64_encode : string → string;
  b64_decode : string → option string;
  hmac_sha256 : string → string → option string;
  payload_to_vec : Payload → option string;
  payload_from_slice : string → option Payload;
  url_parse : string → option Url;
  datetime_fmt : Z → option string;
}.

(** ** Names, keys and routes *)

Definition fs_segment (s : string) : bool :=
  negb (is_empty s) && (len s <=? 128)%Z && first_byte is_ascii_alphanumeric s
  && all_bytes (λ b, is_ascii_alphanumeric b || existsb (Ascii.eqb b) (bytes "._-")) s.
Definition fs_bucket (s : string) : bool :=
  (3 <=? len s)%Z && (len s <=? 63)%Z && first_byte is_ascii_alphanumeric s
  && last_byte is_ascii_alphanumeric s && negb (contains s "..")
  && all_bytes (λ b, is_ascii_lowercase b || is_ascii_digit b || existsb (Ascii.eqb b) (bytes ".-")) s
  && negb (existsb (str_eqb s)
       ["admin"; "healthz"; "readyz"; "oauth"; "v1"; "favicon.svg"; ".well-known"; "metrics"; "api"]).
(** Canonical object keys. *)
Definition valid_key (s : string) : bool :=
  negb (is_empty s) && (len s <=? 1024)%Z
  && all_bytes (λ b, in_range 32 126 b && negb (Ascii.eqb b "\"%char) && negb (Ascii.eqb b "034"%char)) s
  && forallb (λ part, negb (is_empty part) && negb (str_eqb part ".") && negb (str_eqb part "..")) (split s "/").

Section session.
Context `{UlidLib, JwtLib, SessionLib}.

Definition is_loopback (h : option Host) : bool :=
  match h with
  | Some (Domain h) => str_eqb h "localhost"
  | Some (Ipv4 ip) => (Z.shiftr ip 24 =? 127)%Z
  | Some (Ipv6 ip) => (ip =? 1)%Z
  | None => false
  end.
Definition fs_endpoint (s : string) : bool :=
  match url_parse s with
  | None => false
  | Some u =>
      is_empty (url_username u) && bool_decide (url_password u = None)
      && match url_host u with Some _ => true | None => false end
      && bool_decide (url_query u = None) && bool_decide (url_fragment u = None)
      && str_eqb (url_path u) "/"
      && (str_eqb (url_scheme u) "https" || (str_eqb (url_scheme u) "http" && is_loopback (url_host u)))
  end.
Definition FilesystemStorageRoute_new (config : FilesystemStorageRouteConfig)
    : result StorageIssueError FilesystemStorageRouteConfig :=
  if negb (fs_segment (fc_name config)) || negb (fs_bucket (fc_bucket config))
     || negb (fs_endpoint (fc_endpoint config)) || is_empty (fc_region config)
     || negb (all_bytes (λ b, is_ascii_alphanumeric b || Ascii.eqb b "-"%char) (fc_region config))
     || negb (valid_key (fc_base_prefix config)) || negb (forallb fs_segment (split (fc_base_prefix config) "/"))
     || negb ((900 <=? fc_session_duration config / NANOS)%Z && (fc_session_duration config / NANOS <=? 43200)%Z)
     || negb (fc_session_duration config mod NANOS =? 0)%Z
  then Err SIE_InvalidConfiguration
  else Ok config.

(** ** The payload of a token *)

Definition parse_module (s : string) : option StorageModule :=
  if str_eqb s "hub" then Some ModHub else
  if str_eqb s "task" then Some ModTask else
  if str_eqb s "memory" then Some ModMemory else
  if str_eqb s "knowledge" then Some ModKnowledge else
  if str_eqb s "ast" then Some ModAst else None.
Definition validated_scope (p : Payload) : result FilesystemSessionError StorageScope :=
  let! module := ok_or (parse_module (pl_module p)) FSE_InvalidToken in
  match pl_scope p, module with
  | SS_Project project_id, module => rmap_err (λ _, FSE_InvalidToken) (StorageScope_project project_id module)
  | SS_User installation_id, ModMemory => rmap_err (λ _, FSE_InvalidToken) (StorageScope_user_memory installation_id)
  | SS_Hub, ModHub => Ok ScGlobalHub
  | _, _ => Err FSE_InvalidToken
  end.
Definition checked_sub_u64 (a b : Z) : option Z := if (b <=? a)%Z then Some (a - b)%Z else None.
(** The roots of one operation: canonical, strictly below the base, distinct. *)
Fixpoint check_roots (base : string) (unique : list string) (roots : list string) : bool :=
  match roots with
  | [] => true
  | root :: roots =>
      valid_key root && starts_with root base && (len base <? len root)%Z
      && negb (existsb (str_eqb root) unique) && check_roots base (root :: unique) roots
  end.
Definition validate (cfg : FilesystemStorageRouteConfig) (p : Payload) (now : Z)
    : result FilesystemSessionError StorageScope :=
  let! scope := validated_scope p in
  if negb (str_eqb (pl_route p) (fc_name cfg)) || negb (str_eqb (pl_bucket p) (fc_bucket cfg))
     || negb (str_eqb (pl_region p) (fc_region cfg)) || is_empty (pl_subject p)
     || (pl_revision p <=? 0)%Z || (now <? pl_issued_at p)%Z
     || negb (is_some_and (checked_sub_u64 (pl_expires_at p) (pl_issued_at p))
          (λ n, (900 <=? n)%Z && (n <=? 43200)%Z))
     || negb (is_some_and (b64_decode (pl_access_key p)) (λ _, true))
     || negb (len (pl_access_key p) =? 43)%Z
     || forallb (λ r, bool_decide (r = [])) (pl_access p)
  then Err FSE_InvalidToken else
  let base := fc_base_prefix cfg +:+ "/" in
  if negb (forallb (check_roots base []) (pl_access p)) then Err FSE_InvalidToken else
  if (pl_expires_at p <=? now)%Z then Err FSE_Expired else
  Ok scope.
Definition fs_seconds (now : Z) : result FilesystemSessionError Z :=
  rmap (λ d, d / NANOS)%Z (ok_or (duration_since now UNIX_EPOCH) FSE_InvalidToken).

(** ** Authentication codes *)

(** What is authenticated: a domain, then each part with its length. *)
Definition mac_message (domain : string) (parts : list string) : string :=
  domain +:+ of_bytes (parts ≫= frame).
Definition mac (pepper domain : string) (parts : list string) : result FilesystemSessionError string :=
  ok_or (hmac_sha256 pepper (mac_message domain parts)) FSE_Crypto.
Definition secret (pepper access_key tag : string) : result FilesystemSessionError string :=
  rmap b64_encode (mac pepper SECRET_DOMAIN [access_key; tag]).

(** ** A verified session *)

Record VerifiedFilesystemSession := {
  vs_payload : Payload;
  vs_scope : StorageScope;
  vs_secret : string;
  vs_deadline : Z;
}.
Definition vs_bucket (v : VerifiedFilesystemSession) : string := pl_bucket (vs_payload v).
Definition vs_bounded_deadline (v : VerifiedFilesystemSession) (original : Z) : Z := Z.min (vs_deadline v) original.
Definition vs_expiry (v : VerifiedFilesystemSession) : Z := (UNIX_EPOCH + pl_expires_at (vs_payload v) * NANOS)%Z.
Definition vs_check (v : VerifiedFilesystemSession) (original_deadline : Z)
    : M clock FilesystemSessionError unit :=
  let? now := instant_now in
  if (vs_deadline v <=? now)%Z then fail FSE_Expired else
  let? utc := system_now in
  let? s := lift_result (fs_seconds utc) in
  if (pl_expires_at (vs_payload v) <=? s)%Z then fail FSE_Expired else
  let? now := instant_now in
  if (original_deadline <=? now)%Z then fail FSE_Deadline else
  ret tt.
Definition covered (v : VerifiedFilesystemSession) (indices : list nat) (target : string) : bool :=
  existsb (λ i, existsb (λ root,
      str_eqb target root || is_some_and (strip_prefix target root) (λ s, starts_with s "/"))
    (default [] (pl_access (vs_payload v) !! i))) indices.
Definition operation_indices (op : StorageOperation) : list nat :=
  match op with OpRead => [0; 1; 2] | OpWrite => [1; 2] | OpPublish => [2] | OpDelete => [2; 3] end.
Definition vs_allows {E} (v : VerifiedFilesystemSession) (op : StorageOperation) (target : string)
    : M clock E bool :=
  if negb (valid_key target) then ret false else
  let? r := outcome (vs_check v (vs_deadline v)) in
  if negb (is_ok r) then ret false else
  ret (covered v (operation_indices op) target).
Definition vs_allows_list {E} (v : VerifiedFilesystemSession) (prefix : string) : M clock E bool :=
  vs_allows v OpRead (default prefix (strip_suffix prefix "/")).

(** ** Issue and verification *)

Record FilesystemStorageIssuer := {
  fi_routes : gmap string FilesystemStorageRouteConfig;
  fi_pepper : string;
}.
Fixpoint add_routes (named : gmap string FilesystemStorageRouteConfig) (buckets : gset string)
    (routes : list FilesystemStorageRouteConfig) : option (gmap string FilesystemStorageRouteConfig) :=
  match routes with
  | [] => Some named
  | r :: routes =>
      if bool_decide (fc_bucket r ∈ buckets) || bool_decide (is_Some (named !! fc_name r)) then None
      else add_routes (<[fc_name r := r]> named) ({[fc_bucket r]} ∪ buckets) routes
  end.
Definition FilesystemStorageIssuer_new (routes : list FilesystemStorageRouteConfig) (pepper : string)
    : result StorageIssueError FilesystemStorageIssuer :=
  if (len pepper <? 32)%Z || bool_decide (routes = []) then Err SIE_InvalidConfiguration else
  let! named := ok_or (add_routes ∅ ∅ routes) SIE_InvalidConfiguration in
  Ok {| fi_routes := named; fi_pepper := pepper |}.
Definition fs_encode (i : FilesystemStorageIssuer) (p : Payload) : result FilesystemSessionError string :=
  let! data := ok_or (payload_to_vec p) FSE_InvalidToken in
  let! tag := mac (fi_pepper i) TOKEN_DOMAIN [data] in
  Ok (TOKEN_PREFIX +:+ "." +:+ b64_encode data +:+ "." +:+ b64_encode tag).

(** The fields of a token: its payload's bytes and its tag. *)
Definition token_fields (token : string) : result FilesystemSessionError (string * string) :=
  match split token "." with
  | prefix :: rest =>
      if negb (str_eqb prefix TOKEN_PREFIX) then Err FSE_InvalidToken else
      match rest with
      | payload :: rest =>
          let! data := ok_or (b64_decode payload) FSE_InvalidToken in
          match rest with
          | tag :: rest =>
              let! tag := ok_or (b64_decode tag) FSE_InvalidToken in
              if negb (bool_decide (rest = [])) then Err FSE_InvalidToken else Ok (data, tag)
          | [] => Err FSE_InvalidToken
          end
      | [] => Err FSE_InvalidToken
      end
  | [] => Err FSE_InvalidToken
  end.
Definition verify_at (i : FilesystemStorageIssuer) (route access_key token : string) (utc monotonic : Z)
    : M clock FilesystemSessionError VerifiedFilesystemSession :=
  let? cfg := lift_result (ok_or (fi_routes i !! route) FSE_RouteUnavailable) in
  if (fc_token_bytes cfg <? len token)%Z then fail FSE_InvalidToken else
  let? (data, tag) := lift_result (token_fields token) in
  let? expected := lift_result (mac (fi_pepper i) TOKEN_DOMAIN [data]) in
  if negb (str_eqb tag expected) then fail FSE_InvalidToken else
  let? payload := lift_result (ok_or (payload_from_slice data) FSE_InvalidToken) in
  let? now := lift_result (fs_seconds utc) in
  let? scope := lift_result (validate cfg payload now) in
  if negb (str_eqb (pl_access_key payload) access_key) then fail FSE_InvalidToken else
  let? expiry := lift_result (ok_or (checked_add_time UNIX_EPOCH (pl_expires_at payload * NANOS)) FSE_InvalidToken) in
  let? remaining := lift_result (ok_or (duration_since expiry utc) FSE_Expired) in
  let? deadline := lift_result (ok_or (checked_add_time monotonic remaining) FSE_InvalidToken) in
  let? secret := lift_result (secret (fi_pepper i) (pl_access_key payload) tag) in
  let verified := {| vs_payload := payload; vs_scope := scope; vs_secret := secret; vs_deadline := deadline |} in
  do? vs_check verified deadline in
  ret verified.
Definition verify_session (i : FilesystemStorageIssuer) (route access_key token : string)
    : M clock FilesystemSessionError VerifiedFilesystemSession :=
  let? monotonic := instant_now in
  let? utc := system_now in
  verify_at i route access_key token utc monotonic.

Record IssuedStorageCredentials := {
  is_key : string;
  is_secret : string;
  is_token : string;
  is_expires_at : string;
  is_expiry : Z;
  is_bucket : string;
  is_region : string;
  is_endpoint : option string;
  is_conditional_delete : bool;
  is_copy_if_not_exists : StorageCopyIfNotExists;
  is_base_prefix : string;
  is_project_id : string;
  is_revision : Z;
}.
Definition session_scope (scope : StorageScope) : option SessionScope :=
  match scope_project_id scope, scope_installation_id scope with
  | Some id, None => Some (SS_Project id)
  | None, Some id => Some (SS_User id)
  | None, None => Some SS_Hub
  | _, _ => None
  end.
Definition grant_access (cfg : FilesystemStorageRouteConfig) (grant : AuthorizedStorageGrant) : list (list string) :=
  (λ op, (λ p, fc_base_prefix cfg +:+ "/" +:+ p) <$> ag_prefixes grant op) <$> StorageOperation_ALL.
Definition checked_add_u64 (a b : Z) : option Z := if (a + b <=? U64_MAX)%Z then Some (a + b)%Z else None.
(** [random] is what [getrandom] filled in, if it succeeded. *)
Definition issue_current (i : FilesystemStorageIssuer) (grant : AuthorizedStorageGrant) (random : option string)
    : M clock StorageIssueError IssuedStorageCredentials :=
  let? cfg := lift_result (ok_or (fi_routes i !! ag_route grant) SIE_RouteUnavailable) in
  let? utc := system_now in
  let? now := lift_result (rmap_err (λ _, SIE_InvalidResponse) (fs_seconds utc)) in
  let? expires_at := lift_result (ok_or (checked_add_u64 now (fc_session_duration cfg / NANOS)) SIE_InvalidConfiguration) in
  let? random := lift_result (ok_or random SIE_Provider) in
  let? scope := lift_result (ok_or (session_scope (ag_scope grant)) SIE_InvalidConfiguration) in
  let payload := {| pl_access_key := b64_encode random; pl_route := fc_name cfg; pl_bucket := fc_bucket cfg;
                    pl_region := fc_region cfg; pl_subject := sa_subject (ag_auth grant); pl_scope := scope;
                    pl_module := StorageModule_as_str (scope_module (ag_scope grant));
                    pl_revision := ag_revision grant; pl_issued_at := now; pl_expires_at := expires_at;
                    pl_access := grant_access cfg grant |} in
  let? _ := lift_result (rmap_err (λ _, SIE_InvalidConfiguration) (validate cfg payload now)) in
  let? token := lift_result (rmap_err (λ _, SIE_InvalidResponse) (fs_encode i payload)) in
  if (fc_token_bytes cfg <? len token)%Z then fail SIE_PolicyTooLarge else
  let? verified := map_err (λ _, SIE_InvalidResponse)
    (verify_session i (ag_route grant) (pl_access_key payload) token) in
  let expiry := vs_expiry verified in
  let? text := lift_result (ok_or (if (expires_at <=? I64_MAX)%Z then datetime_fmt expires_at else None)
                             SIE_InvalidResponse) in
  do? map_err SIE_Admission (ag_check grant) in
  do? map_err (λ _, SIE_Deadline) (vs_check verified (sa_end (ag_auth grant))) in
  let issued := {| is_key := pl_access_key payload; is_secret := vs_secret verified; is_token := token;
                   is_expires_at := text; is_expiry := expiry; is_bucket := fc_bucket cfg;
                   is_region := fc_region cfg; is_endpoint := Some (fc_endpoint cfg);
                   is_conditional_delete := true; is_copy_if_not_exists := CopyIfNoneMatch;
                   is_base_prefix := fc_base_prefix cfg;
                   is_project_id := default "" (scope_project_id (ag_scope grant));
                   is_revision := ag_revision grant |} in
  do? map_err SIE_Admission (ag_check grant) in
  let? utc := system_now in
  if (is_expiry issued <=? utc)%Z then fail SIE_InvalidResponse else
  ret issued.
Definition issue (i : FilesystemStorageIssuer) (grant : AuthorizedStorageGrant) (random : option string)
    : M clock StorageIssueError IssuedStorageCredentials :=
  do? map_err SIE_Admission (ag_check grant) in
  let? r := outcome (issue_current i grant random) in
  do? map_err SIE_Admission (ag_check grant) in
  lift_result r.

(** ** Lemmas: keys and paths *)

(** Being below a root is a matter of whole segments. *)
Lemma under_split p r : under p r ↔ split r "/" `prefix_of` split p "/".
Proof.
  split.
  - intros [->|[rest ->]]; [done|]. change ("/" +:+ rest) with (String "/" rest).
    rewrite split_app_sep. by eexists.
  - intros [k Hk]. destruct k as [|x k].
    + rewrite app_nil_r in Hk. left. by eapply split_inj.
    + right. exists (join "/" (x :: k)). rewrite <- (join_split p "/"), Hk.
      assert (split r "/" ≠ []) as Hr.
      { unfold split. pose proof (split_list_not_nil "/" (bytes r)). by destruct (split_list "/" (bytes r)). }
      rewrite join_app by done. by rewrite join_split.
Qed.
Lemma covered_spec v indices target :
  covered v indices target = true ↔
  ∃ i roots root, i ∈ indices ∧ pl_access (vs_payload v) !! i = Some roots ∧ root ∈ roots ∧ under target root.
Proof.
  unfold covered. rewrite existsb_elem. split.
  - intros (i & Hi & (root & Hroot & Hu)%existsb_elem).
    destruct (pl_access (vs_payload v) !! i) as [roots|] eqn:E; simpl in Hroot; [|by apply elem_of_nil in Hroot].
    exists i, roots, root. split; [done|]. split; [done|]. split; [done|].
    unfold under. by rewrite <- str_eqb_eq, <- strip_slash, <- orb_true_iff.
  - intros (i & roots & root & Hi & Hr & Hroot & Hu). exists i. split; [done|]. apply existsb_elem. exists root.
    rewrite Hr. split; [done|]. unfold under in Hu. by rewrite orb_true_iff, str_eqb_eq, strip_slash.
Qed.

(** ** Lemmas: validation *)

Lemma check_roots_ok base unique roots :
  check_roots base unique roots = true →
  NoDup roots ∧ ∀ root, root ∈ roots → root ∉ unique ∧ valid_key root = true ∧
    ∃ rest, rest ≠ "" ∧ root = base +:+ rest.
Proof.
  revert unique. induction roots as [|root roots IH]; intros unique; simpl.
  { intros _. split; [constructor|]. by intros root ?%elem_of_nil. }
  rewrite !andb_true_iff, negb_true_iff, Z.ltb_lt, starts_with_spec.
  intros ((((Hk & rest & ->) & Hl) & Hu) & [Hnd Hall]%IH).
  assert (base +:+ rest ∉ unique) as Hnew.
  { intros Hin. apply not_true_iff_false in Hu. apply Hu, existsb_elem. exists (base +:+ rest).
    split; [done|apply str_eqb_refl]. }
  split.
  - constructor; [|done]. intros Hin. apply Hall in Hin as [Hin _]. apply Hin. left.
  - intros r [->|Hin]%elem_of_cons.
    + split; [done|]. split; [done|]. exists rest. split; [|done].
      intros ->. rewrite len_app in Hl. change (len "") with 0%Z in Hl. lia.
    + apply Hall in Hin as (Hn & Hk' & Hr). split; [|done]. intros Hin'. apply Hn. by right.
Qed.
(** The payload of an acceptable token under a route. *)
Record payload_wf (cfg : FilesystemStorageRouteConfig) (p : Payload) : Prop := {
  pw_route : pl_route p = fc_name cfg ∧ pl_bucket p = fc_bucket cfg ∧ pl_region p = fc_region cfg;
  pw_revision : (0 < pl_revision p)%Z;
  pw_lifetime : (900 ≤ pl_expires_at p - pl_issued_at p ≤ 43200)%Z;
  pw_access : ∃ roots, roots ∈ pl_access p ∧ roots ≠ [];
  pw_roots roots : roots ∈ pl_access p → NoDup roots ∧
    ∀ root, root ∈ roots → valid_key root = true ∧ ∃ rest, rest ≠ "" ∧ root = fc_base_prefix cfg +:+ "/" +:+ rest;
}.
Lemma validate_ok cfg p now scope :
  validate cfg p now = Ok scope →
  validated_scope p = Ok scope ∧ payload_wf cfg p ∧ (pl_issued_at p ≤ now < pl_expires_at p)%Z ∧
  is_Some (b64_decode (pl_access_key p)).
Proof.
  unfold validate. intros Hv. invert_ok Hv. injection Hv as <-. bool_to_prop. split; [done|].
  repeat match goal with E : str_eqb _ _ = true |- _ => apply str_eqb_eq in E end.
  assert (is_Some (b64_decode (pl_access_key p))) as Hb by (by destruct (b64_decode (pl_access_key p))).
  split; [|done]. split.
  - done.
  - lia.
  - unfold checked_sub_u64 in *. destruct (Z.leb_spec (pl_issued_at p) (pl_expires_at p)); simpl in *; [|done].
    bool_to_prop. lia.
  - select (forallb (λ r, bool_decide _) _ = false) (fun Hf => apply forallb_false_elem in Hf as (r & Hr & Hne)).
    bool_to_prop. by exists r.
  - intros roots Hin. select (forallb _ _ = true) (fun Hf => rewrite forallb_elem in Hf; apply Hf in Hin).
    apply check_roots_ok in Hin as [Hnd Hall]. split; [done|]. intros root Hr.
    destruct (Hall root Hr) as (_ & Hk & rest & Hne & ->). split; [done|]. exists rest. split; [done|].
    by rewrite str_app_assoc.
Qed.
Lemma fs_seconds_ok utc s : fs_seconds utc = Ok s → (0 ≤ utc)%Z ∧ s = (utc / NANOS)%Z.
Proof.
  unfold fs_seconds, duration_since, UNIX_EPOCH. destruct (Z.leb_spec 0 utc); simpl; [|done].
  intros [= <-]. by rewrite Z.sub_0_r.
Qed.
(** The samples a passed check took: the session is alive at each. *)
Lemma vs_check_ok v original c u c' :
  vs_check v original c = (Ok u, c') →
  (mono_at c (tick c) < vs_deadline v)%Z ∧ (0 ≤ utc_at c (S (tick c)) < vs_expiry v)%Z ∧
  (mono_at c (S (S (tick c))) < original)%Z ∧ c' = advance (advance (advance c)).
Proof.
  unfold vs_check. intros Hr. invert_run Hr. bool_to_prop. simpl in *.
  select (fs_seconds _ = _) (fun Hs => apply fs_seconds_ok in Hs as [? ->]).
  unfold vs_expiry, UNIX_EPOCH, NANOS in *. split; [done|]. split; [|done].
  split; [done|]. pose proof (Z.mul_div_le (utc_at c (S (tick c))) 1000000000 ltac:(lia)).
  pose proof (Z.mod_pos_bound (utc_at c (S (tick c))) 1000000000 ltac:(lia)).
  pose proof (Z.div_mod (utc_at c (S (tick c))) 1000000000 ltac:(lia)). lia.
Qed.
Lemma vs_check_runs v original c x c' : vs_check v original c = (x, c') → clock_run c c'.
Proof.
  unfold vs_check, bind, instant_now, system_now, lift_result. simpl.
  destruct (_ <=? _)%Z; [intros [= _ <-]; eauto with broker|]. destruct (fs_seconds _) as [s|e]; [|intros [= _ <-]; eauto with broker].
  destruct (_ <=? _)%Z; [intros [= _ <-]; eauto with broker|]. destruct (_ <=? _)%Z; intros [= _ <-]; eauto with broker.
Qed.
(** A check fails only for a sample it has taken. *)
Lemma vs_check_fails v original c e c' :
  vs_check v original c = (Err e, c') →
  ∃ n, tick c ≤ n < tick c' ∧
    ((vs_deadline v ≤ mono_at c n)%Z ∨ (original ≤ mono_at c n)%Z ∨ ¬ (0 ≤ utc_at c n < vs_expiry v)%Z).
Proof.
  unfold vs_check, bind, instant_now, system_now, lift_result. simpl.
  destruct (Z.leb_spec (vs_deadline v) (mono_at c (tick c))).
  { intros [= _ <-]. exists (tick c). simpl. split; [lia|by left]. }
  destruct (fs_seconds _) as [s|e1] eqn:Es; cycle 1.
  { intros [= _ <-]. exists (S (tick c)). simpl. split; [lia|]. right. right. intros [Hu _].
    unfold fs_seconds, duration_since, UNIX_EPOCH in Es. simpl in Es. by apply Z.leb_le in Hu; rewrite Hu in Es. }
  apply fs_seconds_ok in Es as [_ ->]. simpl.
  destruct (Z.leb_spec (pl_expires_at (vs_payload v)) (utc_at c (S (tick c)) / NANOS)).
  { intros [= _ <-]. exists (S (tick c)). simpl. split; [lia|]. right. right. intros [_ Hu].
    unfold vs_expiry, UNIX_EPOCH in Hu. pose proof (Z.mul_div_le (utc_at c (S (tick c))) NANOS ltac:(done)).
    unfold NANOS in *. nia. }
  simpl. destruct (Z.leb_spec original (mono_at c (S (S (tick c))))); [intros [= _ <-]|done].
  exists (S (S (tick c))). simpl. split; [lia|]. auto.
Qed.
Lemma vs_check_passes v original c :
  (mono_at c (tick c) < vs_deadline v)%Z → (0 ≤ utc_at c (S (tick c)) < vs_expiry v)%Z →
  (mono_at c (S (S (tick c))) < original)%Z →
  vs_check v original c = (Ok tt, advance (advance (advance c))).
Proof.
  intros Hm [Hu0 Hu] Ho. unfold vs_check, bind, instant_now, system_now, lift_result, fs_seconds, duration_since.
  simpl. destruct (Z.leb_spec (vs_deadline v) (mono_at c (tick c))); [lia|]. simpl. unfold UNIX_EPOCH.
  destruct (Z.leb_spec 0 (utc_at c (S (tick c)))); [|lia]. simpl. rewrite Z.sub_0_r.
  destruct (Z.leb_spec (pl_expires_at (vs_payload v)) (utc_at c (S (tick c)) / NANOS)) as [Hle|].
  - exfalso. unfold vs_expiry, UNIX_EPOCH in Hu.
    pose proof (Z.mul_div_le (utc_at c (S (tick c))) NANOS ltac:(done)). unfold NANOS in *. nia.
  - simpl. destruct (Z.leb_spec original (mono_at c (S (S (tick c))))); [lia|done].
Qed.
Lemma fs_encode_ok i p token :
  fs_encode i p = Ok token → ∃ data tag,
    payload_to_vec p = Some data ∧ hmac_sha256 (fi_pepper i) (mac_message TOKEN_DOMAIN [data]) = Some tag ∧
    token = TOKEN_PREFIX +:+ "." +:+ b64_encode data +:+ "." +:+ b64_encode tag.
Proof.
  unfold fs_encode, mac. intros He. invert_ok He. injection He as <-. by do 2 eexists.
Qed.
(** What a verification that succeeds has established. *)
Lemma verify_at_ok i route access_key token utc monotonic c v c' :
  verify_at i route access_key token utc monotonic c = (Ok v, c') →
  ∃ cfg data tag now,
    fi_routes i !! route = Some cfg ∧ (len token ≤ fc_token_bytes cfg)%Z ∧
    token_fields token = Ok (data, tag) ∧
    hmac_sha256 (fi_pepper i) (mac_message TOKEN_DOMAIN [data]) = Some tag ∧
    payload_from_slice data = Some (vs_payload v) ∧ pl_access_key (vs_payload v) = access_key ∧
    fs_seconds utc = Ok now ∧ validate cfg (vs_payload v) now = Ok (vs_scope v) ∧
    secret (fi_pepper i) access_key tag = Ok (vs_secret v) ∧
    (utc ≤ vs_expiry v)%Z ∧ vs_deadline v = (monotonic + (vs_expiry v - utc))%Z ∧
    vs_check v (vs_deadline v) c = (Ok tt, c').
Proof.
  unfold verify_at, mac. intros Hr. invert_run Hr. destruct a0 as [data tag]. invert_run Hr. bool_to_prop.
  repeat match goal with E : str_eqb _ _ = true |- _ => apply str_eqb_eq in E end.
  repeat match goal with E : ok_or _ _ = Ok _ |- _ => apply ok_or_ok in E end.
  match goal with E : checked_add_time UNIX_EPOCH _ = _ |- _ => rename E into Ex end.
  match goal with E : duration_since _ _ = _ |- _ => rename E into Ed end.
  match goal with E : checked_add_time monotonic _ = _ |- _ => rename E into Em end.
  unfold checked_add_time, duration_since in Ex, Ed, Em.
  case_hyp Ex; [|done]. case_hyp Ed; [|done]. case_hyp Em; [|done]. injection Ex as <-. injection Ed as <-. injection Em as <-.
  bool_to_prop. unfold vs_expiry. simpl. subst. do 4 eexists. repeat (split; [eassumption || done|]).
  match goal with u : unit |- _ => destruct u end. done.
Qed.

Lemma verify_session_ok i route access_key token c v c' :
  verify_session i route access_key token c = (Ok v, c') →
  verify_at i route access_key token (utc_at c (S (tick c))) (mono_at c (tick c)) (advance (advance c)) = (Ok v, c').
Proof. unfold verify_session. intros Hr. by invert_run Hr. Qed.
Lemma vs_allows_true {E} v op target c c' :
  vs_allows (E:=E) v op target c = (Ok true, c') →
  valid_key target = true ∧ covered v (operation_indices op) target = true ∧
  (mono_at c (tick c) < vs_deadline v)%Z ∧ (utc_at c (S (tick c)) < vs_expiry v)%Z.
Proof.
  unfold vs_allows, bind, outcome. destruct (valid_key target); simpl; [|done].
  destruct (vs_check v (vs_deadline v) c) as [[[]|e] c1] eqn:Ec; simpl; [|done].
  intros [= <- <-]. apply vs_check_ok in Ec as (Hm & [_ Hu] & _). done.
Qed.
Lemma valid_key_segments target :
  valid_key target = true → Forall (λ part, part ≠ "" ∧ part ≠ "." ∧ part ≠ "..") (split target "/").
Proof.
  unfold valid_key. rewrite !andb_true_iff, forallb_elem. intros [_ Hs]. apply Forall_forall. intros x Hx.
  apply Hs in Hx. bool_to_prop. split; [intros ->; done|]. split; by apply str_eqb_neq.
Qed.

Lemma issue_ok i grant random c cred c' :
  issue i grant random c = (Ok cred, c') →
  ∃ cfg p v c1 c2,
    fi_routes i !! ag_route grant = Some cfg ∧ is_base_prefix cred = fc_base_prefix cfg ∧
    fs_encode i p = Ok (is_token cred) ∧ pl_access_key p = is_key cred ∧ pl_access p = grant_access cfg grant ∧
    verify_session i (ag_route grant) (is_key cred) (is_token cred) c1 = (Ok v, c2) ∧ is_expiry cred = vs_expiry v.
Proof.
  unfold issue. intros Hr. invert_run Hr. apply lift_ok in Hr as [-> _].
  select (outcome _ _ = _) (fun Ho => unfold outcome in Ho; rename Ho into Hi).
  destruct (issue_current i grant random s) as [r c1] eqn:Ei. injection Hi as -> _.
  unfold issue_current in Ei. invert_run Ei. simpl.
  do 5 eexists. split; [eassumption|]. split; [done|].
  repeat match goal with R : rmap_err _ _ = Ok _ |- _ => apply rmap_err_ok in R end.
  split; [eassumption|]. split; [done|]. split; [done|]. split; [eassumption|done].
Qed.
Lemma grant_access_lookup cfg grant k roots root :
  grant_access cfg grant !! k = Some roots → root ∈ roots →
  ∃ op prefix, StorageOperation_index op = k ∧ prefix ∈ ag_prefixes grant op ∧ root = fc_base_prefix cfg +:+ "/" +:+ prefix.
Proof.
  unfold grant_access. rewrite list_lookup_fmap. intros Hk Hr.
  destruct (StorageOperation_ALL !! k) as [op|] eqn:Eop; [|done]. simpl in Hk. injection Hk as <-.
  apply list_elem_of_fmap in Hr as (prefix & -> & Hp). exists op, prefix. split; [|done].
  do 4 (destruct k as [|k]; [by injection Eop as <-|]). done.
Qed.

(** ** Properties *)

(** A session is verified only for a token that carries the issuer's code
    of its payload under one of its routes, for the access key presented; the
    payload is well formed for that route and within its lifetime, and the
    monotonic deadline of the session is exactly the rest of that lifetime, at
    most twelve hours. *)
Theorem fs_verify_sound i route access_key token c v c' :
  verify_session i route access_key token c = (Ok v, c') →
  let utc := utc_at c (S (tick c)) in
  let mono := mono_at c (tick c) in
  ∃ cfg data tag,
    fi_routes i !! route = Some cfg ∧ (len token ≤ fc_token_bytes cfg)%Z ∧
    token_fields token = Ok (data, tag) ∧
    hmac_sha256 (fi_pepper i) (mac_message TOKEN_DOMAIN [data]) = Some tag ∧
    payload_from_slice data = Some (vs_payload v) ∧ pl_access_key (vs_payload v) = access_key ∧
    payload_wf cfg (vs_payload v) ∧ validated_scope (vs_payload v) = Ok (vs_scope v) ∧
    (pl_issued_at (vs_payload v) * NANOS ≤ utc < vs_expiry v)%Z ∧
    vs_deadline v = (mono + (vs_expiry v - utc))%Z ∧ (vs_deadline v ≤ mono + 43200 * NANOS)%Z.
Proof.
  intros Hv%verify_session_ok. cbv zeta.
  apply verify_at_ok in Hv as (cfg & data & tag & now & Hr & Hl & Hf & Hm & Hp & Hk & Hs & Hval & _ & _ & Hd & _).
  apply validate_ok in Hval as (Hscope & Hwf & [Hi He] & _). apply fs_seconds_ok in Hs as [Hu ->].
  set (utc := utc_at c (S (tick c))) in *. destruct (pw_lifetime _ _ Hwf) as [_ Hlife].
  pose proof (Z.mul_div_le utc NANOS ltac:(done)) as Hlo.
  pose proof (Z.mul_succ_div_gt utc NANOS ltac:(done)) as Hhi. unfold vs_expiry, UNIX_EPOCH, NANOS in *.
  exists cfg, data, tag. repeat (split; [done|]). split; [nia|]. split; [done|]. rewrite Hd. nia.
Qed.

Section laws.
(** Documented behaviour of the libraries: base64 decodes what it encodes, into
    an alphabet without dots, JSON reads back what it wrote, and HMAC takes keys
    of every length. *)
Context (b64_decode_encode : ∀ s, b64_decode (b64_encode s) = Some s)
        (b64_no_dot : ∀ s, contains_byte "." (b64_encode s) = false)
        (payload_round_trip : ∀ p data, payload_to_vec p = Some data → payload_from_slice data = Some p)
        (hmac_total : ∀ k m, is_Some (hmac_sha256 k m)).

Lemma token_fields_encode data tag :
  token_fields (TOKEN_PREFIX +:+ "." +:+ b64_encode data +:+ "." +:+ b64_encode tag) = Ok (data, tag).
Proof.
  unfold token_fields. change ("." +:+ b64_encode tag) with (String "." (b64_encode tag)).
  change ("." +:+ ?x) with (String "." x). rewrite !split_app_sep, !split_no_sep by done.
  simpl. by rewrite !b64_decode_encode.
Qed.
Lemma encoded_payload i p token route access_key c v c' :
  fs_encode i p = Ok token → verify_session i route access_key token c = (Ok v, c') → vs_payload v = p.
Proof.
  intros (data & tag & Hd & _ & ->)%fs_encode_ok Hv%verify_session_ok.
  apply verify_at_ok in Hv as (cfg & data' & tag' & now & _ & _ & Hf & _ & Hp & _).
  rewrite token_fields_encode in Hf. injection Hf as <- <-. apply payload_round_trip in Hd. congruence.
Qed.

(** The token of a payload that is valid for its route is verified into a
    session with that payload and its scope: verification answers exactly what
    the check of that session answers. *)
Theorem fs_token_round_trip i route cfg p scope token now utc mono c :
  fi_routes i !! route = Some cfg → validate cfg p now = Ok scope → fs_encode i p = Ok token →
  (len token ≤ fc_token_bytes cfg)%Z → fs_seconds utc = Ok now →
  (pl_expires_at p * NANOS ≤ TIME_MAX)%Z → (mono + (pl_expires_at p * NANOS - utc) ≤ TIME_MAX)%Z →
  ∃ v, vs_payload v = p ∧ vs_scope v = scope ∧ vs_deadline v = (mono + (vs_expiry v - utc))%Z ∧
    verify_at i route (pl_access_key p) token utc mono c =
      match vs_check v (vs_deadline v) c with (Ok _, c') => (Ok v, c') | (Err e, c') => (Err e, c') end.
Proof.
  intros Hroute Hval Henc Hlen Hsec Hfit Hfit2.
  destruct (fs_encode_ok _ _ _ Henc) as (data & tag & Hd & Hm & Ht).
  destruct (hmac_total (fi_pepper i) (mac_message SECRET_DOMAIN [pl_access_key p; tag])) as [sec Hsecret].
  exists {| vs_payload := p; vs_scope := scope; vs_secret := b64_encode sec;
            vs_deadline := (mono + (pl_expires_at p * NANOS - utc))%Z |}.
  split; [done|]. split; [done|]. split; [done|].
  assert (utc ≤ pl_expires_at p * NANOS)%Z as Hexp.
  { pose proof Hval as (_ & _ & [_ He] & _)%validate_ok. apply fs_seconds_ok in Hsec as [_ ->].
    pose proof (Z.mul_succ_div_gt utc NANOS ltac:(done)). unfold NANOS in *. nia. }
  unfold verify_at. rewrite Hroute. rewrite (bind_run _ _ _ cfg c) by done.
  destruct (Z.ltb_spec (fc_token_bytes cfg) (len token)); [lia|].
  rewrite (bind_run _ _ _ (data, tag) c) by (by rewrite Ht, token_fields_encode).
  unfold mac. rewrite Hm. rewrite (bind_run _ _ _ tag c) by done. rewrite str_eqb_refl. cbn [negb].
  rewrite (payload_round_trip _ _ Hd), (bind_run _ _ _ p c) by done.
  rewrite Hsec, (bind_run _ _ _ now c), Hval, (bind_run _ _ _ scope c), str_eqb_refl by done. cbn [negb].
  unfold checked_add_time at 1. rewrite (proj2 (Z.leb_le _ _)) by (unfold UNIX_EPOCH; lia).
  rewrite (bind_run _ _ _ (UNIX_EPOCH + pl_expires_at p * NANOS)%Z c) by done.
  unfold duration_since. rewrite (proj2 (Z.leb_le _ _)) by (unfold UNIX_EPOCH; lia).
  rewrite (bind_run _ _ _ (UNIX_EPOCH + pl_expires_at p * NANOS - utc)%Z c) by done.
  unfold checked_add_time. rewrite (proj2 (Z.leb_le _ _)) by (unfold UNIX_EPOCH; lia).
  rewrite (bind_run _ _ _ (mono + (UNIX_EPOCH + pl_expires_at p * NANOS - utc))%Z c) by done.
  unfold secret, mac. rewrite Hsecret, (bind_run _ _ _ (b64_encode sec) c) by done.
  change (UNIX_EPOCH + pl_expires_at p * NANOS)%Z with (pl_expires_at p * NANOS)%Z. unfold bind at 1.
  by destruct (vs_check _ _ _) as [[[]|] ?].
Qed.

(** What a grant of one operation lets one do: writing includes reading, and
    publishing includes everything. *)
Inductive implies : StorageOperation → StorageOperation → Prop :=
| implies_self op : implies op op
| implies_read : implies OpWrite OpRead
| implies_all op : implies OpPublish op.
Lemma operation_indices_implies op op' : StorageOperation_index op' ∈ operation_indices op → implies op' op.
Proof. destruct op, op'; simpl; rewrite ?elem_of_cons, elem_of_nil; intros Hin; first [by constructor|naive_solver]. Qed.

(** C23. The credentials issued for a grant never exceed it: whoever presents
    their token, to whichever route, is allowed an operation only before the
    expiry of the credentials, on a canonical key that lies, by whole path
    segments, below a prefix the grant gives to that operation or to one that
    includes it, as writing includes reading and publishing everything. *)
Theorem fs_issue_confined i grant random c cred c' :
  issue i grant random c = (Ok cred, c') →
  ∃ cfg, fi_routes i !! ag_route grant = Some cfg ∧ is_base_prefix cred = fc_base_prefix cfg ∧
  ∀ route access_key c1 v c2 E op target c3 c4,
    verify_session i route access_key (is_token cred) c1 = (Ok v, c2) →
    vs_allows (E:=E) v op target c3 = (Ok true, c4) →
    access_key = is_key cred ∧ (utc_at c3 (S (tick c3)) < is_expiry cred)%Z ∧
    Forall (λ part, part ≠ "" ∧ part ≠ "." ∧ part ≠ "..") (split target "/") ∧
    ∃ op' prefix, implies op' op ∧ prefix ∈ ag_prefixes grant op' ∧
      split (fc_base_prefix cfg +:+ "/" +:+ prefix) "/" `prefix_of` split target "/".
Proof.
  intros (cfg & p & v0 & c1 & c2 & Hroute & Hbase & Henc & Hkey & Hacc & Hv0 & Hexp)%issue_ok.
  exists cfg. split; [done|]. split; [done|]. intros route access_key c3 v c4 E op target c5 c6 Hv Ha.
  pose proof (encoded_payload _ _ _ _ _ _ _ _ Henc Hv) as Hp.
  pose proof (encoded_payload _ _ _ _ _ _ _ _ Henc Hv0) as Hp0.
  apply vs_allows_true in Ha as (Hvalid & Hcov & _ & Hu).
  apply verify_session_ok, verify_at_ok in Hv as (_ & _ & _ & _ & _ & _ & _ & _ & _ & Hk & _).
  split; [by rewrite <- Hk, Hp|]. split; [rewrite Hexp; unfold vs_expiry in *; congruence|].
  split; [by apply valid_key_segments|].
  apply covered_spec in Hcov as (k & roots & root & Hin & Hl & Hr & Hunder). rewrite Hp, Hacc in Hl.
  destruct (grant_access_lookup _ _ _ _ _ Hl Hr) as (op' & prefix & <- & Hpre & ->).
  exists op', prefix. split; [by apply operation_indices_implies|]. split; [done|]. by apply under_split.
Qed.
End laws.
End session.

(** ** A concrete library, for the examples: hexadecimal text marked with an x *)

#[local] Existing Instance sample_ulid_lib.
#[local] Existing Instance sample_jwt_lib.
#[global] Instance SessionScope_eq_dec : EqDecision SessionScope.
Proof. solve_decision. Defined.
#[global] Instance Payload_eq_dec : EqDecision Payload.
Proof. solve_decision. Defined.
Definition sample_b64_encode (s : string) : string := String "x" (of_bytes (bytes s ≫= hex_byte)).
Definition sample_b64_decode (s : string) : option string :=
  match s with String "x" s => of_bytes <$> unhex (bytes s) | _ => None end.
Definition sample_payload : Payload :=
  {| pl_access_key := sample_b64_encode "a random key of bytes"; pl_route := "primary"; pl_bucket := "bucket";
     pl_region := "local"; pl_subject := "local|alice-subject"; pl_scope := SS_Project sample_project; pl_module := "hub";
     pl_revision := 7; pl_issued_at := 0; pl_expires_at := 900;
     pl_access := [["tenant/v1/projects"]; []; []; []] |}.
Definition sample_session_lib : SessionLib :=
  {| b64_encode := sample_b64_encode; b64_decode := sample_b64_decode; hmac_sha256 := λ _ _, Some "tag";
     payload_to_vec := λ p, if decide (p = sample_payload) then Some "{}" else None;
     payload_from_slice := λ s, if decide (s = "{}") then Some sample_payload else None;
     url_parse := λ _, None; datetime_fmt := λ _, Some "1970-01-01T00:15:00Z" |}.
Lemma sample_b64_law s :
  @b64_decode sample_session_lib (@b64_encode sample_session_lib s) = Some s.
Proof.
  simpl. unfold sample_b64_encode, sample_b64_decode. rewrite bytes_of_bytes.
  rewrite unhex_hex. simpl. by rewrite of_bytes_bytes.
Qed.
Lemma sample_b64_no_dot s : contains_byte "." (@b64_encode sample_session_lib s) = false.
Proof.
  simpl. unfold sample_b64_encode, contains_byte. simpl. rewrite bytes_of_bytes. apply not_true_iff_false.
  rewrite existsb_elem. intros (x & Hx & Hdot). apply Ascii.eqb_eq in Hdot as <-.
  apply list_elem_of_bind in Hx as (b & Hx & _).
  assert (bool_decide ("."%char ∈ hex_byte b) = false) as Hn by (by destruct b as [[] [] [] [] [] [] [] []]).
  by apply bool_decide_eq_false in Hn.
Qed.
Lemma sample_payload_law p data :
  @payload_to_vec sample_session_lib p = Some data → @payload_from_slice sample_session_lib data = Some p.
Proof. simpl. destruct (decide (p = sample_payload)) as [->|]; [|done]. by intros [= <-]. Qed.
Lemma sample_hmac_law k m : is_Some (@hmac_sha256 sample_session_lib k m).
Proof. by eexists. Qed.
#[local] Existing Instance sample_session_lib.
Definition sample_route : FilesystemStorageRouteConfig :=
  {| fc_name := "primary"; fc_bucket := "bucket"; fc_region := "local"; fc_base_prefix := "tenant";
     fc_endpoint := "https://storage"; fc_session_duration := 900 * NANOS; fc_token_bytes := 4096 |}.
Definition sample_issuer : FilesystemStorageIssuer :=
  {| fi_routes := {["primary" := sample_route]}; fi_pepper := "0123456789abcdef0123456789abcdef" |}.
Definition sample_storage_grant : AuthorizedStorageGrant :=
  {| ag_auth := sample_auth; ag_scope := ScProject sample_project ModHub; ag_route := "primary"; ag_revision := 7;
     ag_access := [["v1/projects"]; []; []; []] |}.
Definition sample_token : string :=
  match fs_encode sample_issuer sample_payload with Ok t => t | Err _ => "" end.

Lemma fs_verify_sound_witness :
  ∃ v c', verify_session sample_issuer "primary" (pl_access_key sample_payload) sample_token sample_clock = (Ok v, c') ∧
    payload_wf sample_route (vs_payload v).
Proof.
  destruct (verify_session sample_issuer "primary" (pl_access_key sample_payload) sample_token sample_clock)
    as [[v|e] c'] eqn:E; [|vm_compute in E; discriminate E].
  exists v, c'. split; [done|].
  destruct (fs_verify_sound _ _ _ _ _ _ _ E) as (cfg & data & tag & Hr & _ & _ & _ & _ & _ & Hwf & _).
  simpl in Hr. by simplify_map_eq.
Defined.
Lemma fs_token_round_trip_witness :
  ∃ v, vs_payload v = sample_payload ∧
    verify_at sample_issuer "primary" (pl_access_key sample_payload) sample_token 5000 0 sample_clock =
      match vs_check v (vs_deadline v) sample_clock with (Ok _, c') => (Ok v, c') | (Err e, c') => (Err e, c') end.
Proof.
  destruct (fs_token_round_trip sample_b64_law sample_b64_no_dot sample_payload_law
    sample_hmac_law sample_issuer "primary" sample_route sample_payload
    (ScProject sample_project ModHub) sample_token 0 5000 0 sample_clock) as (v & Hp & _ & _ & Hv);
    [vm_compute; done..|]. by exists v.
Defined.
(** The holder of the credentials reads below the prefix granted for reading. *)
Lemma fs_issue_confined_witness :
  ∃ cred c' v c2 c4, issue sample_issuer sample_storage_grant (Some "a random key of bytes") sample_clock = (Ok cred, c') ∧
    verify_session sample_issuer "primary" (is_key cred) (is_token cred) sample_clock = (Ok v, c2) ∧
    vs_allows (E:=FilesystemSessionError) v OpRead "tenant/v1/projects/a" sample_clock = (Ok true, c4) ∧
    (vs_allows (E:=FilesystemSessionError) v OpWrite "tenant/v1/projects/a" sample_clock).1 = Ok false ∧
    ∃ op' prefix, implies op' OpRead ∧ prefix ∈ ag_prefixes sample_storage_grant op'.
Proof.
  destruct (issue sample_issuer sample_storage_grant (Some "a random key of bytes") sample_clock)
    as [[cred|e] c'] eqn:E; [|vm_compute in E; discriminate E].
  destruct (verify_session sample_issuer "primary" (is_key cred) (is_token cred) sample_clock) as [[v|e] c2] eqn:Ev;
    [|vm_compute in E; injection E as <- _; vm_compute in Ev; discriminate Ev].
  destruct (vs_allows (E:=FilesystemSessionError) v OpRead "tenant/v1/projects/a" sample_clock) as [r c4] eqn:Ea.
  assert (r = Ok true ∧ (vs_allows (E:=FilesystemSessionError) v OpWrite "tenant/v1/projects/a" sample_clock).1 = Ok false) as [-> Hw].
  { vm_compute in E. injection E as <- _. vm_compute in Ev. injection Ev as <- _. vm_compute in Ea. injection Ea as <- _. split; reflexivity. }
  exists cred, c', v, c2, c4. split; [reflexivity|]. split; [exact Ev|]. split; [exact Ea|]. split; [exact Hw|].
  destruct (fs_issue_confined sample_b64_law sample_b64_no_dot sample_payload_law _ _ _ _ _ _ E) as (cfg & Hr & Hb & Hall).
  destruct (Hall _ _ _ _ _ _ _ _ _ _ Ev Ea) as (_ & _ & _ & op' & prefix & Hi & Hp & _). by exists op', prefix.
Defined.
