(* ===== verification/FileTree.v ===== *)
(** * The file trees of the storage volume

    The directories the store opens with cap-std (data, meta and multipart) and
    the system calls it makes on them.  A tree is a finite map from paths to
    nodes; a directory handle is a root and a path, which is what it stays,
    since the store never renames a directory.  Every call may fail as a
    schedule of faults says.  The temporary directory of an operation is private
    to it and appears only as the values it stages. *)

From stdpp Require Import gmap.
From S2P Require Import Prelude RustStr Order.

(** ** Trees *)

Inductive node := NFile (content : string) (modified : Z) | NDir | NSymlink.
#[global] Instance node_eq_dec : EqDecision node.
Proof. solve_decision. Defined.
Notation path := (list string).
Notation tree := (gmap (list string) node).
Definition is_dir (n : node) : bool := match n with NDir => true | _ => false end.
Definition is_file (n : node) : bool := match n with NFile _ _ => true | _ => false end.
(** The root of a tree is a directory. *)
Definition lookup_node (t : tree) (p : path) : option node :=
  match p with [] => Some NDir | _ => t !! p end.
(** The entries of a directory: the last names of the paths one below it. *)
Definition child (d : path) (p : path) : option string :=
  match last p with
  | Some name => if decide (p = d ++ [name]) then Some name else None
  | None => None
  end.
Definition entries_of (t : tree) (d : path) : list string := omap (λ '(p, _), child d p) (map_to_list t).

(** ** The volume and its environment *)

Inductive io_error := IoNotFound | IoAlreadyExists | IoInvalidPart | IoOther.
#[global] Instance io_error_eq_dec : EqDecision io_error.
Proof. solve_decision. Defined.
Inductive root := RData | RMeta | RMulti.
#[global] Instance root_eq_dec : EqDecision root.
Proof. solve_decision. Defined.
Record Dir := { d_root : root; d_path : path }.
Record World := {
  fw_data : tree;
  fw_meta : tree;
  fw_multi : tree;
  fw_clock : clock;
  fw_faults : list bool;   (* whether the next system calls fail *)
  fw_times : list Z;       (* the modification times of the files written *)
  fw_waits : list nat;     (* the failed attempts before each lock *)
}.
Definition tree_of (w : World) (r : root) : tree :=
  match r with RData => fw_data w | RMeta => fw_meta w | RMulti => fw_multi w end.
Definition set_tree (w : World) (r : root) (t : tree) : World :=
  {| fw_data := match r with RData => t | _ => fw_data w end;
     fw_meta := match r with RMeta => t | _ => fw_meta w end;
     fw_multi := match r with RMulti => t | _ => fw_multi w end;
     fw_clock := fw_clock w; fw_faults := fw_faults w; fw_times := fw_times w; fw_waits := fw_waits w |}.
Definition set_clock (w : World) (c : clock) : World :=
  {| fw_data := fw_data w; fw_meta := fw_meta w; fw_multi := fw_multi w; fw_clock := c;
     fw_faults := fw_faults w; fw_times := fw_times w; fw_waits := fw_waits w |}.
Definition next_fault (w : World) : World :=
  {| fw_data := fw_data w; fw_meta := fw_meta w; fw_multi := fw_multi w; fw_clock := fw_clock w;
     fw_faults := tail (fw_faults w); fw_times := fw_times w; fw_waits := fw_waits w |}.
Definition next_time (w : World) : World :=
  {| fw_data := fw_data w; fw_meta := fw_meta w; fw_multi := fw_multi w; fw_clock := fw_clock w;
     fw_faults := fw_faults w; fw_times := tail (fw_times w); fw_waits := fw_waits w |}.
Definition next_wait (w : World) : World :=
  {| fw_data := fw_data w; fw_meta := fw_meta w; fw_multi := fw_multi w; fw_clock := fw_clock w;
     fw_faults := fw_faults w; fw_times := fw_times w; fw_waits := tail (fw_waits w) |}.

Definition on_clock {E A} (m : M clock E A) : M World E A := λ w,
  match m (fw_clock w) with (r, c) => (r, set_clock w c) end.

(** ** System calls *)

Definition sys {A} (m : M World io_error A) : M World io_error A := λ w,
  if default false (head (fw_faults w)) then (Err IoOther, next_fault w) else m (next_fault w).
(** A call with no effect on the trees: reading, writing to the staged files,
    flushing. *)
Definition plain : M World io_error unit := sys (ret tt).
Definition node_at (d : Dir) (name : string) : M World io_error node := sys (λ w,
  (ok_or (tree_of w (d_root d) !! (d_path d ++ [name])) IoNotFound, w)).
Definition below (d : Dir) (name : string) : Dir := {| d_root := d_root d; d_path := d_path d ++ [name] |}.
(** [open_dir_nofollow] *)
Definition open_dir (d : Dir) (name : string) : M World io_error Dir :=
  let? n := node_at d name in
  if is_dir n then ret (below d name) else fail IoOther.
(** [open_with(name, read, nofollow)]: opening a directory succeeds. *)
Definition open_file (d : Dir) (name : string) : M World io_error node :=
  let? n := node_at d name in
  match n with NSymlink => fail IoOther | n => ret n end.
(** [symlink_metadata] *)
Definition stat (d : Dir) (name : string) : M World io_error node := node_at d name.
Definition set_node (d : Dir) (name : string) (n : node) : M World io_error unit := λ w,
  (Ok tt, set_tree w (d_root d) (<[d_path d ++ [name] := n]> (tree_of w (d_root d)))).
Definition drop_node (d : Dir) (name : string) : M World io_error unit := λ w,
  (Ok tt, set_tree w (d_root d) (delete (d_path d ++ [name]) (tree_of w (d_root d)))).
Definition lookup_in (d : Dir) (name : string) : M World io_error (option node) := λ w,
  (Ok (tree_of w (d_root d) !! (d_path d ++ [name])), w).
Definition create_dir (d : Dir) (name : string) : M World io_error unit := sys (
  let? n := lookup_in d name in
  match n with Some _ => fail IoAlreadyExists | None => set_node d name NDir end).
(** A staged file moved into place. *)
Definition rename_into (d : Dir) (name : string) (content : string) (modified : Z) : M World io_error unit := sys (
  let? n := lookup_in d name in
  match n with Some NDir => fail IoOther | _ => set_node d name (NFile content modified) end).
Definition remove_file (d : Dir) (name : string) : M World io_error unit := sys (
  let? n := lookup_in d name in
  match n with
  | None => fail IoNotFound
  | Some NDir => fail IoOther
  | Some _ => drop_node d name
  end).
(** [remove_open_dir_all]: a failure may leave any of the contents behind, in
    the directories they are in. *)
Class Leftovers := { left_behind : World → path → bool }.
Definition survives (t : tree) (left_ : path → bool) (p : path) : bool :=
  existsb (λ '(q, _), bool_decide (p `prefix_of` q) && left_ q) (map_to_list t).
Definition remove_dir_all `{Leftovers} (d : Dir) : M World io_error unit := λ w,
  let t := tree_of w (d_root d) in
  let left_ p := bool_decide (¬ d_path d `prefix_of` p)
                 || default false (head (fw_faults w)) && survives t (left_behind w) p in
  (if default false (head (fw_faults w)) then Err IoOther else Ok tt,
   next_fault (set_tree w (d_root d) (filter (λ '(p, _), left_ p = true) t))).
(** The modification time of a file just written. *)
Definition written_time : M World io_error Z := sys (λ w,
  (Ok (default 0%Z (head (fw_times w))), next_time w)).

(** The order in which a directory lists its entries is the platform's. *)
Class DirOrder := {
  dir_order : list string → list string;
  dir_order_perm l : dir_order l ≡ₚ l;
}.
Definition read_dir `{DirOrder} (d : Dir) : M World io_error (list string) := sys (λ w,
  (Ok (dir_order (entries_of (tree_of w (d_root d)) (d_path d))), w)).

(** A [Read]: each read gives a chunk, the end, or an error. *)
Inductive reader := Read (step : World → result io_error (option (string * reader)) * World).
Definition read (rd : reader) : M World io_error (option (string * reader)) :=
  match rd with Read step => step end.
Fixpoint list_reader (body : list (result io_error string)) : reader :=
  match body with
  | [] => Read (ret None)
  | Ok chunk :: body => Read (if is_empty chunk then ret None else ret (Some (chunk, list_reader body)))
  | Err e :: _ => Read (fail e)
  end.
(** The chunks a file is read in, into a buffer of [n] bytes. *)
Fixpoint chunk_list (fuel n : nat) (l : list ascii) : list (list ascii) :=
  match fuel, l with
  | S fuel, _ :: _ => take n l :: chunk_list fuel n (drop n l)
  | _, _ => []
  end.
Definition BUFFER : nat := Z.to_nat 16384.
Definition file_chunks (content : string) : list string :=
  of_bytes <$> chunk_list (String.length content) BUFFER (bytes content).
Fixpoint chunks_reader (chunks : list string) : reader :=
  match chunks with
  | [] => Read (do? plain in ret None)
  | chunk :: chunks => Read (do? plain in ret (Some (chunk, chunks_reader chunks)))
  end.
Definition file_reader (content : string) : reader := chunks_reader (file_chunks content).

(** A reader comes to its end: induction on the reads it still gives. *)
Lemma reader_turns (P : reader → Prop) :
  (∀ rd, (∀ w chunk rd' w', read rd w = (Ok (Some (chunk, rd')), w') → P rd') → P rd) → ∀ rd, P rd.
Proof.
  intros Hs. fix IH 1. intros [step]. apply Hs. simpl. intros w chunk rd' w'.
  destruct (step w) as [[[[c rd1]|]|] w1]; [|intros [=]..].
  pose proof (IH rd1) as Hrd. clear IH. by intros [= _ <- _].
Qed.

(** ** Effects on the volume *)

(** The volumes have the same trees. *)
Definition same_trees (w w' : World) : Prop := ∀ r, tree_of w' r = tree_of w r.
#[global] Instance same_trees_preorder : PreOrder same_trees.
Proof. split; [done|]. intros w1 w2 w3 H1 H2 r. by rewrite H2, H1. Qed.
#[global] Instance same_trees_symmetric : Symmetric same_trees.
Proof. intros w w' Hs r. by rewrite (Hs r). Qed.
Lemma same_meta w w' : same_trees w w' → fw_meta w' = fw_meta w.
Proof. intros Hs. exact (Hs RMeta). Qed.
Lemma same_data w w' : same_trees w w' → fw_data w' = fw_data w.
Proof. intros Hs. exact (Hs RData). Qed.
Lemma same_multi w w' : same_trees w w' → fw_multi w' = fw_multi w.
Proof. intros Hs. exact (Hs RMulti). Qed.
(** The trees may gain directories below directories, and nothing else; the
    uploads are untouched. *)
Definition dirs_added (t t' : tree) : Prop :=
  t ⊆ t' ∧ (∀ p n, t' !! p = Some n → t !! p = None → n = NDir ∧ p ≠ []) ∧
  ∀ p name, t' !! (p ++ [name]) = Some NDir → t !! (p ++ [name]) = None → lookup_node t' p = Some NDir.
Record grows (w w' : World) : Prop := {
  gr_multi : fw_multi w' = fw_multi w;
  gr_data : dirs_added (fw_data w) (fw_data w');
  gr_meta : dirs_added (fw_meta w) (fw_meta w');
}.
Lemma dirs_added_refl t : dirs_added t t.
Proof. split; [done|]. split; [congruence|]. congruence. Qed.
Lemma lookup_node_subseteq t t' p n : t ⊆ t' → lookup_node t p = Some n → lookup_node t' p = Some n.
Proof. intros Hs. destruct p; simpl; [done|]. intros Hn. by eapply lookup_weaken. Qed.
Lemma dirs_added_trans t1 t2 t3 : dirs_added t1 t2 → dirs_added t2 t3 → dirs_added t1 t3.
Proof.
  intros (A1 & A2 & A3) (B1 & B2 & B3). split; [by etrans|]. split.
  - intros p n H3 H1. destruct (t2 !! p) as [n'|] eqn:E2; [|by eapply B2].
    rewrite (lookup_weaken _ _ _ _ E2 B1) in H3. injection H3 as <-. by eapply A2.
  - intros p name H3 H1. destruct (t2 !! (p ++ [name])) as [n'|] eqn:E2; [|by eapply B3].
    rewrite (lookup_weaken _ _ _ _ E2 B1) in H3. injection H3 as ->.
    eapply lookup_node_subseteq; [done|by eapply A3].
Qed.
#[global] Instance grows_preorder : PreOrder grows.
Proof.
  split; [intros w; split; [done|apply dirs_added_refl..]|].
  intros w1 w2 w3 [A1 A2 A3] [B1 B2 B3]. split; [congruence|by eapply dirs_added_trans..].
Qed.
Lemma same_trees_grows w w' : same_trees w w' → grows w w'.
Proof.
  intros Hs. pose proof (Hs RData) as HD. pose proof (Hs RMeta) as HM. pose proof (Hs RMulti) as HU. simpl in *.
  split; [done|rewrite HD; apply dirs_added_refl|rewrite HM; apply dirs_added_refl].
Qed.
Lemma keeps_grows {E A} (m : M World E A) : keeps same_trees m → keeps grows m.
Proof. apply keeps_mono, same_trees_grows. Qed.

(** A relation of volumes that ignores the schedules and follows the clock:
    what the calls that leave the trees alone keep. *)
Class QuietRel (R : World → World → Prop) : Prop := {
  quiet_preorder :: PreOrder R;
  quiet_fault w : R w (next_fault w);
  quiet_time w : R w (next_time w);
  quiet_wait w : R w (next_wait w);
  quiet_clock w c : clock_run (fw_clock w) c → R w (set_clock w c);
}.
#[global] Instance same_trees_quiet : QuietRel same_trees | 0.
Proof. split; [apply _|by intros w []..|by intros w c _ []]. Qed.
(** The clock has only advanced. *)
Definition ticks (w w' : World) : Prop := clock_run (fw_clock w) (fw_clock w').
#[global] Instance ticks_quiet : QuietRel ticks | 10.
Proof.
  split; [|by intros w; unfold ticks; auto with broker..|by intros w c].
  split; [intros w; unfold ticks; auto with broker|intros w1 w2 w3; unfold ticks; eauto with broker].
Qed.
#[export] Hint Extern 1 (QuietRel _) => apply _ : broker.
Definition advances {E A} (m : M clock E A) : Prop := ∀ c x c', m c = (x, c') → clock_run c c'.
Lemma keeps_sys {A} R `{!PreOrder R} (m : M World io_error A) :
  (∀ w, R w (next_fault w)) → keeps R m → keeps R (sys m).
Proof.
  intros Hn Hm w x w'. unfold sys. destruct (default false _).
  - intros [= _ <-]. apply Hn.
  - intros Hr. etrans; [apply Hn|by eapply Hm].
Qed.
Lemma same_next_fault w : same_trees w (next_fault w).
Proof. by intros []. Qed.
#[export] Hint Resolve same_next_fault : broker.
Section quiet.
Context {R : World → World → Prop} `{!QuietRel R}.
Lemma keeps_on_clock {E A} (m : M clock E A) : advances m → keeps R (on_clock m).
Proof.
  intros Hm w x w'. unfold on_clock. destruct (m (fw_clock w)) eqn:E1. intros [= _ <-].
  by eapply quiet_clock, Hm.
Qed.
Lemma keeps_quiet_sys {A} (m : M World io_error A) : keeps R m → keeps R (sys m).
Proof. apply keeps_sys; [apply _|apply quiet_fault]. Qed.
Lemma keeps_here {E A} (f : World → result E A) : keeps R (λ w, (f w, w)).
Proof. by intros w x w' [= _ <-]. Qed.
Lemma keeps_plain : keeps R plain.
Proof. apply keeps_quiet_sys, keeps_ret, _. Qed.
Lemma keeps_node_at d name : keeps R (node_at d name).
Proof. apply keeps_quiet_sys, keeps_here. Qed.
#[local] Hint Resolve keeps_node_at : broker.
Lemma keeps_open_dir d name : keeps R (open_dir d name).
Proof. unfold open_dir. auto with broker. Qed.
Lemma keeps_open_file d name : keeps R (open_file d name).
Proof. unfold open_file. auto with broker. Qed.
Lemma keeps_stat d name : keeps R (stat d name).
Proof. apply keeps_node_at. Qed.
Lemma keeps_written_time : keeps R written_time.
Proof. apply keeps_quiet_sys. intros w x w' [= _ <-]. apply quiet_time. Qed.
Lemma keeps_read_dir `{DirOrder} d : keeps R (read_dir d).
Proof. apply keeps_quiet_sys, keeps_here. Qed.
End quiet.
#[export] Hint Resolve keeps_on_clock keeps_plain keeps_node_at keeps_open_dir keeps_open_file keeps_stat
  keeps_written_time keeps_read_dir : broker.
Notation quiet := (keeps same_trees).
(** The volumes around a step: the same trees, a later clock. *)
Ltac keep_step R H Hs :=
  cbv beta in H;
  lazymatch type of H with
  | ?m _ = _ =>
      let Hq := fresh in
      assert (keeps R m) as Hq by auto 40 with broker; pose proof (Hq _ _ _ H) as Hs; clear Hq
  end.
Ltac quiet_step H Hs := keep_step same_trees H Hs.
Ltac tick_step H Ht := keep_step ticks H Ht.

(** ** What the calls do when they succeed *)

Lemma sys_ok {A} (m : M World io_error A) w a w' : sys m w = (Ok a, w') → m (next_fault w) = (Ok a, w').
Proof. unfold sys. by destruct (default false _). Qed.
Lemma tree_next_fault w r : tree_of (next_fault w) r = tree_of w r.
Proof. by destruct r. Qed.
Lemma node_at_ok d name w n w' :
  node_at d name w = (Ok n, w') → tree_of w (d_root d) !! (d_path d ++ [name]) = Some n.
Proof.
  intros Hr%sys_ok. injection Hr as Hr _. apply ok_or_ok in Hr. by rewrite tree_next_fault in Hr.
Qed.
Lemma node_at_run d name w x w' :
  node_at d name w = (x, w') →
  (∀ n, x = Ok n → tree_of w (d_root d) !! (d_path d ++ [name]) = Some n) ∧
  (x = Err IoNotFound → tree_of w (d_root d) !! (d_path d ++ [name]) = None).
Proof.
  unfold node_at, sys. destruct (default false _); [by intros [= <- _]|].
  rewrite tree_next_fault. destruct (_ !! _) as [n|]; intros [= <- _]; split; (done || by intros ? [= <-]).
Qed.
Lemma open_dir_ok d name w d' w' :
  open_dir d name w = (Ok d', w') →
  d' = below d name ∧ tree_of w (d_root d) !! (d_path d ++ [name]) = Some NDir.
Proof.
  unfold open_dir. intros Hr. invert_run Hr. select (node_at _ _ _ = _) (fun Hn => apply node_at_ok in Hn).
  by destruct a.
Qed.
Lemma tree_set_tree w r t r' : tree_of (set_tree w r t) r' = if decide (r' = r) then t else tree_of w r'.
Proof. by destruct r, r'. Qed.

(** ** Well-formed trees *)

Definition tree_wf (t : tree) : Prop :=
  t !! [] = None ∧ ∀ p name n, t !! (p ++ [name]) = Some n → lookup_node t p = Some NDir.
(** The same, to evaluate. *)
Definition tree_wfb (t : tree) : bool :=
  bool_decide (t !! [] = None) && forallb (λ '(p, _), bool_decide (lookup_node t (removelast p) = Some NDir)) (map_to_list t).
Lemma tree_wfb_wf t : tree_wfb t = true → tree_wf t.
Proof.
  unfold tree_wfb. rewrite andb_true_iff, forallb_elem. intros [Hroot Hall]. bool_to_prop. split; [done|].
  intros p name n Hn%elem_of_map_to_list. apply Hall in Hn. bool_to_prop. by rewrite removelast_last in Hn.
Qed.
Lemma tree_wf_empty : tree_wf ∅.
Proof. split; [done|]. intros p name n. by rewrite lookup_empty. Qed.
Lemma dirs_added_wf t t' : dirs_added t t' → tree_wf t → tree_wf t'.
Proof.
  intros (A1 & A2 & A3) [Hroot Hwf]. split.
  { apply eq_None_not_Some. intros [n Hn]. by destruct (A2 _ _ Hn Hroot). }
  intros p name n Hn.
  destruct (t !! (p ++ [name])) as [n'|] eqn:E.
  - eapply lookup_node_subseteq; [done|by eapply Hwf].
  - destruct (A2 _ _ Hn E) as [-> _]. by eapply A3.
Qed.
Lemma tree_wf_insert_file t p name content modified :
  tree_wf t → lookup_node t p = Some NDir → t !! (p ++ [name]) ≠ Some NDir →
  tree_wf (<[p ++ [name] := NFile content modified]> t).
Proof.
  intros [Hroot Hwf] Hp Hn. split.
  { rewrite lookup_insert_ne; [done|]. by destruct p. }
  assert (∀ q, lookup_node t q = Some NDir →
    lookup_node (<[p ++ [name] := NFile content modified]> t) q = Some NDir) as Hkeep.
  { intros q Hq. destruct q as [|x q]; [done|]. unfold lookup_node in *. rewrite lookup_insert_ne; [done|].
    intros Heq. rewrite Heq in Hn. done. }
  intros q nm n [[Heq _]|[_ Hq]]%lookup_insert_Some; apply Hkeep; [|by eapply Hwf].
  apply app_inj_2 in Heq as [<- _]; done.
Qed.
Lemma tree_wf_delete_leaf t p :
  tree_wf t → t !! p ≠ Some NDir → tree_wf (delete p t).
Proof.
  intros [Hroot Hwf] Hn. split; [by apply lookup_delete_None; right|].
  intros q nm n [Hne Hq]%lookup_delete_Some. pose proof (Hwf _ _ _ Hq) as Hd.
  destruct q as [|x q]; [done|]. unfold lookup_node in *. rewrite lookup_delete_ne; [done|]. intros ->. done.
Qed.
(** Every proper prefix of a path in the tree is a directory. *)
Lemma tree_wf_prefix t p q n : tree_wf t → q ≠ [] → t !! (p ++ q) = Some n → lookup_node t p = Some NDir.
Proof.
  intros [_ Hwf]. revert n. induction q as [|x q IH] using rev_ind; intros n Hq Hn; [done|].
  rewrite (assoc_L (++)) in Hn. apply Hwf in Hn. destruct (decide (q = [])) as [->|Hne].
  - by rewrite app_nil_r in Hn.
  - destruct (p ++ q) as [|y l] eqn:E; [by destruct p|]. by eapply IH.
Qed.

(** ** Directories held open *)

Definition held (w : World) (d : Dir) : Prop := lookup_node (tree_of w (d_root d)) (d_path d) = Some NDir.
(** The tree [r] may gain directories; nothing else changes. *)
Definition grown (r : root) (w w' : World) : Prop :=
  ∀ r', if decide (r' = r) then dirs_added (tree_of w r') (tree_of w' r') else tree_of w' r' = tree_of w r'.
#[global] Instance grown_preorder r : PreOrder (grown r).
Proof.
  split; [intros w r'; case_decide; [apply dirs_added_refl|done]|].
  intros w1 w2 w3 H1 H2 r'. specialize (H1 r'). specialize (H2 r').
  case_decide; [by eapply dirs_added_trans|congruence].
Qed.
Lemma same_trees_grown r w w' : same_trees w w' → grown r w w'.
Proof. intros Hs r'. rewrite (Hs r'). case_decide; [apply dirs_added_refl|done]. Qed.
Lemma grown_grows r w w' : r ≠ RMulti → grown r w w' → grows w w'.
Proof.
  intros Hr Hg. pose proof (Hg RData) as HD. pose proof (Hg RMeta) as HM. pose proof (Hg RMulti) as HU.
  destruct r; [| |done]; simpl in *; split; rewrite ?HD, ?HM, ?HU; (done || apply dirs_added_refl).
Qed.
Lemma held_same w w' d : same_trees w w' → held w d → held w' d.
Proof. unfold held. intros Hs. by rewrite (Hs (d_root d)). Qed.
Lemma held_grown r w w' d : grown r w w' → held w d → held w' d.
Proof.
  intros Hg. specialize (Hg (d_root d)). unfold held. case_decide; [|by rewrite Hg].
  destruct Hg as [Hsub _]. by apply lookup_node_subseteq.
Qed.
Lemma held_root w r : held w {| d_root := r; d_path := [] |}.
Proof. done. Qed.
Lemma held_below w d name : tree_of w (d_root d) !! (d_path d ++ [name]) = Some NDir → held w (below d name).
Proof. unfold held. simpl. by destruct (d_path d ++ [name]) eqn:?. Qed.
Lemma dirs_added_insert t p name :
  lookup_node t p = Some NDir → t !! (p ++ [name]) = None → dirs_added t (<[p ++ [name] := NDir]> t).
Proof.
  intros Hp Hn. split; [by apply insert_subseteq|]. split.
  - intros q n [[<- <-]|[_ Hq]]%lookup_insert_Some Hnone; [by destruct p|congruence].
  - intros q nm [[Heq _]|[_ Hq]]%lookup_insert_Some Hnone; [|congruence].
    apply app_inj_2 in Heq as [<- _]; [|done]. eapply lookup_node_subseteq; [|done]. by apply insert_subseteq.
Qed.
Lemma create_dir_run d name w x w' :
  held w d → create_dir d name w = (x, w') → grown (d_root d) w w'.
Proof.
  unfold create_dir, sys. intros Hd. destruct (default false _).
  { intros [= _ <-]. apply same_trees_grown, same_next_fault. }
  unfold bind, lookup_in, set_node. rewrite !tree_next_fault.
  destruct (_ !! _) as [n|] eqn:En; intros [= _ <-]; [apply same_trees_grown, same_next_fault|].
  intros r'. rewrite tree_set_tree. case_decide as Er; [subst r'; by apply dirs_added_insert|by rewrite tree_next_fault].
Qed.

(** The entries of a directory. *)
Lemma elem_of_entries t d name : name ∈ entries_of t d ↔ is_Some (t !! (d ++ [name])).
Proof.
  unfold entries_of. rewrite list_elem_of_omap. split.
  - intros ([p n] & Hin%elem_of_map_to_list & Hc). unfold child in Hc.
    destruct (last p) as [x|]; [|done]. case_decide as Hp; [|done]. injection Hc as ->. rewrite <- Hp. eauto.
  - intros [n Hn]. exists (d ++ [name], n). split; [by apply elem_of_map_to_list|]. unfold child.
    by rewrite last_snoc, decide_True.
Qed.
Lemma read_dir_ok `{DirOrder} d w names w' :
  read_dir d w = (Ok names, w') → ∀ name, name ∈ names ↔ is_Some (tree_of w (d_root d) !! (d_path d ++ [name])).
Proof.
  intros Hr%sys_ok name. injection Hr as <- _. by rewrite dir_order_perm, elem_of_entries, tree_next_fault.
Qed.

(** ** Files read whole *)

Lemma chunk_list_concat fuel n l : length l ≤ fuel → 0 < n → concat (chunk_list fuel n l) = l.
Proof.
  revert l. induction fuel as [|fuel IH]; intros l Hl Hn; [by destruct l; [|simpl in Hl; lia]|].
  destruct l as [|x l]; [done|]. cbn [chunk_list concat]. rewrite IH; [by rewrite take_drop| |done].
  rewrite length_drop. simpl in *. lia.
Qed.
Lemma of_bytes_concat ls : of_bytes (concat ls) = foldr String.append "" (of_bytes <$> ls).
Proof. induction ls as [|l ls IH]; [done|]. simpl. by rewrite of_bytes_app, IH. Qed.
Lemma file_chunks_concat content : foldr String.append "" (file_chunks content) = content.
Proof.
  unfold file_chunks. rewrite <- of_bytes_concat, chunk_list_concat; [by rewrite of_bytes_bytes| |].
  - by rewrite length_bytes.
  - unfold BUFFER. lia.
Qed.

(** ** Renaming and removing *)

(** The tree [r] has become [t]; nothing else changed. *)
Definition became (r : root) (t : tree) (w w' : World) : Prop :=
  ∀ r', tree_of w' r' = if decide (r' = r) then t else tree_of w r'.
Lemma became_trees r t w w' : became r t w w' →
  fw_data w' = match r with RData => t | _ => fw_data w end ∧
  fw_meta w' = match r with RMeta => t | _ => fw_meta w end ∧
  fw_multi w' = match r with RMulti => t | _ => fw_multi w end.
Proof.
  intros Hb. pose proof (Hb RData) as HD. pose proof (Hb RMeta) as HM. pose proof (Hb RMulti) as HU.
  by destruct r.
Qed.
Lemma rename_into_run d name content modified w x w' :
  rename_into d name content modified w = (x, w') →
  (x = Ok tt ∧ tree_of w (d_root d) !! (d_path d ++ [name]) ≠ Some NDir ∧
   became (d_root d) (<[d_path d ++ [name] := NFile content modified]> (tree_of w (d_root d))) w w') ∨
  (∃ e, x = Err e ∧ same_trees w w').
Proof.
  unfold rename_into, sys. destruct (default false _); [intros [= <- <-]; right; eauto using same_next_fault|].
  unfold bind, lookup_in, set_node. rewrite tree_next_fault.
  destruct (_ !! _) as [[]|]; intros [= <- <-];
    try (right; eauto using same_next_fault; done); left; (split; [done|]); (split; [done|]);
    intros r'; rewrite tree_set_tree, ?tree_next_fault; done.
Qed.
Lemma remove_file_run d name w x w' :
  remove_file d name w = (x, w') →
  (x = Ok tt ∧ (∃ n, tree_of w (d_root d) !! (d_path d ++ [name]) = Some n ∧ n ≠ NDir) ∧
   became (d_root d) (delete (d_path d ++ [name]) (tree_of w (d_root d))) w w') ∨
  (∃ e, x = Err e ∧ same_trees w w' ∧ (e = IoNotFound → tree_of w (d_root d) !! (d_path d ++ [name]) = None)).
Proof.
  unfold remove_file, sys. destruct (default false _).
  { intros [= <- <-]. right. eexists. split; [done|]. split; [apply same_next_fault|done]. }
  unfold bind, lookup_in, drop_node. rewrite tree_next_fault.
  destruct (_ !! _) as [n|] eqn:En.
  2: { intros [= <- <-]. right. eexists. split; [done|]. split; [apply same_next_fault|done]. }
  destruct n; intros [= <- <-].
  2: { right. eexists. split; [done|]. split; [apply same_next_fault|done]. }
  all: left; split; [done|]; split; [eauto|]; intros r'; rewrite tree_set_tree, ?tree_next_fault; done.
Qed.

(** A file has been put in a tree, below directories created for it. *)
Definition stored (p : path) (content : string) (modified : Z) (t t' : tree) : Prop :=
  ∃ t1 dir name, dirs_added t t1 ∧ p = dir ++ [name] ∧ lookup_node t1 dir = Some NDir ∧
    t1 !! p ≠ Some NDir ∧ t' = <[p := NFile content modified]> t1.
Definition file_content (n : node) : option string := match n with NFile content _ => Some content | _ => None end.
(** The objects of a data tree. *)
Definition objects (t : tree) : gmap path string := omap file_content t.
Lemma dirs_added_objects t t' : dirs_added t t' → objects t' = objects t.
Proof.
  intros (Hsub & Hdir & _). apply map_eq. intros p. unfold objects. rewrite !lookup_omap.
  destruct (t !! p) as [n|] eqn:E.
  - by rewrite (lookup_weaken _ _ _ _ E Hsub).
  - destruct (t' !! p) as [n|] eqn:E'; [|done]. by destruct (Hdir _ _ E' E) as [-> _].
Qed.
Lemma stored_objects p content modified t t' :
  stored p content modified t t' → objects t' = <[p := content]> (objects t).
Proof.
  intros (t1 & dir & name & Hd & -> & _ & _ & ->). rewrite <- (dirs_added_objects _ _ Hd).
  unfold objects. by erewrite omap_insert_Some.
Qed.
Lemma stored_wf p content modified t t' : stored p content modified t t' → tree_wf t → tree_wf t'.
Proof.
  intros (t1 & dir & name & Hd & -> & Hdir & Hn & ->) Hwf. apply tree_wf_insert_file; [|done..].
  by eapply dirs_added_wf.
Qed.
Lemma stored_lookup p content modified t t' : stored p content modified t t' → t' !! p = Some (NFile content modified).
Proof. intros (t1 & dir & name & _ & _ & _ & _ & ->). by rewrite lookup_insert_eq. Qed.
