(* ===== verification/FilesystemStore.v ===== *)
(** * The filesystem object store

    crates/broker-storage/src/filesystem_store.rs: objects as files of a data
    tree with authored metadata beside them, written by staging a payload and
    renaming it into place under the lock of the key.  SHA-256, JSON values,
    header syntax and MIME guessing are third-party. *)

From stdpp Require Import gmap.
From S2P Require Import Prelude RustStr Order Control LocalBearer BrokerAccess.
From S2P Require Import Session Identity InstanceRegistry ResourceGrants.
From S2P Require Import ResourcePolicy StorageAdmission StoragePolicy FilesystemSession FileTree.

(** ** Data *)

Record FilesystemStoreConfig := {
  sc_bucket : string;
  sc_max_object_bytes : Z;
  sc_metadata_bytes : Z;
}.
(** A request: its deadline, and whether it is cancelled at each clock sample. *)
Record FilesystemRequest := { rq_deadline : Z; rq_cancelled : nat → bool }.
Record FilesystemConditions := { if_match : option string; if_none_match : option string }.
Record FilesystemObjectInfo := {
  oi_size : Z;
  oi_etag : string;
  oi_content_type : string;
  oi_modified : Z;
}.
Inductive FilesystemStoreError :=
| FS_InvalidConfiguration | FS_VolumeBusy | FS_InvalidKey | FS_Forbidden | FS_NotFound | FS_InvalidRange
| FS_InvalidArgument | FS_NoSuchUpload | FS_InvalidPart | FS_InvalidPartOrder | FS_Crypto | FS_InvalidMetadata
| FS_Precondition | FS_BadDigest | FS_TooLarge | FS_Cancelled | FS_Session (e : FilesystemSessionError)
| FS_Io (e : io_error) | FS_CommitUncertain (e : FilesystemStoreError).
Definition is_uncertain (e : FilesystemStoreError) : bool :=
  match e with FS_CommitUncertain _ => true | _ => false end.
(** An operation on the volume; an I/O error converts with [From]. *)
Notation FsM := (M World FilesystemStoreError).
Definition io {A} (m : M World io_error A) : FsM A := map_err FS_Io m.
(** [e.kind() == NotFound] mapped to an error of its own. *)
Definition io_or {A} (missing : FilesystemStoreError) (m : M World io_error A) : FsM A :=
  map_err (λ e, match e with IoNotFound => missing | e => FS_Io e end) m.

(** The [sha2], [serde_json], [http] and [mime_guess] crates. *)
Class StoreLib := {
  sha256 : string → string;
  jv : Type;
  jv_eqb : jv → jv → bool;
  jv_null : jv;
  jv_string : string → jv;
  jv_is_null : jv → bool;
  jv_as_str : jv → option string;
  jv_as_u64 : jv → option Z;
  jv_get : string → jv → option jv;
  jv_derived : string → Z → jv → jv;   (* json!({etag, size, modified}) *)
  jv_time : Z → option jv;             (* to_value of a SystemTime *)
  metadata_to_vec : jv → jv → option string;
  metadata_from_slice : string → option (jv * jv);
  header_value : string → bool;
  mime_guess : string → string;
}.

(** What is relied on of them: SHA-256 has 32 bytes, a document reads back as
    it was written, and its members are where they were put. *)
Class StoreLaws `{StoreLib} : Prop := {
  law_sha256 s : String.length (sha256 s) = 32;
  law_metadata content_type derived s :
    metadata_to_vec content_type derived = Some s → metadata_from_slice s = Some (content_type, derived);
  law_is_null : jv_is_null jv_null = true;
  law_null_str : jv_as_str jv_null = None;
  law_string_str s : jv_as_str (jv_string s) = Some s;
  law_get_null k : jv_get k jv_null = None;
  law_get_etag e n t : jv_get "etag" (jv_derived e n t) = Some (jv_string e);
  law_get_size e n t : (0 ≤ n ≤ U64_MAX)%Z → jv_get "size" (jv_derived e n t) ≫= jv_as_u64 = Some n;
  law_get_modified e n t : jv_get "modified" (jv_derived e n t) = Some t;
  law_eqb t : jv_eqb t t = true;
}.

(** ** Entity tags and conditions *)

Definition etag (hash : string) : string :=
  of_bytes ("034"%char :: (bytes hash ≫= hex_byte) ++ ["034"%char]).
Definition valid_etag (s : string) : bool :=
  (len s =? 66)%Z && first_byte (Ascii.eqb "034"%char) s && last_byte (Ascii.eqb "034"%char) s
  && forallb is_ascii_hexdigit (take 64 (drop 1 (bytes s))).
Definition condition (value : string) (current : option string) : bool :=
  existsb (λ v, if str_eqb v "*" then is_some_and current (λ _, true)
                else valid_etag v && is_some_and current (λ c, str_eqb c v))
    (trim <$> split value ",").
Definition conditions_check (c : FilesystemConditions) (current : option string)
    : result FilesystemStoreError unit :=
  if is_some_and (if_match c) (λ v, negb (condition v current))
     || is_some_and (if_none_match c) (λ v, condition v current)
  then Err FS_Precondition else Ok tt.

Section store.
Context `{UlidLib, JwtLib, SessionLib, StoreLib}.

Definition header (s : string) : bool := negb (is_empty s) && header_value s.

(** ** Guards *)

Definition rq_check (rq : FilesystemRequest) (session : VerifiedFilesystemSession) : FsM unit :=
  do? on_clock (map_err FS_Session (vs_check session (rq_deadline rq))) in
  λ w, (if rq_cancelled rq (tick (fw_clock w)) then Err FS_Cancelled else Ok tt, w).
Definition shard (key : string) : Z := match bytes (sha256 key) with b :: _ => code b | [] => 0%Z end.
(** The attempts that time out before the lock is taken. *)
Fixpoint lock_attempts (rq : FilesystemRequest) (session : VerifiedFilesystemSession) (failed : nat) : FsM unit :=
  do? rq_check rq session in
  match failed with
  | O => rq_check rq session
  | S failed => lock_attempts rq session failed
  end.
Definition lock (rq : FilesystemRequest) (session : VerifiedFilesystemSession) : FsM unit := λ w,
  lock_attempts rq session (default 0 (head (fw_waits w))) (next_wait w).
Definition allows (session : VerifiedFilesystemSession) (op : StorageOperation) (key : string) : FsM bool :=
  on_clock (vs_allows session op key).
Definition authorize (cfg : FilesystemStoreConfig) (session : VerifiedFilesystemSession) (rq : FilesystemRequest)
    (op : StorageOperation) (key : string) : FsM unit :=
  do? rq_check rq session in
  if negb (str_eqb (vs_bucket session) (sc_bucket cfg)) then fail FS_Forbidden else
  if negb (valid_key key) then fail FS_InvalidKey else
  let? ok := allows session op key in
  if negb ok then fail FS_Forbidden else ret tt.

(** ** Directories and files *)

Definition sync_dir (d : Dir) : FsM unit := io plain.
Definition owned_dir (d : Dir) (name : string) : FsM Dir :=
  let? r := outcome (create_dir d name) in
  do? match r with
      | Ok _ => sync_dir d
      | Err IoAlreadyExists => ret tt
      | Err e => fail (FS_Io e)
      end in
  io (open_dir d name).
Fixpoint parent_from (d : Dir) (create : bool) (parts : list string) : FsM (Dir * string) :=
  match parts with
  | [] => fail FS_InvalidKey
  | [part] => ret (d, part)
  | part :: parts =>
      let? d := (if create then owned_dir d part else io_or FS_NotFound (open_dir d part)) in
      parent_from d create parts
  end.
Definition parent (r : root) (key : string) (create : bool) : FsM (Dir * string) :=
  if negb (valid_key key) then fail FS_InvalidKey else
  do? io plain in
  parent_from {| d_root := r; d_path := [] |} create (split key "/").
Definition data_file (key : string) : FsM (string * Z) :=
  let? (dir, name) := parent RData key false in
  let? n := io_or FS_NotFound (open_file dir name) in
  do? io plain in
  match n with NFile content modified => ret (content, modified) | _ => fail FS_InvalidKey end.
Definition metadata_valid (content_type : jv) : bool :=
  jv_is_null content_type || is_some_and (jv_as_str content_type) header.
(** [Read::take(limit)] of a file, then the limit itself. *)
Definition read_limited (cfg : FilesystemStoreConfig) (content : string) : FsM string :=
  do? io plain in
  let data := of_bytes (take (Z.to_nat (sc_metadata_bytes cfg + 1)) (bytes content)) in
  if (sc_metadata_bytes cfg <? len data)%Z then fail FS_InvalidMetadata else ret data.
Definition metadata (cfg : FilesystemStoreConfig) (key : string) : FsM (option (jv * jv)) :=
  let? p := outcome (parent RMeta key false) in
  match p with
  | Err FS_NotFound => ret None
  | Err e => fail e
  | Ok (dir, name) =>
      let? f := outcome (open_file dir name) in
      match f with
      | Err IoNotFound => ret None
      | Err e => fail (FS_Io e)
      | Ok n =>
          do? io plain in
          match n with
          | NFile content _ =>
              let? data := read_limited cfg content in
              let? (content_type, derived) := lift_result (ok_or (metadata_from_slice data) FS_InvalidMetadata) in
              if negb (metadata_valid content_type) then fail FS_InvalidMetadata else
              ret (Some (content_type, derived))
          | _ => fail FS_InvalidMetadata
          end
      end
  end.
(** The entity tag kept beside the object, when it is of this very file. *)
Definition cached_etag (derived : jv) (size modified : Z) : option string :=
  time ← jv_time modified;
  e ← jv_get "etag" derived ≫= jv_as_str;
  if valid_etag e && is_some_and (jv_get "size" derived ≫= jv_as_u64) (λ n, (n =? size)%Z)
     && is_some_and (jv_get "modified" derived) (λ t, jv_eqb t time)
  then Some e else None.
(** Hashing a file, a buffer at a time. *)
Fixpoint hash_chunks (rq : FilesystemRequest) (session : VerifiedFilesystemSession) (acc : string)
    (chunks : list string) : FsM string :=
  do? rq_check rq session in
  do? io plain in
  match chunks with
  | [] => ret acc
  | chunk :: chunks => hash_chunks rq session (acc +:+ chunk) chunks
  end.
Definition content_type_of (key : string) (content_type : option string) : string :=
  default (mime_guess key) content_type.
Definition describe (cfg : FilesystemStoreConfig) (key : string) (file : string * Z)
    (session : VerifiedFilesystemSession) (rq : FilesystemRequest) : FsM FilesystemObjectInfo :=
  let '(content, modified) := file in
  do? rq_check rq session in
  do? io plain in
  let size := len content in
  do? io plain in
  let? meta := metadata cfg key in
  let content_type := content_type_of key (meta ≫= λ m, jv_as_str m.1) in
  let? tag :=
    match meta ≫= λ m, cached_etag m.2 size modified with
    | Some e => ret e
    | None =>
        do? io plain in
        let? data := hash_chunks rq session "" (file_chunks content) in
        ret (etag (sha256 data))
    end in
  do? io plain in
  do? rq_check rq session in
  ret {| oi_size := size; oi_etag := tag; oi_content_type := content_type; oi_modified := modified |}.

(** ** Reading *)

(** An operation without effects: the session is checked once more before its
    result is given out. *)
Definition then_check {A} (rq : FilesystemRequest) (session : VerifiedFilesystemSession) (m : FsM A) : FsM A :=
  let? r := outcome m in
  do? rq_check rq session in
  lift_result r.
Definition head_object (cfg : FilesystemStoreConfig) (session : VerifiedFilesystemSession) (key : string)
    (rq : FilesystemRequest) : FsM FilesystemObjectInfo :=
  do? authorize cfg session rq OpRead key in
  then_check rq session (
    do? lock rq session in
    let? file := data_file key in
    describe cfg key file session rq).
Record FilesystemObjectRead := {
  or_content : string;
  or_info : FilesystemObjectInfo;
  or_offset : Z;
  or_length : Z;
}.
Definition open_range (cfg : FilesystemStoreConfig) (session : VerifiedFilesystemSession) (key : string)
    (range : option (Z * Z)) (rq : FilesystemRequest) : FsM FilesystemObjectRead :=
  do? authorize cfg session rq OpRead key in
  then_check rq session (
    do? lock rq session in
    let? file := data_file key in
    let? info := describe cfg key file session rq in
    let? (offset, length) :=
      match range with
      | None => ret (0%Z, oi_size info)
      | Some (start, stop) =>
          if (start <? oi_size info)%Z && (start <? stop)%Z
          then ret (start, (Z.min stop (oi_size info) - start)%Z)
          else fail FS_InvalidRange
      end in
    do? io plain in
    ret {| or_content := file.1; or_info := info; or_offset := offset; or_length := length |}).

(** ** Writing *)

(** A staged object: its payload and its metadata. *)
Record PreparedObject := {
  po_payload : string;
  po_metadata : string;
  po_info : FilesystemObjectInfo;
}.
Fixpoint stage_body (cfg : FilesystemStoreConfig) (rq : FilesystemRequest) (session : VerifiedFilesystemSession)
    (size : Z) (acc : string) (body : reader) : FsM (Z * string) :=
  do? rq_check rq session in
  λ w, match body with Read step =>
    match step w with
    | (Err e, w) => (Err (FS_Io e), w)
    | (Ok None, w) => (Ok (size, acc), w)
    | (Ok (Some (chunk, body)), w) =>
        if (U64_MAX <? size + len chunk)%Z then (Err FS_TooLarge, w) else
        let size := (size + len chunk)%Z in
        if (sc_max_object_bytes cfg <? size)%Z then (Err FS_TooLarge, w) else
        match io plain w with
        | (Err e, w) => (Err e, w)
        | (Ok _, w) => stage_body cfg rq session size (acc +:+ chunk) body w
        end
    end
  end.
Definition prepare (cfg : FilesystemStoreConfig) (session : VerifiedFilesystemSession) (key : string)
    (body : reader) (content_type expected_digest : option string) (rq : FilesystemRequest)
    : FsM PreparedObject :=
  do? rq_check rq session in
  if is_some_and content_type (λ s, negb (header s)) then fail FS_InvalidMetadata else
  if is_some_and expected_digest (λ s, negb (len s =? 64)%Z || negb (all_bytes is_ascii_hexdigit s))
  then fail FS_BadDigest else
  let authored := match content_type with Some s => jv_string s | None => jv_null end in
  let? author := lift_result (ok_or (metadata_to_vec authored jv_null) FS_InvalidMetadata) in
  if (sc_metadata_bytes cfg <? len author)%Z then fail FS_InvalidMetadata else
  do? io plain in                                   (* the staging directory *)
  do? io plain in                                   (* its payload file *)
  let? (size, data) := stage_body cfg rq session 0 "" body in
  let hash := etag (sha256 data) in
  if is_some_and expected_digest (λ d, negb (eq_ignore_ascii_case d (of_bytes (take 64 (drop 1 (bytes hash))))))
  then fail FS_BadDigest else
  do? io plain in
  let? modified := io written_time in
  let derived := match jv_time modified with Some time => jv_derived hash size time | None => jv_null end in
  let? meta := lift_result (ok_or (metadata_to_vec authored derived) FS_InvalidMetadata) in
  if (sc_metadata_bytes cfg <? len meta)%Z then fail FS_InvalidMetadata else
  do? io plain in
  do? io plain in
  do? io plain in
  do? rq_check rq session in
  ret {| po_payload := data; po_metadata := meta;
         po_info := {| oi_size := size; oi_etag := hash; oi_content_type := content_type_of key content_type;
                       oi_modified := modified |} |}.
(** [e => CommitUncertain(e)] after the first visible effect. *)
Definition uncertainly {A} (m : FsM A) : FsM A := map_err FS_CommitUncertain m.
Definition current_etag (cfg : FilesystemStoreConfig) (session : VerifiedFilesystemSession) (key : string)
    (rq : FilesystemRequest) : FsM (option string) :=
  let? f := outcome (data_file key) in
  match f with
  | Ok file => let? info := describe cfg key file session rq in ret (Some (oi_etag info))
  | Err FS_NotFound => ret None
  | Err e => fail e
  end.
(** Refuses a name taken by something else than a file. *)
Definition check_target (dir : Dir) (name : string) : FsM unit :=
  let? m := outcome (stat dir name) in
  match m with
  | Ok n => if is_file n then ret tt else fail FS_InvalidKey
  | Err IoNotFound => ret tt
  | Err e => fail (FS_Io e)
  end.
Definition publish_locked (cfg : FilesystemStoreConfig) (session : VerifiedFilesystemSession) (key : string)
    (prepared : PreparedObject) (conditions : FilesystemConditions) (rq : FilesystemRequest)
    : FsM FilesystemObjectInfo :=
  do? rq_check rq session in
  do? (if is_some_and (if_match conditions) (λ _, true) || is_some_and (if_none_match conditions) (λ _, true) then
         let? current := current_etag cfg session key rq in
         lift_result (conditions_check conditions current)
       else ret tt) in
  let? (data, name) := parent RData key true in
  let? (meta, metaname) := parent RMeta key true in
  do? check_target data name in
  do? check_target meta metaname in
  do? rq_check rq session in
  let modified := oi_modified (po_info prepared) in
  do? io (rename_into data name (po_payload prepared) modified) in
  do? uncertainly (
    do? io (rename_into meta metaname (po_metadata prepared) modified) in
    do? sync_dir data in
    do? sync_dir meta in
    do? rq_check rq session in
    io plain) in
  ret (po_info prepared).
(** The end of an operation with effects. *)
Definition finish_write {A} (rq : FilesystemRequest) (session : VerifiedFilesystemSession) (m : FsM A) : FsM A :=
  let? r := outcome m in
  match r with
  | Ok a => do? uncertainly (rq_check rq session) in ret a
  | Err e => if is_uncertain e then fail e else do? rq_check rq session in fail e
  end.
Definition put_object (cfg : FilesystemStoreConfig) (session : VerifiedFilesystemSession) (key : string)
    (body : list (result io_error string)) (content_type expected_digest : option string)
    (conditions : FilesystemConditions) (rq : FilesystemRequest) : FsM FilesystemObjectInfo :=
  do? authorize cfg session rq OpWrite key in
  finish_write rq session (
    let? prepared := prepare cfg session key (list_reader body) content_type expected_digest rq in
    do? lock rq session in
    publish_locked cfg session key prepared conditions rq).

(** ** Deleting *)

Definition remove_metadata (key : string) : FsM unit :=
  let? p := outcome (parent RMeta key false) in
  match p with
  | Ok (meta, name) =>
      let? r := outcome (remove_file meta name) in
      match r with
      | Ok _ => sync_dir meta
      | Err IoNotFound => ret tt
      | Err e => fail (FS_Io e)
      end
  | Err FS_NotFound => ret tt
  | Err e => fail e
  end.
(** Under the lock: whether something was removed. *)
Definition delete_locked (cfg : FilesystemStoreConfig) (session : VerifiedFilesystemSession) (key : string)
    (if_match_ : option string) (rq : FilesystemRequest) : FsM bool :=
  do? match if_match_ with
      | Some v =>
          let? current := current_etag cfg session key rq in
          lift_result (conditions_check {| if_match := Some v; if_none_match := None |} current)
      | None => ret tt
      end in
  let? p := outcome (parent RData key false) in
  match p with
  | Err FS_NotFound => ret false
  | Err e => fail e
  | Ok (data, name) =>
      let? m := outcome (stat data name) in
      match m with
      | Err IoNotFound => ret false
      | Err e => fail (FS_Io e)
      | Ok n =>
          if negb (is_file n) then fail FS_InvalidKey else
          do? rq_check rq session in
          do? io (remove_file data name) in
          do? uncertainly (
            do? remove_metadata key in
            do? sync_dir data in
            rq_check rq session) in
          ret true
      end
  end.
Definition delete_inner (cfg : FilesystemStoreConfig) (session : VerifiedFilesystemSession) (key : string)
    (if_match_ : option string) (rq : FilesystemRequest) : FsM unit :=
  do? authorize cfg session rq OpDelete key in
  let? r := outcome (do? lock rq session in delete_locked cfg session key if_match_ rq) in
  match r with
  | Ok true => uncertainly (rq_check rq session)
  | Ok false => rq_check rq session
  | Err e => if is_uncertain e then fail e else do? rq_check rq session in fail e
  end.
Definition delete_object cfg session key rq := delete_inner cfg session key None rq.
Definition delete_if_match cfg session key v rq := delete_inner cfg session key (Some v) rq.

(** ** Operations that leave the trees alone *)

Lemma quiet_io {A} R (m : M World io_error A) : keeps R m → keeps R (io m).
Proof. apply keeps_map_err. Qed.
Lemma quiet_io_or {A} R e (m : M World io_error A) : keeps R m → keeps R (io_or e m).
Proof. apply keeps_map_err. Qed.
Lemma keeps_uncertainly {A} R (m : FsM A) : keeps R m → keeps R (uncertainly m).
Proof. apply keeps_map_err. Qed.
#[local] Hint Resolve quiet_io quiet_io_or keeps_uncertainly : broker.
Lemma advances_map_err {E F A} (f : E → F) (m : M clock E A) : advances m → advances (map_err f m).
Proof. intros Hm c x c'. unfold map_err. destruct (m c) as [[]] eqn:E1; intros [= _ <-]; by eapply Hm. Qed.
Lemma advances_vs_check v original : advances (vs_check v original).
Proof. intros c x c'. apply vs_check_runs. Qed.
Lemma advances_vs_allows {E} v op target : advances (vs_allows (E:=E) v op target).
Proof.
  intros c x c'. unfold vs_allows, bind, outcome. destruct (negb _); [intros [= _ <-]; auto with broker|].
  destruct (vs_check v (vs_deadline v) c) as [r c1] eqn:Ec. apply vs_check_runs in Ec.
  by destruct (negb _); intros [= _ <-].
Qed.
#[local] Hint Resolve advances_map_err advances_vs_check advances_vs_allows : broker.
Section quiet.
Context {R : World → World → Prop} `{!QuietRel R}.
Lemma quiet_io_plain : keeps R (io plain).
Proof. auto with broker. Qed.
Lemma quiet_rq_check rq session : keeps R (rq_check rq session).
Proof.
  apply keeps_bind; [apply _|apply keeps_on_clock; auto with broker|]. intros _. apply (keeps_here (λ w, _)).
Qed.
#[local] Hint Resolve quiet_rq_check : broker.
Lemma quiet_lock_attempts rq session n : keeps R (lock_attempts rq session n).
Proof. induction n; simpl; auto 30 with broker. Qed.
Lemma quiet_lock rq session : keeps R (lock rq session).
Proof.
  intros w x w' Hr. etrans; [apply quiet_wait|by eapply quiet_lock_attempts].
Qed.
Lemma quiet_allows session op key : keeps R (allows session op key).
Proof. unfold allows. auto 30 with broker. Qed.
#[local] Hint Resolve quiet_lock quiet_allows : broker.
Lemma quiet_authorize cfg session rq op key : keeps R (authorize cfg session rq op key).
Proof. unfold authorize. auto 30 with broker. Qed.
Lemma quiet_parent_from d parts : keeps R (parent_from d false parts).
Proof.
  revert d. induction parts as [|part [|next parts] IH]; intros d; [simpl; auto with broker..|].
  apply keeps_bind; [apply _|auto with broker|intros; apply IH].
Qed.
#[local] Hint Resolve quiet_parent_from : broker.
Lemma quiet_parent r key : keeps R (parent r key false).
Proof. unfold parent. auto 30 with broker. Qed.
#[local] Hint Resolve quiet_authorize quiet_parent : broker.
Lemma quiet_data_file key : keeps R (data_file key).
Proof. unfold data_file. auto 30 with broker. Qed.
Lemma quiet_metadata cfg key : keeps R (metadata cfg key).
Proof. unfold metadata, read_limited. auto 30 with broker. Qed.
Lemma quiet_hash_chunks rq session acc chunks : keeps R (hash_chunks rq session acc chunks).
Proof. revert acc. induction chunks as [|c chunks IH]; intros acc; simpl; auto 30 with broker. Qed.
#[local] Hint Resolve quiet_data_file quiet_metadata quiet_hash_chunks : broker.
Lemma quiet_describe cfg key file session rq : keeps R (describe cfg key file session rq).
Proof. unfold describe. destruct file. auto 30 with broker. Qed.
#[local] Hint Resolve quiet_describe : broker.
Lemma quiet_then_check {A} rq session (m : FsM A) : keeps R m → keeps R (then_check rq session m).
Proof. unfold then_check. auto 30 with broker. Qed.
Lemma quiet_current_etag cfg session key rq : keeps R (current_etag cfg session key rq).
Proof. unfold current_etag. auto 30 with broker. Qed.
Lemma quiet_check_target dir name : keeps R (check_target dir name).
Proof. unfold check_target. auto 30 with broker. Qed.
#[local] Hint Resolve quiet_then_check quiet_current_etag quiet_check_target : broker.
End quiet.
#[local] Hint Resolve quiet_io_plain quiet_rq_check quiet_lock quiet_allows quiet_parent_from quiet_authorize quiet_parent quiet_data_file quiet_metadata quiet_hash_chunks quiet_describe quiet_then_check quiet_current_etag quiet_check_target : broker.

(** ** Operations that never leave a commit uncertain *)

Definition certain {A} (m : FsM A) : Prop := only (λ e, is_uncertain e = false) m.
Lemma certain_io {A} (m : M World io_error A) : certain (io m).
Proof. by apply only_map_err. Qed.
Lemma certain_io_or {A} e (m : M World io_error A) : is_uncertain e = false → certain (io_or e m).
Proof. intros He. apply only_map_err. by intros []. Qed.
Lemma certain_outcome {A B} (m : M World B A) : certain (outcome m).
Proof. intros w e w'. unfold outcome. by destruct (m w). Qed.
Lemma certain_bind {A B} (m : FsM A) (k : A → FsM B) : certain m → (∀ a, certain (k a)) → certain (bind m k).
Proof. apply only_bind. Qed.
Lemma certain_ret {A} (a : A) : certain (ret a).
Proof. apply only_ret. Qed.
Lemma certain_fail {A} e : is_uncertain e = false → certain (fail (A:=A) e).
Proof. apply (only_fail (λ e, is_uncertain e = false)). Qed.
Lemma certain_ok_or {A} (o : option A) e : is_uncertain e = false → certain (lift_result (ok_or o e)).
Proof. apply (only_ok_or (λ e, is_uncertain e = false)). Qed.
#[local] Hint Resolve certain_io certain_io_or certain_outcome certain_ret certain_fail certain_ok_or : broker.
#[local] Hint Extern 2 (certain (match ?x with _ => _ end)) => destruct x eqn:? : broker.
#[local] Hint Extern 2 (certain (bind _ _)) => apply certain_bind; [|intros] : broker.
Lemma certain_rq_check rq session : certain (rq_check rq session).
Proof.
  apply certain_bind; [|intros _ w e w'; by destruct (rq_cancelled _ _); intros [= <- _]].
  intros w e w'. unfold on_clock, map_err. by destruct (vs_check _ _ _) as [[?|?] ?]; intros [= <- _].
Qed.
#[local] Hint Resolve certain_rq_check : broker.
Lemma certain_lock_attempts rq session n : certain (lock_attempts rq session n).
Proof. induction n; simpl; auto with broker. Qed.
Lemma certain_lock rq session : certain (lock rq session).
Proof. intros w e w'. apply certain_lock_attempts. Qed.
Lemma certain_authorize cfg session rq op key : certain (authorize cfg session rq op key).
Proof.
  unfold authorize. repeat (apply certain_bind; [auto with broker|intros]).
  destruct (negb _); [auto with broker|]. destruct (negb _); [auto with broker|].
  apply certain_bind; [|intros; auto with broker]. intros w e w'. unfold allows, on_clock, vs_allows, bind, outcome.
  destruct (negb _); [done|]. by destruct (vs_check session (vs_deadline session) (fw_clock w)) as [[?|?] ?].
Qed.
#[local] Hint Resolve certain_lock certain_authorize : broker.
Lemma certain_owned_dir d name : certain (owned_dir d name).
Proof. unfold owned_dir, sync_dir. auto 30 with broker. Qed.
#[local] Hint Resolve certain_owned_dir : broker.
Lemma certain_parent_from d create parts : certain (parent_from d create parts).
Proof.
  revert d. induction parts as [|part [|next parts] IH]; intros d; [simpl; auto with broker..|].
  apply certain_bind; [destruct create; auto with broker|intros; apply IH].
Qed.
#[local] Hint Resolve certain_parent_from : broker.
Lemma certain_parent r key create : certain (parent r key create).
Proof. unfold parent. auto 30 with broker. Qed.
#[local] Hint Resolve certain_parent : broker.
Lemma certain_data_file key : certain (data_file key).
Proof. unfold data_file. auto 30 with broker. Qed.

Lemma certain_inspect {A B} (m : FsM A) (k : result FilesystemStoreError A → FsM B) :
  certain m → (∀ a, certain (k (Ok a))) → (∀ e, is_uncertain e = false → certain (k (Err e))) →
  certain (let? r := outcome m in k r).
Proof.
  intros Hm Ha He w e w'. unfold bind, outcome. destruct (m w) as [[a|e1] w1] eqn:E1; [apply Ha|].
  by apply He, (Hm _ _ _ E1).
Qed.
#[local] Hint Resolve certain_data_file : broker.
Lemma certain_metadata cfg key : certain (metadata cfg key).
Proof.
  unfold metadata, read_limited. apply certain_inspect; [auto with broker|auto 30 with broker|].
  intros []; auto with broker.
Qed.
Lemma certain_hash_chunks rq session acc chunks : certain (hash_chunks rq session acc chunks).
Proof. revert acc. induction chunks as [|c chunks IH]; intros acc; simpl; auto 30 with broker. Qed.
#[local] Hint Resolve certain_metadata certain_hash_chunks : broker.
Lemma certain_describe cfg key file session rq : certain (describe cfg key file session rq).
Proof. unfold describe. destruct file. auto 30 with broker. Qed.
#[local] Hint Resolve certain_describe : broker.
Lemma certain_current_etag cfg session key rq : certain (current_etag cfg session key rq).
Proof. unfold current_etag. apply certain_inspect; [auto with broker..|]. intros []; auto with broker. Qed.
Lemma certain_check_target dir name : certain (check_target dir name).
Proof. unfold check_target. auto 30 with broker. Qed.
#[local] Hint Resolve certain_current_etag certain_check_target : broker.
Lemma certain_conditions c current : certain (lift_result (conditions_check c current)).
Proof. apply only_lift. unfold conditions_check. intros e. by case_goal; intros [= <-]. Qed.
#[local] Hint Resolve certain_conditions : broker.

(** ** Readers *)

Inductive quiet_reader : reader → Prop :=
| Quiet_reader rd : quiet (read rd) →
    (∀ w chunk rd' w', read rd w = (Ok (Some (chunk, rd')), w') → quiet_reader rd') → quiet_reader rd.
Lemma quiet_reader_read rd : quiet_reader rd → quiet (read rd).
Proof. by intros []. Qed.
Lemma quiet_list_reader body : quiet_reader (list_reader body).
Proof.
  induction body as [|[chunk|e] body IH]; constructor; cbn [read list_reader].
  - apply keeps_ret, _.
  - intros w c rd' w' [=].
  - destruct (is_empty chunk); apply keeps_ret, _.
  - destruct (is_empty chunk); [by intros w c rd' w' [=]|]. by intros w c rd' w' [= <- <- <-].
  - apply keeps_fail, _.
  - intros w c rd' w' [=].
Qed.
Lemma quiet_chunks_reader chunks : quiet_reader (chunks_reader chunks).
Proof.
  induction chunks as [|chunk chunks IH]; constructor; cbn [read chunks_reader].
  1, 3: apply keeps_bind; [apply _|apply keeps_plain|intros; apply keeps_ret, _].
  - intros w c rd' w' Hr. by invert_run Hr.
  - intros w c rd' w' Hr. invert_run Hr. by injection Hr as -> ->.
Qed.
(** What a body delivers: its chunks up to the first empty one. *)
Fixpoint body_data (body : list (result io_error string)) : option string :=
  match body with
  | [] => Some ""
  | Ok chunk :: body => if is_empty chunk then Some "" else (λ s, chunk +:+ s) <$> body_data body
  | Err _ :: _ => None
  end.

(** One turn of the staging loop that did not end it. *)
Lemma stage_body_turn cfg rq session size acc rd w x w' :
  stage_body cfg rq session size acc rd w = (x, w') →
  (∃ e, x = Err e ∧ is_uncertain e = false ∧ (quiet_reader rd → same_trees w w')) ∨
  (∃ w1, x = Ok (size, acc) ∧ same_trees w w1 ∧ read rd w1 = (Ok None, w')) ∨
  (∃ chunk rd' w1 w2 w3, same_trees w w1 ∧ read rd w1 = (Ok (Some (chunk, rd')), w2) ∧ same_trees w2 w3 ∧
     (size + len chunk ≤ sc_max_object_bytes cfg)%Z ∧
     stage_body cfg rq session (size + len chunk) (acc +:+ chunk) rd' w3 = (x, w')).
Proof.
  destruct rd as [step]. simpl. intros Hr. run_cases Hr.
  2: { left. exists e. split; [done|]. split; [by eapply certain_rq_check|intros _; by eapply quiet_rq_check]. }
  pose proof (quiet_rq_check _ _ _ _ _ R) as Hq.
  destruct (step s) as [[[[chunk rd']|]|e] w2] eqn:Es.
  2: { injection Hr as <- <-. right. left. by exists s. }
  2: { injection Hr as <- <-. left. eexists. split; [done|]. split; [done|].
       intros Hs%quiet_reader_read. etrans; [done|]. by eapply Hs. }
  assert (quiet_reader (Read step) → same_trees w w2) as Hw2.
  { intros Hs%quiet_reader_read. etrans; [done|]. by eapply Hs. }
  destruct (U64_MAX <? _)%Z. { injection Hr as <- <-. left. eauto. }
  destruct (_ <? _)%Z eqn:Em. { injection Hr as <- <-. left. eauto. }
  destruct (io plain w2) as [[[]|e] w3] eqn:Ep.
  - right. right. bool_to_prop. exists chunk, rd', s, w2, w3. split; [done|]. split; [done|]. split; [|done].
    by eapply quiet_io_plain.
  - injection Hr as <- <-. left. exists e. split; [done|].
    assert (same_trees w2 w3) by (by eapply quiet_io_plain).
    apply map_err_err in Ep as (e0 & _ & ->). split; [done|]. intros ?%Hw2. by etrans.
Qed.
(** The staging loop leaves the trees alone, and stages what was read. *)
Lemma quiet_stage_body cfg rq session size acc rd :
  quiet_reader rd → quiet (stage_body cfg rq session size acc rd).
Proof.
  intros Hq. revert size acc. induction Hq as [rd Hs Hrd IH]. intros size acc w x w' Hr.
  destruct (stage_body_turn _ _ _ _ _ _ _ _ _ Hr) as [(e & _ & _ & Ht)|[(w1 & _ & Hw1 & He)|Hturn]].
  - apply Ht. by constructor.
  - etrans; [done|]. by eapply Hs.
  - destruct Hturn as (chunk & rd' & w1 & w2 & w3 & Hw1 & He & Hw3 & _ & Hrest).
    etrans; [done|]. etrans; [by eapply Hs|]. etrans; [done|]. by eapply IH.
Qed.
Lemma certain_stage_body cfg rq session size acc rd : certain (stage_body cfg rq session size acc rd).
Proof.
  revert size acc. induction rd as [rd IH] using reader_turns. intros size acc w e w' Hr.
  destruct (stage_body_turn _ _ _ _ _ _ _ _ _ Hr) as [(e' & [= <-] & He & _)|[(w1 & ? & _)|Hturn]]; [done..|].
  destruct Hturn as (chunk & rd' & w1 & w2 & w3 & _ & He & _ & _ & Hrest). by eapply IH.
Qed.
(** An invariant of the reader and of what it gave so far holds at the end of a
    successful loop. *)
Lemma stage_body_ind (w0 : World) (I : string → reader → Prop) cfg rq session size acc rd w n data w' :
  (∀ acc rd w chunk rd' w', I acc rd → same_trees w0 w →
     read rd w = (Ok (Some (chunk, rd')), w') → I (acc +:+ chunk) rd') →
  quiet_reader rd → same_trees w0 w → I acc rd → size = len acc →
  stage_body cfg rq session size acc rd w = (Ok (n, data), w') →
  n = len data ∧ (n = size ∨ n ≤ sc_max_object_bytes cfg)%Z ∧
  ∃ rd' w1, I data rd' ∧ same_trees w0 w1 ∧ read rd' w1 = (Ok None, w').
Proof.
  intros Hstep Hq. revert size acc w. induction Hq as [rd Hs Hrd IH]. intros size acc w H0w HI Hsize Hr.
  destruct (stage_body_turn _ _ _ _ _ _ _ _ _ Hr) as [(e & ? & _)|[(w1 & [= -> ->] & Hw1 & He)|Hturn]]; [done| |].
  - split; [done|]. split; [by left|]. exists rd, w1. split; [done|]. split; [by etrans|done].
  - destruct Hturn as (chunk & rd' & w1 & w2 & w3 & Hw1 & He & Hw3 & Hmax & Hrest).
    assert (same_trees w0 w1) as H01 by (by etrans).
    assert (same_trees w0 w3) as H03 by (etrans; [|done]; etrans; [done|by eapply Hs]).
    destruct (IH _ _ _ _ He (size + len chunk)%Z (acc +:+ chunk) w3 H03 (Hstep _ _ _ _ _ _ HI H01 He) ltac:(rewrite len_app; lia) Hrest)
      as (Hn & Hle & Hend). split; [done|]. split; [right; destruct Hle; lia|done].
Qed.
(** The body of a request is staged whole. *)
Lemma stage_list_reader cfg rq session body w n data w' :
  stage_body cfg rq session 0 "" (list_reader body) w = (Ok (n, data), w') →
  body_data body = Some data ∧ n = len data ∧ (n = 0 ∨ n ≤ sc_max_object_bytes cfg)%Z.
Proof.
  intros Hr. set (I := λ acc rd, ∃ rest, rd = list_reader rest ∧ body_data body = (λ s, acc +:+ s) <$> body_data rest).
  edestruct (stage_body_ind w I) as (Hn & Hle & rd' & w1 & (rest & -> & Hbody) & _ & Hend); [| | | | |exact Hr|].
  - intros acc rd w1 chunk rd' w2 (rest & -> & Hb) _. destruct rest as [|[c|e] rest]; simpl; [done| |done].
    destruct (is_empty c) eqn:Ec; [done|]. intros [= <- <- _]. exists rest. split; [done|].
    rewrite Hb. simpl. rewrite Ec. destruct (body_data rest); simpl; [|done]. by rewrite str_app_assoc.
  - apply quiet_list_reader.
  - done.
  - exists body. split; [done|]. by destruct (body_data body).
  - done.
  - split; [|done]. rewrite Hbody. destruct rest as [|[c|e] rest]; simpl in *; [by rewrite str_app_nil_r| |done].
    destruct (is_empty c); [|done]. simpl. by rewrite str_app_nil_r.
Qed.

(** ** Staging *)

Lemma quiet_prepare cfg session key rd ct dg rq : quiet_reader rd → quiet (prepare cfg session key rd ct dg rq).
Proof.
  intros Hq. pose proof (quiet_stage_body cfg rq session 0 "" rd Hq). unfold prepare. auto 40 with broker.
Qed.
Lemma certain_prepare cfg session key rd ct dg rq : certain (prepare cfg session key rd ct dg rq).
Proof. pose proof (certain_stage_body cfg rq session 0 "" rd). unfold prepare. auto 40 with broker. Qed.
#[local] Hint Resolve certain_prepare : broker.
Definition authored_type (content_type : option string) : jv :=
  match content_type with Some s => jv_string s | None => jv_null end.
Definition derived_value (info : FilesystemObjectInfo) : jv :=
  match jv_time (oi_modified info) with Some time => jv_derived (oi_etag info) (oi_size info) time | None => jv_null end.
(** What a staged object holds. *)
Record staged (cfg : FilesystemStoreConfig) (key : string) (ct dg : option string) (data : string)
    (po : PreparedObject) : Prop := {
  st_payload : po_payload po = data;
  st_size : oi_size (po_info po) = len data;
  st_bound : (len data ≤ Z.max 0 (sc_max_object_bytes cfg))%Z;
  st_etag : oi_etag (po_info po) = etag (sha256 data);
  st_type : oi_content_type (po_info po) = content_type_of key ct;
  st_metadata : metadata_to_vec (authored_type ct) (derived_value (po_info po)) = Some (po_metadata po);
  st_fits : (len (po_metadata po) ≤ sc_metadata_bytes cfg)%Z;
  st_header s : ct = Some s → header s = true;
  st_digest d : dg = Some d → eq_ignore_ascii_case d (of_bytes (take 64 (drop 1 (bytes (etag (sha256 data)))))) = true;
}.
Lemma prepare_ok cfg session key rd ct dg rq w po w' :
  prepare cfg session key rd ct dg rq w = (Ok po, w') →
  ∃ n data w1 w2, same_trees w w1 ∧ stage_body cfg rq session 0 "" rd w1 = (Ok (n, data), w2) ∧
    (n = len data ∧ (n = 0 ∨ n ≤ sc_max_object_bytes cfg)%Z → staged cfg key ct dg data po).
Proof.
  unfold prepare. intros Hr. invert_run Hr. select (stage_body _ _ _ _ _ _ _ = _) (fun Hs => rename Hs into Hst).
  destruct a3 as [n data]. invert_run Hr. bool_to_prop.
  do 4 eexists. split; [|split; [exact Hst|]].
  - etrans; [by eapply quiet_rq_check|]. etrans; by eapply quiet_io_plain.
  - intros [Hn Hle]. split; simpl; try done.
    + subst n. lia.
    + intros c ->. simpl in *. by destruct (header c).
    + intros d ->. simpl in *. by destruct (eq_ignore_ascii_case _ _).
Qed.
Lemma prepare_body cfg session key body ct dg rq w po w' :
  prepare cfg session key (list_reader body) ct dg rq w = (Ok po, w') →
  ∃ data, body_data body = Some data ∧ staged cfg key ct dg data po.
Proof.
  intros (n & data & w1 & w2 & _ & Hs & Hst)%prepare_ok.
  apply stage_list_reader in Hs as (Hb & Hn & Hle). exists data. split; [done|]. by apply Hst.
Qed.

(** ** The directory and name of a key *)

Lemma owned_dir_run d name w x w' :
  held w d → owned_dir d name w = (x, w') →
  grown (d_root d) w w' ∧ ∀ d', x = Ok d' → d' = below d name ∧ held w' d'.
Proof.
  intros Hd Hr. unfold owned_dir in Hr. run_cases Hr; [|by unfold outcome in R; destruct (create_dir _ _ _)].
  assert (grown (d_root d) w s) as Hg.
  { unfold outcome in R. destruct (create_dir d name w) as [r w1] eqn:Ec. injection R as _ <-. by eapply create_dir_run. }
  assert (∀ m : FsM unit, quiet m → ∀ y w1, m s = (y, w1) → grown (d_root d) w w1) as Hthen.
  { intros m Hm y w1 Hy. etrans; [done|]. by eapply same_trees_grown, Hm. }
  run_cases Hr.
  2: { split; [|done]. eapply Hthen, R0. unfold sync_dir. auto 30 with broker. }
  assert (grown (d_root d) w s0) as Hg0.
  { eapply Hthen, R0. unfold sync_dir. auto 30 with broker. }
  assert (same_trees s0 w') as Hs by (eapply (quiet_io same_trees), Hr; auto with broker).
  split; [etrans; [done|by apply same_trees_grown]|]. intros d' ->.
  unfold io in Hr. apply map_err_ok, open_dir_ok in Hr as [-> Hn]. split; [done|].
  apply held_below. by rewrite (Hs (d_root d)).
Qed.
(** Where the parent of a key is, as it is looked up and created. *)
Definition leads (r : root) (p : path) (w : World) (x : result FilesystemStoreError (Dir * string)) : Prop :=
  ∀ d name, x = Ok (d, name) → d_root d = r ∧ d_path d ++ [name] = p ∧ held w d.
Lemma parent_from_create d parts w x w' :
  held w d → parent_from d true parts w = (x, w') →
  grown (d_root d) w w' ∧ leads (d_root d) (d_path d ++ parts) w' x.
Proof.
  revert d w. induction parts as [|part [|next parts] IH]; intros d w Hd Hr.
  - injection Hr as <- <-. by split.
  - injection Hr as <- <-. split; [done|]. by intros d' name [= <- <-].
  - apply bind_cases in Hr as [(d1 & w1 & Hd1w & Hr)|(e & Hd1w & ->)].
    + apply owned_dir_run in Hd1w as [Hg Hd1w]; [|done]. destruct (Hd1w _ eq_refl) as [-> Hd1].
      apply IH in Hr as [Hg' Hl]; [|done]. split; [by etrans|].
      simpl in Hl. by rewrite <- app_assoc in Hl.
    + apply owned_dir_run in Hd1w as [Hg _]; [|done]. by split.
Qed.
Lemma parent_from_find d parts w x w' :
  held w d → parent_from d false parts w = (x, w') →
  leads (d_root d) (d_path d ++ parts) w x ∧
  (x = Err FS_NotFound → tree_wf (tree_of w (d_root d)) → tree_of w (d_root d) !! (d_path d ++ parts) = None).
Proof.
  revert d w. induction parts as [|part [|next parts] IH]; intros d w Hd Hr.
  - by injection Hr as <- <-.
  - injection Hr as <- <-. split; [|done]. by intros d' name [= <- <-].
  - apply bind_cases in Hr as [(d1 & w1 & Hd1w & Hr)|(e & Hd1w & ->)].
    + assert (same_trees w w1) as Hs by (eapply (quiet_io_or same_trees), Hd1w; auto with broker).
      unfold io_or in Hd1w. apply map_err_ok, open_dir_ok in Hd1w as [-> Hn].
      assert (held w1 (below d part)) as Hd1 by (apply held_below; by rewrite (Hs (d_root d))).
      apply IH in Hr as [Hl Hnf]; [|done]. simpl in Hl, Hnf. rewrite <- app_assoc, ?(Hs (d_root d)) in *.
      split; [|done]. intros d' name Hx. destruct (Hl _ _ Hx) as (? & ? & Hh). split; [done|]. split; [done|].
      by eapply held_same; [symmetry|].
    + split; [done|]. intros [= ->] Hwf. apply map_err_err in Hd1w as (e0 & Hd1w & He). destruct e0; try done.
      apply eq_None_not_Some. intros [n Hn]. rewrite (cons_middle part), (assoc_L (++)) in Hn.
      apply tree_wf_prefix in Hn; [|done..].
      unfold open_dir in Hd1w. unfold bind, node_at, sys in Hd1w. destruct (default false _); [done|].
      rewrite tree_next_fault in Hd1w.
      destruct (d_path d ++ [part]) eqn:E; [by destruct (d_path d)|]. simpl in Hn. rewrite Hn in Hd1w. done.
Qed.

(** ** What is described of an object *)

Notation kpath key := (split key "/").
Definition file_at (t : tree) (key : string) : option (string * Z) :=
  match t !! kpath key with Some (NFile content modified) => Some (content, modified) | _ => None end.
Definition meta_at (w : World) (key : string) : option (jv * jv) :=
  match file_at (fw_meta w) key with Some (content, _) => metadata_from_slice content | None => None end.
Definition info_of (w : World) (key : string) (file : string * Z) : FilesystemObjectInfo :=
  let '(content, modified) := file in
  {| oi_size := len content;
     oi_etag := default (etag (sha256 content)) (meta_at w key ≫= λ m, cached_etag m.2 (len content) modified);
     oi_content_type := content_type_of key (meta_at w key ≫= λ m, jv_as_str m.1);
     oi_modified := modified |}.
Definition tag_at (w : World) (key : string) : option string :=
  oi_etag ∘ info_of w key <$> file_at (fw_data w) key.

Lemma parent_find r key w x w' :
  parent r key false w = (x, w') →
  leads r (kpath key) w x ∧ (x = Err FS_NotFound → tree_wf (tree_of w r) → tree_of w r !! kpath key = None).
Proof.
  unfold parent. destruct (negb _); [by intros [= <- _]|]. intros Hr. run_cases Hr; [|done].
  pose proof (quiet_io_plain _ _ _ R) as Hs. apply parent_from_find in Hr as [Hl Hn]; [|done]. simpl in *.
  rewrite (Hs r) in Hn. split; [|done]. intros d name Hx. destruct (Hl _ _ Hx) as (? & ? & Hh).
  split; [done|]. split; [done|]. by eapply held_same; [symmetry|].
Qed.
Lemma open_file_run d name w x w' :
  open_file d name w = (x, w') →
  (∀ n, x = Ok n → tree_of w (d_root d) !! (d_path d ++ [name]) = Some n) ∧
  (x = Err IoNotFound → tree_of w (d_root d) !! (d_path d ++ [name]) = None).
Proof.
  unfold open_file, bind, node_at, sys. destruct (default false _); [by intros [= <- _]|].
  rewrite tree_next_fault. destruct (_ !! _) as [[]|]; simpl; intros [= <- _]; split; (done || by intros ? [= <-]).
Qed.
Lemma data_file_run key w x w' :
  data_file key w = (x, w') →
  (∀ file, x = Ok file → file_at (fw_data w) key = Some file) ∧
  (x = Err FS_NotFound → tree_wf (fw_data w) → file_at (fw_data w) key = None).
Proof.
  unfold data_file. intros Hr. run_cases Hr.
  2: { apply parent_find in R as [_ Hn]. split; [done|]. intros [= ->] Hwf. unfold file_at.
       simpl in Hn. by rewrite Hn. }
  pose proof (quiet_parent _ _ _ _ _ R) as Hs. apply parent_find in R as [Hl _].
  destruct a as [dir name]. destruct (Hl _ _ eq_refl) as (Hroot & Hp & _). unfold io_or in Hr.
  run_cases Hr.
  - apply open_file_run in R as [Hn _]. specialize (Hn _ eq_refl). rewrite Hroot, Hp, (Hs RData) in Hn.
    simpl in Hn. unfold file_at. rewrite Hn. unfold io in Hr. run_cases Hr; [|done].
    destruct a; injection Hr as <- _; split; (done || by intros ? [= <-]).
  - split; [done|]. intros [= He] _. destruct err; try done. apply open_file_run in R as [_ Hn].
    specialize (Hn eq_refl). rewrite Hroot, Hp, (Hs RData) in Hn. simpl in Hn. unfold file_at. by rewrite Hn.
Qed.
Lemma read_limited_ok cfg content w data w' : read_limited cfg content w = (Ok data, w') → data = content.
Proof.
  unfold read_limited. intros Hr. invert_run Hr. bool_to_prop.
  select (_ ≤ _)%Z (fun Hle => rename Hle into Hlen). unfold len in Hlen.
  rewrite <- length_bytes, bytes_of_bytes, length_take in Hlen.
  rewrite take_ge; [apply of_bytes_bytes|]. lia.
Qed.
Lemma metadata_ok cfg key w m w' :
  metadata cfg key w = (Ok m, w') → tree_wf (fw_meta w) → m = meta_at w key.
Proof.
  unfold metadata. intros Hr Hwf. invert_run Hr. apply outcome_run in R.
  pose proof (quiet_parent _ _ _ _ _ R) as Hs. apply parent_find in R as [Hl Hn].
  unfold meta_at, file_at. destruct a as [[dir name]|[]]; try done.
  2: { simpl in Hn. rewrite Hn by done. by injection Hr as <- _. }
  destruct (Hl _ _ eq_refl) as (Hroot & Hp & _). clear Hl Hn. invert_run Hr. apply outcome_run in R.
  apply open_file_run in R as [Hn Hnf]. rewrite Hroot, Hp, (Hs RMeta) in *. simpl in Hn, Hnf.
  destruct a as [n|[]]; try done.
  2: { rewrite Hnf by done. by injection Hr as <- _. }
  specialize (Hn _ eq_refl). rewrite Hn. invert_run Hr. destruct n as [content modified| |]; try done.
  invert_run Hr. select (read_limited _ _ _ = _) (fun Hl => apply read_limited_ok in Hl as ->).
  destruct a1 as [ct derived]. invert_run Hr. done.
Qed.
Lemma hash_chunks_ok rq session acc chunks w data w' :
  hash_chunks rq session acc chunks w = (Ok data, w') → data = acc +:+ foldr String.append "" chunks.
Proof.
  revert acc w. induction chunks as [|chunk chunks IH]; intros acc w Hr; cbn [hash_chunks foldr] in *; invert_run Hr.
  - by rewrite str_app_nil_r.
  - apply IH in Hr as ->. apply str_app_assoc.
Qed.
Lemma describe_ok cfg key file session rq w info w' :
  describe cfg key file session rq w = (Ok info, w') → tree_wf (fw_meta w) → info = info_of w key file.
Proof.
  unfold describe, info_of. destruct file as [content modified]. intros Hr Hwf.
  apply bind_ok in Hr as (u1 & w1 & Hc1 & Hr). apply quiet_rq_check in Hc1.
  apply bind_ok in Hr as (u2 & w2 & Hc2 & Hr). apply quiet_io_plain in Hc2.
  apply bind_ok in Hr as (u3 & w3 & Hc3 & Hr). apply quiet_io_plain in Hc3.
  assert (same_trees w w3) as Hs by (etrans; [done|by etrans]).
  apply bind_ok in Hr as (m & w4 & Hm & Hr). apply metadata_ok in Hm; [|by rewrite (same_meta _ _ Hs)].
  assert (m = meta_at w key) as -> by (subst m; unfold meta_at; by rewrite (same_meta _ _ Hs)).
  apply bind_ok in Hr as (tag & w5 & Ht & Hr). invert_run Hr. f_equal.
  destruct (meta_at w key ≫= _) as [e|]; [by injection Ht as <- _|].
  invert_run Ht. select (hash_chunks _ _ _ _ _ = _) (fun Hh => apply hash_chunks_ok in Hh as ->).
  by rewrite file_chunks_concat.
Qed.
Lemma current_etag_ok cfg session key rq w tag w' :
  current_etag cfg session key rq w = (Ok tag, w') → tree_wf (fw_data w) → tree_wf (fw_meta w) → tag = tag_at w key.
Proof.
  unfold current_etag, tag_at. intros Hr Hwd Hwm. invert_run Hr. apply outcome_run in R.
  pose proof (quiet_data_file _ _ _ _ R) as Hs. apply data_file_run in R as [Hf Hnf].
  destruct a as [file|[]]; try done.
  - rewrite (Hf _ eq_refl). invert_run Hr. simpl. f_equal.
    select (describe _ _ _ _ _ _ = _) (fun Hd => apply describe_ok in Hd as ->); [|by rewrite (same_meta _ _ Hs)].
    unfold info_of, meta_at. by rewrite (same_meta _ _ Hs).
  - rewrite Hnf by done. by injection Hr as <- _.
Qed.

(** ** Publishing *)

Lemma parent_create r key w x w' :
  parent r key true w = (x, w') → grown r w w' ∧ leads r (kpath key) w' x.
Proof.
  unfold parent. destruct (negb _); [by intros [= <- <-]|]. intros Hr. run_cases Hr.
  - pose proof (quiet_io_plain _ _ _ R) as Hs. apply parent_from_create in Hr as [Hg Hl]; [|done].
    split; [|done]. etrans; [by apply same_trees_grown|done].
  - split; [|done]. by eapply same_trees_grown, keeps_plain.
Qed.
(** How an object is published: not at all, or its payload whole; and when its
    metadata did not follow or the outcome is not known to have been made
    durable, the error says so. *)
Inductive published (key : string) (po : PreparedObject) (conditions : FilesystemConditions) (w : World)
    : result FilesystemStoreError FilesystemObjectInfo → World → Prop :=
| Published_not e w' :
    is_uncertain e = false → grows w w' → published key po conditions w (Err e) w'
| Published_data e w' :
    conditions_check conditions (tag_at w key) = Ok tt →
    stored (kpath key) (po_payload po) (oi_modified (po_info po)) (fw_data w) (fw_data w') →
    dirs_added (fw_meta w) (fw_meta w') → fw_multi w' = fw_multi w →
    published key po conditions w (Err (FS_CommitUncertain e)) w'
| Published_both x w' :
    conditions_check conditions (tag_at w key) = Ok tt →
    stored (kpath key) (po_payload po) (oi_modified (po_info po)) (fw_data w) (fw_data w') →
    stored (kpath key) (po_metadata po) (oi_modified (po_info po)) (fw_meta w) (fw_meta w') →
    fw_multi w' = fw_multi w →
    (x = Ok (po_info po) ∨ ∃ e, x = Err (FS_CommitUncertain e)) → published key po conditions w x w'.
(** The conditions, whichever are given, were checked against the current tag. *)
Lemma check_conditions_run cfg session key conditions rq w x w' :
  (if is_some_and (if_match conditions) (λ _, true) || is_some_and (if_none_match conditions) (λ _, true) then
     let? current := current_etag cfg session key rq in
     lift_result (conditions_check conditions current)
   else ret tt) w = (x, w') → tree_wf (fw_data w) → tree_wf (fw_meta w) →
  same_trees w w' ∧ ((∃ e, x = Err e ∧ is_uncertain e = false) ∨
    x = Ok tt ∧ conditions_check conditions (tag_at w key) = Ok tt).
Proof.
  intros Hr Hwd Hwm. destruct (_ || _)%bool eqn:Eb.
  - split.
    { assert (quiet (let? current := current_etag cfg session key rq in
        lift_result (conditions_check conditions current))) as Hq by auto with broker. by eapply Hq. }
    run_cases Hr.
    + apply current_etag_ok in R as ->; [|done..]. injection Hr as <- <-.
      destruct (conditions_check conditions (tag_at w key)) as [[]|e] eqn:Ec; [by right|]. left. exists e.
      split; [done|]. eapply (certain_conditions conditions (tag_at w key) w). unfold lift_result. by rewrite Ec.
    + left. exists e. split; [done|]. by eapply certain_current_etag.
  - injection Hr as <- <-. split; [done|]. right. split; [done|]. bool_to_prop. unfold conditions_check.
    by destruct (if_match conditions), (if_none_match conditions).
Qed.
Lemma renamed_stored w0 w w' d name content modified p :
  dirs_added (tree_of w0 (d_root d)) (tree_of w (d_root d)) → held w d → d_path d ++ [name] = p →
  tree_of w (d_root d) !! (d_path d ++ [name]) ≠ Some NDir →
  became (d_root d) (<[d_path d ++ [name] := NFile content modified]> (tree_of w (d_root d))) w w' →
  stored p content modified (tree_of w0 (d_root d)) (tree_of w' (d_root d)).
Proof.
  intros Hadd Hheld Hp Hn Hbec. exists (tree_of w (d_root d)), (d_path d), name.
  rewrite (Hbec (d_root d)), decide_True by done. subst p. done.
Qed.
Lemma quiet_sync_dir {R} `{!QuietRel R} d : keeps R (sync_dir d).
Proof. unfold sync_dir. auto with broker. Qed.
#[local] Hint Resolve quiet_sync_dir : broker.
(** The part of publishing after the payload is in place. *)
Lemma publish_after d name meta modified rq session dd w w0 x w' :
  uncertainly (
    do? io (rename_into d name meta modified) in
    do? sync_dir dd in
    do? sync_dir d in
    do? rq_check rq session in
    io plain) w = (x, w') →
  dirs_added (tree_of w0 (d_root d)) (tree_of w (d_root d)) → held w d →
  (∃ e, x = Err (FS_CommitUncertain e) ∧ same_trees w w') ∨
  (stored (d_path d ++ [name]) meta modified (tree_of w0 (d_root d)) (tree_of w' (d_root d)) ∧
   (∀ r, r ≠ d_root d → tree_of w' r = tree_of w r) ∧ (x = Ok tt ∨ ∃ e, x = Err (FS_CommitUncertain e))).
Proof.
  intros Hr Hadd Hheld. unfold uncertainly, map_err in Hr.
  destruct (bind _ _ w) as [r w1] eqn:Eb.
  assert (w1 = w') as -> by (by destruct r; injection Hr as _ ->).
  assert (x = Ok tt ∨ ∃ e, x = Err (FS_CommitUncertain e)) as Hx.
  { destruct r as [[]|e]; injection Hr as <-; eauto. }
  apply bind_cases in Eb as [([] & w2 & Hren & Hrest)|(e & Hren & ->)].
  - right. split; [|split; [|done]].
    all: quiet_step Hrest Hs.
    all: unfold io in Hren; apply map_err_ok, rename_into_run in Hren as [(_ & Hn & Hbec)|(e & ? & _)]; [|done].
    + rewrite (Hs (d_root d)). by eapply renamed_stored.
    + intros r' Hne. rewrite (Hs r'), (Hbec r'). by rewrite decide_False.
  - left. injection Hr as <-. exists e. split; [done|]. unfold io in Hren.
    apply map_err_err in Hren as (e0 & Hren & _). by apply rename_into_run in Hren as [(? & _)|(e1 & _ & ?)].
Qed.
Lemma grows_wf w w' : grows w w' → tree_wf (fw_data w) → tree_wf (fw_meta w) →
  tree_wf (fw_data w') ∧ tree_wf (fw_meta w').
Proof. intros [_ Hd Hm] ??. split; by eapply dirs_added_wf. Qed.
Lemma keeps_parent_create r key : r ≠ RMulti → keeps grows (parent r key true).
Proof. intros Hr w x w' [Hg _]%parent_create. by eapply grown_grows. Qed.
(** The part of publishing once the directories are open. *)
Definition publish_tail (data : Dir) (name : string) (meta : Dir) (metaname : string) (po : PreparedObject)
    (rq : FilesystemRequest) (session : VerifiedFilesystemSession) : FsM FilesystemObjectInfo :=
  do? check_target data name in
  do? check_target meta metaname in
  do? rq_check rq session in
  do? io (rename_into data name (po_payload po) (oi_modified (po_info po))) in
  do? uncertainly (
    do? io (rename_into meta metaname (po_metadata po) (oi_modified (po_info po))) in
    do? sync_dir data in
    do? sync_dir meta in
    do? rq_check rq session in
    io plain) in
  ret (po_info po).
(** A step that failed before the payload was in place. *)
Ltac publish_early Hg :=
  match goal with
  | R : ?m _ = (Err _, _) |- _ =>
      let Hs := fresh in let Hm := fresh in
      quiet_step R Hs; assert (certain m) as Hm by auto with broker; apply Published_not;
      [by eapply Hm|etrans; [exact Hg|by apply same_trees_grows]]
  end.
(** The payload is in place; the metadata follow, or the commit is uncertain. *)
Lemma published_after key po conditions rq session data meta metaname w0 w x w' :
  (do? uncertainly (
     do? io (rename_into meta metaname (po_metadata po) (oi_modified (po_info po))) in
     do? sync_dir data in
     do? sync_dir meta in
     do? rq_check rq session in
     io plain) in
   ret (po_info po)) w = (x, w') →
  conditions_check conditions (tag_at w0 key) = Ok tt →
  stored (kpath key) (po_payload po) (oi_modified (po_info po)) (fw_data w0) (fw_data w) →
  dirs_added (fw_meta w0) (fw_meta w) → fw_multi w = fw_multi w0 →
  d_root meta = RMeta → d_path meta ++ [metaname] = kpath key → held w meta →
  published key po conditions w0 x w'.
Proof.
  intros Hr Hc Hdata Hadd Hmulti Hmr Hmp Hmh.
  assert (∃ y, (x = rmap (λ _, po_info po) y) ∧ uncertainly (
     do? io (rename_into meta metaname (po_metadata po) (oi_modified (po_info po))) in
     do? sync_dir data in
     do? sync_dir meta in
     do? rq_check rq session in
     io plain) w = (y, w')) as (y & -> & Hy).
  { apply bind_cases in Hr as [(u & w1 & Hu & [= <- ->])|(e & He & ->)]; [by exists (Ok u)|by exists (Err e)]. }
  pose proof (publish_after _ _ _ _ _ _ _ _ w0 _ _ Hy) as Hp. rewrite Hmr, Hmp in Hp. simpl in Hp.
  destruct Hp as [(e & -> & Hs)|(Hst & Hother & Hx)]; [done..| |].
  - apply Published_data; [done| | |].
    + by rewrite (same_data _ _ Hs).
    + by rewrite (same_meta _ _ Hs).
    + by rewrite (same_multi _ _ Hs).
  - apply Published_both; [done| |done| |].
    + by rewrite (Hother RData : _ → fw_data w' = fw_data w).
    + by rewrite (Hother RMulti : _ → fw_multi w' = fw_multi w).
    + destruct Hx as [->|[e ->]]; simpl; eauto.
Qed.
Lemma publish_tail_run data name meta metaname po conditions rq session key w0 w x w' :
  publish_tail data name meta metaname po rq session w = (x, w') →
  grows w0 w → conditions_check conditions (tag_at w0 key) = Ok tt →
  d_root data = RData → d_path data ++ [name] = kpath key → held w data →
  d_root meta = RMeta → d_path meta ++ [metaname] = kpath key → held w meta →
  published key po conditions w0 x w'.
Proof.
  unfold publish_tail. intros Hr Hg Hc Hdr Hdp Hdh Hmr Hmp Hmh.
  run_cases Hr; [|publish_early Hg]. quiet_step R Hs1.
  run_cases Hr; [|publish_early (transitivity Hg (same_trees_grows _ _ Hs1))]. quiet_step R0 Hs2.
  assert (same_trees w s0) as Hs by (by etrans). clear Hs1 Hs2 R R0.
  run_cases Hr; [|publish_early (transitivity Hg (same_trees_grows _ _ Hs))]. quiet_step R Hs1.
  assert (same_trees w s1) as Hs2 by (by etrans). clear Hs Hs1 R.
  assert (grows w0 s1) as Hg1 by (etrans; [done|by apply same_trees_grows]).
  pose proof (held_same _ _ _ Hs2 Hdh) as Hdh1. pose proof (held_same _ _ _ Hs2 Hmh) as Hmh1.
  unfold io at 1 in Hr. run_cases Hr.
  2: { apply rename_into_run in R as [(? & _)|(e & _ & Hs3)]; [done|]. apply Published_not; [done|].
       etrans; [done|by apply same_trees_grows]. }
  apply rename_into_run in R as [(_ & Hn & Hbec)|(e & ? & _)]; [|done].
  assert (stored (kpath key) (po_payload po) (oi_modified (po_info po)) (fw_data w0) (fw_data s2)) as Hdata.
  { pose proof (renamed_stored w0 s1 s2 data name (po_payload po) (oi_modified (po_info po)) (kpath key)) as Hst.
    rewrite Hdr in *. apply Hst; try done. by destruct Hg1. }
  assert (∀ r, r ≠ RData → tree_of s2 r = tree_of s1 r) as Hother.
  { intros r Hne. rewrite (Hbec r), Hdr. by rewrite decide_False. }
  destruct Hg1 as [HU _ HM]. eapply published_after; [exact Hr|done|done|..|done|done|].
  - by rewrite (Hother RMeta : _ → fw_meta s2 = fw_meta s1).
  - by rewrite (Hother RMulti : _ → fw_multi s2 = fw_multi s1).
  - unfold held in *. rewrite Hmr in *. by rewrite Hother.
Qed.
Lemma publish_locked_run cfg session key po conditions rq w x w' :
  publish_locked cfg session key po conditions rq w = (x, w') →
  tree_wf (fw_data w) → tree_wf (fw_meta w) → published key po conditions w x w'.
Proof.
  unfold publish_locked. intros Hr Hwd Hwm.
  run_cases Hr. 2: { quiet_step R Hs. apply Published_not; [by eapply certain_rq_check|by apply same_trees_grows]. }
  quiet_step R Hs0. run_cases Hr.
  all: apply check_conditions_run in R0 as [Hs1 Hc]; [|by rewrite ?(same_data _ _ Hs0), ?(same_meta _ _ Hs0)..].
  2: { destruct Hc as [(e' & [= <-] & He)|[? _]]; [|done]. apply Published_not; [done|]. apply same_trees_grows.
       by etrans. }
  destruct Hc as [(e' & ? & _)|[_ Hc]]; [done|].
  assert (tag_at s key = tag_at w key) as Htag.
  { unfold tag_at, info_of, meta_at. by rewrite (same_data _ _ Hs0), (same_meta _ _ Hs0). }
  rewrite Htag in Hc. assert (same_trees w s0) as Hs by (by etrans). clear Htag Hs0 Hs1 R.
  run_cases Hr.
  2: { apply Published_not; [by eapply certain_parent|]. etrans; [by apply same_trees_grows|].
       by eapply (keeps_parent_create RData). }
  destruct a1 as [data name]. apply parent_create in R as [Hgd Hld].
  destruct (Hld _ _ eq_refl) as (Hdr & Hdp & Hdh). clear Hld. cbv beta iota in Hr.
  run_cases Hr.
  2: { apply Published_not; [by eapply certain_parent|]. etrans; [by apply same_trees_grows|].
       etrans; [by eapply grown_grows, Hgd|]. by eapply (keeps_parent_create RMeta). }
  destruct a1 as [meta metaname]. apply parent_create in R as [Hgm Hlm].
  destruct (Hlm _ _ eq_refl) as (Hmr & Hmp & Hmh). clear Hlm. cbv beta iota in Hr.
  assert (grows w s2) as Hg.
  { etrans; [by apply same_trees_grows|]. etrans; [by eapply grown_grows, Hgd|by eapply grown_grows, Hgm]. }
  eapply publish_tail_run; [exact Hr|done|done|done|done| |done|done|done]. by eapply held_grown.
Qed.
End store.

#[export] Hint Resolve advances_map_err advances_vs_check advances_vs_allows quiet_io_plain
  quiet_io quiet_io_or keeps_uncertainly quiet_rq_check quiet_lock quiet_allows quiet_parent_from
  quiet_authorize quiet_parent quiet_data_file quiet_metadata quiet_hash_chunks quiet_describe quiet_then_check
  quiet_current_etag quiet_check_target certain_io certain_io_or certain_outcome certain_ret certain_fail
  certain_ok_or certain_rq_check certain_lock certain_authorize certain_owned_dir certain_parent_from
  certain_parent certain_data_file certain_metadata certain_hash_chunks certain_describe certain_current_etag
  certain_check_target certain_conditions certain_prepare quiet_sync_dir : broker.
#[export] Hint Extern 2 (certain (match ?x with _ => _ end)) => destruct x eqn:? : broker.
#[export] Hint Extern 2 (certain (bind _ _)) => apply certain_bind; [|intros] : broker.
Notation kpath key := (split key "/").
