(* ===== verification/FilesystemObjects.v ===== *)
(** * Whole operations of the filesystem object store

    What writing, deleting and reading an object of
    crates/broker-storage/src/filesystem_store.rs come to: atomic operations on
    a map from keys to contents, whichever system call fails, and reads that
    give back what was written. *)

From stdpp Require Import gmap.
From S2P Require Import Prelude RustStr Order Control LocalBearer BrokerAccess.
From S2P Require Import Session Identity InstanceRegistry ResourceGrants.
From S2P Require Import ResourcePolicy StorageAdmission StoragePolicy FilesystemSession FileTree FilesystemStore.

Section objects.
Context `{UlidLib, JwtLib, SessionLib, StoreLib}.

(** ** Whole operations *)

(** What a session must hold for an operation on a key. *)
Definition authorized (cfg : FilesystemStoreConfig) (session : VerifiedFilesystemSession) (op : StorageOperation)
    (key : string) : Prop :=
  vs_bucket session = sc_bucket cfg ∧ valid_key key = true ∧ covered session (operation_indices op) key = true.
Lemma authorize_ok cfg session rq op key w u w' :
  authorize cfg session rq op key w = (Ok u, w') → authorized cfg session op key.
Proof.
  unfold authorize, allows. intros Hr. invert_run Hr. bool_to_prop.
  select (str_eqb _ _ = true) (fun Hb => apply str_eqb_eq in Hb).
  split; [done|]. split; [done|]. subst.
  match goal with R : on_clock _ _ = _ |- _ => unfold on_clock in R; destruct (vs_allows _ _ _ _) as [r c] eqn:Ea; injection R as -> _ end.
  by apply vs_allows_true in Ea as (_ & ? & _).
Qed.
(** The end of an operation with effects: success can become an uncertain
    commit, and an error can become another error before any effect. *)
Lemma finish_write_run {A} rq session (m : FsM A) w x w' :
  finish_write rq session m w = (x, w') →
  ∃ y w1, m w = (y, w1) ∧ same_trees w1 w' ∧
    match y with
    | Ok a => x = Ok a ∨ ∃ e, x = Err (FS_CommitUncertain e)
    | Err e => if is_uncertain e then x = Err e else ∃ e', x = Err e' ∧ is_uncertain e' = false
    end.
Proof.
  unfold finish_write. intros Hr. run_cases Hr; [|by unfold outcome in R; destruct (m w)].
  apply outcome_run in R. exists a, s. split; [done|]. destruct a as [a|e].
  - apply bind_cases in Hr as [(u & w1 & Hu & [= <- ->])|(e & He & ->)].
    + quiet_step Hu Hs. eauto.
    + quiet_step He Hs. apply map_err_err in He as (e0 & _ & ->). eauto.
  - destruct (is_uncertain e) eqn:Eu; [by injection Hr as <- <-|].
    run_cases Hr; quiet_step R0 Hs; [injection Hr as <- <-; eauto|]. split; [done|]. eexists. split; [done|].
    by eapply certain_rq_check.
Qed.
(** A step before any effect: it ends the operation with an error that says
    nothing happened, or the operation goes on. *)
Lemma early_step {A B} (P : result FilesystemStoreError B → World → Prop) (m : FsM A) (k : A → FsM B) w0 w y w1 :
  (∀ e w', is_uncertain e = false → same_trees w0 w' → P (Err e) w') →
  same_trees w0 w → certain m → quiet m → bind m k w = (y, w1) →
  (∀ a w2, same_trees w0 w2 → m w = (Ok a, w2) → k a w2 = (y, w1) → P y w1) → P y w1.
Proof.
  intros Hnone Hs Hc Hq Hb Hk. apply bind_cases in Hb as [(a & w2 & Ha & Hb)|(e & He & ->)].
  - eapply Hk; [|exact Ha|exact Hb]. etrans; [exact Hs|by eapply Hq].
  - apply Hnone; [by eapply Hc|]. etrans; [exact Hs|by eapply Hq].
Qed.
(** An object replaced, on condition of its current entity tag. *)
Definition replaced (key data : string) (conditions : FilesystemConditions) (w w' : World) : Prop :=
  objects (fw_data w') = <[kpath key := data]> (objects (fw_data w)) ∧
  conditions_check conditions (tag_at w key) = Ok tt.
(** What the caller is told of it. *)
Definition tells (cfg : FilesystemStoreConfig) (data : string) (info : FilesystemObjectInfo) : Prop :=
  oi_size info = len data ∧ oi_etag info = etag (sha256 data) ∧ (len data ≤ Z.max 0 (sc_max_object_bytes cfg))%Z.
Lemma published_wf key po conditions w x w' :
  published key po conditions w x w' → tree_wf (fw_data w) → tree_wf (fw_meta w) →
  tree_wf (fw_data w') ∧ tree_wf (fw_meta w') ∧ fw_multi w' = fw_multi w.
Proof.
  intros [e w1 He Hg|e w1 Hc Hd Hm HU|y w1 Hc Hd Hm HU _] Hwd Hwm.
  - destruct (grows_wf _ _ Hg Hwd Hwm). by destruct Hg.
  - split; [by eapply stored_wf|]. split; [by eapply dirs_added_wf|done].
  - split; [by eapply stored_wf|]. split; [by eapply stored_wf|done].
Qed.
Lemma published_objects key po conditions w x w' :
  published key po conditions w x w' →
  (∃ e, x = Err e ∧ is_uncertain e = false ∧ objects (fw_data w') = objects (fw_data w) ∧ grows w w') ∨
  ((x = Ok (po_info po) ∨ ∃ e, x = Err (FS_CommitUncertain e)) ∧
   objects (fw_data w') = <[kpath key := po_payload po]> (objects (fw_data w)) ∧
   conditions_check conditions (tag_at w key) = Ok tt).
Proof.
  intros [e w1 He Hg|e w1 Hc Hd Hm HU|y w1 Hc Hd Hm HU Hy].
  - left. exists e. destruct (Hg) as [_ Hd _]. by rewrite (dirs_added_objects _ _ Hd).
  - right. split; [eauto|]. by rewrite (stored_objects _ _ _ _ _ Hd).
  - right. by rewrite (stored_objects _ _ _ _ _ Hd).
Qed.
Lemma staged_tells cfg key ct dg data po : staged cfg key ct dg data po → tells cfg data (po_info po).
Proof. by intros []. Qed.
(** The trees an operation began with, seen after steps that left them alone. *)
Lemma tag_at_same w w' key : same_trees w w' → tag_at w' key = tag_at w key.
Proof. intros Hs. unfold tag_at, info_of, meta_at. by rewrite (same_data _ _ Hs), (same_meta _ _ Hs). Qed.
(** A staged object published: what the volume and the outcome come to. *)
Definition put_outcome (cfg : FilesystemStoreConfig) (key data : string) (conditions : FilesystemConditions) (w : World)
    (x : result FilesystemStoreError FilesystemObjectInfo) (w' : World) : Prop :=
  tree_wf (fw_data w') ∧ tree_wf (fw_meta w') ∧ fw_multi w' = fw_multi w ∧
  match x with
  | Ok info => replaced key data conditions w w' ∧ tells cfg data info
  | Err (FS_CommitUncertain _) => replaced key data conditions w w'
  | Err _ => objects (fw_data w') = objects (fw_data w)
  end.
Lemma published_outcome cfg key ct dg data po conditions w0 w x w' :
  staged cfg key ct dg data po → published key po conditions w x w' → same_trees w0 w →
  tree_wf (fw_data w0) → tree_wf (fw_meta w0) → put_outcome cfg key data conditions w0 x w'.
Proof.
  intros Hst Hp Hs Hwd Hwm. rewrite <- (same_data _ _ Hs) in Hwd. rewrite <- (same_meta _ _ Hs) in Hwm.
  destruct (published_wf _ _ _ _ _ _ Hp Hwd Hwm) as (? & ? & HU). rewrite (same_multi _ _ Hs) in HU.
  do 3 (split; [done|]). unfold replaced. rewrite <- (tag_at_same _ _ key Hs), <- (same_data _ _ Hs).
  apply published_objects in Hp as [(e & -> & He & Ho & _)|(Hx & Ho & Hc)]; [by destruct e|].
  pose proof (staged_tells _ _ _ _ _ _ Hst). destruct Hst as [Hpay]. rewrite Hpay in Ho.
  by destruct Hx as [->|[e ->]].
Qed.
(** The outcome survives the last check of the session. *)
Lemma put_outcome_finish cfg key data conditions w y w1 x w' :
  put_outcome cfg key data conditions w y w1 → same_trees w1 w' →
  match y with
  | Ok a => x = Ok a ∨ ∃ e, x = Err (FS_CommitUncertain e)
  | Err e => if is_uncertain e then x = Err e else ∃ e', x = Err e' ∧ is_uncertain e' = false
  end → put_outcome cfg key data conditions w x w'.
Proof.
  intros (Hd & Hm & HU & Hy) Hs Hx. unfold put_outcome, replaced in *.
  rewrite (same_data _ _ Hs), (same_meta _ _ Hs), (same_multi _ _ Hs). do 3 (split; [done|]).
  destruct y as [a|e].
  - destruct Hx as [->|[e ->]]; [done|]. by destruct Hy.
  - destruct (is_uncertain e) eqn:Eu; [by subst x|]. destruct Hx as (e' & -> & He'). by destruct e, e'.
Qed.
(** Before anything is published. *)
Lemma put_outcome_none cfg key data conditions w e w' :
  same_trees w w' → is_uncertain e = false → tree_wf (fw_data w) → tree_wf (fw_meta w) →
  put_outcome cfg key data conditions w (Err e) w'.
Proof.
  intros Hs He Hwd Hwm. unfold put_outcome. rewrite (same_data _ _ Hs), (same_meta _ _ Hs), (same_multi _ _ Hs).
  do 3 (split; [done|]). by destruct e.
Qed.
Lemma put_inner_run cfg session key body ct dg conditions rq w y w1 :
  (let? prepared := prepare cfg session key (list_reader body) ct dg rq in
   do? lock rq session in
   publish_locked cfg session key prepared conditions rq) w = (y, w1) →
  tree_wf (fw_data w) → tree_wf (fw_meta w) →
  (∃ e, y = Err e ∧ is_uncertain e = false ∧ same_trees w w1) ∨
  (∃ data po w2, body_data body = Some data ∧ staged cfg key ct dg data po ∧ same_trees w w2 ∧
     published key po conditions w2 y w1).
Proof.
  intros Hr Hwd Hwm. pose proof (quiet_prepare cfg session key _ ct dg rq (quiet_list_reader body)) as Hq.
  run_cases Hr.
  2: { left. exists e. split; [done|]. split; [by eapply certain_prepare|by eapply Hq]. }
  pose proof (Hq _ _ _ R) as Hs. apply prepare_body in R as (data & Hb & Hst). run_cases Hr; quiet_step R Hs1.
  2: { left. exists e. split; [done|]. split; [by eapply certain_lock|by etrans]. }
  assert (same_trees w s0) as Hs2 by (by etrans).
  apply publish_locked_run in Hr; [|by rewrite ?(same_data _ _ Hs2), ?(same_meta _ _ Hs2)..]. right. eauto 10.
Qed.
(** C2. Writing an object is an atomic write to a map from keys to contents,
    whichever system call fails and wherever the session ends.  When it succeeds
    the object is the whole body and no other object changed, the size and the
    entity tag told are those of the body, and the conditions held of the
    current entity tag; when it reports an uncertain commit the object is the
    whole body all the same; on any other error no object changed.  The trees
    stay well formed, the uploads are untouched, and nothing changes without
    the authority to write the key. *)
Theorem put_refines cfg session key body ct dg conditions rq w x w' :
  tree_wf (fw_data w) → tree_wf (fw_meta w) →
  put_object cfg session key body ct dg conditions rq w = (x, w') →
  (∀ data, body_data body = Some data → put_outcome cfg key data conditions w x w') ∧
  (body_data body = None → is_ok x = false ∧ same_trees w w') ∧
  (is_ok x = true ∨ ¬ same_trees w w' → authorized cfg session OpWrite key).
Proof.
  intros Hwd Hwm. unfold put_object. intros Hr. run_cases Hr; quiet_step R Hs.
  2: { split; [|split; [done|by intros [|[]]]]. intros data _. apply put_outcome_none; [done| |done..].
       by eapply certain_authorize. }
  apply authorize_ok in R. apply finish_write_run in Hr as (y & w1 & Hm & Hs1 & Hx).
  rewrite <- (same_data _ _ Hs) in Hwd. rewrite <- (same_meta _ _ Hs) in Hwm.
  apply put_inner_run in Hm; [|done..].
  assert (∀ data, put_outcome cfg key data conditions s x w' → put_outcome cfg key data conditions w x w') as Hback.
  { intros data. unfold put_outcome, replaced. by rewrite (tag_at_same _ _ key Hs), (same_data _ _ Hs), (same_multi _ _ Hs). }
  destruct Hm as [(e & -> & He & Hs2)|(data & po & w2 & Hb & Hst & Hs2 & Hp)].
  - rewrite He in Hx. destruct Hx as (e' & -> & He'). assert (same_trees s w') by (by etrans).
    split; [|split; [split; [done|by etrans]|done]].
    intros data _. by apply Hback, put_outcome_none.
  - split; [|split; [congruence|done]]. intros data' Hb'. replace data' with data by congruence.
    eapply Hback, put_outcome_finish; [by eapply published_outcome|done|done].
Qed.

(** ** Deleting *)

Lemma removed_objects p t : objects (delete p t) = delete p (objects t).
Proof. unfold objects. apply omap_delete. Qed.
(** The metadata are removed, or are not there, or an error is reported. *)
Lemma remove_metadata_run key w x w' :
  remove_metadata key w = (x, w') → tree_wf (fw_meta w) →
  fw_data w' = fw_data w ∧ fw_multi w' = fw_multi w ∧
  (fw_meta w' = fw_meta w ∨ fw_meta w' = delete (kpath key) (fw_meta w) ∧ fw_meta w !! kpath key ≠ Some NDir) ∧
  (x = Ok tt → fw_meta w' !! kpath key = None).
Proof.
  unfold remove_metadata. intros Hr Hwf. run_cases Hr; [|by unfold outcome in R; destruct (parent _ _ _ _)].
  apply outcome_run in R. pose proof (quiet_parent _ _ _ _ _ R) as Hs.
  apply parent_find in R as [Hl Hnf]. simpl in Hnf.
  assert (∀ y : FsM unit, quiet y → y s = (x, w') → same_trees w w') as Hquiet.
  { intros y Hy Hrun. etrans; [done|]. by eapply Hy. }
  assert (same_trees w w' → (x = Ok tt → fw_meta w !! kpath key = None) →
    fw_data w' = fw_data w ∧ fw_multi w' = fw_multi w ∧
    (fw_meta w' = fw_meta w ∨ fw_meta w' = delete (kpath key) (fw_meta w) ∧ fw_meta w !! kpath key ≠ Some NDir) ∧
    (x = Ok tt → fw_meta w' !! kpath key = None)) as Hsame.
  { intros Hs'. rewrite (same_data _ _ Hs'), (same_meta _ _ Hs'), (same_multi _ _ Hs'). auto. }
  destruct a as [[d name]|e].
  2: { apply Hsame; [eapply Hquiet, Hr; destruct e; auto with broker|]. intros ->. by destruct e; auto. }
  destruct (Hl _ _ eq_refl) as (Hroot & Hp & _).
  run_cases Hr; [|by unfold outcome in R; destruct (remove_file _ _ _)]. apply outcome_run in R.
  apply remove_file_run in R as [(-> & (n & Hn & Hne) & Hbec)|(e & -> & Hs1 & Hnone)].
  - quiet_step Hr Hs2. rewrite (same_data _ _ Hs2), (same_meta _ _ Hs2), (same_multi _ _ Hs2).
    rewrite Hroot, Hp in *. apply became_trees in Hbec as (HD & HM & HU). simpl in *.
    rewrite HD, HM, HU, (same_data _ _ Hs), (same_meta _ _ Hs), (same_multi _ _ Hs) in *.
    split; [done|]. split; [done|]. split; [right; split; [done|congruence]|]. intros _. apply lookup_delete_eq.
  - assert (same_trees w w') as Hs' by (etrans; [exact Hs|]; etrans; [exact Hs1|]; destruct e; by injection Hr as _ <-).
    apply Hsame; [done|]. intros ->. rewrite Hroot, Hp, (Hs RMeta) in Hnone. destruct e; try done. by apply Hnone.
Qed.
Definition delete_conditions (if_match_ : option string) : FilesystemConditions :=
  {| if_match := if_match_; if_none_match := None |}.
(** The object is gone, and its metadata with it or not. *)
Definition dropped (key : string) (w w' : World) : Prop :=
  fw_data w' = delete (kpath key) (fw_data w) ∧ fw_data w !! kpath key ≠ Some NDir ∧ fw_multi w' = fw_multi w ∧
  (fw_meta w' = fw_meta w ∨ fw_meta w' = delete (kpath key) (fw_meta w) ∧ fw_meta w !! kpath key ≠ Some NDir).
Lemma dropped_same key w1 w2 w3 : same_trees w1 w2 → dropped key w2 w3 → dropped key w1 w3.
Proof.
  intros Hs. unfold dropped. by rewrite (same_data _ _ Hs), (same_meta _ _ Hs), (same_multi _ _ Hs).
Qed.
Lemma same_dropped key w1 w2 w3 : same_trees w2 w3 → dropped key w1 w2 → dropped key w1 w3.
Proof.
  intros Hs. unfold dropped. by rewrite (same_data _ _ Hs), (same_meta _ _ Hs), (same_multi _ _ Hs).
Qed.
Lemma delete_after key data rq session w x w' :
  uncertainly (do? remove_metadata key in do? sync_dir data in rq_check rq session) w = (x, w') →
  tree_wf (fw_meta w) →
  fw_data w' = fw_data w ∧ fw_multi w' = fw_multi w ∧
  (fw_meta w' = fw_meta w ∨ fw_meta w' = delete (kpath key) (fw_meta w) ∧ fw_meta w !! kpath key ≠ Some NDir) ∧
  (x = Ok tt ∧ fw_meta w' !! kpath key = None ∨ ∃ e, x = Err (FS_CommitUncertain e)).
Proof.
  unfold uncertainly, map_err. intros Hr Hwf. destruct (bind _ _ w) as [r w1] eqn:Eb.
  assert (w1 = w') as -> by (by destruct r; injection Hr as _ ->).
  run_cases Eb.
  - apply remove_metadata_run in R as (HD & HU & HM & Hn); [|done]. quiet_step Eb Hs.
    rewrite (same_data _ _ Hs), (same_meta _ _ Hs), (same_multi _ _ Hs). do 3 (split; [done|]).
    destruct a, r as [[]|e]; injection Hr as <-; [left|right; eauto]. auto.
  - apply remove_metadata_run in R as (HD & HU & HM & _); [|done]. injection Hr as <-. eauto 10.
Qed.
Lemma delete_found_run key data name rq session w x w' :
  (do? rq_check rq session in
   do? io (remove_file data name) in
   do? uncertainly (
     do? remove_metadata key in
     do? sync_dir data in
     rq_check rq session) in
   ret true) w = (x, w') →
  d_root data = RData → d_path data ++ [name] = kpath key → tree_wf (fw_meta w) →
  (∃ e, x = Err e ∧ is_uncertain e = false ∧ same_trees w w') ∨
  dropped key w w' ∧ (x = Ok true ∧ fw_meta w' !! kpath key = None ∨ ∃ e, x = Err (FS_CommitUncertain e)).
Proof.
  intros Hr Hroot Hp Hwm. run_cases Hr; quiet_step R Hs.
  2: { left. exists e. split; [done|]. split; [by eapply certain_rq_check|done]. }
  unfold io in Hr. run_cases Hr.
  2: { apply remove_file_run in R0 as [(? & _)|(e & _ & Hs1 & _)]; [done|]. left. eexists. split; [done|].
       split; [done|by etrans]. }
  apply remove_file_run in R0 as [(_ & (n & Hn & Hne) & Hbec)|(e & ? & _)]; [|done].
  rewrite Hroot, Hp in *. apply became_trees in Hbec as (HD & HM & HU). simpl in *.
  right. rewrite <- (same_meta _ _ Hs) in Hwm.
  assert (∃ y, x = rmap (λ _, true) y ∧
    uncertainly (do? remove_metadata key in do? sync_dir data in rq_check rq session) s0 = (y, w')) as (y & -> & Hy).
  { apply bind_cases in Hr as [(u & w1 & Hu & [= <- ->])|(e & He & ->)]; [by exists (Ok u)|by exists (Err e)]. }
  apply delete_after in Hy as (HD1 & HU1 & HM1 & Hy); [|by rewrite HM]. rewrite HD, HM, HU in *. split.
  - eapply dropped_same; [done|]. unfold dropped. split; [done|]. split; [congruence|done].
  - destruct Hy as [[-> ?]|[e ->]]; [by left|]. right. by exists e.
Qed.
Lemma delete_conditions_run cfg session key if_match_ rq w x w' :
  match if_match_ with
  | Some v =>
      let? current := current_etag cfg session key rq in
      lift_result (conditions_check {| if_match := Some v; if_none_match := None |} current)
  | None => ret tt
  end w = (x, w') → tree_wf (fw_data w) → tree_wf (fw_meta w) →
  same_trees w w' ∧ ((∃ e, x = Err e ∧ is_uncertain e = false) ∨
    x = Ok tt ∧ conditions_check (delete_conditions if_match_) (tag_at w key) = Ok tt).
Proof.
  intros Hr. apply (check_conditions_run cfg session key (delete_conditions if_match_) rq).
  by destruct if_match_.
Qed.
Lemma delete_locked_run cfg session key if_match_ rq w x w' :
  delete_locked cfg session key if_match_ rq w = (x, w') → tree_wf (fw_data w) → tree_wf (fw_meta w) →
  (∃ e, x = Err e ∧ is_uncertain e = false ∧ same_trees w w') ∨
  conditions_check (delete_conditions if_match_) (tag_at w key) = Ok tt ∧
  (x = Ok false ∧ same_trees w w' ∧ fw_data w !! kpath key = None ∨
   dropped key w w' ∧ (x = Ok true ∧ fw_meta w' !! kpath key = None ∨ ∃ e, x = Err (FS_CommitUncertain e))).
Proof.
  unfold delete_locked. intros Hr Hwd Hwm.
  run_cases Hr; (apply delete_conditions_run in R as [Hs Hc]; [|done..]).
  2: { destruct Hc as [(e' & [= <-] & He)|[? _]]; [|done]. left. eauto. }
  destruct Hc as [(e & ? & _)|[_ Hc]]; [done|].
  apply bind_cases in Hr as [(p & s1 & R%outcome_run & Hr)|(e & R & _)]; [|by unfold outcome in R; destruct (parent _ _ _ _)].
  quiet_step R Hs1. assert (same_trees w s1) as Hs2 by (by etrans). pose proof (certain_parent RData key false s) as Hcp.
  pose proof R as [Hl Hnf]%parent_find. simpl in Hnf. rewrite (same_data _ _ Hs) in Hnf.
  destruct p as [[data name]|e].
  2: { assert (w' = s1) as -> by (by destruct e; injection Hr as _ <-).
       assert (e = FS_NotFound ∧ x = Ok false ∨ x = Err e) as [[-> ->]| ->]
         by (destruct e; injection Hr as <-; auto).
       - right. split; [done|]. left. split; [done|]. split; [done|]. by apply Hnf.
       - left. exists e. split; [done|]. split; [by eapply Hcp|done]. }
  destruct (Hl _ _ eq_refl) as (Hroot & Hp & _). clear Hl Hnf.
  apply bind_cases in Hr as [(m & s2 & R1%outcome_run & Hr)|(e & R1 & _)]; [|by unfold outcome in R1; destruct (stat _ _ _)].
  quiet_step R1 Hs3. apply node_at_run in R1 as [Hn Hnf]. rewrite Hroot, Hp in *. simpl in Hn, Hnf.
  rewrite (same_data _ _ Hs2) in *. assert (same_trees w s2) as Hs4 by (by etrans).
  destruct m as [n|e].
  2: { assert (w' = s2) as -> by (by destruct e; injection Hr as _ <-).
       destruct e; injection Hr as <-; try (left; eauto; done). right. split; [done|]. left. auto. }
  destruct (negb (is_file n)); [injection Hr as <- <-; left; eauto|].
  apply delete_found_run in Hr as [(e & -> & He & Hs5)|[Hd Hx]]; [..|done|done|by rewrite (same_meta _ _ Hs4)].
  - left. exists e. split; [done|]. split; [done|by etrans].
  - right. split; [done|]. right. split; [by eapply dropped_same|done].
Qed.
(** What a deletion comes to. *)
Definition delete_outcome (key : string) (if_match_ : option string) (w : World)
    (x : result FilesystemStoreError unit) (w' : World) : Prop :=
  tree_wf (fw_data w') ∧ tree_wf (fw_meta w') ∧ fw_multi w' = fw_multi w ∧
  match x with
  | Err e => if is_uncertain e
             then objects (fw_data w') = delete (kpath key) (objects (fw_data w)) ∧
                  conditions_check (delete_conditions if_match_) (tag_at w key) = Ok tt
             else same_trees w w'
  | Ok _ => objects (fw_data w') = delete (kpath key) (objects (fw_data w)) ∧
            conditions_check (delete_conditions if_match_) (tag_at w key) = Ok tt ∧ fw_data w' !! kpath key = None
  end.
Lemma dropped_wf key w w' : dropped key w w' → tree_wf (fw_data w) → tree_wf (fw_meta w) →
  tree_wf (fw_data w') ∧ tree_wf (fw_meta w') ∧ fw_multi w' = fw_multi w.
Proof.
  intros (HD & Hn & HU & HM) Hwd Hwm. rewrite HD. split; [by apply tree_wf_delete_leaf|]. split; [|done].
  destruct HM as [->|[-> ?]]; [done|by apply tree_wf_delete_leaf].
Qed.
Lemma objects_absent p t : t !! p = None → objects t = delete p (objects t).
Proof. intros Hn. rewrite delete_id; [done|]. unfold objects. by rewrite lookup_omap, Hn. Qed.
Lemma dropped_outcome key if_match_ w x w' :
  dropped key w w' → conditions_check (delete_conditions if_match_) (tag_at w key) = Ok tt →
  tree_wf (fw_data w) → tree_wf (fw_meta w) → (x = Ok tt ∨ ∃ e, x = Err (FS_CommitUncertain e)) →
  delete_outcome key if_match_ w x w'.
Proof.
  intros Hd Hc Hwd Hwm Hx. destruct (dropped_wf _ _ _ Hd Hwd Hwm) as (? & ? & ?). do 3 (split; [done|]).
  destruct Hd as (HD & _). assert (objects (fw_data w') = delete (kpath key) (objects (fw_data w))) as Ho
    by (by rewrite HD, removed_objects).
  destruct Hx as [->|[e ->]]; [|done]. split; [done|]. split; [done|]. rewrite HD. apply lookup_delete_eq.
Qed.
Lemma delete_under_lock cfg session key if_match_ rq w0 w x w' :
  (do? lock rq session in delete_locked cfg session key if_match_ rq) w = (x, w') → same_trees w0 w →
  tree_wf (fw_data w0) → tree_wf (fw_meta w0) →
  (∃ e, x = Err e ∧ is_uncertain e = false ∧ same_trees w0 w') ∨
  conditions_check (delete_conditions if_match_) (tag_at w0 key) = Ok tt ∧
  (x = Ok false ∧ same_trees w0 w' ∧ fw_data w0 !! kpath key = None ∨
   dropped key w0 w' ∧ (x = Ok true ∧ fw_meta w' !! kpath key = None ∨ ∃ e, x = Err (FS_CommitUncertain e))).
Proof.
  intros Hr Hs0 Hwd Hwm. run_cases Hr; quiet_step R Hs1; assert (same_trees w0 _) as Hs by (etrans; [exact Hs0|exact Hs1]).
  2: { left. exists e. split; [done|]. split; [by eapply certain_lock|done]. }
  apply delete_locked_run in Hr; [|by rewrite ?(same_data _ _ Hs), ?(same_meta _ _ Hs)..].
  rewrite (tag_at_same _ _ key Hs), (same_data _ _ Hs) in Hr.
  destruct Hr as [(e & -> & He & Hs2)|(Hc & [(-> & Hs2 & Hn)|[Hd Hx]])].
  - left. exists e. split; [done|]. split; [done|by etrans].
  - right. split; [done|]. left. split; [done|]. split; [by etrans|done].
  - right. split; [done|]. right. split; [by eapply dropped_same|done].
Qed.
Lemma delete_inner_run cfg session key if_match_ rq w x w' :
  tree_wf (fw_data w) → tree_wf (fw_meta w) →
  delete_inner cfg session key if_match_ rq w = (x, w') →
  delete_outcome key if_match_ w x w' ∧ (¬ same_trees w w' → authorized cfg session OpDelete key).
Proof.
  intros Hwd Hwm. unfold delete_inner. intros Hr.
  assert (∀ e w1, same_trees w w1 → is_uncertain e = false → delete_outcome key if_match_ w (Err e) w1) as Hnone.
  { intros e w1 Hs He. unfold delete_outcome. rewrite He, (same_data _ _ Hs), (same_meta _ _ Hs), (same_multi _ _ Hs). done. }
  run_cases Hr; quiet_step R Hs.
  2: { split; [|done]. apply Hnone; [done|by eapply certain_authorize]. }
  apply authorize_ok in R. split; [|done].
  apply bind_cases in Hr as [(r & s1 & Hm%outcome_run & Hr)|(e & He & _)];
    [|by unfold outcome in He; destruct (bind _ _ s)].
  apply (delete_under_lock _ _ _ _ _ w) in Hm; [|done..].
  destruct Hm as [(e & -> & He & Hs1)|(Hc & [(-> & Hs1 & Hn)|[Hd [[-> _]|[e ->]]]])].
  - rewrite He in Hr. run_cases Hr; quiet_step R0 Hs2.
    + injection Hr as <- <-. apply Hnone; [etrans; [exact Hs1|done]|done].
    + apply Hnone; [etrans; [exact Hs1|done]|by eapply certain_rq_check].
  - quiet_step Hr Hs2. assert (same_trees w w') as Hs3 by (etrans; [exact Hs1|done]). destruct x as [u|e].
    + unfold delete_outcome. rewrite (same_data _ _ Hs3), (same_meta _ _ Hs3), (same_multi _ _ Hs3).
      do 3 (split; [done|]). split; [by apply objects_absent|done].
    + apply Hnone; [done|by eapply certain_rq_check].
  - quiet_step Hr Hs2. apply dropped_outcome; [eapply same_dropped; done|done..|].
    destruct x as [[]|e]; [by left|]. right. apply map_err_err in Hr as (e0 & _ & ->). eauto.
  - injection Hr as <- <-. apply dropped_outcome; [done..|]. eauto.
Qed.
(** Deleting an object removes it from the map from keys to contents, or
    reports that nothing happened.  On success no object is left under the key,
    no other object changed and the condition, when one is given, held of the
    current entity tag; the same holds of the objects when the commit is
    uncertain; any other error leaves the trees as they were.  Nothing changes
    without the authority to delete the key. *)
Theorem delete_refines cfg session key if_match_ rq w x w' :
  tree_wf (fw_data w) → tree_wf (fw_meta w) →
  delete_inner cfg session key if_match_ rq w = (x, w') →
  delete_outcome key if_match_ w x w' ∧ (¬ same_trees w w' → authorized cfg session OpDelete key).
Proof. apply delete_inner_run. Qed.

(** ** Reading *)

Lemma then_check_ok {A} rq session (m : FsM A) w a w' :
  then_check rq session m w = (Ok a, w') → ∃ w1, m w = (Ok a, w1).
Proof.
  unfold then_check. intros Hr. invert_run Hr. select (outcome _ _ = _) (fun Ho => apply outcome_run in Ho).
  injection Hr as -> _. eauto.
Qed.
Lemma quiet_head {R} `{!QuietRel R} cfg session key rq : keeps R (head_object cfg session key rq).
Proof. unfold head_object. auto 30 with broker. Qed.
Lemma head_ok cfg session key rq w info w' :
  head_object cfg session key rq w = (Ok info, w') → tree_wf (fw_meta w) →
  ∃ file, file_at (fw_data w) key = Some file ∧ info = info_of w key file.
Proof.
  unfold head_object. intros Hr Hwm. apply bind_ok in Hr as (u & w1 & Ha & Hr). quiet_step Ha Hs1.
  apply then_check_ok in Hr as (w2 & Hr). apply bind_ok in Hr as (u2 & w3 & Hl & Hr). quiet_step Hl Hs2.
  apply bind_ok in Hr as (file & w4 & Hf & Hd). quiet_step Hf Hs3. apply data_file_run in Hf as [Hf _].
  specialize (Hf _ eq_refl). assert (same_trees w w3) as Hw3 by (by etrans). assert (same_trees w w4) as Hw4 by (by etrans).
  apply describe_ok in Hd; [|by rewrite (same_meta _ _ Hw4)]. exists file.
  rewrite (same_data _ _ Hw3) in Hf. split; [done|]. rewrite Hd. unfold info_of, meta_at. by rewrite (same_meta _ _ Hw4).
Qed.
(** A range read stays inside the object.  The reader is given the file of
    the object as it is, the description of that very file, and a window inside
    it: all of it without a range, and otherwise the requested range cut at the
    end of the object, which is not empty; the subtraction that computes its
    length does not underflow.  Reading changes nothing and needs the authority
    to read the key. *)
Theorem open_range_bounds cfg session key range rq w r w' :
  tree_wf (fw_meta w) → (∀ start stop, range = Some (start, stop) → 0 ≤ start ∧ 0 ≤ stop)%Z →
  open_range cfg session key range rq w = (Ok r, w') →
  authorized cfg session OpRead key ∧ same_trees w w' ∧
  (∃ modified, file_at (fw_data w) key = Some (or_content r, modified) ∧
     or_info r = info_of w key (or_content r, modified)) ∧
  (0 ≤ or_offset r ∧ 0 ≤ or_length r ∧ or_offset r + or_length r ≤ len (or_content r))%Z ∧
  match range with
  | None => or_offset r = 0%Z ∧ or_length r = len (or_content r)
  | Some (start, stop) =>
      or_offset r = start ∧ (0 < or_length r)%Z ∧ (or_offset r + or_length r = Z.min stop (len (or_content r)))%Z
  end.
Proof.
  intros Hwm Hrange Hr.
  assert (same_trees w w') as Hsame by (unfold open_range in Hr; by quiet_step Hr Hq).
  unfold open_range in Hr. apply bind_ok in Hr as (u & w1 & Ha & Hr). quiet_step Ha Hs1.
  apply authorize_ok in Ha. split; [done|]. split; [done|].
  apply then_check_ok in Hr as (w2 & Hr). apply bind_ok in Hr as (u2 & w3 & Hl & Hr). quiet_step Hl Hs2.
  apply bind_ok in Hr as (file & w4 & Hf & Hr). quiet_step Hf Hs3. apply data_file_run in Hf as [Hf _].
  specialize (Hf _ eq_refl). apply bind_ok in Hr as (info & w5 & Hd & Hr).
  assert (same_trees w w3) as Hw3 by (by etrans). assert (same_trees w w4) as Hw4 by (by etrans).
  apply describe_ok in Hd; [|by rewrite (same_meta _ _ Hw4)].
  apply bind_ok in Hr as ([offset length] & w6 & Hwin & Hr). invert_run Hr. simpl.
  destruct file as [content modified]. rewrite (same_data _ _ Hw3) in Hf. simpl. split.
  { exists modified. split; [done|]. unfold info_of, meta_at. by rewrite (same_meta _ _ Hw4). }
  assert (0 ≤ len content)%Z by (unfold len; lia).
  destruct range as [[start stop]|]; [|injection Hwin as <- <- _; simpl; lia].
  destruct (Hrange _ _ eq_refl). destruct ((_ <? _)%Z && _) eqn:Ew; [|done]. injection Hwin as <- <- _.
  bool_to_prop. simpl in *. lia.
Qed.

(** ** Runs without faults

    While no system call fails, the session has not expired and the request is
    neither late nor cancelled, reading operations succeed. *)

Section calm.
Context (rq : FilesystemRequest) (session : VerifiedFilesystemSession).
Record calm (w : World) : Prop := {
  cm_faults : Forall (.= false) (fw_faults w);
  cm_mono n : tick (fw_clock w) ≤ n → (mono_at (fw_clock w) n < Z.min (vs_deadline session) (rq_deadline rq))%Z;
  cm_utc n : tick (fw_clock w) ≤ n → (0 ≤ utc_at (fw_clock w) n < vs_expiry session)%Z;
  cm_live n : tick (fw_clock w) ≤ n → rq_cancelled rq n = false;
}.
(** [m] gives [a] from [w] and leaves the trees alone. *)
Definition gives {E A} (m : M World E A) (w : World) (a : A) : Prop :=
  ∃ w', m w = (Ok a, w') ∧ same_trees w w' ∧ calm w'.
Lemma gives_ret {E A} (a : A) w : calm w → gives (E:=E) (ret a) w a.
Proof. intros Hc. by exists w. Qed.
Lemma gives_bind {E A B} (m : M World E A) (k : A → M World E B) w a b :
  gives m w a → (∀ w', same_trees w w' → calm w' → gives (k a) w' b) → gives (bind m k) w b.
Proof.
  intros (w1 & Hm & Hs & Hc) Hk. destruct (Hk w1 Hs Hc) as (w2 & Hk2 & Hs2 & Hc2).
  exists w2. split; [by rewrite (bind_run _ _ _ _ _ Hm)|]. split; [by etrans|done].
Qed.
Lemma gives_map_err {E F A} (f : E → F) (m : M World E A) w a : gives m w a → gives (map_err f m) w a.
Proof. intros (w1 & Hm & ?). exists w1. unfold map_err. by rewrite Hm. Qed.
Lemma gives_outcome {E F A} (m : M World E A) w a : gives m w a → gives (E:=F) (outcome m) w (Ok a).
Proof. intros (w1 & Hm & ?). exists w1. unfold outcome. by rewrite Hm. Qed.
Lemma calm_fault w : calm w → default false (head (fw_faults w)) = false ∧ calm (next_fault w).
Proof.
  intros [Hf Hm Hu Hl]. split; [by destruct Hf|]. split; try done. simpl. by destruct Hf; [constructor|].
Qed.
Lemma gives_sys {A} (m : M World io_error A) w a : calm w → gives m (next_fault w) a → gives (sys m) w a.
Proof.
  intros [Hf _]%calm_fault (w1 & Hm & Hs & Hc). exists w1. unfold sys. rewrite Hf. split; [done|].
  split; [|done]. etrans; [apply same_next_fault|done].
Qed.
Lemma gives_plain w : calm w → gives (io plain) w tt.
Proof. intros Hc. apply gives_map_err, gives_sys; [done|]. by apply gives_ret, calm_fault. Qed.
Lemma calm_clock w c : calm w → clock_run (fw_clock w) c → calm (set_clock w c).
Proof.
  intros [Hf Hm Hu Hl] [Em Eu Et]. split; simpl; [done|..]; intros n Hn; rewrite ?Em, ?Eu.
  - apply Hm. lia.
  - apply Hu. lia.
  - apply Hl. lia.
Qed.
Lemma gives_clock {E A} (m : M clock E A) w a c :
  calm w → m (fw_clock w) = (Ok a, c) → clock_run (fw_clock w) c → gives (on_clock m) w a.
Proof.
  intros Hc Hm Hr. exists (set_clock w c). unfold on_clock. rewrite Hm. split; [done|].
  split; [by intros []|by apply calm_clock].
Qed.
Lemma calm_check w original :
  calm w → (Z.min (vs_deadline session) (rq_deadline rq) ≤ original)%Z →
  ∃ c, vs_check session original (fw_clock w) = (Ok tt, c) ∧ clock_run (fw_clock w) c.
Proof.
  intros [_ Hm Hu _] Ho. eexists. split.
  - apply vs_check_passes.
    + specialize (Hm (tick (fw_clock w)) ltac:(lia)). lia.
    + apply Hu. lia.
    + specialize (Hm (S (S (tick (fw_clock w)))) ltac:(lia)). lia.
  - split; simpl; [done..|lia].
Qed.
Lemma gives_rq_check w : calm w → gives (rq_check rq session) w tt.
Proof.
  intros Hc. destruct (calm_check w (rq_deadline rq) Hc) as (c & Hv & Hr); [lia|].
  eapply gives_bind; [eapply gives_clock; [done| |done]; unfold map_err; by rewrite Hv|].
  intros w' _ Hc'. exists w'. split; [|done]. destruct Hc' as [_ _ _ Hl]. by rewrite Hl.
Qed.
Lemma gives_lock_attempts n w : calm w → gives (lock_attempts rq session n) w tt.
Proof.
  revert w. induction n as [|n IH]; intros w Hc; (eapply gives_bind; [by apply gives_rq_check|]); intros w' _ Hc'.
  - by apply gives_rq_check.
  - by apply IH.
Qed.
Lemma gives_lock w : calm w → gives (lock rq session) w tt.
Proof.
  intros Hc. destruct (gives_lock_attempts (default 0 (head (fw_waits w))) (next_wait w)) as (w1 & Hr & Hs & Hc1).
  - by destruct Hc.
  - exists w1. split; [done|]. split; [|done]. intros r. rewrite (Hs r). by destruct r.
Qed.
Lemma gives_authorize cfg op key w :
  calm w → authorized cfg session op key → gives (authorize cfg session rq op key) w tt.
Proof.
  intros Hc (Hb & Hk & Hcov). eapply gives_bind; [by apply gives_rq_check|]. intros w1 _ Hc1.
  rewrite Hb, str_eqb_refl, Hk. simpl. destruct (calm_check w1 (vs_deadline session) Hc1) as (c & Hv & Hr); [lia|].
  eapply (gives_bind _ _ _ true); [|intros w2 _ Hc2; by apply gives_ret].
  eapply gives_clock; [done| |done]. unfold vs_allows, bind, outcome. rewrite Hk. simpl. rewrite Hv. simpl. by rewrite Hcov.
Qed.
Lemma gives_node_at d name w n :
  calm w → tree_of w (d_root d) !! (d_path d ++ [name]) = Some n → gives (node_at d name) w n.
Proof.
  intros Hc Hn. apply gives_sys; [done|]. exists (next_fault w). rewrite tree_next_fault, Hn.
  split; [done|]. split; [done|]. by apply calm_fault.
Qed.
Lemma gives_open_dir d name w :
  calm w → tree_of w (d_root d) !! (d_path d ++ [name]) = Some NDir → gives (open_dir d name) w (below d name).
Proof.
  intros Hc Hn. eapply gives_bind; [by apply gives_node_at|]. intros w' _ Hc'. by apply gives_ret.
Qed.
Lemma gives_parent_from d init name w n :
  calm w → tree_wf (tree_of w (d_root d)) → tree_of w (d_root d) !! (d_path d ++ init ++ [name]) = Some n →
  gives (parent_from d false (init ++ [name])) w ({| d_root := d_root d; d_path := d_path d ++ init |}, name).
Proof.
  revert d w. induction init as [|part init IH]; intros d w Hc Hwf Hn.
  { rewrite app_nil_r. destruct d. by apply gives_ret. }
  assert (tree_of w (d_root d) !! (d_path d ++ [part]) = Some NDir) as Hdir.
  { simpl in Hn. rewrite (cons_middle part), (assoc_L (++)) in Hn. apply tree_wf_prefix in Hn; [|done|by destruct init].
    by destruct (d_path d ++ [part]) eqn:E; [destruct (d_path d)|]. }
  simpl. destruct (init ++ [name]) as [|x l] eqn:E; [by destruct init|]. rewrite <- E in *.
  eapply gives_bind; [by apply gives_map_err, gives_open_dir|]. intros w' Hs Hc'.
  rewrite (cons_middle part), (assoc_L (++)). apply (IH (below d part)); [done| |]; simpl; rewrite (Hs (d_root d)); [done|].
  by rewrite <- app_assoc.
Qed.
Lemma gives_parent r key w n :
  calm w → valid_key key = true → tree_wf (tree_of w r) → tree_of w r !! kpath key = Some n →
  ∃ init name, kpath key = init ++ [name] ∧ gives (parent r key false) w ({| d_root := r; d_path := init |}, name).
Proof.
  intros Hc Hk Hwf Hn. destruct (kpath key) as [|name init _] eqn:E using rev_ind.
  { by destruct Hwf as [Hroot _]; rewrite Hroot in Hn. }
  exists init, name. split; [done|]. unfold parent. rewrite Hk. simpl.
  eapply gives_bind; [by apply gives_plain|]. intros w' Hs Hc'. rewrite E.
  eapply (gives_parent_from {| d_root := r; d_path := [] |}); simpl; rewrite ?(Hs r); done.
Qed.
Lemma gives_open_file d name w content modified :
  calm w → tree_of w (d_root d) !! (d_path d ++ [name]) = Some (NFile content modified) →
  gives (open_file d name) w (NFile content modified).
Proof.
  intros Hc Hn. eapply gives_bind; [by apply gives_node_at|]. intros w' _ Hc'. by apply gives_ret.
Qed.
Lemma file_at_Some t key content modified :
  file_at t key = Some (content, modified) → t !! kpath key = Some (NFile content modified).
Proof. unfold file_at. destruct (t !! _) as [[]|]; try done. by intros [= -> ->]. Qed.
Lemma gives_data_file key w content modified :
  calm w → valid_key key = true → tree_wf (fw_data w) → file_at (fw_data w) key = Some (content, modified) →
  gives (data_file key) w (content, modified).
Proof.
  intros Hc Hk Hwf Hn%file_at_Some.
  destruct (gives_parent RData key w _ Hc Hk Hwf Hn) as (init & name & Hp & Hg).
  eapply gives_bind; [done|]. intros w1 Hs1 Hc1. cbv beta iota. eapply gives_bind.
  { apply gives_map_err, gives_open_file; [done|]. simpl. by rewrite (same_data _ _ Hs1), <- Hp. }
  intros w2 _ Hc2. eapply gives_bind; [by apply gives_plain|]. intros w3 _ Hc3. by apply gives_ret.
Qed.
(** The metadata kept for a key can be read. *)
Definition readable (cfg : FilesystemStoreConfig) (w : World) (key : string) : Prop :=
  ∃ content modified m, file_at (fw_meta w) key = Some (content, modified) ∧
    (len content ≤ sc_metadata_bytes cfg)%Z ∧ metadata_from_slice content = Some m ∧ metadata_valid m.1 = true.
Lemma gives_metadata cfg key w :
  calm w → valid_key key = true → tree_wf (fw_meta w) → readable cfg w key →
  gives (metadata cfg key) w (meta_at w key).
Proof.
  intros Hc Hk Hwf (content & modified & [ct derived] & Hf & Hlen & Hm & Hv). unfold meta_at. rewrite Hf, Hm.
  apply file_at_Some in Hf. destruct (gives_parent RMeta key w _ Hc Hk Hwf Hf) as (init & name & Hp & Hg).
  eapply gives_bind; [by apply gives_outcome|]. intros w1 Hs1 Hc1. cbv beta iota. eapply gives_bind.
  { apply gives_outcome, gives_open_file; [done|]. simpl. by rewrite (same_meta _ _ Hs1), <- Hp. }
  intros w2 _ Hc2. eapply gives_bind; [by apply gives_plain|]. intros w3 _ Hc3. eapply gives_bind.
  { eapply gives_bind; [by apply gives_plain|]. intros w4 _ Hc4. cbv zeta.
    rewrite take_ge; [|rewrite length_bytes; unfold len in Hlen; lia].
    rewrite of_bytes_bytes. destruct (Z.ltb_spec (sc_metadata_bytes cfg) (len content)); [lia|]. by apply gives_ret. }
  intros w4 _ Hc4. eapply (gives_bind _ _ _ (ct, derived)); [rewrite Hm; by exists w4|].
  intros w5 _ Hc5. cbv beta iota. simpl in Hv. rewrite Hv. by apply gives_ret.
Qed.
Lemma gives_hash_chunks acc chunks w :
  calm w → gives (hash_chunks rq session acc chunks) w (acc +:+ foldr String.append "" chunks).
Proof.
  revert acc w. induction chunks as [|chunk chunks IH]; intros acc w Hc; cbn [hash_chunks foldr];
    (eapply gives_bind; [by apply gives_rq_check|]); intros w1 _ Hc1;
    (eapply gives_bind; [by apply gives_plain|]); intros w2 _ Hc2.
  - rewrite str_app_nil_r. by apply gives_ret.
  - rewrite <- str_app_assoc. by apply IH.
Qed.
Lemma gives_describe cfg key file w :
  calm w → valid_key key = true → tree_wf (fw_meta w) → readable cfg w key →
  gives (describe cfg key file session rq) w (info_of w key file).
Proof.
  intros Hc Hk Hwf Hread. unfold describe, info_of. destruct file as [content modified].
  eapply gives_bind; [by apply gives_rq_check|]. intros w1 Hs1 Hc1.
  eapply gives_bind; [by apply gives_plain|]. intros w2 Hs2 Hc2.
  eapply gives_bind; [by apply gives_plain|]. intros w3 Hs3 Hc3.
  assert (same_trees w w3) as Hs by (etrans; [exact Hs1|by etrans]).
  eapply (gives_bind _ _ _ (meta_at w key)).
  { unfold meta_at. rewrite <- (same_meta _ _ Hs). apply gives_metadata; [done|done|by rewrite (same_meta _ _ Hs)|].
    unfold readable. by rewrite (same_meta _ _ Hs). }
  intros w4 _ Hc4. cbv beta zeta. eapply gives_bind.
  { instantiate (1 := default (etag (sha256 content)) (meta_at w key ≫= λ m, cached_etag m.2 (len content) modified)).
    destruct (meta_at w key ≫= λ m, cached_etag m.2 (len content) modified); [by apply gives_ret|].
    eapply gives_bind; [by apply gives_plain|]. intros w5 _ Hc5.
    eapply gives_bind; [by apply gives_hash_chunks|]. intros w6 _ Hc6. simpl. rewrite file_chunks_concat. by apply gives_ret. }
  intros w5 _ Hc5. eapply gives_bind; [by apply gives_plain|]. intros w6 _ Hc6.
  eapply gives_bind; [by apply gives_rq_check|]. intros w7 _ Hc7. by apply gives_ret.
Qed.
Lemma gives_then_check {A} (m : FsM A) w a : gives m w a → gives (then_check rq session m) w a.
Proof.
  intros Hm. eapply gives_bind; [by apply gives_outcome|]. intros w1 _ Hc1.
  eapply gives_bind; [by apply gives_rq_check|]. intros w2 _ Hc2. by exists w2.
Qed.
(** The object under a key, as it is described and opened. *)
Lemma gives_head cfg key w file :
  calm w → authorized cfg session OpRead key → tree_wf (fw_data w) → tree_wf (fw_meta w) → readable cfg w key →
  file_at (fw_data w) key = Some file → gives (head_object cfg session key rq) w (info_of w key file).
Proof.
  intros Hc Hauth Hwd Hwm Hread Hf. pose proof Hauth as (_ & Hk & _). destruct file as [content modified].
  eapply gives_bind; [by apply gives_authorize|]. intros w1 Hs1 Hc1. apply gives_then_check.
  eapply gives_bind; [by apply gives_lock|]. intros w2 Hs2 Hc2. assert (same_trees w w2) as Hs by (by etrans).
  eapply gives_bind; [apply gives_data_file; [done|done|by rewrite (same_data _ _ Hs)|by rewrite (same_data _ _ Hs)]|].
  intros w3 Hs3 Hc3. assert (same_trees w w3) as Hs' by (by etrans).
  replace (info_of w key (content, modified)) with (info_of w3 key (content, modified))
    by (unfold info_of, meta_at; by rewrite (same_meta _ _ Hs')).
  apply gives_describe; [done|done|by rewrite (same_meta _ _ Hs')|]. unfold readable. by rewrite (same_meta _ _ Hs').
Qed.
Lemma gives_open cfg key w content modified :
  calm w → authorized cfg session OpRead key → tree_wf (fw_data w) → tree_wf (fw_meta w) → readable cfg w key →
  file_at (fw_data w) key = Some (content, modified) →
  gives (open_range cfg session key None rq) w
    {| or_content := content; or_info := info_of w key (content, modified); or_offset := 0; or_length := len content |}.
Proof.
  intros Hc Hauth Hwd Hwm Hread Hf. pose proof Hauth as (_ & Hk & _).
  eapply gives_bind; [by apply gives_authorize|]. intros w1 Hs1 Hc1. apply gives_then_check.
  eapply gives_bind; [by apply gives_lock|]. intros w2 Hs2 Hc2. assert (same_trees w w2) as Hs by (by etrans).
  eapply gives_bind; [apply gives_data_file; [done|done|by rewrite (same_data _ _ Hs)|by rewrite (same_data _ _ Hs)]|].
  intros w3 Hs3 Hc3. assert (same_trees w w3) as Hs' by (by etrans).
  replace (info_of w key (content, modified)) with (info_of w3 key (content, modified))
    by (unfold info_of, meta_at; by rewrite (same_meta _ _ Hs')).
  eapply gives_bind.
  { apply gives_describe; [done|done|by rewrite (same_meta _ _ Hs')|]. unfold readable. by rewrite (same_meta _ _ Hs'). }
  intros w4 _ Hc4. eapply gives_bind; [by apply gives_ret|]. intros w5 _ Hc5.
  eapply gives_bind; [by apply gives_plain|]. intros w6 _ Hc6. by apply gives_ret.
Qed.
End calm.

(** ** Reading back what was written *)

Lemma hex_bytes_spec l :
  length (l ≫= hex_byte) = 2 * length l ∧ forallb is_ascii_hexdigit (l ≫= hex_byte) = true.
Proof.
  induction l as [|b l [IHl IHh]]; [done|]. cbn [mbind list_bind]. rewrite length_app, forallb_app, IHl, IHh. split.
  - assert (length (hex_byte b) = 2) as -> by done. simpl. lia.
  - by destruct b as [[] [] [] [] [] [] [] []].
Qed.
Lemma etag_valid hash : String.length hash = 32 → valid_etag (etag hash) = true.
Proof.
  intros Hlen. destruct (hex_bytes_spec (bytes hash)) as [Hl Hh]. rewrite length_bytes, Hlen in Hl.
  unfold valid_etag, etag, first_byte, last_byte, len. rewrite <- length_bytes, bytes_of_bytes, !andb_true_iff.
  split; [split; [split|]|].
  - apply Z.eqb_eq. cbn [length]. by rewrite length_app, Hl.
  - done.
  - rewrite app_comm_cons. by rewrite rev_app_distr.
  - change (forallb is_ascii_hexdigit (take 64 ((bytes hash ≫= hex_byte) ++ ["034"%char])) = true).
    by rewrite take_app_length' by (by rewrite Hl).
Qed.
Section laws.
Context `{!StoreLaws}.
(** The cached description of an object just written is its own. *)
Lemma cached_derived info data :
  oi_etag info = etag (sha256 data) → oi_size info = len data → (len data ≤ U64_MAX)%Z →
  default (etag (sha256 data)) (cached_etag (derived_value info) (len data) (oi_modified info)) = etag (sha256 data).
Proof.
  intros He Hs Hu. unfold cached_etag, derived_value. destruct (jv_time (oi_modified info)) as [t|]; [|done]. simpl.
  rewrite law_get_etag. simpl. rewrite law_string_str. simpl. rewrite He, Hs, law_get_size, law_get_modified by (unfold len in *; lia).
  simpl. rewrite etag_valid by apply law_sha256. by rewrite Z.eqb_refl, law_eqb.
Qed.
Lemma authored_valid ct : (∀ s, ct = Some s → header s = true) → metadata_valid (authored_type ct) = true.
Proof.
  intros Hh. unfold metadata_valid, authored_type. destruct ct as [c|].
  - rewrite law_string_str. simpl. rewrite (Hh c) by done. by rewrite orb_true_r.
  - by rewrite law_is_null.
Qed.
Lemma put_ok cfg session key body ct dg conditions rq w info w1 :
  put_object cfg session key body ct dg conditions rq w = (Ok info, w1) → tree_wf (fw_data w) → tree_wf (fw_meta w) →
  ∃ data po, body_data body = Some data ∧ staged cfg key ct dg data po ∧ info = po_info po ∧
    fw_data w1 !! kpath key = Some (NFile data (oi_modified info)) ∧
    fw_meta w1 !! kpath key = Some (NFile (po_metadata po) (oi_modified info)).
Proof.
  unfold put_object. intros Hr Hwd Hwm. apply bind_ok in Hr as (u & s & R & Hr). quiet_step R Hs.
  apply finish_write_run in Hr as (y & w2 & Hm & Hs2 & Hx).
  apply put_inner_run in Hm; [|by rewrite ?(same_data _ _ Hs), ?(same_meta _ _ Hs)..].
  destruct y as [info'|e]; [|destruct (is_uncertain e); [done|by destruct Hx as (? & ? & _)]].
  destruct Hx as [[= <-]|[e ?]]; [|done]. destruct Hm as [(e & ? & _)|(data & po & w3 & Hb & Hst & _ & Hp)]; [done|].
  exists data, po. split; [done|]. split; [done|]. inversion Hp as [| |x w4 _ Hd Hmeta _ Hx]; subst.
  destruct Hx as [[= ->]|[e ?]]; [|done]. split; [done|]. destruct Hst as [<- _].
  rewrite (same_data _ _ Hs2), (same_meta _ _ Hs2). by rewrite (stored_lookup _ _ _ _ _ Hd), (stored_lookup _ _ _ _ _ Hmeta).
Qed.
(** What was written is read back: once a write of an object has
    succeeded, then in any later volume with the same two files under the key,
    and whichever session may read it, describing the object returns exactly
    the description the writer was given, and opening it gives exactly the body.
    The reads do return, while no system call fails and the session is live. *)
Theorem put_then_read cfg session key body ct dg conditions rq w info w1 :
  tree_wf (fw_data w) → tree_wf (fw_meta w) → (sc_max_object_bytes cfg ≤ U64_MAX)%Z →
  put_object cfg session key body ct dg conditions rq w = (Ok info, w1) →
  ∀ session' rq' w2,
    tree_wf (fw_data w2) → tree_wf (fw_meta w2) →
    fw_data w2 !! kpath key = fw_data w1 !! kpath key → fw_meta w2 !! kpath key = fw_meta w1 !! kpath key →
    authorized cfg session' OpRead key → calm rq' session' w2 →
    ∃ data w3 w4, body_data body = Some data ∧
      head_object cfg session' key rq' w2 = (Ok info, w3) ∧
      open_range cfg session' key None rq' w2 =
        (Ok {| or_content := data; or_info := info; or_offset := 0; or_length := len data |}, w4).
Proof.
  intros Hwd Hwm Hmax Hput session' rq' w2 Hwd2 Hwm2 HD HM Hauth Hc.
  destruct (put_ok _ _ _ _ _ _ _ _ _ _ _ Hput Hwd Hwm) as (data & po & Hb & Hst & -> & HD1 & HM1).
  rewrite HD1 in HD. rewrite HM1 in HM.
  destruct Hst as [_ Hsize Hbound Htag Htype Hmeta Hfits Hhead _].
  assert (file_at (fw_data w2) key = Some (data, oi_modified (po_info po))) as Hf by (unfold file_at; by rewrite HD).
  assert (meta_at w2 key = Some (authored_type ct, derived_value (po_info po))) as Hm.
  { unfold meta_at, file_at. rewrite HM. by apply law_metadata. }
  assert (readable cfg w2 key) as Hread.
  { do 3 eexists. split; [unfold file_at; by rewrite HM|]. split; [done|]. split; [by apply law_metadata|].
    by apply authored_valid. }
  assert (info_of w2 key (data, oi_modified (po_info po)) = po_info po) as Hinfo.
  { unfold info_of. rewrite Hm. simpl. rewrite cached_derived by (done || unfold U64_MAX in *; lia).
    destruct (po_info po) as [size tag type modified]. simpl in *. subst. f_equal.
    unfold authored_type. destruct ct; by rewrite ?law_string_str, ?law_null_str. }
  pose proof (gives_head rq' session' cfg key w2 _ Hc Hauth Hwd2 Hwm2 Hread Hf) as (w3 & Hh & _).
  pose proof (gives_open rq' session' cfg key w2 _ _ Hc Hauth Hwd2 Hwm2 Hread Hf) as (w4 & Ho & _).
  rewrite Hinfo in *. exists data, w3, w4. done.
Qed.
End laws.
End objects.
#[export] Hint Resolve quiet_head : broker.

(** ** A concrete library and volume, for the examples *)

#[local] Existing Instance sample_ulid_lib.
#[local] Existing Instance sample_jwt_lib.
#[local] Existing Instance sample_session_lib.
Inductive sample_jv := JNull | JString (s : string) | JNumber (n : Z) | JDerived (tag : string) (size : Z) (time : sample_jv).
#[global] Instance sample_jv_eq_dec : EqDecision sample_jv.
Proof. solve_decision. Defined.
(** The content type, then the members of the derived value, in lines. *)
Definition sample_line : ascii := "010".
Definition sample_encode (content_type derived : sample_jv) : string :=
  join sample_line
    (match content_type with JString s => s | _ => "" end ::
     match derived with
     | JDerived tag size (JNumber time) => [tag; print_int size; print_int time]
     | _ => []
     end).
Definition sample_decode (s : string) : option (sample_jv * sample_jv) :=
  let ct s := if is_empty s then JNull else JString s in
  match split s sample_line with
  | [s] => Some (ct s, JNull)
  | [s; tag; size; time] =>
      size ← parse_int 0 U64_MAX size; time ← parse_int 0 U64_MAX time; Some (ct s, JDerived tag size (JNumber time))
  | _ => None
  end.
Definition sample_sha256 (s : string) : string := of_bytes (take 32 (bytes s ++ replicate 32 "0"%char)).
Definition sample_store_lib : StoreLib :=
  {| sha256 := sample_sha256; jv := sample_jv; jv_eqb := λ a b, bool_decide (a = b); jv_null := JNull;
     jv_string := JString; jv_is_null := λ v, bool_decide (v = JNull);
     jv_as_str := λ v, match v with JString s => Some s | _ => None end;
     jv_as_u64 := λ v, match v with JNumber n => Some n | _ => None end;
     jv_get := λ k v, match v with
       | JDerived tag size time =>
           if str_eqb k "etag" then Some (JString tag) else
           if str_eqb k "size" then Some (JNumber size) else
           if str_eqb k "modified" then Some time else None
       | _ => None
       end;
     jv_derived := JDerived; jv_time := λ t, Some (JNumber t);
     metadata_to_vec := λ ct d, let s := sample_encode ct d in
       if decide (sample_decode s = Some (ct, d)) then Some s else None;
     metadata_from_slice := sample_decode; header_value := λ _, true; mime_guess := λ _, "application/octet-stream" |}.
#[local] Existing Instance sample_store_lib.
Lemma sample_store_laws : StoreLaws.
Proof.
  split; try done.
  - intros s. simpl. unfold sample_sha256. rewrite <- length_bytes, bytes_of_bytes, length_take, length_app, length_replicate. lia.
  - intros ct d s. simpl. case_decide; [|done]. by intros [= <-].
  - intros t. simpl. by apply bool_decide_eq_true.
Qed.
Definition sample_cfg : FilesystemStoreConfig := {| sc_bucket := "bucket"; sc_max_object_bytes := 100; sc_metadata_bytes := 200 |}.
Definition sample_session : VerifiedFilesystemSession :=
  {| vs_payload := {| pl_access_key := "key"; pl_route := "primary"; pl_bucket := "bucket"; pl_region := "local";
       pl_subject := "local|alice-subject"; pl_scope := SS_Project sample_project; pl_module := "hub"; pl_revision := 7;
       pl_issued_at := 0; pl_expires_at := 900; pl_access := [["a"]; ["a"]; []; ["a"]] |};
     vs_scope := ScProject sample_project ModHub; vs_secret := "secret"; vs_deadline := 1000 |}.
Definition sample_request : FilesystemRequest := {| rq_deadline := 1000; rq_cancelled := λ _, false |}.
Definition sample_world : World :=
  {| fw_data := ∅; fw_meta := ∅; fw_multi := ∅; fw_clock := {| mono_at := λ _, 0%Z; utc_at := λ _, 5000%Z; tick := 0 |};
     fw_faults := []; fw_times := [77%Z; 78%Z; 79%Z]; fw_waits := [1] |}.
Definition no_conditions : FilesystemConditions := {| if_match := None; if_none_match := None |}.
Definition sample_conditions : FilesystemConditions := {| if_match := None; if_none_match := Some "*" |}.
Notation sample_put := (put_object sample_cfg sample_session "a/b" [Ok "he"; Ok "llo"] (Some "text/plain") None
  sample_conditions sample_request).
Definition sample_stored_world : World := (sample_put sample_world).2.
Lemma sample_calm : calm sample_request sample_session sample_stored_world.
Proof.
  split.
  - vm_compute. constructor.
  - intros n _. vm_compute. done.
  - intros n _. vm_compute. done.
  - done.
Qed.
Lemma put_refines_witness :
  ∃ x w', sample_put sample_world = (x, w') ∧ is_ok x = true ∧
    put_outcome sample_cfg "a/b" "hello" sample_conditions sample_world x w'.
Proof.
  assert (is_ok (sample_put sample_world).1 = true) as Hok by (vm_compute; reflexivity).
  destruct (sample_put sample_world) as [x w'] eqn:E. exists x, w'. split; [done|]. split; [exact Hok|].
  eapply (put_refines sample_cfg sample_session "a/b"); [by apply tree_wfb_wf|by apply tree_wfb_wf|exact E|done].
Defined.
Lemma delete_refines_witness :
  ∃ x w', delete_inner sample_cfg sample_session "a/b" (Some "*") sample_request sample_stored_world = (x, w') ∧
    is_ok x = true ∧ objects (fw_data w') = ∅.
Proof.
  assert (is_ok (delete_inner sample_cfg sample_session "a/b" (Some "*") sample_request sample_stored_world).1 = true)
    as Hok by (vm_compute; reflexivity).
  destruct (delete_inner sample_cfg sample_session "a/b" (Some "*") sample_request sample_stored_world) as [x w'] eqn:E.
  exists x, w'. split; [done|]. split; [exact Hok|].
  destruct (delete_refines sample_cfg sample_session "a/b" (Some "*") sample_request sample_stored_world x w')
    as [(_ & _ & _ & Hx) _]; [by apply tree_wfb_wf; vm_compute|by apply tree_wfb_wf; vm_compute|done|].
  destruct x as [u|e]; [|done]. destruct Hx as [-> _]. apply map_eq. intros p. vm_compute. done.
Defined.
Lemma open_range_bounds_witness :
  ∃ r w', open_range sample_cfg sample_session "a/b" (Some (1, 100)%Z) sample_request sample_stored_world = (Ok r, w') ∧
    or_offset r = 1%Z ∧ (or_offset r + or_length r = 5)%Z.
Proof.
  destruct (open_range sample_cfg sample_session "a/b" (Some (1, 100)%Z) sample_request sample_stored_world)
    as [[r|e] w'] eqn:E; [|vm_compute in E; discriminate E].
  exists r, w'. split; [done|].
  destruct (open_range_bounds sample_cfg sample_session "a/b" (Some (1, 100)%Z) sample_request sample_stored_world r w')
    as (_ & _ & (m & Hf & _) & _ & Hoff & _ & Hend); [by apply tree_wfb_wf; vm_compute| |exact E|].
  { intros start stop [= <- <-]. lia. }
  assert (file_at (fw_data sample_stored_world) "a/b" = Some ("hello", 77%Z)) as Hh by (vm_compute; reflexivity).
  rewrite Hh in Hf. injection Hf as Hc _. rewrite <- Hc in Hend.
  split; [exact Hoff|]. rewrite Hend. vm_compute. reflexivity.
Defined.
Lemma put_then_read_witness :
  ∃ info w1 w3, sample_put sample_world = (Ok info, w1) ∧
    head_object sample_cfg sample_session "a/b" sample_request sample_stored_world = (Ok info, w3).
Proof.
  destruct (sample_put sample_world) as [[info|e] w1] eqn:E; [|vm_compute in E; discriminate E].
  assert (w1 = sample_stored_world) as -> by (unfold sample_stored_world; by rewrite E).
  destruct (put_then_read (H3 := sample_store_laws) sample_cfg sample_session "a/b" [Ok "he"; Ok "llo"] (Some "text/plain")
    None sample_conditions sample_request sample_world info sample_stored_world
    tree_wf_empty tree_wf_empty ltac:(done) E sample_session sample_request sample_stored_world)
    as (data & w3 & w4 & _ & Hh & _);
    [apply tree_wfb_wf; vm_compute; reflexivity|apply tree_wfb_wf; vm_compute; reflexivity|done|done|by vm_compute|
     apply sample_calm|].
  exists info, sample_stored_world, w3. split; [reflexivity|exact Hh].
Defined.
