(* ===== verification/FilesystemListing.v ===== *)
(** * Listing, copying and batch deletion of the filesystem object store

    crates/broker-storage/src/filesystem_listing.rs: pages of a listing by
    prefix and delimiter, walked from the directories and bounded to one page;
    copies; deletions of many keys.  Other requests are not interleaved with
    the walk, which takes no lock. *)

From stdpp Require Import gmap.
From S2P Require Import Prelude RustStr Order Control LocalBearer BrokerAccess.
From S2P Require Import Session Identity InstanceRegistry ResourceGrants.
From S2P Require Import ResourcePolicy StorageAdmission StoragePolicy FilesystemSession FileTree FilesystemStore.
From S2P Require Import FilesystemObjects.

(** ** Data *)

Inductive FilesystemListEncoding := EncPlain | EncUrl.
Record FilesystemListRequest := {
  lr_prefix : string;
  lr_delimiter : option string;
  lr_start_after : option string;
  lr_continuation_token : option string;
  lr_max_keys : option Z;
  lr_encoding : FilesystemListEncoding;
}.
Record FilesystemListedObject := { lo_key : string; lo_info : FilesystemObjectInfo }.
Record FilesystemListPage := {
  lp_objects : list FilesystemListedObject;
  lp_common_prefixes : list string;
  lp_key_count : Z;
  lp_is_truncated : bool;
  lp_next_token : option string;
}.
Record FilesystemDeleteResult := { dr_key : string; dr_result : result FilesystemStoreError unit }.
Record Cursor := { cu_prefix : string; cu_delimiter : option string; cu_marker : string }.
(** A key or a common prefix, ordered by its text. *)
Notation Candidate := (string * bool)%type.
Notation cd_key := (@fst string bool) (only parsing).
Notation cd_common := (@snd string bool) (only parsing).

(** The [serde_json] form of a cursor, and [url::form_urlencoded]. *)
Class ListingLib := {
  cursor_to_vec : Cursor → option string;
  cursor_from_slice : string → option Cursor;
  byte_serialize : string → string;
}.

Section listing.
Context `{UlidLib, JwtLib, SessionLib, StoreLib, DirOrder, ListingLib}.

(** ** Helpers *)

Definition interrupted_batch (results : list FilesystemDeleteResult) (cause : FilesystemStoreError) (processed : bool)
    : FilesystemStoreError :=
  let uncertain r := match dr_result r with Err e => if is_uncertain e then Some e else None | Ok _ => None end in
  match omap uncertain results with
  | error :: _ => error
  | [] => if processed then FS_CommitUncertain cause else cause
  end.
Definition prefix_key (prefix : string) : string := default prefix (strip_suffix prefix "/").
Definition encoded (value : string) (encoding : FilesystemListEncoding) : string :=
  match encoding with
  | EncPlain => value
  | EncUrl => replace (replace (byte_serialize value) "+" "%20") "%2F" "/"
  end.

(** ** The walk *)

Definition join_key (parent name : string) : string :=
  if is_empty parent then name else parent +:+ "/" +:+ name.
Fixpoint find_byte (b : ascii) (l : list ascii) : option nat :=
  match l with
  | [] => None
  | c :: l => if Ascii.eqb b c then Some 0 else S <$> find_byte b l
  end.
(** The candidate a key stands for: its common prefix with the delimiter, or
    itself. *)
Definition candidate_of (prefix : string) (delimiter : bool) (key : string) : Candidate :=
  if delimiter then
    match find_byte "/" (drop (length (bytes prefix)) (bytes key)) with
    | Some position => (of_bytes (take (length (bytes prefix) + position + 1) (bytes key)), true)
    | None => (key, false)
    end
  else (key, false).
(** A [BTreeSet] that keeps its first [limit] elements. *)
Definition insert_bounded (limit : nat) (c : Candidate) (candidates : list Candidate) : list Candidate :=
  let candidates := bset_insert c candidates in
  if limit <? length candidates then removelast candidates else candidates.
Record Selection := {
  sl_prefix : string;
  sl_delimiter : bool;
  sl_marker : string;
  sl_limit : nat;
}.
(** What the directories inside the prefix are: on the way to it. *)
Definition toward (sl : Selection) (key : string) : bool := starts_with (sl_prefix sl) (key +:+ "/").
Definition visit_file (sl : Selection) (session : VerifiedFilesystemSession) (key : string)
    (candidates : list Candidate) : FsM (list Candidate) :=
  if negb (starts_with key (sl_prefix sl)) then ret candidates else
  let? readable := (if negb (valid_key key) then ret false else allows session OpRead key) in
  if negb readable then fail FS_Forbidden else
  let candidate := candidate_of (sl_prefix sl) (sl_delimiter sl) key in
  if negb (str_ltb (sl_marker sl) candidate.1) then ret candidates else
  ret (insert_bounded (sl_limit sl) candidate candidates).
(** One entry of a directory; [below] walks a directory in it. *)
Definition visit_entry (below : Dir → string → list Candidate → FsM (list Candidate)) (sl : Selection)
    (session : VerifiedFilesystemSession) (rq : FilesystemRequest) (dir : Dir) (parent : string)
    (candidates : list Candidate) (name : string) : FsM (list Candidate) :=
  do? rq_check rq session in
  do? io plain in                                   (* the entry *)
  let key := join_key parent name in
  if negb (toward sl key) && negb (starts_with key (sl_prefix sl)) then ret candidates else
  let? skip :=
    (if toward sl key then ret false else
     let? above := allows session OpRead parent in
     if above then ret false else
     let? here := allows session OpRead key in
     ret (negb here)) in
  if skip then ret candidates else
  if negb (valid_key key) then fail FS_InvalidKey else
  let? kind := io (stat dir name) in
  match kind with
  | NDir => let? sub := io (open_dir dir name) in below sub key candidates
  | NFile _ _ => visit_file sl session key candidates
  | NSymlink => fail FS_InvalidKey
  end.
(** One level of the tree per unit of fuel; it does not run out (below). *)
Definition OUT_OF_FUEL : FilesystemStoreError := FS_InvalidConfiguration.
Fixpoint walk (fuel : nat) (sl : Selection) (session : VerifiedFilesystemSession) (rq : FilesystemRequest)
    (dir : Dir) (parent : string) (candidates : list Candidate) : FsM (list Candidate) :=
  match fuel with
  | O => fail OUT_OF_FUEL
  | S fuel =>
      let? names := io (read_dir dir) in
      mfor (visit_entry (walk fuel sl session rq) sl session rq dir parent) candidates names
  end.
(** The levels of a tree. *)
Definition tree_depth (t : tree) : nat := max_list (length ∘ fst <$> map_to_list t).

(** ** A page *)

Definition maximum_keys (max_keys : option Z) : result FilesystemStoreError nat :=
  match max_keys with
  | None => Ok (Z.to_nat 1000)
  | Some n =>
      if (n =? 0)%Z then Ok (Z.to_nat 1000) else
      if (1 <=? n)%Z && (n <=? 1000)%Z then Ok (Z.to_nat n) else Err FS_InvalidArgument
  end.
Definition max_cursor : Cursor :=
  let long := of_bytes (replicate (Z.to_nat 1024) "a"%char) in
  {| cu_prefix := long; cu_delimiter := Some "/"; cu_marker := long |}.
Definition read_cursor (session : VerifiedFilesystemSession) (input : FilesystemListRequest) (token : string)
    : FsM Cursor :=
  let? longest := lift_result (ok_or (cursor_to_vec max_cursor) FS_InvalidArgument) in
  if ((len longest + 2) / 3 * 4 <? len token)%Z then fail FS_InvalidArgument else
  let? data := lift_result (ok_or (b64_decode token) FS_InvalidArgument) in
  let? cursor := lift_result (ok_or (cursor_from_slice data) FS_InvalidArgument) in
  if negb (str_eqb (cu_prefix cursor) (lr_prefix input))
     || negb (bool_decide (cu_delimiter cursor = lr_delimiter input))
     || (1024 <? len (cu_marker cursor))%Z
     || negb (valid_key (prefix_key (cu_marker cursor)))
     || negb (starts_with (cu_marker cursor) (lr_prefix input)) then fail FS_InvalidArgument else
  let? ok := allows session OpRead (prefix_key (cu_marker cursor)) in
  if negb ok then fail FS_InvalidArgument else ret cursor.
Definition next_token (input : FilesystemListRequest) (candidates : list Candidate)
    : result FilesystemStoreError string :=
  let! last_ := ok_or (last candidates) FS_InvalidArgument in
  let! data := ok_or (cursor_to_vec {| cu_prefix := lr_prefix input; cu_delimiter := lr_delimiter input;
                                       cu_marker := last_.1 |}) FS_InvalidArgument in
  Ok (b64_encode data).
Definition page_entries (cfg : FilesystemStoreConfig) (session : VerifiedFilesystemSession)
    (rq : FilesystemRequest) (encoding : FilesystemListEncoding) (candidates : list Candidate)
    : FsM (list FilesystemListedObject * list string) :=
  mfor (λ '(objects, prefixes) (candidate : Candidate),
    if candidate.2 then ret (objects, prefixes ++ [encoded candidate.1 encoding]) else
    let? info := head_object cfg session candidate.1 rq in
    ret (objects ++ [{| lo_key := encoded candidate.1 encoding; lo_info := info |}], prefixes)) ([], []) candidates.
(** The candidates of one page, from the walk on. *)
Definition list_page (cfg : FilesystemStoreConfig) (session : VerifiedFilesystemSession) (rq : FilesystemRequest)
    (input : FilesystemListRequest) (maximum : nat) (sl : Selection) : FsM FilesystemListPage :=
  let? w := get in
  let? candidates := walk (S (tree_depth (fw_data w))) sl session rq {| d_root := RData; d_path := [] |} "" [] in
  let truncated := maximum <? length candidates in
  let candidates := if truncated then removelast candidates else candidates in
  let? token := (if truncated then let? t := lift_result (next_token input candidates) in ret (Some t) else ret None) in
  let? (objects, prefixes) := page_entries cfg session rq (lr_encoding input) candidates in
  ret {| lp_objects := objects; lp_common_prefixes := prefixes; lp_key_count := Z.of_nat (length candidates);
         lp_is_truncated := truncated; lp_next_token := token |}.
Definition list_objects (cfg : FilesystemStoreConfig) (session : VerifiedFilesystemSession)
    (input : FilesystemListRequest) (rq : FilesystemRequest) : FsM FilesystemListPage :=
  do? authorize cfg session rq OpRead (prefix_key (lr_prefix input)) in
  then_check rq session (
    if (1024 <? len (lr_prefix input))%Z || is_some_and (lr_delimiter input) (λ d, negb (str_eqb d "/"))
    then fail FS_InvalidArgument else
    let? maximum := lift_result (maximum_keys (lr_max_keys input)) in
    let? cursor :=
      match lr_continuation_token input with
      | Some token => let? cursor := read_cursor session input token in ret (Some cursor)
      | None => ret None
      end in
    let marker := match cursor with Some c => cu_marker c | None => default "" (lr_start_after input) end in
    if negb (is_empty marker) && ((1024 <? len marker)%Z || negb (valid_key (prefix_key marker)))
    then fail FS_InvalidArgument else
    let sl := {| sl_prefix := lr_prefix input; sl_delimiter := is_some_and (lr_delimiter input) (λ _, true);
                 sl_marker := marker; sl_limit := S maximum |} in
    list_page cfg session rq input maximum sl).

(** ** Copying *)

(** Two locks in the order of their shards; one when they share it. *)
Definition lock_pair (session : VerifiedFilesystemSession) (rq : FilesystemRequest) (a b : string) : FsM unit :=
  let '(first, second) := if (shard a <=? shard b)%Z then (a, b) else (b, a) in
  do? lock rq session in
  if negb (shard first =? shard second)%Z then lock rq session else ret tt.
Definition copy (cfg : FilesystemStoreConfig) (session : VerifiedFilesystemSession) (source target : string)
    (source_conditions target_conditions : FilesystemConditions) (rq : FilesystemRequest) : FsM FilesystemObjectInfo :=
  do? authorize cfg session rq OpRead source in
  do? authorize cfg session rq OpWrite target in
  finish_write rq session (
    do? lock_pair session rq source target in
    let? file := data_file source in
    let? info := describe cfg source file session rq in
    do? lift_result (conditions_check source_conditions (Some (oi_etag info))) in
    let? prepared := prepare cfg session target (file_reader file.1) (Some (oi_content_type info)) None rq in
    publish_locked cfg session target prepared target_conditions rq).

(** ** Batch deletion *)

Definition done_or_uncertain (r : result FilesystemStoreError unit) : bool :=
  match r with Ok _ => true | Err e => is_uncertain e end.
Fixpoint delete_each (cfg : FilesystemStoreConfig) (session : VerifiedFilesystemSession) (quiet : bool)
    (rq : FilesystemRequest) (results : list FilesystemDeleteResult) (processed : bool) (keys : list string)
    : FsM (list FilesystemDeleteResult) :=
  let? checked := outcome (rq_check rq session) in
  match checked with
  | Err cause => fail (interrupted_batch results cause processed)
  | Ok _ =>
      match keys with
      | [] => ret results
      | key :: keys =>
          let? r := outcome (delete_object cfg session key rq) in
          let processed := processed || done_or_uncertain r in
          let results := if negb quiet || negb (is_ok r) then results ++ [{| dr_key := key; dr_result := r |}] else results in
          delete_each cfg session quiet rq results processed keys
      end
  end.
Definition delete_batch (cfg : FilesystemStoreConfig) (session : VerifiedFilesystemSession) (keys : list string)
    (quiet : bool) (rq : FilesystemRequest) : FsM (list FilesystemDeleteResult) :=
  do? rq_check rq session in
  if negb (str_eqb (vs_bucket session) (sc_bucket cfg)) then fail FS_Forbidden else
  delete_each cfg session quiet rq [] false keys.

(** ** What the walk keeps *)

Section quiet.
Context {R : World → World → Prop} `{!QuietRel R}.
Lemma quiet_visit_file sl session key candidates : keeps R (visit_file sl session key candidates).
Proof. unfold visit_file. auto 30 with broker. Qed.
#[local] Hint Resolve quiet_visit_file : broker.
Lemma quiet_visit_entry below sl session rq dir parent candidates name :
  (∀ d k c, keeps R (below d k c)) → keeps R (visit_entry below sl session rq dir parent candidates name).
Proof. intros Hb. unfold visit_entry. auto 40 with broker. Qed.
Lemma quiet_walk fuel sl session rq dir parent candidates : keeps R (walk fuel sl session rq dir parent candidates).
Proof.
  revert dir parent candidates. induction fuel as [|fuel IH]; intros dir parent candidates; simpl; [auto with broker|].
  apply keeps_bind; [apply _|auto with broker|]. intros names. apply keeps_mfor; [apply _|]. intros b name.
  by apply quiet_visit_entry.
Qed.
End quiet.
#[local] Hint Resolve quiet_visit_file quiet_visit_entry quiet_walk : broker.

(** ** A live session *)

(** The session was live at every clock sample of a run. *)
Definition lived (session : VerifiedFilesystemSession) (w w' : World) : Prop :=
  ∀ n, tick (fw_clock w) ≤ n < tick (fw_clock w') →
    (mono_at (fw_clock w) n < vs_deadline session)%Z ∧ (0 ≤ utc_at (fw_clock w) n < vs_expiry session)%Z.
Lemma lived_sub session w w1 w2 w' : lived session w w' → ticks w w1 → ticks w1 w2 → ticks w2 w' → lived session w1 w2.
Proof.
  intros Hl [Em Eu Et] [_ _ Et1] [_ _ Et2] n Hn. rewrite Em, Eu. apply Hl. lia.
Qed.
(** What a live session may read. *)
Definition may (session : VerifiedFilesystemSession) (key : string) : bool :=
  valid_key key && covered session (operation_indices OpRead) key.
Lemma allows_live session key w b w' :
  allows session OpRead key w = (Ok b, w') → lived session w w' → b = may session key.
Proof.
  unfold allows, on_clock, may, vs_allows, bind, outcome. destruct (valid_key key); simpl; [|by intros [= <- _]].
  destruct (vs_check session (vs_deadline session) (fw_clock w)) as [r c] eqn:Ec. simpl.
  intros Hr Hl. destruct r as [u|e]; simpl in Hr; [by injection Hr as <- _|]. injection Hr as <- <-.
  apply vs_check_fails in Ec as (n & Hn & Hbad). destruct (Hl n Hn). lia.
Qed.

(** ** What a walk selects *)

Section selection.
Context (sl : Selection) (session : VerifiedFilesystemSession).
Notation key_of p := (join "/" p).
(** Whether the walk goes on to an entry. *)
Definition passes (d : path) (name : string) : bool :=
  toward sl (key_of (d ++ [name])) ||
  starts_with (key_of (d ++ [name])) (sl_prefix sl) && (may session (key_of d) || may session (key_of (d ++ [name]))).
Fixpoint reached (d rest : path) : bool :=
  match rest with
  | [] => true
  | name :: rest => passes d name && reached (d ++ [name]) rest
  end.
(** The files of a listing, below a directory the walk has reached. *)
Definition selected (d rest : path) : bool := reached d rest && starts_with (key_of (d ++ rest)) (sl_prefix sl).
Definition later (c : Candidate) : Prop := str_lt (sl_marker sl) c.1.
Definition found (t : tree) (d : path) (c : Candidate) : Prop :=
  ∃ rest content modified, rest ≠ [] ∧ t !! (d ++ rest) = Some (NFile content modified) ∧ selected d rest = true ∧
    may session (key_of (d ++ rest)) = true ∧
    c = candidate_of (sl_prefix sl) (sl_delimiter sl) (key_of (d ++ rest)) ∧ later c.
(** The candidates kept are the first of those found. *)
Definition first_found (prior : list Candidate) (candidates : list Candidate) : Prop :=
  candidates = take (sl_limit sl) (bset_of prior).
Lemma insert_bounded_found prior c candidates :
  first_found prior candidates → first_found (prior ++ [c]) (insert_bounded (sl_limit sl) c candidates).
Proof.
  apply bset_bounded_step.
Qed.

Lemma join_key_snoc d name :
  d = [] ∨ valid_key (key_of d) = true → join_key (key_of d) name = key_of (d ++ [name]).
Proof.
  intros [->|Hv]; unfold join_key.
  - change (key_of []) with "". change (key_of ([] ++ [name])) with (of_bytes (bytes name)). by rewrite of_bytes_bytes.
  - destruct (is_empty (key_of d)) eqn:E; [by apply is_empty_eq in E; rewrite E in Hv|].
    destruct (decide (d = [])) as [->|Hd]; [done|]. rewrite join_app by done.
    change (key_of [name]) with (of_bytes (bytes name)). by rewrite of_bytes_bytes.
Qed.
(** What is found below one entry of a directory. *)
Definition found_at (t : tree) (d : path) (name : string) (c : Candidate) : Prop :=
  ∃ rest content modified, t !! (d ++ name :: rest) = Some (NFile content modified) ∧
    selected d (name :: rest) = true ∧ may session (key_of (d ++ name :: rest)) = true ∧
    c = candidate_of (sl_prefix sl) (sl_delimiter sl) (key_of (d ++ name :: rest)) ∧ later c.
Lemma found_split t d c : tree_wf t →
  found t d c ↔ ∃ name, is_Some (t !! (d ++ [name])) ∧ found_at t d name c.
Proof.
  intros Hwf. split.
  - intros (rest & content & modified & Hne & Hf & Hrest). destruct rest as [|name rest]; [done|].
    exists name. split; [|by exists rest, content, modified]. destruct (decide (rest = [])) as [->|Hr]; [eauto|].
    rewrite (cons_middle name), (assoc_L (++)) in Hf. apply tree_wf_prefix in Hf; [|done..].
    destruct (d ++ [name]) eqn:E; [by destruct d|]. simpl in Hf. eauto.
  - intros (name & _ & rest & content & modified & Hrest). by exists (name :: rest), content, modified.
Qed.
Lemma found_at_passes t d name c : found_at t d name c → passes d name = true.
Proof.
  intros (rest & content & modified & _ & Hs & _). unfold selected in Hs. cbn [reached] in Hs. by bool_to_prop.
Qed.
Lemma found_at_dir t d name c :
  t !! (d ++ [name]) = Some NDir → passes d name = true → found_at t d name c ↔ found t (d ++ [name]) c.
Proof.
  intros Hd Hp. unfold found_at, found, selected. cbn [reached]. rewrite Hp. simpl. split.
  - intros (rest & content & modified & Hf & Hrest). exists rest, content, modified.
    assert (d ++ name :: rest = (d ++ [name]) ++ rest) as Heq by (by rewrite <- app_assoc).
    rewrite Heq in Hf, Hrest. split; [|by split].
    intros ->. rewrite app_nil_r in Hf. congruence.
  - intros (rest & content & modified & _ & Hf & Hrest). exists rest, content, modified.
    rewrite <- (assoc_L (++)) in Hf, Hrest. done.
Qed.
Lemma found_at_file t d name content modified c :
  tree_wf t → t !! (d ++ [name]) = Some (NFile content modified) → passes d name = true →
  found_at t d name c ↔
  starts_with (key_of (d ++ [name])) (sl_prefix sl) = true ∧ may session (key_of (d ++ [name])) = true ∧
  c = candidate_of (sl_prefix sl) (sl_delimiter sl) (key_of (d ++ [name])) ∧ later c.
Proof.
  intros Hwf Hf Hp. unfold found_at, selected. cbn [reached]. rewrite Hp. simpl. split.
  - intros (rest & content' & modified' & Hr & Hs & Hrest).
    assert (rest = []) as ->; [|by bool_to_prop].
    destruct (decide (rest = [])) as [|Hne]; [done|]. rewrite (cons_middle name), (assoc_L (++)) in Hr.
    apply tree_wf_prefix in Hr; [|done..]. destruct (d ++ [name]) eqn:E; [by destruct d|]. simpl in Hr. congruence.
  - intros (Hs & Hrest). by exists [], content, modified.
Qed.

(** A walk finds what is below its directory, and adds it to what was found
    before. *)
Definition walks_ok (m : Dir → string → list Candidate → FsM (list Candidate)) : Prop :=
  ∀ d prior candidates w out w',
    m d (key_of (d_path d)) candidates w = (Ok out, w') → d_root d = RData →
    (d_path d = [] ∨ valid_key (key_of (d_path d)) = true) → tree_wf (fw_data w) →
    lived session w w' → first_found prior candidates →
    ∃ xs, first_found (prior ++ xs) out ∧ ∀ c, c ∈ xs ↔ found (fw_data w) (d_path d) c.
Lemma visit_file_ok key prior candidates w out w' :
  visit_file sl session key candidates w = (Ok out, w') → lived session w w' → first_found prior candidates →
  ∃ xs, first_found (prior ++ xs) out ∧
    ∀ c, c ∈ xs ↔ starts_with key (sl_prefix sl) = true ∧ may session key = true ∧
      c = candidate_of (sl_prefix sl) (sl_delimiter sl) key ∧ later c.
Proof.
  unfold visit_file. intros Hr Hl Hff. destruct (starts_with key (sl_prefix sl)); simpl in Hr.
  2: { injection Hr as <- _. exists []. rewrite app_nil_r. split; [done|]. intros c. rewrite elem_of_nil. naive_solver. }
  invert_run Hr. bool_to_prop. subst a.
  assert (ticks s w') as Ht by (by destruct (negb (str_ltb _ _)); injection Hr as _ <-).
  assert (may session key = true) as Hmay.
  { destruct (negb (valid_key key)) eqn:Ev; [by injection R|]. symmetry. eapply allows_live; [done|].
    eapply lived_sub; [done|done|by eapply (quiet_allows (R:=ticks))|done]. }
  unfold later. destruct (negb (str_ltb _ _)) eqn:El; bool_to_prop; injection Hr as <- _.
  - exists []. rewrite app_nil_r. split; [done|]. intros c. rewrite elem_of_nil. split; [done|].
    intros (_ & _ & -> & Hc). unfold str_lt in Hc. congruence.
  - eexists [_]. split; [by apply insert_bounded_found|]. intros c. rewrite list_elem_of_singleton. naive_solver.
Qed.
Lemma skip_ok parent key w b w' :
  (if toward sl key then ret false else
   let? above := allows session OpRead parent in
   if above then ret false else
   let? here := allows session OpRead key in
   ret (negb here)) w = (Ok b, w') → lived session w w' →
  b = negb (toward sl key) && negb (may session parent) && negb (may session key).
Proof.
  destruct (toward sl key); [by intros [= <- _]|]. intros Hr Hl. apply bind_ok in Hr as (above & w1 & Ha & Hr).
  assert (ticks w w1) as Ht1 by (by eapply (quiet_allows (R:=ticks))).
  assert (ticks w1 w') as Ht2.
  { destruct above; [by injection Hr as _ <-|]. apply bind_ok in Hr as (here & w2 & Hh & Hr).
    injection Hr as _ <-. by eapply (quiet_allows (R:=ticks)). }
  apply allows_live in Ha; [|by eapply lived_sub]. rewrite <- Ha. destruct above; [by injection Hr as <- _|].
  apply bind_ok in Hr as (here & w2 & Hh & Hr). injection Hr as <- <-.
  apply allows_live in Hh; [|by eapply lived_sub]. by rewrite <- Hh.
Qed.
Lemma visit_entry_ok below rq d prior candidates name w out w' :
  walks_ok below → (∀ d k c, keeps ticks (below d k c)) →
  visit_entry below sl session rq d (key_of (d_path d)) candidates name w = (Ok out, w') → d_root d = RData →
  (d_path d = [] ∨ valid_key (key_of (d_path d)) = true) → tree_wf (fw_data w) →
  lived session w w' → first_found prior candidates →
  ∃ xs, first_found (prior ++ xs) out ∧ ∀ c, c ∈ xs ↔ found_at (fw_data w) (d_path d) name c.
Proof.
  intros Hbelow Hbt Hr Hroot Hd Hwf Hl Hff. unfold visit_entry in Hr. rewrite join_key_snoc in Hr by done.
  set (key := key_of (d_path d ++ [name])) in *.
  assert (passes (d_path d) name = false → out = candidates →
    ∃ xs, first_found (prior ++ xs) out ∧ ∀ c, c ∈ xs ↔ found_at (fw_data w) (d_path d) name c) as Hskip.
  { intros Hp ->. exists []. rewrite app_nil_r. split; [done|]. intros c. rewrite elem_of_nil. split; [done|].
    intros Hf%found_at_passes. congruence. }
  apply bind_ok in Hr as (u1 & w1 & Hc1 & Hr). apply bind_ok in Hr as (u2 & w2 & Hc2 & Hr).
  quiet_step Hc1 Hs1. quiet_step Hc2 Hs2. assert (same_trees w w2) as Hs by (by etrans).
  tick_step Hc1 Ht1. tick_step Hc2 Ht2'. assert (ticks w w2) as Ht2 by (by etrans).
  cbv beta zeta in Hr. destruct (negb (toward sl key) && negb (starts_with key (sl_prefix sl))) eqn:Eout.
  { bool_to_prop. injection Hr as <- _. apply Hskip; [|done]. unfold passes. fold key.
    by repeat match goal with E : _ = false |- _ => rewrite E; clear E end. }
  apply bind_ok in Hr as (skip & w3 & Hk & Hr). quiet_step Hk Hs3. tick_step Hk Ht3. tick_step Hr Ht4.
  apply skip_ok in Hk; [|by eapply lived_sub].
  assert (passes (d_path d) name = negb skip) as Hp.
  { subst skip. unfold passes. fold key.
    by destruct (toward sl key), (starts_with key (sl_prefix sl)), (may session (key_of (d_path d))), (may session key). }
  clear Hk Eout. destruct skip; [injection Hr as <- _; by apply Hskip|]. simpl in Hp. clear Hskip.
  destruct (negb (valid_key key)) eqn:Ev; [done|]. bool_to_prop.
  assert (same_trees w w3) as Hs03 by (by etrans). assert (ticks w w3) as Ht03 by (by etrans).
  apply bind_ok in Hr as (kind & w4 & Hst & Hr). quiet_step Hst Hs4. tick_step Hst Ht5. tick_step Hr Ht6.
  unfold io, stat in Hst. apply map_err_ok, node_at_ok in Hst. rewrite Hroot, (Hs03 RData) in Hst. simpl in Hst.
  destruct kind as [content modified| |]; [| |done].
  - apply (visit_file_ok _ prior) in Hr as (xs & Hxs & Hin); [|eapply lived_sub; [done|by etrans|done|done]|done].
    exists xs. split; [done|]. intros c. rewrite Hin. symmetry. by eapply found_at_file.
  - apply bind_ok in Hr as (sub & w5 & Ho & Hr). quiet_step Ho Hs5. tick_step Ho Ht7. tick_step Hr Ht8.
    unfold io in Ho. apply map_err_ok, open_dir_ok in Ho as [-> _].
    assert (same_trees w w5) as Hs05 by (etrans; [exact Hs03|by etrans]).
    apply (Hbelow (FileTree.below d name) prior) in Hr as (xs & Hxs & Hin);
      [|done|by right|by rewrite (same_data _ _ Hs05)|eapply lived_sub; [done|etrans; [exact Ht03|by etrans]|done|done]|done].
    exists xs. split; [done|]. intros c. rewrite Hin, (same_data _ _ Hs05). simpl. symmetry. by apply found_at_dir.
Qed.
Lemma walk_ok fuel rq : walks_ok (walk fuel sl session rq).
Proof.
  induction fuel as [|fuel IH]; intros d prior candidates w out w' Hr Hroot Hd Hwf Hl Hff; [done|].
  cbn [walk] in Hr. apply bind_ok in Hr as (names & w1 & Hn & Hr). quiet_step Hn Hs1. tick_step Hn Ht1.
  unfold io in Hn. apply map_err_ok in Hn. pose proof (read_dir_ok _ _ _ _ Hn) as Hnames. rewrite Hroot in Hnames.
  assert (∃ xs, first_found (prior ++ xs) out ∧
    ∀ c, c ∈ xs ↔ ∃ name, name ∈ names ∧ found_at (fw_data w) (d_path d) name c) as (xs & Hxs & Hin).
  { eapply (mfor_run_ind ticks (λ prior_names acc w2, same_trees w w2 ∧ ticks w w2 ∧ ∃ xs, first_found (prior ++ xs) acc ∧
      ∀ c, c ∈ xs ↔ ∃ name, name ∈ prior_names ∧ found_at (fw_data w) (d_path d) name c)) in Hr as (_ & _ & Hr); [done|..].
    - intros b name. apply quiet_visit_entry. auto with broker.
    - split; [done|]. split; [done|]. exists []. rewrite app_nil_r. split; [done|]. set_solver.
    - intros done_ name acc w2 acc' w3 _ (Hs2 & Ht2 & xs & Hxs & Hin) Hv Ht3. quiet_step Hv Hs3. tick_step Hv Ht4.
      split; [by etrans|]. split; [by etrans|].
      apply (visit_entry_ok _ rq d (prior ++ xs)) in Hv as (ys & Hys & Hin2);
        [|done|auto with broker|done|done|by rewrite (same_data _ _ Hs2)|by eapply lived_sub|done].
      exists (xs ++ ys). rewrite (assoc_L (++)). split; [done|]. intros c. rewrite elem_of_app, Hin, Hin2, (same_data _ _ Hs2).
      set_unfold. naive_solver. }
  exists xs. split; [done|]. intros c. rewrite Hin, found_split by done.
  split; intros (name & Hname & Hf); exists name; (split; [by apply Hnames|done]).
Qed.
End selection.

(** ** Listing a directory *)

(** Names have no slash, as the file system has them. *)
Definition plain_names (t : tree) : Prop :=
  ∀ p n, t !! p = Some n → Forall (λ name, contains_byte "/" name = false) p.
(** The same, to evaluate. *)
Definition plain_namesb (t : tree) : bool :=
  forallb (λ '(p, _), forallb (λ name, negb (contains_byte "/" name)) p) (map_to_list t).
Lemma plain_namesb_plain t : plain_namesb t = true → plain_names t.
Proof.
  unfold plain_namesb. rewrite forallb_elem. intros Hall p n Hp%elem_of_map_to_list. apply Hall in Hp.
  rewrite forallb_elem in Hp. apply Forall_forall. intros name Hn. apply Hp in Hn. by bool_to_prop.
Qed.
Lemma kpath_join t p n : plain_names t → t !! p = Some n → p ≠ [] → kpath (join "/" p) = p.
Proof. intros Hplain Hp Hne. destruct p as [|x p]; [done|]. apply split_join. by eapply Hplain. Qed.
Lemma may_under session key root :
  may session root = true → valid_key key = true → split root "/" `prefix_of` split key "/" → may session key = true.
Proof.
  unfold may. rewrite !andb_true_iff, !covered_spec. intros [_ (i & roots & r & Hi & Hr & Hin & Hu)] Hv Hp.
  split; [done|]. exists i, roots, r. do 3 (split; [done|]). rewrite under_split in *. by etrans.
Qed.
Lemma valid_key_prefix key q r : valid_key key = true → split key "/" = q ++ r → q ≠ [] → valid_key (join "/" q) = true.
Proof.
  intros Hv Hk Hq. destruct (decide (r = [])) as [->|Hr].
  { rewrite app_nil_r in Hk. by rewrite <- Hk, join_split. }
  assert (key = join "/" q +:+ String "/" (join "/" r)) as -> by (by rewrite <- join_app, <- Hk, join_split).
  assert (split (join "/" q) "/" = q) as Hsplit.
  { destruct q as [|x q]; [done|]. apply split_join, Forall_forall. intros y Hy.
    eapply (split_part_no_sep (join "/" (x :: q) +:+ String "/" (join "/" r)) "/"). rewrite Hk. set_solver. }
  unfold valid_key, all_bytes in *. rewrite bytes_app, forallb_app, len_app, split_app_sep, forallb_app in Hv. bool_to_prop.
  rewrite !andb_true_iff. split; [split; [split|]|]; [|apply Z.leb_le|done|done].
  - destruct (is_empty (join "/" q)) eqn:E; [|done]. apply is_empty_eq in E. rewrite E in Hsplit. rewrite <- Hsplit in *.
    rewrite E in *. done.
  - assert (0 ≤ len (String "/" (join "/" r)))%Z by (unfold len; lia). lia.
Qed.

Lemma split_not_nil s c : split s c ≠ [].
Proof. unfold split. intros Hs%fmap_nil_inv. by apply split_list_not_nil in Hs. Qed.
Lemma split_prefix_join key q r : split key "/" = q ++ r → q ≠ [] → split (join "/" q) "/" = q.
Proof.
  intros Hk Hq. destruct q as [|x q]; [done|]. apply split_join, Forall_forall. intros y Hy.
  eapply (split_part_no_sep key "/"). rewrite Hk. set_solver.
Qed.
Lemma reached_directory sl session p key q r :
  sl_prefix sl = p +:+ "/" → may session p = true → valid_key key = true → starts_with key (sl_prefix sl) = true →
  split key "/" = q ++ r → reached sl session q r = true.
Proof.
  intros Hpre Hmay Hv Hkey. rewrite Hpre in Hkey. apply starts_with_spec in Hkey as [tail ->].
  revert q. induction r as [|name r IH]; intros q Hk; [done|]. cbn [reached].
  rewrite (cons_middle name), (assoc_L (++)) in Hk. rewrite (IH _ Hk), andb_true_r. clear IH.
  assert (q ++ [name] ≠ []) as Hne by (by destruct q). set (k := q ++ [name]) in *. unfold passes. fold k.
  assert (split p "/" `prefix_of` k ++ r) as Hp.
  { rewrite <- Hk, str_app_assoc. change ("/" +:+ tail) with (String "/" tail). rewrite split_app_sep. by eexists. }
  destruct (prefix_weak_total k (split p "/") (k ++ r)) as [[z Hz]|[z Hz]]; [by eexists|done|..].
  - assert (toward sl (join "/" k) = true) as ->; [|done]. unfold toward. rewrite Hpre, <- (join_split p "/"), Hz.
    apply starts_with_spec. destruct (decide (z = [])) as [->|Hne2].
    + exists "". by rewrite app_nil_r, str_app_nil_r.
    + rewrite join_app by done. exists (join "/" z +:+ "/"). by rewrite !str_app_assoc.
  - destruct (decide (z = [])) as [->|Hne2].
    + rewrite app_nil_r in Hz. assert (toward sl (join "/" k) = true) as ->; [|done]. unfold toward.
      rewrite Hpre, Hz, join_split. apply starts_with_spec. exists "". by rewrite str_app_nil_r.
    + assert (starts_with (join "/" k) (sl_prefix sl) = true) as ->.
      { rewrite Hpre, Hz, join_app, join_split by (done || apply split_not_nil). apply starts_with_spec.
        exists (join "/" z). by rewrite str_app_assoc. }
      assert (may session (join "/" k) = true) as ->; [|by rewrite !orb_true_r].
      eapply may_under; [done|by eapply valid_key_prefix|]. rewrite (split_prefix_join _ _ _ Hk) by done.
      rewrite Hz. by eexists.
Qed.
(** Listing a directory misses nothing.  When the prefix ends in a slash and
    the session may read what is before it, the candidates of the listing are
    exactly those of the objects whose key begins with the prefix: the
    permissions cut nothing out. *)
Theorem directory_listing_complete sl session t p c :
  tree_wf t → plain_names t → sl_prefix sl = p +:+ "/" → may session p = true →
  found sl session t [] c ↔
  ∃ key file, valid_key key = true ∧ file_at t key = Some file ∧ starts_with key (sl_prefix sl) = true ∧
    c = candidate_of (sl_prefix sl) (sl_delimiter sl) key ∧ str_lt (sl_marker sl) c.1.
Proof.
  intros Hwf Hplain Hpre Hmay. split.
  - intros (rest & content & modified & Hne & Hf & Hs & Hm & Hc & Hl). simpl in *.
    exists (join "/" rest), (content, modified). unfold selected, may, file_at in *. simpl in Hs. bool_to_prop.
    by rewrite (kpath_join _ _ _ Hplain Hf Hne), Hf.
  - intros (key & [content modified] & Hv & Hf & Hs & Hc & Hl). apply file_at_Some in Hf.
    exists (kpath key), content, modified. simpl. rewrite join_split. split; [apply split_not_nil|]. split; [done|].
    unfold selected. simpl. rewrite join_split, Hs, (reached_directory sl session p key [] (kpath key)) by done.
    split; [done|]. split; [|done]. eapply may_under; [done|done|].
    rewrite Hpre in Hs. apply starts_with_spec in Hs as [tail ->]. rewrite str_app_assoc.
    change ("/" +:+ tail) with (String "/" tail). rewrite split_app_sep. by eexists.
Qed.

(** ** The fuel of a walk suffices *)

Lemma tree_depth_le t p n : t !! p = Some n → length p ≤ tree_depth t.
Proof.
  intros Hp%elem_of_map_to_list. unfold tree_depth. apply max_list_elem_of_le.
  apply list_elem_of_fmap. by exists (p, n).
Qed.
Notation fed := (only (λ e, e ≠ OUT_OF_FUEL)).
Lemma fed_io {A} (m : M World io_error A) : fed (io m).
Proof. by apply only_map_err. Qed.
Lemma fed_rq_check rq session : fed (rq_check rq session).
Proof.
  apply only_bind; [|intros _ w e w'; by destruct (rq_cancelled _ _); intros [= <- _]].
  intros w e w'. unfold on_clock, map_err. by destruct (vs_check _ _ _) as [[?|?] ?]; intros [= <- _].
Qed.
Lemma fed_allows session op key : fed (allows session op key).
Proof.
  intros w e w'. unfold allows, on_clock, vs_allows, bind, outcome. destruct (negb _); [done|].
  by destruct (vs_check session (vs_deadline session) (fw_clock w)) as [[?|?] ?].
Qed.
#[local] Hint Resolve fed_io fed_rq_check fed_allows : broker.
Lemma fed_visit_file sl session key candidates : fed (visit_file sl session key candidates).
Proof. unfold visit_file. auto 30 with broker. Qed.
#[local] Hint Resolve fed_visit_file : broker.
(** An entry fails for want of fuel only in a directory it walks. *)
Lemma visit_entry_starved below sl session rq d parent candidates name w w' :
  visit_entry below sl session rq d parent candidates name w = (Err OUT_OF_FUEL, w') →
  ∃ key w1, same_trees w w1 ∧ tree_of w (d_root d) !! (d_path d ++ [name]) = Some NDir ∧
    below (FileTree.below d name) key candidates w1 = (Err OUT_OF_FUEL, w').
Proof.
  unfold visit_entry. intros Hr.
  assert (∀ A B (m : FsM A) (k : A → FsM B) w, fed m → quiet m → bind m k w = (Err OUT_OF_FUEL, w') →
    ∃ a w1, same_trees w w1 ∧ m w = (Ok a, w1) ∧ k a w1 = (Err OUT_OF_FUEL, w')) as Hstep.
  { intros A B m k w0 Hm Hq [(a & w1 & Ha & Hk)|(e & He & [= <-])]%bind_cases; [|by apply Hm in He].
    exists a, w1. split; [by eapply Hq|done]. }
  apply Hstep in Hr as (u1 & w1 & Hs1 & _ & Hr); [|auto with broker..].
  apply Hstep in Hr as (u2 & w2 & Hs2 & _ & Hr); [|auto with broker..].
  cbv beta zeta in Hr. destruct (_ && _); [done|].
  apply Hstep in Hr as (skip & w3 & Hs3 & _ & Hr); [|auto 20 with broker..].
  destruct skip; [done|]. destruct (negb _); [done|].
  apply Hstep in Hr as (kind & w4 & Hs4 & Hst & Hr); [|auto with broker..].
  unfold io, stat in Hst. apply map_err_ok, node_at_ok in Hst.
  assert (same_trees w w3) as Hs by (etrans; [exact Hs1|by etrans]). rewrite (Hs (d_root d)) in Hst.
  destruct kind; [by apply fed_visit_file in Hr| |done].
  apply Hstep in Hr as (sub & w5 & Hs5 & Ho & Hr); [|auto with broker..].
  unfold io in Ho. apply map_err_ok, open_dir_ok in Ho as [-> _]. eexists _, w5. split; [|by split].
  etrans; [exact Hs|]. by etrans.
Qed.
(** C37. The listing walks every directory to its end: the bound on the depth of
    the recursion, one more than the longest path of the tree, is never reached,
    whatever the outcome of the system calls and of the session. *)
Theorem walk_never_starves sl session rq candidates w :
  (walk (S (tree_depth (fw_data w))) sl session rq {| d_root := RData; d_path := [] |} "" candidates w).1 ≠ Err OUT_OF_FUEL.
Proof.
  assert (∀ fuel d parent candidates w w', d_root d = RData → held w d →
    tree_depth (fw_data w) < fuel + length (d_path d) →
    walk fuel sl session rq d parent candidates w ≠ (Err OUT_OF_FUEL, w')) as Hgen.
  2: { destruct (walk _ _ _ _ _ _ _ w) as [x w'] eqn:Hr. simpl. intros ->.
       by eapply Hgen, Hr; [|apply held_root|simpl; lia]. }
  clear. intros fuel. induction fuel as [|fuel IH]; intros d parent candidates w w' Hroot Hheld Hlen Hr.
  - unfold held in Hheld. rewrite Hroot in Hheld. simpl in Hheld.
    destruct (d_path d) as [|y l] eqn:E; simpl in *; [lia|]. apply tree_depth_le in Hheld. simpl in *. lia.
  - cbn [walk] in Hr. apply bind_cases in Hr as [(names & w1 & Hn & Hr)|(e & Hn & [= <-])]; [|by apply fed_io in Hn].
    quiet_step Hn Hs1. apply (mfor_err same_trees) in Hr as (acc & name & w2 & _ & Hs2 & Hv);
      [|intros b name; apply quiet_visit_entry; auto with broker].
    apply visit_entry_starved in Hv as (key & w3 & Hs3 & Hd & Hbelow). assert (same_trees w w3) as Hs by (etrans; [exact Hs1|by etrans]).
    assert (same_trees w w2) as Hs02 by (by etrans). rewrite Hroot in Hd.
    eapply IH in Hbelow; [done|done| |].
    + apply (held_same w2); [done|]. apply held_below. by rewrite Hroot.
    + rewrite (same_data _ _ Hs). simpl. rewrite length_app. simpl. lia.
Qed.

(** ** What a page holds *)

Lemma quiet_page_entries {R} `{!QuietRel R} cfg session rq encoding candidates :
  keeps R (page_entries cfg session rq encoding candidates).
Proof. apply keeps_mfor; [apply _|]. intros [objects prefixes] [key []]; auto with broker. Qed.
#[local] Hint Resolve quiet_page_entries : broker.
(** An object of a page: its key as the client asked for it, and the
    description of its file. *)
Definition lists (w : World) (encoding : FilesystemListEncoding) (key : string) (o : FilesystemListedObject) : Prop :=
  lo_key o = encoded key encoding ∧
  ∃ file, file_at (fw_data w) key = Some file ∧ lo_info o = info_of w key file.
Definition page_keys (common : bool) (candidates : list Candidate) : list string :=
  omap (λ c : Candidate, if bool_decide (c.2 = common) then Some c.1 else None) candidates.
Lemma page_keys_app common l k : page_keys common (l ++ k) = page_keys common l ++ page_keys common k.
Proof. apply omap_app. Qed.
Lemma page_entries_ok cfg session rq encoding candidates w objects prefixes w' :
  page_entries cfg session rq encoding candidates w = (Ok (objects, prefixes), w') → tree_wf (fw_meta w) →
  Forall2 (lists w encoding) (page_keys false candidates) objects ∧
  prefixes = (λ key, encoded key encoding) <$> page_keys true candidates.
Proof.
  intros Hr Hwm. unfold page_entries in Hr.
  eapply (mfor_run_ind same_trees (λ prior acc w2, same_trees w w2 ∧
    Forall2 (lists w encoding) (page_keys false prior) acc.1 ∧
    acc.2 = (λ key, encoded key encoding) <$> page_keys true prior)) in Hr as (_ & Ho & Hp); [done|..].
  - intros [os ps] [key []]; auto with broker.
  - done.
  - intros prior [key common] [os ps] w1 [os' ps'] w2 _ (Hs & Ho & Hp) Hf _. simpl in Ho, Hp.
    rewrite !page_keys_app. destruct common; simpl in Hf.
    + injection Hf as <- <- <-. simpl. rewrite app_nil_r, fmap_app. by subst.
    + apply bind_ok in Hf as (info & w3 & Hh & Hf). injection Hf as <- <- <-. quiet_step Hh Hs3.
      apply head_ok in Hh as (file & Hfile & ->); [|by rewrite (same_meta _ _ Hs)].
      split; [by etrans|]. simpl. rewrite app_nil_r. split; [|done]. apply Forall2_app; [done|].
      constructor; [|done]. split; [done|]. exists file. rewrite (same_data _ _ Hs) in Hfile. split; [done|].
      simpl. unfold info_of, meta_at. by rewrite (same_meta _ _ Hs).
Qed.

(** Clocks that do not go back. *)
Definition steady (c : clock) : Prop :=
  (∀ i j : nat, i ≤ j → (mono_at c i ≤ mono_at c j)%Z) ∧ (∀ i j : nat, i ≤ j → (utc_at c i ≤ utc_at c j)%Z) ∧
  (∀ i : nat, (0 ≤ utc_at c i)%Z).
(** A check at the end of a run vouches for all of it. *)
Lemma checked_lived rq session w w1 u w2 :
  steady (fw_clock w) → ticks w w1 → rq_check rq session w1 = (Ok u, w2) → lived session w w1.
Proof.
  intros (Hm & Hu & Hpos) [Em Eu Et] Hr. unfold rq_check in Hr. apply bind_ok in Hr as (u1 & w3 & Hc & _).
  unfold on_clock in Hc. destruct (map_err FS_Session (vs_check session (rq_deadline rq)) (fw_clock w1)) as [r c] eqn:Ec.
  injection Hc as -> _. apply map_err_ok, vs_check_ok in Ec as (Hdead & [_ Hexp] & _). rewrite Em in Hdead. rewrite Eu in Hexp.
  intros n [_ Hn]. specialize (Hm n (tick (fw_clock w1))). specialize (Hu n (S (tick (fw_clock w1)))).
  specialize (Hpos n). lia.
Qed.
(** Where a page starts: after the key of its cursor, or the one given. *)
Definition cursor_of (input : FilesystemListRequest) : option Cursor :=
  token ← lr_continuation_token input; data ← b64_decode token; cursor_from_slice data.
Definition marker_of (input : FilesystemListRequest) : string :=
  match cursor_of input with Some c => cu_marker c | None => default "" (lr_start_after input) end.
Definition selection_of (input : FilesystemListRequest) (maximum : nat) : Selection :=
  {| sl_prefix := lr_prefix input; sl_delimiter := is_some_and (lr_delimiter input) (λ _, true);
     sl_marker := marker_of input; sl_limit := S maximum |}.
(** The page that lists the first of the candidates [all]. *)
Record page_of (w : World) (input : FilesystemListRequest) (maximum : nat) (all : list Candidate)
    (page : FilesystemListPage) : Prop := {
  pg_objects : Forall2 (lists w (lr_encoding input)) (page_keys false (take maximum all)) (lp_objects page);
  pg_prefixes : lp_common_prefixes page = (λ key, encoded key (lr_encoding input)) <$> page_keys true (take maximum all);
  pg_count : lp_key_count page = Z.of_nat (length (take maximum all));
  pg_truncated : lp_is_truncated page = true ↔ maximum < length all;
  pg_token : if lp_is_truncated page
             then ∃ token, lp_next_token page = Some token ∧ next_token input (take maximum all) = Ok token
             else lp_next_token page = None;
}.
Lemma read_cursor_ok session input token w cursor w' :
  read_cursor session input token w = (Ok cursor, w') → lr_continuation_token input = Some token →
  cursor_of input = Some cursor ∧ cu_prefix cursor = lr_prefix input ∧ cu_delimiter cursor = lr_delimiter input ∧
  same_trees w w' ∧ ticks w w'.
Proof.
  intros Hr Htok. split; [|split; [|split]].
  4: { split; unfold read_cursor in Hr; [quiet_step Hr Hs|tick_step Hr Hs]; done. }
  all: unfold read_cursor in Hr; invert_run Hr; bool_to_prop; subst; unfold cursor_of; rewrite ?Htok; simpl.
  - by repeat match goal with E : _ = Some _ |- _ => rewrite E; clear E; simpl end.
  - by apply str_eqb_eq.
  - done.
Qed.
(** The end of an operation without effects, when it succeeded. *)
Lemma then_check_lived {A} rq session (m : FsM A) w a w' :
  keeps ticks m → then_check rq session m w = (Ok a, w') → steady (fw_clock w) →
  ∃ w1, m w = (Ok a, w1) ∧ lived session w w1.
Proof.
  intros Hk Hr Hst. unfold then_check in Hr. apply bind_ok in Hr as (r & w1 & Ho%outcome_run & Hr).
  apply bind_ok in Hr as (u & w2 & Hc & Hr). injection Hr as -> _. exists w1. split; [done|].
  eapply checked_lived; [done|by eapply Hk|done].
Qed.
Lemma keeps_get {R : World → World → Prop} `{!PreOrder R} {E} : keeps R (get (E:=E)).
Proof. by intros w x w' [= _ <-]. Qed.
#[local] Hint Extern 1 (keeps _ get) => apply keeps_get; apply _ : broker.
Lemma quiet_list_page {R} `{!QuietRel R} cfg session rq input maximum sl :
  keeps R (list_page cfg session rq input maximum sl).
Proof. unfold list_page. auto 30 with broker. Qed.
Lemma quiet_read_cursor {R} `{!QuietRel R} session input token : keeps R (read_cursor session input token).
Proof. unfold read_cursor. auto 30 with broker. Qed.
#[local] Hint Resolve quiet_list_page quiet_read_cursor : broker.
Lemma quiet_list_objects {R} `{!QuietRel R} cfg session input rq : keeps R (list_objects cfg session input rq).
Proof. unfold list_objects. auto 40 with broker. Qed.
(** What the walk gathered, cut to a page. *)
Lemma take_page {A} maximum (all : list A) :
  let found := take (S maximum) all in
  (maximum <? length found) = (maximum <? length all) ∧
  (if maximum <? length found then removelast found else found) = take maximum all.
Proof.
  intros found. assert (length found = S maximum `min` length all) as Hl by (unfold found; rewrite length_take; lia).
  rewrite Hl. destruct (Nat.ltb_spec maximum (S maximum `min` length all)).
  - split; [symmetry; apply Nat.ltb_lt; lia|]. rewrite removelast_firstn_len, Hl. unfold found. rewrite take_take. f_equal. lia.
  - split; [symmetry; apply Nat.ltb_ge; lia|]. unfold found. rewrite !take_ge by lia. done.
Qed.
Lemma list_page_ok cfg session rq input maximum w page w' :
  list_page cfg session rq input maximum (selection_of input maximum) w = (Ok page, w') →
  tree_wf (fw_data w) → tree_wf (fw_meta w) → lived session w w' →
  ∃ all, StronglySorted lt_ord all ∧
    (∀ c, c ∈ all ↔ found (selection_of input maximum) session (fw_data w) [] c) ∧ page_of w input maximum all page.
Proof.
  unfold list_page. intros Hr Hwd Hwm Hl. apply bind_ok in Hr as (w0 & w1 & [= <- <-] & Hr).
  apply bind_ok in Hr as (candidates & w1 & Hw & Hr). quiet_step Hw Hs1. tick_step Hw Ht1. tick_step Hr Ht2.
  destruct (walk_ok _ session _ rq {| d_root := RData; d_path := [] |} [] [] w candidates w1 Hw) as (xs & Hff & Hin);
    [done|by left|done|by eapply lived_sub|done|].
  simpl in Hff, Hin. unfold first_found in Hff. change (sl_limit _) with (S maximum) in Hff.
  exists (bset_of xs). split; [apply bset_of_sorted|]. split; [intros c; by rewrite elem_of_bset_of|].
  destruct (take_page maximum (bset_of xs)) as [Htr Hcut]. rewrite <- Hff in Htr, Hcut. rewrite Hcut, Htr in Hr.
  set (all := bset_of xs) in *. clearbody all.
  apply bind_ok in Hr as (token & w2 & Htok & Hr). quiet_step Htok Hs2.
  apply bind_ok in Hr as ([objects prefixes] & w3 & Hpe & Hr). injection Hr as <- _.
  assert (same_trees w w2) as Hs by (by etrans).
  apply page_entries_ok in Hpe as [Ho Hp]; [|by rewrite (same_meta _ _ Hs)].
  assert (∀ key o, lists w2 (lr_encoding input) key o → lists w (lr_encoding input) key o) as Hlists.
  { intros key o. unfold lists, info_of, meta_at. by rewrite (same_data _ _ Hs), (same_meta _ _ Hs). }
  split; simpl; [by eapply Forall2_impl|done|done|by rewrite Nat.ltb_lt|].
  destruct (maximum <? length all); [|by injection Htok as <- _].
  apply bind_ok in Htok as (t & w4 & Ht & Htok). injection Htok as <- _. injection Ht as Ht _. eauto.
Qed.
Lemma page_of_same w w1 input maximum all page :
  same_trees w w1 → page_of w1 input maximum all page → page_of w input maximum all page.
Proof.
  intros Hs [Ho Hp Hc Ht Htok]. split; [|done..]. eapply Forall2_impl; [done|]. intros key o.
  unfold lists, info_of, meta_at. by rewrite (same_data _ _ Hs), (same_meta _ _ Hs).
Qed.
Lemma list_objects_exact cfg session input rq w page w' :
  tree_wf (fw_data w) → tree_wf (fw_meta w) → steady (fw_clock w) →
  list_objects cfg session input rq w = (Ok page, w') →
  ∃ maximum all, maximum_keys (lr_max_keys input) = Ok maximum ∧
    authorized cfg session OpRead (prefix_key (lr_prefix input)) ∧ same_trees w w' ∧
    StronglySorted lt_ord all ∧
    (∀ c, c ∈ all ↔ found (selection_of input maximum) session (fw_data w) [] c) ∧
    page_of w input maximum all page.
Proof.
  intros Hwd Hwm Hst Hr. pose proof (quiet_list_objects _ _ _ _ _ _ _ Hr) as Hsame.
  unfold list_objects in Hr.
  apply bind_ok in Hr as (u & w1 & Ha & Hr). quiet_step Ha Hs1. tick_step Ha Ht1. apply authorize_ok in Ha.
  apply then_check_lived in Hr as (w2 & Hr & Hl);
    [|auto 40 with broker|by destruct Ht1 as [Em Eu _]; unfold steady in *; rewrite Em, Eu].
  invert_run Hr. quiet_step R0 Hs2. tick_step R0 Ht2. tick_step Hr Ht3.
  assert (a0 = cursor_of input) as ->.
  { destruct (lr_continuation_token input) as [token|] eqn:Et.
    - invert_run R0. by apply read_cursor_ok in R1 as (-> & _).
    - injection R0 as <- _. unfold cursor_of. by rewrite Et. }
  change (list_page cfg session rq input a (selection_of input a) s = (Ok page, w2)) in Hr.
  assert (same_trees w s) as Hs by (by etrans).
  apply list_page_ok in Hr as (all & Hsort & Hall & Hpage);
    [|by rewrite ?(same_data _ _ Hs), ?(same_meta _ _ Hs)..|by eapply lived_sub].
  exists a, all. split; [done|]. split; [done|]. split; [done|]. split; [done|].
  rewrite (same_data _ _ Hs) in Hall. split; [done|]. by eapply page_of_same.
Qed.
(** A page of a listing is exact.  When it succeeds, and the clocks do not
    go back meanwhile, it lists the first candidates, in the order of their
    text, of all those after its marker: the keys and common prefixes of the
    files below the prefix that the session may read.  Each object comes with
    the description of its own file; the page is truncated when and only when
    candidates are left, and its token then starts the next page at its last
    candidate.  The order in which the directories list their entries does not
    matter. *)
Theorem list_page_exact cfg session input rq w page w' :
  tree_wf (fw_data w) → tree_wf (fw_meta w) → steady (fw_clock w) →
  list_objects cfg session input rq w = (Ok page, w') →
  ∃ maximum all, maximum_keys (lr_max_keys input) = Ok maximum ∧
    authorized cfg session OpRead (prefix_key (lr_prefix input)) ∧ same_trees w w' ∧
    StronglySorted lt_ord all ∧
    (∀ c, c ∈ all ↔ found (selection_of input maximum) session (fw_data w) [] c) ∧
    page_of w input maximum all page.
Proof. intros Hwd Hwm Hst Hr. by eapply list_objects_exact. Qed.

(** ** Following the pages *)

(** The key of a common prefix ends in a slash; a key that can be read does
    not. *)
Lemma find_byte_Some b l n : find_byte b l = Some n → ∃ l1 l2, l = l1 ++ b :: l2 ∧ length l1 = n.
Proof.
  revert n. induction l as [|c l IH]; intros n; simpl; [done|]. destruct (Ascii.eqb b c) eqn:E.
  - apply Ascii.eqb_eq in E as ->. intros [= <-]. by exists [], l.
  - destruct (find_byte b l) as [m|]; [|done]. intros [= <-].
    destruct (IH _ eq_refl) as (l1 & l2 & -> & <-). by exists (c :: l1), l2.
Qed.
Lemma valid_key_no_slash s : valid_key (s +:+ "/") = false.
Proof.
  apply not_true_iff_false. intros Hv%valid_key_segments. change (s +:+ "/") with (s +:+ String "/" "") in Hv.
  rewrite split_app_sep in Hv. apply Forall_app in Hv as [_ Hv]. apply Forall_cons in Hv as [[Hv _] _]. done.
Qed.
Lemma candidate_key prefix delimiter key :
  starts_with key prefix = true →
  let c := candidate_of prefix delimiter key in
  c = (key, false) ∨ c.2 = true ∧ ∃ s, c.1 = s +:+ "/".
Proof.
  intros Hp. unfold candidate_of. destruct delimiter; [|by left].
  destruct (find_byte _ _) as [n|] eqn:E; [|by left]. right. split; [done|]. simpl.
  apply find_byte_Some in E as (l1 & l2 & E & <-). apply starts_with_spec in Hp as [r ->].
  rewrite bytes_app, drop_app_length in E. rewrite bytes_app, E.
  exists (prefix +:+ of_bytes l1). apply bytes_inj. rewrite bytes_of_bytes, !bytes_app, bytes_of_bytes. simpl.
  rewrite <- Nat.add_assoc, take_app_add, take_app_add. simpl. by rewrite <- app_assoc.
Qed.
Lemma found_key_inj sl session t d c c' : found sl session t d c → found sl session t d c' → c.1 = c'.1 → c = c'.
Proof.
  intros (r1 & x1 & m1 & _ & _ & Hs1 & Hm1 & Hc1 & _) (r2 & x2 & m2 & _ & _ & Hs2 & Hm2 & Hc2 & _) Heq.
  unfold selected, may in *. bool_to_prop.
  assert (∀ c, (∃ s, c.1 = s +:+ "/") → ∀ key, c = (key, false) → valid_key key = true → False) as Hslash.
  { intros c0 [s0 Hs0] key -> Hv. simpl in Hs0. subst key. by rewrite valid_key_no_slash in Hv. }
  destruct (candidate_key (sl_prefix sl) (sl_delimiter sl) (join "/" (d ++ r1)) ltac:(done)) as [E1|[E1 S1]],
    (candidate_key (sl_prefix sl) (sl_delimiter sl) (join "/" (d ++ r2)) ltac:(done)) as [E2|[E2 S2]];
    rewrite <- ?Hc1, <- ?Hc2 in *.
  - destruct c, c'. simpl in *. congruence.
  - exfalso. rewrite <- Heq in S2. by eapply Hslash.
  - exfalso. rewrite Heq in S1. by eapply Hslash.
  - destruct c, c'. simpl in *. congruence.
Qed.
(** The request for the page after a token. *)
Definition next_input (input : FilesystemListRequest) (token : string) : FilesystemListRequest :=
  {| lr_prefix := lr_prefix input; lr_delimiter := lr_delimiter input; lr_start_after := lr_start_after input;
     lr_continuation_token := Some token; lr_max_keys := lr_max_keys input; lr_encoding := lr_encoding input |}.
(** A client asks for page after page, each with the token of the one before, for
    as long as it likes; meanwhile no object is written or deleted.  [stop] is the
    token it has not followed, if the last page had one. *)
Inductive pages (cfg : FilesystemStoreConfig) (session : VerifiedFilesystemSession) (rq : FilesystemRequest) (w : World)
    : FilesystemListRequest → list FilesystemListPage → option string → Prop :=
| Pages_last input w1 page w2 :
    same_trees w w1 → steady (fw_clock w1) → list_objects cfg session input rq w1 = (Ok page, w2) →
    pages cfg session rq w input [page] (lp_next_token page)
| Pages_more input w1 page w2 token rest stop :
    same_trees w w1 → steady (fw_clock w1) → list_objects cfg session input rq w1 = (Ok page, w2) →
    lp_next_token page = Some token → pages cfg session rq w (next_input input token) rest stop →
    pages cfg session rq w input (page :: rest) stop.
Lemma maximum_keys_pos n m : maximum_keys n = Ok m → 0 < m ≤ Z.to_nat 1000.
Proof.
  unfold maximum_keys. destruct n as [n|]; [|intros [= <-]; lia].
  destruct (Z.eqb_spec n 0); [intros [= <-]; lia|]. destruct (Z.leb_spec 1 n), (Z.leb_spec n 1000); intros [= <-]; lia.
Qed.
Lemma lt_ord_candidate (c c' : Candidate) : lt_ord c c' → str_lt c.1 c'.1 ∨ c.1 = c'.1.
Proof.
  unfold lt_ord. simpl. unfold pair_cmp, str_lt, str_ltb. change (cmp c.1 c'.1) with (str_cmp c.1 c'.1).
  destruct (str_cmp c.1 c'.1) eqn:E; [|by left|done]. intros _. right. by apply str_cmp_eq.
Qed.
(** The candidates after the last of a page are those of the next. *)
Lemma later_drop (all : list Candidate) maximum last_ :
  StronglySorted lt_ord all → (∀ c c', c ∈ all → c' ∈ all → c.1 = c'.1 → c = c') →
  last (take maximum all) = Some last_ → ∀ c, c ∈ drop maximum all ↔ c ∈ all ∧ str_lt last_.1 c.1.
Proof.
  intros Hs Hinj [front Hfront]%last_Some c. pose proof (take_drop maximum all) as Hsplit. rewrite Hfront in Hsplit.
  rewrite <- Hsplit in Hs. apply SSorted_app in Hs as (Hs & _ & Hcross). apply SSorted_app in Hs as (_ & _ & Hlast).
  assert (∀ x, x ∈ all ↔ x ∈ front ∨ x = last_ ∨ x ∈ drop maximum all) as Hall.
  { intros x. rewrite <- Hsplit at 1. set_solver. }
  split.
  - intros Hc. split; [by rewrite Hall; auto|]. assert (lt_ord last_ c) as Hlt by (apply Hcross; set_solver).
    destruct (lt_ord_candidate _ _ Hlt) as [?|Heq]; [done|]. exfalso.
    apply Hinj in Heq; [subst c; by apply (irreflexivity _) in Hlt|rewrite Hall; auto..].
  - rewrite Hall. intros [[Hf|[->|?]] Hlt]; [|by apply str_lt_irrefl in Hlt|done]. exfalso.
    assert (lt_ord c last_) as Hlt' by (apply Hlast; set_solver).
    destruct (lt_ord_candidate _ _ Hlt') as [Hk|Hk]; [|rewrite Hk in Hlt; by apply str_lt_irrefl in Hlt].
    apply (str_lt_irrefl c.1). by eapply str_lt_trans.
Qed.
Lemma page_keys_take common maximum (all : list Candidate) :
  page_keys common all = page_keys common (take maximum all) ++ page_keys common (drop maximum all).
Proof. by rewrite <- page_keys_app, take_drop. Qed.

Section laws.
Context (b64_decode_encode : ∀ s, b64_decode (b64_encode s) = Some s)
  (cursor_round_trip : ∀ c data, cursor_to_vec c = Some data → cursor_from_slice data = Some c).
Lemma elem_of_take_in {A} n (l : list A) x : x ∈ take n l → x ∈ l.
Proof. intros (i & Hi & _)%elem_of_take. by eapply list_elem_of_lookup_2. Qed.
Lemma SSorted_drop n (all : list Candidate) : StronglySorted lt_ord all → StronglySorted lt_ord (drop n all).
Proof. rewrite <- (take_drop n all) at 1. by intros (_ & ? & _)%SSorted_app. Qed.
(** What the next page finds. *)
Lemma found_next input token session t d last_ c :
  marker_of (next_input input token) = last_.1 → found (selection_of input 0) session t d last_ →
  found (selection_of (next_input input token) 0) session t d c ↔
  found (selection_of input 0) session t d c ∧ str_lt last_.1 c.1.
Proof.
  intros Hm (r0 & x0 & m0 & _ & _ & _ & _ & _ & Hlater). unfold found, later in *. simpl in *. rewrite Hm. split.
  - intros (rest & x & m & Hne & Hf & Hs & Hmay & Hc & Hlt). split; [|done]. exists rest, x, m.
    do 5 (split; [done|]). by eapply str_lt_trans.
  - intros [(rest & x & m & Hne & Hf & Hs & Hmay & Hc & Hlt) Hlt2]. by exists rest, x, m.
Qed.
Lemma next_marker input candidates token :
  next_token input candidates = Ok token →
  ∃ last_, last candidates = Some last_ ∧ marker_of (next_input input token) = last_.1.
Proof.
  unfold next_token. intros Hr. invert_ok Hr. injection Hr as <-.
  exists a. split; [done|]. unfold marker_of, cursor_of. simpl. rewrite b64_decode_encode. simpl.
  by rewrite (cursor_round_trip _ _ R0).
Qed.
(** C15. Following the tokens lists everything once, and ends.  Let a client ask
    for page after page, as many as it likes, while no object is written or
    deleted and the clock does not run backwards.  There is one list of all the candidates after its first marker, in
    order, and the pages are the first of these, each once and in order.  Each
    page with a token advances by at least one of them, and a token is given only
    while some are left; so the client cannot get more pages than there are
    candidates, and one, and when it reaches a page without a token it has got
    them all. *)
Theorem list_pages_complete cfg session rq w input ps stop :
  tree_wf (fw_data w) → tree_wf (fw_meta w) → pages cfg session rq w input ps stop →
  ∃ all n, StronglySorted lt_ord all ∧
    (∀ c, c ∈ all ↔ found (selection_of input 0) session (fw_data w) [] c) ∧
    Forall2 (lists w (lr_encoding input)) (page_keys false (take n all)) (concat (lp_objects <$> ps)) ∧
    concat (lp_common_prefixes <$> ps) = (λ key, encoded key (lr_encoding input)) <$> page_keys true (take n all) ∧
    match stop with
    | None => n = length all ∧ length ps ≤ S n
    | Some _ => length ps ≤ n < length all
    end.
Proof.
  intros Hwd Hwm. assert (∀ w1 page w2 input, same_trees w w1 → steady (fw_clock w1) →
    list_objects cfg session input rq w1 = (Ok page, w2) →
    ∃ maximum all, maximum_keys (lr_max_keys input) = Ok maximum ∧ StronglySorted lt_ord all ∧
      (∀ c, c ∈ all ↔ found (selection_of input 0) session (fw_data w) [] c) ∧
      page_of w input maximum all page) as Hone.
  { clear input. intros w1 page w2 input Hs Hst Hr.
    destruct (list_objects_exact _ _ _ _ _ _ _ ltac:(by rewrite (same_data _ _ Hs)) ltac:(by rewrite (same_meta _ _ Hs)) Hst Hr)
      as (maximum & all & Hmax & _ & _ & Hsort & Hall & Hpage).
    exists maximum, all. rewrite (same_data _ _ Hs) in Hall. do 3 (split; [done|]). by eapply page_of_same. }
  induction 1 as [input w1 page w2 Hs Hst Hr|input w1 page w2 token rest stop Hs Hst Hr Htok _ IH];
    destruct (Hone _ _ _ _ Hs Hst Hr) as (maximum & all & Hmax & Hsort & Hall & [Ho Hp _ Htr Hnext]); apply maximum_keys_pos in Hmax.
  - cbn [fmap list_fmap concat]. rewrite !app_nil_r. destruct (lp_is_truncated page) eqn:Et.
    + destruct Hnext as (t & -> & _). pose proof (proj1 Htr eq_refl). exists all, maximum. do 4 (split; [done|]). simpl. lia.
    + rewrite Hnext. assert (take maximum all = take (length all) all) as Hfull.
      { rewrite (take_ge all (length all)) by lia. apply take_ge. destruct (decide (maximum < length all)) as [Hlt|]; [|lia]. by apply Htr in Hlt. }
      rewrite Hfull in *. exists all, (length all). do 4 (split; [done|]). simpl. lia.
  - destruct (lp_is_truncated page) eqn:Et; [|by rewrite Hnext in Htok].
    destruct Hnext as (t & Ht & Hnext). rewrite Ht in Htok. injection Htok as ->.
    destruct (next_marker _ _ _ Hnext) as (last_ & Hlast & Hmark).
    destruct IH as (all2 & n & Hsort2 & Hall2 & Ho2 & Hp2 & Hlen).
    assert (all2 = drop maximum all) as ->.
    { apply SSorted_ext; [done|by eapply SSorted_drop|]. intros c.
      rewrite (later_drop all maximum last_ Hsort), Hall2, Hall; [|intros c1 c2; rewrite !Hall; apply found_key_inj|done].
      apply found_next; [done|]. apply Hall. eapply elem_of_take_in, last_Some_elem_of, Hlast. }
    pose proof (proj1 Htr eq_refl) as Hlt. exists all, (maximum + n). do 2 (split; [done|]). cbn [fmap list_fmap concat].
    rewrite <- take_take_drop, !page_keys_app, fmap_app. split; [by apply Forall2_app|]. split; [by f_equal|].
    rewrite length_drop in Hlen. simpl. destruct stop; lia.
Qed.
End laws.

(** ** Copying *)

Lemma quiet_lock_pair {R} `{!QuietRel R} session rq a b : keeps R (lock_pair session rq a b).
Proof. unfold lock_pair. destruct (_ <=? _)%Z; auto with broker. Qed.
Lemma certain_lock_pair session rq a b : certain (lock_pair session rq a b).
Proof. unfold lock_pair. destruct (_ <=? _)%Z; auto with broker. Qed.
#[local] Hint Resolve quiet_lock_pair certain_lock_pair : broker.
(** A file read to its end gives its content. *)
Lemma stage_file_reader cfg rq session content w n data w' :
  stage_body cfg rq session 0 "" (file_reader content) w = (Ok (n, data), w') →
  data = content ∧ n = len data ∧ (n = 0 ∨ n ≤ sc_max_object_bytes cfg)%Z.
Proof.
  intros Hr.
  set (I := λ acc rd, ∃ rest, rd = chunks_reader rest ∧ acc +:+ foldr String.append "" rest = content).
  edestruct (stage_body_ind w I) as (Hn & Hle & rd' & w1 & (rest & -> & Hcontent) & _ & Hend); [| | | | |exact Hr|].
  - intros acc rd w1 chunk rd' w2 (rest & -> & Hacc) _ Hread. destruct rest as [|c rest]; simpl in Hread; invert_run Hread; [done|].
    injection Hread as -> ->. exists rest. split; [done|]. by rewrite str_app_assoc.
  - apply quiet_chunks_reader.
  - done.
  - exists (file_chunks content). split; [done|]. apply (file_chunks_concat content).
  - done.
  - split; [|done]. destruct rest as [|c rest]; [by rewrite str_app_nil_r in Hcontent|].
    simpl in Hend. by invert_run Hend.
Qed.
(** The source is what is written to the target. *)
Lemma copy_inner_run cfg session source target sc tc rq w y w' :
  (do? lock_pair session rq source target in
   let? file := data_file source in
   let? info := describe cfg source file session rq in
   do? lift_result (conditions_check sc (Some (oi_etag info))) in
   let? prepared := prepare cfg session target (file_reader file.1) (Some (oi_content_type info)) None rq in
   publish_locked cfg session target prepared tc rq) w = (y, w') →
  tree_wf (fw_data w) → tree_wf (fw_meta w) →
  (∃ e, y = Err e ∧ is_uncertain e = false ∧ same_trees w w') ∨
  (∃ file po w2, file_at (fw_data w) source = Some file ∧ conditions_check sc (tag_at w source) = Ok tt ∧
     staged cfg target (Some (oi_content_type (info_of w source file))) None file.1 po ∧ same_trees w w2 ∧
     published target po tc w2 y w').
Proof.
  intros Hr Hwd Hwm. assert (∀ e : FilesystemStoreError, ∀ w1, is_uncertain e = false → same_trees w w1 →
    ∃ e', Err (A:=FilesystemObjectInfo) e = Err e' ∧ is_uncertain e' = false ∧ same_trees w w1) as Hfail by eauto.
  run_cases Hr; quiet_step R Hs1; [|left; apply Hfail; [by eapply certain_lock_pair|done]].
  run_cases Hr; quiet_step R0 Hs2; [|left; apply Hfail; [by eapply certain_data_file|by etrans]].
  assert (same_trees w s0) as Hw0 by (by etrans). apply data_file_run in R0 as [Hf _]. specialize (Hf _ eq_refl).
  rewrite (same_data _ _ Hs1) in Hf.
  run_cases Hr; quiet_step R0 Hs3; [|left; apply Hfail; [by eapply certain_describe|by etrans]].
  apply describe_ok in R0; [|by rewrite (same_meta _ _ Hw0)].
  assert (a1 = info_of w source a0) as -> by (rewrite R0; unfold info_of, meta_at; by rewrite (same_meta _ _ Hw0)).
  assert (same_trees w s1) as Hw1 by (by etrans).
  run_cases Hr; [|left; apply Hfail; [by eapply certain_conditions|by injection R1 as _ <-]].
  rename R1 into Hc. destruct a1.
  pose proof (quiet_prepare cfg session target _ (Some (oi_content_type (info_of w source a0))) None rq
    (quiet_chunks_reader (file_chunks a0.1))) as Hq.
  run_cases Hr; pose proof (Hq _ _ _ R1) as Hs4; [|left; apply Hfail; [by eapply certain_prepare|by etrans]].
  apply prepare_ok in R1 as (n & data & w3 & w4 & _ & Hst & Hstaged). apply stage_file_reader in Hst as (-> & Hn & Hle).
  assert (same_trees w s2) as Hw2 by (by etrans).
  apply publish_locked_run in Hr; [|by rewrite ?(same_data _ _ Hw2), ?(same_meta _ _ Hw2)..].
  right. exists a0, a1, s2. split; [done|]. split; [unfold tag_at; by rewrite Hf|]. split; [by apply Hstaged|done].
Qed.
(** A copy writes to the target the content the source has, read under the
    locks of both keys, on condition of the entity tags of both.  Its outcomes
    are those of a write: the target is the whole content of the source, also
    when the commit is uncertain, or no object changed. *)
Theorem copy_refines cfg session source target sc tc rq w x w' :
  tree_wf (fw_data w) → tree_wf (fw_meta w) →
  copy cfg session source target sc tc rq w = (x, w') →
  (∃ e, x = Err e ∧ is_uncertain e = false ∧ same_trees w w') ∨
  (authorized cfg session OpRead source ∧ authorized cfg session OpWrite target ∧
   ∃ file, file_at (fw_data w) source = Some file ∧ conditions_check sc (tag_at w source) = Ok tt ∧
     put_outcome cfg target file.1 tc w x w').
Proof.
  intros Hwd Hwm. unfold copy. intros Hr.
  run_cases Hr; quiet_step R Hs1; [|left; exists e; split; [done|]; split; [by eapply certain_authorize|done]].
  run_cases Hr; quiet_step R0 Hs2; [|left; exists e; split; [done|]; split; [by eapply certain_authorize|by etrans]].
  apply authorize_ok in R, R0. apply finish_write_run in Hr as (y & w1 & Hm & Hs3 & Hx).
  assert (same_trees w s0) as Hs by (by etrans).
  apply copy_inner_run in Hm as [(e & -> & He & Hs4)|(file & po & w2 & Hf & Hc & Hst & Hs4 & Hp)];
    [..|by rewrite (same_data _ _ Hs)|by rewrite (same_meta _ _ Hs)].
  - left. rewrite He in Hx. destruct Hx as (e' & -> & He'). exists e'. split; [done|]. split; [done|].
    etrans; [exact Hs|]. by etrans.
  - right. split; [done|]. split; [done|]. exists file. rewrite (same_data _ _ Hs), (tag_at_same _ _ source Hs) in *.
    split; [done|]. split; [done|]. eapply put_outcome_finish; [|done|done].
    eapply published_outcome; [done|done|by etrans|done|done].
Qed.

(** ** Batch deletion *)

(** The results reported for the outcomes of the keys. *)
Definition report (quiet : bool) (keys : list string) (outs : list (result FilesystemStoreError unit))
    : list FilesystemDeleteResult :=
  filter (λ r, negb quiet || negb (is_ok (dr_result r)) = true)
    (zip_with (λ key r, {| dr_key := key; dr_result := r |}) keys outs).
(** The objects left by them. *)
Fixpoint delete_keys (keys : list string) (outs : list (result FilesystemStoreError unit)) (m : gmap path string)
    : gmap path string :=
  match keys, outs with
  | key :: keys, r :: outs => delete_keys keys outs (if done_or_uncertain r then delete (kpath key) m else m)
  | _, _ => m
  end.
Lemma delete_object_run cfg session key rq w r w' :
  tree_wf (fw_data w) → tree_wf (fw_meta w) → delete_object cfg session key rq w = (r, w') →
  tree_wf (fw_data w') ∧ tree_wf (fw_meta w') ∧
  objects (fw_data w') = (if done_or_uncertain r then delete (kpath key) (objects (fw_data w)) else objects (fw_data w)) ∧
  (done_or_uncertain r = false → same_trees w w').
Proof.
  intros Hwd Hwm Hr. unfold delete_object in Hr. apply delete_inner_run in Hr as [(? & ? & _ & Hx) _]; [|done..].
  split; [done|]. split; [done|]. destruct r as [u|e]; simpl; [by destruct Hx as [-> _]|].
  destruct (is_uncertain e); [by destruct Hx as [-> _]|]. by rewrite (same_data _ _ Hx).
Qed.
Lemma interrupted_certain results cause processed :
  is_uncertain (interrupted_batch results cause processed) = false → processed = false.
Proof.
  unfold interrupted_batch. destruct (omap _ results) as [|e es] eqn:Eo; [by destruct processed|].
  assert (e ∈ e :: es) as He by (by left). rewrite <- Eo in He. apply list_elem_of_omap in He as (r & _ & Hr).
  destruct (dr_result r) as [u|e']; [done|]. destruct (is_uncertain e') eqn:Eu; [|done]. injection Hr as ->. congruence.
Qed.
Lemma report_cons quiet key keys r outs results :
  (if negb quiet || negb (is_ok r) then results ++ [{| dr_key := key; dr_result := r |}] else results) ++ report quiet keys outs =
  results ++ report quiet (key :: keys) (r :: outs).
Proof.
  unfold report. cbn [zip_with]. rewrite filter_cons. simpl.
  destruct (negb quiet || negb (is_ok r)); simpl; by rewrite <- ?(assoc_L (++)).
Qed.
Lemma delete_each_run cfg session quiet rq results processed keys w x w' :
  tree_wf (fw_data w) → tree_wf (fw_meta w) →
  delete_each cfg session quiet rq results processed keys w = (x, w') →
  match x with
  | Err e => is_uncertain e = false → processed = false ∧ same_trees w w'
  | Ok out => ∃ outs, length outs = length keys ∧ out = results ++ report quiet keys outs ∧
                objects (fw_data w') = delete_keys keys outs (objects (fw_data w))
  end.
Proof.
  revert results processed w. induction keys as [|key keys IH]; intros results processed w Hwd Hwm Hr;
    cbn [delete_each] in Hr; (apply bind_cases in Hr as [(c & w1 & Hc%outcome_run & Hr)|(e & He & _)];
      [|by unfold outcome in He; destruct (rq_check rq session w)]); quiet_step Hc Hs1;
    (destruct c as [u|cause]; [|injection Hr as <- <-; intros Hu%interrupted_certain; done]).
  - injection Hr as <- <-. exists []. rewrite (same_data _ _ Hs1), app_nil_r. done.
  - apply bind_cases in Hr as [(r & w2 & Hd%outcome_run & Hr)|(e & He & _)];
      [|by unfold outcome in He; destruct (delete_object _ _ _ _ w1)].
    apply delete_object_run in Hd as (Hwd2 & Hwm2 & Hobj & Hsame); [|by rewrite ?(same_data _ _ Hs1), ?(same_meta _ _ Hs1)..].
    apply IH in Hr; [|done..]. destruct x as [out|e].
    + destruct Hr as (outs & Hlen & -> & Ho). exists (r :: outs). rewrite report_cons, Ho, Hobj, (same_data _ _ Hs1).
      simpl. by rewrite Hlen.
    + intros Hu. destruct (Hr Hu) as [Hp Hs3]. apply orb_false_iff in Hp as [-> Hp]. split; [done|].
      etrans; [done|]. etrans; [by apply Hsame|done].
Qed.
(** C36. A batch deletion tells what became of each key.  When it returns, every
    key has an outcome, the reports are those outcomes in the order of the keys
    (only the failures when they alone are asked for), and the objects left are
    those not deleted by an outcome that succeeded or is uncertain.  When it is
    interrupted with an error that does not say the commit is uncertain, nothing
    at all was changed. *)
Theorem delete_batch_reports cfg session keys quiet rq w x w' :
  tree_wf (fw_data w) → tree_wf (fw_meta w) →
  delete_batch cfg session keys quiet rq w = (x, w') →
  match x with
  | Err e => is_uncertain e = false → same_trees w w'
  | Ok out => ∃ outs, length outs = length keys ∧ out = report quiet keys outs ∧
                objects (fw_data w') = delete_keys keys outs (objects (fw_data w))
  end.
Proof.
  intros Hwd Hwm. unfold delete_batch. intros Hr. run_cases Hr; quiet_step R Hs1; [|done].
  destruct (negb _); [by injection Hr as <- <-|].
  apply delete_each_run in Hr; [|by rewrite ?(same_data _ _ Hs1), ?(same_meta _ _ Hs1)..].
  rewrite (same_data _ _ Hs1) in Hr. destruct x as [out|e]; [done|]. intros Hu. destruct (Hr Hu) as [_ Hs]. by etrans.
Qed.
End listing.

(** ** Examples *)

#[local] Existing Instance sample_ulid_lib.
#[local] Existing Instance sample_jwt_lib.
#[local] Existing Instance sample_session_lib.
#[local] Existing Instance sample_store_lib.
Definition sample_dir_order : DirOrder := {| dir_order := @rev string; dir_order_perm l := Permutation_sym (Permutation_rev l) |}.
#[local] Existing Instance sample_dir_order.
#[global] Instance Cursor_eq_dec : EqDecision Cursor.
Proof. solve_decision. Defined.
Definition sample_cursor_encode (c : Cursor) : string :=
  join sample_line [cu_prefix c; default "" (cu_delimiter c); cu_marker c].
Definition sample_cursor_decode (s : string) : option Cursor :=
  match split s sample_line with
  | [prefix; delimiter; marker] =>
      Some {| cu_prefix := prefix; cu_delimiter := if is_empty delimiter then None else Some delimiter; cu_marker := marker |}
  | _ => None
  end.
Definition sample_listing_lib : ListingLib :=
  {| cursor_to_vec := λ c, let s := sample_cursor_encode c in if decide (sample_cursor_decode s = Some c) then Some s else None;
     cursor_from_slice := sample_cursor_decode; byte_serialize := λ s, s |}.
#[local] Existing Instance sample_listing_lib.
Lemma sample_cursor_law c data :
  @cursor_to_vec sample_listing_lib c = Some data → @cursor_from_slice sample_listing_lib data = Some c.
Proof. simpl. case_decide; [|done]. by intros [= <-]. Qed.
Definition sample_listed_world : World :=
  {| fw_data := <[["a"] := NDir]> (<[["a"; "c"] := NFile "x" 78]> (<[["a"; "b"] := NFile "hello" 77]> ∅)); fw_meta := ∅;
     fw_multi := ∅; fw_clock := fw_clock sample_world; fw_faults := []; fw_times := [80%Z]; fw_waits := [] |}.
Definition sample_list_request : FilesystemListRequest :=
  {| lr_prefix := "a/"; lr_delimiter := Some "/"; lr_start_after := None; lr_continuation_token := None;
     lr_max_keys := Some 1%Z; lr_encoding := EncPlain |}.
Lemma sample_steady : steady (fw_clock sample_listed_world).
Proof. split; [by intros|]. by split; intros. Qed.
Lemma sample_listed_wf : tree_wf (fw_data sample_listed_world) ∧ tree_wf (fw_meta sample_listed_world).
Proof. split; apply tree_wfb_wf; vm_compute; reflexivity. Qed.
Notation sample_list input := (list_objects sample_cfg sample_session input sample_request sample_listed_world).
Lemma list_page_exact_witness :
  ∃ page w' maximum all, sample_list sample_list_request = (Ok page, w') ∧
    page_of sample_listed_world sample_list_request maximum all page.
Proof.
  destruct (sample_list sample_list_request) as [[page|e] w'] eqn:E; [|vm_compute in E; discriminate E].
  destruct (list_page_exact _ _ _ _ _ _ _ (proj1 sample_listed_wf) (proj2 sample_listed_wf) sample_steady E)
    as (maximum & all & _ & _ & _ & _ & _ & Hp). exists page, w', maximum, all. split; [reflexivity|exact Hp].
Defined.
Lemma directory_listing_complete_witness :
  found (selection_of sample_list_request 0) sample_session (fw_data sample_listed_world) [] ("a/c", false).
Proof.
  apply (directory_listing_complete _ _ _ "a"); [exact (proj1 sample_listed_wf)|..].
  - apply plain_namesb_plain. vm_compute. reflexivity.
  - reflexivity.
  - vm_compute. reflexivity.
  - exists "a/c", ("x", 78%Z). split; [|split; [|split; [|split]]]; vm_compute; reflexivity.
Defined.
Lemma list_pages_complete_witness :
  ∃ ps all, length ps = 2 ∧ pages sample_cfg sample_session sample_request sample_listed_world sample_list_request ps None ∧
    concat (lp_common_prefixes <$> ps) = page_keys true all.
Proof.
  destruct (sample_list sample_list_request) as [[page1|e] w1] eqn:E1; [|vm_compute in E1; discriminate E1].
  destruct (lp_next_token page1) as [token|] eqn:Et; [|vm_compute in E1; injection E1 as <- _; discriminate Et].
  destruct (sample_list (next_input sample_list_request token)) as [[page2|e] w2] eqn:E2;
    [|vm_compute in E1; injection E1 as <- _; injection Et as <-; vm_compute in E2; discriminate E2].
  assert (lp_next_token page2 = None) as Hn.
  { vm_compute in E1. injection E1 as <- _. injection Et as <-. vm_compute in E2. by injection E2 as <- _. }
  assert (pages sample_cfg sample_session sample_request sample_listed_world sample_list_request [page1; page2] None) as Hp.
  { eapply Pages_more; [reflexivity|exact sample_steady|exact E1|exact Et|].
    rewrite <- Hn. eapply Pages_last; [reflexivity|exact sample_steady|exact E2]. }
  destruct (list_pages_complete sample_b64_law sample_cursor_law _ _ _ _ _ _ _ (proj1 sample_listed_wf) (proj2 sample_listed_wf) Hp)
    as (all & n & _ & _ & _ & Hc & -> & _).
  exists [page1; page2], all. split; [reflexivity|]. split; [exact Hp|]. rewrite Hc, take_ge by lia. apply list_fmap_id.
Defined.
Lemma copy_refines_witness :
  ∃ w', copy sample_cfg sample_session "a/b" "a/d" no_conditions sample_conditions sample_request sample_listed_world = 
    ((copy sample_cfg sample_session "a/b" "a/d" no_conditions sample_conditions sample_request sample_listed_world).1, w') ∧
    objects (fw_data w') !! ["a"; "d"] = Some "hello".
Proof.
  assert (is_ok (copy sample_cfg sample_session "a/b" "a/d" no_conditions sample_conditions sample_request
    sample_listed_world).1 = true) as Hok by (vm_compute; reflexivity).
  destruct (copy sample_cfg sample_session "a/b" "a/d" no_conditions sample_conditions sample_request sample_listed_world)
    as [x w'] eqn:E. exists w'. split; [reflexivity|].
  destruct (copy_refines _ _ _ _ _ _ _ _ _ _ (proj1 sample_listed_wf) (proj2 sample_listed_wf) E)
    as [(e & He & _)|(_ & _ & file & Hf & _ & Hput)]; [by rewrite He in Hok|].
  destruct x as [info|e]; [|discriminate Hok]. destruct Hput as (_ & _ & _ & [Hobj _] & _).
  rewrite Hobj. change (kpath "a/d") with ["a"; "d"]. rewrite lookup_insert_eq. vm_compute in Hf. by injection Hf as <-.
Defined.
Lemma delete_batch_reports_witness :
  ∃ out w' outs, delete_batch sample_cfg sample_session ["a/b"; "z"] true sample_request sample_listed_world = (Ok out, w') ∧
    length outs = 2 ∧ out = report true ["a/b"; "z"] outs.
Proof.
  destruct (delete_batch sample_cfg sample_session ["a/b"; "z"] true sample_request sample_listed_world) as [[out|e] w'] eqn:E;
    [|vm_compute in E; discriminate E].
  destruct (delete_batch_reports _ _ _ _ _ _ _ _ (proj1 sample_listed_wf) (proj2 sample_listed_wf) E) as (outs & Hl & Ho & _).
  exists out, w', outs. split; [reflexivity|]. split; [exact Hl|exact Ho].
Defined.
