(* ===== verification/FilesystemMultipart.v ===== *)
(** * Multipart uploads of the filesystem object store

    crates/broker-storage/src/filesystem_multipart.rs: an upload is a directory
    of the multipart tree with a manifest and its parts; completing it publishes
    the parts joined as an object; uploads without progress for a day are
    removed when another is created. *)

From stdpp Require Import gmap.
From S2P Require Import Prelude RustStr Order Control LocalBearer BrokerAccess.
From S2P Require Import Session Identity InstanceRegistry ResourceGrants.
From S2P Require Import ResourcePolicy StorageAdmission StoragePolicy FilesystemSession FileTree FilesystemStore.
From S2P Require Import FilesystemObjects FilesystemListing.

(** ** Data *)

Definition MAX_PART : Z := 10000.
Definition ABANDONED_SECONDS : Z := 24 * 60 * 60.
Record FilesystemPartInfo := { pi_number : Z; pi_etag : string; pi_size : Z; pi_modified : Z }.
Record FilesystemPartsRequest := { pr_upload_id : string; pr_marker : option Z; pr_max_parts : option Z }.
Record FilesystemPartsPage := { pp_parts : list FilesystemPartInfo; pp_is_truncated : bool; pp_next_marker : option Z }.
Record FilesystemCompletedPart := { cp_number : Z; cp_etag : string }.
Record FilesystemCompleteUpload := {
  fu_upload_id : string;
  fu_parts : list FilesystemCompletedPart;
  fu_conditions : FilesystemConditions;
}.
Record Manifest `{StoreLib} := {
  mf_bucket : string;
  mf_key : string;
  mf_content_type : jv;
  mf_created : Z;
  mf_last_progress : Z;
}.
(** The [serde_json] form of a manifest. *)
Class MultipartLib `{StoreLib} := {
  manifest_to_vec : Manifest → option string;
  manifest_from_slice : string → option Manifest;
}.

Section multipart.
Context `{UlidLib, JwtLib, SessionLib, StoreLib, !MultipartLib, DirOrder, Leftovers}.

(** ** Helpers *)

Definition seconds : FsM Z :=
  on_clock (let? utc := system_now in lift_result (rmap_err (λ _, FS_InvalidMetadata) (fs_seconds utc))).
Definition upload_id (id : string) : bool :=
  (len id =? 43)%Z && is_some_and (b64_decode id) (λ data, (len data =? 32)%Z).
Definition upload_lock (id : string) : string := "multipart:" +:+ id.
Definition uncertain (e : FilesystemStoreError) : FilesystemStoreError :=
  if is_uncertain e then e else FS_CommitUncertain e.

(** A part of an upload, read to its end and then checked against its entity
    tag; the next part is opened by the read that found the end. *)
Fixpoint file_step (tag : string) (next : M World io_error (option (string * reader))) (digest : string)
    (chunks : list string) : M World io_error (option (string * reader)) :=
  do? plain in
  match chunks with
  | chunk :: chunks => ret (Some (chunk, Read (file_step tag next (digest +:+ chunk) chunks)))
  | [] => if negb (str_eqb (etag (sha256 digest)) tag) then fail IoInvalidPart else next
  end.
Fixpoint parts_step (directory : Dir) (parts : list FilesystemCompletedPart)
    : M World io_error (option (string * reader)) :=
  match parts with
  | [] => ret None
  | part :: parts =>
      let? n := map_err (λ e, match e with IoNotFound => IoInvalidPart | e => e end)
                  (open_file directory (print_int (cp_number part))) in
      do? plain in
      match n with
      | NFile content _ => file_step (cp_etag part) (parts_step directory parts) "" (file_chunks content)
      | _ => fail IoInvalidPart
      end
  end.
Definition PartsReader (directory : Dir) (parts : list FilesystemCompletedPart) : reader :=
  Read (parts_step directory parts).

(** ** The directory and manifest of an upload *)

Definition multipart : Dir := {| d_root := RMulti; d_path := [] |}.
Definition upload_directory (id : string) : FsM Dir :=
  if negb (upload_id id) then fail FS_NoSuchUpload else io_or FS_NoSuchUpload (open_dir multipart id).
Definition manifest_valid (cfg : FilesystemStoreConfig) (state : Manifest) : bool :=
  str_eqb (mf_bucket state) (sc_bucket cfg) && valid_key (mf_key state)
  && (mf_created state <=? mf_last_progress state)%Z && metadata_valid (mf_content_type state).
Definition read_upload_manifest (cfg : FilesystemStoreConfig) (upload : Dir) : FsM Manifest :=
  let? n := io_or FS_NoSuchUpload (open_file upload "manifest") in
  do? io plain in
  match n with
  | NFile content _ =>
      let? data := read_limited cfg content in
      let? state := lift_result (ok_or (manifest_from_slice data) FS_InvalidMetadata) in
      if negb (manifest_valid cfg state) then fail FS_InvalidMetadata else ret state
  | _ => fail FS_InvalidMetadata
  end.
Definition current_upload (cfg : FilesystemStoreConfig) (key id : string) : FsM (Dir * Manifest) :=
  let? dir := upload_directory id in
  let? manifest := read_upload_manifest cfg dir in
  if negb (str_eqb (mf_key manifest) key) then fail FS_NoSuchUpload else ret (dir, manifest).
Definition manifest_bytes (cfg : FilesystemStoreConfig) (state : Manifest) : result FilesystemStoreError string :=
  let! data := ok_or (manifest_to_vec state) FS_InvalidMetadata in
  if (sc_metadata_bytes cfg <? len data)%Z then Err FS_InvalidMetadata else Ok data.
(** The name is free or is a file's, else [taken]. *)
Definition check_free (taken : FilesystemStoreError) (dir : Dir) (name : string) : FsM unit :=
  let? m := outcome (stat dir name) in
  match m with
  | Ok n => if is_file n then ret tt else fail taken
  | Err IoNotFound => ret tt
  | Err e => fail (FS_Io e)
  end.
(** The modification time of the manifest itself is never read. *)
Definition write_upload_manifest (cfg : FilesystemStoreConfig) (upload : Dir) (state : Manifest) : FsM unit :=
  let? data := lift_result (manifest_bytes cfg state) in
  do? io plain in                                   (* the staging directory *)
  do? io plain in                                   (* its manifest file *)
  do? io plain in
  do? io plain in
  do? check_free FS_InvalidMetadata upload "manifest" in
  do? io (rename_into upload "manifest" data 0) in
  map_err uncertain (do? sync_dir upload in io plain).
Definition remove_upload (dir : Dir) : FsM unit :=
  do? io (remove_dir_all dir) in
  sync_dir multipart.

(** ** Uploads without progress *)

Definition prune_upload (cfg : FilesystemStoreConfig) (id : string) (now : Z) : FsM unit :=
  let? d := outcome (upload_directory id) in
  match d with
  | Err FS_NoSuchUpload => ret tt
  | Err e => fail e
  | Ok dir =>
      let? m := outcome (read_upload_manifest cfg dir) in
      match m with
      | Ok state =>
          if (ABANDONED_SECONDS <=? Z.max 0 (now - mf_last_progress state))%Z then remove_upload dir else ret tt
      | Err FS_NoSuchUpload => remove_upload dir
      | Err e => fail e
      end
  end.
Definition prune_entry (cfg : FilesystemStoreConfig) (now : Z) (guard : FsM unit) (id : string) : FsM unit :=
  do? io plain in                                   (* the entry *)
  let? kind := io (stat multipart id) in
  if negb (is_dir kind) || negb (upload_id id) then fail FS_InvalidMetadata else
  do? guard in
  prune_upload cfg id now.
Definition prune_multipart_startup (cfg : FilesystemStoreConfig) : FsM unit :=
  let? now := seconds in
  let? names := io (read_dir multipart) in
  mfor (λ _ id, prune_entry cfg now (ret tt) id) tt names.
Definition prune_multipart_current (cfg : FilesystemStoreConfig) (session : VerifiedFilesystemSession)
    (rq : FilesystemRequest) : FsM unit :=
  let? now := seconds in
  let? names := io (read_dir multipart) in
  mfor (λ _ id, do? rq_check rq session in prune_entry cfg now (lock rq session) id) tt names.

(** ** Operations *)

(** The end of an operation with effects. *)
Definition finish_upload {A} (rq : FilesystemRequest) (session : VerifiedFilesystemSession) (m : FsM A) : FsM A :=
  let? r := outcome m in
  match r with
  | Ok a => do? map_err uncertain (rq_check rq session) in ret a
  | Err e => if is_uncertain e then fail e else do? rq_check rq session in fail e
  end.
Definition publish_upload (cfg : FilesystemStoreConfig) (session : VerifiedFilesystemSession) (rq : FilesystemRequest)
    (dir : Dir) (state : Manifest) : FsM unit :=
  do? owned_dir dir "parts" in
  do? rq_check rq session in
  do? write_upload_manifest cfg dir state in
  do? map_err uncertain (sync_dir multipart) in
  map_err uncertain (rq_check rq session).
Definition create_upload (cfg : FilesystemStoreConfig) (session : VerifiedFilesystemSession) (key : string)
    (content_type : option string) (random : option string) (rq : FilesystemRequest) : FsM string :=
  do? authorize cfg session rq OpWrite key in
  finish_upload rq session (
    if is_some_and content_type (λ s, negb (header s)) then fail FS_InvalidMetadata else
    let? now := seconds in
    let state := {| mf_bucket := sc_bucket cfg; mf_key := key;
                    mf_content_type := match content_type with Some v => jv_string v | None => jv_null end;
                    mf_created := now; mf_last_progress := now |} in
    let? _ := lift_result (manifest_bytes cfg state) in
    do? prune_multipart_current cfg session rq in
    let? random := lift_result (ok_or random FS_Crypto) in
    let id := b64_encode random in
    do? lock rq session in
    do? io (create_dir multipart id) in
    let? dir := upload_directory id in
    let? published := outcome (publish_upload cfg session rq dir state) in
    match published with
    | Ok _ => ret id
    | Err e =>
        if is_uncertain e then fail e else
        do? map_err uncertain (remove_upload dir) in
        fail e
    end).
Definition with_progress (state : Manifest) (now : Z) : Manifest :=
  {| mf_bucket := mf_bucket state; mf_key := mf_key state; mf_content_type := mf_content_type state;
     mf_created := mf_created state; mf_last_progress := Z.max now (mf_created state) |}.
Definition upload_part (cfg : FilesystemStoreConfig) (session : VerifiedFilesystemSession) (key id : string) (number : Z)
    (body : list (result io_error string)) (rq : FilesystemRequest) : FsM FilesystemPartInfo :=
  do? authorize cfg session rq OpWrite key in
  finish_upload rq session (
    if negb ((1 <=? number)%Z && (number <=? MAX_PART)%Z) then fail FS_InvalidArgument else
    if negb (upload_id id) then fail FS_NoSuchUpload else
    do? lock rq session in
    let? (_, initial) := current_upload cfg key id in
    let? prepared := prepare cfg session key (list_reader body) (jv_as_str (mf_content_type initial)) None rq in
    do? lock rq session in
    let? (upload, state) := current_upload cfg key id in
    let? parts := io (open_dir upload "parts") in
    let part_name := print_int number in
    do? check_free FS_InvalidPart parts part_name in
    do? rq_check rq session in
    do? io (rename_into parts part_name (po_payload prepared) (oi_modified (po_info prepared))) in
    do? map_err uncertain (
      do? sync_dir parts in
      let? now := seconds in
      do? write_upload_manifest cfg upload (with_progress state now) in
      do? rq_check rq session in
      io plain) in
    ret {| pi_number := number; pi_etag := oi_etag (po_info prepared); pi_size := oi_size (po_info prepared);
           pi_modified := oi_modified (po_info prepared) |}).
Definition describe_part (directory : Dir) (number : Z) (session : VerifiedFilesystemSession) (rq : FilesystemRequest)
    : FsM FilesystemPartInfo :=
  let? n := io (open_file directory (print_int number)) in
  do? io plain in
  match n with
  | NFile content modified =>
      let? data := hash_chunks rq session "" (file_chunks content) in
      do? io plain in
      ret {| pi_number := number; pi_etag := etag (sha256 data); pi_size := len content; pi_modified := modified |}
  | _ => fail FS_InvalidPart
  end.
Definition I32_MIN : Z := - 2 ^ 31.
Definition I32_MAX : Z := 2 ^ 31 - 1.
Definition part_number (raw : string) : option Z :=
  number ← parse_int I32_MIN I32_MAX raw;
  if (1 <=? number)%Z && (number <=? MAX_PART)%Z && str_eqb (print_int number) raw then Some number else None.
Definition collect_part (session : VerifiedFilesystemSession) (rq : FilesystemRequest) (directory : Dir) (marker : Z)
    (limit : nat) (numbers : list Z) (raw : string) : FsM (list Z) :=
  do? rq_check rq session in
  do? io plain in                                   (* the entry *)
  let? number := lift_result (ok_or (part_number raw) FS_InvalidPart) in
  let? kind := io (stat directory raw) in
  if negb (is_file kind) then fail FS_InvalidPart else
  if (number <=? marker)%Z then ret numbers else
  let numbers := bset_insert number numbers in
  ret (if limit <? length numbers then removelast numbers else numbers).
Definition list_parts (cfg : FilesystemStoreConfig) (session : VerifiedFilesystemSession) (key : string)
    (input : FilesystemPartsRequest) (rq : FilesystemRequest) : FsM FilesystemPartsPage :=
  do? authorize cfg session rq OpWrite key in
  then_check rq session (
    if negb (upload_id (pr_upload_id input)) then fail FS_NoSuchUpload else
    let marker := default 0%Z (pr_marker input) in
    if negb ((0 <=? marker)%Z && (marker <=? MAX_PART)%Z) then fail FS_InvalidArgument else
    let? max := lift_result (maximum_keys (pr_max_parts input)) in
    do? lock rq session in
    let? (upload, _) := current_upload cfg key (pr_upload_id input) in
    let? directory := io (open_dir upload "parts") in
    let? names := io (read_dir directory) in
    let? numbers := mfor (collect_part session rq directory marker (S max)) [] names in
    let is_truncated := max <? length numbers in
    let numbers := if is_truncated then removelast numbers else numbers in
    let next_marker := if is_truncated then last numbers else None in
    let? parts := mcollect (λ number, describe_part directory number session rq) numbers in
    ret {| pp_parts := parts; pp_is_truncated := is_truncated; pp_next_marker := next_marker |}).
(** The parts named to complete an upload: in range, tagged, in order. *)
Fixpoint check_parts (previous : Z) (parts : list FilesystemCompletedPart) : result FilesystemStoreError unit :=
  match parts with
  | [] => Ok tt
  | part :: parts =>
      if negb ((1 <=? cp_number part)%Z && (cp_number part <=? MAX_PART)%Z) || negb (valid_etag (cp_etag part))
      then Err FS_InvalidPart else
      if (cp_number part <=? previous)%Z then Err FS_InvalidPartOrder else
      check_parts (cp_number part) parts
  end.
Definition complete_upload (cfg : FilesystemStoreConfig) (session : VerifiedFilesystemSession) (key : string)
    (input : FilesystemCompleteUpload) (rq : FilesystemRequest) : FsM FilesystemObjectInfo :=
  do? authorize cfg session rq OpWrite key in
  finish_upload rq session (
    if negb (upload_id (fu_upload_id input)) then fail FS_NoSuchUpload else
    if bool_decide (fu_parts input = []) then fail FS_InvalidPart else
    do? lift_result (check_parts 0 (fu_parts input)) in
    do? lock_pair session rq (upload_lock (fu_upload_id input)) key in
    let? (upload, state) := current_upload cfg key (fu_upload_id input) in
    let? directory := io (open_dir upload "parts") in
    let? prepared :=
      map_err (λ e, match e with FS_Io IoInvalidPart => FS_InvalidPart | e => e end)
        (prepare cfg session key (PartsReader directory (fu_parts input)) (jv_as_str (mf_content_type state)) None rq) in
    let? info := publish_locked cfg session key prepared (fu_conditions input) rq in
    do? map_err uncertain (remove_upload upload) in
    do? map_err uncertain (rq_check rq session) in
    ret info).
Definition abort_upload (cfg : FilesystemStoreConfig) (session : VerifiedFilesystemSession) (key id : string)
    (rq : FilesystemRequest) : FsM unit :=
  do? authorize cfg session rq OpWrite key in
  finish_upload rq session (
    if negb (upload_id id) then fail FS_NoSuchUpload else
    do? lock rq session in
    let? (upload, _) := current_upload cfg key id in
    do? rq_check rq session in
    do? map_err uncertain (remove_upload upload) in
    map_err uncertain (rq_check rq session)).

(** ** Reading the parts *)

Lemma quiet_file_step tag next digest chunks :
  quiet_reader (Read next) → quiet_reader (Read (file_step tag next digest chunks)).
Proof.
  intros Hn. revert digest. induction chunks as [|chunk chunks IH]; intros digest; constructor; cbn [read file_step].
  - apply keeps_bind; [apply _|apply keeps_plain|]. intros _. destruct (negb _); [apply keeps_fail, _|].
    by apply quiet_reader_read in Hn.
  - intros w c rd' w' Hr. invert_run Hr. inversion Hn as [rd Hq Hnext]. by eapply Hnext.
  - apply keeps_bind; [apply _|apply keeps_plain|]. intros _. apply keeps_ret, _.
  - intros w c rd' w' Hr. invert_run Hr. injection Hr as -> ->. apply IH.
Qed.
Lemma quiet_parts_reader directory parts : quiet_reader (PartsReader directory parts).
Proof.
  induction parts as [|part parts IH]; constructor; cbn [read PartsReader parts_step].
  - apply keeps_ret, _.
  - intros w c rd' w' [=].
  - apply keeps_bind; [apply _|auto with broker|]. intros n. apply keeps_bind; [apply _|apply keeps_plain|]. intros _.
    destruct n as [content m| |]; [|apply keeps_fail, _..].
    exact (quiet_reader_read _ (quiet_file_step (cp_etag part) _ "" (file_chunks content) IH)).
  - intros w c rd' w' Hr. apply bind_ok in Hr as (n & w1 & _ & Hr). apply bind_ok in Hr as (u & w2 & _ & Hr).
    destruct n as [content m| |]; [|discriminate Hr..].
    pose proof (quiet_file_step (cp_etag part) _ "" (file_chunks content) IH) as Hq. inversion Hq as [rd Hq1 Hnext]. by eapply Hnext.
Qed.
Section parts.
Context (w0 : World) (directory : Dir) (parts : list FilesystemCompletedPart).
(** The file of a part is this one, and its entity tag the one named. *)
Definition part_file (part : FilesystemCompletedPart) (content : string) : Prop :=
  ∃ modified, tree_of w0 (d_root directory) !! (d_path directory ++ [print_int (cp_number part)]) =
    Some (NFile content modified).
Definition verified (part : FilesystemCompletedPart) (content : string) : Prop :=
  part_file part content ∧ etag (sha256 content) = cp_etag part.
Notation concat_str := (foldr String.append "").
Lemma concat_str_app l k : concat_str (l ++ k) = concat_str l +:+ concat_str k.
Proof. induction l as [|x l IH]; simpl; [done|]. by rewrite IH, str_app_assoc. Qed.
(** Between two reads: some parts are read and checked, and one may be open. *)
Inductive reading (acc : string) : reader → Prop :=
| Reading_between prior contents rest :
    parts = prior ++ rest → Forall2 verified prior contents → acc = concat_str contents →
    reading acc (Read (parts_step directory rest))
| Reading_file prior contents part rest digest chunks :
    parts = prior ++ part :: rest → Forall2 verified prior contents → acc = concat_str contents +:+ digest →
    part_file part (digest +:+ concat_str chunks) →
    reading acc (Read (file_step (cp_etag part) (parts_step directory rest) digest chunks)).
(** What a read gives next. *)
Definition reads_on (acc : string) (r : option (string * reader)) : Prop :=
  match r with
  | Some (chunk, rd) => reading (acc +:+ chunk) rd
  | None => ∃ contents, Forall2 verified parts contents ∧ acc = concat_str contents
  end.
Lemma file_step_reads part rest prior contents digest chunks acc w r w' :
  (∀ prior contents w r w', parts = prior ++ rest → Forall2 verified prior contents → same_trees w0 w →
     parts_step directory rest w = (Ok r, w') → reads_on (concat_str contents) r) →
  parts = prior ++ part :: rest → Forall2 verified prior contents → acc = concat_str contents +:+ digest →
  part_file part (digest +:+ concat_str chunks) → same_trees w0 w →
  file_step (cp_etag part) (parts_step directory rest) digest chunks w = (Ok r, w') → reads_on acc r.
Proof.
  intros IH Hparts Hver -> Hfile Hs Hr. destruct chunks as [|chunk chunks]; cbn [file_step] in Hr;
    apply bind_ok in Hr as (u & w1 & Hp & Hr); quiet_step Hp Hs1.
  - destruct (negb _) eqn:Et; [done|]. bool_to_prop. apply str_eqb_eq in Et. rewrite str_app_nil_r in Hfile.
    replace (concat_str contents +:+ digest) with (concat_str (contents ++ [digest]))
      by (rewrite concat_str_app; simpl; by rewrite str_app_nil_r).
    eapply (IH (prior ++ [part])); [by rewrite <- app_assoc| |by etrans|done].
    apply Forall2_app; [done|]. constructor; [done|constructor].
  - injection Hr as <- _. simpl. eapply Reading_file; [done|done|by rewrite str_app_assoc|].
    by rewrite str_app_assoc.
Qed.
Lemma parts_step_reads prior contents rest w r w' :
  parts = prior ++ rest → Forall2 verified prior contents → same_trees w0 w →
  parts_step directory rest w = (Ok r, w') → reads_on (concat_str contents) r.
Proof.
  revert prior contents w r w'. induction rest as [|part rest IH]; intros prior contents w r w' Hparts Hver Hs Hr.
  - injection Hr as <- _. rewrite app_nil_r in Hparts. subst prior. by exists contents.
  - cbn [parts_step] in Hr. apply bind_ok in Hr as (n & w1 & Ho & Hr). apply bind_ok in Hr as (u & w2 & Hp & Hr).
    quiet_step Ho Hs1. quiet_step Hp Hs2. apply map_err_ok, open_file_run in Ho as [Hn _]. specialize (Hn _ eq_refl).
    rewrite (Hs (d_root directory)) in Hn. destruct n as [content m| |]; [|discriminate Hr..].
    eapply file_step_reads; [exact IH|done|done|by rewrite str_app_nil_r| | |exact Hr].
    + exists m. simpl. by rewrite (file_chunks_concat content).
    + etrans; [exact Hs|by etrans].
Qed.
Lemma reading_turn acc rd w r w' :
  reading acc rd → same_trees w0 w → read rd w = (Ok r, w') → reads_on acc r.
Proof.
  intros [prior contents rest Hparts Hver Hacc|prior contents part rest digest chunks Hparts Hver Hacc Hfile] Hs Hr; simpl in Hr.
  - subst acc. by eapply parts_step_reads.
  - eapply file_step_reads; [|done..]. intros. by eapply parts_step_reads.
Qed.
End parts.
Notation concat_str := (foldr String.append "").
Lemma stage_parts_reader cfg rq session directory parts w n data w' :
  stage_body cfg rq session 0 "" (PartsReader directory parts) w = (Ok (n, data), w') →
  (∃ contents, Forall2 (verified w directory) parts contents ∧ data = concat_str contents) ∧
  n = len data ∧ (n = 0 ∨ n ≤ sc_max_object_bytes cfg)%Z.
Proof.
  intros Hr.
  edestruct (stage_body_ind w (reading w directory parts)) as (Hn & Hle & rd' & w1 & Hrd & Hs & Hend); [| | | | |exact Hr|].
  - intros acc rd w1 chunk rd' w2 Hrd Hs Hread. exact (reading_turn _ _ _ _ _ _ _ _ Hrd Hs Hread).
  - apply quiet_parts_reader.
  - done.
  - by apply (Reading_between _ _ _ _ [] []).
  - done.
  - split; [|done]. exact (reading_turn _ _ _ _ _ _ _ _ Hrd Hs Hend).
Qed.

(** ** Steps that leave the trees alone, and certain steps *)

Lemma advances_system_now {E A} (k : Z → result E A) : advances (let? utc := system_now in lift_result (k utc)).
Proof. intros c x c' [= _ <-]. auto with broker. Qed.
Section quiet.
Context {R : World → World → Prop} `{!QuietRel R}.
Lemma quiet_seconds : keeps R seconds.
Proof. apply keeps_on_clock, (advances_system_now (λ utc, rmap_err _ (fs_seconds utc))). Qed.
Lemma quiet_upload_directory id : keeps R (upload_directory id).
Proof. unfold upload_directory. auto with broker. Qed.
Lemma quiet_read_limited cfg content : keeps R (read_limited cfg content).
Proof. unfold read_limited. auto with broker. Qed.
#[local] Hint Resolve quiet_seconds quiet_upload_directory quiet_read_limited : broker.
Lemma quiet_read_upload_manifest cfg upload : keeps R (read_upload_manifest cfg upload).
Proof. unfold read_upload_manifest. auto 20 with broker. Qed.
#[local] Hint Resolve quiet_read_upload_manifest : broker.
Lemma quiet_current_upload cfg key id : keeps R (current_upload cfg key id).
Proof. unfold current_upload. auto 20 with broker. Qed.
Lemma quiet_check_free e dir name : keeps R (check_free e dir name).
Proof. unfold check_free. auto 20 with broker. Qed.
Lemma quiet_describe_part directory number session rq : keeps R (describe_part directory number session rq).
Proof. unfold describe_part. auto 20 with broker. Qed.
Lemma quiet_collect_part session rq directory marker limit numbers raw :
  keeps R (collect_part session rq directory marker limit numbers raw).
Proof. unfold collect_part. auto 20 with broker. Qed.
End quiet.
#[local] Hint Resolve quiet_seconds quiet_upload_directory quiet_read_upload_manifest quiet_current_upload
  quiet_check_free quiet_describe_part quiet_collect_part quiet_lock_pair certain_lock_pair : broker.
Lemma certain_seconds : certain seconds.
Proof.
  intros w e w'. unfold seconds, on_clock, bind, system_now, lift_result, fs_seconds.
  destruct (duration_since _ _); simpl; [done|]. by intros [= <- _].
Qed.
Lemma certain_upload_directory id : certain (upload_directory id).
Proof. unfold upload_directory. auto with broker. Qed.
#[local] Hint Resolve certain_seconds certain_upload_directory : broker.
Lemma certain_read_upload_manifest cfg upload : certain (read_upload_manifest cfg upload).
Proof. unfold read_upload_manifest, read_limited. auto 20 with broker. Qed.
#[local] Hint Resolve certain_read_upload_manifest : broker.
Lemma certain_current_upload cfg key id : certain (current_upload cfg key id).
Proof. unfold current_upload. auto 20 with broker. Qed.
Lemma certain_check_free e dir name : is_uncertain e = false → certain (check_free e dir name).
Proof. intros He. unfold check_free. auto 20 with broker. Qed.
#[local] Hint Resolve certain_current_upload certain_check_free : broker.
(** The last check of an upload operation is that of a write. *)
Lemma finish_upload_run {A} rq session (m : FsM A) w x w' :
  finish_upload rq session m w = (x, w') →
  ∃ y w1, m w = (y, w1) ∧ same_trees w1 w' ∧
    match y with
    | Ok a => x = Ok a ∨ ∃ e, x = Err (FS_CommitUncertain e)
    | Err e => if is_uncertain e then x = Err e else ∃ e', x = Err e' ∧ is_uncertain e' = false
    end.
Proof.
  intros Hr. apply (finish_write_run rq session). rewrite <- Hr. unfold finish_upload, finish_write, bind.
  destruct (outcome m w) as [[[a|e]|e] w1]; [|done|done]. unfold uncertainly, map_err.
  destruct (rq_check rq session w1) as [[u|e] w2] eqn:E; [done|]. unfold uncertain.
  by rewrite (certain_rq_check _ _ _ _ _ E).
Qed.
Lemma uncertain_uncertain e : is_uncertain (uncertain e) = true.
Proof. unfold uncertain. by destruct (is_uncertain e) eqn:E. Qed.

(** ** One upload *)

Lemma upload_directory_run id w x w' :
  upload_directory id w = (x, w') →
  (∀ d, x = Ok d → d = below multipart id ∧ fw_multi w !! [id] = Some NDir ∧ upload_id id = true) ∧
  (x = Err FS_NoSuchUpload → fw_multi w !! [id] = None ∨ upload_id id = false).
Proof.
  unfold upload_directory. destruct (upload_id id) eqn:E; simpl; [|intros [= <- _]; split; [done|by right]].
  intros Hr. unfold io_or in Hr. destruct x as [d|e].
  - apply map_err_ok, open_dir_ok in Hr as [-> Hd]. split; [|done]. by intros d [= <-].
  - split; [done|]. intros [= ->]. left. apply map_err_err in Hr as (e0 & Hr & He). destruct e0; try done.
    unfold open_dir in Hr. apply bind_cases in Hr as [(n & w1 & _ & Hr)|(e & Hn & [= <-])]; [by destruct (is_dir n)|].
    apply node_at_run in Hn as [_ Hn]. by apply Hn.
Qed.
(** The manifest of an upload, as it is on the volume. *)
Definition manifest_at (w : World) (id : string) : option Manifest :=
  match fw_multi w !! [id; "manifest"] with Some (NFile content _) => manifest_from_slice content | _ => None end.
Lemma read_upload_manifest_run cfg id w x w' :
  read_upload_manifest cfg (below multipart id) w = (x, w') →
  (∀ state, x = Ok state → manifest_at w id = Some state ∧ manifest_valid cfg state = true) ∧
  (x = Err FS_NoSuchUpload → fw_multi w !! [id; "manifest"] = None).
Proof.
  unfold read_upload_manifest. intros Hr. unfold io_or in Hr. run_cases Hr.
  - apply open_file_run in R as [Hn _]. specialize (Hn _ eq_refl). simpl in Hn. unfold manifest_at. rewrite Hn.
    apply bind_cases in Hr as [(u & w1 & _ & Hr)|(e & He & ->)]; [|split; [done|]; intros [= ->]; by apply map_err_err in He as (? & _ & ?)].
    destruct a as [content m| |]; [|by injection Hr as <- _..].
    apply bind_cases in Hr as [(data & w2 & Hd & Hr)|(e & He & ->)].
    + apply read_limited_ok in Hd as ->. apply bind_cases in Hr as [(state & w3 & Hs & Hr)|(e & He & ->)].
      * injection Hs as Hs _. apply ok_or_ok in Hs. rewrite Hs.
        destruct (manifest_valid cfg state) eqn:Ev; injection Hr as <- _; split; (done || by intros ? [= <-]).
      * split; [done|]. intros [= ->]. by destruct (manifest_from_slice content).
    + split; [done|]. intros [= ->]. unfold read_limited in He.
      apply bind_cases in He as [(u2 & w4 & _ & He)|(e & He & Hx)]; [by destruct (_ <? _)%Z|].
      apply map_err_err in He as (e0 & _ & ->). done.
  - split; [done|]. intros [= He]. destruct err; try done. apply open_file_run in R as [_ Hn]. by apply Hn.
Qed.
Lemma current_upload_ok cfg key id w dir state w' :
  current_upload cfg key id w = (Ok (dir, state), w') →
  dir = below multipart id ∧ fw_multi w !! [id] = Some NDir ∧ upload_id id = true ∧
  manifest_at w id = Some state ∧ manifest_valid cfg state = true ∧ mf_key state = key.
Proof.
  unfold current_upload. intros Hr. apply bind_ok in Hr as (d & w1 & Hd & Hr). quiet_step Hd Hs1.
  apply upload_directory_run in Hd as [Hd _]. destruct (Hd _ eq_refl) as (-> & Hdir & Hid).
  apply bind_ok in Hr as (m & w2 & Hm & Hr). apply read_upload_manifest_run in Hm as [Hm _].
  destruct (Hm _ eq_refl) as [Hman Hval]. destruct (negb _) eqn:Ek; [done|]. bool_to_prop. apply str_eqb_eq in Ek.
  injection Hr as <- <- _. unfold manifest_at in *. rewrite (same_multi _ _ Hs1) in Hman. done.
Qed.
(** Only what is below one upload may change. *)
Definition outside_same (id : string) (t t' : tree) : Prop := ∀ p : path, head p ≠ Some id → t' !! p = t !! p.
Lemma prefix_of_id (id : string) (p : path) : [id] `prefix_of` p ↔ head p = Some id.
Proof.
  split; [by intros [k ->]|]. destruct p as [|x p]; [done|]. intros [= ->]. by exists p.
Qed.
Lemma remove_upload_run id w x w' :
  remove_upload (below multipart id) w = (x, w') →
  fw_data w' = fw_data w ∧ fw_meta w' = fw_meta w ∧ outside_same id (fw_multi w) (fw_multi w') ∧
  (x = Ok tt → ∀ p, fw_multi w' !! (id :: p) = None).
Proof.
  unfold remove_upload. intros Hr.
  assert (∃ y w1, remove_dir_all (below multipart id) w = (y, w1) ∧ same_trees w1 w' ∧ (x = Ok tt → y = Ok tt)) as (y & w1 & Hrm & Hs & Hy).
  { unfold io in Hr. run_cases Hr.
    - quiet_step Hr Hs. destruct a. by exists (Ok tt), s.
    - by exists (Err err), w'. }
  unfold remove_dir_all in Hrm. injection Hrm as Hy1 <-.
  rewrite (same_data _ _ Hs), (same_meta _ _ Hs), (same_multi _ _ Hs). simpl. split; [done|]. split; [done|]. split.
  - intros p Hp. destruct (fw_multi w !! p) as [n|] eqn:En.
    + apply map_lookup_filter_Some. split; [done|]. rewrite bool_decide_true; [done|]. by rewrite prefix_of_id.
    + apply map_lookup_filter_None. by left.
  - intros Hx p. apply Hy in Hx. subst y. apply map_lookup_filter_None. right. intros n _.
    destruct (default false _); [done|]. rewrite bool_decide_false; [done|]. rewrite prefix_of_id. naive_solver.
Qed.

(** ** Completing an upload *)

Definition parts_directory (id : string) : Dir := below (below multipart id) "parts".
(** The object of an upload completed with these parts. *)
Record assembled (cfg : FilesystemStoreConfig) (key id : string) (parts : list FilesystemCompletedPart)
    (conditions : FilesystemConditions) (w w' : World) (data : string) : Prop := {
  as_manifest : ∃ state, manifest_at w id = Some state ∧ mf_key state = key ∧ mf_bucket state = sc_bucket cfg;
  as_parts : ∃ contents, Forall2 (verified w (parts_directory id)) parts contents ∧ data = concat_str contents;
  as_order : check_parts 0 parts = Ok tt;
  as_replaced : replaced key data conditions w w';
  as_others : outside_same id (fw_multi w) (fw_multi w');
}.
Definition complete_outcome (cfg : FilesystemStoreConfig) (key id : string) (parts : list FilesystemCompletedPart)
    (conditions : FilesystemConditions) (w : World) (x : result FilesystemStoreError FilesystemObjectInfo) (w' : World) : Prop :=
  tree_wf (fw_data w') ∧ tree_wf (fw_meta w') ∧
  match x with
  | Ok info => ∃ data, assembled cfg key id parts conditions w w' data ∧ tells cfg data info ∧
                 ∀ p, fw_multi w' !! (id :: p) = None
  | Err e => if is_uncertain e then ∃ data, assembled cfg key id parts conditions w w' data
             else objects (fw_data w') = objects (fw_data w) ∧ fw_multi w' = fw_multi w
  end.
Lemma complete_outcome_same cfg key id parts conditions w w0 x w' :
  same_trees w w0 → complete_outcome cfg key id parts conditions w0 x w' → complete_outcome cfg key id parts conditions w x w'.
Proof.
  intros Hs. assert (∀ data, assembled cfg key id parts conditions w0 w' data → assembled cfg key id parts conditions w w' data) as Ha.
  { intros data [Hm (contents & Hc & Hd) Ho Hr Hout]. split.
    - unfold manifest_at in *. by rewrite (same_multi _ _ Hs) in Hm.
    - exists contents. split; [|done]. eapply Forall2_impl; [exact Hc|]. intros part c [[m Hf] He]. split; [|done].
      exists m. simpl in *. by rewrite (same_multi _ _ Hs) in Hf.
    - done.
    - unfold replaced in *. by rewrite (tag_at_same _ _ key Hs), (same_data _ _ Hs) in Hr.
    - by rewrite (same_multi _ _ Hs) in Hout. }
  intros (Hwd & Hwm & Hx). split; [done|]. split; [done|]. destruct x as [info|e].
  - destruct Hx as (data & Hd & Hrest). exists data. split; [by apply Ha|done].
  - destruct (is_uncertain e); [destruct Hx as [data Hd]; exists data; by apply Ha|].
    by rewrite (same_data _ _ Hs), (same_multi _ _ Hs) in Hx.
Qed.
Lemma same_complete_outcome cfg key id parts conditions w y w1 x w' :
  complete_outcome cfg key id parts conditions w y w1 → same_trees w1 w' →
  match y with
  | Ok a => x = Ok a ∨ ∃ e, x = Err (FS_CommitUncertain e)
  | Err e => if is_uncertain e then x = Err e else ∃ e', x = Err e' ∧ is_uncertain e' = false
  end → complete_outcome cfg key id parts conditions w x w'.
Proof.
  intros (Hwd & Hwm & Hy) Hs Hx.
  assert (∀ data, assembled cfg key id parts conditions w w1 data → assembled cfg key id parts conditions w w' data) as Ha.
  { intros data [Hm Hp Ho Hr Hout]. split; [done|done|done| |].
    - unfold replaced in *. by rewrite (same_data _ _ Hs).
    - by rewrite (same_multi _ _ Hs). }
  unfold complete_outcome. rewrite (same_data _ _ Hs), (same_meta _ _ Hs), (same_multi _ _ Hs). split; [done|]. split; [done|].
  destruct y as [info|e].
  - destruct Hy as (data & Hd & Ht & Hgone). destruct Hx as [->|[e ->]]; simpl; exists data; [|by apply Ha].
    split; [by apply Ha|done].
  - destruct (is_uncertain e) eqn:Eu.
    + subst x. simpl. rewrite Eu. destruct Hy as [data Hd]. exists data. by apply Ha.
    + destruct Hx as (e' & -> & He'). simpl. by rewrite He'.
Qed.
Lemma complete_none cfg key id parts conditions w e w' :
  same_trees w w' → is_uncertain e = false → tree_wf (fw_data w) → tree_wf (fw_meta w) →
  complete_outcome cfg key id parts conditions w (Err e) w'.
Proof.
  intros Hs He Hwd Hwm. unfold complete_outcome. rewrite He, (same_data _ _ Hs), (same_meta _ _ Hs), (same_multi _ _ Hs). done.
Qed.
(** Once the object is published: the upload is removed, or the commit is
    uncertain. *)
Lemma complete_after cfg session rq key id input data info w0 w x w' :
  (do? map_err uncertain (remove_upload (below multipart id)) in
   do? map_err uncertain (rq_check rq session) in
   ret info) w = (x, w') →
  assembled cfg key id (fu_parts input) (fu_conditions input) w0 w data → fw_multi w = fw_multi w0 → tells cfg data info →
  tree_wf (fw_data w) → tree_wf (fw_meta w) →
  complete_outcome cfg key id (fu_parts input) (fu_conditions input) w0 x w'.
Proof.
  intros Hr [Hm Hp Ho Hrep _] Hmulti Htells Hwd Hwm.
  assert (∀ w1, fw_data w1 = fw_data w → outside_same id (fw_multi w) (fw_multi w1) →
    assembled cfg key id (fu_parts input) (fu_conditions input) w0 w1 data) as Ha.
  { intros w1 HD Hout. split; [done|done|done| |by rewrite <- Hmulti]. unfold replaced in *. by rewrite HD. }
  apply bind_cases in Hr as [(u & w1 & Hrm & Hr)|(e & Hrm & ->)].
  - apply map_err_ok, remove_upload_run in Hrm as (HD & HM & Hout & Hgone). destruct u.
    run_cases Hr; quiet_step R Hs.
    + injection Hr as <- <-. unfold complete_outcome. rewrite (same_data _ _ Hs), (same_meta _ _ Hs), HD, HM.
      do 2 (split; [done|]). exists data. split; [apply Ha; [by rewrite (same_data _ _ Hs)|by rewrite (same_multi _ _ Hs)]|].
      split; [done|]. rewrite (same_multi _ _ Hs). by apply Hgone.
    + unfold complete_outcome. rewrite uncertain_uncertain, (same_data _ _ Hs), (same_meta _ _ Hs), HD, HM.
      do 2 (split; [done|]). exists data. apply Ha; [by rewrite (same_data _ _ Hs)|by rewrite (same_multi _ _ Hs)].
  - apply map_err_err in Hrm as (e0 & Hrm & ->). apply remove_upload_run in Hrm as (HD & HM & Hout & _).
    unfold complete_outcome. rewrite uncertain_uncertain, HD, HM. do 2 (split; [done|]). exists data. by apply Ha.
Qed.
Lemma certain_check_parts previous parts : certain (lift_result (check_parts previous parts)).
Proof.
  apply only_lift. revert previous. induction parts as [|part parts IH]; intros previous e; simpl; [done|].
  destruct (_ || _); [by intros [= <-]|]. destruct (_ <=? _)%Z; [by intros [= <-]|apply IH].
Qed.
(** The staging and publication of the joined parts. *)
Lemma complete_publish cfg session rq key id input ct w x w' :
  (let? prepared :=
     map_err (λ e, match e with FS_Io IoInvalidPart => FS_InvalidPart | e => e end)
       (prepare cfg session key (PartsReader (parts_directory id) (fu_parts input)) ct None rq) in
   let? info := publish_locked cfg session key prepared (fu_conditions input) rq in
   do? map_err uncertain (remove_upload (below multipart id)) in
   do? map_err uncertain (rq_check rq session) in
   ret info) w = (x, w') →
  tree_wf (fw_data w) → tree_wf (fw_meta w) →
  (∃ state, manifest_at w id = Some state ∧ mf_key state = key ∧ mf_bucket state = sc_bucket cfg) →
  check_parts 0 (fu_parts input) = Ok tt →
  complete_outcome cfg key id (fu_parts input) (fu_conditions input) w x w'.
Proof.
  intros Hr Hwd Hwm Hman Horder.
  pose proof (quiet_prepare cfg session key _ ct None rq (quiet_parts_reader (parts_directory id) (fu_parts input))) as Hq.
  apply bind_cases in Hr as [(po & w1 & Hpo & Hr)|(e & Hpo & ->)].
  2: { apply map_err_err in Hpo as (e0 & Hpo & ->). apply complete_none; [by eapply Hq| |done|done].
       apply certain_prepare in Hpo. by destruct e0 as [| | | | | | | | | | | | | | | |?|[]|]. }
  apply map_err_ok in Hpo. pose proof (Hq _ _ _ Hpo) as Hs1. apply prepare_ok in Hpo as (n & data & w2 & w3 & Hs2 & Hst & Hstaged).
  apply stage_parts_reader in Hst as ((contents & Hver & Hdata) & Hn & Hle). specialize (Hstaged (conj Hn Hle)).
  assert (Forall2 (verified w (parts_directory id)) (fu_parts input) contents) as Hver0.
  { eapply Forall2_impl; [exact Hver|]. intros part c [[m Hf] He]. split; [|done]. exists m.
    simpl in *. by rewrite (same_multi _ _ Hs2) in Hf. }
  apply (complete_outcome_same _ _ _ _ _ w w1); [done|]. rewrite <- (same_data _ _ Hs1) in Hwd. rewrite <- (same_meta _ _ Hs1) in Hwm.
  assert (∀ w4, replaced key data (fu_conditions input) w1 w4 → fw_multi w4 = fw_multi w1 →
    assembled cfg key id (fu_parts input) (fu_conditions input) w1 w4 data) as Hasm.
  { intros w4 Hrep HU. split; [unfold manifest_at; by rewrite (same_multi _ _ Hs1)| |done|done|by rewrite HU].
    exists contents. split; [|done]. eapply Forall2_impl; [exact Hver0|]. intros part c [[m Hf] He]. split; [|done].
    exists m. simpl in *. by rewrite (same_multi _ _ Hs1). }
  pose proof (staged_tells _ _ _ _ _ _ Hstaged) as Htells. destruct Hstaged as [Hpay].
  apply bind_cases in Hr as [(info & w4 & Hpub & Hr)|(e & Hpub & ->)]; (apply publish_locked_run in Hpub; [|done..]);
    destruct (published_wf _ _ _ _ _ _ Hpub Hwd Hwm) as (Hwd4 & Hwm4 & HU4);
    apply published_objects in Hpub as [(e' & He' & Hcert & Hobj & _)|(Hx & Hobj & Hc)]; try done; rewrite ?Hpay in Hobj.
  - destruct Hx as [[= ->]|[e ?]]; [|done]. eapply complete_after; [exact Hr|by apply Hasm|done|done|done|done].
  - injection He' as ->. unfold complete_outcome. by rewrite Hcert.
  - destruct Hx as [?|[e0 [= ->]]]; [done|]. unfold complete_outcome. split; [done|]. split; [done|]. exists data. by apply Hasm.
Qed.
Lemma complete_upload_run cfg session key input rq w x w' :
  tree_wf (fw_data w) → tree_wf (fw_meta w) →
  complete_upload cfg session key input rq w = (x, w') →
  complete_outcome cfg key (fu_upload_id input) (fu_parts input) (fu_conditions input) w x w' ∧
  (is_ok x = true ∨ ¬ same_trees w w' → authorized cfg session OpWrite key).
Proof.
  intros Hwd Hwm. unfold complete_upload. intros Hr.
  run_cases Hr; quiet_step R Hs.
  2: { split; [|by intros [|[]]]. apply complete_none; [done|by eapply certain_authorize|done|done]. }
  apply authorize_ok in R. split; [|done]. apply finish_upload_run in Hr as (y & w1 & Hm & Hs1 & Hx).
  eapply complete_outcome_same; [exact Hs|]. eapply same_complete_outcome; [|exact Hs1|exact Hx].
  rewrite <- (same_data _ _ Hs) in Hwd. rewrite <- (same_meta _ _ Hs) in Hwm. clear Hs Hs1 Hx x w' R.
  destruct (negb (upload_id _)); [injection Hm as <- <-; by apply complete_none|].
  destruct (bool_decide _); [injection Hm as <- <-; by apply complete_none|].
  pose proof (λ e w' He Hs, complete_none cfg key (fu_upload_id input) (fu_parts input) (fu_conditions input) s e w' Hs He Hwd Hwm)
    as Hnone.
  refine (early_step _ _ _ s _ _ _ Hnone (reflexivity s) (certain_check_parts 0 _) _ Hm _); [auto with broker|]. clear Hm.
  intros u1 w2 Hs2 Hord Hm. injection Hord as Hord _. destruct u1.
  refine (early_step _ _ _ s _ _ _ Hnone Hs2 _ _ Hm _); [auto with broker..|]. clear Hm. intros _ w3 Hs3 _ Hm.
  refine (early_step _ _ _ s _ _ _ Hnone Hs3 _ _ Hm _); [auto with broker..|]. clear Hm. intros [upload state] w4 Hs4 Hcur Hm.
  apply current_upload_ok in Hcur as (-> & _ & _ & Hman & Hval & Hkey). cbv beta iota in Hm.
  refine (early_step _ _ _ s _ _ _ Hnone Hs4 _ _ Hm _); [auto with broker..|]. clear Hm. intros directory w5 Hs5 Hdir Hm.
  unfold io in Hdir. apply map_err_ok, open_dir_ok in Hdir as [-> _].
  apply complete_publish in Hm; [by eapply complete_outcome_same|by rewrite (same_data _ _ Hs5)|by rewrite (same_meta _ _ Hs5)| |done].
  exists state. unfold manifest_at in *. rewrite (same_multi _ _ Hs5). rewrite (same_multi _ _ Hs3) in Hman.
  split; [done|]. split; [done|]. unfold manifest_valid in Hval. bool_to_prop. by apply str_eqb_eq.
Qed.
(** C12. Completing an upload is an atomic write of its parts joined.  When it
    succeeds, the object is the contents of the named parts one after the other,
    in the order of their numbers, each with the entity tag it was named with;
    the size and entity tag told are those of the whole, the conditions held,
    nothing of the upload is left and no other object or upload changed.  When
    the commit is uncertain the object is the same; on any other error neither
    objects nor uploads changed.  The upload was opened for this very key and
    bucket. *)
Theorem complete_upload_refines cfg session key input rq w x w' :
  tree_wf (fw_data w) → tree_wf (fw_meta w) →
  complete_upload cfg session key input rq w = (x, w') →
  complete_outcome cfg key (fu_upload_id input) (fu_parts input) (fu_conditions input) w x w' ∧
  (is_ok x = true ∨ ¬ same_trees w w' → authorized cfg session OpWrite key).
Proof. apply complete_upload_run. Qed.

(** ** Uploading a part *)

(** Only these paths of the multipart tree may change. *)
Definition touches (ps : list path) (w w' : World) : Prop :=
  fw_data w' = fw_data w ∧ fw_meta w' = fw_meta w ∧ ∀ p, p ∉ ps → fw_multi w' !! p = fw_multi w !! p.
Lemma touches_same ps w w' : same_trees w w' → touches ps w w'.
Proof. intros Hs. unfold touches. by rewrite (same_data _ _ Hs), (same_meta _ _ Hs), (same_multi _ _ Hs). Qed.
Lemma touches_trans ps w1 w2 w3 : touches ps w1 w2 → touches ps w2 w3 → touches ps w1 w3.
Proof.
  intros (D1 & M1 & U1) (D2 & M2 & U2). split; [congruence|]. split; [congruence|]. intros p Hp. by rewrite U2, U1.
Qed.
Lemma touches_mono ps qs w w' : ps ⊆ qs → touches ps w w' → touches qs w w'.
Proof. intros Hsub (D & M & U). split; [done|]. split; [done|]. intros p Hp. apply U. set_solver. Qed.
Lemma became_touches d name n w w' :
  d_root d = RMulti → became (d_root d) (<[d_path d ++ [name] := n]> (tree_of w (d_root d))) w w' →
  touches [d_path d ++ [name]] w w' ∧ fw_multi w' !! (d_path d ++ [name]) = Some n.
Proof.
  intros Hroot Hb. rewrite Hroot in Hb. apply became_trees in Hb as (HD & HM & HU). simpl in *. split.
  - split; [done|]. split; [done|]. intros p Hp. rewrite HU, lookup_insert_ne; [done|set_solver].
  - rewrite HU. apply lookup_insert_eq.
Qed.
Definition manifest_path (id : string) : path := [id; "manifest"].
Lemma write_upload_manifest_run cfg id state w x w' :
  write_upload_manifest cfg (below multipart id) state w = (x, w') → touches [manifest_path id] w w'.
Proof.
  unfold write_upload_manifest. intros Hr.
  assert (∀ A B (m : FsM A) (k : A → FsM B) w1 y w2, quiet m → (∀ a w3 y w2, k a w3 = (y, w2) → touches [manifest_path id] w3 w2) →
    bind m k w1 = (y, w2) → touches [manifest_path id] w1 w2) as Hstep.
  { intros A B m k w1 y w2 Hq Hk Hb. apply bind_cases in Hb as [(a & w3 & Ha & Hb)|(e & He & _)].
    - eapply touches_trans; [by eapply touches_same, Hq|by eapply Hk].
    - by eapply touches_same, Hq. }
  revert w x w' Hr. intros w x w'. apply Hstep; [auto with broker|]. intros data w1 y1 w1'.
  do 4 (apply Hstep; [auto with broker|]; intros _ ? ? ?). apply Hstep; [auto with broker|]. intros _ wa ya wb Hr.
  apply bind_cases in Hr as [(u & wc & Hren & Hr)|(e & Hren & _)].
  - unfold io in Hren. apply map_err_ok, rename_into_run in Hren as [(_ & _ & Hb)|(e & ? & _)]; [|done].
    apply became_touches in Hb as [Ht _]; [|done]. eapply touches_trans; [exact Ht|]. apply touches_same. by quiet_step Hr Hs.
  - unfold io in Hren. apply map_err_err in Hren as (e0 & Hren & _).
    apply rename_into_run in Hren as [(? & _)|(e1 & _ & Hs)]; [done|]. by apply touches_same.
Qed.
Definition part_path (id : string) (number : Z) : path := [id; "parts"; print_int number].
(** What uploading a part comes to. *)
Definition part_outcome (id : string) (number : Z) (data : string) (w : World)
    (x : result FilesystemStoreError FilesystemPartInfo) (w' : World) : Prop :=
  touches [part_path id number; manifest_path id] w w' ∧
  match x with
  | Ok info => fw_multi w' !! part_path id number = Some (NFile data (pi_modified info)) ∧
      pi_number info = number ∧ pi_etag info = etag (sha256 data) ∧ pi_size info = len data
  | Err e => if is_uncertain e then ∃ modified, fw_multi w' !! part_path id number = Some (NFile data modified)
             else same_trees w w'
  end.
Lemma part_none id number data w e w' :
  is_uncertain e = false → same_trees w w' → part_outcome id number data w (Err e) w'.
Proof. intros He Hs. split; [by apply touches_same|]. by rewrite He. Qed.
Lemma part_outcome_same id number data w w0 x w' :
  same_trees w w0 → part_outcome id number data w0 x w' → part_outcome id number data w x w'.
Proof.
  intros Hs [Ht Hx]. split; [eapply touches_trans; [by apply touches_same|done]|].
  destruct x as [info|e]; [done|]. destruct (is_uncertain e); [done|by etrans].
Qed.
Lemma same_part_outcome id number data w y w1 x w' :
  part_outcome id number data w y w1 → same_trees w1 w' →
  match y with
  | Ok a => x = Ok a ∨ ∃ e, x = Err (FS_CommitUncertain e)
  | Err e => if is_uncertain e then x = Err e else ∃ e', x = Err e' ∧ is_uncertain e' = false
  end → part_outcome id number data w x w'.
Proof.
  intros [Ht Hy] Hs Hx. split; [eapply touches_trans; [done|by apply touches_same]|]. rewrite (same_multi _ _ Hs).
  destruct y as [info|e].
  - destruct Hy as (Hf & Hrest). destruct Hx as [->|[e ->]]; [done|]. simpl. eauto.
  - destruct (is_uncertain e) eqn:Eu; [subst x; by rewrite Eu|]. destruct Hx as (e' & -> & He'). rewrite He'. by etrans.
Qed.
(** Once the payload is in place. *)
Lemma upload_part_after cfg session rq id number data state info w0 w x w' :
  (do? map_err uncertain (
     do? sync_dir (parts_directory id) in
     let? now := seconds in
     do? write_upload_manifest cfg (below multipart id) (with_progress state now) in
     do? rq_check rq session in
     io plain) in
   ret info) w = (x, w') →
  touches [part_path id number] w0 w → fw_multi w !! part_path id number = Some (NFile data (pi_modified info)) →
  pi_number info = number → pi_etag info = etag (sha256 data) → pi_size info = len data →
  part_outcome id number data w0 x w'.
Proof.
  intros Hr Ht Hf Hn He Hsz.
  assert (∃ y, (x = Ok info ∧ is_ok y = true ∨ ∃ e, x = Err e ∧ is_uncertain e = true) ∧ (
     do? sync_dir (parts_directory id) in
     let? now := seconds in
     do? write_upload_manifest cfg (below multipart id) (with_progress state now) in
     do? rq_check rq session in
     io plain) w = (y, w')) as (y & Hx & Hy).
  { apply bind_cases in Hr as [(u & w1 & Hu & [= <- ->])|(e & Hu & ->)].
    - apply map_err_ok in Hu. exists (Ok u). split; [by left|done].
    - apply map_err_err in Hu as (e0 & Hu & ->). exists (Err e0). split; [|done]. right. eexists. split; [done|].
      apply uncertain_uncertain. }
  assert (touches [manifest_path id] w w') as Ht2.
  { run_cases Hy; quiet_step R Hs1; [|by apply touches_same]. run_cases Hy; quiet_step R0 Hs2.
    2: { apply touches_same. by etrans. }
    run_cases Hy; apply write_upload_manifest_run in R1; (eapply touches_trans; [apply touches_same; by etrans|]); [|done].
    quiet_step Hy Hs3. eapply touches_trans; [done|by apply touches_same]. }
  assert (fw_multi w' !! part_path id number = Some (NFile data (pi_modified info))) as Hf2.
  { destruct Ht2 as (_ & _ & U). rewrite U; [done|]. unfold part_path, manifest_path. set_solver. }
  split; [eapply touches_trans; [eapply (touches_mono [part_path id number])|eapply (touches_mono [manifest_path id])]; [|done| |done]; set_solver|].
  destruct Hx as [[-> _]|(e & -> & ->)]; [done|]. eauto.
Qed.
Lemma upload_part_run cfg session key id number body rq w x w' data :
  upload_part cfg session key id number body rq w = (x, w') → body_data body = Some data →
  part_outcome id number data w x w' ∧ (is_ok x = true → (1 ≤ number ≤ MAX_PART)%Z).
Proof.
  unfold upload_part. intros Hr Hb. run_cases Hr; quiet_step R Hs.
  2: { split; [|done]. by eapply part_none, Hs; eapply certain_authorize. }
  apply finish_upload_run in Hr as (y & w1 & Hm & Hs1 & Hx).
  assert (part_outcome id number data s y w1 ∧ (is_ok y = true → (1 ≤ number ≤ MAX_PART)%Z)) as [Hy Hnum].
  2: { split; [eapply part_outcome_same; [exact Hs|]; by eapply same_part_outcome|]. intros Hok. apply Hnum.
       destruct y as [a0|e]; [done|]. destruct (is_uncertain e); [by subst x|]. by destruct Hx as (e' & -> & _). }
  clear Hs Hs1 Hx x w' R. pose proof (part_none id number data s) as Hnone.
  destruct (negb _) eqn:En; [injection Hm as <- <-; split; [by apply Hnone|done]|]. bool_to_prop. split; [|done].
  destruct (negb (upload_id id)); [injection Hm as <- <-; by apply Hnone|].
  refine (early_step _ _ _ s _ _ _ Hnone (reflexivity s) _ _ Hm _); [auto with broker..|]. clear Hm. intros _ w2 Hs2 _ Hm.
  refine (early_step _ _ _ s _ _ _ Hnone Hs2 _ _ Hm _); [auto with broker..|]. clear Hm. intros [dir0 initial] w3 Hs3 _ Hm.
  cbv beta iota in Hm.
  refine (early_step _ _ _ s _ _ _ Hnone Hs3 (certain_prepare _ _ _ _ _ _ _) (quiet_prepare _ _ _ _ _ _ _ (quiet_list_reader body)) Hm _).
  clear Hm. intros po w4 Hs4 Hpo Hm. apply prepare_body in Hpo as (data' & Hb' & Hst). replace data' with data in Hst by congruence.
  refine (early_step _ _ _ s _ _ _ Hnone Hs4 _ _ Hm _); [auto with broker..|]. clear Hm. intros _ w5 Hs5 _ Hm.
  refine (early_step _ _ _ s _ _ _ Hnone Hs5 _ _ Hm _); [auto with broker..|]. clear Hm. intros [upload state] w6 Hs6 Hcur Hm.
  apply current_upload_ok in Hcur as (-> & _). cbv beta iota in Hm.
  refine (early_step _ _ _ s _ _ _ Hnone Hs6 _ _ Hm _); [auto with broker..|]. clear Hm. intros parts w7 Hs7 Hdir Hm.
  unfold io in Hdir. apply map_err_ok, open_dir_ok in Hdir as [-> _]. cbv zeta in Hm.
  refine (early_step _ _ _ s _ _ _ Hnone Hs7 _ _ Hm _); [auto with broker..|]. clear Hm. intros _ w8 Hs8 _ Hm.
  refine (early_step _ _ _ s _ _ _ Hnone Hs8 _ _ Hm _); [auto with broker..|]. clear Hm. intros _ w9 Hs9 _ Hm.
  apply bind_cases in Hm as [(u & w10 & Hren & Hm)|(e & Hren & ->)]; unfold io in Hren.
  - apply map_err_ok, rename_into_run in Hren as [(_ & _ & Hbec)|(e & ? & _)]; [|done].
    apply became_touches in Hbec as [Ht Hf]; [|done]. destruct Hst as [Hpay Hsize _ Htag].
    eapply part_outcome_same; [exact Hs9|]. eapply upload_part_after; [exact Hm|exact Ht|by rewrite <- Hpay|done..].
  - apply map_err_err in Hren as (e0 & Hren & ->). apply rename_into_run in Hren as [(? & _)|(e1 & _ & Hs10)]; [done|].
    apply Hnone; [done|by etrans].
Qed.

(** ** Parts uploaded and joined *)

Lemma print_int_inj n m : (0 ≤ n ≤ MAX_PART)%Z → (0 ≤ m ≤ MAX_PART)%Z → print_int n = print_int m → n = m.
Proof.
  intros Hn Hm Heq. pose proof (parse_print_int 0 MAX_PART n) as Pn. pose proof (parse_print_int 0 MAX_PART m) as Pm.
  rewrite Heq in Pn. rewrite Pn in Pm by (unfold MAX_PART in *; lia). injection Pm; [done|]. all: unfold MAX_PART in *; lia.
Qed.
(** Parts uploaded one after the other, under numbers of their own, with what
    the client was told and sent. *)
Inductive uploading (cfg : FilesystemStoreConfig) (key id : string) (w : World)
    : list (FilesystemCompletedPart * string) → World → Prop :=
| Uploading_none w1 : same_trees w w1 → uploading cfg key id w [] w1
| Uploading_part ps w1 session rq number body info data w2 :
    uploading cfg key id w ps w1 → number ∉ (cp_number ∘ fst <$> ps) →
    upload_part cfg session key id number body rq w1 = (Ok info, w2) → body_data body = Some data →
    uploading cfg key id w (ps ++ [({| cp_number := number; cp_etag := pi_etag info |}, data)]) w2.
Lemma uploading_parts cfg key id w ps w1 :
  uploading cfg key id w ps w1 →
  fw_data w1 = fw_data w ∧ fw_meta w1 = fw_meta w ∧
  ∀ part data, (part, data) ∈ ps → (1 ≤ cp_number part ≤ MAX_PART)%Z ∧ cp_etag part = etag (sha256 data) ∧
    ∃ modified, fw_multi w1 !! part_path id (cp_number part) = Some (NFile data modified).
Proof.
  induction 1 as [w1 Hs|ps w1 session rq number body info data w2 _ (HD & HM & Hps) Hnew Hup Hb].
  { split; [apply (same_data _ _ Hs)|]. split; [apply (same_meta _ _ Hs)|]. set_solver. }
  apply (upload_part_run _ _ _ _ _ _ _ _ _ _ data) in Hup as [[(HD2 & HM2 & Hrest) (Hf & Hn & He & _)] Hrange]; [|done].
  specialize (Hrange eq_refl). split; [congruence|]. split; [congruence|].
  intros part data' [Hin|Heq]%elem_of_app.
  - destruct (Hps _ _ Hin) as (Hr & Ht & m & Hm). split; [done|]. split; [done|]. exists m. rewrite Hrest; [done|].
    unfold part_path, manifest_path. intros Hbad. apply elem_of_cons in Hbad as [[= Heq]|Hbad]; [|set_solver].
    apply print_int_inj in Heq; [|lia..]. apply Hnew. apply list_elem_of_fmap. by exists (part, data').
  - apply list_elem_of_singleton in Heq as [= -> ->]. simpl. eauto.
Qed.
(** C28. What was uploaded in parts is what is completed.  Parts are uploaded in
    any order, by any sessions; when the upload is then completed with some of
    them, under the entity tags the clients were told, the object is the bodies
    of those parts joined in the order they are named in. *)
Theorem upload_then_complete cfg key id w ps w1 session rq conditions chosen info w2 :
  tree_wf (fw_data w) → tree_wf (fw_meta w) → uploading cfg key id w ps w1 → chosen ⊆ ps →
  complete_upload cfg session key {| fu_upload_id := id; fu_parts := fst <$> chosen; fu_conditions := conditions |} rq w1 =
    (Ok info, w2) →
  objects (fw_data w2) = <[kpath key := concat_str (snd <$> chosen)]> (objects (fw_data w)) ∧
  tells cfg (concat_str (snd <$> chosen)) info ∧ ∀ p, fw_multi w2 !! (id :: p) = None.
Proof.
  intros Hwd Hwm Hup Hsub Hc. apply uploading_parts in Hup as (HD & HM & Hps).
  apply complete_upload_run in Hc as [(_ & _ & data & Hasm & Htells & Hgone) _]; [|by rewrite ?HD, ?HM..]. simpl in *.
  destruct Hasm as [_ (contents & Hver & ->) _ [Hobj _] _]. rewrite HD in Hobj.
  enough (contents = snd <$> chosen) as -> by done. clear Hobj Htells.
  revert contents Hver. induction chosen as [|[part data] chosen IH]; intros contents Hver.
  - by inversion Hver.
  - apply Forall2_cons_inv_l in Hver as (c & rest & [[m Hf] _] & Hver & ->). simpl. f_equal; [|apply IH; [set_solver|done]].
    destruct (Hps part data) as (_ & _ & m' & Hf'); [set_solver|]. change (fw_multi w1 !! part_path id (cp_number part) = Some (NFile c m)) in Hf.
    congruence.
Qed.

(** ** Uploads without progress *)

(** No manifest was ever committed, or the last progress is a day old. *)
Definition abandoned (cfg : FilesystemStoreConfig) (now : Z) (w : World) (id : string) : bool :=
  match fw_multi w !! manifest_path id with
  | None => true
  | Some _ => match manifest_at w id with
              | Some state => (ABANDONED_SECONDS <=? Z.max 0 (now - mf_last_progress state))%Z
              | None => false
              end
  end.
(** The other uploads, and all objects, are spared. *)
Record spares (cfg : FilesystemStoreConfig) (now : Z) (w w' : World) : Prop := {
  sp_data : fw_data w' = fw_data w;
  sp_meta : fw_meta w' = fw_meta w;
  sp_live id p : abandoned cfg now w id = false → fw_multi w' !! (id :: p) = fw_multi w !! (id :: p);
}.
Lemma abandoned_same cfg now w w' id :
  (∀ p, fw_multi w' !! (id :: p) = fw_multi w !! (id :: p)) → abandoned cfg now w' id = abandoned cfg now w id.
Proof. intros Hs. unfold abandoned, manifest_at, manifest_path. by rewrite Hs. Qed.
#[global] Instance spares_preorder cfg now : PreOrder (spares cfg now).
Proof.
  split; [done|]. intros w1 w2 w3 [D1 M1 L1] [D2 M2 L2]. split; [congruence|congruence|].
  intros id p Hl. rewrite L2, L1; [done|done|]. rewrite (abandoned_same cfg now w1 w2 id); [done|]. intros q. by apply L1.
Qed.
Lemma same_trees_spares cfg now w w' : same_trees w w' → spares cfg now w w'.
Proof. intros Hs. split; intros; by rewrite ?(same_data _ _ Hs), ?(same_meta _ _ Hs), ?(same_multi _ _ Hs). Qed.
Lemma removed_spares cfg now id w w' :
  abandoned cfg now w id = true → fw_data w' = fw_data w → fw_meta w' = fw_meta w →
  outside_same id (fw_multi w) (fw_multi w') → spares cfg now w w'.
Proof.
  intros Ha HD HM Hout. split; [done|done|]. intros id' p Hl. apply Hout. simpl. intros [= ->]. congruence.
Qed.
(** What is below an upload is below its directory. *)
Definition rooted (w : World) (id : string) : Prop :=
  ∀ p n, fw_multi w !! (id :: p) = Some n → is_Some (fw_multi w !! [id]).
Lemma tree_wf_rooted w id : tree_wf (fw_multi w) → rooted w id.
Proof.
  intros Hwf p n Hf. destruct (decide (p = [])) as [->|Hne]; [eauto|].
  apply (tree_wf_prefix _ [id] p) in Hf; [simpl in Hf; eauto|done|done].
Qed.
(** One upload: removed when it is abandoned, and only then. *)
Lemma prune_upload_run cfg id now w x w' :
  prune_upload cfg id now w = (x, w') →
  spares cfg now w w' ∧ outside_same id (fw_multi w) (fw_multi w') ∧
  (x = Ok tt → rooted w id → abandoned cfg now w id = true → upload_id id = true →
     ∀ p, fw_multi w' !! (id :: p) = None).
Proof.
  unfold prune_upload. intros Hr.
  assert (same_trees w w' → (x = Ok tt → rooted w id → abandoned cfg now w id = true → upload_id id = true →
    ∀ p, fw_multi w !! (id :: p) = None) →
    spares cfg now w w' ∧ outside_same id (fw_multi w) (fw_multi w') ∧
    (x = Ok tt → rooted w id → abandoned cfg now w id = true → upload_id id = true →
       ∀ p, fw_multi w' !! (id :: p) = None)) as Hsame.
  { intros Hs Hgone. split; [by apply same_trees_spares|]. rewrite (same_multi _ _ Hs). done. }
  apply bind_cases in Hr as [(d & w1 & Hd%outcome_run & Hr)|(e & He & _)]; [|by unfold outcome in He; destruct (upload_directory id w)].
  quiet_step Hd Hs1. apply upload_directory_run in Hd as [Hdir Hnone].
  destruct d as [dir|e].
  2: { assert (w' = w1 ∧ (x = Ok tt → e = FS_NoSuchUpload)) as [-> He] by (destruct e; injection Hr as <- <-; done).
       apply Hsame; [done|]. intros Hx Hwf _ Hid p. rewrite (He Hx) in Hnone. destruct (Hnone eq_refl) as [Hn|?]; [|congruence].
       apply eq_None_not_Some. intros [n Hf]. apply Hwf in Hf as [? ?]. congruence. }
  destruct (Hdir _ eq_refl) as (-> & _ & _).
  apply bind_cases in Hr as [(m & w2 & Hm%outcome_run & Hr)|(e & He & _)];
    [|by unfold outcome in He; destruct (read_upload_manifest _ _ w1)].
  quiet_step Hm Hs2. apply read_upload_manifest_run in Hm as [Hok Hno]. assert (same_trees w w2) as Hs by (by etrans).
  assert (∀ w', abandoned cfg now w id = true → remove_upload (below multipart id) w2 = (x, w') →
    spares cfg now w w' ∧ outside_same id (fw_multi w) (fw_multi w') ∧
    (x = Ok tt → rooted w id → abandoned cfg now w id = true → upload_id id = true →
       ∀ p, fw_multi w' !! (id :: p) = None)) as Hremove.
  { intros w3 Ha (HD & HM & Hout & Hgone)%remove_upload_run. rewrite (same_data _ _ Hs) in HD. rewrite (same_meta _ _ Hs) in HM.
    rewrite (same_multi _ _ Hs) in Hout. split; [by eapply removed_spares|]. split; [done|]. auto. }
  unfold manifest_at in Hok. rewrite (same_multi _ _ Hs1) in Hok, Hno. destruct m as [state|e].
  - destruct (Hok _ eq_refl) as [Hman _].
    assert (abandoned cfg now w id = (ABANDONED_SECONDS <=? Z.max 0 (now - mf_last_progress state))%Z) as Ha.
    { unfold abandoned, manifest_at, manifest_path. destruct (fw_multi w !! [id; "manifest"]) as [n|]; [|done]. by rewrite Hman. }
    destruct (_ <=? _)%Z; [by apply Hremove|]. injection Hr as <- <-. apply Hsame; [done|]. congruence.
  - assert (e = FS_NoSuchUpload ∧ remove_upload (below multipart id) w2 = (x, w') ∨ w' = w2 ∧ x = Err e) as [[-> Hrm]|[-> ->]]
      by (destruct e; try (right; by injection Hr as <- <-); by left).
    + apply Hremove; [|done]. unfold abandoned, manifest_path. by rewrite Hno.
    + by apply Hsame.
Qed.
(** One turn of a loop over the uploads. *)
Definition prunes (cfg : FilesystemStoreConfig) (now : Z) (f : unit → string → FsM unit) : Prop :=
  ∀ b id w x w', f b id w = (x, w') →
    spares cfg now w w' ∧ outside_same id (fw_multi w) (fw_multi w') ∧
    (x = Ok tt → is_Some (fw_multi w !! [id]) ∧
       (rooted w id → abandoned cfg now w id = true → ∀ p, fw_multi w' !! (id :: p) = None)).
Lemma prune_entry_run cfg now guard : quiet guard → prunes cfg now (λ _ id, prune_entry cfg now guard id).
Proof.
  intros Hq b id w x w'. unfold prune_entry. intros Hr.
  set (P := λ (x : result FilesystemStoreError unit) w', spares cfg now w w' ∧ outside_same id (fw_multi w) (fw_multi w') ∧
    (x = Ok tt → is_Some (fw_multi w !! [id]) ∧
       (rooted w id → abandoned cfg now w id = true → ∀ p, fw_multi w' !! (id :: p) = None))).
  assert (∀ e w', same_trees w w' → P (Err e) w') as Hnone.
  { intros e w1 Hs. split; [by apply same_trees_spares|]. split; [by rewrite (same_multi _ _ Hs)|done]. }
  change (P x w'). run_cases Hr; quiet_step R Hs1; [|by apply Hnone].
  run_cases Hr; quiet_step R0 Hs2; [|apply Hnone; by etrans].
  unfold io, stat in R0. apply map_err_ok, node_at_ok in R0. simpl in R0. rewrite (same_multi _ _ Hs1) in R0.
  destruct (negb (is_dir a0) || negb (upload_id id)) eqn:Ek; [injection Hr as <- <-; apply Hnone; by etrans|].
  apply orb_false_iff in Ek as [_ Hid]. bool_to_prop.
  run_cases Hr; pose proof (Hq _ _ _ R1) as Hs3; [|apply Hnone; etrans; [exact Hs1|by etrans]].
  assert (same_trees w s1) as Hs by (etrans; [exact Hs1|by etrans]).
  apply prune_upload_run in Hr as (Hsp & Hout & Hgone). split; [|split].
  - etrans; [by apply same_trees_spares|done].
  - by rewrite (same_multi _ _ Hs) in Hout.
  - intros Hx. split; [eauto|]. intros Hroot Ha. apply Hgone; [done| |by rewrite (abandoned_same cfg now w s1 id);
      [|intros q; by rewrite (same_multi _ _ Hs)]|done].
    unfold rooted in *. by rewrite (same_multi _ _ Hs).
Qed.
Lemma prunes_after_check cfg now m f : quiet m → prunes cfg now f → prunes cfg now (λ b id, do? (m : FsM unit) in f b id).
Proof.
  intros Hq Hf b id w x w' Hr. apply bind_cases in Hr as [(u & w1 & Hm & Hr)|(e & Hm & ->)]; pose proof (Hq _ _ _ Hm) as Hs.
  - apply Hf in Hr as (Hsp & Hout & Hx). split; [etrans; [by apply same_trees_spares|done]|].
    rewrite (same_multi _ _ Hs) in Hout, Hx. split; [done|]. intros Hok. destruct (Hx Hok) as [Hd Hgone]. split; [done|].
    intros Hroot Ha. apply Hgone; [unfold rooted in *; by rewrite (same_multi _ _ Hs)|].
    rewrite (abandoned_same cfg now w w1 id); [done|]. intros q. by rewrite (same_multi _ _ Hs).
  - split; [by apply same_trees_spares|]. split; [by rewrite (same_multi _ _ Hs)|done].
Qed.
Lemma prune_loop cfg now f names w x w' :
  prunes cfg now f → mfor f tt names w = (x, w') →
  spares cfg now w w' ∧
  (x = Ok tt → ∀ id, rooted w id → abandoned cfg now w id = true →
     (∀ p, fw_multi w' !! (id :: p) = None) ∨ id ∉ names ∧ ∀ p, fw_multi w' !! (id :: p) = fw_multi w !! (id :: p)).
Proof.
  intros Hf Hr. assert (∀ b id, keeps (spares cfg now) (f b id)) as Hk.
  { intros b id w1 y w2 Hy. by apply Hf in Hy as [? _]. }
  split; [by eapply keeps_mfor, Hr; [apply _|]|]. intros ->.
  apply (mfor_run_ind (spares cfg now) (λ prior _ w1, ∀ id, rooted w id → abandoned cfg now w id = true →
    (∀ p, fw_multi w1 !! (id :: p) = None) ∨ id ∉ prior ∧ ∀ p, fw_multi w1 !! (id :: p) = fw_multi w !! (id :: p))
    f tt names w tt w' Hk Hr).
  - intros id' _ _. right. split; [set_solver|done].
  - intros prior x acc w1 [] w2 _ Hinv Hrun _ id' Hroot' Ha'. destruct acc. apply Hf in Hrun as (_ & Hout & Hx).
    destruct (Hx eq_refl) as [[n Hn] Hgone]. destruct (decide (id' = x)) as [->|Hne].
    + left. destruct (Hinv x Hroot' Ha') as [Hall|[_ Hall]]; [by rewrite Hall in Hn|]. apply Hgone.
      * intros p m. rewrite !Hall. apply Hroot'.
      * by rewrite (abandoned_same cfg now w w1 x).
    + assert (∀ p, fw_multi w2 !! (id' :: p) = fw_multi w1 !! (id' :: p)) as Hsame by (intros p; apply Hout; simpl; congruence).
      destruct (Hinv id' Hroot' Ha') as [Hall|[Hnot Hall]]; [left; intros p; by rewrite Hsame|].
      right. split; [set_solver|]. intros p. by rewrite Hsame.
Qed.
Definition clock_seconds (w : World) : Z := (utc_at (fw_clock w) (tick (fw_clock w)) / NANOS)%Z.
Lemma seconds_ok w now w' : seconds w = (Ok now, w') → now = clock_seconds w.
Proof.
  unfold seconds, on_clock, bind, system_now, lift_result. intros Hr. injection Hr as Hr _.
  apply rmap_err_ok, fs_seconds_ok in Hr as [_ ->]. done.
Qed.
Lemma prune_run cfg f w x w' :
  (∀ now, prunes cfg now (f now)) → (let? now := seconds in let? names := io (read_dir multipart) in mfor (f now) tt names) w = (x, w') →
  tree_wf (fw_multi w) →
  spares cfg (clock_seconds w) w w' ∧
  (x = Ok tt → ∀ id p, abandoned cfg (clock_seconds w) w id = true → fw_multi w' !! (id :: p) = None).
Proof.
  intros Hf Hr Hwf. run_cases Hr; quiet_step R Hs1; [|split; [by apply same_trees_spares|done]].
  apply seconds_ok in R as ->. run_cases Hr; quiet_step R Hs2; [|split; [apply same_trees_spares; by etrans|done]].
  assert (same_trees w s0) as Hs by (by etrans). unfold io in R. apply map_err_ok in R.
  pose proof (read_dir_ok _ _ _ _ R) as Hnames. simpl in Hnames. rewrite (same_multi _ _ Hs1) in Hnames.
  apply (prune_loop cfg (clock_seconds w)) in Hr as [Hsp Hgone]; [|apply Hf].
  split; [etrans; [by apply same_trees_spares|done]|]. intros Hx id p Ha.
  pose proof (tree_wf_rooted w id Hwf) as Hroot.
  destruct (Hgone Hx id) as [Hall|[Hnot Hall]]; [unfold rooted in *; by rewrite (same_multi _ _ Hs)| |by apply Hall|].
  - rewrite (abandoned_same cfg _ w s0 id); [done|]. intros q. by rewrite (same_multi _ _ Hs).
  - rewrite Hall, (same_multi _ _ Hs). apply eq_None_not_Some. intros [n Hn]. apply Hnot, Hnames. by eapply Hroot.
Qed.
Lemma prune_current_run cfg session rq w x w' :
  prune_multipart_current cfg session rq w = (x, w') → tree_wf (fw_multi w) →
  spares cfg (clock_seconds w) w w' ∧
  (x = Ok tt → ∀ id p, abandoned cfg (clock_seconds w) w id = true → fw_multi w' !! (id :: p) = None).
Proof.
  apply (prune_run cfg (λ now _ id, do? rq_check rq session in prune_entry cfg now (lock rq session) id)). intros now.
  apply prunes_after_check; [auto with broker|]. apply prune_entry_run. auto with broker.
Qed.
(** C31. Cleaning up removes the abandoned uploads and no others.  Whatever fails
    on the way, an upload whose manifest shows progress in the last day keeps
    all its files, and no object changes; when it succeeds, at startup or before
    an upload is created, nothing is left of the uploads without progress for a
    day and of those whose manifest was never committed. *)
Theorem prune_exact cfg session rq prune w x w' :
  tree_wf (fw_multi w) → prune = prune_multipart_current cfg session rq ∨ prune = prune_multipart_startup cfg →
  prune w = (x, w') →
  spares cfg (clock_seconds w) w w' ∧
  (x = Ok tt → ∀ id p, abandoned cfg (clock_seconds w) w id = true → fw_multi w' !! (id :: p) = None).
Proof.
  intros Hwf [->| ->] Hr; [by eapply prune_current_run|].
  eapply (prune_run cfg (λ now _ id, prune_entry cfg now (ret tt) id)); [|exact Hr|done].
  intros now. apply prune_entry_run. auto with broker.
Qed.

(** ** Listing the parts *)

Lemma part_number_Some raw n : part_number raw = Some n → raw = print_int n ∧ (1 ≤ n ≤ MAX_PART)%Z.
Proof.
  unfold part_number. destruct (parse_int _ _ raw) as [m|]; simpl; [|done].
  destruct ((_ <=? _)%Z && _ && _) eqn:E; [|done]. bool_to_prop. intros [= <-].
  split; [|done]. symmetry. by apply str_eqb_eq.
Qed.
(** The parts of an upload, by number. *)
Definition part_at (w : World) (id : string) (n : Z) : option (string * Z) :=
  match fw_multi w !! part_path id n with Some (NFile content modified) => Some (content, modified) | _ => None end.
Definition part_info (w : World) (id : string) (n : Z) (info : FilesystemPartInfo) : Prop :=
  ∃ content modified, part_at w id n = Some (content, modified) ∧
    info = {| pi_number := n; pi_etag := etag (sha256 content); pi_size := len content; pi_modified := modified |}.
Lemma describe_part_ok id n session rq w info w' :
  describe_part (parts_directory id) n session rq w = (Ok info, w') → part_info w id n info.
Proof.
  unfold describe_part. intros Hr. apply bind_ok in Hr as (node & w1 & Ho & Hr). unfold io in Ho.
  apply map_err_ok, open_file_run in Ho as [Hn _]. specialize (Hn _ eq_refl).
  change (fw_multi w !! part_path id n = Some node) in Hn.
  apply bind_ok in Hr as (u & w2 & _ & Hr). destruct node as [content modified| |]; [|discriminate Hr..].
  apply bind_ok in Hr as (data & w3 & Hh & Hr). apply hash_chunks_ok in Hh as ->. simpl in Hr.
  rewrite (file_chunks_concat content) in Hr. invert_run Hr. exists content, modified. unfold part_at. by rewrite Hn.
Qed.
Lemma collect_part_ok session rq id marker limit xs numbers raw w out w' :
  collect_part session rq (parts_directory id) marker limit numbers raw w = (Ok out, w') →
  numbers = take limit (bset_of xs) →
  ∃ n, part_number raw = Some n ∧ is_Some (part_at w id n) ∧
    out = take limit (bset_of (if (n <=? marker)%Z then xs else xs ++ [n])).
Proof.
  unfold collect_part. intros Hr Hnum. apply bind_ok in Hr as (u & w1 & H1w & Hr). quiet_step H1w Hs1.
  apply bind_ok in Hr as (u2 & w2 & H2w & Hr). quiet_step H2w Hs2.
  apply bind_ok in Hr as (n & w3 & Hn & Hr). injection Hn as Hn <-. apply ok_or_ok in Hn.
  apply bind_ok in Hr as (kind & w4 & Hk & Hr). unfold io, stat in Hk. apply map_err_ok, node_at_ok in Hk.
  pose proof (part_number_Some _ _ Hn) as [-> _]. change (fw_multi w2 !! part_path id n = Some kind) in Hk.
  assert (same_trees w w2) as Hs by (by etrans). rewrite (same_multi _ _ Hs) in Hk.
  exists n. split; [done|]. destruct kind as [content modified| |]; [|discriminate Hr..]. simpl in Hr. split.
  { unfold part_at. rewrite Hk. eauto. }
  destruct (n <=? marker)%Z; injection Hr as <- _; [done|]. by apply bset_bounded_step.
Qed.
(** A loop over the names of the parts directory gathers the first parts after
    the marker. *)
Lemma collect_parts_ok session rq id marker limit names w out w' :
  mfor (collect_part session rq (parts_directory id) marker limit) [] names w = (Ok out, w') →
  ∃ xs, out = take limit (bset_of xs) ∧
    (∀ n, n ∈ xs → (marker < n)%Z ∧ (1 ≤ n ≤ MAX_PART)%Z ∧ is_Some (part_at w id n)) ∧
    (∀ n, print_int n ∈ names → (marker < n)%Z → (1 ≤ n ≤ MAX_PART)%Z → n ∈ xs).
Proof.
  intros Hr.
  apply (mfor_run_ind same_trees (λ prior acc w1, same_trees w w1 ∧ ∃ xs, acc = take limit (bset_of xs) ∧
    (∀ n, n ∈ xs → (marker < n)%Z ∧ (1 ≤ n ≤ MAX_PART)%Z ∧ is_Some (part_at w id n)) ∧
    (∀ n, print_int n ∈ prior → (marker < n)%Z → (1 ≤ n ≤ MAX_PART)%Z → n ∈ xs)) _ [] names w out w') in Hr
    as [_ Hxs]; [done|auto with broker| |].
  - split; [done|]. exists []. split; [by destruct limit|]. split; set_solver.
  - intros prior raw acc w1 acc' w2 _ (Hs & xs & Hacc & Hin & Hall) Hc _.
    pose proof (quiet_collect_part _ _ _ _ _ _ _ _ _ _ Hc) as Hs2.
    split; [by etrans|]. eapply collect_part_ok in Hc as (n & Hn & Hp & ->); [|exact Hacc].
    apply part_number_Some in Hn as [-> Hrange]. unfold part_at in Hp. rewrite (same_multi _ _ Hs) in Hp.
    eexists. split; [done|]. destruct (Z.leb_spec n marker).
    + split; [done|]. intros m [Hm|Hm%list_elem_of_singleton]%elem_of_app Hlt Hrm; [by apply Hall|].
      apply print_int_inj in Hm; lia.
    + split.
      * intros m [Hm| ->%list_elem_of_singleton]%elem_of_app; [by apply Hin|done].
      * intros m [Hm|Hm%list_elem_of_singleton]%elem_of_app Hlt Hrm; apply elem_of_app; [left; by apply Hall|].
        right. apply list_elem_of_singleton, print_int_inj; [lia..|done].
Qed.
Lemma describe_parts_ok id session rq numbers w infos w' :
  mcollect (λ number, describe_part (parts_directory id) number session rq) numbers w = (Ok infos, w') →
  Forall2 (part_info w id) numbers infos.
Proof.
  revert w infos w'. induction numbers as [|n numbers IH]; intros w infos w' Hr; simpl in Hr.
  - injection Hr as <- _. constructor.
  - apply bind_ok in Hr as (info & w1 & Hi & Hr). quiet_step Hi Hs. apply describe_part_ok in Hi.
    apply bind_ok in Hr as (rest & w2 & Hrest & Hr). injection Hr as <- _. constructor; [done|].
    eapply Forall2_impl; [by eapply IH|]. intros m i. unfold part_info, part_at. by rewrite (same_multi _ _ Hs).
Qed.
(** A page of the parts, against all parts after its marker. *)
Record parts_page (w : World) (id : string) (marker : Z) (max : nat) (all : list Z) (page : FilesystemPartsPage) : Prop := {
  pg_sorted : StronglySorted lt_ord all;
  pg_all n : n ∈ all ↔ (marker < n)%Z ∧ (1 ≤ n ≤ MAX_PART)%Z ∧ is_Some (part_at w id n);
  pg_parts : Forall2 (part_info w id) (take max all) (pp_parts page);
  pg_truncated : pp_is_truncated page = true ↔ max < length all;
  pg_next : pp_next_marker page = if pp_is_truncated page then last (take max all) else None;
}.
Lemma parts_page_same w w1 id marker max all page :
  same_trees w w1 → parts_page w1 id marker max all page → parts_page w id marker max all page.
Proof.
  intros Hs [Hsort Hall Hparts Htr Hnext]. pose proof (same_multi _ _ Hs) as HU.
  split; [done| | |done|done].
  - intros n. rewrite Hall. unfold part_at. by rewrite HU.
  - eapply Forall2_impl; [exact Hparts|]. intros n i. unfold part_info, part_at. by rewrite HU.
Qed.
(** A page of parts is exact.  Its entries are the parts of the upload with
    a number after the marker, in increasing order and no more than asked for,
    each with the entity tag and size of the content it has; the page says that
    it is cut exactly when parts remain, and the next marker is then the last
    number given. *)
Theorem list_parts_exact cfg session key input rq w page w' :
  list_parts cfg session key input rq w = (Ok page, w') →
  ∃ max all, maximum_keys (pr_max_parts input) = Ok max ∧
    parts_page w (pr_upload_id input) (default 0%Z (pr_marker input)) max all page.
Proof.
  unfold list_parts. intros Hr. apply bind_ok in Hr as (u & w1 & Ha & Hr). quiet_step Ha Hs1. clear Ha.
  apply then_check_ok in Hr as [w2 Hr]. destruct (negb _); [done|]. cbv zeta in Hr. destruct (negb _); [done|].
  apply bind_ok in Hr as (max & w3 & Hm & Hr). injection Hm as Hm <-. exists max.
  apply bind_ok in Hr as (u2 & w4 & Hl & Hr). quiet_step Hl Hs2. clear Hl.
  apply bind_ok in Hr as ([upload state] & w5 & Hc & Hr). quiet_step Hc Hs3. apply current_upload_ok in Hc as (-> & _).
  apply bind_ok in Hr as (directory & w6 & Hd & Hr). quiet_step Hd Hs4. unfold io in Hd.
  apply map_err_ok, open_dir_ok in Hd as [-> _]. change (below (below multipart ?id) "parts") with (parts_directory id) in Hr.
  apply bind_ok in Hr as (names & w7 & Hn & Hr). quiet_step Hn Hs5. unfold io in Hn. apply map_err_ok in Hn.
  pose proof (read_dir_ok _ _ _ _ Hn) as Hnames. clear Hn. change (tree_of w6 _) with (fw_multi w6) in Hnames.
  assert (same_trees w w7) as Hs by (repeat (etrans; [eassumption|]); reflexivity).
  rewrite <- (same_multi _ _ Hs5) in Hnames.
  apply bind_ok in Hr as (numbers & w8 & Hf & Hr). pose proof (keeps_mfor same_trees _ _ _ (λ acc raw, quiet_collect_part _ _ _ _ _ acc raw) _ _ _ Hf) as Hs6.
  apply collect_parts_ok in Hf as (xs & -> & Hin & Hall). destruct (take_page max (bset_of xs)) as [Htr Hcut].
  rewrite Hcut, Htr in Hr. apply bind_ok in Hr as (infos & w9 & Hi & Hr). apply describe_parts_ok in Hi. injection Hr as <- _.
  exists (bset_of xs). split; [done|]. eapply parts_page_same; [exact Hs|]. split; simpl.
  - apply bset_of_sorted.
  - intros n. rewrite elem_of_bset_of. split; [apply Hin|]. intros (Hlt & Hrange & content & Hp). apply Hall; [|done|done].
    apply Hnames. unfold part_at, part_path in Hp. simpl. by destruct (fw_multi w7 !! _).
  - eapply Forall2_impl; [exact Hi|]. intros n i. unfold part_info, part_at. by rewrite (same_multi _ _ Hs6).
  - apply Nat.ltb_lt.
  - done.
Qed.

(** ** Opening and aborting an upload *)

#[local] Instance touches_quiet ps : QuietRel (touches ps).
Proof.
  split; [split|..].
  - intros w. by apply touches_same.
  - intros w1 w2 w3. apply touches_trans.
  - intros w. apply touches_same, quiet_fault.
  - intros w. apply touches_same, quiet_time.
  - intros w. apply touches_same, quiet_wait.
  - intros w c Hc. by apply touches_same, quiet_clock.
Qed.
Lemma create_dir_touches d name w x w' :
  d_root d = RMulti → create_dir d name w = (x, w') →
  touches [d_path d ++ [name]] w w' ∧ (x = Ok tt → fw_multi w !! (d_path d ++ [name]) = None).
Proof.
  intros Hroot. unfold create_dir, sys. destruct (default false _).
  { intros [= <- <-]. split; [apply touches_same, same_next_fault|done]. }
  unfold bind, lookup_in, set_node. rewrite !tree_next_fault, Hroot. change (tree_of w RMulti) with (fw_multi w).
  destruct (_ !! _) as [n|] eqn:En; intros [= <- <-]; (split; [|done]); [apply touches_same, same_next_fault|].
  split; [done|]. split; [done|]. intros p Hp. simpl. rewrite lookup_insert_ne; [done|set_solver].
Qed.
Lemma keeps_owned_dir d name : d_root d = RMulti → keeps (touches [d_path d ++ [name]]) (owned_dir d name).
Proof.
  intros Hd. unfold owned_dir. apply keeps_bind; [apply _| |intros; auto 20 with broker].
  apply keeps_outcome. intros w x w' Hr. by eapply create_dir_touches.
Qed.
(** Only this upload may change. *)
Definition within (id : string) (w w' : World) : Prop :=
  fw_data w' = fw_data w ∧ fw_meta w' = fw_meta w ∧ outside_same id (fw_multi w) (fw_multi w').
Lemma within_same id w w' : same_trees w w' → within id w w'.
Proof. intros Hs. unfold within. by rewrite (same_data _ _ Hs), (same_meta _ _ Hs), (same_multi _ _ Hs). Qed.
Lemma touches_within id ps w w' : Forall (λ p, head p = Some id) ps → touches ps w w' → within id w w'.
Proof.
  intros Hps (HD & HM & HU). split; [done|]. split; [done|]. intros p Hp. apply HU. intros Hin.
  rewrite Forall_forall in Hps. by apply Hp, Hps.
Qed.
#[local] Instance within_quiet id : QuietRel (within id).
Proof.
  split; [split|..].
  - intros w. by apply within_same.
  - intros w1 w2 w3 (D1 & M1 & O1) (D2 & M2 & O2). split; [congruence|]. split; [congruence|].
    intros p Hp. rewrite O2, O1; done.
  - intros w. apply within_same, quiet_fault.
  - intros w. apply within_same, quiet_time.
  - intros w. apply within_same, quiet_wait.
  - intros w c Hc. by apply within_same, quiet_clock.
Qed.
Lemma within_create id : keeps (within id) (create_dir multipart id).
Proof.
  intros w x w' Hr. apply create_dir_touches in Hr as [Ht _]; [|done]. eapply touches_within, Ht. by repeat constructor.
Qed.
Lemma within_owned id name : keeps (within id) (owned_dir (below multipart id) name).
Proof. intros w x w' Hr. eapply touches_within, keeps_owned_dir, Hr; [by repeat constructor|done]. Qed.
Lemma within_manifest cfg id state : keeps (within id) (write_upload_manifest cfg (below multipart id) state).
Proof. intros w x w' Hr. eapply touches_within, write_upload_manifest_run, Hr. by repeat constructor. Qed.
Lemma within_remove id : keeps (within id) (remove_upload (below multipart id)).
Proof. intros w x w' (HD & HM & Hout & _)%remove_upload_run. done. Qed.
#[local] Hint Resolve within_create within_owned within_manifest within_remove : broker.
Lemma within_publish cfg session rq id state : keeps (within id) (publish_upload cfg session rq (below multipart id) state).
Proof. unfold publish_upload. auto 30 with broker. Qed.
Lemma write_upload_manifest_ok cfg id state w w' :
  write_upload_manifest cfg (below multipart id) state w = (Ok tt, w') →
  ∃ data, manifest_to_vec state = Some data ∧ fw_multi w' !! manifest_path id = Some (NFile data 0).
Proof.
  unfold write_upload_manifest. intros Hr. apply bind_ok in Hr as (data & w1 & Hd & Hr). injection Hd as Hd _.
  unfold manifest_bytes in Hd. destruct (manifest_to_vec state) as [bytes|]; [|done]. simpl in Hd.
  destruct (_ <? _)%Z; [done|]. injection Hd as ->. exists data. split; [done|].
  do 5 (apply bind_ok in Hr as ([] & ? & _ & Hr)). apply bind_ok in Hr as ([] & w2 & Hren & Hr). quiet_step Hr Hs.
  unfold io in Hren. apply map_err_ok, rename_into_run in Hren as [(_ & _ & Hb)|(e & ? & _)]; [|done].
  apply became_touches in Hb as [_ Hf]; [|done]. by rewrite (same_multi _ _ Hs).
Qed.
(** An upload for this key with no part yet. *)
Record opened (cfg : FilesystemStoreConfig) (key : string) (w : World) (id : string) : Prop := {
  op_directory : fw_multi w !! [id] = Some NDir;
  op_parts : fw_multi w !! [id; "parts"] = Some NDir;
  op_manifest : ∃ state, manifest_at w id = Some state ∧ mf_key state = key ∧ mf_bucket state = sc_bucket cfg;
}.
Section opens.
Hypothesis manifest_law : ∀ m data, manifest_to_vec m = Some data → manifest_from_slice data = Some m.
Lemma publish_upload_ok cfg session rq id state w w' :
  publish_upload cfg session rq (below multipart id) state w = (Ok tt, w') → mf_bucket state = sc_bucket cfg →
  fw_multi w !! [id] = Some NDir → opened cfg (mf_key state) w' id.
Proof.
  unfold publish_upload. intros Hr Hb Hdir. apply bind_ok in Hr as (d & w1 & Ho & Hr).
  pose proof (keeps_owned_dir (below multipart id) "parts" eq_refl _ _ _ Ho) as (_ & _ & T1).
  unfold owned_dir in Ho. apply bind_ok in Ho as (? & w2 & _ & Ho). apply bind_ok in Ho as (? & w3 & _ & Ho).
  quiet_step Ho Hs1. unfold io in Ho. apply map_err_ok, open_dir_ok in Ho as [_ Hparts]. simpl in Hparts.
  change (fw_multi w3 !! [id; "parts"] = Some NDir) in Hparts. rewrite <- (same_multi _ _ Hs1) in Hparts.
  apply bind_ok in Hr as ([] & w4 & Hc & Hr). quiet_step Hc Hs2.
  apply bind_ok in Hr as ([] & w5 & Hm & Hr). quiet_step Hr Hs3.
  pose proof (write_upload_manifest_run _ _ _ _ _ _ Hm) as (_ & _ & T2).
  apply write_upload_manifest_ok in Hm as (data & Hd%manifest_law & Hf).
  split; unfold manifest_at; rewrite (same_multi _ _ Hs3).
  - rewrite T2, (same_multi _ _ Hs2), T1; [done|..]; unfold manifest_path; simpl; set_solver.
  - rewrite T2, (same_multi _ _ Hs2); [done|]. unfold manifest_path. set_solver.
  - unfold manifest_path in Hf. rewrite Hf. eauto.
Qed.
(** What opening an upload comes to, once the abandoned ones are gone. *)
Lemma create_upload_tail cfg session rq id state w x w' :
  (do? io (create_dir multipart id) in
   let? dir := upload_directory id in
   let? published := outcome (publish_upload cfg session rq dir state) in
   match published with
   | Ok _ => ret id
   | Err e => if is_uncertain e then fail e else do? map_err uncertain (remove_upload dir) in fail e
   end) w = (x, w') → mf_bucket state = sc_bucket cfg →
  (∃ e, x = Err e ∧ same_trees w w') ∨
  fw_multi w !! [id] = None ∧ within id w w' ∧ (∀ id', x = Ok id' → id' = id ∧ opened cfg (mf_key state) w' id).
Proof.
  intros Hr Hb. apply bind_cases in Hr as [([] & w1 & Hc & Hr)|(e & Hc & ->)]; unfold io in Hc.
  2: { apply map_err_err in Hc as (e0 & Hc & _). left. eexists. split; [done|]. unfold create_dir, sys in Hc.
       destruct (default false _); [injection Hc as _ <-; apply same_next_fault|].
       unfold bind, lookup_in, set_node in Hc. destruct (_ !! _); [injection Hc as _ <-; apply same_next_fault|done]. }
  apply map_err_ok in Hc. right. destruct (create_dir_touches multipart id _ _ _ eq_refl Hc) as [_ Hfree]. split; [by apply Hfree|]. pose proof (within_create _ _ _ _ Hc) as W1.
  apply bind_cases in Hr as [(dir & w2 & Hd & Hr)|(e & Hd & ->)]; quiet_step Hd Hs.
  2: { split; [|done]. etrans; [exact W1|by apply within_same]. }
  apply upload_directory_run in Hd as [Hd _]. destruct (Hd _ eq_refl) as (-> & Hdir & _). rewrite <- (same_multi _ _ Hs) in Hdir.
  assert (within id w w2) as W2 by (etrans; [exact W1|by apply within_same]).
  apply bind_cases in Hr as [(published & w3 & Hp%outcome_run & Hr)|(e & He & _)];
    [|by unfold outcome in He; destruct (publish_upload _ _ _ _ _ w2)].
  pose proof (within_publish _ _ _ _ _ _ _ _ Hp) as W3. destruct published as [[]|e].
  - injection Hr as <- <-. split; [by etrans|]. intros id' [= <-]. split; [done|]. by eapply publish_upload_ok.
  - assert (∀ w4, within id w3 w4 → within id w w4) as Htail by (intros w4 W4; etrans; [exact W2|by etrans]).
    destruct (is_uncertain e); [injection Hr as <- <-; split; [by apply Htail|done]|].
    apply bind_cases in Hr as [(u & w4 & Hrm & [= <- <-])|(e1 & Hrm & ->)];
      (split; [apply Htail; eapply keeps_map_err, Hrm; apply within_remove|done]).
Qed.
Lemma spares_within cfg now id w w1 w' :
  spares cfg now w w1 → rooted w id → fw_multi w1 !! [id] = None → within id w1 w' → spares cfg now w w'.
Proof.
  intros [HD HM HL] Hroot Hfree (HD1 & HM1 & Hout). split; [congruence|congruence|]. intros id' p Hlive.
  destruct (decide (id' = id)) as [->|Hne].
  - exfalso. assert (is_Some (fw_multi w !! [id])) as [n Hn].
    { unfold abandoned, manifest_path in Hlive. destruct (fw_multi w !! [id; "manifest"]) eqn:Em; [|done]. by eapply Hroot. }
    rewrite <- (HL id [] Hlive) in Hn. congruence.
  - rewrite Hout; [by apply HL|]. simpl. congruence.
Qed.
(** What creating an upload comes to. *)
Definition create_outcome (cfg : FilesystemStoreConfig) (session : VerifiedFilesystemSession) (key : string)
    (random : option string) (w : World) (x : result FilesystemStoreError string) (w' : World) : Prop :=
  ∃ w1, ticks w w1 ∧ spares cfg (clock_seconds w1) w w' ∧
    ∀ id, x = Ok id → authorized cfg session OpWrite key ∧ b64_encode <$> random = Some id ∧ opened cfg key w' id.
Lemma create_none cfg session key random w e w' :
  same_trees w w' → create_outcome cfg session key random w (Err e) w'.
Proof. intros Hs. exists w. split; [unfold ticks; auto with broker|]. split; [by apply same_trees_spares|done]. Qed.
(** From the removal of the abandoned uploads on. *)
Lemma create_upload_body cfg session rq key random state w x w' :
  (do? prune_multipart_current cfg session rq in
   let? random := lift_result (ok_or random FS_Crypto) in
   let id := b64_encode random in
   do? lock rq session in
   do? io (create_dir multipart id) in
   let? dir := upload_directory id in
   let? published := outcome (publish_upload cfg session rq dir state) in
   match published with
   | Ok _ => ret id
   | Err e => if is_uncertain e then fail e else do? map_err uncertain (remove_upload dir) in fail e
   end) w = (x, w') →
  tree_wf (fw_multi w) → mf_key state = key → mf_bucket state = sc_bucket cfg →
  spares cfg (clock_seconds w) w w' ∧ ∀ id, x = Ok id → b64_encode <$> random = Some id ∧ opened cfg key w' id.
Proof.
  intros Hm Hwf <- Hb.
  apply bind_cases in Hm as [([] & w4 & Hp & Hm)|(e & Hp & ->)]; apply prune_current_run in Hp as [Hsp _]; try done.
  apply bind_cases in Hm as [(r & w5 & Hrand & Hm)|(e & Hrand & ->)]; injection Hrand as Hrand <-; [|done].
  apply ok_or_ok in Hrand as ->. cbv zeta in Hm.
  apply bind_cases in Hm as [([] & w5 & Hl & Hm)|(e & Hl & ->)]; quiet_step Hl Hs5.
  2: { split; [|done]. etrans; [done|by apply same_trees_spares]. }
  assert (spares cfg (clock_seconds w) w w5) as Hsp5 by (etrans; [done|by apply same_trees_spares]).
  apply create_upload_tail in Hm as [(e & -> & Hsm)|(Hfree & Hw & Hok)]; [| |done].
  - split; [|done]. etrans; [done|by apply same_trees_spares].
  - split; [eapply spares_within; [done|by apply tree_wf_rooted|done|done]|].
    intros id Hid. destruct (Hok _ Hid) as [-> Hop]. done.
Qed.
(** Opening an upload.  Whatever fails on the way, no object changes and
    every upload with progress in the last day keeps all its files; when it
    succeeds, the session may write the key, and under the identifier given out,
    made of the random bytes, there is an upload for this key and bucket, ready
    for parts: no live upload is ever taken over. *)
Theorem create_upload_opens cfg session key content_type random rq w x w' :
  tree_wf (fw_multi w) → create_upload cfg session key content_type random rq w = (x, w') →
  create_outcome cfg session key random w x w'.
Proof.
  unfold create_upload. intros Hwf Hr. apply bind_cases in Hr as [(u & w1 & Ha & Hr)|(e & Ha & ->)].
  2: { quiet_step Ha Hs. by apply create_none. }
  quiet_step Ha Hs1. tick_step Ha Ht1. apply authorize_ok in Ha. apply finish_upload_run in Hr as (y & w2 & Hm & Hs2 & Hx).
  enough (create_outcome cfg session key random w y w2) as (w3 & Ht & Hsp & Hok).
  { exists w3. split; [done|]. split; [etrans; [done|by apply same_trees_spares]|]. intros id Hid.
    destruct y as [id'|e]; [|destruct (is_uncertain e); [congruence|by destruct Hx as (? & ? & _); congruence]].
    destruct Hx as [Hx|[e Hx]]; [|congruence]. destruct (Hok id) as (HA & HB & [O1 O2 O3]); [congruence|].
    split; [done|]. split; [done|]. split; unfold manifest_at; rewrite (same_multi _ _ Hs2); done. }
  clear Hs2 Hx x w' u. destruct (is_some_and _ _); [injection Hm as <- <-; by apply create_none|].
  apply bind_cases in Hm as [(now & w3 & Hn & Hm)|(e & Hn & ->)]; quiet_step Hn Hs3; [|apply create_none; by etrans].
  tick_step Hn Ht3. cbv zeta in Hm.
  apply bind_cases in Hm as [(u & w4 & Hb & Hm)|(e & Hb & ->)]; injection Hb as _ <-; [|apply create_none; by etrans].
  assert (same_trees w w3) as Hs by (by etrans). eapply create_upload_body in Hm as [Hsp Hok]; [|by rewrite (same_multi _ _ Hs)|done..].
  exists w3. split; [by etrans|]. split; [etrans; [by apply same_trees_spares|done]|]. intros id Hid. split; [done|by apply Hok].
Qed.
End opens.
(** Aborting an upload.  When it succeeds nothing is left of the upload; on a
    certain error nothing changed; and in no case does an object or another
    upload change.  The upload was opened for this key. *)
Theorem abort_upload_exact cfg session key id rq w x w' :
  abort_upload cfg session key id rq w = (x, w') →
  within id w w' ∧
  match x with
  | Ok _ => authorized cfg session OpWrite key ∧ (∀ p, fw_multi w' !! (id :: p) = None) ∧
      ∃ state, manifest_at w id = Some state ∧ mf_key state = key
  | Err e => is_uncertain e = false → same_trees w w'
  end.
Proof.
  unfold abort_upload. intros Hr. apply bind_cases in Hr as [(u & w1 & Ha & Hr)|(e & Ha & ->)]; quiet_step Ha Hs1.
  2: { split; [by apply within_same|done]. }
  apply authorize_ok in Ha. apply finish_upload_run in Hr as (y & w2 & Hm & Hs2 & Hx).
  set (P := λ (y : result FilesystemStoreError unit) w2, within id w w2 ∧
    match y with
    | Ok _ => (∀ p, fw_multi w2 !! (id :: p) = None) ∧ ∃ state, manifest_at w id = Some state ∧ mf_key state = key
    | Err e => is_uncertain e = false → same_trees w w2
    end).
  enough (P y w2) as [HW Hy].
  { split; [etrans; [done|by apply within_same]|]. rewrite (same_multi _ _ Hs2). destruct y as [[]|e].
    - destruct Hx as [->|[e ->]]; done.
    - destruct (is_uncertain e) eqn:Eu; [subst x; congruence|]. destruct Hx as (e' & -> & _). intros _. etrans; [by apply Hy|done]. }
  clear Hs2 Hx. assert (∀ e w3, is_uncertain e = false → same_trees w w3 → P (Err e) w3) as Hnone.
  { intros e w3 _ Hs. split; [by apply within_same|done]. }
  destruct (negb (upload_id id)); [injection Hm as <- <-; by apply Hnone|].
  refine (early_step P _ _ w _ _ _ Hnone Hs1 _ _ Hm _); [auto with broker..|]. clear Hm. intros _ w3 Hs3 _ Hm.
  refine (early_step P _ _ w _ _ _ Hnone Hs3 _ _ Hm _); [auto with broker..|]. clear Hm. intros [upload state] w4 Hs4 Hc Hm.
  apply current_upload_ok in Hc as (-> & _ & _ & Hman & _ & Hkey). unfold manifest_at in Hman. rewrite (same_multi _ _ Hs3) in Hman.
  cbv beta iota in Hm.
  refine (early_step P _ _ w _ _ _ Hnone Hs4 _ _ Hm _); [auto with broker..|]. clear Hm. intros _ w5 Hs5 _ Hm.
  apply bind_cases in Hm as [([] & w6 & Hrm & Hm)|(e & Hrm & ->)].
  - apply map_err_ok in Hrm. pose proof (within_remove _ _ _ _ Hrm) as HW. apply remove_upload_run in Hrm as (_ & _ & _ & Hgone).
    quiet_step Hm Hs6. split; [etrans; [by apply within_same|]; etrans; [done|by apply within_same]|].
    rewrite (same_multi _ _ Hs6). destruct y as [[]|e]; [split; [by apply Hgone|eauto]|].
    apply map_err_err in Hm as (e0 & _ & ->). by rewrite uncertain_uncertain.
  - apply map_err_err in Hrm as (e0 & Hrm & ->). split; [|by rewrite uncertain_uncertain].
    etrans; [by apply within_same|by eapply within_remove].
Qed.
End multipart.

(** ** Examples *)

#[local] Existing Instance sample_ulid_lib.
#[local] Existing Instance sample_jwt_lib.
(** 32 bytes are written as 43 characters. *)
Definition multipart_session_lib : SessionLib :=
  {| b64_encode := λ s, "base64-url-" +:+ s; b64_decode := λ s, strip_prefix s "base64-url-";
     hmac_sha256 := @hmac_sha256 sample_session_lib; payload_to_vec := @payload_to_vec sample_session_lib;
     payload_from_slice := @payload_from_slice sample_session_lib; url_parse := @url_parse sample_session_lib;
     datetime_fmt := @datetime_fmt sample_session_lib |}.
#[local] Existing Instance multipart_session_lib.
#[local] Existing Instance sample_store_lib.
#[local] Existing Instance sample_dir_order.
Definition sample_leftovers : Leftovers := {| left_behind := λ _ _, true |}.
#[local] Existing Instance sample_leftovers.
Definition sample_manifest_encode (m : Manifest) : string :=
  join sample_line [mf_bucket m; mf_key m; match mf_content_type m with JString s => s | _ => "" end;
                    print_int (mf_created m); print_int (mf_last_progress m)].
Definition sample_manifest_decode (s : string) : option Manifest :=
  match split s sample_line with
  | [bucket; key; ct; created; progress] =>
      created ← parse_int 0 U64_MAX created; progress ← parse_int 0 U64_MAX progress;
      Some {| mf_bucket := bucket; mf_key := key; mf_content_type := if is_empty ct then JNull else JString ct;
              mf_created := created; mf_last_progress := progress |}
  | _ => None
  end.
#[global] Instance sample_manifest_eq_dec : EqDecision Manifest.
Proof. assert (EqDecision jv) by exact sample_jv_eq_dec. solve_decision. Defined.
Definition sample_multipart_lib : MultipartLib :=
  {| manifest_to_vec := λ m, let s := sample_manifest_encode m in
       if decide (sample_manifest_decode s = Some m) then Some s else None;
     manifest_from_slice := sample_manifest_decode |}.
#[local] Existing Instance sample_multipart_lib.
Lemma sample_manifest_law m data :
  @manifest_to_vec _ sample_multipart_lib m = Some data → @manifest_from_slice _ sample_multipart_lib data = Some m.
Proof. simpl. case_decide; [|done]. by intros [= <-]. Qed.
Lemma run_of {E A} (m : M World E A) w x : (m w).1 = x → m w = (x, (m w).2).
Proof. intros <-. apply surjective_pairing. Qed.
Notation sample_id := "base64-url-0123456789abcdef0123456789abcdef".
Notation sample_create := (create_upload sample_cfg sample_session "a/b" (Some "text/plain")
  (Some "0123456789abcdef0123456789abcdef") sample_request).
Notation sample_part n body := (upload_part sample_cfg sample_session "a/b" sample_id n [Ok body] sample_request).
Definition sample_upload_world : World := (sample_create sample_world).2.
Definition sample_parts_world : World := (sample_part 2 "llo" (sample_part 1 "he" sample_upload_world).2).2.
Notation sample_chosen := [({| cp_number := 1; cp_etag := etag (sample_sha256 "he") |}, "he");
                           ({| cp_number := 2; cp_etag := etag (sample_sha256 "llo") |}, "llo")].
Notation sample_complete := (complete_upload sample_cfg sample_session "a/b"
  {| fu_upload_id := sample_id; fu_parts := fst <$> sample_chosen; fu_conditions := sample_conditions |} sample_request).
Lemma create_upload_opens_witness :
  ∃ w', sample_create sample_world = (Ok sample_id, w') ∧ opened sample_cfg "a/b" w' sample_id.
Proof.
  assert ((sample_create sample_world).1 = Ok sample_id) as E%run_of by (vm_compute; reflexivity).
  eexists. split; [exact E|].
  destruct (create_upload_opens sample_manifest_law _ _ _ _ _ _ sample_world _ _ tree_wf_empty E) as (_ & _ & _ & Hok).
  apply (Hok sample_id eq_refl).
Defined.
Lemma abort_upload_exact_witness :
  ∃ w', abort_upload sample_cfg sample_session "a/b" sample_id sample_request sample_parts_world = (Ok tt, w') ∧
    fw_multi w' !! [sample_id] = None.
Proof.
  assert ((abort_upload sample_cfg sample_session "a/b" sample_id sample_request sample_parts_world).1 = Ok tt) as E%run_of
    by (vm_compute; reflexivity).
  eexists. split; [exact E|]. destruct (abort_upload_exact _ _ _ _ _ _ _ _ E) as (_ & _ & Hgone & _). apply Hgone.
Defined.
Lemma complete_upload_refines_witness :
  ∃ x w', sample_complete sample_parts_world = (x, w') ∧ is_ok x = true ∧ authorized sample_cfg sample_session OpWrite "a/b".
Proof.
  assert (is_ok (sample_complete sample_parts_world).1 = true) as Hok by (vm_compute; reflexivity).
  destruct (sample_complete sample_parts_world) as [x w'] eqn:E. exists x, w'. split; [reflexivity|]. split; [exact Hok|].
  eapply (complete_upload_refines sample_cfg sample_session "a/b" _ sample_request sample_parts_world x w');
    [apply tree_wfb_wf; vm_compute; reflexivity..|exact E|left; exact Hok].
Defined.
Notation sample_info n body := {| pi_number := n; pi_etag := etag (sample_sha256 body); pi_size := len body;
  pi_modified := 76 + n |}.
Lemma upload_then_complete_witness :
  ∃ info w', sample_complete sample_parts_world = (Ok info, w') ∧ objects (fw_data w') !! ["a"; "b"] = Some "hello".
Proof.
  assert (is_ok (sample_complete sample_parts_world).1 = true) as Hok by (vm_compute; reflexivity).
  destruct (sample_complete sample_parts_world) as [[info|e] w'] eqn:E; [|discriminate Hok].
  exists info, w'. split; [reflexivity|].
  assert ((sample_part 1 "he" sample_upload_world).1 = Ok (sample_info 1 "he")) as E1%run_of by (vm_compute; reflexivity).
  assert ((sample_part 2 "llo" (sample_part 1 "he" sample_upload_world).2).1 = Ok (sample_info 2 "llo")) as E2%run_of
    by (vm_compute; reflexivity).
  assert (uploading sample_cfg "a/b" sample_id sample_upload_world [] sample_upload_world) as H0u by (constructor; reflexivity).
  pose proof (Uploading_part _ _ _ _ _ _ _ _ _ _ _ "he" _ H0u (not_elem_of_nil _) E1 eq_refl) as H1u.
  assert (uploading sample_cfg "a/b" sample_id sample_upload_world sample_chosen sample_parts_world) as H2u.
  { refine (Uploading_part _ _ _ _ _ _ _ _ _ _ _ "llo" _ H1u _ E2 eq_refl). intros [=]%list_elem_of_singleton. }
  destruct (upload_then_complete sample_cfg "a/b" sample_id sample_upload_world sample_chosen
    sample_parts_world sample_session sample_request sample_conditions sample_chosen info w') as (Hobj & _);
    [apply tree_wfb_wf; vm_compute; reflexivity..|exact H2u|reflexivity|exact E|].
  rewrite Hobj. change (kpath "a/b") with ["a"; "b"]. apply lookup_insert_eq.
Defined.
Notation sample_list_parts := (list_parts sample_cfg sample_session "a/b"
  {| pr_upload_id := sample_id; pr_marker := None; pr_max_parts := Some 1%Z |} sample_request).
Notation sample_parts_page := {| pp_parts := [sample_info 1 "he"]; pp_is_truncated := true; pp_next_marker := Some 1%Z |}.
Lemma list_parts_exact_witness :
  ∃ w' max all, sample_list_parts sample_parts_world = (Ok sample_parts_page, w') ∧
    parts_page sample_parts_world sample_id 0 max all sample_parts_page.
Proof.
  assert ((sample_list_parts sample_parts_world).1 = Ok sample_parts_page) as E%run_of by (vm_compute; reflexivity).
  destruct (list_parts_exact _ _ _ _ _ _ _ _ E) as (max & all & _ & Hp). eexists _, max, all. split; [exact E|exact Hp].
Defined.
(** A day after its last progress. *)
Definition sample_late_world : World :=
  {| fw_data := ∅; fw_meta := ∅; fw_multi := fw_multi sample_parts_world;
     fw_clock := {| mono_at := λ _, 0%Z; utc_at := λ _, (ABANDONED_SECONDS * NANOS + 5000)%Z; tick := 0 |};
     fw_faults := []; fw_times := []; fw_waits := [] |}.
Lemma prune_exact_witness :
  ∃ w', prune_multipart_startup sample_cfg sample_late_world = (Ok tt, w') ∧ fw_multi w' !! [sample_id] = None.
Proof.
  destruct (prune_multipart_startup sample_cfg sample_late_world) as [[[]|e] w'] eqn:E; [|vm_compute in E; discriminate E].
  exists w'. split; [reflexivity|].
  destruct (prune_exact sample_cfg sample_session sample_request (prune_multipart_startup sample_cfg) sample_late_world (Ok tt) w')
    as [_ Hgone]; [apply tree_wfb_wf; vm_compute; reflexivity|by right|exact E|].
  apply (Hgone eq_refl). vm_compute. reflexivity.
Defined.
